(* ===== verification/_CoqProject ===== *)
-Q . S2P
Prelude.v
PathUtil.v
PathScan.v
PathPosix.v
PathWin32.v
PathCommon.v
FixedQueue.v
NextTick.v
Bytes.v
BufferInt.v
Codecs.v
BufferSearch.v
Buffer.v
WebText.v
WebModel.v
BufferText.v
StringDecoder.v
Querystring.v
Idna.v
LegacyUrl.v
UrlFacts.v
Events.v
EventIterator.v
Diff.v
Validators.v
ParseArgs.v
StreamBase.v
BufferList.v
Cipher.v
Supervisor.v
WorkerPool.v
Primes.v
RustPath.v
PackageJson.v
Resolution.v
Vfs.v
FileSystems.v
Ipc.v
WritableState.v
Writable.v
WritableInv.v
WritableRuns.v
ReadableState.v
Readable.v
ReadableInv.v
ReadableRuns.v
