(* ===== verification/Prelude.v ===== *)
(** * A verification development for edge-runtime

    edge-runtime runs JavaScript in isolated workers.  Its server, in Rust
    under src/crates, starts a worker for a request or takes one that is up,
    and supervises what a worker uses; most of its own code is the layer that
    gives programs the modules of Node, in src/crates/node/polyfills.  This
    development models the pool of workers and their supervisors, the virtual
    file system that a deployed function sees, the resolution of modules, and
    the parts of the Node layer that compute or that are state machines: paths,
    buffers and their encodings, decoders, query strings, URLs, domain names,
    events, queues, streams, differences, command lines, ciphers, primes,
    messages between processes.  Paths below are relative to src/crates/node/polyfills, unless
    they start with src.

    ** How the code is modelled

    A JavaScript string is the list of its 16-bit units, a byte an integer
    below 256, an integer of the code an integer of [Z] with the conversions of
    the engine written out where the code relies on them ([to_uint32] and its
    relatives in [Bytes]).  Code that can throw returns [result], whose errors
    carry the error class or the code of Node.  Stateful code passes its state;
    where the source shares mutable objects (the circular buffers of a queue,
    the listener arrays of an emitter) the model has a store and references
    into it.  Every definition is executable, and the examples and witnesses
    evaluate them.

    A loop is structural where the code counts, and otherwise takes fuel.  The
    fuel is computed from the input by the definition itself, and the theorems
    are about the definitions with that fuel, so that they say that the code
    returns.  Where the code can run for ever, the fuel is an argument:
    - [Events.emit] runs code of the program; the theorems hold for every fuel
      with which the run ends.
    - [NextTick.processTicksAndRejections] does too; the theorem says that there
      is enough fuel if the callbacks settle.
    - [Resolution] recurs when types are looked up; [resolve_ends] says when
      some fuel is enough, and that more changes nothing.
    - A search of [Vfs] follows links; two levels are enough in a tree of which
      the links are canonical ([find_entry_correct]).
    - Streams are machines with a step function, without fuel: a run is a
      sequence of steps, and [stream_returns] says that the stream's own steps
      between two calls of the program's code are finitely many.

    ** The files

    - [Prelude]: strings, arrays, slices, results, generic lemmas and tactics.
    - [PathUtil], [PathScan], [PathPosix], [PathWin32], [PathCommon]: the
      modules of path/ (_util.ts, _posix.ts, _win32.ts, common.ts).  [PathScan]
      holds the backward scans that dirname, basename, extname and parse share.
      [PathUtil] gives the reference: a path as a list of segments, on which
      normalizing is a stack; [normalizeString] refines it.
    - [FixedQueue]: internal/fixed_queue.ts, linked circular buffers in a
      store, against a plain list.  The file ends with the instance of the
      interface [Fifo], all that [NextTick] knows of it.
    - [NextTick]: _next_tick.ts, the queue of ticks and the loop that drains
      it, with the callbacks of the program as a parameter.
    - [Bytes], [BufferInt], [Buffer], [BufferSearch], [BufferText]:
      internal/buffer.mjs, internal_binding/buffer.ts and
      internal/normalize_encoding.mjs.
    - [Codecs]: the encodings of internal_binding/_utils.ts.
    - [WebText], [WebModel]: what the code uses of deno_web and deno_core, as
      the interface [WebText] with its laws [WebTextOk], and a model of the
      encoding standard that is an instance, so that the laws can hold.
    - [StringDecoder]: string_decoder.ts, with the buffered incomplete
      characters.
    - [Querystring]: querystring.js and internal/querystring.ts.
    - [Idna]: internal/idna.ts, punycode.ts and src/crates/node/ops/idna.rs;
      the crate idna is the interface [IdnaCrate], and [PunycodeOk] what RFC
      3492 says of the encoding of a label.
    - [LegacyUrl], [UrlFacts]: url.ts, its operations and what holds of them.
    - [Events]: _events.mjs.  Listeners are programs over the operations of the
      emitter, so that they can add, remove and emit while an event is being
      emitted; [EventIterator] is the async iterator of [on].
    - [Diff]: the difference algorithm of _util/std_testing_diff.ts.
    - [Validators]: the checks of arguments of internal/validators.mjs, on
      values as trees.
    - [ParseArgs]: internal/util/parse_args/, from the arguments of a command
      line to tokens, and from tokens to values.
    - [StreamBase], [WritableState], [Writable], [ReadableState], [Readable]:
      the two kinds of streams of _stream.mjs.  A stream is a machine whose
      instructions are the places between two calls of the program's code: the
      sink or the source, callbacks and listeners, which can use the stream
      again at any such place.
    - [WritableInv], [WritableRuns], [ReadableInv], [ReadableRuns]: their
      invariants and what follows for every run.  The runs have a condition on
      the program, [only_calls_back] for the sink of a writable stream and
      [no_nested_read] for the source of a readable one.
    - [BufferList]: internal/streams/buffer_list.mjs, a linked list of chunks in
      a store, against the list of chunks; with an instance of [ChunkList], the
      interface through which readable streams use it.
    - [Cipher]: internal/crypto/cipher.ts with the block cache, over the native
      contexts of src/crates/node/ops/crypto/cipher.rs.  The block ciphers and
      the authentication are the interface [CipherLib] with its laws
      [CipherLibOk]; a toy cipher is an instance.
    - [Supervisor]: src/crates/base/src/rt_worker/supervisor/, the strategies
      per worker and per request as step functions on the events of their
      loops, which may come in any order.
    - [WorkerPool]: src/crates/base/src/rt_worker/worker_pool.rs and the loop
      over its messages in worker_ctx.rs.  A step is a message, or a step of a
      task the pool has spawned, in any order; permits of a semaphore are in a
      table that says who holds them.
    - [Primes]: src/crates/node/ops/crypto/primes.rs and the checks of
      internal/crypto/random.ts.
    - [RustPath], [PackageJson], [Resolution]: strings and paths of Rust, and
      src/crates/node/package_json.rs and resolution.rs.  URLs, the file system
      and the npm resolver are the interface [Host].
    - [Vfs], [FileSystems]: src/crates/sb_fs, the builder of the virtual file
      system, the system that serves it, and the two file systems of workers on
      top of it.  The real file system is the interface [Disk].
    - [Ipc]: src/crates/node/ops/ipc.rs; the reader of the pipe and the JSON
      libraries are the interfaces [AsyncBufRead] and [Json].

    ** What is proved

    Paths: [normalizeString] and [resolve] implement the stack of segments;
    [relative] is a right inverse of [resolve]; Windows paths resolve to
    absolute ones and normalizing is stable; parse and format are inverse;
    [common] is the longest common directory.

    Buffers: every integer writer stores the bytes of the value or throws the
    error of the range that is exceeded, and the reader of the same width gets
    the value back; [copy], [concat], [swap], [compare], [fill] and [write] do
    what they should at every offset; the searches find the first, and what the
    backward one finds is an occurrence; text written is text read, for every
    encoding on the strings it can represent.

    Decoders: however the bytes are cut into chunks, [StringDecoder] produces
    the text of the whole.  Query strings: [parse] inverts [stringify].

    URLs: the scanning loops of url.ts find what definitions without indexes
    find; [parse] undoes [format] on URLs whose parts need no escapes; relative
    references are resolved as a stack of segments, below the root of the host.
    Domain names: units and code points convert back and forth, and a
    domain in Unicode comes back from its ASCII form.

    Queues: a fixed queue is a first-in-first-out queue, and ticks run in the
    order they were scheduled, those that ticks schedule included.

    Events: the registry of listeners implements lists of listeners per name,
    through any sequence of operations that listeners perform; the observers
    ([listenerCount], [eventNames], [listeners]) agree with it; [emit] calls the
    listeners of the moment of the call; a listener added by [once] is invoked
    at most once unless it is observed while being removed; the iterator matches
    the k-th request with the k-th event.

    Command lines: the tokens of a command line print to it again, the values
    are those the tokens give, and every value has the type of its option.

    Stream buffers: the list of chunks is a queue of bytes, whatever mix of
    operations is used.

    Streams: in the runs described above, a writable stream hands the chunks to
    the sink in order and once, finishes after the last of them, calls every
    callback once and owes no 'drain' when it is idle; a readable one delivers
    the bytes in order, does not stall when it flows, emits nothing after its
    end, and [read] returns as many bytes as were asked.

    Ciphers: a message is encrypted to the same bytes however it is cut into
    chunks, what is encrypted decrypts to the message, and the authenticated
    mode accepts exactly the tag of the key, the nonce, the additional data and
    the ciphertext.  Primes: a prime is never called composite, and below the
    square of the first prime after the table the answer is exact.

    Workers: a supervisor ends its worker only for a reason that its limits
    give, and reports it idle once for each request that ended, as long as it
    does so at all; the pool never fails on a message, never has more workers
    with a permit than its limit, gives a worker that serves one request at a
    time to one request only, loses no request, and ends after the last worker.

    Files: the builder refines a map from paths to nodes, a search in its tree
    is correct and ends, a deployed function can change nothing and sees only
    its tree and its static files, and reads what was on the disk.

    Modules: what "exports" gives lies in the package, under the conditions of
    the theorem, and resolution ends.  Messages: what is written to a pipe is
    read from it, whatever the pieces are, and the search with vector
    instructions agrees with the plain one.

    Differences: [diff] returns, its result turns one sequence into the other,
    and no edit script is shorter.

    ** What is not modelled

    Floating point values in buffers, regular expressions, the rendering of
    values as text, and whatever is a call of the host: sockets, files,
    processes, compression, the arithmetic of cryptography.  Of streams,
    [_construct], object mode and decoders of readable streams, pipes, duplex
    streams and exceptions thrown by the program's code.  Of the Rust part, what
    boots isolates, loads and runs modules, installs packages, and serves
    connections.  Each part is listed with the reason in the project file. *)

From Stdlib Require Export ZArith Lia.
From Stdlib Require Import Ascii String.
From stdpp Require Export base tactics numbers list option strings.

#[global] Open Scope Z_scope.

(** ** JavaScript strings

    A JavaScript string is a finite sequence of 16-bit code units; [jsstr] is
    that sequence, each unit a [Z].  [js] turns a Rocq string literal into the
    sequence of its character codes, so that examples read like the source. *)

Abbreviation jsstr := (list Z).

Definition js (s : string) : jsstr :=
  (fun a => Z.of_N (N_of_ascii a)) <$> list_ascii_of_string s.

Declare Scope js_scope.
Delimit Scope js_scope with js.
Arguments js s%_string_scope.

(** [s.length] of a string or an array. *)
Definition len {A} (s : list A) : Z := Z.of_nat (length s).

(** Array indexing [a[i]]; out of range is [undefined], here [None]. *)
Definition at_index {A} (s : list A) (i : Z) : option A :=
  if i <? 0 then None else s !! Z.to_nat i.

(** [s.charCodeAt(i)]: the code unit at [i]; out of range is [NaN], here
    [None], which no [===] test accepts. *)
Definition charCodeAt (s : jsstr) (i : Z) : option Z := at_index s i.

(** [x === c] where [x] is a number or [NaN]/[undefined]. *)
Definition is_code (x : option Z) (c : Z) : bool :=
  match x with Some v => v =? c | None => false end.

(** [x === y] on two numbers, [NaN] being equal to nothing. *)
Definition num_eqb (x y : option Z) : bool :=
  match x, y with Some a, Some b => a =? b | _, _ => false end.

(** The relative index of [slice]: a negative one counts from the end. *)
Definition rel_index (n k : Z) : Z :=
  if k <? 0 then Z.max 0 (n + k) else Z.min k n.

(** [s.slice(a, b)] of strings, arrays and typed arrays. *)
Definition slice {A} (s : list A) (a b : Z) : list A :=
  let from := rel_index (len s) a in
  let to := rel_index (len s) b in
  take (Z.to_nat (to - from)) (drop (Z.to_nat from) s).

(** [s.slice(a)]. *)
Definition slice_from {A} (s : list A) (a : Z) : list A := slice s a (len s).

(** [s === t] on strings. *)
Definition str_eqb (s t : jsstr) : bool := bool_decide (s = t).

(** Does [p] occur at the start of [s]? *)
Fixpoint is_prefix (p s : jsstr) : bool :=
  match p, s with
  | [], _ => true
  | a :: p, b :: s => (a =? b) && is_prefix p s
  | _ :: _, [] => false
  end.

(** [s.lastIndexOf(sep)]: the largest index at which [sep] occurs, or -1.  The
    candidates are the positions [0 .. s.length], from the last one down. *)
Fixpoint lastIndexOf_from (s sep : jsstr) (n : nat) : Z :=
  if is_prefix sep (drop n s) then Z.of_nat n
  else match n with O => -1 | S n' => lastIndexOf_from s sep n' end.

Definition lastIndexOf (s sep : jsstr) : Z := lastIndexOf_from s sep (length s).

(** [parts.join(sep)]. *)
Fixpoint join_with (sep : jsstr) (parts : list jsstr) : jsstr :=
  match parts with
  | [] => []
  | [p] => p
  | p :: ps => p ++ sep ++ join_with sep ps
  end.

(** ASCII text, and [toLowerCase] on it. *)
Definition ascii (s : jsstr) : Prop := Forall (fun c => 0 <= c < 128) s.
Definition ascii_lower (c : Z) : Z := if (65 <=? c) && (c <=? 90) then c + 32 else c.

(** ** Values and errors

    The dynamic values the modelled functions branch on with [typeof] or
    [=== undefined]; an [object] is opaque and carries an identity only. *)

Inductive jsval :=
| JUndefined
| JNull
| JBool (b : bool)
| JNumber (n : Z)
| JString (s : jsstr)
| JObject (id : Z).

(** What a modelled function can throw; [Coded] is an error of internal/errors.ts
    about something the program names. *)
Inductive jserr :=
| ERR_INVALID_ARG_TYPE (name : string) (expected : list string) (actual : jsval)
| ERR_INVALID_ARG_VALUE (name : string)
| ERR_OUT_OF_RANGE (name : string)
| ERR_BUFFER_OUT_OF_BOUNDS
| ERR_INVALID_URI
| ERR_UNKNOWN_ENCODING
| ERR_INVALID_THIS (name : string)
| Coded (code : string) (subject : jsstr)
| TypeError (message : string)
| RangeError (message : string)
| Error (message : string).

(** Code that can throw returns a [result]; [let! x := c in k] runs [c] and
    goes on with its value, or propagates what it threw; [let*] takes a pattern. *)
Inductive result (A : Type) :=
| Ok (a : A)
| Throw (e : jserr).
Arguments Ok {A} a.
Arguments Throw {A} e.

Definition rbind {A B} (c : result A) (k : A -> result B) : result B :=
  match c with Ok a => k a | Throw e => Throw e end.

Notation "'let!' x ':=' c 'in' k" := (rbind c (fun x => k))
  (at level 10, x name, c at level 100, k at level 200) : js_scope.
Notation "'let*' x ':=' c 'in' k" := (rbind c (fun x => k))
  (at level 10, x strict pattern, c at level 100, k at level 200) : js_scope.
#[global] Open Scope js_scope.

(** Updates of a record, one after the other. *)
Notation "x |> f" := (f x) (at level 50, left associativity, only parsing).

#[export] Instance jsval_eq_dec : EqDecision jsval.
Proof. solve_decision. Defined.
#[export] Instance jserr_eq_dec : EqDecision jserr.
Proof. solve_decision. Defined.
#[export] Instance result_eq_dec {A} `{EqDecision A} : EqDecision (result A).
Proof. solve_decision. Defined.

(** ** Automation *)

Create HintDb jsdb.
Create Rewrite HintDb jslen.

(** Case analysis on the boolean tests of a goal or of the hypotheses. *)
Ltac case_if :=
  match goal with
  | |- context [if ?b then _ else _] => destruct b eqn:?
  | H : context [if ?b then _ else _] |- _ => destruct b eqn:?
  end.

Ltac bool_simpl :=
  repeat match goal with
  | H : andb _ _ = true |- _ => apply andb_true_iff in H; destruct H
  | H : orb _ _ = false |- _ => apply orb_false_iff in H; destruct H
  | H : negb _ = true |- _ => apply negb_true_iff in H
  | H : negb _ = false |- _ => apply negb_false_iff in H
  | H : str_eqb _ _ = true |- _ => apply bool_decide_eq_true in H
  | H : str_eqb _ _ = false |- _ => apply bool_decide_eq_false in H
  | H : (_ =? _)%Z = true |- _ => apply Z.eqb_eq in H
  | H : (_ =? _)%Z = false |- _ => apply Z.eqb_neq in H
  end.

(** Linear arithmetic with division and remainder by constants. *)
Ltac div_lia := Z.to_euclidean_division_equations; lia.

(** ** Shared lemmas *)

Lemma is_prefix_spec p s : is_prefix p s = true <-> exists r, s = p ++ r.
Proof.
  revert s. induction p as [|a p IH]; intros s; cbn.
  - split; [by eexists|done].
  - destruct s as [|b s]; [split; [done|by intros [r ?]]|]. rewrite andb_true_iff, Z.eqb_eq, IH. split.
    + intros [-> [r ->]]. by exists r.
    + intros [r [= -> ->]]. by eauto.
Qed.

Lemma str_eqb_refl s : str_eqb s s = true.
Proof. by apply bool_decide_eq_true_2. Qed.

Lemma len_nonneg {A} (s : list A) : 0 <= len s.
Proof. unfold len. lia. Qed.

Lemma len_nil {A} : len (@nil A) = 0.
Proof. done. Qed.

Lemma len_cons {A} (x : A) s : len (x :: s) = 1 + len s.
Proof. unfold len. simpl. lia. Qed.

Lemma len_app {A} (s t : list A) : len (s ++ t) = len s + len t.
Proof. unfold len. rewrite length_app. lia. Qed.

Lemma len_0_nil {A} (s : list A) : len s = 0 -> s = [].
Proof. unfold len. destruct s; [done|simpl; lia]. Qed.

Lemma len_pos {A} (s : list A) : s <> [] -> 0 < len s.
Proof. destruct s; [done|]. rewrite len_cons. pose proof (len_nonneg s). lia. Qed.

Lemma len_pos_inv {A} (s : list A) : 0 < len s -> s <> [].
Proof. intros H ->. unfold len in H. simpl in H. lia. Qed.

Lemma at_index_mid {A} (s : list A) x t : at_index (s ++ x :: t) (len s) = Some x.
Proof.
  unfold at_index, len. destruct (Z.ltb_spec (Z.of_nat (length s)) 0); [lia|].
  rewrite Nat2Z.id. by rewrite list_lookup_middle.
Qed.

Lemma at_index_lookup {A} (s : list A) (i : nat) : at_index s (Z.of_nat i) = s !! i.
Proof.
  unfold at_index. destruct (Z.ltb_spec (Z.of_nat i) 0); [lia|]. by rewrite Nat2Z.id.
Qed.

Lemma slice_mid {A} (p m t : list A) :
  slice (p ++ m ++ t) (len p) (len p + len m) = m.
Proof.
  unfold slice, rel_index. rewrite !len_app.
  pose proof (len_nonneg p). pose proof (len_nonneg m). pose proof (len_nonneg t).
  destruct (Z.ltb_spec (len p) 0); [lia|].
  destruct (Z.ltb_spec (len p + len m) 0); [lia|].
  rewrite !Z.min_l by lia.
  replace (Z.to_nat (len p + len m - len p)) with (length m) by (unfold len; lia).
  replace (Z.to_nat (len p)) with (length p) by (unfold len; lia).
  by rewrite drop_app_length, take_app_length.
Qed.

Lemma slice_prefix {A} (m t : list A) : slice (m ++ t) 0 (len m) = m.
Proof. exact (slice_mid [] m t). Qed.

Lemma slice_from_suffix {A} (p t : list A) : slice_from (p ++ t) (len p) = t.
Proof.
  unfold slice_from. rewrite len_app.
  pose proof (slice_mid p t []) as H. by rewrite app_nil_r in H.
Qed.

(** Every index splits a list. *)
Lemma split_len {A} (b : list A) k :
  0 <= k <= len b -> exists u v, b = u ++ v /\ len u = k.
Proof.
  intros Hk. exists (take (Z.to_nat k) b), (drop (Z.to_nat k) b). rewrite take_drop.
  split; [done|]. unfold len in *. rewrite length_take. lia.
Qed.

Lemma slice_join {A} (b : list A) k : 0 <= k <= len b -> slice b 0 k ++ slice_from b k = b.
Proof.
  intros Hk. destruct (split_len b k Hk) as (u & v & -> & <-).
  by rewrite slice_prefix, slice_from_suffix.
Qed.

Lemma slice_tail {A} (x b t : list A) k :
  0 <= k <= len b -> slice (x ++ b ++ t) (len x + k) (len x + len b) = slice_from b k.
Proof.
  intros Hk. destruct (split_len b k Hk) as (u & v & -> & <-). rewrite slice_from_suffix.
  rewrite <- app_assoc, app_assoc, <- len_app.
  replace (len x + len (u ++ v)) with (len (x ++ u) + len v) by (rewrite !len_app; lia).
  apply slice_mid.
Qed.

Lemma slice_take {A} (l : list A) n : 0 <= n -> slice l 0 n = take (Z.to_nat n) l.
Proof.
  intros Hn. unfold slice, rel_index. pose proof (len_nonneg l). cbn.
  destruct (Z.ltb_spec n 0); [lia|]. rewrite (Z.min_l 0), Z.sub_0_r by lia. cbn [Z.to_nat]. rewrite drop_0.
  destruct (Z.min_spec n (len l)) as [[? ->]|[? ->]]; [done|]. rewrite !take_ge; [done|..]; unfold len in *; lia.
Qed.

Lemma slice_whole {A} (l : list A) : slice l 0 (len l) = l.
Proof. rewrite slice_take by apply len_nonneg. apply take_ge. unfold len. lia. Qed.

Lemma slice_split {A} (l : list A) a b :
  0 <= a <= b -> b <= len l -> slice l a b ++ slice_from l b = slice_from l a.
Proof.
  intros Ha Hb. destruct (split_len l b ltac:(lia)) as (u & w & -> & <-).
  destruct (split_len u a ltac:(lia)) as (v1 & v2 & -> & <-).
  rewrite slice_from_suffix, <- app_assoc, slice_from_suffix, len_app. by rewrite slice_mid.
Qed.

Lemma slice_length {A} (l : list A) a b : 0 <= a <= b -> b <= len l -> len (slice l a b) = b - a.
Proof.
  intros Ha Hb. unfold slice, rel_index. destruct (Z.ltb_spec a 0); [lia|]. destruct (Z.ltb_spec b 0); [lia|].
  rewrite !Z.min_l by lia. unfold len in *. rewrite length_take, length_drop. lia.
Qed.

Lemma take_slice_from {A} (l : list A) n :
  0 <= n <= len l -> take (Z.to_nat n) l ++ slice_from l n = l.
Proof.
  intros Hn. destruct (split_len l n Hn) as (u & v & -> & <-). rewrite slice_from_suffix. unfold len. rewrite Nat2Z.id.
  by rewrite take_app_length.
Qed.

Lemma slice_from_end {A} (l : list A) : slice_from l (len l) = [].
Proof. unfold slice_from, slice. by rewrite Z.sub_diag, take_0. Qed.

Lemma drop_head_Forall {A} (P : A -> Prop) (s : list A) n x xs :
  Forall P s -> drop n s = x :: xs -> P x.
Proof. intros Hs E. apply (Forall_drop _ n) in Hs. rewrite E in Hs. by inversion Hs. Qed.

#[export] Hint Rewrite @len_nil @len_cons @len_app : jslen.
Ltac len_simpl := autorewrite with jslen in *.
