(* ===== verification/PathUtil.v ===== *)
(** * Shared path routines: [path/_util.ts], [path/_constants.ts], [path/common.ts]

    The segment normaliser [normalizeString] with the abstract specification it
    refines (a stack of segments), the formatter [_format] and [common]. *)

From S2P Require Import Prelude.

(** ** Constants of [path/_constants.ts] *)

Definition CHAR_UPPERCASE_A : Z := 65.
Definition CHAR_LOWERCASE_A : Z := 97.
Definition CHAR_UPPERCASE_Z : Z := 90.
Definition CHAR_LOWERCASE_Z : Z := 122.
Definition CHAR_DOT : Z := 46.
Definition CHAR_FORWARD_SLASH : Z := 47.
Definition CHAR_BACKWARD_SLASH : Z := 92.
Definition CHAR_COLON : Z := 58.
Definition CHAR_QUESTION_MARK : Z := 63.

(** ** [path/_util.ts] *)

(** The value that [assertPath] lets through is the string itself. *)
Definition assertPath (path : jsval) : result jsstr :=
  match path with
  | JString s => Ok s
  | v => Throw (ERR_INVALID_ARG_TYPE "path" ["string"] v)
  end.

Definition isPosixPathSeparator (code : option Z) : bool :=
  is_code code CHAR_FORWARD_SLASH.

Definition isPathSeparator (code : option Z) : bool :=
  isPosixPathSeparator code || is_code code CHAR_BACKWARD_SLASH.

Definition isWindowsDeviceRoot (code : option Z) : bool :=
  match code with
  | Some c =>
      ((CHAR_LOWERCASE_A <=? c) && (c <=? CHAR_LOWERCASE_Z))
      || ((CHAR_UPPERCASE_A <=? c) && (c <=? CHAR_UPPERCASE_Z))
  | None => false
  end.

(** The local variables of [normalizeString]. *)
Record ns_state := NS {
  ns_res : jsstr;
  ns_lastSegmentLength : Z;
  ns_lastSlash : Z;
  ns_dots : Z;
  ns_code : option Z
}.

Section NormalizeString.
Context (path : jsstr) (allowAboveRoot : bool) (separator : jsstr)
        (isSep : option Z -> bool).

(** The branch for a [..] segment, lines 62 to 92.  Every way out of it sets
    [lastSlash = i] and [dots = 0] ([continue] or the fall-through to lines 98
    and 99), so what it computes is the new [res] and [lastSegmentLength]. *)
Definition ns_dotdot (res : jsstr) (lsl : Z) : jsstr * Z :=
  let above :=
    if allowAboveRoot
    then (if 0 <? len res then res ++ separator ++ js ".." else js "..", 2)
    else (res, lsl) in
  if (len res <? 2) || negb (lsl =? 2)
     || negb (is_code (charCodeAt res (len res - 1)) CHAR_DOT)
     || negb (is_code (charCodeAt res (len res - 2)) CHAR_DOT)
  then
    if 2 <? len res then
      let lastSlashIndex := lastIndexOf res separator in
      if lastSlashIndex =? -1 then ([], 0)
      else
        let res' := slice res 0 lastSlashIndex in
        (res', len res' - 1 - lastIndexOf res' separator)
    else if (len res =? 2) || (len res =? 1) then ([], 0)
    else above
  else above.

(** One iteration of the loop of line 53; [None] is the [break] of line 55. *)
Definition ns_step (i : Z) (st : ns_state) : option ns_state :=
  let code :=
    if i <? len path then Some (charCodeAt path i)
    else if isSep (ns_code st) then None
    else Some (Some CHAR_FORWARD_SLASH) in
  match code with
  | None => None
  | Some code =>
      let res := ns_res st in
      let lsl := ns_lastSegmentLength st in
      let lastSlash := ns_lastSlash st in
      let dots := ns_dots st in
      if isSep code then
        if (lastSlash =? i - 1) || (dots =? 1) then
          Some (NS res lsl i 0 code)
        else if negb (lastSlash =? i - 1) && (dots =? 2) then
          let '(res', lsl') := ns_dotdot res lsl in
          Some (NS res' lsl' i 0 code)
        else
          let seg := slice path (lastSlash + 1) i in
          let res' := if 0 <? len res then res ++ separator ++ seg else seg in
          Some (NS res' (i - lastSlash - 1) i 0 code)
      else if is_code code CHAR_DOT && negb (dots =? -1) then
        Some (NS res lsl lastSlash (dots + 1) code)
      else Some (NS res lsl lastSlash (-1) code)
  end.

Fixpoint ns_loop (n : nat) (i : Z) (st : ns_state) : ns_state :=
  match n with
  | O => st
  | S n' =>
      match ns_step i st with
      | None => st
      | Some st' => ns_loop n' (i + 1) st'
      end
  end.

(** The loop runs for [i = 0 .. path.length] inclusive. *)
Definition normalizeString : jsstr :=
  ns_res (ns_loop (S (length path)) 0 (NS [] 0 (-1) 0 None)).
End NormalizeString.

(** [FormatInputPathObject] and [ParsedPath] of [path/_interface.ts]. *)
Record FormatInputPathObject := {
  fi_root : option jsstr;
  fi_dir : option jsstr;
  fi_base : option jsstr;
  fi_ext : option jsstr;
  fi_name : option jsstr
}.

Record ParsedPath := {
  pp_root : jsstr;
  pp_dir : jsstr;
  pp_base : jsstr;
  pp_ext : jsstr;
  pp_name : jsstr
}.

(** [a || b] on optional strings: [undefined] and the empty string are falsy. *)
Definition or_str (a b : option jsstr) : option jsstr :=
  match a with
  | Some (_ :: _) => a
  | _ => b
  end.

Definition _format (sep : jsstr) (pathObject : FormatInputPathObject) : jsstr :=
  let dir := or_str (fi_dir pathObject) (fi_root pathObject) in
  let base :=
    default [] (or_str (fi_base pathObject)
      (Some (default [] (or_str (fi_name pathObject) (Some []))
             ++ default [] (or_str (fi_ext pathObject) (Some []))))) in
  match dir with
  | None | Some [] => base
  | Some d =>
      if bool_decide (Some d = fi_root pathObject) then d ++ base
      else d ++ sep ++ base
  end.

(** A parsed path as the argument of [format]. *)
Definition formatted (p : ParsedPath) : FormatInputPathObject :=
  {| fi_root := Some (pp_root p); fi_dir := Some (pp_dir p); fi_base := Some (pp_base p);
     fi_ext := Some (pp_ext p); fi_name := Some (pp_name p) |}.

(** ** [path/common.ts] *)

(** [s.split(sep)] for a one-unit separator [c]. *)
Fixpoint split_on (p : Z -> bool) (cur : jsstr) (s : jsstr) : list jsstr :=
  match s with
  | [] => [cur]
  | c :: s' => if p c then cur :: split_on p [] s' else split_on p (cur ++ [c]) s'
  end.

Definition split (c : Z) (s : jsstr) : list jsstr := split_on (fun x => x =? c) [] s.

(** ** The abstract specification of [normalizeString]

    A path is a list of segments; resolving it pushes each segment on a stack:
    empty and [.] segments are dropped, [..] pops a proper segment and is kept
    only where nothing can be popped and going above the root is allowed.  The
    stack has its last segment first. *)

Definition push (allowAboveRoot : bool) (stack : list jsstr) (seg : jsstr) : list jsstr :=
  if str_eqb seg [] || str_eqb seg (js ".") then stack
  else if str_eqb seg (js "..") then
    match stack with
    | s :: stack' =>
        if str_eqb s (js "..")
        then (if allowAboveRoot then js ".." :: stack else stack)
        else stack'
    | [] => if allowAboveRoot then [js ".."] else []
    end
  else seg :: stack.

Definition segments (isSep : option Z -> bool) (path : jsstr) : list jsstr :=
  split_on (fun c => isSep (Some c)) [] path.

Definition resolve_stack (allow : bool) (segs : list jsstr) : list jsstr :=
  foldl (push allow) [] segs.

(** The text of a stack. *)
Definition render (sepc : Z) (stack : list jsstr) : jsstr :=
  join_with [sepc] (reverse stack).

(** A separator predicate as the two callers pass it. *)
Class SepOk (isSep : option Z -> bool) (sepc : Z) : Prop := {
  sep_self : isSep (Some sepc) = true;
  sep_slash : isSep (Some CHAR_FORWARD_SLASH) = true;
  sep_dot : isSep (Some CHAR_DOT) = false;
  sep_nan : isSep None = false
}.

#[export] Instance posix_sep_ok : SepOk isPosixPathSeparator CHAR_FORWARD_SLASH.
Proof. by split. Qed.

#[export] Instance win32_sep_ok : SepOk isPathSeparator CHAR_BACKWARD_SLASH.
Proof. by split. Qed.

(** A segment has no separator in it. *)
Definition seg_ok (isSep : option Z -> bool) (s : jsstr) : Prop :=
  Forall (fun c => isSep (Some c) = false) s.

Definition stack_ok (isSep : option Z -> bool) (st : list jsstr) : Prop :=
  Forall (fun s => s <> [] /\ seg_ok isSep s) st.

Definition last_len (st : list jsstr) : Z :=
  match st with [] => 0 | s :: _ => len s end.

(** The value of [dots] after scanning a segment. *)
Definition dot_count (s : jsstr) : Z :=
  if forallb (fun c => c =? CHAR_DOT) s then len s else -1.

Lemma join_with_snoc sep ps p :
  join_with sep (ps ++ [p]) = match ps with [] => p | _ => join_with sep ps ++ sep ++ p end.
Proof.
  induction ps as [|q ps IH]; [done|].
  destruct ps as [|r ps]; [done|].
  change (join_with sep ((q :: r :: ps) ++ [p]))
    with (q ++ sep ++ join_with sep ((r :: ps) ++ [p])).
  rewrite IH. change (join_with sep (q :: r :: ps)) with (q ++ sep ++ join_with sep (r :: ps)).
  by rewrite <- !app_assoc.
Qed.

Lemma render_cons c s t st : render c (s :: t :: st) = render c (t :: st) ++ c :: s.
Proof.
  unfold render. rewrite reverse_cons, join_with_snoc.
  destruct (reverse (t :: st)) eqn:E; [|done].
  apply (f_equal length) in E. rewrite length_reverse in E. done.
Qed.

Lemma render_one c s : render c [s] = s.
Proof. done. Qed.

Lemma is_prefix_single c s : is_prefix [c] s = match s with [] => false | x :: _ => c =? x end.
Proof. destruct s; simpl; [done|]. by rewrite andb_true_r. Qed.

Lemma lastIndexOf_from_fresh c p s n :
  Forall (fun x => x <> c) s -> (length p <= n)%nat ->
  lastIndexOf_from (p ++ c :: s) [c] n = len p.
Proof.
  intros Hs Hn. induction n as [|n IH]; cbn [lastIndexOf_from]; rewrite is_prefix_single.
  - destruct p; [|simpl in Hn; lia]. simpl. by rewrite Z.eqb_refl.
  - destruct (decide (length p = S n)) as [E|E].
    + rewrite <- E, drop_app_length. rewrite Z.eqb_refl. done.
    + rewrite drop_app_ge by lia. replace (S n - length p)%nat with (S (n - length p)) by lia.
      simpl. destruct (drop (n - length p) s) as [|x xs] eqn:Ed; [apply IH; lia|].
      pose proof (drop_head_Forall _ _ _ _ _ Hs Ed).
      destruct (Z.eqb_spec c x); [congruence|]. apply IH. lia.
Qed.

Lemma lastIndexOf_from_none c s n :
  Forall (fun x => x <> c) s -> lastIndexOf_from s [c] n = -1.
Proof.
  intros Hs. induction n as [|n IH]; cbn [lastIndexOf_from]; rewrite is_prefix_single;
    destruct (drop _ s) as [|x xs] eqn:Ed; try done.
  all: pose proof (drop_head_Forall _ _ _ _ _ Hs Ed).
  all: destruct (Z.eqb_spec c x); congruence.
Qed.

Lemma lastIndexOf_app c p s :
  Forall (fun x => x <> c) s -> lastIndexOf (p ++ c :: s) [c] = len p.
Proof. intros. apply lastIndexOf_from_fresh; [done|]. rewrite length_app. lia. Qed.

Lemma lastIndexOf_none c s : Forall (fun x => x <> c) s -> lastIndexOf s [c] = -1.
Proof. apply lastIndexOf_from_none. Qed.

Section Refinement.
Context (isSep : option Z -> bool) (sepc : Z) `{!SepOk isSep sepc}.

Lemma seg_ok_fresh s : seg_ok isSep s -> Forall (fun x => x <> sepc) s.
Proof.
  intros H. eapply Forall_impl; [exact H|]. intros x Hx ->.
  simpl in Hx. rewrite sep_self in Hx. done.
Qed.

Lemma render_nonempty s st : s <> [] -> render sepc (s :: st) <> [].
Proof.
  intros Hs. destruct st as [|t st]; [done|].
  rewrite render_cons. intros E. apply app_eq_nil in E as [_ E]. done.
Qed.

(** What the text of a stack ends with. *)
Lemma render_ends s st : exists p, render sepc (s :: st) = p ++ s.
Proof.
  destruct st as [|t st]; [by exists []|].
  rewrite render_cons. exists (render sepc (t :: st) ++ [sepc]).
  by rewrite <- app_assoc.
Qed.

Lemma render_push seg st :
  stack_ok isSep st ->
  (if 0 <? len (render sepc st) then render sepc st ++ [sepc] ++ seg else seg)
  = render sepc (seg :: st).
Proof.
  intros Hst. destruct st as [|t st]; [done|].
  apply Forall_cons in Hst as [[Ht _] _].
  pose proof (len_pos _ (render_nonempty t st Ht)).
  destruct (Z.ltb_spec 0 (len (render sepc (t :: st)))); [|lia].
  by rewrite render_cons.
Qed.

(** The test of lines 63 to 66 says whether the last segment is [..]. *)
Lemma dotdot_test s st :
  (len (render sepc (s :: st)) <? 2) || negb (last_len (s :: st) =? 2)
  || negb (is_code (charCodeAt (render sepc (s :: st)) (len (render sepc (s :: st)) - 1)) CHAR_DOT)
  || negb (is_code (charCodeAt (render sepc (s :: st)) (len (render sepc (s :: st)) - 2)) CHAR_DOT)
  = negb (str_eqb s (js "..")).
Proof.
  destruct (render_ends s st) as [p ->]. simpl last_len. rewrite len_app.
  pose proof (len_nonneg p).
  destruct (Z.eqb_spec (len s) 2) as [Es|Es]; simpl.
  - destruct s as [|a [|b [|? ?]]]; unfold len in Es; simpl in Es; try lia.
    rewrite orb_false_r.
    replace (len p + len [a; b] - 1) with (len (p ++ [a])) by (len_simpl; lia).
    replace (len p + len [a; b] - 2) with (len p) by (len_simpl; lia).
    unfold charCodeAt. rewrite at_index_mid.
    replace (p ++ [a; b]) with ((p ++ [a]) ++ [b]) by (by rewrite <- app_assoc).
    rewrite at_index_mid. simpl.
    destruct (Z.ltb_spec (len p + len [a; b]) 2); [len_simpl; lia|]. simpl.
    unfold str_eqb. change (js "..") with [CHAR_DOT; CHAR_DOT].
    destruct (Z.eqb_spec b CHAR_DOT), (Z.eqb_spec a CHAR_DOT); simpl;
      case_bool_decide; simplify_eq; done.
  - rewrite !orb_true_r. simpl. symmetry. apply negb_true_iff, bool_decide_eq_false.
    intros ->. done.
Qed.

Lemma push_dotdot allow st :
  push allow st (js "..")
  = match st with
    | s :: st' =>
        if str_eqb s (js "..") then (if allow then js ".." :: st else st) else st'
    | [] => if allow then [js ".."] else []
    end.
Proof. reflexivity. Qed.

Lemma ns_dotdot_refines allow st :
  stack_ok isSep st ->
  ns_dotdot allow [sepc] (render sepc st) (last_len st)
  = (render sepc (push allow st (js "..")), last_len (push allow st (js ".."))).
Proof.
  intros Hst. unfold ns_dotdot. rewrite push_dotdot. cbv zeta.
  destruct st as [|s st].
  { simpl. by destruct allow. }
  rewrite dotdot_test. apply Forall_cons in Hst as [[Hs Hsok] Hst].
  assert (Hpos := len_pos _ (render_nonempty s st Hs)).
  destruct (str_eqb s (js "..")) eqn:E; cbn [negb].
  - destruct allow; [|done].
    destruct (Z.ltb_spec 0 (len (render sepc (s :: st)))); [|lia].
    by rewrite render_cons.
  - pose proof (seg_ok_fresh _ Hsok) as Hfresh. destruct st as [|t st].
    + rewrite render_one in *. rewrite lastIndexOf_none by done. simpl Z.eqb.
      case_if; [done|]. destruct (Z.eqb_spec (len s) 2), (Z.eqb_spec (len s) 1); try done.
      lia.
    + apply Forall_cons in Hst as [[Ht Htok] _].
      rewrite render_cons in *. rewrite lastIndexOf_app by done.
      pose proof (len_pos _ (render_nonempty t st Ht)).
      pose proof (len_pos _ Hs).
      destruct (Z.ltb_spec 2 (len (render sepc (t :: st) ++ sepc :: s))); [|len_simpl; lia].
      destruct (Z.eqb_spec (len (render sepc (t :: st))) (-1)); [lia|].
      rewrite slice_prefix. f_equal. simpl last_len.
      pose proof (seg_ok_fresh _ Htok). destruct st as [|u st].
      * rewrite render_one, lastIndexOf_none by done. lia.
      * rewrite render_cons, lastIndexOf_app by done. len_simpl. lia.
Qed.

Lemma push_ok allow st seg :
  stack_ok isSep st -> seg_ok isSep seg -> stack_ok isSep (push allow st seg).
Proof.
  intros Hst Hseg. unfold push.
  assert (Hdd : js ".." <> [] /\ seg_ok isSep (js "..")).
  { split; [done|]. repeat constructor; apply sep_dot. }
  destruct (str_eqb seg []) eqn:E1; [done|]. simpl.
  destruct (str_eqb seg (js ".")); [done|].
  destruct (str_eqb seg (js "..")).
  - destruct st as [|s st']; [destruct allow; [by constructor|constructor]|].
    destruct (str_eqb s (js "..")); [destruct allow; [by constructor|done]|].
    by apply Forall_cons in Hst as [_ ?].
  - constructor; [|done]. bool_simpl. done.
Qed.

Lemma dot_count_snoc s c :
  dot_count (s ++ [c])
  = if (c =? CHAR_DOT) && negb (dot_count s =? -1) then dot_count s + 1 else -1.
Proof.
  unfold dot_count. rewrite forallb_app. simpl. rewrite andb_true_r.
  pose proof (len_nonneg s). destruct (forallb _ s); simpl.
  - destruct (c =? CHAR_DOT); [|done]. simpl.
    destruct (Z.eqb_spec (len s) (-1)); [lia|]. len_simpl. simpl. lia.
  - by rewrite andb_false_r.
Qed.

(** A one-dot and a two-dot count single out [.] and [..]. *)
Lemma dot_count_one s : (dot_count s =? 1) = str_eqb s (js ".").
Proof.
  unfold dot_count, str_eqb. change (js ".") with [CHAR_DOT].
  destruct s as [|a [|b s]]; [done| |]; simpl; case_bool_decide; simplify_eq; try done.
  - destruct (Z.eqb_spec a CHAR_DOT); [congruence|done].
  - case_if; [|done]. pose proof (len_nonneg s). len_simpl. by apply Z.eqb_neq; lia.
Qed.

Lemma dot_count_two s : (dot_count s =? 2) = str_eqb s (js "..").
Proof.
  unfold dot_count, str_eqb. change (js "..") with [CHAR_DOT; CHAR_DOT].
  destruct s as [|a [|b [|c s]]]; [done| | |]; simpl; case_bool_decide; simplify_eq; try done.
  - by destruct (a =? CHAR_DOT).
  - destruct (Z.eqb_spec a CHAR_DOT), (Z.eqb_spec b CHAR_DOT); simpl; congruence.
  - case_if; [|done]. pose proof (len_nonneg s). len_simpl. by apply Z.eqb_neq; lia.
Qed.

Lemma dot_count_nil s : dot_count s = 0 -> s = [].
Proof. unfold dot_count. case_if; [apply len_0_nil|lia]. Qed.

(** The state of the loop after [done ++ cur] was read, [cur] being the
    unfinished segment and [st] the stack of the finished ones. *)
Definition ns_at (done cur : jsstr) (st : list jsstr) (code : option Z) : ns_state :=
  NS (render sepc st) (last_len st) (len done - 1) (dot_count cur) code.

(** An iteration that sees a separator pushes the segment read so far. *)
Lemma ns_step_sep allow done cur rest st code code' :
  stack_ok isSep st -> isSep code' = true ->
  (charCodeAt (done ++ cur ++ rest) (len done + len cur) = code' /\ rest <> []
   \/ rest = [] /\ isSep code = false /\ code' = Some CHAR_FORWARD_SLASH) ->
  ns_step (done ++ cur ++ rest) allow [sepc] isSep (len done + len cur)
    (ns_at done cur st code)
  = Some (NS (render sepc (push allow st cur)) (last_len (push allow st cur))
             (len done + len cur) 0 code').
Proof.
  intros Hst Hcode' Hcode. unfold ns_step, ns_at; cbn [ns_res ns_lastSegmentLength ns_lastSlash ns_dots ns_code].
  set (i := len done + len cur).
  replace (if i <? len (done ++ cur ++ rest) then Some (charCodeAt (done ++ cur ++ rest) i)
           else if isSep code then None else Some (Some CHAR_FORWARD_SLASH))
    with (Some code').
  2:{ subst i. rewrite !len_app. destruct Hcode as [[<- Hr]|(-> & -> & ->)].
      - pose proof (len_pos _ Hr). destruct (Z.ltb_spec (len done + len cur) (len done + (len cur + len rest))); [done|lia].
      - rewrite len_nil, Z.add_0_r, Z.ltb_irrefl. done. }
  rewrite Hcode', dot_count_one, dot_count_two.
  replace (len done - 1 =? i - 1) with (str_eqb cur []).
  2:{ subst i. unfold str_eqb. pose proof (len_nonneg cur).
      case_bool_decide as E; [subst; rewrite len_nil; symmetry; apply Z.eqb_eq; lia|].
      pose proof (len_pos _ E). symmetry. apply Z.eqb_neq. lia. }
  destruct (str_eqb cur [] || str_eqb cur (js ".")) eqn:E1.
  { unfold push. rewrite E1. done. }
  apply orb_false_iff in E1 as [E0 E1]. rewrite E0. simpl andb.
  destruct (str_eqb cur (js "..")) eqn:E2.
  { bool_simpl. subst cur. rewrite ns_dotdot_refines by done. done. }
  replace (push allow st cur) with (cur :: st) by (unfold push; by rewrite E0, E1, E2).
  replace (len done - 1 + 1) with (len done) by lia. subst i.
  rewrite slice_mid, render_push by done. simpl last_len. repeat f_equal. lia.
Qed.

Lemma ns_loop_refines allow rest done cur st code :
  stack_ok isSep st -> seg_ok isSep cur -> (isSep code = true -> cur = []) ->
  ns_res (ns_loop (done ++ cur ++ rest) allow [sepc] isSep (S (length rest))
            (len done + len cur) (ns_at done cur st code))
  = render sepc (foldl (push allow) st (split_on (fun c => isSep (Some c)) cur rest)).
Proof.
  revert done cur st code. induction rest as [|c rest IH]; intros done cur st code Hst Hcur Hcode.
  - cbn [length ns_loop split_on foldl]. destruct (isSep code) eqn:Ecode.
    + rewrite (Hcode eq_refl). unfold ns_step. rewrite !app_nil_r.
      rewrite len_nil, Z.add_0_r, Z.ltb_irrefl. cbn [ns_at ns_code]. by rewrite Ecode.
    + rewrite (ns_step_sep _ _ _ _ _ _ (Some CHAR_FORWARD_SLASH)); [done|done|apply sep_slash|].
      by right.
  - cbn [length]. assert (Hc : charCodeAt (done ++ cur ++ c :: rest) (len done + len cur) = Some c).
    { rewrite app_assoc, <- len_app. apply at_index_mid. }
    cbn [split_on]. remember (S (length rest)) as n. cbn [ns_loop]. subst n.
    destruct (isSep (Some c)) eqn:Ec.
    + rewrite (ns_step_sep _ _ _ _ _ _ (Some c)) by (first [done|left; done]).
      cbn [foldl]. rewrite <- (IH (done ++ cur ++ [c]) [] (push allow st cur) (Some c));
        [|by apply push_ok|constructor|done].
      unfold ns_at. autorewrite with jslen.
      replace ((done ++ cur ++ [c]) ++ [] ++ rest) with (done ++ cur ++ c :: rest)
        by (simpl; rewrite <- (app_assoc done), <- app_assoc; reflexivity).
      replace (len done + (len cur + (1 + 0)) + 0) with (len done + len cur + 1) by lia.
      replace (len done + (len cur + (1 + 0)) - 1) with (len done + len cur) by lia. done.
    + rewrite <- (IH done (cur ++ [c]) st (Some c)); [|done| |by rewrite Ec].
      2:{ apply Forall_app; split; [done|]. by constructor. }
      unfold ns_step at 1, ns_at. cbn [ns_res ns_lastSegmentLength ns_lastSlash ns_dots ns_code].
      rewrite Hc, dot_count_snoc. autorewrite with jslen. pose proof (len_nonneg rest).
      destruct (Z.ltb_spec (len done + len cur) (len done + (len cur + (1 + len rest)))); [|lia].
      rewrite Ec. cbn [is_code]. rewrite <- app_assoc. simpl ([c] ++ rest).
      replace (len done + (len cur + (1 + 0))) with (len done + len cur + 1) by lia.
      by destruct ((c =? CHAR_DOT) && negb (dot_count cur =? -1)).
Qed.

Lemma normalizeString_render allow path :
  normalizeString path allow [sepc] isSep
  = render sepc (resolve_stack allow (segments isSep path)).
Proof.
  apply (ns_loop_refines allow path [] [] [] None); [constructor|constructor|].
  by rewrite sep_nan.
Qed.

(** Splitting the text of a stack gives the stack back. *)
Lemma split_on_ok p cur s :
  Forall (fun c => p c = false) cur ->
  Forall (Forall (fun c => p c = false)) (split_on p cur s).
Proof.
  revert cur. induction s as [|c s IH]; intros cur Hcur; simpl; [by constructor|].
  destruct (p c) eqn:E; [constructor; [done|apply IH; constructor]|].
  apply IH, Forall_app; split; [done|by constructor].
Qed.

Lemma split_on_seg p cur s rest :
  Forall (fun c => p c = false) s -> split_on p cur (s ++ rest) = split_on p (cur ++ s) rest.
Proof.
  intros Hs. revert cur. induction Hs as [|c s Hc Hs IH]; intros cur; simpl; [by rewrite app_nil_r|].
  rewrite Hc, IH. by rewrite <- app_assoc.
Qed.

Lemma split_on_sep p cur c s :
  p c = true -> split_on p cur (c :: s) = cur :: split_on p [] s.
Proof. simpl. by intros ->. Qed.

Lemma segments_join segs :
  segs <> [] -> Forall (seg_ok isSep) segs ->
  segments isSep (join_with [sepc] segs) = segs.
Proof.
  intros Hne Hok. unfold segments. induction Hok as [|s segs Hs Hok IH]; [done|].
  destruct segs as [|t segs].
  - simpl. rewrite <- (app_nil_r s) at 1. by rewrite split_on_seg by done.
  - change (join_with [sepc] (s :: t :: segs)) with (s ++ sepc :: join_with [sepc] (t :: segs)).
    rewrite split_on_seg, split_on_sep by (done || apply sep_self). by rewrite IH.
Qed.

Lemma segments_ok path : Forall (seg_ok isSep) (segments isSep path).
Proof. apply split_on_ok. constructor. Qed.
End Refinement.

(** ** Normal forms *)

(** A proper name: not empty, not [.], not [..], no separator. *)
Definition proper (isSep : option Z -> bool) (s : jsstr) : Prop :=
  s <> [] /\ s <> js "." /\ s <> js ".." /\ seg_ok isSep s.

(** A normal stack: proper names above the leading [..] segments, which only a
    path that may go above its root has. *)
Definition normal (isSep : option Z -> bool) (allow : bool) (st : list jsstr) : Prop :=
  exists names ups,
    st = names ++ replicate ups (js "..") /\ Forall (proper isSep) names
    /\ (allow = false -> ups = O).

Section Normal.
Context (isSep : option Z -> bool) (sepc : Z) `{!SepOk isSep sepc}.

Lemma push_proper allow st s : proper isSep s -> push allow st s = s :: st.
Proof.
  intros (H1 & H2 & H3 & _). unfold push, str_eqb.
  by rewrite !bool_decide_eq_false_2.
Qed.

Lemma push_up allow n names :
  allow = true \/ n = O -> 
  push allow (names ++ replicate n (js "..")) (js "..")
  = match names with
    | s :: names' =>
        if str_eqb s (js "..") then push allow (s :: names' ++ replicate n (js "..")) (js "..")
        else names' ++ replicate n (js "..")
    | [] => if allow then replicate (S n) (js "..") else []
    end.
Proof.
  intros Hn. rewrite push_dotdot. destruct names as [|s names].
  - destruct n; [done|]. destruct Hn as [->|]; done.
  - simpl. destruct (str_eqb s (js "..")) eqn:E; [|done]. rewrite push_dotdot, E. done.
Qed.

Lemma push_normal allow st s :
  normal isSep allow st -> seg_ok isSep s -> normal isSep allow (push allow st s).
Proof.
  intros (names & ups & -> & Hn & Hu) Hs.
  destruct (decide (s = [] \/ s = js ".")) as [Hd|Hd].
  { replace (push _ _ s) with (names ++ replicate ups (js ".."));
      [by exists names, ups|]. by destruct Hd as [-> | ->]. }
  destruct (decide (s = js "..")) as [->|Hdd].
  - rewrite push_up by (destruct allow; auto). destruct names as [|x names].
    + destruct allow; [by exists [], (S ups)|]. by exists [], O.
    + apply Forall_cons in Hn as [(_ & _ & Hx & _) Hn]. unfold str_eqb.
      rewrite bool_decide_eq_false_2 by done. by exists names, ups.
  - assert (Hp : proper isSep s) by (unfold proper; naive_solver).
    rewrite push_proper by done. exists (s :: names), ups. by repeat split; [constructor|].
Qed.

Lemma resolve_normal allow segs :
  Forall (seg_ok isSep) segs -> normal isSep allow (resolve_stack allow segs).
Proof.
  unfold resolve_stack. assert (H0 : normal isSep allow []) by (by exists [], O).
  revert H0. generalize (@nil jsstr) as st. induction segs as [|s segs IH]; intros st Hst Hs; [done|].
  apply Forall_cons in Hs as [Hs Hsegs]. simpl. apply IH; [|done]. by apply push_normal.
Qed.

Lemma resolve_ups allow n : allow = true \/ n = O ->
  foldl (push allow) [] (replicate n (js "..")) = replicate n (js "..").
Proof.
  intros Hn. assert (Hg : forall k, foldl (push allow) (replicate k (js "..")) (replicate n (js ".."))
                               = replicate (n + k) (js "..")).
  { destruct Hn as [-> | ->]; [|done]. induction n as [|n IH]; intros k; [done|].
    cbn [replicate foldl]. pose proof (push_up true k []) as Hp. simpl app in Hp.
    rewrite Hp by auto. rewrite IH. f_equal. lia. }
  specialize (Hg O). by rewrite Nat.add_0_r in Hg.
Qed.

(** Resolving a normal stack again changes nothing. *)
Lemma resolve_stack_normal allow st :
  normal isSep allow st -> resolve_stack allow (reverse st) = st.
Proof.
  intros (names & ups & -> & Hn & Hu). unfold resolve_stack.
  rewrite reverse_app, foldl_app, reverse_replicate, resolve_ups
    by (destruct allow; auto).
  generalize (replicate ups (js "..")) as st. intros st.
  induction Hn as [|s names Hs Hn IH]; [done|].
  rewrite reverse_cons, foldl_app, IH. simpl. by apply push_proper.
Qed.

Lemma segments_render allow st :
  normal isSep allow st -> st <> [] -> segments isSep (render sepc st) = reverse st.
Proof.
  intros (names & ups & -> & Hn & Hu) Hne. apply segments_join; [apply _| |].
  - intros E. apply Hne. rewrite <- (reverse_involutive (names ++ _)). by rewrite E.
  - apply Forall_reverse, Forall_app; split.
    + eapply Forall_impl; [exact Hn|]. by intros ? (_ & _ & _ & ?).
    + apply Forall_replicate. repeat constructor; apply sep_dot.
Qed.

Lemma normalizeString_fixed allow st :
  normal isSep allow st ->
  normalizeString (render sepc st) allow [sepc] isSep = render sepc st.
Proof.
  intros Hst. rewrite (normalizeString_render isSep sepc). destruct st as [|s st]; [done|].
  rewrite (segments_render allow) by done. by rewrite resolve_stack_normal.
Qed.

Lemma normalizeString_normal_stack allow path :
  exists st, normal isSep allow st
    /\ resolve_stack allow (segments isSep path) = st
    /\ normalizeString path allow [sepc] isSep = render sepc st.
Proof.
  eexists; split; [|split; [reflexivity|apply (normalizeString_render isSep sepc)]].
  apply resolve_normal, segments_ok.
Qed.
End Normal.

(** ** Properties *)

(** [normalizeString] with the arguments of the POSIX and of the Windows
    callers implements the segment-stack specification: split the path at its
    separators, resolve the segments on a stack, join what is left. *)
Theorem normalizeString_refines (path : jsstr) (allow : bool) :
  normalizeString path allow (js "/") isPosixPathSeparator
  = join_with (js "/") (reverse (resolve_stack allow (segments isPosixPathSeparator path)))
  /\ normalizeString path allow (js "\") isPathSeparator
     = join_with (js "\") (reverse (resolve_stack allow (segments isPathSeparator path))).
Proof.
  split; [apply (normalizeString_render isPosixPathSeparator CHAR_FORWARD_SLASH)
         |apply (normalizeString_render isPathSeparator CHAR_BACKWARD_SLASH)].
Qed.

(** the result of [normalizeString] is in normal form: some [..] segments,
    none when going above the root is not allowed, followed by proper names
    (not empty, not [.] or [..], without separators). *)
Theorem normalizeString_normal_form (path : jsstr) (allow : bool) :
  exists ups names,
    normalizeString path allow (js "/") isPosixPathSeparator
    = join_with (js "/") (replicate ups (js "..") ++ names)
    /\ Forall (proper isPosixPathSeparator) names
    /\ (allow = false -> ups = O).
Proof.
  destruct (normalizeString_normal_stack isPosixPathSeparator CHAR_FORWARD_SLASH allow path)
    as (st & (names & ups & -> & Hn & Hu) & _ & E).
  exists ups, (reverse names). split; [|split; [by apply Forall_reverse|done]].
  change (js "/") with [CHAR_FORWARD_SLASH]. rewrite E. unfold render.
  by rewrite reverse_app, reverse_replicate.
Qed.

(** normalising twice is normalising once, for both kinds of paths. *)
Theorem normalizeString_idempotent (path : jsstr) (allow : bool) :
  let posix p := normalizeString p allow (js "/") isPosixPathSeparator in
  let win32 p := normalizeString p allow (js "\") isPathSeparator in
  posix (posix path) = posix path /\ win32 (win32 path) = win32 path.
Proof.
  cbv zeta. change (js "/") with [CHAR_FORWARD_SLASH]. change (js "\") with [CHAR_BACKWARD_SLASH].
  destruct (normalizeString_normal_stack isPosixPathSeparator CHAR_FORWARD_SLASH allow path)
    as (st & Hst & _ & ->).
  destruct (normalizeString_normal_stack isPathSeparator CHAR_BACKWARD_SLASH allow path)
    as (st' & Hst' & _ & ->).
  split; eapply normalizeString_fixed; done.
Qed.

(** ** Splitting and joining *)

Lemma split_on_nonempty p cur s : split_on p cur s <> [].
Proof. revert cur. induction s as [|c s IH]; intros cur; simpl; [done|]. destruct (p c); [done|apply IH]. Qed.

Lemma split_nonempty c s : split c s <> [].
Proof. apply split_on_nonempty. Qed.

Lemma split_free c s : Forall (fun l => c ∉ l) (split c s).
Proof.
  eapply Forall_impl; [apply (split_on_ok _ [] s), Forall_nil; done|].
  simpl. intros l Hl Hin. rewrite Forall_forall in Hl. specialize (Hl c Hin). simpl in Hl. lia.
Qed.

Lemma join_cons sep x l : l <> [] -> join_with sep (x :: l) = x ++ sep ++ join_with sep l.
Proof. by destruct l. Qed.

Lemma join_split_on c cur s : join_with [c] (split_on (fun x => x =? c) cur s) = cur ++ s.
Proof.
  revert cur. induction s as [|x s IH]; intros cur; simpl; [by rewrite app_nil_r|].
  destruct (Z.eqb_spec x c) as [->|]; [|by rewrite IH, <- app_assoc].
  by rewrite join_cons, IH by apply split_on_nonempty.
Qed.

Lemma join_split_code c s : join_with [c] (split c s) = s.
Proof. apply join_split_on. Qed.

Lemma split_join_code c l : l <> [] -> Forall (fun x => c ∉ x) l -> split c (join_with [c] l) = l.
Proof.
  intros Hl H. unfold split. induction H as [|x l Hx H IH]; [done|].
  assert (Hf : Forall (fun y => (y =? c) = false) x).
  { apply Forall_forall. intros y Hy. apply Z.eqb_neq. by intros ->. }
  destruct l as [|y l]; [simpl; rewrite <- (app_nil_r x) at 1; by rewrite split_on_seg|].
  rewrite join_cons, split_on_seg by done. cbn [app]. by rewrite split_on_sep, IH by (done || apply Z.eqb_refl).
Qed.
