(* ===== verification/PathScan.v ===== *)
(** * The backward scanners of [path/_posix.ts] and [path/_win32.ts]

    [basename], [extname], [parse] and [dirname] walk a path from its end with
    the same loops in both files.  They are modelled once, over the separator
    test and the lowest index the loop visits, and each is characterised on the
    decomposition of a path into directory part, last segment and trailing
    separators. *)

From S2P Require Import Prelude PathUtil.

Section Scan.
Context (isSep : option Z -> bool) (path : jsstr) (lo : Z).

(** [basename] without an extension: the loop over [i = path.length - 1 .. lo]
    with the variables [start], [end] and [matchedSlash]; [n] iterations are
    left, the next one at [i = lo + n - 1]. *)
Fixpoint base_loop (n : nat) (start end_ : Z) (matchedSlash : bool) : Z * Z :=
  match n with
  | O => (start, end_)
  | S k =>
      let i := lo + Z.of_nat k in
      if isSep (charCodeAt path i) then
        if negb matchedSlash then (i + 1, end_)
        else base_loop k start end_ matchedSlash
      else if end_ =? -1 then base_loop k start (i + 1) false
      else base_loop k start end_ matchedSlash
  end.

(** [basename] with an extension: [start], [end], [matchedSlash], [extIdx] and
    [firstNonSlashEnd]; the result is [start], [end] and [firstNonSlashEnd]. *)
Fixpoint base_ext_loop (ext : jsstr) (n : nat) (start end_ : Z) (matchedSlash : bool)
    (extIdx firstNonSlashEnd : Z) : Z * Z * Z :=
  match n with
  | O => (start, end_, firstNonSlashEnd)
  | S k =>
      let i := lo + Z.of_nat k in
      let code := charCodeAt path i in
      if isSep code then
        if negb matchedSlash then (i + 1, end_, firstNonSlashEnd)
        else base_ext_loop ext k start end_ matchedSlash extIdx firstNonSlashEnd
      else
        let '(matchedSlash, firstNonSlashEnd) :=
          if firstNonSlashEnd =? -1 then (false, i + 1)
          else (matchedSlash, firstNonSlashEnd) in
        if 0 <=? extIdx then
          if num_eqb code (charCodeAt ext extIdx) then
            let extIdx := extIdx - 1 in
            let end_ := if extIdx =? -1 then i else end_ in
            base_ext_loop ext k start end_ matchedSlash extIdx firstNonSlashEnd
          else base_ext_loop ext k start firstNonSlashEnd matchedSlash (-1) firstNonSlashEnd
        else base_ext_loop ext k start end_ matchedSlash extIdx firstNonSlashEnd
  end.

(** The variables of the loop that [extname] and [parse] share. *)
Record dot_state := DS {
  startDot : Z;
  startPart : Z;
  end_of : Z;
  matchedSlash : bool;
  preDotState : Z
}.

Fixpoint dot_loop (n : nat) (st : dot_state) : dot_state :=
  match n with
  | O => st
  | S k =>
      let i := lo + Z.of_nat k in
      let code := charCodeAt path i in
      if isSep code then
        if negb (matchedSlash st) then
          DS (startDot st) (i + 1) (end_of st) (matchedSlash st) (preDotState st)
        else dot_loop k st
      else
        let '(ms, e) :=
          if end_of st =? -1 then (false, i + 1) else (matchedSlash st, end_of st) in
        if is_code code CHAR_DOT then
          if startDot st =? -1 then dot_loop k (DS i (startPart st) e ms (preDotState st))
          else if negb (preDotState st =? 1) then
            dot_loop k (DS (startDot st) (startPart st) e ms 1)
          else dot_loop k (DS (startDot st) (startPart st) e ms (preDotState st))
        else if negb (startDot st =? -1) then
          dot_loop k (DS (startDot st) (startPart st) e ms (-1))
        else dot_loop k (DS (startDot st) (startPart st) e ms (preDotState st))
  end.

(** The test after that loop: there is no extension. *)
Definition no_ext (st : dot_state) : bool :=
  (startDot st =? -1) || (end_of st =? -1) || (preDotState st =? 0)
  || ((preDotState st =? 1) && (startDot st =? end_of st - 1)
      && (startDot st =? startPart st + 1)).

(** [dirname]: the loop over [i = path.length - 1 .. lo]; the result is [end]. *)
Fixpoint dir_loop (n : nat) (matchedSlash : bool) : Z :=
  match n with
  | O => -1
  | S k =>
      let i := lo + Z.of_nat k in
      if isSep (charCodeAt path i) then
        if negb matchedSlash then i else dir_loop k matchedSlash
      else dir_loop k false
  end.
End Scan.

(** ** The decomposition of a path *)

Definition all_sep (isSep : option Z -> bool) (s : jsstr) : Prop :=
  Forall (fun c => isSep (Some c) = true) s.

(** [d] is empty or ends with a separator. *)
Definition dir_part (isSep : option Z -> bool) (d : jsstr) : Prop :=
  d = [] \/ exists d' c, d = d' ++ [c] /\ isSep (Some c) = true.

(** [s] is a directory part [d], a last segment [b] and separators [t]. *)
Record decomp (isSep : option Z -> bool) (s d b t : jsstr) : Prop := {
  dc_eq : s = d ++ b ++ t;
  dc_dir : dir_part isSep d;
  dc_base : b <> [] /\ seg_ok isSep b;
  dc_trail : all_sep isSep t
}.

Lemma decomp_exists isSep s : all_sep isSep s \/ exists d b t, decomp isSep s d b t.
Proof.
  induction s as [|c s IH] using rev_ind; [by left; constructor|].
  destruct (isSep (Some c)) eqn:Ec.
  - destruct IH as [IH|(d & b & t & [-> Hd Hb Ht])].
    + left. apply Forall_app; split; [done|by constructor].
    + right. exists d, b, (t ++ [c]). split; [by rewrite <- !app_assoc|done|done|].
      apply Forall_app; split; [done|by constructor].
  - right. assert (Hlast : exists d b, s = d ++ b /\ dir_part isSep d /\ seg_ok isSep b).
    { clear IH. induction s as [|x s IHs] using rev_ind.
      - exists [], []. split; [done|]. split; [by left|constructor].
      - destruct (isSep (Some x)) eqn:Ex.
        + exists (s ++ [x]), []. split; [by rewrite app_nil_r|]. split; [right; by eauto|constructor].
        + destruct IHs as (d & b & -> & Hd & Hb). exists d, (b ++ [x]).
          split; [by rewrite <- app_assoc|]. split; [done|].
          apply Forall_app; split; [done|by constructor]. }
    destruct Hlast as (d & b & -> & Hd & Hb). exists d, (b ++ [c]), [].
    split; [by rewrite <- !app_assoc|done| |constructor].
    split; [by destruct b|]. apply Forall_app; split; [done|by constructor].
Qed.

Lemma snoc_inv {A} (b : list A) : b <> [] -> exists b' c, b = b' ++ [c].
Proof. destruct b as [|c b' _] using rev_ind; [done|]. by eauto. Qed.

Lemma all_snoc {A} (f : A -> bool) v (s : list A) c :
  Forall (fun x => f x = v) (s ++ [c]) -> Forall (fun x => f x = v) s /\ f c = v.
Proof. intros H. apply Forall_app in H as [? Hc]. by apply Forall_cons in Hc as [??]. Qed.

(** A string has no [c], or it splits at its last [c]. *)
Lemma last_occurrence (c : Z) s :
  Forall (fun x => x <> c) s
  \/ exists a e, s = a ++ c :: e /\ Forall (fun x => x <> c) e.
Proof.
  induction s as [|x s IH] using rev_ind; [by left|].
  destruct (decide (x = c)) as [->|Hx].
  - right. by exists s, [].
  - destruct IH as [IH|(a & e & -> & He)].
    + left. apply Forall_app; split; [done|by constructor].
    + right. exists a, (e ++ [x]). rewrite <- app_assoc. split; [done|].
      apply Forall_app; split; [done|by constructor].
Qed.

Lemma lastIndexOf_bounds c s : -1 <= lastIndexOf s [c] <= len s.
Proof.
  destruct (last_occurrence c s) as [H|(a & e & -> & H)].
  - rewrite lastIndexOf_none by done. pose proof (len_nonneg s). lia.
  - rewrite lastIndexOf_app by done. rewrite len_app, len_cons.
    pose proof (len_nonneg a). pose proof (len_nonneg e). lia.
Qed.

(** The extension of a last segment: what starts at its last dot, unless that
    dot is its first unit or the segment is [..]. *)
Definition ext_of_base (b : jsstr) : jsstr :=
  let k := lastIndexOf b (js ".") in
  if (k <=? 0) || str_eqb b (js "..") then [] else slice_from b k.

(** Two strings compared from their ends. *)
Lemma suffix_cases (b ext : jsstr) :
  (exists b0, b = b0 ++ ext) \/ (exists y, y <> [] /\ ext = y ++ b)
  \/ (exists x c y a m, b = x ++ c :: m /\ ext = y ++ a :: m /\ c <> a).
Proof.
  revert ext. induction b as [|c b IH] using rev_ind; intros ext.
  { destruct (decide (ext = [])) as [->|]; [left; by exists []|].
    right; left. exists ext. by rewrite app_nil_r. }
  destruct ext as [|a ext _] using rev_ind.
  { left. exists (b ++ [c]). by rewrite app_nil_r. }
  destruct (decide (c = a)) as [->|Hne].
  - destruct (IH ext) as [(b0 & ->)|[(y & Hy & ->)|(x & c' & y & a' & m & -> & -> & Hca)]].
    + left. exists b0. by rewrite <- app_assoc.
    + right; left. exists y. split; [done|by rewrite <- app_assoc].
    + right; right. exists x, c', y, a', (m ++ [a]). by rewrite <- !app_assoc.
  - right; right. by exists b, c, ext, a, [].
Qed.

Section ScanLemmas.
Context (isSep : option Z -> bool) (pre p : jsstr).

(** The unit visited when [x ++ [c]] of the scanned part remains. *)
Lemma scan_code x c :
  pre ++ x ++ [c] `prefix_of` p ->
  charCodeAt p (len pre + Z.of_nat (length x)) = Some c.
Proof.
  intros [r ->]. change (Z.of_nat (length x)) with (len x). rewrite <- len_app.
  rewrite <- !app_assoc, app_assoc. apply at_index_mid.
Qed.

Lemma prefix_snoc x t c :
  pre ++ x ++ t ++ [c] `prefix_of` p -> pre ++ (x ++ t) ++ [c] `prefix_of` p.
Proof. by rewrite <- (app_assoc x). Qed.

Lemma prefix_init x t c : pre ++ x ++ t ++ [c] `prefix_of` p -> pre ++ x ++ t `prefix_of` p.
Proof. intros [r ->]. exists ([c] ++ r). by rewrite <- !app_assoc. Qed.

(** One iteration of a loop at the last unit of [x ++ t ++ [c]]. *)
Ltac scan_snoc H :=
  rewrite app_assoc, length_app, Nat.add_comm;
  cbn [length Nat.add base_loop base_ext_loop dot_loop dir_loop];
  rewrite (scan_code _ _ (prefix_snoc _ _ _ H)).

(** Trailing separators are skipped, units of the last segment are passed, and
    the loop stops at the separator before it. *)
Lemma base_loop_trail x t start :
  all_sep isSep t -> pre ++ x ++ t `prefix_of` p ->
  base_loop isSep p (len pre) (length (x ++ t)) start (-1) true
  = base_loop isSep p (len pre) (length x) start (-1) true.
Proof.
  induction t as [|c t IH] using rev_ind; intros Ht Hp; [by rewrite app_nil_r|].
  apply all_snoc in Ht as [Ht Hc].
  scan_snoc Hp. rewrite Hc. apply IH; [done|by eapply prefix_init].
Qed.

Lemma base_loop_run x b start e :
  seg_ok isSep b -> pre ++ x ++ b `prefix_of` p -> e <> -1 ->
  base_loop isSep p (len pre) (length (x ++ b)) start e false
  = base_loop isSep p (len pre) (length x) start e false.
Proof.
  induction b as [|c b IH] using rev_ind; intros Hb Hp He; [by rewrite app_nil_r|].
  apply all_snoc in Hb as [Hb Hc].
  scan_snoc Hp. rewrite Hc. destruct (Z.eqb_spec e (-1)); [done|].
  apply IH; [done|by eapply prefix_init|done].
Qed.

Lemma base_loop_stop d start e :
  dir_part isSep d -> pre ++ d `prefix_of` p ->
  base_loop isSep p (len pre) (length d) start e false
  = (if bool_decide (d = []) then start else len pre + len d, e).
Proof.
  intros [->|(d' & c & -> & Hc)] Hp; [done|].
  rewrite length_app, Nat.add_comm. cbn [length Nat.add base_loop].
  rewrite (scan_code _ _ Hp), Hc. cbn [negb].
  rewrite bool_decide_eq_false_2 by (by destruct d'). f_equal.
  rewrite len_app, len_cons, len_nil. unfold len. lia.
Qed.

Lemma base_loop_decomp d b t start :
  decomp isSep (d ++ b ++ t) d b t -> p = pre ++ d ++ b ++ t ->
  base_loop isSep p (len pre) (length (d ++ b ++ t)) start (-1) true
  = (if bool_decide (d = []) then start else len pre + len d, len pre + len d + len b).
Proof.
  intros [_ Hd [Hbne Hb] Ht] Ep. pose proof (len_nonneg d). pose proof (len_nonneg pre).
  rewrite app_assoc, base_loop_trail; [|done|rewrite Ep, <- app_assoc; by exists []; rewrite app_nil_r].
  destruct (snoc_inv b Hbne) as (b' & c & ->). pose proof (len_nonneg b').
  apply all_snoc in Hb as [Hb Hc].
  assert (Hp : pre ++ d ++ b' ++ [c] `prefix_of` p) by (rewrite Ep; exists t; by rewrite <- !app_assoc).
  scan_snoc Hp. rewrite Hc. cbn [Z.eqb Pos.eqb].
  rewrite length_app, Nat2Z.inj_add. change (Z.of_nat (length d)) with (len d).
  change (Z.of_nat (length b')) with (len b').
  rewrite <- length_app, base_loop_run; [|done|by eapply prefix_init|lia].
  rewrite base_loop_stop; [|done|]. 2:{ rewrite Ep. eexists. by rewrite <- !app_assoc. }
  f_equal. len_simpl. lia.
Qed.

Lemma base_loop_seps t start :
  all_sep isSep t -> p = pre ++ t ->
  base_loop isSep p (len pre) (length t) start (-1) true = (start, -1).
Proof.
  intros Ht Ep. rewrite (base_loop_trail [] t); [done|done|]. subst p. by exists []; rewrite app_nil_r.
Qed.

Lemma dir_loop_trail x t :
  all_sep isSep t -> pre ++ x ++ t `prefix_of` p ->
  dir_loop isSep p (len pre) (length (x ++ t)) true = dir_loop isSep p (len pre) (length x) true.
Proof.
  induction t as [|c t IH] using rev_ind; intros Ht Hp; [by rewrite app_nil_r|].
  apply all_snoc in Ht as [Ht Hc].
  scan_snoc Hp. rewrite Hc. apply IH; [done|by eapply prefix_init].
Qed.

Lemma dir_loop_run x b m :
  seg_ok isSep b -> pre ++ x ++ b `prefix_of` p -> b <> [] \/ m = false ->
  dir_loop isSep p (len pre) (length (x ++ b)) m = dir_loop isSep p (len pre) (length x) false.
Proof.
  revert m. induction b as [|c b IH] using rev_ind; intros m Hb Hp Hm.
  { destruct Hm as [ | -> ]; [done|]. by rewrite app_nil_r. }
  apply all_snoc in Hb as [Hb Hc].
  scan_snoc Hp. rewrite Hc. apply IH; [done|by eapply prefix_init|by right].
Qed.

Lemma dir_loop_decomp d b t :
  decomp isSep (d ++ b ++ t) d b t -> p = pre ++ d ++ b ++ t ->
  dir_loop isSep p (len pre) (length (d ++ b ++ t)) true
  = if bool_decide (d = []) then -1 else len pre + len d - 1.
Proof.
  intros [_ Hd [Hbne Hb] Ht] Ep.
  rewrite app_assoc, dir_loop_trail; [|done|rewrite Ep, <- app_assoc; by exists []; rewrite app_nil_r].
  rewrite dir_loop_run; [|done| |by left].
  2:{ rewrite Ep. eexists. by rewrite <- !app_assoc. }
  destruct Hd as [->|(d' & c & -> & Hc)]; [done|].
  assert (Hp : pre ++ d' ++ [c] `prefix_of` p) by (rewrite Ep; eexists; by rewrite <- !app_assoc).
  rewrite length_app, Nat.add_comm. cbn [length Nat.add dir_loop].
  rewrite (scan_code _ _ Hp), Hc. cbn [negb].
  rewrite bool_decide_eq_false_2 by (by destruct d'). len_simpl. unfold len. lia.
Qed.

Lemma dir_loop_seps t :
  all_sep isSep t -> p = pre ++ t -> dir_loop isSep p (len pre) (length t) true = -1.
Proof.
  intros Ht Ep. etransitivity; [apply (dir_loop_trail [] t Ht)|done].
  subst p. by exists []; rewrite app_nil_r.
Qed.

(** *** The loop of [extname] and [parse] *)

(** [preDotState] after the units [name] in front of the last dot. *)
Definition pre_dot (pd : Z) (name : jsstr) : Z :=
  match name with [] => pd | c :: _ => if c =? CHAR_DOT then 1 else -1 end.

Lemma dot_loop_trail x t sd sp pd :
  all_sep isSep t -> pre ++ x ++ t `prefix_of` p ->
  dot_loop isSep p (len pre) (length (x ++ t)) (DS sd sp (-1) true pd)
  = dot_loop isSep p (len pre) (length x) (DS sd sp (-1) true pd).
Proof.
  induction t as [|c t IH] using rev_ind; intros Ht Hp; [by rewrite app_nil_r|].
  apply all_snoc in Ht as [Ht Hc].
  scan_snoc Hp. rewrite Hc. apply IH; [done|by eapply prefix_init].
Qed.

(** The first unit of the last segment sets [end]. *)
Lemma dot_loop_first x c sd sp pd :
  isSep (Some c) = false -> pre ++ x ++ [c] `prefix_of` p ->
  dot_loop isSep p (len pre) (length (x ++ [c])) (DS sd sp (-1) true pd)
  = dot_loop isSep p (len pre) (length (x ++ [c])) (DS sd sp (len pre + len x + 1) false pd).
Proof.
  intros Hc Hp. rewrite length_app, Nat.add_comm. cbn [length Nat.add dot_loop].
  rewrite (scan_code _ _ Hp), Hc. cbn [end_of matchedSlash].
  pose proof (len_nonneg pre). pose proof (len_nonneg x).
  destruct (Z.eqb_spec (len pre + len x + 1) (-1)); [lia|]. reflexivity.
Qed.

Lemma dot_loop_nodot x e sp en pd :
  seg_ok isSep e -> Forall (fun c => c <> CHAR_DOT) e -> pre ++ x ++ e `prefix_of` p -> en <> -1 ->
  dot_loop isSep p (len pre) (length (x ++ e)) (DS (-1) sp en false pd)
  = dot_loop isSep p (len pre) (length x) (DS (-1) sp en false pd).
Proof.
  induction e as [|c e IH] using rev_ind; intros He Hd Hp Hen; [by rewrite app_nil_r|].
  apply all_snoc in He as [He Hc]. apply Forall_app in Hd as [Hd Hdc].
  apply Forall_cons in Hdc as [Hdc _].
  scan_snoc Hp. rewrite Hc. cbn [end_of matchedSlash startDot startPart preDotState is_code].
  destruct (Z.eqb_spec en (-1)); [done|]. destruct (Z.eqb_spec c CHAR_DOT); [done|]. cbn [negb Z.eqb Pos.eqb].
  apply IH; [done|done|by eapply prefix_init|done].
Qed.

Lemma dot_loop_name x name sd sp en pd :
  seg_ok isSep name -> pre ++ x ++ name `prefix_of` p -> en <> -1 -> sd <> -1 ->
  dot_loop isSep p (len pre) (length (x ++ name)) (DS sd sp en false pd)
  = dot_loop isSep p (len pre) (length x) (DS sd sp en false (pre_dot pd name)).
Proof.
  revert pd. induction name as [|c name IH] using rev_ind; intros pd Hn Hp Hen Hsd; [by rewrite app_nil_r|].
  apply all_snoc in Hn as [Hn Hc].
  assert (Hstep : dot_loop isSep p (len pre) (length (x ++ name ++ [c])) (DS sd sp en false pd)
                  = dot_loop isSep p (len pre) (length (x ++ name))
                      (DS sd sp en false (if c =? CHAR_DOT then 1 else -1))).
  { scan_snoc Hp. rewrite Hc. cbn [end_of matchedSlash startDot startPart preDotState is_code].
    destruct (Z.eqb_spec en (-1)); [done|]. destruct (Z.eqb_spec sd (-1)); [done|].
    destruct (c =? CHAR_DOT); [|done]. cbn [negb]. by destruct (Z.eqb_spec pd 1) as [->|]. }
  rewrite Hstep, IH; [|done|by eapply prefix_init|done|done]. by destruct name.
Qed.

Lemma dot_loop_stop d st :
  dir_part isSep d -> pre ++ d `prefix_of` p -> matchedSlash st = false ->
  dot_loop isSep p (len pre) (length d) st
  = DS (startDot st) (if bool_decide (d = []) then startPart st else len pre + len d)
       (end_of st) false (preDotState st).
Proof.
  intros [->|(d' & c & -> & Hc)] Hp Hm; [destruct st; simpl in *; by rewrite Hm|].
  rewrite length_app, Nat.add_comm. cbn [length Nat.add dot_loop].
  rewrite (scan_code _ _ Hp), Hc, Hm. cbn [negb].
  rewrite bool_decide_eq_false_2 by (by destruct d'). f_equal.
  rewrite len_app, len_cons, len_nil. unfold len. lia.
Qed.

(** The whole loop on a decomposed path, by whether the segment has a dot. *)
Lemma dot_loop_decomp d b t sp :
  decomp isSep (d ++ b ++ t) d b t -> p = pre ++ d ++ b ++ t ->
  let o := len pre + len d in
  let sp' := if bool_decide (d = []) then sp else o in
  let st := dot_loop isSep p (len pre) (length (d ++ b ++ t)) (DS (-1) sp (-1) true 0) in
  (Forall (fun c => c <> CHAR_DOT) b -> st = DS (-1) sp' (o + len b) false 0)
  /\ (forall name e, b = name ++ CHAR_DOT :: e -> Forall (fun c => c <> CHAR_DOT) e ->
      st = DS (o + len name) sp' (o + len b) false (pre_dot 0 name)).
Proof.
  intros [_ Hd [Hbne Hb] Ht] Ep o sp'. pose proof (len_nonneg pre). pose proof (len_nonneg d).
  pose proof (len_nonneg b).
  assert (Hpre : pre ++ d ++ b `prefix_of` p) by (rewrite Ep; exists t; by rewrite <- !app_assoc).
  assert (Hst : dot_loop isSep p (len pre) (length (d ++ b ++ t)) (DS (-1) sp (-1) true 0)
                = dot_loop isSep p (len pre) (length (d ++ b)) (DS (-1) sp (o + len b) false 0)).
  { rewrite app_assoc, dot_loop_trail; [|done|rewrite Ep, <- app_assoc; by exists []; rewrite app_nil_r].
    destruct (snoc_inv b Hbne) as (b' & c & ->). apply all_snoc in Hb as [_ Hc].
    rewrite app_assoc, dot_loop_first; [|done|by rewrite <- app_assoc].
    replace (o + len (b' ++ [c])) with (len pre + len (d ++ b') + 1); [done|].
    subst o. autorewrite with jslen. lia. }
  assert (Hd' : pre ++ d `prefix_of` p) by (rewrite Ep; eexists; by rewrite <- !app_assoc).
  cbv zeta. rewrite Hst. clear Hst Hbne.
  assert (Hen : o + len b <> -1) by lia. revert Hen. generalize (o + len b) as en. intros en Hen.
  assert (Ho : 0 <= o) by lia. split.
  - intros Hnd. rewrite dot_loop_nodot by done. by rewrite dot_loop_stop.
  - intros name e -> He. pose proof (len_nonneg name).
    apply Forall_app in Hb as [Hn Hb]. apply Forall_cons in Hb as [Hdot Hbe].
    change (CHAR_DOT :: e) with ([CHAR_DOT] ++ e) in *.
    rewrite (app_assoc name), (app_assoc d), dot_loop_nodot; [|done|done| |done].
    2:{ by rewrite <- !app_assoc. }
    assert (Hp : pre ++ d ++ name ++ [CHAR_DOT] `prefix_of` p).
    { destruct Hpre as [r Hr]. exists (e ++ r). rewrite Hr. by rewrite <- !app_assoc. }
    scan_snoc Hp. rewrite Hdot. cbn [end_of matchedSlash startDot startPart preDotState is_code].
    destruct (Z.eqb_spec en (-1)); [done|].
    rewrite Z.eqb_refl. cbn [Z.eqb Pos.eqb].
    replace (len pre + Z.of_nat (length (d ++ name))) with (o + len name)
      by (subst o; rewrite length_app; unfold len; lia).
    rewrite dot_loop_name; [|done|by eapply prefix_init|done|lia]. rewrite dot_loop_stop; done.
Qed.

Lemma dot_loop_seps t sp :
  all_sep isSep t -> p = pre ++ t ->
  dot_loop isSep p (len pre) (length t) (DS (-1) sp (-1) true 0) = DS (-1) sp (-1) true 0.
Proof.
  intros Ht Ep. etransitivity; [apply (dot_loop_trail [] t _ _ _ Ht)|done].
  subst p. by exists []; rewrite app_nil_r.
Qed.


(** What the loop and the test after it say of the last segment: the test
    finds no extension exactly when the last dot is missing or first, or when
    the segment is [..] and [startPart] is where the segment starts. *)
Lemma dot_loop_ext d b t sp :
  decomp isSep (d ++ b ++ t) d b t -> p = pre ++ d ++ b ++ t ->
  sp = len pre \/ sp = len pre - 1 ->
  let o := len pre + len d in
  let sp' := if bool_decide (d = []) then sp else o in
  let k := lastIndexOf b (js ".") in
  let st := dot_loop isSep p (len pre) (length (d ++ b ++ t)) (DS (-1) sp (-1) true 0) in
  end_of st = o + len b /\ startPart st = sp'
  /\ no_ext st = (k <=? 0) || (str_eqb b (js "..") && (sp' =? o))
  /\ (0 < k -> startDot st = o + k /\ 0 <= k < len b).
Proof.
  intros Hdc Ep Hsp o sp' k. change (js ".") with [CHAR_DOT] in k. destruct (dot_loop_decomp d b t sp Hdc Ep) as [Hno Hyes].
  fold o in Hno, Hyes. fold sp' in Hno, Hyes.
  assert (Ho : 0 <= o) by (pose proof (len_nonneg pre); pose proof (len_nonneg d); lia).
  assert (Hsp' : sp' = o \/ sp' = o - 1).
  { subst sp' o. case_bool_decide; [|by left]. subst d. rewrite len_nil. lia. }
  clearbody sp' o. cbv zeta. destruct (last_occurrence CHAR_DOT b) as [Hb|(name & e & Eb & He)].
  - rewrite (Hno Hb). subst k. rewrite lastIndexOf_none by done. cbn. repeat split; lia.
  - rewrite (Hyes _ _ Eb He). subst k b. rewrite (lastIndexOf_app CHAR_DOT) by done.
    pose proof (len_nonneg name). pose proof (len_nonneg e).
    cbn [end_of startPart startDot]. repeat split; try (len_simpl; lia).
    unfold no_ext. cbn [end_of startPart startDot preDotState]. rewrite len_app, len_cons.
    destruct (Z.eqb_spec (o + len name) (-1)); [lia|].
    destruct (Z.eqb_spec (o + (len name + (1 + len e))) (-1)); [lia|]. cbn [orb].
    destruct name as [|c name]; [done|]. rewrite len_cons in *. pose proof (len_nonneg name).
    destruct (Z.leb_spec (1 + len name) 0); [lia|]. cbn [pre_dot orb]. unfold str_eqb.
    change (js "..") with [CHAR_DOT; CHAR_DOT].
    destruct (Z.eqb_spec c CHAR_DOT) as [->|Hc]; cbn [Z.eqb Pos.eqb orb andb];
      [|rewrite bool_decide_eq_false_2; [done|cbn [app]; congruence]].
    destruct name as [|c' name]; cbn [app].
    + destruct e as [|c e]; rewrite ?len_nil, ?len_cons in *.
      * rewrite bool_decide_eq_true_2 by done. cbn [andb].
        destruct (Z.eqb_spec (o + (1 + 0)) (sp' + 1)), (Z.eqb_spec sp' o); lia.
      * rewrite bool_decide_eq_false_2 by congruence.
        pose proof (len_nonneg e). cbn [andb]. lia.
    + rewrite len_cons in *. pose proof (len_nonneg name).
      rewrite bool_decide_eq_false_2 by (by destruct name). cbn [andb]. lia.
Qed.

(** *** The loop of [basename] with an extension *)

Lemma base_ext_trail ext x t start k :
  all_sep isSep t -> pre ++ x ++ t `prefix_of` p ->
  base_ext_loop isSep p (len pre) ext (length (x ++ t)) start (-1) true k (-1)
  = base_ext_loop isSep p (len pre) ext (length x) start (-1) true k (-1).
Proof.
  induction t as [|c t IH] using rev_ind; intros Ht Hp; [by rewrite app_nil_r|].
  apply all_snoc in Ht as [Ht Hc].
  scan_snoc Hp. rewrite Hc. apply IH; [done|by eapply prefix_init].
Qed.

Lemma base_ext_first ext x c start e k :
  isSep (Some c) = false -> pre ++ x ++ [c] `prefix_of` p ->
  base_ext_loop isSep p (len pre) ext (length (x ++ [c])) start e true k (-1)
  = base_ext_loop isSep p (len pre) ext (length (x ++ [c])) start e false k (len pre + len x + 1).
Proof.
  intros Hc Hp. rewrite length_app, Nat.add_comm. cbn [length Nat.add base_ext_loop].
  rewrite (scan_code _ _ Hp), Hc.
  pose proof (len_nonneg pre). pose proof (len_nonneg x).
  destruct (Z.eqb_spec (len pre + len x + 1) (-1)); [lia|]. reflexivity.
Qed.

(** The extension was matched or failed to match: the rest is passed over. *)
Lemma base_ext_run ext x b start e f :
  seg_ok isSep b -> pre ++ x ++ b `prefix_of` p -> f <> -1 ->
  base_ext_loop isSep p (len pre) ext (length (x ++ b)) start e false (-1) f
  = base_ext_loop isSep p (len pre) ext (length x) start e false (-1) f.
Proof.
  induction b as [|c b IH] using rev_ind; intros Hb Hp Hf; [by rewrite app_nil_r|].
  apply all_snoc in Hb as [Hb Hc].
  scan_snoc Hp. rewrite Hc. destruct (Z.eqb_spec f (-1)); [done|]. cbn [Z.leb Z.compare].
  apply IH; [done|by eapply prefix_init|done].
Qed.

Lemma base_ext_stop ext d start e k f :
  dir_part isSep d -> pre ++ d `prefix_of` p ->
  base_ext_loop isSep p (len pre) ext (length d) start e false k f
  = (if bool_decide (d = []) then start else len pre + len d, e, f).
Proof.
  intros [->|(d' & c & -> & Hc)] Hp; [done|].
  rewrite length_app, Nat.add_comm. cbn [length Nat.add base_ext_loop].
  rewrite (scan_code _ _ Hp), Hc. cbn [negb].
  rewrite bool_decide_eq_false_2 by (by destruct d'). do 2 f_equal.
  rewrite len_app, len_cons, len_nil. unfold len. lia.
Qed.

(** Units [m] that agree with the extension [y ++ m] move [extIdx] down. *)
Lemma base_ext_match ext x m y r start e f :
  ext = y ++ m ++ r -> seg_ok isSep m -> pre ++ x ++ m `prefix_of` p -> f <> -1 -> y <> [] ->
  base_ext_loop isSep p (len pre) ext (length (x ++ m)) start e false (len y + len m - 1) f
  = base_ext_loop isSep p (len pre) ext (length x) start e false (len y - 1) f.
Proof.
  revert r. induction m as [|c m IH] using rev_ind; intros r Hext Hm Hp Hf Hy.
  { rewrite !app_nil_r, len_nil, Z.add_0_r. done. }
  apply all_snoc in Hm as [Hm Hc]. pose proof (len_pos y Hy). pose proof (len_nonneg m).
  rewrite <- app_assoc in Hext.
  replace (len y + len (m ++ [c]) - 1) with (len (y ++ m)) by (len_simpl; lia).
  scan_snoc Hp. rewrite Hc. destruct (Z.eqb_spec f (-1)); [done|].
  destruct (Z.leb_spec 0 (len (y ++ m))); [|pose proof (len_nonneg (y ++ m)); lia].
  replace (charCodeAt ext (len (y ++ m))) with (Some c).
  2:{ unfold charCodeAt. rewrite Hext, app_assoc. simpl. by rewrite at_index_mid. }
  cbn [num_eqb]. rewrite Z.eqb_refl, len_app.
  destruct (Z.eqb_spec (len y + len m - 1) (-1)); [lia|].
  eapply IH; [exact Hext|done|by eapply prefix_init|done|done].
Qed.

(** The next unit disagrees with the extension, or completes it. *)
Lemma base_ext_next x c a y m start e f :
  isSep (Some c) = false -> pre ++ x ++ [c] `prefix_of` p -> f <> -1 ->
  base_ext_loop isSep p (len pre) (y ++ a :: m) (length (x ++ [c])) start e false (len y) f
  = if c =? a then
      base_ext_loop isSep p (len pre) (y ++ a :: m) (length x) start
        (if bool_decide (y = []) then len pre + len x else e) false (len y - 1) f
    else base_ext_loop isSep p (len pre) (y ++ a :: m) (length x) start f false (-1) f.
Proof.
  intros Hc Hp Hf. rewrite length_app, Nat.add_comm. cbn [length Nat.add base_ext_loop].
  rewrite (scan_code _ _ Hp), Hc. destruct (Z.eqb_spec f (-1)); [done|].
  pose proof (len_nonneg y). destruct (Z.leb_spec 0 (len y)); [|lia].
  unfold charCodeAt at 1. rewrite at_index_mid. cbn [num_eqb]. destruct (c =? a); [|done].
  replace (len y - 1 =? -1) with (bool_decide (y = [])); [done|].
  case_bool_decide as E; [by subst|]. pose proof (len_pos y E).
  symmetry. apply Z.eqb_neq. lia.
Qed.

(** The whole loop: [end] is where a matched extension starts, the end of the
    segment after a mismatch, and stays -1 when the segment is a proper suffix
    of the extension. *)
Lemma base_ext_decomp ext d b t start :
  decomp isSep (d ++ b ++ t) d b t -> p = pre ++ d ++ b ++ t -> ext <> [] ->
  let o := len pre + len d in
  let start' := if bool_decide (d = []) then start else o in
  let r := base_ext_loop isSep p (len pre) ext (length (d ++ b ++ t)) start (-1) true
             (len ext - 1) (-1) in
  (forall b0, b = b0 ++ ext -> r = (start', o + len b0, o + len b))
  /\ (forall y, y <> [] -> ext = y ++ b -> r = (start', -1, o + len b))
  /\ (forall x c y a m, b = x ++ c :: m -> ext = y ++ a :: m -> c <> a ->
      r = (start', o + len b, o + len b)).
Proof.
  intros [_ Hd [Hbne Hb] Ht] Ep Hext o start'.
  assert (Hpre : pre ++ d ++ b `prefix_of` p) by (rewrite Ep; exists t; by rewrite <- !app_assoc).
  assert (Hd' : pre ++ d `prefix_of` p) by (rewrite Ep; eexists; by rewrite <- !app_assoc).
  assert (Hst : base_ext_loop isSep p (len pre) ext (length (d ++ b ++ t)) start (-1) true (len ext - 1) (-1)
                = base_ext_loop isSep p (len pre) ext (length (d ++ b)) start (-1) false (len ext - 1) (o + len b)).
  { rewrite app_assoc, base_ext_trail; [|done|rewrite Ep, <- app_assoc; by exists []; rewrite app_nil_r].
    destruct (snoc_inv b Hbne) as (b' & c & ->). apply all_snoc in Hb as [_ Hc].
    rewrite app_assoc, base_ext_first; [|done|by rewrite <- app_assoc].
    f_equal. subst o. autorewrite with jslen. lia. }
  assert (Hf : o + len b <> -1).
  { pose proof (len_nonneg b). pose proof (len_nonneg pre). pose proof (len_nonneg d). subst o. lia. }
  cbv zeta. rewrite Hst. clear Hst Ep. revert Hf. generalize (o + len b) as f. intros f Hf. repeat split.
  - intros b0 ->. destruct ext as [|a m]; [done|].
    apply Forall_app in Hb as [Hb0 Hb]. apply Forall_cons in Hb as [Ha Hm].
    replace (d ++ b0 ++ a :: m) with ((d ++ b0 ++ [a]) ++ m) by (rewrite <- !app_assoc; done).
    assert (Hpa : pre ++ (d ++ b0 ++ [a]) ++ m `prefix_of` p)
      by (destruct Hpre as [r ->]; exists r; rewrite <- !app_assoc; done).
    replace (len (a :: m) - 1) with (len [a] + len m - 1) by (len_simpl; lia).
    rewrite (base_ext_match (a :: m) (d ++ b0 ++ [a]) m [a] [])
      by (done || by rewrite app_nil_r).
    change (len [a] - 1) with (len (@nil Z)).
    rewrite app_assoc, (base_ext_next (d ++ b0) a a [] m);
      [|done|destruct Hpa as [r ->]; exists (m ++ r); rewrite <- !app_assoc; done|done].
    rewrite Z.eqb_refl, bool_decide_eq_true_2 by done. change (len [] - 1) with (-1).
    rewrite base_ext_run, base_ext_stop; [|done|done|done| |done].
    2:{ destruct Hpre as [r ->]. eexists. by rewrite <- !app_assoc. }
    subst o. rewrite len_app. do 2 f_equal. lia.
  - intros y Hy ->. rewrite len_app, (base_ext_match (y ++ b) d b y []) by (done || by rewrite app_nil_r).
    by rewrite base_ext_stop.
  - intros x c y a m -> -> Hca.
    apply Forall_app in Hb as [Hx Hb]. apply Forall_cons in Hb as [Hc Hm].
    replace (d ++ x ++ c :: m) with ((d ++ x ++ [c]) ++ m) by (rewrite <- !app_assoc; done).
    assert (Hpa : pre ++ (d ++ x ++ [c]) ++ m `prefix_of` p)
      by (destruct Hpre as [r ->]; exists r; rewrite <- !app_assoc; done).
    replace (len (y ++ a :: m) - 1) with (len (y ++ [a]) + len m - 1) by (len_simpl; lia).
    rewrite (base_ext_match (y ++ a :: m) (d ++ x ++ [c]) m (y ++ [a]) []);
      [|by rewrite app_nil_r, <- app_assoc|done|done|done|by destruct y].
    replace (len (y ++ [a]) - 1) with (len y) by (len_simpl; lia).
    rewrite (app_assoc d), base_ext_next;
      [|done|destruct Hpa as [r ->]; exists (m ++ r); rewrite <- !app_assoc; done|done].
    destruct (Z.eqb_spec c a); [done|].
    rewrite base_ext_run, base_ext_stop; [done|done|done|done| |done].
    destruct Hpre as [r ->]. eexists. by rewrite <- !app_assoc.
Qed.
End ScanLemmas.

(** ** The last segment *)

(** The reference for [basename]: the last segment that is not empty. *)
Definition last_segment (isSep : option Z -> bool) (path : jsstr) : jsstr :=
  default [] (last (filter (fun s => s <> []) (segments isSep path))).

(** Cutting an extension off a segment: only a proper suffix is cut. *)
Definition strip_ext (b ext : jsstr) : jsstr :=
  let n := (length b - length ext)%nat in
  if bool_decide (drop n b = ext /\ b <> ext) then take n b else b.

Lemma split_on_app p cur x c y :
  p c = true -> split_on p cur (x ++ c :: y) = split_on p cur x ++ split_on p [] y.
Proof.
  intros Hc. revert cur. induction x as [|a x IH]; intros cur; simpl; [by rewrite Hc|].
  destruct (p a); [by rewrite IH|apply IH].
Qed.

Lemma split_on_seps p b t :
  Forall (fun c => p c = true) t -> split_on p b t = b :: replicate (length t) [].
Proof.
  intros Ht. revert b. induction Ht as [|c t Hc Ht IH]; intros b; simpl; [done|].
  by rewrite Hc, IH.
Qed.

Lemma filter_nil_replicate n : filter (fun s : jsstr => s <> []) (replicate n []) = [].
Proof. induction n; [done|]. simpl. rewrite filter_cons_False; [done|tauto]. Qed.

Lemma last_segment_decomp isSep s d b t :
  decomp isSep s d b t -> last_segment isSep s = b.
Proof.
  intros [-> Hd [Hbne Hb] Ht]. unfold last_segment, segments.
  assert (Hbt : split_on (fun c => isSep (Some c)) [] (b ++ t) = b :: replicate (length t) []).
  { rewrite split_on_seg by done. by apply split_on_seps. }
  assert (Hl : forall l, last (filter (fun s : jsstr => s <> []) (l ++ b :: replicate (length t) [])) = Some b).
  { intros l. rewrite filter_app, filter_cons_True, filter_nil_replicate by done. by rewrite last_snoc. }
  destruct Hd as [->|(d' & c & -> & Hc)].
  - rewrite app_nil_l, Hbt. specialize (Hl []). rewrite app_nil_l in Hl. by rewrite Hl.
  - rewrite <- app_assoc. change ([c] ++ b ++ t) with (c :: b ++ t).
    rewrite split_on_app, Hbt, Hl by done. done.
Qed.

Lemma last_segment_seps isSep s : all_sep isSep s -> last_segment isSep s = [].
Proof.
  intros Hs. unfold last_segment, segments. rewrite split_on_seps by done.
  by rewrite filter_cons_False, filter_nil_replicate by tauto.
Qed.

Lemma last_segment_cons isSep c s :
  isSep (Some c) = true -> last_segment isSep (c :: s) = last_segment isSep s.
Proof.
  intros Hc. unfold last_segment, segments. rewrite split_on_sep by done.
  by rewrite filter_cons_False by tauto.
Qed.

Lemma strip_ext_suffix b0 ext : b0 <> [] -> strip_ext (b0 ++ ext) ext = b0.
Proof.
  intros Hb. unfold strip_ext. rewrite length_app, Nat.add_sub.
  rewrite drop_app_length, take_app_length, bool_decide_eq_true_2; [done|].
  split; [done|]. intros E. apply (f_equal length) in E. rewrite length_app in E.
  destruct b0; [done|simpl in E; lia].
Qed.

Lemma strip_ext_self b : strip_ext b b = b.
Proof. unfold strip_ext. rewrite bool_decide_eq_false_2; [done|tauto]. Qed.

Lemma strip_ext_mismatch x c y a m : c <> a -> strip_ext (x ++ c :: m) (y ++ a :: m) = x ++ c :: m.
Proof.
  intros Hca. unfold strip_ext. rewrite bool_decide_eq_false_2; [done|]. intros [E _].
  apply (f_equal reverse) in E.
  assert (Hp : reverse (drop (length (x ++ c :: m) - length (y ++ a :: m)) (x ++ c :: m))
               `prefix_of` reverse (x ++ c :: m)).
  { exists (reverse (take (length (x ++ c :: m) - length (y ++ a :: m)) (x ++ c :: m))).
    by rewrite <- reverse_app, take_drop. }
  rewrite E in Hp. rewrite !reverse_app, !reverse_cons, <- !app_assoc in Hp.
  apply prefix_app_inv in Hp. apply prefix_cons_inv_1 in Hp. done.
Qed.

Lemma strip_ext_longer y b : y <> [] -> strip_ext b (y ++ b) = b.
Proof.
  intros Hy. unfold strip_ext. rewrite bool_decide_eq_false_2; [done|]. intros [E _].
  apply (f_equal length) in E. rewrite length_drop, length_app in E.
  destruct y; [done|simpl in E; lia].
Qed.

(** ** Rendered normal stacks *)

Section Rendered.
Context (isSep : option Z -> bool) (sepc : Z) `{!SepOk isSep sepc}.

Lemma normal_seg allow st s : normal isSep allow st -> s ∈ st -> s <> [] /\ seg_ok isSep s.
Proof.
  intros (names & ups & -> & Hn & _) Hs. apply elem_of_app in Hs as [Hs|Hs].
  - rewrite Forall_forall in Hn. destruct (Hn s Hs) as (? & _ & _ & ?). done.
  - apply elem_of_replicate in Hs as [-> _]. split; [done|]. repeat constructor; apply (sep_dot (sepc := sepc)).
Qed.

(** The first and the last unit of a rendered normal stack are no separators. *)
Lemma rendered_last allow s st :
  normal isSep allow (s :: st) -> exists q c, render sepc (s :: st) = q ++ [c] /\ isSep (Some c) = false.
Proof.
  intros Hst. destruct (normal_seg _ _ s Hst) as [Hne Hok]; [by left|].
  destruct (render_ends sepc s st) as [q ->]. destruct (snoc_inv s Hne) as (s' & c & ->).
  exists (q ++ s'), c. rewrite app_assoc. split; [done|]. by apply all_snoc in Hok as [_ Hc].
Qed.

Lemma rendered_head allow s st :
  normal isSep allow (s :: st) -> exists c q, render sepc (s :: st) = c :: q /\ isSep (Some c) = false.
Proof.
  intros Hst. assert (Hall : forall x, x ∈ s :: st -> x <> [] /\ seg_ok isSep x)
    by (intros; by eapply normal_seg).
  clear Hst. revert s Hall. induction st as [|u st IH]; intros s Hall.
  - destruct (Hall s) as [Hne Hok]; [by left|]. destruct s as [|c s]; [done|].
    apply Forall_cons in Hok as [Hc _]. by exists c, s.
  - rewrite render_cons. destruct (IH u) as (c & q & -> & Hc); [intros x Hx; apply Hall; by right|].
    by exists c, (q ++ sepc :: s).
Qed.

(** Separators around a path do not change its resolution. *)
Lemma resolve_trail allow x :
  resolve_stack allow (segments isSep (x ++ [sepc])) = resolve_stack allow (segments isSep x).
Proof.
  unfold segments, resolve_stack. rewrite split_on_app by apply sep_self. by rewrite foldl_app.
Qed.

Lemma resolve_lead allow c x :
  isSep (Some c) = true ->
  resolve_stack allow (segments isSep (c :: x)) = resolve_stack allow (segments isSep x).
Proof. intros Hc. unfold segments, resolve_stack. by rewrite split_on_sep. Qed.

Lemma resolve_rendered allow st :
  normal isSep allow st -> resolve_stack allow (segments isSep (render sepc st)) = st.
Proof.
  intros Hst. destruct (decide (st = [])) as [->|Hne]; [done|].
  rewrite (segments_render isSep sepc allow) by done. by apply resolve_stack_normal with isSep.
Qed.
End Rendered.

Lemma code_head c s : charCodeAt (c :: s) 0 = Some c.
Proof. done. Qed.

Lemma code_last s c : charCodeAt (s ++ [c]) (len (s ++ [c]) - 1) = Some c.
Proof. rewrite len_app, len_cons, len_nil. replace (len s + (1 + 0) - 1) with (len s) by lia. apply at_index_mid. Qed.

(** ** The scanners against their references

    [path] is [pre], where the scans stop, and [rest]. *)

Section References.
Context (isSep : option Z -> bool) (pre rest : jsstr).

Lemma start_or (d : jsstr) : (if bool_decide (d = []) then len pre else len pre + len d) = len pre + len d.
Proof. case_bool_decide; subst; [change (len (@nil Z)) with 0; lia|done]. Qed.

Lemma base_scan :
  (let '(start, end_) := base_loop isSep (pre ++ rest) (len pre) (length rest) (len pre) (-1) true in
   if end_ =? -1 then [] else slice (pre ++ rest) start end_)
  = last_segment isSep rest.
Proof.
  destruct (decomp_exists isSep rest) as [Hs|(d & b & t & Hdc)].
  - rewrite (base_loop_seps isSep pre _ rest _ Hs eq_refl). by rewrite last_segment_seps.
  - rewrite (last_segment_decomp _ _ _ _ _ Hdc).
    pose proof (dc_eq _ _ _ _ _ Hdc) as E. rewrite E in Hdc |- *.
    rewrite (base_loop_decomp isSep pre _ d b t _ Hdc eq_refl).
    pose proof (len_nonneg pre). pose proof (len_nonneg d). pose proof (len_nonneg b).
    destruct (Z.eqb_spec (len pre + len d + len b) (-1)); [lia|].
    rewrite start_or, app_assoc, <- len_app. apply slice_mid.
Qed.

Lemma no_ext_of_base b k :
  k = lastIndexOf b (js ".") -> (k <=? 0) || str_eqb b (js "..") = true -> ext_of_base b = [].
Proof. intros -> H. unfold ext_of_base. by rewrite H. Qed.

Lemma ext_scan :
  (let st := dot_loop isSep (pre ++ rest) (len pre) (length rest) (DS (-1) (len pre) (-1) true 0) in
   if no_ext st then [] else slice (pre ++ rest) (startDot st) (end_of st))
  = ext_of_base (last_segment isSep rest).
Proof.
  cbv zeta. destruct (decomp_exists isSep rest) as [Hs|(d & b & t & Hdc)].
  - rewrite (dot_loop_seps isSep pre _ rest _ Hs eq_refl). by rewrite last_segment_seps.
  - rewrite (last_segment_decomp _ _ _ _ _ Hdc).
    pose proof (dc_eq _ _ _ _ _ Hdc) as E. rewrite E in Hdc |- *.
    destruct (dot_loop_ext isSep pre (pre ++ d ++ b ++ t) d b t (len pre) Hdc eq_refl)
      as (Hend & _ & Hno & Hdot); [by left|].
    rewrite start_or, Z.eqb_refl, andb_true_r in Hno. rewrite Hno, Hend.
    case_if; [by rewrite (no_ext_of_base b _ eq_refl)|].
    unfold ext_of_base. rewrite Heqb0. apply orb_false_iff in Heqb0 as [Hk _].
    apply Z.leb_gt in Hk. destruct (Hdot Hk) as [-> Hk'].
    rewrite app_assoc, <- len_app. apply slice_tail. lia.
Qed.
End References.
