(* ===== verification/PathPosix.v ===== *)
(** * POSIX paths: [path/_posix.ts]

    Every exported function, on the dynamic values the source checks with
    [assertPath]; [normalize_s] and the like are the functions past that check.
    The working directory [Deno.cwd()] is a parameter. *)

From S2P Require Import Prelude PathUtil PathScan.

Definition sep : jsstr := js "/".
Definition delimiter : jsstr := js ":".

Section Resolve.
(** [Deno.cwd()]; [None] when [Deno.cwd] is not a function. *)
Context (cwd : option jsval).

(** Lines 47 to 55 for the [path] of one iteration. *)
Definition resolve_step (path : jsval) (st : jsstr * bool) : result (jsstr * bool) :=
  let! path := assertPath path in
  if len path =? 0 then Ok st
  else Ok (path ++ js "/" ++ fst st, is_code (charCodeAt path 0) CHAR_FORWARD_SLASH).

(** The loop of line 34 over the arguments from the last one down, and the
    working directory at index -1. *)
Fixpoint resolve_loop (segments_rev : list jsval) (st : jsstr * bool) : result (jsstr * bool) :=
  if snd st then Ok st
  else
    match segments_rev with
    | [] =>
        match cwd with
        | None => Throw (TypeError "Resolved a relative path without a CWD.")
        | Some path => resolve_step path st
        end
    | path :: rest => let! st' := resolve_step path st in resolve_loop rest st'
    end.

Definition resolve (pathSegments : list jsval) : result jsstr :=
  let! st := resolve_loop (reverse pathSegments) ([], false) in
  let resolvedAbsolute := snd st in
  let resolvedPath :=
    normalizeString (fst st) (negb resolvedAbsolute) (js "/") isPosixPathSeparator in
  Ok (if resolvedAbsolute then
        if 0 <? len resolvedPath then js "/" ++ resolvedPath else js "/"
      else if 0 <? len resolvedPath then resolvedPath
      else js ".").
End Resolve.

Definition normalize_s (path : jsstr) : jsstr :=
  if len path =? 0 then js "."
  else
    let isAbsolute := is_code (charCodeAt path 0) CHAR_FORWARD_SLASH in
    let trailingSeparator := is_code (charCodeAt path (len path - 1)) CHAR_FORWARD_SLASH in
    let path := normalizeString path (negb isAbsolute) (js "/") isPosixPathSeparator in
    let path := if (len path =? 0) && negb isAbsolute then js "." else path in
    let path := if (0 <? len path) && trailingSeparator then path ++ js "/" else path in
    if isAbsolute then js "/" ++ path else path.

Definition normalize (path : jsval) : result jsstr :=
  let! path := assertPath path in Ok (normalize_s path).

Definition isAbsolute (path : jsval) : result bool :=
  let! path := assertPath path in
  Ok ((0 <? len path) && is_code (charCodeAt path 0) CHAR_FORWARD_SLASH).

(** The loop of line 115; [joined] is [undefined] or a string. *)
Fixpoint join_loop (paths : list jsval) (joined : option jsstr) : result (option jsstr) :=
  match paths with
  | [] => Ok joined
  | path :: rest =>
      let! path := assertPath path in
      if 0 <? len path then
        match joined with
        | None | Some [] => join_loop rest (Some path)
        | Some j => join_loop rest (Some (j ++ js "/" ++ path))
        end
      else join_loop rest joined
  end.

Definition join (paths : list jsval) : result jsstr :=
  if len paths =? 0 then Ok (js ".")
  else
    let! joined := join_loop paths None in
    match joined with
    | None | Some [] => Ok (js ".")
    | Some j => normalize (JString j)
    end.

(** The loops of lines 146 and 154: the first index from [i] on, below
    [i + n], whose unit is not a slash. *)
Fixpoint skip_slashes (s : jsstr) (n : nat) (i : Z) : Z :=
  match n with
  | O => i
  | S n' =>
      if is_code (charCodeAt s i) CHAR_FORWARD_SLASH then skip_slashes s n' (i + 1) else i
  end.

Section Relative.
(** [from] and [to] after [resolve], with their start and end indices. *)
Context (from to : jsstr) (fromStart fromEnd toStart toEnd : Z).

(** The comparison loop of line 163; [n] iterations remain before [i = length].
    [inl] is an early [return], [inr] the final [lastCommonSep]. *)
Fixpoint relative_loop (length_ : Z) (n : nat) (i lastCommonSep : Z) : jsstr + Z :=
  let fromLen := fromEnd - fromStart in
  let toLen := toEnd - toStart in
  match n with
  | O =>
      if length_ <? toLen then
        if is_code (charCodeAt to (toStart + i)) CHAR_FORWARD_SLASH then
          inl (slice_from to (toStart + i + 1))
        else if i =? 0 then inl (slice_from to (toStart + i))
        else inr lastCommonSep
      else if length_ <? fromLen then
        if is_code (charCodeAt from (fromStart + i)) CHAR_FORWARD_SLASH then inr i
        else if i =? 0 then inr 0
        else inr lastCommonSep
      else inr lastCommonSep
  | S n' =>
      let fromCode := charCodeAt from (fromStart + i) in
      let toCode := charCodeAt to (toStart + i) in
      if negb (num_eqb fromCode toCode) then inr lastCommonSep
      else
        relative_loop length_ n' (i + 1)
          (if is_code fromCode CHAR_FORWARD_SLASH then i else lastCommonSep)
  end.

(** The loop of line 197, [n] iterations from [i] to [fromEnd] inclusive. *)
Fixpoint relative_ups (n : nat) (i : Z) (out : jsstr) : jsstr :=
  match n with
  | O => out
  | S n' =>
      relative_ups n' (i + 1)
        (if (i =? fromEnd) || is_code (charCodeAt from i) CHAR_FORWARD_SLASH
         then (if len out =? 0 then out ++ js ".." else out ++ js "/..")
         else out)
  end.

Definition relative_tail : jsstr :=
  let fromLen := fromEnd - fromStart in
  let toLen := toEnd - toStart in
  let length_ := if fromLen <? toLen then fromLen else toLen in
  match relative_loop length_ (Z.to_nat length_) 0 (-1) with
  | inl s => s
  | inr lastCommonSep =>
      let i := fromStart + lastCommonSep + 1 in
      let out := relative_ups (Z.to_nat (fromEnd + 1 - i)) i [] in
      if 0 <? len out then out ++ slice_from to (toStart + lastCommonSep)
      else
        let toStart := toStart + lastCommonSep in
        let toStart :=
          if is_code (charCodeAt to toStart) CHAR_FORWARD_SLASH then toStart + 1 else toStart in
        slice_from to toStart
  end.
End Relative.

(** Lines 141 to 212, on resolved paths. *)
Definition relative_resolved (from to : jsstr) : jsstr :=
  if str_eqb from to then []
  else
    let fromEnd := len from in
    let fromStart := skip_slashes from (Z.to_nat (fromEnd - 1)) 1 in
    let toEnd := len to in
    let toStart := skip_slashes to (Z.to_nat (toEnd - 1)) 1 in
    relative_tail from to fromStart fromEnd toStart toEnd.

Definition relative (cwd : option jsval) (from to : jsval) : result jsstr :=
  let! from := assertPath from in
  let! to := assertPath to in
  if str_eqb from to then Ok []
  else
    let! from := resolve cwd [JString from] in
    let! to := resolve cwd [JString to] in
    Ok (relative_resolved from to).

Definition toNamespacedPath (path : jsval) : jsval := path.

Definition dirname_s (path : jsstr) : jsstr :=
  if len path =? 0 then js "."
  else
    let hasRoot := is_code (charCodeAt path 0) CHAR_FORWARD_SLASH in
    let end_ := dir_loop isPosixPathSeparator path 1 (Z.to_nat (len path - 1)) true in
    if end_ =? -1 then (if hasRoot then js "/" else js ".")
    else if hasRoot && (end_ =? 1) then js "//"
    else slice path 0 end_.

Definition dirname (path : jsval) : result jsstr :=
  let! path := assertPath path in Ok (dirname_s path).

Definition basename_s (path ext : jsstr) : jsstr :=
  if (0 <? len ext) && (len ext <=? len path) then
    if (len ext =? len path) && str_eqb ext path then []
    else
      let '(start, end_, firstNonSlashEnd) :=
        base_ext_loop isPosixPathSeparator path 0 ext (length path) 0 (-1) true (len ext - 1) (-1) in
      let end_ :=
        if start =? end_ then firstNonSlashEnd
        else if end_ =? -1 then len path else end_ in
      slice path start end_
  else
    let '(start, end_) := base_loop isPosixPathSeparator path 0 (length path) 0 (-1) true in
    if end_ =? -1 then [] else slice path start end_.

(** [ext = ""] is the default of the parameter, so [undefined] is the empty
    string by the time of the test. *)
Definition basename (path ext : jsval) : result jsstr :=
  let! ext :=
    match ext with
    | JUndefined => Ok []
    | JString e => Ok e
    | v => Throw (ERR_INVALID_ARG_TYPE "ext" ["string"] v)
    end in
  let! path := assertPath path in
  Ok (basename_s path ext).

Definition extname_s (path : jsstr) : jsstr :=
  let st := dot_loop isPosixPathSeparator path 0 (length path) (DS (-1) 0 (-1) true 0) in
  if no_ext st then [] else slice path (startDot st) (end_of st).

Definition extname (path : jsval) : result jsstr :=
  let! path := assertPath path in Ok (extname_s path).

(** [inl] is an argument that is [null] or not an object. *)
Definition format (pathObject : jsval + FormatInputPathObject) : result jsstr :=
  match pathObject with
  | inl v => Throw (ERR_INVALID_ARG_TYPE "pathObject" ["Object"] v)
  | inr o => Ok (_format (js "/") o)
  end.

Definition parse_s (path : jsstr) : ParsedPath :=
  if len path =? 0 then
    {| pp_root := []; pp_dir := []; pp_base := []; pp_ext := []; pp_name := [] |}
  else
    let isAbsolute := is_code (charCodeAt path 0) CHAR_FORWARD_SLASH in
    let root := if isAbsolute then js "/" else [] in
    let start := if isAbsolute then 1 else 0 in
    let st := dot_loop isPosixPathSeparator path start (Z.to_nat (len path - start))
                (DS (-1) 0 (-1) true 0) in
    let from := if (startPart st =? 0) && isAbsolute then 1 else startPart st in
    let '(base, name, ext) :=
      if no_ext st then
        if negb (end_of st =? -1) then
          (slice path from (end_of st), slice path from (end_of st), [])
        else ([], [], [])
      else
        (slice path from (end_of st), slice path from (startDot st),
         slice path (startDot st) (end_of st)) in
    let dir :=
      if 0 <? startPart st then slice path 0 (startPart st - 1)
      else if isAbsolute then js "/" else [] in
    {| pp_root := root; pp_dir := dir; pp_base := base; pp_ext := ext; pp_name := name |}.

Definition parse (path : jsval) : result ParsedPath :=
  let! path := assertPath path in Ok (parse_s path).

(** ** Base names and extensions *)

Lemma basename_none path : basename_s path [] = last_segment isPosixPathSeparator path.
Proof. exact (base_scan isPosixPathSeparator [] path). Qed.

Lemma extname_ref path : extname_s path = ext_of_base (last_segment isPosixPathSeparator path).
Proof. exact (ext_scan isPosixPathSeparator [] path). Qed.

(** [basename] with an extension on a decomposed path, on every branch. *)
Lemma basename_ext_decomp path d b t ext :
  decomp isPosixPathSeparator path d b t -> 0 < len ext <= len path -> ext <> path ->
  (forall y, y <> [] -> ext = y ++ b -> basename_s path ext = b ++ t)
  /\ ((forall y, y <> [] -> ext <> y ++ b) -> basename_s path ext = strip_ext b ext).
Proof.
  intros Hdc Hlen Hne. pose proof (dc_eq _ _ _ _ _ Hdc) as E. rewrite E in Hdc, Hlen, Hne |- *.
  clear path E. unfold basename_s.
  destruct (Z.ltb_spec 0 (len ext)); [|lia].
  destruct (Z.leb_spec (len ext) (len (d ++ b ++ t))); [|lia]. cbn [andb].
  unfold str_eqb. rewrite (bool_decide_eq_false_2 (ext = _)) by done. rewrite andb_false_r.
  assert (Hext : ext <> []) by (apply len_pos_inv; lia).
  destruct (base_ext_decomp isPosixPathSeparator [] (d ++ b ++ t) ext d b t 0 Hdc eq_refl Hext)
    as (Hfull & Hshort & Hmis).
  change (len (@nil Z)) with 0 in *. rewrite !Z.add_0_l in *.
  assert (Hst : (if bool_decide (d = []) then 0 else len d) = len d) by (case_bool_decide; by subst).
  rewrite Hst in *. pose proof (len_nonneg d). pose proof (len_nonneg b).
  destruct Hdc as [_ _ [Hbne _] _]. pose proof (len_pos b Hbne). split.
  - intros y Hy Ey. rewrite (Hshort y Hy Ey).
    destruct (Z.eqb_spec (len d) (-1)); [lia|]. cbn [Z.eqb Pos.eqb].
    exact (slice_from_suffix d (b ++ t)).
  - intros Hno. destruct (suffix_cases b ext) as [(b0 & Eb)|[(y & Hy & Ey)|(x & c & y & a & m & Eb & Ee & Hca)]].
    + rewrite (Hfull b0 Eb). destruct (decide (b0 = [])) as [->|Hb0].
      * subst b. rewrite len_nil, Z.add_0_r, Z.eqb_refl, strip_ext_self. apply slice_mid.
      * pose proof (len_pos b0 Hb0). destruct (Z.eqb_spec (len d) (len d + len b0)); [lia|].
        destruct (Z.eqb_spec (len d + len b0) (-1)); [lia|].
        subst b. rewrite strip_ext_suffix by done.
        rewrite <- (app_assoc b0). apply slice_mid.
    + by destruct (Hno y Hy).
    + rewrite (Hmis _ _ _ _ _ Eb Ee Hca).
      destruct (Z.eqb_spec (len d) (len d + len b)); [lia|].
      destruct (Z.eqb_spec (len d + len b) (-1)); [lia|].
      rewrite slice_mid, Eb, Ee. by rewrite strip_ext_mismatch.
Qed.

Lemma posix_sep_code c : isPosixPathSeparator (Some c) = true -> c = CHAR_FORWARD_SLASH.
Proof. unfold isPosixPathSeparator, is_code. apply Z.eqb_eq. Qed.

(** A path that does not end with a slash has no trailing separators. *)
Lemma no_trailing path d b t :
  decomp isPosixPathSeparator path d b t -> last path <> Some CHAR_FORWARD_SLASH -> t = [].
Proof.
  intros [-> _ _ Ht] Hlast. destruct t as [|c t _] using rev_ind; [done|]. exfalso.
  apply all_snoc in Ht as [_ Hc]. rewrite !app_assoc, last_snoc in Hlast.
  apply posix_sep_code in Hc. by subst.
Qed.

Lemma no_trailing_seps path :
  all_sep isPosixPathSeparator path -> last path <> Some CHAR_FORWARD_SLASH -> path = [].
Proof.
  intros Ht Hlast. destruct path as [|c t _] using rev_ind; [done|]. exfalso.
  apply all_snoc in Ht as [_ Hc]. rewrite last_snoc in Hlast.
  apply posix_sep_code in Hc. by subst.
Qed.

(** [basename(path)] is the last non-empty segment of the path (the empty
    string when there is none), whatever separators it ends with. *)
Theorem basename_last_segment (path : jsstr) :
  basename (JString path) JUndefined = Ok (last_segment isPosixPathSeparator path).
Proof. unfold basename. simpl. by rewrite basename_none. Qed.

(** [basename(path, ext)] of a path that does not end with a separator and
    is not [ext] itself cuts [ext] off the last segment when it is a proper
    suffix of it, and returns the segment unchanged otherwise. *)
Theorem basename_strips_ext (path ext : jsstr) :
  last path <> Some CHAR_FORWARD_SLASH -> ext <> path ->
  basename (JString path) (JString ext)
  = Ok (strip_ext (last_segment isPosixPathSeparator path) ext).
Proof.
  intros Hlast Hne. unfold basename. simpl. f_equal.
  destruct (decide (0 < len ext <= len path)) as [Hlen|Hlen].
  - destruct (decomp_exists isPosixPathSeparator path) as [Hs|(d & b & t & Hdc)].
    { rewrite (no_trailing_seps path Hs Hlast) in Hlen. change (len (@nil Z)) with 0 in Hlen. lia. }
    rewrite (last_segment_decomp _ _ _ _ _ Hdc).
    destruct (basename_ext_decomp path d b t ext Hdc Hlen Hne) as [Hshort Hother].
    destruct (suffix_cases ext b) as [(y & Ey)|[(y & Hy & Ey)|(x & c & y & a & m & Eb & Ee & Hca)]].
    + destruct (decide (y = [])) as [->|Hy].
      * apply Hother. intros z Hz E. rewrite Ey in E.
        apply (app_inj_2 [] z b b) in E as [? _]; [|done]. by subst.
      * rewrite (Hshort y Hy Ey), (no_trailing path d b t Hdc Hlast), app_nil_r, Ey.
        by rewrite strip_ext_longer.
    + apply Hother. intros z Hz E. subst b. apply (f_equal length) in E.
      rewrite !length_app in E. destruct y; [done|simpl in E; lia].
    + apply Hother. intros z Hz E. subst ext b. change (a :: m) with ([a] ++ m) in E.
      change (c :: m) with ([c] ++ m) in E. rewrite !app_assoc in E.
      apply app_inj_2 in E as [E _]; [|done]. apply app_inj_2 in E as [_ E]; [|done]. congruence.
  - assert (E : basename_s path ext = basename_s path []).
    { unfold basename_s at 1. replace ((0 <? len ext) && (len ext <=? len path)) with false by lia. done. }
    rewrite E, basename_none. unfold strip_ext. case_bool_decide as Hd; [|done]. destruct Hd as [Hd Hd'].
    pose proof (len_nonneg ext). destruct (decide (len ext = 0)) as [E0|E0].
    { apply len_0_nil in E0. subst ext. simpl. by rewrite Nat.sub_0_r, firstn_all. }
    exfalso. assert (Hl : (length ext <= length (last_segment isPosixPathSeparator path))%nat).
    { rewrite <- Hd at 1. rewrite length_drop. lia. }
    assert (Hl' : (length (last_segment isPosixPathSeparator path) <= length path)%nat); [|unfold len in *; lia].
    destruct (decomp_exists isPosixPathSeparator path) as [Hs|(d & b & t & Hdc)].
    + rewrite last_segment_seps by done. simpl. lia.
    + rewrite (last_segment_decomp _ _ _ _ _ Hdc), (dc_eq _ _ _ _ _ Hdc), !length_app. lia.
Qed.

(** [extname(path)] is the extension of the last non-empty segment: what
    starts at its last dot, unless that dot starts the segment or the segment
    is [..]. *)
Theorem extname_of_last_segment (path : jsstr) :
  extname (JString path) = Ok (ext_of_base (last_segment isPosixPathSeparator path)).
Proof. unfold extname. simpl. by rewrite extname_ref. Qed.

(** The pieces of [parse] on a decomposed path: [pre] is the root. *)
Lemma parse_decomp pre d b t :
  pre = [] \/ pre = js "/" -> (pre = [] -> forall c s, d ++ b ++ t = c :: s -> c <> CHAR_FORWARD_SLASH) ->
  decomp isPosixPathSeparator (d ++ b ++ t) d b t ->
  let k := lastIndexOf b (js ".") in
  let none := (k <=? 0) || (str_eqb b (js "..") && negb (bool_decide (d = []) && bool_decide (pre <> []))) in
  parse_s (pre ++ d ++ b ++ t)
  = {| pp_root := pre;
       pp_dir := if bool_decide (d = []) then pre else pre ++ take (length d - 1) d;
       pp_base := b;
       pp_ext := if none then [] else slice_from b k;
       pp_name := if none then b else slice b 0 k |}.
Proof.
  intros Hpre Hrel Hdc k none.
  assert (Hb : b <> []) by apply Hdc. pose proof (len_pos b Hb).
  pose proof (len_nonneg d). pose proof (len_nonneg t).
  assert (Habs : is_code (charCodeAt (pre ++ d ++ b ++ t) 0) CHAR_FORWARD_SLASH = bool_decide (pre <> [])).
  { destruct Hpre as [-> | ->]; [|done]. simpl app. rewrite bool_decide_eq_false_2 by tauto.
    destruct (d ++ b ++ t) as [|c s] eqn:Es; [done|]. cbn. apply Z.eqb_neq. by eapply Hrel. }
  assert (Hlp : len pre = if bool_decide (pre <> []) then 1 else 0) by (destruct Hpre as [-> | ->]; done).
  unfold parse_s. rewrite Habs. destruct (Z.eqb_spec (len (pre ++ d ++ b ++ t)) 0) as [E0|_].
  { rewrite !len_app in E0. pose proof (len_nonneg pre). lia. }
  rewrite <- Hlp. replace (Z.to_nat (len (pre ++ d ++ b ++ t) - len pre)) with (length (d ++ b ++ t))
    by (rewrite len_app; unfold len; lia).
  destruct (dot_loop_ext isPosixPathSeparator pre (pre ++ d ++ b ++ t) d b t 0 Hdc eq_refl)
    as (Hend & Hsp & Hno & Hdot); [destruct Hpre as [-> | ->]; [by left|by right]|].
  fold k in Hno, Hdot. set (st := dot_loop _ _ _ _ _) in *.
  assert (Hd0 : bool_decide (d = []) = true -> len d = 0) by (intros ->%bool_decide_eq_true; done).
  assert (Hsp0 : (if (startPart st =? 0) && bool_decide (pre <> []) then 1 else startPart st) = len pre + len d).
  { rewrite Hsp, Hlp. destruct (bool_decide (d = [])); [specialize (Hd0 eq_refl)|];
      destruct (bool_decide (pre <> [])); cbn [andb Z.eqb]; rewrite ?andb_false_r; try lia.
    destruct (Z.eqb_spec (1 + len d) 0); cbn [andb]; lia. }
  assert (Hnone : no_ext st = none).
  { rewrite Hno, Hlp. subst none. do 2 f_equal. destruct (bool_decide (d = [])); [specialize (Hd0 eq_refl)|];
      destruct (bool_decide (pre <> [])); cbn [andb negb]; lia. }
  assert (Hdir : (if 0 <? startPart st then slice (pre ++ d ++ b ++ t) 0 (startPart st - 1)
                  else if bool_decide (pre <> []) then js "/" else [])
                 = if bool_decide (d = []) then pre else pre ++ take (length d - 1) d).
  { rewrite Hsp. destruct (bool_decide (d = [])) eqn:Ed.
    - rewrite Z.ltb_irrefl. destruct Hpre as [-> | ->]; reflexivity.
    - apply bool_decide_eq_false in Ed. pose proof (len_pos d Ed). pose proof (len_nonneg pre).
      destruct (Z.ltb_spec 0 (len pre + len d)); [|lia].
      destruct (snoc_inv d Ed) as (d' & c & ->).
      replace (length (d' ++ [c]) - 1)%nat with (length d') by (rewrite length_app; simpl; lia).
      rewrite take_app_length.
      replace (len pre + len (d' ++ [c]) - 1) with (len (pre ++ d')) by (len_simpl; lia).
      rewrite <- (app_assoc d'), (app_assoc pre d'). apply slice_prefix. }
  rewrite Hsp0, Hnone, Hdir, Hend.
  replace (if bool_decide (pre <> []) then js "/" else []) with pre by (by destruct Hpre as [-> | ->]).
  rewrite (app_assoc pre), <- (len_app pre d).
  destruct none eqn:En.
  - destruct (Z.eqb_spec (len (pre ++ d) + len b) (-1)); [pose proof (len_nonneg (pre ++ d)); lia|].
    cbn [negb]. rewrite slice_mid. done.
  - subst none. apply orb_false_iff in En as [Hk _]. apply Z.leb_gt in Hk.
    destruct (Hdot Hk) as [-> Hk']. rewrite <- (len_app pre d), slice_mid, slice_tail by lia.
    replace (slice ((pre ++ d) ++ b ++ t) (len (pre ++ d)) (len (pre ++ d) + k)) with (slice b 0 k); [done|].
    destruct (split_len b k) as (u & v & -> & <-); [lia|]. by rewrite slice_prefix, <- (app_assoc u), slice_mid.
Qed.

(** A path is separators only, or a root and a decomposed rest. *)
Lemma posix_cases path :
  all_sep isPosixPathSeparator path
  \/ exists pre d b t,
      path = pre ++ d ++ b ++ t /\ (pre = [] \/ pre = js "/")
      /\ (pre = [] -> forall c s, d ++ b ++ t = c :: s -> c <> CHAR_FORWARD_SLASH)
      /\ decomp isPosixPathSeparator (d ++ b ++ t) d b t.
Proof.
  destruct path as [|c path]; [by left; constructor|].
  destruct (decide (c = CHAR_FORWARD_SLASH)) as [->|Hc].
  - destruct (decomp_exists isPosixPathSeparator path) as [Hs|(d & b & t & Hdc)].
    + left. by constructor.
    + right. exists (js "/"), d, b, t. pose proof (dc_eq _ _ _ _ _ Hdc) as E.
      rewrite E in Hdc |- *. split; [done|]. split; [by right|]. done.
  - right. destruct (decomp_exists isPosixPathSeparator (c :: path)) as [Hs|(d & b & t & Hdc)].
    + apply Forall_cons in Hs as [Hs%posix_sep_code _]. done.
    + exists [], d, b, t. pose proof (dc_eq _ _ _ _ _ Hdc) as E. rewrite E in Hdc.
      split; [done|]. split; [by left|]. split; [|done].
      intros _ c' s E'. rewrite <- E in E'. by injection E' as <- _.
Qed.

Lemma parse_seps path :
  all_sep isPosixPathSeparator path ->
  pp_base (parse_s path) = [] /\ pp_name (parse_s path) = [] /\ pp_ext (parse_s path) = [].
Proof.
  intros Hs. destruct path as [|c path]; [done|].
  apply Forall_cons in Hs as [Hc%posix_sep_code Hs]. subst c. unfold parse_s.
  rewrite len_cons. pose proof (len_nonneg path).
  destruct (Z.eqb_spec (1 + len path) 0); [lia|].
  change (is_code (charCodeAt (CHAR_FORWARD_SLASH :: path) 0) CHAR_FORWARD_SLASH) with true.
  cbv beta zeta iota.
  replace (Z.to_nat (1 + len path - 1)) with (length path) by (unfold len; lia).
  pose proof (dot_loop_seps isPosixPathSeparator (js "/") (js "/" ++ path) path 0 Hs eq_refl) as E.
  change (len (js "/")) with 1 in E. change (js "/" ++ path) with (CHAR_FORWARD_SLASH :: path) in E.
  rewrite E. done.
Qed.

(** [parse] agrees with [basename] and [extname]: its [base] is the last
    segment, [name] and [ext] put together are [base], and [ext] is the
    extension [extname] returns whenever [base] is not [..]. *)
Theorem parse_components (path : jsstr) :
  let p := parse_s path in
  basename (JString path) JUndefined = Ok (pp_base p)
  /\ pp_name p ++ pp_ext p = pp_base p
  /\ (pp_base p <> js ".." -> extname (JString path) = Ok (pp_ext p)).
Proof.
  cbv zeta. unfold basename, extname. cbn [rbind assertPath]. rewrite basename_none, extname_ref.
  destruct (posix_cases path) as [Hs|(pre & d & b & t & -> & Hpre & Hrel & Hdc)].
  - destruct (parse_seps path Hs) as (-> & -> & ->). by rewrite last_segment_seps.
  - replace (last_segment isPosixPathSeparator (pre ++ d ++ b ++ t)) with b.
    2:{ symmetry. destruct Hpre as [-> | ->].
        - by apply (last_segment_decomp _ _ _ _ _ Hdc).
        - change (js "/" ++ d ++ b ++ t) with (CHAR_FORWARD_SLASH :: d ++ b ++ t).
          rewrite last_segment_cons by done. by apply (last_segment_decomp _ _ _ _ _ Hdc). }
    rewrite (parse_decomp pre d b t Hpre Hrel Hdc). cbn [pp_base pp_name pp_ext].
    pose proof (lastIndexOf_bounds CHAR_DOT b) as Hk. change [CHAR_DOT] with (js ".") in Hk.
    split; [done|]. split.
    + case_if; [by rewrite app_nil_r|]. apply slice_join.
      apply orb_false_iff in Heqb0 as [H0 _]. apply Z.leb_gt in H0. lia.
    + intros Hdd. unfold ext_of_base, str_eqb. rewrite (bool_decide_eq_false_2 (b = _)) by done.
      cbn [andb]. done.
Qed.

(** [format(parse(path))] gives the path back when it does not end with a
    slash and is not a name behind exactly two slashes. *)
Theorem format_parse_roundtrip (path : jsstr) :
  last path <> Some CHAR_FORWARD_SLASH ->
  (forall b, path = js "//" ++ b -> ~ seg_ok isPosixPathSeparator b) ->
  format (inr (formatted (parse_s path))) = Ok path.
Proof.
  intros Hlast Hunc.
  destruct (posix_cases path) as [Hs|(pre & d & b & t & -> & Hpre & Hrel & Hdc)].
  { by rewrite (no_trailing_seps path Hs Hlast). }
  assert (t = []) as ->.
  { destruct t as [|c t _] using rev_ind; [done|]. exfalso. destruct Hdc as [_ _ _ Ht].
    apply all_snoc in Ht as [_ Hc]. rewrite !app_assoc, last_snoc in Hlast.
    apply posix_sep_code in Hc. by subst. }
  rewrite (parse_decomp pre d b [] Hpre Hrel Hdc), app_nil_r. unfold format, _format, formatted.
  cbn [fi_root fi_dir fi_base fi_ext fi_name pp_root pp_dir pp_base pp_ext pp_name].
  destruct Hdc as [_ Hd [Hbne Hb] _]. f_equal.
  assert (Hbase : forall o, default [] (or_str (Some b) o) = b) by (intros o; by destruct b).
  rewrite Hbase. destruct Hd as [->|(d' & c & -> & Hc%posix_sep_code)].
  - rewrite bool_decide_eq_true_2 by done. destruct Hpre as [-> | ->]; [done|]. reflexivity.
  - subst c. rewrite bool_decide_eq_false_2 by (by destruct d').
    replace (length (d' ++ [CHAR_FORWARD_SLASH]) - 1)%nat with (length d')
      by (rewrite length_app; simpl; lia).
    rewrite take_app_length. destruct d' as [|c d'].
    + exfalso. destruct Hpre as [-> | ->].
      * by eapply Hrel.
      * apply (Hunc b); [by rewrite app_nil_r|done].
    + rewrite <- app_assoc. destruct Hpre as [-> | ->]; reflexivity.
Qed.

(** ** Normalisation *)

Abbreviation SLASH := CHAR_FORWARD_SLASH.
Abbreviation posix_segments := (segments isPosixPathSeparator).
Abbreviation posix_normal := (normal isPosixPathSeparator).

(** The text [normalize] produces for a normal stack. *)
Definition form (abs trail : bool) (st : list jsstr) : jsstr :=
  let tr := if trail then js "/" else [] in
  (if abs then js "/" else [])
  ++ match st with
     | [] => if abs then [] else js "." ++ tr
     | _ => render SLASH st ++ tr
     end.

Lemma render_cons_split s st : exists q, render SLASH (s :: st) = q ++ s.
Proof. apply render_ends. Qed.

(** The last unit of a rendered normal stack is not a slash, nor is the first. *)
Lemma render_last allow s st :
  posix_normal allow (s :: st) -> exists q c, render SLASH (s :: st) = q ++ [c] /\ c <> SLASH.
Proof.
  intros Hst. destruct (rendered_last _ SLASH _ _ _ Hst) as (q & c & E & Hc).
  exists q, c. split; [done|]. by intros ->.
Qed.

Lemma render_head allow s st :
  posix_normal allow (s :: st) -> exists c q, render SLASH (s :: st) = c :: q /\ c <> SLASH.
Proof.
  intros Hst. destruct (rendered_head _ SLASH _ _ _ Hst) as (c & q & E & Hc).
  exists c, q. split; [done|]. by intros ->.
Qed.

(** Reading the produced text back gives the stack. *)
Lemma resolve_form (allow abs trail : bool) st :
  posix_normal allow st -> st <> [] ->
  resolve_stack allow (posix_segments ((if abs then js "/" else []) ++ render SLASH st
                                       ++ (if trail then js "/" else []))) = st.
Proof.
  intros Hst _. pose proof (resolve_rendered _ SLASH _ _ Hst) as E.
  pose proof (resolve_trail isPosixPathSeparator SLASH allow) as Et.
  pose proof (resolve_lead isPosixPathSeparator allow SLASH) as Ea.
  change (js "/") with [SLASH] in *. destruct abs, trail; cbn [app]; rewrite ?Ea, ?Et, ?app_nil_r; done.
Qed.

(** What [normalize] computes, in terms of the segment stack. *)
Lemma normalize_is_form path :
  path <> [] ->
  normalize_s path
  = form (is_code (charCodeAt path 0) SLASH) (is_code (charCodeAt path (len path - 1)) SLASH)
      (resolve_stack (negb (is_code (charCodeAt path 0) SLASH)) (posix_segments path)).
Proof.
  intros Hne. pose proof (len_pos path Hne). unfold normalize_s.
  destruct (Z.eqb_spec (len path) 0); [lia|].
  set (abs := is_code (charCodeAt path 0) SLASH). set (tr := is_code _ _).
  change (js "/") with [SLASH]. cbv zeta.
  destruct (normalizeString_normal_stack isPosixPathSeparator SLASH (negb abs) path) as (st & Hst & -> & ->).
  unfold form. destruct st as [|s st].
  - change (render SLASH []) with (@nil Z). change (len (@nil Z)) with 0. cbn [Z.eqb Z.ltb Z.compare andb].
    destruct abs; cbn; [done|]. by destruct tr.
  - destruct (render_head _ _ _ Hst) as (c & q & E & Hc). rewrite E.
    pose proof (len_nonneg q). rewrite len_cons.
    destruct (Z.eqb_spec (1 + len q) 0); [lia|]. cbn [andb]. rewrite len_cons.
    destruct (Z.ltb_spec 0 (1 + len q)); [|lia]. destruct abs, tr; cbn; by rewrite ?app_nil_r.
Qed.

Lemma form_head abs trail st :
  posix_normal (negb abs) st -> is_code (charCodeAt (form abs trail st) 0) SLASH = abs.
Proof.
  intros Hst. unfold form. destruct abs; [done|]. destruct st as [|s st]; [done|].
  destruct (render_head _ _ _ Hst) as (c & q & -> & Hc). simpl. by apply Z.eqb_neq.
Qed.

Lemma form_last abs trail st :
  posix_normal (negb abs) st -> st <> [] \/ abs = false ->
  is_code (charCodeAt (form abs trail st) (len (form abs trail st) - 1)) SLASH = trail.
Proof.
  intros Hst Hne. unfold form. destruct st as [|s st].
  { destruct Hne as [ | -> ]; [done|]. by destruct trail. }
  destruct (render_last _ _ _ Hst) as (q & c & -> & Hc).
  set (a := if abs then js "/" else []). destruct trail.
  - rewrite app_assoc. change (js "/") with [SLASH]. rewrite code_last. done.
  - rewrite app_nil_r, app_assoc, code_last. by apply Z.eqb_neq.
Qed.

Lemma normalize_form_fixed abs trail st :
  posix_normal (negb abs) st -> normalize_s (form abs trail st) = form abs trail st.
Proof.
  intros Hst. destruct st as [|s st].
  { by destruct abs, trail. }
  assert (Hne : form abs trail (s :: st) <> []).
  { unfold form. destruct (render_head _ _ _ Hst) as (c & q & -> & _). by destruct abs. }
  rewrite normalize_is_form, form_head, form_last by (done || by left).
  f_equal. unfold form. by apply resolve_form.
Qed.

(** [normalize] is idempotent. *)
Theorem normalize_idempotent (path : jsstr) :
  (let! q := normalize (JString path) in normalize (JString q)) = normalize (JString path).
Proof.
  unfold normalize. simpl. f_equal. destruct (decide (path = [])) as [->|Hne]; [done|].
  rewrite (normalize_is_form path Hne). apply normalize_form_fixed, resolve_normal, segments_ok.
Qed.

(** [normalize] keeps absolute paths absolute and relative ones relative,
    keeps a trailing slash, and otherwise consists of [..] segments (only in a
    relative path) followed by proper names. *)
Theorem normalize_normal_form (path : jsstr) :
  exists (abs trail : bool) (ups : nat) (names : list jsstr),
    normalize (JString path)
    = Ok ((if abs then js "/" else [])
          ++ (if bool_decide (replicate ups (js "..") ++ names = [])
              then (if abs then [] else js "." ++ if trail then js "/" else [])
              else join_with (js "/") (replicate ups (js "..") ++ names)
                   ++ if trail then js "/" else []))
    /\ isAbsolute (JString path) = Ok abs
    /\ trail = is_code (charCodeAt path (len path - 1)) CHAR_FORWARD_SLASH
    /\ Forall (proper isPosixPathSeparator) names
    /\ (abs = true -> ups = O).
Proof.
  unfold normalize, isAbsolute. simpl. destruct (decide (path = [])) as [->|Hne].
  { by exists false, false, O, []. }
  rewrite (normalize_is_form path Hne). set (abs := is_code (charCodeAt path 0) SLASH).
  destruct (resolve_normal isPosixPathSeparator (negb abs) (posix_segments path)) as (names & ups & E & Hn & Hu);
    [apply segments_ok|].
  eexists abs, _, ups, (reverse names). split; [|split; [|split; [reflexivity|split]]].
  - rewrite E. unfold form. set (tr := is_code _ _).
    replace (replicate ups (js "..") ++ reverse names) with (reverse (names ++ replicate ups (js "..")))
      by (by rewrite reverse_app, reverse_replicate).
    destruct (names ++ replicate ups (js "..")) as [|s st]; [done|].
    rewrite bool_decide_eq_false_2; [done|].
    intros E'. apply (f_equal length) in E'. rewrite length_reverse in E'. done.
  - pose proof (len_pos path Hne). destruct (Z.ltb_spec 0 (len path)); [done|lia].
  - by apply Forall_reverse.
  - intros Ha. rewrite Ha in Hu. by apply Hu.
Qed.

(** ** Joining *)

Lemma join_with_merge sp a b l :
  join_with sp ((a ++ sp ++ b) :: l) = join_with sp (a :: b :: l).
Proof. destruct l; simpl; by rewrite <- ?app_assoc. Qed.

Lemma join_loop_some j ps :
  j <> [] ->
  join_loop (JString <$> ps) (Some j)
  = Ok (Some (join_with (js "/") (j :: filter (fun s => s <> []) ps))).
Proof.
  revert j. induction ps as [|p ps IH]; intros j Hj; [done|]. cbn [fmap list_fmap join_loop assertPath rbind].
  destruct (decide (p = [])) as [->|Hp].
  - rewrite filter_cons_False by tauto. apply IH, Hj.
  - pose proof (len_pos p Hp). destruct (Z.ltb_spec 0 (len p)); [|lia].
    rewrite filter_cons_True by done. destruct j as [|c j]; [done|].
    change (JString <$> ps) with (list_fmap _ _ JString ps) in IH. rewrite IH by done.
    do 2 f_equal. apply join_with_merge.
Qed.

Lemma join_loop_none ps :
  join_loop (JString <$> ps) None
  = Ok (match filter (fun s => s <> []) ps with [] => None | qs => Some (join_with (js "/") qs) end).
Proof.
  induction ps as [|p ps IH]; [done|]. cbn [fmap list_fmap join_loop assertPath rbind].
  destruct (decide (p = [])) as [->|Hp].
  - rewrite filter_cons_False by tauto. apply IH.
  - pose proof (len_pos p Hp). destruct (Z.ltb_spec 0 (len p)); [|lia].
    rewrite filter_cons_True by done. by apply join_loop_some.
Qed.

Lemma join_text ps :
  join (JString <$> ps) = normalize (JString (join_with (js "/") (filter (fun s => s <> []) ps))).
Proof.
  unfold join. destruct ps as [|p ps]; [done|]. rewrite join_loop_none.
  destruct (Z.eqb_spec (len (JString <$> p :: ps)) 0) as [E|_].
  { apply len_0_nil in E. done. }
  cbn [rbind]. destruct (filter _ (p :: ps)) as [|q qs] eqn:E; [done|].
  assert (Hq : q <> []).
  { assert (Hin : q ∈ filter (fun s : jsstr => s <> []) (p :: ps)) by (rewrite E; by left).
    by apply list_elem_of_filter in Hin as [? _]. }
  destruct q as [|c q]; [done|]. by destruct qs.
Qed.

(** [join] of strings is [normalize] of the non-empty arguments put together
    with slashes; the first argument that is not a string is an error, whatever
    follows it. *)
Theorem join_spec (ps : list jsstr) :
  join (JString <$> ps) = normalize (JString (join_with (js "/") (filter (fun s => s <> []) ps)))
  /\ forall v rest, (forall s, v <> JString s) ->
     join ((JString <$> ps) ++ v :: rest) = Throw (ERR_INVALID_ARG_TYPE "path" ["string"] v).
Proof.
  split; [apply join_text|].
  - intros v rest Hv.
    assert (Hl : forall j, join_loop ((JString <$> ps) ++ v :: rest) j
                      = Throw (ERR_INVALID_ARG_TYPE "path" ["string"] v)).
    { induction ps as [|p ps IH]; intros j; simpl.
      - destruct v; try done. by destruct (Hv s).
      - destruct (0 <? len p); [destruct j as [[|? ?]|]|]; apply IH. }
    unfold join. rewrite Hl, len_app, len_cons. pose proof (len_nonneg (JString <$> ps)).
    pose proof (len_nonneg rest).
    by destruct (Z.eqb_spec (len (JString <$> ps) + (1 + len rest)) 0); [lia|].
Qed.

(** ** Resolution *)

(** The arguments that count: from the last absolute one on. *)
Definition effective (ps : list jsstr) : list jsstr :=
  foldl (fun acc p => if is_code (charCodeAt p 0) SLASH then [p] else acc ++ [p]) [] ps.

Definition abs_text (st : list jsstr) : jsstr := js "/" ++ render SLASH st.

Lemma effective_snoc ps p :
  effective (ps ++ [p]) = if is_code (charCodeAt p 0) SLASH then [p] else effective ps ++ [p].
Proof. unfold effective. by rewrite foldl_app. Qed.

Definition all_segments (ps : list jsstr) : list jsstr := concat (posix_segments <$> ps).

Lemma all_segments_snoc ps p : all_segments (ps ++ [p]) = all_segments ps ++ posix_segments p.
Proof. unfold all_segments. rewrite fmap_app, concat_app. simpl. by rewrite app_nil_r. Qed.

Lemma fold_segments_join allow st p acc :
  foldl (push allow) st (posix_segments (p ++ js "/" ++ acc))
  = foldl (push allow) st (posix_segments p ++ posix_segments acc).
Proof. unfold segments. change (js "/" ++ acc) with (SLASH :: acc). by rewrite split_on_app. Qed.

Lemma resolve_loop_stop cwd l acc : resolve_loop cwd l (acc, true) = Ok (acc, true).
Proof. by destruct l. Qed.

Lemma resolve_loop_spec c ps acc :
  is_code (charCodeAt c 0) SLASH = true ->
  exists full, resolve_loop (Some (JString c)) (JString <$> ps) (acc, false) = Ok (full, true)
    /\ forall allow st, foldl (push allow) st (posix_segments full)
       = foldl (push allow) st (all_segments (effective (c :: reverse ps)) ++ posix_segments acc).
Proof.
  intros Hc. revert acc. induction ps as [|p ps IH]; intros acc.
  - exists (c ++ js "/" ++ acc). cbn [fmap list_fmap resolve_loop resolve_step assertPath rbind snd fst].
    destruct (Z.eqb_spec (len c) 0) as [E|_]; [apply len_0_nil in E; by subst|].
    rewrite Hc. split; [done|]. intros. rewrite fold_segments_join. unfold effective. simpl. rewrite Hc.
    unfold all_segments. simpl. by rewrite app_nil_r.
  - cbn [fmap list_fmap resolve_loop resolve_step assertPath rbind snd fst].
    rewrite reverse_cons, app_comm_cons, effective_snoc.
    destruct (Z.eqb_spec (len p) 0) as [E|_].
    { apply len_0_nil in E. subst p. destruct (IH acc) as (full & Hf & Hs). exists full. split; [exact Hf|].
      intros. rewrite Hs. change (is_code (charCodeAt [] 0) SLASH) with false. cbv iota. rewrite all_segments_snoc.
      rewrite <- app_assoc, !foldl_app. done. }
    cbn [rbind]. destruct (is_code (charCodeAt p 0) SLASH) eqn:Ep.
    + exists (p ++ js "/" ++ acc). split; [apply resolve_loop_stop|]. intros.
      rewrite fold_segments_join. unfold all_segments. simpl. by rewrite app_nil_r.
    + destruct (IH (p ++ js "/" ++ acc)) as (full & Hf & Hs). exists full. split; [exact Hf|].
      intros. rewrite Hs, all_segments_snoc, <- app_assoc, !foldl_app. rewrite fold_segments_join.
      by rewrite foldl_app.
Qed.

Lemma resolve_text c ps :
  is_code (charCodeAt c 0) SLASH = true ->
  resolve (Some (JString c)) (JString <$> ps)
  = Ok (abs_text (resolve_stack false (all_segments (effective (c :: ps))))).
Proof.
  intros Hc. unfold resolve. rewrite <- fmap_reverse.
  destruct (resolve_loop_spec c (reverse ps) [] Hc) as (full & -> & Hs). cbn [rbind fst snd negb].
  change (js "/") with [SLASH].
  rewrite (normalizeString_render isPosixPathSeparator SLASH). unfold resolve_stack at 1 2 3.
  rewrite Hs, reverse_involutive, foldl_app. cbn [foldl posix_segments segments split_on]. f_equal.
  change (foldl (push false) [] ?x) with (resolve_stack false x).
  set (st := resolve_stack false _). unfold push, str_eqb. rewrite bool_decide_eq_true_2 by done. cbn [orb].
  unfold abs_text. destruct (Z.ltb_spec 0 (len (render SLASH st))); [done|].
  pose proof (len_nonneg (render SLASH st)).
  replace (render SLASH st) with (@nil Z); [done|]. symmetry. apply len_0_nil. lia.
Qed.

Lemma abs_text_form st : abs_text st = form true false st.
Proof. unfold abs_text, form. destruct st; [done|]. by rewrite app_nil_r. Qed.

Lemma resolve_abs_text st :
  posix_normal false st -> resolve_stack false (posix_segments (abs_text st)) = st.
Proof.
  intros Hst. destruct st as [|s st]; [done|].
  pose proof (resolve_form false true false (s :: st) Hst) as E.
  rewrite app_nil_r in E. by apply E.
Qed.

Lemma isAbsolute_code p :
  isAbsolute (JString p) = Ok true -> 0 < len p /\ is_code (charCodeAt p 0) SLASH = true.
Proof.
  unfold isAbsolute. cbn [assertPath rbind]. intros [=H]. apply andb_true_iff in H as [H1 H2].
  by apply Z.ltb_lt in H1.
Qed.

(** with an absolute working directory and string arguments, [resolve]
    returns the absolute normal form of the segments of the working directory
    and the arguments, counted from the last absolute one on. *)
Theorem resolve_refines (cwd : jsstr) (ps : list jsstr) :
  isAbsolute (JString cwd) = Ok true ->
  exists names,
    resolve (Some (JString cwd)) (JString <$> ps) = Ok (js "/" ++ join_with (js "/") names)
    /\ names = reverse (resolve_stack false (concat (posix_segments <$> effective (cwd :: ps))))
    /\ Forall (proper isPosixPathSeparator) names.
Proof.
  intros [_ Hc]%isAbsolute_code. eexists. split; [apply (resolve_text cwd ps Hc)|].
  split; [done|]. destruct (resolve_normal isPosixPathSeparator false (all_segments (effective (cwd :: ps))))
    as (names & ups & -> & Hn & Hu).
  { unfold all_segments. apply Forall_concat, Forall_fmap, Forall_true. intros; apply segments_ok. }
  rewrite Hu by done. simpl. rewrite app_nil_r. by apply Forall_reverse.
Qed.

(** the arguments before an absolute one have no effect on [resolve]: they
    are not even inspected, so a value of the wrong type there is no error. *)
Theorem resolve_absolute_stops (cwd : option jsval) (before : list jsval) (p : jsstr) (after : list jsval) :
  isAbsolute (JString p) = Ok true ->
  resolve cwd (before ++ JString p :: after) = resolve cwd (JString p :: after).
Proof.
  intros [Hlen Hp]%isAbsolute_code. unfold resolve. f_equal.
  rewrite reverse_app, !reverse_cons, <- app_assoc. generalize (@nil Z, false) as st.
  induction (reverse after) as [|v vs IH]; intros [acc abs].
  - destruct abs; [by rewrite !resolve_loop_stop|].
    cbn [app resolve_loop resolve_step assertPath rbind fst snd].
    destruct (Z.eqb_spec (len p) 0); [lia|]. rewrite Hp. cbn [rbind]. by rewrite !resolve_loop_stop.
  - simpl. destruct abs; [done|]. destruct (resolve_step v (acc, false)) as [st|e]; [apply IH|done].
Qed.

Lemma resolve_text_normal cwd ps :
  is_code (charCodeAt cwd 0) SLASH = true ->
  exists st, posix_normal false st
    /\ resolve (Some (JString cwd)) (JString <$> ps) = Ok (abs_text st)
    /\ st = resolve_stack false (all_segments (effective (cwd :: ps))).
Proof.
  intros Hc. eexists. split; [|split; [by apply resolve_text|done]]. apply resolve_normal.
  unfold all_segments. apply Forall_concat, Forall_fmap, Forall_true. intros; apply segments_ok.
Qed.

(** ** Relative paths *)

(** The common prefix of two lists. *)
Lemma common_prefix {A} `{EqDecision A} (x y : list A) :
  exists m x' y', x = m ++ x' /\ y = m ++ y'
    /\ match x', y' with a :: _, b :: _ => a <> b | _, _ => True end.
Proof.
  revert y. induction x as [|a x IH]; intros y; [by exists [], [], y|].
  destruct y as [|b y]; [by exists [], (a :: x), []|].
  destruct (decide (a = b)) as [->|Hab]; [|by exists [], (a :: x), (b :: y)].
  destruct (IH y) as (m & x' & y' & -> & -> & H). by exists (b :: m), x', y'.
Qed.

(** The comparison loop on [/x] and [/y] over the common prefix. *)
Lemma relative_loop_prefix x' y' m0 m l (n : nat) :
  let from := js "/" ++ m0 ++ m ++ x' in
  let to := js "/" ++ m0 ++ m ++ y' in
  relative_loop from to 1 (len from) 1 (len to) l (length m + n) (len m0) (lastIndexOf m0 [SLASH])
  = relative_loop from to 1 (len from) 1 (len to) l n (len (m0 ++ m)) (lastIndexOf (m0 ++ m) [SLASH]).
Proof.
  revert m0. induction m as [|c m IH]; intros m0; cbv zeta; [by rewrite app_nil_r|].
  cbn [length Nat.add relative_loop].
  assert (Hc : forall z, charCodeAt (js "/" ++ m0 ++ (c :: m) ++ z) (1 + len m0) = Some c).
  { intros z. change 1 with (len (js "/")). rewrite <- len_app, app_assoc. apply at_index_mid. }
  rewrite !Hc. cbn [num_eqb]. rewrite Z.eqb_refl. cbn [negb].
  specialize (IH (m0 ++ [c])). cbv zeta in IH. rewrite <- !app_assoc in IH.
  cbn [app] in IH |- *. rewrite <- IH.
  replace (len (m0 ++ [c])) with (len m0 + 1) by (len_simpl; lia). f_equal. cbn [is_code].
  destruct (Z.eqb_spec c SLASH) as [->|Hne]; [by rewrite lastIndexOf_app|].
  destruct (last_occurrence SLASH m0) as [H|(a & e & -> & H)].
  - rewrite !lastIndexOf_none; [done|apply Forall_app; split; [done|by constructor]|done].
  - rewrite <- app_assoc. cbn [app]. rewrite !lastIndexOf_app; [done|apply Forall_app; split; [done|by constructor]|done].
Qed.

(** [n] times [..], joined. *)
Definition ups (n : nat) : jsstr := join_with (js "/") (replicate n (js "..")).

Lemma ups_step n :
  (if len (ups n) =? 0 then ups n ++ js ".." else ups n ++ js "/..") = ups (S n).
Proof.
  destruct n as [|n]; [done|]. unfold ups.
  assert (E : replicate (S (S n)) (js "..") = replicate (S n) (js "..") ++ [js ".."])
    by (by rewrite <- replicate_S_end).
  rewrite E, join_with_snoc. cbn [replicate].
  destruct (Z.eqb_spec (len (join_with (js "/") (js ".." :: replicate n (js "..")))) 0) as [E0|_]; [|done].
  apply len_0_nil in E0. by destruct n.
Qed.

Definition slashes (z : jsstr) : nat := length (filter (fun c => c = SLASH) z).

Lemma relative_ups_count p z k :
  relative_ups (p ++ z) (len (p ++ z)) (length z + 1) (len p) (ups k) = ups (k + slashes z + 1).
Proof.
  revert p k. induction z as [|c z IH]; intros p k.
  - cbn [length Nat.add relative_ups]. rewrite app_nil_r, Z.eqb_refl. cbn [orb].
    rewrite ups_step. f_equal. change (slashes []) with O. lia.
  - cbn [length Nat.add relative_ups]. unfold charCodeAt. rewrite at_index_mid. cbn [is_code].
    pose proof (len_nonneg z). rewrite len_app, len_cons.
    destruct (Z.eqb_spec (len p) (len p + (1 + len z))); [lia|]. cbn [orb].
    specialize (IH (p ++ [c])). rewrite <- app_assoc in IH. cbn [app] in IH.
    rewrite !len_app, len_cons, len_cons in IH. change (len (@nil Z)) with 0 in IH.
    rewrite Z.add_0_r in IH. unfold slashes in *.
    destruct (Z.eqb_spec c SLASH) as [->|Hc].
    + rewrite ups_step, IH. f_equal. rewrite filter_cons_True by done. simpl. lia.
    + rewrite IH. f_equal. by rewrite filter_cons_False.
Qed.

Lemma slashes_app x y : slashes (x ++ y) = (slashes x + slashes y)%nat.
Proof. unfold slashes. rewrite filter_app. apply length_app. Qed.

Lemma slashes_seg s : seg_ok isPosixPathSeparator s -> slashes s = O.
Proof.
  intros Hs. unfold slashes. induction Hs as [|c s Hc Hs IH]; [done|].
  rewrite filter_cons_False; [done|]. by intros ->.
Qed.

Lemma slashes_join f fs :
  Forall (seg_ok isPosixPathSeparator) (f :: fs) ->
  slashes (join_with (js "/") (f :: fs)) = length fs.
Proof.
  revert f. induction fs as [|g fs IH]; intros f Hf.
  - apply Forall_cons in Hf as [Hf _]. by apply slashes_seg.
  - apply Forall_cons in Hf as [Hf Hfs].
    change (join_with (js "/") (f :: g :: fs)) with (f ++ js "/" ++ join_with (js "/") (g :: fs)).
    rewrite !slashes_app, IH, slashes_seg by done. done.
Qed.

Lemma first_occurrence (c : Z) s :
  Forall (fun x => x <> c) s \/ exists a e, s = a ++ c :: e /\ Forall (fun x => x <> c) a.
Proof.
  induction s as [|x s IH]; [by left|]. destruct (decide (x = c)) as [->|Hx].
  - right. by exists [], s.
  - destruct IH as [IH|(a & e & -> & Ha)]; [left; by constructor|].
    right. exists (x :: a), e. split; [done|by constructor].
Qed.

Lemma fresh_seg_ok s : Forall (fun x => x <> SLASH) s -> seg_ok isPosixPathSeparator s.
Proof.
  intros H. eapply Forall_impl; [exact H|]. intros x Hx. unfold isPosixPathSeparator, is_code.
  by apply Z.eqb_neq.
Qed.

(** A joined list of names determines its first name. *)
Lemma join_first f fs s r :
  Forall (seg_ok isPosixPathSeparator) (f :: fs) -> seg_ok isPosixPathSeparator s ->
  join_with (js "/") (f :: fs) = s ++ r -> r = [] \/ (exists r', r = SLASH :: r') -> f = s.
Proof.
  intros Hf Hs E Hr.
  assert (Hseg : posix_segments (s ++ r) = f :: fs).
  { rewrite <- E. change (js "/") with [SLASH]. by apply (segments_join isPosixPathSeparator SLASH). }
  unfold segments in Hseg. rewrite split_on_seg in Hseg by done.
  destruct Hr as [-> |(r' & ->)]; simpl in Hseg; congruence.
Qed.

Lemma join_head f fs :
  proper isPosixPathSeparator f -> exists c q, join_with (js "/") (f :: fs) = c :: q /\ c <> SLASH.
Proof.
  intros (Hne & _ & _ & Hok). destruct f as [|c f]; [done|].
  apply Forall_cons in Hok as [Hc _].
  assert (c <> SLASH) by (by intros ->). destruct fs; simpl; by eauto.
Qed.

Lemma proper_segs fs : Forall (proper isPosixPathSeparator) fs -> Forall (seg_ok isPosixPathSeparator) fs.
Proof. intros H. eapply Forall_impl; [exact H|]. by intros ? (_ & _ & _ & ?). Qed.

Lemma lastIndexOf_slash_tail (cc m : jsstr) :
  cc = [] \/ (exists c', cc = c' ++ [SLASH]) -> Forall (fun x => x <> SLASH) m ->
  lastIndexOf (cc ++ m) [SLASH] = len cc - 1.
Proof.
  intros [-> |(c' & ->)] Hm.
  - rewrite app_nil_l, lastIndexOf_none by done. done.
  - rewrite <- app_assoc. cbn [app]. rewrite lastIndexOf_app by done. len_simpl. lia.
Qed.

(** The two starting points of [relative] are behind the leading slash. *)
Lemma skip_slashes_one x n :
  match x with c :: _ => c <> SLASH | [] => n = O end -> skip_slashes (js "/" ++ x) n 1 = 1.
Proof.
  destruct x as [|c x]; intros H; [by subst|]. destruct n as [|n]; [done|].
  cbn [skip_slashes]. change (charCodeAt (js "/" ++ c :: x) 1) with (Some c). cbn [is_code].
  by destruct (Z.eqb_spec c SLASH).
Qed.

(** The loop of [relative] from the start, on the common prefix [m]. *)
Lemma relative_loop_common m x' y' l n :
  n = (length m + Z.to_nat (l - len m))%nat ->
  relative_loop (js "/" ++ m ++ x') (js "/" ++ m ++ y') 1 (len (js "/" ++ m ++ x')) 1
    (len (js "/" ++ m ++ y')) l n 0 (-1)
  = relative_loop (js "/" ++ m ++ x') (js "/" ++ m ++ y') 1 (len (js "/" ++ m ++ x')) 1
      (len (js "/" ++ m ++ y')) l (Z.to_nat (l - len m)) (len m) (lastIndexOf m [SLASH]).
Proof. intros ->. exact (relative_loop_prefix x' y' [] m l _). Qed.

Lemma code_after (m r : jsstr) c : charCodeAt (js "/" ++ m ++ c :: r) (1 + len m) = Some c.
Proof. change 1 with (len (js "/")). rewrite <- len_app, app_assoc. apply at_index_mid. Qed.

(** The tail of [relative] once [lastCommonSep] is known: [cc] is the text of
    the common directories, with its slash. *)
Lemma relative_out cc x y :
  cc = [] \/ (exists c', cc = c' ++ [SLASH]) ->
  let from := js "/" ++ cc ++ x in
  let to := js "/" ++ cc ++ y in
  let i := 1 + (len cc - 1) + 1 in
  let out := relative_ups from (len from) (Z.to_nat (len from + 1 - i)) i [] in
  out = ups (slashes x + 1) /\ slice_from to (1 + (len cc - 1)) = SLASH :: y.
Proof.
  intros Hcc. cbv zeta. split.
  - replace (1 + (len cc - 1) + 1) with (len (js "/" ++ cc)) by (rewrite len_app; change (len (js "/")) with 1; lia).
    replace (Z.to_nat (len (js "/" ++ cc ++ x) + 1 - len (js "/" ++ cc))) with (length x + 1)%nat
      by (rewrite !len_app; unfold len; lia).
    rewrite app_assoc. exact (relative_ups_count (js "/" ++ cc) x 0).
  - replace (1 + (len cc - 1)) with (len cc) by lia.
    assert (E : exists c', js "/" ++ cc = c' ++ [SLASH] /\ len c' = len cc).
    { destruct Hcc as [-> |(c' & ->)]; [by exists []|]. exists (js "/" ++ c'). split; [done|].
      rewrite !len_app. change (len (js "/")) with 1. change (len [SLASH]) with 1. lia. }
    destruct E as (c' & E & <-). rewrite app_assoc, E, <- app_assoc. apply slice_from_suffix.
Qed.

(** [relative] between two absolute normal paths with common directories [cs]:
    as many [..] as names are left in [from], then the names left in [to]. *)
Section RelativeCases.
Context (cs fs ts : list jsstr).
Context (Hcs : Forall (proper isPosixPathSeparator) cs)
        (Hfs : Forall (proper isPosixPathSeparator) fs)
        (Hts : Forall (proper isPosixPathSeparator) ts).

Definition common_text : jsstr :=
  match cs with [] => [] | _ => join_with (js "/") cs ++ js "/" end.

Lemma common_text_shape : common_text = [] \/ exists c', common_text = c' ++ [SLASH].
Proof. unfold common_text. destruct cs; [by left|]. right. eexists. done. Qed.

Lemma join_common xs : xs <> [] -> join_with (js "/") (cs ++ xs) = common_text ++ join_with (js "/") xs.
Proof.
  intros Hx. unfold common_text. clear Hcs. induction cs as [|c cs' IH]; [done|].
  destruct cs' as [|d cs'].
  - destruct xs; [done|]. simpl. by rewrite <- app_assoc.
  - change ((c :: d :: cs') ++ xs) with (c :: d :: (cs' ++ xs)).
    change (join_with (js "/") (c :: d :: cs' ++ xs)) with (c ++ js "/" ++ join_with (js "/") ((d :: cs') ++ xs)).
    rewrite IH. change (join_with (js "/") (c :: d :: cs')) with (c ++ js "/" ++ join_with (js "/") (d :: cs')).
    by rewrite <- !app_assoc.
Qed.

Lemma starts_one xs ys :
  Forall (proper isPosixPathSeparator) (xs ++ ys) ->
  skip_slashes (js "/" ++ join_with (js "/") (xs ++ ys))
    (Z.to_nat (len (js "/" ++ join_with (js "/") (xs ++ ys)) - 1)) 1 = 1.
Proof.
  intros H. apply skip_slashes_one. destruct (xs ++ ys) as [|f l].
  - done.
  - apply Forall_cons in H as [Hf _]. destruct (join_head f l Hf) as (c & q & -> & Hc). done.
Qed.

Lemma relative_lengths m x' y' l :
  l = (if len (js "/" ++ m ++ x') - 1 <? len (js "/" ++ m ++ y') - 1
       then len (js "/" ++ m ++ x') - 1 else len (js "/" ++ m ++ y') - 1) ->
  l = len m + Z.min (len x') (len y').
Proof.
  intros ->. rewrite !len_app. change (len (js "/")) with 1.
  destruct (Z.ltb_spec (1 + (len m + len x') - 1) (1 + (len m + len y') - 1)); lia.
Qed.

(** [relative_tail] after the comparison loop ran over the common prefix. *)
Lemma relative_tail_common m x' y' :
  let from := js "/" ++ m ++ x' in
  let to := js "/" ++ m ++ y' in
  let l := len m + Z.min (len x') (len y') in
  relative_tail from to 1 (len from) 1 (len to)
  = match relative_loop from to 1 (len from) 1 (len to) l (Z.to_nat (l - len m)) (len m)
            (lastIndexOf m [SLASH]) with
    | inl s => s
    | inr lcs =>
        let i := 1 + lcs + 1 in
        let out := relative_ups from (len from) (Z.to_nat (len from + 1 - i)) i [] in
        if 0 <? len out then out ++ slice_from to (1 + lcs)
        else
          let toStart := 1 + lcs in
          let toStart := if is_code (charCodeAt to toStart) SLASH then toStart + 1 else toStart in
          slice_from to toStart
    end.
Proof.
  cbv zeta. unfold relative_tail. cbv zeta.
  rewrite <- (relative_lengths m x' y' _ eq_refl).
  set (l := if _ <? _ then _ else _).
  assert (Hl : l = len m + Z.min (len x') (len y')) by (by apply relative_lengths).
  rewrite <- relative_loop_common with (n := Z.to_nat l); [done|].
  rewrite Hl. pose proof (len_nonneg x'). pose proof (len_nonneg y'). unfold len. lia.
Qed.

Lemma relative_down :
  ts <> [] -> fs = [] ->
  let from := js "/" ++ join_with (js "/") cs in
  let to := js "/" ++ join_with (js "/") (cs ++ ts) in
  relative_tail from to 1 (len from) 1 (len to) = join_with (js "/") ts.
Proof.
  intros Hne _. cbv zeta. rewrite join_common by done.
  destruct ts as [|t ts']; [done|]. apply Forall_cons in Hts as [Ht _].
  destruct (join_head t ts' Ht) as (c & q & E & Hc). rewrite E.
  pose proof (len_nonneg q). unfold common_text. destruct cs as [|f cs'].
  - etransitivity; [exact (relative_tail_common [] [] (c :: q))|]. cbv zeta.
    rewrite (Z.min_l (len (@nil Z))) by (rewrite len_cons; change (len (@nil Z)) with 0; lia).
    change (Z.to_nat (len (@nil Z) + len (@nil Z) - len (@nil Z))) with O. cbn [relative_loop].
    rewrite (code_after [] q c). cbn [is_code]. destruct (Z.eqb_spec c SLASH); [done|].
    destruct (Z.ltb_spec (len (@nil Z) + len (@nil Z)) (len (js "/" ++ [] ++ c :: q) - 1)) as [_|Hl];
      [exact (slice_from_suffix (js "/") (c :: q))|].
    rewrite !len_app, len_cons in Hl. change (len (@nil Z)) with 0 in Hl. change (len (js "/")) with 1 in Hl. lia.
  - set (m := join_with (js "/") (f :: cs')).
    pose proof (relative_tail_common m [] (SLASH :: c :: q)) as R. cbv zeta in R.
    rewrite app_nil_r in R. rewrite <- (app_assoc m). etransitivity; [exact R|]. clear R.
    change (len (@nil Z)) with 0. rewrite !len_cons, Z.min_l by lia. rewrite Z.add_0_r, Z.sub_diag.
    change (Z.to_nat 0) with O. cbn [relative_loop]. rewrite (code_after m (c :: q) SLASH). cbn [is_code]. rewrite Z.eqb_refl.
    rewrite !len_app, !len_cons. change (len (js "/")) with 1.
    destruct (Z.ltb_spec (len m) (1 + (len m + (1 + (1 + len q))) - 1)); [|lia].
    replace (1 + len m + 1) with (len (js "/" ++ m ++ [SLASH]))
      by (rewrite !len_app; change (len (js "/")) with 1; change (len [SLASH]) with 1; lia).
    replace (js "/" ++ m ++ SLASH :: c :: q) with ((js "/" ++ m ++ [SLASH]) ++ c :: q)
      by (rewrite <- !app_assoc; done).
    apply slice_from_suffix.
Qed.

Lemma ups_pos n : 0 < len (ups (S n)).
Proof. apply len_pos. unfold ups. by destruct n. Qed.

Lemma slashes_names f l :
  Forall (proper isPosixPathSeparator) (f :: l) ->
  (slashes (join_with (js "/") (f :: l)) + 1)%nat = length (f :: l).
Proof. intros H. rewrite slashes_join by (by apply proper_segs). simpl. lia. Qed.

Lemma relative_up :
  fs <> [] -> ts = [] ->
  let from := js "/" ++ join_with (js "/") (cs ++ fs) in
  let to := js "/" ++ join_with (js "/") cs in
  relative_tail from to 1 (len from) 1 (len to) = ups (length fs).
Proof.
  intros Hne _. cbv zeta. rewrite join_common by done.
  destruct fs as [|t fs']; [done|]. pose proof (slashes_names t fs' Hfs) as Hcount.
  destruct (join_head t fs') as (c & q & E & Hc); [by apply Forall_cons in Hfs as [? _]|].
  rewrite E in Hcount |- *. pose proof (len_nonneg q). unfold common_text. destruct cs as [|f cs'].
  - etransitivity; [exact (relative_tail_common [] (c :: q) [])|]. cbv zeta.
    rewrite (Z.min_r _ (len (@nil Z))) by (rewrite len_cons; change (len (@nil Z)) with 0; lia).
    change (Z.to_nat (len (@nil Z) + len (@nil Z) - len (@nil Z))) with O. cbn [relative_loop].
    rewrite (code_after [] q c). cbn [is_code]. destruct (Z.eqb_spec c SLASH); [done|].
    change (len (@nil Z) + len (@nil Z)) with 0. change (len (js "/" ++ [] ++ []) - 1) with 0.
    cbn [Z.ltb Z.compare].
    destruct (Z.ltb_spec 0 (len (js "/" ++ [] ++ c :: q) - 1)) as [_|Hl].
    2:{ rewrite !len_app, len_cons in Hl. change (len (@nil Z)) with 0 in Hl. change (len (js "/")) with 1 in Hl. lia. }
    change (len (@nil Z) =? 0) with true. cbv iota. change (1 + 0 + 1) with (len [SLASH; c]).
    change (js "/" ++ [] ++ c :: q) with ([SLASH; c] ++ q).
    replace (Z.to_nat (len ([SLASH; c] ++ q) + 1 - len [SLASH; c])) with (length q + 1)%nat
      by (rewrite len_app; unfold len; lia).
    pose proof (relative_ups_count [SLASH; c] q 0) as R. change (ups 0) with (@nil Z) in R. rewrite R.
    replace (0 + slashes q + 1)%nat with (length (t :: fs')).
    2:{ rewrite <- Hcount. unfold slashes. rewrite filter_cons_False by done. lia. }
    pose proof (ups_pos (length fs')). destruct (Z.ltb_spec 0 (len (ups (length (t :: fs'))))); [|simpl in *; lia].
    change (slice_from (js "/" ++ [] ++ []) (1 + 0)) with (@nil Z). apply app_nil_r.
  - set (m := join_with (js "/") (f :: cs')).
    pose proof (relative_tail_common m (SLASH :: c :: q) []) as R. cbv zeta in R.
    rewrite app_nil_r in R. rewrite <- (app_assoc m). etransitivity; [exact R|]. clear R.
    change (len (@nil Z)) with 0. rewrite !len_cons, Z.min_r by lia. rewrite Z.add_0_r, Z.sub_diag.
    change (Z.to_nat 0) with O. cbn [relative_loop]. rewrite (code_after m (c :: q) SLASH). cbn [is_code].
    rewrite Z.eqb_refl.
    replace (len m <? len (js "/" ++ m) - 1) with false by (rewrite len_app; change (len (js "/")) with 1; lia).
    replace (len m <? len (js "/" ++ m ++ SLASH :: c :: q) - 1) with true
      by (rewrite !len_app, !len_cons; change (len (js "/")) with 1; lia).
    replace (1 + len m + 1) with (len (js "/" ++ m ++ [SLASH]))
      by (rewrite !len_app; change (len (js "/")) with 1; change (len [SLASH]) with 1; lia).
    replace (js "/" ++ m ++ SLASH :: c :: q) with ((js "/" ++ m ++ [SLASH]) ++ c :: q)
      by (rewrite <- !app_assoc; done).
    replace (Z.to_nat (len ((js "/" ++ m ++ [SLASH]) ++ c :: q) + 1 - len (js "/" ++ m ++ [SLASH])))
      with (length (c :: q) + 1)%nat by (rewrite len_app; unfold len; lia).
    pose proof (relative_ups_count (js "/" ++ m ++ [SLASH]) (c :: q) 0) as R. change (ups 0) with (@nil Z) in R.
    rewrite R, Nat.add_0_l, Hcount.
    pose proof (ups_pos (length fs')). destruct (Z.ltb_spec 0 (len (ups (length (t :: fs'))))); [|simpl in *; lia].
    pose proof (slice_from_suffix (js "/" ++ m) []) as R'. rewrite app_nil_r in R'.
    rewrite len_app in R'. change (len (js "/")) with 1 in R'. rewrite R'. apply app_nil_r.
Qed.

(** Two lists of names that start differently: their texts share a prefix
    without a slash, and what follows it in one is not a slash when the other
    ends there. *)
Lemma diff_prefix f fs' g ts' m x' y' :
  Forall (proper isPosixPathSeparator) (f :: fs') -> Forall (proper isPosixPathSeparator) (g :: ts') ->
  f <> g -> join_with (js "/") (f :: fs') = m ++ x' -> join_with (js "/") (g :: ts') = m ++ y' ->
  Forall (fun c => c <> SLASH) m
  /\ (x' = [] -> m <> [] /\ exists b r, y' = b :: r /\ b <> SLASH)
  /\ (y' = [] -> m <> [] /\ exists a r, x' = a :: r /\ a <> SLASH).
Proof.
  intros Hf0 Hg0 Hne Ex Ey.
  pose proof (proper_segs _ Hf0) as Hf. pose proof (proper_segs _ Hg0) as Hg.
  apply Forall_cons in Hf0 as [[Hf0 _] _]. apply Forall_cons in Hg0 as [[Hg0 _] _].
  assert (Hm : Forall (fun c => c <> SLASH) m).
  { destruct (first_occurrence SLASH m) as [H|(a & e & -> & Ha%fresh_seg_ok)]; [done|]. exfalso. apply Hne.
    rewrite <- app_assoc in Ex, Ey. transitivity a; [|symmetry]; eapply join_first; eauto; right; by eexists. }
  assert (Hok : seg_ok isPosixPathSeparator m) by (by apply fresh_seg_ok).
  split; [done|]. split; intros ->; rewrite app_nil_r in *.
  - assert (f = m) as ->.
    { eapply (join_first f fs' m []); [done|done|by rewrite app_nil_r|by left]. }
    split; [|destruct y' as [|b r]; [exfalso|exists b, r; split; [done|intros ->; exfalso]]].
    + done.
    + apply Hne. symmetry. eapply (join_first g ts' m []); [done|done|done|by left].
    + apply Hne. symmetry. eapply join_first; eauto.
  - assert (g = m) as ->.
    { eapply (join_first g ts' m []); [done|done|by rewrite app_nil_r|by left]. }
    split; [|destruct x' as [|b r]; [exfalso|exists b, r; split; [done|intros ->; exfalso]]].
    + done.
    + apply Hne. eapply (join_first f fs' m []); [done|done|done|by left].
    + apply Hne. eapply join_first; eauto.
Qed.

Lemma relative_diff f fs' g ts' :
  fs = f :: fs' -> ts = g :: ts' -> f <> g ->
  let from := js "/" ++ join_with (js "/") (cs ++ fs) in
  let to := js "/" ++ join_with (js "/") (cs ++ ts) in
  relative_tail from to 1 (len from) 1 (len to)
  = ups (length fs) ++ js "/" ++ join_with (js "/") ts.
Proof.
  intros Ef Et Hne. cbv zeta. rewrite !join_common by (by rewrite ?Ef, ?Et).
  assert (Hcount : (slashes (join_with (js "/") fs) + 1)%nat = length fs)
    by (rewrite Ef in *; by apply slashes_names).
  destruct (common_prefix (join_with (js "/") fs) (join_with (js "/") ts)) as (m & x' & y' & Ex & Ey & Hxy).
  destruct (diff_prefix f fs' g ts' m x' y') as (Hm & Hx & Hy); rewrite <- ?Ef, <- ?Et; try done.
  pose proof (lastIndexOf_slash_tail common_text m common_text_shape Hm) as Hlast.
  destruct (relative_out common_text (m ++ x') (m ++ y') common_text_shape) as [Hout Hslice].
  rewrite Ex, Ey in *. etransitivity.
  { pose proof (relative_tail_common (common_text ++ m) x' y') as R. cbv zeta in R.
    rewrite <- !(app_assoc common_text) in R. exact R. }
  rewrite Hlast. cbv zeta in Hout, Hslice |- *.
  set (l := len (common_text ++ m) + Z.min (len x') (len y')).
  assert (Hloop : relative_loop (js "/" ++ common_text ++ m ++ x') (js "/" ++ common_text ++ m ++ y') 1
            (len (js "/" ++ common_text ++ m ++ x')) 1 (len (js "/" ++ common_text ++ m ++ y')) l
            (Z.to_nat (l - len (common_text ++ m))) (len (common_text ++ m)) (len common_text - 1)
          = inr (len common_text - 1)).
  { pose proof (len_nonneg x') as Hx0. pose proof (len_nonneg y') as Hy0.
    rewrite !(app_assoc common_text).
    destruct x' as [|a x'].
    - destruct (Hx eq_refl) as (Hm0 & b & r & -> & Hb). subst l. change (len (@nil Z)) with 0 in *.
      rewrite Z.min_l, Z.add_0_r, Z.sub_diag by done. change (Z.to_nat 0) with O. cbn [relative_loop].
      rewrite code_after. cbn [is_code]. destruct (Z.eqb_spec b SLASH); [done|].
      destruct (Z.eqb_spec (len (common_text ++ m)) 0) as [E0|_].
      { apply len_0_nil in E0. apply app_eq_nil in E0 as [_ ->]. done. }
      rewrite !len_app, len_cons. change (len (js "/")) with 1. change (len (@nil Z)) with 0.
      pose proof (len_nonneg r).
      destruct (Z.ltb_spec (len common_text + len m) (1 + (len common_text + len m + (1 + len r)) - 1)); [done|lia].
    - destruct y' as [|b y'].
      + destruct (Hy eq_refl) as (Hm0 & a' & r & [= -> ->] & Hb). subst l. change (len (@nil Z)) with 0 in *.
        rewrite Z.min_r, Z.add_0_r, Z.sub_diag by done. change (Z.to_nat 0) with O. cbn [relative_loop].
        rewrite code_after. cbn [is_code]. destruct (Z.eqb_spec a' SLASH); [done|].
        destruct (Z.eqb_spec (len (common_text ++ m)) 0) as [E0|_].
        { apply len_0_nil in E0. apply app_eq_nil in E0 as [_ ->]. done. }
        rewrite !len_app. change (len (js "/")) with 1. change (len (@nil Z)) with 0.
        destruct (Z.ltb_spec (len common_text + len m) (1 + (len common_text + len m + 0) - 1)); [lia|].
        by destruct (_ <? _).
      + subst l. rewrite !len_cons in *.
        destruct (Z.to_nat (len (common_text ++ m) + Z.min (1 + len x') (1 + len y') - len (common_text ++ m))) as [|n] eqn:En.
        { pose proof (len_nonneg x'). pose proof (len_nonneg y'). lia. }
        cbn [relative_loop]. rewrite !code_after. cbn [num_eqb]. by destruct (Z.eqb_spec a b). }
  rewrite Hloop, Hout, Hcount, Hslice. rewrite Ef. pose proof (ups_pos (length fs')).
  destruct (Z.ltb_spec 0 (len (ups (length (f :: fs'))))); [done|simpl in *; lia].
Qed.
End RelativeCases.

Lemma relative_names fn tn :
  Forall (proper isPosixPathSeparator) fn -> Forall (proper isPosixPathSeparator) tn -> fn <> tn ->
  exists cs fs ts, fn = cs ++ fs /\ tn = cs ++ ts
    /\ replicate (length fs) (js "..") ++ ts <> []
    /\ relative_resolved (js "/" ++ join_with (js "/") fn) (js "/" ++ join_with (js "/") tn)
       = join_with (js "/") (replicate (length fs) (js "..") ++ ts).
Proof.
  intros Hf Ht Hne. destruct (common_prefix fn tn) as (cs & fs & ts & -> & -> & Hd).
  exists cs, fs, ts. split; [done|]. split; [done|].
  assert (Htxt : str_eqb (js "/" ++ join_with (js "/") (cs ++ fs)) (js "/" ++ join_with (js "/") (cs ++ ts)) = false).
  { apply bool_decide_eq_false. intros E. apply app_inj_1 in E as [_ E]; [|done].
    apply Hne. assert (Hs : forall l, Forall (proper isPosixPathSeparator) l -> l <> [] ->
      posix_segments (join_with (js "/") l) = l).
    { intros l Hl Hl0. apply (segments_join isPosixPathSeparator SLASH); [done|by apply proper_segs]. }
    destruct (cs ++ fs) as [|a l1] eqn:E1, (cs ++ ts) as [|b l2] eqn:E2; [done| | |].
    - apply Forall_cons in Ht as [Hb _]. destruct (join_head b l2 Hb) as (c & q & E' & _).
      rewrite <- E in E'. done.
    - apply Forall_cons in Hf as [Hb _]. destruct (join_head a l1 Hb) as (c & q & E' & _).
      rewrite E in E'. done.
    - rewrite <- (Hs (a :: l1)), <- (Hs (b :: l2)) by done. by rewrite E. }
  unfold relative_resolved. rewrite Htxt. cbv zeta. rewrite !starts_one by done.
  apply Forall_app in Hf as [Hcs Hf]. apply Forall_app in Ht as [_ Ht].
  destruct fs as [|f fs'], ts as [|g ts'].
  - done.
  - split; [done|]. rewrite app_nil_r. by apply (relative_down cs [] (g :: ts')).
  - split; [done|]. rewrite !app_nil_r. by apply (relative_up cs (f :: fs') []).
  - split; [done|]. rewrite (relative_diff cs (f :: fs') (g :: ts') Hcs Hf Ht f fs' g ts') by done.
    rewrite join_common by done. cbn [length replicate common_text]. by rewrite <- app_assoc.
Qed.

(** As many [..] as there are names pop them all. *)
Lemma pop_names fs st :
  Forall (proper isPosixPathSeparator) fs ->
  foldl (push false) (reverse fs ++ st) (replicate (length fs) (js "..")) = st.
Proof.
  induction fs as [|f fs IH] using rev_ind; intros Hf; [done|].
  apply Forall_app in Hf as [Hfs Hf]. apply Forall_cons in Hf as [(_ & _ & Hdd & _) _].
  rewrite length_app, Nat.add_comm, reverse_snoc. cbn [length Nat.add replicate app foldl].
  rewrite push_dotdot. unfold str_eqb. rewrite bool_decide_eq_false_2 by done. by apply IH.
Qed.

Lemma push_names ts st :
  Forall (proper isPosixPathSeparator) ts -> foldl (push false) st ts = reverse ts ++ st.
Proof.
  revert st. induction ts as [|t ts IH]; intros st Ht; [done|].
  apply Forall_cons in Ht as [Ht Hts]. cbn [foldl].
  rewrite (push_proper isPosixPathSeparator) by done. rewrite IH by done.
  by rewrite reverse_cons, <- app_assoc.
Qed.

Lemma normal_names st : posix_normal false st -> Forall (proper isPosixPathSeparator) (reverse st).
Proof.
  intros (names & ups & -> & Hn & Hu). rewrite Hu by done. simpl. rewrite app_nil_r. by apply Forall_reverse.
Qed.

(** C1: [relative] is right: following the relative path from [from] leads to
    [to], for any two strings and any absolute working directory. *)
Theorem resolve_relative (cwd from to : jsstr) :
  isAbsolute (JString cwd) = Ok true ->
  exists r,
    relative (Some (JString cwd)) (JString from) (JString to) = Ok r
    /\ resolve (Some (JString cwd)) [JString from; JString r]
       = resolve (Some (JString cwd)) [JString to].
Proof.
  intros [_ Hc]%isAbsolute_code.
  destruct (resolve_text_normal cwd [from] Hc) as (sf & Hsf & Rf & Ef).
  destruct (resolve_text_normal cwd [to] Hc) as (st & Hst & Rt & Et). cbn [fmap list_fmap] in Rf, Rt.
  assert (Happ : forall r, is_code (charCodeAt r 0) SLASH = false ->
    resolve (Some (JString cwd)) [JString from; JString r]
    = Ok (abs_text (foldl (push false) sf (posix_segments r)))).
  { intros r Hr. pose proof (resolve_text cwd [from; r] Hc) as R. cbn [fmap list_fmap] in R.
    change [cwd; from; r] with ([cwd; from] ++ [r]) in R.
    rewrite effective_snoc, Hr, all_segments_snoc in R. rewrite R.
    unfold resolve_stack. rewrite foldl_app. rewrite Ef. done. }
  assert (Hnil : resolve (Some (JString cwd)) [JString from; JString []] = Ok (abs_text sf))
    by (by rewrite Happ).
  unfold relative. cbn [assertPath rbind]. rewrite Rf, Rt. cbn [rbind].
  destruct (str_eqb from to) eqn:E0.
  { exists []. split; [done|]. rewrite Hnil. bool_simpl. subst to. congruence. }
  destruct (decide (sf = st)) as [->|Hne].
  { exists []. unfold relative_resolved, str_eqb. by rewrite bool_decide_eq_true_2 by done. }
  destruct (relative_names (reverse sf) (reverse st)) as (cs & fs & ts & Efn & Etn & Hr0 & Er);
    [by apply normal_names|by apply normal_names|by intros ?%(inj reverse)|].
  pose proof (normal_names _ Hsf) as Hpf. pose proof (normal_names _ Hst) as Hpt.
  rewrite Efn in Hpf. rewrite Etn in Hpt. apply Forall_app in Hpf as [_ Hpf]. apply Forall_app in Hpt as [_ Hpt].
  eexists. split; [reflexivity|].
  unfold abs_text at 1 2, render at 1 2. change [SLASH] with (js "/"). rewrite Er.
  assert (Hsegs : posix_segments (join_with (js "/") (replicate (length fs) (js "..") ++ ts))
                  = replicate (length fs) (js "..") ++ ts).
  { apply (segments_join isPosixPathSeparator SLASH); [done|]. apply Forall_app; split; [|by apply proper_segs].
    apply Forall_replicate. by repeat constructor. }
  rewrite Happ, Hsegs, foldl_app.
  - rewrite <- (reverse_involutive sf), Efn, reverse_app, pop_names, push_names by done.
    by rewrite <- reverse_app, <- Etn, reverse_involutive.
  - destruct fs as [|f fs']; [|by destruct fs'; destruct ts].
    destruct ts as [|t ts']; [done|]. apply Forall_cons in Hpt as [Ht _]. simpl length. simpl replicate.
    rewrite app_nil_l. destruct (join_head t ts' Ht) as (c & q & -> & Hcs). simpl. by apply Z.eqb_neq.
Qed.

Lemma resolve_relative_witness :
  exists r,
    relative (Some (JString (js "/srv"))) (JString (js "/a/b")) (JString (js "c/../d")) = Ok r
    /\ resolve (Some (JString (js "/srv"))) [JString (js "/a/b"); JString r]
       = resolve (Some (JString (js "/srv"))) [JString (js "c/../d")].
Proof. apply (resolve_relative (js "/srv") (js "/a/b") (js "c/../d")). reflexivity. Defined.

(** ** Directory names *)

Lemma render_decomp s st :
  posix_normal false (s :: st) ->
  exists d, render SLASH (s :: st) = d ++ s
    /\ decomp isPosixPathSeparator (d ++ s ++ []) d s []
    /\ (d = [] /\ st = [] \/ st <> [] /\ d = render SLASH st ++ [SLASH]).
Proof.
  intros Hst. destruct (normal_seg _ SLASH _ _ s Hst) as [Hne Hok]; [by left|]. destruct st as [|u st].
  - exists []. split; [done|]. split; [|by left].
    split; [done|by left|done|constructor].
  - exists (render SLASH (u :: st) ++ [SLASH]). rewrite render_cons, <- app_assoc. split; [done|].
    split; [|by right].
    split; [by rewrite <- !app_assoc|right; by eexists _, _|done|constructor].
Qed.

Lemma dirname_abs_text s st :
  posix_normal false (s :: st) -> dirname_s (abs_text (s :: st)) = abs_text st.
Proof.
  intros Hst. destruct (render_decomp s st Hst) as (d & E & Hdc & Hd). unfold abs_text. rewrite E.
  pose proof (dir_loop_decomp isPosixPathSeparator (js "/") (js "/" ++ d ++ s) d s [] Hdc) as L.
  rewrite !app_nil_r in L. specialize (L eq_refl). change (len (js "/")) with 1 in L.
  unfold dirname_s. pose proof (len_nonneg (d ++ s)).
  change (is_code (charCodeAt (js "/" ++ d ++ s) 0) CHAR_FORWARD_SLASH) with true.
  replace (len (js "/" ++ d ++ s) =? 0) with false by (rewrite len_app; change (len (js "/")) with 1; lia).
  replace (Z.to_nat (len (js "/" ++ d ++ s) - 1)) with (length (d ++ s))
    by (rewrite len_app; change (len (js "/")) with 1; unfold len; lia).
  cbv zeta. rewrite L. destruct Hd as [[-> ->]|[Hne ->]]; [done|].
  rewrite bool_decide_eq_false_2 by (by destruct (render SLASH st)).
  destruct st as [|u st]; [done|].
  assert (Hu : u <> []) by (apply (normal_seg _ SLASH _ _ u Hst); by right; left).
  pose proof (len_pos _ (render_nonempty SLASH u st Hu)).
  rewrite len_app. change (len [SLASH]) with 1.
  destruct (Z.eqb_spec (1 + (len (render SLASH (u :: st)) + 1) - 1) (-1)); [lia|].
  destruct (Z.eqb_spec (1 + (len (render SLASH (u :: st)) + 1) - 1) 1); [lia|]. cbn [andb].
  replace (1 + (len (render SLASH (u :: st)) + 1) - 1) with (len (js "/" ++ render SLASH (u :: st)))
    by (rewrite len_app; change (len (js "/")) with 1; lia).
  rewrite <- app_assoc, app_assoc. apply slice_prefix.
Qed.

Lemma basename_abs_text s st :
  posix_normal false (s :: st) -> last_segment isPosixPathSeparator (abs_text (s :: st)) = s.
Proof.
  intros Hst. destruct (render_decomp s st Hst) as (d & E & Hdc & _). unfold abs_text. rewrite E.
  change (js "/" ++ d ++ s) with (SLASH :: d ++ s). rewrite last_segment_cons by done.
  eapply last_segment_decomp. rewrite app_nil_r in Hdc. exact Hdc.
Qed.

(** a resolved path other than the root is the join of its [dirname] and
    its [basename], and its [dirname] is resolved again. *)
Theorem dirname_basename_join (cwd : jsstr) (ps : list jsstr) (p : jsstr) :
  isAbsolute (JString cwd) = Ok true ->
  resolve (Some (JString cwd)) (JString <$> ps) = Ok p -> p <> js "/" ->
  exists d b,
    dirname (JString p) = Ok d /\ basename (JString p) JUndefined = Ok b
    /\ join [JString d; JString b] = Ok p
    /\ resolve (Some (JString cwd)) [JString d] = Ok d.
Proof.
  intros [_ Hc]%isAbsolute_code Hp Hne.
  destruct (resolve_text_normal cwd ps Hc) as (st & Hst & E & _). rewrite E in Hp. injection Hp as <-.
  destruct st as [|s st]; [done|].
  assert (Hst' : posix_normal false st).
  { destruct Hst as (names & n & E' & Hn & Hu). rewrite (Hu eq_refl), app_nil_r in E'. subst names.
    apply Forall_cons in Hn as [_ Hn]. exists st, O. by rewrite app_nil_r. }
  assert (Hs : proper isPosixPathSeparator s).
  { pose proof (normal_names _ Hst) as H'. rewrite reverse_cons in H'. apply Forall_app in H' as [_ H'].
    by apply Forall_cons in H' as [? _]. }
  exists (abs_text st), s. unfold dirname. cbn [assertPath rbind]. rewrite dirname_abs_text by done.
  unfold basename. cbn [rbind assertPath].
  rewrite basename_none, basename_abs_text by done. split; [done|]. split; [done|]. split.
  - pose proof (join_text [abs_text st; s]) as J. cbn [fmap list_fmap] in J. rewrite J.
    rewrite !filter_cons_True by (done || apply Hs). cbn [filter list_filter join_with].
    unfold normalize. cbn [assertPath rbind]. f_equal.
    destruct Hs as (Hs0 & Hs1 & Hs2 & Hok).
    assert (Hhead : is_code (charCodeAt (abs_text st ++ js "/" ++ s) 0) SLASH = true) by done.
    assert (Htail : is_code (charCodeAt (abs_text st ++ js "/" ++ s) (len (abs_text st ++ js "/" ++ s) - 1)) SLASH = false).
    { destruct (snoc_inv s Hs0) as (s' & c & ->). pose proof Hok as Hok'.
      apply all_snoc in Hok' as [_ Hok']. rewrite !app_assoc, code_last. simpl. apply Z.eqb_neq. by intros ->. }
    rewrite normalize_is_form by done. rewrite Hhead, Htail, (abs_text_form (s :: st)). f_equal.
    + unfold resolve_stack. cbn [negb].
      rewrite (fold_segments_join false [] (abs_text st) s), foldl_app.
      change (foldl (push false) [] (posix_segments (abs_text st))) with (resolve_stack false (posix_segments (abs_text st))).
      rewrite resolve_abs_text by done.
      replace (posix_segments s) with [s].
      2:{ unfold segments. rewrite <- (app_nil_r s) at 2. by rewrite split_on_seg. }
      simpl. by apply (push_proper isPosixPathSeparator).
  - pose proof (resolve_text cwd [abs_text st] Hc) as R. cbn [fmap list_fmap] in R. rewrite R.
    change [cwd; abs_text st] with ([cwd] ++ [abs_text st]). rewrite effective_snoc.
    change (is_code (charCodeAt (abs_text st) 0) SLASH) with true. cbv iota.
    unfold all_segments. cbn [fmap list_fmap concat]. rewrite app_nil_r. by rewrite resolve_abs_text.
Qed.

Lemma dirname_basename_join_witness :
  exists d b,
    dirname (JString (js "/srv/x/z")) = Ok d
    /\ basename (JString (js "/srv/x/z")) JUndefined = Ok b
    /\ join [JString d; JString b] = Ok (js "/srv/x/z")
    /\ resolve (Some (JString (js "/srv"))) [JString d] = Ok d.
Proof.
  apply (dirname_basename_join (js "/srv") [js "x/y"; js "../z/"]); [reflexivity|reflexivity|done].
Defined.

Lemma basename_strips_ext_witness :
  basename (JString (js "/a/b.txt")) (JString (js ".txt")) = Ok (js "b").
Proof.
  refine (eq_trans (basename_strips_ext (js "/a/b.txt") (js ".txt") _ _) _); [done|done|reflexivity].
Defined.

Lemma format_parse_roundtrip_witness :
  format (inr (formatted (parse_s (js "/home/u//x.tar.gz")))) = Ok (js "/home/u//x.tar.gz").
Proof.
  apply (format_parse_roundtrip (js "/home/u//x.tar.gz")); [done|]. intros b [=].
Defined.

Lemma resolve_refines_witness :
  exists names,
    resolve (Some (JString (js "/srv"))) (JString <$> [js "a"; js "/b"; js "../c"])
    = Ok (js "/" ++ join_with (js "/") names)
    /\ names = reverse (resolve_stack false
                 (concat (posix_segments <$> effective (js "/srv" :: [js "a"; js "/b"; js "../c"]))))
    /\ Forall (proper isPosixPathSeparator) names.
Proof. apply (resolve_refines (js "/srv") [js "a"; js "/b"; js "../c"]). reflexivity. Defined.

Lemma resolve_absolute_stops_witness :
  resolve None [JNull; JString (js "/b"); JString (js "c")] = Ok (js "/b/c").
Proof.
  refine (eq_trans (resolve_absolute_stops None [JNull] (js "/b") [JString (js "c")] _) _); reflexivity.
Defined.

(** ** Where the code departs from its comments *)

(** [basename] says that trailing separators are ignored, but when the last
    segment is a proper suffix of [ext] they come back with it. *)
Example basename_keeps_trailing_slash :
  basename (JString (js "/a/bc/")) (JString (js "xyzbc")) = Ok (js "bc/").
Proof. reflexivity. Qed.

(** [parse] means to treat a last segment [..] as having no extension, but
    directly under the root it finds the extension [.], unlike [extname]. *)
Example parse_root_dotdot :
  pp_ext (parse_s (js "/..")) = js "." /\ extname (JString (js "/..")) = Ok [].
Proof. split; reflexivity. Qed.
