(* ===== verification/PathWin32.v ===== *)
(** * Windows paths: [path/_win32.ts]

    Every exported function, on the dynamic values the source checks; the
    working directory, whether [Deno.env.get] is a function, and the Unicode
    [toLowerCase] are parameters of the functions that use them. *)

From S2P Require Import Prelude PathUtil PathScan.

Definition sep : jsstr := js "\".
Definition delimiter : jsstr := js ";".

(** The loops [for (; j < len; ++j) if (isPathSeparator(...) === stop) break]:
    the first index from [j] on whose unit is a separator or not, as [stop]
    says, or [j + n]. *)
Fixpoint scan_until (path : jsstr) (stop : bool) (n : nat) (j : Z) : Z :=
  match n with
  | O => j
  | S n' =>
      if eqb (isPathSeparator (charCodeAt path j)) stop then j
      else scan_until path stop n' (j + 1)
  end.

Definition scan_path (path : jsstr) (stop : bool) (j : Z) : Z :=
  scan_until path stop (Z.to_nat (len path - j)) j.

(** The match of a UNC root behind a double separator (lines 93 to 125 and
    their copies): none, a root only, or a root with leftovers; [firstPart] is
    the server, [last] the start of the share and [j] its end. *)
Inductive unc_match :=
| UncNone
| UncOnly (firstPart : jsstr) (last : Z)
| UncRest (firstPart : jsstr) (last j : Z).

Definition match_unc (path : jsstr) : unc_match :=
  let l := len path in
  let j := scan_path path true 2 in
  if (j <? l) && negb (j =? 2) then
    let firstPart := slice path 2 j in
    let last := j in
    let j := scan_path path false j in
    if (j <? l) && negb (j =? last) then
      let last := j in
      let j := scan_path path true j in
      if j =? l then UncOnly firstPart last
      else if negb (j =? last) then UncRest firstPart last j
      else UncNone
    else UncNone
  else UncNone.

(** What [resolve] (lines 77 to 149) and [normalize] find at the start of a
    non-empty path. *)
Record root_match := RM { rm_rootEnd : Z; rm_device : jsstr; rm_isAbsolute : bool }.

Definition match_root (path : jsstr) : root_match :=
  let code := charCodeAt path 0 in
  if 1 <? len path then
    if isPathSeparator code then
      if isPathSeparator (charCodeAt path 1) then
        match match_unc path with
        | UncNone => RM 0 [] true
        | UncOnly firstPart last =>
            RM (len path) (js "\\" ++ firstPart ++ js "\" ++ slice_from path last) true
        | UncRest firstPart last j =>
            RM j (js "\\" ++ firstPart ++ js "\" ++ slice path last j) true
        end
      else RM 1 [] true
    else if isWindowsDeviceRoot code then
      if is_code (charCodeAt path 1) CHAR_COLON then
        if (2 <? len path) && isPathSeparator (charCodeAt path 2)
        then RM 3 (slice path 0 2) true
        else RM 2 (slice path 0 2) false
      else RM 0 [] false
    else RM 0 [] false
  else if isPathSeparator code then RM 1 [] true
  else RM 0 [] false.

Section Resolve.
Context (lower : jsstr -> jsstr).
(** [Deno.cwd()], [None] when it is not a function, and whether [Deno.env.get]
    is a function. *)
Context (cwd : option jsval) (env_get : bool).

Record rs_state := RS {
  rs_device : jsstr;
  rs_tail : jsstr;
  rs_absolute : bool
}.

(** The [path] of the iteration [i = -1], lines 47 to 68. *)
Definition cwd_path (st : rs_state) : result jsval :=
  match rs_device st with
  | [] =>
      match cwd with
      | None => Throw (TypeError "Resolved a drive-letter-less path without a CWD.")
      | Some p => Ok p
      end
  | device =>
      match cwd, env_get with
      | Some p, true =>
          match p with
          | JString s =>
              if str_eqb (lower (slice s 0 3)) (lower device ++ js "\") then Ok p
              else Ok (JString (device ++ js "\"))
          | JUndefined => Ok (JString (device ++ js "\"))
          | _ => Throw (TypeError "path.slice is not a function")
          end
      | _, _ => Throw (TypeError "Resolved a relative path without a CWD.")
      end
  end.

(** Lines 70 to 168 for one [path]; the flag says that the loop breaks. *)
Definition resolve_step (path : jsval) (st : rs_state) : result (rs_state * bool) :=
  let! path := assertPath path in
  if len path =? 0 then Ok (st, false)
  else
    let root := match_root path in
    let device := rm_device root in
    if (0 <? len device) && (0 <? len (rs_device st))
       && negb (str_eqb (lower device) (lower (rs_device st)))
    then Ok (st, false)
    else
      let resolvedDevice :=
        if (len (rs_device st) =? 0) && (0 <? len device) then device else rs_device st in
      let st' :=
        if rs_absolute st then RS resolvedDevice (rs_tail st) true
        else RS resolvedDevice (slice_from path (rm_rootEnd root) ++ js "\" ++ rs_tail st)
                (rm_isAbsolute root) in
      Ok (st', rs_absolute st' && (0 <? len (rs_device st'))).

Fixpoint resolve_loop (segments_rev : list jsval) (st : rs_state) : result rs_state :=
  match segments_rev with
  | [] =>
      let! path := cwd_path st in
      let! r := resolve_step path st in
      Ok (fst r)
  | path :: rest =>
      let! r := resolve_step path st in
      if snd r then Ok (fst r) else resolve_loop rest (fst r)
  end.

Definition resolve (pathSegments : list jsval) : result jsstr :=
  let! st := resolve_loop (reverse pathSegments) (RS [] [] false) in
  let resolvedTail :=
    normalizeString (rs_tail st) (negb (rs_absolute st)) (js "\") isPathSeparator in
  let r := rs_device st ++ (if rs_absolute st then js "\" else []) ++ resolvedTail in
  Ok (if len r =? 0 then js "." else r).
End Resolve.

(** The device of [normalize] is [undefined] or a string, never empty. *)
Definition normalize_s (path : jsstr) : jsstr :=
  let l := len path in
  if l =? 0 then js "."
  else if negb (1 <? l) && isPathSeparator (charCodeAt path 0) then js "\"
  else
    let early :=
      if (1 <? l) && isPathSeparator (charCodeAt path 0) && isPathSeparator (charCodeAt path 1)
      then match match_unc path with
           | UncOnly firstPart last =>
               Some (js "\\" ++ firstPart ++ js "\" ++ slice_from path last ++ js "\")
           | _ => None
           end
      else None in
    match early with
    | Some r => r
    | None =>
        let root := match_root path in
        let device := rm_device root in
        let isAbsolute := rm_isAbsolute root in
        let tail :=
          if rm_rootEnd root <? l then
            normalizeString (slice_from path (rm_rootEnd root)) (negb isAbsolute) (js "\")
              isPathSeparator
          else [] in
        let tail := if (len tail =? 0) && negb isAbsolute then js "." else tail in
        let tail :=
          if (0 <? len tail) && isPathSeparator (charCodeAt path (l - 1))
          then tail ++ js "\" else tail in
        if len device =? 0 then
          if isAbsolute then (if 0 <? len tail then js "\" ++ tail else js "\")
          else if 0 <? len tail then tail else []
        else if isAbsolute then
          (if 0 <? len tail then device ++ js "\" ++ tail else device ++ js "\")
        else if 0 <? len tail then device ++ tail else device
    end.

Definition normalize (path : jsval) : result jsstr :=
  let! path := assertPath path in Ok (normalize_s path).

Definition isAbsolute_s (path : jsstr) : bool :=
  if len path =? 0 then false
  else
    let code := charCodeAt path 0 in
    if isPathSeparator code then true
    else if isWindowsDeviceRoot code then
      if (2 <? len path) && is_code (charCodeAt path 1) CHAR_COLON then
        isPathSeparator (charCodeAt path 2)
      else false
    else false.

Definition isAbsolute (path : jsval) : result bool :=
  let! path := assertPath path in Ok (isAbsolute_s path).

(** The loop of line 336: [joined] and [firstPart] are set together. *)
Fixpoint join_loop (paths : list jsval) (joined : option (jsstr * jsstr))
    : result (option (jsstr * jsstr)) :=
  match paths with
  | [] => Ok joined
  | path :: rest =>
      let! path := assertPath path in
      if 0 <? len path then
        match joined with
        | None => join_loop rest (Some (path, path))
        | Some (j, f) => join_loop rest (Some (j ++ js "\" ++ path, f))
        end
      else join_loop rest joined
  end.

(** Lines 360 to 387: the replacement of leading separators. *)
Definition join_leading (joined firstPart : jsstr) : jsstr :=
  let '(needsReplace, slashCount) :=
    if isPathSeparator (charCodeAt firstPart 0) then
      if 1 <? len firstPart then
        if isPathSeparator (charCodeAt firstPart 1) then
          if 2 <? len firstPart then
            if isPathSeparator (charCodeAt firstPart 2) then (true, 3) else (false, 2)
          else (true, 2)
        else (true, 1)
      else (true, 1)
    else (true, 0) in
  if needsReplace : bool then
    let slashCount := scan_until joined false (Z.to_nat (len joined - slashCount)) slashCount in
    if 2 <=? slashCount then js "\" ++ slice_from joined slashCount else joined
  else joined.

Definition join (paths : list jsval) : result jsstr :=
  if len paths =? 0 then Ok (js ".")
  else
    let! joined := join_loop paths None in
    match joined with
    | None => Ok (js ".")
    | Some (j, f) => normalize (JString (join_leading j f))
    end.

(** The trimming loops of lines 419 and 423. *)
Fixpoint trim_leading (s : jsstr) (n : nat) (i : Z) : Z :=
  match n with
  | O => i
  | S n' =>
      if is_code (charCodeAt s i) CHAR_BACKWARD_SLASH then trim_leading s n' (i + 1) else i
  end.

Fixpoint trim_trailing (s : jsstr) (n : nat) (e : Z) : Z :=
  match n with
  | O => e
  | S n' =>
      if is_code (charCodeAt s (e - 1)) CHAR_BACKWARD_SLASH then trim_trailing s n' (e - 1) else e
  end.

Section Relative.
(** The lower-cased paths and the original [to]. *)
Context (from to toOrig : jsstr) (fromStart fromEnd toStart toEnd : Z).

(** The loop of line 444, [n] iterations before [i = length]: an early return,
    or the final [i] and [lastCommonSep]. *)
Fixpoint relative_loop (length_ : Z) (n : nat) (i lastCommonSep : Z) : jsstr + (Z * Z) :=
  let fromLen := fromEnd - fromStart in
  let toLen := toEnd - toStart in
  match n with
  | O =>
      let from_end :=
        if length_ <? fromLen then
          if is_code (charCodeAt from (fromStart + i)) CHAR_BACKWARD_SLASH then inr (i, i)
          else if i =? 2 then inr (i, 3)
          else inr (i, lastCommonSep)
        else inr (i, lastCommonSep) in
      if length_ <? toLen then
        if is_code (charCodeAt to (toStart + i)) CHAR_BACKWARD_SLASH then
          inl (slice_from toOrig (toStart + i + 1))
        else if i =? 2 then inl (slice_from toOrig (toStart + i))
        else from_end
      else from_end
  | S n' =>
      let fromCode := charCodeAt from (fromStart + i) in
      let toCode := charCodeAt to (toStart + i) in
      if negb (num_eqb fromCode toCode) then inr (i, lastCommonSep)
      else
        relative_loop length_ n' (i + 1)
          (if is_code fromCode CHAR_BACKWARD_SLASH then i else lastCommonSep)
  end.

Fixpoint relative_ups (n : nat) (i : Z) (out : jsstr) : jsstr :=
  match n with
  | O => out
  | S n' =>
      relative_ups n' (i + 1)
        (if (i =? fromEnd) || is_code (charCodeAt from i) CHAR_BACKWARD_SLASH
         then (if len out =? 0 then out ++ js ".." else out ++ js "\..")
         else out)
  end.

(** Lines 440 to 501. *)
Definition relative_tail : jsstr :=
  let fromLen := fromEnd - fromStart in
  let toLen := toEnd - toStart in
  let length_ := if fromLen <? toLen then fromLen else toLen in
  match relative_loop length_ (Z.to_nat length_) 0 (-1) with
  | inl s => s
  | inr (i, lastCommonSep) =>
      if negb (i =? length_) && (lastCommonSep =? -1) then toOrig
      else
        let lastCommonSep := if lastCommonSep =? -1 then 0 else lastCommonSep in
        let i := fromStart + lastCommonSep + 1 in
        let out := relative_ups (Z.to_nat (fromEnd + 1 - i)) i [] in
        if 0 <? len out then out ++ slice toOrig (toStart + lastCommonSep) toEnd
        else
          let toStart := toStart + lastCommonSep in
          let toStart :=
            if is_code (charCodeAt toOrig toStart) CHAR_BACKWARD_SLASH
            then toStart + 1 else toStart in
          slice toOrig toStart toEnd
  end.
End Relative.

(** Lines 409 to 502, on resolved paths. *)
Definition relative_resolved (lower : jsstr -> jsstr) (fromOrig toOrig : jsstr) : jsstr :=
  if str_eqb fromOrig toOrig then []
  else
    let from := lower fromOrig in
    let to := lower toOrig in
    if str_eqb from to then []
    else
      let fromStart := trim_leading from (length from) 0 in
      let fromEnd := trim_trailing from (Z.to_nat (len from - 1 - fromStart)) (len from) in
      let toStart := trim_leading to (length to) 0 in
      let toEnd := trim_trailing to (Z.to_nat (len to - 1 - toStart)) (len to) in
      relative_tail from to toOrig fromStart fromEnd toStart toEnd.

Definition relative (lower : jsstr -> jsstr) (cwd : option jsval) (env_get : bool)
    (from to : jsval) : result jsstr :=
  let! from := assertPath from in
  let! to := assertPath to in
  if str_eqb from to then Ok []
  else
    let! fromOrig := resolve lower cwd env_get [JString from] in
    let! toOrig := resolve lower cwd env_get [JString to] in
    Ok (relative_resolved lower fromOrig toOrig).

Definition toNamespacedPath (lower : jsstr -> jsstr) (cwd : option jsval) (env_get : bool)
    (path : jsval) : result jsval :=
  match path with
  | JString p =>
      if len p =? 0 then Ok (JString [])
      else
        let! resolvedPath := resolve lower cwd env_get [JString p] in
        Ok (JString
          (if 3 <=? len resolvedPath then
             if is_code (charCodeAt resolvedPath 0) CHAR_BACKWARD_SLASH then
               if is_code (charCodeAt resolvedPath 1) CHAR_BACKWARD_SLASH then
                 let code := charCodeAt resolvedPath 2 in
                 if negb (is_code code CHAR_QUESTION_MARK) && negb (is_code code CHAR_DOT)
                 then js "\\?\UNC\" ++ slice_from resolvedPath 2
                 else p
               else p
             else if isWindowsDeviceRoot (charCodeAt resolvedPath 0) then
               if is_code (charCodeAt resolvedPath 1) CHAR_COLON
                  && is_code (charCodeAt resolvedPath 2) CHAR_BACKWARD_SLASH
               then js "\\?\" ++ resolvedPath
               else p
             else p
           else p))
  | v => Ok v
  end.

(** The root part of [dirname], lines 554 to 613: an early return of the whole
    path, or [rootEnd] and [offset]. *)
Definition dirname_root (path : jsstr) : option (Z * Z) :=
  let code := charCodeAt path 0 in
  if 1 <? len path then
    if isPathSeparator code then
      if isPathSeparator (charCodeAt path 1) then
        match match_unc path with
        | UncNone => Some (1, 1)
        | UncOnly _ _ => None
        | UncRest _ _ j => Some (j + 1, j + 1)
        end
      else Some (1, 1)
    else if isWindowsDeviceRoot code then
      if is_code (charCodeAt path 1) CHAR_COLON then
        if (2 <? len path) && isPathSeparator (charCodeAt path 2) then Some (3, 3) else Some (2, 2)
      else Some (-1, 0)
    else Some (-1, 0)
  else if isPathSeparator code then None
  else Some (-1, 0).

Definition dirname_s (path : jsstr) : jsstr :=
  if len path =? 0 then js "."
  else
    match dirname_root path with
    | None => path
    | Some (rootEnd, offset) =>
        let end_ := dir_loop isPathSeparator path offset (Z.to_nat (len path - offset)) true in
        if end_ =? -1 then
          if rootEnd =? -1 then js "." else slice path 0 rootEnd
        else slice path 0 end_
    end.

Definition dirname (path : jsval) : result jsstr :=
  let! path := assertPath path in Ok (dirname_s path).

(** The length of a drive prefix, 2 or 0. *)
Definition drive_start (path : jsstr) : Z :=
  if (2 <=? len path) && isWindowsDeviceRoot (charCodeAt path 0)
     && is_code (charCodeAt path 1) CHAR_COLON
  then 2 else 0.

Definition basename_s (path ext : jsstr) : jsstr :=
  let start := drive_start path in
  let n := Z.to_nat (len path - start) in
  if (0 <? len ext) && (len ext <=? len path) then
    if (len ext =? len path) && str_eqb ext path then []
    else
      let '(start, end_, firstNonSlashEnd) :=
        base_ext_loop isPathSeparator path start ext n start (-1) true (len ext - 1) (-1) in
      let end_ :=
        if start =? end_ then firstNonSlashEnd
        else if end_ =? -1 then len path else end_ in
      slice path start end_
  else
    let '(start, end_) := base_loop isPathSeparator path start n start (-1) true in
    if end_ =? -1 then [] else slice path start end_.

Definition basename (path ext : jsval) : result jsstr :=
  let! ext :=
    match ext with
    | JUndefined => Ok []
    | JString e => Ok e
    | v => Throw (ERR_INVALID_ARG_TYPE "ext" ["string"] v)
    end in
  let! path := assertPath path in
  Ok (basename_s path ext).

Definition extname_s (path : jsstr) : jsstr :=
  let start := drive_start path in
  let st := dot_loop isPathSeparator path start (Z.to_nat (len path - start))
              (DS (-1) start (-1) true 0) in
  if no_ext st then [] else slice path (startDot st) (end_of st).

Definition extname (path : jsval) : result jsstr :=
  let! path := assertPath path in Ok (extname_s path).

Definition format (pathObject : jsval + FormatInputPathObject) : result jsstr :=
  match pathObject with
  | inl v => Throw (ERR_INVALID_ARG_TYPE "pathObject" ["Object"] v)
  | inr o => Ok (_format (js "\") o)
  end.

(** The root part of [parse], lines 815 to 886: [None] for the early returns,
    where the whole path is the root, or [rootEnd]. *)
Definition parse_root (path : jsstr) : option Z :=
  let code := charCodeAt path 0 in
  if 1 <? len path then
    if isPathSeparator code then
      if isPathSeparator (charCodeAt path 1) then
        match match_unc path with
        | UncNone => Some 1
        | UncOnly _ _ => Some (len path)
        | UncRest _ _ j => Some (j + 1)
        end
      else Some 1
    else if isWindowsDeviceRoot code then
      if is_code (charCodeAt path 1) CHAR_COLON then
        if 2 <? len path then
          if isPathSeparator (charCodeAt path 2) then
            if len path =? 3 then None else Some 3
          else Some 2
        else None
      else Some 0
    else Some 0
  else if isPathSeparator code then None
  else Some 0.

Definition parse_s (path : jsstr) : ParsedPath :=
  if len path =? 0 then
    {| pp_root := []; pp_dir := []; pp_base := []; pp_ext := []; pp_name := [] |}
  else
    match parse_root path with
    | None => {| pp_root := path; pp_dir := path; pp_base := []; pp_ext := []; pp_name := [] |}
    | Some rootEnd =>
        let root := if 0 <? rootEnd then slice path 0 rootEnd else [] in
        let st := dot_loop isPathSeparator path rootEnd (Z.to_nat (len path - rootEnd))
                    (DS (-1) rootEnd (-1) true 0) in
        let '(base, name, ext) :=
          if no_ext st then
            if negb (end_of st =? -1) then
              (slice path (startPart st) (end_of st), slice path (startPart st) (end_of st), [])
            else ([], [], [])
          else
            (slice path (startPart st) (end_of st), slice path (startPart st) (startDot st),
             slice path (startDot st) (end_of st)) in
        let dir :=
          if (0 <? startPart st) && negb (startPart st =? rootEnd)
          then slice path 0 (startPart st - 1) else root in
        {| pp_root := root; pp_dir := dir; pp_base := base; pp_ext := ext; pp_name := name |}
    end.

Definition parse (path : jsval) : result ParsedPath :=
  let! path := assertPath path in Ok (parse_s path).

(** ** Last segments and extensions *)

Abbreviation BACKSLASH := CHAR_BACKWARD_SLASH.

Definition is_letter (c : Z) : bool := isWindowsDeviceRoot (Some c).

(** A path is an optional drive prefix and a rest. *)
Lemma drive_split path :
  exists pre rest, path = pre ++ rest /\ drive_start path = len pre
    /\ (pre = [] \/ exists c, pre = [c; CHAR_COLON] /\ is_letter c = true).
Proof.
  unfold drive_start. destruct path as [|a [|b path]].
  - exists [], []. split; [done|]. split; [done|by left].
  - exists [], [a]. split; [done|]. split; [done|by left].
  - set (cond := _ && _ && _). destruct cond eqn:E; subst cond.
    + apply andb_true_iff in E as [E Eb]. apply andb_true_iff in E as [_ Ea].
      apply Z.eqb_eq in Eb. subst b. exists [a; CHAR_COLON], path.
      split; [done|]. split; [done|]. right. by exists a.
    + exists [], (a :: b :: path). split; [done|]. split; [done|by left].
Qed.

(** The part of a path behind its drive prefix. *)
Definition after_drive (path : jsstr) : jsstr := slice_from path (drive_start path).

Lemma scan_length (pre rest : jsstr) : Z.to_nat (len (pre ++ rest) - len pre) = length rest.
Proof. rewrite len_app. unfold len. lia. Qed.

Lemma win32_basename_none path : basename_s path [] = last_segment isPathSeparator (after_drive path).
Proof.
  unfold after_drive. destruct (drive_split path) as (pre & rest & -> & Hd & _). rewrite Hd.
  rewrite slice_from_suffix. unfold basename_s. rewrite Hd, scan_length.
  exact (base_scan isPathSeparator pre rest).
Qed.

Lemma win32_extname_ref path :
  extname_s path = ext_of_base (last_segment isPathSeparator (after_drive path)).
Proof.
  unfold after_drive. destruct (drive_split path) as (pre & rest & -> & Hd & _). rewrite Hd.
  rewrite slice_from_suffix. unfold extname_s. rewrite Hd, scan_length.
  exact (ext_scan isPathSeparator pre rest).
Qed.

(** on Windows [basename(path)] is the last non-empty segment behind the
    drive prefix, with either separator, and [extname(path)] its extension. *)
Theorem win32_basename_extname (path : jsstr) :
  basename (JString path) JUndefined = Ok (last_segment isPathSeparator (after_drive path))
  /\ extname (JString path) = Ok (ext_of_base (last_segment isPathSeparator (after_drive path))).
Proof.
  unfold basename, extname. cbn [rbind assertPath].
  by rewrite win32_basename_none, win32_extname_ref.
Qed.

(** ** Roots *)

(** Every string starts with a longest run of separators, or of other units. *)
Lemma span_sep (stop : bool) (s : jsstr) :
  exists u v, s = u ++ v /\ Forall (fun c => isPathSeparator (Some c) = negb stop) u
    /\ (v = [] \/ exists c v', v = c :: v' /\ isPathSeparator (Some c) = stop).
Proof.
  induction s as [|c s (u & v & -> & Hu & Hv)].
  - exists [], []. split; [done|]. split; [constructor|by left].
  - destruct (decide (isPathSeparator (Some c) = stop)) as [E|E].
    + exists [], (c :: u ++ v). split; [done|]. split; [constructor|]. right. by eexists _, _.
    + exists (c :: u), v. split; [done|]. split; [|done]. constructor; [|done].
      by destruct (isPathSeparator (Some c)), stop.
Qed.

Lemma scan_path_run (stop : bool) (x u v : jsstr) :
  Forall (fun c => isPathSeparator (Some c) = negb stop) u ->
  (v = [] \/ exists c v', v = c :: v' /\ isPathSeparator (Some c) = stop) ->
  scan_path (x ++ u ++ v) stop (len x) = len x + len u.
Proof.
  intros Hu Hv. unfold scan_path. rewrite scan_length, length_app. revert x.
  induction Hu as [|c u Hc Hu IH]; intros x.
  - change (len (@nil Z)) with 0. rewrite Z.add_0_r. destruct Hv as [->|(c & v' & -> & Hc)]; [done|].
    cbn [app length Nat.add scan_until]. unfold charCodeAt. rewrite at_index_mid, Hc.
    by rewrite eqb_reflx.
  - cbn [app length Nat.add scan_until]. unfold charCodeAt at 1. rewrite at_index_mid, Hc.
    replace (eqb (negb stop) stop) with false by (by destruct stop).
    specialize (IH (x ++ [c])). rewrite <- app_assoc in IH. cbn [app] in IH.
    replace (len x + 1) with (len (x ++ [c])) by (len_simpl; lia).
    rewrite IH. len_simpl. lia.
Qed.

(** The match of a UNC root, on the string behind the double separator. *)
Inductive unc_shape (a b : Z) (path : jsstr) : unc_match -> Prop :=
| us_none : unc_shape a b path UncNone
| us_only f sp s :
    path = [a; b] ++ f ++ sp ++ s -> f <> [] -> seg_ok isPathSeparator f ->
    sp <> [] -> all_sep isPathSeparator sp -> s <> [] -> seg_ok isPathSeparator s ->
    unc_shape a b path (UncOnly f (2 + len f + len sp))
| us_rest f sp s c r :
    path = [a; b] ++ f ++ sp ++ s ++ c :: r -> f <> [] -> seg_ok isPathSeparator f ->
    sp <> [] -> all_sep isPathSeparator sp -> s <> [] -> seg_ok isPathSeparator s ->
    isPathSeparator (Some c) = true ->
    unc_shape a b path (UncRest f (2 + len f + len sp) (2 + len f + len sp + len s)).

Lemma match_unc_shape a b rest : unc_shape a b (a :: b :: rest) (match_unc (a :: b :: rest)).
Proof.
  unfold match_unc.
  destruct (span_sep true rest) as (f & v & -> & Hf & Hv).
  pose proof (scan_path_run true [a; b] f v Hf Hv) as E1.
  change ([a; b] ++ f ++ v) with (a :: b :: f ++ v) in E1. change (len [a; b]) with 2 in E1.
  cbv zeta. rewrite E1. case_if; [|constructor]. apply andb_true_iff in Heqb0 as [Hl Hn].
  bool_simpl. apply Z.ltb_lt in Hl. assert (Hfne : f <> []) by (intros ->; done).
  destruct (span_sep false v) as (sp & w & -> & Hsp & Hw).
  pose proof (scan_path_run false ([a; b] ++ f) sp w Hsp Hw) as E2.
  rewrite <- app_assoc, len_app in E2.
  change ([a; b] ++ f ++ sp ++ w) with (a :: b :: f ++ sp ++ w) in E2. change (len [a; b]) with 2 in E2.
  rewrite E2. case_if; [|constructor]. apply andb_true_iff in Heqb0 as [Hl2 Hn2].
  bool_simpl. apply Z.ltb_lt in Hl2. assert (Hspne : sp <> []) by (intros ->; apply Hn2; unfold len; simpl; lia).
  destruct (span_sep true w) as (s & r & -> & Hs & Hr).
  pose proof (scan_path_run true ([a; b] ++ f ++ sp) s r Hs Hr) as E3.
  rewrite <- !app_assoc, !len_app in E3.
  change ([a; b] ++ f ++ sp ++ s ++ r) with (a :: b :: f ++ sp ++ s ++ r) in E3.
  change (len [a; b]) with 2 in E3. rewrite (Z.add_assoc 2) in E3. rewrite E3.
  assert (Hlen : len (a :: b :: f ++ sp ++ s ++ r) = 2 + len f + len sp + len s + len r) by (len_simpl; lia).
  rewrite Hlen in *.
  assert (Ef : slice (a :: b :: f ++ sp ++ s ++ r) 2 (2 + len f) = f) by exact (slice_mid [a; b] f (sp ++ s ++ r)).
  rewrite Ef.
  destruct Hr as [->|(c & r' & -> & Hc)].
  - change (len (@nil Z)) with 0 in *. rewrite Z.add_0_r, Z.eqb_refl.
    apply us_only with s; try done; [by rewrite app_nil_r|]. intros ->. change (len (@nil Z)) with 0 in *. lia.
  - rewrite len_cons in *. pose proof (len_nonneg r').
    destruct (Z.eqb_spec (2 + len f + len sp + len s) (2 + len f + len sp + len s + (1 + len r'))); [lia|].
    destruct (Z.eqb_spec (2 + len f + len sp + len s) (2 + len f + len sp)); [constructor|].
    apply us_rest with c r'; try done. intros ->. change (len (@nil Z)) with 0 in *. lia.
Qed.

Lemma match_unc_rest a b f sp s c r :
  f <> [] -> seg_ok isPathSeparator f -> sp <> [] -> all_sep isPathSeparator sp ->
  s <> [] -> seg_ok isPathSeparator s -> isPathSeparator (Some c) = true ->
  match_unc ([a; b] ++ f ++ sp ++ s ++ c :: r)
  = UncRest f (2 + len f + len sp) (2 + len f + len sp + len s).
Proof.
  intros Hf Hfo Hsp Hspo Hs Hso Hc. unfold match_unc. cbv zeta.
  assert (Hs' : exists c' s', s ++ c :: r = c' :: s' /\ isPathSeparator (Some c') = false).
  { destruct s as [|x s]; [done|]. apply Forall_cons in Hso as [Hx _]. by eexists _, _. }
  assert (Hsp' : exists c' s', sp ++ s ++ c :: r = c' :: s' /\ isPathSeparator (Some c') = true).
  { destruct sp as [|x sp]; [done|]. apply Forall_cons in Hspo as [Hx _]. by eexists _, _. }
  pose proof (scan_path_run true [a; b] f _ Hfo (or_intror Hsp')) as E1.
  pose proof (scan_path_run false ([a; b] ++ f) sp _ Hspo (or_intror Hs')) as E2.
  assert (Hr : c :: r = [] \/ exists c' v', c :: r = c' :: v' /\ isPathSeparator (Some c') = true)
    by (right; by eexists _, _).
  pose proof (scan_path_run true ([a; b] ++ f ++ sp) s _ Hso Hr) as E3.
  rewrite <- !app_assoc, !len_app in E2. rewrite <- !app_assoc, !len_app in E3. change (len [a; b]) with 2 in *.
  rewrite (Z.add_assoc 2) in E3. pose proof (slice_mid [a; b] f (sp ++ s ++ c :: r)) as Ef.
  change (len [a; b]) with 2 in *. rewrite E1, E2, Ef, E3.
  pose proof (len_pos f Hf). pose proof (len_pos sp Hsp). pose proof (len_pos s Hs).
  pose proof (len_nonneg r).
  assert (Hlen : len ([a; b] ++ f ++ sp ++ s ++ c :: r) = 2 + len f + len sp + len s + 1 + len r)
    by (len_simpl; lia).
  rewrite Hlen. repeat match goal with
  | |- context [?x <? ?y] => destruct (Z.ltb_spec x y); [|lia]
  | |- context [?x =? ?y] => destruct (Z.eqb_spec x y); [lia|]
  end. done.
Qed.

(** The devices [normalize] and [resolve] find, with the flag they find them with. *)
Inductive device_ok : jsstr -> bool -> Prop :=
| dev_none abs : device_ok [] abs
| dev_drive l abs : is_letter l = true -> device_ok [l; CHAR_COLON] abs
| dev_unc f s :
    f <> [] -> seg_ok isPathSeparator f -> s <> [] -> seg_ok isPathSeparator s ->
    device_ok (js "\\" ++ f ++ js "\" ++ s) true.

Record root_ok (path : jsstr) (m : root_match) : Prop := {
  ro_device : device_ok (rm_device m) (rm_isAbsolute m);
  ro_root : exists root rest, path = root ++ rest /\ rm_rootEnd m = len root;
  ro_absolute : isAbsolute_s path = rm_isAbsolute m;
  ro_drive : rm_device m = [] -> drive_start path = 0;
  ro_plain : rm_device m = [] -> rm_isAbsolute m = false -> rm_rootEnd m = 0
}.

Lemma letter_sep l : is_letter l = true -> isPathSeparator (Some l) = false.
Proof.
  intros Hl. apply orb_false_iff. split; apply Z.eqb_neq; by intros ->.
Qed.

Lemma match_root_sep c path :
  isPathSeparator (Some c) = true -> root_ok (c :: path) (match_root (c :: path)).
Proof.
  intros Hc. assert (Ha : isAbsolute_s (c :: path) = true).
  { unfold isAbsolute_s. rewrite code_head, Hc, len_cons. pose proof (len_nonneg path).
    by destruct (Z.eqb_spec (1 + len path) 0); [lia|]. }
  assert (Hd : drive_start (c :: path) = 0).
  { unfold drive_start. rewrite code_head.
    destruct (isWindowsDeviceRoot (Some c)) eqn:E; [|by rewrite andb_false_r].
    apply letter_sep in E. congruence. }
  unfold match_root. rewrite code_head, Hc. destruct path as [|b path]; [|].
  { split; [constructor| |done|done|done]. by exists [c], []. }
  destruct (Z.ltb_spec 1 (len (c :: b :: path))) as [_|n];
    [|pose proof (len_nonneg path); len_simpl; lia].
  change (charCodeAt (c :: b :: path) 1) with (Some b). destruct (isPathSeparator (Some b)) eqn:Hb.
  2:{ split; [constructor| |done|done|done]. by exists [c], (b :: path). }
  destruct (match_unc_shape c b path) as [|f sp s E Hf Hfo Hsp Hspo Hs Hso
                                          |f sp s x r E Hf Hfo Hsp Hspo Hs Hso Hx].
  - split; [constructor| |done|done|done]. by exists [], (c :: b :: path).
  - rewrite E. rewrite (app_assoc f), (app_assoc [c; b]).
    replace (2 + len f + len sp) with (len ([c; b] ++ f ++ sp)) by (len_simpl; lia).
    rewrite slice_from_suffix, <- app_assoc, <- app_assoc, <- E.
    split; [by constructor| |done|done|done]. exists (c :: b :: path), []. by rewrite app_nil_r.
  - assert (Er : slice (c :: b :: path) (2 + len f + len sp) (2 + len f + len sp + len s) = s).
    { rewrite E, (app_assoc f), (app_assoc [c; b]).
      replace (2 + len f + len sp) with (len ([c; b] ++ f ++ sp)) by (len_simpl; lia). apply slice_mid. }
    rewrite Er. split; [by constructor| |done|done|done].
    exists ([c; b] ++ f ++ sp ++ s), (x :: r). rewrite E, <- !app_assoc. split; [done|].
    cbn [rm_rootEnd]. len_simpl. lia.
Qed.

Lemma match_root_ok path : path <> [] -> root_ok path (match_root path).
Proof.
  intros Hne. destruct path as [|c path]; [done|].
  destruct (isPathSeparator (Some c)) eqn:Hc; [by apply match_root_sep|].
  unfold match_root. rewrite code_head, Hc. pose proof (len_nonneg path).
  destruct path as [|b path].
  { split; [constructor|by exists [], [c]| |done|done].
    unfold isAbsolute_s. rewrite code_head, Hc. by destruct (isWindowsDeviceRoot (Some c)). }
  pose proof (len_nonneg path).
  destruct (Z.ltb_spec 1 (len (c :: b :: path))) as [_|n]; [|len_simpl; lia].
  change (charCodeAt (c :: b :: path) 1) with (Some b).
  assert (Ha : isAbsolute_s (c :: b :: path)
               = is_letter c && (b =? CHAR_COLON)
                 && match path with [] => false | x :: _ => isPathSeparator (Some x) end).
  { unfold isAbsolute_s. rewrite code_head, Hc.
    destruct (Z.eqb_spec (len (c :: b :: path)) 0) as [E|_]; [len_simpl; lia|].
    change (charCodeAt (c :: b :: path) 1) with (Some b). cbn [is_code]. unfold is_letter.
    destruct (isWindowsDeviceRoot (Some c)); [|done]. destruct path as [|x path].
    - by rewrite andb_false_r.
    - destruct (Z.ltb_spec 2 (len (c :: b :: x :: path))) as [_|];
        [|pose proof (len_nonneg path); len_simpl; lia].
      cbn [andb]. by destruct (b =? CHAR_COLON). }
  assert (Hd : drive_start (c :: b :: path) = if is_letter c && (b =? CHAR_COLON) then 2 else 0).
  { unfold drive_start. by destruct (Z.leb_spec 2 (len (c :: b :: path))); [|len_simpl; lia]. }
  unfold is_letter in *. destruct (isWindowsDeviceRoot (Some c)) eqn:El.
  2:{ split; [constructor|by exists [], (c :: b :: path)|done|done|done]. }
  cbn [is_code andb] in *. destruct (Z.eqb_spec b CHAR_COLON) as [->|Hb].
  2:{ split; [constructor|by exists [], (c :: b :: path)|done|done|done]. }
  cbn [andb] in *.
  replace (slice (c :: CHAR_COLON :: path) 0 2) with [c; CHAR_COLON]
    by (symmetry; exact (slice_prefix [c; CHAR_COLON] path)).
  destruct path as [|x path].
  { split; [by constructor|by exists [c; CHAR_COLON], []|done|done|done]. }
  destruct (Z.ltb_spec 2 (len (c :: CHAR_COLON :: x :: path))) as [_|n];
    [|pose proof (len_nonneg path); len_simpl; lia].
  change (charCodeAt (c :: CHAR_COLON :: x :: path) 2) with (Some x). cbn [andb].
  destruct (isPathSeparator (Some x)) eqn:Ex.
  - split; [by constructor|by exists [c; CHAR_COLON; x], path|done|done|done].
  - split; [by constructor|by exists [c; CHAR_COLON], (x :: path)|done|done|done].
Qed.

(** ** Normalisation *)

Abbreviation win32_segments := (segments isPathSeparator).
Abbreviation win32_normal := (normal isPathSeparator).

(** What follows the device and the root separator. *)
Definition tail_text (abs trail : bool) (st : list jsstr) : jsstr :=
  let tr := if trail then js "\" else [] in
  match st with
  | [] => if abs then [] else js "." ++ tr
  | _ => render BACKSLASH st ++ tr
  end.

Definition wform (device : jsstr) (abs trail : bool) (st : list jsstr) : jsstr :=
  device ++ (if abs then js "\" else []) ++ tail_text abs trail st.

(** The stack of the part of a path behind its root. *)
Definition rest_stack (path : jsstr) : list jsstr :=
  let m := match_root path in
  resolve_stack (negb (rm_isAbsolute m)) (win32_segments (slice_from path (rm_rootEnd m))).

Lemma rest_stack_normal path : win32_normal (negb (rm_isAbsolute (match_root path))) (rest_stack path).
Proof. apply resolve_normal, segments_ok. Qed.

Lemma tail_text_spec (abs trail : bool) st :
  win32_normal (negb abs) st ->
  (let tail := render BACKSLASH st in
   let tail := if (len tail =? 0) && negb abs then js "." else tail in
   if (0 <? len tail) && trail then tail ++ js "\" else tail) = tail_text abs trail st.
Proof.
  intros Hst. unfold tail_text. destruct st as [|s st]; [by destruct abs, trail|].
  destruct (rendered_head _ BACKSLASH _ _ _ Hst) as (c & q & -> & Hc). cbv zeta.
  rewrite len_cons. pose proof (len_nonneg q). destruct (Z.eqb_spec (1 + len q) 0); [lia|].
  cbn [andb]. rewrite len_cons. destruct (Z.ltb_spec 0 (1 + len q)); [|lia].
  destruct trail; cbn [andb]; by rewrite ?app_nil_r.
Qed.

(** The part of [normalize] after the match of the root. *)
Lemma normalize_text path :
  path <> [] -> (isPathSeparator (charCodeAt path 0) = true -> 1 < len path) ->
  (forall f last, isPathSeparator (charCodeAt path 0) && isPathSeparator (charCodeAt path 1) = true ->
     match_unc path <> UncOnly f last) ->
  let m := match_root path in
  normalize_s path
  = wform (rm_device m) (rm_isAbsolute m) (isPathSeparator (charCodeAt path (len path - 1)))
      (rest_stack path).
Proof.
  intros Hne H1 Hunc m. pose proof (len_pos path Hne). destruct (match_root_ok path Hne) as [_ Hr _ _ _].
  unfold normalize_s. destruct (Z.eqb_spec (len path) 0); [lia|].
  assert (Es : negb (1 <? len path) && isPathSeparator (charCodeAt path 0) = false).
  { destruct (isPathSeparator (charCodeAt path 0)); [|by rewrite andb_false_r].
    by destruct (Z.ltb_spec 1 (len path)); [|specialize (H1 eq_refl); lia]. }
  rewrite Es. set (early := if (1 <? len path) && _ && _ then _ else _).
  assert (Ee : early = None).
  { subst early. rewrite <- andb_assoc. destruct (1 <? len path); [|done]. cbn [andb].
    destruct (isPathSeparator _ && isPathSeparator _) eqn:E; [|done].
    destruct (match_unc path) eqn:Em; [done|by destruct (Hunc firstPart last0 eq_refl)|done]. }
  rewrite Ee. fold m. fold m in Hr. cbv zeta.
  set (tl := if rm_rootEnd m <? len path then _ else _).
  assert (Et : tl = render BACKSLASH (rest_stack path)).
  { subst tl. unfold rest_stack. fold m. destruct Hr as (root & rest & -> & ->).
    rewrite slice_from_suffix, len_app. destruct (Z.ltb_spec (len root) (len root + len rest)).
    - exact (normalizeString_render isPathSeparator BACKSLASH _ _).
    - replace rest with (@nil Z); [done|]. symmetry. apply len_0_nil. pose proof (len_nonneg rest). lia. }
  rewrite Et, tail_text_spec by apply rest_stack_normal. fold m. unfold wform.
  set (t := tail_text _ _ _). destruct (Z.ltb_spec 0 (len t)) as [|Hl].
  - destruct (rm_device m) as [|d dev] eqn:Ed; [by destruct (rm_isAbsolute m)|].
    destruct (Z.eqb_spec (len (d :: dev)) 0) as [E|_]; [pose proof (len_nonneg dev); len_simpl; lia|].
    by destruct (rm_isAbsolute m).
  - assert (t = []) as -> by (apply len_0_nil; pose proof (len_nonneg t); lia).
    destruct (rm_device m) as [|d dev] eqn:Ed; [by destruct (rm_isAbsolute m)|].
    destruct (Z.eqb_spec (len (d :: dev)) 0) as [E|_]; [pose proof (len_nonneg dev); len_simpl; lia|].
    destruct (rm_isAbsolute m); by rewrite ?app_nil_r.
Qed.

(** What [normalize] computes. *)
Lemma normalize_is_wform path :
  path <> [] ->
  let m := match_root path in
  normalize_s path
  = wform (rm_device m) (rm_isAbsolute m) (isPathSeparator (charCodeAt path (len path - 1)))
      (rest_stack path).
Proof.
  intros Hne m. destruct path as [|c [|b path]]; [done| |].
  { destruct (isPathSeparator (Some c)) eqn:Hc.
    - subst m. unfold normalize_s, rest_stack, match_root. by rewrite code_head, Hc.
    - apply normalize_text; rewrite ?code_head, ?Hc; done. }
  pose proof (len_nonneg path).
  assert (H1 : 1 < len (c :: b :: path)) by (len_simpl; lia).
  destruct (isPathSeparator (Some c) && isPathSeparator (Some b)) eqn:Hcb.
  2:{ apply normalize_text; [done|done|]. intros f last E.
      change (isPathSeparator (Some c) && isPathSeparator (Some b) = true) in E. congruence. }
  destruct (match_unc (c :: b :: path)) as [|f last|f last j] eqn:E;
    [apply normalize_text; [done|done|by rewrite E]| |apply normalize_text; [done|done|by rewrite E]].
  apply andb_true_iff in Hcb as [Hc Hb]. apply Z.ltb_lt in H1.
  assert (Hm : m = RM (len (c :: b :: path))
                      (js "\\" ++ f ++ js "\" ++ slice_from (c :: b :: path) last) true).
  { subst m. unfold match_root. rewrite H1, code_head, Hc.
    change (charCodeAt (c :: b :: path) 1) with (Some b). by rewrite Hb, E. }
  unfold rest_stack. fold m. rewrite Hm. unfold normalize_s.
  destruct (Z.eqb_spec (len (c :: b :: path)) 0); [len_simpl; lia|].
  rewrite H1, code_head, Hc. change (charCodeAt (c :: b :: path) 1) with (Some b). rewrite Hb, E.
  cbn [negb andb rm_device rm_isAbsolute rm_rootEnd].
  replace (slice_from (c :: b :: path) (len (c :: b :: path))) with (@nil Z).
  - unfold wform. cbn [tail_text]. by rewrite app_nil_r, <- !app_assoc.
  - symmetry. pose proof (slice_from_suffix (c :: b :: path) []) as Es. by rewrite app_nil_r in Es.
Qed.

Lemma tail_text_head (abs tr : bool) st :
  win32_normal (negb abs) st ->
  (abs = true /\ tail_text abs tr st = [])
  \/ exists c q, tail_text abs tr st = c :: q /\ isPathSeparator (Some c) = false.
Proof.
  intros Hst. unfold tail_text. destruct st as [|s st].
  - destruct abs; [by left|]. right. by eexists _, _.
  - right. destruct (rendered_head _ BACKSLASH _ _ _ Hst) as (c & q & -> & Hc). by eexists _, _.
Qed.

Lemma tail_text_resolve (abs tr : bool) st :
  win32_normal (negb abs) st ->
  resolve_stack (negb abs) (win32_segments (tail_text abs tr st)) = st.
Proof.
  intros Hst. unfold tail_text. destruct st as [|s st]; [by destruct abs, tr|].
  destruct tr; rewrite ?app_nil_r; [|by apply resolve_rendered].
  change (js "\") with [BACKSLASH]. rewrite resolve_trail by exact win32_sep_ok. by apply resolve_rendered.
Qed.

Lemma match_root_plain path :
  path <> [] -> isPathSeparator (charCodeAt path 0) = false -> drive_start path = 0 ->
  match_root path = RM 0 [] false.
Proof.
  intros Hne Hs Hd. unfold match_root. rewrite Hs. destruct (Z.ltb_spec 1 (len path)); [|done].
  unfold drive_start in Hd. destruct (Z.leb_spec 2 (len path)); [|lia]. cbn [andb] in Hd.
  destruct (isWindowsDeviceRoot _); [|done]. cbn [andb] in Hd. by destruct (is_code _ _).
Qed.

Lemma match_root_drive l r :
  is_letter l = true ->
  match_root (l :: CHAR_COLON :: r)
  = if isPathSeparator (head r) then RM 3 [l; CHAR_COLON] true else RM 2 [l; CHAR_COLON] false.
Proof.
  intros Hl. unfold match_root. pose proof (len_nonneg r). rewrite code_head, (letter_sep l Hl).
  destruct (Z.ltb_spec 1 (len (l :: CHAR_COLON :: r))) as [_|]; [|len_simpl; lia].
  unfold is_letter in Hl. rewrite Hl. change (charCodeAt (l :: CHAR_COLON :: r) 1) with (Some CHAR_COLON).
  replace (slice (l :: CHAR_COLON :: r) 0 2) with [l; CHAR_COLON]
    by (symmetry; exact (slice_prefix [l; CHAR_COLON] r)).
  destruct r as [|x r]; [done|].
  destruct (Z.ltb_spec 2 (len (l :: CHAR_COLON :: x :: r))) as [_|]; [|pose proof (len_nonneg r); len_simpl; lia].
  done.
Qed.

Lemma match_root_unc f s t :
  f <> [] -> seg_ok isPathSeparator f -> s <> [] -> seg_ok isPathSeparator s ->
  let device := js "\\" ++ f ++ js "\" ++ s in
  match_root (device ++ js "\" ++ t) = RM (len device) device true.
Proof.
  intros Hf Hfo Hs Hso device.
  assert (Ep : device ++ js "\" ++ t = [BACKSLASH; BACKSLASH] ++ f ++ [BACKSLASH] ++ s ++ BACKSLASH :: t)
    by (subst device; change (js "\\") with [BACKSLASH; BACKSLASH]; change (js "\") with [BACKSLASH];
        by rewrite <- !app_assoc).
  rewrite Ep. unfold match_root.
  assert (Hsep : all_sep isPathSeparator [BACKSLASH]) by by repeat constructor.
  rewrite match_unc_rest by done. set (p := [BACKSLASH; BACKSLASH] ++ _).
  assert (Hl : (1 <? len p) = true).
  { apply Z.ltb_lt. subst p. pose proof (len_nonneg (f ++ [BACKSLASH] ++ s ++ BACKSLASH :: t)).
    rewrite len_app. change (len [BACKSLASH; BACKSLASH]) with 2. lia. }
  rewrite Hl. change (isPathSeparator (charCodeAt p 0)) with true.
  change (isPathSeparator (charCodeAt p 1)) with true.
  assert (Ea : p = ([BACKSLASH; BACKSLASH] ++ f ++ [BACKSLASH]) ++ s ++ BACKSLASH :: t)
    by (subst p; by rewrite <- !app_assoc).
  replace (2 + len f + len [BACKSLASH]) with (len ([BACKSLASH; BACKSLASH] ++ f ++ [BACKSLASH]))
    by (len_simpl; lia).
  rewrite Ea, slice_mid. subst device. f_equal. change (js "\\") with [BACKSLASH; BACKSLASH].
  change (js "\") with [BACKSLASH]. len_simpl. lia.
Qed.

(** The text of a device, a root and a tail is matched as such. *)
Lemma match_root_text dev abs t :
  device_ok dev abs ->
  (abs = true /\ t = []) \/ (exists c q, t = c :: q /\ isPathSeparator (Some c) = false) ->
  (dev = [] -> abs = false -> drive_start t = 0) ->
  let path := dev ++ (if abs then js "\" else []) ++ t in
  let m := match_root path in
  rm_device m = dev /\ rm_isAbsolute m = abs
  /\ exists c, slice_from path (rm_rootEnd m) = c ++ t /\ (c = [] \/ c = [BACKSLASH]).
Proof.
  intros Hdev Ht Hd path m. subst path.
  destruct Hdev as [abs|l abs Hl|f s Hf Hfo Hs Hso].
  - destruct abs.
    + subst m. change ([] ++ js "\" ++ t) with ([BACKSLASH] ++ t).
      assert (Em : match_root ([BACKSLASH] ++ t) = RM (len [BACKSLASH]) [] true).
      { unfold match_root. destruct Ht as [[_ ->]|(c & q & -> & Hc)]; [done|].
        destruct (Z.ltb_spec 1 (len ([BACKSLASH] ++ c :: q))) as [_|]; [|pose proof (len_nonneg q); len_simpl; lia].
        change (charCodeAt ([BACKSLASH] ++ c :: q) 1) with (Some c). by rewrite Hc. }
      rewrite Em. cbn [rm_device rm_isAbsolute rm_rootEnd]. split; [done|]. split; [done|].
      exists []. split; [apply slice_from_suffix|by left].
    + destruct Ht as [[? _]|(c & q & -> & Hc)]; [done|]. subst m.
      change ([] ++ [] ++ c :: q) with (c :: q). rewrite match_root_plain by auto.
      split; [done|]. split; [done|]. exists []. split; [|by left]. exact (slice_from_suffix [] (c :: q)).
  - subst m. destruct abs.
    + change ([l; CHAR_COLON] ++ js "\" ++ t) with (l :: CHAR_COLON :: BACKSLASH :: t).
      rewrite match_root_drive by done. split; [done|]. split; [done|].
      exists []. split; [|by left]. exact (slice_from_suffix [l; CHAR_COLON; BACKSLASH] t).
    + destruct Ht as [[? _]|(c & q & -> & Hc)]; [done|].
      change ([l; CHAR_COLON] ++ [] ++ c :: q) with (l :: CHAR_COLON :: c :: q).
      rewrite match_root_drive by done. cbn [head hd_error]. rewrite Hc. split; [done|]. split; [done|].
      exists []. split; [|by left]. exact (slice_from_suffix [l; CHAR_COLON] (c :: q)).
  - subst m. rewrite match_root_unc by done. split; [done|]. split; [done|].
    exists [BACKSLASH]. split; [|by right]. apply slice_from_suffix.
Qed.

Lemma wform_root dev abs tr st :
  device_ok dev abs -> win32_normal (negb abs) st ->
  (dev = [] -> abs = false -> drive_start (tail_text abs tr st) = 0) ->
  let path := wform dev abs tr st in
  rm_device (match_root path) = dev /\ rm_isAbsolute (match_root path) = abs /\ rest_stack path = st.
Proof.
  intros Hdev Hst Hd path.
  destruct (match_root_text dev abs (tail_text abs tr st) Hdev (tail_text_head _ _ _ Hst) Hd)
    as (E1 & E2 & c & E3 & Hc).
  fold (wform dev abs tr st) in E1, E2, E3. fold path in E1, E2, E3.
  split; [done|]. split; [done|]. unfold rest_stack. rewrite E2, E3.
  destruct Hc as [ -> | -> ]; [|change ([BACKSLASH] ++ ?x) with (BACKSLASH :: x); rewrite resolve_lead by done];
    by apply tail_text_resolve.
Qed.

Lemma wform_last dev abs tr st :
  win32_normal (negb abs) st -> st <> [] \/ abs = false ->
  isPathSeparator (charCodeAt (wform dev abs tr st) (len (wform dev abs tr st) - 1)) = tr.
Proof.
  intros Hst Hne. unfold wform.
  assert (Ht : exists q c, tail_text abs tr st = q ++ [c] /\ isPathSeparator (Some c) = tr).
  { unfold tail_text. change (js "\") with [BACKSLASH]. destruct st as [|s st].
    - destruct Hne as [ | -> ]; [done|]. destruct tr; [by exists (js "."), BACKSLASH|by exists [], CHAR_DOT].
    - destruct tr; [by eexists _, BACKSLASH|]. rewrite app_nil_r.
      by apply (rendered_last _ BACKSLASH _ _ _ Hst). }
  destruct Ht as (q & c & -> & Hc). by rewrite !app_assoc, code_last, Hc.
Qed.

Lemma normalize_wform_fixed dev abs tr st :
  device_ok dev abs -> win32_normal (negb abs) st ->
  (dev = [] -> abs = false -> drive_start (tail_text abs tr st) = 0) ->
  normalize_s (wform dev abs tr st) = wform dev abs tr st.
Proof.
  intros Hdev Hst Hd. destruct (wform_root dev abs tr st Hdev Hst Hd) as (E1 & E2 & E3).
  rewrite normalize_is_wform, E1, E2, E3.
  - destruct st as [|s st]; [destruct abs; [done|]|]; rewrite wform_last by auto; done.
  - unfold wform. destruct (tail_text_head abs tr st Hst) as [[-> ->]|(c & q & -> & _)];
      by destruct dev, abs || destruct dev.
Qed.

(** Units that do not occur in a path do not occur in what it resolves to. *)
Lemma split_on_units (P : Z -> Prop) p cur s :
  Forall P cur -> Forall P s -> Forall (Forall P) (split_on p cur s).
Proof.
  revert cur. induction s as [|c s IH]; intros cur Hcur Hs; simpl; [by repeat constructor|].
  apply Forall_cons in Hs as [Hc Hs]. destruct (p c).
  - constructor; [done|]. by apply IH.
  - apply IH; [|done]. apply Forall_app. by repeat constructor.
Qed.

Lemma push_units (P : Z -> Prop) allow st s :
  P CHAR_DOT -> Forall (Forall P) st -> Forall P s -> Forall (Forall P) (push allow st s).
Proof.
  intros Hd Hst Hs. assert (Hdd : Forall P (js "..")) by (by repeat constructor).
  unfold push. repeat case_match; try done; try (by constructor); try (by apply Forall_cons in Hst as [_ ?]).
  all: by constructor.
Qed.

Lemma render_units (P : Z -> Prop) c st :
  P c -> Forall (Forall P) st -> Forall P (render c st).
Proof.
  intros Hc Hst. unfold render. apply (Forall_reverse (Forall P)) in Hst. revert Hst.
  generalize (reverse st) as l. induction l as [|x [|y l] IH]; intros Hl; [constructor| |].
  - by apply Forall_cons in Hl as [? _].
  - apply Forall_cons in Hl as [Hx Hl]. cbn [join_with]. rewrite !Forall_app. 
    split; [done|]. split; [by repeat constructor|]. by apply IH.
Qed.

Lemma resolve_units (P : Z -> Prop) allow path :
  P CHAR_DOT -> Forall P path -> Forall (Forall P) (resolve_stack allow (win32_segments path)).
Proof.
  intros Hd Hp. unfold resolve_stack, segments.
  pose proof (split_on_units P (fun c => isPathSeparator (Some c)) [] path ltac:(constructor) Hp) as Hs.
  assert (Hgen : forall l st, Forall (Forall P) l -> Forall (Forall P) st ->
                 Forall (Forall P) (foldl (push allow) st l)).
  { induction l as [|x l IH]; intros st Hl Hst; [done|]. apply Forall_cons in Hl as [Hx Hl].
    cbn [foldl]. apply IH; [done|]. by apply push_units. }
  apply Hgen; [done|constructor].
Qed.

Lemma colon_free_drive (path : jsstr) : Forall (fun c => c <> CHAR_COLON) path -> drive_start path = 0.
Proof.
  intros Hp. destruct (drive_split path) as (pre & rest & -> & -> & [->|(c & -> & _)]); [done|].
  apply Forall_app in Hp as [Hp _]. by repeat (apply Forall_cons in Hp as [? Hp]).
Qed.

(** The paths whose normal form cannot be taken for a drive: absolute ones,
    those with a drive prefix, and those without a colon. *)
Definition no_stray_drive (path : jsstr) : Prop :=
  isAbsolute_s path = true \/ drive_start path = 2 \/ Forall (fun c => c <> CHAR_COLON) path.

Lemma normal_drive path :
  path <> [] -> no_stray_drive path ->
  let m := match_root path in
  forall tr, rm_device m = [] -> rm_isAbsolute m = false ->
  drive_start (tail_text (rm_isAbsolute m) tr (rest_stack path)) = 0.
Proof.
  intros Hne Hp m tr Hdev Habs. destruct (match_root_ok path Hne) as [_ Hr Ha Hd Hz].
  fold m in Hr, Ha, Hd, Hz. specialize (Hd Hdev). specialize (Hz Hdev Habs).
  destruct Hp as [Hp|[Hp|Hp]]; [congruence|lia|]. apply colon_free_drive.
  assert (Hst : Forall (Forall (fun c => c <> CHAR_COLON)) (rest_stack path)).
  { unfold rest_stack. fold m. apply resolve_units; [done|]. rewrite Hz.
    pose proof (slice_from_suffix [] path) as E. change (len []) with 0 in E. cbn [app] in E. by rewrite E. }
  unfold tail_text. destruct (rest_stack path) as [|s st].
  - destruct (rm_isAbsolute m), tr; by repeat constructor.
  - apply Forall_app. split; [by apply render_units|]. destruct tr; by repeat constructor.
Qed.

(** on Windows [normalize] is idempotent and keeps absolute paths absolute
    and relative ones relative, for every path that is absolute, has a drive
    prefix or has no colon. *)
Theorem win32_normalize_stable (path : jsstr) :
  no_stray_drive path ->
  exists q, normalize (JString path) = Ok q
    /\ normalize (JString q) = Ok q
    /\ isAbsolute (JString q) = isAbsolute (JString path).
Proof.
  intros Hp. unfold normalize, isAbsolute. cbn [rbind assertPath]. eexists. split; [done|].
  destruct (decide (path = [])) as [->|Hne]; [done|].
  rewrite (normalize_is_wform path Hne).
  pose proof (normal_drive path Hne Hp) as Hd. cbv zeta in Hd.
  destruct (match_root_ok path Hne) as [Hdev _ Ha _ _]. pose proof (rest_stack_normal path) as Hst.
  set (tr := isPathSeparator _). specialize (Hd tr).
  set (q := wform _ _ _ _). assert (Hq : normalize_s q = q) by (by apply normalize_wform_fixed).
  split; [by rewrite Hq|]. destruct (wform_root _ _ tr _ Hdev Hst Hd) as (_ & E & _). fold q in E.
  f_equal. rewrite Ha. destruct (decide (q = [])) as [Eq|Hqne].
  - exfalso. rewrite Eq in Hq. discriminate Hq.
  - by destruct (match_root_ok q Hqne) as [_ _ -> _ _].
Qed.

(** A relative path becomes absolute when a [.] segment hides a drive prefix,
    and [normalize] is then not idempotent either. *)
Example win32_normalize_stray_drive :
  isAbsolute (JString (js "./C:/x")) = Ok false
  /\ normalize (JString (js "./C:/x")) = Ok (js "C:\x")
  /\ isAbsolute (JString (js "C:\x")) = Ok true
  /\ normalize (JString (js "./C:")) = Ok (js "C:")
  /\ normalize (JString (js "C:")) = Ok (js "C:.").
Proof. repeat split. Qed.

(** ** Joining *)

Definition two_seps (s : jsstr) : bool :=
  isPathSeparator (charCodeAt s 0) && isPathSeparator (charCodeAt s 1).

(** A name behind exactly two separators, as UNC paths start. *)
Definition unc_like (s : jsstr) : bool :=
  two_seps s && match charCodeAt s 2 with Some c => negb (isPathSeparator (Some c)) | None => false end.

Lemma match_root_no_unc path :
  two_seps path = false ->
  rm_device (match_root path) = []
  \/ exists l, rm_device (match_root path) = [l; CHAR_COLON] /\ is_letter l = true.
Proof.
  unfold two_seps. intros Hs. destruct path as [|c [|b path]]; [by left| |].
  - left. unfold match_root. rewrite code_head. change (1 <? len [c]) with false.
    by destruct (isPathSeparator (Some c)).
  - change (charCodeAt (c :: b :: path) 0) with (Some c) in Hs.
    change (charCodeAt (c :: b :: path) 1) with (Some b) in Hs.
    destruct (is_letter c) eqn:Hl; [destruct (decide (b = CHAR_COLON)) as [->|Hb]|].
    + right. exists c. rewrite match_root_drive by done. by destruct (isPathSeparator (head path)).
    + left. unfold match_root. rewrite code_head, letter_sep by done.
      unfold is_letter in Hl. rewrite Hl. change (charCodeAt (c :: b :: path) 1) with (Some b).
      cbn [is_code]. destruct (Z.eqb_spec b CHAR_COLON); [done|]. by destruct (1 <? _).
    + left. unfold match_root. rewrite code_head. unfold is_letter in Hl. rewrite Hl.
      change (charCodeAt (c :: b :: path) 1) with (Some b).
      destruct (isPathSeparator (Some c)); cbn [andb] in Hs; [rewrite Hs|]; by destruct (1 <? _).
Qed.

Lemma two_seps_head c q : isPathSeparator (Some c) = false -> two_seps (c :: q) = false.
Proof. intros Hc. unfold two_seps. by rewrite code_head, Hc. Qed.

Lemma two_seps_second a c q : isPathSeparator (Some c) = false -> two_seps (a :: c :: q) = false.
Proof.
  intros Hc. unfold two_seps. change (charCodeAt (a :: c :: q) 1) with (Some c).
  by rewrite Hc, andb_false_r.
Qed.

Lemma normalize_two_seps path : two_seps path = false -> two_seps (normalize_s path) = false.
Proof.
  intros Hs. destruct (decide (path = [])) as [->|Hne]; [done|].
  rewrite (normalize_is_wform path Hne). pose proof (rest_stack_normal path) as Hst.
  set (tr := isPathSeparator _). set (abs := rm_isAbsolute _) in *.
  unfold wform. destruct (match_root_no_unc path Hs) as [->|(l & -> & Hl)].
  - destruct (tail_text_head abs tr _ Hst) as [[-> ->]|(c & q & -> & Hc)]; [done|].
    destruct abs; [by apply two_seps_second|by apply two_seps_head].
  - by apply two_seps_head, letter_sep.
Qed.

Lemma sep_run_longest (p u r v : jsstr) :
  p ++ r = u ++ v -> all_sep isPathSeparator p ->
  (v = [] \/ exists c v', v = c :: v' /\ isPathSeparator (Some c) = false) -> len p <= len u.
Proof.
  revert u r v. induction p as [|a p IH]; intros u r v E Hp Hv; [apply len_nonneg|].
  apply Forall_cons in Hp as [Ha Hp]. destruct u as [|b u].
  - cbn [app] in E. destruct Hv as [->|(c & v' & -> & Hc)]; [done|]. injection E as -> _. congruence.
  - injection E as -> E. rewrite !len_cons. specialize (IH u r v E Hp Hv). lia.
Qed.

(** Leading separators are put down to one, unless the first part is like a
    UNC path. *)
Lemma join_leading_one f x :
  f <> [] -> unc_like f = false -> two_seps (join_leading (f ++ x) f) = false.
Proof.
  intros Hne Hu.
  assert (Hscan : forall k u v, f ++ x = u ++ v -> all_sep isPathSeparator u ->
            (v = [] \/ exists c v', v = c :: v' /\ isPathSeparator (Some c) = false) ->
            0 <= k <= len u -> scan_path (f ++ x) false k = len u).
  { intros k u v -> Hall Hv Hk. destruct (split_len u k Hk) as (u1 & u2 & -> & <-).
    apply Forall_app in Hall as [_ Hall]. rewrite <- app_assoc, scan_path_run by done. by rewrite len_app. }
  destruct (span_sep false (f ++ x)) as (u & v & E & Hall & Hv).
  assert (Hdone : forall k, 0 <= k <= len u ->
            two_seps (let n := scan_path (f ++ x) false k in
                      if 2 <=? n then js "\" ++ slice_from (f ++ x) n else f ++ x) = false).
  { intros k Hk. cbv zeta. rewrite (Hscan k u v E Hall Hv Hk), E, slice_from_suffix.
    destruct (Z.leb_spec 2 (len u)).
    - destruct Hv as [->|(c & v' & -> & Hc)]; [done|by apply two_seps_second].
    - destruct u as [|a [|b u]]; [| |pose proof (len_nonneg u); len_simpl; lia].
      + destruct Hv as [->|(c & v' & -> & Hc)]; [done|by apply two_seps_head].
      + destruct Hv as [->|(c & v' & -> & Hc)]; [|by apply two_seps_second].
        unfold two_seps. by rewrite andb_false_r. }
  assert (Hlen : forall p q, f = p ++ q -> all_sep isPathSeparator p -> len p <= len u).
  { intros p q -> Hp. rewrite <- app_assoc in E. by apply (sep_run_longest p u (q ++ x) v). }
  unfold join_leading. unfold unc_like, two_seps in Hu. unfold scan_path in Hdone.
  pose proof (len_nonneg u). destruct f as [|a f]; [done|]. rewrite code_head in Hu |- *.
  destruct (isPathSeparator (Some a)) eqn:Ha; [|apply Hdone; lia].
  assert (Ha' : all_sep isPathSeparator [a]) by (by constructor).
  pose proof (Hlen [a] f eq_refl Ha') as L1. change (len [a]) with 1 in L1.
  destruct f as [|b f]; [apply Hdone; lia|].
  destruct (Z.ltb_spec 1 (len (a :: b :: f))) as [_|]; [|pose proof (len_nonneg f); len_simpl; lia].
  change (charCodeAt (a :: b :: f) 1) with (Some b) in Hu |- *.
  destruct (isPathSeparator (Some b)) eqn:Hb; [|apply Hdone; lia].
  assert (Hb' : all_sep isPathSeparator [a; b]) by (by repeat constructor).
  pose proof (Hlen [a; b] f eq_refl Hb') as L2. change (len [a; b]) with 2 in L2.
  destruct f as [|c f]; [apply Hdone; lia|].
  destruct (Z.ltb_spec 2 (len (a :: b :: c :: f))) as [_|]; [|pose proof (len_nonneg f); len_simpl; lia].
  change (charCodeAt (a :: b :: c :: f) 2) with (Some c) in Hu |- *. cbn [andb] in Hu.
  apply negb_false_iff in Hu. rewrite Hu.
  assert (Hc' : all_sep isPathSeparator [a; b; c]) by (by repeat constructor).
  pose proof (Hlen [a; b; c] f eq_refl Hc') as L3. change (len [a; b; c]) with 3 in L3.
  apply Hdone; lia.
Qed.

Lemma join_loop_first ps j f :
  exists j' , join_loop (JString <$> ps) (Some (f ++ j, f)) = Ok (Some (f ++ j', f)).
Proof.
  revert j. induction ps as [|p ps IH]; intros j; [by exists j|]. cbn.
  destruct (0 <? len p); [|apply IH]. rewrite <- app_assoc. apply IH.
Qed.

Lemma join_loop_start ps :
  join_loop (JString <$> ps) None = Ok None /\ Forall (fun p => p = []) ps
  \/ exists pre f post j, ps = pre ++ f :: post /\ Forall (fun p => p = []) pre /\ f <> []
     /\ join_loop (JString <$> ps) None = Ok (Some (f ++ j, f)).
Proof.
  induction ps as [|p ps IH]; [by left|]. destruct p as [|c p].
  - change (join_loop (JString <$> [] :: ps) None) with (join_loop (JString <$> ps) None). destruct IH as [[-> H]|(pre & f & post & j & -> & Hpre & Hf & E)].
    + left. split; [done|by constructor].
    + right. exists ([] :: pre), f, post, j. split; [done|]. split; [by constructor|]. done.
  - right. destruct (join_loop_first ps [] (c :: p)) as [j E]. rewrite app_nil_r in E.
    exists [], (c :: p), ps, j. split; [done|]. split; [constructor|]. split; [done|].
    cbn [fmap list_fmap join_loop assertPath rbind]. rewrite <- E.
    by destruct (Z.ltb_spec 0 (len (c :: p))); [|pose proof (len_nonneg p); len_simpl; lia].
Qed.

(** [join] of strings never makes a UNC path (two leading separators) of
    arguments whose first non-empty one is not itself a name behind exactly two
    separators. *)
Theorem win32_join_no_unc (ps : list jsstr) :
  exists r, join (JString <$> ps) = Ok r
    /\ (two_seps r = true -> exists f, head (filter (fun p => p <> []) ps) = Some f /\ unc_like f = true).
Proof.
  unfold join. destruct (Z.eqb_spec (len (JString <$> ps)) 0); [by eexists|].
  destruct (join_loop_start ps) as [[-> _]|(pre & f & post & j & -> & Hpre & Hf & ->)]; [by eexists|].
  cbn [rbind]. eexists. split; [done|]. intros Htwo. exists f. split.
  - rewrite filter_app. replace (filter (fun p => p <> []) pre) with (@nil jsstr).
    + cbn [app]. by rewrite filter_cons_True.
    + symmetry. clear -Hpre. induction Hpre as [|p pre -> _ IH]; [done|]. by rewrite filter_cons_False by tauto.
  - destruct (unc_like f) eqn:E; [done|]. exfalso.
    by rewrite normalize_two_seps in Htwo by (by apply join_leading_one).
Qed.

(** ** Resolution *)

Section ResolveFacts.
Context (lower : jsstr -> jsstr) (Hlower : forall s, ascii s -> lower s = ascii_lower <$> s).
Context (l c : Z) (cwd_rest : jsstr).
Context (Hl : is_letter l = true) (Hc : isPathSeparator (Some c) = true).

Definition drive_cwd : jsstr := [l; CHAR_COLON; c] ++ cwd_rest.

(** The states in which the loop goes on, and those in which it ends. *)
Definition going (st : rs_state) : Prop :=
  rs_device st = []
  \/ rs_absolute st = false /\ exists d, rs_device st = [d; CHAR_COLON] /\ is_letter d = true.

Definition resolved (st : rs_state) : Prop :=
  rs_absolute st = true /\ rs_device st <> [] /\ device_ok (rs_device st) true.

Lemma device_ok_any dev abs : device_ok dev abs -> device_ok dev true.
Proof. destruct 1; by constructor. Qed.

Lemma device_ok_relative dev :
  device_ok dev false -> dev = [] \/ exists d, dev = [d; CHAR_COLON] /\ is_letter d = true.
Proof. inversion 1; [by left|]. right. by eexists. Qed.

Lemma len_test {A} (s : list A) : (0 <? len s) = negb (bool_decide (s = [])).
Proof.
  destruct s as [|x s]; [done|]. rewrite bool_decide_eq_false_2 by done. rewrite len_cons.
  pose proof (len_nonneg s). by apply Z.ltb_lt; lia.
Qed.

Lemma len_test0 {A} (s : list A) : (len s =? 0) = bool_decide (s = []).
Proof.
  destruct s as [|x s]; [done|]. rewrite bool_decide_eq_false_2 by done. rewrite len_cons.
  pose proof (len_nonneg s). by apply Z.eqb_neq; lia.
Qed.

Lemma resolve_step_going p st :
  going st ->
  exists st' brk, resolve_step lower (JString p) st = Ok (st', brk)
    /\ if (brk : bool) then resolved st' else going st'.
Proof.
  intros Hst. unfold resolve_step. cbn [rbind assertPath].
  destruct (Z.eqb_spec (len p) 0) as [|Hp]; [by eexists _, _|].
  assert (Hne : p <> []) by (by intros ->).
  destruct (match_root_ok p Hne) as [Hdev _ _ _ _]. set (m := match_root p) in *.
  case_if; [by eexists _, _|]. eexists _, _. split; [done|].
  rewrite !len_test, !len_test0. unfold going, resolved in *. destruct Hst as [Hd|(Ha & d & Hd & Hlet)].
  - rewrite Hd in *. rewrite (bool_decide_eq_true_2 (@nil Z = [])) by done. cbn [andb].
    destruct (decide (rm_device m = [])) as [E|E].
    + rewrite !E. destruct (rs_absolute st); cbn; [by left|]. rewrite andb_false_r. by left.
    + rewrite (bool_decide_eq_false_2 (rm_device m = [])) by done. cbn [negb].
      destruct (rs_absolute st); cbn [rs_absolute rs_device andb].
      * rewrite (bool_decide_eq_false_2 (rm_device m = [])) by done. cbn.
        split; [done|]. split; [done|]. by eapply device_ok_any.
      * rewrite (bool_decide_eq_false_2 (rm_device m = [])) by done. cbn [negb].
        destruct (rm_isAbsolute m) eqn:Em; cbn; [done|].
        destruct (device_ok_relative _ Hdev) as [|(d & Ed & ?)]; [done|]. right. split; [done|]. by exists d.
  - rewrite Ha, Hd. cbn [negb andb rs_absolute rs_device].
    rewrite (bool_decide_eq_false_2 ([d; CHAR_COLON] = [])) by done. cbn [negb andb].
    destruct (rm_isAbsolute m); cbn.
    + split; [done|]. split; [done|]. by constructor.
    + right. split; [done|]. by exists d.
Qed.

Lemma letter_ascii d : is_letter d = true -> 0 <= d < 128.
Proof.
  unfold is_letter, isWindowsDeviceRoot, CHAR_LOWERCASE_A, CHAR_LOWERCASE_Z, CHAR_UPPERCASE_A,
    CHAR_UPPERCASE_Z. lia.
Qed.

Lemma sep_cases x : isPathSeparator (Some x) = true -> x = CHAR_FORWARD_SLASH \/ x = BACKSLASH.
Proof. intros H. apply orb_true_iff in H as [H|H]; apply Z.eqb_eq in H; auto. Qed.

Lemma lower_drive d : is_letter d = true -> lower [d; CHAR_COLON] = [ascii_lower d; CHAR_COLON].
Proof. intros H%letter_ascii. rewrite Hlower; [done|]. by repeat constructor; lia || done. Qed.

(** A step with a rooted drive path ends the loop when the drive agrees. *)
Lemma resolve_step_drive d x r st :
  is_letter d = true -> isPathSeparator (Some x) = true -> going st ->
  (forall e, rs_device st = [e; CHAR_COLON] -> ascii_lower e = ascii_lower d) ->
  exists st' brk, resolve_step lower (JString (d :: CHAR_COLON :: x :: r)) st = Ok (st', brk) /\ resolved st'.
Proof.
  intros Hd Hx Hst He. unfold resolve_step. cbn [rbind assertPath].
  rewrite len_test0, bool_decide_eq_false_2 by done. rewrite match_root_drive by done. cbn [head hd_error].
  rewrite Hx. cbn [rm_device rm_isAbsolute rm_rootEnd]. rewrite !len_test, !len_test0.
  rewrite (bool_decide_eq_false_2 ([d; CHAR_COLON] = [])) by done. cbn [negb andb].
  destruct Hst as [E|(Ha & e & E & Hlet)]; rewrite E.
  - eexists _, _. split; [done|]. destruct (rs_absolute st); split; (done || (split; [done|by constructor])).
  - rewrite (bool_decide_eq_false_2 ([e; CHAR_COLON] = [])) by done. cbn [negb andb].
    rewrite !lower_drive, (He e E) by done. unfold str_eqb. rewrite bool_decide_eq_true_2 by done.
    rewrite Ha. cbn [negb]. eexists _, _. split; [done|]. split; [done|]. split; [done|]. by constructor.
Qed.

Lemma cwd_path_ends st :
  going st ->
  exists p st' brk, cwd_path lower (Some (JString drive_cwd)) true st = Ok p
    /\ resolve_step lower p st = Ok (st', brk) /\ resolved st'.
Proof.
  intros Hst. unfold cwd_path. destruct Hst as [E|(Ha & d & E & Hd)] eqn:Hs; rewrite E.
  - destruct (resolve_step_drive l c cwd_rest st Hl Hc (or_introl E)) as (st' & brk & R & Hr).
    { intros e E'. rewrite E in E'. done. }
    by exists (JString drive_cwd), st', brk.
  - assert (Hlow : lower (slice drive_cwd 0 3) = [ascii_lower l; CHAR_COLON; ascii_lower c]).
    { replace (slice drive_cwd 0 3) with [l; CHAR_COLON; c]
        by (symmetry; exact (slice_prefix [l; CHAR_COLON; c] cwd_rest)).
      rewrite Hlower; [done|].
      pose proof (letter_ascii l Hl). destruct (sep_cases c Hc) as [-> | ->]; by repeat constructor; lia || done. }
    unfold drive_cwd in *. rewrite Hlow, lower_drive by done.
    assert (Hg : going st) by (right; by eauto).
    destruct (str_eqb _ _) eqn:Eq; bool_simpl.
    + injection Eq as El Ec.
      destruct (resolve_step_drive l c cwd_rest st Hl Hc Hg) as (st' & brk & R & Hr).
      { intros e E'. rewrite E in E'. by injection E' as <-. }
      by exists (JString drive_cwd), st', brk.
    + destruct (resolve_step_drive d BACKSLASH [] st Hd eq_refl Hg) as (st' & brk & R & Hr).
      { intros e E'. rewrite E in E'. by injection E' as <-. }
      by exists (JString (d :: CHAR_COLON :: BACKSLASH :: [])), st', brk.
Qed.

Lemma resolve_loop_ends ps st :
  going st ->
  exists st', resolve_loop lower (Some (JString drive_cwd)) true (JString <$> ps) st = Ok st'
    /\ resolved st'.
Proof.
  revert st. induction ps as [|p ps IH]; intros st Hst; cbn [fmap list_fmap resolve_loop].
  - destruct (cwd_path_ends st Hst) as (p & st' & brk & -> & E & Hr). cbn [rbind]. rewrite E. by exists st'.
  - destruct (resolve_step_going p st Hst) as (st' & brk & -> & Hr). cbn [rbind fst snd].
    destruct brk; [by exists st'|by apply IH].
Qed.

(** with a working directory on a drive and string arguments, [resolve]
    returns a normalised absolute path: a drive or a UNC root, a backslash and
    proper names.  [toLowerCase] is only assumed to lower-case ASCII text. *)
Theorem win32_resolve_absolute (ps : list jsstr) :
  exists device names,
    let r := device ++ js "\" ++ join_with (js "\") names in
    resolve lower (Some (JString drive_cwd)) true (JString <$> ps) = Ok r
    /\ device <> [] /\ device_ok device true /\ Forall (proper isPathSeparator) names
    /\ isAbsolute (JString r) = Ok true /\ normalize (JString r) = Ok r.
Proof.
  unfold resolve. rewrite <- fmap_reverse.
  destruct (resolve_loop_ends (reverse ps) (RS [] [] false)) as (st & -> & Ha & Hne & Hdev); [by left|].
  cbn [rbind]. rewrite Ha. cbn [negb].
  destruct (normalizeString_normal_stack isPathSeparator BACKSLASH false (rs_tail st)) as (sk & Hsk & _ & E).
  change [BACKSLASH] with (js "\") in E. rewrite E. exists (rs_device st), (reverse sk).
  assert (Hw : rs_device st ++ js "\" ++ render BACKSLASH sk = wform (rs_device st) true false sk).
  { unfold wform, tail_text. destruct sk; [done|]. by rewrite app_nil_r. }
  change (join_with (js "\") (reverse sk)) with (render BACKSLASH sk). cbv zeta. rewrite Hw.
  assert (Hne' : wform (rs_device st) true false sk <> []) by (unfold wform; by destruct (rs_device st)).
  destruct (wform_root (rs_device st) true false sk Hdev Hsk) as (_ & Eabs & _); [done|].
  rewrite len_test0, bool_decide_eq_false_2 by done. split; [done|]. split; [done|]. split; [done|].
  split.
  - destruct Hsk as (names & ups & -> & Hn & Hu). rewrite (Hu eq_refl), app_nil_r. by apply Forall_reverse.
  - unfold isAbsolute, normalize. cbn [rbind assertPath]. rewrite normalize_wform_fixed by done.
    split; [|done]. by destruct (match_root_ok _ Hne') as [_ _ -> _ _]; rewrite Eabs.
Qed.
End ResolveFacts.

Lemma win32_resolve_absolute_witness :
  exists device names,
    let r := device ++ js "\" ++ join_with (js "\") names in
    resolve (fmap ascii_lower) (Some (JString (js "C:\home\u"))) true
      (JString <$> [js "a"; js "d:x"; js "..\b/c"]) = Ok r
    /\ device <> [] /\ device_ok device true /\ Forall (proper isPathSeparator) names
    /\ isAbsolute (JString r) = Ok true /\ normalize (JString r) = Ok r.
Proof.
  apply (win32_resolve_absolute (fmap ascii_lower) (fun s _ => eq_refl) 67 CHAR_BACKWARD_SLASH (js "home\u"));
    reflexivity.
Defined.

Lemma win32_normalize_stable_witness :
  exists q, normalize (JString (js "a/.././b//c/")) = Ok q
    /\ normalize (JString q) = Ok q
    /\ isAbsolute (JString q) = isAbsolute (JString (js "a/.././b//c/")).
Proof. apply win32_normalize_stable. right; right. by repeat constructor. Defined.

(** ** Parsing *)

Lemma parse_root_split path k :
  path <> [] -> parse_root path = Some k -> exists pre rest, path = pre ++ rest /\ k = len pre.
Proof.
  intros Hne. assert (Hsp : forall k, 0 <= k <= len path -> exists pre rest, path = pre ++ rest /\ k = len pre).
  { intros j Hj. destruct (split_len path j Hj) as (u & v & -> & <-). by exists u, v. }
  pose proof (len_pos path Hne). unfold parse_root.
  destruct (Z.ltb_spec 1 (len path)).
  2:{ case_if; intros [= <-]; apply Hsp; lia. }
  destruct path as [|a [|b path]]; [done|len_simpl; lia|].
  pose proof (match_unc_shape a b path) as Hu. repeat case_if; try (intros [= <-]; apply Hsp; lia); try done.
  destruct Hu as [|f sp s E|f sp s x r E _ _ _ _ _ _ _]; intros [= <-]; apply Hsp; [lia|lia|].
  rewrite E. pose proof (len_nonneg f). pose proof (len_nonneg sp). pose proof (len_nonneg s).
  pose proof (len_nonneg r). len_simpl. lia.
Qed.

(** [parse] on a root and a rest, on its two branches. *)
Lemma parse_at pre rest :
  pre ++ rest <> [] -> parse_root (pre ++ rest) = Some (len pre) ->
  (all_sep isPathSeparator rest ->
   parse_s (pre ++ rest)
   = {| pp_root := pre; pp_dir := pre; pp_base := []; pp_ext := []; pp_name := [] |})
  /\ (forall d b t, decomp isPathSeparator rest d b t ->
      let k := lastIndexOf b (js ".") in
      let none := (k <=? 0) || str_eqb b (js "..") in
      parse_s (pre ++ rest)
      = {| pp_root := pre; pp_dir := pre ++ take (length d - 1) d; pp_base := b;
           pp_ext := if none then [] else slice_from b k;
           pp_name := if none then b else slice b 0 k |}).
Proof.
  intros Hne Hr. unfold parse_s. rewrite len_test0, bool_decide_eq_false_2, Hr by done.
  rewrite scan_length, slice_prefix. pose proof (len_nonneg pre).
  replace (if 0 <? len pre then pre else []) with pre
    by (rewrite len_test; destruct pre; [done|by rewrite bool_decide_eq_false_2]).
  split.
  - intros Hs. rewrite (dot_loop_seps isPathSeparator pre _ rest _ Hs eq_refl). cbn.
    by rewrite Z.eqb_refl, andb_false_r.
  - intros d b t Hdc. pose proof (dc_eq _ _ _ _ _ Hdc) as E. rewrite E in Hdc |- *.
    destruct (dot_loop_ext isPathSeparator pre (pre ++ d ++ b ++ t) d b t (len pre) Hdc eq_refl)
      as (Hend & Hsp & Hno & Hdot); [by left|]. cbv zeta.
    rewrite start_or in *. rewrite Z.eqb_refl, andb_true_r in Hno.
    set (st := dot_loop _ _ _ _ _) in *. rewrite Hno, Hend, Hsp.
    pose proof (len_nonneg d). pose proof (len_nonneg b).
    destruct (Z.eqb_spec (len pre + len d + len b) (-1)); [lia|]. cbn [negb].
    assert (Hdir : (if (0 <? len pre + len d) && negb (len pre + len d =? len pre)
                    then slice (pre ++ d ++ b ++ t) 0 (len pre + len d - 1) else pre)
                   = pre ++ take (length d - 1) d).
    { destruct Hdc as [_ Hd _ _]. destruct Hd as [->|(d' & x & -> & _)].
      - change (len (@nil Z)) with 0. rewrite Z.add_0_r, Z.eqb_refl, andb_false_r. by rewrite app_nil_r.
      - rewrite length_app, Nat.add_sub, take_app_length.
        replace (len pre + len (d' ++ [x]) - 1) with (len (pre ++ d')) by (len_simpl; lia).
        rewrite <- (app_assoc d'), (app_assoc pre), slice_prefix. pose proof (len_nonneg d').
        destruct (Z.ltb_spec 0 (len pre + len (d' ++ [x]))); [|len_simpl; lia].
        by destruct (Z.eqb_spec (len pre + len (d' ++ [x])) (len pre)); [len_simpl; lia|]. }
    rewrite Hdir, app_assoc, <- len_app. case_if; [by rewrite slice_mid|].
    apply orb_false_iff in Heqb0 as [Hk%Z.leb_gt _]. destruct (Hdot Hk) as [-> Hk'].
    rewrite slice_mid, <- len_app, slice_tail by lia. f_equal.
    destruct (split_len b _ (conj (Z.lt_le_incl _ _ Hk) (Z.lt_le_incl _ _ (proj2 Hk')))) as (u & v & Eb & Eu).
    rewrite <- Eu, Eb. rewrite slice_prefix, <- (app_assoc u). apply slice_mid.
Qed.

Lemma base_join b : let k := lastIndexOf b (js ".") in
  let none := (k <=? 0) || str_eqb b (js "..") in
  (if none then b else slice b 0 k) ++ (if none then [] else slice_from b k) = b
  /\ (if none then [] else slice_from b k) = ext_of_base b.
Proof.
  cbv zeta. pose proof (lastIndexOf_bounds CHAR_DOT b) as Hk. change [CHAR_DOT] with (js ".") in Hk.
  unfold ext_of_base. split; [|done]. case_if; [by rewrite app_nil_r|]. apply slice_join.
  apply orb_false_iff in Heqb0 as [H0%Z.leb_gt _]. lia.
Qed.

(** on Windows [parse] splits the path into its root and a rest; [base] is
    the last segment of the rest, [ext] its extension, and [name] and [ext] put
    together are [base]. *)
Theorem win32_parse_components (path : jsstr) :
  let p := parse_s path in
  exists rest, path = pp_root p ++ rest
    /\ pp_base p = last_segment isPathSeparator rest
    /\ pp_ext p = ext_of_base (pp_base p)
    /\ pp_name p ++ pp_ext p = pp_base p.
Proof.
  cbv zeta. destruct (decide (path = [])) as [->|Hne]; [by exists []|].
  destruct (parse_root path) as [k|] eqn:Er.
  - destruct (parse_root_split path k Hne Er) as (pre & rest & -> & ->).
    destruct (parse_at pre rest Hne Er) as [Hs Hd]. exists rest.
    destruct (decomp_exists isPathSeparator rest) as [Hsep|(d & b & t & Hdc)].
    + rewrite (Hs Hsep). cbn [pp_root pp_base pp_ext pp_name]. by rewrite last_segment_seps.
    + rewrite (Hd _ _ _ Hdc), (last_segment_decomp _ _ _ _ _ Hdc).
      cbn [pp_root pp_base pp_ext pp_name]. destruct (base_join b) as [E1 E2]. cbv zeta in E1, E2.
      rewrite E1. by rewrite E2.
  - exists []. unfold parse_s. rewrite len_test0, bool_decide_eq_false_2, Er by done.
    cbn [pp_root pp_base pp_ext pp_name]. by rewrite app_nil_r.
Qed.

(** on Windows [format(parse(path))] gives the path back when it is written
    with backslashes, does not end with one, and the root is not followed by
    one backslash and a name. *)
Theorem win32_format_parse_roundtrip (path : jsstr) :
  Forall (fun c => c <> CHAR_FORWARD_SLASH) path -> last path <> Some BACKSLASH ->
  (forall b, path = pp_root (parse_s path) ++ js "\" ++ b -> ~ seg_ok isPathSeparator b) ->
  format (inr (formatted (parse_s path))) = Ok path.
Proof.
  intros Hfs Hlast Hroot. unfold format. f_equal.
  destruct (decide (path = [])) as [->|Hne]; [done|].
  assert (Hend : forall x y t, path = x ++ y ++ t -> all_sep isPathSeparator t -> t = []).
  { intros x y t -> Ht. destruct t as [|z t _] using rev_ind; [done|]. exfalso.
    apply all_snoc in Ht as [_ Hz]. rewrite !app_assoc, last_snoc in Hlast.
    destruct (sep_cases z Hz) as [-> | ->]; [|done].
    rewrite !app_assoc in Hfs. apply Forall_app in Hfs as [_ Hfs]. by apply Forall_cons in Hfs as [? _]. }
  destruct (parse_root path) as [k|] eqn:Er.
  2:{ assert (Ep : pp_root (parse_s path) = path) by
        (unfold parse_s; by rewrite len_test0, bool_decide_eq_false_2, Er).
      unfold parse_s. rewrite len_test0, bool_decide_eq_false_2, Er by done.
      unfold _format. cbn. destruct path as [|c path]; [done|]. cbn.
      rewrite bool_decide_eq_true_2 by done. by rewrite app_nil_r. }
  destruct (parse_root_split path k Hne Er) as (pre & rest & -> & ->).
  destruct (parse_at pre rest Hne Er) as [Hs Hd].
  destruct (decomp_exists isPathSeparator rest) as [Hsep|(d & b & t & Hdc)].
  - rewrite (Hs Hsep). rewrite (Hend pre [] rest) by done. rewrite !app_nil_r. unfold _format. cbn.
    destruct pre; [done|]. cbn. rewrite bool_decide_eq_true_2 by done. by rewrite app_nil_r.
  - rewrite (Hd _ _ _ Hdc) in Hroot |- *. cbn [pp_root] in Hroot.
    destruct Hdc as [-> Hdir [Hbne Hb] Ht].
    assert (t = []) as -> by (apply (Hend (pre ++ d) b t); [by rewrite <- app_assoc|done]).
    rewrite app_nil_r in Hroot |- *.
    unfold _format, formatted. cbn [fi_dir fi_root fi_base fi_name fi_ext pp_root pp_dir pp_base pp_ext pp_name].
    assert (Hbase : forall o, default [] (or_str (Some b) o) = b) by (intros o; by destruct b).
    rewrite Hbase. destruct Hdir as [->|(d' & x & -> & Hx)].
    + rewrite app_nil_r. destruct pre as [|c pre]; [done|]. cbn. by rewrite bool_decide_eq_true_2.
    + assert (x = BACKSLASH) as ->.
      { destruct (sep_cases x Hx) as [-> | ->]; [|done]. exfalso. 
        rewrite !Forall_app in Hfs. destruct Hfs as (_ & [_ Hfs] & _). by apply Forall_cons in Hfs as [? _]. }
      rewrite length_app, Nat.add_sub, take_app_length. destruct d' as [|c d'].
      { exfalso. exact (Hroot b eq_refl Hb). }
      change (js "\") with [BACKSLASH]. rewrite <- !app_assoc. destruct pre as [|e pre].
      * done.
      * cbn [app or_str]. rewrite bool_decide_eq_false_2; [by rewrite <- app_assoc|].
        intros [= E]. apply (f_equal length) in E. rewrite length_app in E. simpl in E. lia.
Qed.

Lemma win32_format_parse_roundtrip_witness :
  format (inr (formatted (parse_s (js "C:\a\\b.tar.gz")))) = Ok (js "C:\a\\b.tar.gz").
Proof.
  apply (win32_format_parse_roundtrip (js "C:\a\\b.tar.gz")); [by repeat constructor|done|].
  intros b E. vm_compute in E. discriminate.
Defined.
