(* ===== verification/PathCommon.v ===== *)
(** * The common path of a set of paths: [path/common.ts] *)

From S2P Require Import Prelude.

Section SplitStr.
Context (sep : jsstr).

(** [s.split(sep)] for a non-empty [sep]: [cur] is the part read so far, and
    [skip] units of a separator are still to be passed over. *)
Fixpoint split_go (skip : nat) (cur s : jsstr) : list jsstr :=
  match s with
  | [] => [cur]
  | c :: s' =>
      match skip with
      | S k => split_go k cur s'
      | O =>
          if is_prefix sep s then cur :: split_go (length sep - 1) [] s'
          else split_go O (cur ++ [c]) s'
      end
  end.

Definition split_str (s : jsstr) : list jsstr :=
  match sep with
  | [] => (fun c => [c]) <$> s
  | _ => split_go O [] s
  end.

Definition endsWith (s : jsstr) : bool :=
  bool_decide (drop (length s - length sep) s = sep).

(** [first.substring(0, end)]: a negative [end] counts as 0. *)
Definition substring0 (s : jsstr) (end_ : Z) : jsstr := take (Z.to_nat end_) s.

(** The inner loop, [n] tests left before [i = endOfPrefix]; [endOfPrefix] set
    to [i] ends it. *)
Fixpoint common_inner (compare parts : list jsstr) (n : nat) (i : nat) : nat :=
  match n with
  | O => i
  | S n' =>
      if bool_decide (compare !! i = parts !! i) then common_inner compare parts n' (S i) else i
  end.

(** The loop over the remaining paths; [None] is the early return of the empty
    string. *)
Fixpoint common_loop (parts : list jsstr) (remaining : list jsstr) (endOfPrefix : nat) : option nat :=
  match remaining with
  | [] => Some endOfPrefix
  | path :: rest =>
      let endOfPrefix := common_inner (split_str path) parts endOfPrefix O in
      match endOfPrefix with
      | O => None
      | _ => common_loop parts rest endOfPrefix
      end
  end.

Definition common (paths : list jsstr) : jsstr :=
  let '(first, remaining) := match paths with [] => ([], []) | p :: ps => (p, ps) end in
  if str_eqb first [] || (len remaining =? 0) then
    substring0 first (lastIndexOf first sep + 1)
  else
    let parts := split_str first in
    match common_loop parts remaining (length parts) with
    | None => []
    | Some endOfPrefix =>
        let prefix := join_with sep (take endOfPrefix parts) in
        if endsWith prefix then prefix else prefix ++ sep
    end.
End SplitStr.

(** ** The longest common prefix *)

(** [cp] is the longest list that is a prefix of every member of [ls]. *)
Definition longest_common (cp : list jsstr) (ls : list (list jsstr)) : Prop :=
  (forall l, l ∈ ls -> cp `prefix_of` l)
  /\ (forall p, (forall l, l ∈ ls -> p `prefix_of` l) -> p `prefix_of` cp).

Lemma common_inner_spec compare parts n i :
  (i + n <= length parts)%nat ->
  let e := common_inner compare parts n i in
  (i <= e <= i + n)%nat
  /\ (forall k, (i <= k < e)%nat -> compare !! k = parts !! k)
  /\ ((e < i + n)%nat -> compare !! e <> parts !! e).
Proof.
  revert i. induction n as [|n IH]; intros i Hi; cbn.
  - split; [lia|]. split; intros; lia.
  - case_bool_decide as E.
    + destruct (IH (S i)) as (H1 & H2 & H3); [lia|]. split; [lia|]. split.
      * intros k Hk. destruct (decide (k = i)) as [->|]; [done|]. apply H2. lia.
      * intros Hk. apply H3. lia.
    + split; [lia|]. split; [intros; lia|]. done.
Qed.

Lemma prefix_lookup_take (l1 l2 : list jsstr) e :
  (e <= length l2)%nat -> (forall k, (k < e)%nat -> l1 !! k = l2 !! k) -> take e l2 `prefix_of` l1.
Proof.
  intros He Hk. exists (drop e l1). rewrite <- (take_drop e l1) at 1. f_equal.
  apply list_eq. intros k. destruct (decide (k < e)%nat).
  - by rewrite !lookup_take_lt, Hk by done.
  - by rewrite !lookup_take_ge by lia.
Qed.

(** Comparing with one more path cuts the prefix down to what it shares. *)
Lemma common_inner_longest compare parts n ls :
  (n <= length parts)%nat -> longest_common (take n parts) ls ->
  longest_common (take (common_inner compare parts n O) parts) (ls ++ [compare]).
Proof.
  intros Hn [Hall Hmax]. destruct (common_inner_spec compare parts n O) as (H1 & H2 & H3); [lia|].
  set (e := common_inner _ _ _ _) in *. split.
  - intros l Hl. apply elem_of_app in Hl as [Hl|Hl%list_elem_of_singleton].
    + etransitivity; [|by apply Hall]. exists (drop e (take n parts)).
      rewrite <- (take_drop e (take n parts)) at 1. f_equal. rewrite take_take. f_equal. lia.
    + subst l. apply prefix_lookup_take; [lia|]. intros k Hk. apply H2. lia.
  - intros p Hp. assert (Hpn : p `prefix_of` take n parts).
    { apply Hmax. intros l Hl. apply Hp. apply elem_of_app. by left. }
    assert (Hpc : p `prefix_of` compare) by (apply Hp; apply elem_of_app; right; by apply list_elem_of_singleton).
    assert (Hlen : (length p <= e)%nat).
    { destruct (decide (length p <= e)%nat); [done|]. exfalso. pose proof (prefix_length _ _ Hpn) as Hl.
      rewrite length_take in Hl. apply H3; [lia|].
      assert (Hpe : is_Some (p !! e)) by (apply lookup_lt_is_Some; lia). destruct Hpe as [x Hx].
      rewrite (prefix_lookup_Some _ _ _ _ Hx Hpc).
      pose proof (prefix_lookup_Some _ _ _ _ Hx Hpn) as Hy. rewrite lookup_take_lt in Hy by lia. done. }
    destruct Hpn as [r Hr]. exists (take (e - length p) r).
    replace (take e parts) with (take e (take n parts)) by (rewrite take_take; f_equal; lia).
    rewrite Hr, take_app. f_equal. by apply take_ge.
Qed.

Lemma common_loop_longest sep parts remaining n ls :
  (0 < n <= length parts)%nat -> longest_common (take n parts) ls ->
  exists cp, longest_common cp (ls ++ (split_str sep <$> remaining))
    /\ match common_loop sep parts remaining n with
       | None => cp = []
       | Some e => cp = take e parts /\ (0 < e <= length parts)%nat
       end.
Proof.
  revert n ls. induction remaining as [|p ps IH]; intros n ls Hn Hl.
  - exists (take n parts). by rewrite app_nil_r.
  - replace (ls ++ (split_str sep <$> p :: ps)) with ((ls ++ [split_str sep p]) ++ (split_str sep <$> ps))
      by (by rewrite <- app_assoc).
    cbn [common_loop]. destruct (common_inner_spec (split_str sep p) parts n O) as (H1 & _ & _); [lia|].
    pose proof (common_inner_longest (split_str sep p) parts n ls ltac:(lia) Hl) as Hl'.
    destruct (common_inner (split_str sep p) parts n 0) as [|e] eqn:E.
    + exists []. split; [|done]. destruct Hl' as [_ Hmax]. split; [intros; apply prefix_nil|].
      intros q Hq. apply Hmax. intros l Hin. apply Hq. apply elem_of_app. by left.
    + apply (IH (S e)); [lia|done].
Qed.

Lemma split_go_cons sep skip cur s : exists x xs, split_go sep skip cur s = x :: xs.
Proof.
  revert skip cur. induction s as [|c s IH]; intros skip cur; cbn [split_go]; [by eauto|].
  destruct skip; [|apply IH]. destruct (is_prefix sep (c :: s)); [by eauto|apply IH].
Qed.

(** Joining what [split] cuts gives the string back. *)
Lemma join_split_go sep skip cur s :
  sep <> [] -> join_with sep (split_go sep skip cur s) = cur ++ drop skip s.
Proof.
  intros Hs. revert skip cur. induction s as [|c s IH]; intros skip cur; cbn [split_go].
  - by rewrite drop_nil, app_nil_r.
  - destruct skip as [|k]; [|apply IH].
    destruct (is_prefix sep (c :: s)) eqn:E.
    + destruct (split_go_cons sep (length sep - 1) [] s) as (x & xs & Ex).
      specialize (IH (length sep - 1)%nat []). rewrite Ex in IH |- *.
      transitivity (cur ++ sep ++ join_with sep (x :: xs)); [done|]. rewrite IH. f_equal.
      apply is_prefix_spec in E as [r Er]. destruct sep as [|a sep']; [done|]. injection Er as -> ->.
      cbn. f_equal. by rewrite Nat.sub_0_r, drop_app_length.
    + rewrite IH. by rewrite <- app_assoc.
Qed.

Lemma join_split sep s : join_with sep (split_str sep s) = s.
Proof.
  destruct sep as [|a sep]; [|by apply (join_split_go (a :: sep))]. cbn.
  induction s as [|c [|d s] IH]; [done|done|]. cbn in *. by rewrite IH.
Qed.

Lemma join_with_app sep cp r :
  cp <> [] -> r <> [] -> join_with sep (cp ++ r) = join_with sep cp ++ sep ++ join_with sep r.
Proof.
  intros Hc Hr. induction cp as [|x [|y cp] IH]; [done|by destruct r|].
  transitivity (x ++ sep ++ join_with sep ((y :: cp) ++ r)); [done|]. rewrite IH by done.
  change (join_with sep (x :: y :: cp)) with (x ++ sep ++ join_with sep (y :: cp)). by rewrite <- !app_assoc.
Qed.

Lemma split_str_nonempty sep s : s <> [] -> split_str sep s <> [].
Proof.
  intros Hs. destruct sep as [|a sep]; [by destruct s|].
  destruct (split_go_cons (a :: sep) 0 [] s) as (x & xs & E). cbn. by rewrite E.
Qed.

(** [common] of two or more paths, the first one not empty, is the text of
    the longest list of segments that all of them start with, closed with a
    separator; so it is a prefix of every path closed that way. *)
Theorem common_longest (sep first second : jsstr) (rest : list jsstr) :
  first <> [] ->
  exists cp,
    longest_common cp (split_str sep <$> first :: second :: rest)
    /\ common sep (first :: second :: rest)
       = (if bool_decide (cp = []) then []
          else if endsWith sep (join_with sep cp) then join_with sep cp
          else join_with sep cp ++ sep)
    /\ forall p, p ∈ first :: second :: rest ->
         common sep (first :: second :: rest) `prefix_of` p ++ sep.
Proof.
  intros Hne. unfold common, str_eqb. rewrite bool_decide_eq_false_2 by done.
  destruct (Z.eqb_spec (len (second :: rest)) 0) as [E|_]; [pose proof (len_nonneg rest); len_simpl; lia|].
  cbn [orb]. set (parts := split_str sep first).
  assert (Hparts : parts <> []) by by apply split_str_nonempty.
  assert (Hl0 : longest_common (take (length parts) parts) [parts]).
  { rewrite firstn_all. split; [by intros l ->%list_elem_of_singleton|].
    intros p Hp. apply Hp. by apply list_elem_of_singleton. }
  destruct (common_loop_longest sep parts (second :: rest) (length parts) [parts]) as (cp & Hcp & Hres).
  { split; [|done]. destruct parts; [done|simpl; lia]. }
  { done. }
  exists cp. change ([parts] ++ (split_str sep <$> second :: rest))
    with (split_str sep <$> first :: second :: rest) in Hcp.
  split; [done|].
  assert (Heq : (if bool_decide (cp = []) then []
                 else if endsWith sep (join_with sep cp) then join_with sep cp
                 else join_with sep cp ++ sep) `prefix_of` join_with sep cp ++ sep).
  { destruct (bool_decide (cp = [])); [apply prefix_nil|]. by destruct (endsWith sep _); [exists sep|]. }
  match goal with |- ?x = ?y /\ _ => assert (Hxy : x = y) end.
  { destruct (common_loop sep parts (second :: rest) (length parts)) as [e|]; [|by rewrite Hres].
    destruct Hres as [-> He]. rewrite bool_decide_eq_false_2; [done|].
    intros Et. apply (f_equal length) in Et. rewrite length_take in Et. simpl in Et. lia. }
  split; [done|]. intros p Hp. rewrite Hxy. destruct (decide (cp = [])) as [->|Hcpne]; [apply prefix_nil|].
  etransitivity; [exact Heq|]. destruct Hcp as [Hall _].
  destruct (Hall (split_str sep p)) as [r Hr]; [by apply list_elem_of_fmap_2|].
  pose proof (join_split sep p) as Hj. rewrite Hr in Hj. destruct r as [|x r].
  - rewrite app_nil_r in Hj. by rewrite Hj.
  - rewrite join_with_app in Hj by done. rewrite <- Hj. exists (join_with sep (x :: r) ++ sep).
    by rewrite <- !app_assoc.
Qed.

Lemma common_longest_witness :
  exists cp,
    longest_common cp (split_str (js "/") <$> [js "./deno/std/path/mod.ts"; js "./deno/std/fs/mod.ts"])
    /\ common (js "/") [js "./deno/std/path/mod.ts"; js "./deno/std/fs/mod.ts"]
       = (if bool_decide (cp = []) then []
          else if endsWith (js "/") (join_with (js "/") cp) then join_with (js "/") cp
          else join_with (js "/") cp ++ js "/")
    /\ forall p, p ∈ [js "./deno/std/path/mod.ts"; js "./deno/std/fs/mod.ts"] ->
         common (js "/") [js "./deno/std/path/mod.ts"; js "./deno/std/fs/mod.ts"] `prefix_of` p ++ js "/".
Proof. apply common_longest. done. Defined.

Example common_documented :
  common (js "/") [js "./deno/std/path/mod.ts"; js "./deno/std/fs/mod.ts"] = js "./deno/std/".
Proof. reflexivity. Qed.
