(* ===== verification/FixedQueue.v ===== *)
(** * The queue of scheduled ticks: [internal/fixed_queue.ts]

    A queue is a chain of circular buffers of [kSize] slots, linked from [tail],
    where items are taken, to [head], where they are put.  The buffers are
    objects of a store, so that [head] and [tail] can be the same object and
    [next] is a reference, as in the source.  [Fifo] is what the queue promises
    to its clients: it behaves like a list. *)

From stdpp Require Import gmap.
From S2P Require Import Prelude.

(** ** The interface *)

(** A first-in first-out queue: a representation relation with the operations'
    laws on the represented list. *)
Class Fifo (Q A : Type) := {
  fifo_new : Q;
  fifo_isEmpty : Q -> bool;
  fifo_push : Q -> A -> Q;
  fifo_shift : Q -> Q * option A;
  fifo_rep : Q -> list A -> Prop;
  fifo_new_rep : fifo_rep fifo_new [];
  fifo_isEmpty_rep q xs :
    fifo_rep q xs -> fifo_isEmpty q = match xs with [] => true | _ => false end;
  fifo_push_rep q xs a : fifo_rep q xs -> fifo_rep (fifo_push q a) (xs ++ [a]);
  fifo_shift_rep q xs :
    fifo_rep q xs -> fifo_rep (fst (fifo_shift q)) (tail xs) /\ snd (fifo_shift q) = head xs
}.

Definition kSize : Z := 2048.
Definition kMask : Z := kSize - 1.

Section Model.
Context {A : Type}.

(** [list] holds [undefined] ([None]) where no item is; [next] is a reference
    into the store, or [null]. *)
Record FixedCircularBuffer := FCB {
  bottom : Z;
  top : Z;
  list_ : list (option A);
  next : option nat
}.

Definition new_buffer : FixedCircularBuffer :=
  FCB 0 0 (replicate (Z.to_nat kSize) None) None.

Definition buf_isEmpty (b : FixedCircularBuffer) : bool := top b =? bottom b.

Definition buf_isFull (b : FixedCircularBuffer) : bool :=
  Z.land (top b + 1) kMask =? bottom b.

Definition buf_push (b : FixedCircularBuffer) (data : option A) : FixedCircularBuffer :=
  FCB (bottom b) (Z.land (top b + 1) kMask) (<[Z.to_nat (top b) := data]> (list_ b)) (next b).

(** The result [null] is [None]. *)
Definition buf_shift (b : FixedCircularBuffer) : FixedCircularBuffer * option A :=
  let nextItem := mjoin (list_ b !! Z.to_nat (bottom b)) in
  match nextItem with
  | None => (b, None)
  | Some x =>
      (FCB (Z.land (bottom b + 1) kMask) (top b)
         (<[Z.to_nat (bottom b) := None]> (list_ b)) (next b), Some x)
  end.

(** The store of buffers, with the next address to allocate. *)
Record FixedQueue := FQ {
  store : gmap nat FixedCircularBuffer;
  allocated : nat;
  head_ : nat;
  tail_ : nat
}.

Definition new_queue : FixedQueue := FQ {[ O := new_buffer ]} 1 O O.

(** The object behind a reference; references are never dangling. *)
Definition deref (q : FixedQueue) (id : nat) : FixedCircularBuffer :=
  default new_buffer (store q !! id).

Definition assign (q : FixedQueue) (id : nat) (b : FixedCircularBuffer) : FixedQueue :=
  FQ (<[id := b]> (store q)) (allocated q) (head_ q) (tail_ q).

Definition isEmpty (q : FixedQueue) : bool := buf_isEmpty (deref q (head_ q)).

(** [this.head = this.head.next = new FixedCircularBuffer()] *)
Definition grow (q : FixedQueue) : FixedQueue :=
  let id := allocated q in
  let h := deref q (head_ q) in
  FQ (<[head_ q := FCB (bottom h) (top h) (list_ h) (Some id)]> (<[id := new_buffer]> (store q)))
     (S id) id (tail_ q).

Definition push (q : FixedQueue) (data : option A) : FixedQueue :=
  let q := if buf_isFull (deref q (head_ q)) then grow q else q in
  assign q (head_ q) (buf_push (deref q (head_ q)) data).

Definition shift (q : FixedQueue) : FixedQueue * option A :=
  let tail := tail_ q in
  let '(b, next_) := buf_shift (deref q tail) in
  let q := assign q tail b in
  if buf_isEmpty (deref q tail) then
    match next (deref q tail) with
    | Some id => (FQ (store q) (allocated q) (head_ q) id, next_)
    | None => (q, next_)
    end
  else (q, next_).

(** ** One buffer *)

(** [b] holds the items [xs]: the slots from [bottom] on, wrapping around, hold
    [xs], in which [undefined] can be an item, and then [undefined]. *)
Record buf_ok (b : FixedCircularBuffer) (xs : list (option A)) : Prop := {
  bo_size : len (list_ b) = kSize;
  bo_bottom : 0 <= bottom b < kSize;
  bo_top : top b = (bottom b + len xs) mod kSize;
  bo_room : len xs < kSize;
  bo_slots i : 0 <= i < kSize ->
    list_ b !! Z.to_nat ((bottom b + i) mod kSize) = Some (mjoin (xs !! Z.to_nat i))
}.

Lemma mask_mod x : Z.land x kMask = x mod kSize.
Proof. change kMask with (Z.ones 11). by rewrite Z.land_ones. Qed.

Lemma wrap_range x : 0 <= x mod kSize < kSize.
Proof. apply Z.mod_pos_bound. done. Qed.

Lemma wrap_inj b i j :
  0 <= i < kSize -> 0 <= j < kSize -> (b + i) mod kSize = (b + j) mod kSize -> i = j.
Proof.
  unfold kSize. intros Hi Hj E.
  pose proof (Z.div_mod (b + i) 2048 ltac:(lia)). pose proof (Z.div_mod (b + j) 2048 ltac:(lia)). lia.
Qed.

Lemma wrap_shift b i : ((b + 1) mod kSize + i) mod kSize = (b + (i + 1)) mod kSize.
Proof. rewrite Zplus_mod_idemp_l. f_equal. lia. Qed.

Lemma wrap_small b : 0 <= b < kSize -> (b + 0) mod kSize = b.
Proof. intros. rewrite Z.add_0_r. by apply Z.mod_small. Qed.

Lemma buf_isEmpty_ok b xs :
  buf_ok b xs -> buf_isEmpty b = match xs with [] => true | _ => false end.
Proof.
  intros [_ Hb Ht Hr _]. unfold buf_isEmpty. rewrite Ht. destruct xs as [|x xs].
  - change (len (@nil (option A))) with 0. rewrite wrap_small by done. apply Z.eqb_refl.
  - apply Z.eqb_neq. rewrite <- (wrap_small (bottom b)) at 2 by done. intros E.
    pose proof (len_nonneg xs). rewrite len_cons in *. apply wrap_inj in E; lia.
Qed.

Lemma buf_isFull_ok b xs : buf_ok b xs -> buf_isFull b = (len xs =? kSize - 1).
Proof.
  intros [_ Hb Ht Hr _]. unfold buf_isFull. rewrite mask_mod, Ht, Zplus_mod_idemp_l, <- Z.add_assoc.
  pose proof (len_nonneg xs). destruct (Z.eqb_spec (len xs) (kSize - 1)) as [->|Hn].
  - apply Z.eqb_eq. replace (bottom b + (kSize - 1 + 1)) with (bottom b + 1 * kSize) by lia.
    rewrite Z.mod_add by done. by apply Z.mod_small.
  - apply Z.eqb_neq. rewrite <- (wrap_small (bottom b)) at 2 by done. intros E.
    apply wrap_inj in E; unfold kSize in *; lia.
Qed.

Lemma new_buffer_ok : buf_ok new_buffer [].
Proof.
  split; [done|done|done|done|]. intros i Hi. cbn [new_buffer list_ bottom].
  rewrite lookup_nil. apply lookup_replicate. split; [done|]. pose proof (wrap_range (0 + i)).
  unfold kSize in *. lia.
Qed.

Lemma buf_push_ok b xs a :
  buf_ok b xs -> len xs < kSize - 1 -> buf_ok (buf_push b a) (xs ++ [a]).
Proof.
  intros [Hs Hb Ht Hr Hsl] Hroom. pose proof (len_nonneg xs). split; cbn [buf_push list_ bottom top].
  - unfold len in *. by rewrite length_insert.
  - done.
  - rewrite mask_mod, Ht, Zplus_mod_idemp_l, len_app, <- Z.add_assoc. done.
  - rewrite len_app. change (len [a]) with 1. lia.
  - intros i Hi. rewrite Ht. destruct (decide (i = len xs)) as [->|Hne].
    + rewrite list_lookup_insert_eq.
      * f_equal. symmetry. unfold len. rewrite Nat2Z.id. by rewrite list_lookup_middle by done.
      * pose proof (wrap_range (bottom b + len xs)). unfold len in Hs. lia.
    + rewrite list_lookup_insert_ne.
      * rewrite Hsl by done. f_equal. destruct (decide (i < len xs)).
        -- rewrite lookup_app_l; [done|]. unfold len in *. lia.
        -- rewrite !lookup_ge_None_2; [done| |]; rewrite ?length_app; unfold len in *; simpl; lia.
      * intros E. apply Hne. apply Z2Nat.inj in E; [|apply wrap_range|apply wrap_range].
        by apply wrap_inj in E; [|lia|lia].
Qed.

(** What [shift] leaves of the items: [undefined] stays where it is. *)
Definition shifted (xs : list (option A)) : list (option A) := match xs with Some _ :: xs => xs | _ => xs end.

Lemma buf_shift_ok b xs :
  buf_ok b xs -> buf_ok (fst (buf_shift b)) (shifted xs) /\ snd (buf_shift b) = mjoin (head xs)
    /\ next (fst (buf_shift b)) = next b.
Proof.
  intros Hok. pose proof Hok as [Hs Hb Ht Hr Hsl]. unfold buf_shift.
  assert (E0 : list_ b !! Z.to_nat (bottom b) = Some (mjoin (xs !! 0%nat))).
  { rewrite <- (wrap_small (bottom b)) at 1 by done. by apply Hsl. }
  rewrite E0. destruct xs as [|[x|] xs]; [done| |done]. pose proof (len_nonneg xs). rewrite len_cons in *.
  cbn. split; [|done]. split; cbn [list_ bottom top].
  - unfold len in *. by rewrite length_insert.
  - rewrite mask_mod. apply wrap_range.
  - rewrite mask_mod, Ht, wrap_shift. f_equal. lia.
  - lia.
  - intros i Hi. rewrite mask_mod, wrap_shift. destruct (decide (i = kSize - 1)) as [->|Hne].
    + replace (bottom b + (kSize - 1 + 1)) with (bottom b + 1 * kSize) by lia.
      rewrite Z.mod_add, (Z.mod_small (bottom b)) by done. rewrite list_lookup_insert_eq by (unfold len in Hs; lia).
      f_equal. symmetry. rewrite lookup_ge_None_2; [done|]. unfold len in *. lia.
    + rewrite list_lookup_insert_ne.
      * rewrite Hsl by lia. f_equal. by replace (Z.to_nat (i + 1)) with (S (Z.to_nat i)) by lia.
      * intros E. apply Z2Nat.inj in E; [|lia|apply wrap_range].
        rewrite <- (wrap_small (bottom b)) in E at 1 by done. apply wrap_inj in E; unfold kSize in *; lia.
Qed.

(** ** The chain of buffers *)

(** From [id] the references [next] lead through the buffers [ids], which hold
    [css], to [last], whose [next] is [null]. *)
Inductive chain (h : gmap nat FixedCircularBuffer) (last : nat) : nat -> list nat -> list (list (option A)) -> Prop :=
| chain_last b xs :
    h !! last = Some b -> next b = None -> buf_ok b xs -> chain h last last [last] [xs]
| chain_next id id' b xs ids css :
    h !! id = Some b -> next b = Some id' -> buf_ok b xs -> id ∉ ids ->
    chain h last id' ids css -> chain h last id (id :: ids) (xs :: css).

(** The queue holds [ys]: a chain from [tail] to [head], in which a buffer is
    empty only if it is alone. *)
Definition rep (q : FixedQueue) (ys : list (option A)) : Prop :=
  exists ids css,
    chain (store q) (head_ q) (tail_ q) ids css
    /\ ys = concat css
    /\ (length css = 1%nat \/ Forall (fun xs => xs <> []) css)
    /\ (forall id b, store q !! id = Some b -> (id < allocated q)%nat).

Lemma chain_head h last id ids css : chain h last id ids css -> exists ids', ids = id :: ids'.
Proof. destruct 1; by eexists. Qed.

Lemma chain_frame h last id ids css i b :
  chain h last id ids css -> i ∉ ids -> chain (<[i := b]> h) last id ids css.
Proof.
  induction 1 as [b' xs Hl Hn Hb|id id' b' xs ids css Hl Hn Hb Hid Hc IH]; intros Hi.
  - apply chain_last with b'; [|done|done]. rewrite lookup_insert_ne; [done|set_solver].
  - apply chain_next with id' b'; [|done|done|done|apply IH; set_solver].
    rewrite lookup_insert_ne; [done|set_solver].
Qed.

Lemma chain_split h last id ids css :
  chain h last id ids css ->
  exists ids' css' b xs, ids = ids' ++ [last] /\ css = css' ++ [xs] /\ h !! last = Some b
    /\ next b = None /\ buf_ok b xs.
Proof.
  induction 1 as [b xs Hl Hn Hb|id id' b xs ids css Hl Hn Hb Hid Hc (ids' & css' & b' & xs' & -> & -> & ?)].
  - by exists [], [], b, xs.
  - by exists (id :: ids'), (xs :: css'), b', xs'.
Qed.

(** The last buffer can be replaced by one that holds something else. *)
Lemma chain_update_last h last id ids css xs b' xs' :
  chain h last id ids (css ++ [xs]) -> next b' = None -> buf_ok b' xs' ->
  chain (<[last := b']> h) last id ids (css ++ [xs']).
Proof.
  intros Hc Hn Hb. remember (css ++ [xs]) as cs eqn:E. revert css E.
  induction Hc as [b0 xs0 Hl Hn0 Hb0|id id' b0 xs0 ids cs Hl Hn0 Hb0 Hid Hc IH]; intros css E.
  - destruct css as [|? [|]]; [|discriminate..]. apply chain_last with b'; [by rewrite lookup_insert_eq|done|done].
  - destruct css as [|y css].
    { injection E as -> ->. inversion Hc. }
    injection E as -> ->. pose proof (chain_split _ _ _ _ _ Hc) as (ids' & css' & b1 & xs1 & Eids & _ & _).
    apply chain_next with id' b0; [|done|done|done|by apply IH].
    rewrite lookup_insert_ne; [done|]. subst ids. set_solver.
Qed.

(** A new buffer can be linked behind the last one. *)
Lemma chain_extend h last id ids css new b :
  chain h last id ids css -> h !! new = None -> h !! last = Some b ->
  chain (<[last := FCB (bottom b) (top b) (list_ b) (Some new)]> (<[new := new_buffer]> h))
    new id (ids ++ [new]) (css ++ [[]]).
Proof.
  intros Hc Hnew Hlast.
  assert (Hne : last <> new) by (intros ->; congruence).
  assert (Hin : new ∉ ids).
  { clear Hlast Hne. induction Hc as [b0 xs Hl Hn0 Hb0|id id' b0 xs ids css Hl Hn0 Hb0 Hid Hc IH].
    - intros ->%list_elem_of_singleton. congruence.
    - intros [->|Hin]%elem_of_cons; [congruence|by apply IH]. }
  induction Hc as [b0 xs Hl Hn0 Hb0|id id' b0 xs ids css Hl Hn0 Hb0 Hid Hc IH].
  - rewrite Hlast in Hl. injection Hl as ->. apply chain_next with new (FCB (bottom b0) (top b0) (list_ b0) (Some new)).
    + by rewrite lookup_insert_eq.
    + done.
    + by destruct Hb0; split.
    + set_solver.
    + apply chain_last with new_buffer; [|done|apply new_buffer_ok].
      by rewrite lookup_insert_ne, lookup_insert_eq.
  - pose proof (chain_split _ _ _ _ _ Hc) as (ids' & css' & b1 & xs1 & Eids & _ & _).
    apply chain_next with id' b0; [|done|done| |apply IH; set_solver].
    + rewrite !lookup_insert_ne; [done|set_solver|subst ids; set_solver].
    + set_solver.
Qed.

Lemma rep_head q ys :
  rep q ys ->
  exists b xs ids css, store q !! head_ q = Some b /\ buf_ok b xs /\ next b = None
    /\ chain (store q) (head_ q) (tail_ q) ids (css ++ [xs]) /\ ys = concat css ++ xs
    /\ (css = [] \/ Forall (fun xs => xs <> []) (css ++ [xs])).
Proof.
  intros (ids & css & Hc & -> & Hne & _).
  destruct (chain_split _ _ _ _ _ Hc) as (ids' & css' & b & xs & -> & -> & Hb & Hn & Hok).
  exists b, xs, (ids' ++ [head_ q]), css'. do 4 (split; [done|]). split.
  - by rewrite concat_app, concat_cons, concat_nil, app_nil_r.
  - destruct Hne as [Hl|?]; [left|by right]. rewrite length_app in Hl. destruct css'; [done|simpl in Hl; lia].
Qed.

Lemma new_queue_rep : rep new_queue [].
Proof.
  exists [O], [[]]. split; [|split; [done|split; [by left|]]].
  - apply chain_last with new_buffer; [done|done|apply new_buffer_ok].
  - intros id b. cbn. intros [<- _]%lookup_singleton_Some. lia.
Qed.

Lemma isEmpty_rep q ys : rep q ys -> isEmpty q = match ys with [] => true | _ => false end.
Proof.
  intros Hr. destruct (rep_head q ys Hr) as (b & xs & ids & css & Hb & Hok & _ & _ & -> & Hne).
  unfold isEmpty, deref. rewrite Hb. cbn. rewrite (buf_isEmpty_ok b xs Hok).
  destruct Hne as [->|Hne]; [done|]. apply Forall_app in Hne as [_ Hx]. apply Forall_cons in Hx as [Hx _].
  destruct xs; [done|]. by destruct (concat css).
Qed.

Lemma grow_rep q ys :
  rep q ys -> buf_isFull (deref q (head_ q)) = true ->
  exists ids css, chain (store (grow q)) (head_ (grow q)) (tail_ (grow q)) ids (css ++ [[]])
    /\ ys = concat css /\ Forall (fun xs => xs <> []) css
    /\ (forall id b, store (grow q) !! id = Some b -> (id < allocated (grow q))%nat).
Proof.
  intros Hr Hfull. pose proof Hr as (ids0 & css0 & Hc0 & Hys & _ & Hal).
  destruct (rep_head q ys Hr) as (b & xs & ids & css & Hb & Hok & _ & Hc & Eys & Hne).
  unfold deref in Hfull. rewrite Hb in Hfull. cbn in Hfull. rewrite (buf_isFull_ok b xs Hok) in Hfull.
  apply Z.eqb_eq in Hfull.
  assert (Hnew : store q !! allocated q = None).
  { destruct (store q !! allocated q) as [b'|] eqn:E; [|done]. apply Hal in E. lia. }
  exists (ids ++ [allocated q]), (css ++ [xs]). unfold grow, deref. rewrite Hb. cbn.
  split; [by apply chain_extend|]. split; [|split].
  - by rewrite concat_app, concat_cons, concat_nil, app_nil_r.
  - destruct Hne as [->|?]; [|done]. constructor; [|constructor]. intros ->.
    change (len (@nil (option A))) with 0 in Hfull. done.
  - intros id b0. destruct (decide (id = head_ q)) as [->|].
    + intros _. apply Hal in Hb. lia.
    + rewrite lookup_insert_ne by done. destruct (decide (id = allocated q)) as [->|].
      * lia.
      * rewrite lookup_insert_ne by done. intros E%Hal. lia.
Qed.

Lemma push_rep q ys a : rep q ys -> rep (push q a) (ys ++ [a]).
Proof.
  intros Hr. unfold push. destruct (buf_isFull (deref q (head_ q))) eqn:Hfull.
  - destruct (grow_rep q ys Hr Hfull) as (ids & css & Hc & -> & Hne & Hal).
    set (g := grow q) in *.
    destruct (chain_split _ _ _ _ _ Hc) as (ids' & css' & b & xs & _ & E & Hb & Hn & Hok).
    apply app_inj_tail in E as [_ <-].
    unfold deref, assign. rewrite Hb. cbn [from_option id]. exists ids, (css ++ [[a]]). split; [|split; [|split]].
    + eapply chain_update_last; [exact Hc|done|]. by apply (buf_push_ok b [] a Hok).
    + by rewrite concat_app, concat_cons, concat_nil, app_nil_r.
    + right. apply Forall_app. split; [done|]. by repeat constructor.
    + cbn. intros id b0. destruct (decide (id = head_ g)) as [->|]; [intros _; by eapply Hal|].
      rewrite lookup_insert_ne by done. apply Hal.
  - pose proof Hr as (_ & _ & _ & _ & _ & Hal).
    destruct (rep_head q ys Hr) as (b & xs & ids & css & Hb & Hok & Hn & Hc & -> & Hne).
    unfold deref, assign in *. rewrite Hb in Hfull |- *. cbn [from_option id] in *.
    rewrite (buf_isFull_ok b xs Hok) in Hfull. apply Z.eqb_neq in Hfull.
    exists ids, (css ++ [xs ++ [a]]). split; [|split; [|split]].
    + eapply chain_update_last; [exact Hc|done|]. apply buf_push_ok; [done|].
      pose proof (bo_room _ _ Hok). unfold kSize in *. lia.
    + by rewrite concat_app, concat_cons, concat_nil, app_nil_r, app_assoc.
    + destruct Hne as [->|Hne]; [by left|right]. apply Forall_app in Hne as [Hne _].
      apply Forall_app. split; [done|]. constructor; [by destruct xs|constructor].
    + cbn. intros id b0. destruct (decide (id = head_ q)) as [->|]; [intros _; by eapply Hal|].
      rewrite lookup_insert_ne by done. apply Hal.
Qed.

Lemma if_same {X} (c : bool) (x : X) : (if c then x else x) = x.
Proof. by destruct c. Qed.

Lemma shift_rep q ys : rep q ys -> rep (fst (shift q)) (shifted ys) /\ snd (shift q) = mjoin (head ys).
Proof.
  intros (ids & css & Hc & -> & Hne & Hal). unfold shift, assign.
  assert (Hal' : forall b id b0, (<[tail_ q := b]> (store q)) !! id = Some b0 -> is_Some (store q !! tail_ q) ->
                   (id < allocated q)%nat).
  { intros b id b0 E [b1 Hb1]. destruct (decide (id = tail_ q)) as [->|]; [by eapply Hal|].
    rewrite lookup_insert_ne in E by done. by eapply Hal. }
  inversion Hc as [b xs Hl Hn Hb Eh Ei Ec|i0 id' b xs ids' css' Hl Hn Hb Hid Hc' Eh Ei Ec].
  - rewrite <- Eh in *. unfold deref. rewrite Hl. cbn [from_option id].
    destruct (buf_shift_ok b xs Hb) as (Hb' & Hs & Hn'). destruct (buf_shift b) as [b1 r]. cbn [fst snd] in *.
    cbn [store head_ tail_ allocated]. rewrite lookup_insert_eq. cbn [from_option id].
    rewrite Hn', Hn, if_same.
    cbn [fst snd]. rewrite concat_cons, concat_nil, app_nil_r. split; [|done].
    exists [head_ q], [shifted xs]. split; [|split; [|split]].
    + cbn [store head_ tail_]. apply chain_last with b1; [by rewrite lookup_insert_eq|congruence|done].
    + by rewrite concat_cons, concat_nil, app_nil_r.
    + by left.
    + cbn. intros i b0 E. eapply Hal'; [exact E|by eexists].
  - unfold deref. rewrite Hl. cbn [from_option id].
    destruct (buf_shift_ok b xs Hb) as (Hb' & Hs & Hn'). destruct (buf_shift b) as [b1 r]. cbn [fst snd] in *.
    cbn [store head_ tail_ allocated]. rewrite lookup_insert_eq. cbn [from_option id].
    rewrite Hn', Hn, (buf_isEmpty_ok _ _ Hb').
    assert (Hall : Forall (fun xs => xs <> []) (xs :: css')).
    { destruct Hne as [Hne|Hne]; [|by rewrite <- Ec in Hne]. rewrite <- Ec in Hne.
      inversion Hc'; subst; done. }
    apply Forall_cons in Hall as [Hx Hall].
    assert (Hcat : shifted (concat (xs :: css')) = shifted xs ++ concat css' /\ head (concat (xs :: css')) = head xs)
      by (by destruct xs as [|[x|] xs]).
    destruct Hcat as [-> ->].
    assert (Hc1 : chain (<[tail_ q := b1]> (store q)) (head_ q) id' ids' css') by (by apply chain_frame).
    destruct (shifted xs) as [|y ys]; cbn [fst snd].
    + split; [|done]. exists ids', css'. split; [done|]. split; [done|]. split; [by right|].
      cbn. intros i b0 E. eapply Hal'; [exact E|by eexists].
    + split; [|done]. exists (tail_ q :: ids'), ((y :: ys) :: css'). split; [|split; [done|split]].
      * cbn [store head_ tail_]. apply chain_next with id' b1; [by rewrite lookup_insert_eq|congruence|done|done|done].
      * right. by constructor.
      * cbn. intros i b0 E. eapply Hal'; [exact E|by eexists].
Qed.

(** Values that are not [undefined] leave in the order in which they came. *)
Definition rep_values (q : FixedQueue) (ys : list A) : Prop := rep q (Some <$> ys).

Lemma isEmpty_rep_values q ys : rep_values q ys -> isEmpty q = match ys with [] => true | _ => false end.
Proof. intros Hr. rewrite (isEmpty_rep q _ Hr). by destruct ys. Qed.

Lemma push_rep_values q ys a : rep_values q ys -> rep_values (push q (Some a)) (ys ++ [a]).
Proof. intros Hr. unfold rep_values. rewrite fmap_app. by apply push_rep. Qed.

Lemma shift_rep_values q ys : rep_values q ys -> rep_values (fst (shift q)) (tail ys) /\ snd (shift q) = head ys.
Proof. intros Hr. destruct (shift_rep q _ Hr) as [Hr' ->]. by destruct ys. Qed.
End Model.

(** ** The queue implements its interface *)

#[export] Instance FixedQueue_Fifo (A : Type) : Fifo (FixedQueue (A := A)) A := {|
  fifo_new := new_queue;
  fifo_isEmpty := isEmpty;
  fifo_push q a := push q (Some a);
  fifo_shift := shift;
  fifo_rep := rep_values;
  fifo_new_rep := new_queue_rep;
  fifo_isEmpty_rep := isEmpty_rep_values;
  fifo_push_rep := push_rep_values;
  fifo_shift_rep := shift_rep_values
|}.

(** A sequence of operations on the queue, and on a list; an item can be
    [undefined] ([None]). *)
Inductive queue_op (A : Type) := OPush (data : option A) | OShift.
Arguments OPush {A} data.
Arguments OShift {A}.

Fixpoint run_queue {A} (ops : list (queue_op A)) (q : FixedQueue) : FixedQueue * list (option A) :=
  match ops with
  | [] => (q, [])
  | OPush data :: ops => run_queue ops (push q data)
  | OShift :: ops =>
      let '(q, r) := shift q in
      let '(q, rs) := run_queue ops q in (q, r :: rs)
  end.

(** The list gives its first item, unless that is [undefined]: then [shift] returns
    [null], as for an empty list, and the item stays. *)
Fixpoint run_list {A} (ops : list (queue_op A)) (xs : list (option A)) : list (option A) * list (option A) :=
  match ops with
  | [] => (xs, [])
  | OPush data :: ops => run_list ops (xs ++ [data])
  | OShift :: ops =>
      let '(r, xs) := match xs with Some x :: xs => (Some x, xs) | _ => (None, xs) end in
      let '(ys, rs) := run_list ops xs in (ys, r :: rs)
  end.

Lemma run_queue_rep {A} (ops : list (queue_op A)) q xs :
  rep q xs ->
  rep (fst (run_queue ops q)) (fst (run_list ops xs)) /\ snd (run_queue ops q) = snd (run_list ops xs).
Proof.
  revert q xs. induction ops as [|[a|] ops IH]; intros q xs Hr; cbn [run_queue run_list]; [done| |].
  - by apply IH, push_rep.
  - destruct (shift_rep q xs Hr) as [Hr' Hs]. destruct (shift q) as [q' r]. cbn [fst snd] in *.
    destruct (IH q' (shifted xs) Hr') as [Hr2 Hs2].
    destruct xs as [|[x|] xs]; cbn in Hs, Hr2, Hs2; subst r; cbn [shifted] in *;
      (destruct (run_queue ops q'), (run_list ops _); cbn [fst snd] in *; by subst).
Qed.

(** C2: the linked circular buffers refine a list: whatever sequence of [push],
    of any data, and [shift] is run on a new queue, the values [shift] returns
    (with [null] on an empty queue) and the answer of [isEmpty] at the end are
    those of a first-in first-out list; only an [undefined] that was pushed is
    never given out: when it is the first item, [shift] returns [null] and
    leaves it there. *)
Theorem FixedQueue_refines_fifo {A} (ops : list (queue_op A)) :
  let '(q, rs) := run_queue ops new_queue in
  let '(xs, rs') := run_list ops [] in
  rs = rs' /\ isEmpty q = match xs with [] => true | _ => false end.
Proof.
  pose proof (run_queue_rep ops new_queue [] new_queue_rep) as [Hr Hs].
  destruct (run_queue ops new_queue), (run_list ops []). cbn [fst snd] in *.
  split; [done|]. by apply isEmpty_rep.
Qed.
