(* ===== verification/NextTick.v ===== *)
(** * [process.nextTick]: [_next_tick.ts]

    The queue is used through the interface [Fifo] only.  What user code does
    is a parameter: a callback, given its arguments and the user's state,
    changes that state, calls [nextTick] a number of times and returns or
    throws; [core.runMicrotasks] does the same without throwing. *)

From S2P Require Import Prelude FixedQueue.

Section NextTick.
(** Functions, and what a callback can throw. *)
Context {F E : Type}.

Record Tock := { callback : F; args : option (list jsval) }.

Context {Q : Type} `{!Fifo Q Tock}.

(** A callback that was scheduled, or run with its arguments. *)
Inductive event := Scheduled (f : F) (a : list jsval) | Ran (f : F) (a : list jsval).

(** The module's variables, [core]'s tick flag, and what happened so far. *)
Record tick_state := TS {
  nextTickEnabled : bool;
  exiting : bool;
  queue : Q;
  hasTickScheduled : bool;
  trace : list event
}.

Definition enableNextTick (st : tick_state) : tick_state :=
  TS true (exiting st) (queue st) (hasTickScheduled st) (trace st).

(** The loop of the default case: [args_[i] = args[i]], [n] iterations left. *)
Fixpoint copy_args (args args_ : list jsval) (n i : nat) : list jsval :=
  match n with
  | O => args_
  | S n' => copy_args args (<[i := default JUndefined (args !! i)]> args_) n' (S i)
  end.

Definition tick_args (args : list jsval) : option (list jsval) :=
  match args with
  | [] => None
  | [a] => Some [a]
  | [a; b] => Some [a; b]
  | [a; b; c] => Some [a; b; c]
  | _ => Some (copy_args args (replicate (length args) JUndefined) (length args) O)
  end.

(** [inr] is a callback that is not a function. *)
Definition nextTick (st : tick_state) (callback : F + jsval) (args : list jsval)
    : tick_state * result unit :=
  if negb (nextTickEnabled st) then (st, Ok tt)
  else
    match callback with
    | inr v => (st, Throw (ERR_INVALID_ARG_TYPE "callback" ["Function"] v))
    | inl f =>
        if exiting st then (st, Ok tt)
        else
          let args_ := tick_args args in
          let flag := if fifo_isEmpty (queue st) then true else hasTickScheduled st in
          (TS (nextTickEnabled st) (exiting st)
              (fifo_push (queue st) {| callback := f; args := args_ |}) flag
              (trace st ++ [Scheduled f args]), Ok tt)
    end.

(** The arguments the callback of a tock is called with. *)
Definition call_args (args : option (list jsval)) : list jsval :=
  match args with
  | None => []
  | Some [a] => [a]
  | Some [a; b] => [a; b]
  | Some [a; b; c] => [a; b; c]
  | Some [a; b; c; d] => [a; b; c; d]
  | Some args => args
  end.

(** The user's state and code: the calls of [nextTick] it makes, in order. *)
Context {U : Type}.
Context (call : F -> list jsval -> U -> list (F * list jsval) * U * option E).
Context (runMicrotasks : U -> list (F * list jsval) * U).

Definition do_calls (st : tick_state) (calls : list (F * list jsval)) : tick_state :=
  foldl (fun st '(f, a) => fst (nextTick st (inl f) a)) st calls.

(** [while (tock = queue.shift())]; [None] when the fuel runs out, otherwise
    the states and what was thrown, if anything. *)
Fixpoint drain (fuel : nat) (st : tick_state) (u : U) : option (tick_state * U * option E) :=
  match fuel with
  | O => None
  | S fuel =>
      let '(q, tock) := fifo_shift (queue st) in
      let st := TS (nextTickEnabled st) (exiting st) q (hasTickScheduled st) (trace st) in
      match tock with
      | None => Some (st, u, None)
      | Some tock =>
          let a := call_args (args tock) in
          let '(calls, u, thrown) := call (callback tock) a u in
          let st := TS (nextTickEnabled st) (exiting st) (queue st) (hasTickScheduled st)
                       (trace st ++ [Ran (callback tock) a]) in
          let st := do_calls st calls in
          match thrown with
          | Some e => Some (st, u, Some e)
          | None => drain fuel st u
          end
      end
  end.

Fixpoint processTicksAndRejections (fuel : nat) (st : tick_state) (u : U)
    : option (tick_state * U * option E) :=
  match fuel with
  | O => None
  | S fuel =>
      match drain fuel st u with
      | None => None
      | Some (st, u, Some e) => Some (st, u, Some e)
      | Some (st, u, None) =>
          let '(calls, u) := runMicrotasks u in
          let st := do_calls st calls in
          if negb (fifo_isEmpty (queue st)) then processTicksAndRejections fuel st u
          else Some (TS (nextTickEnabled st) (exiting st) (queue st) false (trace st), u, None)
      end
  end.

Definition runNextTicks (fuel : nat) (st : tick_state) (u : U) : option (tick_state * U * option E) :=
  if negb (hasTickScheduled st) then
    let '(calls, u) := runMicrotasks u in
    Some (do_calls st calls, u, None)
  else processTicksAndRejections fuel st u.

(** ** Arguments *)

Lemma copy_args_spec args done rest :
  args = done ++ rest ->
  copy_args args (done ++ replicate (length rest) JUndefined) (length rest) (length done) = args.
Proof.
  revert done. induction rest as [|a rest IH]; intros done ->; cbn [length copy_args replicate].
  - by rewrite app_nil_r.
  - rewrite list_lookup_middle by done. cbn [default].
    rewrite insert_app_r_alt, Nat.sub_diag by lia. cbn.
    specialize (IH (done ++ [a])). rewrite <- app_assoc, length_app, Nat.add_comm in IH. cbn in IH.
    specialize (IH eq_refl). by rewrite <- app_assoc in IH.
Qed.

(** A callback gets exactly the arguments given to [nextTick]. *)
Lemma call_tick_args args : call_args (tick_args args) = args.
Proof.
  unfold tick_args. destruct args as [|a [|b [|c [|d args]]]]; [done..|].
  pose proof (copy_args_spec (a :: b :: c :: d :: args) [] (a :: b :: c :: d :: args) eq_refl) as E'.
  cbn [app length] in E' |- *. rewrite E'. by destruct args.
Qed.

(** ** What is pending *)

Definition view (t : Tock) : F * list jsval := (callback t, call_args (args t)).

Definition scheduled (tr : list event) : list (F * list jsval) :=
  omap (fun e => match e with Scheduled f a => Some (f, a) | Ran _ _ => None end) tr.
Definition ran (tr : list event) : list (F * list jsval) :=
  omap (fun e => match e with Ran f a => Some (f, a) | Scheduled _ _ => None end) tr.

(** The callbacks that are waiting, in the order they will run. *)
Definition pending (st : tick_state) (ps : list (F * list jsval)) : Prop :=
  exists ts, fifo_rep (queue st) ts /\ ps = view <$> ts.

(** The conditions under which [nextTick] schedules anything. *)
Definition active (st : tick_state) : Prop := nextTickEnabled st = true /\ exiting st = false.

(** What was scheduled and what was waiting at the start has run or waits, in
    that order; something that waits has set the flag. *)
Record tick_inv (start : list (F * list jsval)) (st : tick_state) (ps : list (F * list jsval)) : Prop := {
  ti_pending : pending st ps;
  ti_active : active st;
  ti_order : start ++ scheduled (trace st) = ran (trace st) ++ ps;
  ti_flag : ps <> [] -> hasTickScheduled st = true
}.

Lemma nextTick_inv start st ps f a :
  tick_inv start st ps -> tick_inv start (fst (nextTick st (inl f) a)) (ps ++ [(f, a)]).
Proof.
  intros [(ts & Hrep & ->) [He Hx] Hord Hfl]. unfold nextTick. rewrite He, Hx. cbn [negb fst].
  split.
  - exists (ts ++ [{| callback := f; args := tick_args a |}]). split; [by apply fifo_push_rep|].
    rewrite fmap_app. cbn. unfold view. cbn. by rewrite call_tick_args.
  - done.
  - cbn [trace]. unfold scheduled, ran in *. rewrite !omap_app. cbn. rewrite app_nil_r, !app_assoc. by rewrite Hord.
  - intros _. cbn [hasTickScheduled]. rewrite (fifo_isEmpty_rep _ _ Hrep). destruct ts; [done|]. by apply Hfl.
Qed.

Lemma do_calls_inv start st ps calls :
  tick_inv start st ps -> tick_inv start (do_calls st calls) (ps ++ calls).
Proof.
  revert st ps. induction calls as [|[f a] calls IH]; intros st ps Hi; [by rewrite app_nil_r|].
  cbn [do_calls foldl]. apply (nextTick_inv _ _ _ f a), IH in Hi. by rewrite <- app_assoc in Hi.
Qed.

(** ** What the loops keep *)

Lemma run_inv start st ps t ts q f calls :
  tick_inv start st ps -> ps = view <$> t :: ts -> fifo_rep q ts -> f = call_args (args t) ->
  tick_inv start (do_calls (TS (nextTickEnabled st) (exiting st) q (hasTickScheduled st) (trace st ++ [Ran (callback t) f])) calls)
    ((view <$> ts) ++ calls).
Proof.
  intros [_ Hact Hord Hfl] -> Hrep ->. apply do_calls_inv. split; [by exists ts|done| |intros _; by apply Hfl].
  cbn [trace]. unfold scheduled, ran in *. rewrite !omap_app. cbn. rewrite app_nil_r, <- app_assoc. done.
Qed.

Lemma drain_inv fuel start st ps u st' u' thrown :
  tick_inv start st ps -> drain fuel st u = Some (st', u', thrown) ->
  exists ps', tick_inv start st' ps' /\ (thrown = None -> ps' = []).
Proof.
  revert st ps u. induction fuel as [|fuel IH]; intros st ps u Hinv; [done|].
  cbn [drain]. pose proof Hinv as [(ts & Hrep & Hps) Hact Hord Hfl].
  destruct (fifo_shift_rep _ _ Hrep) as [Hrep' Hsh]. destruct (fifo_shift (queue st)) as [q r].
  cbn [fst snd] in *. destruct ts as [|t ts]; cbn in Hsh; subst r.
  - intros [= <- <- <-]. subst ps. exists []. split; [|done]. split; [by exists []|done|done|done].
  - destruct (call (callback t) (call_args (args t)) u) as [[calls u1] th].
    pose proof (run_inv start st ps t ts q _ calls Hinv Hps Hrep' eq_refl) as Hinv1.
    destruct th as [e|]; [intros [= <- <- <-]; by eexists|]. by apply IH with (ps := (view <$> ts) ++ calls).
Qed.

Lemma process_inv fuel start st ps u st' u' thrown :
  tick_inv start st ps -> processTicksAndRejections fuel st u = Some (st', u', thrown) ->
  exists ps', tick_inv start st' ps' /\ (thrown = None -> ps' = [] /\ hasTickScheduled st' = false).
Proof.
  revert st ps u. induction fuel as [|fuel IH]; intros st ps u Hinv; [done|]. cbn [processTicksAndRejections].
  destruct (drain fuel st u) as [[[st1 u1] [e|]]|] eqn:Ed; [| |done].
  - intros [= <- <- <-]. destruct (drain_inv _ _ _ _ _ _ _ _ Hinv Ed) as (ps' & Hi & _). by exists ps'.
  - destruct (drain_inv _ _ _ _ _ _ _ _ Hinv Ed) as (ps1 & Hi & Hn). rewrite (Hn eq_refl) in Hi.
    destruct (runMicrotasks u1) as [calls u2]. apply (do_calls_inv _ _ _ calls) in Hi. cbn [app] in Hi.
    pose proof Hi as [(ts & Hrep & Hts) Hact Hord Hfl]. rewrite (fifo_isEmpty_rep _ _ Hrep).
    destruct ts as [|t ts]; cbn [negb]; [|by apply IH with (ps := calls)]. intros [= <- <- <-]. exists [].
    split; [|done]. split; [by exists []|done| |done]. cbn [trace]. rewrite Hord. by f_equal.
Qed.

(** ** Running everything

    The loops end when user code does not schedule callbacks for ever: there is
    a weight for callbacks and a potential for the user's state such that a run
    makes the total smaller and microtasks do not make it larger. *)

Section Settles.
Context (weight : F * list jsval -> nat) (potential : U -> nat).

Definition total (ps : list (F * list jsval)) (u : U) : nat :=
  (sum_list (weight <$> ps) + potential u)%nat.

Definition settles : Prop :=
  (forall f a u calls u' thrown, call f a u = (calls, u', thrown) ->
     (sum_list (weight <$> calls) + potential u' < weight (f, a) + potential u)%nat)
  /\ (forall u calls u', runMicrotasks u = (calls, u') -> (sum_list (weight <$> calls) + potential u' <= potential u)%nat).

Hypothesis user_settles : settles.

Lemma sum_list_app_nat (x y : list nat) : sum_list (x ++ y) = (sum_list x + sum_list y)%nat.
Proof. induction x as [|n x IH]; [done|]. cbn [app sum_list]. rewrite IH. lia. Qed.

Lemma total_app ps calls u u' x :
  (sum_list (weight <$> calls) + potential u' < x + potential u)%nat ->
  (total (ps ++ calls) u' < x + total ps u)%nat.
Proof. unfold total. rewrite fmap_app, sum_list_app_nat. lia. Qed.

Lemma drain_ends fuel start st ps u :
  tick_inv start st ps -> (total ps u < fuel)%nat ->
  exists st' u' thrown,
    drain fuel st u = Some (st', u', thrown)
    /\ (thrown = None -> (total [] u' <= total ps u)%nat /\ (ps <> [] -> (total [] u' < total ps u)%nat)).
Proof.
  destruct user_settles as [call_decreases _].
  revert st ps u. induction fuel as [|fuel IH]; intros st ps u Hinv Hfuel; [lia|].
  cbn [drain]. pose proof Hinv as [(ts & Hrep & Hps) Hact Hord Hfl].
  destruct (fifo_shift_rep _ _ Hrep) as [Hrep' Hsh]. destruct (fifo_shift (queue st)) as [q r].
  cbn [fst snd] in *. destruct ts as [|t ts]; cbn in Hsh; subst r.
  - subst ps. eexists _, _, _. split; [done|]. done.
  - destruct (call (callback t) (call_args (args t)) u) as [[calls u1] thrown] eqn:Ec.
    pose proof (call_decreases _ _ _ _ _ _ Ec) as Hdec.
    pose proof (run_inv start st ps t ts q _ calls Hinv Hps Hrep' eq_refl) as Hinv1.
    assert (Hsm : (total ((view <$> ts) ++ calls) u1 < total ps u)%nat).
    { eapply Nat.lt_le_trans; [apply (total_app _ _ u), Hdec|]. subst ps. unfold total. cbn. unfold view. lia. }
    destruct thrown as [e|]; [by eexists _, _, _|].
    destruct (IH _ _ u1 Hinv1) as (st' & u' & th & E' & Hle); [lia|].
    eexists st', u', th. split; [exact E'|]. intros Hth. destruct (Hle Hth). split; [lia|]. intros _. lia.
Qed.

Lemma process_ends fuel start st ps u :
  tick_inv start st ps -> (total ps u + (if bool_decide (ps = []) then 2 else 1) < fuel)%nat ->
  exists r, processTicksAndRejections fuel st u = Some r.
Proof.
  destruct user_settles as [_ microtasks_decrease].
  revert st ps u. induction fuel as [|fuel IH]; intros st ps u Hinv Hfuel; [lia|]. cbn [processTicksAndRejections].
  destruct (drain_ends fuel start st ps u Hinv) as (st1 & u1 & th & Ed & Hle); [destruct (bool_decide (ps = [])); lia|].
  destruct (drain_inv _ _ _ _ _ _ _ _ Hinv Ed) as (ps1 & Hi1 & Hth). rewrite Ed.
  destruct th as [e|]; [by eexists|]. rewrite (Hth eq_refl) in Hi1. destruct (Hle eq_refl) as [Hle' Hlt].
  destruct (runMicrotasks u1) as [calls u2] eqn:Em. pose proof (microtasks_decrease _ _ _ Em) as Hm.
  apply (do_calls_inv _ _ _ calls) in Hi1. cbn [app] in Hi1.
  pose proof Hi1 as [(ts & Hrep & Hts) Hact Hord Hfl]. rewrite (fifo_isEmpty_rep _ _ Hrep).
  destruct ts as [|t ts]; cbn [negb]; [by eexists|].
  apply (IH _ calls); [done|]. rewrite (bool_decide_eq_false_2 (calls = [])) by (by rewrite Hts).
  unfold total in *. cbn in *. case_bool_decide; [lia|]. specialize (Hlt ltac:(done)). lia.
Qed.
End Settles.

(** C3: Once [nextTick] is enabled and while the process is not exiting, from a
    state in which the tick flag is set if a callback waits, as [nextTick] leaves
    it: [processTicksAndRejections] runs the callbacks in the order they were
    scheduled, those scheduled by callbacks and microtasks included, each with
    the arguments it was scheduled with, whatever user code does: when it
    returns, nothing is left to run and the tick flag is cleared, and when a
    callback throws, the remaining ones, if any, stay in the queue in order with
    the flag set, for the next run.  It does return or throw if user code settles, that
    is, does not schedule callbacks for ever: some weight of the waiting
    callbacks becomes smaller with every callback and not larger with
    microtasks. *)
Theorem processTicks_runs_in_order (st : tick_state) (ps : list (F * list jsval)) (u : U) :
  active st -> pending st ps -> (ps <> [] -> hasTickScheduled st = true) -> trace st = [] ->
  (forall fuel st' u' thrown, processTicksAndRejections fuel st u = Some (st', u', thrown) ->
     exists ps', pending st' ps'
       /\ ps ++ scheduled (trace st') = ran (trace st') ++ ps'
       /\ (thrown = None -> ps' = [] /\ hasTickScheduled st' = false)
       /\ (ps' <> [] -> hasTickScheduled st' = true))
  /\ (forall weight potential fuel, settles weight potential -> (total weight potential ps u + 2 < fuel)%nat ->
     exists r, processTicksAndRejections fuel st u = Some r).
Proof.
  intros Hact Hp Hfl Htr.
  assert (Hinv : tick_inv ps st ps) by (split; [done|done| |done]; rewrite Htr; cbn; by rewrite app_nil_r).
  split.
  - intros fuel st' u' thrown E'. destruct (process_inv _ _ _ _ _ _ _ _ Hinv E') as (ps' & [Hp' _ Hord Hfl'] & Hth). by exists ps'.
  - intros weight potential fuel Hs Hfuel. apply (process_ends weight potential Hs fuel ps st ps u Hinv).
    destruct (bool_decide (ps = [])); lia.
Qed.

(** with a callback waiting, [runNextTicks] does what
    [processTicksAndRejections] does, and without one it runs the microtasks
    only; the flag it looks at is set whenever a callback waits, because
    [nextTick] keeps it so. *)
Theorem runNextTicks_flag (st : tick_state) (ps : list (F * list jsval)) (cb : F + jsval)
    (a : list jsval) (u : U) (fuel : nat) :
  pending st ps -> (ps <> [] -> hasTickScheduled st = true) ->
  let st' := fst (nextTick st cb a) in
  exists ps', pending st' ps' /\ (ps' <> [] -> hasTickScheduled st' = true)
    /\ (ps' <> [] -> runNextTicks fuel st' u = processTicksAndRejections fuel st' u)
    /\ ps' = ps ++ match cb with
                   | inl f => if nextTickEnabled st && negb (exiting st) then [(f, a)] else []
                   | inr _ => []
                   end
    /\ snd (nextTick st cb a)
       = match cb with
         | inr v => if nextTickEnabled st
                    then Throw (ERR_INVALID_ARG_TYPE "callback" ["Function"] v) else Ok tt
         | inl _ => Ok tt
         end.
Proof.
  intros Hp Hfl st'. subst st'. unfold runNextTicks.
  assert (Hrun : forall st2 (ps2 : list (F * list jsval)), (ps2 <> [] -> hasTickScheduled st2 = true) -> ps2 <> [] ->
            (if negb (hasTickScheduled st2) then
               let '(calls, u) := runMicrotasks u in Some (do_calls st2 calls, u, None)
             else processTicksAndRejections fuel st2 u) = processTicksAndRejections fuel st2 u).
  { intros st2 ps2 H2 Hne. by rewrite (H2 Hne). }
  unfold nextTick. destruct (nextTickEnabled st) eqn:He; cbn [negb andb].
  2:{ exists ps. cbn [fst snd]. split; [done|]. split; [done|]. split; [by apply Hrun|].
      destruct cb; by rewrite app_nil_r. }
  destruct cb as [f|v]; [|exists ps; cbn [fst snd]; split; [done|]; split; [done|]; split; [by apply Hrun|];
                         by rewrite app_nil_r].
  destruct (exiting st) eqn:Hx; cbn [negb fst snd].
  { exists ps. split; [done|]. split; [done|]. split; [by apply Hrun|]. by rewrite app_nil_r. }
  assert (Hf : hasTickScheduled (TS true false (fifo_push (queue st) {| callback := f; args := tick_args a |})
                (if fifo_isEmpty (queue st) then true else hasTickScheduled st)
                (trace st ++ [Scheduled f a])) = true).
  { destruct Hp as (ts & Hrep & ->). cbn. rewrite (fifo_isEmpty_rep _ _ Hrep). destruct ts; [done|]. by apply Hfl. }
  exists (ps ++ [(f, a)]). split; [|split; [|split; [|done]]].
  - destruct Hp as (ts & Hrep & ->). exists (ts ++ [{| callback := f; args := tick_args a |}]).
    split; [by apply fifo_push_rep|]. rewrite fmap_app. cbn. unfold view. cbn. by rewrite call_tick_args.
  - done.
  - apply Hrun. done.
Qed.
End NextTick.

(** ** An instance: a callback that schedules another one *)

Definition demo_call (f : Z) (a : list jsval) (u : unit) : list (Z * list jsval) * unit * option unit :=
  (if f =? 1 then [(2, [JNull])] else [], u, None).
Definition demo_microtasks (u : unit) : list (Z * list jsval) * unit := ([], u).
Definition demo_weight (t : Z * list jsval) : nat := if fst t =? 1 then 2 else 1.

Definition demo_start : tick_state (F := Z) (Q := FixedQueue) :=
  TS true false (fifo_push fifo_new {| callback := 1; args := None |}) true [].

Lemma demo_pending : pending demo_start [(1, [])].
Proof.
  exists [{| callback := 1; args := None |}]. split; [|done].
  apply (fifo_push_rep fifo_new []), fifo_new_rep.
Qed.

Lemma demo_decreases f a u calls u' thrown :
  demo_call f a u = (calls, u', thrown) ->
  (sum_list (demo_weight <$> calls) + 0 < demo_weight (f, a) + 0)%nat.
Proof. unfold demo_call, demo_weight. intros [= <- _ _]. cbn. destruct (f =? 1); cbn; lia. Qed.

Lemma demo_settles : settles demo_call demo_microtasks demo_weight (fun _ => O).
Proof. split; [exact demo_decreases|]. intros u calls u' [= <- _]. cbn. lia. Qed.

Lemma processTicks_runs_in_order_witness :
  exists st' u' thrown ps',
    processTicksAndRejections demo_call demo_microtasks 5 demo_start tt = Some (st', u', thrown)
    /\ pending st' ps'
    /\ [(1, [])] ++ scheduled (trace st') = ran (trace st') ++ ps'
    /\ (thrown = None -> ps' = [] /\ hasTickScheduled st' = false)
    /\ (ps' <> [] -> hasTickScheduled st' = true).
Proof.
  destruct (processTicks_runs_in_order demo_call demo_microtasks demo_start [(1, [])] tt) as [H1 H2];
    [done|apply demo_pending|done|done|].
  destruct (H2 demo_weight (fun _ => O) 5%nat demo_settles ltac:(vm_compute; lia)) as [[[st' u'] thrown] E'].
  destruct (H1 _ _ _ _ E') as (ps' & H). by exists st', u', thrown, ps'.
Defined.

Lemma runNextTicks_flag_witness :
  exists ps', pending (fst (nextTick demo_start (inl 7) [JNull])) ps'
    /\ (ps' <> [] -> hasTickScheduled (fst (nextTick demo_start (inl 7) [JNull])) = true)
    /\ (ps' <> [] ->
        runNextTicks demo_call demo_microtasks 9 (fst (nextTick demo_start (inl 7) [JNull])) tt
        = processTicksAndRejections demo_call demo_microtasks 9 (fst (nextTick demo_start (inl 7) [JNull])) tt)
    /\ ps' = [(1, [])] ++ [(7, [JNull])]
    /\ snd (nextTick demo_start (inl 7) [JNull]) = Ok tt.
Proof.
  apply (runNextTicks_flag demo_call demo_microtasks demo_start [(1, [])] (inl 7) [JNull] tt 9);
    [apply demo_pending|done].
Defined.
