(* ===== verification/Bytes.v ===== *)
(** * Bytes and 32-bit integers

    The integer operators of JavaScript at their width, stores into typed
    arrays, and the little- and big-endian values of byte sequences that the
    buffer routines are specified with.  Numbers are integers here: fractions,
    infinities and [NaN] are not modelled. *)

From S2P Require Import Prelude.

(** ** The operators *)

Definition to_uint8 (x : Z) : Z := x mod 2 ^ 8.
Definition to_uint16 (x : Z) : Z := x mod 2 ^ 16.
Definition to_uint32 (x : Z) : Z := x mod 2 ^ 32.
Definition to_int32 (x : Z) : Z :=
  if to_uint32 x <? 2 ^ 31 then to_uint32 x else to_uint32 x - 2 ^ 32.

(** [x >>> n], [x >> n], [x << n], [x | y] and [x & y]. *)
Definition ushr (x n : Z) : Z := Z.shiftr (to_uint32 x) n.
Definition sar (x n : Z) : Z := Z.shiftr (to_int32 x) n.
Definition shl (x n : Z) : Z := to_int32 (Z.shiftl (to_int32 x) n).
Definition bitor (x y : Z) : Z := Z.lor (to_int32 x) (to_int32 y).
Definition bitand (x y : Z) : Z := Z.land (to_int32 x) (to_int32 y).

(** [buf[i] = v] on a [Uint8Array]: the value modulo 256; a store out of range
    does nothing. *)
Definition store (buf : list Z) (i v : Z) : list Z :=
  if (0 <=? i) && (i <? len buf) then <[Z.to_nat i := to_uint8 v]> buf else buf.

(** [buf[i]] where the index is known to be in range. *)
Definition byte_at (buf : list Z) (i : Z) : Z := default 0 (at_index buf i).

(** [dst.set(src, offset)] where [src] fits. *)
Definition set_bytes (dst src : list Z) (offset : Z) : list Z :=
  take (Z.to_nat offset) dst ++ src ++ drop (Z.to_nat offset + length src) dst.

Definition is_byte (b : Z) : Prop := 0 <= b < 256.
Definition bytes_ok (buf : list Z) : Prop := Forall is_byte buf.

(** ** Values of byte sequences *)

Fixpoint le_value (bs : list Z) : Z :=
  match bs with [] => 0 | b :: bs => b + 2 ^ 8 * le_value bs end.

Definition be_value (bs : list Z) : Z := le_value (reverse bs).

Fixpoint le_bytes (n : nat) (v : Z) : list Z :=
  match n with O => [] | S n => v mod 2 ^ 8 :: le_bytes n (v / 2 ^ 8) end.

Definition be_bytes (n : nat) (v : Z) : list Z := reverse (le_bytes n v).

(** The two's complement value of [n] bytes. *)
Definition signed (n : nat) (v : Z) : Z :=
  if v <? 2 ^ (8 * Z.of_nat n - 1) then v else v - 2 ^ (8 * Z.of_nat n).

Lemma le_bytes_length n v : length (le_bytes n v) = n.
Proof. revert v. induction n as [|n IH]; intros v; [done|]. cbn. by rewrite IH. Qed.

Lemma be_bytes_length n v : length (be_bytes n v) = n.
Proof. unfold be_bytes. by rewrite length_reverse, le_bytes_length. Qed.

Lemma le_bytes_ok n v : bytes_ok (le_bytes n v).
Proof.
  revert v. induction n as [|n IH]; intros v; [constructor|]. constructor; [|apply IH].
  apply (Z.mod_pos_bound v (2 ^ 8)). done.
Qed.

Lemma be_bytes_ok n v : bytes_ok (be_bytes n v).
Proof. apply Forall_reverse, le_bytes_ok. Qed.

Lemma pow_bytes n : 2 ^ (8 * Z.of_nat (S n)) = 2 ^ 8 * 2 ^ (8 * Z.of_nat n).
Proof. rewrite <- Z.pow_add_r by lia. f_equal. lia. Qed.

Lemma le_value_bytes n v : le_value (le_bytes n v) = v mod 2 ^ (8 * Z.of_nat n).
Proof.
  revert v. induction n as [|n IH]; intros v; [by rewrite Z.mod_1_r|].
  cbn [le_bytes le_value]. rewrite IH, pow_bytes. rewrite Z.rem_mul_r by (done || (apply Z.pow_pos_nonneg; lia)).
  done.
Qed.

Lemma be_value_bytes n v : be_value (be_bytes n v) = v mod 2 ^ (8 * Z.of_nat n).
Proof. unfold be_value, be_bytes. by rewrite reverse_involutive, le_value_bytes. Qed.

Lemma le_value_range bs : bytes_ok bs -> 0 <= le_value bs < 2 ^ (8 * len bs).
Proof.
  induction 1 as [|b bs Hb Hbs IH]; [done|]. cbn [le_value]. unfold len in *. cbn [length].
  rewrite pow_bytes. unfold is_byte in Hb. change (2 ^ 8) with 256. lia.
Qed.

Lemma le_bytes_value bs : bytes_ok bs -> le_bytes (length bs) (le_value bs) = bs.
Proof.
  induction 1 as [|b bs Hb Hbs IH]; [done|]. cbn [length le_value le_bytes]. unfold is_byte in Hb.
  rewrite (Z.mul_comm (2 ^ 8)), Z.mod_add, Z.div_add by done.
  rewrite Z.mod_small, Z.div_small by (change (2 ^ 8) with 256; lia). rewrite Z.add_0_l. by rewrite IH.
Qed.

(** A value in the signed range is what its bytes stand for. *)
Lemma signed_mod n v :
  (0 < n)%nat -> - 2 ^ (8 * Z.of_nat n - 1) <= v < 2 ^ (8 * Z.of_nat n - 1) ->
  signed n (v mod 2 ^ (8 * Z.of_nat n)) = v.
Proof.
  intros Hn Hv. unfold signed. set (h := 2 ^ (8 * Z.of_nat n - 1)) in *.
  assert (E : 2 ^ (8 * Z.of_nat n) = 2 * h).
  { unfold h. rewrite <- Z.pow_succ_r by lia. f_equal. lia. }
  rewrite E. assert (0 < h) by (apply Z.pow_pos_nonneg; lia).
  destruct (decide (0 <= v)).
  - rewrite Z.mod_small by lia. destruct (Z.ltb_spec v h); lia.
  - replace (v mod (2 * h)) with (v + 2 * h).
    + destruct (Z.ltb_spec (v + 2 * h) h); lia.
    + symmetry. rewrite <- (Z.mod_add v 1) by lia. rewrite Z.mod_small; lia.
Qed.

(** ** Stores and loads at an offset *)

Lemma at_index_at {A} (pre l : list A) k :
  0 <= k -> at_index (pre ++ l) (len pre + k) = l !! Z.to_nat k.
Proof.
  intros Hk. pose proof (len_nonneg pre). unfold at_index.
  destruct (Z.ltb_spec (len pre + k) 0); [lia|]. unfold len.
  rewrite lookup_app_r by lia. f_equal. lia.
Qed.

Lemma byte_at_at (pre l : list Z) k :
  0 <= k -> byte_at (pre ++ l) (len pre + k) = default 0 (l !! Z.to_nat k).
Proof. intros. unfold byte_at. by rewrite at_index_at. Qed.

Lemma store_at pre l k v :
  0 <= k < len l -> store (pre ++ l) (len pre + k) v = pre ++ <[Z.to_nat k := to_uint8 v]> l.
Proof.
  intros Hk. pose proof (len_nonneg pre). unfold store. rewrite len_app.
  destruct (Z.leb_spec 0 (len pre + k)); [|lia].
  destruct (Z.ltb_spec (len pre + k) (len pre + len l)); [|lia]. cbn [andb].
  unfold len in *. rewrite insert_app_r_alt by lia. do 2 f_equal. lia.
Qed.

Lemma store_length buf i v : length (store buf i v) = length buf.
Proof. unfold store. case_if; [apply length_insert|done]. Qed.

Lemma store_ok buf i v : bytes_ok buf -> bytes_ok (store buf i v).
Proof.
  intros Hb. unfold store. case_if; [|done]. apply Forall_insert; [done|].
  apply (Z.mod_pos_bound v (2 ^ 8)). done.
Qed.

(** Any [n] bytes in range are a segment of the buffer. *)
Lemma buf_segment {A} (buf : list A) off n :
  0 <= off -> off + Z.of_nat n <= len buf ->
  exists pre mid post, buf = pre ++ mid ++ post /\ len pre = off /\ length mid = n.
Proof.
  intros Ho Hn. destruct (split_len buf off) as (pre & rest & -> & <-); [lia|].
  rewrite len_app in Hn. destruct (split_len rest (Z.of_nat n)) as (mid & post & -> & Hm); [lia|].
  exists pre, mid, post. split; [done|]. split; [done|]. unfold len in Hm. lia.
Qed.

(** ** The operators as arithmetic *)

Lemma ushr_div x n : 0 <= n -> ushr x n = (x mod 2 ^ 32) / 2 ^ n.
Proof. intros. unfold ushr, to_uint32. by rewrite Z.shiftr_div_pow2. Qed.

Lemma mod_div_mod x a b c :
  0 <= a -> 0 <= c -> a + c <= b -> ((x mod 2 ^ b) / 2 ^ a) mod 2 ^ c = (x / 2 ^ a) mod 2 ^ c.
Proof.
  intros Ha Hc Hb. apply Z.bits_inj'. intros i Hi.
  destruct (decide (i < c)).
  - rewrite !Z.mod_pow2_bits_low, !Z.div_pow2_bits by lia. by rewrite Z.mod_pow2_bits_low by lia.
  - by rewrite !Z.mod_pow2_bits_high by lia.
Qed.

(** The bytes written by the sequence [value; value >>> 8; ...]. *)
Lemma byte_ushr v n : 0 <= n <= 24 -> to_uint8 (ushr v n) = (v / 2 ^ n) mod 2 ^ 8.
Proof. intros. unfold to_uint8. rewrite ushr_div, mod_div_mod by lia. done. Qed.

Lemma ushr_ushr v a b : 0 <= a -> 0 <= b -> ushr (ushr v a) b = ushr v (a + b).
Proof.
  intros. rewrite !ushr_div by lia. rewrite Z.pow_add_r, <- Z.div_div by (done || lia).
  f_equal. apply Z.mod_small. pose proof (Z.mod_pos_bound v (2 ^ 32) ltac:(done)).
  split; [apply Z.div_pos; lia|]. eapply Z.le_lt_trans; [|apply H1].
  apply Z.div_le_upper_bound; [lia|]. nia.
Qed.

Lemma to_int32_small x : - 2 ^ 31 <= x < 2 ^ 31 -> to_int32 x = x.
Proof. intros H. exact (signed_mod 4 x ltac:(lia) H). Qed.

Lemma to_int32_high x : 2 ^ 31 <= x < 2 ^ 32 -> to_int32 x = x - 2 ^ 32.
Proof.
  intros H. unfold to_int32, to_uint32. rewrite Z.mod_small by lia. destruct (Z.ltb_spec x (2 ^ 31)); lia.
Qed.

(** [last << 24] of a byte. *)
Lemma shl_24 b : is_byte b -> shl b 24 = (if b <? 2 ^ 7 then b else b - 2 ^ 8) * 2 ^ 24.
Proof.
  unfold is_byte. intros Hb. unfold shl. rewrite (to_int32_small b), Z.shiftl_mul_pow2 by lia.
  destruct (Z.ltb_spec b (2 ^ 7)).
  - apply to_int32_small. lia.
  - rewrite to_int32_high; lia.
Qed.

Lemma land_pow2 val k :
  0 <= k -> 0 <= val < 2 ^ (k + 1) -> Z.land val (2 ^ k) = if val <? 2 ^ k then 0 else 2 ^ k.
Proof.
  intros Hk Hv. assert (Hp : 2 ^ (k + 1) = 2 * 2 ^ k) by (rewrite Z.pow_add_r by lia; lia).
  apply Z.bits_inj'. intros i Hi. rewrite Z.land_spec, Z.pow2_bits_eqb by lia.
  destruct (Z.eqb_spec k i) as [<-|Hne].
  - rewrite andb_true_r, Z.testbit_eqb by lia. destruct (Z.ltb_spec val (2 ^ k)).
    + rewrite Z.div_small by lia. by rewrite Z.bits_0.
    + rewrite Z.pow2_bits_true by lia. replace (val / 2 ^ k) with 1; [done|].
      apply (Z.div_unique val (2 ^ k) 1 (val - 2 ^ k)); lia.
  - rewrite andb_false_r. destruct (val <? 2 ^ k); [by rewrite Z.bits_0|].
    by rewrite Z.pow2_bits_false.
Qed.

(** [val | (val & 2 ** k) * m], the sign extension idiom: [m] is what moves the
    sign bit over all the higher bits. *)
Lemma sign_extend val k m :
  0 <= k < 31 -> 2 ^ k * m = 2 ^ 32 - 2 ^ (k + 1) -> 0 <= val < 2 ^ (k + 1) ->
  bitor val (bitand val (2 ^ k) * m) = if val <? 2 ^ k then val else val - 2 ^ (k + 1).
Proof.
  intros Hk Hm Hv.
  assert (Hp : 2 ^ (k + 1) = 2 * 2 ^ k) by (rewrite Z.pow_add_r by lia; lia).
  assert (Hkp : 1 <= 2 ^ k <= 2 ^ 30).
  { split; [pose proof (Z.pow_pos_nonneg 2 k); lia|]. apply Z.pow_le_mono_r; lia. }
  unfold bitor, bitand. rewrite (to_int32_small val), (to_int32_small (2 ^ k)) by lia.
  rewrite land_pow2 by lia. destruct (Z.ltb_spec val (2 ^ k)).
  - rewrite Z.mul_0_l, (to_int32_small 0) by lia. apply Z.lor_0_r.
  - rewrite Hm, to_int32_high by lia.
    replace (2 ^ 32 - 2 ^ (k + 1) - 2 ^ 32) with (Z.lnot (Z.ones (k + 1)))
      by (rewrite Z.ones_equiv; unfold Z.lnot; lia).
    pose proof (Z.add_lor_land val (Z.lnot (Z.ones (k + 1)))) as E.
    rewrite <- Z.ldiff_land in E. rewrite Z.ldiff_ones_r_low in E.
    + unfold Z.lnot in *. rewrite Z.ones_equiv in *. lia.
    + lia.
    + destruct (decide (val = 0)) as [->|]; [lia|]. apply Z.log2_lt_pow2; lia.
Qed.

Lemma to_int32_mod x : to_int32 x mod 2 ^ 32 = x mod 2 ^ 32.
Proof.
  unfold to_int32, to_uint32. pose proof (Z.mod_pos_bound x (2 ^ 32) ltac:(done)).
  destruct (Z.ltb_spec (x mod 2 ^ 32) (2 ^ 31)); [by apply Z.mod_small|].
  replace (x mod 2 ^ 32 - 2 ^ 32) with (x mod 2 ^ 32 + (-1) * 2 ^ 32) by lia.
  rewrite Z.mod_add by done. by apply Z.mod_small.
Qed.

Lemma to_int32_range x : - 2 ^ 31 <= to_int32 x < 2 ^ 31.
Proof.
  unfold to_int32, to_uint32. pose proof (Z.mod_pos_bound x (2 ^ 32) ltac:(done)).
  destruct (Z.ltb_spec (x mod 2 ^ 32) (2 ^ 31)); lia.
Qed.

(** The bytes written by the sequence [lo; lo >> 8; ...]. *)
Lemma byte_sar v n : 0 <= n <= 24 -> to_uint8 (sar v n) = (v / 2 ^ n) mod 2 ^ 8.
Proof.
  intros. unfold to_uint8, sar. rewrite Z.shiftr_div_pow2 by lia.
  rewrite <- (mod_div_mod (to_int32 v) n 32 8), to_int32_mod, mod_div_mod by lia. done.
Qed.

Lemma sar_sar v a b : 0 <= a -> 0 <= b -> sar (sar v a) b = sar v (a + b).
Proof.
  intros. unfold sar at 1. rewrite (to_int32_small (sar v a)).
  - unfold sar. by rewrite Z.shiftr_shiftr by lia.
  - unfold sar. rewrite Z.shiftr_div_pow2 by lia. pose proof (to_int32_range v).
    assert (1 <= 2 ^ a) by (pose proof (Z.pow_pos_nonneg 2 a); lia).
    split; [apply Z.div_le_lower_bound; nia|apply Z.div_lt_upper_bound; nia].
Qed.

Lemma land_low v : Z.land v 4294967295 = v mod 2 ^ 32.
Proof. change 4294967295 with (Z.ones 32). by apply Z.land_ones. Qed.

Lemma bitand_255 v : bitand v 255 = v mod 2 ^ 8.
Proof.
  unfold bitand. rewrite (to_int32_small 255) by lia. change 255 with (Z.ones 8). rewrite Z.land_ones by lia.
  rewrite <- (Z.mod_mod_divide (to_int32 v) (2 ^ 32)), to_int32_mod, Z.mod_mod_divide by (by exists (2 ^ 24)). done.
Qed.

Lemma to_uint8_mod v : to_uint8 (v mod 2 ^ 8) = v mod 2 ^ 8.
Proof. unfold to_uint8. by apply Z.mod_mod. Qed.

Lemma to_uint8_byte b : is_byte b -> to_uint8 b = b.
Proof. intros Hb. by apply Z.mod_small. Qed.

Lemma set_bytes_at pre old post (new : list Z) :
  length new = length old -> set_bytes (pre ++ old ++ post) new (len pre) = pre ++ new ++ post.
Proof.
  intros Hl. unfold set_bytes, len. rewrite Nat2Z.id, take_app_length. f_equal. f_equal.
  by rewrite Hl, <- length_app, app_assoc, drop_app_length.
Qed.

Lemma to_nat_len {A} (l : list A) : Z.to_nat (len l) = length l.
Proof. apply Nat2Z.id. Qed.

Lemma to_uint32_small x : 0 <= x < 2 ^ 32 -> to_uint32 x = x.
Proof. apply Z.mod_small. Qed.

Lemma bitor_0 x : 0 <= x < 2 ^ 31 -> bitor x 0 = x.
Proof. intros Hx. unfold bitor. rewrite to_int32_small by lia. apply Z.lor_0_r. Qed.

