(* ===== verification/BufferInt.v ===== *)
(** * Integers in buffers: the readers and writers of [internal/buffer.mjs]

    A buffer is its sequence of bytes; a writer returns the new contents with
    the offset behind the written bytes.  Values and offsets are integers; an
    offset of another type is an error value. *)

From S2P Require Import Prelude Bytes.

(** ** Checks *)

(** The name of the argument is [offset] when no [type] is given. *)
Definition boundsError (value length_ : Z) (type : option string) : jserr :=
  if length_ <? 0 then ERR_BUFFER_OUT_OF_BOUNDS
  else ERR_OUT_OF_RANGE (default "offset"%string type).

Definition validateNumber (value : jsval) (name : string) : result Z :=
  match value with
  | JNumber n => Ok n
  | v => Throw (ERR_INVALID_ARG_TYPE name ["number"%string] v)
  end.

(** The parameter default [offset = 0]. *)
Definition default0 (offset : jsval) : jsval :=
  match offset with JUndefined => JNumber 0 | v => v end.

Definition checkBounds (buf : list Z) (offset : jsval) (byteLength2 : Z) : result Z :=
  let! offset := validateNumber offset "offset" in
  match at_index buf offset, at_index buf (offset + byteLength2) with
  | Some _, Some _ => Ok offset
  | _, _ => Throw (boundsError offset (len buf - (byteLength2 + 1)) None)
  end.

Definition checkInt (value min max : Z) (buf : list Z) (offset : jsval) (byteLength : Z) : result Z :=
  if (max <? value) || (value <? min) then Throw (ERR_OUT_OF_RANGE "value")
  else checkBounds buf offset byteLength.

(** The same test on BigInts. *)
Definition checkIntBI (value min max : Z) (buf : list Z) (offset : jsval) (byteLength2 : Z) : result Z :=
  if (max <? value) || (value <? min) then Throw (ERR_OUT_OF_RANGE "value")
  else checkBounds buf offset byteLength2.

(** The start of every reader: the type of the offset, and the first and last
    byte of the value, [undefined] when out of range. *)
Definition with_ends (buf : list Z) (offset : jsval) (size : Z) (k : Z -> Z -> Z -> Z) : result Z :=
  let! offset := validateNumber offset "offset" in
  match at_index buf offset, at_index buf (offset + (size - 1)) with
  | Some first, Some last => Ok (k offset first last)
  | _, _ => Throw (boundsError offset (len buf - size) None)
  end.

(** ** Unsigned readers *)

Definition readUInt8 (buf : list Z) (offset : jsval) : result Z :=
  with_ends buf (default0 offset) 1 (fun _ val _ => val).

Definition readUInt16LE (buf : list Z) (offset : jsval) : result Z :=
  with_ends buf (default0 offset) 2 (fun offset first last =>
    first + last * 2 ^ 8).

Definition readUInt16BE (buf : list Z) (offset : jsval) : result Z :=
  with_ends buf (default0 offset) 2 (fun offset first last =>
    first * 2 ^ 8 + last).

Definition readUInt24LE (buf : list Z) (offset : jsval) : result Z :=
  with_ends buf (default0 offset) 3 (fun offset first last =>
    first + byte_at buf (offset + 1) * 2 ^ 8 + last * 2 ^ 16).

Definition readUInt24BE (buf : list Z) (offset : jsval) : result Z :=
  with_ends buf (default0 offset) 3 (fun offset first last =>
    first * 2 ^ 16 + byte_at buf (offset + 1) * 2 ^ 8 + last).

Definition readUInt32LE (buf : list Z) (offset : jsval) : result Z :=
  with_ends buf (default0 offset) 4 (fun offset first last =>
    first + byte_at buf (offset + 1) * 2 ^ 8 + byte_at buf (offset + 2) * 2 ^ 16 + last * 2 ^ 24).

Definition readUInt32BE (buf : list Z) (offset : jsval) : result Z :=
  with_ends buf (default0 offset) 4 (fun offset first last =>
    first * 2 ^ 24 + byte_at buf (offset + 1) * 2 ^ 16 + byte_at buf (offset + 2) * 2 ^ 8 + last).

Definition readUInt40LE (buf : list Z) (offset : jsval) : result Z :=
  with_ends buf (default0 offset) 5 (fun offset first last =>
    first + byte_at buf (offset + 1) * 2 ^ 8 + byte_at buf (offset + 2) * 2 ^ 16
    + byte_at buf (offset + 3) * 2 ^ 24 + last * 2 ^ 32).

Definition readUInt40BE (buf : list Z) (offset : jsval) : result Z :=
  with_ends buf (default0 offset) 5 (fun offset first last =>
    first * 2 ^ 32 + byte_at buf (offset + 1) * 2 ^ 24 + byte_at buf (offset + 2) * 2 ^ 16
    + byte_at buf (offset + 3) * 2 ^ 8 + last).

Definition readUInt48LE (buf : list Z) (offset : jsval) : result Z :=
  with_ends buf (default0 offset) 6 (fun offset first last =>
    first + byte_at buf (offset + 1) * 2 ^ 8 + byte_at buf (offset + 2) * 2 ^ 16
    + byte_at buf (offset + 3) * 2 ^ 24 + (byte_at buf (offset + 4) + last * 2 ^ 8) * 2 ^ 32).

Definition readUInt48BE (buf : list Z) (offset : jsval) : result Z :=
  with_ends buf (default0 offset) 6 (fun offset first last =>
    (first * 2 ^ 8 + byte_at buf (offset + 1)) * 2 ^ 32 + byte_at buf (offset + 2) * 2 ^ 24
    + byte_at buf (offset + 3) * 2 ^ 16 + byte_at buf (offset + 4) * 2 ^ 8 + last).

Definition readUIntLE (buf : list Z) (offset : jsval) (byteLength : Z) : result Z :=
  match offset with
  | JUndefined => Throw (ERR_INVALID_ARG_TYPE "offset" ["number"%string] JUndefined)
  | _ =>
      if byteLength =? 6 then readUInt48LE buf offset
      else if byteLength =? 5 then readUInt40LE buf offset
      else if byteLength =? 3 then readUInt24LE buf offset
      else if byteLength =? 4 then readUInt32LE buf offset
      else if byteLength =? 2 then readUInt16LE buf offset
      else if byteLength =? 1 then readUInt8 buf offset
      else Throw (boundsError byteLength 6 (Some "byteLength"%string))
  end.

Definition readUIntBE (buf : list Z) (offset : jsval) (byteLength : Z) : result Z :=
  match offset with
  | JUndefined => Throw (ERR_INVALID_ARG_TYPE "offset" ["number"%string] JUndefined)
  | _ =>
      if byteLength =? 6 then readUInt48BE buf offset
      else if byteLength =? 5 then readUInt40BE buf offset
      else if byteLength =? 3 then readUInt24BE buf offset
      else if byteLength =? 4 then readUInt32BE buf offset
      else if byteLength =? 2 then readUInt16BE buf offset
      else if byteLength =? 1 then readUInt8 buf offset
      else Throw (boundsError byteLength 6 (Some "byteLength"%string))
  end.

(** [offset >>> 0] of a number, or of [undefined]. *)
Definition big_offset (offset : option Z) : jsval := JNumber (to_uint32 (default 0 offset)).

Definition readBigUInt64LE (buf : list Z) (offset : option Z) : result Z :=
  with_ends buf (big_offset offset) 8 (fun offset first last =>
    let lo := first + byte_at buf (offset + 1) * 2 ^ 8 + byte_at buf (offset + 2) * 2 ^ 16
              + byte_at buf (offset + 3) * 2 ^ 24 in
    let hi := byte_at buf (offset + 4) + byte_at buf (offset + 5) * 2 ^ 8
              + byte_at buf (offset + 6) * 2 ^ 16 + last * 2 ^ 24 in
    lo + Z.shiftl hi 32).

Definition readBigUInt64BE (buf : list Z) (offset : option Z) : result Z :=
  with_ends buf (big_offset offset) 8 (fun offset first last =>
    let hi := first * 2 ^ 24 + byte_at buf (offset + 1) * 2 ^ 16 + byte_at buf (offset + 2) * 2 ^ 8
              + byte_at buf (offset + 3) in
    let lo := byte_at buf (offset + 4) * 2 ^ 24 + byte_at buf (offset + 5) * 2 ^ 16
              + byte_at buf (offset + 6) * 2 ^ 8 + last in
    Z.shiftl hi 32 + lo).

(** ** Signed readers *)

Definition readInt8 (buf : list Z) (offset : jsval) : result Z :=
  with_ends buf (default0 offset) 1 (fun _ val _ => bitor val (bitand val (2 ^ 7) * 0x1fffffe)).

Definition readInt16LE (buf : list Z) (offset : jsval) : result Z :=
  with_ends buf (default0 offset) 2 (fun offset first last =>
    let val := first + last * 2 ^ 8 in
    bitor val (bitand val (2 ^ 15) * 0x1fffe)).

Definition readInt16BE (buf : list Z) (offset : jsval) : result Z :=
  with_ends buf (default0 offset) 2 (fun offset first last =>
    let val := first * 2 ^ 8 + last in
    bitor val (bitand val (2 ^ 15) * 0x1fffe)).

Definition readInt24LE (buf : list Z) (offset : jsval) : result Z :=
  with_ends buf (default0 offset) 3 (fun offset first last =>
    let val := first + byte_at buf (offset + 1) * 2 ^ 8 + last * 2 ^ 16 in
    bitor val (bitand val (2 ^ 23) * 0x1fe)).

Definition readInt24BE (buf : list Z) (offset : jsval) : result Z :=
  with_ends buf (default0 offset) 3 (fun offset first last =>
    let val := first * 2 ^ 16 + byte_at buf (offset + 1) * 2 ^ 8 + last in
    bitor val (bitand val (2 ^ 23) * 0x1fe)).

Definition readInt32LE (buf : list Z) (offset : jsval) : result Z :=
  with_ends buf (default0 offset) 4 (fun offset first last =>
    first + byte_at buf (offset + 1) * 2 ^ 8 + byte_at buf (offset + 2) * 2 ^ 16 + shl last 24).

Definition readInt32BE (buf : list Z) (offset : jsval) : result Z :=
  with_ends buf (default0 offset) 4 (fun offset first last =>
    shl first 24 + byte_at buf (offset + 1) * 2 ^ 16 + byte_at buf (offset + 2) * 2 ^ 8 + last).

Definition readInt40LE (buf : list Z) (offset : jsval) : result Z :=
  with_ends buf (default0 offset) 5 (fun offset first last =>
    bitor last (bitand last (2 ^ 7) * 0x1fffffe) * 2 ^ 32 + first
    + byte_at buf (offset + 1) * 2 ^ 8 + byte_at buf (offset + 2) * 2 ^ 16 + byte_at buf (offset + 3) * 2 ^ 24).

Definition readInt40BE (buf : list Z) (offset : jsval) : result Z :=
  with_ends buf (default0 offset) 5 (fun offset first last =>
    bitor first (bitand first (2 ^ 7) * 0x1fffffe) * 2 ^ 32
    + byte_at buf (offset + 1) * 2 ^ 24 + byte_at buf (offset + 2) * 2 ^ 16 + byte_at buf (offset + 3) * 2 ^ 8 + last).

Definition readInt48LE (buf : list Z) (offset : jsval) : result Z :=
  with_ends buf (default0 offset) 6 (fun offset first last =>
    let val := byte_at buf (offset + 4) + last * 2 ^ 8 in
    bitor val (bitand val (2 ^ 15) * 0x1fffe) * 2 ^ 32 + first
    + byte_at buf (offset + 1) * 2 ^ 8 + byte_at buf (offset + 2) * 2 ^ 16 + byte_at buf (offset + 3) * 2 ^ 24).

Definition readInt48BE (buf : list Z) (offset : jsval) : result Z :=
  with_ends buf (default0 offset) 6 (fun offset first last =>
    let val := byte_at buf (offset + 1) + first * 2 ^ 8 in
    bitor val (bitand val (2 ^ 15) * 0x1fffe) * 2 ^ 32
    + byte_at buf (offset + 2) * 2 ^ 24 + byte_at buf (offset + 3) * 2 ^ 16 + byte_at buf (offset + 4) * 2 ^ 8 + last).

Definition readIntLE (buf : list Z) (offset : jsval) (byteLength : Z) : result Z :=
  match offset with
  | JUndefined => Throw (ERR_INVALID_ARG_TYPE "offset" ["number"%string] JUndefined)
  | _ =>
      if byteLength =? 6 then readInt48LE buf offset
      else if byteLength =? 5 then readInt40LE buf offset
      else if byteLength =? 3 then readInt24LE buf offset
      else if byteLength =? 4 then readInt32LE buf offset
      else if byteLength =? 2 then readInt16LE buf offset
      else if byteLength =? 1 then readInt8 buf offset
      else Throw (boundsError byteLength 6 (Some "byteLength"%string))
  end.

Definition readIntBE (buf : list Z) (offset : jsval) (byteLength : Z) : result Z :=
  match offset with
  | JUndefined => Throw (ERR_INVALID_ARG_TYPE "offset" ["number"%string] JUndefined)
  | _ =>
      if byteLength =? 6 then readInt48BE buf offset
      else if byteLength =? 5 then readInt40BE buf offset
      else if byteLength =? 3 then readInt24BE buf offset
      else if byteLength =? 4 then readInt32BE buf offset
      else if byteLength =? 2 then readInt16BE buf offset
      else if byteLength =? 1 then readInt8 buf offset
      else Throw (boundsError byteLength 6 (Some "byteLength"%string))
  end.

Definition readBigInt64LE (buf : list Z) (offset : option Z) : result Z :=
  with_ends buf (big_offset offset) 8 (fun offset first last =>
    let val := byte_at buf (offset + 4) + byte_at buf (offset + 5) * 2 ^ 8
               + byte_at buf (offset + 6) * 2 ^ 16 + shl last 24 in
    Z.shiftl val 32 + (first + byte_at buf (offset + 1) * 2 ^ 8 + byte_at buf (offset + 2) * 2 ^ 16
                       + byte_at buf (offset + 3) * 2 ^ 24)).

Definition readBigInt64BE (buf : list Z) (offset : option Z) : result Z :=
  with_ends buf (big_offset offset) 8 (fun offset first last =>
    let val := shl first 24 + byte_at buf (offset + 1) * 2 ^ 16
               + byte_at buf (offset + 2) * 2 ^ 8 + byte_at buf (offset + 3) in
    Z.shiftl val 32 + (byte_at buf (offset + 4) * 2 ^ 24 + byte_at buf (offset + 5) * 2 ^ 16
                       + byte_at buf (offset + 6) * 2 ^ 8 + last)).

(** ** Writers *)

Definition writeU_Int8 (buf : list Z) (value : Z) (offset : jsval) (min max : Z) : result (list Z * Z) :=
  let! offset := validateNumber offset "offset" in
  if (max <? value) || (value <? min) then Throw (ERR_OUT_OF_RANGE "value")
  else
    match at_index buf offset with
    | None => Throw (boundsError offset (len buf - 1) None)
    | Some _ => Ok (store buf offset value, offset + 1)
    end.

Definition writeU_Int16LE (buf : list Z) (value : Z) (offset : jsval) (min max : Z) : result (list Z * Z) :=
  let! offset := checkInt value min max buf offset 1 in
  let buf := store buf offset value in
  let buf := store buf (offset + 1) (ushr value 8) in
  Ok (buf, offset + 2).

Definition writeU_Int16BE (buf : list Z) (value : Z) (offset : jsval) (min max : Z) : result (list Z * Z) :=
  let! offset := checkInt value min max buf offset 1 in
  let buf := store buf offset (ushr value 8) in
  let buf := store buf (offset + 1) value in
  Ok (buf, offset + 2).

Definition writeU_Int24LE (buf : list Z) (value : Z) (offset : jsval) (min max : Z) : result (list Z * Z) :=
  let! offset := checkInt value min max buf offset 2 in
  let buf := store buf offset value in
  let value := ushr value 8 in
  let buf := store buf (offset + 1) value in
  let value := ushr value 8 in
  let buf := store buf (offset + 2) value in
  Ok (buf, offset + 3).

Definition writeU_Int24BE (buf : list Z) (value : Z) (offset : jsval) (min max : Z) : result (list Z * Z) :=
  let! offset := checkInt value min max buf offset 2 in
  let buf := store buf (offset + 2) value in
  let value := ushr value 8 in
  let buf := store buf (offset + 1) value in
  let value := ushr value 8 in
  let buf := store buf offset value in
  Ok (buf, offset + 3).

Definition writeU_Int32LE (buf : list Z) (value : Z) (offset : jsval) (min max : Z) : result (list Z * Z) :=
  let! offset := checkInt value min max buf offset 3 in
  let buf := store buf offset value in
  let value := ushr value 8 in
  let buf := store buf (offset + 1) value in
  let value := ushr value 8 in
  let buf := store buf (offset + 2) value in
  let value := ushr value 8 in
  let buf := store buf (offset + 3) value in
  Ok (buf, offset + 4).

Definition writeU_Int32BE (buf : list Z) (value : Z) (offset : jsval) (min max : Z) : result (list Z * Z) :=
  let! offset := checkInt value min max buf offset 3 in
  let buf := store buf (offset + 3) value in
  let value := ushr value 8 in
  let buf := store buf (offset + 2) value in
  let value := ushr value 8 in
  let buf := store buf (offset + 1) value in
  let value := ushr value 8 in
  let buf := store buf offset value in
  Ok (buf, offset + 4).

Definition _writeUInt32LE (buf : list Z) (value : Z) (offset : jsval) (min max : Z) : result (list Z * Z) :=
  let! offset := checkInt value min max buf offset 3 in
  let buf := store buf offset value in
  let value := ushr value 8 in
  let buf := store buf (offset + 1) value in
  let value := ushr value 8 in
  let buf := store buf (offset + 2) value in
  let value := ushr value 8 in
  let buf := store buf (offset + 3) value in
  Ok (buf, offset + 4).

Definition _writeUInt32BE (buf : list Z) (value : Z) (offset : jsval) (min max : Z) : result (list Z * Z) :=
  let! offset := checkInt value min max buf offset 3 in
  let buf := store buf (offset + 3) value in
  let value := ushr value 8 in
  let buf := store buf (offset + 2) value in
  let value := ushr value 8 in
  let buf := store buf (offset + 1) value in
  let value := ushr value 8 in
  let buf := store buf offset value in
  Ok (buf, offset + 4).

(** [Math.floor(value * 2 ** -32)] is exact on the values in range. *)
Definition high_word (value : Z) : Z := value / 2 ^ 32.

Definition writeU_Int40LE (buf : list Z) (value : Z) (offset : jsval) (min max : Z) : result (list Z * Z) :=
  let! offset := checkInt value min max buf offset 4 in
  let newVal := value in
  let buf := store buf offset value in
  let value := ushr value 8 in
  let buf := store buf (offset + 1) value in
  let value := ushr value 8 in
  let buf := store buf (offset + 2) value in
  let value := ushr value 8 in
  let buf := store buf (offset + 3) value in
  let buf := store buf (offset + 4) (high_word newVal) in
  Ok (buf, offset + 5).

Definition writeU_Int40BE (buf : list Z) (value : Z) (offset : jsval) (min max : Z) : result (list Z * Z) :=
  let! offset := checkInt value min max buf offset 4 in
  let buf := store buf offset (high_word value) in
  let offset := offset + 1 in
  let buf := store buf (offset + 3) value in
  let value := ushr value 8 in
  let buf := store buf (offset + 2) value in
  let value := ushr value 8 in
  let buf := store buf (offset + 1) value in
  let value := ushr value 8 in
  let buf := store buf offset value in
  Ok (buf, offset + 4).

Definition writeU_Int48LE (buf : list Z) (value : Z) (offset : jsval) (min max : Z) : result (list Z * Z) :=
  let! offset := checkInt value min max buf offset 5 in
  let newVal := high_word value in
  let buf := store buf offset value in
  let value := ushr value 8 in
  let buf := store buf (offset + 1) value in
  let value := ushr value 8 in
  let buf := store buf (offset + 2) value in
  let value := ushr value 8 in
  let buf := store buf (offset + 3) value in
  let buf := store buf (offset + 4) newVal in
  let buf := store buf (offset + 5) (ushr newVal 8) in
  Ok (buf, offset + 6).

Definition writeU_Int48BE (buf : list Z) (value : Z) (offset : jsval) (min max : Z) : result (list Z * Z) :=
  let! offset := checkInt value min max buf offset 5 in
  let newVal := high_word value in
  let buf := store buf offset (ushr newVal 8) in
  let buf := store buf (offset + 1) newVal in
  let offset := offset + 2 in
  let buf := store buf (offset + 3) value in
  let value := ushr value 8 in
  let buf := store buf (offset + 2) value in
  let value := ushr value 8 in
  let buf := store buf (offset + 1) value in
  let value := ushr value 8 in
  let buf := store buf offset value in
  Ok (buf, offset + 4).

Definition writeUIntLE (buf : list Z) (value : Z) (offset : jsval) (byteLength : Z) : result (list Z * Z) :=
  if byteLength =? 6 then writeU_Int48LE buf value offset 0 0xffffffffffff
  else if byteLength =? 5 then writeU_Int40LE buf value offset 0 0xffffffffff
  else if byteLength =? 3 then writeU_Int24LE buf value offset 0 0xffffff
  else if byteLength =? 4 then writeU_Int32LE buf value offset 0 0xffffffff
  else if byteLength =? 2 then writeU_Int16LE buf value offset 0 0xffff
  else if byteLength =? 1 then writeU_Int8 buf value offset 0 0xff
  else Throw (boundsError byteLength 6 (Some "byteLength"%string)).

Definition writeUIntBE (buf : list Z) (value : Z) (offset : jsval) (byteLength : Z) : result (list Z * Z) :=
  if byteLength =? 6 then writeU_Int48BE buf value offset 0 0xffffffffffff
  else if byteLength =? 5 then writeU_Int40BE buf value offset 0 0xffffffffff
  else if byteLength =? 3 then writeU_Int24BE buf value offset 0 0xffffff
  else if byteLength =? 4 then writeU_Int32BE buf value offset 0 0xffffffff
  else if byteLength =? 2 then writeU_Int16BE buf value offset 0 0xffff
  else if byteLength =? 1 then writeU_Int8 buf value offset 0 0xff
  else Throw (boundsError byteLength 6 (Some "byteLength"%string)).

Definition writeIntLE (buf : list Z) (value : Z) (offset : jsval) (byteLength : Z) : result (list Z * Z) :=
  if byteLength =? 6 then writeU_Int48LE buf value offset (-0x800000000000) 0x7fffffffffff
  else if byteLength =? 5 then writeU_Int40LE buf value offset (-0x8000000000) 0x7fffffffff
  else if byteLength =? 3 then writeU_Int24LE buf value offset (-0x800000) 0x7fffff
  else if byteLength =? 4 then writeU_Int32LE buf value offset (-0x80000000) 0x7fffffff
  else if byteLength =? 2 then writeU_Int16LE buf value offset (-0x8000) 0x7fff
  else if byteLength =? 1 then writeU_Int8 buf value offset (-0x80) 0x7f
  else Throw (boundsError byteLength 6 (Some "byteLength"%string)).

Definition writeIntBE (buf : list Z) (value : Z) (offset : jsval) (byteLength : Z) : result (list Z * Z) :=
  if byteLength =? 6 then writeU_Int48BE buf value offset (-0x800000000000) 0x7fffffffffff
  else if byteLength =? 5 then writeU_Int40BE buf value offset (-0x8000000000) 0x7fffffffff
  else if byteLength =? 3 then writeU_Int24BE buf value offset (-0x800000) 0x7fffff
  else if byteLength =? 4 then writeU_Int32BE buf value offset (-0x80000000) 0x7fffffff
  else if byteLength =? 2 then writeU_Int16BE buf value offset (-0x8000) 0x7fff
  else if byteLength =? 1 then writeU_Int8 buf value offset (-0x80) 0x7f
  else Throw (boundsError byteLength 6 (Some "byteLength"%string)).

(** The fixed-width methods, with the default offset 0. *)

Definition writeUInt8 (buf : list Z) (value : Z) (offset : jsval) : result (list Z * Z) :=
  writeU_Int8 buf value (default0 offset) 0 0xff.

Definition writeUInt16LE (buf : list Z) (value : Z) (offset : jsval) : result (list Z * Z) :=
  writeU_Int16LE buf value (default0 offset) 0 0xffff.

Definition writeUInt16BE (buf : list Z) (value : Z) (offset : jsval) : result (list Z * Z) :=
  writeU_Int16BE buf value (default0 offset) 0 0xffff.

Definition writeUInt32LE (buf : list Z) (value : Z) (offset : jsval) : result (list Z * Z) :=
  _writeUInt32LE buf value (default0 offset) 0 0xffffffff.

Definition writeUInt32BE (buf : list Z) (value : Z) (offset : jsval) : result (list Z * Z) :=
  _writeUInt32BE buf value (default0 offset) 0 0xffffffff.

Definition writeInt8 (buf : list Z) (value : Z) (offset : jsval) : result (list Z * Z) :=
  writeU_Int8 buf value (default0 offset) (-0x80) 0x7f.

Definition writeInt16LE (buf : list Z) (value : Z) (offset : jsval) : result (list Z * Z) :=
  writeU_Int16LE buf value (default0 offset) (-0x8000) 0x7fff.

Definition writeInt16BE (buf : list Z) (value : Z) (offset : jsval) : result (list Z * Z) :=
  writeU_Int16BE buf value (default0 offset) (-0x8000) 0x7fff.

Definition writeInt32LE (buf : list Z) (value : Z) (offset : jsval) : result (list Z * Z) :=
  writeU_Int32LE buf value (default0 offset) (-0x80000000) 0x7fffffff.

Definition writeInt32BE (buf : list Z) (value : Z) (offset : jsval) : result (list Z * Z) :=
  writeU_Int32BE buf value (default0 offset) (-0x80000000) 0x7fffffff.

Definition wrtBigUInt64LE (buf : list Z) (value : Z) (offset : jsval) (min max : Z) : result (list Z * Z) :=
  let! offset := checkIntBI value min max buf offset 7 in
  let lo := Z.land value 4294967295 in
  let buf := store buf offset lo in
  let lo := sar lo 8 in
  let buf := store buf (offset + 1) lo in
  let lo := sar lo 8 in
  let buf := store buf (offset + 2) lo in
  let lo := sar lo 8 in
  let buf := store buf (offset + 3) lo in
  let hi := Z.land (Z.shiftr value 32) 4294967295 in
  let buf := store buf (offset + 4) hi in
  let hi := sar hi 8 in
  let buf := store buf (offset + 5) hi in
  let hi := sar hi 8 in
  let buf := store buf (offset + 6) hi in
  let hi := sar hi 8 in
  let buf := store buf (offset + 7) hi in
  Ok (buf, offset + 8).

Definition wrtBigUInt64BE (buf : list Z) (value : Z) (offset : jsval) (min max : Z) : result (list Z * Z) :=
  let! offset := checkIntBI value min max buf offset 7 in
  let lo := Z.land value 4294967295 in
  let buf := store buf (offset + 7) lo in
  let lo := sar lo 8 in
  let buf := store buf (offset + 6) lo in
  let lo := sar lo 8 in
  let buf := store buf (offset + 5) lo in
  let lo := sar lo 8 in
  let buf := store buf (offset + 4) lo in
  let hi := Z.land (Z.shiftr value 32) 4294967295 in
  let buf := store buf (offset + 3) hi in
  let hi := sar hi 8 in
  let buf := store buf (offset + 2) hi in
  let hi := sar hi 8 in
  let buf := store buf (offset + 1) hi in
  let hi := sar hi 8 in
  let buf := store buf offset hi in
  Ok (buf, offset + 8).

Definition writeBigUInt64LE (buf : list Z) (value : Z) (offset : jsval) : result (list Z * Z) :=
  wrtBigUInt64LE buf value (default0 offset) 0 0xffffffffffffffff.

Definition writeBigUInt64BE (buf : list Z) (value : Z) (offset : jsval) : result (list Z * Z) :=
  wrtBigUInt64BE buf value (default0 offset) 0 0xffffffffffffffff.

Definition writeBigInt64LE (buf : list Z) (value : Z) (offset : jsval) : result (list Z * Z) :=
  wrtBigUInt64LE buf value (default0 offset) (-0x8000000000000000) 0x7fffffffffffffff.

Definition writeBigInt64BE (buf : list Z) (value : Z) (offset : jsval) : result (list Z * Z) :=
  wrtBigUInt64BE buf value (default0 offset) (-0x8000000000000000) 0x7fffffffffffffff.

(** ** The readers against the value of the bytes *)

Definition in_range (buf : list Z) (off n : Z) : bool := (0 <=? off) && (off + n <=? len buf).

Lemma in_range_spec buf off n : in_range buf off n = true <-> 0 <= off /\ off + n <= len buf.
Proof. unfold in_range. lia. Qed.

Lemma at_index_None {A} (l : list A) i : i < 0 \/ len l <= i -> at_index l i = None.
Proof.
  intros Hi. unfold at_index. destruct (Z.ltb_spec i 0); [done|]. apply lookup_ge_None_2.
  unfold len in Hi. lia.
Qed.

Lemma with_ends_out buf off n k :
  0 < n -> in_range buf off n = false ->
  with_ends buf (JNumber off) n k = Throw (boundsError off (len buf - n) None).
Proof.
  intros Hn Hr. assert (H : off < 0 \/ len buf < off + n) by (unfold in_range in Hr; lia).
  unfold with_ends. cbn [rbind validateNumber]. destruct H as [H|H].
  - by rewrite at_index_None by lia.
  - rewrite (at_index_None buf (off + (n - 1))) by lia. by destruct (at_index buf off).
Qed.

Lemma with_ends_in pre b mid c post n k :
  n = 2 + len mid ->
  with_ends (pre ++ (b :: mid ++ [c]) ++ post) (JNumber (len pre)) n k = Ok (k (len pre) b c).
Proof.
  intros ->. unfold with_ends. cbn [rbind validateNumber]. pose proof (len_nonneg mid).
  assert (E1 : at_index (pre ++ (b :: mid ++ [c]) ++ post) (len pre) = Some b) by apply at_index_mid.
  assert (E2 : at_index (pre ++ (b :: mid ++ [c]) ++ post) (len pre + (2 + len mid - 1)) = Some c).
  { rewrite at_index_at by lia. replace (Z.to_nat (2 + len mid - 1)) with (S (length mid)) by (unfold len; lia).
    simpl. rewrite <- app_assoc. by apply list_lookup_middle. }
  by rewrite E1, E2.
Qed.

Lemma with_ends_one pre b post k :
  with_ends (pre ++ [b] ++ post) (JNumber (len pre)) 1 k = Ok (k (len pre) b b).
Proof.
  unfold with_ends. cbn [rbind validateNumber]. change (1 - 1) with 0. rewrite Z.add_0_r.
  assert (E : at_index (pre ++ [b] ++ post) (len pre) = Some b) by apply at_index_mid. by rewrite E.
Qed.

(** Evaluate bytes at literal positions. *)
Ltac eval_bytes :=
  repeat match goal with
  | |- context [default 0 (?l !! Z.to_nat ?k)] =>
      let n := eval vm_compute in (Z.to_nat k) in
      let v := eval simpl in (default 0 (l !! n)) in
      change (default 0 (l !! Z.to_nat k)) with v
  end.

(** Evaluate a reader at the bytes [mid]. *)
Ltac eval_reader :=
  cbn [default0];
  first [rewrite (with_ends_one _ _ _)
        |match goal with
         | |- context [with_ends (?pre ++ ?m ++ ?post) (JNumber (len ?pre)) ?n ?k] =>
             let l := eval cbn [rev app] in (rev m) in
             match l with
             | ?c :: ?r =>
                 let r' := eval cbn [rev app] in (rev r) in
                 match r' with
                 | ?b :: ?mid =>
                     change (with_ends (pre ++ m ++ post) (JNumber (len pre)) n k)
                       with (with_ends (pre ++ (b :: mid ++ [c]) ++ post) (JNumber (len pre)) n k);
                     rewrite (with_ends_in pre b mid c post n) by done
                 end
             end
         end];
  cbn [app]; rewrite ?byte_at_at by lia; eval_bytes.

(** The six cases of a lemma about one to six bytes. *)
Ltac byte_cases mid H :=
  let b0 := fresh "b" in let b1 := fresh "b" in let b2 := fresh "b" in
  let b3 := fresh "b" in let b4 := fresh "b" in let b5 := fresh "b" in
  destruct mid as [|b0 [|b1 [|b2 [|b3 [|b4 [|b5 [|? ?]]]]]]]; cbn [length] in H; try lia.

Lemma readUIntLE_at pre mid post :
  (1 <= length mid <= 6)%nat ->
  readUIntLE (pre ++ mid ++ post) (JNumber (len pre)) (len mid) = Ok (le_value mid).
Proof.
  intros Hn. byte_cases mid Hn;
    unfold readUIntLE, readUInt8, readUInt16LE, readUInt24LE, readUInt32LE, readUInt40LE, readUInt48LE;
    match goal with |- context [len ?m =? 6] => let n := eval vm_compute in (len m) in change (len m) with n end;
    cbn [Z.eqb Pos.eqb]; eval_reader; f_equal; cbn [le_value]; lia.
Qed.

Lemma readUIntBE_at pre mid post :
  (1 <= length mid <= 6)%nat ->
  readUIntBE (pre ++ mid ++ post) (JNumber (len pre)) (len mid) = Ok (be_value mid).
Proof.
  intros Hn. byte_cases mid Hn;
    unfold readUIntBE, readUInt8, readUInt16BE, readUInt24BE, readUInt32BE, readUInt40BE, readUInt48BE;
    match goal with |- context [len ?m =? 6] => let n := eval vm_compute in (len m) in change (len m) with n end;
    cbn [Z.eqb Pos.eqb]; eval_reader; f_equal; cbn [be_value reverse rev_append le_value]; lia.
Qed.

Ltac byte_hyps H :=
  repeat match type of H with
  | bytes_ok (_ :: _) => let Hb := fresh "Hb" in apply Forall_cons in H as [Hb H]
  | Forall _ (_ :: _) => let Hb := fresh "Hb" in apply Forall_cons in H as [Hb H]
  end; unfold is_byte in *.

(** Both sides of a sign extension, compared by the sign bit. *)
Ltac sign_cases :=
  repeat match goal with
  | |- context [if ?x <? ?y then _ else _] => destruct (Z.ltb_spec x y)
  end; lia.

Lemma readIntLE_at pre mid post :
  (1 <= length mid <= 6)%nat -> bytes_ok mid ->
  readIntLE (pre ++ mid ++ post) (JNumber (len pre)) (len mid) = Ok (signed (length mid) (le_value mid)).
Proof.
  intros Hn Hok. byte_cases mid Hn; byte_hyps Hok;
    unfold readIntLE, readInt8, readInt16LE, readInt24LE, readInt32LE, readInt40LE, readInt48LE;
    match goal with |- context [len ?m =? 6] => let n := eval vm_compute in (len m) in change (len m) with n end;
    cbn [Z.eqb Pos.eqb]; eval_reader; f_equal;
    cbn [le_value length]; unfold signed;
    rewrite ?(sign_extend _ 7 0x1fffffe), ?(sign_extend _ 15 0x1fffe), ?(sign_extend _ 23 0x1fe), ?shl_24
      by (done || unfold is_byte; lia);
    sign_cases.
Qed.

Lemma readIntBE_at pre mid post :
  (1 <= length mid <= 6)%nat -> bytes_ok mid ->
  readIntBE (pre ++ mid ++ post) (JNumber (len pre)) (len mid) = Ok (signed (length mid) (be_value mid)).
Proof.
  intros Hn Hok. byte_cases mid Hn; byte_hyps Hok;
    unfold readIntBE, readInt8, readInt16BE, readInt24BE, readInt32BE, readInt40BE, readInt48BE;
    match goal with |- context [len ?m =? 6] => let n := eval vm_compute in (len m) in change (len m) with n end;
    cbn [Z.eqb Pos.eqb]; eval_reader; f_equal;
    cbn [be_value reverse rev_append le_value length]; unfold signed;
    rewrite ?(sign_extend _ 7 0x1fffffe), ?(sign_extend _ 15 0x1fffe), ?(sign_extend _ 23 0x1fe), ?shl_24
      by (done || unfold is_byte; lia);
    sign_cases.
Qed.

(** Out of range, every width fails in the same way. *)
Lemma readers_out buf off n :
  1 <= n <= 6 -> in_range buf off n = false ->
  let e := Throw (boundsError off (len buf - n) None) in
  readUIntLE buf (JNumber off) n = e /\ readUIntBE buf (JNumber off) n = e
  /\ readIntLE buf (JNumber off) n = e /\ readIntBE buf (JNumber off) n = e.
Proof.
  intros Hn Hr e. subst e.
  assert (Hcase : n = 1 \/ n = 2 \/ n = 3 \/ n = 4 \/ n = 5 \/ n = 6) by lia.
  repeat (destruct Hcase as [->|Hcase]); try subst n;
    (split; [|split; [|split]]); apply with_ends_out; done.
Qed.

(** ** Writing *)

Lemma checkBounds_at pre old post n :
  old <> [] -> n = len old - 1 -> checkBounds (pre ++ old ++ post) (JNumber (len pre)) n = Ok (len pre).
Proof.
  intros Hne ->. unfold checkBounds. cbn [rbind validateNumber].
  destruct old as [|b old]; [done|]. pose proof (len_nonneg old).
  assert (E1 : at_index (pre ++ (b :: old) ++ post) (len pre) = Some b) by apply at_index_mid.
  rewrite E1, at_index_at by (rewrite len_cons; lia). rewrite lookup_app_l by (unfold len in *; cbn; lia).
  destruct (lookup_lt_is_Some_2 (b :: old) (Z.to_nat (len (b :: old) - 1))) as [c ->]; [unfold len; cbn; lia|].
  done.
Qed.

Lemma checkBounds_out buf off n :
  0 <= n -> in_range buf off (n + 1) = false ->
  checkBounds buf (JNumber off) n = Throw (boundsError off (len buf - (n + 1)) None).
Proof.
  intros Hn Hr. assert (H : off < 0 \/ len buf < off + (n + 1)) by (unfold in_range in Hr; lia).
  unfold checkBounds. cbn [rbind validateNumber]. destruct H as [H|H].
  - by rewrite at_index_None by lia.
  - rewrite (at_index_None buf (off + n)) by lia. by destruct (at_index buf off).
Qed.

Lemma checkInt_at value min max pre old post n :
  min <= value <= max -> old <> [] -> n = len old - 1 ->
  checkInt value min max (pre ++ old ++ post) (JNumber (len pre)) n = Ok (len pre).
Proof.
  intros Hv Hne Hn. unfold checkInt. destruct (Z.ltb_spec max value); [lia|].
  destruct (Z.ltb_spec value min); [lia|]. cbn [orb]. by apply checkBounds_at.
Qed.

Lemma store_at0 pre b l v : store (pre ++ b :: l) (len pre) v = pre ++ to_uint8 v :: l.
Proof.
  rewrite <- (Z.add_0_r (len pre)) at 1. rewrite store_at; [done|].
  pose proof (len_nonneg l). rewrite len_cons. lia.
Qed.

(** Evaluate a sequence of stores into the bytes behind [pre]. *)
Ltac eval_stores :=
  cbn [rbind app]; rewrite <- ?Z.add_assoc;
  repeat match goal with
  | |- context [Z.add (Zpos ?a) (Zpos ?b)] =>
      let c := eval vm_compute in (Z.pos a + Z.pos b) in change (Z.pos a + Z.pos b) with c
  end;
  repeat first
    [rewrite store_at0
    |rewrite store_at by (rewrite ?len_cons; match goal with |- context [len ?l] => pose proof (len_nonneg l); lia end);
     match goal with
     | |- context [<[Z.to_nat ?k := _]> _] =>
         let n := eval vm_compute in (Z.to_nat k) in change (Z.to_nat k) with n; cbn [insert list_insert]
     end].

(** The written bytes are those of the value. *)
Ltac eval_written :=
  unfold be_bytes; cbn [le_bytes reverse rev_append app];
  rewrite ?ushr_ushr, ?byte_ushr, ?Z.div_div by lia;
  unfold high_word, to_uint8; rewrite ?Z.div_div by lia; repeat f_equal; lia || done.

Lemma writeU_Int8_at pre b post v min max :
  min <= v <= max ->
  writeU_Int8 (pre ++ [b] ++ post) v (JNumber (len pre)) min max
  = Ok (pre ++ [to_uint8 v] ++ post, len pre + 1).
Proof.
  intros Hv. unfold writeU_Int8. cbn [rbind validateNumber].
  destruct (Z.ltb_spec max v); [lia|]. destruct (Z.ltb_spec v min); [lia|]. cbn [orb app].
  by rewrite at_index_mid, store_at0.
Qed.

Lemma writeU_IntLE_at pre old post v min max :
  (1 <= length old <= 6)%nat -> min <= v <= max ->
  (match length old with
   | 1 => writeU_Int8 | 2 => writeU_Int16LE | 3 => writeU_Int24LE
   | 4 => writeU_Int32LE | 5 => writeU_Int40LE | _ => writeU_Int48LE
   end)%nat (pre ++ old ++ post) v (JNumber (len pre)) min max
  = Ok (pre ++ le_bytes (length old) v ++ post, len pre + len old).
Proof.
  intros Hn Hv. byte_cases old Hn; cbn [length];
    unfold writeU_Int16LE, writeU_Int24LE, writeU_Int32LE, writeU_Int40LE, writeU_Int48LE.
  1: by apply writeU_Int8_at.
  all: rewrite checkInt_at by done; eval_stores; eval_written.
Qed.

Lemma writeU_IntBE_at pre old post v min max :
  (1 <= length old <= 6)%nat -> min <= v <= max ->
  (match length old with
   | 1 => writeU_Int8 | 2 => writeU_Int16BE | 3 => writeU_Int24BE
   | 4 => writeU_Int32BE | 5 => writeU_Int40BE | _ => writeU_Int48BE
   end)%nat (pre ++ old ++ post) v (JNumber (len pre)) min max
  = Ok (pre ++ be_bytes (length old) v ++ post, len pre + len old).
Proof.
  intros Hn Hv. byte_cases old Hn; cbn [length];
    unfold writeU_Int16BE, writeU_Int24BE, writeU_Int32BE, writeU_Int40BE, writeU_Int48BE.
  1: by apply writeU_Int8_at.
  all: rewrite checkInt_at by done; eval_stores; eval_written.
Qed.

(** The values a width can hold. *)
Definition fits (sgn : bool) (n v : Z) : Prop :=
  if sgn then - 2 ^ (8 * n - 1) <= v < 2 ^ (8 * n - 1) else 0 <= v < 2 ^ (8 * n).

Definition writeLE (sgn : bool) := if sgn then writeIntLE else writeUIntLE.
Definition writeBE (sgn : bool) := if sgn then writeIntBE else writeUIntBE.
Definition readLE (sgn : bool) := if sgn then readIntLE else readUIntLE.
Definition readBE (sgn : bool) := if sgn then readIntBE else readUIntBE.

Lemma write_at sgn pre old post v :
  (1 <= length old <= 6)%nat -> fits sgn (len old) v ->
  writeLE sgn (pre ++ old ++ post) v (JNumber (len pre)) (len old)
  = Ok (pre ++ le_bytes (length old) v ++ post, len pre + len old)
  /\ writeBE sgn (pre ++ old ++ post) v (JNumber (len pre)) (len old)
  = Ok (pre ++ be_bytes (length old) v ++ post, len pre + len old).
Proof.
  intros Hn Hf.
  pose proof (fun min max => writeU_IntLE_at pre old post v min max Hn) as HL.
  pose proof (fun min max => writeU_IntBE_at pre old post v min max Hn) as HB.
  byte_cases old Hn; cbn [length] in HL, HB;
    match type of Hf with context [len ?m] =>
      let n := eval vm_compute in (len m) in change (len m) with n in * end;
    destruct sgn; cbn in Hf; (split; [apply HL|apply HB]); lia.
Qed.

Lemma write_value_error sgn buf v off n :
  1 <= n <= 6 -> ~ fits sgn n v ->
  writeLE sgn buf v (JNumber off) n = Throw (ERR_OUT_OF_RANGE "value")
  /\ writeBE sgn buf v (JNumber off) n = Throw (ERR_OUT_OF_RANGE "value").
Proof.
  intros Hn Hf. assert (Hcase : n = 1 \/ n = 2 \/ n = 3 \/ n = 4 \/ n = 5 \/ n = 6) by lia.
  assert (Hci : forall min max m, ~ (min <= v <= max) ->
            checkInt v min max buf (JNumber off) m = Throw (ERR_OUT_OF_RANGE "value")).
  { intros min max m H. unfold checkInt.
    by destruct (Z.ltb_spec max v); destruct (Z.ltb_spec v min); try done; lia. }
  assert (Hci8 : forall min max, ~ (min <= v <= max) ->
            writeU_Int8 buf v (JNumber off) min max = Throw (ERR_OUT_OF_RANGE "value")).
  { intros min max H. unfold writeU_Int8. cbn [rbind validateNumber].
    by destruct (Z.ltb_spec max v); destruct (Z.ltb_spec v min); try done; lia. }
  repeat (destruct Hcase as [->|Hcase]); try subst n; destruct sgn; cbn in Hf; split;
    (apply Hci8; lia) || (cbn [writeLE writeBE writeIntLE writeIntBE writeUIntLE writeUIntBE Z.eqb Pos.eqb];
     unfold writeU_Int16LE, writeU_Int24LE, writeU_Int32LE, writeU_Int40LE, writeU_Int48LE,
       writeU_Int16BE, writeU_Int24BE, writeU_Int32BE, writeU_Int40BE, writeU_Int48BE;
     rewrite Hci by lia; done).
Qed.

Lemma write_offset_error sgn buf v off n :
  1 <= n <= 6 -> fits sgn n v -> in_range buf off n = false ->
  let e := Throw (boundsError off (len buf - n) None) in
  writeLE sgn buf v (JNumber off) n = e /\ writeBE sgn buf v (JNumber off) n = e.
Proof.
  intros Hn Hf Hr. assert (Hcase : n = 1 \/ n = 2 \/ n = 3 \/ n = 4 \/ n = 5 \/ n = 6) by lia.
  assert (Hci : forall min max m, min <= v <= max -> m + 1 = n -> 
            checkInt v min max buf (JNumber off) m = Throw (boundsError off (len buf - n) None)).
  { intros min max m H <-. unfold checkInt. destruct (Z.ltb_spec max v); [lia|].
    destruct (Z.ltb_spec v min); [lia|]. cbn [orb]. apply checkBounds_out; [lia|done]. }
  assert (Hci8 : forall min max, min <= v <= max -> n = 1 ->
            writeU_Int8 buf v (JNumber off) min max = Throw (boundsError off (len buf - 1) None)).
  { intros min max H ->. unfold writeU_Int8. cbn [rbind validateNumber].
    destruct (Z.ltb_spec max v); [lia|]. destruct (Z.ltb_spec v min); [lia|]. cbn [orb].
    rewrite at_index_None; [done|]. unfold in_range in Hr. lia. }
  repeat (destruct Hcase as [->|Hcase]); try subst n; destruct sgn; cbn in Hf; split;
    (apply Hci8; [lia|done]) ||
    (cbn [writeLE writeBE writeIntLE writeIntBE writeUIntLE writeUIntBE Z.eqb Pos.eqb];
     unfold writeU_Int16LE, writeU_Int24LE, writeU_Int32LE, writeU_Int40LE, writeU_Int48LE,
       writeU_Int16BE, writeU_Int24BE, writeU_Int32BE, writeU_Int40BE, writeU_Int48BE;
     rewrite Hci by lia; done).
Qed.

(** In range, the buffer is a prefix, the [n] bytes concerned and a rest. *)
Lemma in_range_split buf off n :
  1 <= n <= 6 -> in_range buf off n = true ->
  exists pre mid post, buf = pre ++ mid ++ post /\ len pre = off /\ len mid = n
    /\ (1 <= length mid <= 6)%nat.
Proof.
  intros Hn [H1 H2]%in_range_spec. destruct (buf_segment buf off (Z.to_nat n)) as (pre & mid & post & -> & <- & Hm);
    [lia|lia|]. exists pre, mid, post. unfold len. split; [done|]. split; [done|]. lia.
Qed.

(** the unsigned readers [readUIntLE] and [readUIntBE] return the little-
    and big-endian value of the one to six bytes at the offset, for every
    width, and fail with the error of [boundsError] when they are not all in
    the buffer. *)
Theorem readUInt_spec (buf : list Z) (off n : Z) :
  1 <= n <= 6 ->
  let bs := slice buf off (off + n) in
  let error := Throw (boundsError off (len buf - n) None) in
  readUIntLE buf (JNumber off) n = (if in_range buf off n then Ok (le_value bs) else error)
  /\ readUIntBE buf (JNumber off) n = (if in_range buf off n then Ok (be_value bs) else error).
Proof.
  intros Hn. cbv zeta. destruct (in_range buf off n) eqn:E.
  - destruct (in_range_split buf off n Hn E) as (pre & mid & post & -> & <- & <- & Hm).
    rewrite slice_mid. split; [by apply readUIntLE_at|by apply readUIntBE_at].
  - by destruct (readers_out buf off n Hn E) as (-> & -> & _).
Qed.

(** the signed readers [readIntLE] and [readIntBE] return the two's
    complement value of the one to six bytes at the offset, with the same
    errors. *)
Theorem readInt_spec (buf : list Z) (off n : Z) :
  bytes_ok buf -> 1 <= n <= 6 ->
  let bs := slice buf off (off + n) in
  let error := Throw (boundsError off (len buf - n) None) in
  readIntLE buf (JNumber off) n
  = (if in_range buf off n then Ok (signed (Z.to_nat n) (le_value bs)) else error)
  /\ readIntBE buf (JNumber off) n
  = (if in_range buf off n then Ok (signed (Z.to_nat n) (be_value bs)) else error).
Proof.
  intros Hb Hn. cbv zeta. destruct (in_range buf off n) eqn:E.
  - destruct (in_range_split buf off n Hn E) as (pre & mid & post & -> & <- & <- & Hm).
    unfold bytes_ok in Hb. rewrite !Forall_app in Hb. destruct Hb as (_ & Hb & _).
    rewrite slice_mid, to_nat_len.
    split; [by apply readIntLE_at|by apply readIntBE_at].
  - by destruct (readers_out buf off n Hn E) as (_ & _ & -> & ->).
Qed.

(** [writeUIntLE], [writeIntLE] and their big-endian versions check the
    value, then the offset, and then put exactly the one to six bytes of the
    value at the offset, leaving the rest of the buffer alone, and return the
    offset behind them; on an error nothing is written. *)
Theorem write_spec (sgn : bool) (buf : list Z) (v off n : Z) :
  1 <= n <= 6 ->
  (fits sgn n v ->
   let error := Throw (boundsError off (len buf - n) None) in
   writeLE sgn buf v (JNumber off) n
   = (if in_range buf off n then Ok (set_bytes buf (le_bytes (Z.to_nat n) v) off, off + n) else error)
   /\ writeBE sgn buf v (JNumber off) n
   = (if in_range buf off n then Ok (set_bytes buf (be_bytes (Z.to_nat n) v) off, off + n) else error))
  /\ (~ fits sgn n v ->
      writeLE sgn buf v (JNumber off) n = Throw (ERR_OUT_OF_RANGE "value")
      /\ writeBE sgn buf v (JNumber off) n = Throw (ERR_OUT_OF_RANGE "value")).
Proof.
  intros Hn. split; [|by apply write_value_error]. intros Hf. cbv zeta.
  destruct (in_range buf off n) eqn:E; [|by apply write_offset_error].
  destruct (in_range_split buf off n Hn E) as (pre & mid & post & -> & <- & <- & Hm).
  rewrite !set_bytes_at by (rewrite ?le_bytes_length, ?be_bytes_length; unfold len; lia).
  rewrite to_nat_len. by apply write_at.
Qed.

(** what an integer writer puts into a buffer the reader of the same width,
    sign and byte order gets back. *)
Theorem write_read_roundtrip (sgn : bool) (buf : list Z) (v off n : Z) :
  1 <= n <= 6 -> fits sgn n v -> in_range buf off n = true ->
  exists le be,
    writeLE sgn buf v (JNumber off) n = Ok (le, off + n) /\ readLE sgn le (JNumber off) n = Ok v
    /\ writeBE sgn buf v (JNumber off) n = Ok (be, off + n) /\ readBE sgn be (JNumber off) n = Ok v.
Proof.
  intros Hn Hf E. destruct (in_range_split buf off n Hn E) as (pre & mid & post & -> & <- & <- & Hm).
  destruct (write_at sgn pre mid post v Hm Hf) as [-> ->].
  eexists _, _. split; [done|]. assert (Hl : forall l : list Z, length l = length mid -> len l = len mid)
    by (unfold len; intros l ->; done).
  assert (Hv : (if sgn then signed (length mid) (v mod 2 ^ (8 * len mid)) else v mod 2 ^ (8 * len mid)) = v).
  { unfold fits, len in *. destruct sgn; [apply signed_mod; [lia|done]|]. by apply Z.mod_small. }
  assert (Hln : forall l : list Z, length l = length mid -> (1 <= length l <= 6)%nat) by (intros l ->; done).
  pose proof (le_bytes_length (length mid) v) as L. pose proof (be_bytes_length (length mid) v) as B.
  pose proof (le_value_bytes (length mid) v) as LV. pose proof (be_value_bytes (length mid) v) as BV.
  split; [|split; [done|]]; destruct sgn; cbn [readLE readBE].
  - pose proof (readIntLE_at pre _ post (Hln _ L) (le_bytes_ok _ v)) as R. rewrite (Hl _ L), L, LV in R.
    rewrite R. by f_equal.
  - pose proof (readUIntLE_at pre _ post (Hln _ L)) as R. rewrite (Hl _ L), LV in R. rewrite R. by f_equal.
  - pose proof (readIntBE_at pre _ post (Hln _ B) (be_bytes_ok _ v)) as R. rewrite (Hl _ B), B, BV in R.
    rewrite R. by f_equal.
  - pose proof (readUIntBE_at pre _ post (Hln _ B)) as R. rewrite (Hl _ B), BV in R. rewrite R. by f_equal.
Qed.

(** ** 64 bits *)

Lemma wrtBig_at pre old post v min max :
  length old = 8%nat -> min <= v <= max ->
  wrtBigUInt64LE (pre ++ old ++ post) v (JNumber (len pre)) min max
  = Ok (pre ++ le_bytes 8 v ++ post, len pre + 8)
  /\ wrtBigUInt64BE (pre ++ old ++ post) v (JNumber (len pre)) min max
  = Ok (pre ++ be_bytes 8 v ++ post, len pre + 8).
Proof.
  intros Hn Hv. do 8 (destruct old as [|? old]; [done|]). destruct old; [|done].
  unfold wrtBigUInt64LE, wrtBigUInt64BE.
  change (checkIntBI v min max) with (checkInt v min max).
  rewrite !land_low, Z.shiftr_div_pow2 by lia.
  split; (rewrite checkInt_at by done); eval_stores;
    unfold be_bytes; cbn [le_bytes reverse rev_append app];
    rewrite ?sar_sar, ?byte_sar by lia; unfold to_uint8;
    rewrite ?Z.mod_mod_divide by (by exists (2 ^ 24));
    rewrite ?mod_div_mod, ?Z.div_div by lia; done.
Qed.

Definition writeBig (sgn be : bool) : list Z -> Z -> jsval -> result (list Z * Z) :=
  match sgn, be with
  | false, false => writeBigUInt64LE | false, true => writeBigUInt64BE
  | true, false => writeBigInt64LE | true, true => writeBigInt64BE
  end.

Definition readBig (sgn be : bool) : list Z -> option Z -> result Z :=
  match sgn, be with
  | false, false => readBigUInt64LE | false, true => readBigUInt64BE
  | true, false => readBigInt64LE | true, true => readBigInt64BE
  end.

Lemma readBig_at (sgn be : bool) pre mid post :
  length mid = 8%nat -> bytes_ok mid -> len pre < 2 ^ 32 ->
  let u := if be then be_value mid else le_value mid in
  readBig sgn be (pre ++ mid ++ post) (Some (len pre)) = Ok (if sgn then signed 8 u else u).
Proof.
  intros Hn Hok Hl. do 8 (destruct mid as [|? mid]; [done|]). destruct mid; [|done]. byte_hyps Hok.
  assert (Ho : big_offset (Some (len pre)) = JNumber (len pre)).
  { unfold big_offset, to_uint32. cbn. f_equal. apply Z.mod_small. pose proof (len_nonneg pre). lia. }
  unfold readBig. destruct sgn, be; cbv zeta;
    unfold readBigUInt64LE, readBigUInt64BE, readBigInt64LE, readBigInt64BE; rewrite Ho; eval_reader; f_equal;
    cbn [be_value reverse rev_append le_value]; unfold signed;
    rewrite Z.shiftl_mul_pow2 by lia; rewrite ?shl_24 by (unfold is_byte; lia); sign_cases.
Qed.

(** the 64-bit BigInt writers put the eight bytes of a value in range at the
    offset and the readers of the same sign and byte order get the value back;
    a value out of range or bytes outside the buffer are errors. *)
Theorem bigint_roundtrip (sgn be : bool) (buf : list Z) (v off : Z) :
  len buf <= 2 ^ 32 ->
  (fits sgn 8 v -> in_range buf off 8 = true ->
   exists buf', writeBig sgn be buf v (JNumber off) = Ok (buf', off + 8)
     /\ buf' = set_bytes buf (if be then be_bytes 8 v else le_bytes 8 v) off
     /\ readBig sgn be buf' (Some off) = Ok v)
  /\ (~ fits sgn 8 v -> writeBig sgn be buf v (JNumber off) = Throw (ERR_OUT_OF_RANGE "value"))
  /\ (fits sgn 8 v -> in_range buf off 8 = false ->
      writeBig sgn be buf v (JNumber off) = Throw (boundsError off (len buf - 8) None)).
Proof.
  intros Hlen.
  assert (Hf : fits sgn 8 v <-> (if sgn then -0x8000000000000000 else 0) <= v
                 <= (if sgn then 0x7fffffffffffffff else 0xffffffffffffffff))
    by (destruct sgn; cbn; lia).
  assert (Hw : writeBig sgn be buf v (JNumber off)
               = (if be then wrtBigUInt64BE else wrtBigUInt64LE) buf v (JNumber off)
                   (if sgn then -0x8000000000000000 else 0)
                   (if sgn then 0x7fffffffffffffff else 0xffffffffffffffff))
    by (by destruct sgn, be).
  rewrite Hw, Hf. set (min := if sgn then _ else _). set (max := if sgn then _ else _).
  split; [|split].
  - intros Hv [H1 H2]%in_range_spec.
    destruct (buf_segment buf off 8) as (pre & mid & post & -> & <- & Hm); [lia|lia|].
    destruct (wrtBig_at pre mid post v min max Hm Hv) as [EL EB].
    assert (Hpre : len pre < 2 ^ 32) by (rewrite !len_app in *; pose proof (len_nonneg post); unfold len in *; lia).
    assert (Hv' : (if sgn then signed 8 (v mod 2 ^ 64) else v mod 2 ^ 64) = v).
    { apply Hf in Hv. destruct sgn; [by apply (signed_mod 8); [lia|]|by apply Z.mod_small]. }
    exists (pre ++ (if be then be_bytes 8 v else le_bytes 8 v) ++ post). split; [by destruct be|].
    split; [rewrite set_bytes_at; [done|destruct be; by rewrite ?le_bytes_length, ?be_bytes_length, Hm]|].
    rewrite readBig_at; [| |destruct be; [apply be_bytes_ok|apply le_bytes_ok]|done].
    + f_equal. destruct be; rewrite ?be_value_bytes, ?le_value_bytes; done.
    + destruct be; by rewrite ?le_bytes_length, ?be_bytes_length.
  - intros Hv. assert (Hc : forall m, checkIntBI v min max buf (JNumber off) m = Throw (ERR_OUT_OF_RANGE "value")).
    { intros m. unfold checkIntBI. by destruct (Z.ltb_spec max v); destruct (Z.ltb_spec v min); try done; lia. }
    destruct be; unfold wrtBigUInt64BE, wrtBigUInt64LE; by rewrite Hc.
  - intros Hv Hr. assert (Hc : checkIntBI v min max buf (JNumber off) 7
                               = Throw (boundsError off (len buf - 8) None)).
    { unfold checkIntBI. destruct (Z.ltb_spec max v); [lia|]. destruct (Z.ltb_spec v min); [lia|].
      by apply (checkBounds_out buf off 7). }
    destruct be; unfold wrtBigUInt64BE, wrtBigUInt64LE; by rewrite Hc.
Qed.

(** ** Instances *)

Lemma readUInt_spec_witness :
  let buf := [1; 2; 3; 4; 5; 6; 7] in
  readUIntLE buf (JNumber 1) 3 = Ok 0x040302 /\ readUIntBE buf (JNumber 1) 3 = Ok 0x020304.
Proof.
  pose proof (readUInt_spec [1; 2; 3; 4; 5; 6; 7] 1 3 ltac:(lia)) as H. vm_compute in H |- *. exact H.
Defined.

Lemma readInt_spec_witness :
  let buf := [1; 0xfe; 0xff] in
  readIntLE buf (JNumber 1) 2 = Ok (-2) /\ readIntBE buf (JNumber 1) 2 = Ok (-257).
Proof.
  assert (Hb : bytes_ok [1; 0xfe; 0xff]) by (unfold bytes_ok, is_byte; repeat constructor; lia).
  pose proof (readInt_spec [1; 0xfe; 0xff] 1 2 Hb ltac:(lia)) as H. vm_compute in H |- *. exact H.
Defined.

Lemma write_spec_witness :
  writeLE true [0; 0; 0; 0] (-2) (JNumber 1) 2 = Ok ([0; 0xfe; 0xff; 0], 3)
  /\ writeLE false [0; 0; 0; 0] (-2) (JNumber 1) 2 = Throw (ERR_OUT_OF_RANGE "value").
Proof.
  destruct (write_spec true [0; 0; 0; 0] (-2) 1 2 ltac:(lia)) as [H _].
  destruct (H ltac:(cbn; lia)) as [H1 _].
  destruct (write_spec false [0; 0; 0; 0] (-2) 1 2 ltac:(lia)) as [_ H'].
  destruct (H' ltac:(cbn; lia)) as [H2 _].
  split; [etransitivity; [exact H1|reflexivity]|exact H2].
Defined.

Lemma write_read_roundtrip_witness :
  exists le be,
    writeLE true [0; 0; 0; 0; 0; 0; 0; 0] (-5) (JNumber 1) 6 = Ok (le, 7) /\ readLE true le (JNumber 1) 6 = Ok (-5)
    /\ writeBE true [0; 0; 0; 0; 0; 0; 0; 0] (-5) (JNumber 1) 6 = Ok (be, 7) /\ readBE true be (JNumber 1) 6 = Ok (-5).
Proof. apply (write_read_roundtrip true [0; 0; 0; 0; 0; 0; 0; 0] (-5) 1 6); [lia|cbn; lia|reflexivity]. Defined.

Lemma bigint_roundtrip_witness :
  exists buf', writeBig true true [0; 0; 0; 0; 0; 0; 0; 0] (-5) (JNumber 0) = Ok (buf', 8)
    /\ buf' = set_bytes [0; 0; 0; 0; 0; 0; 0; 0] (be_bytes 8 (-5)) 0
    /\ readBig true true buf' (Some 0) = Ok (-5).
Proof.
  destruct (bigint_roundtrip true true [0; 0; 0; 0; 0; 0; 0; 0] (-5) 0 ltac:(vm_compute; discriminate)) as [H _].
  apply H; [cbn; lia|reflexivity].
Defined.
