(* ===== verification/Codecs.v ===== *)
(** * Text encodings of bytes

    [internal_binding/_utils.ts], and the hexadecimal and latin1 slices of
    [internal/buffer.mjs].  The base64 decoders of [ext:deno_web] are
    parameters. *)

From S2P Require Import Prelude Bytes.

Definition asciiToBytes (str : jsstr) : list Z := (fun c => Z.land c 255) <$> str.

Definition bytesToAscii (bytes : list Z) : jsstr := (fun b => Z.land b 127) <$> bytes.

(** ** Base64 text *)

Definition EQUALS : Z := 61.

(** White space as [trim] and [trimStart] know it. *)
Definition is_space (c : Z) : bool :=
  ((9 <=? c) && (c <=? 13)) || (c =? 32) || (c =? 160) || (c =? 0x1680)
  || ((0x2000 <=? c) && (c <=? 0x200a)) || (c =? 0x2028) || (c =? 0x2029)
  || (c =? 0x202f) || (c =? 0x205f) || (c =? 0x3000) || (c =? 0xfeff).

Fixpoint trimStart (s : jsstr) : jsstr :=
  match s with
  | c :: s' => if is_space c then trimStart s' else s
  | [] => []
  end.

Definition trimEnd (s : jsstr) : jsstr := reverse (trimStart (reverse s)).
Definition trim (s : jsstr) : jsstr := trimEnd (trimStart s).

(** The text before the first unit [c], if there is one. *)
Fixpoint before (c : Z) (s : jsstr) : option jsstr :=
  match s with
  | [] => None
  | x :: s' => if x =? c then Some [] else (x ::.) <$> before c s'
  end.

(** The units [INVALID_BASE64_RE] lets pass. *)
Definition base64_unit (c : Z) : bool :=
  (c =? 43) || (c =? 47) || ((48 <=? c) && (c <=? 57)) || ((65 <=? c) && (c <=? 90))
  || ((97 <=? c) && (c <=? 122)) || (c =? 45) || (c =? 95).

Definition base64clean (str : jsstr) : jsstr :=
  let str := match before EQUALS str with Some s => trimStart s | None => trim str end in
  let str := filter (fun c => base64_unit c = true) str in
  let length_ := len str in
  if length_ <? 2 then []
  else
    match length_ mod 4 with
    | 0 => str
    | 1 => str ++ js "==="
    | 2 => str ++ js "=="
    | _ => str ++ js "="
    end.

Definition replaceAll (a b : Z) (s : jsstr) : jsstr := (fun c => if c =? a then b else c) <$> s.

Definition base64ToBytes (forgivingBase64Decode : jsstr -> result (list Z)) (str : jsstr) : result (list Z) :=
  forgivingBase64Decode (replaceAll 95 47 (replaceAll 45 43 (base64clean str))).

Definition base64UrlToBytes (forgivingBase64UrlDecode : jsstr -> result (list Z)) (str : jsstr) : result (list Z) :=
  forgivingBase64UrlDecode (replaceAll 47 95 (replaceAll 43 45 (base64clean str))).

(** ** Hexadecimal text *)

(** [Number.parseInt(c, 16)] of one unit; [None] is [NaN]. *)
Definition parse_hex (c : option Z) : option Z :=
  match c with
  | None => None
  | Some c =>
      if (48 <=? c) && (c <=? 57) then Some (c - 48)
      else if (97 <=? c) && (c <=? 102) then Some (c - 87)
      else if (65 <=? c) && (c <=? 70) then Some (c - 55)
      else None
  end.

(** The loop of [hexToBytes] with [n] iterations left; [NaN] counts as 0 in
    [(a << 4) | b]. *)
Fixpoint hex_loop (str : jsstr) (n : nat) (i : Z) : list Z :=
  match n with
  | O => []
  | S n' =>
      match parse_hex (charCodeAt str (i * 2)), parse_hex (charCodeAt str (i * 2 + 1)) with
      | None, None => []
      | a, b => to_uint8 (bitor (shl (default 0 a) 4) (default 0 b)) :: hex_loop str n' (i + 1)
      end
  end.

Definition hexToBytes (str : jsstr) : list Z :=
  let length_ := ushr (len str) 1 in
  hex_loop str (Z.to_nat length_) 0.

Definition hex_alphabet : jsstr := js "0123456789abcdef".

(** [hexSliceLookupTable]. *)
Definition hexSliceLookupTable : list jsstr :=
  mbind (M := list) (fun i => (fun j => [byte_at hex_alphabet i; byte_at hex_alphabet j]) <$> seqZ 0 16)
    (seqZ 0 16).

(** [_hexSlice]: [start] and [end] are [undefined] or numbers. *)
Definition _hexSlice (buf : list Z) (start end_ : option Z) : jsstr :=
  let l := len buf in
  let start := match start with Some s => if s <=? 0 then 0 else s | None => 0 end in
  let end_ := match end_ with Some e => if (e <=? 0) || (l <? e) then l else e | None => l end in
  mbind (M := list) (fun i => default [] (at_index hexSliceLookupTable (byte_at buf i))) (seqZ start (end_ - start)).

Definition _latin1Slice (buf : list Z) (start end_ : Z) : jsstr :=
  let end_ := Z.min (len buf) end_ in
  byte_at buf <$> seqZ start (end_ - start).

(** ** UTF-16 *)

(** [view.setUint16(i * 2, c, true)] *)
Definition utf16le_unit (c : Z) : list Z := [to_uint8 c; to_uint8 (Z.shiftr (to_uint16 c) 8)].

Definition utf16leToBytes (str : jsstr) (units : option Z) : list Z :=
  let length_ :=
    match units with
    | Some u => if u =? 0 then len str * 2 else Z.min (len str * 2) (ushr u 1 * 2)
    | None => len str * 2
    end in
  mbind (M := list) (fun i => utf16le_unit (byte_at str i)) (seqZ 0 (length_ / 2)).

Definition bytesToUtf16le (bytes : list Z) : jsstr :=
  (fun i => byte_at bytes (2 * i) + byte_at bytes (2 * i + 1) * 2 ^ 8) <$> seqZ 0 (len bytes / 2).

(** ** Loops over a whole sequence *)

Lemma fmap_seqZ_take {B} (f : Z -> B) (l : list Z) n :
  n <= len l -> (fun i => f (byte_at l i)) <$> seqZ 0 n = f <$> take (Z.to_nat n) l.
Proof.
  intros Hn. apply list_eq. intros i. rewrite !list_lookup_fmap. unfold len in Hn.
  destruct (decide (Z.of_nat i < n)).
  - rewrite lookup_seqZ_lt, lookup_take_lt by lia. cbn. unfold byte_at. rewrite Z.add_0_l, at_index_lookup.
    destruct (lookup_lt_is_Some_2 l i) as [x ->]; [lia|]. done.
  - rewrite lookup_seqZ_ge by lia. by rewrite lookup_take_ge by lia.
Qed.

Lemma bind_seqZ_take {B} (f : Z -> list B) (l : list Z) n :
  n <= len l ->
  mbind (M := list) (fun i => f (byte_at l i)) (seqZ 0 n) = mbind (M := list) f (take (Z.to_nat n) l).
Proof.
  assert (E : forall (g : Z -> list B) s, mbind (M := list) g s = concat (g <$> s)).
  { intros g s. induction s as [|x s IH]; [done|]. cbn. by rewrite <- IH. }
  intros Hn. rewrite (E (fun i => f (byte_at l i))), fmap_seqZ_take by done. by rewrite <- E.
Qed.

Lemma fmap_seqZ_slice {B} (f : Z -> B) (l : list Z) a b :
  0 <= a <= b -> b <= len l ->
  (fun i => f (byte_at l i)) <$> seqZ a (b - a) = f <$> slice l a b.
Proof.
  intros Ha Hb. unfold slice, rel_index. destruct (Z.ltb_spec a 0); [lia|]. destruct (Z.ltb_spec b 0); [lia|].
  rewrite !Z.min_l by lia. apply list_eq. intros i. rewrite !list_lookup_fmap. unfold len in Hb.
  destruct (decide (Z.of_nat i < b - a)).
  - rewrite lookup_seqZ_lt, lookup_take_lt, lookup_drop by lia. cbn. unfold byte_at, at_index.
    destruct (Z.ltb_spec (a + Z.of_nat i) 0); [lia|].
    replace (Z.to_nat (a + Z.of_nat i)) with (Z.to_nat a + i)%nat by lia.
    destruct (lookup_lt_is_Some_2 l (Z.to_nat a + i)) as [x ->]; [lia|]. done.
  - rewrite lookup_seqZ_ge by lia. by rewrite lookup_take_ge by lia.
Qed.

Lemma mbind_concat {A B} (g : A -> list B) s : mbind (M := list) g s = List.concat (g <$> s).
Proof. induction s as [|x s IH]; [done|]. cbn. by rewrite <- IH. Qed.

Lemma take_len {A} (l : list A) : take (Z.to_nat (len l)) l = l.
Proof. apply take_ge. unfold len. lia. Qed.

(** ** Hexadecimal round trip *)

Definition hex_pair (b : Z) : jsstr := default [] (at_index hexSliceLookupTable b).

Definition hex_pair_ok (b : Z) : bool :=
  match hex_pair b with
  | [x; y] =>
      match parse_hex (Some x), parse_hex (Some y) with
      | Some h, Some l => to_uint8 (bitor (shl h 4) l) =? b
      | _, _ => false
      end
  | _ => false
  end.

(** Every entry of the table reads back as its index. *)
Lemma hex_pair_reads b :
  is_byte b ->
  exists x y h l, hex_pair b = [x; y] /\ parse_hex (Some x) = Some h /\ parse_hex (Some y) = Some l
    /\ to_uint8 (bitor (shl h 4) l) = b.
Proof.
  intros Hb. assert (H : hex_pair_ok b = true).
  { assert (Hall : forallb hex_pair_ok (seqZ 0 256) = true) by (vm_compute; reflexivity).
    rewrite forallb_forall in Hall. apply Hall. apply list_elem_of_In, elem_of_seqZ. unfold is_byte in Hb. lia. }
  unfold hex_pair_ok in H. destruct (hex_pair b) as [|x [|y [|]]]; try done.
  destruct (parse_hex (Some x)) as [h|] eqn:Ex; [|done]. destruct (parse_hex (Some y)) as [l|] eqn:Ey; [|done].
  apply Z.eqb_eq in H. by exists x, y, h, l.
Qed.

Lemma hex_text_length bs : bytes_ok bs -> len (mbind (M := list) hex_pair bs) = 2 * len bs.
Proof.
  induction 1 as [|b bs Hb Hbs IH]; [done|]. destruct (hex_pair_reads b Hb) as (x & y & h & l & E & _).
  rewrite bind_cons, E. cbn [app]. rewrite !len_cons, IH. lia.
Qed.

Lemma hex_loop_reads bs p i :
  bytes_ok bs -> len p = 2 * i -> hex_loop (p ++ mbind (M := list) hex_pair bs) (length bs) i = bs.
Proof.
  intros Hbs. revert p i. induction Hbs as [|b bs Hb Hbs IH]; intros p i Hp; [done|].
  destruct (hex_pair_reads b Hb) as (x & y & h & l & E & Ex & Ey & Eb).
  cbn [length hex_loop]. rewrite bind_cons, E. cbn [app]. unfold charCodeAt.
  replace (i * 2) with (len p) by lia. rewrite at_index_mid, at_index_at by lia.
  change (Z.to_nat 1) with 1%nat. cbn [lookup list_lookup]. rewrite Ex, Ey. cbn [from_option id]. rewrite Eb.
  f_equal. specialize (IH (p ++ [x; y]) (i + 1)). rewrite <- app_assoc in IH. apply IH.
  rewrite len_app, len_cons, len_cons, len_nil. lia.
Qed.

Lemma hexSlice_text bs : _hexSlice bs None None = mbind (M := list) hex_pair bs.
Proof. unfold _hexSlice. rewrite Z.sub_0_r.
  etransitivity; [exact (bind_seqZ_take hex_pair bs (len bs) ltac:(lia))|]. by rewrite take_len. Qed.

Lemma hexToBytes_text bs :
  bytes_ok bs -> 2 * len bs < 2 ^ 32 -> hexToBytes (mbind (M := list) hex_pair bs) = bs.
Proof.
  intros Hok Hlen. pose proof (len_nonneg bs). unfold hexToBytes.
  rewrite hex_text_length, ushr_div by done.
  rewrite Z.mod_small by lia. change (2 ^ 1) with 2. rewrite Z.mul_comm, Z.div_mul by lia.
  unfold len. rewrite Nat2Z.id. by apply (hex_loop_reads bs [] 0).
Qed.

(** hexadecimal text reads back: [hexToBytes] of what [hexSlice] writes for
    a buffer is the buffer, up to the length that [>>>] can halve. *)
Theorem hex_roundtrip (bs : list Z) :
  bytes_ok bs -> 2 * len bs < 2 ^ 32 -> hexToBytes (_hexSlice bs None None) = bs.
Proof. intros Hok Hlen. rewrite hexSlice_text. by apply hexToBytes_text. Qed.

Lemma hex_roundtrip_witness : hexToBytes (_hexSlice [0; 10; 255] None None) = [0; 10; 255].
Proof. apply hex_roundtrip; [unfold bytes_ok, is_byte; repeat constructor; lia|vm_compute; reflexivity]. Defined.

(** ** UTF-16 round trips *)

Definition units16 (s : jsstr) : Prop := Forall (fun c => 0 <= c < 2 ^ 16) s.

Lemma utf16le_unit_eq c : 0 <= c < 2 ^ 16 -> utf16le_unit c = le_bytes 2 c.
Proof.
  intros Hc. unfold utf16le_unit, to_uint16, to_uint8. cbn [le_bytes].
  rewrite (Z.mod_small c (2 ^ 16)), Z.shiftr_div_pow2 by lia. done.
Qed.

Lemma utf16leToBytes_text s : utf16leToBytes s None = mbind (M := list) utf16le_unit s.
Proof.
  unfold utf16leToBytes. rewrite Z.div_mul, (bind_seqZ_take utf16le_unit), take_len by lia. done.
Qed.

Lemma utf16_lookup s (i : nat) c :
  s !! i = Some c ->
  mbind (M := list) utf16le_unit s !! (2 * i)%nat = Some (to_uint8 c)
  /\ mbind (M := list) utf16le_unit s !! (2 * i + 1)%nat = Some (to_uint8 (Z.shiftr (to_uint16 c) 8)).
Proof.
  revert i. induction s as [|x s IH]; intros i Hi; [done|]. rewrite bind_cons. cbn [utf16le_unit app].
  destruct i as [|i]; [injection Hi as ->; done|].
  replace (2 * S i)%nat with (S (S (2 * i))) by lia.
  replace (S (S (2 * i)) + 1)%nat with (S (S (2 * i + 1))) by lia. by apply IH.
Qed.

Lemma utf16_length s : len (mbind (M := list) utf16le_unit s) = 2 * len s.
Proof. induction s as [|x s IH]; [done|]. rewrite bind_cons. cbn [utf16le_unit app]. rewrite !len_cons, IH. lia. Qed.

Lemma bytesToUtf16le_units s : units16 s -> bytesToUtf16le (mbind (M := list) utf16le_unit s) = s.
Proof.
  intros Hs. unfold bytesToUtf16le. rewrite utf16_length, Z.mul_comm, Z.div_mul by lia.
  apply list_eq. intros i. rewrite list_lookup_fmap. destruct (s !! i) as [c|] eqn:Ei.
  - pose proof (lookup_lt_Some _ _ _ Ei). rewrite lookup_seqZ_lt by (unfold len; lia). cbn. f_equal.
    destruct (utf16_lookup s i c Ei) as [E1 E2]. unfold byte_at.
    replace (2 * (0 + Z.of_nat i)) with (Z.of_nat (2 * i)) by lia.
    replace (Z.of_nat (2 * i) + 1) with (Z.of_nat (2 * i + 1)) by lia.
    rewrite !at_index_lookup, E1, E2. cbn [from_option id].
    unfold units16 in Hs. rewrite Forall_lookup in Hs. specialize (Hs i c Ei).
    pose proof (le_value_bytes 2 c) as Hv. rewrite <- utf16le_unit_eq in Hv by done.
    cbn [utf16le_unit le_value] in Hv. rewrite Z.mod_small in Hv by (cbn; lia). lia.
  - apply lookup_ge_None in Ei. rewrite lookup_seqZ_ge; [done|]. unfold len. lia.
Qed.

Lemma fmap_id_Forall (P : Z -> Prop) f (s : list Z) :
  (forall c, P c -> f c = c) -> Forall P s -> f <$> s = s.
Proof. intros Hf. induction 1 as [|c s Hc Hs IH]; [done|]. cbn. by rewrite Hf, IH. Qed.

Lemma asciiToBytes_id s : Forall (fun c => 0 <= c < 2 ^ 8) s -> asciiToBytes s = s.
Proof.
  apply fmap_id_Forall. intros c Hc. change 255 with (Z.ones 8). rewrite Z.land_ones by lia. by apply Z.mod_small.
Qed.

(** the other text encodings read back what they write: UTF-16 for every
    string, latin1 for units below 256 and ASCII for units below 128.  A bound
    on the bytes cuts the UTF-16 text to whole units. *)
Theorem utf16le_latin1_ascii_roundtrip (s : jsstr) (u : Z) :
  units16 s -> 0 < u < 2 ^ 32 ->
  bytesToUtf16le (utf16leToBytes s None) = s
  /\ bytesToUtf16le (utf16leToBytes s (Some u)) = take (Z.to_nat (u / 2)) s
  /\ (Forall (fun c => c < 2 ^ 8) s -> _latin1Slice (asciiToBytes s) 0 (len s) = s)
  /\ (Forall (fun c => c < 2 ^ 7) s -> bytesToAscii (asciiToBytes s) = s).
Proof.
  intros Hs Hu. split; [|split; [|split]].
  - rewrite utf16leToBytes_text. by apply bytesToUtf16le_units.
  - assert (E : utf16leToBytes s (Some u) = utf16leToBytes (take (Z.to_nat (u / 2)) s) None).
    { rewrite utf16leToBytes_text. unfold utf16leToBytes. destruct (Z.eqb_spec u 0); [lia|].
      rewrite ushr_div, Z.mod_small by lia. change (2 ^ 1) with 2.
      rewrite Z.mul_min_distr_nonneg_r, Z.div_mul, (bind_seqZ_take utf16le_unit) by lia.
      f_equal. assert (0 <= u / 2) by (apply Z.div_pos; lia).
      destruct (Z.min_spec (len s) (u / 2)) as [[? ->]|[? ->]]; [|done].
      rewrite take_len, take_ge; [done|]. unfold len in *. lia. }
    rewrite E, utf16leToBytes_text. apply bytesToUtf16le_units. by apply Forall_take.
  - intros Hl. rewrite asciiToBytes_id by (apply Forall_and; split; [|done]; eapply Forall_impl; [exact Hs|cbn; lia]).
    unfold _latin1Slice. rewrite Z.min_id, Z.sub_0_r.
    etransitivity; [exact (fmap_seqZ_take (fun x => x) s (len s) ltac:(lia))|]. by rewrite take_len, list_fmap_id.
  - intros Hl.
    assert (Hs7 : Forall (fun c => 0 <= c < 2 ^ 7) s)
      by (apply Forall_and; split; [|done]; eapply Forall_impl; [exact Hs|cbn; lia]).
    rewrite asciiToBytes_id by (eapply Forall_impl; [exact Hs7|cbn; lia]).
    unfold bytesToAscii. apply (fmap_id_Forall (fun c => 0 <= c < 2 ^ 7)); [|done].
    intros c Hc. change 127 with (Z.ones 7). rewrite Z.land_ones by lia. by apply Z.mod_small.
Qed.

Lemma utf16le_latin1_ascii_roundtrip_witness :
  bytesToUtf16le (utf16leToBytes (js "abc") None) = js "abc"
  /\ bytesToUtf16le (utf16leToBytes (js "abc") (Some 5)) = take (Z.to_nat (5 / 2)) (js "abc")
  /\ (Forall (fun c => c < 2 ^ 8) (js "abc") -> _latin1Slice (asciiToBytes (js "abc")) 0 (len (js "abc")) = js "abc")
  /\ (Forall (fun c => c < 2 ^ 7) (js "abc") -> bytesToAscii (asciiToBytes (js "abc")) = js "abc").
Proof.
  apply utf16le_latin1_ascii_roundtrip; [|lia]. unfold units16. repeat constructor; vm_compute; discriminate.
Defined.

(** ** Cleaning base64 text *)

Lemma space_not_base64 c : is_space c = true -> base64_unit c = false.
Proof. unfold is_space, base64_unit. lia. Qed.

Lemma filter_trimStart s :
  filter (fun c => base64_unit c = true) (trimStart s) = filter (fun c => base64_unit c = true) s.
Proof.
  induction s as [|c s IH]; [done|]. cbn [trimStart]. destruct (is_space c) eqn:E; [|done].
  rewrite IH, filter_cons_False; [done|]. by rewrite (space_not_base64 c E).
Qed.

Lemma filter_trim s :
  filter (fun c => base64_unit c = true) (trim s) = filter (fun c => base64_unit c = true) s.
Proof.
  unfold trim, trimEnd. rewrite filter_reverse, filter_trimStart, <- filter_reverse.
  by rewrite reverse_involutive, filter_trimStart.
Qed.

Lemma before_fresh (c : Z) (t r : jsstr) : Forall (fun x => x <> c) t -> before c (t ++ c :: r) = Some t.
Proof.
  induction 1 as [|x t Hx Ht IH]; cbn [app before]; [by rewrite Z.eqb_refl|].
  destruct (Z.eqb_spec x c); [done|]. by rewrite IH.
Qed.

Lemma before_none (c : Z) (t : jsstr) : Forall (fun x => x <> c) t -> before c t = None.
Proof.
  induction 1 as [|x t Hx Ht IH]; [done|]. cbn [before]. destruct (Z.eqb_spec x c); [done|]. by rewrite IH.
Qed.

Definition padding (n : Z) : jsstr := replicate (Z.to_nat ((4 - n mod 4) mod 4)) EQUALS.

Definition padded (t : jsstr) : jsstr := if len t <? 2 then [] else t ++ padding (len t).

Lemma base64clean_padded s :
  base64clean s = padded (filter (fun c => base64_unit c = true) (default s (before EQUALS s))).
Proof.
  unfold base64clean, padded. set (t := filter _ (match before EQUALS s with Some _ => _ | None => _ end)).
  assert (E : t = filter (fun c => base64_unit c = true) (default s (before EQUALS s))).
  { subst t. destruct (before EQUALS s); cbn [from_option id]; [apply filter_trimStart|apply filter_trim]. }
  rewrite <- E. destruct (Z.ltb_spec (len t) 2); [done|]. unfold padding.
  pose proof (Z.mod_pos_bound (len t) 4 ltac:(lia)) as Hm.
  assert (Hc : len t mod 4 = 0 \/ len t mod 4 = 1 \/ len t mod 4 = 2 \/ len t mod 4 = 3) by lia.
  destruct Hc as [->|[->|[->| ->]]]; cbn; by rewrite ?app_nil_r.
Qed.

(** [base64clean] keeps the base64 units before the first equal sign, drops
    everything else, and pads the rest to a multiple of four units; fewer than
    two units are no text at all.  Cleaning twice changes nothing. *)
Theorem base64clean_spec (s : jsstr) :
  let t := filter (fun c => base64_unit c = true) (default s (before EQUALS s)) in
  base64clean s = (if len t <? 2 then [] else t ++ padding (len t))
  /\ len (base64clean s) mod 4 = 0
  /\ base64clean (base64clean s) = base64clean s.
Proof.
  cbv zeta. rewrite !base64clean_padded. set (t := filter _ (default s _)).
  assert (Ht : Forall (fun c => base64_unit c = true) t) by (apply Forall_forall; intros c [Hc _]%list_elem_of_filter; done).
  assert (Hne : Forall (fun c => c <> EQUALS) t).
  { eapply Forall_impl; [exact Ht|]. by intros c Hc ->. }
  split; [done|]. split.
  - unfold padded, padding. destruct (Z.ltb_spec (len t) 2); [done|].
    rewrite len_app. unfold len at 2. rewrite length_replicate, Z2Nat.id by (apply Z.mod_pos_bound; lia).
    rewrite <- Zplus_mod_idemp_l, Zplus_mod_idemp_r. replace (len t mod 4 + (4 - len t mod 4)) with 4 by lia. done.
  - assert (Hb : default (padded t) (before EQUALS (padded t)) = if len t <? 2 then [] else t).
    { unfold padded. destruct (len t <? 2); [done|]. unfold padding.
      destruct (Z.to_nat ((4 - len t mod 4) mod 4)) as [|n]; cbn [replicate].
      - by rewrite app_nil_r, before_none.
      - by rewrite before_fresh. }
    rewrite Hb. unfold padded at 2. destruct (len t <? 2) eqn:E; [done|].
    replace (filter (fun c => base64_unit c = true) t) with t; [by unfold padded; rewrite E|].
    symmetry. clear -Ht. induction Ht as [|c l Hc Hl IH]; [done|]. by rewrite filter_cons_True, IH.
Qed.
