(* ===== verification/BufferSearch.v ===== *)
(** * Searching buffers: [internal_binding/buffer.ts] *)

From S2P Require Import Prelude Bytes.

(** [source[i] !== x] where an index out of range is [undefined], which no byte
    equals, and two [undefined]s are equal. *)
Definition same_byte (x y : option Z) : bool := bool_decide (x = y).

(** The inner loop of [indexOfNeedle]: [n] bytes of the needle are left to
    compare, [matched] have matched. *)
Fixpoint match_needle (source needle : list Z) (pin : Z) (n : nat) (matched : Z) : Z :=
  match n with
  | O => matched
  | S n' =>
      let j := pin + matched in
      if negb (same_byte (at_index source j) (at_index needle (j - pin))) then matched
      else match_needle source needle pin n' (matched + 1)
  end.

Fixpoint needle_loop (source needle : list Z) (n : nat) (i : Z) : Z :=
  match n with
  | O => -1
  | S n' =>
      if negb (same_byte (at_index source i) (at_index needle 0)) then needle_loop source needle n' (i + 1)
      else
        let matched := match_needle source needle i (length needle - 1) 1 in
        if matched =? len needle then i else needle_loop source needle n' (i + 1)
  end.

Definition indexOfNeedle (source needle : list Z) (start : Z) : Z :=
  if len source <=? start then -1
  else
    let start := if start <? 0 then Z.max 0 (len source + start) else start in
    needle_loop source needle (Z.to_nat (len source - start)) start.

(** [while (n >= 256)]: after the first [>>> 8] the number is below [2 ^ 24], so
    four iterations are enough for every number. *)
Fixpoint number_loop (fuel : nat) (n : Z) (bytes : list Z) : list Z :=
  match fuel with
  | O => bytes
  | S fuel =>
      if 256 <=? n then
        let n := ushr n 8 in number_loop fuel n (bitand n 255 :: bytes)
      else bytes
  end.

Definition numberToBytes (n : Z) : list Z :=
  if n =? 0 then [0] else number_loop 4 n [bitand n 255].

(** The variables of the loop of [findLastIndex]. *)
Record last_state := LS { ls_x : Z; ls_lastMatchIndex : Z; ls_matches : Z }.

(** One iteration, with [x++] at its end; [inl] is the [index] found. *)
Definition last_step (searchableBuffer buffer : list Z) (st : last_state) : Z + last_state :=
  let searchableBufferLastIndex := len searchableBuffer - 1 in
  let bufferLastIndex := len buffer - 1 in
  let '(LS x lastMatchIndex matches) := st in
  if same_byte (at_index searchableBuffer (searchableBufferLastIndex - x))
               (at_index buffer (bufferLastIndex - matches))
  then
    let lastMatchIndex := if lastMatchIndex =? -1 then x else lastMatchIndex in
    let matches := matches + 1 in
    if matches =? len buffer then inl x else inr (LS (x + 1) lastMatchIndex matches)
  else if negb (lastMatchIndex =? -1) then inr (LS (lastMatchIndex + 1 + 1) (-1) 0)
  else inr (LS (x + 1) lastMatchIndex 0).

(** [None] when the fuel runs out; [-1] when the loop ends without a match. *)
Fixpoint last_loop (fuel : nat) (searchableBuffer buffer : list Z) (st : last_state) : option Z :=
  match fuel with
  | O => None
  | S fuel =>
      if len searchableBuffer - 1 <? ls_x st then Some (-1)
      else
        match last_step searchableBuffer buffer st with
        | inl index => Some index
        | inr st => last_loop fuel searchableBuffer buffer st
        end
  end.

Definition last_fuel (searchableBuffer buffer : list Z) : nat :=
  ((length searchableBuffer + 2) * (length buffer + 2))%nat.

Definition findLastIndex (targetBuffer buffer : list Z) (offset : Z) : option Z :=
  let offset := if len targetBuffer <? offset then len targetBuffer else offset in
  let searchableBuffer := slice targetBuffer 0 (offset + len buffer) in
  index ← last_loop (last_fuel searchableBuffer buffer) searchableBuffer buffer (LS 0 (-1) 0);
  Some (if index =? -1 then index else len searchableBuffer - 1 - index).

(** The test of the encoding, [!Encodings[encoding] === undefined], compares a
    boolean with [undefined] and never fails. *)
Definition indexOfBuffer (targetBuffer buffer : list Z) (byteOffset : Z) (forwardDirection : bool) : option Z :=
  if negb forwardDirection then
    let byteOffset := if byteOffset <? 0 then len targetBuffer + byteOffset else byteOffset in
    if len buffer =? 0 then Some (if byteOffset <=? len targetBuffer then byteOffset else len targetBuffer)
    else findLastIndex targetBuffer buffer byteOffset
  else if len buffer =? 0 then
    Some (if byteOffset <=? len targetBuffer then byteOffset else len targetBuffer)
  else Some (indexOfNeedle targetBuffer buffer byteOffset).

Definition indexOfNumber (targetBuffer : list Z) (number byteOffset : Z) (forwardDirection : bool)
    : result (option Z) :=
  let bytes := numberToBytes number in
  if 1 <? len bytes then Throw (Error "Multi byte number search is not supported")
  else Ok (indexOfBuffer targetBuffer (numberToBytes number) byteOffset forwardDirection).

(** ** Searching forward *)

(** [needle] occurs in [source] at [i]. *)
Definition occurs (source needle : list Z) (i : Z) : Prop :=
  0 <= i /\ take (length needle) (drop (Z.to_nat i) source) = needle.

Lemma occurs_lookup source needle i :
  0 <= i ->
  occurs source needle i <->
  forall k, 0 <= k < len needle -> at_index source (i + k) = at_index needle k.
Proof.
  intros Hi. unfold occurs. split.
  - intros [_ E] k Hk. unfold at_index. destruct (Z.ltb_spec (i + k) 0); [lia|].
    destruct (Z.ltb_spec k 0); [lia|]. rewrite <- E at 1.
    rewrite lookup_take_lt, lookup_drop by (unfold len in Hk; lia). f_equal. lia.
  - intros H. split; [done|]. apply list_eq. intros k. destruct (decide (k < length needle)%nat).
    + rewrite lookup_take_lt, lookup_drop by done. specialize (H (Z.of_nat k)).
      rewrite at_index_lookup in H. rewrite <- H by (unfold len; lia). unfold at_index.
      destruct (Z.ltb_spec (i + Z.of_nat k) 0); [lia|]. f_equal. lia.
    + rewrite lookup_take_ge by lia. by rewrite lookup_ge_None_2 by lia.
Qed.

Lemma match_needle_spec source needle pin n matched :
  0 <= matched -> matched + Z.of_nat n = len needle ->
  let m := match_needle source needle pin n matched in
  matched <= m <= len needle
  /\ (forall k, matched <= k < m -> at_index source (pin + k) = at_index needle k)
  /\ (m < len needle -> at_index source (pin + m) <> at_index needle m).
Proof.
  revert matched. induction n as [|n IH]; intros matched Hm Hn; cbn [match_needle].
  - split; [lia|]. split; [intros; lia|lia].
  - replace (pin + matched - pin) with matched by lia.
    destruct (same_byte _ _) eqn:E; cbn [negb].
    + apply bool_decide_eq_true in E. destruct (IH (matched + 1)) as (H1 & H2 & H3); [lia|lia|].
      split; [lia|]. split; [|done]. intros k Hk. destruct (decide (k = matched)) as [->|]; [done|]. apply H2. lia.
    + apply bool_decide_eq_false in E. split; [lia|]. split; [intros; lia|done].
Qed.

(** One candidate of the outer loop. *)
Lemma needle_test source needle i :
  needle <> [] -> 0 <= i ->
  occurs source needle i <->
  same_byte (at_index source i) (at_index needle 0) = true
  /\ match_needle source needle i (length needle - 1) 1 = len needle.
Proof.
  intros Hne Hi. rewrite occurs_lookup by done. pose proof (len_pos needle Hne).
  destruct (match_needle_spec source needle i (length needle - 1) 1) as (H1 & H2 & H3);
    [lia|unfold len in *; lia|]. unfold same_byte. rewrite bool_decide_eq_true. split.
  - intros Ho. split; [rewrite <- (Z.add_0_r i) at 1; apply Ho; lia|].
    destruct (decide (match_needle source needle i (length needle - 1) 1 = len needle)); [done|].
    exfalso. apply H3; [lia|]. apply Ho. lia.
  - intros [E0 Em] k Hk. destruct (decide (k = 0)) as [->|]; [by rewrite Z.add_0_r|]. apply H2. lia.
Qed.

(** [r] is the first place from [start] on where the needle occurs, or [-1]. *)
Definition first_occurrence (source needle : list Z) (start r : Z) : Prop :=
  (r = -1 /\ forall i, start <= i -> ~ occurs source needle i)
  \/ (start <= r /\ occurs source needle r /\ forall i, start <= i < r -> ~ occurs source needle i).

Lemma occurs_bound source needle i : needle <> [] -> occurs source needle i -> i < len source.
Proof.
  intros Hne Ho. pose proof (len_pos needle Hne). pose proof (proj1 Ho).
  rewrite occurs_lookup in Ho by done. specialize (Ho 0 ltac:(lia)). rewrite Z.add_0_r in Ho.
  destruct (decide (i < len source)); [done|]. exfalso.
  unfold at_index in Ho. destruct (Z.ltb_spec i 0); [lia|]. rewrite lookup_ge_None_2 in Ho by (unfold len in *; lia).
  by destruct needle.
Qed.

Lemma needle_loop_spec source needle n i :
  needle <> [] -> 0 <= i -> i + Z.of_nat n = len source ->
  first_occurrence source needle i (needle_loop source needle n i).
Proof.
  intros Hne. revert i. induction n as [|n IH]; intros i Hi Hn; cbn [needle_loop].
  - left. split; [done|]. intros k Hk Ho. apply occurs_bound in Ho; [lia|done].
  - pose proof (needle_test source needle i Hne Hi) as Ht.
    assert (Hskip : ~ occurs source needle i ->
              first_occurrence source needle i (needle_loop source needle n (i + 1))).
    { intros Hno. destruct (IH (i + 1)) as [[E H]|(H1 & H2 & H3)]; [lia|lia| |].
      - left. split; [done|]. intros k Hk. destruct (decide (k = i)) as [->|]; [done|]. apply H. lia.
      - right. split; [lia|]. split; [done|]. intros k Hk. destruct (decide (k = i)) as [->|]; [done|]. apply H3. lia. }
    destruct (same_byte _ _) eqn:Es; cbn [negb]; [|apply Hskip; rewrite Ht; naive_solver].
    destruct (Z.eqb_spec (match_needle source needle i (length needle - 1) 1) (len needle)) as [Em|Em].
    + right. split; [lia|]. split; [by apply Ht|]. intros; lia.
    + apply Hskip. rewrite Ht. naive_solver.
Qed.

Lemma indexOfNeedle_occurrence source needle start :
  needle <> [] ->
  first_occurrence source needle (if start <? 0 then Z.max 0 (len source + start) else start)
    (indexOfNeedle source needle start).
Proof.
  intros Hne. unfold indexOfNeedle. pose proof (len_nonneg source).
  destruct (Z.leb_spec (len source) start).
  - destruct (Z.ltb_spec start 0); [lia|]. left. split; [done|]. intros i Hi Ho.
    apply occurs_bound in Ho; [lia|done].
  - destruct (Z.ltb_spec start 0); apply needle_loop_spec; try done; lia.
Qed.

(** the forward search [indexOfBuffer] returns the first position at or
    after the offset (counted from the end when negative) at which the needle
    occurs, and [-1] exactly when there is none. *)
Theorem indexOfBuffer_first (source needle : list Z) (start : Z) :
  needle <> [] ->
  exists r, indexOfBuffer source needle start true = Some r
    /\ first_occurrence source needle (if start <? 0 then Z.max 0 (len source + start) else start) r.
Proof.
  intros Hne. pose proof (len_pos needle Hne). unfold indexOfBuffer. cbn [negb].
  destruct (Z.eqb_spec (len needle) 0); [lia|]. eexists. split; [done|]. by apply indexOfNeedle_occurrence.
Qed.

Lemma indexOfBuffer_first_witness :
  exists r, indexOfBuffer [1; 2; 1; 2; 3] [1; 2; 3] 0 true = Some r
    /\ first_occurrence [1; 2; 1; 2; 3] [1; 2; 3] 0 r.
Proof. apply (indexOfBuffer_first [1; 2; 1; 2; 3] [1; 2; 3] 0). discriminate. Defined.

(** ** Searching backward *)

Section Last.
Context (S_ B : list Z).

(** [matches] bytes from [lastMatchIndex] on, counted from the end, agree with
    the end of the needle. *)
Record last_inv (st : last_state) : Prop := {
  li_x : 0 <= ls_x st;
  li_none : ls_lastMatchIndex st = -1 <-> ls_matches st = 0;
  li_start : ls_lastMatchIndex st <> -1 -> ls_lastMatchIndex st = ls_x st - ls_matches st;
  li_range : 0 <= ls_matches st < len B /\ -1 <= ls_lastMatchIndex st <= ls_x st;
  li_match k : 0 <= k < ls_matches st ->
    at_index S_ (len S_ - 1 - (ls_x st - ls_matches st + k)) = at_index B (len B - 1 - k)
}.

Definition last_measure (st : last_state) : Z :=
  let base := if ls_lastMatchIndex st =? -1 then ls_x st else ls_lastMatchIndex st in
  (len S_ + 1 - base) * (len B + 1) + (len B - ls_matches st).

Lemma last_step_inv st :
  last_inv st -> ls_x st <= len S_ - 1 ->
  match last_step S_ B st with
  | inl index => 0 <= index <= len S_ - 1 /\ occurs S_ B (len S_ - 1 - index)
  | inr st' => last_inv st' /\ last_measure st' < last_measure st /\ ls_x st' <= len S_ + 1
  end.
Proof.
  destruct st as [x lm m]. intros [Hx Hn Hs Hr Hm] Hle. cbn [ls_x ls_lastMatchIndex ls_matches] in *.
  unfold last_step, last_measure. destruct (same_byte _ _) eqn:E.
  - apply bool_decide_eq_true in E. destruct (Z.eqb_spec (m + 1) (len B)) as [Em|Em].
    + assert (Hlen : len B - 1 <= x).
      { destruct (decide (lm = -1)) as [->|Hlm]; [|specialize (Hs Hlm); lia].
        assert (m = 0) by (by apply Hn). lia. }
      assert (Hall : forall k, 0 <= k < len B -> at_index S_ (len S_ - 1 - x + k) = at_index B k).
      { intros k Hk. destruct (decide (k = 0)) as [->|].
        - rewrite Z.add_0_r, E. f_equal. lia.
        - specialize (Hm (len B - 1 - k) ltac:(lia)).
          replace (len S_ - 1 - x + k) with (len S_ - 1 - (x - m + (len B - 1 - k))) by lia.
          rewrite Hm. f_equal. lia. }
      split; [lia|]. apply occurs_lookup; [lia|done].
    + split; [|split].
      * split; cbn [ls_x ls_lastMatchIndex ls_matches].
        -- lia.
        -- destruct (Z.eqb_spec lm (-1)); lia.
        -- intros _. destruct (Z.eqb_spec lm (-1)) as [->|Hlm]; [|specialize (Hs Hlm); lia].
           assert (m = 0) by (by apply Hn). lia.
        -- destruct (Z.eqb_spec lm (-1)); lia.
        -- intros k Hk. destruct (decide (k = m)) as [->|].
           ++ replace (x + 1 - (m + 1) + m) with x by lia. done.
           ++ replace (x + 1 - (m + 1) + k) with (x - m + k) by lia. apply Hm. lia.
      * cbn [ls_x ls_lastMatchIndex ls_matches]. destruct (Z.eqb_spec lm (-1)) as [->|Hlm].
        -- destruct (Z.eqb_spec x (-1)); [lia|]. lia.
        -- destruct (Z.eqb_spec lm (-1)); [done|]. lia.
      * cbn. lia.
  - destruct (Z.eqb_spec lm (-1)) as [->|Hlm]; cbn [negb].
    + assert (m = 0) by (by apply Hn). subst m.
      split; [split; cbn [ls_x ls_lastMatchIndex ls_matches]; lia|].
      split; [|cbn; lia]. cbn [ls_x ls_lastMatchIndex ls_matches Z.eqb Pos.eqb]. nia.
    + split; [split; cbn [ls_x ls_lastMatchIndex ls_matches]; lia|].
      split; [|cbn; lia]. cbn [ls_x ls_lastMatchIndex ls_matches Z.eqb Pos.eqb].
      destruct (Z.eqb_spec lm (-1)); [done|]. nia.
Qed.

Lemma last_loop_spec fuel st :
  last_inv st -> ls_x st <= len S_ + 1 -> last_measure st < Z.of_nat fuel ->
  exists index, last_loop fuel S_ B st = Some index
    /\ (index = -1 \/ 0 <= index <= len S_ - 1 /\ occurs S_ B (len S_ - 1 - index)).
Proof.
  revert st. induction fuel as [|fuel IH]; intros st Hi Hx Hf.
  - exfalso. destruct Hi as [? ? ? [? ?] _]. unfold last_measure in Hf.
    pose proof (len_nonneg S_). destruct (Z.eqb_spec (ls_lastMatchIndex st) (-1)); nia.
  - cbn [last_loop]. destruct (Z.ltb_spec (len S_ - 1) (ls_x st)).
    + exists (-1). split; [done|by left].
    + pose proof (last_step_inv st Hi ltac:(lia)) as Hstep. destruct (last_step S_ B st) as [index|st'].
      * exists index. split; [done|by right].
      * destruct Hstep as (Hi' & Hm & Hx'). apply IH; [done|done|lia].
Qed.
End Last.

Lemma occurs_prefix target n needle i :
  occurs (take n target) needle i -> occurs target needle i /\ (Z.to_nat i + length needle <= n)%nat \/ needle = [].
Proof.
  intros [Hi E]. destruct (decide (needle = [])) as [->|Hne]; [by right|left].
  assert (Hl : (Z.to_nat i + length needle <= n)%nat).
  { apply (f_equal length) in E. rewrite length_take, length_drop, length_take in E.
    destruct needle; [done|]. cbn [length] in *. lia. }
  split; [|done]. split; [done|]. rewrite <- E at 2. rewrite skipn_firstn_comm, take_take. f_equal. lia.
Qed.

(** [findLastIndex] always finishes, and a position it returns is an
    occurrence of the buffer that does not start behind the offset. *)
Theorem findLastIndex_sound (target buffer : list Z) (offset : Z) :
  buffer <> [] -> 0 <= offset ->
  exists r, findLastIndex target buffer offset = Some r
    /\ (r = -1 \/ occurs target buffer r /\ r <= offset).
Proof.
  intros Hne Hoff. pose proof (len_pos buffer Hne). pose proof (len_nonneg target). unfold findLastIndex.
  set (off := if len target <? offset then len target else offset).
  assert (Ho : 0 <= off <= offset) by (subst off; destruct (Z.ltb_spec (len target) offset); lia).
  assert (Es : slice target 0 (off + len buffer) = take (Z.to_nat (off + len buffer)) target).
  { unfold slice, rel_index. cbn. destruct (Z.ltb_spec (off + len buffer) 0); [lia|].
    replace (Z.min 0 (len target)) with 0 by lia. rewrite Z.sub_0_r. cbn [Z.to_nat]. rewrite drop_0.
    destruct (Z.min_spec (off + len buffer) (len target)) as [[? ->]|[? ->]]; [done|].
    rewrite !take_ge; [done| |]; unfold len in *; lia. }
  set (s := slice target 0 (off + len buffer)) in *.
  destruct (last_loop_spec s buffer (last_fuel s buffer) (LS 0 (-1) 0)) as (index & -> & Hres).
  { split; cbn; try lia. }
  { cbn. pose proof (len_nonneg s). lia. }
  { unfold last_measure, last_fuel. cbn. unfold len. nia. }
  cbn. destruct Hres as [->|[Hi Hoc]]; [by eexists; split; [|left]|].
  destruct (Z.eqb_spec index (-1)); [lia|]. eexists. split; [done|]. right.
  rewrite Es in Hoc at 1. apply occurs_prefix in Hoc as [[Hoc Hl]|]; [|done]. split; [done|].
  unfold len in *. lia.
Qed.

Lemma findLastIndex_sound_witness :
  exists r, findLastIndex [1; 2; 1; 2; 3] [1; 2] 4 = Some r
    /\ (r = -1 \/ occurs [1; 2; 1; 2; 3] [1; 2] r /\ r <= 4).
Proof. apply findLastIndex_sound; [discriminate|lia]. Defined.

(** The backward search misses occurrences: after a partial match it restarts
    two places behind where the match began, so that [abb] is found not to
    contain [ab]. *)
Example findLastIndex_misses :
  findLastIndex (js "abb") (js "ab") 3 = Some (-1) /\ occurs (js "abb") (js "ab") 0.
Proof. split; [reflexivity|]. split; [lia|reflexivity]. Qed.

(** An offset before the start of the buffer becomes a negative end of [slice],
    which counts from the end again: a match is reported where there is none
    to look at. *)
Example indexOfBuffer_negative_offset :
  indexOfBuffer (js "abababab") (js "ab") (-12) false = Some 4.
Proof. reflexivity. Qed.
