(* ===== verification/Buffer.v ===== *)
(** * Buffers as byte sequences: [internal/buffer.mjs]

    Allocation, comparison, concatenation, copying, filling and byte swapping.
    A buffer is its sequence of bytes; an operation that writes returns the new
    contents. *)

From S2P Require Import Prelude Bytes.

Definition kMaxLength : Z := 2147483647.
Definition MAX_UINT32 : Z := 2 ^ 32.

(** ** Allocation *)

Definition createBuffer (length_ : Z) : result (list Z) :=
  if kMaxLength <? length_ then Throw (RangeError "The value is invalid for option size")
  else Ok (replicate (Z.to_nat length_) 0).

Definition assertSize (size : jsval) : result Z :=
  match size with
  | JNumber n =>
      if (0 <=? n) && (n <=? kMaxLength) then Ok n else Throw (ERR_INVALID_ARG_VALUE "size")
  | v => Throw (ERR_INVALID_ARG_TYPE "size" ["number"%string] v)
  end.

Definition checked (length_ : Z) : result Z :=
  if kMaxLength <=? length_
  then Throw (RangeError "Attempt to allocate Buffer larger than maximum size")
  else Ok (bitor length_ 0).

(** [_alloc] without a value to fill with. *)
Definition _alloc (size : jsval) : result (list Z) :=
  let! size := assertSize size in createBuffer size.

Definition _allocUnsafe (size : jsval) : result (list Z) :=
  let! size := assertSize size in
  let! n := if size <? 0 then Ok 0 else let! c := checked size in Ok (bitor c 0) in
  createBuffer n.

Definition fromArrayLike (array : list Z) : result (list Z) :=
  let! length_ := if len array <? 0 then Ok 0 else let! c := checked (len array) in Ok (bitor c 0) in
  let! _ := createBuffer length_ in
  Ok ((fun x => bitand x 255) <$> array).

(** ** Comparison *)

(** The loop over the common length: the first differing pair, or the lengths. *)
Fixpoint compare_loop (a b : list Z) (x y : Z) : Z * Z :=
  match a, b with
  | p :: a, q :: b => if negb (p =? q) then (p, q) else compare_loop a b x y
  | _, _ => (x, y)
  end.

Definition sign_of (x y : Z) : Z := if x <? y then -1 else if y <? x then 1 else 0.

(** [Buffer.compare] of two [Uint8Array]s. *)
Definition compare_static (a b : list Z) : Z :=
  let '(x, y) := compare_loop a b (len a) (len b) in sign_of x y.

(** The number that passed; numbers are integers here, so [Number.isInteger]
    holds. *)
Definition validateOffset (value : jsval) (name : string) (min max : Z) : result Z :=
  match value with
  | JNumber n => if (n <? min) || (max <? n) then Throw (ERR_OUT_OF_RANGE name) else Ok n
  | v => Throw (ERR_INVALID_ARG_TYPE name ["number"%string] v)
  end.

(** [buf.compare(target, start, end, thisStart, thisEnd)] with [undefined] or
    integer bounds: the tests of the last two look at [start] and [end]. *)
Definition compare (this target : list Z) (start end_ thisStart thisEnd : option Z) : result Z :=
  let! _ := match start with Some s => validateOffset (JNumber s) "targetStart" 0 kMaxLength | None => Ok 0 end in
  let start := default 0 start in
  let! _ := match end_ with Some e => validateOffset (JNumber e) "targetEnd" 0 (len target) | None => Ok 0 end in
  let end_ := default (len target) end_ in
  let! _ := match thisStart with Some _ => validateOffset (JNumber start) "sourceStart" 0 kMaxLength | None => Ok 0 end in
  let thisStart := default 0 thisStart in
  let! _ := match thisEnd with Some _ => validateOffset (JNumber end_) "sourceEnd" 0 (len this) | None => Ok 0 end in
  let thisEnd := default (len this) thisEnd in
  if (start <? 0) || (len target <? end_) || (thisStart <? 0) || (len this <? thisEnd)
  then Throw (ERR_OUT_OF_RANGE "out of range index")
  else if (thisEnd <=? thisStart) && (end_ <=? start) then Ok 0
  else if thisEnd <=? thisStart then Ok (-1)
  else if end_ <=? start then Ok 1
  else
    let start := to_uint32 start in
    let end_ := to_uint32 end_ in
    let thisStart := to_uint32 thisStart in
    let thisEnd := to_uint32 thisEnd in
    let x := thisEnd - thisStart in
    let y := end_ - start in
    let thisCopy := slice this thisStart thisEnd in
    let targetCopy := slice target start end_ in
    let '(x, y) := compare_loop thisCopy targetCopy x y in Ok (sign_of x y).

Definition equals (this b : list Z) : bool := compare_static this b =? 0.

(** ** Filling *)

(** A value to fill with that is not a string. *)
Inductive fill_value := FNumber (n : Z) | FBool (b : bool) | FBytes (bs : list Z).

(** The loop over [i = start .. end - 1]. *)
Fixpoint fill_loop (this : list Z) (f : Z -> Z) (n : nat) (i start : Z) : list Z :=
  match n with
  | O => this
  | S n' => fill_loop (store this (i + start) (f i)) f n' (i + 1) start
  end.

(** What follows once the value is a number or something [Buffer.from] makes
    bytes of, which happens behind the tests of the bounds. *)
Definition fill_range (this : list Z) (val : Z + result (list Z)) (start end_ : option Z) : result (list Z) :=
  if (match start with Some s => (s <? 0) || (len this <? s) | None => false end)
     || (match end_ with Some e => len this <? e | None => false end)
  then Throw (RangeError "Out of range index")
  else if (match start, end_ with Some s, Some e => e <=? s | _, _ => false end) then Ok this
  else
    let start := to_uint32 (default 0 start) in
    let end_ := match end_ with None => len this | Some e => to_uint32 e end in
    match val with
    | inl v => Ok (fill_loop this (fun _ => v) (Z.to_nat (end_ - start)) 0 start)
    | inr bytes =>
        let! bytes := bytes in
        if len bytes =? 0 then Throw (ERR_INVALID_ARG_VALUE "value")
        else Ok (fill_loop this (fun i => byte_at bytes (i mod len bytes)) (Z.to_nat (end_ - start)) 0 start)
    end.

Definition fill (this : list Z) (val : fill_value) (start end_ : option Z) : result (list Z) :=
  fill_range this
    (match val with
     | FNumber n => inl (bitand n 255)
     | FBool b => inl (if b then 1 else 0)
     | FBytes bs => inr (Ok bs)
     end) start end_.

(** ** Concatenation *)

Definition _copyActual (source target : list Z) (targetStart sourceStart sourceEnd : Z) : list Z * Z :=
  let sourceEnd :=
    if len target - targetStart <? sourceEnd - sourceStart
    then sourceStart + len target - targetStart else sourceEnd in
  let nb := sourceEnd - sourceStart in
  let sourceLen := len source - sourceStart in
  let nb := if sourceLen <? nb then sourceLen else nb in
  let source :=
    if negb (sourceStart =? 0) || (sourceEnd <? len source)
    then slice source sourceStart (sourceStart + nb) else source in
  (set_bytes target source targetStart, nb).

Fixpoint concat_loop (list_ : list (list Z)) (buffer : list Z) (pos : Z) : list Z * Z :=
  match list_ with
  | [] => (buffer, pos)
  | buf :: rest =>
      let '(buffer, nb) := _copyActual buf buffer pos 0 (len buf) in
      concat_loop rest buffer (pos + nb)
  end.

(** [Buffer.concat] of [Uint8Array]s. *)
Definition concat (list_ : list (list Z)) (length_ : option Z) : result (list Z) :=
  if len list_ =? 0 then _alloc (JNumber 0)
  else
    let! length_ :=
      match length_ with
      | None => Ok (foldl (fun n b => n + len b) 0 list_)
      | Some l => let! _ := validateOffset (JNumber l) "length" 0 (2 ^ 53 - 1) in Ok l
      end in
    let! buffer := _allocUnsafe (JNumber length_) in
    let '(buffer, pos) := concat_loop list_ buffer 0 in
    if pos <? length_ then fill buffer (FNumber 0) (Some pos) (Some length_) else Ok buffer.

(** ** Copying *)

Definition toInteger (n defaultVal : Z) : Z :=
  if (- (2 ^ 53 - 1) <=? n) && (n <=? 2 ^ 53 - 1) then n else defaultVal.

(** [buf.copy(target, targetStart, sourceStart, sourceEnd)] of [Uint8Array]s:
    the new contents of the target and the result. *)
Definition copy (this target : list Z) (targetStart sourceStart sourceEnd : option Z) : result (list Z * Z) :=
  let! targetStart :=
    match targetStart with
    | None => Ok 0
    | Some n =>
        let n := toInteger n 0 in
        if n <? 0 then Throw (ERR_OUT_OF_RANGE "targetStart") else Ok n
    end in
  let! sourceStart :=
    match sourceStart with
    | None => Ok 0
    | Some n =>
        let n := toInteger n 0 in
        if (n <? 0) || (len this <? n) then Throw (ERR_OUT_OF_RANGE "sourceStart")
        else if MAX_UINT32 <=? n then Throw (ERR_OUT_OF_RANGE "sourceStart")
        else Ok n
    end in
  let! sourceEnd :=
    match sourceEnd with
    | None => Ok (len this)
    | Some n =>
        let n := toInteger n 0 in
        if n <? 0 then Throw (ERR_OUT_OF_RANGE "sourceEnd")
        else if MAX_UINT32 <=? n then Throw (ERR_OUT_OF_RANGE "sourceEnd")
        else Ok n
    end in
  if len target <=? targetStart then Ok (target, 0)
  else
    let sourceEnd := if (0 <? sourceEnd) && (sourceEnd <? sourceStart) then sourceStart else sourceEnd in
    if sourceEnd =? sourceStart then Ok (target, 0)
    else if (len target =? 0) || (len this =? 0) then Ok (target, 0)
    else
      let sourceEnd := if len this <? sourceEnd then len this else sourceEnd in
      let sourceEnd :=
        if len target - targetStart <? sourceEnd - sourceStart
        then len target - targetStart + sourceStart else sourceEnd in
      let length_ := sourceEnd - sourceStart in
      Ok (set_bytes target (slice this sourceStart sourceEnd) targetStart, length_).

(** ** Byte swapping *)

Definition swap (b : list Z) (n m : Z) : list Z :=
  let i := byte_at b n in
  let b := store b n (byte_at b m) in
  store b m i.

Fixpoint swap_loop (b : list Z) (step : Z) (f : list Z -> Z -> list Z) (n : nat) (i : Z) : list Z :=
  match n with
  | O => b
  | S n' => swap_loop (f b i) step f n' (i + step)
  end.

Definition swap16 (this : list Z) : result (list Z) :=
  if negb (len this mod 2 =? 0) then Throw (RangeError "Buffer size must be a multiple of 16-bits")
  else Ok (swap_loop this 2 (fun b i => swap b i (i + 1)) (Z.to_nat (len this / 2)) 0).

Definition swap32 (this : list Z) : result (list Z) :=
  if negb (len this mod 4 =? 0) then Throw (RangeError "Buffer size must be a multiple of 32-bits")
  else
    Ok (swap_loop this 4 (fun b i => swap (swap b i (i + 3)) (i + 1) (i + 2)) (Z.to_nat (len this / 4)) 0).

Definition swap64 (this : list Z) : result (list Z) :=
  if negb (len this mod 8 =? 0) then Throw (RangeError "Buffer size must be a multiple of 64-bits")
  else
    Ok (swap_loop this 8
          (fun b i =>
             swap (swap (swap (swap b i (i + 7)) (i + 1) (i + 6)) (i + 2) (i + 5)) (i + 3) (i + 4))
          (Z.to_nat (len this / 8)) 0).

(** ** Comparison is lexicographic *)

(** The reference: byte by byte, a proper prefix being smaller. *)
Fixpoint lex (a b : list Z) : Z :=
  match a, b with
  | [], [] => 0
  | [], _ => -1
  | _, [] => 1
  | x :: a, y :: b => if x <? y then -1 else if y <? x then 1 else lex a b
  end.

Lemma compare_loop_lex a b x y :
  x - y = len a - len b ->
  (let '(p, q) := compare_loop a b x y in sign_of p q) = lex a b.
Proof.
  revert b. induction a as [|p a IH]; intros b H; destruct b as [|q b]; cbn [compare_loop lex].
  - unfold sign_of. change (len (@nil Z)) with 0 in H. destruct (Z.ltb_spec x y); [lia|].
    destruct (Z.ltb_spec y x); lia.
  - pose proof (len_nonneg b). len_simpl. change (len (@nil Z)) with 0 in H. unfold sign_of.
    destruct (Z.ltb_spec x y); lia.
  - pose proof (len_nonneg a). len_simpl. change (len (@nil Z)) with 0 in H. unfold sign_of.
    destruct (Z.ltb_spec x y); [lia|]. destruct (Z.ltb_spec y x); lia.
  - destruct (Z.eqb_spec p q) as [->|Hne]; cbn [negb].
    + rewrite Z.ltb_irrefl. apply IH. len_simpl. lia.
    + unfold sign_of. destruct (Z.ltb_spec p q); [done|]. by destruct (Z.ltb_spec q p); [|lia].
Qed.

Lemma lex_eq a b : lex a b = 0 <-> a = b.
Proof.
  revert b. induction a as [|x a IH]; intros [|y b]; cbn [lex]; try done.
  destruct (Z.ltb_spec x y); [naive_solver lia|]. destruct (Z.ltb_spec y x); [naive_solver lia|].
  rewrite IH. assert (x = y) as -> by lia. naive_solver.
Qed.

Lemma lex_antisym a b : lex b a = - lex a b.
Proof.
  revert b. induction a as [|x a IH]; intros [|y b]; cbn [lex]; try done.
  destruct (Z.ltb_spec x y), (Z.ltb_spec y x); try lia; try done; apply IH.
Qed.

(** [Buffer.compare] is the lexicographic order of the bytes, a prefix being
    smaller; it is antisymmetric, and [equals] is equality. *)
Theorem compare_lexicographic (a b : list Z) :
  compare_static a b = lex a b
  /\ compare_static b a = - compare_static a b
  /\ equals a b = bool_decide (a = b).
Proof.
  assert (E : forall a b, compare_static a b = lex a b) by (intros; apply compare_loop_lex; lia).
  rewrite !E. split; [done|]. split; [apply lex_antisym|]. unfold equals. rewrite E.
  destruct (Z.eqb_spec (lex a b) 0) as [H|H].
  - rewrite bool_decide_eq_true_2; [done|]. by apply lex_eq.
  - rewrite bool_decide_eq_false_2; [done|]. intros ->. apply H. by apply lex_eq.
Qed.

(** [compare] checks the target's bounds against the source: comparing all of a
    long target with all of a short source is an error when the bounds are
    given explicitly. *)
Example compare_checks_wrong_bounds :
  compare [1; 2; 3] [1; 2; 3; 4; 5] (Some 0) (Some 5) (Some 0) (Some 3)
  = Throw (ERR_OUT_OF_RANGE "sourceEnd")
  /\ compare [1; 2; 3] [1; 2; 3; 4; 5] (Some 0) (Some 5) (Some 0) None = Ok (-1).
Proof. split; reflexivity. Qed.

(** ** Filling *)

Lemma fill_loop_at f n pre mid post i start :
  length mid = n -> len pre = i + start ->
  fill_loop (pre ++ mid ++ post) f n i start
  = pre ++ ((fun k => to_uint8 (f k)) <$> seqZ i (Z.of_nat n)) ++ post.
Proof.
  revert pre mid i. induction n as [|n IH]; intros pre mid i Hm Hp.
  - by destruct mid.
  - destruct mid as [|b mid]; [done|]. cbn [fill_loop]. rewrite <- Hp.
    rewrite <- (Z.add_0_r (len pre)). rewrite store_at by (rewrite len_app, len_cons; pose proof (len_nonneg (mid ++ post)); len_simpl; pose proof (len_nonneg mid); pose proof (len_nonneg post); lia).
    change (Z.to_nat 0) with 0%nat. cbn [app insert list_insert].
    rewrite seqZ_cons by lia. specialize (IH (pre ++ [to_uint8 (f i)]) mid (i + 1)).
    rewrite <- app_assoc in IH. cbn [app] in IH. rewrite IH; [|by injection Hm|rewrite len_app; change (len [to_uint8 (f i)]) with 1; lia].
    rewrite <- app_assoc. cbn. do 4 f_equal. replace (Z.pred (Z.of_nat (S n))) with (Z.of_nat n) by lia. done.
Qed.

Lemma fill_loop_range this f s e :
  0 <= s <= e -> e <= len this ->
  fill_loop this f (Z.to_nat (e - s)) 0 s
  = set_bytes this ((fun k => to_uint8 (f k)) <$> seqZ 0 (e - s)) s.
Proof.
  intros Hs He. destruct (buf_segment this s (Z.to_nat (e - s))) as (pre & mid & post & -> & <- & Hm); [lia|lia|].
  rewrite fill_loop_at by (done || lia). rewrite Z2Nat.id by lia.
  by rewrite set_bytes_at by (rewrite length_fmap, length_seqZ; lia).
Qed.

Lemma fmap_const_seqZ {A} (x : A) a n : (fun _ => x) <$> seqZ a n = replicate (Z.to_nat n) x.
Proof.
  apply list_eq. intros i. rewrite list_lookup_fmap. destruct (decide (Z.of_nat i < n)).
  - rewrite lookup_seqZ_lt by lia. symmetry. apply lookup_replicate. split; [done|lia].
  - rewrite lookup_seqZ_ge by lia. symmetry. apply lookup_replicate_None. lia.
Qed.

Lemma set_bytes_empty l s : 0 <= s -> set_bytes l [] s = l.
Proof. intros. unfold set_bytes. cbn [length app]. rewrite Nat.add_0_r. apply take_drop. Qed.

(** [fill] writes exactly the range [start, end): a number as its low byte,
    a sequence of bytes cyclically from its first one; bounds outside the
    buffer are an error. *)
Theorem fill_spec (this bs : list Z) (v s e : Z) :
  len this < 2 ^ 32 ->
  (0 <= s <= e -> e <= len this ->
   fill this (FNumber v) (Some s) (Some e) = Ok (set_bytes this (replicate (Z.to_nat (e - s)) (v mod 2 ^ 8)) s)
   /\ (bs <> [] -> bytes_ok bs ->
       fill this (FBytes bs) (Some s) (Some e)
       = Ok (set_bytes this ((fun k => byte_at bs (k mod len bs)) <$> seqZ 0 (e - s)) s)))
  /\ (s < 0 \/ len this < s \/ len this < e ->
      fill this (FNumber v) (Some s) (Some e) = Throw (RangeError "Out of range index")).
Proof.
  intros Hlen. split; [intros Hs He|intros Hbad].
  2:{ unfold fill, fill_range. destruct (Z.ltb_spec s 0); [done|]. destruct (Z.ltb_spec (len this) s); [done|].
      destruct (Z.ltb_spec (len this) e); [done|]. lia. }
  assert (Hg : (s <? 0) || (len this <? s) || (len this <? e) = false) by lia.
  unfold fill, fill_range. rewrite Hg. cbn [from_option id]. rewrite (to_uint32_small s), (to_uint32_small e) by lia.
  destruct (Z.leb_spec e s).
  - assert (e = s) as -> by lia. rewrite Z.sub_diag. change (seqZ 0 0) with (@nil Z).
    cbn [Z.to_nat replicate fmap list_fmap]. rewrite set_bytes_empty by lia. split; [done|]. intros _ _. f_equal. symmetry. apply set_bytes_empty. lia.
  - split.
    + rewrite fill_loop_range by lia. rewrite fmap_const_seqZ, bitand_255, to_uint8_mod. done.
    + intros Hbs Hok. pose proof (len_pos bs Hbs). cbn [rbind]. destruct (Z.eqb_spec (len bs) 0); [lia|].
      rewrite fill_loop_range by lia. do 2 f_equal. apply list_fmap_ext. intros i k _.
      apply to_uint8_byte. unfold byte_at, bytes_ok in *. rewrite Forall_lookup in Hok.
      pose proof (Z.mod_pos_bound k (len bs) ltac:(lia)). unfold at_index.
      destruct (Z.ltb_spec (k mod len bs) 0); [lia|].
      destruct (lookup_lt_is_Some_2 bs (Z.to_nat (k mod len bs))) as [b Hb]; [unfold len in *; lia|].
      rewrite Hb. by apply (Hok _ _ Hb).
Qed.

Lemma fill_spec_witness :
  fill [1; 2; 3; 4] (FNumber 511) (Some 1) (Some 3) = Ok [1; 255; 255; 4]
  /\ fill [1; 2; 3; 4] (FNumber 511) (Some 1) (Some 9) = Throw (RangeError "Out of range index").
Proof.
  split.
  - destruct (fill_spec [1; 2; 3; 4] [] 511 1 3 ltac:(vm_compute; reflexivity)) as [H _].
    destruct (H ltac:(lia) ltac:(vm_compute; discriminate)) as [E _]. exact E.
  - destruct (fill_spec [1; 2; 3; 4] [] 511 1 9 ltac:(vm_compute; reflexivity)) as [_ H].
    apply H. right; right. vm_compute. reflexivity.
Defined.

Lemma fill_loop_ext this f g n i start :
  (forall j, to_uint8 (f j) = to_uint8 (g j)) -> fill_loop this f n i start = fill_loop this g n i start.
Proof.
  intros Hfg. revert this i. induction n as [|n IH]; intros this i; [done|]. cbn [fill_loop].
  rewrite IH. f_equal. unfold store. by rewrite Hfg.
Qed.

(** Filling with one byte is filling with a number. *)
Lemma fill_range_single this c b start end_ :
  to_uint8 c = to_uint8 b -> fill_range this (inl c) start end_ = fill_range this (inr (Ok [b])) start end_.
Proof.
  intros Hc. unfold fill_range. destruct (_ || _); [done|]. destruct (match start with Some _ => _ | None => _ end); [done|].
  cbn [rbind]. change (len [b]) with 1. cbn [Z.eqb Pos.eqb]. f_equal. apply fill_loop_ext. intros j.
  by rewrite Z.mod_1_r.
Qed.

(** ** Concatenation *)

Lemma copyActual_append done (k : nat) buf :
  _copyActual buf (done ++ replicate k 0) (len done) 0 (len buf)
  = (done ++ take k buf ++ replicate (k - length buf) 0, Z.min (Z.of_nat k) (len buf)).
Proof.
  assert (Hk : len (replicate k 0) = Z.of_nat k) by (unfold len; by rewrite length_replicate).
  unfold _copyActual. cbv zeta. rewrite len_app, Hk.
  replace (len done + Z.of_nat k - len done) with (Z.of_nat k) by lia. rewrite !Z.sub_0_r.
  replace (0 + (len done + Z.of_nat k) - len done) with (Z.of_nat k) by lia.
  pose proof (len_nonneg buf). destruct (Z.ltb_spec (Z.of_nat k) (len buf)).
  - destruct (Z.ltb_spec (len buf) (Z.of_nat k)); [lia|].
    destruct (Z.ltb_spec (Z.of_nat k) (len buf)); [|lia]. cbn [Z.eqb negb orb].
    rewrite Z.min_l by lia. f_equal. rewrite Z.add_0_l.
    assert (Es : slice buf 0 (Z.of_nat k) = take k buf).
    { unfold slice, rel_index. cbn [Z.ltb Z.compare]. destruct (Z.ltb_spec (Z.of_nat k) 0); [lia|].
      rewrite !Z.min_l, Z.sub_0_r, Nat2Z.id by lia. cbn [Z.to_nat]. by rewrite drop_0. }
    rewrite Es. rewrite <- (app_nil_r (replicate k 0)) at 1.
    rewrite set_bytes_at by (rewrite length_take, length_replicate; unfold len in *; lia).
    by replace (k - length buf)%nat with O by (unfold len in *; lia).
  - rewrite !Z.ltb_irrefl. cbn [Z.eqb negb orb]. rewrite Z.min_r by lia. f_equal.
    replace (replicate k 0) with (replicate (length buf) 0 ++ replicate (k - length buf) 0)
      by (rewrite <- replicate_add; f_equal; unfold len in *; lia).
    rewrite set_bytes_at by (by rewrite length_replicate). rewrite take_ge by (unfold len in *; lia). done.
Qed.

Lemma concat_loop_spec list_ done (k : nat) :
  let all := List.concat list_ in
  concat_loop list_ (done ++ replicate k 0) (len done)
  = (done ++ take k all ++ replicate (k - length all) 0, len done + Z.min (Z.of_nat k) (len all)).
Proof.
  revert done k. induction list_ as [|buf rest IH]; intros done k; cbv zeta in *; cbn [concat_loop List.concat].
  - cbn [length]. rewrite take_nil, Nat.sub_0_r. change (len (@nil Z)) with 0. rewrite Z.min_r by lia. by rewrite Z.add_0_r.
  - rewrite copyActual_append.
    replace (len done + Z.min (Z.of_nat k) (len buf)) with (len (done ++ take k buf))
      by (rewrite len_app; unfold len; rewrite length_take; lia).
    rewrite (app_assoc done), IH. rewrite take_app, <- !app_assoc, length_app.
    f_equal; [do 3 f_equal; f_equal; lia|]. rewrite !len_app. unfold len. rewrite length_take. lia.
Qed.

Lemma foldl_len (l : list (list Z)) a : foldl (fun n b => n + len b) a l = a + len (List.concat l).
Proof.
  revert a. induction l as [|b l IH]; intros a; cbn [foldl List.concat].
  - change (len (@nil Z)) with 0. lia.
  - rewrite IH, len_app. lia.
Qed.

Lemma alloc_ok n : 0 <= n < kMaxLength -> _allocUnsafe (JNumber n) = Ok (replicate (Z.to_nat n) 0).
Proof.
  unfold kMaxLength. intros Hn. unfold _allocUnsafe, assertSize, checked, createBuffer, kMaxLength.
  destruct (Z.leb_spec 0 n); [|lia]. destruct (Z.leb_spec n 2147483647); [|lia]. cbn [andb rbind].
  destruct (Z.ltb_spec n 0); [lia|]. destruct (Z.leb_spec 2147483647 n); [lia|]. cbn [rbind].
  assert (E : bitor n 0 = n).
  { unfold bitor. rewrite (to_int32_small n), (to_int32_small 0) by lia. apply Z.lor_0_r. }
  rewrite !E. destruct (Z.ltb_spec 2147483647 n); [lia|done].
Qed.

(** [Buffer.concat] is the concatenation of the buffers, cut or padded with
    zeros to the given length. *)
Theorem concat_spec (list_ : list (list Z)) (length_ : option Z) :
  let all := List.concat list_ in
  let n := default (len all) length_ in
  list_ <> [] -> 0 <= n < kMaxLength ->
  concat list_ length_ = Ok (take (Z.to_nat n) (all ++ replicate (Z.to_nat n) 0)).
Proof.
  intros all n Hne Hn. unfold concat. pose proof (len_pos list_ Hne).
  destruct (Z.eqb_spec (len list_) 0); [lia|].
  assert (El : (match length_ with
                | None => Ok (foldl (fun n b => n + len b) 0 list_)
                | Some l => let! _ := validateOffset (JNumber l) "length" 0 (2 ^ 53 - 1) in Ok l
                end) = Ok n).
  { subst n all. destruct length_ as [l|]; cbn [from_option id] in *.
    - unfold validateOffset, kMaxLength in *. destruct (Z.ltb_spec l 0); [lia|].
      destruct (Z.ltb_spec (2 ^ 53 - 1) l); [lia|]. done.
    - rewrite foldl_len. by rewrite Z.add_0_l. }
  rewrite El. cbn [rbind]. rewrite alloc_ok by done. cbn [rbind].
  pose proof (concat_loop_spec list_ [] (Z.to_nat n)) as Hc. cbv zeta in Hc. fold all in Hc.
  change (len (@nil Z)) with 0 in Hc. cbn [app] in Hc. rewrite Hc. rewrite Z2Nat.id, Z.add_0_l by lia.
  assert (Er : take (Z.to_nat n) (all ++ replicate (Z.to_nat n) 0)
               = take (Z.to_nat n) all ++ replicate (Z.to_nat n - length all) 0)
    by (rewrite take_app, take_replicate; do 2 f_equal; lia).
  rewrite Er. destruct (Z.ltb_spec (Z.min n (len all)) n); [|done].
  rewrite Z.min_r by lia. rewrite take_ge by (unfold len in *; lia).
  set (z := replicate (Z.to_nat n - length all) 0).
  assert (Hz : len (all ++ z) = n) by (subst z; rewrite len_app; unfold len in *; rewrite length_replicate; lia).
  unfold fill, fill_range. rewrite Hz. pose proof (len_nonneg all).
  destruct (Z.ltb_spec (len all) 0); [lia|]. destruct (Z.ltb_spec n (len all)); [lia|]. rewrite Z.ltb_irrefl.
  cbn [orb]. destruct (Z.leb_spec n (len all)); [lia|]. cbn [from_option id]. unfold kMaxLength in Hn.
  rewrite !to_uint32_small by lia. f_equal. rewrite <- (app_nil_r z) at 1.
  rewrite fill_loop_range by (rewrite ?app_nil_r; lia). rewrite fmap_const_seqZ.
  rewrite set_bytes_at; [|subst z; rewrite !length_replicate; unfold len in *; lia].
  rewrite app_nil_r. f_equal. subst z. unfold len. replace (Z.to_nat (n - Z.of_nat (length all))) with (Z.to_nat n - length all)%nat by lia.
  done.
Qed.

Lemma concat_spec_witness :
  concat [[1; 2]; []; [3; 4; 5]] (Some 7) = Ok [1; 2; 3; 4; 5; 0; 0].
Proof.
  refine (eq_trans (concat_spec [[1; 2]; []; [3; 4; 5]] (Some 7) _ _) _);
    [discriminate|unfold kMaxLength; cbn; lia|reflexivity].
Defined.

(** ** Copying *)

Lemma copy_range this target ts ss se :
  0 <= ts < 2 ^ 32 -> 0 <= ss <= len this -> ss <= se < 2 ^ 32 -> len this < 2 ^ 32 ->
  let n := Z.max 0 (Z.min (Z.min se (len this) - ss) (len target - ts)) in
  copy this target (Some ts) (Some ss) (Some se)
  = Ok (set_bytes target (slice this ss (ss + n)) ts, n).
Proof.
  intros Hts Hss Hse Hlen n.
  assert (Hti : forall x, 0 <= x < 2 ^ 32 -> toInteger x 0 = x).
  { intros x Hx. unfold toInteger. destruct (Z.leb_spec (- (2 ^ 53 - 1)) x); [|lia].
    by destruct (Z.leb_spec x (2 ^ 53 - 1)); [|lia]. }
  unfold copy, MAX_UINT32. rewrite !Hti by lia.
  destruct (Z.ltb_spec ts 0); [lia|]. cbn [rbind].
  destruct (Z.ltb_spec ss 0); [lia|]. destruct (Z.ltb_spec (len this) ss); [lia|]. cbn [orb].
  destruct (Z.leb_spec (2 ^ 32) ss); [lia|]. cbn [rbind].
  destruct (Z.ltb_spec se 0); [lia|]. destruct (Z.leb_spec (2 ^ 32) se); [lia|]. cbn [rbind].
  assert (Hz : n = 0 -> Ok (target, 0) = Ok (set_bytes target (slice this ss (ss + n)) ts, n)).
  { intros ->. rewrite Z.add_0_r. destruct (split_len this ss) as (u & v & -> & <-); [lia|].
    pose proof (slice_mid u [] v) as Es. change (len (@nil Z)) with 0 in Es. rewrite Z.add_0_r in Es.
    cbn [app] in Es. rewrite Es. by rewrite set_bytes_empty by lia. }
  pose proof (len_nonneg this). pose proof (len_nonneg target).
  destruct (Z.leb_spec (len target) ts); [apply Hz; lia|].
  destruct (Z.ltb_spec se ss); [lia|]. rewrite andb_false_r.
  destruct (Z.eqb_spec se ss); [apply Hz; lia|].
  destruct (Z.eqb_spec (len target) 0); [lia|]. cbn [orb].
  destruct (Z.eqb_spec (len this) 0); [apply Hz; lia|].
  set (e := if len this <? se then len this else se).
  set (e' := if len target - ts <? e - ss then len target - ts + ss else e).
  assert (Ee : e' = ss + n).
  { subst e' e n. destruct (Z.ltb_spec (len this) se);
      match goal with |- context [len target - ts <? ?y] => destruct (Z.ltb_spec (len target - ts) y) end; lia. }
  rewrite Ee. by replace (ss + n - ss) with n by lia.
Qed.

(** [copy] with integer bounds in range copies as many bytes as the source
    range holds and the target has room for, leaves the rest of the target
    alone, and returns their number; a start outside the source is an error. *)
Theorem copy_spec (this target : list Z) (ts ss se : Z) :
  0 <= ts < 2 ^ 32 -> ss <= se < 2 ^ 32 -> len this < 2 ^ 32 ->
  (0 <= ss <= len this ->
   let n := Z.max 0 (Z.min (Z.min se (len this) - ss) (len target - ts)) in
   copy this target (Some ts) (Some ss) (Some se) = Ok (set_bytes target (slice this ss (ss + n)) ts, n))
  /\ (- 2 ^ 53 < ss < 0 \/ len this < ss ->
      copy this target (Some ts) (Some ss) (Some se) = Throw (ERR_OUT_OF_RANGE "sourceStart")).
Proof.
  intros Hts Hse Hlen. split; [intros Hss; by apply copy_range|]. intros Hbad.
  pose proof (len_nonneg this). unfold copy, toInteger.
  destruct (Z.leb_spec (- (2 ^ 53 - 1)) ts), (Z.leb_spec ts (2 ^ 53 - 1)); try lia. cbn [andb].
  destruct (Z.ltb_spec ts 0); [lia|]. cbn [rbind].
  destruct (Z.leb_spec (- (2 ^ 53 - 1)) ss), (Z.leb_spec ss (2 ^ 53 - 1)); try lia. cbn [andb].
  destruct (Z.ltb_spec ss 0), (Z.ltb_spec (len this) ss); try lia; done.
Qed.

Lemma copy_spec_witness : copy [1; 2; 3; 4] [9; 9; 9] (Some 1) (Some 1) (Some 4) = Ok ([9; 2; 3], 2).
Proof.
  destruct (copy_spec [1; 2; 3; 4] [9; 9; 9] 1 1 4) as [E _]; [lia|lia|vm_compute; reflexivity|].
  exact (E ltac:(vm_compute; split; discriminate)).
Defined.

(** With [sourceEnd = 0] behind [sourceStart] nothing is copied, but the result
    is a negative number of bytes. *)
Example copy_negative_count : copy [1; 2; 3; 4] [9; 9; 9] (Some 0) (Some 3) (Some 0) = Ok ([9; 9; 9], -3).
Proof. reflexivity. Qed.

(** ** Byte swapping *)

Lemma swap_in pre l (i j : nat) x y :
  bytes_ok l -> l !! i = Some x -> l !! j = Some y ->
  swap (pre ++ l) (len pre + Z.of_nat i) (len pre + Z.of_nat j) = pre ++ <[j := x]> (<[i := y]> l).
Proof.
  intros Hok Hi Hj. unfold swap, bytes_ok in *. rewrite Forall_lookup in Hok.
  pose proof (lookup_lt_Some _ _ _ Hi). pose proof (lookup_lt_Some _ _ _ Hj).
  rewrite !byte_at_at, !Nat2Z.id, Hi, Hj by lia. cbn [from_option id].
  rewrite store_at, Nat2Z.id, (to_uint8_byte y) by (by eapply Hok || (unfold len; lia)).
  rewrite store_at, Nat2Z.id, (to_uint8_byte x) by (by eapply Hok || (unfold len; rewrite ?length_insert; lia)).
  done.
Qed.

(** [f] reverses a block of [k] bytes in place. *)
Definition reverses (k : nat) (f : list Z -> Z -> list Z) : Prop :=
  forall pre blk post, length blk = k -> bytes_ok (blk ++ post) ->
    f (pre ++ blk ++ post) (len pre) = pre ++ reverse blk ++ post.

Lemma bytes_ok_insert l (i : nat) x : bytes_ok l -> is_byte x -> bytes_ok (<[i := x]> l).
Proof. intros. by apply Forall_insert. Qed.

Lemma swap_pair_ok l (i j : nat) x y :
  bytes_ok l -> l !! i = Some x -> l !! j = Some y -> bytes_ok (<[j := x]> (<[i := y]> l)).
Proof.
  intros Hl Hi Hj. pose proof Hl as Hl'. unfold bytes_ok in Hl'. rewrite Forall_lookup in Hl'.
  apply bytes_ok_insert; [apply bytes_ok_insert; [done|]|]; [by apply (Hl' j)|by apply (Hl' i)].
Qed.

Lemma swap_step pre l (i j : nat) x y p q :
  bytes_ok l -> l !! i = Some x -> l !! j = Some y -> p = len pre + Z.of_nat i -> q = len pre + Z.of_nat j ->
  exists l', l' = <[j := x]> (<[i := y]> l) /\ bytes_ok l' /\ swap (pre ++ l) p q = pre ++ l'.
Proof.
  intros Hl Hi Hj -> ->. eexists. split; [done|]. split; [by apply swap_pair_ok|]. by apply swap_in.
Qed.

Lemma reverses16 : reverses 2 (fun b i => swap b i (i + 1)).
Proof.
  intros pre blk post Hk Hok. destruct blk as [|b0 [|b1 [|]]]; try done. cbn [app] in *.
  destruct (swap_step pre _ 0 1 _ _ (len pre) (len pre + 1) Hok eq_refl eq_refl) as (l' & -> & _ & ->); [lia|lia|].
  done.
Qed.

Lemma reverses32 : reverses 4 (fun b i => swap (swap b i (i + 3)) (i + 1) (i + 2)).
Proof.
  intros pre blk post Hk Hok. destruct blk as [|b0 [|b1 [|b2 [|b3 [|]]]]]; try done. cbn [app] in *.
  destruct (swap_step pre _ 0 3 _ _ (len pre) (len pre + 3) Hok eq_refl eq_refl) as (l1 & -> & Ok1 & ->); [lia|lia|].
  destruct (swap_step pre _ 1 2 _ _ (len pre + 1) (len pre + 2) Ok1 eq_refl eq_refl) as (l2 & -> & _ & ->); [lia|lia|].
  done.
Qed.

Lemma reverses64 : reverses 8 (fun b i =>
  swap (swap (swap (swap b i (i + 7)) (i + 1) (i + 6)) (i + 2) (i + 5)) (i + 3) (i + 4)).
Proof.
  intros pre blk post Hk Hok.
  destruct blk as [|b0 [|b1 [|b2 [|b3 [|b4 [|b5 [|b6 [|b7 [|]]]]]]]]]; try done. cbn [app] in *.
  destruct (swap_step pre _ 0 7 _ _ (len pre) (len pre + 7) Hok eq_refl eq_refl) as (l1 & -> & Ok1 & ->); [lia|lia|].
  destruct (swap_step pre _ 1 6 _ _ (len pre + 1) (len pre + 6) Ok1 eq_refl eq_refl) as (l2 & -> & Ok2 & ->); [lia|lia|].
  destruct (swap_step pre _ 2 5 _ _ (len pre + 2) (len pre + 5) Ok2 eq_refl eq_refl) as (l3 & -> & Ok3 & ->); [lia|lia|].
  destruct (swap_step pre _ 3 4 _ _ (len pre + 3) (len pre + 4) Ok3 eq_refl eq_refl) as (l4 & -> & _ & ->); [lia|lia|].
  done.
Qed.

(** The buffer cut into blocks of [k] bytes. *)
Fixpoint blocks (k n : nat) (buf : list Z) : list (list Z) :=
  match n with
  | O => []
  | S n => take k buf :: blocks k n (drop k buf)
  end.

Lemma swap_loop_blocks k f n done buf i :
  reverses k f -> length buf = (k * n)%nat -> bytes_ok buf -> i = len done ->
  swap_loop (done ++ buf) (Z.of_nat k) f n i = done ++ List.concat (reverse <$> blocks k n buf).
Proof.
  intros Hf. revert done buf i. induction n as [|n IH]; intros done buf i Hl Hok ->; cbn [swap_loop blocks].
  - destruct buf; [by rewrite !app_nil_r|]. cbn in Hl. lia.
  - cbn [fmap list_fmap List.concat].
    assert (Hk : length (take k buf) = k) by (rewrite length_take; lia).
    assert (Hs : f (done ++ buf) (len done) = done ++ reverse (take k buf) ++ drop k buf).
    { rewrite <- (take_drop k buf) at 1. apply Hf; [done|by rewrite take_drop]. }
    rewrite Hs, app_assoc. rewrite IH.
    + by rewrite <- app_assoc.
    + rewrite length_drop. lia.
    + by apply Forall_drop.
    + rewrite len_app. unfold len. rewrite length_reverse, Hk. done.
Qed.

Lemma blocks_reversed k n buf :
  length buf = (k * n)%nat ->
  length (List.concat (reverse <$> blocks k n buf)) = (k * n)%nat
  /\ blocks k n (List.concat (reverse <$> blocks k n buf)) = reverse <$> blocks k n buf
  /\ List.concat (blocks k n buf) = buf.
Proof.
  revert buf. induction n as [|n IH]; intros buf Hl; cbn [blocks fmap list_fmap List.concat].
  - destruct buf; [|cbn in Hl; lia]. split; [cbn; lia|done].
  - assert (Hk : length (reverse (take k buf)) = k) by (rewrite length_reverse, length_take; lia).
    destruct (IH (drop k buf)) as (H1 & H2 & H3); [rewrite length_drop; lia|].
    change (list_fmap (list Z) (list Z) reverse (blocks k n (drop k buf))) with (reverse <$> blocks k n (drop k buf)) in *.
    split; [|split].
    + rewrite length_app, Hk, H1. lia.
    + by rewrite take_app_length', drop_app_length', H2.
    + by rewrite H3, take_drop.
Qed.

Lemma Forall_concat_reverse (P : Z -> Prop) (l : list (list Z)) :
  Forall P (List.concat l) -> Forall P (List.concat (reverse <$> l)).
Proof.
  induction l as [|x l IH]; [done|]. cbn [List.concat fmap list_fmap]. rewrite !Forall_app.
  intros [Hx Hl]. split; [by apply Forall_reverse|by apply IH].
Qed.

(** [swap16], [swap32] and [swap64] reverse every block of 2, 4 and 8 bytes
    of a buffer whose size is a multiple of it, so that swapping twice gives
    the buffer back, and are an error on other sizes. *)
Theorem swap_reverses_blocks (buf : list Z) :
  bytes_ok buf ->
  Forall (fun '(k, sw) =>
    if len buf mod Z.of_nat k =? 0
    then sw buf = Ok (List.concat (reverse <$> blocks k (Z.to_nat (len buf / Z.of_nat k)) buf))
         /\ (let! b := sw buf in sw b) = Ok buf
    else exists m, sw buf = Throw (RangeError m))
    [(2%nat, swap16); (4%nat, swap32); (8%nat, swap64)].
Proof.
  intros Hok.
  assert (Hgen : forall (k : nat) f sw, (0 < k)%nat -> reverses k f ->
    (forall b, len b mod Z.of_nat k = 0 -> sw b = Ok (swap_loop b (Z.of_nat k) f (Z.to_nat (len b / Z.of_nat k)) 0)) ->
    len buf mod Z.of_nat k = 0 ->
    sw buf = Ok (List.concat (reverse <$> blocks k (Z.to_nat (len buf / Z.of_nat k)) buf))
    /\ (let! b := sw buf in sw b) = Ok buf).
  { intros k f sw Hk Hf Hsw Hm. set (n := Z.to_nat (len buf / Z.of_nat k)).
    assert (Hl : length buf = (k * n)%nat).
    { pose proof (Z.div_mod (len buf) (Z.of_nat k) ltac:(lia)) as Hd.
      assert (0 <= len buf / Z.of_nat k) by (apply Z.div_pos; [apply len_nonneg|lia]).
      unfold len in *. subst n. nia. }
    destruct (blocks_reversed k n buf Hl) as (H1 & H2 & H3).
    set (r := List.concat (reverse <$> blocks k n buf)) in *.
    assert (Hr : sw buf = Ok r) by (rewrite Hsw by done; f_equal; exact (swap_loop_blocks k f n [] buf 0 Hf Hl Hok eq_refl)).
    split; [done|]. rewrite Hr. cbn [rbind].
    assert (Elen : len r = len buf) by (unfold len; lia).
    rewrite Hsw by (by rewrite Elen). rewrite Elen. fold n.
    assert (Hok' : bytes_ok r) by (apply Forall_concat_reverse; by rewrite H3).
    pose proof (swap_loop_blocks k f n [] r 0 Hf H1 Hok' eq_refl) as E. cbn [app] in E. rewrite E, H2.
    rewrite <- list_fmap_compose. f_equal. rewrite <- H3 at 2. f_equal.
    clear. induction (blocks k n buf) as [|x l IH]; [done|]. cbn. rewrite reverse_involutive. by f_equal. }
  constructor; [|constructor; [|constructor; [|constructor]]].
  - destruct (Z.eqb_spec (len buf mod Z.of_nat 2) 0) as [E|E].
    + apply (Hgen 2%nat _ swap16 ltac:(lia) reverses16); [|done].
      intros b Hb. unfold swap16. change (Z.of_nat 2) with 2 in Hb. by rewrite Hb.
    + eexists. unfold swap16. change (Z.of_nat 2) with 2 in E. by destruct (Z.eqb_spec (len buf mod 2) 0).
  - destruct (Z.eqb_spec (len buf mod Z.of_nat 4) 0) as [E|E].
    + apply (Hgen 4%nat _ swap32 ltac:(lia) reverses32); [|done].
      intros b Hb. unfold swap32. change (Z.of_nat 4) with 4 in Hb. by rewrite Hb.
    + eexists. unfold swap32. change (Z.of_nat 4) with 4 in E. by destruct (Z.eqb_spec (len buf mod 4) 0).
  - destruct (Z.eqb_spec (len buf mod Z.of_nat 8) 0) as [E|E].
    + apply (Hgen 8%nat _ swap64 ltac:(lia) reverses64); [|done].
      intros b Hb. unfold swap64. change (Z.of_nat 8) with 8 in Hb. by rewrite Hb.
    + eexists. unfold swap64. change (Z.of_nat 8) with 8 in E. by destruct (Z.eqb_spec (len buf mod 8) 0).
Qed.

Lemma swap_reverses_blocks_witness :
  let buf := [1; 2; 3; 4; 5; 6] in
  Forall (fun '(k, sw) =>
    if len buf mod Z.of_nat k =? 0
    then sw buf = Ok (List.concat (reverse <$> blocks k (Z.to_nat (len buf / Z.of_nat k)) buf))
         /\ (let! b := sw buf in sw b) = Ok buf
    else exists m, sw buf = Throw (RangeError m))
    [(2%nat, swap16); (4%nat, swap32); (8%nat, swap64)].
Proof.
  apply swap_reverses_blocks. unfold bytes_ok, is_byte. repeat constructor; lia.
Defined.
