(* ===== verification/WebText.v ===== *)
(** * What the buffer code takes from the platform

    The text functions of [ext:core] and [ext:deno_web] that
    [internal/buffer.mjs] and [internal_binding/_utils.ts] import, and
    [toLowerCase], as an interface: the operations in the class [WebText], and
    in [WebTextOk] what their documents (the Encoding Standard, forgiving
    base64 of the Infra Standard, ECMA-262) say that the code relies on.
    [WebModel] has an instance. *)

From S2P Require Import Prelude Bytes Codecs.

(** ** UTF-16 *)

Definition is_high (c : Z) : bool := (0xD800 <=? c) && (c <? 0xDC00).
Definition is_low (c : Z) : bool := (0xDC00 <=? c) && (c <? 0xE000).

(** The replacement character and the byte order mark. *)
Definition REPLACEMENT : Z := 0xFFFD.
Definition BOM : Z := 0xFEFF.

(** The scalar values of a string, surrogates without a partner replaced. *)
Fixpoint scalars (s : jsstr) : list Z :=
  match s with
  | [] => []
  | h :: t =>
      if is_high h then
        match t with
        | l :: t' =>
            if is_low l then 0x10000 + (h - 0xD800) * 1024 + (l - 0xDC00) :: scalars t'
            else REPLACEMENT :: scalars t
        | [] => [REPLACEMENT]
        end
      else if is_low h then REPLACEMENT :: scalars t
      else h :: scalars t
  end.

(** The code units of a scalar value. *)
Definition units_of (c : Z) : jsstr :=
  if c <? 0x10000 then [c]
  else [0xD800 + (c - 0x10000) / 1024; 0xDC00 + (c - 0x10000) mod 1024].

Definition toWellFormed (s : jsstr) : jsstr := mbind (M := list) units_of (scalars s).

(** UTF-8 of a scalar value. *)
Definition utf8 (c : Z) : list Z :=
  if c <? 0x80 then [c]
  else if c <? 0x800 then [0xC0 + c / 64; 0x80 + c mod 64]
  else if c <? 0x10000 then [0xE0 + c / 4096; 0x80 + c / 64 mod 64; 0x80 + c mod 64]
  else [0xF0 + c / 262144; 0x80 + c / 4096 mod 64; 0x80 + c / 64 mod 64; 0x80 + c mod 64].

Definition scalar (c : Z) : Prop := 0 <= c < 0xD800 \/ 0xE000 <= c < 0x110000.

(** A leading byte order mark is not part of the text. *)
Definition drop_bom (s : jsstr) : jsstr :=
  match s with
  | c :: t => if c =? BOM then t else s
  | [] => []
  end.

(** ** The interface *)

(** The units of the two base64 alphabets. *)
Definition base64_std (c : Z) : bool :=
  ((65 <=? c) && (c <=? 90)) || ((97 <=? c) && (c <=? 122)) || ((48 <=? c) && (c <=? 57))
  || (c =? 43) || (c =? 47).
Definition base64_url (c : Z) : bool :=
  ((65 <=? c) && (c <=? 90)) || ((97 <=? c) && (c <=? 122)) || ((48 <=? c) && (c <=? 57))
  || (c =? 45) || (c =? 95).

Class WebText := {
  toLowerCase : jsstr -> jsstr;
  core_byteLength : jsstr -> Z;
  (** [new TextEncoder().encode], the bytes [encodeInto] writes into a
      destination of the given length, and [new TextDecoder().decode]. *)
  encode : jsstr -> list Z;
  encodeInto : jsstr -> Z -> list Z;
  decode : list Z -> jsstr;
  forgivingBase64Encode : list Z -> jsstr;
  forgivingBase64UrlEncode : list Z -> jsstr;
  forgivingBase64Decode : jsstr -> result (list Z);
  forgivingBase64UrlDecode : jsstr -> result (list Z)
}.

Class WebTextOk `{!WebText} : Prop := {
  toLowerCase_ascii s : ascii s -> toLowerCase s = ascii_lower <$> s;
  toLowerCase_len s : ascii (toLowerCase s) -> len (toLowerCase s) = len s;
  byteLength_encode s : core_byteLength s = len (encode s);
  encode_utf8 s : encode s = mbind (M := list) utf8 (scalars s);
  encodeInto_prefix s room : encodeInto s room `prefix_of` encode s;
  encodeInto_room s room : 0 <= room -> len (encodeInto s room) <= room;
  encodeInto_all s room : len (encode s) <= room -> encodeInto s room = encode s;
  decode_encode s : units16 s -> decode (encode s) = drop_bom (toWellFormed s);
  base64_encode bs : bytes_ok bs ->
    exists u, forgivingBase64Encode bs = u ++ padding (len u) /\ Forall (fun c => base64_std c = true) u
      /\ len u <> 1 /\ forgivingBase64Decode (u ++ padding (len u)) = Ok bs;
  base64_encode_app a b : len a mod 3 = 0 ->
    forgivingBase64Encode (a ++ b) = forgivingBase64Encode a ++ forgivingBase64Encode b;
  base64url_encode bs : bytes_ok bs ->
    Forall (fun c => base64_url c = true) (forgivingBase64UrlEncode bs)
    /\ len (forgivingBase64UrlEncode bs) <> 1
    /\ forgivingBase64UrlDecode (forgivingBase64UrlEncode bs ++ padding (len (forgivingBase64UrlEncode bs))) = Ok bs;
  base64_decode u : Forall (fun c => base64_std c = true) u -> len u mod 4 <> 1 ->
    exists bs, forgivingBase64Decode (u ++ padding (len u)) = Ok bs
      /\ bytes_ok bs /\ len bs = len u * 3 / 4;
  base64url_decode u : Forall (fun c => base64_url c = true) u -> len u mod 4 <> 1 ->
    exists bs, forgivingBase64UrlDecode (u ++ padding (len u)) = Ok bs
      /\ bytes_ok bs /\ len bs = len u * 3 / 4;
  base64_decode_odd u : Forall (fun c => base64_std c = true) u -> len u mod 4 = 1 ->
    exists e, forgivingBase64Decode (u ++ padding (len u)) = Throw e;
  base64url_decode_odd u : Forall (fun c => base64_url c = true) u -> len u mod 4 = 1 ->
    exists e, forgivingBase64UrlDecode (u ++ padding (len u)) = Throw e
}.

(** ** UTF-8 text *)

Lemma utf8_ok c : scalar c -> bytes_ok (utf8 c).
Proof.
  unfold scalar, utf8, bytes_ok, is_byte. intros Hc.
  repeat case_match; repeat constructor; div_lia.
Qed.

Lemma utf8_len c : 1 <= len (utf8 c) <= 4 /\ (c < 0x10000 -> len (utf8 c) <= 3).
Proof. unfold utf8. repeat case_match; unfold len; cbn; lia. Qed.

(** Induction over the units of a string, two at a time where needed. *)
Lemma jsstr_ind2 (P : jsstr -> Prop) :
  P [] -> (forall c, P [c]) -> (forall c d s, P s -> P (d :: s) -> P (c :: d :: s)) -> forall s, P s.
Proof.
  intros H0 H1 H2 s. enough (P s /\ forall c, P (c :: s)) by tauto.
  induction s as [|d s [IH1 IH2]]; [done|]. split; [apply IH2|]. intros c. apply H2; [done|apply IH2].
Qed.

Lemma scalars_cons h t :
  is_high h = false -> scalars (h :: t) = (if is_low h then REPLACEMENT else h) :: scalars t.
Proof. cbn. intros ->. by destruct (is_low h). Qed.

Lemma scalars_high h d t :
  is_high h = true ->
  scalars (h :: d :: t)
  = (if is_low d then 0x10000 + (h - 0xD800) * 1024 + (d - 0xDC00) :: scalars t
     else REPLACEMENT :: scalars (d :: t)).
Proof. intros E. change (scalars (h :: d :: t)) with
  (if is_high h
   then if is_low d then 0x10000 + (h - 0xD800) * 1024 + (d - 0xDC00) :: scalars t
        else REPLACEMENT :: scalars (d :: t)
   else if is_low h then REPLACEMENT :: scalars (d :: t) else h :: scalars (d :: t)). by rewrite E. Qed.

Lemma scalars_ok s : units16 s -> Forall scalar (scalars s).
Proof.
  assert (Hrep : scalar REPLACEMENT) by (unfold scalar, REPLACEMENT; lia).
  induction s as [|c|c d s IH1 IH2] using jsstr_ind2; intros Hs; [constructor| |].
  - inversion_clear Hs as [|? ? Hc _]. cbv beta in Hc. cbn.
    destruct (is_high c) eqn:E1, (is_low c) eqn:E2; (constructor; [|constructor]); try done.
    unfold is_high, is_low, scalar in *. lia.
  - inversion_clear Hs as [|? ? Hc Hds]. pose proof Hds as Hds'. inversion_clear Hds as [|? ? Hd Hs'].
    destruct (is_high c) eqn:E1.
    + rewrite scalars_high by done. destruct (is_low d) eqn:E2; [|constructor; [done|by apply IH2]].
      constructor; [|by apply IH1]. unfold is_high, is_low, scalar in *. lia.
    + rewrite scalars_cons by done. constructor; [|by apply IH2].
      destruct (is_low c) eqn:E2; [done|]. unfold is_high, is_low, scalar in *. lia.
Qed.

Section Encode.
Context `{!WebText} `{!WebTextOk}.

Lemma encode_ok s : units16 s -> bytes_ok (encode s).
Proof.
  intros Hs%scalars_ok. rewrite encode_utf8. induction Hs as [|c cs Hc Hcs IH]; [constructor|].
  rewrite bind_cons. apply Forall_app. split; [by apply utf8_ok|done].
Qed.

Lemma encode_bound s : units16 s -> len (encode s) <= 3 * len s.
Proof.
  assert (Hrep : len (utf8 REPLACEMENT) = 3) by done. rewrite encode_utf8.
  assert (H1 : forall c, c < 2 ^ 16 -> len (utf8 (if is_low c then REPLACEMENT else c)) <= 3).
  { intros c Hc. destruct (is_low c); [lia|]. apply utf8_len. lia. }
  induction s as [|c|c d s IH1 IH2] using jsstr_ind2; intros Hs; [done| |].
  - inversion_clear Hs as [|? ? Hc _]. cbv beta in Hc. cbn [scalars]. destruct (is_high c) eqn:E1; [done|].
    specialize (H1 c ltac:(lia)). rewrite len_cons, len_nil.
    destruct (is_low c); rewrite bind_cons, app_nil_r; lia.
  - inversion_clear Hs as [|? ? Hc Hds]. pose proof Hds as Hds'. inversion_clear Hds as [|? ? Hd Hs'].
    specialize (IH1 Hs'). specialize (IH2 Hds'). cbv beta in Hc. rewrite len_cons in *. rewrite len_cons.
    destruct (is_high c) eqn:E1.
    + rewrite scalars_high by done. destruct (is_low d) eqn:E2; rewrite bind_cons, len_app.
      * pose proof (utf8_len (0x10000 + (c - 0xD800) * 1024 + (d - 0xDC00))). lia.
      * rewrite Hrep. lia.
    + rewrite scalars_cons, bind_cons, len_app by done. specialize (H1 c ltac:(lia)). lia.
Qed.

Lemma encode_ascii s : ascii s -> encode s = s.
Proof.
  rewrite encode_utf8. induction 1 as [|c s Hc Hs IH]; [done|].
  rewrite scalars_cons by (unfold is_high; lia). unfold is_low. destruct (Z.leb_spec 0xDC00 c); [lia|]. cbn [andb].
  rewrite bind_cons, IH. unfold utf8. by destruct (Z.ltb_spec c 0x80); [|lia].
Qed.

Lemma scalars_units cs : Forall scalar cs -> scalars (mbind (M := list) units_of cs) = cs.
Proof.
  induction 1 as [|c cs Hc Hcs IH]; [done|]. rewrite bind_cons. unfold scalar in Hc. unfold units_of at 1.
  destruct (Z.ltb_spec c 0x10000); cbn [app].
  - rewrite scalars_cons by (unfold is_high; lia). rewrite IH. unfold is_low.
    by destruct (Z.leb_spec 0xDC00 c), (Z.ltb_spec c 0xE000); try lia.
  - rewrite scalars_high by (unfold is_high; div_lia). rewrite IH.
    replace (is_low (0xDC00 + (c - 0x10000) mod 1024)) with true by (unfold is_low; div_lia).
    f_equal. div_lia.
Qed.

Lemma units_of_units16 cs : Forall scalar cs -> units16 (mbind (M := list) units_of cs).
Proof.
  induction 1 as [|c cs Hc Hcs IH]; [constructor|]. rewrite bind_cons. apply Forall_app. split; [|done].
  unfold units_of, scalar in *. destruct (Z.ltb_spec c 0x10000); repeat constructor; div_lia.
Qed.

(** Complete characters decode one by one, apart from a byte order mark. *)
Lemma decode_scalars cs :
  Forall scalar cs -> Forall (fun c => c <> BOM) cs ->
  decode (mbind (M := list) utf8 cs) = mbind (M := list) units_of cs.
Proof.
  intros Hcs Hb. pose proof (decode_encode _ (units_of_units16 cs Hcs)) as E.
  rewrite encode_utf8 in E. unfold toWellFormed in E. rewrite scalars_units in E by done. rewrite E.
  destruct cs as [|c cs]; [done|]. rewrite bind_cons. inversion_clear Hb as [|? ? Hc _].
  apply Forall_cons in Hcs as [Hs _]. unfold scalar in Hs. unfold units_of at 1 3. destruct (Z.ltb_spec c 0x10000); cbn [app drop_bom].
  - by destruct (Z.eqb_spec c BOM).
  - unfold BOM. by destruct (Z.eqb_spec (0xD800 + (c - 0x10000) / 1024) 0xFEFF); [div_lia|].
Qed.
End Encode.
