(* ===== verification/WebModel.v ===== *)
(** * An instance of the platform's text functions

    UTF-8 as in the Encoding Standard and base64 as in the Infra Standard,
    written out so that the hypotheses of [WebTextOk] hold for concrete
    functions and the buffer operations can be evaluated. *)

From S2P Require Import Prelude Bytes Codecs WebText.

(** ** UTF-8 *)

Definition utf8_encode (s : jsstr) : list Z := mbind (M := list) utf8 (scalars s).

Fixpoint utf8_into (cs : list Z) (room : Z) : list Z :=
  match cs with
  | [] => []
  | c :: cs => if len (utf8 c) <=? room then utf8 c ++ utf8_into cs (room - len (utf8 c)) else []
  end.

(** The decoder: the bytes still to come, the value so far, and the bounds of
    the next byte. *)
Record utf8_state := U8 { remaining : Z; point : Z; lower : Z; upper : Z }.

Definition utf8_start : utf8_state := U8 0 0 0x80 0xBF.

Definition utf8_lead (b : Z) : utf8_state * list Z :=
  if b <? 0x80 then (utf8_start, [b])
  else if (0xC2 <=? b) && (b <=? 0xDF) then (U8 1 (b - 0xC0) 0x80 0xBF, [])
  else if (0xE0 <=? b) && (b <=? 0xEF) then
    (U8 2 (b - 0xE0) (if b =? 0xE0 then 0xA0 else 0x80) (if b =? 0xED then 0x9F else 0xBF), [])
  else if (0xF0 <=? b) && (b <=? 0xF4) then
    (U8 3 (b - 0xF0) (if b =? 0xF0 then 0x90 else 0x80) (if b =? 0xF4 then 0x8F else 0xBF), [])
  else (utf8_start, [REPLACEMENT]).

Definition utf8_step (st : utf8_state) (b : Z) : utf8_state * list Z :=
  if remaining st =? 0 then utf8_lead b
  else if (lower st <=? b) && (b <=? upper st) then
    let p := point st * 64 + (b - 0x80) in
    if remaining st =? 1 then (utf8_start, [p]) else (U8 (remaining st - 1) p 0x80 0xBF, [])
  else let '(st', out) := utf8_lead b in (st', REPLACEMENT :: out).

Fixpoint utf8_run (st : utf8_state) (bs : list Z) : list Z :=
  match bs with
  | [] => if remaining st =? 0 then [] else [REPLACEMENT]
  | b :: bs => let '(st', out) := utf8_step st b in out ++ utf8_run st' bs
  end.

Definition utf8_decode (bs : list Z) : jsstr :=
  let cs := utf8_run utf8_start bs in
  mbind (M := list) units_of
    (match cs with c :: cs' => if c =? BOM then cs' else cs | [] => [] end).

(** The character of a whole sequence of more than one byte. *)
Fixpoint utf8_char (st : utf8_state) (bs : list Z) : option Z :=
  match bs with
  | [] => None
  | b :: bs =>
      if remaining st =? 0 then
        match utf8_lead b with (st', []) => utf8_char st' bs | _ => None end
      else if (lower st <=? b) && (b <=? upper st) then
        let p := point st * 64 + (b - 0x80) in
        if remaining st =? 1 then match bs with [] => Some p | _ => None end
        else utf8_char (U8 (remaining st - 1) p 0x80 0xBF) bs
      else None
  end.

Lemma utf8_char_cont n p lo up b bs :
  0 < n -> lo <= b <= up ->
  utf8_char (U8 n p lo up) (b :: bs)
  = (if n =? 1 then match bs with [] => Some (p * 64 + (b - 128)) | _ => None end
     else utf8_char (U8 (n - 1) (p * 64 + (b - 128)) 0x80 0xBF) bs).
Proof.
  intros Hn Hb. cbn [utf8_char]. cbn [remaining point lower upper].
  destruct (Z.eqb_spec n 0); [lia|]. by destruct (Z.leb_spec lo b), (Z.leb_spec b up); try lia.
Qed.

Lemma utf8_char_lead b st bs : utf8_lead b = (st, []) -> utf8_char utf8_start (b :: bs) = utf8_char st bs.
Proof. intros E. cbn [utf8_char]. cbn [remaining utf8_start Z.eqb]. by rewrite E. Qed.

Lemma utf8_char_scalar c : scalar c -> 0x80 <= c -> utf8_char utf8_start (utf8 c) = Some c.
Proof.
  intros Hc Hge. unfold utf8, scalar in *. destruct (Z.ltb_spec c 0x80); [lia|].
  destruct (Z.ltb_spec c 0x800); [|destruct (Z.ltb_spec c 0x10000)].
  - erewrite utf8_char_lead.
    2:{ unfold utf8_lead. destruct (Z.ltb_spec (0xC0 + c / 64) 0x80); [div_lia|].
        destruct (Z.leb_spec 0xC2 (0xC0 + c / 64)); [|div_lia].
        by destruct (Z.leb_spec (0xC0 + c / 64) 0xDF); [|div_lia]. }
    rewrite utf8_char_cont by div_lia. cbn [Z.eqb Pos.eqb]. f_equal. div_lia.
  - erewrite utf8_char_lead.
    2:{ unfold utf8_lead. destruct (Z.ltb_spec (0xE0 + c / 4096) 0x80); [div_lia|].
        destruct (Z.leb_spec (0xE0 + c / 4096) 0xDF); [div_lia|]. rewrite andb_false_r.
        destruct (Z.leb_spec 0xE0 (0xE0 + c / 4096)); [|div_lia].
        by destruct (Z.leb_spec (0xE0 + c / 4096) 0xEF); [|div_lia]. }
    rewrite utf8_char_cont by (repeat case_match; bool_simpl; div_lia). cbn [Z.eqb Pos.eqb Z.sub Z.add Z.opp Z.pos_sub].
    rewrite utf8_char_cont by div_lia. cbn [Z.eqb Pos.eqb]. f_equal. div_lia.
  - erewrite utf8_char_lead.
    2:{ unfold utf8_lead. destruct (Z.ltb_spec (0xF0 + c / 262144) 0x80); [div_lia|].
        destruct (Z.leb_spec (0xF0 + c / 262144) 0xDF); [div_lia|]. rewrite andb_false_r.
        destruct (Z.leb_spec (0xF0 + c / 262144) 0xEF); [div_lia|]. rewrite andb_false_r.
        destruct (Z.leb_spec 0xF0 (0xF0 + c / 262144)); [|div_lia].
        by destruct (Z.leb_spec (0xF0 + c / 262144) 0xF4); [|div_lia]. }
    rewrite utf8_char_cont by (repeat case_match; bool_simpl; div_lia). cbn [Z.eqb Pos.eqb Z.sub Z.add Z.opp Z.pos_sub].
    do 2 (rewrite utf8_char_cont by div_lia; cbn [Z.eqb Pos.eqb]). f_equal. div_lia.
Qed.

(** The decoder reads such a sequence as its character. *)
Lemma utf8_run_char bs st c rest : utf8_char st bs = Some c -> utf8_run st (bs ++ rest) = c :: utf8_run utf8_start rest.
Proof.
  revert st. induction bs as [|b bs IH]; intros st E; [done|]. cbn [utf8_char] in E. cbn [app utf8_run]. unfold utf8_step.
  destruct (remaining st =? 0).
  - destruct (utf8_lead b) as [st' [|o out]]; [|done]. by rewrite (IH st').
  - destruct ((lower st <=? b) && (b <=? upper st)); [|done]. destruct (remaining st =? 1).
    + destruct bs; [|done]. by injection E as [= ->].
    + by rewrite (IH _ E).
Qed.

Lemma utf8_run_scalar c rest : scalar c -> utf8_run utf8_start (utf8 c ++ rest) = c :: utf8_run utf8_start rest.
Proof.
  intros Hc. destruct (Z.lt_ge_cases c 0x80) as [Hlt|Hge]; [|by apply utf8_run_char, utf8_char_scalar].
  unfold utf8, scalar in *. destruct (Z.ltb_spec c 0x80); [|lia]. cbn. unfold utf8_step, utf8_lead. cbn.
  by destruct (Z.ltb_spec c 128); [|lia].
Qed.

Lemma utf8_run_encode cs : Forall scalar cs -> utf8_run utf8_start (mbind (M := list) utf8 cs) = cs.
Proof. induction 1 as [|c cs Hc Hcs IH]; [done|]. by rewrite bind_cons, utf8_run_scalar, IH. Qed.

Lemma drop_bom_units cs :
  Forall scalar cs ->
  mbind (M := list) units_of (match cs with c :: cs' => if c =? BOM then cs' else cs | [] => [] end)
  = drop_bom (mbind (M := list) units_of cs).
Proof.
  intros Hcs. destruct cs as [|c cs]; [done|]. rewrite bind_cons. inversion_clear Hcs as [|? ? Hc _].
  unfold units_of at 2. unfold BOM, scalar in *. destruct (Z.ltb_spec c 0x10000); cbn [app drop_bom].
  - unfold BOM. destruct (Z.eqb_spec c 0xFEFF); [done|]. rewrite bind_cons. unfold units_of at 1.
    by destruct (Z.ltb_spec c 0x10000); [|lia].
  - unfold BOM. destruct (Z.eqb_spec c 0xFEFF); [lia|]. destruct (Z.eqb_spec (0xD800 + (c - 0x10000) / 1024) 0xFEFF).
    + exfalso. div_lia.
    + rewrite bind_cons. unfold units_of at 1. by destruct (Z.ltb_spec c 0x10000); [lia|].
Qed.

Lemma utf8_decode_encode s : units16 s -> utf8_decode (utf8_encode s) = drop_bom (toWellFormed s).
Proof.
  intros Hs%scalars_ok. unfold utf8_decode, utf8_encode. rewrite utf8_run_encode by done.
  cbv zeta. by apply drop_bom_units.
Qed.

Lemma utf8_into_prefix cs room : utf8_into cs room `prefix_of` mbind (M := list) utf8 cs.
Proof.
  revert room. induction cs as [|c cs IH]; intros room; [done|]. cbn [utf8_into]. rewrite bind_cons.
  destruct (len (utf8 c) <=? room); [|apply prefix_nil]. by apply prefix_app.
Qed.

Lemma utf8_into_room cs room : 0 <= room -> len (utf8_into cs room) <= room.
Proof.
  revert room. induction cs as [|c cs IH]; intros room Hr; [done|]. cbn [utf8_into].
  destruct (Z.leb_spec (len (utf8 c)) room); [|done]. rewrite len_app.
  specialize (IH (room - len (utf8 c))). lia.
Qed.

Lemma utf8_into_all cs room :
  len (mbind (M := list) utf8 cs) <= room -> utf8_into cs room = mbind (M := list) utf8 cs.
Proof.
  revert room. induction cs as [|c cs IH]; intros room Hr; [done|]. cbn [utf8_into].
  rewrite bind_cons, len_app in *. pose proof (len_nonneg (mbind (M := list) utf8 cs)).
  destruct (Z.leb_spec (len (utf8 c)) room); [|lia]. by rewrite IH by lia.
Qed.

(** ** Base64 *)

Section Base64.
(** The base64url alphabet instead of the standard one. *)
Context (url : bool).

Definition unit6 (i : Z) : Z :=
  if i <? 26 then 65 + i
  else if i <? 52 then 71 + i
  else if i <? 62 then i - 4
  else if i =? 62 then (if url then 45 else 43)
  else (if url then 95 else 47).

Definition value6 (c : Z) : option Z :=
  if (65 <=? c) && (c <=? 90) then Some (c - 65)
  else if (97 <=? c) && (c <=? 122) then Some (c - 71)
  else if (48 <=? c) && (c <=? 57) then Some (c + 4)
  else if c =? (if url then 45 else 43) then Some 62
  else if c =? (if url then 95 else 47) then Some 63
  else None.

Definition in_alphabet (c : Z) : bool := if url then base64_url c else base64_std c.

Fixpoint b64_encode (bs : list Z) : jsstr :=
  match bs with
  | a :: b :: c :: r =>
      unit6 (a / 4) :: unit6 (a mod 4 * 16 + b / 16) :: unit6 (b mod 16 * 4 + c / 64)
      :: unit6 (c mod 64) :: b64_encode r
  | [a; b] => [unit6 (a / 4); unit6 (a mod 4 * 16 + b / 16); unit6 (b mod 16 * 4)]
  | [a] => [unit6 (a / 4); unit6 (a mod 4 * 16)]
  | [] => []
  end.

Fixpoint b64_decode (u : jsstr) : option (list Z) :=
  match u with
  | a :: b :: c :: d :: r =>
      a ← value6 a; b ← value6 b; c ← value6 c; d ← value6 d; r ← b64_decode r;
      Some (a * 4 + b / 16 :: b mod 16 * 16 + c / 4 :: c mod 4 * 64 + d :: r)
  | [a; b; c] =>
      a ← value6 a; b ← value6 b; c ← value6 c; Some [a * 4 + b / 16; b mod 16 * 16 + c / 4]
  | [a; b] => a ← value6 a; b ← value6 b; Some [a * 4 + b / 16]
  | [_] => None
  | [] => Some []
  end.

(** Without white space, and without one or two equal signs at the end of a
    text of a multiple of four units. *)
Definition unpad (u : jsstr) : jsstr :=
  if len u mod 4 =? 0 then
    match reverse u with
    | x :: y :: r => if x =? EQUALS then reverse (if y =? EQUALS then r else y :: r) else u
    | _ => u
    end
  else u.

Definition b64_forgiving (s : jsstr) : result (list Z) :=
  match b64_decode (unpad (filter (fun c => is_space c = false) s)) with
  | Some bs => Ok bs
  | None => Throw (Error "Failed to decode base64")
  end.

End Base64.

Section Base64Facts.
Context (url : bool).

Lemma value6_unit6 i : 0 <= i < 64 -> value6 url (unit6 url i) = Some i.
Proof.
  intros Hi. assert (H : forallb (fun i => bool_decide (value6 url (unit6 url i) = Some i)) (seqZ 0 64) = true)
    by (destruct url; vm_compute; reflexivity).
  rewrite forallb_forall in H. specialize (H i). rewrite <- list_elem_of_In, elem_of_seqZ in H.
  specialize (H ltac:(lia)). by apply bool_decide_eq_true in H.
Qed.

Lemma unit6_alphabet i : 0 <= i < 64 -> in_alphabet url (unit6 url i) = true.
Proof.
  intros Hi. assert (H : forallb (fun i => in_alphabet url (unit6 url i)) (seqZ 0 64) = true)
    by (destruct url; vm_compute; reflexivity).
  rewrite forallb_forall in H. apply H. rewrite <- list_elem_of_In, elem_of_seqZ. lia.
Qed.

Lemma value6_alphabet c : in_alphabet url c = true -> exists i, value6 url c = Some i /\ 0 <= i < 64.
Proof.
  unfold in_alphabet, value6, base64_url, base64_std. intros H.
  repeat case_match; try done; eexists; (split; [reflexivity|]); bool_simpl; lia.
Qed.

Lemma bytes_ind3 (P : list Z -> Prop) :
  P [] -> (forall a, P [a]) -> (forall a b, P [a; b]) -> (forall a b c r, P r -> P (a :: b :: c :: r)) ->
  forall bs, P bs.
Proof.
  intros H0 H1 H2 H3 bs. enough (P bs /\ (forall a, P (a :: bs)) /\ (forall a b, P (a :: b :: bs))) by tauto.
  induction bs as [|c bs (IH1 & IH2 & IH3)]; [auto|]. auto.
Qed.

Lemma units_ind4 (P : list Z -> Prop) :
  P [] -> (forall a, P [a]) -> (forall a b, P [a; b]) -> (forall a b c, P [a; b; c]) ->
  (forall a b c d r, P r -> P (a :: b :: c :: d :: r)) -> forall u, P u.
Proof.
  intros H0 H1 H2 H3 H4 u.
  enough (P u /\ (forall a, P (a :: u)) /\ (forall a b, P (a :: b :: u)) /\ (forall a b c, P (a :: b :: c :: u))) by tauto.
  induction u as [|c u (IH1 & IH2 & IH3 & IH4)]; [auto|]. auto.
Qed.

Lemma b64_encode_alphabet bs : bytes_ok bs -> Forall (fun c => in_alphabet url c = true) (b64_encode url bs).
Proof.
  induction bs as [|a|a b|a b c r IH] using bytes_ind3; intros Hbs; [constructor|..];
    repeat match goal with
      | H : bytes_ok (_ :: _) |- _ => apply Forall_cons in H; destruct H
      | H : Forall is_byte (_ :: _) |- _ => apply Forall_cons in H; destruct H
      end; unfold is_byte in *; cbn [b64_encode]; repeat constructor; try (apply unit6_alphabet; div_lia); by apply IH.
Qed.

Lemma b64_decode_encode bs : bytes_ok bs -> b64_decode url (b64_encode url bs) = Some bs.
Proof.
  induction bs as [|a|a b|a b c r IH] using bytes_ind3; intros Hbs; [done|..];
    repeat match goal with
      | H : bytes_ok (_ :: _) |- _ => apply Forall_cons in H; destruct H
      | H : Forall is_byte (_ :: _) |- _ => apply Forall_cons in H; destruct H
      end; unfold is_byte in *; cbn [b64_encode b64_decode];
    rewrite !value6_unit6 by div_lia; cbn; rewrite ?IH by done; cbn; repeat f_equal; div_lia.
Qed.

Lemma b64_decode_units u :
  Forall (fun c => in_alphabet url c = true) u -> len u mod 4 <> 1 ->
  exists bs, b64_decode url u = Some bs /\ bytes_ok bs /\ len bs = len u * 3 / 4.
Proof.
  unfold bytes_ok, is_byte.
  induction u as [|a|a b|a b c|a b c d r IH] using units_ind4; intros Hu Hm;
    repeat match goal with
      | H : Forall _ (_ :: _) |- _ =>
          apply Forall_cons in H; destruct H as [[? [? ?]]%value6_alphabet ?]
      end; [by exists []|done| | |]; cbn [b64_decode];
    repeat match goal with H : value6 url _ = Some _ |- _ => rewrite H; clear H end; cbn.
  1-2: eexists; (split; [reflexivity|]); (split; [|done]); repeat constructor; div_lia.
  destruct IH as (bs & E & Hok & Hlen); [done|by rewrite !len_cons in Hm; div_lia|].
  rewrite E. cbn. eexists. split; [reflexivity|]. split.
  - repeat constructor; try div_lia. done.
  - rewrite !len_cons, Hlen. div_lia.
Qed.

Lemma alphabet_unit c : in_alphabet url c = true -> c <> EQUALS /\ is_space c = false.
Proof. unfold in_alphabet, base64_url, base64_std, is_space, EQUALS. destruct url; lia. Qed.

Lemma unpad_padding u :
  Forall (fun c => in_alphabet url c = true) u -> len u mod 4 <> 1 ->
  unpad (filter (fun c => is_space c = false) (u ++ padding (len u))) = u.
Proof.
  intros Hu Hm. replace (filter _ (u ++ padding (len u))) with (u ++ padding (len u)).
  2:{ symmetry. rewrite filter_app. f_equal.
      - clear Hm. induction Hu as [|c u Hc Hu IH]; [done|].
        rewrite filter_cons_True by (by apply alphabet_unit). by rewrite IH.
      - unfold padding. induction (Z.to_nat _) as [|n IH]; [done|].
        cbn [replicate]. rewrite filter_cons_True by done. by rewrite IH. }
  assert (Hr : Forall (fun c => c <> EQUALS) (reverse u)).
  { apply Forall_reverse. eapply Forall_impl; [exact Hu|]. intros c Hc. by apply alphabet_unit. }
  pose proof (Z.mod_pos_bound (len u) 4 ltac:(lia)) as Hb.
  assert (Hc : len u mod 4 = 0 \/ len u mod 4 = 2 \/ len u mod 4 = 3) by lia.
  unfold unpad, padding. destruct Hc as [E|[E|E]]; rewrite E.
  - cbn [Z.sub Z.modulo]. change (Z.to_nat ((4 - 0) mod 4)) with 0%nat. cbn [replicate]. rewrite app_nil_r, E. cbn.
    destruct (reverse u) as [|x [|y r]]; try done. inversion_clear Hr as [|? ? Hx _].
    by destruct (Z.eqb_spec x EQUALS).
  - change (Z.to_nat ((4 - 2) mod 4)) with 2%nat. cbn [replicate]. rewrite len_app, reverse_app.
    change (len [EQUALS; EQUALS]) with 2. replace ((len u + 2) mod 4) with 0 by div_lia.
    change (reverse [EQUALS; EQUALS]) with [EQUALS; EQUALS]. cbn [app Z.eqb]. rewrite Z.eqb_refl.
    by rewrite reverse_involutive.
  - change (Z.to_nat ((4 - 3) mod 4)) with 1%nat. cbn [replicate]. rewrite len_app, reverse_app.
    change (len [EQUALS]) with 1. replace ((len u + 1) mod 4) with 0 by div_lia.
    change (reverse [EQUALS]) with [EQUALS]. cbn [app Z.eqb].
    destruct (reverse u) as [|y r] eqn:Er.
    + apply (f_equal reverse) in Er. rewrite reverse_involutive in Er. by subst u.
    + inversion_clear Hr as [|? ? Hy _]. destruct (Z.eqb_spec y EQUALS); [done|].
      by rewrite Z.eqb_refl, <- Er, reverse_involutive.
Qed.

Lemma b64_forgiving_units u :
  Forall (fun c => in_alphabet url c = true) u -> len u mod 4 <> 1 ->
  exists bs, b64_forgiving url (u ++ padding (len u)) = Ok bs /\ bytes_ok bs /\ len bs = len u * 3 / 4.
Proof.
  intros Hu Hm. destruct (b64_decode_units u Hu Hm) as (bs & E & Hok & Hlen).
  exists bs. unfold b64_forgiving. by rewrite unpad_padding, E.
Qed.

Lemma b64_decode_equals u : EQUALS ∈ u -> b64_decode url u = None.
Proof.
  assert (Hv : value6 url EQUALS = None) by (by destruct url).
  induction u as [|a|a b|a b c|a b c d r IH] using units_ind4; intros Hin; [by apply not_elem_of_nil in Hin|done|..];
    rewrite ?elem_of_cons in Hin; cbn [b64_decode];
    repeat match goal with
      | H : _ ∨ _ |- _ => destruct H as [<- |H]; [rewrite Hv|]
      | H : _ ∈ [] |- _ => by apply not_elem_of_nil in H
      end;
    repeat match goal with |- context [value6 url ?x] => destruct (value6 url x); cbn; try done end.
  by rewrite IH.
Qed.

Lemma b64_forgiving_odd u :
  Forall (fun c => in_alphabet url c = true) u -> len u mod 4 = 1 ->
  exists e, b64_forgiving url (u ++ padding (len u)) = Throw e.
Proof.
  intros Hu Hm. unfold b64_forgiving, padding. rewrite Hm. change (Z.to_nat ((4 - 1) mod 4)) with 3%nat.
  rewrite filter_app.
  replace (filter _ u) with u by
    (symmetry; clear Hm; induction Hu as [|c u Hc Hu IH]; [done|];
     rewrite filter_cons_True by (by apply alphabet_unit); by rewrite IH).
  change (filter _ (replicate 3 EQUALS)) with (replicate 3 EQUALS).
  unfold unpad. rewrite len_app, reverse_app. change (len (replicate 3 EQUALS)) with 3.
  replace ((len u + 3) mod 4) with 0 by div_lia.
  change (reverse (replicate 3 EQUALS)) with [EQUALS; EQUALS; EQUALS]. cbn [app Z.eqb]. rewrite Z.eqb_refl.
  rewrite b64_decode_equals; [by eexists|]. rewrite elem_of_reverse. by left.
Qed.

Lemma b64_encode_len bs : len (b64_encode url bs) mod 4 <> 1.
Proof.
  induction bs as [|a|a b|a b c r IH] using bytes_ind3; [done..|].
  cbn [b64_encode]. rewrite !len_cons. intros E. apply IH. div_lia.
Qed.

Lemma b64_encode_app a b :
  len a mod 3 = 0 ->
  b64_encode url (a ++ b) = b64_encode url a ++ b64_encode url b /\ len (b64_encode url a) mod 4 = 0.
Proof.
  induction a as [|x|x y|x y z r IH] using bytes_ind3; intros Hm; [done..|].
  destruct IH as [E E4]; [rewrite !len_cons in Hm; div_lia|].
  cbn [b64_encode app]. rewrite E, !len_cons. split; [done|div_lia].
Qed.

Lemma b64_forgiving_encode bs :
  bytes_ok bs ->
  b64_forgiving url (b64_encode url bs ++ padding (len (b64_encode url bs))) = Ok bs.
Proof.
  intros Hbs. unfold b64_forgiving.
  by rewrite unpad_padding, b64_decode_encode by first [apply b64_encode_len|by apply b64_encode_alphabet|done].
Qed.
End Base64Facts.

(** ** The instance *)

#[export] Instance web_text : WebText := {
  toLowerCase := fmap ascii_lower;
  core_byteLength s := len (utf8_encode s);
  encode := utf8_encode;
  encodeInto s room := utf8_into (scalars s) room;
  decode := utf8_decode;
  forgivingBase64Encode bs := b64_encode false bs ++ padding (len (b64_encode false bs));
  forgivingBase64UrlEncode := b64_encode true;
  forgivingBase64Decode := b64_forgiving false;
  forgivingBase64UrlDecode := b64_forgiving true
}.

Lemma mod4_not_one n : n mod 4 <> 1 -> n <> 1.
Proof. by intros H ->. Qed.

#[export] Instance web_text_ok : WebTextOk.
Proof.
  constructor; intros; cbn [toLowerCase core_byteLength encode encodeInto decode forgivingBase64Encode
    forgivingBase64UrlEncode forgivingBase64Decode forgivingBase64UrlDecode web_text].
  - done.
  - unfold len. by rewrite length_fmap.
  - done.
  - done.
  - apply utf8_into_prefix.
  - by apply utf8_into_room.
  - by apply utf8_into_all.
  - by apply utf8_decode_encode.
  - exists (b64_encode false bs). split; [done|]. split; [by apply (b64_encode_alphabet false)|].
    split; [apply mod4_not_one, b64_encode_len|by apply b64_forgiving_encode].
  - destruct (b64_encode_app false a b H) as [-> E].
    replace (padding (len (b64_encode false a))) with (@nil Z) by (unfold padding; by rewrite E).
    replace (padding (len (b64_encode false a ++ b64_encode false b))) with (padding (len (b64_encode false b)))
      by (unfold padding; by rewrite len_app, <- Zplus_mod_idemp_l, E).
    by rewrite app_nil_r, app_assoc.
  - split; [by apply (b64_encode_alphabet true)|].
    split; [apply mod4_not_one, b64_encode_len|by apply b64_forgiving_encode].
  - by apply (b64_forgiving_units false).
  - by apply (b64_forgiving_units true).
  - by apply (b64_forgiving_odd false).
  - by apply (b64_forgiving_odd true).
Qed.
