(* ===== verification/BufferText.v ===== *)
(** * Buffers and text: [internal/buffer.mjs] and [internal/normalize_encoding.mjs]

    The names of the encodings, the table [encodingOps], [Buffer.from] a string,
    [byteLength], [write], [toString], [indexOf], and [fill] and [alloc] with a
    string.  The codecs of the platform come from the interface [WebText]. *)

From S2P Require Import Prelude Bytes Codecs BufferSearch Buffer WebText WebModel.

Section Text.
Context `{!WebText}.

(** ** Names of encodings *)

Definition slowCases (enc : jsstr) : option jsstr :=
  let same name := str_eqb enc (js name) in
  let lower name := str_eqb (toLowerCase enc) (js name) in
  match len enc with
  | 4 =>
      if same "UTF8" then Some (js "utf8")
      else if same "ucs2" || same "UCS2" then Some (js "utf16le")
      else if lower "utf8" then Some (js "utf8")
      else if lower "ucs2" then Some (js "utf16le")
      else None
  | 3 => if same "hex" || same "HEX" || lower "hex" then Some (js "hex") else None
  | 5 =>
      if same "ascii" then Some (js "ascii")
      else if same "ucs-2" then Some (js "utf16le")
      else if same "UTF-8" then Some (js "utf8")
      else if same "ASCII" then Some (js "ascii")
      else if same "UCS-2" then Some (js "utf16le")
      else if lower "utf-8" then Some (js "utf8")
      else if lower "ascii" then Some (js "ascii")
      else if lower "ucs-2" then Some (js "utf16le")
      else None
  | 6 =>
      if same "base64" then Some (js "base64")
      else if same "latin1" || same "binary" then Some (js "latin1")
      else if same "BASE64" then Some (js "base64")
      else if same "LATIN1" || same "BINARY" then Some (js "latin1")
      else if lower "base64" then Some (js "base64")
      else if lower "latin1" || lower "binary" then Some (js "latin1")
      else None
  | 7 => if same "utf16le" || same "UTF16LE" || lower "utf16le" then Some (js "utf16le") else None
  | 8 => if same "utf-16le" || same "UTF-16LE" || lower "utf-16le" then Some (js "utf16le") else None
  | 9 => if same "base64url" || same "BASE64URL" || lower "base64url" then Some (js "base64url") else None
  | _ => if same "" then Some (js "utf8") else None
  end.

(** [None] is [null] or [undefined]. *)
Definition normalizeEncoding (enc : option jsstr) : option jsstr :=
  match enc with
  | None => Some (js "utf8")
  | Some enc =>
      if str_eqb enc (js "utf8") || str_eqb enc (js "utf-8") then Some (js "utf8") else slowCases enc
  end.

Definition isEncoding (encoding : jsval) : bool :=
  match encoding with
  | JString e => negb (len e =? 0) && bool_decide (is_Some (normalizeEncoding (Some e)))
  | _ => false
  end.

(** The keys of [encodingOps]. *)
Inductive encoding_key :=
| K_ascii | K_base64 | K_base64url | K_hex | K_latin1 | K_ucs2 | K_utf8 | K_utf16le.

(** The text of [undefined], [null], a boolean or a number is not the name of an
    encoding; other objects than strings are left out. *)
Definition getEncodingOps (encoding : jsval) : option encoding_key :=
  match encoding with
  | JString e =>
      let e := toLowerCase e in
      let same name := str_eqb e (js name) in
      match len e with
      | 4 => if same "utf8" then Some K_utf8 else if same "ucs2" then Some K_ucs2 else None
      | 5 =>
          if same "utf-8" then Some K_utf8
          else if same "ascii" then Some K_ascii
          else if same "ucs-2" then Some K_ucs2
          else None
      | 7 => if same "utf16le" then Some K_utf16le else None
      | 8 => if same "utf-16le" then Some K_utf16le else None
      | 6 =>
          if same "latin1" || same "binary" then Some K_latin1
          else if same "base64" then Some K_base64
          else if same "hex" then Some K_hex
          else None
      | 3 => if same "hex" then Some K_hex else None
      | 9 => if same "base64url" then Some K_base64url else None
      | _ => None
      end
  | _ => None
  end.

(** ** Reading text *)

Definition asciiSlice (this : list Z) (offset length_ : Z) : jsstr :=
  if (offset =? 0) && (length_ =? len this) then bytesToAscii this
  else bytesToAscii (slice this offset length_).

Definition base64Slice (this : list Z) (offset length_ : Z) : jsstr :=
  if (offset =? 0) && (length_ =? len this) then forgivingBase64Encode this
  else forgivingBase64Encode (slice this offset length_).

Definition base64urlSlice (this : list Z) (offset length_ : Z) : jsstr :=
  if (offset =? 0) && (length_ =? len this) then forgivingBase64UrlEncode this
  else forgivingBase64UrlEncode (slice this offset length_).

Definition hexSlice (this : list Z) (offset length_ : Z) : jsstr :=
  _hexSlice this (Some offset) (Some length_).

Definition latin1Slice (this : list Z) (offset length_ : Z) : jsstr := _latin1Slice this offset length_.

Definition ucs2Slice (this : list Z) (offset length_ : Z) : jsstr :=
  if (offset =? 0) && (length_ =? len this) then bytesToUtf16le this
  else bytesToUtf16le (slice this offset length_).

Definition _utf8Slice (buf : list Z) (start end_ : Z) : jsstr := decode (slice buf start end_).

Definition utf8Slice (this : list Z) (offset length_ : Z) : jsstr := _utf8Slice this offset length_.

(** ** Writing text

    A writer returns the new contents and the number of bytes written. *)

(** [offset] is a number here, and in range. *)
Definition blitBuffer (src dst : list Z) (offset byteLength_ : Z) : list Z * Z :=
  let srcLength := len src in
  let bytesToWrite := Z.min byteLength_ (Z.min srcLength (len dst - offset)) in
  let src := if bytesToWrite <? srcLength then slice src 0 bytesToWrite else src in
  (set_bytes dst src offset, bytesToWrite).

Definition asciiWrite (this : list Z) (string : jsstr) (offset length_ : Z) : list Z * Z :=
  blitBuffer (asciiToBytes string) this offset length_.

Definition base64Write (this : list Z) (string : jsstr) (offset length_ : Z) : result (list Z * Z) :=
  let! src := base64ToBytes forgivingBase64Decode string in Ok (blitBuffer src this offset length_).

Definition base64urlWrite (this : list Z) (string : jsstr) (offset length_ : Z) : result (list Z * Z) :=
  let! src := base64UrlToBytes forgivingBase64UrlDecode string in Ok (blitBuffer src this offset length_).

Definition hexWrite (this : list Z) (string : jsstr) (offset length_ : Z) : list Z * Z :=
  blitBuffer (hexToBytes string) this offset length_.

Definition latin1Write (this : list Z) (string : jsstr) (offset length_ : Z) : list Z * Z :=
  blitBuffer (asciiToBytes string) this offset length_.

Definition ucs2Write (this : list Z) (string : jsstr) (offset length_ : Z) : list Z * Z :=
  blitBuffer (utf16leToBytes string (Some (len this - offset))) this offset length_.

(** [length || Infinity]: a length of 0 is no bound. *)
Definition utf8Write (this : list Z) (string : jsstr) (offset length_ : Z) : list Z * Z :=
  let maxLength := if length_ =? 0 then len this - offset else Z.min length_ (len this - offset) in
  let buf :=
    if negb (offset =? 0) || (maxLength <? len this) then slice this offset (maxLength + offset) else this in
  let written := encodeInto string (len buf) in
  (set_bytes this written offset, len written).

(** ** The table of operations *)

Definition base64ByteLength (str : jsstr) (bytes : Z) : Z :=
  let bytes := if is_code (charCodeAt str (bytes - 1)) 0x3D then bytes - 1 else bytes in
  let bytes := if (1 <? bytes) && is_code (charCodeAt str (bytes - 1)) 0x3D then bytes - 1 else bytes in
  ushr (bytes * 3) 2.

Definition byteLengthUtf8 (str : jsstr) : Z := core_byteLength str.

Record EncodingOps := {
  op_byteLength : jsstr -> Z;
  op_encoding : jsstr;
  op_indexOf : list Z -> jsstr -> Z -> bool -> result (option Z);
  op_slice : list Z -> Z -> Z -> jsstr;
  op_write : list Z -> jsstr -> Z -> Z -> result (list Z * Z)
}.

(** The codes [encodingVal] are dropped: [indexOfBuffer] does not use them. *)
Definition encodingOps (k : encoding_key) : EncodingOps :=
  match k with
  | K_ascii =>
      {| op_byteLength := len; op_encoding := js "ascii";
         op_indexOf buf val byteOffset dir := Ok (indexOfBuffer buf (asciiToBytes val) byteOffset dir);
         op_slice := asciiSlice;
         op_write buf s offset l := Ok (asciiWrite buf s offset l) |}
  | K_base64 =>
      {| op_byteLength s := base64ByteLength s (len s); op_encoding := js "base64";
         op_indexOf buf val byteOffset dir :=
           let! b := base64ToBytes forgivingBase64Decode val in Ok (indexOfBuffer buf b byteOffset dir);
         op_slice := base64Slice; op_write := base64Write |}
  | K_base64url =>
      {| op_byteLength s := base64ByteLength s (len s); op_encoding := js "base64url";
         op_indexOf buf val byteOffset dir :=
           let! b := base64UrlToBytes forgivingBase64UrlDecode val in Ok (indexOfBuffer buf b byteOffset dir);
         op_slice := base64urlSlice; op_write := base64urlWrite |}
  | K_hex =>
      {| op_byteLength s := ushr (len s) 1; op_encoding := js "hex";
         op_indexOf buf val byteOffset dir := Ok (indexOfBuffer buf (hexToBytes val) byteOffset dir);
         op_slice := hexSlice;
         op_write buf s offset l := Ok (hexWrite buf s offset l) |}
  | K_latin1 =>
      {| op_byteLength := len; op_encoding := js "latin1";
         op_indexOf buf val byteOffset dir := Ok (indexOfBuffer buf (asciiToBytes val) byteOffset dir);
         op_slice := latin1Slice;
         op_write buf s offset l := Ok (latin1Write buf s offset l) |}
  | K_ucs2 =>
      {| op_byteLength s := len s * 2; op_encoding := js "ucs2";
         op_indexOf buf val byteOffset dir := Ok (indexOfBuffer buf (utf16leToBytes val None) byteOffset dir);
         op_slice := ucs2Slice;
         op_write buf s offset l := Ok (ucs2Write buf s offset l) |}
  | K_utf8 =>
      {| op_byteLength := byteLengthUtf8; op_encoding := js "utf8";
         op_indexOf buf val byteOffset dir := Ok (indexOfBuffer buf (encode val) byteOffset dir);
         op_slice := utf8Slice;
         op_write buf s offset l := Ok (utf8Write buf s offset l) |}
  | K_utf16le =>
      {| op_byteLength s := len s * 2; op_encoding := js "utf16le";
         op_indexOf buf val byteOffset dir := Ok (indexOfBuffer buf (utf16leToBytes val None) byteOffset dir);
         op_slice := ucs2Slice;
         op_write buf s offset l := Ok (ucs2Write buf s offset l) |}
  end.

(** ** Length, writing and reading *)

(** [!encoding] *)
Definition falsy (v : jsval) : bool :=
  match v with
  | JUndefined | JNull => true
  | JBool b => negb b
  | JNumber n => n =? 0
  | JString s => len s =? 0
  | JObject _ => false
  end.

(** [byteLength] of a string; [mustMatch] is a third argument [true]. *)
Definition byteLength (string : jsstr) (encoding : jsval) (mustMatch : bool) : Z :=
  if negb mustMatch && (len string =? 0) then 0
  else if falsy encoding then (if mustMatch then -1 else byteLengthUtf8 string)
  else
    match getEncodingOps encoding with
    | None => if mustMatch then -1 else byteLengthUtf8 string
    | Some k => op_byteLength (encodingOps k) string
    end.

(** The encoding, the offset and the length the arguments of [write] stand for. *)
Definition write_args (this : list Z) (offset length_ encoding : jsval) : result (jsval * Z * Z) :=
  match length_, offset with
  | JUndefined, JString e => Ok (JString e, 0, len this)
  | _, _ =>
      let! offset := validateOffset offset "offset" 0 (len this) in
      let remaining := len this - offset in
      match length_ with
      | JUndefined => Ok (encoding, offset, remaining)
      | JString e => Ok (JString e, offset, remaining)
      | _ =>
          let! l := validateOffset length_ "length" 0 (len this) in
          Ok (encoding, offset, if remaining <? l then remaining else l)
      end
  end.

Definition write (this : list Z) (string offset length_ encoding : jsval) : result (list Z * Z) :=
  match string with
  | JString string =>
      match offset with
      | JUndefined => Ok (utf8Write this string 0 (len this))
      | _ =>
          let! args := write_args this offset length_ encoding in
          let '(encoding, offset, l) := args in
          if falsy encoding then Ok (utf8Write this string offset l)
          else
            match getEncodingOps encoding with
            | None => Throw ERR_UNKNOWN_ENCODING
            | Some k => op_write (encodingOps k) this string offset l
            end
      end
  | v => Throw (ERR_INVALID_ARG_TYPE "argument" ["string"%string] v)
  end.

Definition fromString (string : jsstr) (encoding : jsval) : result (list Z) :=
  let encoding := match encoding with JString (_ :: _) => encoding | _ => JString (js "utf8") end in
  if negb (isEncoding encoding) then Throw ERR_UNKNOWN_ENCODING
  else
    let length_ := bitor (byteLength string encoding false) 0 in
    let! buf := createBuffer length_ in
    let! res := write buf (JString string) encoding JUndefined JUndefined in
    let '(buf, actual) := res in
    Ok (if negb (actual =? length_) then slice buf 0 actual else buf).

(** [toString(encoding, start, end)], the bounds [undefined] or numbers; [None]
    is a call without arguments. *)
Definition toString (this : list Z) (args : option (jsval * option Z * option Z)) : result jsstr :=
  match args with
  | None => Ok (utf8Slice this 0 (len this))
  | Some (encoding, start, end_) =>
      let length_ := len this in
      let start :=
        match start with
        | None => Some 0
        | Some s => if s <=? 0 then Some 0 else if length_ <=? s then None else Some (bitor s 0)
        end in
      match start with
      | None => Ok []
      | Some start =>
          let end_ :=
            match end_ with
            | None => length_
            | Some e => if length_ <? e then length_ else bitor e 0
            end in
          if end_ <=? start then Ok []
          else
            match encoding with
            | JUndefined => Ok (utf8Slice this start end_)
            | _ =>
                match getEncodingOps encoding with
                | None => Throw ERR_UNKNOWN_ENCODING
                | Some k => Ok (op_slice (encodingOps k) this start end_)
                end
            end
      end
  end.

(** [.replace(/(.{2})/g, "$1 ")] *)
Fixpoint spaced (s : jsstr) : jsstr :=
  match s with
  | a :: b :: r => a :: b :: 32 :: spaced r
  | _ => s
  end.

Definition INSPECT_MAX_BYTES : Z := 50.

Definition inspect (this : list Z) : result jsstr :=
  let! str := toString this (Some (JString (js "hex"), Some 0, Some INSPECT_MAX_BYTES)) in
  let str := trim (spaced str) in
  let str := if INSPECT_MAX_BYTES <? len this then str ++ js " ... " else str in
  Ok (js "<Buffer " ++ str ++ js ">").

(** ** Searching *)

(** A value to look for. *)
Inductive search_value := SNumber (n : Z) | SString (s : jsstr) | SBytes (bs : list Z) | SOther (v : jsval).

(** [+byteOffset], [None] being [NaN]. *)
Definition offset_number (byteOffset : jsval) : option Z :=
  match byteOffset with
  | JNumber n => Some (if 0x7fffffff <? n then 0x7fffffff else if n <? - 0x80000000 then - 0x80000000 else n)
  | JNull => Some 0
  | JBool b => Some (if b then 1 else 0)
  | _ => None
  end.

Definition bidirectionalIndexOf (buffer : list Z) (val : search_value) (byteOffset encoding : jsval) (dir : bool)
    : result (option Z) :=
  let encoding := match byteOffset with JString e => JString e | _ => encoding end in
  let byteOffset :=
    match offset_number byteOffset with
    | Some n => n
    | None => if dir then 0 else len buffer
    end in
  let ops := match encoding with JUndefined => Some K_utf8 | _ => getEncodingOps encoding end in
  match val with
  | SNumber n => indexOfNumber buffer (to_uint32 n) byteOffset dir
  | SString s =>
      match ops with
      | None => Throw ERR_UNKNOWN_ENCODING
      | Some k => op_indexOf (encodingOps k) buffer s byteOffset dir
      end
  | SBytes bs => Ok (indexOfBuffer buffer bs byteOffset dir)
  | SOther v => Throw (ERR_INVALID_ARG_TYPE "value" ["number"; "string"; "Buffer"; "Uint8Array"]%string v)
  end.

Definition indexOf (this : list Z) (val : search_value) (byteOffset encoding : jsval) : result (option Z) :=
  bidirectionalIndexOf this val byteOffset encoding true.

Definition lastIndexOf (this : list Z) (val : search_value) (byteOffset encoding : jsval) : result (option Z) :=
  bidirectionalIndexOf this val byteOffset encoding false.

Definition includes (this : list Z) (val : search_value) (byteOffset encoding : jsval) : result bool :=
  let! i := indexOf this val byteOffset encoding in Ok (negb (bool_decide (i = Some (-1)))).

(** ** Filling with text *)

(** A bound that is a number; another value compares like [undefined]. *)
Definition bound (v : jsval) : option Z := match v with JNumber n => Some n | _ => None end.

Definition fill_string (this : list Z) (val : jsstr) (start end_ encoding : jsval) : result (list Z) :=
  let '(encoding, start, end_) :=
    match start, end_ with
    | JString e, _ => (JString e, JNumber 0, JNumber (len this))
    | _, JString e => (JString e, start, JNumber (len this))
    | _, _ => (encoding, start, end_)
    end in
  match encoding with
  | JUndefined | JString _ =>
      if match encoding with JString _ => negb (isEncoding encoding) | _ => false end
      then Throw (TypeError "Unknown encoding")
      else
        let named name := match encoding with JString e => str_eqb e (js name) | _ => false end in
        match val with
        | [] => fill_range this (inl 0) (bound start) (bound end_)
        | [code] =>
            if (named "utf8" && (code <? 128)) || named "latin1"
            then fill_range this (inl code) (bound start) (bound end_)
            else fill_range this (inr (fromString val encoding)) (bound start) (bound end_)
        | _ => fill_range this (inr (fromString val encoding)) (bound start) (bound end_)
        end
  | _ => Throw (TypeError "encoding must be a string")
  end.

(** What [alloc] fills a new buffer with. *)
Inductive alloc_fill := AString (s : jsstr) | AValue (v : fill_value).

Definition alloc (size : jsval) (fill_ : option alloc_fill) (encoding : jsval) : result (list Z) :=
  let! n := assertSize size in
  let! buffer := createBuffer n in
  match fill_ with
  | None => Ok buffer
  | Some f =>
      match encoding with
      | JUndefined | JString _ =>
          match f with
          | AString s => fill_string buffer s encoding JUndefined JUndefined
          | AValue v => fill buffer v (bound encoding) None
          end
      | v => Throw (ERR_INVALID_ARG_TYPE "encoding" ["string"%string] v)
      end
  end.

(** ** [Buffer.from] *)

(** [fromArrayBuffer]: the part of the array buffer the new buffer shows.  The
    arguments are [undefined], numbers or [NaN] (the inner [None]). *)
Definition fromArrayBuffer (obj : list Z) (byteOffset length_ : option (option Z)) : result (list Z) :=
  let byteOffset := match byteOffset with Some (Some n) => n | _ => 0 end in
  let maxLength := len obj - byteOffset in
  if maxLength <? 0 then Throw ERR_BUFFER_OUT_OF_BOUNDS
  else
    let! l :=
      match length_ with
      | None => Ok maxLength
      | Some (Some n) =>
          if 0 <? n then (if maxLength <? n then Throw ERR_BUFFER_OUT_OF_BOUNDS else Ok n) else Ok 0
      | Some None => Ok 0
      end in
    if (byteOffset <? 0) || (len obj <? byteOffset + l) then Throw (RangeError "Invalid typed array length")
    else Ok (take (Z.to_nat l) (drop (Z.to_nat byteOffset) obj)).

(** What [_from] finds out about its argument: a string, an array buffer, an
    object whose [valueOf] is another string or object, an object with a
    length that is a number or not, the JSON form of a buffer, an object with
    [Symbol.toPrimitive], or none of these. *)
Inductive from_value :=
| VString (s : jsstr)
| VArrayBuffer (bytes : list Z)
| VBoxed (v : from_value)
| VArrayLike (items : list Z)
| VOddLength
| VJSON (data : list Z)
| VPrimitive (s : jsstr)
| VOther (v : jsval).

Definition fromObject (v : from_value) : option (result (list Z)) :=
  match v with
  | VArrayLike items => Some (fromArrayLike items)
  | VOddLength => Some (createBuffer 0)
  | VJSON data => Some (fromArrayLike data)
  | _ => None
  end.

(** The second and third argument as numbers; [None] is [undefined], and the
    text of a string that is not a number is [NaN]. *)
Definition from_offset (v : jsval) : option (option Z) :=
  match v with
  | JUndefined => None
  | JNull => Some (Some 0)
  | JBool b => Some (Some (if b then 1 else 0))
  | JNumber n => Some (Some n)
  | JString _ | JObject _ => Some None
  end.

Fixpoint _from (value : from_value) (encodingOrOffset length_ : jsval) : result (list Z) :=
  match value with
  | VString s => fromString s encodingOrOffset
  | VArrayBuffer bytes => fromArrayBuffer bytes (from_offset encodingOrOffset) (from_offset length_)
  | VBoxed v => _from v encodingOrOffset length_
  | _ =>
      match fromObject value, value with
      | Some b, _ => b
      | None, VPrimitive s => fromString s encodingOrOffset
      | None, _ =>
          Throw (ERR_INVALID_ARG_TYPE "first argument"
            ["string"; "Buffer"; "ArrayBuffer"; "Array"; "Array-like Object"]%string
            (match value with VOther v => v | _ => JObject 0 end))
      end
  end.
End Text.

#[export] Instance encoding_key_eq_dec : EqDecision encoding_key.
Proof. solve_decision. Defined.

(** ** The names agree *)

Section Names.
Context `{!WebText} `{!WebTextOk}.

(** The table by lower-case name, whatever its length. *)
Definition named (l : jsstr) : option encoding_key :=
  if str_eqb l (js "utf8") || str_eqb l (js "utf-8") then Some K_utf8
  else if str_eqb l (js "ucs2") || str_eqb l (js "ucs-2") then Some K_ucs2
  else if str_eqb l (js "ascii") then Some K_ascii
  else if str_eqb l (js "utf16le") || str_eqb l (js "utf-16le") then Some K_utf16le
  else if str_eqb l (js "latin1") || str_eqb l (js "binary") then Some K_latin1
  else if str_eqb l (js "base64") then Some K_base64
  else if str_eqb l (js "hex") then Some K_hex
  else if str_eqb l (js "base64url") then Some K_base64url
  else None.

Definition canonical (k : encoding_key) : jsstr :=
  match k with
  | K_ascii => js "ascii" | K_base64 => js "base64" | K_base64url => js "base64url" | K_hex => js "hex"
  | K_latin1 => js "latin1" | K_ucs2 | K_utf16le => js "utf16le" | K_utf8 => js "utf8"
  end.

Ltac split_len_match n := destruct n as [|[[[[]|[]|]|[[]|[]|]|]|[[[]|[]|]|[[]|[]|]|]|]|]; try reflexivity.

Lemma getEncodingOps_named e : getEncodingOps (JString e) = named (toLowerCase e).
Proof.
  unfold getEncodingOps, named. set (l := toLowerCase e).
  repeat match goal with
    | |- context [str_eqb l ?n] =>
        let E := fresh "E" in destruct (str_eqb l n) eqn:E;
        [apply bool_decide_eq_true in E; rewrite E; vm_compute; reflexivity|cbn [orb]]
    end.
  generalize (len l). intros n. split_len_match n.
Qed.

Lemma ascii_name (name : string) : forallb (fun c => (0 <=? c) && (c <? 128)) (js name) = true -> ascii (js name).
Proof.
  intros Hall. apply Forall_forall. intros c Hc. rewrite forallb_forall in Hall.
  specialize (Hall c). rewrite <- list_elem_of_In in Hall. specialize (Hall Hc). lia.
Qed.

Lemma normalizeEncoding_named e :
  e <> [] -> normalizeEncoding (Some e) = canonical <$> named (toLowerCase e).
Proof.
  intros Hne. unfold normalizeEncoding, slowCases.
  repeat match goal with
    | |- context [str_eqb e (js ?n)] =>
        let E := fresh "E" in destruct (str_eqb e (js n)) eqn:E;
        [apply bool_decide_eq_true in E; rewrite E;
         first [by rewrite (toLowerCase_ascii (js n)) by (by apply ascii_name)|by destruct Hne]
        |cbn [orb]]
    end.
  unfold named. pose proof (toLowerCase_len e) as Hlen. set (l := toLowerCase e) in *.
  repeat match goal with
    | |- context [str_eqb l (js ?n)] =>
        let E := fresh "E" in destruct (str_eqb l (js n)) eqn:E;
        [apply bool_decide_eq_true in E;
         rewrite E in Hlen; rewrite <- (Hlen (ascii_name n eq_refl)), ?E; vm_compute; reflexivity
        |cbn [orb]]
    end.
  generalize (len e). intros n. split_len_match n.
Qed.

(** the two places that know the names of the encodings agree: [isEncoding]
    accepts exactly the strings for which [getEncodingOps] finds operations,
    and [normalizeEncoding] gives the name of the encoding found there. *)
Theorem encoding_names_agree (e : jsstr) :
  (isEncoding (JString e) = true <-> is_Some (getEncodingOps (JString e)))
  /\ (e <> [] -> normalizeEncoding (Some e) = canonical <$> getEncodingOps (JString e)).
Proof.
  rewrite getEncodingOps_named. split; [|apply normalizeEncoding_named]. cbn [isEncoding].
  destruct e as [|c e].
  - rewrite toLowerCase_ascii by constructor. cbn. split; [done|]. by intros [? [=]].
  - rewrite normalizeEncoding_named by done. rewrite len_cons. pose proof (len_nonneg e).
    destruct (Z.eqb_spec (1 + len e) 0); [lia|]. cbn [negb andb]. rewrite bool_decide_eq_true.
    by rewrite fmap_is_Some.
Qed.
End Names.

Lemma encoding_names_agree_witness :
  (isEncoding (JString (js "Utf-8")) = true <-> is_Some (getEncodingOps (JString (js "Utf-8"))))
  /\ (js "Utf-8" <> [] ->
      normalizeEncoding (Some (js "Utf-8")) = canonical <$> getEncodingOps (JString (js "Utf-8"))).
Proof. apply (encoding_names_agree (js "Utf-8")). Defined.

(** ** The bytes of a text *)

Definition kStringMaxLength : Z := 536870888.

Section Encode.
Context `{!WebText} `{!WebTextOk}.

Definition text_bytes (k : encoding_key) (s : jsstr) : result (list Z) :=
  match k with
  | K_ascii | K_latin1 => Ok (asciiToBytes s)
  | K_base64 => base64ToBytes forgivingBase64Decode s
  | K_base64url => base64UrlToBytes forgivingBase64UrlDecode s
  | K_hex => Ok (hexToBytes s)
  | K_ucs2 | K_utf16le => Ok (utf16leToBytes s None)
  | K_utf8 => Ok (encode s)
  end.

Lemma blitBuffer_spec src dst o l :
  0 <= o <= len dst -> 0 <= l ->
  let n := Z.min l (Z.min (len src) (len dst - o)) in
  blitBuffer src dst o l = (set_bytes dst (take (Z.to_nat n) src) o, n).
Proof.
  intros Ho Hl n. unfold blitBuffer. fold n. pose proof (len_nonneg src).
  destruct (Z.ltb_spec n (len src)).
  - by rewrite slice_take by lia.
  - rewrite take_ge; [done|]. unfold len in *. lia.
Qed.

Lemma blitBuffer_all src dst : len src <= len dst -> blitBuffer src dst 0 (len dst) = (set_bytes dst src 0, len src).
Proof.
  intros Hl. pose proof (len_nonneg src). rewrite blitBuffer_spec by lia. cbv zeta.
  replace (Z.min (len dst) (Z.min (len src) (len dst - 0))) with (len src) by lia. by rewrite take_len.
Qed.

(** [units] bounds the whole units that are converted. *)
Lemma utf16leToBytes_room s u :
  0 < u < 2 ^ 32 ->
  utf16leToBytes s (Some u) = take (Z.to_nat (u / 2 * 2)) (utf16leToBytes s None).
Proof.
  intros Hu. rewrite utf16leToBytes_text. unfold utf16leToBytes. destruct (Z.eqb_spec u 0); [lia|].
  rewrite ushr_div, Z.mod_small by lia. change (2 ^ 1) with 2.
  rewrite Z.mul_min_distr_nonneg_r, Z.div_mul, (bind_seqZ_take utf16le_unit) by lia.
  assert (0 <= u / 2) by (apply Z.div_pos; lia). generalize dependent (u / 2). intros m Hm.
  replace (Z.to_nat (Z.min (len s) m)) with (Nat.min (Z.to_nat m) (length s)) by (unfold len; lia).
  rewrite <- take_take, firstn_all.
  replace (Z.to_nat (m * 2)) with (2 * Z.to_nat m)%nat by lia. generalize (Z.to_nat m). clear. intros n.
  revert s. induction n as [|n IH]; intros s; [by rewrite !take_0|].
  destruct s as [|c s]; [by rewrite !take_nil|]. replace (2 * S n)%nat with (S (S (2 * n))) by lia.
  rewrite firstn_cons, !bind_cons, IH. done.
Qed.

(** With room for all of its bytes a text is written whole. *)
Lemma op_write_all k s dst :
  len dst < 2 ^ 32 -> (forall bs, text_bytes k s = Ok bs -> len bs <= len dst) ->
  op_write (encodingOps k) dst s 0 (len dst)
  = let! bs := text_bytes k s in Ok (set_bytes dst bs 0, len bs).
Proof.
  intros Hd Hroom.
  assert (Hu : text_bytes K_utf16le s = Ok (utf16leToBytes s None) ->
      len (utf16leToBytes s None) <= len dst ->
      Ok (ucs2Write dst s 0 (len dst))
      = Ok (set_bytes dst (utf16leToBytes s None) 0, len (utf16leToBytes s None))).
  { intros _ Hl. unfold ucs2Write. rewrite Z.sub_0_r. pose proof (len_nonneg dst).
    destruct (decide (len dst = 0)) as [E|E].
    - rewrite E at 1. unfold utf16leToBytes at 1. cbn [Z.eqb]. by rewrite blitBuffer_all.
    - rewrite utf16leToBytes_room by lia. rewrite utf16leToBytes_text, utf16_length in *.
      rewrite take_ge; [rewrite blitBuffer_all by (rewrite utf16_length; lia); by rewrite utf16_length|].
      pose proof (utf16_length s) as Hl16. unfold len at 1 in Hl16.
      assert (2 * len s <= len dst / 2 * 2) by div_lia. lia. }
  destruct k; cbn [encodingOps op_write text_bytes rbind] in *.
  - unfold asciiWrite. by rewrite blitBuffer_all by (by apply Hroom).
  - unfold base64Write. destruct (base64ToBytes _ s) as [bs|e]; [|done]. cbn [rbind].
    by rewrite blitBuffer_all by (by apply Hroom).
  - unfold base64urlWrite. destruct (base64UrlToBytes _ s) as [bs|e]; [|done]. cbn [rbind].
    by rewrite blitBuffer_all by (by apply Hroom).
  - unfold hexWrite. by rewrite blitBuffer_all by (by apply Hroom).
  - unfold latin1Write. by rewrite blitBuffer_all by (by apply Hroom).
  - by apply Hu, Hroom.
  - unfold utf8Write. rewrite Z.sub_0_r, Z.add_0_r, Z.min_id.
    assert (Em : (if len dst =? 0 then len dst else len dst) = len dst) by (by destruct (len dst =? 0)).
    rewrite Em, Z.ltb_irrefl. cbn [negb orb Z.eqb]. by rewrite encodeInto_all by (by apply Hroom).
  - by apply Hu, Hroom.
Qed.

(** ** Lengths *)

Lemma hex_loop_length str n i : (length (hex_loop str n i) <= n)%nat.
Proof.
  revert i. induction n as [|n IH]; intros i; [done|]. cbn [hex_loop]. specialize (IH (i + 1)).
  repeat case_match; cbn [length]; lia.
Qed.

Lemma before_split (c : Z) (s : jsstr) :
  exists r, s = default s (before c s) ++ r /\ Forall (fun x => x <> c) (default s (before c s)).
Proof.
  induction s as [|x s (r & E & Hf)]; [by exists []|]. cbn [before]. destruct (Z.eqb_spec x c) as [->|Hx].
  - by exists (c :: s).
  - destruct (before c s) as [t|]; cbn [from_option fmap option_fmap option_map id] in *.
    + exists r. split; [by rewrite E at 1|by constructor].
    + exists []. rewrite app_nil_r. split; [done|by constructor].
Qed.

Lemma not_equals_at (p r : jsstr) n :
  Forall (fun x => x <> EQUALS) p -> is_code (charCodeAt (p ++ r) n) EQUALS = true -> len p <= n.
Proof.
  intros Hp E. destruct (decide (len p <= n)); [done|]. exfalso. unfold charCodeAt, at_index in E.
  destruct (Z.ltb_spec n 0); [done|]. unfold len in *. rewrite lookup_app_l in E by lia.
  destruct (p !! Z.to_nat n) as [c|] eqn:Ec; [|done]. rewrite Forall_lookup in Hp.
  apply Hp in Ec. cbn in E. by apply Z.eqb_eq in E.
Qed.

Lemma base64ByteLength_bound (p r : jsstr) :
  Forall (fun x => x <> EQUALS) p -> len (p ++ r) <= kStringMaxLength ->
  len p * 3 / 4 <= base64ByteLength (p ++ r) (len (p ++ r)) <= kMaxLength.
Proof.
  intros Hp Hl. unfold base64ByteLength. change 0x3D with EQUALS. set (s := p ++ r) in *.
  assert (Hps : len p <= len s) by (subst s; rewrite len_app; pose proof (len_nonneg r); lia).
  set (m := if is_code (charCodeAt s (len s - 1)) EQUALS then len s - 1 else len s).
  assert (Hm : len p <= m <= len s).
  { subst m. destruct (is_code _ _) eqn:E; [|lia]. apply not_equals_at in E; [|done]. lia. }
  set (m' := if (1 <? m) && is_code (charCodeAt s (m - 1)) EQUALS then m - 1 else m).
  assert (Hm' : len p <= m' <= len s).
  { subst m'. destruct ((1 <? m) && _) eqn:E; [|lia]. apply andb_true_iff in E as [_ E].
    apply not_equals_at in E; [|done]. lia. }
  pose proof (len_nonneg p). unfold kStringMaxLength, kMaxLength in *.
  rewrite ushr_div, Z.mod_small by lia. change (2 ^ 2) with 4. div_lia.
Qed.

Section Base64Text.
(** One of the two decoders, with what [WebTextOk] says of it. *)
Context (dec : jsstr -> result (list Z)) (in_alpha : Z -> bool) (f : Z -> Z).
Context (Hf : forall c, base64_unit c = true -> in_alpha (f c) = true).
Context (Hdec : forall u, Forall (fun c => in_alpha c = true) u -> len u mod 4 <> 1 ->
  exists bs, dec (u ++ padding (len u)) = Ok bs /\ bytes_ok bs /\ len bs = len u * 3 / 4).
Context (Hodd : forall u, Forall (fun c => in_alpha c = true) u -> len u mod 4 = 1 ->
  exists e, dec (u ++ padding (len u)) = Throw e).

Lemma base64_text_length s bs :
  f EQUALS = EQUALS -> len s <= kStringMaxLength ->
  dec (f <$> base64clean s) = Ok bs -> len bs <= base64ByteLength s (len s).
Proof.
  intros He Hl. rewrite base64clean_padded. destruct (before_split EQUALS s) as (r & Es & Hp).
  set (p := default s (before EQUALS s)) in *. set (u := filter _ p). intros Ed.
  assert (Hu : Forall (fun c => in_alpha c = true) (f <$> u)).
  { apply Forall_fmap, Forall_forall. intros c [Hc _]%list_elem_of_filter. by apply Hf. }
  assert (Hup : len u <= len p) by (unfold len, u; pose proof (length_filter (fun c => base64_unit c = true) p); lia).
  pose proof (base64ByteLength_bound p r Hp ltac:(by rewrite <- Es)) as Hb. rewrite <- Es in Hb.
  pose proof (len_nonneg u). unfold padded in Ed. destruct (Z.ltb_spec (len u) 2) as [Hs|Hs].
  - destruct (Hdec [] ltac:(constructor) ltac:(done)) as (bs' & E & _ & Hlen).
    change (dec [] = Ok bs') in E. change (dec [] = Ok bs) in Ed.
    rewrite E in Ed. injection Ed as <-. rewrite Hlen. change (len (@nil Z) * 3 / 4) with 0.
    pose proof (len_nonneg p). div_lia.
  - assert (Elen : len (f <$> u) = len u) by (unfold len; by rewrite length_fmap).
    assert (Epad : f <$> (u ++ padding (len u)) = (f <$> u) ++ padding (len (f <$> u))).
    { rewrite fmap_app, Elen. unfold padding. by rewrite fmap_replicate, He. }
    rewrite Epad in Ed. destruct (decide (len (f <$> u) mod 4 = 1)) as [Hm|Hm].
    + destruct (Hodd _ Hu Hm) as [e E]. by rewrite E in Ed.
    + destruct (Hdec _ Hu Hm) as (bs' & E & _ & Hlen). rewrite E in Ed. injection Ed as <-.
      rewrite Hlen, Elen. div_lia.
Qed.
End Base64Text.

Lemma base64_replace_std c : base64_unit c = true -> base64_std (if (if c =? 45 then 43 else c) =? 95 then 47 else (if c =? 45 then 43 else c)) = true.
Proof. unfold base64_unit, base64_std. intros Hc. repeat case_match; lia. Qed.

Lemma base64_replace_url c : base64_unit c = true -> base64_url (if (if c =? 43 then 45 else c) =? 47 then 95 else (if c =? 43 then 45 else c)) = true.
Proof. unfold base64_unit, base64_url. intros Hc. repeat case_match; lia. Qed.

Lemma op_byteLength_bound k s :
  units16 s -> len s <= kStringMaxLength ->
  0 <= op_byteLength (encodingOps k) s <= kMaxLength
  /\ forall bs, text_bytes k s = Ok bs -> len bs <= op_byteLength (encodingOps k) s.
Proof.
  intros Hu Hl. pose proof (len_nonneg s).
  assert (Hb64 : 0 <= base64ByteLength s (len s) <= kMaxLength).
  { pose proof (base64ByteLength_bound [] s ltac:(constructor) Hl) as Hb. cbn [app] in Hb.
    change (len (@nil Z) * 3 / 4) with 0 in Hb. lia. }
  unfold kStringMaxLength, kMaxLength in *.
  destruct k; cbn [encodingOps op_byteLength text_bytes]; (split; [|intros bs Ebs]); try lia.
  - injection Ebs as <-. unfold len, asciiToBytes. by rewrite length_fmap.
  - unfold base64ToBytes, replaceAll in Ebs. rewrite <- list_fmap_compose in Ebs.
    refine (base64_text_length _ base64_std _ base64_replace_std base64_decode base64_decode_odd s bs _ Hl Ebs). done.
  - unfold base64UrlToBytes, replaceAll in Ebs. rewrite <- list_fmap_compose in Ebs.
    refine (base64_text_length _ base64_url _ base64_replace_url base64url_decode base64url_decode_odd s bs _ Hl Ebs). done.
  - rewrite ushr_div, Z.mod_small by lia. div_lia.
  - injection Ebs as <-. unfold hexToBytes. unfold len at 1.
    pose proof (hex_loop_length s (Z.to_nat (ushr (len s) 1)) 0).
    assert (0 <= ushr (len s) 1) by (rewrite ushr_div by lia; div_lia). lia.
  - injection Ebs as <-. unfold len, asciiToBytes. by rewrite length_fmap.
  - injection Ebs as <-. rewrite utf16leToBytes_text, utf16_length. lia.
  - unfold byteLengthUtf8. rewrite byteLength_encode. pose proof (encode_bound s Hu). pose proof (len_nonneg (encode s)). lia.
  - injection Ebs as <-. unfold byteLengthUtf8. by rewrite byteLength_encode.
  - injection Ebs as <-. rewrite utf16leToBytes_text, utf16_length. lia.
Qed.

Lemma isEncoding_key e k : getEncodingOps (JString e) = Some k -> isEncoding (JString e) = true /\ e <> [].
Proof.
  rewrite getEncodingOps_named. intros E. destruct e as [|c e].
  - by rewrite toLowerCase_ascii in E by constructor.
  - split; [|done]. cbn [isEncoding]. rewrite normalizeEncoding_named by done. rewrite len_cons, E.
    pose proof (len_nonneg e). by destruct (Z.eqb_spec (1 + len e) 0); [lia|].
Qed.

Lemma byteLength_key s e k :
  getEncodingOps (JString e) = Some k -> byteLength s (JString e) false = op_byteLength (encodingOps k) s.
Proof.
  intros E. destruct (isEncoding_key e k E) as [_ Hne]. unfold byteLength. cbn [negb andb falsy].
  pose proof (len_pos e Hne). destruct (Z.eqb_spec (len e) 0); [lia|]. rewrite E.
  destruct (Z.eqb_spec (len s) 0) as [->%len_0_nil|]; [|done].
  destruct k; try done. cbn. unfold byteLengthUtf8. rewrite byteLength_encode, encode_ascii; [done|constructor].
Qed.

Lemma set_bytes_zeros (n : Z) bs :
  len bs <= n -> set_bytes (replicate (Z.to_nat n) 0) bs 0 = bs ++ replicate (Z.to_nat (n - len bs)) 0.
Proof.
  intros Hl. unfold set_bytes. change (Z.to_nat 0) with 0%nat. rewrite take_0, drop_replicate. cbn [app].
  replace (Z.to_nat n - (0 + length bs))%nat with (Z.to_nat (n - len bs)) by (unfold len in *; lia). done.
Qed.

Lemma fromString_bytes s e k :
  units16 s -> len s <= kStringMaxLength -> getEncodingOps (JString e) = Some k ->
  fromString s (JString e) = text_bytes k s.
Proof.
  intros Hu Hl Hk. destruct (isEncoding_key e k Hk) as [Hi Hne]. destruct (op_byteLength_bound k s Hu Hl) as [Hb Hbs].
  unfold fromString. destruct e as [|c e]; [done|]. rewrite Hi. cbn [negb].
  rewrite (byteLength_key s _ k Hk), bitor_0 by (unfold kMaxLength in Hb; lia).
  unfold createBuffer. destruct (Z.ltb_spec kMaxLength (op_byteLength (encodingOps k) s)); [lia|].
  set (n := op_byteLength (encodingOps k) s) in *. cbn [rbind]. unfold write, write_args. cbn [rbind falsy].
  pose proof (len_pos (c :: e) Hne). destruct (Z.eqb_spec (len (c :: e)) 0); [lia|]. rewrite Hk.
  assert (En : len (replicate (Z.to_nat n) 0) = n) by (unfold len; rewrite length_replicate; lia).
  rewrite op_write_all.
  2:{ rewrite En. unfold kMaxLength in Hb. lia. }
  2:{ by rewrite En. }
  destruct (text_bytes k s) as [bs|er] eqn:Et; [|done]. cbn [rbind]. specialize (Hbs bs eq_refl). f_equal.
  rewrite set_bytes_zeros by done. destruct (Z.eqb_spec (len bs) n) as [->|]; cbn [negb].
  - by rewrite Z.sub_diag, app_nil_r.
  - apply slice_prefix.
Qed.

Lemma utf8_key : getEncodingOps (JString (js "utf8")) = Some K_utf8.
Proof. by rewrite getEncodingOps_named, toLowerCase_ascii by (by apply ascii_name). Qed.

(** [Buffer.from(string, encoding)] is the bytes the codec of the encoding
    makes of the string, for every encoding and every string the engine can
    hold: the size computed beforehand is always enough, and what it is too
    large by is cut off.  The base64 decoders only fail on text whose units
    leave one over, and then so does [Buffer.from]. *)
Theorem fromString_encodes (s e : jsstr) (k : encoding_key) :
  units16 s -> len s <= kStringMaxLength -> getEncodingOps (JString e) = Some k ->
  fromString s (JString e) = text_bytes k s
  /\ (k <> K_base64 -> k <> K_base64url -> exists bs, fromString s (JString e) = Ok bs)
  /\ fromString s JUndefined = Ok (encode s).
Proof.
  intros Hu Hl Hk. rewrite (fromString_bytes s e k) by done. split; [done|]. split.
  - intros H1 H2. destruct k; try done; by eexists.
  - exact (fromString_bytes s (js "utf8") K_utf8 Hu Hl utf8_key).
Qed.
End Encode.

Lemma fromString_encodes_witness :
  fromString (js "zA-g==") (JString (js "Base64")) = Ok [204; 15; 160]
  /\ fromString (js "xyz") JUndefined = Ok (js "xyz").
Proof.
  assert (Hu : forall t : string, forallb (fun c => (0 <=? c) && (c <? 128)) (js t) = true -> units16 (js t)).
  { intros t Ht. eapply Forall_impl; [exact (ascii_name t Ht)|]. cbn. lia. }
  split.
  - destruct (fromString_encodes (js "zA-g==") (js "Base64") K_base64) as [E _];
      [by apply Hu|vm_compute; discriminate|reflexivity|]. exact E.
  - destruct (fromString_encodes (js "xyz") (js "utf8") K_utf8) as (_ & _ & E);
      [by apply Hu|vm_compute; discriminate|reflexivity|]. exact E.
Defined.

(** ** Reading text *)

Section Decode.
Context `{!WebText} `{!WebTextOk}.

Definition text_of (k : encoding_key) (bs : list Z) : jsstr :=
  match k with
  | K_ascii => bytesToAscii bs
  | K_base64 => forgivingBase64Encode bs
  | K_base64url => forgivingBase64UrlEncode bs
  | K_hex => mbind (M := list) hex_pair bs
  | K_latin1 => bs
  | K_ucs2 | K_utf16le => bytesToUtf16le bs
  | K_utf8 => decode bs
  end.

Lemma op_slice_text k this a b :
  0 <= a < b -> b <= len this -> op_slice (encodingOps k) this a b = text_of k (slice this a b).
Proof.
  intros Ha Hb.
  assert (Hwhole : forall f : list Z -> jsstr,
    (if (a =? 0) && (b =? len this) then f this else f (slice this a b)) = f (slice this a b)).
  { intros f. destruct (Z.eqb_spec a 0), (Z.eqb_spec b (len this)); try done. subst. by rewrite slice_whole. }
  destruct k; cbn [encodingOps op_slice text_of]; try apply Hwhole; try done.
  - unfold hexSlice, _hexSlice. destruct (Z.leb_spec a 0), (Z.leb_spec b 0), (Z.ltb_spec (len this) b); try lia;
      cbn [orb]; [replace a with 0 by lia|]; rewrite !mbind_concat; f_equal;
      apply (fmap_seqZ_slice hex_pair); lia.
  - unfold latin1Slice, _latin1Slice. rewrite Z.min_r by lia.
    etransitivity; [exact (fmap_seqZ_slice (fun x => x) this a b ltac:(lia) ltac:(lia))|]. apply list_fmap_id.
Qed.

Lemma toString_text this e start end_ :
  len this <= kMaxLength -> (forall n, end_ = Some n -> - 2 ^ 31 <= n) ->
  toString this (Some (JString e, start, end_))
  = (let a := Z.max 0 (Z.min (default 0 start) (len this)) in
     let b := Z.min (default (len this) end_) (len this) in
     if b <=? a then Ok []
     else match getEncodingOps (JString e) with
          | Some k => Ok (text_of k (slice this a b))
          | None => Throw ERR_UNKNOWN_ENCODING
          end).
Proof.
  intros Hl Hend. pose proof (len_nonneg this). unfold kMaxLength in Hl. cbv zeta.
  set (a := Z.max 0 _). set (b := Z.min _ (len this)). unfold toString.
  assert (Eb : match end_ with
               | Some n => if len this <? n then len this else bitor n 0
               | None => len this
               end = b).
  { subst b. destruct end_ as [n|]; cbn [from_option id]; [|lia]. specialize (Hend n eq_refl).
    destruct (Z.ltb_spec (len this) n); [lia|]. unfold bitor. rewrite to_int32_small by lia.
    rewrite Z.lor_0_r. lia. }
  rewrite Eb. clear Eb.
  assert (Hgo : (if b <=? a then Ok [] else
      match getEncodingOps (JString e) with
      | Some k => Ok (op_slice (encodingOps k) this a b)
      | None => Throw ERR_UNKNOWN_ENCODING
      end) = (if b <=? a then Ok [] else
      match getEncodingOps (JString e) with
      | Some k => Ok (text_of k (slice this a b))
      | None => Throw ERR_UNKNOWN_ENCODING
      end)).
  { destruct (Z.leb_spec b a); [done|]. destruct (getEncodingOps (JString e)) as [k|]; [|done].
    rewrite op_slice_text; [done| |]; subst a b; lia. }
  destruct start as [n|]; cbn [from_option id] in a.
  - destruct (Z.leb_spec n 0); [by replace 0 with a by lia|].
    destruct (Z.leb_spec (len this) n).
    + destruct (Z.leb_spec b a); [done|]. subst a b. lia.
    + rewrite bitor_0 by lia. by replace n with a by lia.
  - by replace 0 with a by lia.
Qed.

Lemma toString_whole this e k :
  len this <= kMaxLength -> getEncodingOps (JString e) = Some k -> this <> [] ->
  toString this (Some (JString e, None, None)) = Ok (text_of k this).
Proof.
  intros Hl Hk Hne. rewrite toString_text by done. cbn [from_option id]. pose proof (len_pos this Hne).
  rewrite Z.min_id, Z.min_l, Z.max_id by lia. destruct (Z.leb_spec (len this) 0); [lia|].
  by rewrite Hk, slice_whole.
Qed.

(** [toString(encoding, start, end)] is the text of the bytes from [start] to
    [end], both cut to the buffer, in the named encoding, and nothing when the
    range is empty; without arguments it is all of the buffer as UTF-8, and an
    unknown encoding is an error unless the range is empty. *)
Theorem toString_range (this : list Z) (e : jsstr) (start end_ : option Z) :
  len this <= kMaxLength -> (forall n, end_ = Some n -> - 2 ^ 31 <= n) ->
  let a := Z.max 0 (Z.min (default 0 start) (len this)) in
  let b := Z.min (default (len this) end_) (len this) in
  toString this (Some (JString e, start, end_))
  = (if b <=? a then Ok []
     else match getEncodingOps (JString e) with
          | Some k => Ok (text_of k (slice this a b))
          | None => Throw ERR_UNKNOWN_ENCODING
          end)
  /\ toString this None = Ok (decode this).
Proof.
  intros Hl Hend a b. split; [by apply toString_text|].
  cbn. unfold utf8Slice, _utf8Slice. by rewrite slice_whole.
Qed.

(** The encodings in which every sequence of bytes has a text of its own. *)
Definition lossless (k : encoding_key) (bs : list Z) : bool :=
  match k with
  | K_base64 | K_base64url | K_hex | K_latin1 => true
  | K_ucs2 | K_utf16le => len bs mod 2 =? 0
  | K_ascii | K_utf8 => false
  end.

Lemma utf16_pairs bs :
  bytes_ok bs -> len bs mod 2 = 0 -> exists s, units16 s /\ bs = mbind (M := list) utf16le_unit s.
Proof.
  intros Hok. induction bs as [|a|a b r IH _] using jsstr_ind2; intros Hm;
    [exists []; by split; [constructor|]|done|].
  apply Forall_cons in Hok as [Ha Hok]. apply Forall_cons in Hok as [Hb Hok]. unfold is_byte in *.
  destruct IH as (s & Hs & ->); [done|rewrite !len_cons in Hm; div_lia|].
  exists (a + b * 256 :: s). split; [constructor; [cbn; lia|done]|].
  rewrite bind_cons, utf16le_unit_eq by (cbn; lia). cbn [le_bytes app]. f_equal; [|f_equal]; div_lia.
Qed.

Lemma base64clean_units u :
  Forall (fun c => base64_unit c = true) u -> len u <> 1 ->
  base64clean (u ++ padding (len u)) = u ++ padding (len u)
  /\ base64clean u = u ++ padding (len u).
Proof.
  intros Hu Hl.
  assert (Hne : Forall (fun c => c <> EQUALS) u) by (eapply Forall_impl; [exact Hu|by intros c Hc ->]).
  assert (Hf : filter (fun c => base64_unit c = true) u = u).
  { clear -Hu. induction Hu as [|c u Hc Hu IH]; [done|]. by rewrite filter_cons_True, IH. }
  assert (Hp : padded u = u ++ padding (len u)).
  { unfold padded. destruct (Z.ltb_spec (len u) 2); [|done]. pose proof (len_nonneg u).
    assert (u = []) as -> by (apply len_0_nil; lia). done. }
  assert (Hb : default (u ++ padding (len u)) (before EQUALS (u ++ padding (len u))) = u).
  { unfold padding. destruct (Z.to_nat _) as [|n]; cbn [replicate].
    - by rewrite app_nil_r, before_none.
    - by rewrite before_fresh. }
  rewrite !base64clean_padded, Hb, Hf. split; [done|]. by rewrite before_none; cbn [from_option id]; rewrite ?Hf.
Qed.

Lemma replaceAll_id a b s : Forall (fun c => c <> a) s -> replaceAll a b s = s.
Proof. apply fmap_id_Forall. intros c Hc. by destruct (Z.eqb_spec c a). Qed.

Lemma padded_not u n (a : Z) :
  a <> EQUALS -> Forall (fun c => c <> a) u -> Forall (fun c => c <> a) (u ++ padding n).
Proof. intros Ha Hu. apply Forall_app. split; [done|]. by apply Forall_replicate. Qed.

Lemma text_bytes_empty k : exists b, text_bytes k [] = Ok b.
Proof.
  destruct k; try by eexists.
  - destruct (base64_decode [] ltac:(constructor) ltac:(done)) as (b & E & _). by exists b.
  - destruct (base64url_decode [] ltac:(constructor) ltac:(done)) as (b & E & _). by exists b.
Qed.

Lemma hex_pair_units b : is_byte b -> units16 (hex_pair b).
Proof.
  intros Hb.
  assert (Hall : forallb (fun b => forallb (fun c => (0 <=? c) && (c <? 2 ^ 16)) (hex_pair b)) (seqZ 0 256) = true)
    by (vm_compute; reflexivity).
  rewrite forallb_forall in Hall. specialize (Hall b). rewrite <- list_elem_of_In, elem_of_seqZ in Hall.
  specialize (Hall ltac:(unfold is_byte in Hb; lia)). rewrite forallb_forall in Hall.
  apply Forall_forall. intros c Hc%list_elem_of_In%Hall. lia.
Qed.

Lemma text_bytes_of k bs :
  bytes_ok bs -> 2 * len bs < 2 ^ 32 -> lossless k bs = true ->
  text_bytes k (text_of k bs) = Ok bs /\ units16 (text_of k bs).
Proof.
  intros Hok Hl Hk.
  assert (H16 : len bs mod 2 = 0 ->
    Ok (utf16leToBytes (bytesToUtf16le bs) None) = Ok bs /\ units16 (bytesToUtf16le bs)).
  { intros Hm. destruct (utf16_pairs bs Hok Hm) as (s & Hs & ->).
    by rewrite bytesToUtf16le_units, utf16leToBytes_text. }
  destruct k; cbn [lossless] in Hk; try done; cbn [text_of text_bytes].
  - destruct (base64_encode bs Hok) as (u & -> & Hu & Hne & Hd).
    assert (Hunit : Forall (fun c => base64_unit c = true) u)
      by (eapply Forall_impl; [exact Hu|intros c; unfold base64_std, base64_unit; lia]).
    unfold base64ToBytes. rewrite (proj1 (base64clean_units u Hunit Hne)).
    rewrite (replaceAll_id 45), (replaceAll_id 95), Hd;
      [|apply padded_not; [done|]; eapply Forall_impl; [exact Hu|intros c Hc ->; done]..].
    split; [done|]. apply Forall_app. split; [|by apply Forall_replicate].
    eapply Forall_impl; [exact Hu|]. intros c. unfold base64_std. lia.
  - destruct (base64url_encode bs Hok) as (Hu & Hne & Hd). set (u := forgivingBase64UrlEncode bs) in *.
    assert (Hunit : Forall (fun c => base64_unit c = true) u)
      by (eapply Forall_impl; [exact Hu|intros c; unfold base64_url, base64_unit; lia]).
    unfold base64UrlToBytes. rewrite (proj2 (base64clean_units u Hunit Hne)).
    rewrite (replaceAll_id 43), (replaceAll_id 47), Hd;
      [|apply padded_not; [done|]; eapply Forall_impl; [exact Hu|intros c Hc ->; done]..].
    split; [done|]. eapply Forall_impl; [exact Hu|]. intros c. unfold base64_url. lia.
  - rewrite hexToBytes_text by done. split; [done|].
    unfold units16. rewrite mbind_concat. apply Forall_concat, Forall_fmap.
    eapply Forall_impl; [exact Hok|]. exact hex_pair_units.
  - rewrite asciiToBytes_id by (eapply Forall_impl; [exact Hok|unfold is_byte; cbn; lia]).
    split; [done|]. eapply Forall_impl; [exact Hok|]. unfold is_byte. cbn. lia.
  - apply H16. by apply Z.eqb_eq.
  - apply H16. by apply Z.eqb_eq.
Qed.

(** [Buffer.from(buf.toString(encoding), encoding)] is the buffer, for
    hexadecimal, base64, base64url and latin1, and for UTF-16 when the buffer
    holds whole units. *)
Theorem buffer_text_roundtrip (bs t e : list Z) (k : encoding_key) :
  bytes_ok bs -> 2 * len bs < 2 ^ 32 -> getEncodingOps (JString e) = Some k -> lossless k bs = true ->
  toString bs (Some (JString e, None, None)) = Ok t -> len t <= kStringMaxLength ->
  fromString t (JString e) = Ok bs.
Proof.
  intros Hok Hl Hk Hlos Ht Hmax. destruct (decide (bs = [])) as [->|Hne].
  - rewrite toString_text in Ht by (done || by vm_compute). injection Ht as <-.
    rewrite (fromString_bytes [] e k) by (constructor || done).
    destruct (op_byteLength_bound k []) as [_ Hb]; [constructor|done|].
    destruct (text_bytes_empty k) as [b Eb]. rewrite Eb. specialize (Hb b Eb).
    rewrite <- (byteLength_key [] e k) in Hb by done.
    change (len b <= 0) in Hb. f_equal. apply len_0_nil.
    pose proof (len_nonneg b). lia.
  - rewrite (toString_whole bs e k) in Ht by (done || (unfold kMaxLength; lia)). injection Ht as <-.
    destruct (text_bytes_of k bs Hok Hl Hlos) as [E Hu]. by rewrite (fromString_bytes _ e k).
Qed.

(** a string stored as UTF-8 and read back is the string with lone
    surrogates replaced, except that a leading byte order mark is lost. *)
Theorem utf8_text_roundtrip (s : jsstr) :
  units16 s -> len s <= kStringMaxLength ->
  exists bs, fromString s JUndefined = Ok bs /\ bytes_ok bs
    /\ toString bs None = Ok (drop_bom (toWellFormed s)).
Proof.
  intros Hu Hl. exists (encode s). split; [exact (fromString_bytes s (js "utf8") K_utf8 Hu Hl utf8_key)|].
  split; [by apply encode_ok|]. cbn. unfold utf8Slice, _utf8Slice. rewrite slice_whole.
  by rewrite decode_encode.
Qed.
End Decode.

Lemma js_units (t : string) :
  forallb (fun c => (0 <=? c) && (c <? 128)) (js t) = true -> units16 (js t).
Proof. intros Ht. eapply Forall_impl; [exact (ascii_name t Ht)|]. cbn. lia. Qed.

Lemma toString_range_witness :
  toString (js "edge-runtime") (Some (JString (js "latin1"), Some (-3), Some 4)) = Ok (js "edge")
  /\ toString (js "edge-runtime") None = Ok (decode (js "edge-runtime")).
Proof.
  destruct (toString_range (js "edge-runtime") (js "latin1") (Some (-3)) (Some 4)) as [E1 E2];
    [vm_compute; discriminate|intros n [=<-]; lia|].
  split; [rewrite E1; vm_compute; reflexivity|exact E2].
Defined.

Lemma buffer_text_roundtrip_witness : fromString (js "+/8B") (JString (js "base64")) = Ok [251; 255; 1].
Proof.
  apply (buffer_text_roundtrip [251; 255; 1] (js "+/8B") (js "base64") K_base64);
    [|vm_compute; reflexivity..|vm_compute; discriminate].
  unfold bytes_ok, is_byte. repeat constructor; lia.
Defined.

Lemma utf8_text_roundtrip_witness :
  exists bs, fromString (js "abc") JUndefined = Ok bs /\ bytes_ok bs
    /\ toString bs None = Ok (drop_bom (toWellFormed (js "abc"))).
Proof. apply utf8_text_roundtrip; [by apply js_units|vm_compute; discriminate]. Defined.

(** [toString] uses a decoder that drops a byte order mark, so that a text
    starting with one does not come back. *)
Example toString_drops_bom :
  exists bs, fromString [BOM; 97] JUndefined = Ok bs /\ toString bs None = Ok [97].
Proof. exists [239; 187; 191; 97]. split; vm_compute; reflexivity. Qed.

(** ** Writing text at an offset *)

Section Write.
Context `{!WebText} `{!WebTextOk}.

(** What [write] puts into [room] bytes when at most [l] are asked for; [bs] is
    the whole text. *)
Definition written (k : encoding_key) (s : jsstr) (bs : list Z) (l room : Z) : list Z :=
  match k with
  | K_utf8 => encodeInto s (Z.min l room)
  | K_ucs2 | K_utf16le => take (Z.to_nat (Z.min l (room / 2 * 2))) bs
  | _ => take (Z.to_nat (Z.min l room)) bs
  end.

Lemma blitBuffer_take src dst o l :
  0 <= o <= len dst -> 0 <= l ->
  let w := take (Z.to_nat (Z.min l (len dst - o))) src in
  blitBuffer src dst o l = (set_bytes dst w o, len w).
Proof.
  intros Ho Hl w. rewrite blitBuffer_spec by done. cbv zeta. subst w. pose proof (len_nonneg src).
  assert (E : take (Z.to_nat (Z.min l (Z.min (len src) (len dst - o)))) src
              = take (Z.to_nat (Z.min l (len dst - o))) src).
  { destruct (decide (len src <= Z.min l (len dst - o))).
    - rewrite !take_ge; [done|..]; unfold len in *; lia.
    - do 2 f_equal. lia. }
  rewrite E. f_equal. unfold len in *. rewrite length_take. lia.
Qed.

Lemma utf8Write_spec this s o l :
  0 <= o <= len this -> 0 < l ->
  let w := encodeInto s (Z.min l (len this - o)) in
  utf8Write this s o l = (set_bytes this w o, len w).
Proof.
  intros Ho Hl w. unfold utf8Write. destruct (Z.eqb_spec l 0); [lia|].
  set (m := Z.min l (len this - o)) in *.
  assert (E : len (if negb (o =? 0) || (m <? len this) then slice this o (m + o) else this) = m).
  { destruct (negb (o =? 0) || (m <? len this)) eqn:Eb.
    - destruct (split_len this o Ho) as (u & v & -> & Hu). rewrite <- Hu in *.
      assert (Hm : 0 <= m <= len v) by (subst m; rewrite len_app in *; lia).
      destruct (split_len v m Hm) as (v1 & v2 & -> & Hv). rewrite <- Hv, Z.add_comm. by rewrite slice_mid.
    - apply orb_false_iff in Eb as [E1%negb_false_iff%Z.eqb_eq E2%Z.ltb_ge]. lia. }
  by rewrite E.
Qed.

(** At the end of the buffer the missing bound makes no difference. *)
Lemma utf8Write_end this s :
  utf8Write this s (len this) 0 = (set_bytes this (encodeInto s 0) (len this), len (encodeInto s 0)).
Proof.
  unfold utf8Write. cbn [Z.eqb]. rewrite Z.sub_diag, Z.add_0_l.
  replace (len (if negb (len this =? 0) || (0 <? len this) then slice this (len this) (len this) else this)) with 0;
    [done|].
  destruct (Z.eqb_spec (len this) 0) as [E|E]; cbn [negb orb]; [by rewrite E|].
  unfold slice. by rewrite Z.sub_diag, take_0.
Qed.

Lemma op_write_spec k s bs this o l :
  len this < 2 ^ 32 -> 0 <= o <= len this -> 0 <= l -> (k = K_utf8 -> l <> 0) ->
  text_bytes k s = Ok bs ->
  op_write (encodingOps k) this s o l
  = (let w := written k s bs l (len this - o) in Ok (set_bytes this w o, len w)).
Proof.
  intros Hlen Ho Hl Hz Hbs. cbv zeta.
  assert (Hu : bs = utf16leToBytes s None ->
    ucs2Write this s o l
    = (set_bytes this (take (Z.to_nat (Z.min l ((len this - o) / 2 * 2))) bs) o,
       len (take (Z.to_nat (Z.min l ((len this - o) / 2 * 2))) bs))).
  { intros ->. unfold ucs2Write. rewrite blitBuffer_take by done. cbv zeta.
    set (room := len this - o) in *.
    enough (E : take (Z.to_nat (Z.min l room)) (utf16leToBytes s (Some room))
      = take (Z.to_nat (Z.min l (room / 2 * 2))) (utf16leToBytes s None)) by (by rewrite E).
    destruct (decide (room = 0)) as [->|Hr].
    - replace (Z.min l 0) with 0 by lia. replace (Z.min l (0 / 2 * 2)) with 0 by (change (0 / 2 * 2) with 0; lia).
      by rewrite !take_0.
    - rewrite utf16leToBytes_room by lia. rewrite take_take. f_equal.
      assert (0 <= room / 2 * 2 <= room) by div_lia. lia. }
  destruct k; cbn [encodingOps op_write written text_bytes] in *; try injection Hbs as <-.
  - unfold asciiWrite. by rewrite blitBuffer_take.
  - unfold base64Write. rewrite Hbs. cbn [rbind]. by rewrite blitBuffer_take.
  - unfold base64urlWrite. rewrite Hbs. cbn [rbind]. by rewrite blitBuffer_take.
  - unfold hexWrite. by rewrite blitBuffer_take.
  - unfold latin1Write. by rewrite blitBuffer_take.
  - by rewrite Hu.
  - specialize (Hz eq_refl). by rewrite utf8Write_spec by lia.
  - by rewrite Hu.
Qed.

Lemma written_bound k s bs l room :
  0 <= l -> 0 <= room -> text_bytes k s = Ok bs ->
  written k s bs l room `prefix_of` bs /\ len (written k s bs l room) <= Z.min l room.
Proof.
  intros Hl Hr Hbs.
  assert (Ht : forall n, 0 <= n <= Z.min l room -> len (take (Z.to_nat n) bs) <= Z.min l room).
  { intros n Hn. unfold len. rewrite length_take. lia. }
  assert (Hd : 0 <= room / 2 * 2 <= room) by div_lia.
  destruct k; cbn [written text_bytes] in *;
    try (split; [exists (drop (Z.to_nat (Z.min l room)) bs); by rewrite take_drop|apply Ht; lia]);
    try (split; [exists (drop (Z.to_nat (Z.min l (room / 2 * 2))) bs); by rewrite take_drop|apply Ht; lia]).
  injection Hbs as <-. split; [apply encodeInto_prefix|apply encodeInto_room; lia].
Qed.

(** [write(string, offset, length, encoding)] puts the start of the text's
    bytes at the offset, never more than asked for nor than fits, changes no
    other byte and returns how many it wrote; UTF-8 is only cut between
    characters (with a length other than 0).  An offset outside the buffer
    and a text the codec rejects are errors. *)
Theorem text_write_spec (this bs : list Z) (s e : jsstr) (k : encoding_key) (o l : Z) :
  len this < 2 ^ 32 -> getEncodingOps (JString e) = Some k ->
  (0 <= o <= len this -> 0 <= l <= len this -> (k = K_utf8 -> l <> 0) -> text_bytes k s = Ok bs ->
   exists w, write this (JString s) (JNumber o) (JNumber l) (JString e) = Ok (set_bytes this w o, len w)
     /\ w `prefix_of` bs /\ len w <= Z.min l (len this - o)
     /\ w = written k s bs (Z.min l (len this - o)) (len this - o))
  /\ (o < 0 \/ len this < o ->
      write this (JString s) (JNumber o) (JNumber l) (JString e) = Throw (ERR_OUT_OF_RANGE "offset"))
  /\ (0 <= o <= len this -> 0 <= l <= len this -> forall er, text_bytes k s = Throw er ->
      write this (JString s) (JNumber o) (JNumber l) (JString e) = Throw er).
Proof.
  intros Hlen Hk. destruct (isEncoding_key e k Hk) as [_ Hne]. pose proof (len_pos e Hne).
  assert (Hargs : 0 <= o <= len this -> 0 <= l <= len this ->
    write this (JString s) (JNumber o) (JNumber l) (JString e)
    = op_write (encodingOps k) this s o (Z.min l (len this - o))).
  { intros Ho Hl. unfold write, write_args, validateOffset.
    destruct (Z.ltb_spec o 0), (Z.ltb_spec (len this) o); try lia. cbn [orb rbind].
    destruct (Z.ltb_spec l 0), (Z.ltb_spec (len this) l); try lia. cbn [orb rbind falsy].
    destruct (Z.eqb_spec (len e) 0); [lia|]. rewrite Hk. f_equal.
    destruct (Z.ltb_spec (len this - o) l); lia. }
  split; [|split].
  - intros Ho Hl Hz Hbs. destruct (decide (len this - o = 0 /\ k = K_utf8)) as [[Hroom ->]|Hn].
    + exists (encodeInto s 0). rewrite Hargs, Hroom by done. replace o with (len this) by lia.
      replace (Z.min l 0) with 0 by lia. cbn [encodingOps op_write]. rewrite utf8Write_end. split; [done|].
      injection Hbs as <-. split; [apply encodeInto_prefix|]. by split; [apply encodeInto_room|].
    + assert (Hz' : k = K_utf8 -> Z.min l (len this - o) <> 0) by (intros Ek; specialize (Hz Ek); assert (len this - o <> 0) by tauto; lia).
      eexists. rewrite Hargs, (op_write_spec k s bs) by (done || lia). split; [done|].
      destruct (written_bound k s bs (Z.min l (len this - o)) (len this - o)) as [Hp Hw]; [lia|lia|done|].
      split; [done|]. split; [lia|done].
  - intros Ho. unfold write, write_args, validateOffset. destruct (Z.ltb_spec o 0), (Z.ltb_spec (len this) o); try lia; done.
  - intros Ho Hl er Her. rewrite Hargs by done.
    destruct k; cbn [text_bytes encodingOps op_write] in *; try done.
    + unfold base64Write. by rewrite Her.
    + unfold base64urlWrite. by rewrite Her.
Qed.
End Write.

Lemma text_write_spec_witness :
  exists w, write (js "........") (JString (js "edge")) (JNumber 6) (JNumber 4) (JString (js "latin1"))
            = Ok (set_bytes (js "........") w 6, len w)
    /\ w `prefix_of` js "edge" /\ len w <= Z.min 4 (len (js "........") - 6)
    /\ w = written K_latin1 (js "edge") (js "edge") (Z.min 4 (len (js "........") - 6)) (len (js "........") - 6).
Proof.
  destruct (text_write_spec (js "........") (js "edge") (js "edge") (js "latin1") K_latin1 6 4) as [Hw _];
    [vm_compute; reflexivity|reflexivity|].
  apply Hw; [vm_compute; split; discriminate..|done|vm_compute; reflexivity].
Defined.

(** A length of 0 is taken for no length at all, so that [write] fills the
    buffer where nothing was to be written. *)
Example write_zero_length :
  write [0; 0; 0] (JString (js "abc")) (JNumber 0) (JNumber 0) JUndefined = Ok (js "abc", 3).
Proof. vm_compute. reflexivity. Qed.

(** UTF-16 text is cut in the middle of a unit. *)
Example write_partial_unit :
  write [0; 0; 0; 0] (JString (js "ab")) (JNumber 0) (JNumber 3) (JString (js "utf16le")) = Ok ([97; 0; 98; 0], 3).
Proof. vm_compute. reflexivity. Qed.

(** ** Searching for text *)

Section Search.
Context `{!WebText} `{!WebTextOk}.

(** [indexOf(string, byteOffset, encoding)] finds the first place at or after
    the offset at which the bytes of the string, in the given encoding, occur;
    a negative offset counts from the end. *)
Theorem indexOf_text (this bs : list Z) (s e : jsstr) (k : encoding_key) (n : Z) :
  getEncodingOps (JString e) = Some k -> text_bytes k s = Ok bs -> bs <> [] -> - 2 ^ 31 <= n < 2 ^ 31 ->
  exists r, indexOf this (SString s) (JNumber n) (JString e) = Ok (Some r)
    /\ includes this (SString s) (JNumber n) (JString e) = Ok (negb (r =? -1))
    /\ first_occurrence this bs (if n <? 0 then Z.max 0 (len this + n) else n) r.
Proof.
  intros Hk Hbs Hne Hn. exists (indexOfNeedle this bs n).
  assert (E : indexOf this (SString s) (JNumber n) (JString e) = Ok (Some (indexOfNeedle this bs n))).
  { unfold indexOf, bidirectionalIndexOf, offset_number.
    destruct (Z.ltb_spec 0x7fffffff n); [lia|]. destruct (Z.ltb_spec n (- 0x80000000)); [lia|]. rewrite Hk.
    assert (Ei : indexOfBuffer this bs n true = Some (indexOfNeedle this bs n)).
    { unfold indexOfBuffer. pose proof (len_pos bs Hne). cbn [negb]. by destruct (Z.eqb_spec (len bs) 0); [lia|]. }
    destruct k; cbn [encodingOps op_indexOf text_bytes] in *; rewrite ?Hbs; try injection Hbs as ->; cbn [rbind];
      by rewrite Ei. }
  split; [done|]. split; [|by apply indexOfNeedle_occurrence].
  unfold includes. rewrite E. cbn [rbind]. do 2 f_equal. destruct (Z.eqb_spec (indexOfNeedle this bs n) (-1)) as [->|Hr].
  - by rewrite bool_decide_eq_true_2.
  - rewrite bool_decide_eq_false_2; [done|]. by intros [= ?].
Qed.
End Search.

Lemma indexOf_text_witness :
  exists r, indexOf (js "edge-runtime") (SString (js "72756e")) (JNumber (-9)) (JString (js "hex")) = Ok (Some r)
    /\ includes (js "edge-runtime") (SString (js "72756e")) (JNumber (-9)) (JString (js "hex")) = Ok (negb (r =? -1))
    /\ first_occurrence (js "edge-runtime") (js "run") 3 r.
Proof.
  apply (indexOf_text (js "edge-runtime") (js "run") (js "72756e") (js "hex") K_hex (-9));
    [vm_compute; reflexivity|vm_compute; reflexivity|discriminate|lia].
Defined.

(** ** Filling with text *)

Section Fill.
Context `{!WebText} `{!WebTextOk}.

(** [fill(string, start, end, encoding)] repeats the bytes [Buffer.from]
    makes of the string; the special treatment of a single character is only
    a shortcut.  [alloc(size, string, encoding)] is that on a new buffer. *)
Theorem fill_text (this bs : list Z) (v e : jsstr) (k : encoding_key) (a b : Z) :
  units16 v -> 0 < len v <= kStringMaxLength -> getEncodingOps (JString e) = Some k ->
  text_bytes k v = Ok bs ->
  fill_string this v (JNumber a) (JNumber b) (JString e) = fill this (FBytes bs) (Some a) (Some b)
  /\ (len this <= kMaxLength ->
      alloc (JNumber (len this)) (Some (AString v)) (JString e)
      = fill (replicate (length this) 0) (FBytes bs) (Some 0) (Some (len this))).
Proof.
  intros Hu Hv Hk Hbs. destruct (isEncoding_key e k Hk) as [Hi _].
  assert (Hfrom : fromString v (JString e) = Ok bs) by (rewrite <- Hbs; apply fromString_bytes; [done|lia|done]).
  assert (Hfill : forall this a b, fill_string this v (JNumber a) (JNumber b) (JString e)
                                   = fill this (FBytes bs) (Some a) (Some b)).
  { clear this a b. intros this a b. unfold fill_string, fill. rewrite Hi, Hfrom. cbn [negb bound].
    destruct v as [|c [|d v]]; [by change (len (@nil Z)) with 0 in Hv; lia| |done].
    destruct ((str_eqb e (js "utf8") && (c <? 128)) || str_eqb e (js "latin1")) eqn:Es; [|done].
    assert (Ebs : exists x, bs = [x] /\ to_uint8 c = to_uint8 x).
    { inversion_clear Hu as [|? ? Hc _]. apply orb_true_iff in Es as [Es|Es].
      - apply andb_true_iff in Es as [->%bool_decide_eq_true Hlt]. rewrite utf8_key in Hk. injection Hk as <-.
        cbn [text_bytes] in Hbs. injection Hbs as <-. exists c. split; [|done]. apply encode_ascii.
        constructor; [cbv beta in Hc; lia|constructor].
      - apply bool_decide_eq_true in Es as ->.
        rewrite getEncodingOps_named, toLowerCase_ascii in Hk by (by apply ascii_name). injection Hk as <-.
        cbn in Hbs. injection Hbs as <-. eexists. split; [done|]. change 255 with (Z.ones 8).
        rewrite Z.land_ones by lia. unfold to_uint8. by rewrite Z.mod_mod. }
    destruct Ebs as (x & -> & Hx). by apply fill_range_single. }
  split; [apply Hfill|]. intros Hl. pose proof (len_nonneg this). unfold alloc, assertSize.
  destruct (Z.leb_spec 0 (len this)), (Z.leb_spec (len this) kMaxLength); try lia. cbn [andb rbind].
  unfold createBuffer. destruct (Z.ltb_spec kMaxLength (len this)); [lia|]. cbn [rbind].
  rewrite to_nat_len. rewrite <- Hfill. unfold fill_string.
  replace (len (replicate (length this) 0)) with (len this) by (unfold len; by rewrite length_replicate). done.
Qed.
End Fill.

Lemma fill_text_witness :
  fill_string [0; 0; 0; 0] (js "q2") (JNumber 1) (JNumber 4) (JString (js "latin1")) = Ok [0; 113; 50; 113]
  /\ alloc (JNumber 4) (Some (AString (js "q2"))) (JString (js "latin1")) = Ok [113; 50; 113; 50].
Proof.
  destruct (fill_text [0; 0; 0; 0] (js "q2") (js "q2") (js "latin1") K_latin1 1 4) as [E1 E2];
    [by apply js_units|vm_compute; split; [reflexivity|discriminate]|vm_compute; reflexivity..|].
  split; [exact E1|]. apply E2. vm_compute. discriminate.
Defined.
