(* ===== verification/StringDecoder.v ===== *)
(** * [string_decoder.ts]

    A decoder keeps the bytes of a character that is not complete yet.  Reading
    text and copying bytes are the buffer operations of [BufferText] and
    [Buffer]. *)

From S2P Require Import Prelude Bytes Codecs Buffer WebText WebModel BufferText.

Section StringDecoder.
Context `{!WebText}.

(** ** Names of encodings *)

(** [slowCases] of [_utils.ts], which does not know base64url. *)
Definition cast_slowCases (enc : jsstr) : option jsstr :=
  let same name := str_eqb enc (js name) in
  let lower name := str_eqb (toLowerCase enc) (js name) in
  match len enc with
  | 4 =>
      if same "UTF8" then Some (js "utf8")
      else if same "ucs2" || same "UCS2" then Some (js "utf16le")
      else if lower "utf8" then Some (js "utf8")
      else if lower "ucs2" then Some (js "utf16le")
      else None
  | 3 => if same "hex" || same "HEX" || lower "hex" then Some (js "hex") else None
  | 5 =>
      if same "ascii" then Some (js "ascii")
      else if same "ucs-2" then Some (js "utf16le")
      else if same "UTF-8" then Some (js "utf8")
      else if same "ASCII" then Some (js "ascii")
      else if same "UCS-2" then Some (js "utf16le")
      else if lower "utf-8" then Some (js "utf8")
      else if lower "ascii" then Some (js "ascii")
      else if lower "ucs-2" then Some (js "utf16le")
      else None
  | 6 =>
      if same "base64" then Some (js "base64")
      else if same "latin1" || same "binary" then Some (js "latin1")
      else if same "BASE64" then Some (js "base64")
      else if same "LATIN1" || same "BINARY" then Some (js "latin1")
      else if lower "base64" then Some (js "base64")
      else if lower "latin1" || lower "binary" then Some (js "latin1")
      else None
  | 7 => if same "utf16le" || same "UTF16LE" || lower "utf16le" then Some (js "utf16le") else None
  | 8 => if same "utf-16le" || same "UTF-16LE" || lower "utf-16le" then Some (js "utf16le") else None
  | _ => if same "" then Some (js "utf8") else None
  end.

(** [None] is [null]. *)
Definition castEncoding (enc : option jsstr) : option jsstr :=
  match enc with
  | None => Some (js "utf8")
  | Some enc =>
      if str_eqb enc (js "utf8") || str_eqb enc (js "utf-8") then Some (js "utf8") else cast_slowCases enc
  end.

(** [normalizeEncoding]; the text of a missing encoding is ["undefined"]. *)
Definition normalizeDecoderEncoding (enc : option jsstr) : result jsstr :=
  match castEncoding enc with
  | Some e => Ok e
  | None =>
      match enc with
      | Some e => if str_eqb (toLowerCase e) (js "raw") then Ok (js "undefined") else Throw ERR_UNKNOWN_ENCODING
      | None => Throw ERR_UNKNOWN_ENCODING
      end
  end.

(** ** The decoder *)

Inductive Encoding := Utf8 | Base64 | Utf16 | Ascii | Latin1 | Hex.

Record StringDecoder := SD {
  sd_encoding : jsstr;
  sd_enc : Encoding;
  lastChar : list Z;
  kBufferedBytes : Z;
  kMissingBytes : Z
}.

Definition new_decoder (encoding : option jsstr) : result StringDecoder :=
  let! normalizedEncoding := normalizeDecoderEncoding encoding in
  let is_name name := str_eqb normalizedEncoding (js name) in
  let '(enc, bufLen) :=
    if is_name "utf8" then (Utf8, 4)
    else if is_name "base64" then (Base64, 3)
    else if is_name "utf16le" then (Utf16, 4)
    else if is_name "hex" then (Hex, 0)
    else if is_name "latin1" then (Latin1, 0)
    else if is_name "ascii" then (Ascii, 0)
    else (Utf8, 0) in
  let! last := _allocUnsafe (JNumber bufLen) in
  Ok (SD normalizedEncoding enc last 0 0).

(** The argument of [write]: a string, a buffer, another view of an array
    buffer, or something else. *)
Inductive chunk :=
| CString (s : jsstr)
| CBuffer (bytes : list Z)
| CView (backing : list Z) (byteOffset byteLength_ : Z)
| COther (v : jsval).

(** Another view is replaced by all of its array buffer. *)
Definition normalizeBuffer (buf : chunk) : result (list Z) :=
  match buf with
  | CBuffer bytes => Ok bytes
  | CView backing _ _ => fromArrayBuffer backing None None
  | CString s => Throw (ERR_INVALID_ARG_TYPE "buf" ["Buffer"; "TypedArray"; "DataView"]%string (JString s))
  | COther v => Throw (ERR_INVALID_ARG_TYPE "buf" ["Buffer"; "TypedArray"; "DataView"]%string v)
  end.

Definition bufferToString (buf : list Z) (encoding : jsstr) (start end_ : Z) : result jsstr :=
  if kStringMaxLength <? end_ - start then Throw (Error "string exceeds maximum length")
  else toString buf (Some (JString encoding, Some start, Some end_)).

(** The loop over the bytes that should go on with a character: the index of
    the first one that does not; [n] iterations left. *)
Fixpoint not_continuation (buf : list Z) (n : nat) (i : Z) : option Z :=
  match n with
  | O => None
  | S n' =>
      if negb (bitand (byte_at buf i) 0xC0 =? 0x80) then Some i else not_continuation buf n' (i + 1)
  end.

(** Lines 118 to 137: a byte that does not go on with the character ends it. *)
Definition resync (enc : Encoding) (last buf : list Z) (buffered missing : Z) : result (list Z * Z * Z * Z) :=
  match enc with
  | Utf8 =>
      match not_continuation buf (Z.to_nat (Z.min (len buf) missing)) 0 with
      | Some i =>
          let! copied := copy buf last (Some buffered) (Some 0) (Some i) in
          Ok (fst copied, buffered + i, 0, i)
      | None => Ok (last, buffered, missing, 0)
      end
  | _ => Ok (last, buffered, missing, 0)
  end.

(** Lines 117 to 163: the bytes missing to the last character; with the new
    state, [bufIdx] and [prepend]. *)
Definition complete (d : StringDecoder) (buf : list Z) : result (StringDecoder * Z * jsstr) :=
  let '(SD encoding enc last buffered missing) := d in
  if 0 <? missing then
    let! early := resync enc last buf buffered missing in
    let '(last, buffered, missing, bufIdx) := early in
    let bytesToCopy := Z.min (len buf - bufIdx) missing in
    let! copied := copy buf last (Some buffered) (Some bufIdx) (Some (bufIdx + bytesToCopy)) in
    let last := fst copied in
    let bufIdx := bufIdx + bytesToCopy in
    let buffered := buffered + bytesToCopy in
    let missing := missing - bytesToCopy in
    if missing =? 0 then
      let! prepend := bufferToString last encoding 0 buffered in
      Ok (SD encoding enc last 0 missing, bufIdx, prepend)
    else Ok (SD encoding enc last buffered missing, bufIdx, [])
  else Ok (d, 0, []).

(** The loop from the end of the buffer back to the start of a character: the
    buffered and the missing bytes. *)
Fixpoint back_loop (buf : list Z) (i : nat) (buffered missing : Z) : Z * Z :=
  let buffered := buffered + 1 in
  let b := byte_at buf (Z.of_nat i) in
  let starts m := if m <=? buffered then (0, 0) else (buffered, m - buffered) in
  if bitand b 0xC0 =? 0x80 then
    if 4 <=? buffered then (0, missing)
    else match i with O => (0, missing) | S i' => back_loop buf i' buffered missing end
  else if bitand b 0xE0 =? 0xC0 then starts 2
  else if bitand b 0xF0 =? 0xE0 then starts 3
  else if bitand b 0xF8 =? 0xF0 then starts 4
  else (0, missing).

(** Lines 176 to 227: the bytes at the end that are kept for later. *)
Definition incomplete (enc : Encoding) (buf : list Z) (bufIdx buffered missing : Z) : Z * Z :=
  match enc with
  | Utf8 =>
      if negb (bitand (byte_at buf (len buf - 1)) 0x80 =? 0)
      then back_loop buf (Z.to_nat (len buf - 1)) buffered missing
      else (buffered, missing)
  | Utf16 =>
      if (len buf - bufIdx) mod 2 =? 1 then (1, 1)
      else if bitand (byte_at buf (len buf - 1)) 0xFC =? 0xD8 then (2, 2)
      else (buffered, missing)
  | Base64 =>
      let buffered := (len buf - bufIdx) mod 3 in
      (buffered, if 0 <? buffered then 3 - buffered else missing)
  | _ => (buffered, missing)
  end.

(** Lines 165 to 247. *)
Definition remainder (d : StringDecoder) (buf : list Z) (bufIdx : Z) (prepend : jsstr)
    : result (StringDecoder * jsstr) :=
  let '(SD encoding enc last buffered missing) := d in
  if len buf - bufIdx =? 0 then Ok (d, prepend)
  else
    let '(buffered, missing) := incomplete enc buf bufIdx buffered missing in
    let! kept :=
      if 0 <? buffered then
        let! copied := copy buf last (Some 0) (Some (len buf - buffered)) None in
        Ok (fst copied, len buf - buffered)
      else Ok (last, len buf) in
    let '(last, bufEnd) := kept in
    let! rest := bufferToString buf encoding bufIdx bufEnd in
    Ok (SD encoding enc last buffered missing, prepend ++ rest).

Definition decode_chunk (d : StringDecoder) (buf : list Z) : result (StringDecoder * jsstr) :=
  match sd_enc d with
  | Utf8 | Utf16 | Base64 =>
      let! completed := complete d buf in
      let '(d, bufIdx, prepend) := completed in
      remainder d buf bufIdx prepend
  | _ =>
      let! text := bufferToString buf (sd_encoding d) 0 (len buf) in
      Ok (d, text)
  end.

Definition flush (d : StringDecoder) : result (StringDecoder * jsstr) :=
  let '(SD encoding enc last buffered missing) := d in
  let '(buffered, missing) :=
    match enc with
    | Utf16 => if buffered mod 2 =? 1 then (buffered - 1, missing - 1) else (buffered, missing)
    | _ => (buffered, missing)
    end in
  if buffered =? 0 then Ok (SD encoding enc last buffered missing, [])
  else
    let! ret := bufferToString last encoding 0 buffered in
    Ok (SD encoding enc last 0 0, ret).

Definition sd_write (d : StringDecoder) (buf : chunk) : result (StringDecoder * jsstr) :=
  match buf with
  | CString s => Ok (d, s)
  | _ => let! normalizedBuf := normalizeBuffer buf in decode_chunk d normalizedBuf
  end.

Definition sd_end (d : StringDecoder) (buf : option chunk) : result (StringDecoder * jsstr) :=
  let! written :=
    match buf with
    | Some buf => sd_write d buf
    | None => Ok (d, [])
    end in
  let '(d, ret) := written in
  if 0 <? kBufferedBytes d then
    let! flushed := flush d in
    Ok (fst flushed, ret ++ snd flushed)
  else Ok (d, ret).

Definition sd_text (d : StringDecoder) (buf : list Z) (offset : Z) : result (StringDecoder * jsstr) :=
  sd_write (SD (sd_encoding d) (sd_enc d) (lastChar d) 0 0) (CBuffer (slice_from buf offset)).

Definition lastNeed (d : StringDecoder) : Z := kMissingBytes d.
Definition lastTotal (d : StringDecoder) : Z := kBufferedBytes d + kMissingBytes d.
End StringDecoder.

#[export] Instance Encoding_eq_dec : EqDecision Encoding.
Proof. solve_decision. Defined.

(** ** Chunks *)

Section Chunks.
Context `{!WebText} `{!WebTextOk}.

Definition name_of (enc : Encoding) : jsstr :=
  match enc with
  | Utf8 => js "utf8" | Base64 => js "base64" | Utf16 => js "utf16le"
  | Ascii => js "ascii" | Latin1 => js "latin1" | Hex => js "hex"
  end.

Definition key_of (enc : Encoding) : encoding_key :=
  match enc with
  | Utf8 => K_utf8 | Base64 => K_base64 | Utf16 => K_utf16le
  | Ascii => K_ascii | Latin1 => K_latin1 | Hex => K_hex
  end.

(** The size of [lastChar]. *)
Definition capacity (enc : Encoding) : nat :=
  match enc with Utf8 | Utf16 => 4 | Base64 => 3 | _ => 0 end%nat.

Lemma name_key enc : getEncodingOps (JString (name_of enc)) = Some (key_of enc).
Proof. rewrite getEncodingOps_named. by destruct enc; rewrite toLowerCase_ascii by (by apply ascii_name). Qed.

Lemma text_of_nil enc : text_of (key_of enc) [] = [].
Proof.
  destruct enc; try done; cbn [text_of key_of].
  - exact (decode_scalars [] ltac:(constructor) ltac:(constructor)).
  - pose proof (base64_encode_app [] [] eq_refl) as E. cbn [app] in E. apply (f_equal length) in E.
    rewrite length_app in E. by destruct (forgivingBase64Encode []); cbn in E; [|lia].
Qed.

(** The state holds the bytes [p] of a character and waits for [m] more. *)
Definition holds (enc : Encoding) (d : StringDecoder) (p : list Z) (m : Z) : Prop :=
  exists junk, d = SD (name_of enc) enc (p ++ junk) (len p) m
    /\ length (p ++ junk) = capacity enc /\ 0 <= m <= len junk.

Lemma bufferToString_text enc buf a b :
  len buf <= kStringMaxLength -> 0 <= a <= b -> b <= len buf ->
  bufferToString buf (name_of enc) a b = Ok (text_of (key_of enc) (slice buf a b)).
Proof.
  intros Hl Ha Hb. unfold bufferToString. destruct (Z.ltb_spec kStringMaxLength (b - a)); [lia|].
  rewrite toString_text by first [unfold kStringMaxLength, kMaxLength in *; lia|intros ? [=<-]; lia].
  cbn [from_option id]. rewrite name_key.
  replace (Z.max 0 (Z.min a (len buf))) with a by lia. replace (Z.min b (len buf)) with b by lia.
  destruct (Z.leb_spec b a); [|done]. replace b with a by lia.
  replace (slice buf a a) with (@nil Z) by (unfold slice; by rewrite Z.sub_diag, take_0). by rewrite text_of_nil.
Qed.

(** Bytes put behind [p] in [lastChar]. *)
Lemma set_bytes_behind p junk x :
  len x <= len junk -> exists junk', set_bytes (p ++ junk) x (len p) = (p ++ x) ++ junk'
    /\ length junk' = (length junk - length x)%nat.
Proof.
  intros Hx. destruct (split_len junk (len x)) as (old & junk' & -> & Hold); [pose proof (len_nonneg x); lia|].
  exists junk'. rewrite set_bytes_at by (unfold len in *; lia). rewrite app_assoc. split; [done|].
  rewrite length_app. unfold len in *. lia.
Qed.

Lemma copy_exact buf target ts ss se :
  0 <= ts < 2 ^ 32 -> 0 <= ss <= se -> se <= len buf -> len buf < 2 ^ 32 -> ts + (se - ss) <= len target ->
  copy buf target (Some ts) (Some ss) (Some se) = Ok (set_bytes target (slice buf ss se) ts, se - ss).
Proof.
  intros Hts Hss Hse Hl Ht. rewrite copy_range by lia. cbv zeta.
  replace (Z.max 0 (Z.min (Z.min se (len buf) - ss) (len target - ts))) with (se - ss) by lia.
  by replace (ss + (se - ss)) with se by lia.
Qed.

Lemma copy_tail buf target ss :
  0 <= ss <= len buf -> len buf < 2 ^ 32 -> len buf - ss <= len target ->
  copy buf target (Some 0) (Some ss) None = Ok (set_bytes target (slice buf ss (len buf)) 0, len buf - ss).
Proof.
  intros Hss Hl Ht. rewrite <- (copy_exact buf target 0 ss (len buf)) by lia. unfold copy.
  assert (E : toInteger (len buf) 0 = len buf).
  { unfold toInteger. by destruct (Z.leb_spec (- (2 ^ 53 - 1)) (len buf)), (Z.leb_spec (len buf) (2 ^ 53 - 1)); try lia. }
  rewrite E. unfold MAX_UINT32. destruct (Z.ltb_spec (len buf) 0); [lia|].
  by destruct (Z.leb_spec (2 ^ 32) (len buf)); [lia|].
Qed.

Lemma junk_length enc (p junk : list Z) : length (p ++ junk) = capacity enc -> len p + len junk <= 4.
Proof. rewrite length_app. unfold len. destruct enc; cbn; lia. Qed.

Lemma resync_none enc last buf buffered missing :
  (enc = Utf8 -> not_continuation buf (Z.to_nat (Z.min (len buf) missing)) 0 = None) ->
  resync enc last buf buffered missing = Ok (last, buffered, missing, 0).
Proof. intros Hc. destruct enc; try done. cbn [resync]. by rewrite Hc. Qed.

(** A chunk that is too short to complete the character is kept. *)
Lemma complete_short enc d p m buf :
  holds enc d p m -> len buf <= kStringMaxLength -> 0 < m -> len buf < m ->
  (enc = Utf8 -> not_continuation buf (length buf) 0 = None) ->
  exists d', complete d buf = Ok (d', len buf, []) /\ holds enc d' (p ++ buf) (m - len buf).
Proof.
  intros (junk & -> & Hcap & Hm) Hl Hpos Hs Hc. unfold complete. destruct (Z.ltb_spec 0 m); [|lia].
  pose proof (len_nonneg buf). pose proof (len_nonneg p). pose proof (junk_length enc p junk Hcap).
  unfold kStringMaxLength in Hl.
  rewrite resync_none by (intros E; rewrite Z.min_l, to_nat_len by lia; by apply Hc). cbn [rbind]. rewrite Z.sub_0_r, Z.min_l, Z.add_0_l by lia.
  rewrite copy_exact, slice_whole by (rewrite ?len_app; lia). cbn [rbind fst].
  destruct (set_bytes_behind p junk buf) as (junk' & -> & Hj); [lia|].
  destruct (Z.eqb_spec (m - len buf) 0); [lia|]. eexists. split; [done|]. exists junk'.
  rewrite len_app. split; [done|]. rewrite !length_app in *. unfold len in *. split; lia.
Qed.

(** A chunk that is long enough completes it. *)
Lemma complete_full enc d p m buf :
  holds enc d p m -> len buf <= kStringMaxLength -> 0 < m -> m <= len buf ->
  (enc = Utf8 -> not_continuation buf (Z.to_nat m) 0 = None) ->
  exists d', complete d buf = Ok (d', m, text_of (key_of enc) (p ++ take (Z.to_nat m) buf)) /\ holds enc d' [] 0.
Proof.
  intros (junk & -> & Hcap & Hm) Hl Hpos Hs Hc. unfold complete. destruct (Z.ltb_spec 0 m); [|lia].
  pose proof (len_nonneg buf). pose proof (len_nonneg p). pose proof (junk_length enc p junk Hcap).
  unfold kStringMaxLength in Hl.
  rewrite resync_none by (intros E; rewrite Z.min_r by lia; by apply Hc). cbn [rbind]. rewrite Z.sub_0_r, Z.min_r, Z.add_0_l by lia.
  rewrite copy_exact, slice_take by (rewrite ?len_app; lia). cbn [rbind fst].
  set (x := take (Z.to_nat m) buf). assert (Hx : len x = m) by (unfold x, len in *; rewrite length_take; lia).
  destruct (set_bytes_behind p junk x) as (junk' & -> & Hj); [lia|].
  rewrite Z.sub_diag. cbn [Z.eqb]. rewrite <- Hx, <- len_app.
  assert (Hcap' : length ((p ++ x) ++ junk') = capacity enc).
  { rewrite !length_app in *. unfold len in *. lia. }
  pose proof (junk_length enc (p ++ x) junk' Hcap').
  rewrite bufferToString_text by (unfold kStringMaxLength; rewrite ?len_app in *; pose proof (len_nonneg junk'); pose proof (len_nonneg x); lia).
  cbn [rbind]. rewrite slice_prefix. eexists. split; [done|]. exists ((p ++ x) ++ junk'). cbn [app]. split; [done|].
  split; [done|]. pose proof (len_nonneg ((p ++ x) ++ junk')). lia.
Qed.

(** What is left of a chunk: its end is kept, the rest is text. *)
Lemma remainder_spec enc d buf i pre b m :
  holds enc d [] 0 -> len buf <= kStringMaxLength -> 0 <= i < len buf ->
  incomplete enc buf i 0 0 = (b, m) -> 0 <= b <= len buf - i -> 0 <= m -> b + m <= Z.of_nat (capacity enc) ->
  exists d', remainder d buf i pre = Ok (d', pre ++ text_of (key_of enc) (slice buf i (len buf - b)))
    /\ holds enc d' (slice buf (len buf - b) (len buf)) m.
Proof.
  intros (junk & -> & Hcap & _) Hl Hi Hinc Hb Hm Hbm. unfold remainder. cbn [app] in *.
  change (len (@nil Z)) with 0. destruct (Z.eqb_spec (len buf - i) 0); [lia|]. rewrite Hinc.
  unfold kStringMaxLength in Hl.
  destruct (Z.ltb_spec 0 b).
  - rewrite copy_tail by (unfold len in *; lia). cbn [rbind fst].
    rewrite bufferToString_text by (unfold kStringMaxLength; lia). cbn [rbind].
    destruct (set_bytes_behind [] junk (slice buf (len buf - b) (len buf))) as (junk' & E & Hj);
      [rewrite slice_length by lia; unfold len in *; lia|].
    cbn [app] in E. change (len (@nil Z)) with 0 in E. rewrite E.
    eexists. split; [done|]. exists junk'. pose proof (slice_length buf (len buf - b) (len buf) ltac:(lia) ltac:(lia)) as Hsl.
    split; [f_equal; lia|]. unfold len in Hsl, Hb. rewrite length_app. unfold len in *. split; lia.
  - assert (b = 0) as -> by lia. rewrite Z.sub_0_r. cbn [rbind].
    rewrite bufferToString_text by (unfold kStringMaxLength; lia). cbn [rbind].
    eexists. split; [done|]. exists junk.
    replace (slice buf (len buf) (len buf)) with (@nil Z) by (unfold slice; by rewrite Z.sub_diag, take_0).
    split; [done|]. split; [done|]. unfold len. lia.
Qed.

Lemma remainder_end d buf pre : remainder d buf (len buf) pre = Ok (d, pre).
Proof. destruct d. cbn [remainder]. by rewrite Z.sub_diag. Qed.

(** ** Encodings in blocks: base64 and UTF-16 *)

(** The size of the blocks whose texts can be put together. *)
Definition block (enc : Encoding) : Z := match enc with Base64 => 3 | Utf16 => 2 | _ => 1 end.

Lemma bytesToUtf16le_cons a b r : bytesToUtf16le (a :: b :: r) = a + b * 2 ^ 8 :: bytesToUtf16le r.
Proof.
  unfold bytesToUtf16le. rewrite !len_cons. pose proof (len_nonneg r).
  replace ((1 + (1 + len r)) / 2) with (len r / 2 + 1) by div_lia.
  rewrite seqZ_cons by div_lia. cbn [fmap list_fmap]. f_equal.
  replace (Z.pred (len r / 2 + 1)) with (len r / 2) by lia.
  replace (seqZ (Z.succ 0) (len r / 2)) with (Z.add 1 <$> seqZ 0 (len r / 2)) by (by rewrite fmap_add_seqZ).
  rewrite <- list_fmap_compose. apply list_fmap_ext. intros j i Hi. cbn.
  apply list_elem_of_lookup_2, elem_of_seqZ in Hi. unfold byte_at, at_index.
  destruct (Z.ltb_spec (2 * i) 0); [lia|]. destruct (Z.ltb_spec (2 * i + 1) 0); [lia|].
  destruct (Z.ltb_spec (2 * (1 + i)) 0); [lia|]. destruct (Z.ltb_spec (2 * (1 + i) + 1) 0); [lia|].
  replace (Z.to_nat (2 * (1 + i))) with (S (S (Z.to_nat (2 * i)))) by lia.
  replace (Z.to_nat (2 * (1 + i) + 1)) with (S (S (Z.to_nat (2 * i + 1)))) by lia. done.
Qed.

Lemma text_of_app enc a b :
  enc <> Utf8 -> len a mod block enc = 0 ->
  text_of (key_of enc) (a ++ b) = text_of (key_of enc) a ++ text_of (key_of enc) b.
Proof.
  intros Hne Hm. destruct enc; try done; cbn [text_of key_of block] in *.
  - by apply base64_encode_app.
  - induction a as [|x|x y r IH _] using jsstr_ind2; [done|done|].
    cbn [app]. rewrite !bytesToUtf16le_cons, IH; [done|]. rewrite !len_cons in Hm. div_lia.
  - apply fmap_app.
  - by rewrite !mbind_concat, fmap_app, concat_app.
Qed.

(** The states between two chunks. *)
Definition waiting (enc : Encoding) (p : list Z) (m : Z) : Prop :=
  match enc with
  | Base64 => (len p = 0 /\ m = 0) \/ (1 <= len p <= 2 /\ m = 3 - len p)
  | Utf16 => (len p = 0 /\ m = 0) \/ (len p = 1 /\ m = 1) \/ (len p = 2 /\ m = 2) \/ (len p = 3 /\ m = 1)
  | _ => p = [] /\ m = 0
  end.

Definition blocks (enc : Encoding) : Prop := enc = Base64 \/ enc = Utf16.

Lemma incomplete_block enc buf i :
  blocks enc -> 0 <= i < len buf ->
  exists b m, incomplete enc buf i 0 0 = (b, m) /\ 0 <= b <= len buf - i /\ 0 <= m
    /\ b + m <= Z.of_nat (capacity enc) /\ (len buf - b - i) mod block enc = 0
    /\ forall p, len p = b -> waiting enc p m.
Proof.
  intros [-> | ->] Hi; cbn [incomplete waiting capacity block].
  - do 2 eexists. split; [done|]. destruct (Z.ltb_spec 0 ((len buf - i) mod 3)); repeat split; try div_lia;
      intros p ->; div_lia.
  - destruct (Z.eqb_spec ((len buf - i) mod 2) 1) as [E|E].
    + exists 1, 1. repeat split; try div_lia; intros p ->; div_lia.
    + destruct (bitand _ _ =? _).
      * exists 2, 2. repeat split; try div_lia; intros p ->; div_lia.
      * exists 0, 0. repeat split; try div_lia; intros p ->; div_lia.
Qed.

Lemma waiting_nil enc : waiting enc [] 0.
Proof. destruct enc; cbn; tauto. Qed.

Lemma remainder_block enc d buf i pre :
  blocks enc -> holds enc d [] 0 -> len buf <= kStringMaxLength -> 0 <= i <= len buf ->
  exists d' p' m' y, remainder d buf i pre = Ok (d', pre ++ text_of (key_of enc) y)
    /\ slice_from buf i = y ++ p' /\ len y mod block enc = 0 /\ holds enc d' p' m' /\ waiting enc p' m'.
Proof.
  intros Hb Hd Hl Hi. destruct (decide (i = len buf)) as [->|Hne].
  - exists d, [], 0, []. rewrite remainder_end, text_of_nil, app_nil_r, slice_from_end.
    split; [done|]. split; [done|]. split; [by destruct Hb as [-> | ->]|]. split; [done|apply waiting_nil].
  - destruct (incomplete_block enc buf i Hb ltac:(lia)) as (b & m & Hinc & Hbr & Hm & Hcap & Hmod & Hw).
    destruct (remainder_spec enc d buf i pre b m) as (d' & E & Hd'); try done; [lia|].
    exists d', (slice_from buf (len buf - b)), m, (slice buf i (len buf - b)). split; [done|].
    split; [by rewrite slice_split by lia|]. split; [by rewrite slice_length by lia|].
    split; [done|]. apply Hw. unfold slice_from. rewrite slice_length by lia. lia.
Qed.

Lemma holds_enc enc d p m : holds enc d p m -> sd_enc d = enc.
Proof. by intros (junk & -> & _). Qed.

Lemma complete_none enc d buf : holds enc d [] 0 -> complete d buf = Ok (d, 0, []).
Proof. by intros (junk & -> & _). Qed.

Lemma waiting_block enc p m : blocks enc -> waiting enc p m -> 0 < m -> (len p + m) mod block enc = 0.
Proof. intros [-> | ->] Hw Hm; cbn in *; div_lia. Qed.

Lemma waiting_more enc p m buf :
  blocks enc -> waiting enc p m -> len buf < m -> waiting enc (p ++ buf) (m - len buf).
Proof. intros [-> | ->] Hw Hm; cbn in *; rewrite len_app; pose proof (len_nonneg buf); pose proof (len_nonneg p); lia. Qed.

(** One chunk: whole blocks become text, the rest is kept. *)
Lemma decode_block enc d p m buf :
  blocks enc -> holds enc d p m -> waiting enc p m -> len buf <= kStringMaxLength ->
  exists d' p' m' x, decode_chunk d buf = Ok (d', text_of (key_of enc) x)
    /\ p ++ buf = x ++ p' /\ len x mod block enc = 0 /\ holds enc d' p' m' /\ waiting enc p' m'.
Proof.
  intros Hb Hd Hw Hl. pose proof (len_nonneg buf).
  assert (Hne : enc <> Utf8) by (by destruct Hb as [-> | ->]).
  assert (Edec : decode_chunk d buf = let! completed := complete d buf in
      let '(d, bufIdx, prepend) := completed in remainder d buf bufIdx prepend).
  { unfold decode_chunk. rewrite (holds_enc enc d p m Hd). by destruct Hb as [-> | ->]. }
  rewrite Edec. clear Edec. destruct (decide (0 < m)) as [Hpos|Hz].
  - destruct (decide (len buf < m)) as [Hs|Hs].
    + destruct (complete_short enc d p m buf) as (d' & -> & Hd'); try done. cbn [rbind].
      rewrite remainder_end. exists d', (p ++ buf), (m - len buf), []. rewrite text_of_nil.
      split; [done|]. split; [done|]. split; [by destruct Hb as [-> | ->]|]. split; [done|by apply waiting_more].
    + destruct (complete_full enc d p m buf) as (d' & -> & Hd'); try done; [lia|]. cbn [rbind].
      destruct (remainder_block enc d' buf m (text_of (key_of enc) (p ++ take (Z.to_nat m) buf)))
        as (d'' & p' & m' & y & -> & Ey & Hy & Hd'' & Hw'); try done; [lia|].
      assert (Hlen : len (p ++ take (Z.to_nat m) buf) = len p + m).
      { rewrite len_app. f_equal. unfold len in *. rewrite length_take. lia. }
      assert (Hm : len (p ++ take (Z.to_nat m) buf) mod block enc = 0) by (rewrite Hlen; by apply waiting_block).
      exists d'', p', m', ((p ++ take (Z.to_nat m) buf) ++ y).
      rewrite (text_of_app enc (p ++ take (Z.to_nat m) buf) y) by done. split; [done|]. split; [|split; [|done]].
      * rewrite <- !app_assoc, <- Ey. by rewrite take_slice_from by lia.
      * rewrite len_app. by rewrite <- Zplus_mod_idemp_l, Hm.
  - assert (p = [] /\ m = 0) as [-> ->].
    { destruct Hb as [-> | ->]; cbn in Hw; split; try lia; apply len_0_nil; lia. }
    rewrite (complete_none enc) by done. cbn [rbind].
    destruct (remainder_block enc d buf 0 []) as (d' & p' & m' & y & -> & Ey & Hy & Hd' & Hw'); try done.
    exists d', p', m', y. split; [done|]. split; [|done]. cbn [app]. rewrite <- Ey. unfold slice_from. by rewrite slice_whole.
Qed.

Lemma decode_step enc d p m buf :
  enc <> Utf8 -> holds enc d p m -> waiting enc p m -> len buf <= kStringMaxLength ->
  exists d' p' m' x, decode_chunk d buf = Ok (d', text_of (key_of enc) x)
    /\ p ++ buf = x ++ p' /\ len x mod block enc = 0 /\ holds enc d' p' m' /\ waiting enc p' m'.
Proof.
  intros Hne Hd Hw Hl. destruct (decide (enc = Base64 \/ enc = Utf16)) as [Hb|Hb]; [by apply (decode_block enc d p m)|].
  assert (waiting enc p m -> p = [] /\ m = 0) as Hp by (destruct enc; cbn; tauto). destruct (Hp Hw) as [-> ->].
  exists d, [], 0, buf. destruct Hd as (junk & -> & Hd). rewrite app_nil_r. split; [|split; [done|]].
  - assert (E : bufferToString buf (name_of enc) 0 (len buf) = Ok (text_of (key_of enc) buf)).
    { pose proof (len_nonneg buf). rewrite bufferToString_text, slice_whole by lia. done. }
    unfold decode_chunk. cbn [sd_enc sd_encoding]. destruct enc; try tauto; by rewrite E.
  - split; [destruct enc; cbn [block]; by rewrite ?Z.mod_1_r; tauto|]. split; [by exists junk|done].
Qed.

(** ** A sequence of chunks *)

Fixpoint write_all (d : StringDecoder) (chunks : list (list Z)) : result (StringDecoder * jsstr) :=
  match chunks with
  | [] => Ok (d, [])
  | c :: rest =>
      let! r := sd_write d (CBuffer c) in
      let! r' := write_all (fst r) rest in
      Ok (fst r', snd r ++ snd r')
  end.

Definition decode_all (encoding : option jsstr) (chunks : list (list Z)) : result jsstr :=
  let! d := new_decoder encoding in
  let! r := write_all d chunks in
  let! e := sd_end (fst r) None in
  Ok (snd r ++ snd e).

Lemma write_all_block enc d p m chunks :
  enc <> Utf8 -> holds enc d p m -> waiting enc p m -> Forall (fun c => len c <= kStringMaxLength) chunks ->
  exists d' p' m' x, write_all d chunks = Ok (d', text_of (key_of enc) x)
    /\ p ++ List.concat chunks = x ++ p' /\ len x mod block enc = 0 /\ holds enc d' p' m' /\ waiting enc p' m'.
Proof.
  intros Hne Hd Hw Hc. revert d p m Hd Hw. induction Hc as [|c chunks Hl Hc IH]; intros d p m Hd Hw.
  - exists d, p, m, []. cbn [write_all List.concat]. rewrite text_of_nil, app_nil_r.
    split; [done|]. split; [done|]. split; [by destruct enc|done].
  - destruct (decode_step enc d p m c Hne Hd Hw Hl) as (d1 & p1 & m1 & x1 & E1 & Ex1 & Hx1 & Hd1 & Hw1).
    destruct (IH d1 p1 m1 Hd1 Hw1) as (d2 & p2 & m2 & x2 & E2 & Ex2 & Hx2 & Hd2 & Hw2).
    exists d2, p2, m2, (x1 ++ x2). cbn [write_all sd_write normalizeBuffer rbind]. rewrite E1. cbn [rbind fst snd].
    rewrite E2. cbn [rbind fst snd]. rewrite (text_of_app enc x1 x2) by done. split; [done|].
    split; [cbn [List.concat]; by rewrite app_assoc, Ex1, <- !app_assoc, Ex2|].
    split; [|done]. rewrite len_app, <- Zplus_mod_idemp_l, Hx1. done.
Qed.

Lemma flush_text enc p junk m :
  enc <> Utf8 -> waiting enc p m -> length (p ++ junk) = capacity enc ->
  exists d', sd_end (SD (name_of enc) enc (p ++ junk) (len p) m) None = Ok (d', text_of (key_of enc) p).
Proof.
  intros Hne Hw Hcap. pose proof (junk_length enc p junk Hcap). pose proof (len_nonneg p). pose proof (len_nonneg junk).
  unfold sd_end. cbn [rbind kBufferedBytes]. destruct (Z.ltb_spec 0 (len p)).
  2:{ rewrite (len_0_nil p) by lia. rewrite text_of_nil. by eexists. }
  assert (Ht : forall n, 0 <= n <= len p ->
    bufferToString (p ++ junk) (name_of enc) 0 n = Ok (text_of (key_of enc) (slice (p ++ junk) 0 n))).
  { intros n Hn. apply bufferToString_text; rewrite ?len_app; unfold kStringMaxLength; lia. }
  assert (Hwhole : exists d' : StringDecoder, (let! ret := bufferToString (p ++ junk) (name_of enc) 0 (len p) in
      Ok (SD (name_of enc) enc (p ++ junk) 0 0, ret)) = Ok (d', text_of (key_of enc) p)).
  { rewrite Ht, slice_prefix by lia. by eexists. }
  destruct Hwhole as [d' Hwhole].
  destruct enc; try done; try (cbn in Hw; by rewrite (proj1 Hw) in *).
  - unfold flush. destruct (Z.eqb_spec (len p) 0); [lia|]. rewrite Hwhole. by eexists.
  - unfold flush. cbn in Hw. destruct (Z.eqb_spec (len p mod 2) 1) as [Eo|Eo].
    + destruct (Z.eqb_spec (len p - 1) 0) as [E1|E1]; cbn [rbind fst snd].
      * destruct p as [|a [|b p]]; [done| |rewrite !len_cons in E1; pose proof (len_nonneg p); lia]. by eexists.
      * destruct p as [|a [|b [|c [|e p]]]]; try done; [|rewrite !len_cons in *; pose proof (len_nonneg p); lia].
        change (len [a; b; c] - 1) with 2. rewrite Ht, slice_take by lia. eexists. cbn [rbind fst snd app]. f_equal.
    + destruct (Z.eqb_spec (len p) 0); [lia|]. rewrite Hwhole. by eexists.
Qed.

Lemma new_decoder_holds encoding enc :
  castEncoding encoding = Some (name_of enc) ->
  exists d, new_decoder encoding = Ok d /\ holds enc d [] 0.
Proof.
  intros Hc. unfold new_decoder, normalizeDecoderEncoding. rewrite Hc. cbn [rbind].
  destruct enc; eexists; (split; [reflexivity|]);
    eexists; (split; [reflexivity|]); (split; [reflexivity|]); vm_compute; split; discriminate.
Qed.

(** a [StringDecoder] for base64, UTF-16, hexadecimal, ASCII or latin1 gives
    the text of all bytes written to it, however they are cut into chunks:
    the texts [write] returns and that of [end], put together, are the text
    [toString] gives for the chunks put together. *)
Theorem decoder_chunks (encoding : option jsstr) (enc : Encoding) (chunks : list (list Z)) :
  castEncoding encoding = Some (name_of enc) -> enc <> Utf8 ->
  Forall (fun c => len c <= kStringMaxLength) chunks ->
  decode_all encoding chunks = Ok (text_of (key_of enc) (List.concat chunks)).
Proof.
  intros Hc Hne Hl. destruct (new_decoder_holds encoding enc Hc) as (d & Hnew & Hd).
  unfold decode_all. rewrite Hnew. cbn [rbind].
  destruct (write_all_block enc d [] 0 chunks Hne Hd (waiting_nil enc) Hl) as (d' & p & m & x & -> & Ex & Hx & Hd' & Hw).
  cbn [rbind fst snd]. destruct Hd' as (junk & -> & Hcap & _).
  destruct (flush_text enc p junk m Hne Hw Hcap) as (d'' & ->). cbn [rbind fst snd app] in *.
  by rewrite Ex, text_of_app.
Qed.

(** ** UTF-8 *)

Definition is_continuation (b : Z) : bool := bitand b 0xC0 =? 0x80.

(** The length of the character a byte starts. *)
Definition lead_length (b : Z) : option Z :=
  if bitand b 0xE0 =? 0xC0 then Some 2
  else if bitand b 0xF0 =? 0xE0 then Some 3
  else if bitand b 0xF8 =? 0xF0 then Some 4
  else None.

Lemma byte_class b :
  is_byte b ->
  is_continuation b = (0x80 <=? b) && (b <? 0xC0)
  /\ lead_length b = (if b <? 0xC0 then None else if b <? 0xE0 then Some 2 else if b <? 0xF0 then Some 3
                      else if b <? 0xF8 then Some 4 else None)
  /\ (bitand b 0x80 =? 0) = (b <? 0x80).
Proof.
  intros Hb.
  assert (Hall : forallb (fun b =>
      Bool.eqb (is_continuation b) ((0x80 <=? b) && (b <? 0xC0))
      && bool_decide (lead_length b = (if b <? 0xC0 then None else if b <? 0xE0 then Some 2
            else if b <? 0xF0 then Some 3 else if b <? 0xF8 then Some 4 else None))
      && Bool.eqb (bitand b 0x80 =? 0) (b <? 0x80)) (seqZ 0 256) = true) by (vm_compute; reflexivity).
  rewrite forallb_forall in Hall. specialize (Hall b). rewrite <- list_elem_of_In, elem_of_seqZ in Hall.
  specialize (Hall ltac:(unfold is_byte in Hb; lia)). apply andb_true_iff in Hall as [Hall H3].
  apply andb_true_iff in Hall as [H1 H2%bool_decide_eq_true]. apply eqb_prop in H1, H3. done.
Qed.

(** A character is one ASCII byte, or a first byte that tells the length and
    one to three that continue it. *)
Lemma utf8_shape c :
  scalar c ->
  (c < 0x80 /\ utf8 c = [c])
  \/ (exists l ks, utf8 c = l :: ks /\ lead_length l = Some (len (utf8 c)) /\ is_continuation l = false
        /\ 0x80 <= l < 256 /\ Forall (fun b => is_continuation b = true /\ 0x80 <= b < 256) ks /\ 1 <= len ks <= 3).
Proof.
  intros Hc. pose proof (utf8_ok c Hc) as Hok.
  assert (Hcls : forall b, is_byte b -> 0x80 <= b < 0xC0 -> is_continuation b = true /\ 0x80 <= b < 256).
  { intros b Hb Hr. destruct (byte_class b Hb) as (-> & _). split; lia. }
  unfold scalar in Hc. unfold utf8 in *. destruct (Z.ltb_spec c 0x80); [by left|right].
  assert (Hlead : forall l n, is_byte l ->
     (n = 2 /\ 0xC0 <= l < 0xE0 \/ n = 3 /\ 0xE0 <= l < 0xF0 \/ n = 4 /\ 0xF0 <= l < 0xF8) ->
     lead_length l = Some n /\ is_continuation l = false /\ 0x80 <= l < 256).
  { intros l n Hb Hr. destruct (byte_class l Hb) as (-> & -> & _). unfold is_byte in Hb.
    destruct (Z.ltb_spec l 0xC0); [lia|]. rewrite andb_false_r.
    destruct (Z.ltb_spec l 0xE0), (Z.ltb_spec l 0xF0), (Z.ltb_spec l 0xF8); try lia;
      (split; [f_equal; lia|]); (split; [done|lia]). }
  destruct (Z.ltb_spec c 0x800); [|destruct (Z.ltb_spec c 0x10000)]; apply Forall_cons in Hok as [Hl Hks];
    repeat match goal with H : Forall is_byte (_ :: _) |- _ => apply Forall_cons in H; destruct H end.
  - destruct (Hlead _ 2 Hl) as (E1 & E2 & E3); [div_lia|].
    do 2 eexists. split; [reflexivity|]. do 3 (split; [done|]). split; [|unfold len; cbn; lia].
    repeat constructor; apply Hcls; done || div_lia.
  - destruct (Hlead _ 3 Hl) as (E1 & E2 & E3); [div_lia|].
    do 2 eexists. split; [reflexivity|]. do 3 (split; [done|]). split; [|unfold len; cbn; lia].
    repeat constructor; apply Hcls; done || div_lia.
  - destruct (Hlead _ 4 Hl) as (E1 & E2 & E3); [div_lia|].
    do 2 eexists. split; [reflexivity|]. do 3 (split; [done|]). split; [|unfold len; cbn; lia].
    repeat constructor; apply Hcls; done || div_lia.
Qed.

Lemma byte_at_app (x : list Z) b t : byte_at (x ++ b :: t) (Z.of_nat (length x)) = b.
Proof. unfold byte_at. fold (len x). by rewrite at_index_mid. Qed.

(** The backward loop finds the first byte of the last character. *)
Lemma back_loop_char x l ks t j mm n :
  lead_length l = Some n -> is_continuation l = false ->
  Forall (fun b => is_continuation b = true) ks -> 0 <= j -> j + len ks <= 3 ->
  back_loop (x ++ (l :: ks) ++ t) (length x + length ks) j mm
  = (let k := j + len ks + 1 in if n <=? k then (0, 0) else (k, n - k)).
Proof.
  intros Hlead Hc Hks. revert t j. induction ks as [|b ks IH] using rev_ind; intros t j Hj Hs.
  - change (len (@nil Z)) with 0. cbn [length app]. rewrite Nat.add_0_r, Z.add_0_r.
    unfold is_continuation in Hc. unfold lead_length in Hlead.
    pose proof (byte_at_app x l t) as Hb. revert Hb. generalize (length x) as i. intros i Hb.
    destruct i; cbn [back_loop]; rewrite Hb, Hc;
      (destruct (bitand l 0xE0 =? 0xC0); [by injection Hlead as <-|]);
      (destruct (bitand l 0xF0 =? 0xE0); [by injection Hlead as <-|]);
      (destruct (bitand l 0xF8 =? 0xF0); [by injection Hlead as <-|done]).
  - apply Forall_app in Hks as [Hks Hb]. apply Forall_cons in Hb as [Hb _]. unfold is_continuation in Hb.
    rewrite len_app in *. change (len [b]) with 1 in *. pose proof (len_nonneg ks).
    rewrite length_app. cbn [length]. rewrite Nat.add_1_r, <- plus_n_Sm. cbn [back_loop].
    replace (Z.of_nat (S (length x + length ks))) with (Z.of_nat (length (x ++ l :: ks)))
      by (rewrite length_app; cbn; lia).
    replace (x ++ (l :: ks ++ [b]) ++ t) with ((x ++ l :: ks) ++ b :: t) by (by rewrite <- !app_assoc; cbn; rewrite <- app_assoc).
    rewrite byte_at_app, Hb. destruct (Z.leb_spec 4 (j + 1)); [lia|].
    rewrite <- app_assoc. rewrite (IH Hks (b :: t) (j + 1)) by lia.
    cbv zeta. by replace (j + 1 + len ks + 1) with (j + (len ks + 1) + 1) by lia.
Qed.

Lemma not_continuation_none buf n i :
  0 <= i -> (Z.to_nat i + n <= length buf)%nat ->
  Forall (fun b => is_continuation b = true) (take n (drop (Z.to_nat i) buf)) -> not_continuation buf n i = None.
Proof.
  revert i. induction n as [|n IH]; intros i Hi Hl Hf; [done|]. cbn [not_continuation].
  destruct (lookup_lt_is_Some_2 buf (Z.to_nat i)) as [b Hb]; [lia|].
  rewrite (drop_S buf b (Z.to_nat i) Hb) in Hf. rewrite firstn_cons in Hf. apply Forall_cons in Hf as [Hc Hf].
  unfold byte_at, at_index. destruct (Z.ltb_spec i 0); [lia|]. rewrite Hb. cbn [from_option id].
  unfold is_continuation in Hc. rewrite Hc. cbn [negb]. apply IH; [lia|lia|].
  by replace (Z.to_nat (i + 1)) with (S (Z.to_nat i)) by lia.
Qed.

(** The state of the decoder before the characters [cs]. *)
Definition awaits (cs : list Z) (p : list Z) (m : Z) : Prop :=
  (p = [] /\ m = 0) \/ (exists c cs' q, cs = c :: cs' /\ utf8 c = p ++ q /\ p <> [] /\ q <> [] /\ m = len q).

(** Where a sequence of characters is cut. *)
Lemma cut_characters cs u v :
  u ++ v = mbind (M := list) utf8 cs ->
  exists cs1 cs2 p m, cs = cs1 ++ cs2 /\ u = mbind (M := list) utf8 cs1 ++ p /\ awaits cs2 p m.
Proof.
  revert u. induction cs as [|c cs IH]; intros u E.
  - apply app_eq_nil in E as [-> ->]. exists [], [], [], 0. do 2 (split; [done|]). by left.
  - rewrite bind_cons in E. destruct (decide (u = [])) as [->|Hu].
    { exists [], (c :: cs), [], 0. do 2 (split; [done|]). by left. }
    destruct (app_eq_inv _ _ _ _ E) as [(k & E1 & E2)|(k & E1 & E2)].
    + destruct (IH k (eq_sym E2)) as (cs1 & cs2 & p & m & -> & -> & Hw).
      exists (c :: cs1), cs2, p, m. split; [done|]. split; [|done]. by rewrite bind_cons, E1, app_assoc.
    + destruct (decide (k = [])) as [->|Hk].
      * rewrite app_nil_r in E1. exists [c], cs, [], 0. split; [done|].
        split; [by rewrite bind_cons, !app_nil_r|by left].
      * exists [], (c :: cs), u, (len k). split; [done|]. split; [done|]. right. by exists c, cs, k.
Qed.

Lemma incomplete_ascii x c i : 0 <= c < 0x80 -> incomplete Utf8 (x ++ [c]) i 0 0 = (0, 0).
Proof.
  intros Hc. cbn [incomplete]. rewrite len_app. change (len [c]) with 1.
  replace (len x + 1 - 1) with (Z.of_nat (length x)) by (unfold len; lia). rewrite byte_at_app.
  destruct (byte_class c) as (_ & _ & ->); [unfold is_byte; lia|]. by destruct (Z.ltb_spec c 0x80); [|lia].
Qed.

Lemma incomplete_multi x l ks n i :
  lead_length l = Some n -> is_continuation l = false -> 0x80 <= l < 256 ->
  Forall (fun b => is_continuation b = true /\ 0x80 <= b < 256) ks -> len ks <= 3 ->
  incomplete Utf8 (x ++ l :: ks) i 0 0
  = (if n <=? len ks + 1 then (0, 0) else (len ks + 1, n - (len ks + 1))).
Proof.
  intros Hlead Hc Hl Hks Hs. cbn [incomplete]. rewrite len_app, len_cons.
  assert (Hlast : 0x80 <= byte_at (x ++ l :: ks) (len x + (1 + len ks) - 1) < 256).
  { destruct ks as [|b ks _] using rev_ind.
    - change (len (@nil Z)) with 0. replace (len x + (1 + 0) - 1) with (Z.of_nat (length x)) by (unfold len; lia).
      by rewrite byte_at_app.
    - apply Forall_app in Hks as [_ Hb]. apply Forall_cons in Hb as [[_ Hb] _].
      rewrite len_app. change (len [b]) with 1.
      replace (x ++ l :: ks ++ [b]) with ((x ++ l :: ks) ++ [b]) by (by rewrite <- app_assoc).
      replace (len x + (1 + (len ks + 1)) - 1) with (Z.of_nat (length (x ++ l :: ks)))
        by (rewrite length_app; cbn; unfold len; lia).
      by rewrite byte_at_app. }
  destruct (byte_class (byte_at (x ++ l :: ks) (len x + (1 + len ks) - 1))) as (_ & _ & ->); [unfold is_byte; lia|].
  destruct (Z.ltb_spec (byte_at (x ++ l :: ks) (len x + (1 + len ks) - 1)) 0x80); [lia|]. cbn [negb].
  replace (Z.to_nat (len x + (1 + len ks) - 1)) with (length x + length ks)%nat by (unfold len; lia).
  pose proof (back_loop_char x l ks [] 0 0 n Hlead Hc) as E. rewrite app_nil_r in E.
  rewrite E; [done| |lia|lia]. eapply Forall_impl; [exact Hks|]. by intros ? [? _].
Qed.

(** At the end of a chunk the decoder finds what is missing. *)
Lemma incomplete_utf8 x cs1 cs2 p m i :
  Forall scalar (cs1 ++ cs2) -> awaits cs2 p m -> mbind (M := list) utf8 cs1 ++ p <> [] ->
  incomplete Utf8 (x ++ mbind (M := list) utf8 cs1 ++ p) i 0 0 = (len p, m).
Proof.
  intros Hsc Hw Hne. apply Forall_app in Hsc as [Hsc1 Hsc2].
  destruct Hw as [[-> ->]|(c & cs' & q & -> & Ec & Hp & Hq & ->)].
  - rewrite app_nil_r in *. destruct cs1 as [|c cs1 _] using rev_ind; [done|].
    apply Forall_app in Hsc1 as [_ Hc]. apply Forall_cons in Hc as [Hc _].
    rewrite bind_app, bind_cons, app_nil_r, app_assoc. change (len (@nil Z)) with 0.
    destruct (utf8_shape c Hc) as [[Hlt ->]|(l & ks & E & Hlead & Hcl & Hl & Hks & Hlen)].
    + apply incomplete_ascii. unfold scalar in Hc. lia.
    + rewrite E. rewrite (incomplete_multi _ l ks (len (utf8 c))) by (done || lia).
      rewrite E, len_cons. by destruct (Z.leb_spec (1 + len ks) (len ks + 1)); [|lia].
  - apply Forall_cons in Hsc2 as [Hc _]. rewrite app_assoc.
    pose proof (len_pos p Hp). pose proof (len_pos q Hq).
    destruct (utf8_shape c Hc) as [[Hlt E]|(l & ks & E & Hlead & Hcl & Hl & Hks & Hlen)].
    + rewrite E in Ec. apply (f_equal len) in Ec. rewrite len_app in Ec. change (len [c]) with 1 in Ec. lia.
    + assert (En : len (utf8 c) = len p + len q) by (by rewrite Ec, len_app).
      rewrite E in Ec. destruct p as [|l' p]; [done|]. injection Ec as <- ->.
      apply Forall_app in Hks as [Hks _]. rewrite len_app, len_cons in *.
      rewrite (incomplete_multi _ l p (len (utf8 c))) by (done || lia). rewrite En.
      destruct (Z.leb_spec (1 + len p + len q) (len p + 1)); [lia|]. f_equal; lia.
Qed.

Lemma awaits_bound cs p m : Forall scalar cs -> awaits cs p m -> 0 <= m /\ len p + m <= 4.
Proof.
  intros Hsc [[-> ->]|(c & cs' & q & -> & Ec & Hp & Hq & ->)]; [done|].
  pose proof (utf8_len c) as [Hl _]. rewrite Ec, len_app in Hl. pose proof (len_nonneg q). lia.
Qed.

Lemma remainder_utf8 d buf i pre cs future :
  holds Utf8 d [] 0 -> len buf <= kStringMaxLength -> 0 <= i <= len buf ->
  Forall scalar cs -> Forall (fun c => c <> BOM) cs ->
  slice_from buf i ++ future = mbind (M := list) utf8 cs ->
  exists d' cs1 cs2 p m, remainder d buf i pre = Ok (d', pre ++ mbind (M := list) units_of cs1)
    /\ cs = cs1 ++ cs2 /\ slice_from buf i = mbind (M := list) utf8 cs1 ++ p
    /\ holds Utf8 d' p m /\ awaits cs2 p m.
Proof.
  intros Hd Hl Hi Hsc Hbom E. destruct (decide (i = len buf)) as [->|Hne].
  - exists d, [], cs, [], 0. rewrite remainder_end, slice_from_end. cbn. rewrite app_nil_r.
    do 4 (split; [done|]). by left.
  - destruct (cut_characters cs _ _ E) as (cs1 & cs2 & p & m & -> & Eb & Hw).
    destruct (split_len buf i ltac:(lia)) as (x & r & -> & <-). rewrite slice_from_suffix in *.
    rewrite len_app in *. pose proof (len_nonneg x). pose proof (len_nonneg r).
    assert (Hr : r <> []) by (intros ->; change (len (@nil Z)) with 0 in Hne; lia).
    pose proof Hsc as Hsc'. apply Forall_app in Hsc' as [Hsc1 Hsc2]. destruct (awaits_bound cs2 p m Hsc2 Hw) as [Hm Hpm].
    assert (Hpl : len p <= len r) by (rewrite Eb, len_app; pose proof (len_nonneg (mbind (M := list) utf8 cs1)); lia).
    destruct (remainder_spec Utf8 d (x ++ r) (len x) pre (len p) m) as (d' & Er & Hd').
    + done.
    + by rewrite len_app.
    + rewrite len_app. lia.
    + rewrite Eb. apply (incomplete_utf8 x cs1 cs2); [done|done|by rewrite <- Eb].
    + rewrite len_app. pose proof (len_nonneg p). lia.
    + done.
    + cbn. lia.
    + exists d', cs1, cs2, p, m. split; [|split; [done|split; [done|split; [|done]]]].
      * rewrite Er. do 3 f_equal. cbn [key_of text_of].
        replace (slice (x ++ r) (len x) (len (x ++ r) - len p)) with (mbind (M := list) utf8 cs1).
        { apply decode_scalars; [done|]. by apply Forall_app in Hbom as [? _]. }
        rewrite Eb. replace (len (x ++ mbind (M := list) utf8 cs1 ++ p) - len p) with (len x + len (mbind (M := list) utf8 cs1))
          by (rewrite !len_app; lia). by rewrite slice_mid.
      * replace (slice (x ++ r) (len (x ++ r) - len p) (len (x ++ r))) with p in Hd'; [done|].
        fold (slice_from (x ++ r) (len (x ++ r) - len p)). rewrite Eb, app_assoc.
        replace (len ((x ++ mbind (M := list) utf8 cs1) ++ p) - len p) with (len (x ++ mbind (M := list) utf8 cs1))
          by (rewrite !len_app; lia). by rewrite slice_from_suffix.
Qed.

(** The bytes behind the first of a character continue it. *)
Lemma utf8_tail c p q :
  scalar c -> utf8 c = p ++ q -> p <> [] -> Forall (fun b => is_continuation b = true) q.
Proof.
  intros Hc E Hp. destruct (utf8_shape c Hc) as [[_ E1]|(l & ks & E1 & _ & _ & _ & Hks & _)];
    destruct p as [|l' p]; try done; rewrite E1 in E; cbn [app] in E.
  - injection E as -> E. symmetry in E. apply app_eq_nil in E as [_ ->]. constructor.
  - injection E as -> ->. apply Forall_app in Hks as [_ Hq]. eapply Forall_impl; [exact Hq|]. by intros ? [? _].
Qed.

Lemma decode_char c : scalar c -> c <> BOM -> text_of (key_of Utf8) (utf8 c) = units_of c.
Proof.
  intros Hc Hb. pose proof (decode_scalars [c]) as E. rewrite !bind_cons, !app_nil_r in E. cbn [key_of text_of].
  apply E; (apply Forall_cons; split; [done|constructor]).
Qed.

Lemma decode_utf8_enc d p m buf :
  holds Utf8 d p m ->
  decode_chunk d buf = let! completed := complete d buf in
    let '(d, bufIdx, prepend) := completed in remainder d buf bufIdx prepend.
Proof. intros Hd. unfold decode_chunk. by rewrite (holds_enc Utf8 d p m Hd). Qed.

(** A chunk that completes the character [c]. *)
Lemma decode_utf8_full d p q r c cs future :
  holds Utf8 d p (len q) -> len (q ++ r) <= kStringMaxLength ->
  Forall scalar (c :: cs) -> Forall (fun c => c <> BOM) (c :: cs) ->
  utf8 c = p ++ q -> p <> [] -> q <> [] -> r ++ future = mbind (M := list) utf8 cs ->
  exists d' cs1 cs2 p' m', decode_chunk d (q ++ r) = Ok (d', mbind (M := list) units_of cs1)
    /\ c :: cs = cs1 ++ cs2 /\ p ++ q ++ r = mbind (M := list) utf8 cs1 ++ p'
    /\ holds Utf8 d' p' m' /\ awaits cs2 p' m'.
Proof.
  intros Hd Hl Hsc Hbom Ec Hp Hq E. apply Forall_cons in Hsc as [Hc Hsc]. apply Forall_cons in Hbom as [Hb Hbom].
  pose proof (len_pos q Hq). pose proof (len_nonneg r). rewrite (decode_utf8_enc d p (len q)) by done.
  assert (Htake : take (Z.to_nat (len q)) (q ++ r) = q) by (rewrite to_nat_len; apply take_app_length).
  destruct (complete_full Utf8 d p (len q) (q ++ r)) as (d1 & -> & Hd1); try done.
  { rewrite len_app. lia. }
  { intros _. apply not_continuation_none; [done|rewrite length_app; unfold len; lia|].
    change (Z.to_nat 0) with 0%nat. rewrite drop_0, Htake. by apply (utf8_tail c p). }
  cbn [rbind]. rewrite Htake, <- Ec, decode_char by done.
  destruct (remainder_utf8 d1 (q ++ r) (len q) (units_of c) cs future)
    as (d' & cs1 & cs2 & p' & m' & -> & -> & Eb & Hd' & Hw'); try done.
  { rewrite len_app. lia. }
  { by rewrite slice_from_suffix. }
  rewrite slice_from_suffix in Eb. exists d', (c :: cs1), cs2, p', m'. rewrite !bind_cons. split; [done|].
  split; [done|]. split; [|done]. by rewrite Ec, Eb, <- !app_assoc.
Qed.

Lemma decode_utf8_step d p m buf cs future :
  holds Utf8 d p m -> len buf <= kStringMaxLength -> Forall scalar cs -> Forall (fun c => c <> BOM) cs ->
  awaits cs p m -> p ++ buf ++ future = mbind (M := list) utf8 cs ->
  exists d' cs1 cs2 p' m', decode_chunk d buf = Ok (d', mbind (M := list) units_of cs1)
    /\ cs = cs1 ++ cs2 /\ p ++ buf = mbind (M := list) utf8 cs1 ++ p'
    /\ holds Utf8 d' p' m' /\ awaits cs2 p' m'.
Proof.
  intros Hd Hl Hsc Hbom Hw E. pose proof (len_nonneg buf).
  destruct Hw as [[-> ->]|(c & cs' & q & -> & Ec & Hp & Hq & ->)].
  - rewrite (decode_utf8_enc d [] 0), (complete_none Utf8) by done. cbn [rbind app] in *.
    destruct (remainder_utf8 d buf 0 [] cs future) as (d' & cs1 & cs2 & p' & m' & Er & Ecs & Eb & Hd' & Hw');
      try done; [unfold slice_from; by rewrite slice_whole|].
    exists d', cs1, cs2, p', m'. split; [done|]. split; [done|]. split; [|done].
    rewrite <- Eb. unfold slice_from. by rewrite slice_whole.
  - rewrite bind_cons, Ec, <- app_assoc in E. apply app_inv_head in E.
    destruct (app_eq_inv _ _ _ _ E) as [(r & -> & Er)|(q' & Eq & Ef)];
      [by apply (decode_utf8_full d p q r c cs' future)|].
    destruct (decide (q' = [])) as [->|Hq'].
    { rewrite app_nil_r in Eq. subst buf.
      destruct (decode_utf8_full d p q [] c cs' future) as (d' & cs1 & cs2 & p' & m' & Hr & Hr2);
        try done; [by rewrite app_nil_r|].
      rewrite !app_nil_r in *. by exists d', cs1, cs2, p', m'. }
    pose proof (len_pos q' Hq'). apply Forall_cons in Hsc as [Hc Hsc].
    assert (Hlt : len q = len buf + len q') by (by rewrite Eq, len_app).
    rewrite (decode_utf8_enc d p (len q)) by done.
    destruct (complete_short Utf8 d p (len q) buf) as (d1 & -> & Hd1); try done; [lia|lia| |].
    { intros _. pose proof (utf8_tail c p q Hc Ec Hp) as Hcont. rewrite Eq in Hcont. apply Forall_app in Hcont as [Hcont _].
      apply not_continuation_none; [done|lia|]. change (Z.to_nat 0) with 0%nat. by rewrite drop_0, firstn_all. }
    cbn [rbind]. rewrite remainder_end. exists d1, [], (c :: cs'), (p ++ buf), (len q - len buf).
    do 4 (split; [done|]). right. exists c, cs', q'. split; [done|].
    split; [by rewrite Ec, Eq, app_assoc|]. split; [by intros [-> _]%app_eq_nil|]. split; [done|lia].
Qed.

Lemma write_all_utf8 d p m cs chunks :
  holds Utf8 d p m -> Forall (fun c => len c <= kStringMaxLength) chunks ->
  Forall scalar cs -> Forall (fun c => c <> BOM) cs -> awaits cs p m ->
  p ++ List.concat chunks = mbind (M := list) utf8 cs ->
  exists d', write_all d chunks = Ok (d', mbind (M := list) units_of cs) /\ holds Utf8 d' [] 0.
Proof.
  intros Hd Hc. revert d p m cs Hd. induction Hc as [|c chunks Hl Hc IH]; intros d p m cs Hd Hsc Hbom Hw E; cbn [List.concat] in E.
  - rewrite app_nil_r in E. exists d.
    destruct Hw as [[-> ->]|(c & cs' & q & -> & Ec & Hp & Hq & ->)].
    + destruct cs as [|c cs]; [done|]. rewrite bind_cons in E. symmetry in E. apply app_eq_nil in E as [E _].
      pose proof (utf8_len c) as [Hl _]. rewrite E in Hl. change (len (@nil Z)) with 0 in Hl. lia.
    + exfalso. rewrite bind_cons, Ec in E. apply (f_equal len) in E. rewrite !len_app in E.
      pose proof (len_pos q Hq). pose proof (len_nonneg (mbind (M := list) utf8 cs')). lia.
  - destruct (decode_utf8_step d p m c cs (List.concat chunks)) as (d1 & cs1 & cs2 & p1 & m1 & E1 & -> & Eb & Hd1 & Hw1); try done.
    apply Forall_app in Hsc as [Hsc1 Hsc2]. apply Forall_app in Hbom as [_ Hbom2].
    destruct (IH d1 p1 m1 cs2) as (d2 & E2 & Hd2); try done.
    { rewrite app_assoc, Eb, bind_app, <- app_assoc in E. by apply app_inv_head in E. }
    exists d2. split; [|done]. cbn [write_all sd_write normalizeBuffer rbind]. rewrite E1. cbn [rbind fst snd].
    rewrite E2. cbn [rbind fst snd]. by rewrite bind_app.
Qed.

(** C38: a [StringDecoder] for UTF-8 gives back every well-formed string without
    byte order marks from its bytes, however they are cut into chunks, in the
    middle of a character or not. *)
Theorem utf8_decoder_chunks (encoding : option jsstr) (s : jsstr) (chunks : list (list Z)) :
  castEncoding encoding = Some (js "utf8") ->
  units16 s -> toWellFormed s = s -> Forall (fun c => c <> BOM) s ->
  List.concat chunks = encode s -> Forall (fun c => len c <= kStringMaxLength) chunks ->
  decode_all encoding chunks = Ok s.
Proof.
  intros Hc Hu Hwf Hbom E Hl. destruct (new_decoder_holds encoding Utf8 Hc) as (d & Hnew & Hd).
  unfold decode_all. rewrite Hnew. cbn [rbind].
  destruct (write_all_utf8 d [] 0 (scalars s) chunks) as (d' & -> & (junk & -> & _)); try done.
  - by apply scalars_ok.
  - unfold toWellFormed in Hwf. rewrite <- Hwf in Hbom. clear -Hbom. induction (scalars s) as [|c cs IH]; [constructor|].
    rewrite bind_cons in Hbom. apply Forall_app in Hbom as [Hb Hbs]. constructor; [|by apply IH].
    intros ->. unfold units_of in Hb. cbn in Hb. by apply Forall_cons in Hb as [? _].
  - by left.
  - cbn [app]. by rewrite E, encode_utf8.
  - unfold sd_end. cbn [rbind fst snd kBufferedBytes]. change (0 <? len (@nil Z)) with false. cbn [rbind snd].
    unfold toWellFormed in Hwf. by rewrite Hwf, app_nil_r.
Qed.
End Chunks.

Lemma decoder_chunks_witness :
  decode_all (Some (js "base64")) [[1]; []; [2; 3; 4]; [5]] = Ok (js "AQIDBAU=").
Proof.
  refine (eq_trans (decoder_chunks (Some (js "base64")) Base64 [[1]; []; [2; 3; 4]; [5]] _ _ _) _).
  - vm_compute. reflexivity.
  - discriminate.
  - repeat constructor; vm_compute; discriminate.
  - vm_compute. reflexivity.
Defined.

Lemma utf8_decoder_chunks_witness :
  decode_all None [[226; 130]; [172]; []; [240; 159]; [152; 128; 97]] = Ok [0x20AC; 0xD83D; 0xDE00; 97].
Proof.
  apply utf8_decoder_chunks.
  - vm_compute. reflexivity.
  - unfold units16. repeat (apply Forall_cons; split; [lia|]). constructor.
  - vm_compute. reflexivity.
  - unfold BOM. repeat (apply Forall_cons; split; [lia|]). constructor.
  - vm_compute. reflexivity.
  - unfold kStringMaxLength. repeat (apply Forall_cons; split; [unfold len; cbn; lia|]). constructor.
Defined.

(** A byte order mark at the start of a chunk is lost, also in the middle of
    the text. *)
Example decoder_drops_inner_bom :
  decode_all None [[97]; [239; 187; 191; 98]] = Ok [97; 98].
Proof. vm_compute. reflexivity. Qed.

(** A view that is not a [Buffer] stands for all of its array buffer, wherever
    it starts. *)
Example view_offset_ignored :
  (let! d := new_decoder (Some (js "latin1")) in
   let! r := sd_write d (CView (js "secret:public") 7 6) in Ok (snd r)) = Ok (js "secret:public").
Proof. vm_compute. reflexivity. Qed.

(** base64url is a buffer encoding that the decoder does not know. *)
Example decoder_rejects_base64url :
  new_decoder (Some (js "base64url")) = Throw ERR_UNKNOWN_ENCODING /\ isEncoding (JString (js "base64url")) = true.
Proof. split; vm_compute; reflexivity. Qed.
