(* ===== verification/Querystring.v ===== *)
(** * [querystring.js] and [internal/querystring.ts]

    Percent-encoding, [parse] and [stringify].  An object is the list of its
    entries in the order of insertion. *)

From S2P Require Import Prelude Bytes Codecs Buffer WebText WebModel BufferText.

(** ** Tables *)

(** [hexTable]: a percent sign and the two upper case digits of the byte. *)
Definition upper_hex (d : Z) : Z := if d <? 10 then 48 + d else 55 + d.
Definition percent (b : Z) : jsstr := [37; upper_hex (b / 16); upper_hex (b mod 16)].
Definition hexTable : list jsstr := percent <$> seqZ 0 256.

(** The table of both files. *)
Definition isHexTable : list Z :=
  [0; 0; 0; 0; 0; 0; 0; 0; 0; 0; 0; 0; 0; 0; 0; 0;
   0; 0; 0; 0; 0; 0; 0; 0; 0; 0; 0; 0; 0; 0; 0; 0;
   0; 0; 0; 0; 0; 0; 0; 0; 0; 0; 0; 0; 0; 0; 0; 0;
   1; 1; 1; 1; 1; 1; 1; 1; 1; 1; 0; 0; 0; 0; 0; 0;
   0; 1; 1; 1; 1; 1; 1; 0; 0; 0; 0; 0; 0; 0; 0; 0;
   0; 0; 0; 0; 0; 0; 0; 0; 0; 0; 0; 0; 0; 0; 0; 0;
   0; 1; 1; 1; 1; 1; 1; 0; 0; 0; 0; 0; 0; 0; 0; 0;
   0; 0; 0; 0; 0; 0; 0; 0; 0; 0; 0; 0; 0; 0; 0; 0;
   0; 0; 0; 0; 0; 0; 0; 0; 0; 0; 0; 0; 0; 0; 0; 0;
   0; 0; 0; 0; 0; 0; 0; 0; 0; 0; 0; 0; 0; 0; 0; 0;
   0; 0; 0; 0; 0; 0; 0; 0; 0; 0; 0; 0; 0; 0; 0; 0;
   0; 0; 0; 0; 0; 0; 0; 0; 0; 0; 0; 0; 0; 0; 0; 0;
   0; 0; 0; 0; 0; 0; 0; 0; 0; 0; 0; 0; 0; 0; 0; 0;
   0; 0; 0; 0; 0; 0; 0; 0; 0; 0; 0; 0; 0; 0; 0; 0;
   0; 0; 0; 0; 0; 0; 0; 0; 0; 0; 0; 0; 0; 0; 0; 0;
   0; 0; 0; 0; 0; 0; 0; 0; 0; 0; 0; 0; 0; 0; 0; 0].

Definition noEscape : list Z :=
  [0; 0; 0; 0; 0; 0; 0; 0; 0; 0; 0; 0; 0; 0; 0; 0;
   0; 0; 0; 0; 0; 0; 0; 0; 0; 0; 0; 0; 0; 0; 0; 0;
   0; 1; 0; 0; 0; 0; 0; 1; 1; 1; 1; 0; 0; 1; 1; 0;
   1; 1; 1; 1; 1; 1; 1; 1; 1; 1; 0; 0; 0; 0; 0; 0;
   0; 1; 1; 1; 1; 1; 1; 1; 1; 1; 1; 1; 1; 1; 1; 1;
   1; 1; 1; 1; 1; 1; 1; 1; 1; 1; 1; 0; 0; 0; 0; 1;
   0; 1; 1; 1; 1; 1; 1; 1; 1; 1; 1; 1; 1; 1; 1; 1;
   1; 1; 1; 1; 1; 1; 1; 1; 1; 1; 1; 0; 0; 0; 1; 0].

Definition unhexTable : list Z :=
  [-1; -1; -1; -1; -1; -1; -1; -1; -1; -1; -1; -1; -1; -1; -1; -1;
   -1; -1; -1; -1; -1; -1; -1; -1; -1; -1; -1; -1; -1; -1; -1; -1;
   -1; -1; -1; -1; -1; -1; -1; -1; -1; -1; -1; -1; -1; -1; -1; -1;
   0; 1; 2; 3; 4; 5; 6; 7; 8; 9; -1; -1; -1; -1; -1; -1;
   -1; 10; 11; 12; 13; 14; 15; -1; -1; -1; -1; -1; -1; -1; -1; -1;
   -1; -1; -1; -1; -1; -1; -1; -1; -1; -1; -1; -1; -1; -1; -1; -1;
   -1; 10; 11; 12; 13; 14; 15; -1; -1; -1; -1; -1; -1; -1; -1; -1;
   -1; -1; -1; -1; -1; -1; -1; -1; -1; -1; -1; -1; -1; -1; -1; -1;
   -1; -1; -1; -1; -1; -1; -1; -1; -1; -1; -1; -1; -1; -1; -1; -1;
   -1; -1; -1; -1; -1; -1; -1; -1; -1; -1; -1; -1; -1; -1; -1; -1;
   -1; -1; -1; -1; -1; -1; -1; -1; -1; -1; -1; -1; -1; -1; -1; -1;
   -1; -1; -1; -1; -1; -1; -1; -1; -1; -1; -1; -1; -1; -1; -1; -1;
   -1; -1; -1; -1; -1; -1; -1; -1; -1; -1; -1; -1; -1; -1; -1; -1;
   -1; -1; -1; -1; -1; -1; -1; -1; -1; -1; -1; -1; -1; -1; -1; -1;
   -1; -1; -1; -1; -1; -1; -1; -1; -1; -1; -1; -1; -1; -1; -1; -1;
   -1; -1; -1; -1; -1; -1; -1; -1; -1; -1; -1; -1; -1; -1; -1; -1].

(** ** Percent-encoding *)

(** [hexTable[b]] of a byte. *)
Definition hex_at (hexTable : list jsstr) (b : Z) : jsstr := default [] (at_index hexTable b).

(** The end of [encodeStr]. *)
Definition encode_end (str : jsstr) (lastPos : Z) (out : jsstr) : jsstr :=
  if lastPos =? 0 then str
  else if lastPos <? len str then out ++ slice_from str lastPos
  else out.

(** The loop; as every iteration advances [i], the length of the string is
    enough fuel. *)
Fixpoint encode_loop (str : jsstr) (noEscapeTable : list Z) (hexTable : list jsstr)
    (fuel : nat) (i lastPos : Z) (out : jsstr) : result jsstr :=
  match fuel with
  | O => Ok (encode_end str lastPos out)
  | S fuel =>
      match charCodeAt str i with
      | None => Ok (encode_end str lastPos out)
      | Some c =>
          let flushed := if lastPos <? i then out ++ slice str lastPos i else out in
          if c <? 0x80 then
            if is_code (at_index noEscapeTable c) 1
            then encode_loop str noEscapeTable hexTable fuel (i + 1) lastPos out
            else encode_loop str noEscapeTable hexTable fuel (i + 1) (i + 1) (flushed ++ hex_at hexTable c)
          else if c <? 0x800 then
            encode_loop str noEscapeTable hexTable fuel (i + 1) (i + 1)
              (flushed ++ hex_at hexTable (bitor 0xc0 (sar c 6)) ++ hex_at hexTable (bitor 0x80 (bitand c 0x3f)))
          else if (c <? 0xd800) || (0xe000 <=? c) then
            encode_loop str noEscapeTable hexTable fuel (i + 1) (i + 1)
              (flushed ++ hex_at hexTable (bitor 0xe0 (sar c 12))
               ++ hex_at hexTable (bitor 0x80 (bitand (sar c 6) 0x3f))
               ++ hex_at hexTable (bitor 0x80 (bitand c 0x3f)))
          else
            match charCodeAt str (i + 1) with
            | None => Throw ERR_INVALID_URI
            | Some c2 =>
                let c2 := bitand c2 0x3ff in
                let c := 0x10000 + bitor (shl (bitand c 0x3ff) 10) c2 in
                encode_loop str noEscapeTable hexTable fuel (i + 2) (i + 2)
                  (flushed ++ hex_at hexTable (bitor 0xf0 (sar c 18))
                   ++ hex_at hexTable (bitor 0x80 (bitand (sar c 12) 0x3f))
                   ++ hex_at hexTable (bitor 0x80 (bitand (sar c 6) 0x3f))
                   ++ hex_at hexTable (bitor 0x80 (bitand c 0x3f)))
            end
      end
  end.

Definition encodeStr (str : jsstr) (noEscapeTable : list Z) (hexTable : list jsstr) : result jsstr :=
  if len str =? 0 then Ok [] else encode_loop str noEscapeTable hexTable (length str) 0 0 [].

(** [qsEscape] of a string. *)
Definition qsEscape (str : jsstr) : result jsstr := encodeStr str noEscape hexTable.

(** ** Decoding *)

(** The value of two hexadecimal digits. *)
Definition hex2 (h l : Z) : option Z :=
  h ← parse_hex (Some h); l ← parse_hex (Some l); Some (h * 16 + l).

(** [decodeURIComponent] of ECMA-262: the percent-encoded bytes have to be
    complete UTF-8; [None] is the [URIError]. *)
Fixpoint uri_decode (st : utf8_state) (s : jsstr) : option jsstr :=
  match s with
  | [] => if remaining st =? 0 then Some [] else None
  | c :: r =>
      if c =? 37 then
        match r with
        | h :: l :: r' =>
            b ← hex2 h l;
            if remaining st =? 0 then
              let '(st', out) := utf8_lead b in
              if bool_decide (out = [REPLACEMENT]) then None
              else rest ← uri_decode st' r'; Some (out ++ rest)
            else if (lower st <=? b) && (b <=? upper st) then
              let p := point st * 64 + (b - 0x80) in
              if remaining st =? 1 then rest ← uri_decode utf8_start r'; Some (units_of p ++ rest)
              else uri_decode (U8 (remaining st - 1) p 0x80 0xBF) r'
            else None
        | _ => None
        end
      else if remaining st =? 0 then rest ← uri_decode st r; Some (c :: rest)
      else None
  end.

Definition decodeURIComponent (s : jsstr) : option jsstr := uri_decode utf8_start s.

(** [unhexTable[c] >= 0]; no such entry is [undefined]. *)
Definition unhex (c : Z) : option Z :=
  match at_index unhexTable c with
  | Some v => if 0 <=? v then Some v else None
  | None => None
  end.

(** The loop of [unescapeBuffer] over what is left of the string: the bytes and
    [hasHex]. *)
Fixpoint unescape_loop (decodeSpaces : bool) (s : jsstr) : list Z * bool :=
  match s with
  | [] => ([], false)
  | c :: r =>
      if (c =? 43) && decodeSpaces then
        let '(out, hasHex) := unescape_loop decodeSpaces r in (32 :: out, hasHex)
      else
        match c =? 37, r with
        | true, h :: ((l :: r') as r1) =>
            match unhex h, unhex l with
            | None, _ => let '(out, hasHex) := unescape_loop decodeSpaces r in (37 :: out, hasHex)
            | Some hexHigh, None =>
                let '(out, hasHex) := unescape_loop decodeSpaces r1 in (37 :: to_uint8 h :: out, hasHex)
            | Some hexHigh, Some hexLow =>
                let '(out, hasHex) := unescape_loop decodeSpaces r' in (to_uint8 (hexHigh * 16 + hexLow) :: out, true)
            end
        | _, _ => let '(out, hasHex) := unescape_loop decodeSpaces r in (to_uint8 c :: out, hasHex)
        end
  end.

(** Without any decoded byte all of the buffer is returned. *)
Definition unescapeBuffer (s : jsstr) (decodeSpaces : bool) : list Z :=
  let '(out, hasHex) := unescape_loop decodeSpaces s in
  if hasHex then out else out ++ replicate (length s - length out) 0.

Definition qsUnescape `{!WebText} (s : jsstr) : result jsstr :=
  match decodeURIComponent s with
  | Some t => Ok t
  | None => toString (unescapeBuffer s false) None
  end.

(** ** [parse] *)

Definition charCodes (str : jsstr) : list Z := str.

(** The values of the object [parse] makes. *)
Inductive query_value := QString (s : jsstr) | QArray (l : list jsstr).
Abbreviation query := (list (jsstr * query_value)).

(** [obj[key] = value], or one more value for a key that is there. *)
Fixpoint add_value (obj : query) (key value : jsstr) : query :=
  match obj with
  | [] => [(key, QString value)]
  | (k, v) :: rest =>
      if str_eqb k key then
        (k, match v with
            | QString cur => QArray [cur; value]
            | QArray l => QArray (l ++ [value])
            end) :: rest
      else (k, v) :: add_value rest key value
  end.

Definition addKeyVal (obj : query) (key value : jsstr) (keyEncoded valEncoded : bool)
    (decode : jsstr -> result jsstr) : result query :=
  let! key := if (0 <? len key) && keyEncoded then decode key else Ok key in
  let! value := if (0 <? len value) && valEncoded then decode value else Ok value in
  Ok (add_value obj key value).

(** The variables of the loop. *)
Record parse_state := PS {
  lastPos : Z;
  sepIdx : Z;
  eqIdx : Z;
  ps_key : jsstr;
  ps_value : jsstr;
  keyEncoded : bool;
  valEncoded : bool;
  encodeCheck : Z;
  pairs : Z;
  ps_obj : query
}.

Section Parse.
Context (str : jsstr) (sepCodes eqCodes : list Z) (plusChar : jsstr) (decode : jsstr -> result jsstr).

Definition is_hex (code : Z) : bool := is_code (at_index isHexTable code) 1.

(** Lines 183 to 191: the pair is complete; [inl] is a [return]. *)
Definition parse_pair (st : parse_state) (i : Z) (key value : jsstr) : result (query + parse_state) :=
  let! obj := addKeyVal (ps_obj st) key value (keyEncoded st) (valEncoded st) decode in
  if pairs st - 1 =? 0 then Ok (inl obj)
  else Ok (inr (PS (i + 1) 0 0 [] [] (keyEncoded st) (valEncoded st) 0 (pairs st - 1) obj)).

(** Lines 163 to 192: a separator of pairs ends at [i]. *)
Definition parse_sep (st : parse_state) (i : Z) : result (query + parse_state) :=
  let end_ := i - len sepCodes + 1 in
  if eqIdx st <? len eqCodes then
    if lastPos st <? end_ then parse_pair st i (ps_key st ++ slice str (lastPos st) end_) (ps_value st)
    else if len (ps_key st) =? 0 then
      if pairs st - 1 =? 0 then Ok (inl (ps_obj st))
      else Ok (inr (PS (i + 1) 0 0 (ps_key st) (ps_value st) (keyEncoded st) (valEncoded st)
                       (encodeCheck st) (pairs st - 1) (ps_obj st)))
    else parse_pair st i (ps_key st) (ps_value st)
  else if lastPos st <? end_ then parse_pair st i (ps_key st) (ps_value st ++ slice str (lastPos st) end_)
  else parse_pair st i (ps_key st) (ps_value st).

(** Lines 237 to 257. *)
Definition parse_value (st : parse_state) (i code : Z) : parse_state :=
  if code =? 43 then
    PS (i + 1) (sepIdx st) (eqIdx st) (ps_key st)
       ((if lastPos st <? i then ps_value st ++ slice str (lastPos st) i else ps_value st) ++ plusChar)
       (keyEncoded st) (valEncoded st) (encodeCheck st) (pairs st) (ps_obj st)
  else if negb (valEncoded st) then
    let '(valEncoded, encodeCheck) :=
      if code =? 37 then (valEncoded st, 1)
      else if 0 <? encodeCheck st then
        if is_hex code then (if encodeCheck st + 1 =? 3 then true else valEncoded st, encodeCheck st + 1)
        else (valEncoded st, 0)
      else (valEncoded st, encodeCheck st) in
    PS (lastPos st) (sepIdx st) (eqIdx st) (ps_key st) (ps_value st) (keyEncoded st) valEncoded encodeCheck
       (pairs st) (ps_obj st)
  else st.

(** Lines 208 to 236, with [eqIdx = 0]: [inl] is a [continue], [inr] goes on
    with the rest of the loop. *)
Definition parse_key (st : parse_state) (i code : Z) : parse_state + parse_state :=
  let set key lastPos keyEncoded encodeCheck :=
    PS lastPos (sepIdx st) 0 key (ps_value st) keyEncoded (valEncoded st) encodeCheck (pairs st) (ps_obj st) in
  let check : parse_state + Z :=
    if negb (keyEncoded st) then
      if code =? 37 then inl (set (ps_key st) (lastPos st) (keyEncoded st) 1)
      else if 0 <? encodeCheck st then
        if is_hex code then
          inl (set (ps_key st) (lastPos st) (if encodeCheck st + 1 =? 3 then true else keyEncoded st)
                   (encodeCheck st + 1))
        else inr 0
      else inr (encodeCheck st)
    else inr (encodeCheck st) in
  match check with
  | inl st => inl st
  | inr encodeCheck =>
      if code =? 43 then
        inl (set ((if lastPos st <? i then ps_key st ++ slice str (lastPos st) i else ps_key st) ++ plusChar)
                 (i + 1) (keyEncoded st) encodeCheck)
      else inr (set (ps_key st) (lastPos st) (keyEncoded st) encodeCheck)
  end.

(** One iteration of the loop. *)
Definition parse_step (st : parse_state) (i code : Z) : result (query + parse_state) :=
  if is_code (at_index sepCodes (sepIdx st)) code then
    if sepIdx st + 1 =? len sepCodes then parse_sep st i
    else Ok (inr (PS (lastPos st) (sepIdx st + 1) (eqIdx st) (ps_key st) (ps_value st) (keyEncoded st)
                     (valEncoded st) (encodeCheck st) (pairs st) (ps_obj st)))
  else
    let st := PS (lastPos st) 0 (eqIdx st) (ps_key st) (ps_value st) (keyEncoded st)
                 (valEncoded st) (encodeCheck st) (pairs st) (ps_obj st) in
    if eqIdx st <? len eqCodes then
      if is_code (at_index eqCodes (eqIdx st)) code then
        if eqIdx st + 1 =? len eqCodes then
          let end_ := i - len eqCodes + 1 in
          Ok (inr (PS (i + 1) 0 (eqIdx st + 1)
                      (if lastPos st <? end_ then ps_key st ++ slice str (lastPos st) end_ else ps_key st)
                      (ps_value st) (keyEncoded st) (valEncoded st) 0 (pairs st) (ps_obj st)))
        else Ok (inr (PS (lastPos st) 0 (eqIdx st + 1) (ps_key st) (ps_value st) (keyEncoded st)
                         (valEncoded st) (encodeCheck st) (pairs st) (ps_obj st)))
      else
        match parse_key st i code with
        | inl st => Ok (inr st)
        | inr st => Ok (inr (parse_value st i code))
        end
    else Ok (inr (parse_value st i code)).

(** The loop over the units from [i] on. *)
Fixpoint parse_loop (codes : list Z) (i : Z) (st : parse_state) : result (query + parse_state) :=
  match codes with
  | [] => Ok (inr st)
  | code :: codes =>
      let! r := parse_step st i code in
      match r with
      | inl obj => Ok (inl obj)
      | inr st => parse_loop codes (i + 1) st
      end
  end.

(** Lines 261 to 275. *)
Definition parse_end (st : parse_state) : result query :=
  if lastPos st <? len str then
    if eqIdx st <? len eqCodes then
      addKeyVal (ps_obj st) (ps_key st ++ slice_from str (lastPos st)) (ps_value st) (keyEncoded st) (valEncoded st) decode
    else if sepIdx st <? len sepCodes then
      addKeyVal (ps_obj st) (ps_key st) (ps_value st ++ slice_from str (lastPos st)) (keyEncoded st) (valEncoded st) decode
    else addKeyVal (ps_obj st) (ps_key st) (ps_value st) (keyEncoded st) (valEncoded st) decode
  else if (eqIdx st =? 0) && (len (ps_key st) =? 0) then Ok (ps_obj st)
  else addKeyVal (ps_obj st) (ps_key st) (ps_value st) (keyEncoded st) (valEncoded st) decode.
End Parse.

(** [parse(str, sep, eq, { decodeURIComponent, maxKeys })]: no separator or an
    empty one stands for the default, [custom] is a function given in the
    options, [maxKeys] a number if it is one. *)
Definition parse `{!WebText} (str : jsval) (sep eq : option jsstr) (custom : option (jsstr -> result jsstr))
    (maxKeys : option Z) : result query :=
  match str with
  | JString (c :: s) =>
      let str := c :: s in
      let sepCodes := match sep with Some (x :: t) => charCodes (x :: t) | _ => [38] end in
      let eqCodes := match eq with Some (x :: t) => charCodes (x :: t) | _ => [61] end in
      let pairs := match maxKeys with Some m => if 0 <? m then m else -1 | None => 1000 end in
      let decode := match custom with Some f => f | None => qsUnescape end in
      let customDecode := bool_decide (is_Some custom) in
      let plusChar := if customDecode then js "%20" else js " " in
      let! r := parse_loop str sepCodes eqCodes plusChar decode str 0
                  (PS 0 0 0 [] [] customDecode customDecode 0 pairs []) in
      match r with
      | inl obj => Ok obj
      | inr st => parse_end str sepCodes eqCodes decode st
      end
  | _ => Ok []
  end.

(** ** [stringify] *)

(** A primitive value; a number comes with its text and whether its magnitude
    is below 1e21, and [null], [undefined], [NaN], the infinities, symbols and
    functions are [POther]. *)
Inductive primitive :=
| PString (s : jsstr)
| PNumber (text : jsstr) (below_1e21 : bool)
| PBigint (text : jsstr)
| PBool (b : bool)
| POther.

Definition stringifyPrimitive (v : primitive) : jsstr :=
  match v with
  | PString s => s
  | PNumber text _ | PBigint text => text
  | PBool b => if b then js "true" else js "false"
  | POther => []
  end.

Definition encodeStringifiedCustom (v : primitive) (encode : jsstr -> result jsstr) : result jsstr :=
  encode (stringifyPrimitive v).

Definition encodeStringified (v : primitive) (encode : jsstr -> result jsstr) : result jsstr :=
  match v with
  | PString s => if len s =? 0 then Ok [] else encode s
  | PNumber text small => if small then Ok text else encode text
  | PBigint text => Ok text
  | PBool b => Ok (if b then js "true" else js "false")
  | POther => Ok []
  end.

(** A property of the object: a value or an array of values. *)
Inductive property := PValue (v : primitive) | PArray (l : list primitive).

Section Stringify.
Context (sep eq : jsstr) (encode : jsstr -> result jsstr)
  (convert : primitive -> (jsstr -> result jsstr) -> result jsstr).

(** The loop over the values of an array; [j] tells whether one is out already. *)
Fixpoint stringify_array (ks : jsstr) (l : list primitive) (j : bool) (fields : jsstr) : result jsstr :=
  match l with
  | [] => Ok fields
  | v :: l =>
      let fields := if j then fields ++ sep else fields in
      let! t := convert v encode in
      stringify_array ks l true (fields ++ ks ++ t)
  end.

Fixpoint stringify_loop (obj : list (jsstr * property)) (fields : jsstr) : result jsstr :=
  match obj with
  | [] => Ok fields
  | (k, v) :: obj =>
      let! ks := convert (PString k) encode in
      let ks := ks ++ eq in
      let started := if len fields =? 0 then fields else fields ++ sep in
      match v with
      | PArray [] => stringify_loop obj fields
      | PArray l => let! fields := stringify_array ks l false started in stringify_loop obj fields
      | PValue v => let! t := convert v encode in stringify_loop obj (started ++ ks ++ t)
      end
  end.
End Stringify.

(** [stringify(obj, sep, eq, options)]; [obj] is [None] when it is no object,
    and [options] is [Some] when given, with a function or without. *)
Definition stringify (obj : option (list (jsstr * property))) (sep eq : option jsstr)
    (options : option (option (jsstr -> result jsstr))) : result jsstr :=
  let sep := match sep with Some (x :: t) => x :: t | _ => js "&" end in
  let eq := match eq with Some (x :: t) => x :: t | _ => js "=" end in
  let encode := match options with Some (Some f) => f | _ => qsEscape end in
  let convert := match options with Some _ => encodeStringifiedCustom | None => encodeStringified end in
  match obj with
  | Some obj => stringify_loop sep eq encode convert obj []
  | None => Ok []
  end.

(** ** Percent-encoding is UTF-8 *)

(** What one character becomes, with a table of the ones that stand for
    themselves. *)
Definition escape_with (table : list Z) (c : Z) : jsstr :=
  if (c <? 0x80) && is_code (at_index table c) 1 then [c] else mbind (M := list) percent (utf8 c).

Definition escape_char : Z -> jsstr := escape_with noEscape.

Lemma hex_at_percent b : 0 <= b < 256 -> hex_at hexTable b = percent b.
Proof.
  intros Hb. unfold hex_at, hexTable, at_index. destruct (Z.ltb_spec b 0); [lia|].
  rewrite list_lookup_fmap, lookup_seqZ_lt by lia. cbn. by replace (Z.of_nat (Z.to_nat b)) with b by lia.
Qed.

Lemma lor_pow2 k n a : 0 <= n -> 0 <= a < 2 ^ n -> Z.lor (k * 2 ^ n) a = k * 2 ^ n + a.
Proof.
  intros Hn Ha. assert (E : Z.land (k * 2 ^ n) a = 0).
  { apply Z.bits_inj'. intros i Hi. rewrite Z.land_spec, Z.bits_0. destruct (Z.lt_ge_cases i n).
    - by rewrite Z.mul_pow2_bits_low.
    - rewrite <- (Z.mod_small a (2 ^ n)) by lia. rewrite Z.mod_pow2_bits_high by lia. apply andb_false_r. }
  rewrite <- Z.lxor_lor by done. by rewrite Z.add_nocarry_lxor.
Qed.

Lemma bitor_add k n a :
  0 <= n -> 0 <= a < 2 ^ n -> 0 <= k * 2 ^ n -> k * 2 ^ n + a < 2 ^ 31 -> bitor (k * 2 ^ n) a = k * 2 ^ n + a.
Proof.
  intros Hn Ha Hk Hs. unfold bitor. rewrite !to_int32_small by lia. by apply lor_pow2.
Qed.

Lemma sar_div c n : 0 <= c < 2 ^ 31 -> 0 <= n -> sar c n = c / 2 ^ n.
Proof. intros Hc Hn. unfold sar. rewrite to_int32_small, Z.shiftr_div_pow2 by lia. done. Qed.

Lemma bitand_ones c n : 0 <= c < 2 ^ 31 -> 0 <= n <= 30 -> bitand c (Z.ones n) = c mod 2 ^ n.
Proof.
  intros Hc Hn. unfold bitand. assert (0 <= Z.ones n < 2 ^ 31).
  { rewrite Z.ones_equiv. pose proof (Z.pow_pos_nonneg 2 n). pose proof (Z.pow_lt_mono_r 2 n 31). lia. }
  rewrite !to_int32_small by lia. apply Z.land_ones. lia.
Qed.

(** The continuation byte of [v]. *)
Lemma continuation_byte v : 0 <= v < 2 ^ 31 -> hex_at hexTable (bitor 0x80 (bitand v 0x3f)) = percent (0x80 + v mod 64).
Proof.
  intros Hv. change 0x3f with (Z.ones 6). rewrite bitand_ones by lia. change 0x80 with (2 * 2 ^ 6).
  rewrite bitor_add by (change (2 ^ 6) with 64; div_lia). apply hex_at_percent. change (2 ^ 6) with 64. div_lia.
Qed.

Section Table.
Context (table : list Z).

Lemma escape_2 c :
  0x80 <= c < 0x800 ->
  hex_at hexTable (bitor 0xc0 (sar c 6)) ++ hex_at hexTable (bitor 0x80 (bitand c 0x3f)) = escape_with table c.
Proof.
  intros Hc. rewrite continuation_byte, sar_div by lia. change 0xc0 with (6 * 2 ^ 5). change (2 ^ 6) with 64.
  rewrite bitor_add, hex_at_percent by (change (2 ^ 5) with 32; div_lia). unfold escape_with, utf8.
  destruct (Z.ltb_spec c 0x80); [lia|]. destruct (Z.ltb_spec c 0x800); [|lia]. done.
Qed.

Lemma escape_3 c :
  0x800 <= c < 0x10000 ->
  hex_at hexTable (bitor 0xe0 (sar c 12)) ++ hex_at hexTable (bitor 0x80 (bitand (sar c 6) 0x3f))
  ++ hex_at hexTable (bitor 0x80 (bitand c 0x3f)) = escape_with table c.
Proof.
  intros Hc. rewrite !sar_div, !continuation_byte by (change (2 ^ 6) with 64; div_lia).
  change 0xe0 with (14 * 2 ^ 4). change (2 ^ 6) with 64. change (2 ^ 12) with 4096.
  rewrite bitor_add, hex_at_percent by (change (2 ^ 4) with 16; div_lia). unfold escape_with, utf8.
  destruct (Z.ltb_spec c 0x80); [lia|]. destruct (Z.ltb_spec c 0x800); [lia|].
  by destruct (Z.ltb_spec c 0x10000); [|lia].
Qed.

Lemma escape_4 c :
  0x10000 <= c < 0x110000 ->
  hex_at hexTable (bitor 0xf0 (sar c 18)) ++ hex_at hexTable (bitor 0x80 (bitand (sar c 12) 0x3f))
  ++ hex_at hexTable (bitor 0x80 (bitand (sar c 6) 0x3f)) ++ hex_at hexTable (bitor 0x80 (bitand c 0x3f)) = escape_with table c.
Proof.
  intros Hc. rewrite !sar_div, !continuation_byte by (change (2 ^ 6) with 64; change (2 ^ 12) with 4096; div_lia).
  change 0xf0 with (30 * 2 ^ 3). change (2 ^ 6) with 64. change (2 ^ 12) with 4096. change (2 ^ 18) with 262144.
  rewrite bitor_add, hex_at_percent by (change (2 ^ 3) with 8; div_lia). unfold escape_with, utf8.
  destruct (Z.ltb_spec c 0x80); [lia|]. destruct (Z.ltb_spec c 0x800); [lia|].
  by destruct (Z.ltb_spec c 0x10000); [lia|].
Qed.

(** The value of a surrogate pair, as the code computes it. *)
Lemma surrogate_value c :
  0x10000 <= c < 0x110000 ->
  0x10000 + bitor (shl (bitand (0xD800 + (c - 0x10000) / 1024) 0x3ff) 10) (bitand (0xDC00 + (c - 0x10000) mod 1024) 0x3ff) = c.
Proof.
  intros Hc. change 0x3ff with (Z.ones 10). rewrite !bitand_ones by div_lia. change (2 ^ 10) with 1024.
  set (h := (0xD800 + (c - 0x10000) / 1024) mod 1024). assert (Hh : h = (c - 0x10000) / 1024) by (subst h; div_lia).
  unfold shl. rewrite (to_int32_small h), Z.shiftl_mul_pow2 by div_lia.
  rewrite to_int32_small by (change (2 ^ 10) with 1024; div_lia).
  rewrite bitor_add by (change (2 ^ 10) with 1024; div_lia). change (2 ^ 10) with 1024. div_lia.
Qed.

Lemma slice_empty {A} (l : list A) a : slice l a a = [].
Proof. unfold slice. by rewrite Z.sub_diag, take_0. Qed.

Lemma slice_snoc {A} (p : list A) x t a :
  0 <= a <= len p -> slice (p ++ x :: t) a (len p + 1) = slice (p ++ x :: t) a (len p) ++ [x].
Proof.
  intros Ha. destruct (split_len p a Ha) as (u & v & -> & <-). rewrite <- !app_assoc, len_app.
  pose proof (slice_mid u (v ++ [x]) t) as E1. pose proof (slice_mid u v (x :: t)) as E2.
  rewrite <- app_assoc in E1. cbn [app] in E1. rewrite len_app, Z.add_assoc in E1. change (len [x]) with 1 in E1.
  by rewrite E1, E2.
Qed.

Lemma flushed_text (str out : jsstr) lastPos i :
  0 <= lastPos <= i -> (if lastPos <? i then out ++ slice str lastPos i else out) = out ++ slice str lastPos i.
Proof.
  intros Hl. destruct (Z.ltb_spec lastPos i); [done|]. replace i with lastPos by lia.
  by rewrite slice_empty, app_nil_r.
Qed.

Lemma encode_end_text str lastPos out :
  0 <= lastPos <= len str -> (lastPos = 0 -> out = []) ->
  encode_end str lastPos out = out ++ slice str lastPos (len str).
Proof.
  intros Hl Ho. unfold encode_end. destruct (Z.eqb_spec lastPos 0) as [->|].
  - by rewrite Ho, slice_whole.
  - destruct (Z.ltb_spec lastPos (len str)); [done|]. replace lastPos with (len str) by lia.
    by rewrite slice_empty, app_nil_r.
Qed.

(** One character: either nothing happens, or what was passed and the escaped
    character are put out. *)
Lemma encode_char c pre v fuel lastPos out :
  scalar c -> 0 <= lastPos <= len pre ->
  let str := pre ++ units_of c ++ v in
  let next := len (pre ++ units_of c) in
  encode_loop str table hexTable (S fuel) (len pre) lastPos out
  = if (c <? 0x80) && is_code (at_index table c) 1
    then encode_loop str table hexTable fuel next lastPos out
    else encode_loop str table hexTable fuel next next ((out ++ slice str lastPos (len pre)) ++ escape_with table c).
Proof.
  intros Hc Hl str next. subst str next. unfold scalar in Hc. rewrite len_app.
  unfold units_of. destruct (Z.ltb_spec c 0x10000); cbn [app encode_loop]; unfold charCodeAt; rewrite at_index_mid.
  - change (len [c]) with 1. rewrite flushed_text by lia. destruct (Z.ltb_spec c 0x80) as [Hlt|Hge]; cbn [andb].
    + destruct (is_code (at_index table c) 1) eqn:En; [done|]. rewrite hex_at_percent by lia.
      unfold escape_with, utf8. destruct (Z.ltb_spec c 0x80); [|lia]. rewrite En. cbn [andb].
      by rewrite bind_cons, app_nil_r.
    + destruct (Z.ltb_spec c 0x800); [by rewrite escape_2 by lia|].
      destruct (Z.ltb_spec c 0xd800), (Z.leb_spec 0xe000 c); try lia; cbn [orb]; by rewrite escape_3 by lia.
  - destruct (Z.ltb_spec c 0x80); [lia|]. cbn [andb].
    set (h := 0xD800 + (c - 0x10000) / 1024). set (l := 0xDC00 + (c - 0x10000) mod 1024).
    assert (Hh : 0xD800 <= h < 0xDC00) by (subst h; div_lia).
    destruct (Z.ltb_spec h 0x80); [lia|]. destruct (Z.ltb_spec h 0x800); [lia|].
    destruct (Z.ltb_spec h 0xd800), (Z.leb_spec 0xe000 h); try lia. cbn [orb].
    replace (at_index (pre ++ h :: l :: v) (len pre + 1)) with (Some l).
    2:{ symmetry. rewrite (at_index_at pre (h :: l :: v) 1) by lia. done. }
    rewrite flushed_text by lia. change (len [h; l]) with 2.
    subst h l. rewrite (surrogate_value c) by lia. by rewrite escape_4 by lia.
Qed.

Lemma encode_loop_spec cs fuel pre lastPos out :
  Forall scalar cs -> 0 <= lastPos <= len pre -> (lastPos = 0 -> out = []) -> (length cs <= fuel)%nat ->
  let str := pre ++ mbind (M := list) units_of cs in
  encode_loop str table hexTable fuel (len pre) lastPos out
  = Ok (out ++ slice str lastPos (len pre) ++ mbind (M := list) (escape_with table) cs).
Proof.
  intros Hcs. revert fuel pre lastPos out. induction Hcs as [|c cs Hc Hcs IH]; intros fuel pre lastPos out Hl Ho Hf str.
  - subst str. cbn [mbind list_bind]. rewrite !app_nil_r.
    assert (E : charCodeAt pre (len pre) = None).
    { unfold charCodeAt, at_index. destruct (Z.ltb_spec (len pre) 0); [done|]. apply lookup_ge_None. unfold len. lia. }
    destruct fuel; cbn [encode_loop]; rewrite ?E; by rewrite encode_end_text.
  - subst str. destruct fuel as [|fuel]; [cbn in Hf; lia|]. rewrite bind_cons, encode_char by done. cbv zeta.
    set (v := mbind (M := list) units_of cs). pose proof (len_nonneg pre). rewrite !(app_assoc pre (units_of c) v).
    assert (Hu : 1 <= len (units_of c)) by (unfold units_of; case_match; done).
    destruct ((c <? 0x80) && is_code (at_index table c) 1) eqn:En.
    + assert (Eu : units_of c = [c]) by (unfold units_of; destruct (Z.ltb_spec c 0x10000); [done|lia]).
      unfold v. rewrite IH; [|rewrite len_app; lia|done|cbn in Hf; lia]. rewrite bind_cons.
      unfold escape_with at 2. rewrite En, Eu, len_app. change (len [c]) with 1.
      rewrite <- app_assoc. cbn [app]. rewrite slice_snoc by lia. by rewrite <- app_assoc.
    + pose proof (len_nonneg (pre ++ units_of c)). unfold v. rewrite IH; [|lia|rewrite len_app; lia|cbn in Hf; lia].
      by rewrite slice_empty, bind_cons, <- !app_assoc.
Qed.

Lemma encodeStr_text (s : jsstr) :
  units16 s -> toWellFormed s = s -> encodeStr s table hexTable = Ok (mbind (M := list) (escape_with table) (scalars s)).
Proof.
  intros Hu Hwf. pose proof (scalars_ok s Hu) as Hsc. unfold toWellFormed in Hwf.
  pose proof (encode_loop_spec (scalars s) (length s) [] 0 [] Hsc ltac:(done) ltac:(done)) as E.
  cbn [app] in E. rewrite Hwf in E. unfold encodeStr.
  destruct (Z.eqb_spec (len s) 0) as [->%len_0_nil|]; [done|].
  change (len (@nil Z)) with 0 in E. rewrite slice_empty in E. apply E.
  rewrite <- Hwf at 2. clear. induction (scalars s) as [|c cs IH]; [done|]. rewrite bind_cons, length_app. cbn [length].
  assert (1 <= length (units_of c))%nat by (unfold units_of; case_match; cbn; lia). lia.
Qed.
End Table.

Lemma escape_text (s : jsstr) :
  units16 s -> toWellFormed s = s -> qsEscape s = Ok (mbind (M := list) escape_char (scalars s)).
Proof. apply encodeStr_text. Qed.

(** [escape] percent-encodes a well-formed string character by character:
    letters, digits and [! ' ( ) * - . _ ~] stand for themselves, every other
    character becomes its UTF-8 bytes in hexadecimal, and there is no error. *)
Theorem escape_spec (s : jsstr) :
  units16 s -> toWellFormed s = s ->
  qsEscape s = Ok (mbind (M := list) escape_char (scalars s)).
Proof.
  intros Hu Hw. by apply escape_text.
Qed.

Lemma escape_spec_witness : qsEscape [97; 0x20AC; 0xD83D; 0xDE00; 38] = Ok (js "a%E2%82%AC%F0%9F%98%80%26").
Proof.
  refine (eq_trans (escape_spec [97; 0x20AC; 0xD83D; 0xDE00; 38] _ _) _).
  - unfold units16. repeat (apply Forall_cons; split; [lia|]). constructor.
  - vm_compute. reflexivity.
  - vm_compute. reflexivity.
Defined.

(** ** [unescape] inverts [escape] *)

Lemma parse_upper_hex d : 0 <= d < 16 -> parse_hex (Some (upper_hex d)) = Some d.
Proof.
  intros Hd. assert (H : Forall (fun d => parse_hex (Some (upper_hex d)) = Some d) (seqZ 0 16)) by (vm_compute; repeat constructor).
  rewrite Forall_forall in H. apply H, elem_of_seqZ. lia.
Qed.

Lemma hex2_percent b : is_byte b -> hex2 (upper_hex (b / 16)) (upper_hex (b mod 16)) = Some b.
Proof.
  unfold is_byte. intros Hb. unfold hex2. rewrite !parse_upper_hex by div_lia. cbn [mbind option_bind]. f_equal. div_lia.
Qed.

Lemma uri_decode_char bs st c rest :
  bytes_ok bs -> utf8_char st bs = Some c ->
  uri_decode st (mbind (M := list) percent bs ++ rest) = (r ← uri_decode utf8_start rest; Some (units_of c ++ r)).
Proof.
  intros Hbs. revert st. induction Hbs as [|b bs Hb Hbs IH]; intros st E; [done|].
  rewrite bind_cons, <- app_assoc. cbn [utf8_char] in E. unfold percent at 1. cbn [app uri_decode Z.eqb Pos.eqb].
  rewrite hex2_percent by done. cbn [mbind option_bind]. destruct (remaining st =? 0).
  - destruct (utf8_lead b) as [st' [|o out]]; [|done]. rewrite (IH st' E). destruct (uri_decode utf8_start rest); done.
  - destruct ((lower st <=? b) && (b <=? upper st)); [|done]. destruct (remaining st =? 1).
    + destruct bs; [|done]. by injection E as [= ->].
    + by rewrite (IH _ E).
Qed.

(** A percent sign never stands for itself. *)
Lemma uri_decode_with table c rest :
  is_code (at_index table 37) 1 = false -> scalar c ->
  uri_decode utf8_start (escape_with table c ++ rest) = (r ← uri_decode utf8_start rest; Some (units_of c ++ r)).
Proof.
  intros Ht Hc. unfold escape_with. destruct (Z.ltb_spec c 0x80) as [Hlt|Hge]; cbn [andb].
  - assert (Eu : units_of c = [c]) by (unfold units_of; by destruct (Z.ltb_spec c 0x10000); [|lia]).
    destruct (is_code (at_index table c) 1) eqn:En.
    + rewrite Eu. cbn [app uri_decode]. destruct (Z.eqb_spec c 37) as [->|]; [congruence|]. done.
    + unfold utf8. destruct (Z.ltb_spec c 0x80); [|lia]. rewrite bind_cons. unfold percent, scalar in *.
      cbn [app uri_decode Z.eqb Pos.eqb mbind list_bind]. rewrite hex2_percent by (unfold is_byte; lia).
      cbn [mbind option_bind remaining utf8_start Z.eqb]. unfold utf8_lead. destruct (Z.ltb_spec c 0x80); [|lia].
      rewrite bool_decide_eq_false_2, Eu; [done|]. unfold REPLACEMENT. injection 1. lia.
  - apply uri_decode_char; [by apply utf8_ok|by apply utf8_char_scalar].
Qed.

Lemma uri_decode_table table cs :
  is_code (at_index table 37) 1 = false -> Forall scalar cs ->
  decodeURIComponent (mbind (M := list) (escape_with table) cs) = Some (mbind (M := list) units_of cs).
Proof.
  intros Ht. unfold decodeURIComponent. induction 1 as [|c cs Hc Hcs IH]; [done|]. by rewrite !bind_cons, uri_decode_with, IH.
Qed.

Lemma uri_decode_text cs :
  Forall scalar cs -> decodeURIComponent (mbind (M := list) escape_char cs) = Some (mbind (M := list) units_of cs).
Proof. by apply uri_decode_table. Qed.

(** The text [escape] makes of a string. *)
Definition escaped (s : jsstr) : jsstr := mbind (M := list) escape_char (scalars s).

Definition well_formed (s : jsstr) : Prop := units16 s /\ toWellFormed s = s.

Lemma qsEscape_escaped s : well_formed s -> qsEscape s = Ok (escaped s).
Proof. intros [Hu Hw]. by apply escape_text. Qed.

Lemma qsUnescape_escaped `{!WebText} s : well_formed s -> qsUnescape (escaped s) = Ok s.
Proof.
  intros [Hu Hw]. unfold qsUnescape, escaped. rewrite uri_decode_text by by apply scalars_ok.
  unfold toWellFormed in Hw. by rewrite Hw.
Qed.

(** [unescape(escape(s))] is [s] for every well-formed string [s],
    whatever characters it has. *)
Theorem escape_roundtrip `{!WebText} (s : jsstr) :
  units16 s -> toWellFormed s = s -> exists t, qsEscape s = Ok t /\ qsUnescape t = Ok s.
Proof.
  intros Hu Hw. exists (escaped s). split; [by apply qsEscape_escaped|by apply qsUnescape_escaped].
Qed.

Lemma escape_roundtrip_witness :
  exists t, qsEscape [97; 37; 0x20AC; 0xD83D; 0xDE00; 43] = Ok t /\ @qsUnescape web_text t = Ok [97; 37; 0x20AC; 0xD83D; 0xDE00; 43].
Proof.
  apply (@escape_roundtrip web_text).
  - unfold units16. repeat (apply Forall_cons; split; [lia|]). constructor.
  - vm_compute. reflexivity.
Defined.

(** ** [parse] inverts [stringify] *)

(** Text without separators, signs of addition and broken percent-encoding. *)
Inductive token : jsstr -> Prop :=
| token_nil : token []
| token_char c t : is_code (at_index noEscape c) 1 = true -> token t -> token (c :: t)
| token_byte b t : is_byte b -> token t -> token (percent b ++ t).

Lemma token_app t u : token t -> token u -> token (t ++ u).
Proof. induction 1; intros Hu; [done|by constructor; auto|]. rewrite <- app_assoc. by constructor; auto. Qed.

Lemma token_bytes bs : bytes_ok bs -> token (mbind (M := list) percent bs).
Proof. induction 1; [constructor|]. rewrite bind_cons. by constructor. Qed.

Lemma escaped_token s : units16 s -> token (escaped s).
Proof.
  intros Hs%scalars_ok. unfold escaped. induction Hs as [|c cs Hc _ IH]; [constructor|]. rewrite bind_cons.
  apply token_app; [|done]. unfold escape_char, escape_with. destruct ((c <? 0x80) && is_code (at_index noEscape c) 1) eqn:E.
  - apply andb_prop in E as [_ E]. constructor; [done|constructor].
  - by apply token_bytes, utf8_ok.
Qed.

(** A unit that stands in a token. *)
Definition inner (c : Z) : Prop := c <> 38 /\ c <> 43 /\ c <> 61.

Lemma noEscape_inner c : is_code (at_index noEscape c) 1 = true -> inner c /\ c <> 37.
Proof. intros E. unfold inner. repeat split; intros ->; by vm_compute in E. Qed.

Lemma upper_hex_inner d :
  0 <= d < 16 -> inner (upper_hex d) /\ upper_hex d <> 37 /\ is_hex (upper_hex d) = true.
Proof.
  intros Hd. split; [|split]; [unfold inner| |]; try (unfold upper_hex; destruct (Z.ltb_spec d 10); lia).
  assert (H : Forall (fun d => is_hex (upper_hex d) = true) (seqZ 0 16)) by (vm_compute; repeat constructor).
  rewrite Forall_forall in H. apply H, elem_of_seqZ. lia.
Qed.

(** Without a percent sign the text is the string itself. *)
Lemma escaped_plain s : well_formed s -> 37 ∉ escaped s -> escaped s = s.
Proof.
  intros [_ Hw] Hn. rewrite <- Hw at 2. unfold toWellFormed. unfold escaped in *.
  induction (scalars s) as [|c cs IH]; [done|]. rewrite bind_cons in Hn |- *. rewrite bind_cons.
  apply not_elem_of_app in Hn as [Hc Hcs]. rewrite (IH Hcs). f_equal. unfold escape_char, escape_with, units_of in *.
  destruct ((c <? 0x80) && is_code (at_index noEscape c) 1) eqn:E.
  - destruct (Z.ltb_spec c 0x10000); [done|lia].
  - exfalso. apply Hc. assert (exists b bs, utf8 c = b :: bs) as (b & bs & ->) by (unfold utf8; repeat case_match; eauto).
    rewrite bind_cons. unfold percent. cbn [app]. apply elem_of_cons. by left.
Qed.

(** Decoding as [addKeyVal] does it. *)
Lemma decode_escaped `{!WebText} s (encoded : bool) :
  well_formed s -> (37 ∈ escaped s -> encoded = true) ->
  (if (0 <? len (escaped s)) && encoded then qsUnescape (escaped s) else Ok (escaped s)) = Ok s.
Proof.
  intros Hs He. destruct (decide (37 ∈ escaped s)) as [Hin|Hn].
  - rewrite (He Hin). destruct (Z.ltb_spec 0 (len (escaped s))); [by apply qsUnescape_escaped|].
    pose proof (len_nonneg (escaped s)). assert (E : escaped s = []) by (apply len_0_nil; lia). rewrite E in Hin. by apply elem_of_nil in Hin.
  - pose proof (escaped_plain s Hs Hn) as E. case_match; [by apply qsUnescape_escaped|by rewrite E].
Qed.

(** *** Scanning a token *)

Section Scan.
Context (str : jsstr) (decode : jsstr -> result jsstr).
Let step := parse_step str [38] [61] (js " ") decode.
Let loop := parse_loop str [38] [61] (js " ") decode.

(** The scan of a token changes nothing but the flags. *)
Definition same (st st' : parse_state) : Prop :=
  lastPos st' = lastPos st /\ sepIdx st' = sepIdx st /\ eqIdx st' = eqIdx st /\ ps_key st' = ps_key st
  /\ ps_value st' = ps_value st /\ pairs st' = pairs st /\ ps_obj st' = ps_obj st
  /\ (keyEncoded st = true -> keyEncoded st' = true) /\ (valEncoded st = true -> valEncoded st' = true).

(** The flag of the part the scan is in. *)
Definition flag (st : parse_state) : bool := if eqIdx st =? 0 then keyEncoded st else valEncoded st.

Lemma same_refl st : same st st.
Proof. by repeat split. Qed.

Lemma same_trans a b c : same a b -> same b c -> same a c.
Proof. unfold same. intros H1 H2. destruct_and!. repeat split; try congruence; auto. Qed.

Lemma same_flag a b : same a b -> flag a = true -> flag b = true.
Proof. unfold same, flag. intros H. destruct_and!. replace (eqIdx b) with (eqIdx a) by done. case_match; auto. Qed.

Lemma scan_step st i c :
  sepIdx st = 0 -> eqIdx st = 0 \/ eqIdx st = 1 -> inner c ->
  exists st', step st i c = Ok (inr st') /\ same st st'
    /\ (flag st = false -> c = 37 -> encodeCheck st' = 1)
    /\ (flag st = false -> c <> 37 -> is_hex c = true -> 0 < encodeCheck st ->
        encodeCheck st' = encodeCheck st + 1 /\ (encodeCheck st' = 3 -> flag st' = true)).
Proof.
  intros Hs He (H38 & H43 & H61). destruct st as [lp si ei key value ke ve ec n obj]. cbn in Hs, He. subst si.
  unfold step, parse_step. cbn [sepIdx eqIdx]. change (at_index [38] 0) with (Some 38). cbn [is_code].
  destruct (Z.eqb_spec 38 c); [done|].
  destruct He as [-> | ->]; [change (0 <? len [61]) with true|change (1 <? len [61]) with false]; cbn match.
  - change (at_index [61] 0) with (Some 61). cbn [is_code]. destruct (Z.eqb_spec 61 c); [done|].
    unfold parse_key, parse_value, flag. cbn -[is_hex Z.eqb Z.ltb Z.add].
    destruct (Z.eqb_spec c 43); [done|].
    destruct ke, ve; cbn -[is_hex Z.eqb Z.ltb Z.add]; repeat case_match; simplify_eq;
      (eexists; split; [reflexivity|]; split; [by repeat split|]); cbn; bool_simpl; split; intros; try done; try lia; try congruence.
  - unfold parse_value, flag. cbn -[is_hex Z.eqb Z.ltb Z.add].
    destruct (Z.eqb_spec c 43); [done|].
    destruct ve; cbn -[is_hex Z.eqb Z.ltb Z.add]; repeat case_match; simplify_eq;
      (eexists; split; [reflexivity|]; split; [by repeat split|]); cbn; bool_simpl; split; intros; try done; try lia; try congruence.
Qed.

Lemma scan_unit st i c rest :
  sepIdx st = 0 -> eqIdx st = 0 \/ eqIdx st = 1 -> inner c ->
  exists st', loop (c :: rest) i st = loop rest (i + 1) st' /\ same st st'
    /\ (flag st = false -> c = 37 -> encodeCheck st' = 1)
    /\ (flag st = false -> c <> 37 -> is_hex c = true -> 0 < encodeCheck st ->
        encodeCheck st' = encodeCheck st + 1 /\ (encodeCheck st' = 3 -> flag st' = true)).
Proof.
  intros Hs He Hc. destruct (scan_step st i c Hs He Hc) as (st' & E & H'). exists st'. split; [|done].
  unfold loop. cbn [parse_loop]. fold step loop. by rewrite E.
Qed.

(** A percent-encoded byte sets the flag. *)
Lemma scan_percent st i b rest :
  sepIdx st = 0 -> eqIdx st = 0 \/ eqIdx st = 1 -> is_byte b ->
  exists st', loop (percent b ++ rest) i st = loop rest (i + 3) st' /\ same st st' /\ flag st' = true.
Proof.
  unfold is_byte. intros Hs He Hb. unfold percent. cbn [app].
  destruct (upper_hex_inner (b / 16) ltac:(div_lia)) as (I1 & N1 & X1).
  destruct (upper_hex_inner (b mod 16) ltac:(div_lia)) as (I2 & N2 & X2).
  destruct (scan_unit st i 37 (upper_hex (b / 16) :: upper_hex (b mod 16) :: rest) Hs He) as (s1 & E1 & S1 & C1 & _).
  { by unfold inner. }
  assert (sepIdx s1 = 0 /\ (eqIdx s1 = 0 \/ eqIdx s1 = 1)) as [Hs1 He1].
  { unfold same in S1. destruct_and!. split; [congruence|]. replace (eqIdx s1) with (eqIdx st) by done. done. }
  destruct (scan_unit s1 (i + 1) (upper_hex (b / 16)) (upper_hex (b mod 16) :: rest) Hs1 He1 I1) as (s2 & E2 & S2 & _ & C2).
  assert (sepIdx s2 = 0 /\ (eqIdx s2 = 0 \/ eqIdx s2 = 1)) as [Hs2 He2].
  { unfold same in S2. destruct_and!. split; [congruence|]. replace (eqIdx s2) with (eqIdx s1) by done. done. }
  destruct (scan_unit s2 (i + 1 + 1) (upper_hex (b mod 16)) rest Hs2 He2 I2) as (s3 & E3 & S3 & _ & C3).
  exists s3. split; [rewrite E1, E2, E3; f_equal; lia|]. split; [eauto using same_trans|].
  destruct (flag st) eqn:F0; [eauto using same_flag|]. specialize (C1 eq_refl eq_refl).
  destruct (flag s1) eqn:F1; [eauto using same_flag|]. destruct (C2 eq_refl N1 X1) as [C2' _]; [lia|].
  destruct (flag s2) eqn:F2; [eauto using same_flag|]. destruct (C3 eq_refl N2 X2) as [C3' C3'']; [lia|].
  apply C3''. lia.
Qed.

Lemma scan_token t i st rest :
  token t -> sepIdx st = 0 -> eqIdx st = 0 \/ eqIdx st = 1 ->
  exists st', loop (t ++ rest) i st = loop rest (i + len t) st' /\ same st st' /\ (37 ∈ t -> flag st' = true).
Proof.
  intros Ht. revert i st. induction Ht as [|c t Hc Ht IH|b t Hb Ht IH]; intros i st Hs He.
  - exists st. split; [by rewrite Z.add_0_r|]. split; [apply same_refl|]. by intros ?%elem_of_nil.
  - destruct (noEscape_inner c Hc) as [Hi Hn]. destruct (scan_unit st i c (t ++ rest) Hs He Hi) as (s1 & E1 & S1 & _).
    pose proof S1 as S1'. unfold same in S1'. destruct_and!.
    destruct (IH (i + 1) s1) as (s2 & E2 & S2 & F2); [congruence|by replace (eqIdx s1) with (eqIdx st) by done|].
    exists s2. cbn [app]. rewrite E1, E2, len_cons. split; [f_equal; lia|]. split; [eauto using same_trans|].
    intros [?|Hin]%elem_of_cons; [done|auto].
  - rewrite <- app_assoc. destruct (scan_percent st i b (t ++ rest) Hs He Hb) as (s1 & E1 & S1 & F1).
    pose proof S1 as S1'. unfold same in S1'. destruct_and!.
    destruct (IH (i + 3) s1) as (s2 & E2 & S2 & F2); [congruence|by replace (eqIdx s1) with (eqIdx st) by done|].
    exists s2. rewrite E1, E2, len_app. change (len (percent b)) with 3. split; [f_equal; lia|].
    split; [eauto using same_trans|]. intros _. eauto using same_flag.
Qed.
End Scan.

(** *** Pairs *)

(** The text of pairs, the first one without a separator. *)
Definition pair_text (p : jsstr * jsstr) : jsstr := escaped p.1 ++ 61 :: escaped p.2.

Fixpoint query_text (l : list (jsstr * jsstr)) : jsstr :=
  match l with
  | [] => []
  | [p] => pair_text p
  | p :: l => pair_text p ++ 38 :: query_text l
  end.

Definition add_pair (obj : query) (p : jsstr * jsstr) : query := add_value obj p.1 p.2.

Section Pairs.
Context `{!WebText}.
Context (str : jsstr).
Let loop := parse_loop str [38] [61] (js " ") qsUnescape.

Lemma scan_pair pre kt vt post ke ve ec n obj :
  str = pre ++ kt ++ 61 :: vt ++ post -> token kt -> token vt ->
  exists ke' ve' ec',
    loop (kt ++ 61 :: vt ++ post) (len pre) (PS (len pre) 0 0 [] [] ke ve ec n obj)
    = loop post (len pre + len kt + 1 + len vt) (PS (len pre + len kt + 1) 0 1 kt [] ke' ve' ec' n obj)
    /\ (37 ∈ kt -> ke' = true) /\ (37 ∈ vt -> ve' = true).
Proof.
  intros Hstr Hk Hv. pose proof (len_nonneg kt). pose proof (len_nonneg pre).
  assert (Es : slice str (len pre) (len pre + len kt) = kt) by (rewrite Hstr; apply slice_mid). clear Hstr.
  destruct (scan_token str qsUnescape kt (len pre) (PS (len pre) 0 0 [] [] ke ve ec n obj) (61 :: vt ++ post) Hk)
    as ([lp1 si1 ei1 k1 v1 ke1 ve1 ec1 n1 obj1] & E1 & S1 & F1); [done|by left|].
  unfold same, flag in *. cbn in S1, F1. destruct_and!. subst. cbn in F1.
  set (s1 := PS (len pre + len kt + 1) 0 1 kt [] ke1 ve1 0 n obj).
  destruct (scan_token str qsUnescape vt (len pre + len kt + 1) s1 post Hv)
    as ([lp2 si2 ei2 k2 v2 ke2 ve2 ec2 n2 obj2] & E2 & S2 & F2); [done|by right|].
  unfold same, flag in *. cbn in S2, F2. destruct_and!. subst. cbn in F2.
  exists ke2, ve2, ec2. split; [|split]; [|auto|done]. unfold loop. rewrite E1. cbn [parse_loop].
  unfold parse_step at 1. cbn -[parse_loop slice len Z.add Z.sub Z.ltb].
  change (0 <? len [61]) with true. change (0 + 1 =? len [61]) with true. cbn match.
  change (len [61]) with 1. rewrite Z.sub_add.
  pose proof (flushed_text str [] (len pre) (len pre + len kt) ltac:(lia)) as Ef. cbn [app] in Ef. rewrite Ef, Es.
  fold s1. exact E2.
Qed.

(** What the end of a pair adds. *)
Lemma add_escaped obj k v ke ve :
  well_formed k -> well_formed v -> (37 ∈ escaped k -> ke = true) -> (37 ∈ escaped v -> ve = true) ->
  addKeyVal obj (escaped k) (escaped v) ke ve qsUnescape = Ok (add_pair obj (k, v)).
Proof. intros Hk Hv Fk Fv. unfold addKeyVal. by rewrite !decode_escaped by done. Qed.

Definition well_formed_pair (p : jsstr * jsstr) : Prop := well_formed p.1 /\ well_formed p.2.

(** The end of the string, and a separator, after the text of a pair. *)
Lemma end_pair p k v ke ve ec n obj :
  0 <= p -> slice str p (p + len (escaped v)) = escaped v -> len str = p + len (escaped v) ->
  well_formed_pair (k, v) -> (37 ∈ escaped k -> ke = true) -> (37 ∈ escaped v -> ve = true) ->
  parse_end str [38] [61] qsUnescape (PS p 0 1 (escaped k) [] ke ve ec n obj) = Ok (add_pair obj (k, v)).
Proof.
  intros Hp Es El [Hk Hv] Fk Fv. unfold parse_end. cbn -[add_pair slice_from len Z.ltb escaped].
  change (1 <? len [61]) with false. change (0 <? len [38]) with true. cbn match. unfold slice_from. rewrite El, Es.
  destruct (Z.ltb_spec p (p + len (escaped v))); [by apply add_escaped|].
  pose proof (len_nonneg (escaped v)). assert (E : escaped v = []) by (apply len_0_nil; lia).
  rewrite <- E. by apply add_escaped.
Qed.

Lemma sep_pair p k v ke ve ec n obj :
  slice str p (p + len (escaped v)) = escaped v ->
  well_formed_pair (k, v) -> (37 ∈ escaped k -> ke = true) -> (37 ∈ escaped v -> ve = true) -> n <> 1 ->
  parse_step str [38] [61] (js " ") qsUnescape (PS p 0 1 (escaped k) [] ke ve ec n obj) (p + len (escaped v)) 38
  = Ok (inr (PS (p + len (escaped v) + 1) 0 0 [] [] ke ve 0 (n - 1) (add_pair obj (k, v)))).
Proof.
  intros Es [Hk Hv] Fk Fv Hn. pose proof (len_nonneg (escaped v)).
  unfold parse_step. cbn -[parse_sep len escaped Z.add]. change (0 + 1 =? len [38]) with true. cbn match.
  unfold parse_sep. cbn -[parse_pair len escaped Z.add Z.sub Z.ltb slice]. change (1 <? len [61]) with false. cbn match.
  change (len [38]) with 1. rewrite Z.sub_add, Es.
  assert (E : forall x, (if p <? p + len (escaped v) then x (escaped v) else x []) = x (escaped v)
              :> result (query + parse_state)).
  { intros x. destruct (Z.ltb_spec p (p + len (escaped v))); [done|]. f_equal. symmetry. apply len_0_nil. lia. }
  rewrite (E (fun v => parse_pair qsUnescape _ _ _ v)). unfold parse_pair. cbn [ps_obj keyEncoded valEncoded pairs].
  rewrite add_escaped by done. cbn [rbind]. by destruct (Z.eqb_spec (n - 1) 0); [lia|].
Qed.

Lemma parse_pairs l pre ke ve ec n obj :
  l <> [] -> Forall well_formed_pair l -> str = pre ++ query_text l -> n < 0 \/ len l <= n ->
  (let! r := loop (query_text l) (len pre) (PS (len pre) 0 0 [] [] ke ve ec n obj) in
   match r with
   | inl obj => Ok obj
   | inr st => parse_end str [38] [61] qsUnescape st
   end) = Ok (foldl add_pair obj l).
Proof.
  intros Hl Hwf. revert pre ke ve ec n obj Hl. induction Hwf as [|[k v] l Hkv Hwf IH]; intros pre ke ve ec n obj Hl Hstr Hn; [done|].
  clear Hl. pose proof (len_nonneg pre). pose proof (len_nonneg (escaped k)).
  assert (exists post, query_text ((k, v) :: l) = escaped k ++ 61 :: escaped v ++ post
            /\ post = match l with [] => [] | _ => 38 :: query_text l end) as (post & Et & Ep).
  { eexists. split; [|reflexivity]. unfold query_text, pair_text. fold query_text. cbn [fst snd].
    destruct l; rewrite ?app_nil_r; [done|]. by rewrite <- app_assoc. }
  rewrite Et in Hstr |- *.
  destruct (scan_pair pre _ _ post ke ve ec n obj Hstr (escaped_token k (proj1 (proj1 Hkv))) (escaped_token v (proj1 (proj2 Hkv))))
    as (ke' & ve' & ec' & E & Fk & Fv).
  rewrite E. clear E. set (p := len pre + len (escaped k) + 1).
  set (front := pre ++ escaped k ++ [61]). assert (Ef : len front = p) by (unfold front; rewrite !len_app; unfold p; change (len [61]) with 1; lia).
  replace (pre ++ escaped k ++ 61 :: escaped v ++ post) with (front ++ escaped v ++ post) in Hstr
    by (unfold front; by rewrite <- !app_assoc).
  assert (Es : slice str p (p + len (escaped v)) = escaped v) by (rewrite Hstr, <- Ef; apply slice_mid).
  destruct l as [|q l]; subst post.
  - cbn [rbind loop parse_loop foldl]. apply end_pair; try done; [lia|]. by rewrite Hstr, !len_app, Z.add_0_r, Ef.
  - unfold loop at 1. cbn [parse_loop]. fold loop. rewrite len_cons in Hn. pose proof (len_nonneg l). rewrite len_cons in Hn.
    rewrite sep_pair by (done || lia). cbn [rbind foldl].
    pose proof (IH (front ++ escaped v ++ [38]) ke' ve' 0 (n - 1) (add_pair obj (k, v))) as IH'.
    rewrite !len_app, Ef, Z.add_assoc in IH'. change (len [38]) with 1 in IH'.
    apply IH'; [done| |rewrite len_cons; lia]. by rewrite Hstr, <- !app_assoc.
Qed.
End Pairs.

(** *** Objects *)

(** The pairs of an object, one for each value of an array. *)
Definition flatten (obj : query) : list (jsstr * jsstr) :=
  mbind (M := list) (fun '(k, v) => match v with QString s => [(k, s)] | QArray l => pair k <$> l end) obj.

(** What is left of a value in the text: an empty array is nothing, an array of
    one string is that string. *)
Definition collapse (p : jsstr * query_value) : option (jsstr * query_value) :=
  match p with
  | (k, QArray []) => None
  | (k, QArray [s]) => Some (k, QString s)
  | p => Some p
  end.

Definition as_property (v : query_value) : property :=
  match v with QString s => PValue (PString s) | QArray l => PArray (PString <$> l) end.

Definition as_object (obj : query) : list (jsstr * property) := prod_map id as_property <$> obj.

(** The text with the pairs added one by one. *)
Definition append_pair (fields : jsstr) (p : jsstr * jsstr) : jsstr :=
  (if len fields =? 0 then fields else fields ++ [38]) ++ pair_text p.

Lemma append_pair_len fields p : (len (append_pair fields p) =? 0) = false.
Proof.
  apply Z.eqb_neq. unfold append_pair, pair_text. rewrite !len_app, len_cons.
  pose proof (len_nonneg (escaped p.1)). pose proof (len_nonneg (escaped p.2)).
  pose proof (len_nonneg (if len fields =? 0 then fields else fields ++ [38])). lia.
Qed.

Lemma append_pairs_sep l fields :
  (len fields =? 0) = false ->
  foldl append_pair fields l = fields ++ match l with [] => [] | _ => 38 :: query_text l end.
Proof.
  revert fields. induction l as [|p l IH]; intros fields Hf; [by rewrite app_nil_r|]. cbn [foldl].
  rewrite IH by apply append_pair_len. unfold append_pair. rewrite Hf, <- !app_assoc. cbn [app query_text].
  by destruct l; rewrite ?app_nil_r.
Qed.

Lemma append_pairs_text l : foldl append_pair [] l = query_text l.
Proof.
  destruct l as [|p l]; [done|]. cbn [foldl]. rewrite append_pairs_sep by apply append_pair_len.
  unfold append_pair. cbn [len length Z.of_nat Z.eqb app query_text]. by destruct l; rewrite ?app_nil_r.
Qed.

Lemma encodeStringified_escaped s : well_formed s -> encodeStringified (PString s) qsEscape = Ok (escaped s).
Proof.
  intros Hs. cbn. destruct (Z.eqb_spec (len s) 0) as [->%len_0_nil|]; [done|]. by apply qsEscape_escaped.
Qed.

Lemma stringify_array_text k l fields :
  Forall well_formed l -> (len fields =? 0) = false ->
  stringify_array (js "&") qsEscape encodeStringified (escaped k ++ js "=") (PString <$> l) true fields
  = Ok (foldl append_pair fields (pair k <$> l)).
Proof.
  intros Hl. revert fields. induction Hl as [|v l Hv Hl IH]; intros fields Hf; [done|].
  cbn [fmap list_fmap foldl stringify_array]. rewrite encodeStringified_escaped by done. cbn [rbind].
  replace ((fields ++ js "&") ++ (escaped k ++ js "=") ++ escaped v) with (append_pair fields (k, v)).
  { apply IH, append_pair_len. }
  unfold append_pair, pair_text. rewrite Hf. by rewrite <- !app_assoc.
Qed.

Definition well_formed_entry (p : jsstr * query_value) : Prop :=
  well_formed p.1 /\ match p.2 with QString s => well_formed s | QArray l => Forall well_formed l end.

Lemma stringify_text obj fields :
  Forall well_formed_entry obj ->
  stringify_loop (js "&") (js "=") qsEscape encodeStringified (as_object obj) fields
  = Ok (foldl append_pair fields (flatten obj)).
Proof.
  intros Hobj. revert fields. induction Hobj as [|[k v] obj [Hk Hv] Hobj IH]; intros fields; [done|].
  unfold flatten. rewrite bind_cons, foldl_app. unfold as_object. cbn [fmap list_fmap prod_map stringify_loop fst snd id] in *.
  rewrite encodeStringified_escaped by done. cbn [rbind].
  destruct v as [s|[|s l]]; cbn [as_property fmap list_fmap].
  - rewrite encodeStringified_escaped by done. cbn [rbind foldl]. rewrite <- !app_assoc. apply IH.
  - apply IH.
  - apply Forall_cons in Hv as [Hs Hl]. cbn [stringify_array]. rewrite encodeStringified_escaped by done. cbn [rbind].
    rewrite <- app_assoc. change (js "=" ++ escaped s) with (61 :: escaped s).
    change (stringify_array _ _ _ _ _ true _) with (stringify_array (js "&") qsEscape encodeStringified (escaped k ++ js "=") (PString <$> l) true (append_pair fields (k, s))).
    rewrite stringify_array_text by (done || apply append_pair_len). cbn [rbind foldl]. apply IH.
Qed.

Lemma add_value_skip o r k v : k ∉ o.*1 -> add_value (o ++ r) k v = o ++ add_value r k v.
Proof.
  induction o as [|[k' v'] o IH]; intros Hk; [done|]. apply not_elem_of_cons in Hk as [Hne Hk]. cbn [app add_value].
  unfold str_eqb. rewrite bool_decide_eq_false_2 by done. by rewrite IH.
Qed.

Lemma add_values_array o k l l' :
  k ∉ o.*1 -> foldl add_pair (o ++ [(k, QArray l)]) (pair k <$> l') = o ++ [(k, QArray (l ++ l'))].
Proof.
  intros Hk. revert l. induction l' as [|v l' IH]; intros l; [by rewrite app_nil_r|]. cbn [fmap list_fmap foldl].
  unfold add_pair at 2. cbn [fst snd]. rewrite add_value_skip by done. cbn [add_value]. rewrite str_eqb_refl, IH.
  by rewrite <- app_assoc.
Qed.

Lemma add_values o k v :
  k ∉ o.*1 -> foldl add_pair o (flatten [(k, v)]) = o ++ omap collapse [(k, v)].
Proof.
  intros Hk. unfold flatten. rewrite bind_cons, app_nil_r.
  assert (E : forall s, add_pair o (k, s) = o ++ [(k, QString s)]).
  { intros s. unfold add_pair. cbn [fst snd]. rewrite <- (app_nil_r o) at 1. by rewrite add_value_skip. }
  destruct v as [s|[|s [|s' l]]]; cbn [fmap list_fmap foldl]; rewrite ?E; [done|by rewrite app_nil_r|done|].
  unfold add_pair at 2. cbn [fst snd]. rewrite add_value_skip by done. cbn [add_value]. rewrite str_eqb_refl.
  by rewrite add_values_array.
Qed.

Lemma collapse_keys obj k : k ∉ obj.*1 -> k ∉ (omap collapse obj).*1.
Proof.
  induction obj as [|[k' v] obj IH]; intros Hk; [done|]. apply not_elem_of_cons in Hk as [Hne Hk].
  destruct v as [s|[|s [|s' l]]]; cbn; rewrite ?not_elem_of_cons; auto.
Qed.

Lemma add_object o obj :
  NoDup (o.*1 ++ obj.*1) -> foldl add_pair o (flatten obj) = o ++ omap collapse obj.
Proof.
  revert o. induction obj as [|[k v] obj IH]; intros o Hnd; [by rewrite app_nil_r|].
  change ((k, v) :: obj) with ([(k, v)] ++ obj). unfold flatten. rewrite bind_app, foldl_app. fold (flatten [(k, v)]) (flatten obj).
  cbn [app fmap list_fmap fst] in Hnd. apply NoDup_app in Hnd as (Ho & Hd & [Hk Hn]%NoDup_cons).
  assert (Hko : k ∉ o.*1) by (intros Hin; apply (Hd k Hin); by left).
  rewrite add_values, IH, omap_app, app_assoc; [done| |done].
  rewrite fmap_app, <- app_assoc. apply NoDup_app. split; [done|]. split.
  - intros x Hx Hin. apply (Hd x Hx). apply elem_of_cons. apply elem_of_app in Hin as [Hin|Hin]; [left|by right].
    destruct v as [s|[|s [|s' l]]]; cbn in Hin; first [by apply elem_of_nil in Hin | by apply list_elem_of_singleton in Hin].
  - destruct v as [s|[|s [|s' l]]]; cbn; [by constructor|done|by constructor|by constructor].
Qed.

(** C33: [parse] inverts [stringify]: for an object with distinct keys whose
    values are strings or arrays of strings, all well-formed, and at most as
    many values as [maxKeys] allows (a thousand without the option), parsing
    the text gives the object back, except that an empty array is lost and an
    array of one string comes back as the string. *)
Theorem parse_stringify `{!WebText} (obj : query) (maxKeys : option Z) :
  NoDup obj.*1 -> Forall well_formed_entry obj ->
  match maxKeys with Some m => 0 < m -> len (flatten obj) <= m | None => len (flatten obj) <= 1000 end ->
  exists t, stringify (Some (as_object obj)) None None None = Ok t
    /\ parse (JString t) None None None maxKeys = Ok (omap collapse obj).
Proof.
  intros Hnd Hobj Hmax. exists (query_text (flatten obj)). split.
  { unfold stringify. rewrite stringify_text by done. by rewrite append_pairs_text. }
  pose proof (add_object [] obj Hnd) as Eo. cbn [app] in Eo. rewrite <- Eo.
  assert (Hwf : Forall well_formed_pair (flatten obj)).
  { clear -Hobj. unfold flatten. apply Forall_bind. eapply Forall_impl; [exact Hobj|]. intros [k [s|l]] [Hk Hv].
    - apply Forall_singleton. by split.
    - apply Forall_fmap. eapply Forall_impl; [exact Hv|]. intros s Hs. by split. }
  destruct (decide (flatten obj = [])) as [->|Hne]; [done|].
  assert (exists c s, query_text (flatten obj) = c :: s) as (c & s & Et).
  { destruct (flatten obj) as [|[k v] l]; [done|]. unfold query_text, pair_text. cbn [fst snd].
    destruct (escaped k), l; cbn; eauto. }
  set (n := match maxKeys with Some m => if 0 <? m then m else -1 | None => 1000 end).
  pose proof (parse_pairs (query_text (flatten obj)) (flatten obj) [] false false 0 n [] Hne Hwf eq_refl) as Ep.
  change (len (@nil Z)) with 0 in Ep. unfold parse. rewrite Et in Ep |- *. cbv zeta. rewrite bool_decide_eq_false_2 by (by intros []).
  apply Ep. subst n. destruct maxKeys as [m|]; [|by right]. destruct (Z.ltb_spec 0 m); [right; auto|by left].
Qed.

(** Well-formedness of a concrete string. *)
Ltac concrete_text :=
  split; [unfold units16; apply (bool_decide_unpack _); vm_compute; exact I|vm_compute; reflexivity].

Lemma parse_stringify_witness :
  exists t, stringify (Some (as_object [(js "a b", QArray [js "1&2"; js "="]); (js "c", QString (js "+"))])) None None None = Ok t
    /\ @parse web_text (JString t) None None None (Some 3)
       = Ok [(js "a b", QArray [js "1&2"; js "="]); (js "c", QString (js "+"))].
Proof.
  apply (@parse_stringify web_text [(js "a b", QArray [js "1&2"; js "="]); (js "c", QString (js "+"))] (Some 3)).
  - apply NoDup_cons. split; [|apply NoDup_singleton]. intros Hin%list_elem_of_singleton. discriminate Hin.
  - apply Forall_cons. split; [split; cbn [fst snd]; [concrete_text|]|].
    + apply Forall_cons. split; [concrete_text|]. apply Forall_singleton. concrete_text.
    + apply Forall_singleton. split; cbn [fst snd]; concrete_text.
  - intros _. vm_compute. discriminate.
Defined.

(** The flags are not reset after a pair: whether a value that cannot be
    decoded keeps its text depends on the pairs before it. *)
Example parse_flags_leak :
  @parse web_text (JString (js "b=%zz" ++ [0x20AC])) None None None None
  = Ok [(js "b", QString (js "%zz" ++ [0x20AC]))]
  /\ @parse web_text (JString (js "a=%41&b=%zz" ++ [0x20AC])) None None None None
     = Ok [(js "a", QString (js "A")); (js "b", QString (js "%zz" ++ [0xFFFD]))].
Proof. by vm_compute. Qed.
