(* ===== verification/Idna.v ===== *)
(** * Domain names: internal/idna.ts, punycode.ts and ops/idna.rs

    The conversion between code units and code points, and the mapping of the
    labels of a domain.  Parameters are the functions of the crate [idna] and
    Rust's [to_lowercase] on text that is not ASCII; [PunycodeOk] is what RFC
    3492 says of the encoding of a label.  A Rust string is the list of its code
    points. *)

From S2P Require Import Prelude PathUtil Bytes Codecs WebText Querystring.

(** ** UCS-2 *)

Fixpoint ucs2decode (str : jsstr) : list Z :=
  match str with
  | [] => []
  | value :: rest =>
      if (0xD800 <=? value) && (value <=? 0xDBFF) then
        match rest with
        | extra :: rest' =>
            if bitand extra 0xFC00 =? 0xDC00
            then shl (bitand value 0x3FF) 10 + bitand extra 0x3FF + 0x10000 :: ucs2decode rest'
            else value :: ucs2decode rest
        | [] => [value]
        end
      else value :: ucs2decode rest
  end.

Definition INVALID_CODE_POINT : jserr := RangeError "Invalid code point".

(** [String.fromCodePoint]. *)
Fixpoint ucs2encode (array : list Z) : result jsstr :=
  match array with
  | [] => Ok []
  | c :: array =>
      if (0 <=? c) && (c <=? 0x10FFFF) then let! s := ucs2encode array in Ok (units_of c ++ s) else Throw INVALID_CODE_POINT
  end.

(** ** Domains *)

(** Rust's [str::is_ascii]. *)
Definition is_ascii (s : list Z) : bool := forallb (fun c => c <? 128) s.

Definition PUNY_PREFIX : list Z := js "xn--".
Definition invalid_input_err : jserr := RangeError "Invalid input".
Definition not_basic_err : jserr := RangeError "Illegal input >= 0x80 (not a basic code point)".
Definition too_long_err : jserr := Error "Input would take more than 63 characters to encode".

(** Each label of a list by the function, joined with dots. *)
Fixpoint map_labels (f : list Z -> result (list Z)) (labels : list (list Z)) : result (list Z) :=
  match labels with
  | [] => Ok []
  | [l] => f l
  | l :: labels => let! a := f l in let! r := map_labels f labels in Ok (a ++ js "." ++ r)
  end.

Definition map_domain (domain : list Z) (f : list Z -> result (list Z)) : result (list Z) :=
  match split 64 domain with
  | local :: remaining :: _ => let! r := map_labels f (split 46 remaining) in Ok (local ++ js "@" ++ r)
  | _ => map_labels f (split 46 domain)
  end.

(** The crate [idna], and [to_lowercase]. *)
Class IdnaCrate := {
  encode_str : list Z -> option (list Z);
  decode_to_string : list Z -> option (list Z);
  to_lowercase : list Z -> list Z;
  domain_to_ascii : list Z -> result (list Z);
  domain_to_unicode : list Z -> list Z
}.

Section Ops.
Context `{!IdnaCrate}.

Definition ascii_label (label : list Z) : result (list Z) :=
  if is_ascii label then Ok label
  else match encode_str label with Some encoded => Ok (PUNY_PREFIX ++ encoded) | None => Throw too_long_err end.

Definition to_ascii (input : list Z) : result (list Z) := if is_ascii input then Ok input else map_domain input ascii_label.

Definition unicode_label (s : list Z) : result (list Z) :=
  if is_prefix PUNY_PREFIX s
  then match decode_to_string (to_lowercase (slice_from s 4)) with Some t => Ok t | None => Throw invalid_input_err end
  else Ok s.

Definition to_unicode (input : list Z) : result (list Z) := map_domain input unicode_label.

(** The text before the last dash, or none. *)
Definition before_last_dash (domain : list Z) : list Z := slice domain 0 (Z.max 0 (lastIndexOf domain (js "-"))).

Definition op_node_idna_punycode_decode (domain : list Z) : result (list Z) :=
  if len domain =? 0 then Ok domain
  else if negb (is_ascii (before_last_dash domain)) then Throw not_basic_err
  else match decode_to_string domain with Some t => Ok t | None => Throw invalid_input_err end.

Definition op_node_idna_punycode_encode (domain : list Z) : list Z := default [] (encode_str domain).

(** [domainToASCII] and [domainToUnicode] of internal/idna.ts, with the
    conversion of their strings. *)
Definition op_node_idna_domain_to_ascii (domain : jsstr) : result jsstr :=
  let! r := domain_to_ascii (scalars domain) in Ok (mbind (M := list) units_of r).
Definition op_node_idna_domain_to_unicode (domain : jsstr) : jsstr :=
  mbind (M := list) units_of (domain_to_unicode (scalars domain)).
End Ops.

(** ** Proofs *)

Lemma low_surrogate c : 0 <= c < 2 ^ 16 -> (bitand c 0xFC00 =? 0xDC00) = is_low c.
Proof.
  intros Hc. unfold bitand. rewrite !to_int32_small by lia.
  change 0xFC00 with (Z.ldiff (Z.ones 16) (Z.ones 10)).
  rewrite Z.ldiff_land, Z.land_assoc, Z.land_ones, Z.mod_small, <- Z.ldiff_land, Z.ldiff_ones_r by lia.
  rewrite Z.shiftl_mul_pow2, Z.shiftr_div_pow2 by lia. unfold is_low. apply eq_true_iff_eq.
  rewrite andb_true_iff, Z.eqb_eq, Z.leb_le, Z.ltb_lt. div_lia.
Qed.

Lemma surrogate_pair h l :
  0xD800 <= h <= 0xDBFF -> 0xDC00 <= l < 0xE000 ->
  exists c, c = shl (bitand h 0x3FF) 10 + bitand l 0x3FF + 0x10000 /\ 0x10000 <= c <= 0x10FFFF /\ units_of c = [h; l].
Proof.
  intros Hh Hl. eexists. split; [reflexivity|].
  change 0x3FF with (Z.ones 10). rewrite !bitand_ones by lia.
  assert (Hs : shl (h mod 2 ^ 10) 10 = (h mod 2 ^ 10) * 1024).
  { assert (0 <= h mod 2 ^ 10 < 1024) by (apply Z.mod_pos_bound; lia).
    unfold shl. rewrite (to_int32_small (h mod 2 ^ 10)), Z.shiftl_mul_pow2, to_int32_small; lia. }
  assert (Hh' : h mod 2 ^ 10 = h - 0xD800) by div_lia. assert (Hl' : l mod 2 ^ 10 = l - 0xDC00) by div_lia.
  rewrite Hs, Hh', Hl'. split; [lia|]. unfold units_of. rewrite (proj2 (Z.ltb_ge _ 0x10000)) by lia.
  f_equal; [|f_equal]; div_lia.
Qed.

Lemma ucs2_spec (n : nat) (s : jsstr) : (length s <= n)%nat -> units16 s -> ucs2encode (ucs2decode s) = Ok s.
Proof.
  revert s. induction n as [|n IH]; intros [|h s] Hn Hs; simpl in Hn; try done; [lia|].
  inversion Hs as [|? ? Hh Hs']; subst. cbn [ucs2decode].
  assert (Hone : ucs2encode (h :: ucs2decode s) = Ok (h :: s)).
  { cbn [ucs2encode]. rewrite IH by (done || lia). cbn [rbind]. unfold units_of.
    rewrite (proj2 (Z.ltb_lt h 0x10000)) by lia. by rewrite andb_true_intro by (split; lia). }
  destruct ((0xD800 <=? h) && (h <=? 0xDBFF)) eqn:Eh; [|done].
  destruct s as [|l s]; [done|]. inversion Hs' as [|? ? Hl Hs'']; subst.
  rewrite low_surrogate by lia. destruct (is_low l) eqn:El; [|done].
  unfold is_low in El. destruct (surrogate_pair h l) as (c & <- & Hc & Hu); [lia|lia|]. simpl in Hn.
  cbn [ucs2encode]. rewrite IH by (done || lia). cbn [rbind]. rewrite Hu. by rewrite andb_true_intro by (split; lia).
Qed.

(** [ucs2.encode] undoes [ucs2.decode] on every string, also where a surrogate
    has no partner, and no code point is out of range. *)
Theorem ucs2_roundtrip (s : jsstr) : units16 s -> ucs2encode (ucs2decode s) = Ok s.
Proof. by apply (ucs2_spec (length s)). Qed.

Lemma ucs2_roundtrip_witness : ucs2encode (ucs2decode [97; 0xD83D; 0xDE00; 0xD83D; 98; 0xDE00]) = Ok [97; 0xD83D; 0xDE00; 0xD83D; 98; 0xDE00].
Proof. apply ucs2_roundtrip. unfold units16. repeat constructor; lia. Defined.

(** What the standard says of a label's encoding: it can be decoded, and it has
    the basic code points of the label, lower-case letters, digits and dashes. *)
Class PunycodeOk `{!IdnaCrate} : Prop := {
  decode_encode_str l e : encode_str l = Some e -> decode_to_string e = Some l;
  encode_str_codes l e :
    encode_str l = Some e -> Forall (fun c => c ∈ l /\ 0 <= c < 128 \/ 97 <= c <= 122 \/ 48 <= c <= 57 \/ c = 45) e;
  to_lowercase_ascii s : ascii s -> to_lowercase s = ascii_lower <$> s
}.

(** The labels of a domain. *)
Definition labels (domain : list Z) : list (list Z) :=
  match split 64 domain with _ :: remaining :: _ => split 46 remaining | _ => split 46 domain end.

(** A label that keeps its case and is not encoded already. *)
Definition plain_label (l : list Z) : Prop :=
  is_prefix PUNY_PREFIX l = false /\ (is_ascii l = false -> Forall (fun c => ~ 65 <= c <= 90) l).

Lemma map_labels_join f ls ls' : Forall2 (fun l l' => f l = Ok l') ls ls' -> map_labels f ls = Ok (join_with (js ".") ls').
Proof.
  induction 1 as [|l l' ls ls' H Hs IH]; [done|]. destruct Hs as [|m m' ls ls' Hm Hs]; [done|].
  change (map_labels f (l :: m :: ls)) with (let! a := f l in let! r := map_labels f (m :: ls) in Ok (a ++ js "." ++ r)).
  rewrite H, IH. done.
Qed.

Lemma elem_of_join c sep ls : c ∈ join_with sep ls -> c ∈ sep \/ exists l, l ∈ ls /\ c ∈ l.
Proof.
  induction ls as [|l ls IH]; [by intros ?%elem_of_nil|]. destruct ls as [|m ls]; [intros H; right; exists l; by split; [left|]|].
  rewrite join_cons by done. rewrite !elem_of_app. intros [H|[H|H]]; [right; exists l; by split; [left|]|by left|].
  destruct (IH H) as [?|(x & Hx & Hc)]; [by left|]. right. exists x. by split; [right|].
Qed.

Lemma elem_of_join_2 c sep ls l : l ∈ ls -> c ∈ l -> c ∈ join_with sep ls.
Proof.
  induction ls as [|m ls IH]; [by intros ?%elem_of_nil|]. intros [->|Hl]%elem_of_cons Hc.
  - destruct ls; [done|]. rewrite join_cons by done. rewrite !elem_of_app. by left.
  - destruct ls; [by apply elem_of_nil in Hl|]. rewrite join_cons by done. rewrite !elem_of_app. right. right. by apply IH.
Qed.

(** A domain is its labels, after the local part of an address. *)
Lemma domain_cases d :
  (length (split 64 d) <= 2)%nat ->
  exists pre, d = pre ++ join_with (js ".") (labels d) /\ Forall (fun l : list Z => (46 ∉ l) /\ (64 ∉ l)) (labels d) /\ labels d <> []
    /\ (forall f, map_domain d f = (let! r := map_labels f (labels d) in Ok (pre ++ r)))
    /\ (forall f r, 64 ∉ r -> map_domain (pre ++ r) f = (let! r := map_labels f (split 46 r) in Ok (pre ++ r))).
Proof.
  intros Hat. pose proof (join_split_code 64 d) as Hj. pose proof (split_free 64 d) as Hf.
  assert (Hsub : forall s : list Z, 64 ∉ s -> Forall (fun l : list Z => (46 ∉ l) /\ (64 ∉ l)) (split 46 s)).
  { intros s Hs. apply Forall_forall. intros l Hl. pose proof (split_free 46 s) as H46. rewrite Forall_forall in H46.
    split; [by apply H46|]. intros Hin. apply Hs. rewrite <- (join_split_code 46 s). by eapply elem_of_join_2. }
  assert (Hone : forall f s, 64 ∉ s -> map_domain s f = map_labels f (split 46 s)).
  { intros f s Hs. unfold map_domain.
    assert (Hs1 : split 64 s = [s]) by (apply (split_join_code 64 [s]); [done|by repeat constructor]). by rewrite Hs1. }
  unfold labels. destruct (split 64 d) as [|x [|y [|]]] eqn:E; simpl in Hat; try lia; [by destruct (split_nonempty 64 d)| |].
  - simpl in Hj. subst x. inversion Hf; subst. exists []. cbn [app]. change (js ".") with [46].
    rewrite join_split_code. split_and!; auto using split_nonempty.
    + intros f. rewrite Hone by done. by destruct (map_labels _ _).
    + intros f r Hr. rewrite Hone by done. by destruct (map_labels _ _).
  - inversion Hf as [|? ? Hx Hf']; subst. inversion Hf' as [|? ? Hy _]; subst. exists (x ++ [64]). change (js ".") with [46].
    rewrite join_split_code, <- app_assoc. split_and!; auto using split_nonempty.
    + intros f. unfold map_domain. rewrite E. change (js "@") with [64]. destruct (map_labels _ _); [|done].
      cbn [rbind]. by rewrite <- app_assoc.
    + intros f r Hr. unfold map_domain. rewrite <- app_assoc.
      change (x ++ [64] ++ r) with (join_with [64] [x; r]). rewrite split_join_code by (done || by repeat constructor).
      change (js "@") with [64]. destruct (map_labels _ _); [|done]. cbn [rbind join_with]. by rewrite <- app_assoc.
Qed.

Section Domains.
Context {crate : IdnaCrate} {crate_ok : PunycodeOk}.

Lemma unicode_ascii_label l :
  plain_label l -> (is_ascii l = false -> is_Some (encode_str l)) ->
  exists l', ascii_label l = Ok l' /\ unicode_label l' = Ok l /\ (forall c, c ∈ l' -> c ∈ l \/ c <> 46 /\ c <> 64).
Proof.
  intros [Hp Hc] He. unfold ascii_label, unicode_label. destruct (is_ascii l) eqn:E.
  { exists l. rewrite Hp. naive_solver. }
  specialize (Hc eq_refl). destruct (He eq_refl) as [e He']. rewrite He'. pose proof (encode_str_codes l e He') as Hcs.
  exists (PUNY_PREFIX ++ e). split; [done|]. split.
  - rewrite (proj2 (is_prefix_spec _ _)) by eauto.
    change 4 with (len PUNY_PREFIX). rewrite slice_from_suffix.
    rewrite to_lowercase_ascii by (eapply Forall_impl; [exact Hcs|]; simpl; lia).
    replace (ascii_lower <$> e) with e; [by rewrite (decode_encode_str l e)|].
    rewrite <- (list_fmap_id e) at 1. apply list_fmap_ext. intros i c Hi. symmetry.
    apply list_elem_of_lookup_2 in Hi. rewrite Forall_forall in Hcs. rewrite Forall_forall in Hc.
    unfold ascii_lower. case_match; [|done]. destruct (Hcs c Hi) as [[Hl _]|]; [apply Hc in Hl|]; simpl in *; lia.
  - intros c. rewrite elem_of_app. intros [H|H].
    + right. apply list_elem_of_In in H. unfold PUNY_PREFIX in H. cbn in H. lia.
    + rewrite Forall_forall in Hcs. destruct (Hcs c H) as [[? _]|]; [by left|right; lia].
Qed.

Lemma unicode_ascii_labels ls :
  Forall plain_label ls -> Forall (fun l => is_ascii l = false -> is_Some (encode_str l)) ls ->
  exists ls', Forall2 (fun l l' => ascii_label l = Ok l') ls ls' /\ Forall2 (fun l' l => unicode_label l' = Ok l) ls' ls
    /\ Forall2 (fun l' l => forall c : Z, c ∈ l' -> c ∈ l \/ c <> 46 /\ c <> 64) ls' ls.
Proof.
  induction 1 as [|l ls Hl Hls IH]; intros He; [by exists []|].
  inversion He as [|? ? Hel Hels]; subst. destruct (IH Hels) as (ls' & H1 & H2 & H3).
  destruct (unicode_ascii_label l Hl Hel) as (l' & Ha & Hu & Hc). exists (l' :: ls'). auto.
Qed.

(** The labels of a list are changed and changed back. *)
Lemma labels_there_and_back ls :
  ls <> [] -> Forall (fun l : list Z => (46 ∉ l) /\ (64 ∉ l)) ls ->
  Forall plain_label ls -> Forall (fun l => is_ascii l = false -> is_Some (encode_str l)) ls ->
  exists r, map_labels ascii_label ls = Ok r /\ map_labels unicode_label (split 46 r) = Ok (join_with (js ".") ls) /\ 64 ∉ r.
Proof.
  intros Hne Hf Hp He. destruct (unicode_ascii_labels ls Hp He) as (ls' & H1 & H2 & H3).
  assert (Hf' : Forall (fun l => (46 ∉ l) /\ (64 ∉ l)) ls').
  { apply Forall_forall. intros l' Hl'. apply list_elem_of_lookup_1 in Hl' as [i Hi].
    destruct (Forall2_lookup_l _ _ _ _ _ H3 Hi) as (l & Hl & Hc). rewrite Forall_forall in Hf.
    destruct (Hf l) as [? ?]; [by eapply list_elem_of_lookup_2|].
    split; intros Hin; destruct (Hc _ Hin) as [?|[? ?]]; done. }
  exists (join_with (js ".") ls'). split; [by apply map_labels_join|]. split.
  - change (js ".") with [46]. rewrite split_join_code.
    + by apply map_labels_join.
    + intros ->. by apply Forall2_nil_inv_r in H1.
    + eapply Forall_impl; [exact Hf'|]. by intros ? [? _].
  - intros [H|(l & Hl & Hc)]%elem_of_join; [by apply list_elem_of_singleton in H|].
    rewrite Forall_forall in Hf'. by destruct (Hf' l Hl).
Qed.
End Domains.

Lemma ascii_labels_same `{!IdnaCrate} (pre : list Z) sep ls :
  is_ascii (pre ++ join_with sep ls) = true -> Forall2 (fun l l' => ascii_label l = Ok l') ls ls.
Proof.
  unfold is_ascii. rewrite forallb_app, andb_true_iff, !forallb_forall. intros [_ Ha].
  apply Forall_Forall2_diag, Forall_forall. intros l Hl. unfold ascii_label, is_ascii.
  replace (forallb _ l) with true; [done|]. symmetry. apply forallb_forall. intros c Hc. apply Ha.
  apply list_elem_of_In. eapply elem_of_join_2; [done|]. by apply list_elem_of_In.
Qed.

(** [toUnicode] undoes [toASCII]: every domain, with or without the local part
    of an address, whose labels can be encoded, are not encoded already and have
    no upper-case letters beside characters that are not ASCII, comes back. *)
Theorem to_unicode_to_ascii `{!IdnaCrate} `{!PunycodeOk} (d : list Z) :
  (length (split 64 d) <= 2)%nat -> Forall plain_label (labels d) ->
  Forall (fun l => is_ascii l = false -> is_Some (encode_str l)) (labels d) ->
  exists a, to_ascii d = Ok a /\ to_unicode a = Ok d.
Proof.
  intros Hat Hp He. destruct (domain_cases d Hat) as (pre & Hd & Hf & Hne & Hm & Hm').
  destruct (labels_there_and_back (labels d) Hne Hf Hp He) as (r & Hr & Hu & Hin).
  exists (pre ++ r). split.
  - unfold to_ascii. rewrite Hm, Hr. destruct (is_ascii d) eqn:Ea; [|done]. cbn [rbind].
    rewrite (map_labels_join _ _ (labels d)) in Hr; [|by apply (ascii_labels_same pre (js ".")); rewrite <- Hd]. congruence.
  - unfold to_unicode. rewrite Hm', Hu by done. cbn [rbind]. congruence.
Qed.

(** A crate that knows one label, of one character. *)
Definition one_label : IdnaCrate := {|
  encode_str l := if str_eqb l [252] then Some (js "tda") else None;
  decode_to_string e := if str_eqb e (js "tda") then Some [252] else None;
  to_lowercase s := ascii_lower <$> s;
  domain_to_ascii s := Ok s;
  domain_to_unicode s := s
|}.

Lemma one_label_ok : @PunycodeOk one_label.
Proof.
  split; simpl.
  - intros l e. unfold str_eqb. case_bool_decide; [|done]. intros [= <-]. by subst.
  - intros l e. case_match; [|done]. intros [= <-]. change (js "tda") with [116; 100; 97].
    repeat (apply Forall_cons; split; [lia|]). by apply Forall_nil.
  - done.
Qed.

Lemma to_unicode_to_ascii_witness :
  exists a, @to_ascii one_label (js "me@www." ++ [252] ++ js ".org") = Ok a /\ @to_unicode one_label a = Ok (js "me@www." ++ [252] ++ js ".org").
Proof.
  assert (Hl : labels (js "me@www." ++ [252] ++ js ".org") = [js "www"; [252]; js "org"]) by (vm_compute; reflexivity).
  apply (@to_unicode_to_ascii one_label one_label_ok); [vm_compute; lia|rewrite Hl..].
  - apply Forall_cons. split; [by split|]. apply Forall_cons. split; [|apply Forall_cons; split; [by split|by apply Forall_nil]].
    split; [done|]. intros _. apply Forall_cons. split; [lia|by apply Forall_nil].
  - apply Forall_cons. split; [by intros [=]|]. apply Forall_cons.
    split; [by eexists|apply Forall_cons; split; [by intros [=]|by apply Forall_nil]].
Defined.
