(* ===== verification/LegacyUrl.v ===== *)
(** * The legacy URL API: url.ts

    [Url] with [urlParse], [format] and [resolveObject], the conversions between
    file URLs and paths, and the functions on WHATWG URLs.  Parameters are
    [toLowerCase] (in [WebText]), the crate [idna] ([IdnaCrate]) and the class [URL] of deno_url, of which
    the functions read properties; whether the system is Windows is an
    argument.  A property of a [Url] is a string or [null]. *)

From S2P Require Import Prelude PathUtil Bytes Codecs WebText Querystring Idna.

(** The names under which url.ts imports internal/idna.ts. *)
Definition idnaToASCII `{!IdnaCrate} : jsstr -> result jsstr := op_node_idna_domain_to_ascii.
Definition idnaToUnicode `{!IdnaCrate} : jsstr -> jsstr := op_node_idna_domain_to_unicode.

(** ** Characters *)

Definition CHAR_TAB : Z := 9.
Definition CHAR_LINE_FEED : Z := 10.
Definition CHAR_FORM_FEED : Z := 12.
Definition CHAR_CARRIAGE_RETURN : Z := 13.
Definition CHAR_SPACE : Z := 32.
Definition CHAR_HASH : Z := 35.
Definition CHAR_FORWARD_SLASH : Z := 47.
Definition CHAR_COLON : Z := 58.
Definition CHAR_QUESTION_MARK : Z := 63.
Definition CHAR_AT : Z := 64.
Definition CHAR_LEFT_SQUARE_BRACKET : Z := 91.
Definition CHAR_BACKWARD_SLASH : Z := 92.
Definition CHAR_RIGHT_SQUARE_BRACKET : Z := 93.
Definition CHAR_NO_BREAK_SPACE : Z := 160.
Definition CHAR_ZERO_WIDTH_NOBREAK_SPACE : Z := 65279.

Definition is_in (l : list Z) (c : Z) : bool := existsb (Z.eqb c) l.
Definition is_letter (c : Z) : bool := (65 <=? c) && (c <=? 90) || (97 <=? c) && (c <=? 122).
Definition is_digit (c : Z) : bool := (48 <=? c) && (c <=? 57).

(** What [\s] matches. *)
Definition is_space (c : Z) : bool :=
  (9 <=? c) && (c <=? 13) || (0x2000 <=? c) && (c <=? 0x200a)
  || is_in [32; 0xa0; 0x1680; 0x2028; 0x2029; 0x202f; 0x205f; 0x3000; 0xfeff] c.

(** ** Regular expressions *)

Fixpoint span (p : Z -> bool) (s : jsstr) : jsstr * jsstr :=
  match s with
  | c :: r => if p c then let '(a, b) := span p r in (c :: a, b) else ([], s)
  | [] => ([], [])
  end.

(** [protocolPattern]: what it matches. *)
Definition protocolPattern (s : jsstr) : option jsstr :=
  match span (fun c => is_letter c || is_digit c || is_in [43; 45; 46] c) s with
  | ((_ :: _) as a, 58 :: _) => Some (a ++ [58])
  | _ => None
  end.

(** [portPattern]: a colon and digits at the end. *)
Fixpoint portPattern (s : jsstr) : option jsstr :=
  match s with
  | [] => None
  | c :: r => if (c =? CHAR_COLON) && forallb is_digit r then Some s else portPattern r
  end.

(** [hostPattern]: two slashes, text, [@], and text. *)
Definition hostPattern (s : jsstr) : bool :=
  match s with
  | 47 :: 47 :: r =>
      match span (fun c => negb (is_in [CHAR_AT; CHAR_FORWARD_SLASH] c)) r with
      | (_ :: _, 64 :: c :: _) => negb (is_in [CHAR_AT; CHAR_FORWARD_SLASH] c)
      | _ => false
      end
  | _ => false
  end.

(** [simplePathPattern]: its two groups, the second one empty when there is none. *)
Definition simplePathPattern (s : jsstr) : option (jsstr * jsstr) :=
  match s with
  | 47 :: 47 :: 47 :: _ => None
  | 47 :: _ =>
      let '(a, b) := span (fun c => negb (c =? CHAR_QUESTION_MARK) && negb (is_space c)) s in
      match b with
      | [] => Some (a, [])
      | c :: _ => if (c =? CHAR_QUESTION_MARK) && forallb (fun c => negb (is_space c)) b then Some (a, b) else None
      end
  | _ => None
  end.

Definition forbiddenHostChars (s : jsstr) : bool :=
  existsb (is_in [0; 9; 10; 13; 32; 35; 37; 47; 58; 60; 62; 63; 64; 91; 92; 93; 94; 124]) s.
Definition forbiddenHostCharsIpv6 (s : jsstr) : bool :=
  existsb (is_in [0; 9; 10; 13; 32; 35; 37; 47; 60; 62; 63; 64; 92; 94; 124]) s.

(** ** Protocols *)

Definition has (l : list string) (s : jsstr) : bool := existsb (fun x => str_eqb s (js x)) l.
Definition unsafeProtocol : jsstr -> bool := has ["javascript"; "javascript:"]%string.
Definition hostlessProtocol : jsstr -> bool := has ["javascript"; "javascript:"]%string.
Definition slashedProtocol : jsstr -> bool :=
  has ["http"; "http:"; "https"; "https:"; "ftp"; "ftp:"; "gopher"; "gopher:"; "file"; "file:"; "ws"; "ws:"; "wss"; "wss:"]%string.

Definition hostnameMaxLen : Z := 255.

Definition noEscapeAuth : list Z :=
  [0; 0; 0; 0; 0; 0; 0; 0; 0; 0; 0; 0; 0; 0; 0; 0;
   0; 0; 0; 0; 0; 0; 0; 0; 0; 0; 0; 0; 0; 0; 0; 0;
   0; 1; 0; 0; 0; 0; 0; 1; 1; 1; 1; 0; 0; 1; 1; 0;
   1; 1; 1; 1; 1; 1; 1; 1; 1; 1; 1; 0; 0; 0; 0; 0;
   0; 1; 1; 1; 1; 1; 1; 1; 1; 1; 1; 1; 1; 1; 1; 1;
   1; 1; 1; 1; 1; 1; 1; 1; 1; 1; 1; 0; 0; 0; 0; 1;
   0; 1; 1; 1; 1; 1; 1; 1; 1; 1; 1; 1; 1; 1; 1; 1;
   1; 1; 1; 1; 1; 1; 1; 1; 1; 1; 1; 0; 0; 0; 1; 0].

(** ** [Url] *)

(** [query] is [null], text or an object. *)
Inductive query_field := NoQuery | QueryText (s : jsstr) | QueryObject (q : query).

Record Url := MkUrl {
  protocol : option jsstr;
  slashes : option bool;
  auth : option jsstr;
  host : option jsstr;
  port : option jsstr;
  hostname : option jsstr;
  hash : option jsstr;
  search : option jsstr;
  query_ : query_field;
  pathname : option jsstr;
  path : option jsstr;
  href : option jsstr
}.

Definition set_protocol (v : option jsstr) (u : Url) : Url := MkUrl v (slashes u) (auth u) (host u) (port u) (hostname u) (hash u) (search u) (query_
  u) (pathname u) (path u) (href u).
Definition set_slashes (v : option bool) (u : Url) : Url := MkUrl (protocol u) v (auth u) (host u) (port u) (hostname u) (hash u) (search u) (query_
  u) (pathname u) (path u) (href u).
Definition set_auth (v : option jsstr) (u : Url) : Url := MkUrl (protocol u) (slashes u) v (host u) (port u) (hostname u) (hash u) (search u) (query_
  u) (pathname u) (path u) (href u).
Definition set_host (v : option jsstr) (u : Url) : Url := MkUrl (protocol u) (slashes u) (auth u) v (port u) (hostname u) (hash u) (search u) (query_
  u) (pathname u) (path u) (href u).
Definition set_port (v : option jsstr) (u : Url) : Url := MkUrl (protocol u) (slashes u) (auth u) (host u) v (hostname u) (hash u) (search u) (query_
  u) (pathname u) (path u) (href u).
Definition set_hostname (v : option jsstr) (u : Url) : Url := MkUrl (protocol u) (slashes u) (auth u) (host u) (port u) v (hash u) (search u) (query_
  u) (pathname u) (path u) (href u).
Definition set_hash (v : option jsstr) (u : Url) : Url := MkUrl (protocol u) (slashes u) (auth u) (host u) (port u) (hostname u) v (search u) (query_
  u) (pathname u) (path u) (href u).
Definition set_search (v : option jsstr) (u : Url) : Url := MkUrl (protocol u) (slashes u) (auth u) (host u) (port u) (hostname u) (hash u) v (query_
  u) (pathname u) (path u) (href u).
Definition set_query_ (v : query_field) (u : Url) : Url := MkUrl (protocol u) (slashes u) (auth u) (host u) (port u) (hostname u) (hash u) (search u)
  v (pathname u) (path u) (href u).
Definition set_pathname (v : option jsstr) (u : Url) : Url := MkUrl (protocol u) (slashes u) (auth u) (host u) (port u) (hostname u) (hash u) (search
  u) (query_ u) v (path u) (href u).
Definition set_path (v : option jsstr) (u : Url) : Url := MkUrl (protocol u) (slashes u) (auth u) (host u) (port u) (hostname u) (hash u) (search u)
  (query_ u) (pathname u) v (href u).
Definition set_href (v : option jsstr) (u : Url) : Url := MkUrl (protocol u) (slashes u) (auth u) (host u) (port u) (hostname u) (hash u) (search u)
  (query_ u) (pathname u) (path u) v.

Definition new_Url : Url := MkUrl None None None None None None None None NoQuery None None None.

(** [if (x)] and [x || ""] of a string or [null]. *)
Definition truthy (x : option jsstr) : bool := match x with Some (_ :: _) => true | _ => false end.
Definition or_empty (x : option jsstr) : jsstr := default [] x.
(** [x || y]. *)
Definition or_else (x y : option jsstr) : option jsstr := if truthy x then x else y.
(** [x || null] of an element that can be missing. *)
Definition or_null (x : option jsstr) : option jsstr := or_else x None.

Definition isIpv6Hostname (hostname : jsstr) : bool :=
  is_code (charCodeAt hostname 0) CHAR_LEFT_SQUARE_BRACKET && is_code (charCodeAt hostname (len hostname - 1)) CHAR_RIGHT_SQUARE_BRACKET.

(** A loop that replaces characters and copies what is between them; [lastPos] is
    the place after the last one replaced. *)
Fixpoint replacing (f : Z -> option jsstr) (str codes : jsstr) (i lastPos : Z) (out : jsstr) : Z * jsstr :=
  match codes with
  | [] => (lastPos, out)
  | c :: codes =>
      match f c with
      | Some t => replacing f str codes (i + 1) (i + 1) ((if lastPos <? i then out ++ slice str lastPos i else out) ++ t)
      | None => replacing f str codes (i + 1) lastPos out
      end
  end.

(** The characters of a path that [format] escapes. *)
Definition path_escape (c : Z) : option jsstr :=
  if c =? CHAR_HASH then Some (js "%23") else if c =? CHAR_QUESTION_MARK then Some (js "%3F") else None.

Definition escape_pathname (pathname : jsstr) : jsstr :=
  let '(lastPos, newPathname) := replacing path_escape pathname pathname 0 0 [] in
  if 0 <? lastPos then
    if negb (lastPos =? len pathname) then newPathname ++ slice_from pathname lastPos else newPathname
  else pathname.

(** The host with the user's name and the port. *)
Definition format_host (u : Url) (auth : jsstr) : jsstr :=
  if truthy (host u) then auth ++ or_empty (host u)
  else if truthy (hostname u) then
    let h := or_empty (hostname u) in
    auth ++ (if is_in h CHAR_COLON && negb (isIpv6Hostname h) then js "[" ++ h ++ js "]" else h)
    ++ (if truthy (port u) then js ":" ++ or_empty (port u) else [])
  else [].

Definition starts_with_file (protocol : jsstr) : bool := is_prefix (js "file") protocol.

(** The path and the host with slashes. *)
Definition format_slashes (u : Url) (protocol host pathname : jsstr) : jsstr * jsstr :=
  let slashes := match slashes u with Some b => b | None => false end in
  if slashes || slashedProtocol protocol then
    if slashes || negb (len host =? 0) then
      (js "//" ++ host, match pathname with [] => [] | c :: _ => if c =? CHAR_FORWARD_SLASH then pathname else js "/" ++ pathname end)
    else if starts_with_file protocol then (js "//", pathname)
    else (host, pathname)
  else (host, pathname).

(** [search.replace(/#/g, "%23")]. *)
Definition escape_hash (s : jsstr) : jsstr := mbind (M := list) (fun c => if c =? CHAR_HASH then js "%23" else [c]) s.

(** [c + s], unless [s] is empty or begins with [c]. *)
Definition with_mark (c : Z) (s : jsstr) : jsstr := match s with [] => [] | d :: _ => if d =? c then s else c :: s end.

Definition format (u : Url) : result jsstr :=
  let! auth :=
    if truthy (auth u) then let! a := encodeStr (or_empty (auth u)) noEscapeAuth hexTable in Ok (a ++ js "@") else Ok [] in
  let host := format_host u auth in
  let! query := match query_ u with QueryObject q => stringify (Some (as_object q)) None None None | _ => Ok [] end in
  let search := if truthy (search u) then or_empty (search u) else match query with [] => [] | _ => js "?" ++ query end in
  let protocol := or_empty (protocol u) in
  let protocol :=
    if negb (len protocol =? 0) && negb (is_code (charCodeAt protocol (len protocol - 1)) CHAR_COLON) then protocol ++ js ":" else protocol in
  let pathname := escape_pathname (or_empty (pathname u)) in
  let '(host, pathname) := format_slashes u protocol host pathname in
  let search := with_mark CHAR_QUESTION_MARK (escape_hash search) in
  let hash := with_mark CHAR_HASH (or_empty (hash u)) in
  Ok (protocol ++ host ++ pathname ++ search ++ hash).

(** ** [urlParse] *)

(** The first loop: it looks for the ends of the text without white space and for
    a hash, and turns backslashes before a question mark or hash into slashes. *)
Record scan := Scan { hasHash : bool; start : Z; end_ : Z; rest_ : jsstr; last_ : Z; inWs : bool; split_ : bool }.

Definition is_ws (c : Z) : bool :=
  is_in [CHAR_SPACE; CHAR_TAB; CHAR_CARRIAGE_RETURN; CHAR_LINE_FEED; CHAR_FORM_FEED; CHAR_NO_BREAK_SPACE; CHAR_ZERO_WIDTH_NOBREAK_SPACE] c.

Definition scan_convert (url : jsstr) (i code : Z) (st : scan) : scan :=
  let '(Scan hasHash start end_ rest lastPos inWs split) := st in
  if negb split then
    if code =? CHAR_HASH then Scan true start end_ rest lastPos inWs true
    else if code =? CHAR_QUESTION_MARK then Scan hasHash start end_ rest lastPos inWs true
    else if code =? CHAR_BACKWARD_SLASH then
      Scan hasHash start end_ ((if 0 <? i - lastPos then rest ++ slice url lastPos i else rest) ++ js "/") (i + 1) inWs split
    else st
  else if negb hasHash && (code =? CHAR_HASH) then Scan true start end_ rest lastPos inWs split
  else st.

Definition scan_step (url : jsstr) (i code : Z) (st : scan) : scan :=
  let '(Scan hasHash start end_ rest lastPos inWs split) := st in
  if start =? -1 then
    if is_ws code then st else scan_convert url i code (Scan hasHash i end_ rest i inWs split)
  else if inWs then
    scan_convert url i code (if is_ws code then st else Scan hasHash start (-1) rest lastPos false split)
  else scan_convert url i code (if is_ws code then Scan hasHash start i rest lastPos true split else st).

Fixpoint scan_loop (url codes : jsstr) (i : Z) (st : scan) : scan :=
  match codes with [] => st | c :: codes => scan_loop url codes (i + 1) (scan_step url i c st) end.

(** Whether there is a hash, and the text to parse. *)
Definition prepare (url : jsstr) : bool * jsstr :=
  let '(Scan hasHash start end_ rest lastPos _ _) := scan_loop url url 0 (Scan false (-1) (-1) [] 0 false false) in
  let rest :=
    if negb (start =? -1) then
      if lastPos =? start then
        if end_ =? -1 then (if start =? 0 then url else slice_from url start) else slice url start end_
      else if (end_ =? -1) && (lastPos <? len url) then rest ++ slice_from url lastPos
      else if negb (end_ =? -1) && (lastPos <? end_) then rest ++ slice url lastPos end_
      else rest
    else rest in
  (hasHash, rest).

(** The loop that looks for the end of the host: the last [@], and the first
    character after it that cannot be in a host, or -1. *)
Definition nonHostChar (c : Z) : bool := is_in [9; 10; 13; 32; 34; 37; 39; 59; 60; 62; 92; 94; 96; 123; 124; 125] c.
Definition hostEndChar (c : Z) : bool := is_in [CHAR_HASH; CHAR_FORWARD_SLASH; CHAR_QUESTION_MARK] c.

Fixpoint host_loop (codes : jsstr) (i atSign nonHost : Z) : Z * Z :=
  match codes with
  | [] => (atSign, nonHost)
  | c :: codes =>
      if nonHostChar c then host_loop codes (i + 1) atSign (if nonHost =? -1 then i else nonHost)
      else if hostEndChar c then (atSign, if nonHost =? -1 then i else nonHost)
      else if c =? CHAR_AT then host_loop codes (i + 1) i (-1)
      else host_loop codes (i + 1) atSign nonHost
  end.

Definition parseHost (u : Url) : Url :=
  let h := or_empty (host u) in
  let '(u, h) :=
    match portPattern h with
    | Some p => (if str_eqb p (js ":") then u else set_port (Some (slice_from p 1)) u, slice h 0 (len h - len p))
    | None => (u, h)
    end in
  if len h =? 0 then u else set_hostname (Some h) u.

Definition validHostChar (c : Z) : bool := is_letter c || is_digit c || is_in [43; 45; 46; 95] c || (127 <? c).

(** The hostname up to the first invalid character, and the rest with a slash. *)
Fixpoint getHostname_loop (hostname codes : jsstr) (i : Z) : option (jsstr * jsstr) :=
  match codes with
  | [] => None
  | c :: codes => if validHostChar c then getHostname_loop hostname codes (i + 1) else Some (slice hostname 0 i, slice_from hostname i)
  end.

Definition getHostname (u : Url) (rest hostname : jsstr) : Url * jsstr :=
  match getHostname_loop hostname hostname 0 with
  | Some (h, t) => (set_hostname (Some h) u, js "/" ++ t ++ rest)
  | None => (u, rest)
  end.

Definition escapedCodes (c : Z) : option jsstr :=
  if is_in [9; 10; 13; 32; 34; 39; 60; 62; 92; 94; 96; 123; 124; 125] c then Some (percent c) else None.

Definition autoEscapeStr (rest : jsstr) : jsstr :=
  let '(lastEscapedPos, escaped) := replacing escapedCodes rest rest 0 0 [] in
  if lastEscapedPos =? 0 then rest
  else if lastEscapedPos <? len rest then escaped ++ slice_from rest lastEscapedPos
  else escaped.

Definition ERR_INVALID_URL (url : jsstr) : jserr := Coded "ERR_INVALID_URL" url.
Definition URIError : jserr := Coded "URIError" (js "URI malformed").

Definition uri_component (s : jsstr) : result jsstr := match decodeURIComponent s with Some t => Ok t | None => Throw URIError end.

Section Parse.
Context `{!WebText} `{!IdnaCrate}.

(** The hostname that is not empty: lower case, in ASCII, and without characters
    that would change what it means. *)
Definition checked_hostname (url hostname : jsstr) (ipv6 : bool) : result jsstr :=
  if hostnameMaxLen <? len hostname then Ok []
  else
    match toLowerCase hostname with
    | [] => Ok []
    | h =>
        if ipv6 then if forbiddenHostCharsIpv6 h then Throw (ERR_INVALID_URL url) else Ok h
        else
          let! h := idnaToASCII h in
          if (len h =? 0) || forbiddenHostChars h then Throw (ERR_INVALID_URL url) else Ok h
    end.

(** The part of the text with the host. *)
Definition parse_host_part (url rest : jsstr) (u : Url) : result (Url * jsstr) :=
  let '(atSign, nonHost) := host_loop rest 0 (-1) (-1) in
  let! u := if negb (atSign =? -1) then let! a := uri_component (slice rest 0 atSign) in Ok (set_auth (Some a) u) else Ok u in
  let start := if negb (atSign =? -1) then atSign + 1 else 0 in
  let '(u, rest) :=
    if nonHost =? -1 then (set_host (Some (slice_from rest start)) u, [])
    else (set_host (Some (slice rest start nonHost)) u, slice_from rest nonHost) in
  let u := parseHost u in
  let u := match hostname u with Some _ => u | None => set_hostname (Some []) u end in
  let h := or_empty (hostname u) in
  let ipv6 := isIpv6Hostname h in
  let '(u, rest) := if ipv6 then (u, rest) else getHostname u rest h in
  let! h := checked_hostname url (or_empty (hostname u)) ipv6 in
  let u := set_hostname (Some h) u in
  let u := set_host (Some (h ++ (if truthy (port u) then js ":" ++ or_empty (port u) else []))) u in
  Ok (if ipv6 then (set_hostname (Some (slice h 1 (-1))) u, match rest with 47 :: _ => rest | _ => js "/" ++ rest end) else (u, rest)).

(** The places of the first question mark before the first hash, and of that hash,
    or -1. *)
Fixpoint split_loop (codes : jsstr) (i questionIdx : Z) : Z * Z :=
  match codes with
  | [] => (questionIdx, -1)
  | c :: codes =>
      if c =? CHAR_HASH then (questionIdx, i)
      else split_loop codes (i + 1) (if (c =? CHAR_QUESTION_MARK) && (questionIdx =? -1) then i else questionIdx)
  end.

Definition parse_query (s : jsstr) : result query_field :=
  let! q := Querystring.parse (JString s) None None None None in Ok (QueryObject q).

(** The path, the search and the hash. *)
Definition parse_rest (rest : jsstr) (parseQueryString : bool) (u : Url) : result Url :=
  let '(questionIdx, hashIdx) := split_loop rest 0 (-1) in
  let u := if hashIdx =? -1 then u else set_hash (Some (slice_from rest hashIdx)) u in
  let! u :=
    if negb (questionIdx =? -1) then
      let end_ := if hashIdx =? -1 then len rest else hashIdx in
      let query := slice rest (questionIdx + 1) end_ in
      let! q := if parseQueryString then parse_query query else Ok (QueryText query) in
      Ok (u |> set_search (Some (slice rest questionIdx end_)) |> set_query_ q)
    else Ok (if parseQueryString then u |> set_search None |> set_query_ (QueryObject []) else u) in
  let useQuestionIdx := negb (questionIdx =? -1) && ((hashIdx =? -1) || (questionIdx <? hashIdx)) in
  let firstIdx := if useQuestionIdx then questionIdx else hashIdx in
  Ok (if firstIdx =? -1 then (if 0 <? len rest then set_pathname (Some rest) u else u)
      else if 0 <? firstIdx then set_pathname (Some (slice rest 0 firstIdx)) u
      else u).

(** [this.path], for http.request. *)
Definition with_path (u : Url) : Url :=
  if truthy (pathname u) || truthy (search u) then set_path (Some (or_empty (pathname u) ++ or_empty (search u))) u else u.

Definition with_href (u : Url) : result Url := let! h := format u in Ok (set_href (Some h) u).

Definition parse_simple (rest pathname search : jsstr) (parseQueryString : bool) : result Url :=
  let u := new_Url |> set_path (Some rest) |> set_href (Some rest) |> set_pathname (Some pathname) in
  match search with
  | [] => Ok (if parseQueryString then u |> set_search None |> set_query_ (QueryObject []) else u)
  | _ =>
      let! q := if parseQueryString then parse_query (slice_from search 1) else Ok (QueryText (slice_from search 1)) in
      Ok (u |> set_search (Some search) |> set_query_ q)
  end.

Definition parse_full (url rest : jsstr) (parseQueryString slashesDenoteHost : bool) : result Url :=
  let proto := protocolPattern rest in
  let lowerProto := match proto with Some p => toLowerCase p | None => [] end in
  let u := match proto with Some _ => set_protocol (Some lowerProto) new_Url | None => new_Url end in
  let rest := match proto with Some p => slice_from rest (len p) | None => rest end in
  let has_proto := match proto with Some _ => true | None => false end in
  let slashes :=
    (slashesDenoteHost || has_proto || hostPattern rest)
    && is_code (charCodeAt rest 0) CHAR_FORWARD_SLASH && is_code (charCodeAt rest 1) CHAR_FORWARD_SLASH in
  let '(u, rest) :=
    if slashes && negb (has_proto && hostlessProtocol lowerProto) then (set_slashes (Some true) u, slice_from rest 2) else (u, rest) in
  let! r :=
    if negb (hostlessProtocol lowerProto) && (slashes || match proto with Some p => negb (slashedProtocol p) | None => false end)
    then parse_host_part url rest u else Ok (u, rest) in
  let '(u, rest) := r in
  let rest := if unsafeProtocol lowerProto then rest else autoEscapeStr rest in
  let! u := parse_rest rest parseQueryString u in
  let u := if slashedProtocol lowerProto && truthy (hostname u) && negb (truthy (pathname u)) then set_pathname (Some (js "/")) u else u in
  with_href (with_path u).

Definition urlParse (url : jsstr) (parseQueryString slashesDenoteHost : bool) : result Url :=
  let '(hasHash, rest) := prepare url in
  match (if negb slashesDenoteHost && negb hasHash then simplePathPattern rest else None) with
  | Some (pathname, search) => parse_simple rest pathname search parseQueryString
  | None => parse_full url rest parseQueryString slashesDenoteHost
  end.

(** [parse(url)] of a string. *)
Definition parse (url : jsstr) (parseQueryString slashesDenoteHost : bool) : result Url := urlParse url parseQueryString slashesDenoteHost.

(** [format(urlObject)] of a string. *)
Definition format_string (urlObject : jsstr) : result jsstr := let! u := parse urlObject true false in format u.

(** ** [resolveObject] *)

(** [a[0] === ""], and [a] with [x] in place of an empty first element or before
    the others. *)
Definition first_empty (a : list jsstr) : bool := match a with [] :: _ => true | _ => false end.
Definition put_first (x : jsstr) (a : list jsstr) : list jsstr := match a with [] :: a => x :: a | _ => x :: a end.

Definition split_path (p : option jsstr) : list jsstr := if truthy p then split CHAR_FORWARD_SLASH (or_empty p) else [].
Definition join_path (l : list jsstr) : jsstr := join_with (js "/") l.

Definition is_abs (p : option jsstr) : bool := match p with Some (47 :: _) => true | _ => false end.

(** [/^file:?$/]. *)
Definition is_file (protocol : jsstr) : bool := str_eqb protocol (js "file") || str_eqb protocol (js "file:").

(** [while (relPath.length && !(relative.host = relPath.shift() || null))]: the first
    element that is not empty, and those after it. *)
Fixpoint shift_host (host : option jsstr) (relPath : list jsstr) : option jsstr * list jsstr :=
  match relPath with
  | [] => (host, [])
  | [] :: relPath => shift_host None relPath
  | h :: relPath => (Some h, relPath)
  end.

(** The relative URL has a protocol of its own that has slashes. *)
Definition resolve_protocol (res relative : Url) : result (Url * Url) :=
  let res := set_protocol (protocol relative) res in
  let p := or_empty (protocol relative) in
  let '(res, relative) :=
    if negb (truthy (host relative)) && negb (is_file p) && negb (hostlessProtocol p) then
      let '(h, relPath) := shift_host (host relative) (split CHAR_FORWARD_SLASH (or_empty (pathname relative))) in
      let relative := relative |> set_host (Some (or_empty h)) |> set_hostname (Some (or_empty (hostname relative))) in
      let relPath := if first_empty relPath then relPath else [] :: relPath in
      let relPath := if (length relPath <? 2)%nat then [] :: relPath else relPath in
      (set_pathname (Some (join_path relPath)) res, relative)
    else (set_pathname (pathname relative) res, relative) in
  let res :=
    res |> set_search (search relative) |> set_query_ (query_ relative) |> set_host (Some (or_empty (host relative)))
      |> set_auth (auth relative) |> set_hostname (or_else (hostname relative) (host relative)) |> set_port (port relative) in
  let res := with_path res in
  let res := set_slashes (match slashes res with Some true => Some true | _ => slashes relative end) res in
  let! res := with_href res in
  Ok (res, relative).

(** Strips dots, and counts how far the path goes above its root. *)
Fixpoint strip_dots (srcPath : list jsstr) : list jsstr * nat :=
  match srcPath with
  | [] => ([], O)
  | segment :: srcPath =>
      let '(srcPath, up) := strip_dots srcPath in
      if str_eqb segment (js ".") then (srcPath, up)
      else if str_eqb segment (js "..") then (srcPath, S up)
      else match up with S up => (srcPath, up) | O => (segment :: srcPath, O) end
  end.

(** The name of a user that is stuck in the host. *)
Definition auth_in_host (u : Url) : Url :=
  match host u with
  | Some h =>
      match split CHAR_AT h with
      | ((_ :: _) as a) :: b :: _ => u |> set_auth (Some a) |> set_host (or_null (Some b)) |> set_hostname (or_null (Some b))
      | _ => u
      end
  | None => u
  end.

(** [result.path], here also of an empty path. *)
Definition with_path_or_search (u : Url) : Url :=
  match pathname u, search u with
  | None, None => u
  | _, _ => set_path (Some (or_empty (pathname u) ++ or_empty (search u))) u
  end.

(** The host goes into the path when the protocol has no slashes. *)
Definition hide_host (res relative : Url) (srcPath relPath : list jsstr) : Url * Url * list jsstr * list jsstr :=
  let srcPath := if truthy (host res) then put_first (or_empty (host res)) srcPath else srcPath in
  let res := res |> set_hostname (Some []) |> set_port None |> set_host (Some []) in
  if truthy (protocol relative) then
    let relPath := if truthy (host relative) then put_first (or_empty (host relative)) relPath else relPath in
    (set_auth None res, relative |> set_hostname None |> set_port None |> set_host None, srcPath, relPath)
  else (res, relative, srcPath, relPath).

(** The relative URL has a host or an absolute path. *)
Definition take_host (res relative : Url) : Url :=
  let res :=
    match host relative with
    | Some h =>
        (if bool_decide (host res = Some h) then res else set_auth None res) |> set_host (Some h) |> set_port (port relative)
    | None => res
    end in
  match hostname relative with
  | Some h => (if bool_decide (hostname res = Some h) then res else set_auth None res) |> set_hostname (Some h)
  | None => res
  end.

(** From [if (!srcPath.length)] on. *)
Definition resolve_path (res relative : Url) (srcPath : list jsstr) (mustEndAbs removeAllDots noLeadingSlashes : bool) : result Url :=
  match last srcPath with
  | None =>
      with_href (res |> set_pathname None |> set_path (if truthy (search res) then Some (js "/" ++ or_empty (search res)) else None))
  | Some x =>
      let hasTrailingSlash :=
        (truthy (host res) || truthy (host relative) || (1 <? length srcPath)%nat) && (str_eqb x (js ".") || str_eqb x (js ".."))
        || str_eqb x [] in
      let '(srcPath, up) := strip_dots srcPath in
      let srcPath := if negb mustEndAbs && negb removeAllDots then repeat (js "..") up ++ srcPath else srcPath in
      let srcPath :=
        if mustEndAbs && negb (first_empty srcPath) && negb (match srcPath with p :: _ => is_abs (Some p) | [] => false end)
        then [] :: srcPath else srcPath in
      let srcPath := if hasTrailingSlash && negb (is_code (last (join_path srcPath)) CHAR_FORWARD_SLASH) then srcPath ++ [[]] else srcPath in
      let isAbsolute := match srcPath with [] :: _ => true | p :: _ => is_abs (Some p) | [] => false end in
      let '(res, srcPath) :=
        if noLeadingSlashes then
          let '(h, srcPath) :=
            if isAbsolute then (Some [], srcPath)
            else match srcPath with p :: srcPath => (or_null (Some p), srcPath) | [] => (Some [], []) end in
          (auth_in_host (res |> set_host h |> set_hostname h), srcPath)
        else (res, srcPath) in
      let mustEndAbs := mustEndAbs || truthy (host res) && negb (length srcPath =? 0)%nat in
      let srcPath := if mustEndAbs && negb isAbsolute then [] :: srcPath else srcPath in
      let res :=
        match srcPath with
        | [] => res |> set_pathname None |> set_path None
        | _ => set_pathname (Some (join_path srcPath)) res
        end in
      let res := with_path_or_search res in
      let res := set_auth (or_else (auth relative) (auth res)) res in
      let res := set_slashes (match slashes res with Some true => Some true | _ => slashes relative end) res in
      with_href res
  end.

(** The result and the relative URL, which the method changes. *)
Definition resolveObject (this relative : Url) : result (Url * Url) :=
  let res := set_hash (hash relative) this in
  if bool_decide (href relative = Some []) then let! res := with_href res in Ok (res, relative)
  else if bool_decide (slashes relative = Some true) && negb (truthy (protocol relative)) then
    let res := set_protocol (protocol res) relative in
    let res :=
      if truthy (protocol res) && slashedProtocol (or_empty (protocol res)) && truthy (hostname res) && negb (truthy (pathname res))
      then res |> set_pathname (Some (js "/")) |> set_path (Some (js "/")) else res in
    let! res := with_href res in Ok (res, relative)
  else if truthy (protocol relative) && negb (bool_decide (protocol relative = protocol res)) then
    if negb (slashedProtocol (or_empty (protocol relative))) then let! res := with_href relative in Ok (res, relative)
    else resolve_protocol res relative
  else
    let isSourceAbs := is_abs (pathname res) in
    let isRelAbs := truthy (host relative) || is_abs (pathname relative) in
    let mustEndAbs := isRelAbs || isSourceAbs || truthy (host res) && truthy (pathname relative) in
    let removeAllDots := mustEndAbs in
    let srcPath := split_path (pathname res) in
    let relPath := split_path (pathname relative) in
    let noLeadingSlashes := truthy (protocol res) && negb (slashedProtocol (or_empty (protocol res))) in
    let '(res, relative, srcPath, relPath) :=
      if noLeadingSlashes then hide_host res relative srcPath relPath else (res, relative, srcPath, relPath) in
    let mustEndAbs := if noLeadingSlashes then mustEndAbs && (first_empty relPath || first_empty srcPath) else mustEndAbs in
    if isRelAbs then
      let res := take_host res relative |> set_search (search relative) |> set_query_ (query_ relative) in
      let! res := resolve_path res relative relPath mustEndAbs removeAllDots noLeadingSlashes in Ok (res, relative)
    else if negb (length relPath =? 0)%nat then
      let res := res |> set_search (search relative) |> set_query_ (query_ relative) in
      let! res := resolve_path res relative (take (pred (length srcPath)) srcPath ++ relPath) mustEndAbs removeAllDots noLeadingSlashes in
      Ok (res, relative)
    else if bool_decide (is_Some (search relative)) then
      let res :=
        if noLeadingSlashes then
          let h := or_null (hd_error srcPath) in auth_in_host (res |> set_host h |> set_hostname h)
        else res in
      let res := res |> set_search (search relative) |> set_query_ (query_ relative) in
      let! res := with_href (with_path_or_search res) in Ok (res, relative)
    else
      let! res := resolve_path res relative srcPath mustEndAbs removeAllDots noLeadingSlashes in Ok (res, relative).

(** [Url.prototype.resolve], and the functions [resolve] and [resolveObject]. *)
Definition resolve_from (this : Url) (relative : jsstr) : result jsstr :=
  let! rel := parse relative false true in
  let! r := resolveObject this rel in
  format (fst r).

Definition resolve (from to : jsstr) : result jsstr := let! u := parse from false true in resolve_from u to.

Definition resolve_object (source relative : jsstr) : result Url :=
  let! u := parse source false true in
  let! rel := urlParse relative false true in
  let! r := resolveObject u rel in
  Ok (fst r).
End Parse.

(** ** WHATWG URLs *)

(** The properties of an object of the class [URL] that the functions read. *)
Record URL := MkURL {
  w_protocol : jsstr;
  w_username : jsstr;
  w_password : jsstr;
  w_host : jsstr;
  w_hostname : jsstr;
  w_port : jsstr;
  w_pathname : jsstr;
  w_search : jsstr;
  w_hash : jsstr;
  w_href : jsstr
}.

(** The options of [format]. *)
Record format_options := FormatOptions { o_auth : bool; o_fragment : bool; o_search : bool; o_unicode : bool }.
Definition default_options : format_options := FormatOptions true true true false.

Definition formatWhatwg `{!IdnaCrate} (u : URL) (o : format_options) : jsstr :=
  let hasUsername := negb (len (w_username u) =? 0) in
  let hasPassword := negb (len (w_password u) =? 0) in
  let auth :=
    if o_auth o && (hasUsername || hasPassword) then
      (if hasUsername then w_username u else []) ++ (if hasPassword then js ":" ++ w_password u else []) ++ js "@"
    else [] in
  w_protocol u ++ js "//" ++ auth ++ (if o_unicode o then idnaToUnicode (w_hostname u) else w_hostname u)
  ++ (if negb (len (w_port u) =? 0) then js ":" ++ w_port u else [])
  ++ w_pathname u
  ++ (if o_search o && negb (len (w_search u) =? 0) then w_search u else [])
  ++ (if o_fragment o && negb (len (w_hash u) =? 0) then w_hash u else []).

Record HttpOptions := MkHttpOptions {
  h_protocol : jsstr;
  h_hostname : jsstr;
  h_hash : jsstr;
  h_search : jsstr;
  h_pathname : jsstr;
  h_path : jsstr;
  h_href : jsstr;
  (** The text that [Number] is given. *)
  h_port : option jsstr;
  h_auth : option jsstr
}.

Definition urlToHttpOptions (u : URL) : result HttpOptions :=
  let! auth :=
    if negb (len (w_username u) =? 0) || negb (len (w_password u) =? 0) then
      let! a := uri_component (w_username u) in let! b := uri_component (w_password u) in Ok (Some (a ++ js ":" ++ b))
    else Ok None in
  Ok (MkHttpOptions (w_protocol u) (if is_prefix (js "[") (w_hostname u) then slice (w_hostname u) 1 (-1) else w_hostname u)
        (w_hash u) (w_search u) (w_pathname u) (w_pathname u ++ w_search u) (w_href u)
        (if len (w_port u) =? 0 then None else Some (w_port u)) auth).

(** ** File URLs *)

Definition ERR_INVALID_URL_SCHEME : jserr := Coded "ERR_INVALID_URL_SCHEME" (js "file").
Definition ERR_INVALID_FILE_URL_HOST : jserr := Coded "ERR_INVALID_FILE_URL_HOST" [].
Definition ERR_INVALID_FILE_URL_PATH (message : string) : jserr := Coded "ERR_INVALID_FILE_URL_PATH" (js message).

(** [%2f] or [%5c] at the beginning; [codePointAt] of a missing character is
    [undefined], which is 0 for [|]. *)
Definition encoded_slash (s : jsstr) (digit letter : Z) : bool :=
  match s with
  | 37 :: a :: r => (a =? digit) && (bitor (match r with c :: _ => c | [] => 0 end) 0x20 =? letter)
  | _ => false
  end.

Fixpoint encoded_separator (windows : bool) (pathname : jsstr) : bool :=
  match pathname with
  | [] => false
  | _ :: r => encoded_slash pathname 50 102 || windows && encoded_slash pathname 53 99 || encoded_separator windows r
  end.

Definition getPathFromURLPosix (u : URL) : result jsstr :=
  if negb (len (w_hostname u) =? 0) then Throw ERR_INVALID_FILE_URL_HOST
  else if encoded_separator false (w_pathname u) then Throw (ERR_INVALID_FILE_URL_PATH "must not include encoded / characters")
  else uri_component (w_pathname u).

Definition getPathFromURLWin (u : URL) : result jsstr :=
  if encoded_separator true (w_pathname u) then Throw (ERR_INVALID_FILE_URL_PATH "must not include encoded \ or / characters")
  else
    let! pathname := uri_component ((fun c => if c =? CHAR_FORWARD_SLASH then CHAR_BACKWARD_SLASH else c) <$> w_pathname u) in
    if negb (len (w_hostname u) =? 0) then Ok (js "\\" ++ w_hostname u ++ pathname)
    else
      let letter := bitor (default 0 (charCodeAt pathname 1)) 0x20 in
      if (letter <? 97) || (122 <? letter) || negb (is_code (charCodeAt pathname 2) CHAR_COLON)
      then Throw (ERR_INVALID_FILE_URL_PATH "must be absolute")
      else Ok (slice_from pathname 1).

(** [fileURLToPath] of a [URL]. *)
Definition fileURLToPath (isWindows : bool) (u : URL) : result jsstr :=
  if negb (str_eqb (w_protocol u) (js "file:")) then Throw ERR_INVALID_URL_SCHEME
  else if isWindows then getPathFromURLWin u else getPathFromURLPosix u.

(** [s.replace(/c/g, t)]. *)
Definition replace_all (c : Z) (t : jsstr) (s : jsstr) : jsstr := mbind (M := list) (fun x => if x =? c then t else [x]) s.

Definition encodePathChars (isWindows : bool) (filepath : jsstr) : jsstr :=
  let filepath := replace_all 37 (js "%25") filepath in
  let filepath := if isWindows then filepath else replace_all CHAR_BACKWARD_SLASH (js "%5C") filepath in
  let filepath := replace_all CHAR_LINE_FEED (js "%0A") filepath in
  let filepath := replace_all CHAR_CARRIAGE_RETURN (js "%0D") filepath in
  replace_all CHAR_TAB (js "%09") filepath.

(** What [pathToFileURL] sets of [new URL("file://")]: the hostname and the
    pathname.  [path_resolve] is [path.resolve], [sep] is [path.sep]. *)
Definition pathToFileURL `{!IdnaCrate} (isWindows : bool) (path_resolve : jsstr -> result jsstr) (sep : Z) (filepath : jsstr)
    : result (option jsstr * jsstr) :=
  if isWindows && is_prefix (js "\\") filepath then
    match split CHAR_BACKWARD_SLASH filepath with
    | _ :: _ :: hostname :: ((_ :: _) as paths) =>
        if len hostname =? 0 then Throw (ERR_INVALID_ARG_VALUE "filepath")
        else let! h := idnaToASCII hostname in Ok (Some h, encodePathChars isWindows (join_path paths))
    | _ => Throw (ERR_INVALID_ARG_VALUE "filepath")
    end
  else
    let! resolved := path_resolve filepath in
    let last := charCodeAt filepath (len filepath - 1) in
    let resolved :=
      if (is_code last CHAR_FORWARD_SLASH || isWindows && is_code last CHAR_BACKWARD_SLASH) && negb (is_code (charCodeAt resolved (len resolved - 1)) sep)
      then resolved ++ js "/" else resolved in
    Ok (None, encodePathChars isWindows resolved).
