(* ===== verification/UrlFacts.v ===== *)
(** * The legacy URL API: what holds

    The scanning loops of url.ts against definitions without indexes, what
    [parse] guarantees of the parts of a URL, that it undoes [format], how
    [resolve] treats dots, and paths as file URLs and back. *)

From S2P Require Import Prelude PathUtil PathPosix Bytes Codecs WebText WebModel Querystring Idna LegacyUrl.

(** Arithmetic on character codes. *)
Ltac codes :=
  cbv [is_in is_ws is_letter is_digit is_space existsb CHAR_TAB CHAR_LINE_FEED CHAR_FORM_FEED CHAR_CARRIAGE_RETURN CHAR_SPACE CHAR_HASH
    CHAR_FORWARD_SLASH CHAR_COLON CHAR_QUESTION_MARK CHAR_AT CHAR_LEFT_SQUARE_BRACKET CHAR_BACKWARD_SLASH CHAR_RIGHT_SQUARE_BRACKET
    CHAR_NO_BREAK_SPACE CHAR_ZERO_WIDTH_NOBREAK_SPACE] in *; try lia.

Lemma slice_from_0 {A} (s : list A) : slice_from s 0 = s.
Proof. apply slice_whole. Qed.

Lemma slice_extend {A} (p b t : list A) a :
  0 <= a <= len p -> slice (p ++ b ++ t) a (len p + len b) = slice (p ++ b ++ t) a (len p) ++ b.
Proof.
  intros Ha. destruct (split_len p a Ha) as (u & v & -> & <-). rewrite len_app, <- !app_assoc.
  pose proof (slice_mid u (v ++ b) t) as E1. pose proof (slice_mid u v (b ++ t)) as E2.
  rewrite <- app_assoc, len_app, Z.add_assoc in E1. by rewrite E1, E2.
Qed.

(** ** Escaping loops *)

Section Replacing.
Context (f : Z -> option jsstr).

Definition replaced (s : jsstr) : jsstr := mbind (M := list) (fun c => default [c] (f c)) s.

Lemma replaced_app s t : replaced (s ++ t) = replaced s ++ replaced t.
Proof. apply bind_app. Qed.

Lemma replacing_spec str codes pre i lastPos out :
  str = pre ++ codes -> i = len pre -> 0 <= lastPos <= len pre -> out ++ slice str lastPos i = replaced pre ->
  let '(last', out') := replacing f str codes i lastPos out in
  lastPos <= last' <= len str /\ out' ++ slice_from str last' = replaced str
  /\ (last' = lastPos -> out' = out).
Proof.
  revert pre i lastPos out. induction codes as [|c codes IH]; intros pre i lastPos out Hs -> Hl Ho; cbn [replacing].
  { rewrite app_nil_r in Hs. subst. split; [lia|done]. }
  assert (Hs' : str = (pre ++ [c]) ++ codes) by (by rewrite <- app_assoc).
  assert (Hi : len pre + 1 = len (pre ++ [c])) by (by rewrite len_app).
  assert (Hc : replaced (pre ++ [c]) = replaced pre ++ default [c] (f c)) by (unfold replaced; rewrite bind_app; f_equal; apply app_nil_r).
  destruct (f c) as [t|].
  - rewrite flushed_text, Ho by lia. specialize (IH _ _ (len pre + 1) (replaced pre ++ t) Hs' Hi).
    destruct (replacing _ _ _ _ _ _) as [l' o'].
    destruct IH as (H1 & H2 & H3); [lia|by rewrite slice_empty, app_nil_r, Hc|]. split; [lia|]. split; [done|lia].
  - specialize (IH _ _ lastPos out Hs' Hi). destruct (replacing _ _ _ _ _ _) as [l' o'].
    apply IH; [lia|]. by rewrite Hc, <- Ho, Hs, slice_snoc, app_assoc by lia.
Qed.

Lemma replacing_all s :
  let '(lastPos, out) := replacing f s s 0 0 [] in
  0 <= lastPos <= len s /\ out ++ slice_from s lastPos = replaced s /\ (lastPos = 0 -> out = []).
Proof. apply (replacing_spec s s []); try done. by rewrite slice_empty. Qed.
End Replacing.

Lemma autoEscapeStr_replaced s : autoEscapeStr s = replaced escapedCodes s.
Proof.
  unfold autoEscapeStr. pose proof (replacing_all escapedCodes s) as H. destruct (replacing _ _ _ _ _ _) as [l out].
  destruct H as (Hl & Ho & H0). rewrite <- Ho. destruct (Z.eqb_spec l 0) as [->|]; [by rewrite H0, slice_from_0|].
  destruct (Z.ltb_spec l (len s)); [done|]. replace l with (len s) by lia. by rewrite slice_from_end, app_nil_r.
Qed.

Lemma escape_pathname_replaced s : escape_pathname s = replaced path_escape s.
Proof.
  unfold escape_pathname. pose proof (replacing_all path_escape s) as H. destruct (replacing _ _ _ _ _ _) as [l out].
  destruct H as (Hl & Ho & H0). rewrite <- Ho. destruct (Z.ltb_spec 0 l).
  - destruct (Z.eqb_spec l (len s)) as [->|]; [by rewrite slice_from_end, app_nil_r|done].
  - replace l with 0 by lia. by rewrite H0, slice_from_0 by lia.
Qed.

(** ** The text that is parsed *)

(** Slashes for the backslashes before the first question mark or hash. *)
Definition is_mark (c : Z) : bool := is_in [CHAR_HASH; CHAR_QUESTION_MARK] c.

Fixpoint turn_slashes (s : jsstr) : jsstr :=
  match s with
  | [] => []
  | c :: r => if is_mark c then s else (if c =? CHAR_BACKWARD_SLASH then CHAR_FORWARD_SLASH else c) :: turn_slashes r
  end.

(** The text without white space at its ends. *)
Fixpoint trim_start (s : jsstr) : jsstr := match s with c :: r => if is_ws c then trim_start r else s | [] => [] end.
Definition trim (s : jsstr) : jsstr := reverse (trim_start (reverse (trim_start s))).

Lemma turn_slashes_snoc s c :
  turn_slashes (s ++ [c])
  = turn_slashes s ++ [if negb (existsb is_mark s) && (c =? CHAR_BACKWARD_SLASH) then CHAR_FORWARD_SLASH else c].
Proof.
  induction s as [|x s IH]; simpl.
  - destruct (is_mark c) eqn:E; [|done]. unfold is_mark in E. case_match; [codes|done].
  - destruct (is_mark x); simpl; [done|]. by rewrite IH.
Qed.

Lemma ws_plain c : is_ws c = true -> is_mark c = false /\ (c =? CHAR_BACKWARD_SLASH) = false /\ (c =? CHAR_HASH) = false.
Proof. unfold is_mark. codes. Qed.

Lemma turn_slashes_ws s t : Forall (fun c => is_ws c = true) t -> turn_slashes (s ++ t) = turn_slashes s ++ t.
Proof.
  revert s. induction t as [|c t IH]; intros s H; [by rewrite !app_nil_r|]. inversion H as [|? ? Hc Ht]; subst.
  destruct (ws_plain c Hc) as (_ & Hb & _).
  change (s ++ c :: t) with (s ++ [c] ++ t). by rewrite app_assoc, IH, turn_slashes_snoc, Hb, andb_false_r, <- app_assoc.
Qed.

Definition all_ws (s : jsstr) : Prop := Forall (fun c => is_ws c = true) s.
Definition has_hash (s : jsstr) : bool := existsb (fun c => c =? CHAR_HASH) s.

(** What the scan knows after a prefix of the text: white space, the text from its
    first to its last other character, and white space. *)
Inductive scanned (url : jsstr) : jsstr -> scan -> Prop :=
| scanned_none pre : all_ws pre -> scanned url pre (Scan false (-1) (-1) [] 0 false false)
| scanned_some a core x z b rest lastPos st :
    all_ws a -> all_ws b -> head core = Some x -> is_ws x = false -> last core = Some z -> is_ws z = false ->
    len a <= lastPos <= len a + len core ->
    rest ++ slice url lastPos (len a + len core) = turn_slashes core -> (lastPos = len a -> rest = []) ->
    st = Scan (has_hash core) (len a) (match b with [] => -1 | _ => len a + len core end) rest lastPos
           (match b with [] => false | _ => true end) (existsb is_mark core) ->
    scanned url (a ++ core ++ b) st.

Lemma trim_start_ws a s : all_ws a -> trim_start (a ++ s) = trim_start s.
Proof. induction 1 as [|c a Hc Ha IH]; [done|]. simpl. by rewrite Hc. Qed.

Lemma trim_start_head s x : head s = Some x -> is_ws x = false -> trim_start s = s.
Proof. destruct s; [done|]. intros [= ->] H. simpl. by rewrite H. Qed.

Lemma trim_core a core x z b :
  all_ws a -> all_ws b -> head core = Some x -> is_ws x = false -> last core = Some z -> is_ws z = false ->
  trim (a ++ core ++ b) = core.
Proof.
  intros Ha Hb Hx Hx' Hz Hz'. unfold trim. rewrite trim_start_ws by done.
  rewrite (trim_start_head (core ++ b) x) by (done || by destruct core). rewrite reverse_app, trim_start_ws by (by apply Forall_reverse).
  rewrite (trim_start_head _ z), reverse_involutive; [done| |done]. by rewrite head_reverse.
Qed.

Lemma has_hash_app s t : has_hash (s ++ t) = has_hash s || has_hash t.
Proof. apply existsb_app. Qed.

Lemma has_hash_ws s : all_ws s -> has_hash s = false /\ existsb is_mark s = false.
Proof.
  induction 1 as [|c s Hc H IH]; [done|]. destruct (ws_plain c Hc) as (Hm & _ & Hh). simpl. by rewrite Hh, Hm.
Qed.

(** One character that is not white space. *)
Lemma scan_convert_spec url a core c codes rest lastPos e w :
  url = a ++ core ++ c :: codes -> is_ws c = false ->
  len a <= lastPos <= len a + len core ->
  rest ++ slice url lastPos (len a + len core) = turn_slashes core -> (lastPos = len a -> rest = []) ->
  exists rest' lastPos',
    scan_convert url (len a + len core) c (Scan (has_hash core) (len a) e rest lastPos w (existsb is_mark core))
    = Scan (has_hash (core ++ [c])) (len a) e rest' lastPos' w (existsb is_mark (core ++ [c]))
    /\ len a <= lastPos' <= len a + len (core ++ [c])
    /\ rest' ++ slice url lastPos' (len a + len (core ++ [c])) = turn_slashes (core ++ [c])
    /\ (lastPos' = len a -> rest' = []).
Proof.
  intros Hu Hc Hl Hr H0. unfold scan_convert. rewrite turn_slashes_snoc, has_hash_app, existsb_app, len_app.
  change (len [c]) with 1. rewrite Z.add_assoc.
  assert (Hk : rest ++ slice url lastPos (len a + len core + 1) = turn_slashes core ++ [c]).
  { rewrite <- Hr, <- app_assoc. f_equal. rewrite Hu, app_assoc, <- len_app. rewrite <- len_app in Hl. apply slice_snoc. pose proof (len_nonneg a). lia. }
  assert (Hm : is_mark c = true -> (c =? CHAR_BACKWARD_SLASH) = false) by (unfold is_mark; codes).
  change (has_hash [c]) with ((c =? CHAR_HASH) || false). cbn [existsb]. rewrite !orb_false_r.
  destruct (existsb is_mark core) eqn:Em; cbn [negb andb orb].
  - exists rest, lastPos. rewrite Hk. split; [|split; [lia|done]].
    destruct (has_hash core), (c =? CHAR_HASH); done.
  - assert (Hh : has_hash core = false).
    { apply not_true_iff_false. unfold has_hash. intros Hh. apply existsb_exists in Hh as (y & Hy & E).
      assert (existsb is_mark core = true) as Hx by (apply existsb_exists; exists y; split; [done|unfold is_mark; codes]). congruence. }
    rewrite Hh. cbn [orb].
    destruct (c =? CHAR_HASH) eqn:E1; [|destruct (c =? CHAR_QUESTION_MARK) eqn:E2; [|destruct (c =? CHAR_BACKWARD_SLASH) eqn:E3]].
    + assert (is_mark c = true) as Hc' by (unfold is_mark; codes). rewrite Hc', Hm by done. eauto 10 with lia.
    + assert (is_mark c = true) as Hc' by (unfold is_mark; codes). rewrite Hc', Hm by done. eauto 10 with lia.
    + assert (is_mark c = false) as -> by (unfold is_mark; codes). do 2 eexists. split; [done|]. split; [lia|].
      split; [|lia]. rewrite slice_empty, app_nil_r. change (js "/") with [CHAR_FORWARD_SLASH]. f_equal. rewrite <- Hr.
      destruct (Z.ltb_spec 0 (len a + len core - lastPos)); [done|]. replace lastPos with (len a + len core) by lia.
      by rewrite slice_empty, app_nil_r.
    + assert (is_mark c = false) as -> by (unfold is_mark; codes). eauto 10 with lia.
Qed.

Lemma scan_step_spec url pre c codes st :
  url = pre ++ c :: codes -> scanned url pre st -> scanned url (pre ++ [c]) (scan_step url (len pre) c st).
Proof.
  intros Hu Hs. unfold scan_step. destruct Hs as [pre Hws|a core x z b rest lastPos st Ha Hb Hx Hx' Hz Hz' Hl Hr H0 ->].
  - cbn [Z.eqb Pos.eqb]. destruct (is_ws c) eqn:Ec; [apply scanned_none, Forall_app; by repeat constructor|].
    destruct (scan_convert_spec url pre [] c codes [] (len pre) (-1) false) as (r' & l' & E & Hl & Hr & H0); try done.
    { rewrite len_nil. lia. }
    { by rewrite len_nil, Z.add_0_r, slice_empty. }
    cbn [has_hash existsb app] in E. rewrite len_nil, Z.add_0_r in E. rewrite E.
    replace (pre ++ [c]) with (pre ++ [c] ++ []) by done. by eapply (scanned_some url pre [c] c c []); try apply Forall_nil.
  - assert (Hneg : (len a =? -1) = false) by (pose proof (len_nonneg a); lia). rewrite Hneg.
    destruct (is_ws c) eqn:Ec.
    + destruct (ws_plain c Ec) as (Hm & Hbs & Hh).
      assert (Hskip : forall s, scan_convert url (len (a ++ core ++ b)) c s = s).
      { intros [h1 h2 h3 h4 h5 h6 h7]. unfold scan_convert. rewrite Hh, Hbs, andb_false_r.
        assert (Hq : (c =? CHAR_QUESTION_MARK) = false) by (unfold is_mark in Hm; codes). rewrite Hq. by destruct h7. }
      rewrite !Hskip, <- !app_assoc. apply (scanned_some url a core x z (b ++ [c]) rest lastPos); try done.
      * apply Forall_app. by repeat constructor.
      * destruct b; cbn [app]; [|done]. by rewrite app_nil_r, len_app.
    + destruct (scan_convert_spec url a (core ++ b) c codes rest lastPos (-1) false) as (r' & l' & E & Hl' & Hr' & H0').
      * rewrite Hu, <- !app_assoc. done.
      * done.
      * rewrite len_app. pose proof (len_nonneg b). lia.
      * rewrite turn_slashes_ws, <- Hr, <- app_assoc by done. f_equal.
        assert (Hu' : url = (a ++ core) ++ b ++ c :: codes) by (by rewrite Hu, <- !app_assoc).
        rewrite Hu', len_app, Z.add_assoc, <- (len_app a core). apply slice_extend. rewrite len_app. pose proof (len_nonneg a). lia.
      * done.
      * destruct (has_hash_ws b Hb) as [Hh Hm]. rewrite (has_hash_app core b), (existsb_app _ core b), Hh, Hm, !orb_false_r in E.
        rewrite len_app. replace ((a ++ core ++ b) ++ [c]) with (a ++ ((core ++ b) ++ [c]) ++ []) by (by rewrite app_nil_r, <- !app_assoc).
        apply (scanned_some url a ((core ++ b) ++ [c]) x c [] r' l'); try done.
        -- by apply Forall_nil.
        -- by destruct core.
        -- apply last_snoc.
        -- destruct b; rewrite E; done.
Qed.

Lemma scan_loop_spec url codes pre st :
  url = pre ++ codes -> scanned url pre st -> scanned url url (scan_loop url codes (len pre) st).
Proof.
  revert pre st. induction codes as [|c codes IH]; intros pre st Hu Hs; cbn [scan_loop].
  - rewrite app_nil_r in Hu. by rewrite Hu at 2.
  - replace (len pre + 1) with (len (pre ++ [c])) by (by rewrite len_app). apply IH; [by rewrite <- app_assoc|].
    by eapply scan_step_spec.
Qed.

Lemma prepare_spec url : prepare url = (has_hash url, turn_slashes (trim url)).
Proof.
  unfold prepare. pose proof (scan_loop_spec url url [] _ eq_refl (scanned_none url [] (Forall_nil_2 _))) as H.
  rewrite len_nil in H. assert (Hp : exists pre, scanned url pre (scan_loop url url 0 (Scan false (-1) (-1) [] 0 false false)) /\ pre = url) by eauto.
  clear H. destruct Hp as (pre & H & Hurl). revert H. generalize (scan_loop url url 0 (Scan false (-1) (-1) [] 0 false false)). intros s H.
  destruct H as [pre Hws|a core x z b rest' lp' st' Ha Hb Hx Hx' Hz Hz' Hl Hr H0 ->].
  - cbn [Z.eqb Pos.eqb negb]. subst pre. destruct (has_hash_ws url Hws) as [-> _]. f_equal.
    unfold trim. rewrite <- (app_nil_r url), trim_start_ws by done. done.
  - assert (Ht : trim url = core) by (rewrite <- Hurl; by apply (trim_core a core x z b)). rewrite Ht.
    assert (Hh : has_hash url = has_hash (a ++ core ++ b)) by (by rewrite Hurl). rewrite Hh, !has_hash_app.
    destruct (has_hash_ws a Ha) as [-> _], (has_hash_ws b Hb) as [-> _]. rewrite orb_false_l, orb_false_r. f_equal.
    assert ((len a =? -1) = false) as -> by (pose proof (len_nonneg a); lia). cbn [negb].
    assert (Hlen : len url = len a + len core + len b) by (rewrite <- Hurl, !len_app; lia).
    rewrite <- Hr. pose proof (len_nonneg core). pose proof (len_nonneg a). destruct b as [|y b].
    + cbn [Z.eqb Pos.eqb negb andb]. rewrite len_nil, Z.add_0_r in Hlen. rewrite <- Hlen in *. change (slice url lp' (len url)) with (slice_from url lp').
      destruct (Z.eqb_spec lp' (len a)) as [->|]; [rewrite H0 by done; case_match; [|done]|].
      * assert (Z0 : len a = 0) by lia. rewrite Z0. by rewrite slice_from_0.
      * destruct (Z.ltb_spec lp' (len url)); [done|]. replace lp' with (len url) by lia. by rewrite slice_from_end, app_nil_r.
    + assert ((len a + len core =? -1) = false) as -> by lia. cbn [negb andb].
      destruct (Z.eqb_spec lp' (len a)) as [->|]; [by rewrite H0|].
      destruct (Z.ltb_spec lp' (len a + len core)); [done|]. replace lp' with (len a + len core) by lia. by rewrite slice_empty, app_nil_r.
Qed.

(** The three scanning loops of url.ts do what they are for: the text that is
    parsed is the input without white space at its ends and with slashes for the
    backslashes before the first [?] or [#]; [autoEscapeStr] and the loop of
    [format] replace each unsafe character and keep the others. *)
Theorem scanning_loops (s : jsstr) :
  prepare s = (has_hash s, turn_slashes (trim s))
  /\ autoEscapeStr s = mbind (M := list) (fun c => default [c] (escapedCodes c)) s
  /\ escape_pathname s = mbind (M := list) (fun c => default [c] (path_escape c)) s.
Proof. split; [apply prepare_spec|]. split; [apply autoEscapeStr_replaced|apply escape_pathname_replaced]. Qed.

(** ** What [parse] guarantees *)

Definition free_of (l : list Z) (s : jsstr) : Prop := forall c, c ∈ s -> is_in l c = false.

(** The text of the port in a host. *)
Definition port_text (u : Url) : jsstr := if truthy (port u) then js ":" ++ or_empty (port u) else [].

(** A host is the hostname with the port; a hostname has no character that would
    end it, begin another part or be taken for white space. *)
Definition host_ok (u : Url) : Prop :=
  match hostname u with
  | None => host u = None /\ port u = None
  | Some h => exists h', host u = Some (h' ++ port_text u)
      /\ (h' = h /\ (h = [] \/ forbiddenHostChars h = false) \/ forbiddenHostCharsIpv6 h' = false /\ h = slice h' 1 (-1))
  end.

Definition port_ok (u : Url) : Prop := match port u with None => True | Some p => p <> [] /\ forallb is_digit p = true end.

Definition path_ok (u : Url) : Prop :=
  (forall p, pathname u = Some p -> p <> [] /\ free_of [CHAR_HASH; CHAR_QUESTION_MARK] p)
  /\ (forall s, search u = Some s -> exists q, s = CHAR_QUESTION_MARK :: q /\ free_of [CHAR_HASH] q /\ forall t, query_ u = QueryText t -> t = q)
  /\ (forall h, hash u = Some h -> exists t, h = CHAR_HASH :: t).

Lemma free_of_app l s t : free_of l (s ++ t) <-> free_of l s /\ free_of l t.
Proof. unfold free_of. setoid_rewrite elem_of_app. naive_solver. Qed.

Lemma free_of_cons l c s : free_of l (c :: s) <-> is_in l c = false /\ free_of l s.
Proof. unfold free_of. setoid_rewrite elem_of_cons. naive_solver. Qed.

Lemma free_of_nil l : free_of l [].
Proof. by intros c ?%elem_of_nil. Qed.

(** Text that begins with the character, or none. *)
Definition marked (c : Z) (s : jsstr) : Prop := s = [] \/ exists t, s = c :: t.

(** The text after the host: a path, a search and a hash. *)
Definition three_parts (rest p s h : jsstr) : Prop :=
  rest = p ++ s ++ h /\ free_of [CHAR_HASH; CHAR_QUESTION_MARK] p /\ marked CHAR_QUESTION_MARK s /\ free_of [CHAR_HASH] s /\ marked CHAR_HASH h.

Lemma three_parts_exist rest : exists p s h, three_parts rest p s h.
Proof.
  induction rest as [|c rest (p & s & h & -> & Hp & Hs & Hs' & Hh)].
  { exists [], [], []. split_and!; try apply free_of_nil; by try left. }
  destruct (Z.eqb_spec c CHAR_HASH) as [->|Hc]; [|destruct (Z.eqb_spec c CHAR_QUESTION_MARK) as [->|Hq]].
  - exists [], [], (CHAR_HASH :: p ++ s ++ h). split_and!; try apply free_of_nil; try (by left); try done. right. by eexists.
  - exists [], (CHAR_QUESTION_MARK :: p ++ s), h. split_and!; try apply free_of_nil; try done.
    + cbn [app]. by rewrite <- app_assoc.
    + right. by eexists.
    + apply free_of_cons. split; [done|]. apply free_of_app. split; [|done]. intros d Hd. specialize (Hp d Hd). codes.
  - exists (c :: p), s, h. split_and!; try done. apply free_of_cons. split; [codes|done].
Qed.

Lemma split_loop_hash a h i q :
  q <> -1 -> free_of [CHAR_HASH] a -> marked CHAR_HASH h ->
  split_loop (a ++ h) i q = (q, match h with [] => -1 | _ => i + len a end).
Proof.
  intros Hq Ha Hh. revert i. induction a as [|c a IH]; intros i; cbn [app].
  - destruct Hh as [->|[t ->]]; [done|]. simpl. by rewrite len_nil, Z.add_0_r.
  - apply free_of_cons in Ha as [Hc Ha]. cbn [split_loop].
    assert ((c =? CHAR_HASH) = false) as -> by codes.
    rewrite (proj2 (Z.eqb_neq q (-1)) Hq), andb_false_r, IH by done. f_equal. rewrite len_cons. destruct h; lia.
Qed.

Lemma split_loop_parts rest p s h i :
  0 <= i -> three_parts rest p s h ->
  split_loop rest i (-1) = (match s with [] => -1 | _ => i + len p end, match h with [] => -1 | _ => i + len p + len s end).
Proof.
  intros Hi (-> & Hp & Hs & Hs' & Hh). revert i Hi. induction p as [|c p IH]; intros i Hi; cbn [app].
  - destruct Hs as [->|[t ->]].
    + destruct Hh as [->|[t ->]]; simpl; [done|]. by rewrite len_nil, !Z.add_0_r.
    + apply free_of_cons in Hs' as [_ Ht]. cbn [app split_loop]. change (CHAR_QUESTION_MARK =? CHAR_HASH) with false.
      cbv iota. rewrite Z.eqb_refl. cbn [andb Z.eqb Pos.eqb]. rewrite split_loop_hash by (done || lia).
      rewrite len_nil, len_cons. f_equal; [lia|]. destruct h; lia.
  - apply free_of_cons in Hp as [Hc Hp]. cbn [split_loop].
    assert ((c =? CHAR_HASH) = false) as -> by codes. assert ((c =? CHAR_QUESTION_MARK) = false) as -> by codes.
    cbn [andb]. rewrite IH by (done || lia). rewrite len_cons. f_equal; destruct s, h; lia.
Qed.

Section Parse.
Context {web : WebText} {crate : IdnaCrate}.

(** [parse_rest] without the places. *)
Definition take_parts (p s h : jsstr) (parseQueryString : bool) (u : Url) : result Url :=
  let u := match h with [] => u | _ => set_hash (Some h) u end in
  let! u :=
    match s with
    | [] => Ok (if parseQueryString then u |> set_search None |> set_query_ (QueryObject []) else u)
    | _ :: query =>
        let! q := if parseQueryString then parse_query query else Ok (QueryText query) in
        Ok (u |> set_search (Some s) |> set_query_ q)
    end in
  Ok (match p with [] => u | _ => set_pathname (Some p) u end).

Lemma parse_rest_parts rest p s h pq u : three_parts rest p s h -> parse_rest rest pq u = take_parts p s h pq u.
Proof.
  intros H. unfold parse_rest, take_parts. rewrite (split_loop_parts rest p s h 0) by (done || lia).
  destruct H as (-> & Hp & Hs & Hs' & Hh). rewrite !Z.add_0_l.
  pose proof (len_nonneg p) as Lp. pose proof (len_nonneg s) as Ls.
  pose proof (slice_from_suffix (p ++ s) h) as E1. rewrite <- app_assoc, len_app in E1.
  pose proof (slice_mid p s h) as E2. pose proof (slice_prefix p (s ++ h)) as E3.
  assert (Hfirst : forall (u : Url) k, k = len p -> s ++ h <> [] ->
    (if k =? -1 then (if 0 <? len (p ++ s ++ h) then set_pathname (Some (p ++ s ++ h)) u else u)
     else if 0 <? k then set_pathname (Some (slice (p ++ s ++ h) 0 k)) u else u)
    = match p with [] => u | _ => set_pathname (Some p) u end).
  { intros v k -> _. rewrite (proj2 (Z.eqb_neq (len p) (-1))), E3 by lia. by destruct p. }
  assert (Hh' : (match h with [] => -1 | _ => len p + len s end =? -1) = match h with [] => true | _ => false end)
    by (destruct h; [done|lia]).
  assert (Hu : (if match h with [] => true | _ => false end then u
    else set_hash (Some (slice_from (p ++ s ++ h) match h with [] => -1 | _ => len p + len s end)) u)
    = match h with [] => u | _ => set_hash (Some h) u end) by (destruct h; [done|by rewrite E1]).
  rewrite Hh', Hu. destruct Hs as [->|[q ->]].
  - cbn [negb andb Z.eqb Pos.eqb rbind]. f_equal. destruct Hh as [->|[t ->]].
    + cbn [app Z.eqb Pos.eqb]. rewrite app_nil_r. by destruct p.
    + rewrite Hfirst; [done|by rewrite len_nil; lia|done].
  - rewrite (proj2 (Z.eqb_neq (len p) (-1))) by lia. cbn [negb].
    assert (Hend : (if match h with [] => true | _ => false end then len (p ++ (CHAR_QUESTION_MARK :: q) ++ h)
      else match h with [] => -1 | _ => len p + len (CHAR_QUESTION_MARK :: q) end) = len p + len (CHAR_QUESTION_MARK :: q)).
    { destruct h; [|done]. by rewrite app_nil_r, len_app. }
    rewrite Hend, E2. pose proof (slice_mid (p ++ [CHAR_QUESTION_MARK]) q h) as E4.
    rewrite <- app_assoc, len_app in E4. change (len [CHAR_QUESTION_MARK]) with 1 in E4.
    rewrite len_cons, Z.add_assoc. cbn [app] in E4 |- *. rewrite E4.
    destruct (if pq then _ else _) as [qf|]; [|done]. cbn [rbind]. f_equal.
    assert (Hu' : (true && (match h with [] => true | _ => false end || (len p <? match h with [] => -1 | _ => len p + 1 + len q end))) = true).
    { pose proof (len_nonneg q). destruct h; [done|]. cbn [orb andb]. lia. }
    rewrite Hu'. by apply Hfirst.
Qed.

(** The properties that the part with the host does not touch. *)
Definition others (u : Url) := (protocol u, slashes u, hash u, search u, query_ u, pathname u, path u, href u).

Lemma portPattern_spec s p : portPattern s = Some p -> exists q, s = q ++ p /\ exists d, p = CHAR_COLON :: d /\ forallb is_digit d = true.
Proof.
  induction s as [|c s IH]; [done|]. simpl. destruct (Z.eqb_spec c CHAR_COLON) as [->|]; cbn [andb].
  - destruct (forallb is_digit s) eqn:E; [intros [= <-]; exists []; eauto|].
    intros H. destruct (IH H) as (q & -> & Hd). by exists (CHAR_COLON :: q).
  - intros H. destruct (IH H) as (q & -> & Hd). by exists (c :: q).
Qed.

Lemma parseHost_ok u :
  port u = None -> hostname u = None ->
  port_ok (parseHost u) /\ others (parseHost u) = others u /\ auth (parseHost u) = auth u.
Proof.
  intros Hp Hh. unfold parseHost. destruct (portPattern _) as [p|] eqn:E.
  - destruct (portPattern_spec _ _ E) as (q & _ & d & -> & Hd). unfold str_eqb.
    pose proof (slice_from_suffix [CHAR_COLON] d) as Es. change (slice_from (CHAR_COLON :: d) 1 = d) in Es. rewrite Es.
    case_bool_decide as Hc; case_match; unfold port_ok; cbn [port set_port set_hostname]; rewrite ?Hp; try done;
      (split; [|done]); (split; [|done]); by intros ->.
  - case_match; unfold port_ok; by rewrite ?Hp; cbn [port set_hostname]; rewrite ?Hp.
Qed.

Lemma checked_hostname_ok url h ipv6 h' :
  checked_hostname url h ipv6 = Ok h' ->
  h' = [] \/ if ipv6 : bool then forbiddenHostCharsIpv6 h' = false else forbiddenHostChars h' = false.
Proof.
  unfold checked_hostname. case_match; [intros [= <-]; by left|].
  destruct (toLowerCase h) as [|c l]; [intros [= <-]; by left|]. destruct ipv6.
  - destruct (forbiddenHostCharsIpv6 _) eqn:E; [done|]. intros [= <-]. by right.
  - destruct (idnaToASCII _) as [t|]; [|done]. cbn [rbind]. destruct (len t =? 0); [done|]. cbn [orb].
    destruct (forbiddenHostChars t) eqn:E; [done|]. intros [= <-]. by right.
Qed.

Lemma getHostname_ok u rest h : others (getHostname u rest h).1 = others u /\ port (getHostname u rest h).1 = port u.
Proof. unfold getHostname. by destruct (getHostname_loop _ _ _) as [[]|]. Qed.

Lemma parse_host_part_ok url rest u u' rest' :
  port u = None -> hostname u = None -> parse_host_part url rest u = Ok (u', rest') ->
  host_ok u' /\ port_ok u' /\ others u' = others u.
Proof.
  intros Hp Hh. unfold parse_host_part. destruct (host_loop _ _ _ _) as [atSign nonHost].
  assert (Ha : forall v, (if negb (atSign =? -1) then let! a := uri_component (slice rest 0 atSign) in Ok (set_auth (Some a) u) else Ok u) = Ok v ->
    port v = None /\ hostname v = None /\ others v = others u).
  { intros v. case_match; [|by intros [= <-]]. destruct (uri_component _); [|done]. by intros [= <-]. }
  destruct (if negb (atSign =? -1) then _ else _) as [v|]; [|done]. destruct (Ha v eq_refl) as (Hv1 & Hv2 & Hv3). clear Ha. cbn [rbind].
  set (w := if nonHost =? -1 then _ else _).
  assert (Hw : port w.1 = None /\ hostname w.1 = None /\ others w.1 = others u) by (unfold w; by case_match).
  destruct w as [w rest1]. destruct Hw as (Hw1 & Hw2 & Hw3). cbn [fst] in *.
  destruct (parseHost_ok w Hw1 Hw2) as (Hq1 & Hq2 & _). set (x := match hostname (parseHost w) with Some _ => _ | None => _ end).
  assert (Hx : port_ok x /\ others x = others u) by (unfold x; case_match; (split; [done|transitivity (others (parseHost w)); [done|congruence]])).
  destruct Hx as [Hx1 Hx2]. generalize dependent x. intros x Hx1 Hx2. set (ip := isIpv6Hostname _).
  set (y := if ip then _ else _). assert (Hy : port_ok y.1 /\ others y.1 = others u).
  { unfold y. destruct ip; [done|]. unfold port_ok. destruct (getHostname_ok x rest1 (or_empty (hostname x))) as [-> ->]. done. }
  destruct y as [y rest2]. destruct Hy as [Hy1 Hy2]. cbn [fst] in *.
  destruct (checked_hostname _ _ _) as [h|] eqn:Ec; [|done]. apply checked_hostname_ok in Ec. cbn [rbind].
  destruct ip; intros [= <- <-]; (split; [|split; done]); unfold host_ok; cbn [hostname set_host set_hostname host].
  - exists h. split; [done|]. right. split; [by destruct Ec as [->|]|done].
  - exists h. split; [done|]. by left.
Qed.

Lemma replaced_same f s : (forall c, c ∈ s -> f c = None) -> replaced f s = s.
Proof.
  unfold replaced. induction s as [|c s IH]; intros H; [done|]. rewrite bind_cons, H by left.
  cbn [default app]. rewrite IH; [done|]. intros d Hd. apply H. by right.
Qed.

Lemma escape_pathname_same s : free_of [CHAR_HASH; CHAR_QUESTION_MARK] s -> escape_pathname s = s.
Proof.
  intros Hs. rewrite escape_pathname_replaced. apply replaced_same. intros c Hc. specialize (Hs c Hc). unfold path_escape.
  assert ((c =? CHAR_HASH) = false) as -> by codes. by assert ((c =? CHAR_QUESTION_MARK) = false) as -> by codes.
Qed.

Lemma escape_hash_same s : free_of [CHAR_HASH] s -> escape_hash s = s.
Proof.
  unfold escape_hash. induction s as [|c s IH]; [done|]. rewrite free_of_cons, bind_cons. intros [Hc Hs].
  assert ((c =? CHAR_HASH) = false) as -> by codes. cbn [app]. by rewrite IH.
Qed.

(** [format] does not look at the path or the text that it makes. *)
Lemma format_alike u v p h : format (set_href h (set_path p u)) = format u /\ format (set_href v u) = format u.
Proof. done. Qed.

(** The properties that do not come from the host. *)
Definition rest_ok (u : Url) : Prop :=
  path_ok u /\ path u = (if truthy (pathname u) || truthy (search u) then Some (or_empty (pathname u) ++ or_empty (search u)) else None)
  /\ forall t, format u = Ok t -> href u = Some t.

Lemma span_spec (p : Z -> bool) s : s = (span p s).1 ++ (span p s).2 /\ forall c, c ∈ (span p s).1 -> p c = true.
Proof.
  induction s as [|c s [IH1 IH2]]; simpl; [split; [done|by intros ? ?%elem_of_nil]|].
  destruct (p c) eqn:E; [|split; [done|by intros ? ?%elem_of_nil]]. destruct (span p s) as [a b]. simpl in *. subst.
  split; [done|]. intros d [->|Hd]%elem_of_cons; auto.
Qed.

Lemma simplePathPattern_spec s a b :
  simplePathPattern s = Some (a, b) ->
  s = a ++ b /\ (exists t, a = 47 :: t) /\ free_of [CHAR_QUESTION_MARK] a /\ marked CHAR_QUESTION_MARK b.
Proof.
  intros H. assert (Hs : exists t, s = 47 :: t).
  { unfold simplePathPattern in H. destruct s as [|c t]; [done|]. exists t. by repeat (case_match; try done). }
  destruct Hs as [t ->]. set (p := fun c => negb (c =? CHAR_QUESTION_MARK) && negb (is_space c)).
  destruct (span_spec p (47 :: t)) as [E1 E2].
  assert (H' : (let '(a, b) := span p (47 :: t) in
    match b with [] => Some (a, []) | c :: _ => if (c =? CHAR_QUESTION_MARK) && forallb (fun c => negb (is_space c)) b then Some (a, b) else None end)
    = Some (a, b)).
  { unfold simplePathPattern in H. by repeat (case_match; try done). }
  clear H. rewrite E1. assert (E3 : exists t', (span p (47 :: t)).1 = 47 :: t').
  { cbn [span]. change (p 47) with true. cbv iota. destruct (span p t). by eexists. }
  destruct (span p (47 :: t)) as [x y]. cbn [fst snd] in *.
  assert (Hf : free_of [CHAR_QUESTION_MARK] x).
  { intros c Hc. specialize (E2 c Hc). unfold p in E2. apply andb_true_iff in E2 as [E2 _]. codes. }
  destruct y as [|c y]; [injection H' as <- <-; split_and!; try done; by left|].
  destruct (Z.eqb_spec c CHAR_QUESTION_MARK) as [->|]; [|done]. cbn [andb] in H'. case_match; [|done].
  injection H' as <- <-. split_and!; try done. right. by eexists.
Qed.

Lemma turn_slashes_hash s : has_hash (turn_slashes s) = has_hash s.
Proof.
  induction s as [|c s IH]; [done|]. simpl. case_match; [done|]. simpl. rewrite IH. f_equal. case_match; [codes|done].
Qed.

Lemma has_hash_free s : has_hash s = false <-> free_of [CHAR_HASH] s.
Proof.
  unfold has_hash, free_of. split.
  - intros H c Hc. apply not_true_iff_false. intros Hn. apply not_true_iff_false in H. apply H, existsb_exists.
    exists c. split; [by apply list_elem_of_In|codes].
  - intros H. apply not_true_iff_false. intros (c & Hc & E)%existsb_exists. apply list_elem_of_In, H in Hc. codes.
Qed.

Lemma trim_start_sub s c : c ∈ trim_start s -> c ∈ s.
Proof. induction s as [|d s IH]; [done|]. simpl. case_match; [|done]. intros H'. right. auto. Qed.

Lemma trim_sub s c : c ∈ trim s -> c ∈ s.
Proof. unfold trim. by intros ?%elem_of_reverse%trim_start_sub%elem_of_reverse%trim_start_sub. Qed.

Lemma format_plain u p s t :
  protocol u = None -> slashes u = None -> auth u = None -> host u = None -> hostname u = None -> hash u = None ->
  pathname u = Some p -> free_of [CHAR_HASH; CHAR_QUESTION_MARK] p ->
  or_empty (search u) = s -> marked CHAR_QUESTION_MARK s -> free_of [CHAR_HASH] s ->
  (forall q, query_ u = QueryObject q -> s = [] -> q = []) -> format u = Ok t -> t = p ++ s.
Proof.
  intros Hp Hs Ha Hh Hn Hx Hpath Hpf Hse Hm Hf Hq. unfold format. rewrite Ha, Hp, Hx, Hpath. cbn [truthy or_empty default rbind].
  destruct (match query_ u with QueryObject _ => _ | _ => _ end) as [q|] eqn:Eq; [|done]. cbn [rbind].
  unfold format_host. rewrite Hh, Hn. cbn [truthy]. cbn [len length Z.of_nat Z.eqb negb andb].
  unfold format_slashes. rewrite Hs. change (slashedProtocol []) with false. cbn [orb app].
  rewrite escape_pathname_same by done. intros [= <-]. f_equal. rewrite app_nil_r.
  match goal with |- context [escape_hash ?x] => assert (Hsearch : x = s) end.
  { destruct (truthy (search u)) eqn:Et; [done|].
    assert (s = []) as Es by (rewrite <- Hse; by destruct (search u) as [[]|]).
    rewrite Es. destruct (query_ u) as [| |obj]; [by injection Eq as <-..|]. rewrite (Hq obj) in Eq by done. by injection Eq as <-. }
  rewrite Hsearch, escape_hash_same by done. by destruct Hm as [->|[r ->]].
Qed.

Lemma parse_simple_ok rest a b pq u :
  simplePathPattern rest = Some (a, b) -> free_of [CHAR_HASH] rest -> parse_simple rest a b pq = Ok u ->
  host_ok u /\ port_ok u /\ rest_ok u.
Proof.
  intros E Hf. apply simplePathPattern_spec in E as (-> & [t ->] & Ha & Hb). apply free_of_app in Hf as [Hfa Hfb].
  assert (Hp : free_of [CHAR_HASH; CHAR_QUESTION_MARK] (47 :: t)).
  { intros c Hc. specialize (Ha c Hc). specialize (Hfa c Hc). codes. }
  assert (Hgo : forall v, protocol v = None -> slashes v = None -> auth v = None -> host v = None -> hostname v = None -> port v = None ->
    hash v = None -> pathname v = Some (47 :: t) -> path v = Some ((47 :: t) ++ b) -> href v = Some ((47 :: t) ++ b) ->
    search v = match b with [] => None | _ => Some b end ->
    (forall x, query_ v = QueryText x -> b = CHAR_QUESTION_MARK :: x) -> (forall x, query_ v = QueryObject x -> b = [] -> x = []) ->
    host_ok v /\ port_ok v /\ rest_ok v).
  { intros v H1 H2 H3 H4 H5 H6 H7 H8 H9 H10 H11 H12 H13. unfold host_ok, port_ok, rest_ok, path_ok. rewrite H4, H5, H6. split_and!; try done.
    - rewrite H8. by intros p [= <-].
    - rewrite H11. destruct b as [|c q]; [done|]. intros p [= <-]. exists q. destruct Hb as [|[q' [= -> ->]]]; [done|].
      split; [done|]. split; [by apply free_of_cons in Hfb as [_ ?]|]. intros x Hx. by injection (H12 x Hx) as ->.
    - by rewrite H7.
    - rewrite H8, H9, H11. by destruct b.
    - intros x Hx. rewrite H10. f_equal. symmetry. apply (format_plain v (47 :: t) b x); try done. rewrite H11. by destruct b. }
  unfold parse_simple. destruct Hb as [->|[q ->]].
  - intros [= <-]. rewrite app_nil_r in *. apply Hgo; destruct pq; try done; cbn; congruence.
  - pose proof (slice_from_suffix [CHAR_QUESTION_MARK] q) as Es. change (slice_from (CHAR_QUESTION_MARK :: q) 1 = q) in Es. rewrite Es.
    destruct pq; [|intros [= <-]; apply Hgo; try done; cbn; congruence].
    unfold parse_query. destruct (Querystring.parse _ _ _ _ _); [|done]. intros [= <-]. apply Hgo; try done; cbn; congruence.
Qed.

Lemma take_parts_ok rest p s h pq u v :
  three_parts rest p s h -> hash u = None -> search u = None -> pathname u = None -> query_ u = NoQuery ->
  take_parts p s h pq u = Ok v ->
  path_ok v /\ path v = path u /\ href v = href u /\ host v = host u /\ port v = port u /\ hostname v = hostname u /\ protocol v = protocol u.
Proof.
  intros (_ & Hp & Hs & Hs' & Hh) H1 H2 H3 H4. unfold take_parts. set (w := match h with [] => u | _ => _ end).
  assert (Hw : (hash w = None \/ exists t, hash w = Some (CHAR_HASH :: t)) /\ search w = None /\ pathname w = None /\ query_ w = NoQuery
    /\ path w = path u /\ href w = href u /\ host w = host u /\ port w = port u /\ hostname w = hostname u /\ protocol w = protocol u).
  { unfold w. destruct Hh as [->|[t ->]]; [by split; [left|]|]. split; [right; by eexists|done]. }
  clearbody w. destruct Hw as (Hw1 & Hw2 & Hw3 & Hw4 & Hw).
  assert (Hgo : forall x, pathname x = None -> hash x = hash w -> path x = path w -> href x = href w -> host x = host w -> port x = port w ->
    hostname x = hostname w -> protocol x = protocol w ->
    (forall y, search x = Some y -> exists q, y = CHAR_QUESTION_MARK :: q /\ free_of [CHAR_HASH] q /\ forall t, query_ x = QueryText t -> t = q) ->
    v = match p with [] => x | _ => set_pathname (Some p) x end ->
    path_ok v /\ path v = path u /\ href v = href u /\ host v = host u /\ port v = port u /\ hostname v = hostname u /\ protocol v = protocol u).
  { intros x X1 X2 X3 X4 X5 X6 X7 X8 X9 ->. unfold path_ok. split; [|by destruct p; cbn; rewrite X3, X4, X5, X6, X7, X8].
    split; [|split].
    - intros p' E. destruct p; cbn in E; [congruence|]. by injection E as <-.
    - intros y E. destruct p; by apply X9.
    - intros y E. replace (hash _) with (hash w) in E by (by destruct p). destruct Hw1 as [E'|[t E']]; rewrite E' in E; [done|].
      injection E as <-. by eexists. }
  destruct Hs as [->|[q ->]].
  - cbn [rbind]. intros [= E]. eapply Hgo; [..|symmetry; exact E]; destruct pq; try done; cbn; congruence.
  - apply free_of_cons in Hs' as [_ Hq]. destruct (if pq then _ else _) as [f|] eqn:Ef; [|done]. cbn [rbind]. intros [= E].
    eapply Hgo; [..|symmetry; exact E]; try done; cbn.
    intros y [= <-]. exists q. split; [done|]. split; [done|]. intros t ->. destruct pq; [|by injection Ef as ->].
    unfold parse_query in Ef. by destruct (Querystring.parse _ _ _ _ _).
Qed.

Lemma parse_full_ok url rest pq sd u : parse_full url rest pq sd = Ok u -> host_ok u /\ port_ok u /\ rest_ok u.
Proof.
  unfold parse_full. set (lower := match protocolPattern rest with Some p => toLowerCase p | None => [] end).
  set (u0 := match protocolPattern rest with Some _ => set_protocol _ _ | None => _ end).
  set (sl := _ && is_code (charCodeAt _ 1) CHAR_FORWARD_SLASH). set (w := if sl && _ then _ else _).
  assert (Hw : auth w.1 = None /\ host w.1 = None /\ port w.1 = None /\ hostname w.1 = None
    /\ exists p s, others w.1 = (p, s, None, None, NoQuery, None, None, None)).
  { unfold w, u0. destruct (protocolPattern rest); case_match; cbn; eauto 10. }
  destruct w as [w r1]. destruct Hw as (_ & Hw2 & Hw3 & Hw4 & p & s & Ho). cbn [fst] in *.
  destruct (if negb _ && _ then _ else _) as [[v r2]|] eqn:Ev; [|done].
  assert (Hv : host_ok v /\ port_ok v /\ others v = (p, s, None, None, NoQuery, None, None, None)).
  { rewrite <- Ho. destruct (negb _ && _); [by eapply parse_host_part_ok|]. injection Ev as <- <-.
    unfold host_ok, port_ok. by rewrite Hw2, Hw3, Hw4. }
  destruct Hv as (V1 & V2 & V3). injection V3 as V3 V4 V5 V6 V7 V8 V9 V10. cbn [rbind].
  set (r3 := if unsafeProtocol lower then r2 else _). destruct (three_parts_exist r3) as (pp & ss & hh & H3).
  rewrite (parse_rest_parts r3 pp ss hh) by done. destruct (take_parts _ _ _ _ _) as [x|] eqn:Ex; [|done].
  destruct (take_parts_ok r3 pp ss hh pq v x) as (X1 & X2 & X3 & X4 & X5 & X6 & X7); try done. cbn [rbind].
  set (y := if slashedProtocol lower && _ && _ then _ else _).
  assert (Y : path_ok y /\ path y = None /\ host_ok y /\ port_ok y).
  { assert (host_ok x /\ port_ok x) as [] by (unfold host_ok, port_text, port_ok; rewrite X4, X5, X6; done).
    unfold y. destruct (slashedProtocol lower && _ && _); [|split_and!; [done|congruence|done|done]]. split_and!; [|cbn; congruence|done|done].
    destruct X1 as (_ & P2 & P3). split; [|split; [exact P2|exact P3]]. intros q [= <-]. split; [done|].
    intros c [<-|[]]%list_elem_of_In. done. }
  clearbody y. destruct Y as (Y1 & Y2 & Y3 & Y4). unfold with_href.
  destruct (format (with_path y)) as [t|] eqn:Ef; [|done]. cbn [rbind]. intros [= <-].
  unfold with_path in *. destruct (truthy (pathname y) || truthy (search y)) eqn:Ep.
  - split; [exact Y3|]. split; [exact Y4|]. split; [exact Y1|]. split; [cbn; by rewrite Ep|]. intros t' Et. cbn.
    assert (Ok t = Ok t') by (etrans; [symmetry; exact Ef|exact Et]). congruence.
  - split; [exact Y3|]. split; [exact Y4|]. split; [exact Y1|]. split; [cbn; by rewrite Ep|]. intros t' Et. cbn.
    assert (Ok t = Ok t') by (etrans; [symmetry; exact Ef|exact Et]). congruence.
Qed.

(** What [parse] returns is a URL whose parts can be told apart: the hostname has
    none of the characters that would end it or make it another host, and the
    host is the hostname with the port; the port is digits; the path has no [?]
    and no [#], the search begins with [?] and has no [#], and the hash begins with
    [#]; [path] is the path with the search; and [href] is what [format] gives. *)
Theorem parse_well_formed (url : jsstr) (parseQueryString slashesDenoteHost : bool) (u : Url) :
  LegacyUrl.parse url parseQueryString slashesDenoteHost = Ok u -> host_ok u /\ port_ok u /\ rest_ok u.
Proof.
  unfold LegacyUrl.parse, urlParse. rewrite prepare_spec.
  destruct (if negb _ && negb _ then _ else _) as [[a b]|] eqn:E; [|apply parse_full_ok].
  destruct slashesDenoteHost; [done|]. destruct (has_hash url) eqn:Eh; [done|]. apply parse_simple_ok; [done|].
  apply has_hash_free. rewrite turn_slashes_hash. apply has_hash_free. rewrite has_hash_free in Eh. intros c Hc. by apply Eh, trim_sub.
Qed.
End Parse.

Definition same_names : IdnaCrate := {|
  encode_str l := None;
  decode_to_string e := None;
  to_lowercase s := ascii_lower <$> s;
  domain_to_ascii s := Ok s;
  domain_to_unicode s := s
|}.

Lemma parse_well_formed_witness :
  exists u, @LegacyUrl.parse web_text same_names (js "  http://me@[::1]:80/a b?c#d") false false = Ok u
    /\ host u = Some (js "[::1]:80") /\ pathname u = Some (js "/a%20b") /\ host_ok u /\ port_ok u /\ rest_ok u.
Proof.
  eexists. split; [vm_compute; reflexivity|]. split; [reflexivity|]. split; [reflexivity|].
  apply (@parse_well_formed web_text same_names (js "  http://me@[::1]:80/a b?c#d") false false). vm_compute. reflexivity.
Defined.

(** ** [parse] undoes [format] *)

(** The characters of an encoded user name. *)
Definition auth_char (c : Z) : bool := is_letter c || is_digit c || is_in [33; 37; 39; 40; 41; 42; 45; 46; 58; 95; 126] c.

Lemma noEscapeAuth_char c : 0 <= c < 128 -> is_code (at_index noEscapeAuth c) 1 = true -> auth_char c = true.
Proof.
  intros Hc. assert (H : forallb (fun c => implb (is_code (at_index noEscapeAuth c) 1) (auth_char c)) (seqZ 0 128) = true)
    by (vm_compute; reflexivity).
  rewrite forallb_forall in H. specialize (H c). rewrite <- list_elem_of_In, elem_of_seqZ in H. specialize (H ltac:(lia)).
  intros E. by rewrite E in H.
Qed.

Lemma percent_char b c : is_byte b -> c ∈ percent b -> auth_char c = true.
Proof.
  intros Hb Hc. apply list_elem_of_In in Hc. unfold percent, upper_hex, is_byte in *. unfold auth_char. cbn in Hc.
  assert (0 <= b / 16 < 16) by div_lia. assert (0 <= b mod 16 < 16) by div_lia.
  repeat case_match; destruct Hc as [<-|[<-|[<-|[]]]]; codes.
Qed.

Definition auth_text (a : jsstr) : jsstr := mbind (M := list) (escape_with noEscapeAuth) (scalars a).

Lemma auth_text_chars a c : units16 a -> c ∈ auth_text a -> auth_char c = true.
Proof.
  intros Ha%scalars_ok Hc. unfold auth_text in Hc. apply list_elem_of_bind in Hc as (x & Hc & Hx).
  rewrite Forall_forall in Ha. specialize (Ha x Hx). unfold escape_with in Hc.
  destruct ((x <? 0x80) && _) eqn:E.
  - apply list_elem_of_singleton in Hc as ->. apply andb_true_iff in E as [E1 E2]. apply noEscapeAuth_char; [|done].
    unfold scalar in Ha. lia.
  - apply list_elem_of_bind in Hc as (b & Hc & Hb). apply (percent_char b); [|done].
    pose proof (utf8_ok x Ha) as Hu. unfold bytes_ok in Hu. rewrite Forall_forall in Hu. by apply Hu.
Qed.

(** The parts of a URL with a host; there is no search or hash when its text is
    empty. *)
Record parts := Parts {
  t_protocol : jsstr;
  t_auth : option jsstr;
  t_hostname : jsstr;
  t_port : option jsstr;
  t_pathname : jsstr;
  t_search : jsstr;
  t_hash : jsstr
}.

Definition some_text (s : jsstr) : option jsstr := match s with [] => None | _ => Some s end.
Definition t_host (p : parts) : jsstr := t_hostname p ++ match t_port p with Some n => js ":" ++ n | None => [] end.

Definition url_of (p : parts) (text : option jsstr) : Url :=
  MkUrl (Some (t_protocol p)) (Some true) (t_auth p) (Some (t_host p)) (t_port p) (Some (t_hostname p)) (some_text (t_hash p))
    (some_text (t_search p)) (match t_search p with [] => NoQuery | _ :: q => QueryText q end) (Some (t_pathname p))
    (Some (t_pathname p ++ t_search p)) text.

(** Characters that are not escaped and not trimmed. *)
Definition clean (s : jsstr) : Prop := forall c, c ∈ s -> escapedCodes c = None /\ is_ws c = false.
Definition host_char (c : Z) : bool := (97 <=? c) && (c <=? 122) || is_digit c || is_in [43; 45; 46; 95] c.

Definition parts_ok (p : parts) : Prop :=
  t_protocol p ∈ js <$> ["http:"; "https:"; "ftp:"; "gopher:"; "file:"; "ws:"; "wss:"]%string
  /\ match t_auth p with Some a => a <> [] /\ well_formed a | None => True end
  /\ t_hostname p <> [] /\ len (t_hostname p) <= hostnameMaxLen /\ forallb host_char (t_hostname p) = true
  /\ match t_port p with Some n => n <> [] /\ forallb is_digit n = true | None => True end
  /\ (exists r, t_pathname p = CHAR_FORWARD_SLASH :: r) /\ three_parts (t_pathname p ++ t_search p ++ t_hash p) (t_pathname p) (t_search p) (t_hash p)
  /\ clean (t_pathname p ++ t_search p ++ t_hash p).

Definition login (p : parts) : jsstr := match t_auth p with Some a => auth_text a ++ js "@" | None => [] end.
Definition tail (p : parts) : jsstr := t_pathname p ++ t_search p ++ t_hash p.
Definition text (p : parts) : jsstr := t_protocol p ++ js "//" ++ login p ++ t_host p ++ tail p.

Lemma protocol_facts q :
  q ∈ js <$> ["http:"; "https:"; "ftp:"; "gopher:"; "file:"; "ws:"; "wss:"]%string ->
  (len q =? 0) = false /\ is_code (charCodeAt q (len q - 1)) CHAR_COLON = true /\ slashedProtocol q = true /\ hostlessProtocol q = false
  /\ ascii_lower <$> q = q /\ ascii q /\ (forall r, protocolPattern (q ++ r) = Some q) /\ (forall c, c ∈ q -> is_ws c = false /\ c <> CHAR_BACKWARD_SLASH)
  /\ (forall r, simplePathPattern (q ++ r) = None).
Proof.
  intros (x & -> & Hx)%list_elem_of_fmap. apply list_elem_of_In in Hx.
  repeat destruct Hx as [<-|Hx]; try done; split_and!; try (vm_compute; reflexivity);
    try (unfold ascii; rewrite Forall_forall); intros c Hc; apply list_elem_of_In in Hc; cbn in Hc; try codes.
Qed.

Lemma some_text_or s : or_empty (some_text s) = s.
Proof. by destruct s. Qed.

Lemma or_empty_some s : or_empty (Some s) = s.
Proof. done. Qed.

Lemma format_url_of p t : parts_ok p -> format (url_of p t) = Ok (text p).
Proof.
  intros (Hp & Ha & Hh & _ & _ & _ & [r Hr] & (_ & Hf & Hs & Hs' & Hx) & _).
  destruct (protocol_facts _ Hp) as (P1 & P2 & P3 & _). unfold format, url_of. cbn [auth query_ search protocol pathname hash].
  assert (El : (if truthy (t_auth p) then let! a := encodeStr (or_empty (t_auth p)) noEscapeAuth hexTable in Ok (a ++ js "@") else Ok []) = Ok (login p)).
  { unfold login. destruct (t_auth p) as [a|]; [|done]. destruct Ha as [Ha [Hu Hw]]. cbn [or_empty default].
    rewrite encodeStr_text by done. by destruct a. }
  rewrite El. cbn [rbind]. unfold format_host. cbn [host].
  assert (truthy (Some (t_host p)) = true) as -> by (unfold t_host; by destruct (t_hostname p)).
  assert (Eq : (match match t_search p with [] => NoQuery | _ :: q => QueryText q end with
    QueryObject q => stringify (Some (as_object q)) None None None | _ => Ok [] end) = Ok []) by (by destruct (t_search p)).
  rewrite Eq. cbn [rbind]. rewrite !or_empty_some, P1, P2. cbn [negb andb].
  unfold format_slashes. cbn [slashes orb]. rewrite escape_pathname_same by done.
  rewrite !some_text_or. unfold text, tail. rewrite Hr at 1. rewrite Z.eqb_refl. f_equal. rewrite <- !app_assoc. do 5 f_equal.
  assert (Es : (if truthy (some_text (t_search p)) then t_search p else []) = t_search p) by (by destruct (t_search p)).
  rewrite Es, escape_hash_same by done. f_equal; [by destruct Hs as [->|[? ->]]|by destruct Hx as [->|[? ->]]].
Qed.

Lemma auth_char_facts c :
  auth_char c = true -> hostEndChar c = false /\ (c =? CHAR_AT) = false /\ is_ws c = false /\ c <> CHAR_BACKWARD_SLASH.
Proof. unfold auth_char, hostEndChar. codes. Qed.

Lemma host_char_facts c :
  host_char c = true -> hostEndChar c = false /\ (c =? CHAR_AT) = false /\ is_ws c = false /\ c <> CHAR_BACKWARD_SLASH
    /\ nonHostChar c = false /\ (c =? CHAR_COLON) = false /\ validHostChar c = true /\ 0 <= c < 128 /\ ascii_lower c = c
    /\ is_in [0; 9; 10; 13; 32; 35; 37; 47; 58; 60; 62; 63; 64; 91; 92; 93; 94; 124] c = false /\ (c =? CHAR_LEFT_SQUARE_BRACKET) = false.
Proof.
  unfold host_char, hostEndChar, nonHostChar, validHostChar, ascii_lower. intros H. split_and!; codes.
  case_match; [codes|done].
Qed.

Lemma host_loop_login a rest i at_ nh :
  (forall c, c ∈ a -> auth_char c = true) ->
  host_loop (a ++ CHAR_AT :: rest) i at_ nh = host_loop rest (i + len a + 1) (i + len a) (-1).
Proof.
  intros Ha. revert i nh. induction a as [|c a IH]; intros i nh; cbn [app host_loop].
  - change (nonHostChar CHAR_AT) with false. change (hostEndChar CHAR_AT) with false. rewrite Z.eqb_refl, len_nil, Z.add_0_r. done.
  - destruct (auth_char_facts c) as (-> & -> & _); [apply Ha; by left|].
    rewrite len_cons. assert (Ha' : forall c, c ∈ a -> auth_char c = true) by (intros d Hd; apply Ha; by right).
    destruct (nonHostChar c); rewrite (IH Ha'); f_equal; lia.
Qed.

Lemma host_loop_host h rest i at_ :
  (forall c, c ∈ h -> nonHostChar c = false /\ hostEndChar c = false /\ (c =? CHAR_AT) = false) ->
  host_loop (h ++ CHAR_FORWARD_SLASH :: rest) i at_ (-1) = (at_, i + len h).
Proof.
  intros Hh. revert i. induction h as [|c h IH]; intros i; cbn [app host_loop].
  - change (nonHostChar CHAR_FORWARD_SLASH) with false. change (hostEndChar CHAR_FORWARD_SLASH) with true. by rewrite len_nil, Z.add_0_r.
  - destruct (Hh c) as (-> & -> & ->); [by left|]. rewrite IH, len_cons; [f_equal; lia|]. intros d Hd. apply Hh. by right.
Qed.

Lemma portPattern_none h : (forall c, c ∈ h -> (c =? CHAR_COLON) = false) -> portPattern h = None.
Proof.
  induction h as [|c h IH]; intros Hh; [done|]. simpl. rewrite (Hh c) by left. apply IH. intros d Hd. apply Hh. by right.
Qed.

Lemma portPattern_port h n :
  (forall c, c ∈ h -> (c =? CHAR_COLON) = false) -> forallb is_digit n = true -> portPattern (h ++ CHAR_COLON :: n) = Some (CHAR_COLON :: n).
Proof.
  intros Hh Hn. induction h as [|c h IH]; simpl; [by rewrite Hn|]. rewrite (Hh c) by left. apply IH. intros d Hd. apply Hh. by right.
Qed.

Lemma getHostname_none s codes i : (forall c, c ∈ codes -> validHostChar c = true) -> getHostname_loop s codes i = None.
Proof.
  revert i. induction codes as [|c codes IH]; intros i H; [done|]. simpl. rewrite H by left. apply IH. intros d Hd. apply H. by right.
Qed.

Lemma forbidden_none h : (forall c, c ∈ h -> host_char c = true) -> forbiddenHostChars h = false.
Proof.
  intros H. apply not_true_iff_false. intros (c & Hc & E)%existsb_exists. apply list_elem_of_In, H, host_char_facts in Hc.
  destruct Hc as (_ & _ & _ & _ & _ & _ & _ & _ & _ & Hc & _). congruence.
Qed.

Lemma trim_clean s : (forall c, c ∈ s -> is_ws c = false) -> trim s = s.
Proof.
  intros H. assert (Hs : forall t, (forall c, c ∈ t -> is_ws c = false) -> trim_start t = t).
  { intros [|c t] Ht; [done|]. simpl. by rewrite Ht by left. }
  unfold trim. rewrite (Hs s H), Hs, reverse_involutive; [done|]. intros c Hc. apply H. by apply elem_of_reverse.
Qed.

Lemma turn_slashes_clean s : (forall c, c ∈ s -> c <> CHAR_BACKWARD_SLASH) -> turn_slashes s = s.
Proof.
  induction s as [|c s IH]; intros H; [done|]. simpl. case_match; [done|]. rewrite (proj2 (Z.eqb_neq _ _) (H c ltac:(by left))).
  f_equal. apply IH. intros d Hd. apply H. by right.
Qed.

Section Roundtrip.
Context {web : WebText} {web_ok : WebTextOk} {crate : IdnaCrate}.
Context (p : parts).
Hypothesis ok : parts_ok p.
Hypothesis plain_name : idnaToASCII (t_hostname p) = Ok (t_hostname p).

Lemma hostname_chars c : c ∈ t_hostname p -> host_char c = true.
Proof. destruct ok as (_ & _ & _ & _ & H & _). rewrite forallb_forall in H. intros Hc. by apply H, list_elem_of_In. Qed.

Lemma t_host_chars c : c ∈ t_host p -> host_char c = true \/ c = CHAR_COLON.
Proof.
  unfold t_host. intros [Hc|Hc]%elem_of_app; [left; by apply hostname_chars|].
  destruct ok as (_ & _ & _ & _ & _ & H & _). destruct (t_port p) as [n|]; [|by apply elem_of_nil in Hc]. destruct H as [_ H].
  change (js ":" ++ n) with (CHAR_COLON :: n) in Hc. apply elem_of_cons in Hc as [->|Hc]; [by right|]. left.
  rewrite forallb_forall in H. apply list_elem_of_In, H in Hc. unfold host_char. by rewrite Hc, orb_true_r.
Qed.

Lemma t_host_plain c : c ∈ t_host p -> nonHostChar c = false /\ hostEndChar c = false /\ (c =? CHAR_AT) = false /\ is_ws c = false /\ c <> CHAR_BACKWARD_SLASH.
Proof. intros [Hc| ->]%t_host_chars; [|done]. apply host_char_facts in Hc. naive_solver. Qed.

Lemma login_chars a c : t_auth p = Some a -> c ∈ auth_text a -> auth_char c = true.
Proof. intros E. destruct ok as (_ & H & _). rewrite E in H. destruct H as [_ [H _]]. by apply auth_text_chars. Qed.

Lemma tail_slash : exists r, tail p = CHAR_FORWARD_SLASH :: r.
Proof. destruct ok as (_ & _ & _ & _ & _ & _ & [r Hr] & _). unfold tail. rewrite Hr. by eexists. Qed.

(** The protocol and nothing else. *)
Definition only_protocol : Url := set_slashes (Some true) (set_protocol (Some (t_protocol p)) new_Url).

Lemma host_ends :
  host_loop (login p ++ t_host p ++ tail p) 0 (-1) (-1)
  = (match t_auth p with Some a => len (auth_text a) | None => -1 end, len (login p) + len (t_host p)).
Proof.
  destruct tail_slash as [r Hr]. assert (Hh : forall c, c ∈ t_host p -> nonHostChar c = false /\ hostEndChar c = false /\ (c =? CHAR_AT) = false)
    by (intros c Hc; apply t_host_plain in Hc; naive_solver).
  rewrite Hr. unfold login. destruct (t_auth p) as [a|] eqn:Ea; cbn [app].
  - change (js "@") with [CHAR_AT]. rewrite <- app_assoc. cbn [app]. rewrite host_loop_login by (intros c; by apply login_chars).
    rewrite host_loop_host by done. rewrite len_app. change (len [CHAR_AT]) with 1. f_equal; lia.
  - rewrite host_loop_host by done. done.
Qed.

Lemma login_decoded a : t_auth p = Some a -> uri_component (auth_text a) = Ok a.
Proof.
  intros E. destruct ok as (_ & H & _). rewrite E in H. destruct H as [_ [Hu Hw]]. unfold uri_component, auth_text.
  rewrite uri_decode_table; [|done|by apply scalars_ok]. unfold toWellFormed in Hw. by rewrite Hw.
Qed.

Lemma parseHost_host u :
  host u = Some (t_host p) -> port u = None ->
  parseHost u = set_hostname (Some (t_hostname p)) (set_port (t_port p) u).
Proof.
  intros Hu Hn. unfold parseHost. rewrite Hu, or_empty_some. unfold t_host.
  assert (Hc : forall c, c ∈ t_hostname p -> (c =? CHAR_COLON) = false) by (intros c Hc; apply hostname_chars, host_char_facts in Hc; naive_solver).
  destruct ok as (_ & _ & Hh & _ & _ & H & _). apply len_pos in Hh.
  destruct (t_port p) as [n|].
  - destruct H as [Hne Hd]. change (js ":" ++ n) with (CHAR_COLON :: n). rewrite portPattern_port by done.
    unfold str_eqb. rewrite bool_decide_eq_false_2 by (intros [=]; done).
    pose proof (slice_from_suffix [CHAR_COLON] n) as Es. change (slice_from (CHAR_COLON :: n) 1 = n) in Es. rewrite Es.
    rewrite len_app, Z.add_simpl_r, slice_prefix. by rewrite (proj2 (Z.eqb_neq _ _)) by lia.
  - rewrite app_nil_r, portPattern_none by done. rewrite (proj2 (Z.eqb_neq _ _)) by lia. destruct u. cbn in *. by subst.
Qed.

Lemma checked_host url : checked_hostname url (t_hostname p) false = Ok (t_hostname p).
Proof.
  destruct ok as (_ & _ & Hh & Hl & _). unfold checked_hostname. rewrite (proj2 (Z.ltb_ge _ _) Hl).
  assert (El : toLowerCase (t_hostname p) = t_hostname p).
  { rewrite toLowerCase_ascii.
    - rewrite <- (list_fmap_id (t_hostname p)) at 2. apply list_fmap_ext. intros i c Hc. apply list_elem_of_lookup_2, hostname_chars, host_char_facts in Hc.
      simpl. naive_solver.
    - apply Forall_forall. intros c Hc. apply hostname_chars, host_char_facts in Hc. naive_solver. }
  rewrite El. apply len_pos in Hh. destruct (t_hostname p) as [|c h] eqn:E; [done|]. rewrite <- E in *.
  rewrite plain_name. cbn [rbind]. rewrite (forbidden_none (t_hostname p)) by apply hostname_chars.
  by rewrite (proj2 (Z.eqb_neq _ _)) by lia.
Qed.

Lemma hostname_not_ipv6 : isIpv6Hostname (t_hostname p) = false.
Proof.
  destruct ok as (_ & _ & Hh & _). unfold isIpv6Hostname. destruct (t_hostname p) as [|c h] eqn:E; [done|].
  assert (Hc : host_char c = true) by (apply hostname_chars; rewrite E; by left). apply host_char_facts in Hc.
  change (charCodeAt (c :: h) 0) with (Some c). cbn [is_code]. destruct Hc as (_ & _ & _ & _ & _ & _ & _ & _ & _ & _ & ->). done.
Qed.

Lemma parse_host_part_text url :
  parse_host_part url (login p ++ t_host p ++ tail p) only_protocol
  = Ok (MkUrl (Some (t_protocol p)) (Some true) (t_auth p) (Some (t_host p)) (t_port p) (Some (t_hostname p)) None None NoQuery None None None, tail p).
Proof.
  unfold parse_host_part. rewrite host_ends.
  pose proof (len_nonneg (login p)) as L1. pose proof (len_nonneg (t_host p)) as L2.
  set (at_ := match t_auth p with Some a => len (auth_text a) | None => -1 end).
  assert (Ea : (if negb (at_ =? -1) then let! a := uri_component (slice (login p ++ t_host p ++ tail p) 0 at_) in Ok (set_auth (Some a) only_protocol)
    else Ok only_protocol) = Ok (set_auth (t_auth p) only_protocol)).
  { unfold at_, login. destruct (t_auth p) as [a|] eqn:E; [|done]. pose proof (len_nonneg (auth_text a)).
    rewrite (proj2 (Z.eqb_neq _ _)) by lia. cbn [negb]. rewrite <- app_assoc, slice_prefix, (login_decoded a E). done. }
  rewrite Ea. cbn [rbind].
  assert (Es : (if negb (at_ =? -1) then at_ + 1 else 0) = len (login p)).
  { unfold at_, login. destruct (t_auth p) as [a|]; [|done]. pose proof (len_nonneg (auth_text a)).
    rewrite (proj2 (Z.eqb_neq _ _)), len_app by lia. done. }
  rewrite Es. rewrite (proj2 (Z.eqb_neq (len (login p) + len (t_host p)) (-1))) by lia.
  rewrite slice_mid. pose proof (slice_from_suffix (login p ++ t_host p) (tail p)) as Et. rewrite <- app_assoc, len_app in Et. rewrite Et.
  rewrite parseHost_host by done. cbn [hostname set_hostname]. rewrite or_empty_some, hostname_not_ipv6.
  unfold getHostname. rewrite getHostname_none by (intros c Hc; apply hostname_chars, host_char_facts in Hc; naive_solver).
  cbn [hostname set_hostname]. rewrite or_empty_some, checked_host. cbn [rbind]. do 2 f_equal.
  destruct ok as (_ & _ & _ & _ & _ & Hn & _). unfold only_protocol, t_host. cbn. destruct (t_port p) as [[|c n]|]; [by destruct Hn|done|done].
Qed.

Lemma tail_clean : autoEscapeStr (tail p) = tail p.
Proof.
  destruct ok as (_ & _ & _ & _ & _ & _ & _ & _ & H). rewrite autoEscapeStr_replaced. apply replaced_same. intros c Hc. by destruct (H c Hc).
Qed.

Lemma text_clean c : c ∈ text p -> is_ws c = false /\ c <> CHAR_BACKWARD_SLASH.
Proof.
  pose proof ok as (Hp & _ & _ & _ & _ & _ & _ & _ & Hc). destruct (protocol_facts _ Hp) as (_ & _ & _ & _ & _ & _ & _ & P & _).
  unfold text. rewrite !elem_of_app. intros [H|[H|[H|[H|H]]]].
  - by apply P.
  - apply list_elem_of_In in H as [<-|[<-|[]]]; done.
  - unfold login in H. destruct (t_auth p) as [a|] eqn:E; [|by apply elem_of_nil in H].
    apply elem_of_app in H as [H|H]; [apply (login_chars a c E), auth_char_facts in H; naive_solver|].
    by apply list_elem_of_In in H as [<-|[]].
  - apply t_host_plain in H. naive_solver.
  - destruct (Hc c H) as [He Hw]. split; [done|]. intros ->. done.
Qed.

Lemma parse_text sd : LegacyUrl.parse (text p) false sd = Ok (url_of p (Some (text p))).
Proof.
  pose proof ok as (Hp & _ & Hh & _ & _ & _ & [r Hr] & H3 & _). destruct (protocol_facts _ Hp) as (P1 & P2 & P3 & P4 & P5 & P6 & P7 & P8 & P9).
  unfold LegacyUrl.parse, urlParse. rewrite prepare_spec, trim_clean, turn_slashes_clean by (intros c Hc; by destruct (text_clean c Hc)).
  assert (simplePathPattern (text p) = None) as E1 by apply P9.
  assert (protocolPattern (text p) = Some (t_protocol p)) as E2 by apply P7.
  assert (E3 : parse_full (text p) (text p) false sd = Ok (url_of p (Some (text p)))); [|by rewrite E1; destruct (_ && _)].
  unfold parse_full. rewrite E2, toLowerCase_ascii, P5 by done.
  assert (Er : slice_from (text p) (len (t_protocol p)) = js "//" ++ login p ++ t_host p ++ tail p) by apply slice_from_suffix.
  rewrite Er. rewrite orb_true_r. cbn [orb]. rewrite P3, P4. cbn [andb negb orb].
  change (js "//" ++ ?x) with (47 :: 47 :: x).
  assert (E4 : forall x, is_code (charCodeAt (47 :: 47 :: x) 0) CHAR_FORWARD_SLASH = true
    /\ is_code (charCodeAt (47 :: 47 :: x) 1) CHAR_FORWARD_SLASH = true /\ slice_from (47 :: 47 :: x) 2 = x)
    by (intros x; split_and!; [done|done|apply (slice_from_suffix [47; 47])]).
  destruct (E4 (login p ++ t_host p ++ tail p)) as (-> & -> & ->). cbn [andb orb].
  change (set_slashes _ _) with only_protocol. rewrite parse_host_part_text. cbn [rbind].
  change (unsafeProtocol (t_protocol p)) with (hostlessProtocol (t_protocol p)). rewrite P4, tail_clean.
  rewrite (parse_rest_parts _ _ _ _ _ _ H3). unfold take_parts. rewrite Hr.
  set (v := MkUrl (Some (t_protocol p)) (Some true) (t_auth p) (Some (t_host p)) (t_port p) (Some (t_hostname p)) (some_text (t_hash p))
    (some_text (t_search p)) (match t_search p with [] => NoQuery | _ :: q => QueryText q end) (Some (t_pathname p)) None None).
  transitivity (with_href (with_path v)).
  - destruct (t_search p), (t_hash p); cbn [rbind]; rewrite <- Hr, ?andb_false_r; unfold v; rewrite Hr; cbn [pathname set_pathname truthy negb];
      by rewrite andb_false_r.
  - assert (Ew : with_path v = url_of p None).
    { unfold with_path, v, url_of. cbn [pathname search]. rewrite Hr at 1. cbn [truthy orb]. by rewrite some_text_or. }
    unfold with_href. by rewrite Ew, format_url_of.
Qed.
End Roundtrip.



(** ** Dots *)

Definition is_dot (s : jsstr) : bool := str_eqb s (js ".").
Definition is_dots (s : jsstr) : bool := str_eqb s (js "..").

(** The usual way to remove dots, from the beginning: a stack of segments, and how
    often the path went above its root. *)
Definition dot_push (st : list jsstr * nat) (segment : jsstr) : list jsstr * nat :=
  let '(stack, up) := st in
  if is_dot segment then st
  else if is_dots segment then match stack with _ :: stack => (stack, up) | [] => ([], S up) end
  else (segment :: stack, up).

Definition remove_dots (l : list jsstr) : list jsstr * nat := let '(stack, up) := foldl dot_push ([], O) l in (reverse stack, up).

Lemma strip_dots_stack l stack up :
  foldl dot_push (stack, up) l
  = (reverse (strip_dots l).1 ++ drop (strip_dots l).2 stack, (up + ((strip_dots l).2 - length stack))%nat).
Proof.
  revert stack up. induction l as [|x l IH]; intros stack up; cbn [foldl strip_dots].
  { cbn [fst snd app]. by rewrite drop_0, Nat.sub_0_l, Nat.add_0_r. }
  unfold dot_push at 2. destruct (strip_dots l) as [kept k]. cbn [fst snd] in *. unfold is_dot, is_dots.
  destruct (str_eqb x (js ".")); [by rewrite IH|]. destruct (str_eqb x (js "..")).
  - destruct stack as [|y stack]; rewrite IH; cbn [fst snd length]; [|done]. rewrite !drop_nil, !Nat.sub_0_r. f_equal. lia.
  - rewrite IH. destruct k as [|k]; cbn [fst snd length]; [|done].
    by rewrite !drop_0, !Nat.sub_0_l, reverse_cons, <- app_assoc.
Qed.

Lemma strip_dots_remove l : strip_dots l = remove_dots l.
Proof.
  unfold remove_dots. rewrite strip_dots_stack. destruct (strip_dots l) as [kept k]. cbn [fst snd].
  by rewrite drop_nil, app_nil_r, reverse_involutive, Nat.sub_0_r.
Qed.

(** A segment that is not a dot or two. *)
Definition no_dots (s : jsstr) : Prop := s <> js "." /\ s <> js "..".

Lemma strip_dots_kept l : Forall no_dots (strip_dots l).1 /\ forall x, x ∈ (strip_dots l).1 -> x ∈ l.
Proof.
  induction l as [|x l [IH1 IH2]]; cbn [strip_dots]; [split; [by apply Forall_nil|done]|].
  destruct (strip_dots l) as [kept k]. cbn [fst] in *. unfold str_eqb.
  assert (Hr : Forall no_dots kept /\ forall y, y ∈ kept -> y ∈ x :: l) by (split; [done|]; intros y Hy; right; auto).
  case_bool_decide as E1; [done|]. case_bool_decide as E2; [done|]. destruct k; [|done]. cbn [fst].
  split; [by constructor|]. intros y [->|Hy]%elem_of_cons; [left|right; auto].
Qed.

(** The segments of a path that begins with a slash, after its dots are removed;
    a path that ends in dots ends in a slash. *)
Definition rooted (l : list jsstr) : list jsstr := if first_empty l then l else [] :: l.
Definition with_slash (slash : bool) (l : list jsstr) : list jsstr :=
  if slash && negb (is_code (last (join_path l)) CHAR_FORWARD_SLASH) then l ++ [[]] else l.

Definition absolute_path (l : list jsstr) : list jsstr :=
  with_slash (match last l with Some x => is_dot x || is_dots x || str_eqb x [] | None => false end) (rooted (remove_dots l).1).

Lemma remove_dots_last l x : no_dots x -> last (remove_dots (l ++ [x])).1 = Some x.
Proof.
  intros [H1 H2]. unfold remove_dots. rewrite foldl_snoc. destruct (foldl dot_push _ l) as [stack up]. cbn [dot_push].
  unfold is_dot, is_dots, str_eqb. rewrite !bool_decide_eq_false_2 by done. cbn [fst]. rewrite reverse_cons. apply last_snoc.
Qed.

Lemma rooted_spec l : exists segments, rooted l = [] :: segments /\ (forall x, x ∈ segments -> x ∈ l) /\ (segments = [] -> l = [] \/ l = [[]]).
Proof.
  unfold rooted, first_empty. destruct l as [|[|c y] l].
  - exists []. split; [done|]. split; [done|]. by left.
  - exists l. split; [done|]. split; [intros x Hx; by right|]. intros ->. by right.
  - exists ((c :: y) :: l). done.
Qed.

Lemma absolute_path_spec l :
  l <> [] -> exists segments, absolute_path l = [] :: segments /\ segments <> [] /\ Forall no_dots segments
    /\ (Forall (fun s => CHAR_FORWARD_SLASH ∉ s) l -> Forall (fun s => CHAR_FORWARD_SLASH ∉ s) segments).
Proof.
  intros Hl. unfold absolute_path. destruct (rooted_spec (remove_dots l).1) as (segs & E & Hsub & Hnil). rewrite E.
  rewrite <- strip_dots_remove in Hsub. destruct (strip_dots_kept l) as [K1 K2].
  assert (Hs : Forall no_dots segs /\ (Forall (fun s => CHAR_FORWARD_SLASH ∉ s) l -> Forall (fun s => CHAR_FORWARD_SLASH ∉ s) segs)).
  { rewrite !Forall_forall in *. split; [auto|]. intros Hf x Hx. apply Hf. auto. }
  destruct Hs as [S1 S2]. unfold with_slash. destruct (_ && negb _) eqn:Ew.
  - exists (segs ++ [[]]). cbn [app]. split_and!; [done|by destruct segs| |].
    + apply Forall_app. split; [done|]. by repeat constructor.
    + intros Hf. apply Forall_app. split; [auto|]. repeat constructor. by intros ?%elem_of_nil.
  - exists segs. split_and!; try done. intros ->. destruct (exists_last Hl) as (l' & x & ->). rewrite last_snoc in Ew.
    destruct (is_dot x || is_dots x || str_eqb x []) eqn:Ex; [done|].
    assert (Hx : no_dots x /\ x <> []).
    { unfold is_dot, is_dots, str_eqb in Ex. by repeat case_bool_decide. }
    pose proof (remove_dots_last l' x (proj1 Hx)) as Hlast. destruct (Hnil eq_refl) as [Hk|Hk]; rewrite Hk in Hlast; [done|].
    injection Hlast as <-. by destruct Hx.
Qed.

(** The text of a URL without user name and with its query as text can be made. *)
Lemma format_total u : auth u = None -> (forall q, query_ u <> QueryObject q) -> exists t, format u = Ok t.
Proof.
  intros Ha Hq. unfold format. rewrite Ha. cbn [truthy rbind].
  destruct (query_ u) as [| |q]; [..|by destruct (Hq q)]; cbn [rbind]; destruct (format_slashes _ _ _ _); by eexists.
Qed.

Lemma with_href_total u : auth u = None -> (forall q, query_ u <> QueryObject q) -> exists t, with_href u = Ok (set_href (Some t) u).
Proof. intros Ha Hq. destruct (format_total u Ha Hq) as [t E]. unfold with_href. rewrite E. by exists t. Qed.

Lemma is_abs_code c k : is_abs (Some (c :: k)) = (c =? CHAR_FORWARD_SLASH).
Proof. destruct (Z.eqb_spec c CHAR_FORWARD_SLASH) as [->|]; [done|]. unfold is_abs. by repeat (case_match; simplify_eq). Qed.

(** [resolve_path] of a URL with a host that has slashes. *)
Lemma resolve_path_absolute res rel l :
  l <> [] -> Forall (fun s => CHAR_FORWARD_SLASH ∉ s) l -> truthy (host res) = true ->
  auth res = None -> auth rel = None -> (forall q, query_ res <> QueryObject q) ->
  exists res', resolve_path res rel l true true false = Ok res'
    /\ pathname res' = Some (join_path (absolute_path l)) /\ protocol res' = protocol res /\ host res' = host res /\ hostname res' = hostname res
    /\ port res' = port res /\ auth res' = None /\ search res' = search res /\ hash res' = hash res
    /\ path res' = Some (join_path (absolute_path l) ++ or_empty (search res)).
Proof.
  intros Hl Hf Hh Ha Hr Hq. unfold resolve_path. destruct (absolute_path_spec l Hl) as (segs & Eabs & Hne & _).
  rewrite Eabs. assert (Hx : exists x, last l = Some x) by (destruct (exists_last Hl) as (l' & x & ->); exists x; apply last_snoc).
  destruct Hx as [x Ex]. rewrite Ex, Hh. cbn [orb andb].
  assert (Hstrip : strip_dots l = remove_dots l) by apply strip_dots_remove. destruct (strip_dots_kept l) as [_ K].
  unfold absolute_path in Eabs. rewrite Ex in Eabs. rewrite Hstrip in *. destruct (remove_dots l) as [kept up]. cbn [fst negb andb] in *.
  assert (Eroot : (if negb (first_empty kept) && negb (match kept with p :: _ => is_abs (Some p) | [] => false end) then [] :: kept else kept) = rooted kept).
  { unfold rooted. destruct kept as [|[|c k] kept]; [done|done|]. rewrite is_abs_code. cbn [first_empty negb andb].
    destruct (Z.eqb_spec c CHAR_FORWARD_SLASH) as [->|Hc]; [|done].
    exfalso. rewrite Forall_forall in Hf. apply (Hf (CHAR_FORWARD_SLASH :: k)); [apply K; by left|by left]. }
  rewrite Eroot. unfold with_slash, is_dot, is_dots in Eabs. rewrite Eabs. cbn [orb negb andb].
  set (j := join_path ([] :: segs)). set (v := set_slashes _ _).
  assert (Hv : auth v = None /\ query_ v = query_ res) by (unfold v; cbn; rewrite Hr, Ha; done). destruct Hv as [V1 V2].
  destruct (with_href_total v) as [t ->]; [done|by rewrite V2|]. eexists. split; [done|].
  unfold v. cbn. rewrite Hr, Ha. done.
Qed.

(** The segments of a resolved path: those of the base but the last, and those of
    the relative path; or those of the relative path, when it begins with a slash. *)
Definition merged (base rel : option jsstr) : list jsstr :=
  (if is_abs rel then [] else take (pred (length (split_path base))) (split_path base)) ++ split_path rel.

Lemma split_path_free q : Forall (fun s => CHAR_FORWARD_SLASH ∉ s) (split_path q).
Proof. unfold split_path. case_match; [apply split_free|by apply Forall_nil]. Qed.

(** C35: Relative references.  For a base with one of the protocols that have
    slashes, a host and no user, and a reference without protocol, slashes, user
    and host, with a path, not empty as a whole, and a query that is text:
    [resolveObject] gives a URL with the protocol, host and port of the base,
    the search and hash of the reference, and the path that one gets by
    following the segments of both on a stack; the path is absolute and no
    segment of it is [.] or [..], so it stays below the root of the host. *)
Theorem url_resolve_relative (base rel : Url) (pr : jsstr) :
  protocol base = Some pr -> slashedProtocol pr = true -> truthy (host base) = true -> auth base = None ->
  protocol rel = None -> slashes rel = None -> auth rel = None -> host rel = None -> hostname rel = None ->
  href rel <> Some [] -> truthy (pathname rel) = true -> (forall q, query_ rel <> QueryObject q) ->
  exists res segments, resolveObject base rel = Ok (res, rel)
    /\ protocol res = Some pr /\ host res = host base /\ port res = port base /\ search res = search rel /\ hash res = hash rel
    /\ absolute_path (merged (pathname base) (pathname rel)) = [] :: segments
    /\ pathname res = Some (js "/" ++ join_path segments)
    /\ Forall no_dots (split CHAR_FORWARD_SLASH (join_path segments)).
Proof.
  intros B1 B2 B3 B4 R1 R2 R3 R4 R5 R6 R7 R8.
  assert (Hl : merged (pathname base) (pathname rel) <> []).
  { unfold merged, split_path at 3. rewrite R7. intros [_ H]%app_nil. by apply split_nonempty in H. }
  assert (Hf : Forall (fun s => CHAR_FORWARD_SLASH ∉ s) (merged (pathname base) (pathname rel))).
  { apply Forall_app. split; [|apply split_path_free]. case_match; [by apply Forall_nil|]. apply Forall_take, split_path_free. }
  destruct (absolute_path_spec _ Hl) as (segs & E & Hne & Hd & Hs).
  assert (Hgo : exists res, resolveObject base rel = Ok (res, rel) /\ pathname res = Some (join_path (absolute_path (merged (pathname base) (pathname rel))))
    /\ protocol res = Some pr /\ host res = host base /\ port res = port base /\ search res = search rel /\ hash res = hash rel).
  { unfold resolveObject. rewrite (bool_decide_eq_false_2 (href rel = Some [])), (bool_decide_eq_false_2 (slashes rel = Some true)), R1, R4 by (rewrite ?R2; done).
    cbn [truthy andb orb negb protocol pathname host set_hash]. rewrite B1, or_empty_some, B2, B3, R7. cbn [negb]. rewrite !orb_true_r, andb_false_r.
    destruct (is_abs (pathname rel)) eqn:Ea; cbn [orb].
    - unfold take_host. rewrite R4, R5. unfold merged in *. rewrite Ea in *. cbn [app] in *.
      edestruct resolve_path_absolute as (res & -> & P); [exact Hl|exact Hf|exact B3|exact B4|exact R3|exact R8|]. cbn [rbind].
      exists res. cbn [protocol host hostname port search hash set_query_ set_search set_hash] in P. destruct P as (P1 & P2 & P3 & _ & P5 & _ & P7 & P8 & _). split_and!; congruence.
    - unfold merged in *. rewrite Ea in *. assert ((length (split_path (pathname rel)) =? 0)%nat = false) as Hlen.
      { unfold split_path. rewrite R7. pose proof (split_nonempty CHAR_FORWARD_SLASH (or_empty (pathname rel))). by destruct (split _ _). }
      rewrite Hlen. cbn [negb].
      edestruct resolve_path_absolute as (res & -> & P); [exact Hl|exact Hf|exact B3|exact B4|exact R3|exact R8|]. cbn [rbind].
      exists res. cbn [protocol host hostname port search hash set_query_ set_search set_hash] in P. destruct P as (P1 & P2 & P3 & _ & P5 & _ & P7 & P8 & _). split_and!; congruence. }
  destruct Hgo as (res & H1 & H2 & H3). exists res, segs. rewrite E in H2. split_and!; try naive_solver.
  - rewrite H2. unfold join_path. rewrite join_cons by done. done.
  - unfold join_path. change (js "/") with [CHAR_FORWARD_SLASH]. rewrite split_join_code by auto. done.
Qed.

Lemma url_resolve_relative_witness :
  let base := url_of (Parts (js "http:") None (js "a") None (js "/b/c/d") (js "?q") []) (Some (js "http://a/b/c/d?q")) in
  let rel := new_Url |> set_pathname (Some (js "../../../g/.")) |> set_href (Some (js "../../../g/.")) in
  exists res segments, resolveObject base rel = Ok (res, rel)
    /\ protocol res = Some (js "http:") /\ host res = host base /\ port res = port base /\ search res = search rel /\ hash res = hash rel
    /\ absolute_path (merged (pathname base) (pathname rel)) = [] :: segments
    /\ pathname res = Some (js "/" ++ join_path segments)
    /\ Forall no_dots (split CHAR_FORWARD_SLASH (join_path segments)).
Proof.
  intros base rel. apply url_resolve_relative; try done; vm_compute; reflexivity.
Defined.

(** ** Errors *)

Section Errors.
Context {web : WebText} {crate : IdnaCrate}.

Lemma encode_loop_error str table hex fuel i lastPos out e : encode_loop str table hex fuel i lastPos out = Throw e -> e = ERR_INVALID_URI.
Proof.
  revert i lastPos out. induction fuel as [|fuel IH]; intros i lastPos out; cbn [encode_loop]; [done|].
  repeat case_match; try done; try apply IH. by intros [= <-].
Qed.

Lemma encodeStr_error str table hex e : encodeStr str table hex = Throw e -> e = ERR_INVALID_URI.
Proof. unfold encodeStr. case_match; [done|]. apply encode_loop_error. Qed.

Lemma format_error u e : (forall q, query_ u <> QueryObject q) -> format u = Throw e -> e = ERR_INVALID_URI /\ truthy (auth u) = true.
Proof.
  intros Hq. destruct (truthy (auth u)) eqn:Ea.
  - unfold format. rewrite Ea. destruct (encodeStr _ _ _) as [a|e'] eqn:Ee; cbn [rbind].
    + destruct (query_ u) as [| |q]; [..|by destruct (Hq q)]; cbn [rbind]; by destruct (format_slashes _ _ _ _).
    + intros [= <-]. split; [by eapply encodeStr_error|done].
  - unfold format. rewrite Ea. cbn [rbind].
    destruct (query_ u) as [| |q]; [..|by destruct (Hq q)]; cbn [rbind]; by destruct (format_slashes _ _ _ _).
Qed.

Lemma checked_hostname_error url h ipv6 e : checked_hostname url h ipv6 = Throw e -> e = ERR_INVALID_URL url \/ exists name, idnaToASCII name = Throw e.
Proof.
  unfold checked_hostname. case_match; [done|]. destruct (toLowerCase h) as [|c l] eqn:El; [done|].
  destruct ipv6; [case_match; [|done]; intros [= <-]; by left|].
  destruct (idnaToASCII (c :: l)) as [t|e'] eqn:Ei; cbn [rbind]; [case_match; [|done]; intros [= <-]; by left|].
  intros [= <-]. right. by eexists.
Qed.

Lemma host_loop_no_at codes i nh : CHAR_AT ∉ codes -> (host_loop codes i (-1) nh).1 = -1.
Proof.
  revert i nh. induction codes as [|c codes IH]; intros i nh Hin; [done|]. apply not_elem_of_cons in Hin as [Hc Hin]. cbn [host_loop].
  case_match; [auto|]. case_match; [done|]. rewrite (proj2 (Z.eqb_neq c CHAR_AT)) by auto. by apply IH.
Qed.

Lemma parseHost_auth u : auth (parseHost u) = auth u.
Proof. unfold parseHost. by destruct (portPattern _); repeat case_match; simplify_eq. Qed.

Lemma getHostname_auth u rest h : auth (getHostname u rest h).1 = auth u.
Proof. unfold getHostname. by destruct (getHostname_loop _ _ _) as [[]|]. Qed.

(** The part with the host: a user name comes from an [@]. *)
Lemma parse_host_part_auth url rest u u' r : CHAR_AT ∉ rest -> parse_host_part url rest u = Ok (u', r) -> auth u' = auth u.
Proof.
  intros Hin. unfold parse_host_part. pose proof (host_loop_no_at rest 0 (-1) Hin) as Hl. destruct (host_loop _ _ _ _) as [at_ nh].
  cbn [fst] in Hl. subst at_. cbn [Z.eqb Pos.eqb negb rbind]. set (w := if nh =? -1 then _ else _).
  assert (Hw : auth w.1 = auth u) by (unfold w; by case_match). destruct w as [w rest1]. cbn [fst] in Hw.
  set (x := match hostname (parseHost w) with Some _ => _ | None => _ end).
  assert (Hx : auth x = auth u) by (unfold x; case_match; (etrans; [|exact Hw]); apply parseHost_auth). clearbody x.
  set (ip := isIpv6Hostname _). set (y := if ip then _ else _).
  assert (Hy : auth y.1 = auth u) by (unfold y; destruct ip; [done|by rewrite getHostname_auth]). destruct y as [y rest2]. cbn [fst] in Hy.
  destruct (checked_hostname _ _ _) as [h|]; [|done]. cbn [rbind]. by destruct ip; intros [= <- <-].
Qed.

Lemma parse_host_part_error url rest u e :
  parse_host_part url rest u = Throw e ->
  e = ERR_INVALID_URL url \/ (exists name, idnaToASCII name = Throw e) \/ e = URIError /\ CHAR_AT ∈ rest.
Proof.
  unfold parse_host_part. pose proof (host_loop_no_at rest 0 (-1)) as Hl. destruct (host_loop _ _ _ _) as [at_ nh]. cbn [fst] in Hl.
  destruct (if negb (at_ =? -1) then _ else _) as [v|e'] eqn:Ev; cbn [rbind].
  - destruct (if nh =? -1 then _ else _) as [w rest1]. destruct (if isIpv6Hostname _ then _ else _) as [y rest2].
    destruct (checked_hostname _ _ _) as [h|e'] eqn:Ec; cbn [rbind]; [by case_match|]. intros [= <-].
    apply checked_hostname_error in Ec. naive_solver.
  - intros [= <-]. right. right. destruct (Z.eqb_spec at_ (-1)) as [->|Hat]; cbn [negb] in Ev; [done|].
    unfold uri_component in Ev. destruct (decodeURIComponent _); [done|]. injection Ev as <-. split; [done|].
    destruct (decide (CHAR_AT ∈ rest)); [done|]. by destruct Hat; apply Hl.
Qed.

Lemma take_parts_total p s h u : exists v, take_parts p s h false u = Ok v /\ auth v = auth u /\ (query_ u = NoQuery -> forall q, query_ v <> QueryObject q).
Proof.
  unfold take_parts. destruct s as [|c s]; cbn [rbind]; (eexists; split; [done|]); destruct p, h; (split; [done|]); cbn; congruence.
Qed.

Lemma slice_sub {A} (s : list A) a b x : x ∈ slice s a b -> x ∈ s.
Proof.
  unfold slice. set (m := Z.to_nat _). set (n := Z.to_nat _). intros Hx. rewrite <- (take_drop n s), elem_of_app. right.
  rewrite <- (take_drop m (drop n s)), elem_of_app. by left.
Qed.

Lemma turn_slashes_at s : CHAR_AT ∈ turn_slashes s -> CHAR_AT ∈ s.
Proof.
  induction s as [|c s IH]; [done|]. simpl. case_match; [done|]. intros [Hc|Hc]%elem_of_cons; [|right; auto].
  case_match; [done|]. subst. by left.
Qed.

Lemma with_path_alike u : auth (with_path u) = auth u /\ query_ (with_path u) = query_ u.
Proof. unfold with_path. by destruct (truthy _ || truthy _). Qed.

(** What [parse] throws, and that it needs an [@] to fail on a user name. *)
Lemma parse_full_error url rest sd e :
  parse_full url rest false sd = Throw e ->
  e = ERR_INVALID_URL url \/ (exists name, idnaToASCII name = Throw e) \/ (e = URIError \/ e = ERR_INVALID_URI) /\ CHAR_AT ∈ rest.
Proof.
  unfold parse_full. set (u0 := match protocolPattern rest with Some _ => set_protocol _ _ | None => _ end).
  set (r0 := match protocolPattern rest with Some p => slice_from rest (len p) | None => rest end).
  assert (H0 : forall c, c ∈ r0 -> c ∈ rest) by (intros c; unfold r0; case_match; [apply slice_sub|done]).
  set (w := if _ && negb (_ && _) then _ else _).
  assert (Hw : auth w.1 = None /\ query_ w.1 = NoQuery /\ port w.1 = None /\ hostname w.1 = None /\ forall c, c ∈ w.2 -> c ∈ rest).
  { unfold w, u0. destruct (protocolPattern rest); case_match; split_and!; try done; cbn [snd]; intros c Hc; try apply H0; by try eapply slice_sub. }
  destruct w as [w r1]. cbn [fst snd] in Hw. destruct Hw as (W1 & W2 & W3 & W4 & W5).
  destruct (if negb _ && _ then _ else _) as [[v r2]|e'] eqn:Ev; cbn [rbind].
  2: { intros [= <-]. destruct (negb _ && _); [|done]. apply parse_host_part_error in Ev. naive_solver. }
  assert (Hv : query_ v = NoQuery /\ (CHAR_AT ∉ rest -> auth v = None)).
  { destruct (negb _ && _); [|by injection Ev as <- <-]. split.
    - destruct (parse_host_part_ok url r1 w v r2 W3 W4 Ev) as (_ & _ & Ho). unfold others in Ho. congruence.
    - intros Hin. rewrite <- W1. eapply parse_host_part_auth; [|exact Ev]. auto. }
  destruct Hv as [V1 V2]. set (r3 := if unsafeProtocol _ then r2 else _). destruct (three_parts_exist r3) as (pp & ss & hh & H3).
  rewrite (parse_rest_parts r3 pp ss hh) by done. destruct (take_parts_total pp ss hh v) as (x & -> & X1 & X2). specialize (X2 V1). cbn [rbind].
  set (y := if slashedProtocol _ && _ && _ then _ else _).
  assert (Y : auth y = auth x /\ forall q, query_ y <> QueryObject q) by (unfold y; by destruct (slashedProtocol _ && _ && _)). clearbody y. destruct Y as [Y1 Y2].
  unfold with_href. destruct (format (with_path y)) as [t|e'] eqn:Ef; [done|]. cbn [rbind]. intros [= <-].
  apply format_error in Ef as [-> Ha]; [|rewrite (proj2 (with_path_alike y)); exact Y2]. right. right. split; [by right|].
  destruct (decide (CHAR_AT ∈ rest)) as [|Hn]; [done|]. exfalso. specialize (V2 Hn).
  rewrite (proj1 (with_path_alike y)), Y1, X1, V2 in Ha. done.
Qed.
End Errors.

(** Without parsing the query, [parse] fails only on a host, with [ERR_INVALID_URL] or the error of the
    conversion of its name, or on a user name, which cannot be decoded or written
    back; text without an [@] fails only on its host. *)
Theorem parse_errors `{!WebText} `{!IdnaCrate} (url : jsstr) (slashesDenoteHost : bool) (e : jserr) :
  LegacyUrl.parse url false slashesDenoteHost = Throw e ->
  e = ERR_INVALID_URL url \/ (exists name, idnaToASCII name = Throw e) \/ (e = URIError \/ e = ERR_INVALID_URI) /\ CHAR_AT ∈ url.
Proof.
  unfold LegacyUrl.parse, urlParse. rewrite prepare_spec. destruct (if _ && _ then _ else _) as [[a b]|].
  - unfold parse_simple. by destruct b.
  - intros Hf. apply parse_full_error in Hf as [?|[?|[? Hin]]]; [by left|by right; left|]. right. right. split; [done|].
    by apply trim_sub, turn_slashes_at.
Qed.

Lemma parse_errors_witness :
  @LegacyUrl.parse web_text same_names (js "http://a%b@c") false false = Throw URIError
  /\ (URIError = ERR_INVALID_URL (js "http://a%b@c") \/ (exists name, @idnaToASCII same_names name = Throw URIError)
      \/ (URIError = URIError \/ URIError = ERR_INVALID_URI) /\ CHAR_AT ∈ js "http://a%b@c").
Proof.
  split; [vm_compute; reflexivity|].
  apply (@parse_errors web_text same_names (js "http://a%b@c") false URIError). vm_compute. reflexivity.
Defined.

(** ** File URLs *)

(** What the setter of [pathname] of the class [URL] does with a character: it keeps
    it or encodes its UTF-8; letters, digits, slashes and percent signs are kept,
    and characters that are not ASCII are encoded. *)
Definition url_encoder (e : Z -> jsstr) : Prop :=
  (forall c, scalar c -> e c = [c] /\ c < 128 \/ e c = mbind (M := list) percent (utf8 c))
  /\ forall c, is_letter c || is_digit c || is_in [37; 47] c = true -> e c = [c].

(** The characters of a path that are encoded before. *)
Definition path_code (c : Z) : jsstr := if is_in [9; 10; 13; 37; 92] c then percent c else [c].

Lemma replace_bind c t (g : Z -> jsstr) s : replace_all c t (mbind (M := list) g s) = mbind (M := list) (fun x => replace_all c t (g x)) s.
Proof. unfold replace_all. induction s as [|x s IH]; [done|]. by rewrite !bind_cons, bind_app, IH. Qed.

Lemma encodePathChars_codes s : encodePathChars false s = mbind (M := list) path_code s.
Proof.
  unfold encodePathChars. unfold replace_all at 5. rewrite !replace_bind.
  induction s as [|x s IH]; [done|]. rewrite !bind_cons, IH. f_equal.
  unfold path_code. destruct (is_in [9; 10; 13; 37; 92] x) eqn:E.
  - assert (H : x = 9 \/ x = 10 \/ x = 13 \/ x = 37 \/ x = 92) by codes. by destruct H as [->|[->|[->|[->| ->]]]].
  - rewrite (proj2 (Z.eqb_neq x 37)) by codes. unfold replace_all. cbn [mbind list_bind app].
    rewrite (proj2 (Z.eqb_neq x CHAR_BACKWARD_SLASH)) by codes. cbn [mbind list_bind app].
    rewrite (proj2 (Z.eqb_neq x CHAR_LINE_FEED)) by codes. cbn [mbind list_bind app].
    rewrite (proj2 (Z.eqb_neq x CHAR_CARRIAGE_RETURN)) by codes. cbn [mbind list_bind app].
    by rewrite (proj2 (Z.eqb_neq x CHAR_TAB)) by codes.
Qed.

Lemma path_code_scalar c : scalar c -> Forall scalar (path_code c).
Proof.
  intros Hc. unfold path_code. case_match; [|apply Forall_cons; split; [done|by apply Forall_nil]].
  assert (H' : c = 9 \/ c = 10 \/ c = 13 \/ c = 37 \/ c = 92) by codes.
  destruct H' as [->|[->|[->|[->| ->]]]]; repeat (apply Forall_cons; split; [left; by vm_compute|]); by apply Forall_nil.
Qed.

Lemma path_code_units cs : mbind (M := list) path_code (mbind (M := list) units_of cs) = mbind (M := list) units_of (mbind (M := list) path_code cs).
Proof.
  induction cs as [|c cs IH]; [done|]. rewrite !bind_cons, !bind_app, IH. f_equal.
  unfold path_code at 2. destruct (is_in [9; 10; 13; 37; 92] c) eqn:E.
  - assert (H' : c = 9 \/ c = 10 \/ c = 13 \/ c = 37 \/ c = 92) by codes. by destruct H' as [->|[->|[->|[->| ->]]]].
  - rewrite bind_cons. cbn [mbind list_bind]. rewrite app_nil_r. unfold units_of. destruct (Z.ltb_spec c 0x10000).
    + cbn. unfold path_code. by rewrite E.
    + cbn [mbind list_bind]. unfold path_code.
      assert (0 <= (c - 0x10000) / 1024) by div_lia. assert (0 <= (c - 0x10000) mod 1024) by div_lia.
      assert (is_in [9; 10; 13; 37; 92] (0xD800 + (c - 0x10000) / 1024) = false) as -> by codes.
      by assert (is_in [9; 10; 13; 37; 92] (0xDC00 + (c - 0x10000) mod 1024) = false) as -> by codes.
Qed.

Section Encoder.
Context (e : Z -> jsstr) (encoder : url_encoder e).

(** The text of a character in the URL. *)
Definition file_code (c : Z) : jsstr := mbind (M := list) e (path_code c).

Lemma file_code_cases c : scalar c -> file_code c = [c] /\ c <> 37 /\ c < 128 \/ file_code c = mbind (M := list) percent (utf8 c) /\ c <> 47.
Proof.
  destruct encoder as [E1 E2]. intros Hc. unfold file_code, path_code. destruct (is_in [9; 10; 13; 37; 92] c) eqn:E.
  - right. assert (H' : c = 9 \/ c = 10 \/ c = 13 \/ c = 37 \/ c = 92) by codes.
    destruct H' as [->|[->|[->|[->| ->]]]]; (split; [|done]); cbn; by rewrite !E2.
  - cbn. rewrite app_nil_r. destruct (E1 c Hc) as [[-> ?]| Hp]; [left; split; [done|codes]|]. right. split; [done|].
    intros ->. rewrite E2 in Hp by done. discriminate Hp.
Qed.

Lemma decode_file_codes cs : Forall scalar cs -> decodeURIComponent (mbind (M := list) file_code cs) = Some (mbind (M := list) units_of cs).
Proof.
  unfold decodeURIComponent. induction 1 as [|c cs Hc Hcs IH]; [done|]. rewrite !bind_cons.
  destruct (file_code_cases c Hc) as [(-> & H1 & H2)|[-> _]].
  - cbn [app uri_decode]. rewrite (proj2 (Z.eqb_neq c 37)) by done. change (remaining utf8_start =? 0) with true. cbv iota.
    rewrite IH. unfold units_of. by rewrite (proj2 (Z.ltb_lt c 0x10000)) by lia.
  - replace (mbind percent (utf8 c)) with (escape_with [] c); [by rewrite uri_decode_with, IH|].
    unfold escape_with. replace (at_index [] c) with (@None Z) by (unfold at_index; by case_match). by rewrite andb_false_r.
Qed.

Lemma separator_skip c r : (c =? 37) = false -> encoded_separator false (c :: r) = encoded_separator false r.
Proof.
  intros Hc. cbn [encoded_separator andb]. rewrite orb_false_r. replace (encoded_slash (c :: r) 50 102) with false; [done|].
  symmetry. unfold encoded_slash. by repeat (case_match; simplify_eq).
Qed.

Lemma separator_percent b rest : is_byte b -> b <> 47 -> encoded_separator false (percent b ++ rest) = encoded_separator false rest.
Proof.
  intros Hb Hn. assert (Hh : forall x, 0 <= x < 16 -> (upper_hex x =? 37) = false) by (unfold upper_hex; intros x ?; case_match; lia).
  assert (Hd : forallb (fun b => implb (negb (b =? 47)) (negb ((upper_hex (b / 16) =? 50) && (bitor (upper_hex (b mod 16)) 0x20 =? 102)))) (seqZ 0 256) = true)
    by (vm_compute; reflexivity).
  rewrite forallb_forall in Hd. specialize (Hd b). rewrite <- list_elem_of_In, elem_of_seqZ in Hd. unfold is_byte in Hb. specialize (Hd ltac:(lia)).
  rewrite (proj2 (Z.eqb_neq b 47) Hn) in Hd. cbn [negb implb] in Hd. apply negb_true_iff in Hd.
  unfold percent. cbn [app]. transitivity (encoded_slash (37 :: upper_hex (b / 16) :: upper_hex (b mod 16) :: rest) 50 102
    || encoded_separator false (upper_hex (b / 16) :: upper_hex (b mod 16) :: rest)); [cbn [encoded_separator andb]; by rewrite orb_false_r|].
  rewrite !separator_skip by (apply Hh; div_lia). cbn [encoded_slash]. by rewrite Hd.
Qed.

Lemma separator_file_codes cs : Forall scalar cs -> encoded_separator false (mbind (M := list) file_code cs) = false.
Proof.
  induction 1 as [|c cs Hc Hcs IH]; [done|]. rewrite bind_cons.
  destruct (file_code_cases c Hc) as [(-> & H1 & H2)|[-> H1]].
  - cbn [app]. rewrite separator_skip by lia. done.
  - assert (Hu : Forall (fun b => is_byte b /\ b <> 47) (utf8 c)).
    { pose proof (utf8_ok c Hc) as Hu. unfold scalar in Hc. unfold utf8, bytes_ok in *.
      repeat case_match; repeat (apply Forall_cons in Hu as [? Hu]; apply Forall_cons; split; [split; [done|div_lia]|]); by apply Forall_nil. }
    rewrite <- IH at 2. generalize (mbind (M := list) file_code cs). clear -Hu. induction Hu as [|b bs [Hb Hn] Hu IH]; intros rest; [done|].
    rewrite bind_cons, <- app_assoc, separator_percent by done. apply IH.
Qed.
End Encoder.

(** A path becomes a file URL and comes back: for every resolved path, also one
    with percent signs, backslashes, line feeds or characters that are not ASCII,
    [fileURLToPath] of the URL whose [pathname] was set by [pathToFileURL] is the
    path, with the slash at the end that the argument had. *)
Theorem file_url_roundtrip `{!IdnaCrate} (e : Z -> jsstr) (cwd : option jsval) (p r : jsstr) :
  url_encoder e -> PathPosix.resolve cwd [JString p] = Ok r -> well_formed r ->
  exists pn, pathToFileURL false (fun f => PathPosix.resolve cwd [JString f]) CHAR_FORWARD_SLASH p = Ok (None, pn)
    /\ forall u, w_protocol u = js "file:" -> w_hostname u = [] -> w_pathname u = mbind (M := list) e (scalars pn) ->
       fileURLToPath false u
       = Ok (if is_code (charCodeAt p (len p - 1)) CHAR_FORWARD_SLASH && negb (is_code (charCodeAt r (len r - 1)) CHAR_FORWARD_SLASH)
             then r ++ js "/" else r).
Proof.
  intros He Hr [Hu Hw]. unfold pathToFileURL. cbn [andb]. rewrite Hr. cbn [rbind]. rewrite orb_false_r. set (b := _ && _).
  eexists. split; [reflexivity|]. intros u Hp Hh Hn.
  set (cs := if b then scalars r ++ [47] else scalars r).
  assert (Hcs : Forall scalar cs).
  { pose proof (scalars_ok r Hu). unfold cs. destruct b; [|done]. apply Forall_app. split; [done|]. apply Forall_cons. split; [|by apply Forall_nil]. unfold scalar. lia. }
  assert (Hrs : (if b then r ++ js "/" else r) = mbind (M := list) units_of cs).
  { unfold cs, toWellFormed in *. destruct b; [|by rewrite Hw]. by rewrite bind_app, Hw. }
  rewrite Hrs, encodePathChars_codes, path_code_units, scalars_units in Hn by (apply Forall_bind, (Forall_impl _ _ _ Hcs), path_code_scalar).
  unfold fileURLToPath, getPathFromURLPosix. rewrite Hp, Hh, Hn, Hrs, str_eqb_refl. cbn [negb]. rewrite len_nil. cbn [Z.eqb negb].
  assert (Hb : mbind (M := list) e (mbind (M := list) path_code cs) = mbind (M := list) (file_code e) cs).
  { clear. induction cs as [|c cs IH]; [done|]. by rewrite !bind_cons, bind_app, IH. }
  rewrite Hb, separator_file_codes by done. unfold uri_component. by rewrite decode_file_codes.
Qed.

Definition strict_encoder (c : Z) : jsstr :=
  if is_letter c || is_digit c || is_in [37; 47] c then [c] else mbind (M := list) percent (utf8 c).

Lemma strict_encoder_ok : url_encoder strict_encoder.
Proof.
  split; intros c H; unfold strict_encoder; [case_match; [left; split; [done|codes]|by right]|by rewrite H].
Qed.

Lemma file_url_roundtrip_witness :
  exists pn, @pathToFileURL same_names false (fun f => PathPosix.resolve None [JString f]) CHAR_FORWARD_SLASH (js "/a b/%2F\c/") = Ok (None, pn)
    /\ fileURLToPath false (MkURL (js "file:") [] [] [] [] [] (mbind (M := list) strict_encoder (scalars pn)) [] [] []) = Ok (js "/a b/%2F\c/").
Proof.
  destruct (@file_url_roundtrip same_names strict_encoder None (js "/a b/%2F\c/") (js "/a b/%2F\c")) as (pn & H1 & H2).
  - apply strict_encoder_ok.
  - vm_compute. reflexivity.
  - split; [|vm_compute; reflexivity]. unfold units16. repeat (apply Forall_cons; split; [by vm_compute|]). by apply Forall_nil.
  - exists pn. split; [exact H1|]. exact (H2 (MkURL (js "file:") [] [] [] [] [] (mbind (M := list) strict_encoder (scalars pn)) [] [] []) eq_refl eq_refl eq_refl).
Defined.

(** ** Examples *)

Module DemoUrl.
#[local] Existing Instance same_names.

Example resolve_file : resolve (js "/one/two/three") (js "four") = Ok (js "/one/two/four").
Proof. vm_compute. reflexivity. Qed.

Example resolve_up : resolve (js "http://a/b/c/d;p?q") (js "../../../g") = Ok (js "http://a/g").
Proof. vm_compute. reflexivity. Qed.

Example resolve_mail : resolve (js "mailto:a@foo.com") (js "b@bar.org") = Ok (js "mailto:b@bar.org").
Proof. vm_compute. reflexivity. Qed.

(** The short way of [parse] does not escape what the long one does. *)
Example simple_path_not_escaped :
  (let! u := LegacyUrl.parse (js "/a{b}") false false in Ok (pathname u)) = Ok (Some (js "/a{b}"))
  /\ (let! u := LegacyUrl.parse (js "/a{b}#c") false false in Ok (pathname u)) = Ok (Some (js "/a%7Bb%7D")).
Proof. split; vm_compute; reflexivity. Qed.
End DemoUrl.
