(* ===== verification/Events.v ===== *)
(** * [EventEmitter]: [_events.mjs]

    One emitter with everything its methods share: the events objects and the
    arrays of listeners are kept in stores, because the methods hold on to them
    while user code runs and replaces or changes them.  A listener of the user
    is a program that performs operations of the same emitter, in any order,
    depending on what they returned, and returns or throws; so a method that
    calls a listener can be re-entered at that point.  A function that belongs
    to [once] shares a state object with its wrapper.  Calls nest without bound,
    so [emit] and [call] take fuel: [None] is a run that needs more of it. *)

From S2P Require Import Prelude.

(** Event names: strings and symbols. *)
Inductive key := KStr (s : jsstr) | KSym (n : Z).

#[export] Instance key_eq_dec : EqDecision key.
Proof. solve_decision. Defined.

Definition kErrorMonitor : key := KSym 0.
Definition kError : key := KStr (js "error").
Definition kNewListener : key := KStr (js "newListener").
Definition kRemoveListener : key := KStr (js "removeListener").

(** ** Property names in the order of [Reflect.ownKeys] *)

(** The number of a canonical array index. *)
Definition index_of (s : jsstr) : option Z :=
  match s with
  | [] => None
  | c :: t =>
      if forallb (fun d => (48 <=? d) && (d <=? 57)) s && (negb (c =? 48) || (len t =? 0)) then
        let n := fold_left (fun a d => a * 10 + (d - 48)) s 0 in
        if n <? 4294967295 then Some n else None
      else None
  end.

Definition key_index (k : key) : option Z := match k with KStr s => index_of s | KSym _ => None end.

Fixpoint insert_key (n : Z) (k : key) (l : list (Z * key)) : list (Z * key) :=
  match l with
  | [] => [(n, k)]
  | (m, j) :: l' => if n <? m then (n, k) :: l else (m, j) :: insert_key n k l'
  end.

Definition is_string (k : key) : bool := match k with KStr _ => true | KSym _ => false end.

Fixpoint index_keys (l : list key) : list (Z * key) :=
  match l with
  | [] => []
  | k :: l => match key_index k with Some n => insert_key n k (index_keys l) | None => index_keys l end
  end.

(** Array indices in ascending order, then strings and then symbols, both in
    the order in which they were added. *)
Definition own_keys (l : list key) : list key :=
  (index_keys l).*2
  ++ filter (fun k => key_index k = None /\ is_string k = true) l
  ++ filter (fun k => is_string k = false) l.

Section Events.
(** The user's functions, other values, promises and state. *)
Context {F V P U : Type} `{!EqDecision F}.

(** A function of the user, which has no property [listener], or the wrapper
    that [_onceWrap] makes, given by the state object it is bound to. *)
Inductive fn := User (f : F) | Wrapped (w : nat).

#[export] Instance fn_eq_dec : EqDecision fn.
Proof using EqDecision0. solve_decision. Defined.

Inductive val := VUndefined | VKey (k : key) | VFn (f : fn) | VError (x : V) | VOther (x : V).

(** What a listener returns: [undefined] or [null], a value without a [then],
    a promise, or a value whose [then] throws when it is read. *)
Inductive ret := RNone | RPlain | RPromise (p : P) | RThenThrows (v : val).

(** What is thrown: a value of the user, [ERR_UNHANDLED_ERROR] with its
    context, and the errors of the argument checks. *)
Inductive exn :=
| XVal (v : val)
| XUnhandled (context : val)
| XArgType
| XRange
| XType.

(** ** The state *)

(** A property of an events object: one listener, or an array of them. *)
Inductive slot := One (f : fn) | Many (a : nat).
Abbreviation events_obj := (list (key * slot)).

(** The object [onceWrapper] is bound to; its target is the emitter. *)
Record once_state := Once { fired : bool; once_type : key; once_listener : fn }.

Record emitter := EE {
  objs : list events_obj;                      (** events objects, by address *)
  arrs : list (list fn * bool);                (** arrays of listeners and [warned] *)
  onces : list once_state;
  _events : option nat;
  _eventsCount : Z;
  _maxListeners : option Z;
  defaultMaxListeners : Z;                     (** the variable of the module *)
  kCapture : bool;
  warnings : list (key * Z);                   (** [process.emitWarning] so far *)
  captured : list (P * key * list val);        (** promises with a rejection handler *)
  invoked : list nat;                          (** wrappers that ran their listener *)
  user : U
}.

Definition set_objs x st := EE x (arrs st) (onces st) (_events st) (_eventsCount st) (_maxListeners st) (defaultMaxListeners st) (kCapture st) (warnings st) (captured st) (invoked st) (user st).
Definition set_arrs x st := EE (objs st) x (onces st) (_events st) (_eventsCount st) (_maxListeners st) (defaultMaxListeners st) (kCapture st) (warnings st) (captured st) (invoked st) (user st).
Definition set_onces x st := EE (objs st) (arrs st) x (_events st) (_eventsCount st) (_maxListeners st) (defaultMaxListeners st) (kCapture st) (warnings st) (captured st) (invoked st) (user st).
Definition set_events e n st := EE (objs st) (arrs st) (onces st) e n (_maxListeners st) (defaultMaxListeners st) (kCapture st) (warnings st) (captured st) (invoked st) (user st).
Definition set_max x st := EE (objs st) (arrs st) (onces st) (_events st) (_eventsCount st) x (defaultMaxListeners st) (kCapture st) (warnings st) (captured st) (invoked st) (user st).
Definition set_default x st := EE (objs st) (arrs st) (onces st) (_events st) (_eventsCount st) (_maxListeners st) x (kCapture st) (warnings st) (captured st) (invoked st) (user st).
Definition set_capture x st := EE (objs st) (arrs st) (onces st) (_events st) (_eventsCount st) (_maxListeners st) (defaultMaxListeners st) x (warnings st) (captured st) (invoked st) (user st).
Definition set_warnings x st := EE (objs st) (arrs st) (onces st) (_events st) (_eventsCount st) (_maxListeners st) (defaultMaxListeners st) (kCapture st) x (captured st) (invoked st) (user st).
Definition set_captured x st := EE (objs st) (arrs st) (onces st) (_events st) (_eventsCount st) (_maxListeners st) (defaultMaxListeners st) (kCapture st) (warnings st) x (invoked st) (user st).
Definition set_invoked x st := EE (objs st) (arrs st) (onces st) (_events st) (_eventsCount st) (_maxListeners st) (defaultMaxListeners st) (kCapture st) (warnings st) (captured st) x (user st).
Definition set_user x st := EE (objs st) (arrs st) (onces st) (_events st) (_eventsCount st) (_maxListeners st) (defaultMaxListeners st) (kCapture st) (warnings st) (captured st) (invoked st) x.

(** Properties of an object without a prototype. *)
Fixpoint get (o : events_obj) (k : key) : option slot :=
  match o with
  | [] => None
  | (j, s) :: o => if bool_decide (j = k) then Some s else get o k
  end.

Fixpoint put (o : events_obj) (k : key) (s : slot) : events_obj :=
  match o with
  | [] => [(k, s)]
  | (j, t) :: o => if bool_decide (j = k) then (j, s) :: o else (j, t) :: put o k s
  end.

Fixpoint del (o : events_obj) (k : key) : events_obj :=
  match o with
  | [] => []
  | (j, t) :: o => if bool_decide (j = k) then o else (j, t) :: del o k
  end.

Definition obj_at (st : emitter) (e : nat) : events_obj := default [] (objs st !! e).
Definition arr_at (st : emitter) (a : nat) : list fn := (default ([], false) (arrs st !! a)).1.
Definition warned_at (st : emitter) (a : nat) : bool := (default ([], false) (arrs st !! a)).2.

(** [events[k]] of the object at [e]. *)
Definition prop (st : emitter) (e : nat) (k : key) : option slot := get (obj_at st e) k.
Definition has (st : emitter) (e : nat) (k : key) : bool := bool_decide (is_Some (prop st e k)).

(** ** Effects *)

Inductive out (A : Type) := Val (a : A) | Exn (x : exn).
#[local] Arguments Val {A} a.
#[local] Arguments Exn {A} x.

Definition M (A : Type) : Type := emitter -> option (emitter * out A).

Definition ret_ {A} (a : A) : M A := fun st => Some (st, Val a).
Definition throw {A} (x : exn) : M A := fun st => Some (st, Exn x).
Definition bind {A B} (c : M A) (k : A -> M B) : M B := fun st =>
  match c st with
  | None => None
  | Some (st, Exn x) => Some (st, Exn x)
  | Some (st, Val a) => k a st
  end.
Definition modify (f : emitter -> emitter) : M unit := fun st => Some (f st, Val tt).
Definition read {A} (f : emitter -> A) : M A := fun st => Some (st, Val (f st)).
(** [try c finally f]. *)
Definition finally {A} (c : M A) (f : emitter -> emitter) : M A := fun st =>
  match c st with None => None | Some (st, o) => Some (f st, o) end.

#[local] Notation "'do' x <- c ; k" := (bind c (fun x => k)) (at level 100, x name, c at level 99, k at level 200).
#[local] Notation "'do_' c ; k" := (bind c (fun _ => k)) (at level 100, c at level 99, k at level 200).

(** A new object or array; its address. *)
Definition new_obj : M nat := fun st => Some (set_objs (objs st ++ [[]]) st, Val (length (objs st))).
Definition new_arr (l : list fn) : M nat := fun st => Some (set_arrs (arrs st ++ [(l, false)]) st, Val (length (arrs st))).

Definition put_prop (e : nat) (k : key) (s : slot) : M unit :=
  modify (fun st => set_objs (<[e := put (obj_at st e) k s]> (objs st)) st).
Definition del_prop (e : nat) (k : key) : M unit :=
  modify (fun st => set_objs (<[e := del (obj_at st e) k]> (objs st)) st).
Definition put_arr (a : nat) (l : list fn) : M unit :=
  modify (fun st => set_arrs (<[a := (l, warned_at st a)]> (arrs st)) st).

(** [f.listener]. *)
Definition listener_prop (st : emitter) (f : fn) : option fn :=
  match f with
  | User _ => None
  | Wrapped w => once_listener <$> onces st !! w
  end.

(** [checkListener]. *)
Definition checkListener (v : val) : M fn := match v with VFn f => ret_ f | _ => throw XArgType end.

Definition _getMaxListeners (st : emitter) : Z :=
  match _maxListeners st with None => defaultMaxListeners st | Some n => n end.

(** The constructor and [EventEmitter.init]; [captureRejections] is the option
    and [protoCapture] the default on the prototype. *)
Definition init (captureRejections : option bool) (protoCapture : bool) (st : emitter) : emitter :=
  let st :=
    match _events st with
    | None => set_events (Some (length (objs st))) 0 (set_objs (objs st ++ [[]]) st)
    | Some _ => st
    end in
  let st := set_max (match _maxListeners st with Some 0 => None | m => m end) st in
  set_capture (match captureRejections with Some true => true | _ => protoCapture end) st.

Definition is_nonnegative (v : jsval) : option Z :=
  match v with JNumber n => if 0 <=? n then Some n else None | _ => None end.

Definition setMaxListeners (n : jsval) : M unit :=
  match is_nonnegative n with
  | Some n => modify (set_max (Some n))
  | None => throw XRange
  end.

(** The setter of [EventEmitter.defaultMaxListeners]. *)
Definition set_defaultMaxListeners (n : jsval) : M unit :=
  match is_nonnegative n with
  | Some n => modify (set_default n)
  | None => throw XRange
  end.

Definition getMaxListeners : M Z := read _getMaxListeners.

(** ** Methods that only read *)

Definition arrayClone (arr : list fn) : list fn :=
  match arr with
  | [a; b] => [a; b]
  | [a; b; c] => [a; b; c]
  | [a; b; c; d] => [a; b; c; d]
  | [a; b; c; d; e] => [a; b; c; d; e]
  | [a; b; c; d; e; f] => [a; b; c; d; e; f]
  | _ => arr
  end.

Definition unwrap_fn (st : emitter) (f : fn) : fn := default f (listener_prop st f).

Definition unwrapListeners (st : emitter) (arr : list fn) : list fn := unwrap_fn st <$> arrayClone arr.

Definition _listeners (st : emitter) (type : key) (unwrap : bool) : list fn :=
  match _events st with
  | None => []
  | Some e =>
      match prop st e type with
      | None => []
      | Some (One f) => if unwrap then [unwrap_fn st f] else [f]
      | Some (Many a) => if unwrap then unwrapListeners st (arr_at st a) else arrayClone (arr_at st a)
      end
  end.

Definition listeners (st : emitter) (type : key) : list fn := _listeners st type true.
Definition rawListeners (st : emitter) (type : key) : list fn := _listeners st type false.

Definition listenerCount (st : emitter) (type : key) : Z :=
  match _events st with
  | None => 0
  | Some e =>
      match prop st e type with
      | Some (One _) => 1
      | Some (Many a) => len (arr_at st a)
      | None => 0
      end
  end.

Definition eventNames (st : emitter) : list key :=
  if 0 <? _eventsCount st then
    match _events st with Some e => own_keys (obj_at st e).*1 | None => [] end
  else [].

(** ** Operations of user code *)

Inductive op :=
| OAdd (type : key) (listener : val) (prepend : bool)   (** [on], [addListener], [prependListener] *)
| OOnce (type : key) (listener : val) (prepend : bool)  (** [once], [prependOnceListener] *)
| ORemove (type : key) (listener : val)                 (** [off], [removeListener] *)
| ORemoveAll (type : option key)
| OEmit (type : key) (args : list val)
| OCall (f : fn) (args : list val)                      (** a listener called directly *)
| OSetMax (n : jsval)
| OListeners (type : key)
| ORawListeners (type : key)
| OListenerCount (type : key)
| OEventNames.

(** What the operation gives back. *)
Inductive reply :=
| Threw (x : exn)
| RUnit
| RBool (b : bool)
| RRet (r : ret)
| RFns (l : list fn)
| RCount (n : Z)
| RKeys (l : list key).

(** The rest of a call of a user function: it returns, throws, or performs an
    operation and goes on with the reply and the user's state after it. *)
Inductive prog :=
| Return (u : U) (r : ret)
| Raise (u : U) (v : val)
| Do (u : U) (o : op) (k : U -> reply -> prog).

(** The bodies of the user's functions, and [ee[kRejection]]. *)
Context (body : F -> list val -> U -> prog) (rejection : option F).

(** ** Methods that call listeners

    [emit_] and [call_] stand for [this.emit] and for calling a function. *)
Section Methods.
Context (emit_ : key -> list val -> M bool) (call_ : fn -> list val -> M ret).

Definition addCatch (result : ret) (type : key) (args : list val) : M unit :=
  do capture <- read kCapture;
  if negb capture then ret_ tt
  else
    match result with
    | RPromise p => modify (fun st => set_captured (captured st ++ [(p, type, args)]) st)
    | RThenThrows err => do_ emit_ kError [err]; ret_ tt
    | _ => ret_ tt
    end.

Definition call_listener (type : key) (args : list val) (f : fn) : M unit :=
  do result <- call_ f args;
  match result with RNone => ret_ tt | _ => addCatch result type args end.

Fixpoint emit_loop (type : key) (args : list val) (listeners : list fn) : M unit :=
  match listeners with
  | [] => ret_ tt
  | f :: listeners => do_ call_listener type args f; emit_loop type args listeners
  end.

(** No listener for an error: it is thrown. *)
Definition unhandled (args : list val) : exn :=
  match args with
  | VError e :: _ => XVal (VError e)
  | er :: _ => XUnhandled er
  | [] => XUnhandled VUndefined
  end.

Definition emit_body (type : key) (args : list val) : M bool :=
  let doError := bool_decide (type = kError) in
  do events <- read _events;
  match events with
  | None => if doError then throw (unhandled args) else ret_ false
  | Some e =>
      do monitored <- read (fun st => has st e kErrorMonitor);
      do_ (if doError && monitored then emit_ kErrorMonitor args else ret_ true);
      do handler <- read (fun st => prop st e type);
      match handler with
      | None => if doError then throw (unhandled args) else ret_ false
      | Some (One f) => do_ call_listener type args f; ret_ true
      | Some (Many a) =>
          do listeners <- read (fun st => arrayClone (arr_at st a));
          do_ emit_loop type args listeners; ret_ true
      end
  end.

(** The check for a leak after a listener was added to an array. *)
Definition check_leak (type : key) (a : nat) : M unit :=
  modify (fun st =>
    let m := _getMaxListeners st in
    let n := len (arr_at st a) in
    if (0 <? m) && (m <? n) && negb (warned_at st a) then
      set_warnings (warnings st ++ [(type, n)]) (set_arrs (<[a := (arr_at st a, true)]> (arrs st)) st)
    else st).

(** The listener goes into the events object at [e]. *)
Definition insert_listener (e : nat) (existing : option slot) (type : key) (listener : fn) (prepend : bool) : M unit :=
  match existing with
  | None =>
      do_ put_prop e type (One listener);
      modify (fun st => set_events (_events st) (_eventsCount st + 1) st)
  | Some (One f) =>
      do a <- new_arr (if prepend then [listener; f] else [f; listener]);
      do_ put_prop e type (Many a);
      check_leak type a
  | Some (Many a) =>
      do l <- read (fun st => arr_at st a);
      do_ put_arr a (if prepend then listener :: l else l ++ [listener]);
      check_leak type a
  end.

Definition _addListener (type : key) (listener : val) (prepend : bool) : M unit :=
  do listener <- checkListener listener;
  do events <- read _events;
  match events with
  | None =>
      do e <- new_obj;
      do_ modify (set_events (Some e) 0);
      insert_listener e None type listener prepend
  | Some e =>
      do observed <- read (fun st => has st e kNewListener);
      do original <- read (fun st => unwrap_fn st listener);
      do_ (if observed then emit_ kNewListener [VKey type; VFn original] else ret_ true);
      do events <- read _events;
      match events with
      | None => throw XType
      | Some e =>
          do existing <- read (fun st => prop st e type);
          insert_listener e existing type listener prepend
      end
  end.

(** [_onceWrap], with the state object of the wrapper. *)
Definition _onceWrap (type : key) (listener : fn) : M fn := fun st =>
  Some (set_onces (onces st ++ [Once false type listener]) st, Val (Wrapped (length (onces st)))).

(** [once] and [prependOnceListener]. *)
Definition once (type : key) (listener : val) (prepend : bool) : M unit :=
  do listener <- checkListener listener;
  do wrapped <- _onceWrap type listener;
  _addListener type (VFn wrapped) prepend.

(** [list[i] === listener || list[i].listener === listener]. *)
Definition matches (st : emitter) (listener f : fn) : bool :=
  bool_decide (f = listener) || bool_decide (listener_prop st f = Some listener).

(** The last position that matches. *)
Definition last_match (st : emitter) (listener : fn) (arr : list fn) : option nat :=
  fold_left (fun acc '(i, f) => if matches st listener f then Some i else acc) (imap pair arr) None.

(** [spliceOne]: the elements after [index] move down, and the last goes;
    [shift] at the front. *)
Fixpoint splice_loop (arr : list fn) (index n : nat) : list fn :=
  match n with
  | O => arr
  | S n =>
      match arr !! S index with
      | Some f => splice_loop (<[index := f]> arr) (S index) n
      | None => arr
      end
  end.

Definition spliceOne (arr : list fn) (index : nat) : list fn :=
  take (length arr - 1) (splice_loop arr index (length arr - 1 - index)).

(** An observer of [removeListener] is told. *)
Definition notify_removed (e : nat) (type : key) (listener : fn) : M unit :=
  do observed <- read (fun st => has st e kRemoveListener);
  if observed then do_ emit_ kRemoveListener [VKey type; VFn listener]; ret_ tt else ret_ tt.

(** One event name less: the object is given up when it was the last. *)
Definition drop_name (e : nat) (type : key) : M bool :=
  do_ modify (fun st => set_events (_events st) (_eventsCount st - 1) st);
  do count <- read _eventsCount;
  if count =? 0 then
    do e' <- new_obj;
    do_ modify (fun st => set_events (Some e') (_eventsCount st) st);
    ret_ false
  else do_ del_prop e type; ret_ true.

Definition removeListener (type : key) (listener : val) : M unit :=
  do listener <- checkListener listener;
  do events <- read _events;
  match events with
  | None => ret_ tt
  | Some e =>
      do list <- read (fun st => prop st e type);
      match list with
      | None => ret_ tt
      | Some (One f) =>
          do found <- read (fun st => matches st listener f);
          if found then
            do more <- drop_name e type;
            do original <- read (fun st => default listener (listener_prop st f));
            if more then notify_removed e type original else ret_ tt
          else ret_ tt
      | Some (Many a) =>
          do position <- read (fun st => last_match st listener (arr_at st a));
          match position with
          | None => ret_ tt
          | Some position =>
              do list <- read (fun st => arr_at st a);
              let list := match position with O => tail list | _ => spliceOne list position end in
              do_ put_arr a list;
              do_ match list with [f] => put_prop e type (One f) | _ => ret_ tt end;
              notify_removed e type listener
          end
      end
  end.

(** [removeAllListeners(type)] with an observer: LIFO over the live array. *)
Fixpoint remove_down (type : key) (a i : nat) : M unit :=
  match i with
  | O => ret_ tt
  | S i =>
      do f <- read (fun st => arr_at st a !! i);
      do_ removeListener type (match f with Some f => VFn f | None => VUndefined end);
      remove_down type a i
  end.

Definition removeAll_type (type : key) : M unit :=
  do events <- read _events;
  match events with
  | None => ret_ tt
  | Some e =>
      do observed <- read (fun st => has st e kRemoveListener);
      do list <- read (fun st => prop st e type);
      if negb observed then
        match list with
        | Some _ => do_ drop_name e type; ret_ tt
        | None => ret_ tt
        end
      else
        match list with
        | None => ret_ tt
        | Some (One f) => removeListener type (VFn f)
        | Some (Many a) => do n <- read (fun st => length (arr_at st a)); remove_down type a n
        end
  end.

Fixpoint removeAll_keys (keys : list key) : M unit :=
  match keys with
  | [] => ret_ tt
  | k :: keys =>
      do_ (if bool_decide (k = kRemoveListener) then ret_ tt else removeAll_type k);
      removeAll_keys keys
  end.

(** A new, empty events object. *)
Definition reset_events : M unit :=
  do e <- new_obj; modify (set_events (Some e) 0).

Definition removeAllListeners (type : option key) : M unit :=
  match type with
  | Some type => removeAll_type type
  | None =>
      do events <- read _events;
      match events with
      | None => ret_ tt
      | Some e =>
          do observed <- read (fun st => has st e kRemoveListener);
          if negb observed then reset_events
          else
            do keys <- read (fun st => own_keys (obj_at st e).*1);
            do_ removeAll_keys keys;
            do_ removeAll_type kRemoveListener;
            reset_events
      end
  end.

(** [onceWrapper], bound to the state object [w]. *)
Definition onceWrapper (w : nat) (args : list val) : M ret :=
  do state <- read (fun st => onces st !! w);
  match state with
  | None => throw XType
  | Some s =>
      if fired s then ret_ RNone
      else
        do_ removeListener (once_type s) (VFn (Wrapped w));
        do_ modify (fun st => set_onces (<[w := Once true (once_type s) (once_listener s)]> (onces st)) st);
        do_ modify (fun st => set_invoked (invoked st ++ [w]) st);
        call_ (once_listener s) args
  end.

(** What an operation does, with its reply. *)
Definition reply_of {A} (f : A -> reply) (o : out A) : reply :=
  match o with Val a => f a | Exn x => Threw x end.
Definition with_reply {A} (f : A -> reply) (c : M A) : emitter -> option (emitter * reply) :=
  fun st => match c st with None => None | Some (st, o) => Some (st, reply_of f o) end.

Definition perform (o : op) : emitter -> option (emitter * reply) :=
  match o with
  | OAdd type l prepend => with_reply (fun _ => RUnit) (_addListener type l prepend)
  | OOnce type l prepend => with_reply (fun _ => RUnit) (once type l prepend)
  | ORemove type l => with_reply (fun _ => RUnit) (removeListener type l)
  | ORemoveAll type => with_reply (fun _ => RUnit) (removeAllListeners type)
  | OEmit type args => with_reply RBool (emit_ type args)
  | OCall f args => with_reply RRet (call_ f args)
  | OSetMax n => with_reply (fun _ => RUnit) (setMaxListeners n)
  | OListeners type => with_reply RFns (read (fun st => listeners st type))
  | ORawListeners type => with_reply RFns (read (fun st => rawListeners st type))
  | OListenerCount type => with_reply RCount (read (fun st => listenerCount st type))
  | OEventNames => with_reply RKeys (read eventNames)
  end.

Fixpoint run_prog (p : prog) : M ret := fun st =>
  match p with
  | Return u r => Some (set_user u st, Val r)
  | Raise u v => Some (set_user u st, Exn (XVal v))
  | Do u o k =>
      match perform o (set_user u st) with
      | None => None
      | Some (st, r) => run_prog (k (user st) r) st
      end
  end.

Definition call_body (f : fn) (args : list val) : M ret :=
  match f with
  | User f => do u <- read user; run_prog (body f args u)
  | Wrapped w => onceWrapper w args
  end.
End Methods.

(** Every nested call takes one unit of fuel. *)
Fixpoint emit (fuel : nat) (type : key) (args : list val) : M bool :=
  match fuel with
  | O => fun _ => None
  | S fuel => emit_body (emit fuel) (call fuel) type args
  end
with call (fuel : nat) (f : fn) (args : list val) : M ret :=
  match fuel with
  | O => fun _ => None
  | S fuel => call_body (emit fuel) (call fuel) f args
  end.

(** [emitUnhandledRejectionOrErr], run by [nextTick] when a captured promise is
    rejected. *)
Definition emitUnhandledRejectionOrErr (fuel : nat) (err : val) (type : key) (args : list val) : M unit :=
  match rejection with
  | Some f => do_ call fuel (User f) (err :: VKey type :: args); ret_ tt
  | None =>
      do prev <- read kCapture;
      finally (do_ modify (set_capture false); do_ emit fuel kError [err]; ret_ tt) (set_capture prev)
  end.

(** Any operation of the emitter, from outside. *)
Definition operate (fuel : nat) (o : op) : emitter -> option (emitter * reply) := perform (emit fuel) (call fuel) o.

(** ** Objects and arrays *)

Lemma get_put_eq o k s : get (put o k s) k = Some s.
Proof.
  induction o as [|[j t] o IH]; cbn; [by rewrite bool_decide_eq_true_2|].
  destruct (bool_decide_reflect (j = k)); cbn; [by rewrite bool_decide_eq_true_2|by rewrite bool_decide_eq_false_2].
Qed.

Lemma get_put_ne o k j s : j <> k -> get (put o k s) j = get o j.
Proof.
  intros Hne. induction o as [|[i t] o IH]; cbn; [by rewrite bool_decide_eq_false_2|].
  destruct (bool_decide_reflect (i = k)) as [->|]; cbn; [by rewrite bool_decide_eq_false_2|]. by rewrite IH.
Qed.

Lemma get_None o k : get o k = None <-> k ∉ o.*1.
Proof.
  induction o as [|[j t] o IH]; cbn; [by split; [intros _ ?%elem_of_nil|]|]. rewrite not_elem_of_cons.
  rewrite <- IH. destruct (bool_decide_reflect (j = k)) as [->|]; split; [done|by intros []|auto|by intros []].
Qed.

Lemma get_elem o k s : get o k = Some s -> (k, s) ∈ o.
Proof.
  induction o as [|[j t] o IH]; cbn; [done|]. destruct (bool_decide_reflect (j = k)) as [->|].
  - intros [= ->]. by left.
  - intros H. right. auto.
Qed.

Lemma put_keys_old o k s : get o k <> None -> (put o k s).*1 = o.*1.
Proof.
  induction o as [|[j t] o IH]; cbn; [done|]. destruct (bool_decide_reflect (j = k)); cbn; [done|].
  intros H. by rewrite IH.
Qed.

Lemma put_new o k s : get o k = None -> put o k s = o ++ [(k, s)].
Proof.
  induction o as [|[j t] o IH]; cbn; [done|]. destruct (bool_decide_reflect (j = k)); [done|]. intros H. by rewrite IH.
Qed.

(** Where a property stands. *)
Lemma get_split o k s :
  get o k = Some s -> exists o1 o2, o = o1 ++ (k, s) :: o2 /\ k ∉ o1.*1.
Proof.
  induction o as [|[j t] o IH]; cbn; [done|]. destruct (bool_decide_reflect (j = k)) as [->|Hne].
  - intros [= ->]. exists [], o. split; [done|apply not_elem_of_nil].
  - intros (o1 & o2 & -> & H)%IH. exists ((j, t) :: o1), o2. split; [done|]. apply not_elem_of_cons. auto.
Qed.

Lemma put_split o1 k s t o2 : k ∉ o1.*1 -> put (o1 ++ (k, s) :: o2) k t = o1 ++ (k, t) :: o2.
Proof.
  induction o1 as [|[j r] o1 IH]; cbn; [by rewrite bool_decide_eq_true_2|]. rewrite not_elem_of_cons. intros [Hne H].
  rewrite bool_decide_eq_false_2 by done. by rewrite IH.
Qed.

Lemma del_split o1 k s o2 : k ∉ o1.*1 -> del (o1 ++ (k, s) :: o2) k = o1 ++ o2.
Proof.
  induction o1 as [|[j r] o1 IH]; cbn; [by rewrite bool_decide_eq_true_2|]. rewrite not_elem_of_cons. intros [Hne H].
  rewrite bool_decide_eq_false_2 by done. by rewrite IH.
Qed.

Lemma get_app o1 o2 k : get (o1 ++ o2) k = match get o1 k with Some s => Some s | None => get o2 k end.
Proof. induction o1 as [|[j t] o1 IH]; cbn; [done|]. by destruct (bool_decide (j = k)). Qed.

Lemma get_del_ne o k j : j <> k -> get (del o k) j = get o j.
Proof.
  intros Hne. induction o as [|[i t] o IH]; cbn; [done|]. destruct (bool_decide_reflect (i = k)) as [->|]; cbn.
  - by rewrite bool_decide_eq_false_2.
  - by rewrite IH.
Qed.

Lemma arrayClone_id arr : arrayClone arr = arr.
Proof. by do 7 (destruct arr as [|? arr]; [done|]). Qed.

Lemma splice_loop_spec l1 x l2 : exists z, splice_loop (l1 ++ x :: l2) (length l1) (length l2) = l1 ++ l2 ++ [z].
Proof.
  revert l1 x. induction l2 as [|y l2 IH]; intros l1 x; [by exists x|]. cbn [length splice_loop].
  rewrite lookup_app_r, Nat.sub_succ_l, Nat.sub_diag by lia. cbn [lookup list_lookup].
  replace (<[length l1 := y]> (l1 ++ x :: y :: l2)) with ((l1 ++ [y]) ++ y :: l2).
  2:{ rewrite insert_app_r_alt, Nat.sub_diag by lia. cbn. by rewrite <- app_assoc. }
  replace (S (length l1)) with (length (l1 ++ [y])) by (rewrite length_app; cbn; lia).
  destruct (IH (l1 ++ [y]) y) as [z ->]. exists z. by rewrite <- app_assoc.
Qed.

Lemma spliceOne_spec l1 x l2 : spliceOne (l1 ++ x :: l2) (length l1) = l1 ++ l2.
Proof.
  unfold spliceOne. rewrite length_app. cbn [length].
  replace (length l1 + S (length l2) - 1 - length l1)%nat with (length l2) by lia. destruct (splice_loop_spec l1 x l2) as [z ->].
  replace (length l1 + S (length l2) - 1)%nat with (length (l1 ++ l2)) by (rewrite length_app; lia).
  by rewrite app_assoc, take_app_length.
Qed.

Lemma last_match_snoc st l arr f :
  last_match st l (arr ++ [f]) = if matches st l f then Some (length arr) else last_match st l arr.
Proof.
  unfold last_match. rewrite imap_app, fold_left_app. cbn. by rewrite Nat.add_0_r.
Qed.

(** The last match, and the list without it. *)
Fixpoint remove_first_match (st : emitter) (l : fn) (arr : list fn) : list fn :=
  match arr with
  | [] => []
  | f :: arr => if matches st l f then arr else f :: remove_first_match st l arr
  end.

Definition remove_last_match (st : emitter) (l : fn) (arr : list fn) : list fn :=
  reverse (remove_first_match st l (reverse arr)).

Lemma last_match_spec st l arr :
  match last_match st l arr with
  | None => remove_last_match st l arr = arr /\ Forall (fun f => matches st l f = false) arr
  | Some i => exists l1 f l2, arr = l1 ++ f :: l2 /\ length l1 = i /\ matches st l f = true
                /\ remove_last_match st l arr = l1 ++ l2
  end.
Proof.
  induction arr as [|f arr IH] using rev_ind; [done|]. rewrite last_match_snoc. unfold remove_last_match in *.
  rewrite reverse_snoc. cbn [remove_first_match]. destruct (matches st l f) eqn:E.
  - exists arr, f, []. rewrite reverse_involutive, app_nil_r. done.
  - rewrite reverse_cons. destruct (last_match st l arr) as [i|].
    + destruct IH as (l1 & g & l2 & -> & Hi & Hg & ->). exists l1, g, (l2 ++ [f]). rewrite <- !app_assoc. done.
    + destruct IH as [-> H]. split; [done|]. apply Forall_app. split; [done|]. by apply Forall_singleton.
Qed.

Lemma spliced_tail (arr l1 l2 : list fn) f :
  arr = l1 ++ f :: l2 ->
  match length l1 with O => tail arr | _ => spliceOne arr (length l1) end = l1 ++ l2.
Proof. intros ->. destruct l1 as [|g l1]; [done|]. cbn [length]. apply (spliceOne_spec (g :: l1)). Qed.

(** ** The invariant

    [_eventsCount] is the number of names; an array has at least two listeners
    and belongs to one name only. *)

Definition address (s : slot) : option nat := match s with Many a => Some a | One _ => None end.
Definition addresses (o : events_obj) : list nat := omap (fun p => address p.2) o.

Definition wf_obj (arrs : list (list fn * bool)) (o : events_obj) : Prop :=
  NoDup o.*1 /\ NoDup (addresses o)
  /\ Forall (fun a => exists l w, arrs !! a = Some (l, w) /\ (2 <= length l)%nat) (addresses o).

Definition wf (st : emitter) : Prop :=
  match _events st with
  | None => _eventsCount st = 0
  | Some e => exists o, objs st !! e = Some o /\ _eventsCount st = len o /\ wf_obj (arrs st) o
  end.

(** What the methods that change listeners leave alone. *)
Definition same_rest (st st' : emitter) : Prop :=
  onces st' = onces st /\ _maxListeners st' = _maxListeners st /\ defaultMaxListeners st' = defaultMaxListeners st
  /\ kCapture st' = kCapture st /\ captured st' = captured st /\ invoked st' = invoked st /\ user st' = user st.

(** The listeners of [type] become [l], those of other names stay, and no
    events object gets another name. *)
Definition updated (st st' : emitter) (type : key) (l : list fn) : Prop :=
  wf st' /\ same_rest st st'
  /\ rawListeners st' type = l /\ (forall k, k <> type -> rawListeners st' k = rawListeners st k)
  /\ (forall e k, k <> type -> has st' e k = true -> has st e k = true).

Definition content (arrs : list (list fn * bool)) (s : option slot) : list fn :=
  match s with
  | None => []
  | Some (One f) => [f]
  | Some (Many a) => (default ([], false) (arrs !! a)).1
  end.

Lemma raw_content st e k : _events st = Some e -> rawListeners st k = content (arrs st) (prop st e k).
Proof.
  intros E. unfold rawListeners, _listeners. rewrite E. destruct (prop st e k) as [[f|a]|]; try done.
  by rewrite arrayClone_id.
Qed.

Lemma addresses_elem o k a : get o k = Some (Many a) -> a ∈ addresses o.
Proof. intros H%get_elem. unfold addresses. apply list_elem_of_omap. by exists (k, Many a). Qed.

(** Addresses of different names differ. *)
Lemma addresses_ne o j k a b :
  NoDup (addresses o) -> j <> k -> get o j = Some (Many a) -> get o k = Some (Many b) -> a <> b.
Proof.
  intros Hnd Hne Hj Hk ->. destruct (get_split _ _ _ Hk) as (o1 & o2 & -> & H1). rewrite get_app in Hj. cbn in Hj.
  unfold addresses in Hnd. rewrite omap_app in Hnd. cbn in Hnd. apply NoDup_app in Hnd as (_ & H12 & [H2 _]%NoDup_cons).
  destruct (get o1 j) eqn:E1.
  - injection Hj as ->. apply (H12 b); [|by left]. by apply (addresses_elem o1 j).
  - rewrite bool_decide_eq_false_2 in Hj by done. by apply H2, (addresses_elem o2 j).
Qed.

Lemma wf_obj_del arrs o1 k s o2 : wf_obj arrs (o1 ++ (k, s) :: o2) -> wf_obj arrs (o1 ++ o2).
Proof.
  unfold wf_obj, addresses. rewrite !fmap_app, !omap_app. cbn.
  intros (H1 & H2 & H3). split.
  { apply NoDup_app in H1 as (? & H & [? ?]%NoDup_cons). apply NoDup_app. split; [done|]. split; [|done].
    intros x Hx Hy. apply (H x Hx). by right. }
  apply NoDup_app in H2 as (Ha & Hb & Hc). apply Forall_app in H3 as [H3 H4]. destruct s as [f|a]; cbn in *.
  - split; [apply NoDup_app; done|]. by apply Forall_app.
  - apply NoDup_cons in Hc as [_ Hc]. apply Forall_cons in H4 as [_ H4]. split; [|by apply Forall_app].
    apply NoDup_app. split; [done|]. split; [|done]. intros x Hx Hy. apply (Hb x Hx). by right.
Qed.

Lemma wf_obj_set arrs o1 k s t o2 :
  wf_obj arrs (o1 ++ (k, s) :: o2) ->
  match t with
  | One _ => True
  | Many a => (a ∉ addresses (o1 ++ o2)) /\ (exists l w, arrs !! a = Some (l, w) /\ (2 <= length l)%nat)
  end ->
  wf_obj arrs (o1 ++ (k, t) :: o2).
Proof.
  intros Hwf Ht. pose proof (wf_obj_del _ _ _ _ _ Hwf) as (_ & H2 & H3). destruct Hwf as [H1 _].
  split; [by rewrite fmap_app in *|]. unfold addresses in *. rewrite omap_app in *. cbn.
  destruct t as [f|a]; cbn; [done|]. destruct Ht as [Hn Ha]. apply not_elem_of_app in Hn as [Hn1 Hn2].
  apply NoDup_app in H2 as (? & H & ?). split.
  - apply NoDup_app. split; [done|]. split; [|by apply NoDup_cons]. intros x Hx [->|Hy]%elem_of_cons; [done|]. by apply (H x).
  - apply Forall_app in H3 as [? ?]. apply Forall_app. split; [done|]. by apply Forall_cons.
Qed.

(** Arrays that change or are added keep the object well formed. *)
Lemma wf_obj_arrs arrs arrs' o :
  wf_obj arrs o ->
  (forall a l w, a ∈ addresses o -> arrs !! a = Some (l, w) -> (2 <= length l)%nat ->
     exists l' w', arrs' !! a = Some (l', w') /\ (2 <= length l')%nat) ->
  wf_obj arrs' o.
Proof.
  intros (H1 & H2 & H3) H. split; [done|]. split; [done|]. rewrite Forall_forall in *. intros a Ha.
  destruct (H3 a Ha) as (l & w & E & Hl). by apply (H a l w).
Qed.

Lemma has_obj st e k : has st e k = bool_decide (is_Some (get (obj_at st e) k)).
Proof. done. Qed.

(** The object at [e] is replaced by [o']: what the emitter's names are then. *)
Lemma updated_intro st e o o' n arrs' type l w :
  _events st = Some e -> objs st !! e = Some o ->
  n = len o' -> wf_obj arrs' o' ->
  content arrs' (get o' type) = l ->
  (forall k, k <> type -> content arrs' (get o' k) = content (arrs st) (get o k) /\ (is_Some (get o' k) -> is_Some (get o k))) ->
  updated st (set_warnings w (set_events (Some e) n (set_arrs arrs' (set_objs (<[e := o']> (objs st)) st)))) type l.
Proof.
  intros He Ho Hn Hwf Hl Hk. assert (Hlt : (e < length (objs st))%nat) by (by apply lookup_lt_Some in Ho).
  split; [|split; [done|]].
  - unfold wf. cbn. exists o'. split; [by apply list_lookup_insert_eq|]. done.
  - set (st' := set_warnings _ _).
    assert (Eo : forall d, obj_at st' d = if decide (d = e) then o' else obj_at st d).
    { intros d. unfold obj_at, st'. cbn. destruct (decide (d = e)) as [->|].
      - by rewrite list_lookup_insert_eq.
      - by rewrite list_lookup_insert_ne. }
    assert (Ee : obj_at st e = o) by (unfold obj_at; by rewrite Ho).
    assert (Er : forall k, rawListeners st' k = content arrs' (get o' k)).
    { intros k. rewrite (raw_content st' e) by done. unfold prop. rewrite Eo, decide_True by done. done. }
    split; [by rewrite Er|]. split.
    + intros k Hne. rewrite Er, (raw_content st e) by done. unfold prop. rewrite Ee. by apply Hk.
    + intros d k Hne. rewrite !has_obj, Eo. destruct (decide (d = e)) as [->|]; [|done].
      rewrite !bool_decide_eq_true, Ee. by apply Hk.
Qed.

(** No events object gets another name. *)
Definition names_shrink (st st' : emitter) : Prop := forall e k, has st' e k = true -> has st e k = true.

Lemma shrink_refl st : names_shrink st st.
Proof. by intros e k. Qed.

Lemma shrink_intro st e o o' n arrs' w :
  objs st !! e = Some o -> (forall k, is_Some (get o' k) -> is_Some (get o k)) ->
  names_shrink st (set_warnings w (set_events (Some e) n (set_arrs arrs' (set_objs (<[e := o']> (objs st)) st)))).
Proof.
  intros Ho Hk d k. rewrite !has_obj, !bool_decide_eq_true. unfold obj_at. cbn. destruct (decide (d = e)) as [->|].
  - rewrite list_lookup_insert_eq by (by apply lookup_lt_Some in Ho). rewrite Ho. apply Hk.
  - by rewrite list_lookup_insert_ne.
Qed.

(** ** Adding a listener *)

Lemma check_leak_spec st type a l w :
  arrs st !! a = Some (l, w) ->
  exists w' ws, check_leak type a st = Some (set_warnings ws (set_arrs (<[a := (l, w')]> (arrs st)) st), Val tt).
Proof.
  intros Ea. unfold check_leak, modify. cbv zeta. unfold arr_at. rewrite Ea. cbn [default from_option id fst snd].
  destruct ((0 <? _getMaxListeners st) && (_getMaxListeners st <? len l) && negb (warned_at st a)).
  - by eexists true, _.
  - exists w, (warnings st). rewrite list_insert_id by done. by destruct st.
Qed.

Definition added (prepend : bool) (f : fn) (l : list fn) : list fn := if prepend then f :: l else l ++ [f].

Lemma added_length prepend f l : length (added prepend f l) = S (length l).
Proof. unfold added. destruct prepend; [done|]. rewrite length_app. cbn. lia. Qed.

(** An array that is new or whose content changes does not touch the other
    names. *)
Lemma content_other arrs arrs' o j k a :
  wf_obj arrs o -> j <> k ->
  (forall b, b <> a -> (b < length arrs)%nat -> arrs' !! b = arrs !! b) ->
  (get o k = Some (Many a) \/ a = length arrs) ->
  content arrs' (get o j) = content arrs (get o j).
Proof.
  intros (Hk & Ha & Hf) Hne Harr Hor. destruct (get o j) as [[f|b]|] eqn:Ej; try done. cbn [content].
  rewrite Forall_forall in Hf. destruct (Hf b) as (l & w & Eb & _); [by apply (addresses_elem o j)|].
  assert (Hlt : (b < length arrs)%nat) by by apply lookup_lt_Some in Eb.
  rewrite Harr; [done| |done]. destruct Hor as [Hget | ->]; [|lia].
  by apply (addresses_ne o j k).
Qed.

Lemma insert_one st e o type f g prepend :
  _events st = Some e -> objs st !! e = Some o -> _eventsCount st = len o -> wf_obj (arrs st) o -> get o type = Some (One g) ->
  exists st', insert_listener e (Some (One g)) type f prepend st = Some (st', Val tt)
    /\ updated st st' type (added prepend f [g]).
Proof.
  intros He Ho Hn Hwf Hg. unfold insert_listener, bind, put_prop, modify, new_arr. cbn -[check_leak].
  unfold obj_at. cbn -[check_leak]. rewrite Ho. cbn [default from_option id]. set (a := length (arrs st)).
  replace (if prepend then [f; g] else [g; f]) with (added prepend f [g]) by by destruct prepend.
  match goal with |- context [check_leak type a ?s] => set (st1 := s) end.
  destruct (check_leak_spec st1 type a (added prepend f [g]) false) as (w & ws & ->); [by apply list_lookup_middle|].
  eexists. split; [reflexivity|]. set (arrs' := <[a := (added prepend f [g], w)]> (arrs st1)).
  assert (Ea : arrs' !! a = Some (added prepend f [g], w)).
  { unfold arrs', st1. cbn. apply list_lookup_insert_eq. rewrite length_app. cbn. lia. }
  assert (Hold : forall b, b <> a -> (b < length (arrs st))%nat -> arrs' !! b = arrs st !! b).
  { intros b Hb Hlt. unfold arrs', st1. cbn. rewrite list_lookup_insert_ne by done. by rewrite lookup_app_l. }
  destruct (get_split _ _ _ Hg) as (o1 & o2 & Eo & Hni).
  pose proof (updated_intro st e o (put o type (Many a)) (len o) arrs' type (added prepend f [g]) ws He Ho) as Hu.
  replace (set_events _ _ _) with (set_arrs arrs' st1) in Hu.
  2:{ unfold st1. destruct st; cbn in *. by subst. }
  apply Hu; clear Hu.
  - unfold len. by rewrite <- (length_fmap fst (put _ _ _)), put_keys_old, length_fmap by (by rewrite Hg).
  - rewrite Eo, put_split by done. apply (wf_obj_set _ _ _ (One g)).
    + rewrite <- Eo. apply (wf_obj_arrs (arrs st)); [done|]. intros b l v Hb Eb Hl. exists l, v.
      assert ((b < length (arrs st))%nat) by by apply lookup_lt_Some in Eb. rewrite Hold by (subst a; lia). done.
    + split; [|by eexists _, _; split; [exact Ea|rewrite added_length]]. intros Hin.
      assert (Hin' : a ∈ addresses o).
      { rewrite Eo. unfold addresses in *. rewrite omap_app in *. by apply elem_of_app in Hin as [?|?]; apply elem_of_app; [left|right]. }
      destruct Hwf as (_ & _ & Hf). rewrite Forall_forall in Hf. destruct (Hf a Hin') as (? & ? & E & _).
      apply lookup_lt_Some in E. subst a. lia.
  - rewrite get_put_eq. cbn [content]. by rewrite Ea.
  - intros k Hne. rewrite get_put_ne by done. split; [|done].
    apply (content_other (arrs st) arrs' o k type a); auto.
Qed.

Lemma insert_many st e o type f a prepend :
  _events st = Some e -> objs st !! e = Some o -> _eventsCount st = len o -> wf_obj (arrs st) o -> get o type = Some (Many a) ->
  exists st', insert_listener e (Some (Many a)) type f prepend st = Some (st', Val tt)
    /\ updated st st' type (added prepend f (arr_at st a)).
Proof.
  intros He Ho Hn Hwf Hg.
  assert (exists l w, arrs st !! a = Some (l, w) /\ (2 <= length l)%nat) as (l & w & Ea & Hl).
  { destruct Hwf as (_ & _ & Hf). rewrite Forall_forall in Hf. apply Hf. by apply (addresses_elem o type). }
  unfold insert_listener, bind, put_arr, modify, read. cbn -[check_leak].
  assert (El : arr_at st a = l) by (unfold arr_at; by rewrite Ea). rewrite El. fold (added prepend f l).
  match goal with |- context [check_leak type a ?s] => set (st1 := s) end.
  assert (Hlt : (a < length (arrs st))%nat) by by apply lookup_lt_Some in Ea.
  destruct (check_leak_spec st1 type a (added prepend f l) (warned_at st a)) as (w' & ws & ->); [by apply list_lookup_insert_eq|].
  eexists. split; [reflexivity|]. set (arrs' := <[a := (added prepend f l, w')]> (arrs st1)).
  assert (Ea' : arrs' !! a = Some (added prepend f l, w')).
  { unfold arrs', st1. cbn. apply list_lookup_insert_eq. by rewrite length_insert. }
  assert (Hold : forall b, b <> a -> arrs' !! b = arrs st !! b).
  { intros b Hb. unfold arrs', st1. cbn. by rewrite !list_lookup_insert_ne. }
  pose proof (updated_intro st e o o (len o) arrs' type (added prepend f l) ws He Ho) as Hu.
  rewrite list_insert_id in Hu by done.
  replace (set_events _ _ _) with (set_arrs arrs' st1) in Hu.
  2:{ unfold st1. destruct st; cbn in *. by subst. }
  apply Hu; clear Hu; [done| | |].
  - apply (wf_obj_arrs (arrs st)); [done|]. intros b l' v Hb Eb Hl'. destruct (decide (b = a)) as [->|].
    + eexists _, _. split; [exact Ea'|]. rewrite added_length. lia.
    + exists l', v. by rewrite Hold.
  - rewrite Hg. cbn [content]. by rewrite Ea'.
  - intros k Hne. split; [|done]. apply (content_other (arrs st) arrs' o k type a); auto.
Qed.

Lemma insert_none st e o type f prepend :
  _events st = Some e -> objs st !! e = Some o -> _eventsCount st = len o -> wf_obj (arrs st) o -> get o type = None ->
  exists st', insert_listener e None type f prepend st = Some (st', Val tt) /\ updated st st' type [f].
Proof.
  intros He Ho Hn Hwf Hg. unfold insert_listener, bind, put_prop, modify. cbn.
  assert (Eo : obj_at st e = o) by (unfold obj_at; by rewrite Ho). rewrite Eo.
  eexists. split; [reflexivity|].
  pose proof (updated_intro st e o (put o type (One f)) (_eventsCount st + 1) (arrs st) type [f] (warnings st) He Ho) as Hu.
  match type of Hu with context [updated st ?s type [f]] => match goal with |- updated st ?t type [f] => replace t with s end end.
  2:{ destruct st; cbn in *. by subst. }
  apply Hu; clear Hu.
  - rewrite put_new, len_app, Hn by done. done.
  - rewrite put_new by done. destruct Hwf as (H1 & H2 & H3). split.
    + rewrite fmap_app. apply NoDup_app. split; [done|]. split; [|by apply NoDup_singleton].
      intros k Hk ->%list_elem_of_singleton. by apply get_None in Hg.
    + unfold addresses in *. rewrite omap_app. cbn. by rewrite app_nil_r.
  - by rewrite get_put_eq.
  - intros k Hne. by rewrite get_put_ne.
Qed.

Lemma insert_listener_spec st e type f prepend :
  wf st -> _events st = Some e ->
  exists st', insert_listener e (prop st e type) type f prepend st = Some (st', Val tt)
    /\ updated st st' type (added prepend f (rawListeners st type)).
Proof.
  intros Hwf He. unfold wf in Hwf. rewrite He in Hwf. destruct Hwf as (o & Ho & Hn & Hwf).
  assert (Eo : obj_at st e = o) by (unfold obj_at; by rewrite Ho). rewrite (raw_content st e) by done.
  unfold prop. rewrite Eo. destruct (get o type) as [[g|a]|] eqn:Eg; cbn [content].
  - by apply (insert_one st e o).
  - by apply (insert_many st e o).
  - replace (added prepend f []) with [f] by by destruct prepend. by apply (insert_none st e o).
Qed.

(** ** Removing a listener *)

Lemma updated_refl st type : wf st -> updated st st type (rawListeners st type).
Proof. by repeat split. Qed.

(** A fresh events object: no names are left. *)
Lemma raw_reset st st' k :
  _events st' = Some (length (objs st)) -> objs st' = objs st ++ [[]] -> rawListeners st' k = [].
Proof.
  intros He Ho. rewrite (raw_content st' (length (objs st))) by done. unfold prop, obj_at. by rewrite Ho, list_lookup_middle.
Qed.

Lemma has_reset st st' e k : objs st' = objs st ++ [[]] -> has st' e k = true -> has st e k = true.
Proof.
  intros Ho. rewrite !has_obj. unfold obj_at. rewrite Ho. destruct (decide (e < length (objs st))%nat).
  - by rewrite lookup_app_l.
  - rewrite lookup_app_r by lia. by destruct (e - length (objs st))%nat as [|[|m]].
Qed.

Lemma drop_name_spec st e type :
  wf st -> _events st = Some e -> has st e type = true ->
  exists st' more, drop_name e type st = Some (st', Val more) /\ updated st st' type [] /\ names_shrink st st'.
Proof.
  intros Hwf He Hh. unfold wf in Hwf. rewrite He in Hwf. destruct Hwf as (o & Ho & Hn & Hwf).
  assert (Eo : obj_at st e = o) by (unfold obj_at; by rewrite Ho). rewrite has_obj, Eo in Hh.
  apply bool_decide_eq_true in Hh as [s Hg]. destruct (get_split _ _ _ Hg) as (o1 & o2 & E & Hni).
  assert (Hlen : len o = len (o1 ++ o2) + 1) by (rewrite E, !len_app, len_cons; lia).
  unfold drop_name, bind, modify, read. cbn. destruct (Z.eqb_spec (_eventsCount st - 1) 0) as [Hz|Hz].
  - cbn. eexists _, _. split; [reflexivity|]. assert (o1 ++ o2 = []) as [-> ->]%app_nil by (apply len_0_nil; lia).
    match goal with |- updated _ ?s _ _ /\ _ => set (st' := s) end.
    split; [|intros d k; by apply has_reset].
    assert (Hr : forall k, rawListeners st' k = []) by (intros k; by apply (raw_reset st)).
    split; [|split; [done|]].
    + unfold wf. cbn. exists []. split; [by apply list_lookup_middle|]. split; [by rewrite Hz|]. by repeat constructor.
    + split; [done|]. split; [|intros d k _; by apply has_reset].
      intros k Hne. rewrite Hr, (raw_content st e) by done. unfold prop. rewrite Eo, E. cbn.
      by rewrite bool_decide_eq_false_2.
  - cbn. unfold obj_at. cbn. rewrite Ho. cbn [default from_option id]. eexists _, _. split; [reflexivity|].
    pose proof (updated_intro st e o (del o type) (_eventsCount st - 1) (arrs st) type [] (warnings st) He Ho) as Hu.
    match type of Hu with context [updated st ?s type []] => match goal with |- updated st ?t type [] /\ _ => replace t with s end end.
    2:{ destruct st; cbn in *. by subst. }
    split; [apply Hu; clear Hu|].
    + rewrite E, del_split by done. rewrite Hn. lia.
    + rewrite E, del_split by done. apply (wf_obj_del _ _ type s). by rewrite <- E.
    + rewrite E, del_split by done. rewrite E in Hwf. destruct Hwf as (Hk & _). rewrite fmap_app in Hk. cbn in Hk.
      apply NoDup_app in Hk as (_ & _ & [Hk _]%NoDup_cons). rewrite get_app.
      by rewrite (proj2 (get_None o1 type) Hni), (proj2 (get_None o2 type) Hk).
    + intros k Hne. by rewrite get_del_ne.
    + apply (shrink_intro _ _ _ _ _ _ _ Ho). intros k. destruct (decide (k = type)) as [->|]; [by rewrite Hg|].
      by rewrite get_del_ne.
Qed.

(** The array at [a] loses a listener; with one left it is no array any more. *)
Lemma shrink_array st e type a l :
  wf st -> _events st = Some e -> prop st e type = Some (Many a) -> l <> [] ->
  exists st', bind (put_arr a l) (fun _ => match l with [f] => put_prop e type (One f) | _ => ret_ tt end) st
              = Some (st', Val tt) /\ updated st st' type l /\ names_shrink st st'.
Proof.
  intros Hwf He Hp Hne. unfold wf in Hwf. rewrite He in Hwf. destruct Hwf as (o & Ho & Hn & Hwf).
  assert (Eo : obj_at st e = o) by (unfold obj_at; by rewrite Ho). unfold prop in Hp. rewrite Eo in Hp.
  assert (exists l0 w, arrs st !! a = Some (l0, w) /\ (2 <= length l0)%nat) as (l0 & w & Ea & Hl0).
  { destruct Hwf as (_ & _ & Hf). rewrite Forall_forall in Hf. apply Hf. by apply (addresses_elem o type). }
  assert (Hlt : (a < length (arrs st))%nat) by by apply lookup_lt_Some in Ea.
  set (arrs' := <[a := (l, warned_at st a)]> (arrs st)).
  assert (Ea' : arrs' !! a = Some (l, warned_at st a)) by by apply list_lookup_insert_eq.
  assert (Hold : forall b, b <> a -> (b < length (arrs st))%nat -> arrs' !! b = arrs st !! b).
  { intros b Hb _. unfold arrs'. by rewrite list_lookup_insert_ne. }
  assert (Hother : forall k, k <> type -> content arrs' (get o k) = content (arrs st) (get o k)).
  { intros k Hk. apply (content_other (arrs st) arrs' o k type a); auto. }
  unfold bind, put_arr, modify. cbn. fold arrs'. destruct l as [|f [|g l]]; [done| |].
  - unfold put_prop, modify. cbn. unfold obj_at. cbn. rewrite Ho. cbn [default from_option id].
    eexists. split; [reflexivity|].
    pose proof (updated_intro st e o (put o type (One f)) (len o) arrs' type [f] (warnings st) He Ho) as Hu.
    match type of Hu with context [updated st ?s type [f]] => match goal with |- updated st ?t type [f] /\ _ => replace t with s end end.
    2:{ destruct st; cbn in *. by subst. }
    destruct (get_split _ _ _ Hp) as (o1 & o2 & E & Hni).
    split; [apply Hu; clear Hu|].
    + unfold len. by rewrite <- (length_fmap fst (put _ _ _)), put_keys_old, length_fmap by (by rewrite Hp).
    + rewrite E, put_split by done. rewrite E in Hwf. pose proof (wf_obj_set _ _ _ _ (One f) _ Hwf I) as H1.
      apply (wf_obj_arrs (arrs st)); [done|]. intros b l' v Hb Eb Hl'. exists l', v.
      assert (b <> a); [|by rewrite Hold by (done || by apply lookup_lt_Some in Eb)]. intros ->.
      destruct Hwf as (_ & Hnd & _). unfold addresses in Hb, Hnd. rewrite omap_app in Hb, Hnd. cbn in Hb, Hnd.
      apply NoDup_app in Hnd as (_ & H12 & [H2 _]%NoDup_cons). apply elem_of_app in Hb as [Hb|Hb]; [|done].
      apply (H12 a Hb). by left.
    + by rewrite get_put_eq.
    + intros k Hk. rewrite get_put_ne by done. auto.
    + apply (shrink_intro _ _ _ _ _ _ _ Ho). intros k. destruct (decide (k = type)) as [->|]; [by rewrite Hp|].
      by rewrite get_put_ne.
  - eexists. split; [reflexivity|].
    pose proof (updated_intro st e o o (len o) arrs' type (f :: g :: l) (warnings st) He Ho) as Hu.
    rewrite list_insert_id in Hu by done.
    match type of Hu with context [updated st ?s type _] => match goal with |- updated st ?t type _ /\ _ => replace t with s end end.
    2:{ destruct st; cbn in *. by subst. }
    split; [apply Hu; clear Hu; [done| | |auto]|].
    + apply (wf_obj_arrs (arrs st)); [done|]. intros b l' v Hb Eb Hl'. destruct (decide (b = a)) as [->|].
      * eexists _, _. split; [exact Ea'|]. cbn. lia.
      * exists l', v. by rewrite Hold by (done || by apply lookup_lt_Some in Eb).
    + rewrite Hp. cbn [content]. by rewrite Ea'.
    + pose proof (shrink_intro st e o o (len o) arrs' (warnings st) Ho) as Hs. rewrite list_insert_id in Hs by done. by apply Hs.
Qed.

Section Removal.
Context (emit_ : key -> list val -> M bool).

(** [removeListener] changes the listeners first, and tells an observer at the
    very end. *)
Lemma removeListener_spec st type l :
  wf st ->
  exists st' note, updated st st' type (remove_last_match st l (rawListeners st type)) /\ names_shrink st st'
    /\ (forall e original, note = Some (e, original) -> _events st = Some e)
    /\ removeListener emit_ type (VFn l) st
       = match note with
         | Some (e, original) => notify_removed emit_ e type original st'
         | None => Some (st', Val tt)
         end.
Proof.
  intros Hwf. unfold removeListener. unfold bind at 1. cbn [checkListener ret_]. unfold bind at 1, read at 1.
  destruct (_events st) as [e|] eqn:He.
  2:{ exists st, None. split; [|by split; [apply shrink_refl|split]]. assert (E : rawListeners st type = []) by (unfold rawListeners, _listeners; by rewrite He).
      rewrite E. cbn. rewrite <- E. by apply updated_refl. }
  unfold bind at 1, read at 1. destruct (prop st e type) as [[f|a]|] eqn:Ep.
  - assert (Er : rawListeners st type = [f]) by by rewrite (raw_content st e), Ep.
    unfold bind at 1, read at 1. rewrite Er. unfold remove_last_match.
    change (reverse [f]) with [f]. cbn [remove_first_match]. destruct (matches st l f).
    + destruct (drop_name_spec st e type) as (st' & more & Ed & Hu & Hs); [done|done| |].
      { unfold has. by rewrite Ep. }
      unfold bind at 1. rewrite Ed. unfold bind, read. destruct more.
      * exists st', (Some (e, default l (listener_prop st' f))). repeat split; try apply Hu; try done. by intros ? ? [= -> _].
      * by exists st', None.
    + exists st, None. split; [|by split; [apply shrink_refl|split]]. change (reverse [f]) with [f]. rewrite <- Er. by apply updated_refl.
  - assert (Er : rawListeners st type = arr_at st a) by by rewrite (raw_content st e), Ep.
    unfold bind at 1, read at 1. pose proof (last_match_spec st l (arr_at st a)) as Hm. rewrite Er.
    destruct (last_match st l (arr_at st a)) as [i|].
    + destruct Hm as (l1 & f & l2 & Ea & <- & Hf & ->). unfold bind at 1, read at 1. rewrite (spliced_tail _ _ _ _ Ea).
      assert (Hne : l1 ++ l2 <> []).
      { unfold wf in Hwf. rewrite He in Hwf. destruct Hwf as (o & Ho & _ & (_ & _ & Hw)). rewrite Forall_forall in Hw.
        unfold prop, obj_at in Ep. rewrite Ho in Ep. cbn in Ep.
        destruct (Hw a) as (l' & w & El & Hl); [by apply (addresses_elem o type)|]. unfold arr_at in Ea. rewrite El in Ea. cbn in Ea.
        intros E. subst l'. rewrite length_app in Hl. cbn in Hl. apply (f_equal length) in E. rewrite length_app in E. cbn in E. lia. }
      destruct (shrink_array st e type a (l1 ++ l2) Hwf He Ep Hne) as (st' & Es & Hu & Hs).
      exists st', (Some (e, l)). split; [done|]. split; [done|]. split; [by intros ? ? [= -> _]|]. unfold bind in Es |- *. destruct (put_arr a (l1 ++ l2) st) as [[s [[]|x]]|]; try done.
      destruct (match l1 ++ l2 with [f0] => put_prop e type (One f0) | _ => ret_ tt end s) as [[s' [[]|x]]|]; try done.
      by injection Es as ->.
    + exists st, None. split; [|by split; [apply shrink_refl|split]]. destruct Hm as [-> _]. rewrite <- Er. by apply updated_refl.
  - exists st, None. split; [|by split; [apply shrink_refl|split]]. assert (E : rawListeners st type = []) by by rewrite (raw_content st e), Ep.
    rewrite E. cbn. rewrite <- E. by apply updated_refl.
Qed.
End Removal.

(** ** Invariants of every run

    A property of the emitter that the elementary changes keep is kept by every
    operation, whatever the listeners do meanwhile. *)

Definition preserves (I : emitter -> Prop) {A} (m : M A) : Prop :=
  forall st st' o, I st -> m st = Some (st', o) -> I st'.

Section Invariant.
Context (I : emitter -> Prop) (ok_type : key -> Prop).
Context (I_wf : forall st, I st -> wf st)
  (I_inserted : forall st st' type l, ok_type type -> I st -> updated st st' type l -> I st')
  (I_removed : forall st st' type l, I st -> updated st st' type l -> names_shrink st st' -> I st')
  (I_reset : forall st, I st -> I (set_events (Some (length (objs st))) 0 (set_objs (objs st ++ [[]]) st)))
  (I_user : forall u st, I st -> I (set_user u st))
  (I_max : forall m st, I st -> I (set_max m st))
  (I_captured : forall c st, I st -> I (set_captured c st))
  (I_once : forall type f st, I st -> I (set_onces (onces st ++ [Once false type f]) st))
  (I_wrapper : forall emit_ call_ w args,
     (forall type args, preserves I (emit_ type args)) -> (forall f args, preserves I (call_ f args)) ->
     preserves I (onceWrapper emit_ call_ w args)).

(** Programs that add listeners for allowed names only. *)
Definition ok_op (o : op) : Prop :=
  match o with OAdd type _ _ | OOnce type _ _ => ok_type type | _ => True end.

Fixpoint ok_prog (p : prog) : Prop :=
  match p with
  | Do u o k => ok_op o /\ forall u r, ok_prog (k u r)
  | _ => True
  end.

Context (ok_body : forall f args u, ok_prog (body f args u)).

Lemma preserves_ret {A} (a : A) : preserves I (ret_ a).
Proof. intros st st' o HI [= <- <-]. done. Qed.

Lemma preserves_throw {A} x : preserves I (@throw A x).
Proof. intros st st' o HI [= <- <-]. done. Qed.

Lemma preserves_modify f : (forall st, I st -> I (f st)) -> preserves I (modify f).
Proof. intros Hf st st' o HI [= <- <-]. auto. Qed.

Lemma preserves_bind {A B} (c : M A) (k : A -> M B) :
  preserves I c -> (forall a, preserves I (k a)) -> preserves I (bind c k).
Proof.
  intros Hc Hk st st' o HI. unfold bind. destruct (c st) as [[st1 [a|x]]|] eqn:E; [|intros [= <- <-]|done].
  - apply Hk. by eapply Hc.
  - by eapply Hc.
Qed.

(** A value that is read is known when the rest runs. *)
Lemma preserves_read {A B} (f : emitter -> A) (k : A -> M B) :
  (forall a st st' o, I st -> a = f st -> k a st = Some (st', o) -> I st') -> preserves I (bind (read f) k).
Proof. intros Hk st st' o HI. unfold bind, read. by apply Hk. Qed.

Lemma preserves_read_any {A B} (f : emitter -> A) (k : A -> M B) :
  (forall a, preserves I (k a)) -> preserves I (bind (read f) k).
Proof. intros Hk. apply preserves_read. intros a st st' o HI _. by apply Hk. Qed.

Section Knot.
Context (emit_ : key -> list val -> M bool) (call_ : fn -> list val -> M ret).
Context (emit_ok : forall type args, preserves I (emit_ type args))
  (call_ok : forall f args, preserves I (call_ f args)).

Lemma addCatch_ok r type args : preserves I (addCatch emit_ r type args).
Proof.
  apply preserves_read_any. intros [|]; [|apply preserves_ret]. cbn. destruct r; try apply preserves_ret.
  - apply preserves_modify. auto.
  - apply preserves_bind; [auto|]. intros _. apply preserves_ret.
Qed.

Lemma call_listener_ok type args f : preserves I (call_listener emit_ call_ type args f).
Proof. apply preserves_bind; [auto|]. intros []; [apply preserves_ret|apply addCatch_ok..]. Qed.

Lemma emit_loop_ok type args l : preserves I (emit_loop emit_ call_ type args l).
Proof.
  induction l as [|f l IH]; [apply preserves_ret|]. apply preserves_bind; [apply call_listener_ok|]. by intros _.
Qed.

Lemma emit_body_ok type args : preserves I (emit_body emit_ call_ type args).
Proof.
  apply preserves_read_any. intros [e|]; [|case_match; [apply preserves_throw|apply preserves_ret]].
  apply preserves_read_any. intros b. apply preserves_bind; [case_match; [auto|apply preserves_ret]|]. intros _.
  apply preserves_read_any. intros [[f|a]|].
  - apply preserves_bind; [apply call_listener_ok|]. intros _. apply preserves_ret.
  - apply preserves_read_any. intros l. apply preserves_bind; [apply emit_loop_ok|]. intros _. apply preserves_ret.
  - case_match; [apply preserves_throw|apply preserves_ret].
Qed.

Lemma insert_ok e existing type f prepend st st' o :
  ok_type type -> I st -> _events st = Some e -> existing = prop st e type ->
  insert_listener e existing type f prepend st = Some (st', o) -> I st'.
Proof.
  intros Hok HI He -> E. destruct (insert_listener_spec st e type f prepend (I_wf _ HI) He) as (st1 & E1 & Hu).
  rewrite E1 in E. injection E as <- <-. by eapply I_inserted.
Qed.

Lemma addListener_ok type l prepend : ok_type type -> preserves I (_addListener emit_ type l prepend).
Proof.
  intros Hok. apply preserves_bind; [destruct l; (apply preserves_ret || apply preserves_throw)|]. intros f.
  intros st st' o HI. unfold bind at 1, read at 1. destruct (_events st) as [e|] eqn:He.
  - apply (preserves_read_any (fun st => has st e kNewListener)); [|done]. intros b. apply preserves_read_any. intros g.
    apply preserves_bind; [case_match; [auto|apply preserves_ret]|]. intros _.
    apply preserves_read. intros [e'|] st2 st3 o' HI2 He'; [|intros [= <- <-]; done].
    unfold bind, read. by apply insert_ok.
  - unfold bind, new_obj, modify. set (st1 := set_events _ _ _). intros E.
    apply (insert_ok (length (objs st)) None type f prepend st1 st' o); [done| |done| |done].
    + apply I_reset. done.
    + unfold prop, obj_at, st1. cbn. by rewrite list_lookup_middle.
Qed.

Lemma once_ok type l prepend : ok_type type -> preserves I (once emit_ type l prepend).
Proof.
  intros Hok. apply preserves_bind; [destruct l; (apply preserves_ret || apply preserves_throw)|]. intros f.
  apply preserves_bind; [|intros w; by apply addListener_ok]. intros st st' o HI [= <- <-]. auto.
Qed.

Lemma notify_ok e type l : preserves I (notify_removed emit_ e type l).
Proof.
  apply preserves_read_any. intros []; [|apply preserves_ret]. apply preserves_bind; [auto|]. intros _. apply preserves_ret.
Qed.

Lemma removeListener_ok type l : preserves I (removeListener emit_ type l).
Proof.
  intros st st' o HI E. destruct l as [| |f| |]; try (by injection E as <- <-).
  destruct (removeListener_spec emit_ st type f (I_wf _ HI)) as (st1 & note & Hu & Hs & _ & E1).
  rewrite E1 in E. assert (HI1 : I st1) by by eapply I_removed.
  destruct note as [[e g]|]; [by eapply notify_ok|]. by injection E as <- <-.
Qed.

Lemma remove_down_ok type a i : preserves I (remove_down emit_ type a i).
Proof.
  induction i as [|i IH]; [apply preserves_ret|]. apply preserves_read_any. intros f.
  apply preserves_bind; [apply removeListener_ok|]. by intros _.
Qed.

Lemma removeAll_type_ok type : preserves I (removeAll_type emit_ type).
Proof.
  apply preserves_read. intros [e|] st st' o HI He; [|intros [= <- <-]; done].
  unfold bind at 1, read at 1. unfold bind at 1, read at 1. destruct (has st e kRemoveListener); cbn [negb].
  - destruct (prop st e type) as [[f|a]|]; [by apply removeListener_ok| |by intros [= <- <-]].
    apply (preserves_read_any (fun st => length (arr_at st a))); [|done]. intros n. apply remove_down_ok.
  - destruct (prop st e type) as [s|] eqn:Ep; [|by intros [= <- <-]].
    destruct (drop_name_spec st e type) as (st1 & more & Ed & Hu & Hs); [auto|done|unfold has; by rewrite Ep|].
    unfold bind. rewrite Ed. intros [= <- <-]. by eapply I_removed.
Qed.

Lemma removeAll_keys_ok keys : preserves I (removeAll_keys emit_ keys).
Proof.
  induction keys as [|k keys IH]; [apply preserves_ret|]. apply preserves_bind; [|by intros _].
  case_match; [apply preserves_ret|apply removeAll_type_ok].
Qed.

Lemma reset_events_ok : preserves I reset_events.
Proof. intros st st' o HI [= <- <-]. auto. Qed.

Lemma removeAllListeners_ok type : preserves I (removeAllListeners emit_ type).
Proof.
  destruct type as [type|]; [apply removeAll_type_ok|]. apply preserves_read_any. intros [e|]; [|apply preserves_ret].
  apply preserves_read_any. intros []; [|apply reset_events_ok]. apply preserves_read_any. intros keys.
  apply preserves_bind; [apply removeAll_keys_ok|]. intros _. apply preserves_bind; [apply removeAll_type_ok|].
  intros _. apply reset_events_ok.
Qed.

Lemma with_reply_ok {A} (f : A -> reply) (m : M A) st st' r :
  preserves I m -> I st -> with_reply f m st = Some (st', r) -> I st'.
Proof.
  intros Hm HI. unfold with_reply. destruct (m st) as [[st1 o]|] eqn:E; [|done]. intros [= <- _]. by eapply Hm.
Qed.

Lemma perform_ok o st st' r : ok_op o -> I st -> perform emit_ call_ o st = Some (st', r) -> I st'.
Proof.
  intros Ho HI. destruct o; apply with_reply_ok; try done; cbn in Ho.
  - by apply addListener_ok.
  - by apply once_ok.
  - apply removeListener_ok.
  - apply removeAllListeners_ok.
  - unfold setMaxListeners. case_match; [apply preserves_modify; auto|apply preserves_throw].
  - by intros ? ? ? ? [= <- <-].
  - by intros ? ? ? ? [= <- <-].
  - by intros ? ? ? ? [= <- <-].
  - by intros ? ? ? ? [= <- <-].
Qed.

Lemma run_prog_ok p : ok_prog p -> preserves I (run_prog emit_ call_ p).
Proof.
  induction p as [u r|u v|u o k IH]; intros Hp st st' out_ HI; cbn [run_prog].
  - intros [= <- <-]. auto.
  - intros [= <- <-]. auto.
  - destruct Hp as [Ho Hk]. destruct (perform emit_ call_ o (set_user u st)) as [[st1 r]|] eqn:E; [|done].
    apply IH; [done|]. eapply perform_ok; [done| |done]. auto.
Qed.

Lemma call_body_ok f args : preserves I (call_body emit_ call_ f args).
Proof.
  destruct f as [f|w]; [|by apply I_wrapper]. apply preserves_read_any. intros u. by apply run_prog_ok.
Qed.
End Knot.

Lemma run_ok n : (forall type args, preserves I (emit n type args)) /\ (forall f args, preserves I (call n f args)).
Proof.
  induction n as [|n [IHe IHc]]; [by split|]. split; intros; cbn; [by apply emit_body_ok|by apply call_body_ok].
Qed.

Lemma operate_ok n o st st' r : ok_op o -> I st -> operate n o st = Some (st', r) -> I st'.
Proof. destruct (run_ok n). by apply perform_ok. Qed.
End Invariant.

(** ** What the emitter shows *)

Lemma insert_key_perm n k l : insert_key n k l ≡ₚ (n, k) :: l.
Proof.
  induction l as [|[m j] l IH]; cbn; [done|]. destruct (n <? m); [done|]. rewrite IH. apply perm_swap.
Qed.

Lemma own_keys_perm l : own_keys l ≡ₚ l.
Proof.
  unfold own_keys.
  assert (Hi : (index_keys l).*2 ≡ₚ filter (fun k => key_index k <> None) l).
  { induction l as [|k l IH]; [done|]. cbn [index_keys]. destruct (key_index k) eqn:E.
    - rewrite insert_key_perm, fmap_cons. cbn [snd]. rewrite filter_cons_True by (by rewrite E). by rewrite IH.
    - rewrite filter_cons_False by (by rewrite E; intros []). done. }
  rewrite Hi. clear Hi. induction l as [|k l IH]; [done|]. destruct k as [s|s].
  - destruct (key_index (KStr s)) eqn:E.
    + rewrite filter_cons_True by (by rewrite E).
      rewrite filter_cons_False by (by intros [? _]; rewrite E in * ).
      rewrite filter_cons_False by done. cbn [app]. by rewrite IH.
    + rewrite filter_cons_False by (by rewrite E; intros []). rewrite filter_cons_True by (by rewrite E).
      rewrite filter_cons_False by done. cbn [app]. rewrite <- Permutation_middle. by rewrite IH.
  - rewrite filter_cons_False by (by cbn; intros []). rewrite filter_cons_False by (by intros []).
    rewrite filter_cons_True by done. rewrite app_assoc, <- Permutation_middle, <- app_assoc. by rewrite IH.
Qed.

Lemma content_nil arrs o k : wf_obj arrs o -> content arrs (get o k) = [] <-> k ∉ o.*1.
Proof.
  intros (_ & _ & Hf). rewrite <- get_None. destruct (get o k) as [[f|a]|] eqn:E; [done| |done].
  split; [|done]. cbn. rewrite Forall_forall in Hf. destruct (Hf a) as (l & w & -> & Hl); [by apply (addresses_elem o k)|].
  cbn. intros ->. cbn in Hl. lia.
Qed.

(** An object before the constructor has run. *)
Definition new_emitter (max : Z) (u : U) : emitter := EE [] [] [] None 0 None max false [] [] [] u.

(** Emitters that code can make: the constructor, then allowed operations,
    whatever their listeners do. *)
Inductive reachable (allowed : op -> Prop) : emitter -> Prop :=
| reachable_init captureRejections protoCapture max u :
    reachable allowed (init captureRejections protoCapture (new_emitter max u))
| reachable_step n o st st' r :
    reachable allowed st -> allowed o -> operate n o st = Some (st', r) -> reachable allowed st'.

(** A sequence of operations. *)
Fixpoint run_ops (fuel : nat) (os : list op) (st : emitter) : option emitter :=
  match os with
  | [] => Some st
  | o :: os => match operate fuel o st with None => None | Some (st, _) => run_ops fuel os st end
  end.

Lemma reachable_run_ops allowed fuel os st st' :
  reachable allowed st -> Forall allowed os -> run_ops fuel os st = Some st' -> reachable allowed st'.
Proof.
  intros Hr Hos. revert st Hr. induction Hos as [|o os Ho Hos IH]; intros st Hr; cbn; [by intros [= <-]|].
  destruct (operate fuel o st) as [[st1 r]|] eqn:E; [|done]. apply IH. by eapply reachable_step.
Qed.

Lemma wf_fresh st : wf (set_events (Some (length (objs st))) 0 (set_objs (objs st ++ [[]]) st)).
Proof. exists []. cbn. split; [by apply list_lookup_middle|]. by repeat constructor. Qed.

Lemma wf_operate n o st st' r : wf st -> operate n o st = Some (st', r) -> wf st'.
Proof.
  apply (operate_ok wf (fun _ => True)); try done.
  - by intros ? ? ? ? _ _ [H _].
  - by intros ? ? ? ? _ [H _].
  - intros ? _. apply wf_fresh.
  - intros emit_ call_ w args He Hc. apply preserves_read_any. intros [s|]; [|apply preserves_throw].
    destruct (fired s); [apply preserves_ret|]. apply preserves_bind.
    { apply (removeListener_ok wf); [done| |done]. by intros ? ? ? ? _ [H _]. }
    intros _. apply preserves_bind; [by apply preserves_modify|]. intros _.
    apply preserves_bind; [by apply preserves_modify|]. by intros _.
  - intros f args u. induction (body f args u) as [| |? o' ? IH]; cbn; [done..|]. split; [by destruct o'|done].
  - by destruct o.
Qed.

Lemma wf_init captureRejections protoCapture max u : wf (init captureRejections protoCapture (new_emitter max u)).
Proof. exists []. by repeat constructor. Qed.

Lemma wf_reachable allowed st : reachable allowed st -> wf st.
Proof. induction 1 as [c p m u|n o st st' r _ IH _ E]; [apply wf_init|by eapply wf_operate]. Qed.

(** What the observers say of an emitter agrees, however its listeners add,
    remove and emit while they run: [eventNames] lists, without repetition,
    exactly the names that have listeners, there are [_eventsCount] of them,
    and [listenerCount] is the number of listeners of a name. *)
Theorem observers_agree st :
  reachable (fun _ => True) st ->
  NoDup (eventNames st) /\ _eventsCount st = len (eventNames st)
  /\ (forall k, k ∈ eventNames st <-> rawListeners st k <> [])
  /\ (forall k, listenerCount st k = len (rawListeners st k))
  /\ (forall k, len (listeners st k) = len (rawListeners st k)).
Proof.
  intros Hwf%wf_reachable. split; [|split; [|split; [|split]]].
  4:{ intros k. unfold listenerCount, rawListeners, _listeners. destruct (_events st) as [e|]; [|done].
      destruct (prop st e k) as [[]|]; try done. by rewrite arrayClone_id. }
  4:{ intros k. unfold listeners, rawListeners, _listeners. destruct (_events st) as [e|]; [|done].
      destruct (prop st e k) as [[]|]; try done. unfold unwrapListeners, len. by rewrite length_fmap. }
  all: unfold wf, eventNames in *; destruct (_events st) as [e|] eqn:He.
  all: try (rewrite Hwf; cbn).
  all: try (destruct Hwf as (o & Ho & Hn & Hw); assert (Eo : obj_at st e = o) by (unfold obj_at; by rewrite Ho); rewrite Eo, Hn).
  - destruct (0 <? len o); [|constructor]. rewrite own_keys_perm. apply Hw.
  - constructor.
  - pose proof (len_nonneg o). destruct (Z.ltb_spec 0 (len o)); [|rewrite len_nil; lia].
    unfold len. by rewrite own_keys_perm, length_fmap.
  - done.
  - intros k. rewrite (raw_content st e k) by done. unfold prop. rewrite Eo.
    destruct (Z.ltb_spec 0 (len o)) as [Hlt|Hge].
    + rewrite own_keys_perm. rewrite (content_nil (arrs st) o k Hw). split; [auto|]. intros H. by destruct (decide (k ∈ o.*1)).
    + assert (o = []) as -> by (apply len_0_nil; pose proof (len_nonneg o); lia). cbn. split; [by intros ?%elem_of_nil|done].
  - intros k. unfold rawListeners, _listeners. rewrite He. split; [by intros ?%elem_of_nil|done].
Qed.

(** ** The registry as lists

    The abstract emitter is a list of listeners for each name. *)

(** Nobody listens for [k]. *)
Lemma unobserved st e k : wf st -> _events st = Some e -> rawListeners st k = [] -> has st e k = false.
Proof.
  intros Hwf He. unfold wf in Hwf. rewrite He in Hwf. destruct Hwf as (o & Ho & _ & Hw). rewrite (raw_content st e) by done.
  unfold has, prop, obj_at. rewrite Ho. cbn. rewrite (content_nil _ _ _ Hw), <- get_None. by intros ->.
Qed.

Definition set_at (R : key -> list fn) (type : key) (l : list fn) : key -> list fn :=
  fun k => if decide (k = type) then l else R k.

Definition registry_after (st : emitter) (o : op) : key -> list fn :=
  let R := rawListeners st in
  match o with
  | OAdd type (VFn f) prepend => set_at R type (added prepend f (R type))
  | OOnce type (VFn f) prepend => set_at R type (added prepend (Wrapped (length (onces st))) (R type))
  | ORemove type (VFn f) => set_at R type (remove_last_match st f (R type))
  | ORemoveAll (Some type) => set_at R type []
  | ORemoveAll None => fun _ => []
  | _ => R
  end.

(** The operations that change the registry, and their replies. *)
Definition registry_reply (o : op) : option reply :=
  match o with
  | OAdd _ l _ | OOnce _ l _ | ORemove _ l => Some (match l with VFn _ => RUnit | _ => Threw XArgType end)
  | ORemoveAll _ => Some RUnit
  | _ => None
  end.

Lemma updated_registry st st' type l : updated st st' type l -> forall k, rawListeners st' k = set_at (rawListeners st) type l k.
Proof. intros (_ & _ & H1 & H2 & _) k. unfold set_at. destruct (decide (k = type)) as [->|]; auto. Qed.

Lemma add_unobserved emit_ st type f prepend :
  wf st -> rawListeners st kNewListener = [] ->
  exists st', _addListener emit_ type (VFn f) prepend st = Some (st', Val tt)
    /\ forall k, rawListeners st' k = set_at (rawListeners st) type (added prepend f (rawListeners st type)) k.
Proof.
  intros Hwf Hn. unfold _addListener. unfold bind at 1. cbn [checkListener ret_]. unfold bind at 1, read at 1.
  destruct (_events st) as [e|] eqn:He.
  - do 2 (unfold bind at 1, read at 1). rewrite (unobserved st e) by done. unfold bind at 1. cbn [ret_].
    unfold bind at 1, read at 1. rewrite He. unfold bind, read.
    destruct (insert_listener_spec st e type f prepend Hwf He) as (st' & -> & Hu). exists st'. split; [done|].
    by apply updated_registry.
  - unfold bind, new_obj, modify. set (st1 := set_events _ _ _).
    assert (Hwf1 : wf st1) by apply wf_fresh.
    destruct (insert_listener_spec st1 (length (objs st)) type f prepend Hwf1) as (st' & E & Hu); [done|].
    assert (Ep : prop st1 (length (objs st)) type = None).
    { unfold prop, obj_at, st1. cbn. by rewrite list_lookup_middle. }
    rewrite Ep in E. exists st'. split; [done|]. intros k. rewrite (updated_registry _ _ _ _ Hu k).
    assert (E1 : forall k, rawListeners st1 k = []) by (intros k'; by apply (raw_reset st)).
    assert (E0 : forall k, rawListeners st k = []) by (intros k'; unfold rawListeners, _listeners; by rewrite He).
    unfold set_at. by rewrite !E1, !E0.
Qed.

Lemma remove_unobserved emit_ st type f :
  wf st -> rawListeners st kRemoveListener = [] ->
  exists st', removeListener emit_ type (VFn f) st = Some (st', Val tt)
    /\ updated st st' type (remove_last_match st f (rawListeners st type)) /\ names_shrink st st'.
Proof.
  intros Hwf Hr. destruct (removeListener_spec emit_ st type f Hwf) as (st' & note & Hu & Hs & Hn & E).
  exists st'. split; [|done]. rewrite E. destruct note as [[e g]|]; [|done].
  unfold notify_removed, bind, read. destruct (has st' e kRemoveListener) eqn:Eh; [|done].
  apply Hs in Eh. rewrite (unobserved st e kRemoveListener) in Eh; [done|done|by eapply Hn|done].
Qed.

Lemma removeAll_unobserved emit_ st type :
  wf st -> rawListeners st kRemoveListener = [] ->
  exists st', removeAll_type emit_ type st = Some (st', Val tt)
    /\ forall k, rawListeners st' k = set_at (rawListeners st) type [] k.
Proof.
  intros Hwf Hr. unfold removeAll_type. unfold bind at 1, read at 1. destruct (_events st) as [e|] eqn:He.
  - do 2 (unfold bind at 1, read at 1). rewrite (unobserved st e) by done. cbn [negb].
    destruct (prop st e type) as [s|] eqn:Ep.
    + destruct (drop_name_spec st e type) as (st' & more & Ed & Hu & _); [done|done|unfold has; by rewrite Ep|].
      exists st'. unfold bind. rewrite Ed. split; [done|]. by apply updated_registry.
    + exists st. split; [done|]. intros k. unfold set_at. destruct (decide (k = type)) as [->|]; [|done].
      by rewrite (raw_content st e), Ep.
  - exists st. split; [done|]. intros k. unfold set_at, rawListeners, _listeners. rewrite He. by destruct (decide (k = type)).
Qed.

Lemma removeAllListeners_unobserved emit_ st :
  wf st -> rawListeners st kRemoveListener = [] ->
  exists st', removeAllListeners emit_ None st = Some (st', Val tt) /\ forall k, rawListeners st' k = [].
Proof.
  intros Hwf Hr. unfold removeAllListeners. unfold bind at 1, read at 1. destruct (_events st) as [e|] eqn:He.
  - unfold bind at 1, read at 1. rewrite (unobserved st e) by done. cbn [negb].
    eexists. split; [reflexivity|]. intros k. by apply (raw_reset st).
  - exists st. split; [done|]. intros k. unfold rawListeners, _listeners. by rewrite He.
Qed.

(** C5: The emitter implements the abstract one: on a reachable emitter nobody
    watches for [newListener] or [removeListener], adding appends or prepends
    the listener (for [once] a fresh wrapper), removing takes out the last
    listener that is it or wraps it, removing all empties the list or all the
    lists, other names keep theirs, and a listener that is no function is
    refused without any change; all of it without calling any code. *)
Theorem registry_refines allowed n o r st :
  reachable allowed st -> rawListeners st kNewListener = [] -> rawListeners st kRemoveListener = [] ->
  registry_reply o = Some r ->
  exists st', operate n o st = Some (st', r) /\ forall k, rawListeners st' k = registry_after st o k.
Proof.
  intros Hwf%wf_reachable Hn Hr Ho. unfold operate. destruct o as [t v p|t v p|t v|t| | | | | | |]; try done; injection Ho as <-.
  - destruct v as [| |f| |]; try by exists st.
    destruct (add_unobserved (emit n) st t f p Hwf Hn) as (st' & E & H). exists st'. unfold perform, with_reply. by rewrite E.
  - destruct v as [| |f| |]; try by exists st.
    set (st1 := set_onces (onces st ++ [Once false t f]) st).
    destruct (add_unobserved (emit n) st1 t (Wrapped (length (onces st))) p Hwf Hn) as (st' & E & H).
    exists st'. split; [|exact H]. unfold perform, with_reply, once. unfold bind at 1. cbn [checkListener ret_].
    unfold bind at 1, _onceWrap. fold st1. by rewrite E.
  - destruct v as [| |f| |]; try by exists st.
    destruct (remove_unobserved (emit n) st t f Hwf Hr) as (st' & E & H & _). exists st'. unfold perform, with_reply. rewrite E.
    split; [done|]. by apply updated_registry.
  - destruct t as [t|]; unfold perform, with_reply.
    + destruct (removeAll_unobserved (emit n) st t Hwf Hr) as (st' & E & H). exists st'. cbn [removeAllListeners]. by rewrite E.
    + destruct (removeAllListeners_unobserved (emit n) st Hwf Hr) as (st' & E & H). exists st'. by rewrite E.
Qed.

(** ** Emission *)

(** [emit] calls the listeners that were registered when it started, in
    their order, each once, whatever they do to the registry meanwhile, and
    says whether there were any; an [error] without a listener is thrown.  (A
    watcher of errors, [errorMonitor], would be called first.) *)
Theorem emit_snapshot allowed n type args st :
  reachable allowed st -> (type = kError -> rawListeners st kErrorMonitor = []) ->
  emit (S n) type args st
  = match rawListeners st type with
    | [] => if bool_decide (type = kError) then throw (unhandled args) st else ret_ false st
    | l => bind (emit_loop (emit n) (call n) type args l) (fun _ => ret_ true) st
    end.
Proof.
  intros Hwf%wf_reachable Hm. cbn [emit]. unfold emit_body. unfold bind at 1, read at 1. cbv zeta.
  destruct (_events st) as [e|] eqn:He.
  2:{ unfold rawListeners, _listeners. rewrite He. by destruct (bool_decide (type = kError)). }
  unfold bind at 1, read at 1. unfold bind at 1.
  assert (Em : (if bool_decide (type = kError) && has st e kErrorMonitor then emit n kErrorMonitor args else ret_ true) st
               = Some (st, Val true)).
  { destruct (bool_decide_reflect (type = kError)) as [->|]; [|done]. by rewrite (unobserved st e) by auto. }
  rewrite Em. unfold bind at 1, read at 1.
  pose proof (raw_content st e type He) as Er. destruct (prop st e type) as [[f|a]|] eqn:Ep; cbn [content] in Er.
  - rewrite Er. cbn [emit_loop]. unfold bind at 1 3. unfold bind at 1. by destruct (call_listener _ _ _ _ _ _) as [[? []]|].
  - unfold bind at 1, read at 1. rewrite arrayClone_id. fold (arr_at st a) in Er. rewrite <- Er.
    destruct (rawListeners st type) eqn:E; [|done]. exfalso.
    assert (Hh : has st e type = false) by by apply unobserved. unfold has in Hh. by rewrite Ep in Hh.
  - rewrite Er. by destruct (bool_decide (type = kError)).
Qed.

(** ** Listeners added with [once] *)

Definition fire_count (st : emitter) (w : nat) : nat := count_occ Nat.eq_dec (invoked st) w.

(** Nobody ever watched for [removeListener], and the wrappers that ran are
    those marked as fired. *)
Definition fires_once (st : emitter) : Prop :=
  wf st /\ (forall e, has st e kRemoveListener = false)
  /\ forall w, fire_count st w = match onces st !! w with Some (Once true _ _) => 1%nat | _ => 0%nat end.

Definition not_removeListener (type : key) : Prop := type <> kRemoveListener.

Lemma fires_once_updated st st' type l :
  fires_once st -> updated st st' type l -> (forall e, has st' e kRemoveListener = true -> has st e kRemoveListener = true) ->
  fires_once st'.
Proof.
  intros (Hwf & Hr & Hc) Hu Hs. split; [apply Hu|]. split.
  - intros e. destruct (has st' e kRemoveListener) eqn:E; [|done]. apply Hs in E. by rewrite Hr in E.
  - destruct Hu as (_ & (Eo & _ & _ & _ & _ & Ei & _) & _). unfold fire_count. by rewrite Eo, Ei.
Qed.

Lemma fires_once_wrapper emit_ call_ w args :
  (forall f args, preserves fires_once (call_ f args)) -> preserves fires_once (onceWrapper emit_ call_ w args).
Proof.
  intros Hcall st st' o HI. unfold onceWrapper. unfold bind at 1, read at 1.
  destruct (onces st !! w) as [[f t l]|] eqn:Ew; [|intros [= <- <-]; done]. cbn [fired once_type once_listener].
  destruct f; [intros [= <- <-]; done|]. pose proof HI as (Hwf & Hr & Hc).
  destruct (removeListener_spec emit_ st t (Wrapped w) Hwf) as (st1 & note & Hu & Hs & _ & E1).
  assert (HI1 : fires_once st1) by (eapply fires_once_updated; eauto).
  assert (E : removeListener emit_ t (VFn (Wrapped w)) st = Some (st1, Val tt)).
  { rewrite E1. destruct note as [[e g]|]; [|done]. unfold notify_removed, bind, read.
    destruct HI1 as (_ & Hr1 & _). by rewrite Hr1. }
  unfold bind at 1. rewrite E. unfold bind, modify. apply Hcall. destruct HI1 as (Hwf1 & Hr1 & Hc1). split; [exact Hwf1|].
  split; [exact Hr1|]. intros v. unfold fire_count in *. cbn. rewrite count_occ_app. cbn.
  destruct Hu as (_ & (Eo & _) & _). specialize (Hc1 v). rewrite Eo in Hc1 |- *.
  destruct (Nat.eq_dec w v) as [<-|Hne].
  - rewrite list_lookup_insert_eq by (by apply lookup_lt_Some in Ew). rewrite Ew in Hc1. lia.
  - rewrite list_lookup_insert_ne by done. lia.
Qed.

Context (ok_bodies : forall f args u, ok_prog not_removeListener (body f args u)).

Lemma fires_once_operate n o st st' r :
  ok_op not_removeListener o -> fires_once st -> operate n o st = Some (st', r) -> fires_once st'.
Proof.
  apply (operate_ok fires_once not_removeListener); try done.
  - by intros ? [? _].
  - intros ? ? t l Ht HI Hu. apply (fires_once_updated _ _ t l HI Hu). intros e. apply Hu. exact (not_eq_sym Ht).
  - intros ? ? t l HI Hu Hs. apply (fires_once_updated _ _ t l HI Hu). intros e. apply Hs.
  - intros s (_ & Hr & Hc). split; [apply wf_fresh|]. split; [|exact Hc]. intros e.
    destruct (has _ e kRemoveListener) eqn:E; [|done]. apply (has_reset s) in E; [|done]. by rewrite Hr in E.
  - intros t f s (Hwf & Hr & Hc). split; [exact Hwf|]. split; [exact Hr|]. intros w. specialize (Hc w). unfold fire_count in *.
    cbn. destruct (decide (w < length (onces s))%nat); [by rewrite lookup_app_l|].
    rewrite lookup_ge_None_2 in Hc by lia. rewrite lookup_app_r by lia. rewrite Hc.
    by destruct (w - length (onces s))%nat as [|[|m]].
  - intros emit_ call_ w args _ Hc. by apply fires_once_wrapper.
Qed.

(** A listener added with [once] is called at most once, however often and
    however deeply nested the event is emitted and whoever calls the wrapper
    directly, as long as no code listens for [removeListener]; and it has been
    called exactly when its wrapper is marked as fired. *)
Theorem once_at_most_once st w :
  reachable (ok_op not_removeListener) st ->
  (fire_count st w <= 1)%nat
  /\ (fire_count st w = 1%nat <-> exists t l, onces st !! w = Some (Once true t l)).
Proof.
  intros Hr. assert (HI : fires_once st).
  { induction Hr as [c p m u|n o st st' r _ IH Ho E]; [|by eapply fires_once_operate].
    split; [apply wf_init|]. split; [|done]. intros [|[|e]]; done. }
  destruct HI as (_ & _ & Hc). rewrite Hc. split; [repeat case_match; lia|].
  destruct (onces st !! w) as [[[] t l]|]; (split; [try done; eauto|by intros (? & ? & [= ])]).
Qed.
End Events.

(** ** Runs *)

Module Demo.
(** Listeners by number: 0 notes itself, 1 emits [x] again the first time, 2
    adds listener 0 to [x], 3 removes all listeners of [x]; the user's state is
    the list of calls. *)
Definition x : key := KStr (js "x").

Definition body (f : nat) (args : list (@val nat unit)) (u : list nat) : @prog nat unit unit (list nat) :=
  let u' := u ++ [f] in
  match f with
  | 1 => if bool_decide (1%nat ∈ u) then Return u' RNone else Do u' (OEmit x args) (fun u _ => Return u RNone)
  | 2 => Do u' (OAdd x (VFn (User 0%nat)) false) (fun u _ => Return u RNone)
  | 3 => Do u' (ORemoveAll (Some x)) (fun u _ => Return u RNone)
  | _ => Return u' RNone
  end%nat.

Definition start : @emitter nat unit unit (list nat) := init None false (new_emitter 10 []).

Definition after (os : list op) : @emitter nat unit unit (list nat) := default start (run_ops body 9 os start).

(** 1 is called first and emits again before the wrapper of 0 has run. *)
Definition nested : list (@op nat unit) := [OAdd x (VFn (User 1%nat)) false; OOnce x (VFn (User 0%nat)) false; OEmit x []].

(** 3 empties the registry and 2 fills it while the event is emitted. *)
Definition meanwhile : list (@op nat unit) :=
  [OAdd x (VFn (User 2%nat)) false; OAdd x (VFn (User 3%nat)) false; OAdd x (VFn (User 0%nat)) false].

Lemma reachable_after allowed os st : Forall allowed os -> run_ops body 9 os start = Some st -> reachable body allowed (after os).
Proof.
  intros Ha E. unfold after. rewrite E. cbn. eapply (reachable_run_ops body allowed 9 os); [|exact Ha|exact E].
  apply reachable_init.
Qed.
End Demo.

Lemma observers_agree_witness :
  let st := Demo.after Demo.nested in
  _eventsCount st = len (eventNames st) /\ eventNames st = [Demo.x].
Proof.
  assert (H : reachable Demo.body (fun _ => True) (Demo.after Demo.nested)).
  { eapply Demo.reachable_after; [|vm_compute; reflexivity]. repeat (apply Forall_cons; split; [exact I|]). constructor. }
  pose proof (observers_agree Demo.body _ H) as (_ & Hc & _). split; [exact Hc|vm_compute; reflexivity].
Defined.

Lemma registry_refines_witness :
  exists st', operate Demo.body 0 (ORemove Demo.x (VFn (User 3%nat))) (Demo.after Demo.meanwhile) = Some (st', RUnit)
    /\ rawListeners st' Demo.x = [User 2%nat; User 0%nat].
Proof.
  assert (H : reachable Demo.body (fun _ => True) (Demo.after Demo.meanwhile)).
  { eapply Demo.reachable_after; [|vm_compute; reflexivity]. repeat (apply Forall_cons; split; [exact I|]). constructor. }
  destruct (registry_refines Demo.body _ 0 (ORemove Demo.x (VFn (User 3%nat))) RUnit _ H) as (st' & E & Hk).
  - vm_compute. reflexivity.
  - vm_compute. reflexivity.
  - reflexivity.
  - exists st'. split; [exact E|]. rewrite Hk. vm_compute. reflexivity.
Defined.

Lemma emit_snapshot_witness :
  option_map (fun p => user p.1) (emit Demo.body 9 Demo.x [] (Demo.after Demo.meanwhile)) = Some [2; 3; 0]%nat.
Proof.
  assert (H : reachable Demo.body (fun _ => True) (Demo.after Demo.meanwhile)).
  { eapply Demo.reachable_after; [|vm_compute; reflexivity]. repeat (apply Forall_cons; split; [exact I|]). constructor. }
  rewrite (emit_snapshot Demo.body (fun _ => True) 8 Demo.x [] (Demo.after Demo.meanwhile) H); [|discriminate].
  vm_compute. reflexivity.
Defined.

Lemma once_at_most_once_witness :
  fire_count (Demo.after Demo.nested) 0 = 1%nat /\ user (Demo.after Demo.nested) = [1; 1; 0]%nat.
Proof.
  assert (H : reachable Demo.body (ok_op not_removeListener) (Demo.after Demo.nested)).
  { eapply Demo.reachable_after; [|vm_compute; reflexivity].
    repeat (apply Forall_cons; split; [cbn; try exact I; discriminate|]). constructor. }
  split; [|vm_compute; reflexivity].
  apply (once_at_most_once Demo.body); [|exact H|].
  - intros f args u. unfold Demo.body. repeat case_match; cbn; repeat split; discriminate.
  - vm_compute. eauto.
Defined.

(** With an observer of [removeListener] the promise of [once] can be broken:
    the wrapper leaves the list before it is marked as fired, and the observer
    is given the wrapper and can call it. *)
Module Twice.
Definition body (f : nat) (args : list (@val nat unit)) (u : list nat) : @prog nat unit unit (list nat) :=
  match f, args with
  | 1%nat, [_; VFn g] =>
      if bool_decide (1%nat ∈ u) then Return u RNone
      else Do (u ++ [1%nat]) (OCall g []) (fun u _ => Return u RNone)
  | _, _ => Return (u ++ [f]) RNone
  end.

Definition os : list (@op nat unit) :=
  [OAdd kRemoveListener (VFn (User 1%nat)) false; OAdd Demo.x (VFn (User 2%nat)) false;
   OOnce Demo.x (VFn (User 0%nat)) false; OEmit Demo.x []].
End Twice.

Example once_called_twice :
  (fun st => user st) <$> run_ops Twice.body 9 Twice.os Demo.start = Some [2; 1; 0; 0]%nat.
Proof. by vm_compute. Qed.
