(* ===== verification/EventIterator.v ===== *)
(** * The async iterator of [events.on]: [on] of [_events.mjs]

    The iterator matches the events of an emitter with the promises its
    consumer asks for.  A promise is known by its number; what settled it first
    counts.  The steps are what can happen to it, in any order: the emitter
    calls one of the handlers, the abort signal fires, or the consumer calls
    [next], [return] or [throw]. *)

From S2P Require Import Prelude.

Section Iterator.
(** The arguments of an event, and errors. *)
Context {A E : Type}.

Inductive outcome := Value (args : A) | Done | Rejected (err : E).

Record iterator := It {
  unconsumedEvents : list A;
  unconsumedPromises : list nat;
  error : option E;
  finished : bool;
  listening : bool;                       (** the two handlers are attached *)
  issued : nat;                           (** promises made so far *)
  settled : list (nat * outcome)          (** in the order in which they settled *)
}.

(** [resolve] or [reject] of a promise; later calls do nothing. *)
Definition settle (p : nat) (o : outcome) (l : list (nat * outcome)) : list (nat * outcome) :=
  if decide (p ∈ l.*1) then l else l ++ [(p, o)].

Definition settle_all (ps : list nat) (o : outcome) (l : list (nat * outcome)) : list (nat * outcome) :=
  fold_left (fun l p => settle p o l) ps l.

(** [on]: the handlers are attached before the iterator is returned. *)
Definition on : iterator := It [] [] None false true 0 [].

Definition next (it : iterator) : iterator :=
  let p := issued it in
  match unconsumedEvents it with
  | value :: rest =>
      It rest (unconsumedPromises it) (error it) (finished it) (listening it) (S p) (settle p (Value value) (settled it))
  | [] =>
      match error it with
      | Some err =>
          It [] (unconsumedPromises it) None (finished it) (listening it) (S p) (settle p (Rejected err) (settled it))
      | None =>
          if finished it then
            It [] (unconsumedPromises it) None (finished it) (listening it) (S p) (settle p Done (settled it))
          else It [] (unconsumedPromises it ++ [p]) None (finished it) (listening it) (S p) (settled it)
      end
  end.

(** The body of [return], without the promise it gives back. *)
Definition finish (it : iterator) : iterator :=
  It (unconsumedEvents it) (unconsumedPromises it) (error it) true false (issued it)
     (settle_all (unconsumedPromises it) Done (settled it)).

Definition return_ (it : iterator) : iterator :=
  let it := finish it in
  It (unconsumedEvents it) (unconsumedPromises it) (error it) (finished it) (listening it) (S (issued it))
     (settle (issued it) Done (settled it)).

(** [throw(err)] with an [Error]. *)
Definition throw_ (it : iterator) (err : E) : iterator :=
  It (unconsumedEvents it) (unconsumedPromises it) (Some err) (finished it) false (issued it) (settled it).

Definition eventHandler (it : iterator) (args : A) : iterator :=
  match unconsumedPromises it with
  | p :: rest =>
      It (unconsumedEvents it) rest (error it) (finished it) (listening it) (issued it)
         (settle p (Value args) (settled it))
  | [] =>
      It (unconsumedEvents it ++ [args]) [] (error it) (finished it) (listening it) (issued it) (settled it)
  end.

(** The iterator calls its own [return], whose promise nobody holds. *)
Definition errorHandler (it : iterator) (err : E) : iterator :=
  let it :=
    match unconsumedPromises it with
    | p :: rest =>
        It (unconsumedEvents it) rest (error it) true (listening it) (issued it) (settle p (Rejected err) (settled it))
    | [] => It (unconsumedEvents it) [] (Some err) true (listening it) (issued it) (settled it)
    end in
  return_ it.

(** What can happen; an abort is an error from the signal. *)
Inductive step := SEvent (args : A) | SError (err : E) | SNext | SReturn | SThrow (err : E).

Definition do_step (it : iterator) (s : step) : iterator :=
  match s with
  | SEvent args => if listening it then eventHandler it args else it
  | SError err => if listening it then errorHandler it err else it
  | SNext => next it
  | SReturn => return_ it
  | SThrow err => throw_ it err
  end.

Definition run (steps : list step) : iterator := fold_left do_step steps on.

(** ** Matching of events and promises *)

Definition events_of (steps : list step) : list A :=
  omap (fun s => match s with SEvent a => Some a | _ => None end) steps.
Definition nexts_of (steps : list step) : nat :=
  length (omap (fun s => match s with SNext => Some tt | _ => None end) steps).

(** Only events and requests. *)
Definition plain (s : step) : Prop := match s with SEvent _ | SNext => True | _ => False end.

(** The state after [es] have been emitted and [n] promises asked for. *)
Definition matched (es : list A) (n : nat) : iterator :=
  It (drop n es) (seq (length es) (n - length es)) None false true n (zip (seq 0 n) (Value <$> es)).

Lemma zip_seq_keys (k : nat) (l : list outcome) : (zip (seq k (length l)) l).*1 = seq k (length l).
Proof. apply fst_zip. by rewrite length_seq. Qed.

Lemma zip_seq_short n k (l : list outcome) : (length l <= n)%nat -> zip (seq k n) l = zip (seq k (length l)) l.
Proof.
  revert n k. induction l as [|o l IH]; intros n k H; [by rewrite !zip_with_nil_r|]. destruct n as [|n]; [cbn in H; lia|].
  cbn. f_equal. apply IH. cbn in H. lia.
Qed.

Lemma zip_seq_long n k (l l' : list outcome) : (n <= length l)%nat -> zip (seq k n) (l ++ l') = zip (seq k n) l.
Proof.
  revert n k. induction l as [|o l IH]; intros n k H; destruct n as [|n]; cbn in *; try done; [lia|].
  f_equal. apply IH. lia.
Qed.

Lemma zip_snoc k (l : list outcome) o : zip (seq k (S (length l))) (l ++ [o]) = zip (seq k (length l)) l ++ [((k + length l)%nat, o)].
Proof. rewrite seq_S, zip_with_app by (by rewrite length_seq). done. Qed.

Lemma settle_new p o l : p ∉ l.*1 -> settle p o l = l ++ [(p, o)].
Proof. intros H. unfold settle. by rewrite decide_False. Qed.

Lemma matched_event es n a : do_step (matched es n) (SEvent a) = matched (es ++ [a]) n.
Proof.
  unfold do_step, matched, eventHandler. cbn [listening unconsumedPromises]. rewrite length_app, fmap_app. cbn [length].
  destruct (decide (n <= length es)%nat) as [Hle|Hgt].
  - replace (n - length es)%nat with 0%nat by lia. replace (n - (length es + 1))%nat with 0%nat by lia. cbn.
    rewrite drop_app_le by done. rewrite zip_seq_long by (by rewrite length_fmap). done.
  - replace (n - length es)%nat with (S (n - (length es + 1))) by lia. cbn [seq].
    rewrite !drop_ge by (rewrite ?length_app; cbn; lia). cbn [unconsumedEvents error finished listening issued settled].
    rewrite Nat.add_1_r. f_equal. rewrite zip_seq_short by (rewrite length_fmap; lia).
    rewrite settle_new by (rewrite zip_seq_keys, length_fmap; intros ?%elem_of_seq; lia).
    rewrite (zip_seq_short n) by (rewrite length_app, length_fmap; cbn; lia). rewrite length_app. cbn [fmap list_fmap length].
    rewrite Nat.add_1_r, zip_snoc, length_fmap. done.
Qed.

Lemma matched_next es n : do_step (matched es n) SNext = matched es (S n).
Proof.
  unfold do_step, matched, next. cbn [unconsumedEvents error finished listening issued settled unconsumedPromises].
  destruct (drop n es) as [|a rest] eqn:Ed.
  - assert (Hle : (length es <= n)%nat) by (apply (f_equal length) in Ed; rewrite length_drop in Ed; cbn in Ed; lia).
    rewrite (drop_ge es) by lia. f_equal.
    + replace (S n - length es)%nat with (S (n - length es)) by lia. rewrite seq_S. by replace (length es + (n - length es))%nat with n by lia.
    + by rewrite (zip_seq_short n), (zip_seq_short (S n)) by (rewrite length_fmap; lia).
  - assert (Hlt : (n < length es)%nat) by (apply (f_equal length) in Ed; rewrite length_drop in Ed; cbn in Ed; lia).
    replace (S n - length es)%nat with 0%nat by lia. replace (n - length es)%nat with 0%nat by lia.
    change (seq (length es) 0) with (@nil nat).
    assert (Ea : es = take n es ++ a :: rest) by (rewrite <- Ed; symmetry; apply take_drop).
    assert (En : length (take n es) = n) by (rewrite length_take; lia). set (pre := take n es) in *. clearbody pre. subst n es.
    rewrite fmap_app. cbn [fmap list_fmap].
    replace (drop (S (length pre)) (pre ++ a :: rest)) with rest
      by (rewrite drop_app_ge, Nat.sub_succ_l, Nat.sub_diag by lia; done).
    rewrite (zip_seq_long (length pre)) by (by rewrite length_fmap).
    replace ((Value <$> pre) ++ Value a :: (Value <$> rest)) with (((Value <$> pre) ++ [Value a]) ++ (Value <$> rest))
      by (by rewrite <- app_assoc).
    rewrite (zip_seq_long (S (length pre))) by (rewrite length_app, length_fmap; cbn; lia).
    assert (Hl : length pre = length (Value <$> pre)) by by rewrite length_fmap.
    rewrite Hl at 3 4 5. rewrite zip_snoc. cbn [Nat.add]. rewrite settle_new; [by rewrite <- Hl|].
    rewrite zip_seq_keys, <- Hl. intros ?%elem_of_seq. lia.
Qed.

Lemma events_of_snoc steps s : events_of (steps ++ [s]) = events_of steps ++ match s with SEvent a => [a] | _ => [] end.
Proof. unfold events_of. rewrite omap_app. by destruct s. Qed.

Lemma nexts_of_snoc steps s : nexts_of (steps ++ [s]) = (nexts_of steps + match s with SNext => 1 | _ => 0 end)%nat.
Proof. unfold nexts_of. rewrite omap_app, length_app. by destruct s. Qed.

Lemma run_snoc steps s : run (steps ++ [s]) = do_step (run steps) s.
Proof. unfold run. by rewrite fold_left_app. Qed.

Lemma run_matched (steps : list step) : Forall plain steps -> run steps = matched (events_of steps) (nexts_of steps).
Proof.
  induction steps as [|s steps IH] using rev_ind; [done|]. intros [Hs Hp]%Forall_app. rewrite Forall_singleton in Hp.
  rewrite run_snoc, events_of_snoc, nexts_of_snoc, IH by done. destruct s; cbn in Hp; try done.
  - rewrite Nat.add_0_r. apply matched_event.
  - rewrite app_nil_r, Nat.add_1_r. apply matched_next.
Qed.

(** The k-th promise a consumer asks for is settled with the k-th event,
    whether the event came before or after the request; nothing is lost,
    repeated or reordered, and what is not matched yet waits in the queue of
    events or in the queue of promises, of which one is empty. *)
Theorem iterator_matches (steps : list step) :
  Forall plain steps -> run steps = matched (events_of steps) (nexts_of steps).
Proof. apply run_matched. Qed.

(** ** The end of the iteration *)

Lemma elem_settle p q o l : q ∈ (settle p o l).*1 <-> q = p \/ q ∈ l.*1.
Proof.
  unfold settle. destruct (decide (p ∈ l.*1)) as [Hin|Hn].
  - split; [by right|]. by intros [->|].
  - rewrite fmap_app, elem_of_app. cbn. rewrite list_elem_of_singleton. tauto.
Qed.

Lemma settle_nodup p o l : NoDup l.*1 -> NoDup (settle p o l).*1.
Proof.
  unfold settle. destruct (decide (p ∈ l.*1)) as [Hin|Hn]; [done|]. intros Hl. rewrite fmap_app. apply NoDup_app.
  split; [done|]. split; [|by apply NoDup_singleton]. intros q Hq ->%list_elem_of_singleton. done.
Qed.

Lemma elem_settle_all ps q o l : q ∈ (settle_all ps o l).*1 <-> q ∈ ps \/ q ∈ l.*1.
Proof.
  unfold settle_all. revert l. induction ps as [|p ps IH]; intros l; cbn; [rewrite elem_of_nil; tauto|].
  rewrite IH, elem_settle, elem_of_cons. tauto.
Qed.

Lemma settle_all_nodup ps o l : NoDup l.*1 -> NoDup (settle_all ps o l).*1.
Proof. unfold settle_all. revert l. induction ps as [|p ps IH]; intros l Hl; cbn; [done|]. by apply IH, settle_nodup. Qed.

(** Every promise is waiting or settled; when the iterator is finished it is
    settled. *)
Definition none_lost (it : iterator) : Prop :=
  NoDup (settled it).*1 /\ forall p, (p < issued it)%nat -> p ∈ (settled it).*1 \/ p ∈ unconsumedPromises it.

Definition iterator_ok (it : iterator) : Prop :=
  none_lost it /\ (finished it = true -> forall p, (p < issued it)%nat -> p ∈ (settled it).*1).

Lemma finish_settles it :
  none_lost it -> NoDup (settled (finish it)).*1 /\ forall p, (p < issued it)%nat -> p ∈ (settled (finish it)).*1.
Proof.
  intros [H1 H2]. split; [by apply settle_all_nodup|]. intros p Hp. cbn. rewrite elem_settle_all.
  destruct (H2 p Hp); tauto.
Qed.

Lemma return_ok it : none_lost it -> iterator_ok (return_ it).
Proof.
  intros [H1 H2]%finish_settles. unfold return_.
  assert (H : forall p, (p < S (issued it))%nat -> p ∈ (settle (issued it) Done (settled (finish it))).*1).
  { intros p Hp. rewrite elem_settle. destruct (decide (p = issued it)); [by left|]. right. apply H2. lia. }
  split; [|done]. split; [by apply settle_nodup|]. intros p Hp. left. by apply H.
Qed.

Lemma next_ok it : iterator_ok it -> iterator_ok (next it).
Proof.
  intros [[H1 H2] H3]. unfold next.
  assert (Hs : forall o, (NoDup (settle (issued it) o (settled it)).*1
     /\ (forall p, (p < S (issued it))%nat -> p ∈ (settle (issued it) o (settled it)).*1 \/ p ∈ unconsumedPromises it))
     /\ (finished it = true -> forall p, (p < S (issued it))%nat -> p ∈ (settle (issued it) o (settled it)).*1)).
  { intros o. split; [split; [by apply settle_nodup|]|].
    - intros p Hp. rewrite elem_settle. destruct (decide (p = issued it)); [by left; left|].
      destruct (H2 p); [lia|by left; right|by right].
    - intros Hf p Hp. rewrite elem_settle. destruct (decide (p = issued it)); [by left|]. right. apply H3; [done|lia]. }
  destruct (unconsumedEvents it) as [|v r]; [|apply Hs].
  destruct (error it) as [e|]; [apply Hs|]. destruct (finished it) eqn:Ef; [apply Hs|].
  split; [|done]. split; [done|]. cbn. intros p Hp. rewrite elem_of_app, list_elem_of_singleton.
  destruct (decide (p = issued it)); [by right; right|]. destruct (H2 p); [lia|by left|by right; left].
Qed.

(** A waiting promise is settled and leaves the queue. *)
Lemma settle_first it p rest o :
  none_lost it -> unconsumedPromises it = p :: rest ->
  NoDup (settle p o (settled it)).*1 /\ forall q, (q < issued it)%nat -> q ∈ (settle p o (settled it)).*1 \/ q ∈ rest.
Proof.
  intros [H1 H2] Ep. split; [by apply settle_nodup|].
  intros q Hq. rewrite elem_settle. destruct (H2 q Hq) as [|Hin]; [by left; right|]. rewrite Ep in Hin.
  apply elem_of_cons in Hin as [->|]; [by left; left|by right].
Qed.

Lemma step_ok it s : iterator_ok it -> iterator_ok (do_step it s).
Proof.
  intros Hok. pose proof Hok as [H1 H3]. destruct s as [a|e| | |e]; cbn [do_step].
  - destruct (listening it); [|done]. unfold eventHandler. destruct (unconsumedPromises it) as [|p rest] eqn:Ep.
    + split; [|exact H3]. unfold none_lost in *. by rewrite Ep in H1.
    + split; [apply (settle_first it p rest (Value a) H1 Ep)|]. intros Hf q Hq. cbn. rewrite elem_settle. right. by apply H3.
  - destruct (listening it); [|done]. unfold errorHandler. destruct (unconsumedPromises it) as [|p rest] eqn:Ep; apply return_ok.
    + unfold none_lost in *. by rewrite Ep in H1.
    + apply (settle_first it p rest (Rejected e) H1 Ep).
  - by apply next_ok.
  - by apply return_ok.
  - by split.
Qed.

(** Once the iterator is finished, by [return], an error or an abort,
    every promise it ever gave out is settled, and no promise is settled twice
    at any time, in whatever order events, errors, requests, [return] and
    [throw] happen. *)
Theorem iterator_settles (steps : list step) :
  NoDup (settled (run steps)).*1
  /\ (finished (run steps) = true -> forall p, (p < issued (run steps))%nat -> p ∈ (settled (run steps)).*1).
Proof.
  assert (H : iterator_ok (run steps)).
  { induction steps as [|s steps IH] using rev_ind; [split; [split; [constructor|cbn; intros; lia]|done]|].
    rewrite run_snoc. by apply step_ok. }
  split; apply H.
Qed.

(** The promises given out from number [p] on, in order. *)
Definition results (p : nat) (it : iterator) : list outcome :=
  omap (fun '(q, o) => if decide (p <= q)%nat then Some o else None) (settled it).

Lemma results_app p it q o l :
  settled it = l ++ [(q, o)] -> (p <= q)%nat ->
  results p it = omap (fun '(q, o) => if decide (p <= q)%nat then Some o else None) l ++ [o].
Proof. intros El Hq. unfold results. rewrite El, omap_app. f_equal. cbn. by rewrite decide_True. Qed.

(** Everything is settled already, so each request appends its own outcome. *)
Definition drained (p : nat) (it : iterator) : Prop :=
  (p <= issued it)%nat /\ finished it = true /\ forall q, q ∈ (settled it).*1 -> (q < issued it)%nat.

Lemma drained_next p it :
  drained p it ->
  drained p (next it)
  /\ results p (next it) = results p it ++ [match unconsumedEvents it, error it with
                                           | a :: _, _ => Value a
                                           | [], Some e => Rejected e
                                           | [], None => Done
                                           end]
  /\ unconsumedEvents (next it) = tail (unconsumedEvents it)
  /\ error (next it) = match unconsumedEvents it with [] => None | _ => error it end.
Proof.
  intros (Hp & Hf & Hs). assert (Hn : issued it ∉ (settled it).*1) by (intros ?%Hs; lia).
  assert (Hd : forall o q, q ∈ (settled it ++ [(issued it, o)]).*1 -> (q < S (issued it))%nat).
  { intros o q. rewrite fmap_app, elem_of_app. cbn. rewrite list_elem_of_singleton. intros [?%Hs| ->]; lia. }
  unfold next. destruct (unconsumedEvents it) as [|a r] eqn:Eu; [destruct (error it) as [e|] eqn:Ee|]; rewrite ?Hf;
    rewrite settle_new by done; (split; [|split; [|done]]);
    try (split; [cbn; lia|split; [done|apply Hd]]); by apply (results_app p _ (issued it)).
Qed.

Lemma take_pad {B} k (l : list B) d : take k (l ++ repeat d (S k)) = take k (l ++ repeat d k).
Proof.
  change (repeat d (S k)) with (d :: repeat d k). rewrite (repeat_cons k d), app_assoc, take_app_le; [done|]. rewrite length_app, repeat_length. lia.
Qed.

Lemma drained_run k p it :
  drained p it ->
  results p (fold_left do_step (repeat SNext k) it)
  = results p it ++ take k ((Value <$> unconsumedEvents it) ++ (Rejected <$> option_list (error it)) ++ repeat Done k).
Proof.
  revert it. induction k as [|k IH]; intros it Hd; [by rewrite take_0, app_nil_r|].
  destruct (drained_next p it Hd) as (Hd' & Er & Eu & Ee). cbn [repeat fold_left do_step]. rewrite IH, Er, Eu, Ee by done.
  rewrite <- app_assoc. f_equal. change (Done :: repeat Done k) with (repeat (@Done) (S k)).
  destruct (unconsumedEvents it) as [|a r]; [destruct (error it) as [e|]|]; cbn -[take repeat]; cbn [take].
  - f_equal. symmetry. apply (take_pad k []).
  - done.
  - f_equal. by rewrite !app_assoc, take_pad.
Qed.

Lemma omap_old p (l : list (nat * outcome)) :
  (forall q o, (q, o) ∈ l -> (q < p)%nat) ->
  omap (fun '(q, o) => if decide (p <= q)%nat then Some o else None) l = [].
Proof.
  induction l as [|[q o] l IH]; intros H; [done|]. cbn. rewrite decide_False.
  - apply IH. intros q' o' Hin. apply (H q' o'). by right.
  - specialize (H q o ltac:(by left)). lia.
Qed.

(** After an error that finds no promise waiting, the consumer still gets
    every event that was emitted before it, in order, then the error once, and
    then the end of the iteration for good. *)
Theorem iterator_error_after_events (steps : list step) (err : E) (k : nat) :
  Forall plain steps -> (nexts_of steps <= length (events_of steps))%nat ->
  let p := S (nexts_of steps) in
  results p (run (steps ++ [SError err] ++ repeat SNext k))
  = take k ((Value <$> drop (nexts_of steps) (events_of steps)) ++ [Rejected err] ++ repeat Done k).
Proof.
  intros Hs Hn p. unfold run. rewrite !fold_left_app. fold (run steps). rewrite run_matched by done.
  set (es := events_of steps) in *. set (n := nexts_of steps) in *. cbn [fold_left do_step]. unfold matched. cbn [listening].
  unfold errorHandler. cbn [unconsumedPromises]. replace (n - length es)%nat with 0%nat by lia. cbn [seq].
  assert (Hk : (zip (seq 0 n) (Value <$> es)).*1 = seq 0 n) by (apply fst_zip; rewrite length_seq, length_fmap; lia).
  rewrite drained_run.
  - unfold return_, finish. cbn [unconsumedEvents unconsumedPromises error settled issued finished listening settle_all fold_left].
    unfold results, settle_all. cbn [settled fold_left]. rewrite settle_new by (rewrite Hk; intros ?%elem_of_seq; lia).
    rewrite omap_app, omap_old by (intros q o Hq; apply (list_elem_of_fmap_2 fst) in Hq; rewrite Hk in Hq; apply elem_of_seq in Hq; unfold p; cbn in Hq; lia).
    cbn. rewrite decide_False by (unfold p; lia). done.
  - split; [cbn; unfold p; lia|]. split; [done|]. intros q. cbn. rewrite elem_settle, Hk. intros [->|?%elem_of_seq]; lia.
Qed.
End Iterator.
Arguments iterator : clear implicits.
Arguments step : clear implicits.
Arguments outcome : clear implicits.

Lemma iterator_matches_witness :
  unconsumedPromises (run (E := unit) [SEvent 10; SNext; SNext; SEvent 11; SNext]) = [2%nat]
  /\ settled (run (E := unit) [SEvent 10; SNext; SNext; SEvent 11; SNext]) = [(0%nat, Value 10); (1%nat, Value 11)].
Proof.
  rewrite (iterator_matches (E := unit) [SEvent 10; SNext; SNext; SEvent 11; SNext]);
    [split; vm_compute; reflexivity|repeat (apply Forall_cons; split; [exact I|]); constructor].
Defined.

Lemma iterator_error_after_events_witness :
  results 2 (run ([SEvent 10; SNext; SEvent 11] ++ [SError tt] ++ repeat SNext 4)) = [Value 11; Rejected tt; Done; Done].
Proof.
  refine (eq_trans (iterator_error_after_events [SEvent 10; SNext; SEvent 11] tt 4 _ _) _).
  - repeat (apply Forall_cons; split; [exact I|]). constructor.
  - vm_compute. auto.
  - vm_compute. reflexivity.
Defined.

Lemma iterator_settles_witness : finished (run (E := unit) [SNext; SNext; SEvent 10; SReturn]) = true
  /\ 1%nat ∈ (settled (run (E := unit) [SNext; SNext; SEvent 10; SReturn])).*1.
Proof.
  split; [vm_compute; reflexivity|].
  apply (iterator_settles (E := unit) [SNext; SNext; SEvent 10; SReturn]); vm_compute; auto.
Defined.

(** [throw] detaches the handlers without finishing: a promise that waits is
    never settled, and after the error the iteration does not end either. *)
Example throw_leaves_pending :
  let it := run (A := unit) [SNext; SThrow tt; SNext; SNext] in
  listening it = false /\ unconsumedPromises it = [0; 2]%nat /\ settled it = [(1%nat, Rejected tt)].
Proof. by vm_compute. Qed.
