(* ===== verification/Diff.v ===== *)
(** * Differences of two sequences: [diff] of [_util/std_testing_diff.ts]

    The algorithm of Wu, Manber, Myers and Miller: the farthest points on the
    diagonals of the edit graph, round by round, with the routes to them kept
    in one typed array.  The array [fp] is a map from indices, as JavaScript
    allows any; [routes] is a [Uint32Array], where a write out of range is
    lost.  The loops take fuel, and what is proved below is that the fuel given
    is enough, that the result transforms one sequence into the other, and that
    no shorter one does. *)

From stdpp Require Import gmap.
From S2P Require Import Prelude Bytes.
#[local] Open Scope Z_scope.

Inductive DiffType := removed | common | added.

#[export] Instance DiffType_eq_dec : EqDecision DiffType.
Proof. solve_decision. Defined.

Definition REMOVED : Z := 1.
Definition COMMON : Z := 2.
Definition ADDED : Z := 3.

Record FarthestPoint := FP { fp_y : Z; fp_id : Z }.

(** The variables the inner functions share. *)
Record diff_state := DS {
  routes : list Z;
  ptr : Z;
  fps : gmap Z FarthestPoint
}.

(** [routes[i] = v] on a [Uint32Array]. *)
Definition set_route (i v : Z) (routes : list Z) : list Z :=
  if (0 <=? i) && (i <? len routes) then <[Z.to_nat i := to_uint32 v]> routes else routes.

Section Diff.
Context {T : Type} `{!EqDecision T}.

(** [x === y] of array elements, [undefined] out of range; the elements are of
    a type where [===] is equality, as the strings [diffstr] passes. *)
Definition same (x y : option T) : bool := bool_decide (x = y).

Record DiffResult := DR { type : DiffType; value : T }.

(** ** Common ends *)

Fixpoint common_loop (A B : list T) (reverse : bool) (n : nat) (i : Z) : list T :=
  match n with
  | O => []
  | S n =>
      let a := at_index A (if reverse then len A - i - 1 else i) in
      let b := at_index B (if reverse then len B - i - 1 else i) in
      if same a b then option_list a ++ common_loop A B reverse n (i + 1) else []
  end.

Definition createCommon (A B : list T) (reverse : bool) : list T :=
  if (len A =? 0) || (len B =? 0) then []
  else common_loop A B reverse (Nat.min (length A) (length B)) 0.

(** ** The search *)

Section Search.
Context (A B : list T) (swapped : bool).
Let M := len A.
Let N := len B.
Let offset := N.
Let delta := M - N.
Let size := M + N + 1.
(** [diffTypesPtrOffset]. *)
Let half := M * N + size + 1.

Definition start_state : diff_state :=
  DS (replicate (Z.to_nat (half * 2)) 0) 0
     (list_to_map ((fun i => (i, FP (-1) (-1))) <$> seqZ 0 size)).

(** [ptr++; routes[ptr] = prev; routes[ptr + diffTypesPtrOffset] = type]. *)
Definition new_route (st : diff_state) (prev type : Z) : diff_state :=
  let ptr := ptr st + 1 in
  DS (set_route (ptr + half) type (set_route ptr prev (routes st))) ptr (fps st).

Definition is_start (p : option FarthestPoint) : bool := match p with Some p => fp_y p =? -1 | None => false end.

(** Reading a property of [undefined] throws. *)
Definition createFP (st : diff_state) (slide down : option FarthestPoint) (k : Z) : result (diff_state * FarthestPoint) :=
  if is_start slide && is_start down then Ok (st, FP 0 0)
  else if is_start down || (k =? M)
          || match slide, down with Some s, Some d => fp_y d + 1 <? fp_y s | _, _ => false end then
    match slide with
    | Some s => let st := new_route st (fp_id s) ADDED in Ok (st, FP (fp_y s) (ptr st))
    | None => Throw (TypeError "undefined")
    end
  else
    match down with
    | Some d => let st := new_route st (fp_id d) REMOVED in Ok (st, FP (fp_y d + 1) (ptr st))
    | None => Throw (TypeError "undefined")
    end.

(** Along the diagonal while the elements agree; every iteration moves on in
    [B]. *)
Fixpoint snake_loop (fuel : nat) (k : Z) (st : diff_state) (fp : FarthestPoint) : diff_state * FarthestPoint :=
  match fuel with
  | O => (st, fp)
  | S fuel =>
      if (fp_y fp + k <? M) && (fp_y fp <? N) && same (at_index A (fp_y fp + k)) (at_index B (fp_y fp)) then
        let st := new_route st (fp_id fp) COMMON in
        snake_loop fuel k st (FP (fp_y fp + 1) (ptr st))
      else (st, fp)
  end.

Definition snake (k : Z) (st : diff_state) (slide down : option FarthestPoint) : result (diff_state * FarthestPoint) :=
  if (k <? - N) || (M <? k) then Ok (st, FP (-1) (-1))
  else
    let! r := createFP st slide down k in
    Ok (snake_loop (S (length B)) k (fst r) (snd r)).

(** [fp[k + offset] = snake(k, fp[k - 1 + offset], fp[k + 1 + offset], ...)]. *)
Definition visit (k : Z) (st : diff_state) : result diff_state :=
  let! r := snake k st (fps st !! (k - 1 + offset)) (fps st !! (k + 1 + offset)) in
  let st := fst r in
  Ok (DS (routes st) (ptr st) (<[k + offset := snd r]> (fps st))).

Fixpoint visit_up (n : nat) (k : Z) (st : diff_state) : result diff_state :=
  match n with
  | O => Ok st
  | S n => let! st := visit k st in visit_up n (k + 1) st
  end.

Fixpoint visit_down (n : nat) (k : Z) (st : diff_state) : result diff_state :=
  match n with
  | O => Ok st
  | S n => let! st := visit k st in visit_down n (k - 1) st
  end.

(** The body of the outer loop. *)
Definition round (p : Z) (st : diff_state) : result diff_state :=
  let! st := visit_up (Z.to_nat (delta + p)) (- p) st in
  let! st := visit_down (Z.to_nat p) (delta + p) st in
  visit delta st.

(** [while (fp[delta + offset].y < N)]. *)
Fixpoint search (fuel : nat) (p : Z) (st : diff_state) : result (diff_state * FarthestPoint) :=
  match fps st !! (delta + offset) with
  | None => Throw (TypeError "undefined")
  | Some f =>
      if fp_y f <? N then
        match fuel with
        | O => Throw (Error "out of fuel")
        | S fuel => let! st := round (p + 1) st in search fuel (p + 1) st
        end
      else Ok (st, f)
  end.

(** ** The way back *)

(** An index out of range would give [undefined]; [trace_spec] shows that the
    routes of the search stay inside the sequences. *)
Definition result_of (t : DiffType) (v : option T) : list DiffResult :=
  match v with Some v => [DR t v] | None => [] end.

(** The results from position [id] of the routes on, with [a] and [b] the last
    elements left. *)
Fixpoint trace_loop (fuel : nat) (routes : list Z) (a b id : Z) (result : list DiffResult) : option (list DiffResult) :=
  match fuel with
  | O => None
  | S fuel =>
      let j := default 0 (at_index routes id) in
      let t := default 0 (at_index routes (id + half)) in
      if (j =? 0) && (t =? 0) then Some result
      else if t =? REMOVED then
        trace_loop fuel routes a (b - 1) j (result_of (if swapped then removed else added) (at_index B b) ++ result)
      else if t =? ADDED then
        trace_loop fuel routes (a - 1) b j (result_of (if swapped then added else removed) (at_index A a) ++ result)
      else trace_loop fuel routes (a - 1) (b - 1) j (result_of common (at_index A a) ++ result)
  end.

Definition backTrace (st : diff_state) (current : FarthestPoint) : option (list DiffResult) :=
  trace_loop (length (routes st)) (routes st) (M - 1) (N - 1) (fp_id current) [].
End Search.

Definition as_common (l : list T) : list DiffResult := DR common <$> l.

Definition diff (A B : list T) : result (list DiffResult) :=
  let prefixCommon := createCommon A B false in
  let p := len prefixCommon in
  let suffixCommon := reverse (createCommon (slice_from A p) (slice_from B p) true) in
  let s := len suffixCommon in
  let A := if s =? 0 then slice_from A p else slice A p (- s) in
  let B := if s =? 0 then slice_from B p else slice B p (- s) in
  let swapped := len A <? len B in
  let '(A, B) := if swapped then (B, A) else (A, B) in
  if (len A =? 0) && (len B =? 0) && (s =? 0) && (p =? 0) then Ok []
  else if len B =? 0 then
    Ok (as_common prefixCommon ++ (DR (if swapped then added else removed) <$> A) ++ as_common suffixCommon)
  else
    let! r := search A B (S (length B)) (-1) (start_state A B) in
    match backTrace A B swapped (fst r) (snd r) with
    | None => Throw (Error "out of fuel")
    | Some l => Ok (as_common prefixCommon ++ l ++ as_common suffixCommon)
    end.

(** ** Edit scripts

    [script A B n]: [A] becomes [B] by removing and adding [n] elements in all. *)

Inductive script : list T -> list T -> nat -> Prop :=
| script_nil : script [] [] 0
| script_remove a A B n : script A B n -> script (a :: A) B (S n)
| script_add b A B n : script A B n -> script A (b :: B) (S n)
| script_common c A B n : script A B n -> script (c :: A) (c :: B) n.

Lemma script_swap A B n : script A B n -> script B A n.
Proof. induction 1; by constructor. Qed.

Lemma script_app A B n A' B' m : script A B n -> script A' B' m -> script (A ++ A') (B ++ B') (n + m).
Proof. induction 1; intros H'; cbn; [done|..]; constructor; auto. Qed.

Lemma script_rev A B n : script A B n -> script (reverse A) (reverse B) n.
Proof.
  induction 1 as [|a A B n _ IH|b A B n _ IH|c A B n _ IH]; [constructor|..]; rewrite ?reverse_cons.
  - rewrite <- (app_nil_r (reverse B)), <- Nat.add_1_r. apply script_app; [done|]. repeat constructor.
  - rewrite <- (app_nil_r (reverse A)), <- Nat.add_1_r. apply script_app; [done|]. repeat constructor.
  - rewrite <- (Nat.add_0_r n). apply script_app; [done|]. repeat constructor.
Qed.

(** Leaving out one element costs at most one step. *)
Lemma script_drop A b B n : script A (b :: B) n -> exists m, (m <= S n)%nat /\ script A B m.
Proof.
  intros H. remember (b :: B) as B' eqn:E. revert b B E.
  induction H as [|a A B' n H IH|b' A B' n H IH|c A B' n H IH]; intros b B E; [done|..].
  - destruct (IH b B E) as (m & Hm & Hs). exists (S m). split; [lia|]. by constructor.
  - injection E as -> ->. exists n. split; [lia|done].
  - injection E as -> ->. exists (S n). split; [lia|]. by constructor.
Qed.

Lemma script_strip_1 c A B n : script (c :: A) (c :: B) n -> exists m, (m <= n)%nat /\ script A B m.
Proof.
  intros H. inversion H as [|a A' B' n' H'|b A' B' n' H'|c' A' B' n' H']; subst.
  - destruct (script_drop _ _ _ _ H') as (m & Hm & Hs). exists m. split; [lia|done].
  - apply script_swap in H'. destruct (script_drop _ _ _ _ H') as (m & Hm & Hs). exists m. split; [lia|by apply script_swap].
  - by exists n.
Qed.

Lemma script_strip P A B n : script (P ++ A) (P ++ B) n -> exists m, (m <= n)%nat /\ script A B m.
Proof.
  revert n. induction P as [|c P IH]; intros n H; [by exists n|]. destruct (script_strip_1 _ _ _ _ H) as (m & Hm & Hs).
  destruct (IH m Hs) as (m' & Hm' & Hs'). exists m'. split; [lia|done].
Qed.

(** Common ends do not matter for the length of a shortest script. *)
Lemma script_strip_ends P S A B n :
  script (P ++ A ++ S) (P ++ B ++ S) n -> exists m, (m <= n)%nat /\ script A B m.
Proof.
  intros (m & Hm & H)%script_strip. apply script_rev in H. rewrite !reverse_app in H.
  apply script_strip in H as (m' & Hm' & H). apply script_rev in H. rewrite !reverse_involutive in H.
  exists m'. split; [lia|done].
Qed.

(** What a list of results says of the two sequences, and its length as a
    script. *)
Definition old_of (l : list DiffResult) : list T :=
  mbind (M := list) (fun r => match type r with added => [] | _ => [value r] end) l.
Definition new_of (l : list DiffResult) : list T :=
  mbind (M := list) (fun r => match type r with removed => [] | _ => [value r] end) l.
Definition changes (l : list DiffResult) : nat :=
  length (mbind (M := list) (fun r => match type r with common => [] | _ => [value r] end) l).

(** ** The edit graph *)

Section Graph.
Context (A B : list T).
Let M := len A.
Let N := len B.

(** A move to the right leaves out an element of [A], a move down takes one of
    [B]. *)
Inductive move := Right | Down | Diagonal.

(** Routes from the origin to a point, the last move first. *)
Inductive route : Z -> Z -> list move -> Prop :=
| route_nil : route 0 0 []
| route_right x y l : route x y l -> x < M -> route (x + 1) y (Right :: l)
| route_down x y l : route x y l -> y < N -> route x (y + 1) (Down :: l)
| route_diagonal x y l :
    route x y l -> x < M -> y < N -> at_index A x = at_index B y -> route (x + 1) (y + 1) (Diagonal :: l).

Fixpoint rights (l : list move) : Z := match l with [] => 0 | Right :: l => 1 + rights l | _ :: l => rights l end.
Fixpoint downs (l : list move) : Z := match l with [] => 0 | Down :: l => 1 + downs l | _ :: l => downs l end.

Lemma route_grid x y l :
  route x y l -> 0 <= x <= M /\ 0 <= y <= N /\ x - y = rights l - downs l /\ 0 <= rights l /\ 0 <= downs l.
Proof.
  unfold M, N. pose proof (len_nonneg A). pose proof (len_nonneg B). induction 1; cbn [rights downs]; lia.
Qed.

(** A script is a route to the end. *)
Lemma script_route A' B' n PA PB l :
  script A' B' n -> A = PA ++ A' -> B = PB ++ B' -> route (len PA) (len PB) l ->
  exists l', route M N l' /\ rights l' + downs l' = rights l + downs l + Z.of_nat n.
Proof.
  intros H. revert PA PB l. induction H as [|a A' B' n H IH|b A' B' n H IH|c A' B' n H IH]; intros PA PB l EA EB Hr.
  - exists l. rewrite app_nil_r in EA, EB. subst PA PB. split; [done|lia].
  - destruct (IH (PA ++ [a]) PB (Right :: l)) as (l' & Hl & E).
    + by rewrite <- app_assoc.
    + done.
    + rewrite len_app. change (len [a]) with 1. constructor; [done|]. unfold M. rewrite EA, len_app, len_cons.
      pose proof (len_nonneg A'). lia.
    + exists l'. split; [done|]. cbn [rights downs] in E. lia.
  - destruct (IH PA (PB ++ [b]) (Down :: l)) as (l' & Hl & E).
    + done.
    + by rewrite <- app_assoc.
    + rewrite len_app. change (len [b]) with 1. constructor; [done|]. unfold N. rewrite EB, len_app, len_cons.
      pose proof (len_nonneg B'). lia.
    + exists l'. split; [done|]. cbn [rights downs] in E. lia.
  - destruct (IH (PA ++ [c]) (PB ++ [c]) (Diagonal :: l)) as (l' & Hl & E).
    + by rewrite <- app_assoc.
    + by rewrite <- app_assoc.
    + rewrite !len_app. change (len [c]) with 1. pose proof (len_nonneg A'). pose proof (len_nonneg B').
      constructor; [done|unfold M; rewrite EA, len_app, len_cons; lia|unfold N; rewrite EB, len_app, len_cons; lia|].
      by rewrite EA, EB, !at_index_mid.
    + exists l'. split; [done|]. cbn [rights downs] in E. lia.
Qed.

(** ** Farthest points *)

Context (Hsize : 1 <= N <= M).
Let delta := M - N.

(** A point on diagonal [k] from which the diagonal cannot be followed. *)
Definition stuck (k y : Z) : Prop :=
  ~ (y + k < M /\ y < N /\ at_index A (y + k) = at_index B y).

(** [Y k] is the farthest [y] on diagonal [k] among the routes that leave the
    band of the first diagonals by at most [p]. *)
Definition farthest (p : Z) (Y : Z -> Z) : Prop :=
  forall x y l, route x y l -> downs l <= p -> rights l <= delta + p -> y <= Y (x - y).

(** What one round does to the farthest points. *)
Record step_up (p : Z) (Y Y' : Z -> Z) : Prop := {
  su_stuck k : - p <= k <= delta + p -> 0 <= Y' k /\ stuck k (Y' k);
  su_right_low k : - p < k <= delta -> Y' (k - 1) <= Y' k;
  su_down_low k : 1 <= p -> - p <= k < delta -> Y (k + 1) + 1 <= Y' k;
  su_right_high k : delta < k <= delta + p -> Y (k - 1) <= Y' k;
  su_down_high k : delta <= k < delta + p -> Y' (k + 1) + 1 <= Y' k
}.

Lemma farthest_step p Y Y' : 0 <= p -> farthest (p - 1) Y -> step_up p Y Y' -> farthest p Y'.
Proof.
  intros Hp Hf Hs x y l Hr. induction Hr as [|x y l Hr IH Hx|x y l Hr IH Hy|x y l Hr IH Hx Hy Hd]; intros Hdown Hright.
  - apply (su_stuck _ _ _ Hs). unfold delta. lia.
  - apply route_grid in Hr as Hg. cbn [rights downs] in *. set (k := x + 1 - y).
    destruct (decide (k <= delta)) as [Hk|Hk].
    + etransitivity; [apply IH; lia|]. replace (x - y) with (k - 1) by (unfold k; lia). apply (su_right_low _ _ _ Hs). unfold k in *. lia.
    + etransitivity; [apply (Hf x y l Hr); unfold k in *; lia|].
      replace (x - y) with (k - 1) by (unfold k; lia). apply (su_right_high _ _ _ Hs). unfold k in *. lia.
  - apply route_grid in Hr as Hg. cbn [rights downs] in *. set (k := x - (y + 1)).
    destruct (decide (k < delta)) as [Hk|Hk].
    + assert (y <= Y (x - y)) by (apply (Hf x y l Hr); unfold k in *; lia).
      assert (Y (k + 1) + 1 <= Y' k) by (apply (su_down_low _ _ _ Hs); unfold k in *; lia).
      replace (k + 1) with (x - y) in * by (unfold k; lia). lia.
    + assert (y <= Y' (x - y)) by (apply IH; lia).
      assert (Y' (k + 1) + 1 <= Y' k) by (apply (su_down_high _ _ _ Hs); unfold k in *; lia).
      replace (k + 1) with (x - y) in * by (unfold k; lia). lia.
  - apply route_grid in Hr as Hg. cbn [rights downs] in *. replace (x + 1 - (y + 1)) with (x - y) by lia.
    assert (Hy' : y <= Y' (x - y)) by (apply IH; lia).
    destruct (decide (Y' (x - y) = y)) as [E|]; [|lia]. exfalso.
    destruct (su_stuck _ _ _ Hs (x - y)) as [_ Hst]; [lia|]. apply Hst. rewrite E. replace (y + (x - y)) with x by lia. done.
Qed.

(** The order of the farthest points after a round. *)
Record ordered (p : Z) (Y : Z -> Z) : Prop := {
  or_low k : - p <= k < delta -> Y k <= Y (k + 1);
  or_high k : delta < k <= delta + p -> Y k + 1 <= Y (k - 1)
}.

Lemma step_ordered p Y Y' : step_up p Y Y' -> ordered p Y'.
Proof.
  intros Hs. split; intros k Hk.
  - replace k with (k + 1 - 1) at 1 by lia. apply (su_right_low _ _ _ Hs). lia.
  - replace k with (k - 1 + 1) at 1 by lia. apply (su_down_high _ _ _ Hs). lia.
Qed.

Lemma ordered_low p Y k : ordered p Y -> - p <= k <= delta -> Y k <= Y delta.
Proof.
  intros Ho Hk. replace k with (delta - Z.of_nat (Z.to_nat (delta - k))) by lia.
  assert (H : forall n, - p <= delta - Z.of_nat n -> Y (delta - Z.of_nat n) <= Y delta).
  { induction n as [|n IH]; intros Hn; [by rewrite Z.sub_0_r|]. etransitivity; [|apply IH; lia].
    replace (delta - Z.of_nat n) with (delta - Z.of_nat (S n) + 1) by lia. apply (or_low _ _ Ho). lia. }
  apply H. lia.
Qed.

Lemma ordered_high p Y k : ordered p Y -> delta <= k <= delta + p -> Y k + (k - delta) <= Y delta.
Proof.
  intros Ho Hk. replace k with (delta + Z.of_nat (Z.to_nat (k - delta))) by lia.
  assert (H : forall n, Z.of_nat n <= p -> Y (delta + Z.of_nat n) + Z.of_nat n <= Y delta).
  { induction n as [|n IH]; intros Hn; [by rewrite !Z.add_0_r|]. etransitivity; [|apply IH; lia].
    pose proof (or_high _ _ Ho (delta + Z.of_nat (S n))). replace (delta + Z.of_nat (S n) - 1) with (delta + Z.of_nat n) in * by lia. lia. }
  specialize (H (Z.to_nat (k - delta))). lia.
Qed.
End Graph.

(** ** The routes in the typed array *)

Section Routes.
Context (A B : list T).
Let M := len A.
Let N := len B.
Let delta := M - N.
Let half := M * N + (M + N + 1) + 1.
Context (Hsize : 1 <= N <= M) (Hroom : half < 2 ^ 32).

Definition code (m : move) : Z := match m with Right => ADDED | Down => REMOVED | Diagonal => COMMON end.

(** Position [id] of the array continues with the moves [l], the last first. *)
Inductive chain (rs : list Z) : Z -> list move -> Prop :=
| chain_nil : at_index rs 0 = Some 0 -> at_index rs half = Some 0 -> chain rs 0 []
| chain_cons id prev m l :
    0 <= prev < id -> at_index rs id = Some prev -> at_index rs (id + half) = Some (code m) -> chain rs prev l ->
    chain rs id (m :: l).

Definition store_ok (st : diff_state) : Prop :=
  len (routes st) = half * 2 /\ 0 <= ptr st < half
  /\ at_index (routes st) 0 = Some 0 /\ at_index (routes st) half = Some 0.

(** What was written stays. *)
Definition extends (st st' : diff_state) : Prop :=
  ptr st <= ptr st'
  /\ forall i, 0 <= i <= ptr st ->
     at_index (routes st') i = at_index (routes st) i /\ at_index (routes st') (i + half) = at_index (routes st) (i + half).

Lemma extends_refl st : extends st st.
Proof. split; [done|]. by intros. Qed.

Lemma extends_trans st1 st2 st3 : extends st1 st2 -> extends st2 st3 -> extends st1 st3.
Proof.
  intros [H1 E1] [H2 E2]. split; [lia|]. intros i Hi. destruct (E1 i Hi) as [<- <-]. apply E2. lia.
Qed.

Lemma chain_extends st st' id l : extends st st' -> id <= ptr st -> chain (routes st) id l -> chain (routes st') id l.
Proof.
  intros [Hp He] Hid Hc. induction Hc as [H1 H2|id prev m l Hprev H1 H2 Hc IH].
  - destruct (He 0) as [E1 E2]; [lia|]. rewrite Z.add_0_l in E2. constructor; congruence.
  - destruct (He id) as [E1 E2]; [lia|]. apply (chain_cons _ id prev); [done|congruence|congruence|]. apply IH. lia.
Qed.

Lemma set_route_eq i v rs : 0 <= i < len rs -> 0 <= v < 2 ^ 32 -> at_index (set_route i v rs) i = Some v.
Proof.
  intros Hi Hv. unfold set_route, at_index, len in *. destruct (Z.leb_spec 0 i), (Z.ltb_spec i (Z.of_nat (length rs))); try lia.
  cbn [andb]. destruct (Z.ltb_spec i 0); [lia|]. rewrite list_lookup_insert_eq by lia. by rewrite to_uint32_small.
Qed.

Lemma set_route_ne i j v rs : i <> j -> at_index (set_route i v rs) j = at_index rs j.
Proof.
  intros Hij. unfold set_route, at_index. destruct ((0 <=? i) && (i <? len rs)) eqn:E; [|done].
  destruct (Z.ltb_spec j 0); [done|]. apply andb_prop in E as [E1%Z.leb_le _]. rewrite list_lookup_insert_ne; [done|]. lia.
Qed.

Lemma set_route_len i v rs : len (set_route i v rs) = len rs.
Proof. unfold set_route. case_if; [|done]. unfold len. by rewrite length_insert. Qed.

Lemma new_route_spec st prev m l :
  store_ok st -> ptr st + 1 < half -> 0 <= prev <= ptr st -> chain (routes st) prev l ->
  let st' := new_route A B st prev (code m) in
  store_ok st' /\ extends st st' /\ ptr st' = ptr st + 1 /\ fps st' = fps st /\ chain (routes st') (ptr st') (m :: l).
Proof.
  intros (Hlen & Hptr & H0 & Hh) Hroom' Hprev Hc st'. set (i := ptr st + 1).
  assert (Hcode : 0 <= code m < 2 ^ 32) by by destruct m.
  assert (Eold : forall j, j <> i -> j <> i + half -> at_index (routes st') j = at_index (routes st) j).
  { intros j Hj1 Hj2. unfold st', new_route. cbn [routes]. by rewrite !set_route_ne by (fold i half M N; lia). }
  assert (E1 : at_index (routes st') i = Some prev).
  { unfold st', new_route. cbn [routes]. fold i. rewrite set_route_ne by (fold M N; unfold half in *; lia).
    apply set_route_eq; unfold i; lia. }
  assert (E2 : at_index (routes st') (i + half) = Some (code m)).
  { unfold st', new_route. cbn [routes]. fold i M N half. apply set_route_eq; [rewrite set_route_len; unfold i; lia|done]. }
  assert (Hex : extends st st').
  { split; [unfold st', new_route; cbn; lia|]. intros j Hj. split; apply Eold; unfold i; lia. }
  split; [|split; [done|split; [done|split; [done|]]]].
  - unfold store_ok. rewrite !Eold by (unfold i; lia). split; [|split; [unfold st', new_route; cbn; lia|done]].
    unfold st', new_route. cbn [routes]. by rewrite !set_route_len.
  - apply (chain_cons _ _ prev); [unfold st', new_route; cbn; lia|done|done|]. apply (chain_extends st); [done|lia|done].
Qed.

(** ** Points *)

(** A farthest point on diagonal [k]: the route to it is in the array, and it
    leaves the band by at most [p]. *)
Definition good (st : diff_state) (k : Z) (f : FarthestPoint) (p : Z) : Prop :=
  exists l, route A B (fp_y f + k) (fp_y f) l /\ chain (routes st) (fp_id f) l /\ 0 <= fp_id f <= ptr st
    /\ downs l <= p /\ rights l <= delta + p.

Lemma good_extends st st' k f p : extends st st' -> good st k f p -> good st' k f p.
Proof.
  intros He (l & Hr & Hc & Hid & Hp). exists l. split; [done|]. split; [apply (chain_extends st); [done|lia|done]|].
  destruct He. split; [lia|done].
Qed.

Lemma good_grid st k f p : good st k f p -> 0 <= fp_y f + k <= M /\ 0 <= fp_y f <= N.
Proof. intros (l & Hr & _). apply route_grid in Hr. unfold M, N. lia. Qed.

Lemma snake_loop_spec fuel k st f p :
  store_ok st -> good st k f p -> N - fp_y f < Z.of_nat fuel -> ptr st + (Z.min N (M - k) - fp_y f) < half ->
  exists st' f', snake_loop A B fuel k st f = (st', f') /\ store_ok st' /\ extends st st' /\ fps st' = fps st
    /\ good st' k f' p /\ stuck A B k (fp_y f') /\ fp_y f <= fp_y f' /\ ptr st' = ptr st + (fp_y f' - fp_y f).
Proof.
  revert st f. induction fuel as [|fuel IH]; intros st f Hst Hg Hfuel Hcap.
  { apply good_grid in Hg. lia. }
  cbn [snake_loop]. fold M N.
  destruct ((fp_y f + k <? M) && (fp_y f <? N) && same (at_index A (fp_y f + k)) (at_index B (fp_y f))) eqn:E.
  - apply andb_prop in E as [[E1%Z.ltb_lt E2%Z.ltb_lt]%andb_prop E3%bool_decide_eq_true].
    destruct Hg as (l & Hr & Hc & Hid & Hd & Hri).
    destruct (new_route_spec st (fp_id f) Diagonal l) as (Hst1 & Hex1 & Hp1 & Hf1 & Hc1); [done|lia|done|done|].
    set (st1 := new_route A B st (fp_id f) COMMON) in *. change (code Diagonal) with COMMON in *. fold st1 in Hst1, Hex1, Hp1, Hf1, Hc1.
    destruct (IH st1 (FP (fp_y f + 1) (ptr st1))) as (st2 & f2 & E4 & Hst2 & Hex2 & Hf2 & Hg2 & Hs2 & Hy2 & Hp2).
    + done.
    + exists (Diagonal :: l). cbn [fp_y fp_id]. split; [|split; [done|split; [|done]]].
      * replace (fp_y f + 1 + k) with (fp_y f + k + 1) by lia. by constructor.
      * destruct Hst1. lia.
    + cbn. lia.
    + cbn. lia.
    + exists st2, f2. split; [done|]. split; [done|]. split; [by eapply extends_trans|]. split; [congruence|].
      split; [done|]. split; [done|]. cbn in *. split; lia.
  - exists st, f. split; [done|]. split; [done|]. split; [apply extends_refl|]. split; [done|]. split; [done|].
    split; [|split; lia]. intros (H1 & H2 & H3). unfold M, N, same in *.
    apply not_true_iff_false in E. apply E. rewrite !andb_true_iff, !Z.ltb_lt, bool_decide_eq_true. done.
Qed.

(** ** Space in the array

    On diagonal [k] each value of [y] gets at most one position, so the points
    of the edit graph bound the positions used. *)

Fixpoint sum_from (f : Z -> Z) (a : Z) (n : nat) : Z :=
  match n with O => 0 | S n => f a + sum_from f (a + 1) n end.

Lemma sum_le f g a n : (forall k, a <= k < a + Z.of_nat n -> f k <= g k) -> sum_from f a n <= sum_from g a n.
Proof.
  revert a. induction n as [|n IH]; intros a H; cbn; [done|]. pose proof (H a ltac:(lia)).
  specialize (IH (a + 1)). assert (sum_from f (a + 1) n <= sum_from g (a + 1) n) by (apply IH; intros k Hk; apply H; lia). lia.
Qed.

Lemma sum_ext f g a n : (forall k, a <= k < a + Z.of_nat n -> f k = g k) -> sum_from f a n = sum_from g a n.
Proof. intros H. apply Z.le_antisymm; apply sum_le; intros k Hk; rewrite H by done; lia. Qed.

Lemma sum_update f g a n k :
  a <= k < a + Z.of_nat n -> (forall j, j <> k -> g j = f j) -> sum_from g a n = sum_from f a n - f k + g k.
Proof.
  revert a. induction n as [|n IH]; intros a Hk H; [lia|]. cbn. destruct (decide (a = k)) as [->|Hne].
  - rewrite (sum_ext g f) by (intros j Hj; apply H; lia). lia.
  - rewrite H, IH by (done || lia). lia.
Qed.

Lemma sum_app f a n m : sum_from f a (n + m) = sum_from f a n + sum_from f (a + Z.of_nat n) m.
Proof.
  revert a. induction n as [|n IH]; intros a; cbn [sum_from Nat.add]; [by rewrite Z.add_0_r|].
  rewrite IH. replace (a + 1 + Z.of_nat n) with (a + Z.of_nat (S n)) by lia. lia.
Qed.

Lemma sum_linear_up c a n : 2 * sum_from (fun k => c + k) a n = Z.of_nat n * (2 * (c + a) + Z.of_nat n - 1).
Proof. revert a. induction n as [|n IH]; intros a; [done|]. cbn [sum_from]. rewrite Z.mul_add_distr_l, IH. lia. Qed.

Lemma sum_linear_down c a n : 2 * sum_from (fun k => c - k) a n = Z.of_nat n * (2 * (c - a) - Z.of_nat n + 1).
Proof. revert a. induction n as [|n IH]; intros a; [done|]. cbn [sum_from]. rewrite Z.mul_add_distr_l, IH. lia. Qed.

Lemma sum_const c a n : sum_from (fun _ => c) a n = Z.of_nat n * c.
Proof. revert a. induction n as [|n IH]; intros a; [done|]. cbn [sum_from]. rewrite IH. lia. Qed.

(** The least [y] on a diagonal, and the number of values up to [Y k]. *)
Definition least (k : Z) : Z := Z.max 0 (- k).
Definition most (k : Z) : Z := Z.min N (M - k).
Definition used_at (Y : Z -> Z) (k : Z) : Z := if Y k <? 0 then 0 else Y k - least k + 1.
Definition used (Y : Z -> Z) : Z := sum_from (used_at Y) (- N) (Z.to_nat (M + N + 1)).

Lemma points_total : sum_from (fun k => most k - least k + 1) (- N) (Z.to_nat (M + N + 1)) = (M + 1) * (N + 1).
Proof.
  replace (Z.to_nat (M + N + 1)) with (Z.to_nat N + (Z.to_nat (delta + 1) + Z.to_nat N))%nat by (unfold delta; lia).
  rewrite !sum_app.
  rewrite (sum_ext _ (fun k => (N + 1) + k)) by (intros k Hk; unfold most, least; lia).
  rewrite (sum_ext _ (fun k => N + 1) (- N + _)) by (intros k Hk; unfold most, least, delta in *; lia).
  rewrite (sum_ext _ (fun k => (M + 1) - k) (- N + _ + _)) by (intros k Hk; unfold most, least, delta in *; lia).
  pose proof (sum_linear_up (N + 1) (- N) (Z.to_nat N)) as H1.
  pose proof (sum_linear_down (M + 1) (- N + Z.of_nat (Z.to_nat N) + Z.of_nat (Z.to_nat (delta + 1))) (Z.to_nat N)) as H2.
  rewrite sum_const. rewrite !Z2Nat.id in * by (unfold delta; lia). unfold delta in *. nia.
Qed.

Definition within (Y : Z -> Z) : Prop := forall k, Y k < 0 \/ least k <= Y k <= most k.

Lemma used_at_nonneg Y k : within Y -> 0 <= used_at Y k.
Proof. intros Hw. unfold used_at. destruct (Z.ltb_spec (Y k) 0); [done|]. destruct (Hw k); lia. Qed.

Lemma used_nonneg Y : within Y -> 0 <= used Y.
Proof.
  intros Hw. unfold used. transitivity (sum_from (fun _ => 0) (- N) (Z.to_nat (M + N + 1))); [by rewrite sum_const, Z.mul_0_r|].
  apply sum_le. intros k _. by apply used_at_nonneg.
Qed.

Lemma used_le Y : within Y -> used Y <= (M + 1) * (N + 1).
Proof.
  intros Hw. rewrite <- points_total. apply sum_le. intros k Hk. unfold used_at. destruct (Z.ltb_spec (Y k) 0).
  - unfold most, least. lia.
  - destruct (Hw k); lia.
Qed.

Definition upd (Y : Z -> Z) (k v : Z) : Z -> Z := fun j => if decide (j = k) then v else Y j.

Lemma upd_eq Y k v : upd Y k v k = v.
Proof. unfold upd. by rewrite decide_True. Qed.

Lemma upd_ne Y k v j : j <> k -> upd Y k v j = Y j.
Proof. intros H. unfold upd. by rewrite decide_False. Qed.

Lemma used_upd Y k v : - N <= k <= M -> used (upd Y k v) = used Y - used_at Y k + used_at (upd Y k v) k.
Proof. intros Hk. apply sum_update; [lia|]. intros j Hj. unfold used_at. by rewrite upd_ne. Qed.

Lemma used_ext Y Y' : (forall k, Y k = Y' k) -> used Y = used Y'.
Proof. intros H. apply sum_ext. intros k _. unfold used_at. by rewrite H. Qed.

Lemma used_room Y k v :
  within Y -> - N <= k <= M -> Y k < v -> least k <= v <= most k ->
  used Y + (most k - v + 1) <= (M + 1) * (N + 1)
  /\ forall v', v <= v' -> used Y + (v' - v) + 1 <= used (upd Y k v').
Proof.
  intros Hw Hk Hlt Hv. assert (0 <= least k) by (unfold least; lia). assert (Hu : used_at Y k <= v - least k).
  { unfold used_at. destruct (Z.ltb_spec (Y k) 0); lia. }
  assert (Hup : forall v', v <= v' -> used Y + (v' - v) + 1 <= used (upd Y k v')).
  { intros v' Hv'. rewrite used_upd by done. unfold used_at at 2. rewrite upd_eq. destruct (Z.ltb_spec v' 0); lia. }
  split; [|done]. specialize (Hup (most k) ltac:(lia)). assert (used (upd Y k (most k)) <= (M + 1) * (N + 1)); [|lia].
  apply used_le. intros j. unfold upd. destruct (decide (j = k)) as [->|]; [|apply Hw]. right. lia.
Qed.

(** ** One visit of a diagonal *)

Definition Yof (st : diff_state) (k : Z) : Z := match fps st !! (k + N) with Some f => fp_y f | None => -1 end.

Definition points_ok (st : diff_state) : Prop :=
  (forall k, is_Some (fps st !! (k + N)) <-> - N <= k <= M)
  /\ (forall k f, fps st !! (k + N) = Some f -> fp_y f = -1 \/ exists p, good st k f p).

(** There is room in the array for every point that is not used yet. *)
Definition space (st : diff_state) : Prop :=
  ptr st + 1 <= used (Yof st) \/ (ptr st = 0 /\ forall k, Yof st k < 0).

Definition ready (st : diff_state) : Prop := store_ok st /\ points_ok st /\ space st.

Lemma Yof_range st k : points_ok st -> Yof st k = -1 \/ (0 <= Yof st k <= N /\ 0 <= Yof st k + k <= M).
Proof.
  intros [_ Hp]. unfold Yof. destruct (fps st !! (k + N)) as [f|] eqn:E; [|by left].
  destruct (Hp k f E) as [|[p Hg%good_grid]]; [by left|right; lia].
Qed.

Lemma Yof_within st : points_ok st -> within (Yof st).
Proof. intros H k. unfold least, most. destruct (Yof_range st k H); lia. Qed.

(** The points a visit can come from. *)
Definition from_left (st : diff_state) (k p : Z) : Prop :=
  exists f l, fps st !! (k - 1 + N) = Some f /\ route A B (fp_y f + (k - 1)) (fp_y f) l /\ chain (routes st) (fp_id f) l
    /\ 0 <= fp_id f <= ptr st /\ downs l <= p /\ rights l + 1 <= delta + p /\ fp_y f + k <= M.
Definition from_above (st : diff_state) (k p : Z) : Prop :=
  exists f l, fps st !! (k + 1 + N) = Some f /\ route A B (fp_y f + (k + 1)) (fp_y f) l /\ chain (routes st) (fp_id f) l
    /\ 0 <= fp_id f <= ptr st /\ downs l + 1 <= p /\ rights l <= delta + p /\ fp_y f + 1 <= N.

Lemma move_right st k p :
  store_ok st -> ptr st + 1 < half -> from_left st k p ->
  exists f, fps st !! (k - 1 + N) = Some f
    /\ let st1 := new_route A B st (fp_id f) ADDED in
       store_ok st1 /\ extends st st1 /\ fps st1 = fps st /\ ptr st1 = ptr st + 1
       /\ good st1 k (FP (fp_y f) (ptr st1)) p.
Proof.
  intros Hst Hcap (f & l & Ef & Hr & Hc & Hid & Hd & Hri & HM). exists f. split; [done|]. cbv zeta.
  destruct (new_route_spec st (fp_id f) Right l) as (H1 & H2 & H3 & H4 & H5); [done..|].
  change (code Right) with ADDED in *. split; [done|]. split; [done|]. split; [done|]. split; [done|].
  exists (Right :: l). cbn [fp_y fp_id rights downs]. split; [|split; [done|]].
  - replace (fp_y f + k) with (fp_y f + (k - 1) + 1) by lia. constructor; [done|]. unfold M in HM. lia.
  - split; [destruct H1; lia|]. lia.
Qed.

Lemma move_down st k p :
  store_ok st -> ptr st + 1 < half -> from_above st k p ->
  exists f, fps st !! (k + 1 + N) = Some f
    /\ let st1 := new_route A B st (fp_id f) REMOVED in
       store_ok st1 /\ extends st st1 /\ fps st1 = fps st /\ ptr st1 = ptr st + 1
       /\ good st1 k (FP (fp_y f + 1) (ptr st1)) p.
Proof.
  intros Hst Hcap (f & l & Ef & Hr & Hc & Hid & Hd & Hri & HN). exists f. split; [done|]. cbv zeta.
  destruct (new_route_spec st (fp_id f) Down l) as (H1 & H2 & H3 & H4 & H5); [done..|].
  change (code Down) with REMOVED in *. split; [done|]. split; [done|]. split; [done|]. split; [done|].
  exists (Down :: l). cbn [fp_y fp_id rights downs]. split; [|split; [done|]].
  - replace (fp_y f + 1 + k) with (fp_y f + (k + 1)) by lia. constructor; [done|]. unfold N in HN. lia.
  - split; [destruct H1; lia|]. lia.
Qed.

(** Where a visit starts: at the farther of the two neighbours, or at the
    origin. *)
Definition start_y (s d : Z) : Z := if d <? 0 then Z.max 0 s else Z.max s (d + 1).

Lemma createFP_spec st k p :
  ready st -> - N <= k <= M -> 0 <= p ->
  (0 <= Yof st (k - 1) -> from_left st k p) -> (0 <= Yof st (k + 1) -> from_above st k p) ->
  (Yof st (k - 1) < 0 -> Yof st (k + 1) < 0 -> k = 0 /\ 0 <= delta) -> (k = M -> 0 <= Yof st (k - 1)) ->
  ptr st + 1 < half ->
  exists st1 f1, createFP A B st (fps st !! (k - 1 + N)) (fps st !! (k + 1 + N)) k = Ok (st1, f1)
    /\ store_ok st1 /\ extends st st1 /\ fps st1 = fps st /\ good st1 k f1 p
    /\ fp_y f1 = start_y (Yof st (k - 1)) (Yof st (k + 1))
    /\ ptr st <= ptr st1 <= ptr st + 1 /\ ((forall j, Yof st j < 0) -> ptr st1 = ptr st).
Proof.
  intros (Hst & Hpts & Hsp) Hk Hp0 HL HA H0 HM Hcap. unfold createFP, start_y. fold M N.
  assert (Hdown : is_start (fps st !! (k + 1 + N)) = true <-> Yof st (k + 1) < 0 /\ k < M).
  { pose proof (Yof_range st (k + 1) Hpts) as Hr. unfold Yof in *. destruct Hpts as [Hdom _]. specialize (Hdom (k + 1)).
    destruct (fps st !! (k + 1 + N)) as [f|]; cbn [is_start].
    - rewrite Z.eqb_eq. split; [intros E; split; [lia|]|lia]. assert (- N <= k + 1 <= M) by (apply Hdom; eauto). lia.
    - split; [done|]. intros [_ Hlt]. exfalso. destruct Hdom as [_ Hd]. destruct Hd as [? ?]; [lia|done]. }
  assert (Hslide : is_start (fps st !! (k - 1 + N)) = true <-> Yof st (k - 1) < 0 /\ - N < k).
  { pose proof (Yof_range st (k - 1) Hpts) as Hr. unfold Yof in *. destruct Hpts as [Hdom _]. specialize (Hdom (k - 1)).
    destruct (fps st !! (k - 1 + N)) as [f|]; cbn [is_start].
    - rewrite Z.eqb_eq. split; [intros E; split; [lia|]|lia]. assert (- N <= k - 1 <= M) by (apply Hdom; eauto). lia.
    - split; [done|]. intros [_ Hlt]. exfalso. destruct Hdom as [_ Hd]. destruct Hd as [? ?]; [lia|done]. }
  assert (HyL : forall f, fps st !! (k - 1 + N) = Some f -> fp_y f = Yof st (k - 1)) by (intros f E; unfold Yof; by rewrite E).
  assert (HyA : forall f, fps st !! (k + 1 + N) = Some f -> fp_y f = Yof st (k + 1)) by (intros f E; unfold Yof; by rewrite E).
  destruct (decide (Yof st (k - 1) < 0 /\ Yof st (k + 1) < 0)) as [[Hs Hd]|Hne].
  - destruct (H0 Hs Hd) as [-> Hdelta]. rewrite (proj2 Hslide), (proj2 Hdown) by lia. cbn [andb].
    exists st, (FP 0 0). split; [done|]. split; [done|]. split; [apply extends_refl|]. split; [done|].
    split; [|cbn [fp_y]; destruct (Z.ltb_spec (Yof st (0 + 1)) 0); lia].
    exists []. cbn [fp_y fp_id rights downs]. split; [constructor|]. destruct Hst as (_ & Hptr & Ha & Hb).
    split; [by constructor|]. lia.
  - assert (Eb : is_start (fps st !! (k - 1 + N)) && is_start (fps st !! (k + 1 + N)) = false).
    { apply not_true_iff_false. rewrite andb_true_iff, Hslide, Hdown. lia. }
    rewrite Eb. assert (Hall : (forall j, Yof st j < 0) -> False) by (intros Hj; apply Hne; auto).
    match goal with |- context [if ?c then _ else _] => destruct c eqn:Ec end.
    + (* slide *)
      assert (Hs : 0 <= Yof st (k - 1)).
      { destruct (decide (0 <= Yof st (k - 1))); [done|]. exfalso. apply orb_prop in Ec as [[Ec|Ec%Z.eqb_eq]%orb_prop|Ec].
        - apply Hdown in Ec. lia.
        - apply HM in Ec. lia.
        - destruct (fps st !! (k - 1 + N)) as [s|] eqn:E1, (fps st !! (k + 1 + N)) as [d|] eqn:E2; try done.
          apply Z.ltb_lt in Ec. rewrite (HyL s), (HyA d) in Ec by done. pose proof (Yof_range st (k + 1) Hpts).
          pose proof (Yof_range st (k - 1) Hpts). lia. }
      destruct (move_right st k p) as (f & Ef & H1 & H2 & H3 & H4 & H5); [done|lia|auto|]. rewrite Ef.
      eexists _, _. split; [reflexivity|]. split; [done|]. split; [done|]. split; [done|]. split; [done|].
      split; [|split; [lia|by intros]]. cbn [fp_y]. rewrite (HyL f Ef).
      destruct (Z.ltb_spec (Yof st (k + 1)) 0); [lia|].
      apply orb_prop in Ec as [[Ec|Ec%Z.eqb_eq]%orb_prop|Ec].
      * apply Hdown in Ec. lia.
      * exfalso. subst k. destruct Hpts as [Hdom _]. specialize (Hdom (M + 1)). unfold Yof in *.
        destruct (fps st !! (M + 1 + N)); [|lia]. assert (- N <= M + 1 <= M) by (apply Hdom; eauto). lia.
      * rewrite Ef in Ec. destruct (fps st !! (k + 1 + N)) as [d|] eqn:E2; [|done]. apply Z.ltb_lt in Ec.
        rewrite (HyA d), (HyL f) in Ec by done. lia.
    + (* down *)
      apply orb_false_elim in Ec as [[Ec1 Ec2%Z.eqb_neq]%orb_false_elim Ec3].
      assert (Hd : 0 <= Yof st (k + 1)).
      { destruct (decide (0 <= Yof st (k + 1))); [done|]. exfalso. apply not_true_iff_false in Ec1. apply Ec1, Hdown. lia. }
      destruct (move_down st k p) as (f & Ef & H1 & H2 & H3 & H4 & H5); [done|lia|auto|]. rewrite Ef.
      eexists _, _. split; [reflexivity|]. split; [done|]. split; [done|]. split; [done|]. split; [done|].
      split; [|split; [lia|by intros]]. cbn [fp_y]. rewrite (HyA f Ef).
      destruct (Z.ltb_spec (Yof st (k + 1)) 0); [lia|].
      rewrite Ef in Ec3. destruct (fps st !! (k - 1 + N)) as [s|] eqn:E1.
      * apply Z.ltb_ge in Ec3. rewrite (HyL s), (HyA f) in Ec3 by done. lia.
      * unfold Yof at 2. rewrite E1. lia.
Qed.

Lemma start_y_bounds st k :
  points_ok st -> (0 <= Yof st (k - 1) -> Yof st (k - 1) + k <= M) -> (0 <= Yof st (k + 1) -> Yof st (k + 1) + 1 <= N) ->
  (Yof st (k - 1) < 0 -> Yof st (k + 1) < 0 -> k = 0) ->
  least k <= start_y (Yof st (k - 1)) (Yof st (k + 1)) <= most k
  /\ Yof st (k - 1) <= start_y (Yof st (k - 1)) (Yof st (k + 1))
  /\ (0 <= Yof st (k + 1) -> Yof st (k + 1) + 1 <= start_y (Yof st (k - 1)) (Yof st (k + 1))).
Proof.
  intros Hpts Hs Hd H0. unfold least, most, start_y.
  pose proof (Yof_range st (k - 1) Hpts). pose proof (Yof_range st (k + 1) Hpts).
  destruct (Z.ltb_spec (Yof st (k + 1)) 0); lia.
Qed.

(** The diagonal [k] gets a point at least as far as its neighbours allow; the
    other diagonals keep theirs. *)
Lemma visit_spec st k p :
  ready st -> - N <= k <= M -> 0 <= p ->
  (0 <= Yof st (k - 1) -> from_left st k p) -> (0 <= Yof st (k + 1) -> from_above st k p) ->
  (Yof st (k - 1) < 0 -> Yof st (k + 1) < 0 -> k = 0) -> (k = M -> 0 <= Yof st (k - 1)) ->
  Yof st k < start_y (Yof st (k - 1)) (Yof st (k + 1)) ->
  exists st' f, visit A B k st = Ok st' /\ ready st' /\ extends st st'
    /\ (forall j, j <> k -> fps st' !! (j + N) = fps st !! (j + N))
    /\ fps st' !! (k + N) = Some f /\ good st' k f p /\ stuck A B k (fp_y f)
    /\ start_y (Yof st (k - 1)) (Yof st (k + 1)) <= fp_y f.
Proof.
  intros Hready Hk Hp0 HL HA H0 HM Hlt. pose proof Hready as (Hst & Hpts & Hsp). set (v := start_y _ _) in *.
  destruct (start_y_bounds st k) as (Hv & _); [done| | |done|].
  { intros (f & l & E & _ & _ & _ & _ & _ & H)%HL. unfold Yof. by rewrite E. }
  { intros (f & l & E & _ & _ & _ & _ & _ & H)%HA. unfold Yof. by rewrite E. }
  fold v in Hv. pose proof (Yof_within st Hpts) as Hw. pose proof (used_nonneg _ Hw) as Hu0.
  destruct (used_room (Yof st) k v Hw Hk Hlt Hv) as [Hroom1 Hroom2].
  assert (Hhalf : half = (M + 1) * (N + 1) + 1) by (unfold half; lia).
  assert (Hcap : ptr st + (most k - v) + 1 < half) by (destruct Hsp as [|[-> _]]; lia).
  destruct (createFP_spec st k p) as (st1 & f1 & E1 & Hst1 & Hex1 & Hf1 & Hg1 & Hy1 & Hptr1 & Hfresh); try done.
  { intros ? ?. split; [by apply H0|]. unfold delta. lia. }
  { lia. }
  fold v in Hy1. assert (Hcap1 : ptr st1 + (most k - fp_y f1) < half) by lia.
  destruct (snake_loop_spec (S (length B)) k st1 f1 p) as (st2 & f2 & E2 & Hst2 & Hex2 & Hf2 & Hg2 & Hstuck & Hy2 & Hptr2).
  { done. } { done. } { apply good_grid in Hg1. unfold N, len. lia. } { done. }
  unfold visit, snake. fold M N. destruct (Z.ltb_spec k (- N)); [lia|]. destruct (Z.ltb_spec M k); [lia|]. cbn [orb].
  rewrite E1. cbn [rbind fst snd]. rewrite E2. cbn [rbind fst snd].
  set (st' := DS (routes st2) (ptr st2) _). exists st', f2. split; [done|].
  assert (Hex : extends st st') by (eapply extends_trans; [exact Hex1|exact Hex2]).
  assert (Hother : forall j, j <> k -> fps st' !! (j + N) = fps st !! (j + N)).
  { intros j Hj. unfold st'. cbn. rewrite lookup_insert_ne by lia. by rewrite Hf2, Hf1. }
  assert (Hthis : fps st' !! (k + N) = Some f2) by (unfold st'; cbn; apply lookup_insert_eq).
  assert (HY : forall j, Yof st' j = upd (Yof st) k (fp_y f2) j).
  { intros j. unfold upd, Yof. destruct (decide (j = k)) as [->|]; [by rewrite Hthis|]. by rewrite Hother. }
  split; [|split; [done|split; [done|split; [done|split; [exact Hg2|split; [done|lia]]]]]].
  split; [exact Hst2|]. split; [split|].
  - intros j. destruct (decide (j = k)) as [->|]; [rewrite Hthis; split; [done|eauto]|]. rewrite Hother by done. apply Hpts.
  - intros j f. destruct (decide (j = k)) as [->|Hj].
    + rewrite Hthis. intros [= <-]. right. by exists p.
    + rewrite Hother by done. intros Ef. destruct Hpts as [_ Hpts]. destruct (Hpts j f Ef) as [|[q Hq]]; [by left|].
      right. exists q. by apply (good_extends st).
  - left. rewrite (used_ext _ _ HY). specialize (Hroom2 (fp_y f2) ltac:(lia)).
    assert (ptr st' = ptr st2) as -> by done. destruct Hsp as [Hsp|[Hsp Hall]]; [lia|]. rewrite Hfresh in * by done. lia.
Qed.

(** ** A round *)

(** A point of diagonal [k]. *)
Definition point (st : diff_state) (k p : Z) : Prop := exists f, fps st !! (k + N) = Some f /\ good st k f p.

Lemma point_Yof st k p : point st k p -> 0 <= Yof st k <= N /\ 0 <= Yof st k + k <= M.
Proof. intros (f & Ef & Hg%good_grid). unfold Yof. rewrite Ef. lia. Qed.

(** Before round [p]: the points of the round before, none of them at the end. *)
Record before (p : Z) (st : diff_state) : Prop := {
  be_ready : ready st;
  be_p : 0 <= p <= N;
  be_points k : 1 <= p -> - (p - 1) <= k <= delta + (p - 1) -> point st k (p - 1);
  be_none k : 0 <= Yof st k -> 1 <= p /\ - (p - 1) <= k <= delta + (p - 1);
  be_ordered : 1 <= p -> ordered A B (p - 1) (Yof st);
  be_open : 1 <= p -> p - 1 <= Yof st delta < N;
  be_farthest : farthest A B (p - 1) (Yof st)
}.

(** In round [p], with the diagonals [done] visited. *)
Record during (p : Z) (st0 st : diff_state) (done : Z -> Prop) : Prop := {
  du_ready : ready st;
  du_extends : extends st0 st;
  du_old j : ~ done j -> fps st !! (j + N) = fps st0 !! (j + N);
  du_new j : done j -> point st j p /\ stuck A B j (Yof st j)
}.

Lemma during_old p st0 st done j : during p st0 st done -> ~ done j -> Yof st j = Yof st0 j.
Proof. intros H Hj. unfold Yof. by rewrite (du_old _ _ _ _ H j Hj). Qed.

Lemma during_old_point p st0 st done j q : during p st0 st done -> ~ done j -> point st0 j q -> point st j q.
Proof.
  intros H Hj (f & Ef & Hg). exists f. rewrite (du_old _ _ _ _ H j Hj). split; [done|].
  apply (good_extends st0); [apply H|done].
Qed.

Lemma during_visit p st0 st done k :
  during p st0 st done -> ~ done k -> - N <= k <= M -> 0 <= p ->
  (0 <= Yof st (k - 1) -> from_left st k p) -> (0 <= Yof st (k + 1) -> from_above st k p) ->
  (Yof st (k - 1) < 0 -> Yof st (k + 1) < 0 -> k = 0) -> (k = M -> 0 <= Yof st (k - 1)) ->
  (0 <= Yof st0 k -> Yof st0 k < Yof st (k - 1) \/ (0 <= Yof st (k + 1) /\ Yof st0 k < Yof st (k + 1) + 1)) ->
  exists st', visit A B k st = Ok st' /\ during p st0 st' (fun j => done j \/ j = k)
    /\ (forall j, j <> k -> Yof st' j = Yof st j)
    /\ Yof st (k - 1) <= Yof st' k /\ (0 <= Yof st (k + 1) -> Yof st (k + 1) + 1 <= Yof st' k).
Proof.
  intros Hd Hk HkNM Hp HL HA H0 HM Hlt. pose proof (du_ready _ _ _ _ Hd) as Hready. pose proof Hready as (_ & Hpts & _).
  destruct (start_y_bounds st k) as (Hv & Hs & Hs'); [done| | |done|].
  { intros (f & l & E & _ & _ & _ & _ & _ & H)%HL. unfold Yof. by rewrite E. }
  { intros (f & l & E & _ & _ & _ & _ & _ & H)%HA. unfold Yof. by rewrite E. }
  destruct (visit_spec st k p) as (st' & f & E & Hready' & Hex & Hother & Hthis & Hg & Hstuck & Hy); try done.
  { rewrite (during_old _ _ _ _ k Hd Hk). unfold least in Hv.
    destruct (decide (0 <= Yof st0 k)); [destruct Hlt; lia|lia]. }
  assert (HY : forall j, j <> k -> Yof st' j = Yof st j) by (intros j Hj; unfold Yof; by rewrite Hother).
  assert (HYk : Yof st' k = fp_y f) by (unfold Yof; by rewrite Hthis).
  exists st'. split; [done|]. split; [|split; [done|rewrite HYk; split; [lia|intros; lia]]]. split.
  - done.
  - eapply extends_trans; [apply (du_extends _ _ _ _ Hd)|done].
  - intros j Hj. rewrite Hother by tauto. apply (du_old _ _ _ _ Hd). tauto.
  - intros j [Hj| ->]; [|split; [by exists f|by rewrite HYk]]. assert (j <> k) by (intros ->; done).
    destruct (du_new _ _ _ _ Hd j Hj) as [(g & Eg & Hgg) Hst]. split; [|by rewrite HY].
    exists g. rewrite Hother by done. split; [done|]. by apply (good_extends st).
Qed.

(** Neighbours as starting points. *)
Lemma left_new st k p : point st (k - 1) p -> k <= delta -> from_left st k p.
Proof.
  intros (f & Ef & l & Hr & Hc & Hid & Hd & Hri) Hk. exists f, l. apply route_grid in Hr as Hg.
  split; [done|]. split; [done|]. split; [done|]. split; [done|]. unfold delta, M, N in *. lia.
Qed.

Lemma above_new st k p : point st (k + 1) p -> delta <= k -> from_above st k p.
Proof.
  intros (f & Ef & l & Hr & Hc & Hid & Hd & Hri) Hk. exists f, l. apply route_grid in Hr as Hg.
  split; [done|]. split; [done|]. split; [done|]. split; [done|]. unfold delta, M, N in *. lia.
Qed.

Lemma left_old st k p : point st (k - 1) (p - 1) -> Yof st (k - 1) + k <= M -> from_left st k p.
Proof.
  intros (f & Ef & l & Hr & Hc & Hid & Hd & Hri) Hk. exists f, l. unfold Yof in Hk. rewrite Ef in Hk.
  split; [done|]. split; [done|]. split; [done|]. split; [done|]. lia.
Qed.

Lemma above_old st k p : point st (k + 1) (p - 1) -> Yof st (k + 1) + 1 <= N -> from_above st k p.
Proof.
  intros (f & Ef & l & Hr & Hc & Hid & Hd & Hri) Hk. exists f, l. unfold Yof in Hk. rewrite Ef in Hk.
  split; [done|]. split; [done|]. split; [done|]. split; [done|]. lia.
Qed.

(** The diagonals below [delta], in ascending order. *)
Definition low (p : Z) (st0 st : diff_state) (k : Z) : Prop :=
  during p st0 st (fun j => - p <= j < k)
  /\ (forall j, - p < j < k -> Yof st (j - 1) <= Yof st j)
  /\ (forall j, 1 <= p -> - p <= j < k -> Yof st0 (j + 1) + 1 <= Yof st j).

Lemma low_step p st0 st k :
  before p st0 -> low p st0 st k -> - p <= k < delta ->
  exists st', visit A B k st = Ok st' /\ low p st0 st' (k + 1).
Proof.
  intros Hb (Hd & H1 & H2) Hk. pose proof (be_p _ _ Hb) as Hp.
  assert (Hup : Yof st (k + 1) = Yof st0 (k + 1)) by (apply (during_old _ _ _ _ _ Hd); lia).
  assert (Hold : 1 <= p -> point st0 (k + 1) (p - 1)) by (intros; apply (be_points _ _ Hb); lia).
  assert (Hold0 : 1 <= p -> 0 <= Yof st0 (k + 1)) by (intros H; apply Hold, point_Yof in H; lia).
  assert (Hprev : - p < k -> point st (k - 1) p) by (intros; apply (du_new _ _ _ _ Hd); lia).
  assert (Hprev0 : ~ - p < k -> Yof st (k - 1) < 0).
  { intros Hnk. destruct (decide (0 <= Yof st (k - 1))) as [Hge|]; [|lia].
    rewrite (during_old _ _ _ _ _ Hd) in Hge by lia. apply (be_none _ _ Hb) in Hge. lia. }
  destruct (during_visit p st0 st _ k Hd) as (st' & E & Hd' & HY & Hl & Ha).
  - lia.
  - unfold delta in Hk. lia.
  - lia.
  - intros Hs. apply left_new; [apply Hprev|]; lia.
  - intros Hs. assert (1 <= p) by (rewrite Hup in Hs; apply (be_none _ _ Hb) in Hs; lia).
    apply above_old; [apply (during_old_point _ _ _ _ _ _ Hd); [lia|auto]|]. rewrite Hup.
    pose proof (ordered_low A B (p - 1) (Yof st0) (k + 1) (be_ordered _ _ Hb ltac:(done))).
    pose proof (be_open _ _ Hb ltac:(done)). unfold delta, M, N in *. lia.
  - intros Hs Hd0. rewrite Hup in Hd0. destruct (decide (1 <= p)); [exfalso; specialize (Hold0 ltac:(done)); lia|].
    destruct (decide (- p < k)) as [Hlt|]; [apply Hprev, point_Yof in Hlt; lia|lia].
  - intros ->. unfold delta in Hk. lia.
  - intros Hge. pose proof (be_none _ _ Hb k Hge) as [Hp1 Hr]. right. rewrite Hup. split; [auto|].
    pose proof (or_low A B _ _ (be_ordered _ _ Hb Hp1) k). unfold delta, M, N in *. lia.
  - exists st'. split; [done|]. split; [|split].
    + destruct Hd' as [D1 D2 D3 D4]. split; [done|done|intros j Hj; apply D3; lia|intros j Hj; apply D4; lia].
    + intros j Hj. destruct (decide (j = k)) as [->|]; [rewrite HY by lia; done|]. rewrite !HY by lia. apply H1. lia.
    + intros j Hp1 Hj. destruct (decide (j = k)) as [->|]; [rewrite <- Hup; apply Ha; rewrite Hup; auto|].
      rewrite HY by lia. apply H2; lia.
Qed.

Lemma low_loop p st0 n k st :
  before p st0 -> low p st0 st k -> - p <= k -> k + Z.of_nat n = delta ->
  exists st', visit_up A B n k st = Ok st' /\ low p st0 st' delta.
Proof.
  intros Hb. revert k st. induction n as [|n IH]; intros k st Hl Hk Hn; cbn [visit_up].
  - exists st. split; [done|]. by replace delta with k by lia.
  - destruct (low_step p st0 st k Hb Hl ltac:(lia)) as (st1 & -> & Hl1). cbn [rbind]. apply IH; [done|lia|lia].
Qed.

(** The diagonals above [delta], in descending order. *)
Definition high (p : Z) (st0 st : diff_state) (k : Z) : Prop :=
  during p st0 st (fun j => - p <= j < delta \/ k < j <= delta + p)
  /\ (forall j, - p < j < delta -> Yof st (j - 1) <= Yof st j)
  /\ (forall j, 1 <= p -> - p <= j < delta -> Yof st0 (j + 1) + 1 <= Yof st j)
  /\ (forall j, k < j < delta + p -> Yof st (j + 1) + 1 <= Yof st j)
  /\ (forall j, k < j <= delta + p -> Yof st0 (j - 1) <= Yof st j).

Lemma high_step p st0 st k :
  before p st0 -> high p st0 st k -> delta < k <= delta + p ->
  exists st', visit A B k st = Ok st' /\ high p st0 st' (k - 1).
Proof.
  intros Hb (Hd & H1 & H2 & H3 & H4) Hk. pose proof (be_p _ _ Hb) as Hp.
  pose proof (be_ordered _ _ Hb ltac:(lia)) as Hor. pose proof (be_open _ _ Hb ltac:(lia)) as Hopen.
  assert (Hdn : Yof st (k - 1) = Yof st0 (k - 1)) by (apply (during_old _ _ _ _ _ Hd); lia).
  assert (Hold : point st0 (k - 1) (p - 1)) by (apply (be_points _ _ Hb); lia).
  assert (Hold0 : 0 <= Yof st0 (k - 1)) by (apply point_Yof in Hold; lia).
  assert (Hnext : k < delta + p -> point st (k + 1) p) by (intros; apply (du_new _ _ _ _ Hd); lia).
  assert (Hnext0 : 0 <= Yof st (k + 1) -> k < delta + p).
  { intros Hge. destruct (decide (k < delta + p)) as [|Hnk]; [done|].
    rewrite (during_old _ _ _ _ _ Hd) in Hge by lia. apply (be_none _ _ Hb) in Hge. lia. }
  destruct (during_visit p st0 st _ k Hd) as (st' & E & Hd' & HY & Hl & Ha).
  - lia.
  - unfold delta in Hk. lia.
  - lia.
  - intros _. apply left_old; [apply (during_old_point _ _ _ _ _ _ Hd); [lia|done]|]. rewrite Hdn.
    pose proof (ordered_high A B (p - 1) (Yof st0) (k - 1) Hor). unfold delta, M, N in *. lia.
  - intros Hs. apply above_new; [auto|lia].
  - intros Hs. lia.
  - intros _. lia.
  - intros Hge. pose proof (be_none _ _ Hb k Hge) as [_ Hr]. left. rewrite Hdn.
    pose proof (or_high A B _ _ Hor k). unfold delta, M, N in *. lia.
  - exists st'. split; [done|]. split; [|split; [|split; [|split]]].
    + destruct Hd' as [D1 D2 D3 D4]. split; [done|done|intros j Hj; apply D3; lia|intros j Hj; apply D4; lia].
    + intros j Hj. rewrite !HY by lia. auto.
    + intros j Hp1 Hj. rewrite !HY by lia. auto.
    + intros j Hj. destruct (decide (j = k)) as [->|]; [|rewrite !HY by lia; apply H3; lia].
      rewrite (HY (k + 1)) by lia. apply Ha. destruct (point_Yof _ _ _ (Hnext ltac:(lia))). lia.
    + intros j Hj. destruct (decide (j = k)) as [->|]; [lia|]. rewrite HY by lia. apply H4. lia.
Qed.

Lemma high_loop p st0 n k st :
  before p st0 -> high p st0 st k -> k = delta + Z.of_nat n -> Z.of_nat n <= p ->
  exists st', visit_down A B n k st = Ok st' /\ high p st0 st' delta.
Proof.
  intros Hb. revert k st. induction n as [|n IH]; intros k st Hl Hk Hn; cbn [visit_down].
  - exists st. split; [done|]. by replace delta with k by lia.
  - destruct (high_step p st0 st k Hb Hl ltac:(lia)) as (st1 & -> & Hl1). cbn [rbind]. apply IH; [done|lia|lia].
Qed.

(** After round [p]. *)
Record after (p : Z) (st : diff_state) : Prop := {
  af_ready : ready st;
  af_points k : - p <= k <= delta + p -> point st k p;
  af_none k : 0 <= Yof st k -> - p <= k <= delta + p;
  af_ordered : ordered A B p (Yof st);
  af_far : p <= Yof st delta;
  af_farthest : farthest A B p (Yof st);
  af_least l : route A B M N l -> p <= downs l
}.

Lemma last_visit p st0 st :
  before p st0 -> high p st0 st delta ->
  exists st', visit A B delta st = Ok st' /\ during p st0 st' (fun j => - p <= j <= delta + p)
    /\ (1 <= p -> Yof st0 delta < Yof st' delta) /\ step_up A B p (Yof st0) (Yof st').
Proof.
  intros Hb (Hd & H1 & H2 & H3 & H4). pose proof (be_p _ _ Hb) as Hp.
  assert (Hdelta : 0 <= delta < M) by (unfold delta; lia).
  assert (Hprev : - p < delta -> point st (delta - 1) p) by (intros; apply (du_new _ _ _ _ Hd); lia).
  assert (Hprev0 : 0 <= Yof st (delta - 1) -> - p < delta).
  { intros Hge. destruct (decide (- p < delta)) as [|Hnk]; [done|].
    rewrite (during_old _ _ _ _ _ Hd) in Hge by lia. apply (be_none _ _ Hb) in Hge. lia. }
  assert (Hnext : 1 <= p -> point st (delta + 1) p) by (intros; apply (du_new _ _ _ _ Hd); lia).
  assert (Hnext0 : 0 <= Yof st (delta + 1) -> 1 <= p).
  { intros Hge. destruct (decide (1 <= p)) as [|Hnk]; [done|].
    rewrite (during_old _ _ _ _ _ Hd) in Hge by lia. apply (be_none _ _ Hb) in Hge. lia. }
  assert (Hlow : 1 <= p -> Yof st0 delta < Yof st (delta - 1)).
  { intros Hp1. specialize (H2 (delta - 1) Hp1 ltac:(lia)). replace (delta - 1 + 1) with delta in H2 by lia. lia. }
  destruct (during_visit p st0 st _ delta Hd) as (st' & E & Hd' & HY & Hl & Ha).
  - lia.
  - lia.
  - lia.
  - intros Hs. apply left_new; [auto|lia].
  - intros Hs. apply above_new; [auto|lia].
  - intros Hs Hd0. destruct (decide (- p < delta)) as [Hlt|]; [apply Hprev, point_Yof in Hlt; lia|lia].
  - lia.
  - intros Hge. left. apply Hlow. apply (be_none _ _ Hb) in Hge. lia.
  - assert (Hall : during p st0 st' (fun j => - p <= j <= delta + p)).
    { destruct Hd' as [D1 D2 D3 D4]. split; [done|done|intros j Hj; apply D3; lia|intros j Hj; apply D4; lia]. }
    exists st'. split; [done|]. split; [done|]. split; [intros Hp1; specialize (Hlow Hp1); lia|].
    split; intros k; fold M N delta.
    + intros Hk. destruct (du_new _ _ _ _ Hall k Hk) as [Hpt Hst]. split; [apply point_Yof in Hpt; lia|done].
    + intros Hk. destruct (decide (k = delta)) as [->|]; [rewrite HY by lia; done|]. rewrite !HY by lia. apply H1. lia.
    + intros Hp1 Hk. rewrite HY by lia. auto.
    + intros Hk. rewrite HY by lia. auto.
    + intros Hk. destruct (decide (k = delta)) as [->|]; [|rewrite !HY by lia; apply H3; lia].
      rewrite (HY (delta + 1)) by lia. apply Ha. destruct (point_Yof _ _ _ (Hnext ltac:(lia))). lia.
Qed.

(** No route ends with fewer steps down than the rounds before. *)
Lemma before_least p st l : before p st -> route A B M N l -> p <= downs l.
Proof.
  intros Hb Hr. pose proof (be_p _ _ Hb) as Hp. apply route_grid in Hr as Hg.
  destruct (decide (p <= downs l)) as [|Hlt]; [done|]. pose proof (be_open _ _ Hb ltac:(lia)) as Hopen.
  assert (N <= Yof st (M - N)) by (apply (be_farthest _ _ Hb M N l Hr); [lia|]; unfold M, N in *; lia).
  unfold delta in *. lia.
Qed.

Lemma round_spec p st : before p st -> exists st', round A B p st = Ok st' /\ after p st'.
Proof.
  intros Hb. pose proof (be_p _ _ Hb) as Hp. assert (Hdelta : 0 <= delta) by (unfold delta; lia). unfold round.
  destruct (low_loop p st (Z.to_nat (delta + p)) (- p) st Hb) as (st1 & E1 & Hlow & L1 & L2).
  { split; [split|split].
    - apply Hb.
    - apply extends_refl.
    - done.
    - lia.
    - lia.
    - lia. }
  { lia. }
  { lia. }
  unfold M, N in *. fold delta. rewrite E1. cbn [rbind].
  destruct (high_loop p st (Z.to_nat p) (delta + p) st1 Hb) as (st2 & E2 & Hhigh).
  { split; [|split; [done|split; [done|split; lia]]].
    destruct Hlow as [D1 D2 D3 D4]. split; [done|done|intros j Hj; apply D3; lia|intros j Hj; apply D4; lia]. }
  { lia. }
  { lia. }
  rewrite E2. cbn [rbind]. destruct (last_visit p st st2 Hb Hhigh) as (st3 & E3 & Hd & Hmore & Hup).
  exists st3. split; [done|]. split.
  - apply Hd.
  - intros k Hk. by apply Hd.
  - intros k Hge. destruct (decide (- p <= k <= delta + p)) as [|Hn]; [done|].
    rewrite (during_old _ _ _ _ k Hd Hn) in Hge. apply (be_none _ _ Hb) in Hge. lia.
  - by eapply step_ordered.
  - destruct (decide (1 <= p)) as [Hp1|]; [pose proof (be_open _ _ Hb Hp1); specialize (Hmore Hp1); lia|].
    pose proof (su_stuck _ _ _ _ _ Hup delta) as Hs. unfold delta in *. lia.
  - eapply (farthest_step A B Hsize); [lia|by apply Hb|done].
  - intros l Hr. by apply (before_least p st).
Qed.

Lemma after_before p st : after p st -> 0 <= p -> Yof st delta < N -> before (p + 1) st.
Proof.
  intros Ha Hp Hopen. pose proof (af_far _ _ Ha) as Hfar. split; replace (p + 1 - 1) with p by lia.
  - apply Ha.
  - lia.
  - intros k _ Hk. by apply Ha.
  - intros k Hk. apply (af_none _ _ Ha) in Hk. lia.
  - intros _. apply Ha.
  - lia.
  - apply Ha.
Qed.

(** The loop comes to the end of both sequences, after as few rounds as there
    are steps down on any route. *)
Lemma search_spec fuel p st :
  before (p + 1) st \/ (after p st /\ 0 <= p) -> N <= p + Z.of_nat fuel ->
  exists q st' f, search A B fuel p st = Ok (st', f) /\ store_ok st'
    /\ fp_y f = N /\ good st' delta f q /\ (forall l, route A B M N l -> q <= downs l).
Proof.
  revert p st. induction fuel as [|fuel IH]; intros p st Hst Hfuel; cbn [search].
  all: assert (Hpts : points_ok st) by (destruct Hst as [H|[H _]]; apply H).
  all: destruct Hpts as [Hpts _]; destruct (Hpts delta) as [_ [f Ef]]; [unfold delta; lia|].
  all: assert (HY : Yof st delta = fp_y f) by (unfold Yof; by rewrite Ef).
  all: fold M N delta; rewrite Ef; destruct (fp_y f <? N) eqn:E; [apply Z.ltb_lt in E|apply Z.ltb_ge in E].
  2, 4: assert (Ha : after p st /\ 0 <= p) by
    (destruct Hst as [Hb|]; [exfalso|done]; destruct (decide (1 <= p + 1)) as [H1|];
     [pose proof (be_open _ _ Hb H1); lia|pose proof (be_none _ _ Hb delta); lia]).
  2, 3: destruct Ha as [Ha Hp]; destruct (af_points _ _ Ha delta) as (g & Eg & Hg); [unfold delta; lia|];
    simplify_eq; exists p, st, f; split; [done|]; split; [apply Ha|]; split; [apply good_grid in Hg; lia|];
    split; [done|]; intros l Hl; by apply (af_least _ _ Ha).
  - exfalso. destruct Hst as [Hb|[Ha Hp]]; [pose proof (be_p _ _ Hb); lia|pose proof (af_far _ _ Ha); lia].
  - assert (Hb : before (p + 1) st) by (destruct Hst as [|[Ha Hp]]; [done|apply after_before; [done|done|lia]]).
    destruct (round_spec _ _ Hb) as (st' & -> & Ha). cbn [rbind]. apply IH; [|lia].
    right. split; [done|]. pose proof (be_p _ _ Hb). lia.
Qed.

(** The state the loop starts with. *)
Lemma start_point i : 0 <= i < M + N + 1 -> fps (start_state A B) !! i = Some (FP (-1) (-1)).
Proof.
  intros Hi. cbn [start_state fps]. apply elem_of_list_to_map_1.
  - rewrite <- list_fmap_compose. cbn. rewrite list_fmap_id. apply NoDup_seqZ.
  - apply list_elem_of_fmap. exists i. split; [done|]. apply elem_of_seqZ. lia.
Qed.

Lemma start_point_inv i f : fps (start_state A B) !! i = Some f -> f = FP (-1) (-1) /\ 0 <= i < M + N + 1.
Proof.
  intros Hf%elem_of_list_to_map_2. apply list_elem_of_fmap in Hf as (j & E & Hj). apply elem_of_seqZ in Hj.
  injection E as -> ->. split; [done|]. unfold M, N. lia.
Qed.

Lemma start_Yof k : Yof (start_state A B) k = -1.
Proof.
  unfold Yof. destruct (fps _ !! _) as [f|] eqn:E; [|done]. by apply start_point_inv in E as [-> _].
Qed.

Lemma before_start : before 0 (start_state A B).
Proof.
  assert (Hhalf : 0 <= M * N) by nia. assert (Hat : forall i, 0 <= i < half * 2 -> at_index (routes (start_state A B)) i = Some 0).
  { intros i Hi. cbn [start_state routes]. unfold at_index. destruct (Z.ltb_spec i 0); [lia|].
    apply lookup_replicate. split; [done|]. unfold half, M, N in *. lia. }
  split; try lia.
  - split; [|split].
    + split; [|split; [cbn; unfold half; lia|split; apply Hat; unfold half in *; lia]].
      cbn [start_state routes]. unfold len. rewrite length_replicate. unfold half, M, N, len in *. lia.
    + split; [|intros k f [-> _]%start_point_inv; by left]. intros k. split.
      * intros [f [_ ?]%start_point_inv]. lia.
      * intros Hk. eexists. apply start_point. lia.
    + right. split; [done|]. intros k. rewrite start_Yof. lia.
  - intros k. rewrite start_Yof. lia.
  - intros x y l Hr Hd _. apply route_grid in Hr. lia.
Qed.

(** ** The way back along a route *)

Definition removed_as (swapped : bool) : DiffType := if swapped then added else removed.
Definition added_as (swapped : bool) : DiffType := if swapped then removed else added.

(** The results of a route to [(x, y)]. *)
Definition tells (swapped : bool) (x y : Z) (l : list move) (rs : list DiffResult) : Prop :=
  old_of rs = (if swapped then take (Z.to_nat y) B else take (Z.to_nat x) A)
  /\ new_of rs = (if swapped then take (Z.to_nat x) A else take (Z.to_nat y) B)
  /\ Z.of_nat (changes rs) = rights l + downs l.

Lemma take_next {X} (s : list X) x v : at_index s x = Some v -> take (Z.to_nat (x + 1)) s = take (Z.to_nat x) s ++ [v].
Proof.
  unfold at_index. destruct (Z.ltb_spec x 0); [done|]. intros Hv. replace (Z.to_nat (x + 1)) with (S (Z.to_nat x)) by lia.
  by apply take_S_r.
Qed.

Lemma at_inside {X} (s : list X) x : 0 <= x < len s -> exists v, at_index s x = Some v.
Proof.
  intros Hx. unfold at_index. destruct (Z.ltb_spec x 0); [lia|]. apply lookup_lt_is_Some. unfold len in Hx. lia.
Qed.

Lemma old_of_app r1 r2 : old_of (r1 ++ r2) = old_of r1 ++ old_of r2.
Proof. apply bind_app. Qed.
Lemma new_of_app r1 r2 : new_of (r1 ++ r2) = new_of r1 ++ new_of r2.
Proof. apply bind_app. Qed.
Lemma changes_app r1 r2 : changes (r1 ++ r2) = (changes r1 + changes r2)%nat.
Proof. unfold changes. by rewrite bind_app, length_app. Qed.

Lemma tells_snoc swapped x y l rs x' y' m t v :
  tells swapped x y l rs ->
  (m = Right /\ t = removed_as swapped /\ x' = x + 1 /\ y' = y /\ at_index A x = Some v)
  \/ (m = Down /\ t = added_as swapped /\ x' = x /\ y' = y + 1 /\ at_index B y = Some v)
  \/ (m = Diagonal /\ t = common /\ x' = x + 1 /\ y' = y + 1 /\ at_index A x = Some v /\ at_index B y = Some v) ->
  tells swapped x' y' (m :: l) (rs ++ [DR t v]).
Proof.
  intros (Ho & Hn & Hc) Hm. unfold tells. rewrite old_of_app, new_of_app, changes_app, Ho, Hn, Nat2Z.inj_add, Hc.
  destruct Hm as [(-> & -> & -> & -> & Hv)|[(-> & -> & -> & -> & Hv)|(-> & -> & -> & -> & Hv & Hw)]].
  all: rewrite ?(take_next _ _ _ Hv), ?(take_next _ _ _ Hw).
  all: destruct swapped; cbn; rewrite ?app_nil_r; repeat split; try done; lia.
Qed.

Lemma trace_spec swapped rs x y l id fuel acc :
  route A B x y l -> chain rs id l -> id < Z.of_nat fuel ->
  exists r, trace_loop A B swapped fuel rs (x - 1) (y - 1) id acc = Some (r ++ acc) /\ tells swapped x y l r.
Proof.
  intros Hr. revert id fuel acc. induction Hr as [|x y l Hr IH Hx|x y l Hr IH Hy|x y l Hr IH Hx Hy Hxy];
    intros id fuel acc Hc Hf; inversion Hc as [H1 H2|id' prev m l' Hlt Hj Ht Hc']; subst.
  all: destruct fuel as [|fuel]; [lia|]; cbn [trace_loop]; fold M N half.
  { rewrite H1, Z.add_0_l, H2. cbn. exists []. split; [done|]. unfold tells. by destruct swapped. }
  all: rewrite Hj, Ht; cbn [default code]; rewrite andb_false_r; cbn [Z.eqb REMOVED ADDED COMMON Pos.eqb].
  all: apply route_grid in Hr as Hg.
  - destruct (at_inside A x ltac:(unfold M in *; lia)) as [v Hv]. replace (x + 1 - 1) with x by lia. rewrite Hv.
    destruct (IH prev fuel (result_of (removed_as swapped) (Some v) ++ acc) Hc' ltac:(lia)) as (r & E & Ht').
    exists (r ++ [DR (removed_as swapped) v]). split; [etransitivity; [apply E|by rewrite <- app_assoc]|].
    apply (tells_snoc _ x y); [done|]. left. done.
  - destruct (at_inside B y ltac:(unfold N in *; lia)) as [v Hv]. replace (y + 1 - 1) with y by lia. rewrite Hv.
    destruct (IH prev fuel (result_of (added_as swapped) (Some v) ++ acc) Hc' ltac:(lia)) as (r & E & Ht').
    exists (r ++ [DR (added_as swapped) v]). split; [etransitivity; [apply E|by rewrite <- app_assoc]|].
    apply (tells_snoc _ x y); [done|]. right. left. done.
  - destruct (at_inside A x ltac:(unfold M in *; lia)) as [v Hv].
    replace (x + 1 - 1) with x by lia. replace (y + 1 - 1) with y by lia. rewrite Hv.
    destruct (IH prev fuel (result_of common (Some v) ++ acc) Hc' ltac:(lia)) as (r & E & Ht').
    exists (r ++ [DR common v]). split; [etransitivity; [apply E|by rewrite <- app_assoc]|].
    apply (tells_snoc _ x y); [done|]. right. right. rewrite <- Hxy. done.
Qed.

(** The search and the way back: a shortest script. *)
Lemma search_trace swapped :
  exists st f r, search A B (S (length B)) (-1) (start_state A B) = Ok (st, f)
    /\ backTrace A B swapped st f = Some r
    /\ old_of r = (if swapped then B else A) /\ new_of r = (if swapped then A else B)
    /\ forall n, script A B n -> (changes r <= n)%nat.
Proof.
  destruct (search_spec (S (length B)) (-1) (start_state A B)) as (q & st & f & E & Hst & Hy & (l & Hr & Hc & Hid & Hd & _) & Hleast).
  { left. apply before_start. }
  { unfold N, len. lia. }
  rewrite Hy in Hr. replace (N + delta) with M in Hr by (unfold delta; lia).
  destruct (trace_spec swapped (routes st) M N l (fp_id f) (length (routes st)) [] Hr Hc) as (r & Et & Ho & Hn & Hch).
  { destruct Hst as (Hlen & Hptr & _). unfold len in Hlen. lia. }
  rewrite app_nil_r in Et. exists st, f, r. split; [done|]. split; [done|].
  assert (HA : take (Z.to_nat M) A = A) by (apply take_ge; unfold M, len; lia).
  assert (HB : take (Z.to_nat N) B = B) by (apply take_ge; unfold N, len; lia).
  rewrite HA, HB in Ho, Hn. split; [done|]. split; [done|]. intros n Hs.
  destruct (script_route A B A B n [] [] [] Hs eq_refl eq_refl (route_nil A B)) as (l' & Hr' & Hl'). cbn [rights downs] in Hl'.
  specialize (Hleast l' Hr'). apply route_grid in Hr', Hr. lia.
Qed.
End Routes.

(** ** Common ends *)

Lemma common_forward_spec n PA PB A B :
  len PA = len PB -> n = Nat.min (length A) (length B) ->
  exists P A' B', A = P ++ A' /\ B = P ++ B' /\ common_loop (PA ++ A) (PB ++ B) false n (len PA) = P.
Proof.
  revert PA PB A B. induction n as [|n IH]; intros PA PB A B Hl Hn; cbn [common_loop]; [by exists [], A, B|].
  destruct A as [|a A], B as [|b B]; cbn in Hn; try lia. rewrite at_index_mid, Hl, at_index_mid. unfold same.
  destruct (bool_decide _) eqn:E; [|by exists [], (a :: A), (b :: B)]. apply bool_decide_eq_true in E. injection E as <-.
  destruct (IH (PA ++ [a]) (PB ++ [a]) A B) as (P & A' & B' & -> & -> & H); [rewrite !len_app; lia|lia|].
  exists (a :: P), A', B'. split; [done|]. split; [done|]. cbn. f_equal.
  rewrite <- !app_assoc in H. cbn in H. rewrite len_app in H. cbn in H. rewrite <- Hl. apply H.
Qed.

Lemma at_index_reverse {X} (s : list X) i : 0 <= i < len s -> at_index (reverse s) i = at_index s (len s - i - 1).
Proof.
  unfold at_index, len. intros Hi. destruct (Z.ltb_spec i 0); [lia|]. destruct (Z.ltb_spec (Z.of_nat (length s) - i - 1) 0); [lia|].
  rewrite reverse_lookup by lia. f_equal. lia.
Qed.

Lemma common_backward A B n i :
  0 <= i -> i + Z.of_nat n <= len A -> i + Z.of_nat n <= len B ->
  common_loop A B true n i = common_loop (reverse A) (reverse B) false n i.
Proof.
  revert i. induction n as [|n IH]; intros i Hi HA HB; [done|]. cbn [common_loop].
  rewrite !at_index_reverse by lia. destruct (same _ _); [|done]. f_equal. apply IH; lia.
Qed.

Lemma createCommon_prefix A B : exists P A' B', A = P ++ A' /\ B = P ++ B' /\ createCommon A B false = P.
Proof.
  unfold createCommon. destruct (_ || _); [by exists [], A, B|].
  by apply (common_forward_spec (Nat.min (length A) (length B)) [] [] A B).
Qed.

Lemma createCommon_suffix A B :
  exists S A' B', A = A' ++ S /\ B = B' ++ S /\ reverse (createCommon A B true) = S.
Proof.
  unfold createCommon. destruct (_ || _); [by exists [], A, B; rewrite !app_nil_r|].
  rewrite common_backward by (unfold len; lia).
  destruct (common_forward_spec (Nat.min (length A) (length B)) [] [] (reverse A) (reverse B)) as (P & A' & B' & EA & EB & H).
  { done. }
  { by rewrite !length_reverse. }
  exists (reverse P), (reverse A'), (reverse B'). change (len (@nil T)) with 0 in H. rewrite !app_nil_l in H. rewrite H. rewrite <- !reverse_app, <- EA, <- EB.
  by rewrite !reverse_involutive.
Qed.

Lemma slice_ends {X} (P A S : list X) :
  (if len S =? 0 then slice_from (P ++ A ++ S) (len P) else slice (P ++ A ++ S) (len P) (- len S)) = A.
Proof.
  destruct (Z.eqb_spec (len S) 0) as [E|E].
  - rewrite slice_from_suffix. destruct S as [|x S]; [apply app_nil_r|rewrite len_cons in E; pose proof (len_nonneg S); lia].
  - rewrite <- (slice_mid P A S) at 2. unfold slice. f_equal. f_equal. f_equal.
    pose proof (len_nonneg P). pose proof (len_nonneg A). pose proof (len_nonneg S). unfold rel_index. rewrite !len_app.
    destruct (Z.ltb_spec (- len S) 0); [|lia]. destruct (Z.ltb_spec (len P + len A) 0); lia.
Qed.

(** ** The whole function *)

Lemma changes_common l : changes (as_common l) = 0%nat.
Proof. unfold changes, as_common. by induction l. Qed.
Lemma old_of_common l : old_of (as_common l) = l.
Proof. unfold old_of, as_common. induction l; cbn in *; by f_equal. Qed.
Lemma new_of_common l : new_of (as_common l) = l.
Proof. unfold new_of, as_common. induction l; cbn in *; by f_equal. Qed.

(** Results for sequences between common ends. *)
Lemma ends_correct P S A B r :
  old_of r = A -> new_of r = B -> (forall n, script A B n -> (changes r <= n)%nat) ->
  let r' := as_common P ++ r ++ as_common S in
  old_of r' = P ++ A ++ S /\ new_of r' = P ++ B ++ S
  /\ forall n, script (P ++ A ++ S) (P ++ B ++ S) n -> (changes r' <= n)%nat.
Proof.
  intros Ho Hn Hc r'. unfold r'. rewrite !old_of_app, !new_of_app, !changes_app, !old_of_common, !new_of_common, !changes_common, Ho, Hn.
  split; [done|]. split; [done|]. intros n (m & Hm & Hs)%script_strip_ends. specialize (Hc m Hs). lia.
Qed.

Lemma script_least A B n : script A B n -> (length A <= length B + n /\ length B <= length A + n)%nat.
Proof. induction 1; cbn; lia. Qed.

(** One of the sequences is empty. *)
Lemma one_sided (swapped : bool) (A : list T) :
  let r := DR (if swapped then added else removed) <$> A in
  old_of r = (if swapped then [] else A) /\ new_of r = (if swapped then A else [])
  /\ changes r = length A.
Proof.
  unfold old_of, new_of, changes. destruct swapped; induction A as [|a A (H1 & H2 & H3)]; cbn in *; try done.
  all: rewrite ?H1, ?H2; split; [done|]; split; [done|]; by f_equal.
Qed.


(** Without common ends, the first sequence not the shorter one. *)
Definition longer_first (swapped : bool) (A B : list T) : result (list DiffResult) :=
  if len B =? 0 then Ok (DR (if swapped then added else removed) <$> A)
  else
    let! r := search A B (S (length B)) (-1) (start_state A B) in
    match backTrace A B swapped (fst r) (snd r) with
    | None => Throw (Error "out of fuel")
    | Some l => Ok l
    end.

Definition middle (A B : list T) : result (list DiffResult) :=
  if len A <? len B then longer_first true B A else longer_first false A B.

Lemma longer_first_spec swapped A B :
  len B <= len A -> (len A + 1) * (len B + 1) + 1 < 2 ^ 32 ->
  exists r, longer_first swapped A B = Ok r
    /\ old_of r = (if swapped then B else A) /\ new_of r = (if swapped then A else B)
    /\ forall n, script A B n -> (changes r <= n)%nat.
Proof.
  intros Hlen Hroom. unfold longer_first. pose proof (len_nonneg B). pose proof (len_nonneg A). destruct (Z.eqb_spec (len B) 0) as [E|E].
  - destruct B as [|b B]; [|rewrite len_cons in E; pose proof (len_nonneg B); lia].
    eexists. split; [done|]. destruct (one_sided swapped A) as (H1 & H2 & H3). rewrite H1, H2, H3.
    split; [by destruct swapped|]. split; [by destruct swapped|]. intros n Hs%script_least. cbn in Hs. lia.
  - destruct (search_trace A B ltac:(lia)) with (swapped := swapped) as (st & f & r & E1 & E2 & H1 & H2 & H3); [lia|].
    rewrite E1. cbn [rbind fst snd]. rewrite E2. by exists r.
Qed.

Lemma middle_spec A B :
  (len A + 1) * (len B + 1) + 1 < 2 ^ 32 ->
  exists r, middle A B = Ok r /\ old_of r = A /\ new_of r = B /\ forall n, script A B n -> (changes r <= n)%nat.
Proof.
  intros Hroom. unfold middle. destruct (Z.ltb_spec (len A) (len B)).
  - destruct (longer_first_spec true B A) as (r & E & H1 & H2 & H3); [lia|lia|]. exists r. split; [done|].
    split; [done|]. split; [done|]. intros n Hs. by apply H3, script_swap.
  - by apply (longer_first_spec false A B).
Qed.

Lemma diff_middle P S A B :
  let put := fun r => as_common P ++ r ++ as_common S in
  createCommon (P ++ A ++ S) (P ++ B ++ S) false = P -> reverse (createCommon (A ++ S) (B ++ S) true) = S ->
  diff (P ++ A ++ S) (P ++ B ++ S) = let! r := middle A B in Ok (put r).
Proof.
  intros put HP HS. unfold diff. rewrite HP, !slice_from_suffix, HS.
  pose proof (slice_ends P A S) as EA. pose proof (slice_ends P B S) as EB. rewrite !slice_from_suffix in EA, EB.
  rewrite EA, EB. unfold middle, longer_first. destruct (len A <? len B).
  all: match goal with |- (if ?b && ?c && ?d && ?e then _ else _) = _ => destruct (b && c && d && e) eqn:E0 end.
  all: try (apply andb_true_iff in E0 as [E0 ?]; apply andb_true_iff in E0 as [E0 ?];
    apply andb_true_iff in E0 as [EM EN]; rewrite EN;
    repeat match goal with H : (len ?l =? 0) = true |- _ => destruct l; [clear H|discriminate H] end; done).
  all: match goal with |- context [if ?b then _ else _] => destruct b end; [done|].
  all: destruct (search _ _ _ _ _) as [[st f]|]; cbn [rbind fst snd]; [|done]; by destruct (backTrace _ _ _ _ _).
Qed.

(** C4: [diff] of sequences whose edit graph fits its typed array returns, and
    returns a shortest edit script: leaving out the added elements gives the
    first sequence, leaving out the removed ones the second, and no script with
    fewer additions and removals turns one into the other. *)
Theorem diff_correct (A B : list T) :
  (len A + 1) * (len B + 1) + 1 < 2 ^ 32 ->
  exists r, diff A B = Ok r /\ old_of r = A /\ new_of r = B /\ forall n, script A B n -> (changes r <= n)%nat.
Proof.
  intros Hroom. destruct (createCommon_prefix A B) as (P & A1 & B1 & -> & -> & HP).
  destruct (createCommon_suffix A1 B1) as (S & A' & B' & -> & -> & HS). rewrite (diff_middle P S A' B' HP HS).
  destruct (middle_spec A' B') as (r & -> & H1 & H2 & H3).
  - rewrite !len_app in Hroom. pose proof (len_nonneg P). pose proof (len_nonneg A').
    pose proof (len_nonneg B'). pose proof (len_nonneg S). nia.
  - eexists. split; [done|]. by apply ends_correct.
Qed.
End Diff.

Lemma diff_correct_witness :
  (len [1; 2; 3; 1; 2; 2; 1] + 1) * (len [3; 2; 1; 2; 1; 3] + 1) + 1 < 2 ^ 32
  /\ exists r, diff [1; 2; 3; 1; 2; 2; 1] [3; 2; 1; 2; 1; 3] = Ok r /\ old_of r = [1; 2; 3; 1; 2; 2; 1]
       /\ new_of r = [3; 2; 1; 2; 1; 3]
       /\ forall n, script [1; 2; 3; 1; 2; 2; 1] [3; 2; 1; 2; 1; 3] n -> (changes r <= n)%nat.
Proof. split; [done|]. by apply diff_correct. Defined.

Example diff_run :
  diff [1; 2; 3; 1; 2; 2; 1] [3; 2; 1; 2; 1; 3]
  = Ok [DR removed 1; DR removed 2; DR common 3; DR added 2; DR common 1; DR common 2; DR removed 2; DR common 1; DR added 3].
Proof. vm_compute. reflexivity. Qed.
