(* ===== verification/Validators.v ===== *)
(** * Argument checks: internal/validators.mjs

    The checks of dynamic values that the other modules share.  A value is a
    tree; a number is an integer or something else (a fraction, an infinity or
    not a number), all the checks can tell.  [validatePort], which converts
    strings to numbers, and [validateAbortSignal], which looks at inherited
    properties, are left out. *)

From stdpp Require Import pretty.
From S2P Require Import Prelude Bytes WebText BufferText.
#[local] Open Scope Z_scope.

Inductive number := Int (z : Z) | NotInteger.

Inductive value :=
| VUndefined
| VNull
| VBool (b : bool)
| VNumber (n : number)
| VString (s : jsstr)
| VArray (l : list value)
| VObject (props : list (jsstr * value))
| VFunction
| VView (bytes : list Z).

Definition argType (name : jsstr) : jserr := Coded "ERR_INVALID_ARG_TYPE" name.
Definition argValue (name : jsstr) : jserr := Coded "ERR_INVALID_ARG_VALUE" name.
Definition outOfRange (name : jsstr) : jserr := Coded "ERR_OUT_OF_RANGE" name.

(** [v == null]. *)
Definition nullish (v : value) : bool := match v with VUndefined | VNull => true | _ => false end.

(** [v ?? d]. *)
Definition or_default (v d : value) : value := if nullish v then d else v.

(** The own property [p] of an object; [undefined] when there is none. *)
Definition prop_of (props : list (jsstr * value)) (p : jsstr) : option value :=
  (list_find (fun e => e.1 = p) props) ≫= fun r => Some r.2.2.

(** [===] of a number and a 32-bit integer; [-0 === 0]. *)
Definition isInt32 (v : value) : bool :=
  match v with VNumber (Int z) => z =? to_int32 z | _ => false end.
Definition isUint32 (v : value) : bool :=
  match v with VNumber (Int z) => z =? to_uint32 z | _ => false end.

Definition validateInteger (v : value) (name : jsstr) (min max : Z) : result unit :=
  match v with
  | VNumber (Int z) => if (z <? min) || (max <? z) then Throw (outOfRange name) else Ok tt
  | VNumber NotInteger => Throw (outOfRange name)
  | _ => Throw (argType name)
  end.

Definition validateInt32 (v : value) (name : jsstr) (min max : Z) : result unit :=
  if negb (isInt32 v) then
    match v with VNumber _ => Throw (outOfRange name) | _ => Throw (argType name) end
  else
    match v with
    | VNumber (Int z) => if (z <? min) || (max <? z) then Throw (outOfRange name) else Ok tt
    | _ => Ok tt
    end.

Definition validateUint32 (v : value) (name : jsstr) (positive : bool) : result unit :=
  if negb (isUint32 v) then
    match v with VNumber _ => Throw (outOfRange name) | _ => Throw (argType name) end
  else
    match v with
    | VNumber (Int z) => if positive && (z =? 0) then Throw (outOfRange name) else Ok tt
    | _ => Ok tt
    end.

(** [/^[0-7]+$/.test(s)] and [Number.parseInt(s, 8)]. *)
Definition is_octal (s : jsstr) : bool := negb (len s =? 0) && forallb (fun c => (48 <=? c) && (c <=? 55)) s.
Definition parse_octal (s : jsstr) : Z := fold_left (fun n c => n * 8 + (c - 48)) s 0.

Definition parseFileMode (v : value) (name : jsstr) (def : value) : result value :=
  let v := or_default v def in
  let! v :=
    match v with
    | VString s => if is_octal s then Ok (VNumber (Int (parse_octal s))) else Throw (argValue name)
    | _ => Ok v
    end in
  let! _ := validateInt32 v name 0 (2 ^ 32 - 1) in
  Ok v.

Definition validateBuffer (v : value) (name : jsstr) : result unit :=
  match v with VView _ => Ok tt | _ => Throw (argType name) end.

Record object_options := ObjectOptions { allowArray : bool; allowFunction : bool; nullable : bool }.

Definition is_array (v : value) : bool := match v with VArray _ => true | _ => false end.
(** [typeof v === "object"]. *)
Definition is_object (v : value) : bool :=
  match v with VNull | VArray _ | VObject _ | VView _ => true | _ => false end.
Definition is_function (v : value) : bool := match v with VFunction => true | _ => false end.

Definition validateObject (v : value) (name : jsstr) (options : option object_options) : result unit :=
  let allowArray := from_option allowArray false options in
  let allowFunction := from_option allowFunction false options in
  let nullable := from_option nullable false options in
  if (negb nullable && match v with VNull => true | _ => false end)
     || (negb allowArray && is_array v)
     || (negb (is_object v) && (negb allowFunction || negb (is_function v)))
  then Throw (argType name) else Ok tt.

Definition validateString (v : value) (name : jsstr) : result unit :=
  match v with VString _ => Ok tt | _ => Throw (argType name) end.
Definition validateNumber (v : value) (name : jsstr) : result unit :=
  match v with VNumber _ => Ok tt | _ => Throw (argType name) end.
Definition validateBoolean (v : value) (name : jsstr) : result unit :=
  match v with VBool _ => Ok tt | _ => Throw (argType name) end.
Definition validateFunction (v : value) (name : jsstr) : result unit :=
  if is_function v then Ok tt else Throw (argType name).

(** [Array.prototype.includes] with strings to choose from. *)
Definition one_of (strings : list jsstr) (v : value) : bool :=
  match v with VString s => bool_decide (s ∈ strings) | _ => false end.

Definition validateOneOf (v : value) (name : jsstr) (oneOf : list jsstr) : result unit :=
  if one_of oneOf v then Ok tt else Throw (argValue name).
Definition validateUnion (v : value) (name : jsstr) (union : list jsstr) : result unit :=
  if one_of union v then Ok tt else Throw (argType name).

Definition validateArray (v : value) (name : jsstr) (minLength : Z) : result (list value) :=
  match v with
  | VArray l => if len l <? minLength then Throw (argValue name) else Ok l
  | _ => Throw (argType name)
  end.

Fixpoint validate_elements (ok : value -> bool) (name : jsstr) (i : nat) (l : list value) : result unit :=
  match l with
  | [] => Ok tt
  | v :: l =>
      if ok v then validate_elements ok name (S i) l
      else Throw (argType (name ++ js "[" ++ js (pretty i) ++ js "]"))
  end.

Definition validateStringArray (v : value) (name : jsstr) : result unit :=
  let! l := validateArray v name 0 in
  validate_elements (fun v => match v with VString _ => true | _ => false end) name 0 l.

Definition validateBooleanArray (v : value) (name : jsstr) : result unit :=
  let! l := validateArray v name 0 in
  validate_elements (fun v => match v with VBool _ => true | _ => false end) name 0 l.

(** [validateEncoding(data, encoding)]. *)
Definition validateEncoding `{!WebText} (length : Z) (encoding : option jsstr) : result unit :=
  if bool_decide (normalizeEncoding encoding = Some (js "hex")) && negb (length mod 2 =? 0)
  then Throw (argValue (js "encoding")) else Ok tt.

(** ** Properties *)

Lemma validateArray_any v name : validateArray v name 0 = match v with VArray l => Ok l | _ => Throw (argType name) end.
Proof. destruct v; try done. cbn. pose proof (len_nonneg l). by rewrite (proj2 (Z.ltb_ge _ _)) by lia. Qed.

Lemma validate_elements_ok ok name i l : validate_elements ok name i l = Ok tt <-> Forall (fun v => ok v = true) l.
Proof.
  revert i. induction l as [|v l IH]; intros i; cbn; [by split|]. destruct (ok v) eqn:E.
  - rewrite IH, Forall_cons. tauto.
  - split; [done|]. intros [E' _]%Forall_cons. congruence.
Qed.

Lemma isInt32_spec v : isInt32 v = true <-> exists z, v = VNumber (Int z) /\ - 2 ^ 31 <= z < 2 ^ 31.
Proof.
  split.
  - destruct v as [| | |[z|]| | | | |]; try done. cbn. intros H%Z.eqb_eq. exists z. split; [done|]. rewrite H.
    unfold to_int32, to_uint32. pose proof (Z.mod_pos_bound z (2 ^ 32) ltac:(lia)). case_if; lia.
  - intros (z & -> & Hz). cbn. rewrite to_int32_small by done. apply Z.eqb_refl.
Qed.

Lemma isUint32_spec v : isUint32 v = true <-> exists z, v = VNumber (Int z) /\ 0 <= z < 2 ^ 32.
Proof.
  split.
  - destruct v as [| | |[z|]| | | | |]; try done. cbn. intros H%Z.eqb_eq. exists z. split; [done|]. rewrite H.
    apply Z.mod_pos_bound. lia.
  - intros (z & -> & Hz). cbn. unfold to_uint32. rewrite Z.mod_small by done. apply Z.eqb_refl.
Qed.

(** The digits of an octal number, most significant first. *)
Fixpoint octal_digits (fuel : nat) (n : Z) : jsstr :=
  match fuel with
  | O => []
  | S fuel => (if n <? 8 then [] else octal_digits fuel (n / 8)) ++ [48 + n mod 8]
  end.

Lemma parse_octal_snoc s c : parse_octal (s ++ [c]) = parse_octal s * 8 + (c - 48).
Proof. unfold parse_octal. by rewrite fold_left_app. Qed.

Definition octal_digit (c : Z) : bool := (48 <=? c) && (c <=? 55).

Lemma is_octal_snoc s c : is_octal (s ++ [c]) = forallb octal_digit s && octal_digit c.
Proof.
  unfold is_octal. rewrite forallb_app, len_app. cbn [forallb]. rewrite andb_true_r.
  replace (len s + len [c] =? 0) with false; [done|]. symmetry. apply Z.eqb_neq. pose proof (len_nonneg s). unfold len in *. cbn. lia.
Qed.

Lemma octal_digit_ok d : 0 <= d < 8 -> octal_digit (48 + d) = true.
Proof. intros H. apply andb_true_iff. split; apply Z.leb_le; lia. Qed.

Lemma octal_digits_ok fuel n :
  0 <= n < 8 ^ Z.of_nat fuel -> (0 < fuel)%nat ->
  is_octal (octal_digits fuel n) = true /\ parse_octal (octal_digits fuel n) = n.
Proof.
  revert n. induction fuel as [|fuel IH]; intros n Hn Hf; [lia|]. cbn [octal_digits].
  assert (Hm : 0 <= n mod 8 < 8) by (apply Z.mod_pos_bound; lia).
  rewrite parse_octal_snoc, is_octal_snoc, octal_digit_ok, andb_true_r by done.
  destruct (Z.ltb_spec n 8) as [H8|H8]; [rewrite Z.mod_small by lia; split; [done|cbn; lia]|].
  assert (Hfuel : (0 < fuel)%nat) by (destruct fuel; [cbn in Hn; lia|lia]).
  rewrite Nat2Z.inj_succ, Z.pow_succ_r in Hn by lia.
  destruct (IH (n / 8)) as [Ho Hp]; [|done|].
  - split; [apply Z.div_pos; lia|]. apply Z.div_lt_upper_bound; lia.
  - rewrite Hp. unfold is_octal in Ho. apply andb_true_iff in Ho as [_ Ho]. split; [exact Ho|].
    pose proof (Z.div_mod n 8). lia.
Qed.

Lemma parse_octal_nonneg s : is_octal s = true -> 0 <= parse_octal s.
Proof.
  unfold is_octal. intros [_ H]%andb_true_iff. induction s as [|c s IH] using rev_ind; [done|].
  rewrite forallb_app in H. apply andb_true_iff in H as [H1 H2]. cbn in H2. rewrite andb_true_r in H2.
  apply andb_true_iff in H2 as [H2%Z.leb_le _]. rewrite parse_octal_snoc. specialize (IH H1). lia.
Qed.

(** [parseFileMode] gives back a number of 31 bits, or the one an octal
    string stands for, whatever is given and whatever the default; everything
    else is refused: other strings as a wrong value, other numbers as out of
    range, and values of other types by their type. *)
Theorem file_mode (v def : value) (name : jsstr) :
  parseFileMode v name def
  = match or_default v def with
    | VString s =>
        if negb (is_octal s) then Throw (argValue name)
        else if parse_octal s <? 2 ^ 31 then Ok (VNumber (Int (parse_octal s))) else Throw (outOfRange name)
    | VNumber (Int z) => if (0 <=? z) && (z <? 2 ^ 31) then Ok (VNumber (Int z)) else Throw (outOfRange name)
    | VNumber NotInteger => Throw (outOfRange name)
    | _ => Throw (argType name)
    end.
Proof.
  assert (Hint : forall z, validateInt32 (VNumber (Int z)) name 0 (2 ^ 32 - 1)
      = if (0 <=? z) && (z <? 2 ^ 31) then Ok tt else Throw (outOfRange name)).
  { intros z. unfold validateInt32. destruct (isInt32 (VNumber (Int z))) eqn:E; cbn [negb].
    - apply isInt32_spec in E as (z' & [= <-] & Hz). destruct (Z.ltb_spec z 0), (Z.leb_spec 0 z); try lia; [done|].
      cbn [orb andb]. rewrite (proj2 (Z.ltb_ge _ _)), (proj2 (Z.ltb_lt z _)) by lia. done.
    - destruct ((0 <=? z) && (z <? 2 ^ 31)) eqn:E2; [exfalso|done].
      apply andb_true_iff in E2 as [H1%Z.leb_le H2%Z.ltb_lt]. apply not_true_iff_false in E. apply E, isInt32_spec.
      exists z. split; [done|lia]. }
  unfold parseFileMode. destruct (or_default v def) as [| | |[z|]|s| | | |]; try done; cbn [rbind].
  - rewrite Hint. by destruct (_ && _).
  - destruct (is_octal s) eqn:E; [|done]. cbn [negb rbind]. rewrite Hint.
    apply parse_octal_nonneg, Z.leb_le in E. rewrite E. cbn [andb]. by destruct (_ <? _).
Qed.

(** Octal notation is read back. *)
Theorem file_mode_octal (n : Z) (name : jsstr) :
  0 <= n < 2 ^ 31 -> parseFileMode (VString (octal_digits 11 n)) name VUndefined = Ok (VNumber (Int n)).
Proof.
  intros Hn. destruct (octal_digits_ok 11 n) as [Ho Hp]; [cbn; lia|lia|]. unfold parseFileMode. cbn [or_default nullish].
  rewrite Ho, Hp. cbn [rbind]. unfold validateInt32. rewrite (proj2 (isInt32_spec _)) by (exists n; split; [done|lia]).
  cbn [negb]. rewrite (proj2 (Z.ltb_ge n 0)), (proj2 (Z.ltb_ge _ n)) by lia. done.
Qed.

(** The bound of the check is the largest unsigned number, but what is larger
    than a signed one is refused before. *)
Example mode_unsigned_refused :
  parseFileMode (VNumber (Int (2 ^ 31))) (js "mode") VUndefined = Throw (outOfRange (js "mode")).
Proof. by vm_compute. Qed.
