(* ===== verification/ParseArgs.v ===== *)
(** * Command line arguments: internal/util/parse_args

    [parseArgs] checks its configuration, splits the arguments into tokens and
    interprets these.  The arguments are strings, as documented; a
    configuration is a tree of values, and the object of options a list of its
    entries.  The host gives [process.argv] and [process.execArgv]. *)

From stdpp Require Import gmap.
From S2P Require Import Prelude Validators.
#[local] Open Scope Z_scope.

(** ** utils.js *)

Definition objectGetOwn (obj : value) (prop : jsstr) : option value :=
  match obj with VObject props => prop_of props prop | _ => None end.

Abbreviation entries := (list (jsstr * value)).

Definition optionsGetOwn (options : entries) (longOption prop : jsstr) : option value :=
  prop_of options longOption ≫= fun config => objectGetOwn config prop.

Definition charAt (s : jsstr) (i : Z) : jsstr := option_list (at_index s i).
Definition dash : Z := 45.
Definition equals_sign : Z := 61.

(** [s.indexOf("=")], and [s.includes("=", from)]. *)
Definition indexOf_code (s : jsstr) (c : Z) : Z :=
  match list_find (fun x => x = c) s with Some (i, _) => Z.of_nat i | None => -1 end.
Definition includes_from (s : jsstr) (c : Z) (from : nat) : bool := bool_decide (c ∈ drop from s).

Definition isOptionValue (v : option jsstr) : bool := match v with Some _ => true | None => false end.

Definition isOptionLikeValue (v : option jsstr) : bool :=
  match v with
  | None => false
  | Some v => (1 <? len v) && str_eqb (charAt v 0) [dash]
  end.

Definition isLoneShortOption (arg : jsstr) : bool :=
  (len arg =? 2) && str_eqb (charAt arg 0) [dash] && negb (str_eqb (charAt arg 1) [dash]).

Definition isLoneLongOption (arg : jsstr) : bool :=
  (2 <? len arg) && is_prefix [dash; dash] arg && negb (includes_from arg equals_sign 3).

Definition isLongOptionAndValue (arg : jsstr) : bool :=
  (2 <? len arg) && is_prefix [dash; dash] arg && includes_from arg equals_sign 3.

(** [v === s]. *)
Definition is_string (v : option value) (s : jsstr) : bool :=
  match v with Some (VString t) => str_eqb t s | _ => false end.

Definition findLongOptionForShort (shortOption : jsstr) (options : entries) : jsstr :=
  match list_find (fun e => is_string (objectGetOwn e.2 (js "short")) shortOption = true) options with
  | Some (_, (name, _)) => name
  | None => shortOption
  end.

(** [optionsGetOwn(options, longOption, "type") === "string"]. *)
Definition takes_value (options : entries) (longOption : jsstr) : bool :=
  is_string (optionsGetOwn options longOption (js "type")) (js "string").

Definition isShortOptionGroup (arg : jsstr) (options : entries) : bool :=
  if len arg <=? 2 then false
  else if negb (str_eqb (charAt arg 0) [dash]) then false
  else if str_eqb (charAt arg 1) [dash] then false
  else negb (takes_value options (findLongOptionForShort (charAt arg 1) options)).

Definition isShortOptionAndValue (arg : jsstr) (options : entries) : bool :=
  if len arg <=? 2 then false
  else if negb (str_eqb (charAt arg 0) [dash]) then false
  else if str_eqb (charAt arg 1) [dash] then false
  else takes_value options (findLongOptionForShort (charAt arg 1) options).

Definition useDefaultValueOption (longOption : jsstr) (optionConfig : value) (values : gmap jsstr value) : bool :=
  match objectGetOwn optionConfig (js "default") with
  | None | Some VUndefined => false
  | Some _ => match values !! longOption with None | Some VUndefined => true | Some _ => false end
  end.

(** ** Tokens *)

Inductive token :=
| TOption (name rawName : jsstr) (index : Z) (value : option jsstr) (inlineValue : option bool)
| TPositional (index : Z) (value : jsstr)
| TTerminator (index : Z).

(** The expansion of a group of short options; [n] characters are left. *)
Fixpoint expand_loop (options : entries) (arg : jsstr) (n : nat) (index : Z) : list jsstr :=
  match n with
  | O => []
  | S n =>
      let shortOption := charAt arg index in
      let longOption := findLongOptionForShort shortOption options in
      if negb (takes_value options longOption) || (index =? len arg - 1) then
        ([dash] ++ shortOption) :: expand_loop options arg n (index + 1)
      else [[dash] ++ slice_from arg index]
  end.

Definition expand (options : entries) (arg : jsstr) : list jsstr := expand_loop options arg (length arg - 1) 1.

Fixpoint tokens_loop (options : entries) (fuel : nat) (remainingArgs : list jsstr) (index groupCount : Z) : option (list token) :=
  match remainingArgs with
  | [] => Some []
  | arg :: remainingArgs =>
      match fuel with
      | O => None
      | S fuel =>
          let nextArg := head remainingArgs in
          let '(index, groupCount) := if 0 <? groupCount then (index, groupCount - 1) else (index + 1, groupCount) in
          if str_eqb arg [dash; dash] then
            Some (TTerminator index :: imap (fun i v => TPositional (index + 1 + Z.of_nat i) v) remainingArgs)
          else if isLoneShortOption arg then
            let longOption := findLongOptionForShort (charAt arg 1) options in
            if takes_value options longOption && isOptionValue nextArg then
              cons (TOption longOption arg index nextArg (Some false))
                <$> tokens_loop options fuel (tail remainingArgs) (index + 1) groupCount
            else cons (TOption longOption arg index None None) <$> tokens_loop options fuel remainingArgs index groupCount
          else if isShortOptionGroup arg options then
            let expanded := expand options arg in
            tokens_loop options fuel (expanded ++ remainingArgs) index (len expanded)
          else if isShortOptionAndValue arg options then
            let shortOption := charAt arg 1 in
            let longOption := findLongOptionForShort shortOption options in
            cons (TOption longOption ([dash] ++ shortOption) index (Some (slice_from arg 2)) (Some true))
              <$> tokens_loop options fuel remainingArgs index groupCount
          else if isLoneLongOption arg then
            let longOption := slice_from arg 2 in
            if takes_value options longOption && isOptionValue nextArg then
              cons (TOption longOption arg index nextArg (Some false))
                <$> tokens_loop options fuel (tail remainingArgs) (index + 1) groupCount
            else cons (TOption longOption arg index None None) <$> tokens_loop options fuel remainingArgs index groupCount
          else if isLongOptionAndValue arg then
            let equalIndex := indexOf_code arg equals_sign in
            let longOption := slice arg 2 equalIndex in
            cons (TOption longOption ([dash; dash] ++ longOption) index (Some (slice_from arg (equalIndex + 1))) (Some true))
              <$> tokens_loop options fuel remainingArgs index groupCount
          else cons (TPositional index arg) <$> tokens_loop options fuel remainingArgs index groupCount
      end
  end.

(** An argument is taken out in one step, a group in one step for every
    character. *)
Definition tokens_fuel (args : list jsstr) : nat := sum_list_with (fun a => S (length a)) args.

Definition argsToTokens (args : list jsstr) (options : entries) : option (list token) :=
  tokens_loop options (tokens_fuel args) args (-1) 0.

(** ** Interpretation of the tokens *)

Definition invalid_value (name : jsstr) : jserr := Coded "ERR_PARSE_ARGS_INVALID_OPTION_VALUE" name.

Definition checkOptionLikeValue (rawName : jsstr) (v : option jsstr) (inlineValue : option bool) : result unit :=
  if negb (default false inlineValue) && isOptionLikeValue v then Throw (invalid_value rawName) else Ok tt.

Definition has_own (props : entries) (p : jsstr) : bool := bool_decide (is_Some (prop_of props p)).

Definition checkOptionUsage (options : entries) (name rawName : jsstr) (v : option jsstr) : result unit :=
  if negb (has_own options name) then Throw (Coded "ERR_PARSE_ARGS_UNKNOWN_OPTION" rawName)
  else
    let type := optionsGetOwn options name (js "type") in
    if is_string type (js "string") && negb (isOptionValue v) then Throw (invalid_value name)
    else if is_string type (js "boolean") && isOptionValue v then Throw (invalid_value name)
    else Ok tt.

(** [optionsGetOwn(options, longOption, "multiple")], a boolean by the checks of
    the configuration. *)
Definition is_multiple (options : entries) (longOption : jsstr) : bool :=
  match optionsGetOwn options longOption (js "multiple") with Some (VBool b) => b | _ => false end.

Definition proto : jsstr := js "__proto__".

(** [push] on a string throws, on another primitive it does nothing. *)
Definition push_value (existing new : value) : result value :=
  match existing with
  | VArray l => Ok (VArray (l ++ [new]))
  | VString _ => Throw (TypeError "push")
  | v => Ok v
  end.

(** Of the values that are stored. *)
Definition truthy (v : value) : bool :=
  match v with
  | VUndefined | VNull | VBool false | VNumber (Int 0) => false
  | VString s => negb (len s =? 0)
  | _ => true
  end.

Definition storeOption (longOption : jsstr) (optionValue : option jsstr) (options : entries) (values : gmap jsstr value)
    : result (gmap jsstr value) :=
  if str_eqb longOption proto then Ok values
  else
    let newValue := match optionValue with Some s => VString s | None => VBool true end in
    if is_multiple options longOption then
      match values !! longOption with
      | Some v =>
          if truthy v then let! v := push_value v newValue in Ok (<[longOption := v]> values)
          else Ok (<[longOption := VArray [newValue]]> values)
      | None => Ok (<[longOption := VArray [newValue]]> values)
      end
    else Ok (<[longOption := newValue]> values).

Definition storeDefaultOption (longOption : jsstr) (optionValue : value) (values : gmap jsstr value) : gmap jsstr value :=
  if str_eqb longOption proto then values else <[longOption := optionValue]> values.

Record parsed := Parsed { values : gmap jsstr value; positionals : list jsstr; tokens : option (list token) }.

Fixpoint process_tokens (options : entries) (strict allowPositionals : bool) (ts : list token)
    (values : gmap jsstr value) (positionals : list jsstr) : result (gmap jsstr value * list jsstr) :=
  match ts with
  | [] => Ok (values, positionals)
  | TOption name rawName _ v inlineValue :: ts =>
      let! _ :=
        if strict then
          let! _ := checkOptionUsage options name rawName v in checkOptionLikeValue rawName v inlineValue
        else Ok tt in
      let! values := storeOption name v options values in
      process_tokens options strict allowPositionals ts values positionals
  | TPositional _ v :: ts =>
      if negb allowPositionals then Throw (Coded "ERR_PARSE_ARGS_UNEXPECTED_POSITIONAL" v)
      else process_tokens options strict allowPositionals ts values (positionals ++ [v])
  | TTerminator _ :: ts => process_tokens options strict allowPositionals ts values positionals
  end.

Fixpoint fill_defaults (options : entries) (values : gmap jsstr value) : gmap jsstr value :=
  match options with
  | [] => values
  | (longOption, optionConfig) :: options =>
      fill_defaults options
        (if useDefaultValueOption longOption optionConfig values
         then storeDefaultOption longOption (default VUndefined (objectGetOwn optionConfig (js "default"))) values
         else values)
  end.

(** ** The configuration *)

Definition validate_option (longOption : jsstr) (optionConfig : value) : result unit :=
  let name := js "options." ++ longOption in
  let! _ := validateObject optionConfig name None in
  let optionType := default VUndefined (objectGetOwn optionConfig (js "type")) in
  let! _ := validateUnion optionType (name ++ js ".type") [js "string"; js "boolean"] in
  let! _ :=
    match objectGetOwn optionConfig (js "short") with
    | Some shortOption =>
        let! _ := validateString shortOption (name ++ js ".short") in
        match shortOption with
        | VString s => if negb (len s =? 1) then Throw (argValue (name ++ js ".short")) else Ok tt
        | _ => Ok tt
        end
    | None => Ok tt
    end in
  let multipleOption := objectGetOwn optionConfig (js "multiple") in
  let! _ := match multipleOption with Some m => validateBoolean m (name ++ js ".multiple") | None => Ok tt end in
  let multiple := match multipleOption with Some (VBool b) => b | _ => false end in
  match objectGetOwn optionConfig (js "default") with
  | None | Some VUndefined => Ok tt
  | Some defaultValue =>
      match optionType with
      | VString t =>
          if str_eqb t (js "string") then (if multiple then validateStringArray else validateString) defaultValue (name ++ js ".default")
          else (if multiple then validateBooleanArray else validateBoolean) defaultValue (name ++ js ".default")
      | _ => Ok tt
      end
  end.

Fixpoint validate_options (options : entries) : result unit :=
  match options with
  | [] => Ok tt
  | (longOption, optionConfig) :: options =>
      let! _ := validate_option longOption optionConfig in validate_options options
  end.

(** [config.args]: an array of strings, or something that is no array. *)
Inductive args_value := ArgList (l : list jsstr) | ArgOther (v : value).

(** The own properties of the configuration. *)
Record config := Config {
  c_args : option args_value;
  c_strict : option value;
  c_allowPositionals : option value;
  c_tokens : option value;
  c_options : option value
}.

Definition from_config (v : option value) (d : value) : value := or_default (default VUndefined v) d.

(** What is a boolean by the check before. *)
Definition as_bool (v : value) : bool := match v with VBool b => b | _ => false end.

Section ParseArgs.
Context (argv execArgv : list jsstr).

Definition getMainArgs : list jsstr :=
  if bool_decide (js "-e" ∈ execArgv) || bool_decide (js "--eval" ∈ execArgv)
     || bool_decide (js "-p" ∈ execArgv) || bool_decide (js "--print" ∈ execArgv)
  then slice_from argv 1 else slice_from argv 2.

Definition args_of (c : config) : args_value :=
  match c_args c with
  | None | Some (ArgOther VUndefined) | Some (ArgOther VNull) => ArgList getMainArgs
  | Some a => a
  end.

(** [!strict] of a value; what is no boolean is refused right after. *)
Definition parseArgs (c : config) : result parsed :=
  let args := args_of c in
  let strict := from_config (c_strict c) (VBool true) in
  let allowPositionals := from_config (c_allowPositionals c) (VBool (negb (truthy strict))) in
  let returnTokens := from_config (c_tokens c) (VBool false) in
  let options := from_config (c_options c) (VObject []) in
  let! args := match args with ArgList l => Ok l | ArgOther _ => Throw (argType (js "args")) end in
  let! _ := validateBoolean strict (js "strict") in
  let! _ := validateBoolean allowPositionals (js "allowPositionals") in
  let! _ := validateBoolean returnTokens (js "tokens") in
  let! _ := validateObject options (js "options") None in
  let options := match options with VObject l => l | _ => [] end in
  let! _ := validate_options options in
  match argsToTokens args options with
  | None => Throw (Error "out of fuel")
  | Some ts =>
      let! r := process_tokens options (as_bool strict) (as_bool allowPositionals) ts ∅ [] in
      Ok (Parsed (fill_defaults options (fst r)) (snd r) (if as_bool returnTokens then Some ts else None))
  end.
End ParseArgs.

(** ** The forms of an argument *)

Lemma charAt_cons_0 c s : charAt (c :: s) 0 = [c].
Proof. done. Qed.
Lemma charAt_cons_1 a c s : charAt (a :: c :: s) 1 = [c].
Proof. done. Qed.
Lemma charAt_mid p c s : charAt (p ++ c :: s) (len p) = [c].
Proof. unfold charAt. by rewrite at_index_mid. Qed.
Lemma str_eqb_spec s t : str_eqb s t = true <-> s = t.
Proof. apply bool_decide_eq_true. Qed.
Lemma str_eqb_1 c d : str_eqb [c] [d] = (c =? d).
Proof.
  destruct (Z.eqb_spec c d) as [->|Hn]; [apply str_eqb_refl|]. apply bool_decide_eq_false. congruence.
Qed.

Lemma slice_from_2 {X} (a b : X) s : slice_from (a :: b :: s) 2 = s.
Proof. exact (slice_from_suffix [a; b] s). Qed.

Definition long_of (options : entries) (c : Z) : jsstr := findLongOptionForShort [c] options.

Lemma lone_short_spec arg : isLoneShortOption arg = true <-> exists c, arg = [dash; c] /\ c <> dash.
Proof.
  unfold isLoneShortOption. split.
  - destruct arg as [|a [|c [|x s]]]; cbn [len length]; try done.
    + rewrite charAt_cons_0, charAt_cons_1, !str_eqb_1. intros [[_ H1%Z.eqb_eq]%andb_true_iff H2%negb_true_iff%Z.eqb_neq]%andb_true_iff.
      subst. by exists c.
    + intros [[H%Z.eqb_eq _]%andb_true_iff _]%andb_true_iff. unfold len in H. cbn in H. lia.
  - intros (c & -> & Hc). rewrite charAt_cons_0, charAt_cons_1, !str_eqb_1. cbn. by rewrite (proj2 (Z.eqb_neq c dash)).
Qed.

(** A dash, another character, and more. *)
Inductive short_form : jsstr -> Z -> jsstr -> Prop :=
| short_form_intro c s : c <> dash -> s <> [] -> short_form (dash :: c :: s) c s.

Lemma short_test arg (b : Z -> bool) :
  (if len arg <=? 2 then false
   else if negb (str_eqb (charAt arg 0) [dash]) then false
   else if str_eqb (charAt arg 1) [dash] then false
   else b (default 0 (at_index arg 1))) = true <-> exists c s, short_form arg c s /\ b c = true.
Proof.
  destruct arg as [|a [|c [|x s]]].
  - cbn. split; [done|]. by intros (? & ? & H & _); inversion H.
  - cbn. split; [done|]. by intros (? & ? & H & _); inversion H.
  - cbn. split; [done|]. intros (? & ? & H & _). by inversion H.
  - rewrite charAt_cons_0, charAt_cons_1, !str_eqb_1.
    replace (len (a :: c :: x :: s) <=? 2) with false by (symmetry; apply Z.leb_gt; rewrite !len_cons; pose proof (len_nonneg s); lia).
    destruct (Z.eqb_spec a dash) as [->|Ha]; cbn [negb].
    2:{ split; [done|]. intros (? & ? & H & _). by inversion H. }
    destruct (Z.eqb_spec c dash) as [->|Hc].
    { split; [done|]. intros (? & ? & H & _). by inversion H. }
    split; [intros Hb; exists c, (x :: s); split; [by constructor|done]|].
    intros (? & ? & H & Hb). by inversion H; subst.
Qed.

Lemma short_group_spec arg options :
  isShortOptionGroup arg options = true
  <-> exists c s, short_form arg c s /\ takes_value options (long_of options c) = false.
Proof.
  pose proof (short_test arg (fun c => negb (takes_value options (long_of options c)))) as H.
  setoid_rewrite negb_true_iff in H. rewrite <- H. clear H. unfold isShortOptionGroup.
  destruct arg as [|a [|c s]]; try done.
Qed.

Lemma short_value_spec arg options :
  isShortOptionAndValue arg options = true
  <-> exists c s, short_form arg c s /\ takes_value options (long_of options c) = true.
Proof.
  rewrite <- (short_test arg (fun c => takes_value options (long_of options c))). unfold isShortOptionAndValue.
  destruct arg as [|a [|c s]]; try done.
Qed.

Lemma is_prefix_dashes arg : is_prefix [dash; dash] arg = true <-> exists s, arg = dash :: dash :: s.
Proof.
  split; [|by intros [s ->]]. destruct arg as [|a [|b s]]; cbn [is_prefix]; [done|by rewrite andb_false_r|].
  rewrite andb_true_r. intros [H1%Z.eqb_eq H2%Z.eqb_eq]%andb_true_iff. subst. by exists s.
Qed.

Lemma lone_long_spec arg :
  isLoneLongOption arg = true <-> exists s, arg = dash :: dash :: s /\ s <> [] /\ equals_sign ∉ drop 1 s.
Proof.
  unfold isLoneLongOption, includes_from. rewrite !andb_true_iff, Z.ltb_lt, is_prefix_dashes, negb_true_iff, bool_decide_eq_false. split.
  - intros [[H [s ->]] Hn]. exists s. split; [done|]. split; [|done]. rewrite !len_cons in H. apply len_pos_inv. lia.
  - intros (s & -> & Hs & Hn). rewrite !len_cons. apply len_pos in Hs. split; [split; [lia|by exists s]|done].
Qed.

Lemma long_value_spec arg :
  isLongOptionAndValue arg = true <-> exists s, arg = dash :: dash :: s /\ equals_sign ∈ drop 1 s.
Proof.
  unfold isLongOptionAndValue, includes_from. rewrite !andb_true_iff, Z.ltb_lt, is_prefix_dashes, bool_decide_eq_true. split.
  - intros [[H [s ->]] Hn]. by exists s.
  - intros (s & -> & Hn). split; [split; [|by exists s]|done]. destruct s as [|x s]; [by apply elem_of_nil in Hn|].
    rewrite !len_cons. pose proof (len_nonneg s). lia.
Qed.

(** The first equals sign splits an argument. *)
Lemma indexOf_code_split s c : c ∈ s -> exists u v, s = u ++ (c :: v) /\ (c ∉ u) /\ indexOf_code s c = len u.
Proof.
  intros Hc. unfold indexOf_code. destruct (list_find (fun x => x = c) s) as [[i x]|] eqn:E.
  - apply list_find_Some in E as (Hi & -> & Hbefore). exists (take i s), (drop (S i) s).
    split; [by rewrite take_drop_middle|]. apply lookup_lt_Some in Hi as Hlt.
    split; [|unfold len; rewrite length_take; lia].
    intros (j & Hj)%list_elem_of_lookup. apply lookup_take_Some in Hj as [Hj Hji]. by apply (Hbefore j c).
  - apply list_find_None in E. rewrite Forall_forall in E. by apply E in Hc.
Qed.

Lemma long_value_split s :
  equals_sign ∈ drop 1 s ->
  exists u v, s = u ++ equals_sign :: v /\ indexOf_code (dash :: dash :: s) equals_sign = 2 + len u.
Proof.
  intros Hs. assert (Hin : equals_sign ∈ dash :: dash :: s).
  { do 2 (apply list_elem_of_further). rewrite <- (take_drop 1 s). apply elem_of_app. by right. }
  destruct (indexOf_code_split _ _ Hin) as (u & v & E & Hu & Hi). destruct u as [|a [|b u]]; try done.
  injection E as <- <- ->. exists u, v. split; [done|]. rewrite Hi, !len_cons. lia.
Qed.

(** ** Expansion of groups *)

Fixpoint expand_list (options : entries) (s : jsstr) : list jsstr :=
  match s with
  | [] => []
  | c :: s' =>
      if negb (takes_value options (long_of options c)) || (length s' =? 0)%nat then [dash; c] :: expand_list options s'
      else [dash :: s]
  end.

Lemma expand_loop_list options p s : expand_loop options (p ++ s) (length s) (len p) = expand_list options s.
Proof.
  revert p. induction s as [|c s IH]; intros p; [done|]. cbn [length expand_loop expand_list].
  rewrite charAt_mid. fold (long_of options c).
  replace (len p =? len (p ++ c :: s) - 1) with (length s =? 0)%nat.
  2:{ rewrite len_app, len_cons. unfold len. destruct (Nat.eqb_spec (length s) 0), (Z.eqb_spec (Z.of_nat (length p)) (Z.of_nat (length p) + (1 + Z.of_nat (length s)) - 1)); lia. }
  destruct (_ || _); [|by rewrite slice_from_suffix]. cbn [app]. f_equal.
  specialize (IH (p ++ [c])). rewrite <- app_assoc, len_app in IH. exact IH.
Qed.

Lemma expand_group options c s : expand options (dash :: c :: s) = expand_list options (c :: s).
Proof. exact (expand_loop_list options [dash] (c :: s)). Qed.

Lemma expand_list_length options s : (length (expand_list options s) <= length s)%nat.
Proof. induction s as [|c s IH]; cbn; [done|]. destruct (_ || _); cbn; lia. Qed.

Lemma expand_list_plain options s : Forall (fun a => isShortOptionGroup a options = false) (expand_list options s).
Proof.
  induction s as [|c s IH]; cbn [expand_list]; [constructor|]. destruct (_ || _) eqn:E; apply Forall_cons.
  - split; [done|exact IH].
  - split; [|constructor]. apply orb_false_iff in E as [E%negb_false_iff _]. apply not_true_iff_false.
    rewrite short_group_spec. intros (c' & s' & H & Hn). inversion H; subst. congruence.
Qed.

(** ** Termination *)

Definition weight (options : entries) (arg : jsstr) : nat := if isShortOptionGroup arg options then length arg else 1.

Lemma weight_plain options l : Forall (fun a => isShortOptionGroup a options = false) l -> sum_list_with (weight options) (l) = length l.
Proof. induction 1 as [|a l H _ IH]; [done|]. cbn. unfold weight at 1. rewrite H, IH. done. Qed.

Lemma tokens_loop_total options fuel args index groupCount :
  (sum_list_with (weight options) (args) <= fuel)%nat -> is_Some (tokens_loop options fuel args index groupCount).
Proof.
  revert args index groupCount. induction fuel as [|fuel IH]; intros [|arg args] index groupCount Hf; cbn [tokens_loop]; try done.
  { cbn in Hf. unfold weight in Hf. destruct (isShortOptionGroup arg options) eqn:E; [|lia].
    apply short_group_spec in E as (c & s & H & _). inversion H; subst. cbn in Hf. lia. }
  cbn [sum_list_with] in Hf.
  assert (Htail : (sum_list_with (weight options) (tail args) <= sum_list_with (weight options) (args))%nat) by (destruct args; cbn; lia).
  destruct (if 0 <? groupCount then _ else _) as [index' groupCount']. destruct (str_eqb arg [dash; dash]); [done|].
  assert (Hlone : isLoneShortOption arg = true -> weight options arg = 1%nat).
  { intros (c & -> & _)%lone_short_spec. done. }
  destruct (isLoneShortOption arg); [specialize (Hlone eq_refl)|clear Hlone].
  { destruct (_ && _); rewrite fmap_is_Some; apply IH; lia. }
  unfold weight at 1 in Hf. destruct (isShortOptionGroup arg options) eqn:Eg.
  { apply short_group_spec in Eg as (c & s & H & _). inversion H; subst. apply IH. rewrite expand_group, sum_list_with_app.
    rewrite weight_plain by apply expand_list_plain. pose proof (expand_list_length options (c :: s)). cbn in *. lia. }
  repeat (match goal with |- context [if ?b then _ else _] => destruct b end); rewrite ?fmap_is_Some; apply IH; lia.
Qed.

Lemma argsToTokens_total args options : is_Some (argsToTokens args options).
Proof.
  apply tokens_loop_total. unfold tokens_fuel. induction args as [|a args IH]; [done|]. cbn in *.
  unfold weight at 1. destruct (isShortOptionGroup _ _); lia.
Qed.

(** ** The arguments from the tokens *)

(** The options of a group have the index of the group. *)
Definition index_of (t : token) : Z := match t with TOption _ _ i _ _ | TPositional i _ | TTerminator i => i end.
Definition same_group (i : Z) (ts : list token) : bool := match ts with t :: _ => index_of t =? i | [] => false end.

Fixpoint reprint (ts : list token) : list jsstr :=
  match ts with
  | [] => []
  | TTerminator _ :: ts => [dash; dash] :: reprint ts
  | TPositional _ v :: ts => v :: reprint ts
  | TOption _ raw _ (Some v) (Some true) :: ts =>
      (if is_prefix [dash; dash] raw then raw ++ [equals_sign] ++ v else raw ++ v) :: reprint ts
  | TOption _ raw _ (Some v) _ :: ts => raw :: v :: reprint ts
  | TOption _ raw i None _ :: ts =>
      match reprint ts with
      | a :: l => if same_group i ts then (raw ++ drop 1 a) :: l else raw :: a :: l
      | [] => [raw]
      end
  end.

(** No group contains a dash. *)
Definition no_dash (options : entries) (arg : jsstr) : Prop := isShortOptionGroup arg options = true -> (dash ∉ drop 1 arg).

(** The tokens are those of arguments with an index above [index]. *)
Definition above (index : Z) (ts : list token) : Prop := forall j, j <= index -> same_group j ts = false.

Lemma reprint_positionals args i f :
  reprint (imap (fun k v => TPositional (i + Z.of_nat (f k)) v) args) = args.
Proof. revert f. induction args as [|a args IH]; intros f; [done|]. cbn. f_equal. apply (IH (f ∘ S)). Qed.

Lemma short_not_terminator c : c <> dash -> str_eqb [dash; c] [dash; dash] = false.
Proof. intros Hc. apply bool_decide_eq_false. congruence. Qed.

Lemma short_form_facts arg c s :
  short_form arg c s ->
  arg = dash :: c :: s /\ str_eqb arg [dash; dash] = false /\ isLoneShortOption arg = false.
Proof.
  intros H. inversion H as [c' s' Hc Hs]; subst. split; [done|]. split; [apply bool_decide_eq_false; congruence|].
  apply not_true_iff_false. rewrite lone_short_spec. intros (c' & E & _). congruence.
Qed.

Lemma reprint_plain name raw i inl ts :
  above i ts -> reprint (TOption name raw i None inl :: ts) = raw :: reprint ts.
Proof. intros H. cbn [reprint]. rewrite (H i) by lia. by destruct (reprint ts). Qed.

(** What is to be shown of the loop at the start of an argument. *)
Definition reprints (options : entries) (fuel : nat) : Prop :=
  forall args index ts, tokens_loop options fuel args index 0 = Some ts -> Forall (no_dash options) args ->
  reprint ts = args /\ above index ts.

Ltac invert_fmap H :=
  apply fmap_Some in H as (?ts' & ?E' & ->).

(** A group whose last option takes the next argument. *)
Lemma reprint_separate options fuel (rest : list jsstr) index name raw ts :
  reprints options fuel -> Forall (no_dash options) rest ->
  cons (TOption name raw index (head rest) (Some false)) <$> tokens_loop options fuel (tail rest) (index + 1) 0 = Some ts ->
  isOptionValue (head rest) = true ->
  reprint ts = raw :: rest /\ same_group index ts = true.
Proof.
  intros IH Hrest Hts Hv. destruct rest as [|v rest]; [done|]. cbn [head tail] in *. apply Forall_cons in Hrest as [_ Hrest].
  invert_fmap Hts. destruct (IH _ _ _ E' Hrest) as [<- _]. split; [done|]. cbn. apply Z.eqb_refl.
Qed.

Lemma reprint_group options fuel s rest index ts :
  (forall fuel', (fuel' < fuel)%nat -> reprints options fuel') ->
  s <> [] -> (dash ∉ s) -> Forall (no_dash options) rest ->
  tokens_loop options fuel (expand_list options s ++ rest) index (len (expand_list options s)) = Some ts ->
  reprint ts = (dash :: s) :: rest /\ same_group index ts = true.
Proof.
  revert fuel index ts. induction s as [|c s IHs]; intros fuel index ts IH Hs Hd Hrest Hts; [done|].
  apply not_elem_of_cons in Hd as [Hc Hd]. cbn [expand_list] in Hts.
  destruct (takes_value options (long_of options c)) eqn:Ht; [destruct s as [|x s]|]; cbn [negb orb length Nat.eqb] in Hts.
  - (* the last takes a value *)
    destruct fuel as [|fuel]; [done|]. cbn [expand_list app tokens_loop] in Hts. change (len [[dash; c]]) with 1 in Hts. rewrite short_not_terminator in Hts by done.
    rewrite (proj2 (lone_short_spec [dash; c])) in Hts by eauto. rewrite charAt_cons_1 in Hts. fold (long_of options c) in Hts.
    cbn in Hts. rewrite Ht in Hts. cbn [andb] in Hts. destruct (isOptionValue (head rest)) eqn:Hv.
    + exact (reprint_separate options fuel rest index _ _ ts (IH fuel ltac:(lia)) Hrest Hts Hv).
    + destruct rest; [|done]. invert_fmap Hts. destruct (IH fuel ltac:(lia) _ _ _ E' ltac:(constructor)) as [H1 H2].
      rewrite reprint_plain by done. rewrite H1. split; [done|]. apply Z.eqb_refl.
  - (* an option in the middle takes the rest as its value *)
    destruct fuel as [|fuel]; [done|]. cbn [app tokens_loop] in Hts. change (len [dash :: c :: x :: s]) with 1 in Hts.
    assert (Hform : short_form (dash :: c :: x :: s) c (x :: s)) by (by constructor).
    destruct (short_form_facts _ _ _ Hform) as (_ & E1 & E2). rewrite E1, E2 in Hts.
    assert (Eg : isShortOptionGroup (dash :: c :: x :: s) options = false).
    { apply not_true_iff_false. rewrite short_group_spec. intros (c' & s' & H & Hn). inversion H; subst. congruence. }
    rewrite Eg, (proj2 (short_value_spec _ _)) in Hts by eauto. rewrite slice_from_2, charAt_cons_1 in Hts. cbn in Hts.
    invert_fmap Hts. destruct (IH fuel ltac:(lia) _ _ _ E' Hrest) as [H1 H2]. cbn [reprint]. rewrite H1.
    replace (is_prefix [dash; dash] [dash; c]) with false by (cbn [is_prefix]; by rewrite (proj2 (Z.eqb_neq dash c)), andb_false_r).
    split; [done|]. apply Z.eqb_refl.
  - (* an option without a value *)
    destruct fuel as [|fuel]; [done|]. cbn [app tokens_loop] in Hts. rewrite short_not_terminator in Hts by done.
    rewrite (proj2 (lone_short_spec [dash; c])) in Hts by eauto. rewrite charAt_cons_1 in Hts. fold (long_of options c) in Hts.
    rewrite len_cons in Hts. rewrite (proj2 (Z.ltb_lt _ _)) in Hts by (pose proof (len_nonneg (expand_list options s)); lia).
    rewrite Ht in Hts. cbn [andb] in Hts. invert_fmap Hts. rename ts' into us.
    replace (1 + len (expand_list options s) - 1) with (len (expand_list options s)) in E' by lia.
    destruct s as [|x s].
    + destruct (IH fuel ltac:(lia) rest index us E' Hrest) as [H1 H2]. rewrite reprint_plain, H1 by done. split; [done|]. apply Z.eqb_refl.
    + destruct (IHs fuel index us) as [H1 H2]; [intros; apply IH; lia|done|done|done|done|].
      cbn [reprint]. rewrite H1, H2. split; [done|]. apply Z.eqb_refl.
Qed.

Lemma above_cons index t ts : index < index_of t -> above index (t :: ts).
Proof. intros H j Hj. cbn. apply Z.eqb_neq. lia. Qed.

(** An option written on its own. *)
Lemma reprint_alone options fuel arg args index name ts (takes : bool) :
  reprints options fuel -> Forall (no_dash options) args ->
  (if takes && isOptionValue (head args)
   then cons (TOption name arg (index + 1) (head args) (Some false)) <$> tokens_loop options fuel (tail args) (index + 1 + 1) 0
   else cons (TOption name arg (index + 1) None None) <$> tokens_loop options fuel args (index + 1) 0) = Some ts ->
  reprint ts = arg :: args /\ above index ts.
Proof.
  intros IH Hargs Hts. destruct (takes && isOptionValue (head args)) eqn:E.
  - apply andb_true_iff in E as [_ Hv]. destruct (reprint_separate _ _ _ _ _ _ _ IH Hargs Hts Hv) as [H1 _].
    split; [done|]. invert_fmap Hts. apply above_cons. cbn. lia.
  - invert_fmap Hts. destruct (IH _ _ _ E' Hargs) as [H1 H2]. rewrite reprint_plain, H1 by done.
    split; [done|]. apply above_cons. cbn. lia.
Qed.

Lemma reprint_inline name raw i v ts :
  reprint (TOption name raw i (Some v) (Some true) :: ts)
  = (if is_prefix [dash; dash] raw then raw ++ [equals_sign] ++ v else raw ++ v) :: reprint ts.
Proof. done. Qed.

Lemma reprint_long_value s u v :
  s = u ++ equals_sign :: v -> indexOf_code (dash :: dash :: s) equals_sign = 2 + len u ->
  let e := indexOf_code (dash :: dash :: s) equals_sign in
  slice (dash :: dash :: s) 2 e = u /\ slice_from (dash :: dash :: s) (e + 1) = v.
Proof.
  intros -> E. cbv zeta. rewrite E. split; [exact (slice_mid [dash; dash] u (equals_sign :: v))|].
  pose proof (slice_from_suffix (dash :: dash :: u ++ [equals_sign]) v) as H.
  rewrite !len_cons, len_app in H. change (len [equals_sign]) with 1 in H. cbn [app] in H. rewrite <- app_assoc in H.
  replace (2 + len u + 1) with (1 + (1 + (len u + 1))) by lia. exact H.
Qed.

Lemma reprint_loop options fuel : reprints options fuel.
Proof.
  induction fuel as [fuel IH] using lt_wf_ind. intros args index ts Hts Hargs.
  destruct args as [|arg args].
  { by destruct fuel; injection Hts as <-. }
  destruct fuel as [|fuel]; [done|]. apply Forall_cons in Hargs as [Harg Hargs]. cbn [tokens_loop] in Hts.
  change (0 <? 0) with false in Hts. cbn match beta in Hts.
  assert (IHf : reprints options fuel) by (apply IH; lia).
  destruct (str_eqb arg [dash; dash]) eqn:Et.
  { apply str_eqb_spec in Et as ->. injection Hts as <-. split; [|apply above_cons; cbn; lia].
    cbn [reprint]. f_equal. apply (reprint_positionals args (index + 1 + 1) id). }
  destruct (isLoneShortOption arg); [by eapply reprint_alone|].
  destruct (isShortOptionGroup arg options) eqn:Eg.
  { specialize (Harg Eg). apply short_group_spec in Eg as (c & s & Hform & _).
    destruct (short_form_facts _ _ _ Hform) as (-> & _). rewrite expand_group in Hts.
    destruct (reprint_group options fuel (c :: s) args (index + 1) ts) as [H1 H2]; [intros; apply IH; lia|done|done|done|done|].
    split; [done|]. destruct ts as [|t ts]; [done|]. cbn in H2. apply Z.eqb_eq in H2. apply above_cons. lia. }
  destruct (isShortOptionAndValue arg options) eqn:Ev.
  { apply short_value_spec in Ev as (c & s & Hform & _). inversion Hform as [c' s' Hc Hs]; subst.
    rewrite slice_from_2, charAt_cons_1 in Hts. invert_fmap Hts. destruct (IHf _ _ _ E' Hargs) as [H1 _].
    rewrite reprint_inline, H1. split; [|apply above_cons; cbn; lia]. cbn [app is_prefix].
    by rewrite (proj2 (Z.eqb_neq dash c)), andb_false_r by done. }
  destruct (isLoneLongOption arg); [by eapply reprint_alone|].
  destruct (isLongOptionAndValue arg) eqn:El.
  { apply long_value_spec in El as (s & -> & Hs). destruct (long_value_split s Hs) as (u & v & -> & Ei).
    destruct (reprint_long_value _ u v eq_refl Ei) as [H2 H3]. rewrite H2, H3 in Hts. invert_fmap Hts.
    destruct (IHf _ _ _ E' Hargs) as [H1 _]. rewrite reprint_inline, H1. split; [done|]. apply above_cons. cbn. lia. }
  invert_fmap Hts. destruct (IHf _ _ _ E' Hargs) as [H1 _]. cbn [reprint]. rewrite H1. split; [done|]. apply above_cons. cbn. lia.
Qed.

(** C36: The tokens of any arguments exist and lose nothing: putting them back
    together, the options of a group by their common index, gives the
    arguments again, provided no group of short options contains a dash. *)
Theorem tokens_reprint (args : list jsstr) (options : entries) :
  Forall (no_dash options) args ->
  exists ts, argsToTokens args options = Some ts /\ reprint ts = args.
Proof.
  intros Hargs. destruct (argsToTokens_total args options) as [ts E]. exists ts. split; [done|].
  by apply (reprint_loop options _ args (-1) ts E).
Qed.

(** ** What is stored *)

Definition stored (v : option jsstr) : value := match v with Some s => VString s | None => VBool true end.

(** The values the tokens give for an option, in order. *)
Definition occurrences (ts : list token) (name : jsstr) : list value :=
  omap (fun t => match t with TOption n _ _ v _ => if decide (n = name) then Some (stored v) else None | _ => None end) ts.
Definition positionals_of (ts : list token) : list jsstr :=
  omap (fun t => match t with TPositional _ v => Some v | _ => None end) ts.

(** The value of an option after more occurrences. *)
Definition collect (multiple : bool) (old : option value) (vs : list value) : option value :=
  match vs with
  | [] => old
  | _ :: _ =>
      if multiple then Some (VArray (match old with Some (VArray l) => l | _ => [] end ++ vs)) else last vs
  end.

Definition no_scalar (v : option value) : Prop := match v with None | Some (VArray _) => True | Some _ => False end.

(** An option that can be repeated has an array or nothing. *)
Definition values_ok (options : entries) (vals : gmap jsstr value) : Prop :=
  vals !! proto = None /\ forall name, is_multiple options name = true -> no_scalar (vals !! name).

Lemma storeOption_spec options name v vals :
  values_ok options vals ->
  exists vals', storeOption name v options vals = Ok vals' /\ values_ok options vals'
    /\ forall n, vals' !! n = if decide (n = name /\ name <> proto) then collect (is_multiple options name) (vals !! n) [stored v] else vals !! n.
Proof.
  intros [Hp Hm]. unfold storeOption. fold (stored v). destruct (str_eqb name proto) eqn:Ep.
  { apply str_eqb_spec in Ep as ->. exists vals. split; [done|]. split; [done|]. intros n. rewrite decide_False; [done|tauto]. }
  assert (Hn : name <> proto) by (intros ->; by rewrite str_eqb_refl in Ep).
  assert (Hset : forall x, (is_multiple options name = true -> no_scalar (Some x)) ->
      Some x = collect (is_multiple options name) (vals !! name) [stored v] ->
      exists vals', Ok (<[name := x]> vals) = Ok vals' /\ values_ok options vals'
      /\ forall n, vals' !! n = if decide (n = name /\ name <> proto) then collect (is_multiple options name) (vals !! n) [stored v] else vals !! n).
  { intros x Hx Hc. exists (<[name := x]> vals). split; [done|]. split.
    - split; [by rewrite lookup_insert_ne|]. intros n Hmn. destruct (decide (n = name)) as [->|Hne];
        [rewrite lookup_insert_eq; auto|rewrite lookup_insert_ne by done; auto].
    - intros n. destruct (decide (n = name)) as [->|Hne]; [rewrite lookup_insert_eq, decide_True by done; done|].
      rewrite lookup_insert_ne by done. rewrite decide_False; [done|tauto]. }
  destruct (is_multiple options name) eqn:Em; [specialize (Hm name Em)|by apply Hset].
  destruct (vals !! name) as [x|]; [|by apply Hset]. destruct x as [| | | | |l| | |]; try done. by apply Hset.
Qed.

Lemma collect_snoc m old v vs : collect m (collect m old [v]) vs = collect m old (v :: vs).
Proof.
  destruct vs as [|w vs]; [done|]. unfold collect at 1 2 3. destruct m; [|done]. by rewrite <- app_assoc.
Qed.

Lemma process_tokens_spec options strict allow ts vals pos vals' pos' :
  values_ok options vals -> process_tokens options strict allow ts vals pos = Ok (vals', pos') ->
  values_ok options vals' /\ pos' = pos ++ positionals_of ts
  /\ forall n, n <> proto -> vals' !! n = collect (is_multiple options n) (vals !! n) (occurrences ts n).
Proof.
  revert vals pos. induction ts as [|[name raw i v inl|i v|i] ts IH]; intros vals pos Hok H; cbn [process_tokens] in H.
  - injection H as <- <-. split; [done|]. by rewrite app_nil_r.
  - destruct (if strict then _ else _) as [[]|]; [|done]. cbn [rbind] in H.
    destruct (storeOption_spec options name v vals Hok) as (vals1 & E & Hok1 & H1). rewrite E in H. cbn [rbind] in H.
    destruct (IH _ _ Hok1 H) as (H2 & H3 & H4). split; [done|]. split; [done|]. intros n Hn. rewrite (H4 n Hn), H1.
    change (occurrences (_ :: ts) n) with (omap (fun t => match t with TOption n' _ _ v _ => if decide (n' = n) then Some (stored v) else None | _ => None end) (TOption name raw i v inl :: ts)).
    cbn [omap list_omap]. fold (occurrences ts n). destruct (decide (name = n)) as [->|Hne].
    + rewrite decide_True by done. apply collect_snoc.
    + rewrite decide_False; [done|]. intros [-> _]. done.
  - destruct allow; [|done]. cbn [negb] in H. destruct (IH _ _ Hok H) as (H2 & -> & H4). split; [done|]. split; [|done].
    by rewrite <- app_assoc.
  - by destruct (IH _ _ Hok H).
Qed.

(** The default of an option, unless it is [undefined]. *)
Definition default_of (options : entries) (name : jsstr) : option value :=
  match optionsGetOwn options name (js "default") with Some VUndefined | None => None | Some v => Some v end.

Lemma fill_default_1 n c vals k :
  (forall k, k <> proto -> vals !! k <> Some VUndefined) -> k <> proto ->
  (if useDefaultValueOption n c vals
   then storeDefaultOption n (default VUndefined (objectGetOwn c (js "default"))) vals else vals) !! k
  = match vals !! k with
    | Some v => Some v
    | None => if decide (k = n) then match objectGetOwn c (js "default") with Some VUndefined | None => None | Some v => Some v end else None
    end.
Proof.
  intros Hu Hk. unfold useDefaultValueOption, storeDefaultOption.
  assert (Hget : forall x, (if str_eqb n proto then vals else <[n := x]> vals) !! k
      = if decide (k = n) then Some x else vals !! k).
  { intros x. destruct (decide (k = n)) as [->|Hne].
    - replace (str_eqb n proto) with false by (symmetry; by apply bool_decide_eq_false). by rewrite lookup_insert_eq.
    - destruct (str_eqb n proto); [done|]. by rewrite lookup_insert_ne. }
  destruct (decide (k = n)) as [->|Hne].
  - specialize (Hu n Hk). destruct (vals !! n) as [v|] eqn:E.
    + destruct (objectGetOwn c _) as [[]|]; try (by rewrite E); destruct v; try (by rewrite E); done.
    + destruct (objectGetOwn c _) as [d|]; [|by rewrite E]. cbn [default]. destruct d; try (rewrite Hget; done). by rewrite E.
  - assert (Hsame : forall b : bool, (if b then if str_eqb n proto then vals else <[n := default VUndefined (objectGetOwn c (js "default"))]> vals else vals) !! k = vals !! k).
    { intros []; [apply Hget|done]. }
    rewrite Hsame. by destruct (vals !! k).
Qed.

Lemma prop_of_cons n c options k : prop_of ((n, c) :: options) k = if decide (n = k) then Some c else prop_of options k.
Proof.
  unfold prop_of. cbn. destruct (decide (n = k)) as [->|Hne]; [done|].
  by destruct (list_find _ options) as [[]|].
Qed.

Lemma prop_of_elem options k c : prop_of options k = Some c -> (k, c) ∈ options.
Proof.
  induction options as [|[n c'] options IH]; [done|]. rewrite prop_of_cons. destruct (decide (n = k)) as [->|].
  - intros [= ->]. apply list_elem_of_here.
  - intros H. apply list_elem_of_further. auto.
Qed.

Lemma prop_of_None options k : (k ∉ options.*1) -> prop_of options k = None.
Proof.
  induction options as [|[n c] options IH]; [done|]. rewrite fmap_cons. intros [Hn Hk]%not_elem_of_cons. rewrite prop_of_cons. cbn in Hn.
  rewrite decide_False by congruence. auto.
Qed.

Lemma fill_defaults_spec options vals k :
  NoDup options.*1 -> (forall k, k <> proto -> vals !! k <> Some VUndefined) -> k <> proto ->
  fill_defaults options vals !! k = match vals !! k with Some v => Some v | None => default_of options k end.
Proof.
  revert vals. induction options as [|[n c] options IH]; intros vals Hnd Hu Hk; cbn [fill_defaults]; [by destruct (vals !! k)|].
  cbn in Hnd. apply NoDup_cons in Hnd as [Hn Hnd]. rewrite IH; [|done| |done].
  - rewrite fill_default_1 by done. destruct (vals !! k) as [v|]; [done|]. unfold default_of, optionsGetOwn.
    rewrite prop_of_cons. destruct (decide (k = n)) as [->|Hne].
    + rewrite decide_True, (prop_of_None _ _ Hn) by done. cbn. by destruct (objectGetOwn c _) as [[]|].
    + by rewrite decide_False by congruence.
  - intros j Hj. rewrite fill_default_1 by done. specialize (Hu j Hj). destruct (vals !! j) as [v|]; [done|].
    destruct (decide (j = n)); [|done]. by destruct (objectGetOwn c _) as [[]|].
Qed.

Lemma fill_defaults_proto options vals : fill_defaults options vals !! proto = vals !! proto.
Proof.
  revert vals. induction options as [|[n c] options IH]; intros vals; [done|]. cbn [fill_defaults]. rewrite IH.
  destruct (useDefaultValueOption n c vals); [|done]. unfold storeDefaultOption. destruct (str_eqb n proto) eqn:E; [done|].
  apply lookup_insert_ne. intros ->. by rewrite str_eqb_refl in E.
Qed.

Lemma collect_defined m vs : (forall v, v ∈ vs -> v <> VUndefined) -> collect m None vs <> Some VUndefined.
Proof.
  intros H. unfold collect. destruct vs as [|v vs]; [done|]. destruct m; [done|].
  intros Hl%last_Some_elem_of. by apply (H _ Hl).
Qed.

Lemma occurrences_stored ts n v : v ∈ occurrences ts n -> v <> VUndefined.
Proof.
  unfold occurrences. rewrite list_elem_of_omap. intros ([? ? ? o ?| |] & _ & H); try done.
  destruct (decide _); [|done]. injection H as <-. by destruct o.
Qed.

(** The options of a configuration. *)
Definition options_of (c : config) : entries :=
  match from_config (c_options c) (VObject []) with VObject l => l | _ => [] end.

(** What a call that returns has done. *)
Lemma parse_inv argv execArgv c r :
  parseArgs argv execArgv c = Ok r ->
  exists args strict allow ts vals,
    args_of argv execArgv c = ArgList args /\ validate_options (options_of c) = Ok tt
    /\ from_config (c_strict c) (VBool true) = VBool strict
    /\ argsToTokens args (options_of c) = Some ts
    /\ process_tokens (options_of c) strict allow ts ∅ [] = Ok (vals, positionals r)
    /\ values r = fill_defaults (options_of c) vals
    /\ (tokens r = None \/ tokens r = Some ts)
    /\ from_config (c_allowPositionals c) (VBool (negb strict)) = VBool allow.
Proof.
  unfold parseArgs. intros H. destruct (args_of argv execArgv c) as [args|v] eqn:Ea; [|done]. cbn [rbind] in H.
  destruct (from_config (c_strict c) (VBool true)) as [| |strict| | | | | |] eqn:Es; try done. cbn [validateBoolean rbind] in H.
  replace (truthy (VBool strict)) with strict in H by (by destruct strict).
  destruct (from_config (c_allowPositionals c) (VBool (negb strict))) as [| |allow| | | | | |] eqn:Eo; try done.
  cbn [validateBoolean rbind] in H. destruct (from_config (c_tokens c) (VBool false)) as [| |toks| | | | | |]; try done.
  cbn [validateBoolean rbind] in H. destruct (validateObject _ _ _) as [[]|]; [|done]. cbn [rbind] in H.
  fold (options_of c) in H. destruct (validate_options (options_of c)) as [[]|] eqn:Ev; [|done]. cbn [rbind as_bool] in H.
  destruct (argsToTokens args (options_of c)) as [ts|] eqn:Et; [|done].
  destruct (process_tokens _ _ _ _ _ _) as [[vals pos]|] eqn:Ep; [|done]. cbn [rbind fst snd] in H. injection H as <-.
  exists args, strict, allow, ts, vals. cbn. do 6 (split; [done|]). split; [destruct toks; [by right|by left]|done].
Qed.

Lemma values_ok_empty options : values_ok options ∅.
Proof. split; [apply lookup_empty|]. intros n _. by rewrite lookup_empty. Qed.

(** What [parseArgs] returns is what the tokens say, in every mode: an option
    has the value of its last occurrence, or the array of all of them when it
    can be repeated, or its default when it does not occur, and the
    positionals are in order.  A property of the prototype is never set. *)
Theorem parse_values argv execArgv c r args :
  parseArgs argv execArgv c = Ok r -> args_of argv execArgv c = ArgList args -> NoDup (options_of c).*1 ->
  exists ts, argsToTokens args (options_of c) = Some ts
    /\ positionals r = positionals_of ts
    /\ values r !! proto = None
    /\ forall n, n <> proto ->
       values r !! n
       = match occurrences ts n with
         | [] => default_of (options_of c) n
         | vs => if is_multiple (options_of c) n then Some (VArray vs) else last vs
         end.
Proof.
  intros (args' & strict & allow & ts & vals & Ea & _ & _ & Et & Ep & Ev & _)%parse_inv Ea' Hnd.
  rewrite Ea in Ea'. injection Ea' as ->. exists ts. split; [done|].
  destruct (process_tokens_spec _ _ _ _ _ _ _ _ (values_ok_empty (options_of c)) Ep) as ((Hp & _) & -> & Hv).
  split; [done|]. rewrite Ev. split; [by rewrite fill_defaults_proto|]. intros n Hn.
  rewrite fill_defaults_spec; [|done| |done].
  - rewrite (Hv n Hn), lookup_empty. unfold collect. destruct (occurrences ts n) as [|v vs] eqn:E; [done|].
    destruct (is_multiple (options_of c) n); [done|]. destruct (last (v :: vs)) eqn:El; [done|]. by apply last_None in El.
  - intros k Hk. rewrite (Hv k Hk), lookup_empty. apply collect_defined. apply occurrences_stored.
Qed.

(** ** Types *)

Definition base_type (t : jsstr) (v : value) : Prop :=
  (t = js "string" /\ exists s, v = VString s) \/ (t = js "boolean" /\ exists b, v = VBool b).

Definition multiple_of (c : value) : bool :=
  match objectGetOwn c (js "multiple") with Some (VBool b) => b | _ => false end.

(** [v] is a value of the type the configuration [c] of an option declares. *)
Definition typed (c v : value) : Prop :=
  exists t, objectGetOwn c (js "type") = Some (VString t)
    /\ if multiple_of c then exists l, v = VArray l /\ Forall (base_type t) l else base_type t v.

Definition config_ok (c : value) : Prop :=
  (exists t, objectGetOwn c (js "type") = Some (VString t) /\ (t = js "string" \/ t = js "boolean"))
  /\ match objectGetOwn c (js "default") with None | Some VUndefined => True | Some d => typed c d end.

Lemma one_of_types v : one_of [js "string"; js "boolean"] v = true -> v = VString (js "string") \/ v = VString (js "boolean").
Proof.
  destruct v as [| | | |s| | | |]; try done. cbn [one_of]. rewrite bool_decide_eq_true, !elem_of_cons, elem_of_nil.
  intros [->|[->|[]]]; tauto.
Qed.

Lemma string_array v name :
  validateStringArray v name = Ok tt -> exists l, v = VArray l /\ Forall (base_type (js "string")) l.
Proof.
  unfold validateStringArray. rewrite validateArray_any. destruct v as [| | | | |l| | |]; try done. cbn [rbind]. intros H%validate_elements_ok.
  exists l. split; [done|]. eapply Forall_impl; [exact H|]. intros [] Hx; try done. left. eauto.
Qed.

Lemma boolean_array v name :
  validateBooleanArray v name = Ok tt -> exists l, v = VArray l /\ Forall (base_type (js "boolean")) l.
Proof.
  unfold validateBooleanArray. rewrite validateArray_any. destruct v as [| | | | |l| | |]; try done. cbn [rbind]. intros H%validate_elements_ok.
  exists l. split; [done|]. eapply Forall_impl; [exact H|]. intros [] Hx; try done. right. eauto.
Qed.

Lemma validate_option_ok name c : validate_option name c = Ok tt -> config_ok c.
Proof.
  unfold validate_option. destruct (validateObject _ _ _) as [[]|]; [|done]. cbn [rbind]. unfold validateUnion.
  destruct (one_of _ _) eqn:Eu; [|done]. cbn [rbind].
  destruct (match objectGetOwn c (js "short") with Some _ => _ | None => _ end) as [[]|]; [|done]. cbn [rbind].
  destruct (match objectGetOwn c (js "multiple") with Some _ => _ | None => _ end) as [[]|]; [|done]. cbn [rbind].
  fold (multiple_of c). apply one_of_types in Eu. destruct (objectGetOwn c (js "type")) as [tv|] eqn:Et; [|by destruct Eu].
  change (default VUndefined (Some tv)) with tv in *. intros H. split.
  - destruct Eu as [->| ->]; eauto.
  - destruct (objectGetOwn c (js "default")) as [d|]; [|done]. unfold typed. rewrite Et.
    assert (Hd : match d with VUndefined => True | _ => exists t, Some tv = Some (VString t)
       /\ if multiple_of c then exists l, d = VArray l /\ Forall (base_type t) l else base_type t d end); [|by destruct d].
    destruct Eu as [->| ->].
    + change (str_eqb (js "string") (js "string")) with true in H. destruct d eqn:Ed; try done; rewrite <- Ed in *;
        (exists (js "string"); split; [done|]); (destruct (multiple_of c); [by eapply string_array|]); subst d; try done; left; eauto.
    + change (str_eqb (js "boolean") (js "string")) with false in H. destruct d eqn:Ed; try done; rewrite <- Ed in *;
        (exists (js "boolean"); split; [done|]); (destruct (multiple_of c); [by eapply boolean_array|]); subst d; try done; right; eauto.
Qed.

Lemma validate_options_ok options n c : validate_options options = Ok tt -> (n, c) ∈ options -> config_ok c.
Proof.
  induction options as [|[n' c'] options IH]; cbn [validate_options]; [by intros _ H%elem_of_nil|].
  destruct (validate_option n' c') as [[]|] eqn:E; [|done]. cbn [rbind]. intros H. rewrite elem_of_cons.
  intros [[= -> ->]|Hin]; [by eapply validate_option_ok|auto].
Qed.

(** Every occurrence of a checked option has its type. *)
Lemma usage_typed options name raw v :
  (forall n c, (n, c) ∈ options -> config_ok c) -> checkOptionUsage options name raw v = Ok tt ->
  exists c t, (name, c) ∈ options /\ objectGetOwn c (js "type") = Some (VString t)
    /\ multiple_of c = is_multiple options name /\ base_type t (stored v).
Proof.
  intros Hok. unfold checkOptionUsage, has_own, optionsGetOwn, is_multiple, multiple_of.
  destruct (prop_of options name) as [c|] eqn:E; [|done].
  rewrite bool_decide_eq_true_2 by eauto. cbn [negb mbind option_bind].
  apply prop_of_elem in E as Hin. destruct (Hok _ _ Hin) as [(t & Et & Ht) _]. rewrite Et. intros H. exists c, t.
  split; [done|]. split; [done|]. split; [unfold optionsGetOwn; by rewrite E|].
  destruct Ht as [->| ->]; destruct v as [s|]; try done; [left|right]; split; try done; cbn; eauto.
Qed.

Lemma process_checked options allow ts vals pos r n v :
  (forall n c, (n, c) ∈ options -> config_ok c) ->
  process_tokens options true allow ts vals pos = Ok r -> v ∈ occurrences ts n ->
  exists c t, (n, c) ∈ options /\ objectGetOwn c (js "type") = Some (VString t)
    /\ multiple_of c = is_multiple options n /\ base_type t v.
Proof.
  intros Hok. revert vals pos. induction ts as [|[name raw i o inl|i o|i] ts IH]; intros vals pos H Hin; cbn [process_tokens] in H.
  - by apply elem_of_nil in Hin.
  - destruct (checkOptionUsage options name raw o) as [[]|] eqn:Eu; [|done]. cbn [rbind] in H.
    destruct (checkOptionLikeValue raw o inl) as [[]|]; [|done]. cbn [rbind] in H.
    destruct (storeOption name o options vals) as [vals1|]; [|done]. cbn [rbind] in H.
    unfold occurrences in Hin. cbn [omap list_omap] in Hin. destruct (decide (name = n)) as [->|]; [|by eapply IH].
    apply elem_of_cons in Hin as [->|Hin]; [by eapply usage_typed|by eapply IH].
  - destruct allow; [|done]. exact (IH _ _ H Hin).
  - exact (IH _ _ H Hin).
Qed.

Lemma NoDup_fst_inj (options : entries) n o o' :
  NoDup options.*1 -> (n, o) ∈ options -> (n, o') ∈ options -> o = o'.
Proof.
  intros Hnd (i & Hi)%list_elem_of_lookup (j & Hj)%list_elem_of_lookup.
  assert (i = j) as -> by (eapply (NoDup_lookup options.*1); [done|rewrite list_lookup_fmap, Hi|rewrite list_lookup_fmap, Hj]; done).
  congruence.
Qed.

Lemma process_refused options strict ts vals r pos : process_tokens options strict false ts vals pos = Ok r -> r.2 = pos.
Proof.
  revert vals. induction ts as [|[name raw i o inl|i o|i] ts IH]; intros vals H; cbn [process_tokens] in H; try done.
  - by injection H as <-.
  - destruct (if strict then _ else _) as [[]|]; [|done]. cbn [rbind] in H. destruct (storeOption _ _ _ _); [|done]. by eapply IH.
  - by eapply IH.
Qed.

Lemma default_typed options n d :
  (forall n c, (n, c) ∈ options -> config_ok c) -> default_of options n = Some d ->
  exists c, (n, c) ∈ options /\ typed c d.
Proof.
  intros Hok. unfold default_of, optionsGetOwn. destruct (prop_of options n) as [c|] eqn:E; [|done]. cbn [mbind option_bind].
  apply prop_of_elem in E. destruct (Hok _ _ E) as [_ Hd]. destruct (objectGetOwn c (js "default")) as [x|]; [|done].
  intros Hx. exists c. split; [done|]. by destruct x; try done; injection Hx as <-.
Qed.

(** C37: In strict mode every value [parseArgs] returns belongs to an option that
    is declared and has the type of its declaration, defaults included: a
    string or a boolean, or an array of them when the option can be repeated.
    No positional is returned unless they are allowed. *)
Theorem parse_typed argv execArgv c r :
  parseArgs argv execArgv c = Ok r -> from_config (c_strict c) (VBool true) = VBool true -> NoDup (options_of c).*1 ->
  (forall n v, values r !! n = Some v -> exists o, (n, o) ∈ options_of c /\ typed o v)
  /\ (from_config (c_allowPositionals c) (VBool false) = VBool false -> positionals r = []).
Proof.
  intros (args & strict & allow & ts & vals & _ & Hv & Es & _ & Ep & Ev & _ & Eallow)%parse_inv Hs Hnd.
  rewrite Es in Hs. injection Hs as ->.
  assert (Hok : forall n o, (n, o) ∈ options_of c -> config_ok o) by (intros n o; by apply validate_options_ok).
  destruct (process_tokens_spec _ _ _ _ _ _ _ _ (values_ok_empty (options_of c)) Ep) as ((Hp & _) & Hpos & Hvals). split.
  - intros n v Hn. assert (Hnp : n <> proto) by (intros ->; by rewrite Ev, fill_defaults_proto, Hp in Hn).
    rewrite Ev, fill_defaults_spec, Hvals, lookup_empty in Hn; try done.
    2:{ intros k Hk. rewrite (Hvals k Hk), lookup_empty. apply collect_defined, occurrences_stored. }
    pose proof (fun y => process_checked _ _ _ _ _ _ n y Hok Ep) as Hch.
    destruct (occurrences ts n) as [|x xs] eqn:Eo; [by eapply default_typed|].
    destruct (Hch x ltac:(left)) as (o & t & Hin & Et & Em & _). exists o. split; [done|]. exists t. split; [done|].
    assert (Hall : Forall (base_type t) (x :: xs)).
    { apply Forall_forall. intros y (o' & t' & Hin' & Et' & _ & Hy)%Hch.
      assert (o' = o) as -> by (eapply (NoDup_fst_inj (options_of c)); eauto). congruence. }
    unfold collect in Hn. rewrite Em. destruct (is_multiple (options_of c) n).
    + injection Hn as <-. by exists (x :: xs).
    + destruct (last (x :: xs)) as [y|] eqn:El; [|by apply last_None in El]. injection Hn as <-.
      apply last_Some_elem_of in El. rewrite Forall_forall in Hall. by apply Hall.
  - cbn [negb] in Eallow. rewrite Eallow. intros [= ->]. by apply (process_refused _ _ _ _ _ _ Ep).
Qed.

(** ** Examples *)

Module ParseDemo.
Definition bool_option (short : string) : value := VObject [(js "type", VString (js "boolean")); (js "short", VString (js short))].
Definition port : value := VObject [(js "type", VString (js "string")); (js "short", VString (js "p")); (js "default", VString (js "80"))].
Definition include : value := VObject [(js "type", VString (js "string")); (js "short", VString (js "I")); (js "multiple", VBool true)].
Definition options : entries :=
  [(js "verbose", bool_option "v"); (js "all", bool_option "a"); (js "port", port); (js "include", include)].
Definition args : list jsstr :=
  [js "-vaIlib"; js "--include=src"; js "-av"; js "x"; js "-I"; js "test"; js "--"; js "--port"].
Definition config : config := Config (Some (ArgList args)) None (Some (VBool true)) None (Some (VObject options)).
End ParseDemo.

Lemma tokens_reprint_witness :
  exists ts, argsToTokens ParseDemo.args ParseDemo.options = Some ts /\ reprint ts = ParseDemo.args.
Proof.
  apply tokens_reprint.
  repeat (apply Forall_cons; split;
    [intros Hg; first [discriminate Hg | apply (bool_decide_unpack _); vm_compute; exact I]|]).
  constructor.
Defined.

Lemma parse_values_witness :
  exists r ts, parseArgs [] [] ParseDemo.config = Ok r /\ argsToTokens ParseDemo.args ParseDemo.options = Some ts
    /\ positionals r = [js "x"; js "--port"]
    /\ values r !! js "include" = Some (VArray [VString (js "lib"); VString (js "src"); VString (js "test")])
    /\ values r !! js "port" = Some (VString (js "80")).
Proof.
  destruct (parseArgs [] [] ParseDemo.config) as [r|e] eqn:E; [|vm_compute in E; discriminate E].
  assert (Hnd : NoDup (options_of ParseDemo.config).*1) by (apply (bool_decide_unpack _); vm_compute; exact I).
  destruct (parse_values [] [] ParseDemo.config r ParseDemo.args E eq_refl Hnd) as (ts & Et & Hp & _ & Hv).
  exists r, ts. split; [reflexivity|]. split; [exact Et|]. vm_compute in Et. injection Et as <-.
  split; [rewrite Hp; vm_compute; reflexivity|].
  split; rewrite Hv by (apply (bool_decide_unpack _); vm_compute; exact I); vm_compute; reflexivity.
Defined.

Lemma parse_typed_witness :
  exists r v o, parseArgs [] [] ParseDemo.config = Ok r /\ values r !! js "port" = Some v
    /\ (js "port", o) ∈ ParseDemo.options /\ typed o v.
Proof.
  destruct (parseArgs [] [] ParseDemo.config) as [r|e] eqn:E; [|vm_compute in E; discriminate E].
  assert (Hnd : NoDup (options_of ParseDemo.config).*1) by (apply (bool_decide_unpack _); vm_compute; exact I).
  assert (Hv : values r !! js "port" = Some (VString (js "80"))) by (vm_compute in E; injection E as <-; vm_compute; reflexivity).
  destruct (parse_typed [] [] ParseDemo.config r E eq_refl Hnd) as [Ht _]. destruct (Ht _ _ Hv) as (o & Ho & Hty).
  exists r, (VString (js "80")), o. split; [reflexivity|]. split; [exact Hv|]. split; [exact Ho|exact Hty].
Defined.

(** A dash inside a group is expanded to the terminator of options, and what
    follows in the group becomes an argument nobody gave. *)
Example dash_in_group :
  argsToTokens [js "-v-a"; js "--port"; js "1"] ParseDemo.options
  = Some [TOption (js "verbose") (js "-v") 0 None None; TTerminator 0; TPositional 1 (js "-a");
          TPositional 2 (js "--port"); TPositional 3 (js "1")].
Proof. by vm_compute. Qed.
