(* ===== verification/StreamBase.v ===== *)
(** * What streams share

    The values that programs write and push, the high water mark of
    lib/internal/streams/state.js in _stream.mjs, and errors. *)

From S2P Require Import Prelude.

(** A chunk, as it is given to [write] or [push]. *)
Inductive value := VNull | VString (s : jsstr) | VBuffer (b : list Z) | VUint8Array (b : list Z) | VOther (v : jsval).

Definition ERR_STREAM_DESTROYED (name : string) : jserr := Coded "ERR_STREAM_DESTROYED" (js name).
Definition ERR_STREAM_WRITE_AFTER_END : jserr := Coded "ERR_STREAM_WRITE_AFTER_END" [].
Definition ERR_STREAM_ALREADY_FINISHED (name : string) : jserr := Coded "ERR_STREAM_ALREADY_FINISHED" (js name).
Definition ERR_STREAM_NULL_VALUES : jserr := Coded "ERR_STREAM_NULL_VALUES" [].
Definition ERR_MULTIPLE_CALLBACK : jserr := Coded "ERR_MULTIPLE_CALLBACK" [].
Definition ERR_STREAM_CANNOT_PIPE : jserr := Coded "ERR_STREAM_CANNOT_PIPE" [].
Definition ERR_STREAM_PUSH_AFTER_EOF : jserr := Coded "ERR_STREAM_PUSH_AFTER_EOF" [].
Definition ERR_STREAM_UNSHIFT_AFTER_END_EVENT : jserr := Coded "ERR_STREAM_UNSHIFT_AFTER_END_EVENT" [].

Definition getDefaultHighWaterMark (objectMode : bool) : Z := if objectMode then 16 else 16 * 1024.

(** For a stream that is not a duplex; numbers are integers. *)
Definition getHighWaterMark (objectMode : bool) (hwm : jsval) : result Z :=
  match hwm with
  | JUndefined | JNull => Ok (getDefaultHighWaterMark objectMode)
  | JNumber n => if n <? 0 then Throw (ERR_INVALID_ARG_VALUE "options.highWaterMark") else Ok n
  | _ => Throw (ERR_INVALID_ARG_VALUE "options.highWaterMark")
  end.

Definition is_false (v : jsval) : bool := match v with JBool false => true | _ => false end.

(** ** The list of buffers, as streams use it *)

Class ChunkList (B : Type) := {
  new_chunks : B;
  chunk_count : B -> Z;
  push_chunk : B -> list Z -> result B;
  unshift_chunk : B -> list Z -> B;
  clear_chunks : B -> B;
  first_chunk : B -> result (list Z);
  concat_chunks : B -> Z -> result (list Z);
  consume_chunks : B -> Z -> result (B * option (list Z))
}.

(** The bytes of a list of chunks. *)
Definition bytes_of (l : list (list Z)) : list Z := foldr app [] l.

(** What streams rely on: [holds b l] says that the list is [l].  It is a mistake
    to ask an empty list for data, for more data than there is, or to
    concatenate with a wrong length. *)
Class ChunkListOk (B : Type) `{!ChunkList B} := {
  holds : B -> list (list Z) -> Prop;
  new_holds : holds new_chunks [];
  count_holds b l : holds b l -> chunk_count b = len l;
  push_holds b l v : holds b l -> exists b', push_chunk b v = Ok b' /\ holds b' (l ++ [v]);
  unshift_holds b l v : holds b l -> holds (unshift_chunk b v) (v :: l);
  clear_holds b l : holds b l -> holds (clear_chunks b) [];
  first_holds b d l : holds b (d :: l) -> first_chunk b = Ok d;
  concat_holds b l : holds b l -> len (bytes_of l) < 2 ^ 32 -> concat_chunks b (len (bytes_of l)) = Ok (bytes_of l);
  consume_holds b l n :
    holds b l -> l <> [] -> Forall (fun d => d <> []) l -> 0 <= n <= len (bytes_of l) ->
    exists b' l', consume_chunks b n = Ok (b', Some (slice (bytes_of l) 0 n)) /\ holds b' l'
      /\ Forall (fun d => d <> []) l' /\ bytes_of l' = slice_from (bytes_of l) n
}.
