(* ===== verification/BufferList.v ===== *)
(** * The list of buffers of a stream: internal/streams/buffer_list.mjs

    A singly linked list of chunks, strings or bytes, in a store of entries
    that are updated in place.  The entries a list no longer reaches stay in
    the store.  Bytes of [Buffer.allocUnsafe] are whatever the allocator gives,
    a parameter. *)

From stdpp Require Import gmap.
From S2P Require Import Prelude Bytes StreamBase.
#[local] Open Scope Z_scope.

Abbreviation chunk := (list Z).

Record entry := Entry { data : chunk; next : option nat }.

Record BufferList := BL {
  store : gmap nat entry;
  fresh : nat;
  head : option nat;
  tail : option nat;
  size : Z
}.

Definition new_list : BufferList := BL ∅ 0 None None 0.

Definition null_error : jserr := TypeError "Cannot read properties of null".

(** [p.data] and [p.next] of a reference that can be [null]. *)
Definition deref (st : gmap nat entry) (p : option nat) : result entry :=
  match p ≫= (st !!.) with Some e => Ok e | None => Throw null_error end.

Definition set_next (st : gmap nat entry) (p : nat) (n : option nat) : gmap nat entry :=
  alter (fun e => Entry (data e) n) p st.
Definition set_data (st : gmap nat entry) (p : nat) (d : chunk) : gmap nat entry :=
  alter (fun e => Entry d (next e)) p st.

Definition push (b : BufferList) (v : chunk) : result BufferList :=
  let i := fresh b in
  let st := <[i := Entry v None]> (store b) in
  if 0 <? size b then
    match tail b with
    | Some t => Ok (BL (set_next st t (Some i)) (S i) (head b) (Some i) (size b + 1))
    | None => Throw null_error
    end
  else Ok (BL st (S i) (Some i) (Some i) (size b + 1)).

Definition unshift (b : BufferList) (v : chunk) : BufferList :=
  let i := fresh b in
  let st := <[i := Entry v (head b)]> (store b) in
  BL st (S i) (Some i) (if size b =? 0 then Some i else tail b) (size b + 1).

Definition shift (b : BufferList) : result (BufferList * option chunk) :=
  if size b =? 0 then Ok (b, None)
  else
    let! e := deref (store b) (head b) in
    if size b =? 1 then Ok (BL (store b) (fresh b) None None (size b - 1), Some (data e))
    else Ok (BL (store b) (fresh b) (next e) (tail b) (size b - 1), Some (data e)).

Definition clear (b : BufferList) : BufferList := BL (store b) (fresh b) None None 0.

(** [while (p = p.next)]: the chunks after [p]; the list has no more entries
    than the store. *)
Fixpoint walk (st : gmap nat entry) (fuel : nat) (p : option nat) : list chunk :=
  match fuel, p ≫= (st !!.) with
  | S fuel, Some e => data e :: walk st fuel (next e)
  | _, _ => []
  end.

Definition chunks (b : BufferList) : list chunk := walk (store b) (fresh b) (head b).

Definition join (b : BufferList) (s : jsstr) : jsstr :=
  if size b =? 0 then [] else join_with s (chunks b).

(** [ret.set(data, i)] on a byte array. *)
Definition set_bytes (ret d : list Z) (i : Z) : result (list Z) :=
  if (i <? 0) || (len ret <? i + len d) then Throw (RangeError "offset is out of bounds")
  else Ok (take (Z.to_nat i) ret ++ d ++ drop (Z.to_nat (i + len d)) ret).

Fixpoint set_all (ret : list Z) (i : Z) (l : list chunk) : result (list Z) :=
  match l with
  | [] => Ok ret
  | d :: l => let! ret := set_bytes ret d i in set_all ret (i + len d) l
  end.

Section Unsafe.
Context (allocUnsafe : nat -> list Z).

(** [Buffer.allocUnsafe(n >>> 0)]. *)
Definition concat (b : BufferList) (n : Z) : result (list Z) :=
  if size b =? 0 then Ok [] else set_all (allocUnsafe (Z.to_nat (to_uint32 n))) 0 (chunks b).

Definition first (b : BufferList) : result chunk := let! e := deref (store b) (head b) in Ok (data e).

(** The loop of [_getString]: [c] entries are used up. *)
Fixpoint getString_loop (fuel : nat) (b : BufferList) (p : option nat) (n c : Z) (ret : jsstr) : result (BufferList * jsstr) :=
  match fuel, p with
  | S fuel, Some q =>
      let! e := deref (store b) p in
      let str := data e in
      if len str <? n then
        match next e with
        | Some _ => getString_loop fuel b (next e) (n - len str) (c + 1) (ret ++ str)
        | None => Ok (BL (store b) (fresh b) (head b) (tail b) (size b - (c + 1)), ret ++ str)
        end
      else if n =? len str then
        Ok (BL (store b) (fresh b) (next e) (match next e with Some _ => tail b | None => None end) (size b - (c + 1)), ret ++ str)
      else
        Ok (BL (set_data (store b) q (slice_from str n)) (fresh b) p (tail b) (size b - c), ret ++ slice str 0 n)
  | _, _ => Throw null_error
  end.

Definition _getString (b : BufferList) (n : Z) : result (BufferList * jsstr) :=
  getString_loop (fresh b) b (head b) n 0 [].

Fixpoint getBuffer_loop (fuel : nat) (b : BufferList) (p : option nat) (n retLen c : Z) (ret : list Z) : result (BufferList * list Z) :=
  match fuel, p with
  | S fuel, Some q =>
      let! e := deref (store b) p in
      let buf := data e in
      if len buf <? n then
        let! ret := set_bytes ret buf (retLen - n) in
        match next e with
        | Some _ => getBuffer_loop fuel b (next e) (n - len buf) retLen (c + 1) ret
        | None => Ok (BL (store b) (fresh b) (head b) (tail b) (size b - (c + 1)), ret)
        end
      else if n =? len buf then
        let! ret := set_bytes ret buf (retLen - n) in
        Ok (BL (store b) (fresh b) (next e) (match next e with Some _ => tail b | None => None end) (size b - (c + 1)), ret)
      else
        let! ret := set_bytes ret (slice buf 0 n) (retLen - n) in
        Ok (BL (set_data (store b) q (slice_from buf n)) (fresh b) p (tail b) (size b - c), ret)
  | _, _ => Throw null_error
  end.

Definition _getBuffer (b : BufferList) (n : Z) : result (BufferList * list Z) :=
  getBuffer_loop (fresh b) b (head b) n n 0 (allocUnsafe (Z.to_nat n)).

Definition consume (b : BufferList) (n : Z) (hasStrings : bool) : result (BufferList * option (list Z)) :=
  match head b with
  | None => Throw null_error
  | Some h =>
      let! e := deref (store b) (head b) in
      let data := data e in
      if n <? len data then
        Ok (BL (set_data (store b) h (slice_from data n)) (fresh b) (head b) (tail b) (size b), Some (slice data 0 n))
      else if n =? len data then shift b
      else
        let! r := if hasStrings then _getString b n else _getBuffer b n in
        Ok (fst r, Some (snd r))
  end.

(** ** The list a state stands for *)

Fixpoint chain (st : gmap nat entry) (ids : list nat) (l : list chunk) : Prop :=
  match ids, l with
  | [], [] => True
  | i :: ids, d :: l => st !! i = Some (Entry d (hd_error ids)) /\ chain st ids l
  | _, _ => False
  end.

Definition linked (b : BufferList) (ids : list nat) (l : list chunk) : Prop :=
  chain (store b) ids l /\ NoDup ids /\ Forall (fun i => (i < fresh b)%nat) ids
  /\ head b = hd_error ids /\ tail b = last ids /\ size b = len l.

Definition repr (b : BufferList) (l : list chunk) : Prop := exists ids, linked b ids l.

Lemma chain_length st ids l : chain st ids l -> length ids = length l.
Proof. revert l. induction ids as [|i ids IH]; intros [|d l]; cbn; try done. intros [_ H]. f_equal. auto. Qed.

Lemma chain_ext st st' ids l : (forall i, i ∈ ids -> st' !! i = st !! i) -> chain st ids l -> chain st' ids l.
Proof.
  revert l. induction ids as [|i ids IH]; intros [|d l] Hst; cbn; try done. intros [Hi H]. split.
  - rewrite Hst; [done|left].
  - apply IH; [|done]. intros j Hj. apply Hst. by right.
Qed.

Lemma chain_insert st i e ids l : (i ∉ ids) -> chain st ids l -> chain (<[i := e]> st) ids l.
Proof. intros Hi. apply chain_ext. intros j Hj. apply lookup_insert_ne. intros ->. done. Qed.

Lemma chain_alter st f i ids l : (i ∉ ids) -> chain st ids l -> chain (alter f i st) ids l.
Proof. intros Hi. apply chain_ext. intros j Hj. apply lookup_alter_ne. intros ->. done. Qed.

Lemma chain_snoc st ids l i d :
  chain st ids l -> NoDup (ids ++ [i]) -> ids <> [] -> st !! i = Some (Entry d None) ->
  match last ids with Some t => chain (set_next st t (Some i)) (ids ++ [i]) (l ++ [d]) | None => False end.
Proof.
  revert l. induction ids as [|j ids IH]; intros [|x l] Hc Hnd Hne Hi; try done. destruct Hc as [Hj Hc].
  cbn in Hnd. apply NoDup_cons in Hnd as [Hj' Hnd]. destruct ids as [|k ids].
  - destruct l; [|done]. cbn in *. unfold set_next. rewrite lookup_alter_eq, Hj. split; [done|]. split; [|done].
    rewrite lookup_alter_ne by (intros ->; apply Hj'; left). done.
  - specialize (IH l Hc Hnd ltac:(done) Hi). change (last (j :: k :: ids)) with (last (k :: ids)).
    destruct (last (k :: ids)) as [t|] eqn:El; [|done]. split; [|exact IH]. unfold set_next. rewrite lookup_alter_ne; [done|].
    intros ->. apply Hj'. apply elem_of_app. left. by apply last_Some_elem_of.
Qed.

Lemma fresh_not_in ids n : Forall (fun i => (i < n)%nat) ids -> (n ∉ ids).
Proof. intros H Hn. rewrite Forall_forall in H. specialize (H n Hn). lia. Qed.

Lemma Forall_lt_S ids n : Forall (fun i => (i < n)%nat) ids -> Forall (fun i => (i < S n)%nat) ids.
Proof. intros H. eapply Forall_impl; [exact H|]. cbn. lia. Qed.

Lemma repr_new : repr new_list [].
Proof. exists []. repeat split; try constructor. Qed.

Lemma push_repr b l v : repr b l -> exists b', push b v = Ok b' /\ repr b' (l ++ [v]).
Proof.
  intros (ids & Hc & Hnd & Hlt & Hh & Ht & Hs). pose proof (fresh_not_in _ _ Hlt) as Hf. unfold push.
  pose proof (chain_length _ _ _ Hc) as Hlen. destruct ids as [|i ids].
  - destruct l as [|]; [|done]. rewrite Hs. cbn. eexists. split; [done|]. exists [fresh b].
    split; [split; [cbn [store]; by rewrite lookup_insert_eq|done]|]. split; [apply NoDup_singleton|]. split; [by repeat constructor|done].
  - rewrite (proj2 (Z.ltb_lt 0 (size b))) by (rewrite Hs; destruct l as [|x l]; [done|]; rewrite len_cons; pose proof (len_nonneg l); lia).
    assert (Hnd' : NoDup ((i :: ids) ++ [fresh b])).
    { apply NoDup_app. split; [done|]. split; [|apply NoDup_singleton]. intros x Hx ->%list_elem_of_singleton. done. }
    pose proof (chain_snoc (<[fresh b := Entry v None]> (store b)) (i :: ids) l (fresh b) v
      (chain_insert _ _ _ _ _ Hf Hc) Hnd' ltac:(done) (lookup_insert_eq _ _ _)) as Hsn.
    rewrite Ht. destruct (last (i :: ids)) as [t|]; [|done]. eexists. split; [done|]. exists ((i :: ids) ++ [fresh b]).
    split; [done|]. split; [done|]. split; [apply Forall_app; split; [by apply Forall_lt_S|by repeat constructor]|].
    split; [done|]. split; [by rewrite last_snoc|]. cbn. rewrite Hs, len_app. done.
Qed.

Lemma unshift_repr b l v : repr b l -> repr (unshift b v) (v :: l).
Proof.
  intros (ids & Hc & Hnd & Hlt & Hh & Ht & Hs). pose proof (fresh_not_in _ _ Hlt) as Hf.
  pose proof (chain_length _ _ _ Hc) as Hlen. exists (fresh b :: ids). unfold unshift. split; [|split; [|split; [|split; [done|split]]]].
  - split; [cbn; by rewrite lookup_insert_eq, Hh|]. by apply chain_insert.
  - by apply NoDup_cons.
  - apply Forall_cons. split; [cbn; lia|by apply Forall_lt_S].
  - cbn [tail]. rewrite Hs. destruct ids as [|i ids]; by destruct l as [|x l].
  - cbn. rewrite Hs, len_cons. lia.
Qed.

Lemma linked_tail b i ids d l :
  linked b (i :: ids) (d :: l) ->
  linked (BL (store b) (fresh b) (hd_error ids) (last ids) (len l)) ids l.
Proof.
  intros ([_ Hc] & Hnd & Hlt & _). apply NoDup_cons in Hnd as [_ Hnd]. apply Forall_cons in Hlt as [_ Hlt]. done.
Qed.

Lemma shift_repr b l : repr b l -> exists b', shift b = Ok (b', hd_error l) /\ repr b' (drop 1 l).
Proof.
  intros (ids & Hl). pose proof Hl as (Hc & Hnd & Hlt & Hh & Ht & Hs). unfold shift. rewrite Hs.
  destruct ids as [|i ids], l as [|d l]; try done; [by exists b; split; [|exists []]|].
  rewrite len_cons. pose proof (len_nonneg l). rewrite (proj2 (Z.eqb_neq (1 + len l) 0)) by lia. destruct Hc as [Hi Hc].
  unfold deref. rewrite Hh. cbn [hd_error mbind option_bind]. rewrite Hi. cbn [rbind data next hd_error].
  pose proof (linked_tail _ _ _ _ _ Hl) as Hl'. replace (1 + len l - 1) with (len l) by lia.
  destruct (Z.eqb_spec (1 + len l) 1) as [E|E].
  - assert (l = []) as -> by (apply len_0_nil; lia). destruct ids; [|done]. eexists. split; [done|]. by exists [].
  - eexists. split; [done|]. exists ids. destruct ids as [|j ids]; [by destruct l as [|x l]; [destruct E|]|].
    rewrite Ht. exact Hl'.
Qed.

Lemma repr_bound b ids l : linked b ids l -> (length l <= fresh b)%nat.
Proof.
  intros (Hc & Hnd & Hlt & _). rewrite <- (chain_length _ _ _ Hc). rewrite <- (length_seq (fresh b) 0).
  apply NoDup_incl_length; [by apply NoDup_ListNoDup|]. intros i Hi. apply list_elem_of_In in Hi.
  rewrite Forall_forall in Hlt. specialize (Hlt i Hi). apply in_seq. lia.
Qed.

Lemma walk_chain st ids l fuel : chain st ids l -> (length l <= fuel)%nat -> walk st fuel (hd_error ids) = l.
Proof.
  revert ids fuel. induction l as [|d l IH]; intros [|i ids] [|fuel] Hc Hf; try done; [cbn in Hf; lia|].
  destruct Hc as [Hi Hc]. cbn [walk hd_error mbind option_bind]. rewrite Hi. cbn [data next]. f_equal. apply IH; [done|].
  cbn in Hf. lia.
Qed.

Lemma chunks_repr b l : repr b l -> chunks b = l.
Proof.
  intros (ids & Hl). pose proof (repr_bound _ _ _ Hl). destruct Hl as (Hc & _ & _ & Hh & _). unfold chunks. rewrite Hh.
  by apply walk_chain.
Qed.

(** ** Consuming *)

(** The chunks as one sequence. *)
Definition joined (l : list chunk) : chunk := foldr app [] l.

(** The chunks left when the first [n] elements are gone. *)
Fixpoint cut (n : Z) (l : list chunk) : list chunk :=
  match l with
  | [] => []
  | d :: l => if n <? len d then slice_from d n :: l else if n =? len d then l else cut (n - len d) l
  end.

Lemma cut_joined n l : 0 <= n <= len (joined l) -> joined (cut n l) = slice_from (joined l) n.
Proof.
  revert n. induction l as [|d l IH]; intros n Hn; cbn [cut].
  { change (0 <= n <= 0) in Hn. by assert (n = 0) as -> by lia. }
  change (joined (d :: l)) with (d ++ joined l) in *. rewrite len_app in Hn. pose proof (len_nonneg d). pose proof (len_nonneg (joined l)).
  destruct (Z.ltb_spec n (len d)) as [Hlt|Hge].
  - change (joined (slice_from d n :: l)) with (slice_from d n ++ joined l).
    destruct (split_len d n ltac:(lia)) as (u & w & -> & <-). rewrite slice_from_suffix, <- app_assoc. by rewrite slice_from_suffix.
  - destruct (Z.eqb_spec n (len d)) as [->|Hne]; [by rewrite slice_from_suffix|]. rewrite IH by lia.
    destruct (split_len (joined l) (n - len d) ltac:(lia)) as (u & w & E & Hu). rewrite E, <- Hu, slice_from_suffix.
    replace n with (len (d ++ u)) by (rewrite len_app; lia). rewrite app_assoc. by rewrite slice_from_suffix.
Qed.

Lemma chain_app st ids1 l1 ids2 l2 :
  chain st (ids1 ++ ids2) (l1 ++ l2) -> length ids1 = length l1 -> chain st ids2 l2.
Proof. revert l1. induction ids1 as [|i ids1 IH]; intros [|d l1] H Hl; try done. destruct H as [_ H]. apply (IH l1); [done|]. cbn in Hl. lia. Qed.

(** A suffix of a list is a list. *)
Lemma linked_suffix b ids1 l1 ids2 l2 :
  linked b (ids1 ++ ids2) (l1 ++ l2) -> length ids1 = length l1 ->
  linked (BL (store b) (fresh b) (hd_error ids2) (last ids2) (len l2)) ids2 l2.
Proof.
  intros (Hc & Hnd & Hlt & _) Hl. apply NoDup_app in Hnd as (_ & _ & Hnd). apply Forall_app in Hlt as [_ Hlt].
  split; [by eapply chain_app|done].
Qed.

Lemma linked_set b i ids d l d' :
  linked b (i :: ids) (d :: l) ->
  linked (BL (set_data (store b) i d') (fresh b) (Some i) (tail b) (size b)) (i :: ids) (d' :: l).
Proof.
  intros ([Hi Hc] & Hnd & Hlt & Hh & Ht & Hs). apply NoDup_cons in Hnd as Hnd'. destruct Hnd' as [Hni _].
  split; [|split; [done|split; [done|split; [done|split; [done|rewrite Hs; done]]]]]. split.
  - cbn. unfold set_data. by rewrite lookup_alter_eq, Hi.
  - by apply chain_alter.
Qed.

Lemma last_app_cons {X} (l1 l2 : list X) x : last (l1 ++ x :: l2) = last (x :: l2).
Proof. by rewrite last_app_cons. Qed.

(** The loops stop inside the list; [l1] is used up. *)
Lemma getString_spec fuel b ids1 l1 ids2 l2 n ret :
  linked b (ids1 ++ ids2) (l1 ++ l2) -> length ids1 = length l1 -> (length l2 <= fuel)%nat -> ids2 <> [] ->
  0 <= n <= len (joined l2) ->
  exists b', getString_loop fuel b (hd_error ids2) n (len l1) ret = Ok (b', ret ++ slice (joined l2) 0 n) /\ repr b' (cut n l2).
Proof.
  revert ids1 l1 ids2 l2 n ret. induction fuel as [|fuel IH]; intros ids1 l1 ids2 l2 n ret Hl Hlen Hf Hne Hn.
  all: destruct ids2 as [|i ids2]; [done|]; destruct l2 as [|d l2];
    [by apply linked_suffix in Hl as ([] & _)|]; cbn in Hf; try lia.
  pose proof (linked_suffix _ _ _ _ _ Hl Hlen) as Hs. pose proof Hs as ([Hi Hc] & _). cbn [store] in Hi.
  pose proof Hl as (_ & _ & _ & _ & Ht & Hsz). rewrite last_app_cons in Ht. rewrite len_app, len_cons in Hsz.
  cbn [getString_loop hd_error]. unfold deref. cbn [mbind option_bind]. rewrite Hi. cbn [rbind data next cut].
  change (joined (d :: l2)) with (d ++ joined l2) in *. rewrite len_app in Hn.
  pose proof (len_nonneg d). pose proof (len_nonneg (joined l2)).
  destruct (Z.ltb_spec (len d) n) as [Hlt|Hge].
  - rewrite (proj2 (Z.ltb_ge n _)), (proj2 (Z.eqb_neq n _)) by lia.
    destruct ids2 as [|j ids2]; [destruct l2 as [|x l2]; [change (0 <= n <= len d + 0) in Hn; lia|done]|]. cbn [hd_error].
    destruct (IH (ids1 ++ [i]) (l1 ++ [d]) (j :: ids2) l2 (n - len d) (ret ++ d)) as (b' & E & Hr).
    + by rewrite <- !app_assoc.
    + rewrite !length_app. cbn. lia.
    + lia.
    + done.
    + lia.
    + exists b'. rewrite len_app in E. change (len [d]) with 1 in E. split; [|done]. cbn [hd_error] in E. rewrite E.
      rewrite <- app_assoc. do 3 f_equal. destruct (split_len (joined l2) (n - len d) ltac:(lia)) as (u & w & -> & Hu).
      rewrite <- Hu, slice_prefix, app_assoc. replace n with (len (d ++ u)) by (rewrite len_app; lia). by rewrite slice_prefix.
  - destruct (Z.eqb_spec n (len d)) as [->|Hd].
    + rewrite Z.ltb_irrefl. rewrite slice_prefix. eexists. split; [done|]. exists ids2.
      pose proof (linked_tail _ _ _ _ _ Hs) as Hl'.
      replace (size b - (len l1 + 1)) with (len l2) by lia.
      destruct ids2 as [|j ids2]; [exact Hl'|]. cbn [hd_error]. rewrite Ht. exact Hl'.
    + rewrite (proj2 (Z.ltb_lt n _)) by lia. eexists. split.
      * do 3 f_equal. destruct (split_len d n ltac:(lia)) as (u & w & -> & <-). by rewrite <- app_assoc, !slice_prefix.
      * exists (i :: ids2). replace (size b - len l1) with (len (d :: l2)) by (rewrite len_cons; lia). rewrite Ht.
        exact (linked_set _ _ _ _ _ (slice_from d n) Hs).
Qed.

Lemma set_bytes_mid (done junk d : list Z) :
  len d <= len junk -> exists junk', set_bytes (done ++ junk) d (len done) = Ok (done ++ d ++ junk') /\ len junk' = len junk - len d.
Proof.
  intros Hd. pose proof (len_nonneg done). unfold set_bytes. rewrite len_app.
  rewrite (proj2 (Z.ltb_ge (len done) 0)), (proj2 (Z.ltb_ge (len done + len junk) _)) by lia. cbn [orb].
  destruct (split_len junk (len d)) as (u & w & -> & Hu); [pose proof (len_nonneg d); lia|]. exists w. split.
  - f_equal. f_equal; [|f_equal].
    + replace (Z.to_nat (len done)) with (length done) by (unfold len; lia). apply take_app_length.
    + replace (Z.to_nat (len done + len d)) with (length (done ++ u)) by (rewrite length_app; unfold len in *; lia).
      rewrite app_assoc. apply drop_app_length.
  - rewrite len_app. lia.
Qed.

(** The loop of bytes does what the loop of strings does, when it fills its
    result. *)
Lemma getBuffer_string fuel b p n retLen c (ret junk : list Z) b' out :
  len junk = n -> len ret = retLen - n -> getString_loop fuel b p n c ret = Ok (b', out) -> len out = retLen ->
  getBuffer_loop fuel b p n retLen c (ret ++ junk) = Ok (b', out).
Proof.
  revert p n c ret junk. induction fuel as [|fuel IH]; intros p n c ret junk Hj Hr H Hout; [done|]. cbn [getString_loop getBuffer_loop] in *.
  destruct p as [q|]; [|done]. destruct (deref (store b) (Some q)) as [e|]; [|done]. cbn [rbind] in *.
  pose proof (len_nonneg junk). pose proof (len_nonneg (data e)).
  destruct (Z.ltb_spec (len (data e)) n) as [Hlt|Hge].
  - destruct (set_bytes_mid ret junk (data e)) as (junk' & E & Hj'); [lia|]. rewrite <- Hr, E. cbn [rbind].
    destruct (next e) as [q'|].
    + rewrite app_assoc. apply (IH _ _ _ (ret ++ data e)); [lia|rewrite len_app; lia|done|done].
    + injection H as <- <-. rewrite len_app in Hout. lia.
  - destruct (Z.eqb_spec n (len (data e))) as [Hn|Hn].
    + destruct (set_bytes_mid ret junk (data e)) as (junk' & E & Hj'); [lia|]. rewrite <- Hr, E. cbn [rbind].
      rewrite (len_0_nil junk') by lia. rewrite app_nil_r. done.
    + assert (Hs : len (slice (data e) 0 n) = n) by (rewrite slice_length; lia).
      destruct (set_bytes_mid ret junk (slice (data e) 0 n)) as (junk' & E & Hj'); [lia|]. rewrite <- Hr, E. cbn [rbind].
      rewrite (len_0_nil junk') by lia. rewrite app_nil_r. done.
Qed.

Context (Hunsafe : forall n, length (allocUnsafe n) = n).

Lemma get_spec b l n (hasStrings : bool) :
  repr b l -> l <> [] -> 0 <= n <= len (joined l) ->
  exists b', (if hasStrings then _getString b n else _getBuffer b n) = Ok (b', slice (joined l) 0 n) /\ repr b' (cut n l).
Proof.
  intros (ids & Hl) Hne Hn. pose proof (repr_bound _ _ _ Hl) as Hf. pose proof Hl as (Hc & _ & _ & Hh & _).
  destruct (getString_spec (fresh b) b [] [] ids l n [] Hl eq_refl Hf) as (b' & E & Hr); [|done|].
  { intros ->. by destruct l. }
  exists b'. split; [|done]. rewrite <- Hh in E. destruct hasStrings; [exact E|].
  unfold _getBuffer. apply (getBuffer_string _ _ _ _ _ _ [] _ b' (slice (joined l) 0 n)); [|rewrite len_nil; lia|exact E|rewrite slice_length; lia].
  unfold len. rewrite Hunsafe. lia.
Qed.

Lemma consume_repr b l n hasStrings :
  repr b l -> l <> [] -> 0 <= n <= len (joined l) ->
  exists b', consume b n hasStrings = Ok (b', Some (slice (joined l) 0 n)) /\ repr b' (cut n l).
Proof.
  intros Hr Hne Hn. pose proof Hr as (ids & Hl). pose proof Hl as (Hc & _ & _ & Hh & _).
  destruct ids as [|i ids], l as [|d l]; try done. destruct Hc as [Hi Hc]. unfold consume, deref. rewrite Hh.
  cbn [hd_error mbind option_bind]. rewrite Hi. cbn [rbind data cut]. change (joined (d :: l)) with (d ++ joined l) in *.
  destruct (Z.ltb_spec n (len d)) as [Hlt|Hge].
  - eexists. split.
    + do 3 f_equal. destruct (split_len d n ltac:(lia)) as (u & w & -> & <-). by rewrite <- app_assoc, !slice_prefix.
    + exists (i :: ids). apply (linked_set _ _ _ _ _ (slice_from d n) Hl).
  - destruct (Z.eqb_spec n (len d)) as [->|Hd].
    + destruct (shift_repr b (d :: l) Hr) as (b' & -> & Hr'). exists b'. by rewrite slice_prefix.
    + destruct (get_spec b (d :: l) n hasStrings Hr Hne Hn) as (b' & -> & Hr'). exists b'. split; [done|].
      cbn [cut] in Hr'. by rewrite (proj2 (Z.ltb_ge n _)), (proj2 (Z.eqb_neq n _)) in Hr' by lia.
Qed.

Lemma set_all_spec done junk l :
  len junk = len (joined l) -> set_all (done ++ junk) (len done) l = Ok (done ++ joined l).
Proof.
  revert done junk. induction l as [|d l IH]; intros done junk Hj; cbn [set_all].
  - rewrite (len_0_nil junk) by done. done.
  - change (joined (d :: l)) with (d ++ joined l) in *. rewrite len_app in Hj. pose proof (len_nonneg (joined l)).
    destruct (set_bytes_mid done junk d) as (junk' & -> & Hj'); [lia|]. cbn [rbind].
    rewrite app_assoc, <- len_app, IH by lia. by rewrite <- app_assoc.
Qed.

Lemma concat_repr b l : repr b l -> len (joined l) < 2 ^ 32 -> concat b (len (joined l)) = Ok (joined l).
Proof.
  intros Hr Hlt. pose proof Hr as (ids & _ & _ & _ & _ & _ & Hs). unfold concat. rewrite Hs.
  destruct (Z.eqb_spec (len l) 0) as [E|E]; [by rewrite (len_0_nil l E)|]. rewrite (chunks_repr b l Hr).
  unfold to_uint32. rewrite Z.mod_small by (pose proof (len_nonneg (joined l)); lia).
  apply (set_all_spec []). unfold len. rewrite Hunsafe. lia.
Qed.

(** ** The operations together *)

Inductive operation :=
| Push (v : chunk) | Unshift (v : chunk) | Shift | Clear | Join (s : jsstr) | Concat (n : Z) | First
| Consume (n : Z) (hasStrings : bool).

Definition perform (o : operation) (b : BufferList) : result (BufferList * option (list Z)) :=
  match o with
  | Push v => let! b := push b v in Ok (b, None)
  | Unshift v => Ok (unshift b v, None)
  | Shift => shift b
  | Clear => Ok (clear b, None)
  | Join s => Ok (b, Some (join b s))
  | Concat n => let! r := concat b n in Ok (b, Some r)
  | First => let! r := first b in Ok (b, Some r)
  | Consume n hasStrings => consume b n hasStrings
  end.

(** What is promised: operations on a list of chunks.  It is a mistake to ask
    an empty list for data, for more data than there is, or to concatenate
    with a wrong length. *)
Definition promised (o : operation) (l : list chunk) : option (list chunk * option (list Z)) :=
  match o with
  | Push v => Some (l ++ [v], None)
  | Unshift v => Some (v :: l, None)
  | Shift => Some (drop 1 l, hd_error l)
  | Clear => Some ([], None)
  | Join s => Some (l, Some (join_with s l))
  | Concat n => if (n =? len (joined l)) && (n <? 2 ^ 32) then Some (l, Some (joined l)) else None
  | First => match l with d :: _ => Some (l, Some d) | [] => None end
  | Consume n _ =>
      if negb (len l =? 0) && (0 <=? n) && (n <=? len (joined l)) then Some (cut n l, Some (slice (joined l) 0 n)) else None
  end.

Lemma perform_promised o b l l' out :
  repr b l -> promised o l = Some (l', out) -> exists b', perform o b = Ok (b', out) /\ repr b' l'.
Proof.
  intros Hr H. destruct o as [v|v| | |s|n| |n h]; cbn [promised perform] in *.
  - injection H as <- <-. destruct (push_repr b l v Hr) as (b' & -> & Hr'). by exists b'.
  - injection H as <- <-. eexists. split; [done|]. by apply unshift_repr.
  - injection H as <- <-. by apply shift_repr.
  - injection H as <- <-. eexists. split; [done|]. exists []. repeat split; try constructor.
  - injection H as <- <-. exists b. split; [|done]. do 3 f_equal. unfold join. rewrite (chunks_repr b l Hr).
    pose proof Hr as (ids & _ & _ & _ & _ & _ & ->). by destruct l.
  - destruct (_ && _) eqn:E; [|done]. injection H as <- <-. apply andb_true_iff in E as [->%Z.eqb_eq E%Z.ltb_lt].
    rewrite (concat_repr b l Hr E). by exists b.
  - destruct l as [|d l]; [done|]. injection H as <- <-. pose proof Hr as (ids & Hc & _ & _ & Hh & _).
    destruct ids as [|i ids]; [done|]. destruct Hc as [Hi _]. unfold first, deref. rewrite Hh. cbn [hd_error mbind option_bind].
    rewrite Hi. by exists b.
  - destruct (_ && _) eqn:E; [|done]. injection H as <- <-. apply andb_true_iff in E as [E E3%Z.leb_le].
    apply andb_true_iff in E as [E1%negb_true_iff%Z.eqb_neq E2%Z.leb_le].
    apply consume_repr; [done| |lia]. intros ->. done.
Qed.

Lemma cut_nonempty n l : 0 <= n -> Forall (fun d : chunk => d <> []) l -> Forall (fun d : chunk => d <> []) (cut n l).
Proof.
  revert n. induction l as [|d l IH]; intros n Hn H; [done|]. apply Forall_cons in H as [Hd H]. cbn [cut].
  destruct (Z.ltb_spec n (len d)) as [Hlt|Hge].
  - apply Forall_cons. split; [|done]. destruct (split_len d n ltac:(lia)) as (u & w & -> & <-). rewrite slice_from_suffix.
    intros ->. rewrite app_nil_r in Hlt. lia.
  - destruct (Z.eqb_spec n (len d)); [done|]. apply IH; [lia|done].
Qed.

(** ** What streams use *)

#[local] Instance buffer_list : ChunkList BufferList := {
  new_chunks := new_list;
  chunk_count := size;
  push_chunk := push;
  unshift_chunk := unshift;
  clear_chunks := clear;
  first_chunk := first;
  concat_chunks := concat;
  consume_chunks b n := consume b n false
}.

#[local] Instance buffer_list_ok : ChunkListOk BufferList.
Proof.
  refine {| holds := repr |}; cbn [new_chunks chunk_count push_chunk unshift_chunk clear_chunks first_chunk concat_chunks consume_chunks buffer_list].
  - exact repr_new.
  - by intros b l (ids & _ & _ & _ & _ & _ & ->).
  - exact push_repr.
  - exact unshift_repr.
  - intros b l _. exists []. repeat split; try constructor.
  - intros b d l Hr. destruct (perform_promised First b (d :: l) (d :: l) (Some d) Hr eq_refl) as (b' & E & _). cbn [perform] in E.
    destruct (first b) as [r|]; cbn [rbind] in E; [|done]. by injection E as _ <-.
  - exact concat_repr.
  - intros b l n Hr Hne Hl Hn. destruct (consume_repr b l n false Hr Hne Hn) as (b' & E & Hr'). exists b', (cut n l).
    split; [exact E|]. split; [done|]. split; [apply cut_nonempty; [lia|done]|]. by apply cut_joined.
Defined.

Fixpoint performs (os : list operation) (b : BufferList) : result (BufferList * list (option (list Z))) :=
  match os with
  | [] => Ok (b, [])
  | o :: os => let! r := perform o b in let! s := performs os (fst r) in Ok (fst s, snd r :: snd s)
  end.

Fixpoint all_promised (os : list operation) (l : list chunk) : option (list chunk * list (option (list Z))) :=
  match os with
  | [] => Some (l, [])
  | o :: os =>
      match promised o l with
      | None => None
      | Some (l, out) => match all_promised os l with None => None | Some (l, outs) => Some (l, out :: outs) end
      end
  end.

(** C32: A list of buffers is a list of chunks: any sequence of operations that
    makes sense on the chunks runs without an error and gives the same
    results, [consume] and [concat] the data in order whatever the chunks are
    and whatever bytes fresh memory holds. *)
Theorem buffer_list_refines (os : list operation) l outs :
  all_promised os [] = Some (l, outs) -> exists b, performs os new_list = Ok (b, outs) /\ chunks b = l.
Proof.
  assert (Hgen : forall b l0, repr b l0 -> forall l outs, all_promised os l0 = Some (l, outs) ->
    exists b', performs os b = Ok (b', outs) /\ repr b' l).
  { clear l outs. induction os as [|o os IH]; intros b l0 Hr l outs H; cbn [all_promised performs] in *.
    - injection H as <- <-. by exists b.
    - destruct (promised o l0) as [[l1 out]|] eqn:E; [|done]. destruct (perform_promised _ _ _ _ _ Hr E) as (b1 & -> & Hr1).
      cbn [rbind fst snd]. destruct (all_promised os l1) as [[l2 outs2]|] eqn:E2; [|done]. injection H as <- <-.
      destruct (IH b1 l1 Hr1 _ _ E2) as (b2 & -> & Hr2). by exists b2. }
  intros H. destruct (Hgen _ _ repr_new _ _ H) as (b & E & Hr). exists b. split; [done|]. by apply chunks_repr.
Qed.
End Unsafe.

Lemma buffer_list_refines_witness :
  exists b, performs (fun n => repeat 170 n)
      [Push [1; 2; 3]; Push [4; 5]; Unshift [0]; Consume 3 false; Consume 2 true; Shift; Push [6]; Concat 1] new_list
    = Ok (b, [None; None; None; Some [0; 1; 2]; Some [3; 4]; Some [5]; None; Some [6]]) /\ chunks b = [[6]].
Proof. apply buffer_list_refines; [intros n; apply repeat_length|vm_compute; reflexivity]. Defined.

(** Asked for more than there is, the loops take the length down to zero but
    leave the entries in the list. *)
Example consume_too_much :
  (fun r => (size (fst r), chunks (fst r), snd r))
    <$> (match performs (fun n => repeat 170 n) [Push [1]; Push [2]] new_list with
         | Ok (b, _) => match consume (fun n => repeat 170 n) b 3 false with Ok r => Some r | Throw _ => None end
         | Throw _ => None
         end)
  = Some (0, [[1]; [2]], Some [1; 2; 170]).
Proof. by vm_compute. Qed.
