(* ===== verification/Cipher.v ===== *)
(** * Ciphers: internal/crypto/cipher.ts and ops/crypto/cipher.rs

    The classes [Cipheriv] and [Decipheriv] with their cache of whole blocks,
    over the contexts of the native side.  The block modes and the stream mode
    are those of the libraries the native side uses: an interface [CipherLib]
    with the laws [CipherLibOk].  A panic of the native side is an error.
    Text in and out of [update] and [final] goes through [Buffer.from] and
    [toString]; here are the bytes. *)

From S2P Require Import Prelude Bytes.
#[local] Open Scope Z_scope.

Inductive algorithm := Aes128Cbc | Aes128Ecb | Aes192Ecb | Aes256Ecb | Aes256Cbc.
Inductive gcm_algorithm := Aes128Gcm | Aes256Gcm.

(** The libraries: encryptors and decryptors of blocks of 16 bytes in a mode,
    with padding for the last block, and the stream mode with its tag. *)
Class CipherLib := {
  encryptor : Type;
  decryptor : Type;
  gcm : Type;
  new_encryptor : algorithm -> list Z -> list Z -> encryptor;
  new_decryptor : algorithm -> list Z -> list Z -> decryptor;
  encrypt_block : encryptor -> list Z -> encryptor * list Z;
  decrypt_block : decryptor -> list Z -> decryptor * list Z;
  encrypt_padded : encryptor -> list Z -> option (list Z);
  decrypt_padded : decryptor -> list Z -> option (list Z);
  gcm_nonce : Z;
  new_gcm : gcm_algorithm -> list Z -> list Z -> gcm;
  gcm_aad : gcm -> list Z -> gcm;
  gcm_encrypt : gcm -> list Z -> gcm * list Z;
  gcm_decrypt : gcm -> list Z -> gcm * list Z;
  gcm_finish : gcm -> list Z
}.

(** PKCS #7: as many bytes as are missing, each with that number. *)
Definition pad_bytes (l : list Z) : list Z := let n := 16 - len l mod 16 in replicate (Z.to_nat n) n.
Definition pkcs7 (l : list Z) : list Z := l ++ pad_bytes l.
Definition padded (block : list Z) : bool :=
  let n := default 0 (last block) in
  (1 <=? n) && (n <=? 16) && bool_decide (slice_from block (16 - n) = replicate (Z.to_nat n) n).

(** What the libraries document: blocks keep their length, a decryptor with the
    same key follows the encryptor, padding is PKCS #7; the stream mode works
    on any pieces, and the tag depends on the data only. *)
Class CipherLibOk (L : CipherLib) := {
  follows : encryptor -> decryptor -> Prop;
  gcm_follows : gcm -> gcm -> Prop;
  new_follows a key iv : follows (new_encryptor a key iv) (new_decryptor a key iv);
  encrypt_block_length e b : length b = 16%nat -> length (snd (encrypt_block e b)) = 16%nat;
  decrypt_follows e d b : follows e d -> length b = 16%nat -> bytes_ok b ->
    follows (fst (encrypt_block e b)) (fst (decrypt_block d (snd (encrypt_block e b))))
    /\ snd (decrypt_block d (snd (encrypt_block e b))) = b;
  encrypt_padded_spec e l : len l < 16 -> encrypt_padded e l = Some (snd (encrypt_block e (pkcs7 l)));
  decrypt_padded_spec d b : length b = 16%nat ->
    decrypt_padded d b = if padded (snd (decrypt_block d b)) then Some (snd (decrypt_block d b)) else None;
  new_gcm_follows a key iv : gcm_follows (new_gcm a key iv) (new_gcm a key iv);
  gcm_aad_follows e d aad : gcm_follows e d -> gcm_follows (gcm_aad e aad) (gcm_aad d aad);
  gcm_encrypt_app e b c :
    gcm_encrypt e (b ++ c) = (fst (gcm_encrypt (fst (gcm_encrypt e b)) c), snd (gcm_encrypt e b) ++ snd (gcm_encrypt (fst (gcm_encrypt e b)) c));
  gcm_decrypt_app e b c :
    gcm_decrypt e (b ++ c) = (fst (gcm_decrypt (fst (gcm_decrypt e b)) c), snd (gcm_decrypt e b) ++ snd (gcm_decrypt (fst (gcm_decrypt e b)) c));
  gcm_encrypt_nil e : gcm_encrypt e [] = (e, []);
  gcm_decrypt_nil e : gcm_decrypt e [] = (e, []);
  gcm_decrypt_follows e d b : gcm_follows e d -> bytes_ok b ->
    gcm_follows (fst (gcm_encrypt e b)) (fst (gcm_decrypt d (snd (gcm_encrypt e b))))
    /\ snd (gcm_decrypt d (snd (gcm_encrypt e b))) = b;
  gcm_finish_follows e d : gcm_follows e d -> gcm_finish e = gcm_finish d
}.

Section Cipher.
Context {L : CipherLib}.

(** ** cipher.rs *)

Definition panic {A} : result A := Throw (Error "panic").

Inductive Cipher := BlockCipher (a : algorithm) (s : encryptor) | GcmCipher (a : gcm_algorithm) (s : gcm).
Inductive Decipher := BlockDecipher (a : algorithm) (s : decryptor) | GcmDecipher (a : gcm_algorithm) (s : gcm).

Definition block_algorithm (name : jsstr) : option algorithm :=
  if str_eqb name (js "aes-128-cbc") then Some Aes128Cbc
  else if str_eqb name (js "aes-128-ecb") then Some Aes128Ecb
  else if str_eqb name (js "aes-192-ecb") then Some Aes192Ecb
  else if str_eqb name (js "aes-256-ecb") then Some Aes256Ecb
  else if str_eqb name (js "aes256") || str_eqb name (js "aes-256-cbc") then Some Aes256Cbc
  else None.

Definition gcm_algorithm_of (name : jsstr) : option gcm_algorithm :=
  if str_eqb name (js "aes-128-gcm") then Some Aes128Gcm
  else if str_eqb name (js "aes-256-gcm") then Some Aes256Gcm
  else None.

Definition key_size (a : algorithm) : Z :=
  match a with Aes128Cbc | Aes128Ecb => 16 | Aes192Ecb => 24 | Aes256Ecb | Aes256Cbc => 32 end.
Definition gcm_key_size (a : gcm_algorithm) : Z := match a with Aes128Gcm => 16 | Aes256Gcm => 32 end.
Definition needs_iv (a : algorithm) : bool := match a with Aes128Cbc | Aes256Cbc => true | _ => false end.

(** [key.into()] and [iv.into()] panic on another length. *)
Definition sizes_ok (a : algorithm) (key iv : list Z) : bool :=
  (len key =? key_size a) && (negb (needs_iv a) || (len iv =? 16)).

(** [Cipher::new]; [None] is an error, for an unknown name or a nonce of the
    wrong length. *)
Definition new_cipher (name : jsstr) (key iv : list Z) : result (option Cipher) :=
  match block_algorithm name with
  | Some a => if sizes_ok a key iv then Ok (Some (BlockCipher a (new_encryptor a key iv))) else panic
  | None =>
      match gcm_algorithm_of name with
      | Some a =>
          if negb (len key =? gcm_key_size a) then panic
          else if len iv =? gcm_nonce then Ok (Some (GcmCipher a (new_gcm a key iv))) else Ok None
      | None => Ok None
      end
  end.

Definition new_decipher (name : jsstr) (key iv : list Z) : result (option Decipher) :=
  match block_algorithm name with
  | Some a => if sizes_ok a key iv then Ok (Some (BlockDecipher a (new_decryptor a key iv))) else panic
  | None =>
      match gcm_algorithm_of name with
      | Some a =>
          if negb (len key =? gcm_key_size a) then panic
          else if len iv =? gcm_nonce then Ok (Some (GcmDecipher a (new_gcm a key iv))) else Ok None
      | None => Ok None
      end
  end.

(** The blocks of the input, one by one. *)
Fixpoint block_loop {S} (f : S -> list Z -> S * list Z) (n : nat) (s : S) (input : list Z) : S * list Z :=
  match n with
  | O => (s, [])
  | Datatypes.S n =>
      let '(s, c) := f s (take 16 input) in
      let '(s, r) := block_loop f n s (drop 16 input) in
      (s, c ++ r)
  end.

Definition encrypt_blocks : nat -> encryptor -> list Z -> encryptor * list Z := block_loop encrypt_block.
Definition decrypt_blocks : nat -> decryptor -> list Z -> decryptor * list Z := block_loop decrypt_block.

(** [Cipher::encrypt], into an output of the same length. *)
Definition encrypt (c : Cipher) (input : list Z) : result (Cipher * list Z) :=
  match c with
  | BlockCipher a e =>
      if negb (len input mod 16 =? 0) then panic
      else let '(e, out) := encrypt_blocks (length input / 16) e input in Ok (BlockCipher a e, out)
  | GcmCipher a s => let '(s, out) := gcm_encrypt s input in Ok (GcmCipher a s, out)
  end.

Definition decrypt (d : Decipher) (input : list Z) : result (Decipher * list Z) :=
  match d with
  | BlockDecipher a e =>
      if negb (len input mod 16 =? 0) then panic
      else let '(e, out) := decrypt_blocks (length input / 16) e input in Ok (BlockDecipher a e, out)
  | GcmDecipher a s => let '(s, out) := gcm_decrypt s input in Ok (GcmDecipher a s, out)
  end.

Definition set_aad (c : Cipher) (aad : list Z) : Cipher :=
  match c with BlockCipher _ _ => c | GcmCipher a s => GcmCipher a (gcm_aad s aad) end.
Definition decipher_set_aad (d : Decipher) (aad : list Z) : Decipher :=
  match d with BlockDecipher _ _ => d | GcmDecipher a s => GcmDecipher a (gcm_aad s aad) end.

(** [Cipher::final]: the contents of the output, and the tag. *)
Definition cipher_final (c : Cipher) (input output : list Z) : result (list Z * option (list Z)) :=
  if negb (len input <? 16) then panic
  else
    match c with
    | BlockCipher _ e =>
        match encrypt_padded e input with
        | Some out => Ok (out, None)
        | None => Throw (TypeError "Cannot pad the input data")
        end
    | GcmCipher _ s => Ok (output, Some (gcm_finish s))
    end.

Definition decipher_final (d : Decipher) (input output auth_tag : list Z) : result (list Z) :=
  match d with
  | BlockDecipher _ e =>
      if negb (len input =? 16) then panic
      else
        match decrypt_padded e input with
        | Some out => Ok out
        | None => Throw (TypeError "Cannot unpad the input data")
        end
  | GcmDecipher _ s =>
      if bool_decide (gcm_finish s = auth_tag) then Ok output else Throw (TypeError "Failed to authenticate data")
  end.

(** ** cipher.ts *)

Record BlockModeCache := Cache { cache : list Z; lastChunkIsNonZero : bool }.

Definition cache_add (c : BlockModeCache) (data : list Z) : BlockModeCache :=
  Cache (cache c ++ data) (lastChunkIsNonZero c).

Definition cache_get (c : BlockModeCache) : BlockModeCache * option (list Z) :=
  let n := len (cache c) in
  let n := if lastChunkIsNonZero c then n - 1 else n in
  if n <? 16 then (c, None)
  else
    let n := n / 16 * 16 in
    (Cache (slice_from (cache c) n) (lastChunkIsNonZero c), Some (slice (cache c) 0 n)).

(** The context is gone once [final] has taken it. *)
Record Cipheriv := CI { context : option Cipher; ci_cache : BlockModeCache; needsBlockCache : bool; authTag : option (list Z) }.
Record Decipheriv := DI { d_context : option Decipher; di_cache : BlockModeCache; d_needsBlockCache : bool; d_authTag : option (list Z) }.

Definition is_gcm_name (cipher : jsstr) : bool := str_eqb cipher (js "aes-128-gcm") || str_eqb cipher (js "aes-256-gcm").

Definition newCipheriv (cipher : jsstr) (key iv : list Z) : result Cipheriv :=
  let! c := new_cipher cipher key iv in
  match c with
  | Some c => Ok (CI (Some c) (Cache [] false) (negb (is_gcm_name cipher)) None)
  | None => Throw (TypeError "Unknown cipher")
  end.

Definition newDecipheriv (cipher : jsstr) (key iv : list Z) : result Decipheriv :=
  let! d := new_decipher cipher key iv in
  match d with
  | Some d => Ok (DI (Some d) (Cache [] true) (negb (is_gcm_name cipher)) None)
  | None => Throw (TypeError "Unknown cipher")
  end.

Definition setAAD (c : Cipheriv) (aad : list Z) : Cipheriv :=
  CI ((fun x => set_aad x aad) <$> context c) (ci_cache c) (needsBlockCache c) (authTag c).
Definition decipher_setAAD (d : Decipheriv) (aad : list Z) : Decipheriv :=
  DI ((fun x => decipher_set_aad x aad) <$> d_context d) (di_cache d) (d_needsBlockCache d) (d_authTag d).
Definition setAuthTag (d : Decipheriv) (tag : list Z) : Decipheriv :=
  DI (d_context d) (di_cache d) (d_needsBlockCache d) (Some tag).
Definition getAuthTag (c : Cipheriv) : option (list Z) := authTag c.

(** [data] of [update]: bytes, or a string no encoding was given for. *)
Inductive update_data := Bytes (b : list Z) | RawString (s : jsstr).

(** An element of [typedArray.set(string)] is the number of a one-character
    string; what is not a number is 0. *)
Definition char_byte (c : Z) : Z := if (48 <=? c) && (c <=? 57) then c - 48 else 0.
Definition data_bytes (d : update_data) : list Z := match d with Bytes b => b | RawString s => char_byte <$> s end.

Section Unsafe.
Context (allocUnsafe : nat -> list Z).

(** The op of a context that is gone returns [false], which is not looked at:
    the output stays as it was allocated. *)
Definition op_encrypt (c : option Cipher) (input : list Z) : result (option Cipher * list Z) :=
  match c with
  | Some c => let! r := encrypt c input in Ok (Some (fst r), snd r)
  | None => Ok (None, allocUnsafe (length input))
  end.

Definition update (c : Cipheriv) (data : update_data) : result (Cipheriv * list Z) :=
  if negb (needsBlockCache c) then
    match data with
    | RawString _ => Throw (TypeError "expected typed ArrayBufferView")
    | Bytes b =>
        let! r := op_encrypt (context c) b in
        Ok (CI (fst r) (ci_cache c) (needsBlockCache c) (authTag c), snd r)
    end
  else
    let '(cache', input) := cache_get (cache_add (ci_cache c) (data_bytes data)) in
    match input with
    | None => Ok (CI (context c) cache' (needsBlockCache c) (authTag c), [])
    | Some input =>
        let! r := op_encrypt (context c) input in
        Ok (CI (fst r) cache' (needsBlockCache c) (authTag c), snd r)
    end.

Definition bad_resource : jserr := Error "Bad resource ID".

Definition final (c : Cipheriv) : result (Cipheriv * list Z) :=
  let buf := replicate 16 0 in
  match context c with
  | None => Throw bad_resource
  | Some ctx =>
      let! r := cipher_final ctx (cache (ci_cache c)) buf in
      match snd r with
      | Some tag => Ok (CI None (ci_cache c) (needsBlockCache c) (Some tag), [])
      | None => Ok (CI None (ci_cache c) (needsBlockCache c) (authTag c), fst r)
      end
  end.

Definition op_decrypt (d : option Decipher) (input output : list Z) : result (option Decipher * list Z) :=
  match d with
  | Some d => let! r := decrypt d input in Ok (Some (fst r), snd r)
  | None => Ok (None, output)
  end.

Definition decipher_update (d : Decipheriv) (data : update_data) : result (Decipheriv * list Z) :=
  if negb (d_needsBlockCache d) then
    match data with
    | RawString _ => Throw (TypeError "expected typed ArrayBufferView")
    | Bytes b =>
        let! r := op_decrypt (d_context d) b (allocUnsafe (length b)) in
        Ok (DI (fst r) (di_cache d) (d_needsBlockCache d) (d_authTag d), snd r)
    end
  else
    let '(cache', input) := cache_get (cache_add (di_cache d) (data_bytes data)) in
    match input with
    | None => Ok (DI (d_context d) cache' (d_needsBlockCache d) (d_authTag d), [])
    | Some input =>
        let! r := op_decrypt (d_context d) input (replicate (length input) 0) in
        Ok (DI (fst r) cache' (d_needsBlockCache d) (d_authTag d), snd r)
    end.

Definition decipher_final_js (d : Decipheriv) : result (Decipheriv * list Z) :=
  let buf := replicate 16 0 in
  match d_context d with
  | None => Throw bad_resource
  | Some ctx =>
      let! buf := decipher_final ctx (cache (di_cache d)) buf (default [] (d_authTag d)) in
      let d := DI None (di_cache d) (d_needsBlockCache d) (d_authTag d) in
      if negb (d_needsBlockCache d) then Ok (d, [])
      else Ok (d, slice buf 0 (16 - default 0 (at_index buf (len buf - 1))))
  end.

(** A message in pieces. *)
Fixpoint updates (c : Cipheriv) (chunks : list (list Z)) : result (Cipheriv * list Z) :=
  match chunks with
  | [] => Ok (c, [])
  | b :: chunks =>
      let! r := update c (Bytes b) in
      let! s := updates (fst r) chunks in
      Ok (fst s, snd r ++ snd s)
  end.
Fixpoint decipher_updates (d : Decipheriv) (chunks : list (list Z)) : result (Decipheriv * list Z) :=
  match chunks with
  | [] => Ok (d, [])
  | b :: chunks =>
      let! r := decipher_update d (Bytes b) in
      let! s := decipher_updates (fst r) chunks in
      Ok (fst s, snd r ++ snd s)
  end.

(** [c.update(chunk)] for all chunks, then [c.final()]. *)
Definition encrypt_message (c : Cipheriv) (chunks : list (list Z)) : result (Cipheriv * list Z) :=
  let! r := updates c chunks in
  let! s := final (fst r) in
  Ok (fst s, snd r ++ snd s).
Definition decrypt_message (d : Decipheriv) (chunks : list (list Z)) : result (Decipheriv * list Z) :=
  let! r := decipher_updates d chunks in
  let! s := decipher_final_js (fst r) in
  Ok (fst s, snd r ++ snd s).

(** ** Blocks *)

(** How many blocks are passed on of [l]. *)
Definition passed (keep : bool) (l : list Z) : nat := Z.to_nat ((len l - Z.b2z keep) / 16).

Lemma passed_le keep l : (16 * passed keep l <= length l)%nat.
Proof.
  unfold passed. pose proof (len_nonneg l). assert (Hk : 0 <= Z.b2z keep <= 1) by (destruct keep; cbn; lia). unfold len in *.
  destruct (decide (0 <= Z.of_nat (length l) - Z.b2z keep)) as [Hp|]; [div_lia|].
  replace ((Z.of_nat (length l) - Z.b2z keep) / 16) with (-1) by div_lia. cbn. lia.
Qed.

Lemma passed_drop keep l : passed keep (drop (16 * passed keep l) l) = 0%nat.
Proof.
  pose proof (passed_le keep l) as Hle. unfold passed at 1, len. rewrite length_drop. revert Hle. unfold passed, len.
  assert (Hk : 0 <= Z.b2z keep <= 1) by (destruct keep; cbn; lia). div_lia.
Qed.

Lemma passed_app keep l m : passed keep (l ++ m) = (passed keep l + passed keep (drop (16 * passed keep l) l ++ m))%nat.
Proof.
  pose proof (passed_le keep l) as Hle. unfold passed at 1 3, len. rewrite !length_app, length_drop. revert Hle. unfold passed, len.
  assert (Hk : 0 <= Z.b2z keep <= 1) by (destruct keep; cbn; lia). div_lia.
Qed.

Definition joined (chunks : list (list Z)) : list Z := foldr app [] chunks.

Section Loop.
Context {S : Type} (f : S -> list Z -> S * list Z).

Lemma block_loop_app n m s a b :
  length a = (16 * n)%nat ->
  block_loop f (n + m) s (a ++ b)
  = (fst (block_loop f m (fst (block_loop f n s a)) b), snd (block_loop f n s a) ++ snd (block_loop f m (fst (block_loop f n s a)) b)).
Proof.
  revert s a. induction n as [|n IH]; intros s a Ha.
  - destruct a; [|done]. cbn. by destruct (block_loop f m s b).
  - cbn [Nat.add block_loop]. rewrite take_app_le, drop_app_le by lia. destruct (f s (take 16 a)) as [s1 c].
    rewrite IH by (rewrite length_drop; lia). destruct (block_loop f n s1 (drop 16 a)) as [s2 r]. cbn. by rewrite app_assoc.
Qed.

(** One piece of data, and a list of pieces, through a cache of the state. *)
Definition feed1 (keep : bool) (s : S) (P b : list Z) : S * list Z * list Z :=
  let T := P ++ b in
  let q := passed keep T in
  (fst (block_loop f q s (take (16 * q) T)), drop (16 * q) T, snd (block_loop f q s (take (16 * q) T))).

Fixpoint feed (keep : bool) (s : S) (P : list Z) (chunks : list (list Z)) : S * list Z * list Z :=
  match chunks with
  | [] => (s, P, [])
  | b :: chunks =>
      let '(s, P, o) := feed1 keep s P b in
      let '(s, P, o') := feed keep s P chunks in
      (s, P, o ++ o')
  end.

(** However the data is cut. *)
Lemma feed_joined keep s P chunks :
  passed keep P = 0%nat -> feed keep s P chunks = feed1 keep s P (joined chunks).
Proof.
  revert s P. induction chunks as [|b chunks IH]; intros s P HP; cbn [feed].
  - unfold feed1. cbn [joined foldr]. rewrite app_nil_r, HP. cbn. by rewrite drop_0.
  - change (joined (b :: chunks)) with (b ++ joined chunks). unfold feed1 at 1. cbv zeta.
    set (T := P ++ b). set (q := passed keep T). set (r := drop (16 * q) T).
    rewrite IH by apply passed_drop. unfold feed1. rewrite app_assoc. fold T.
    rewrite (passed_app keep T). fold q r. set (q' := passed keep (r ++ joined chunks)).
    pose proof (passed_le keep T) as Hq. fold q in Hq.
    assert (Ht : take (16 * (q + q')) (T ++ joined chunks) = take (16 * q) T ++ take (16 * q') (r ++ joined chunks)).
    { rewrite <- (take_drop (16 * q) T) at 1. fold r. rewrite <- app_assoc.
      rewrite take_app_ge by (rewrite length_take; lia). rewrite length_take. do 2 f_equal. lia. }
    assert (Hd : drop (16 * (q + q')) (T ++ joined chunks) = drop (16 * q') (r ++ joined chunks)).
    { rewrite <- (take_drop (16 * q) T) at 1. fold r. rewrite <- app_assoc.
      rewrite drop_app_ge by (rewrite length_take; lia). rewrite length_take. f_equal. lia. }
    rewrite Ht, Hd, block_loop_app by (rewrite length_take; lia). done.
Qed.
End Loop.

Lemma cache_get_spec P keep :
  cache_get (Cache P keep)
  = (Cache (drop (16 * passed keep P) P) keep,
     if (passed keep P =? 0)%nat then None else Some (take (16 * passed keep P) P)).
Proof.
  unfold cache_get. cbn [cache lastChunkIsNonZero].
  replace (if keep then len P - 1 else len P) with (len P - Z.b2z keep) by (destruct keep; cbn; lia).
  pose proof (passed_le keep P) as Hle. unfold passed in *. pose proof (len_nonneg P).
  assert (Hk : 0 <= Z.b2z keep <= 1) by (destruct keep; cbn; lia). set (x := len P - Z.b2z keep) in *.
  destruct (Z.ltb_spec x 16) as [Hx|Hx].
  - replace (Z.to_nat (x / 16)) with 0%nat; [by rewrite drop_0|]. destruct (decide (0 <= x)); [rewrite Z.div_small by lia; done|].
    assert (x / 16 < 0) by (apply Z.div_lt_upper_bound; lia). lia.
  - assert (1 <= x / 16) by (apply Z.div_le_lower_bound; lia). destruct (Nat.eqb_spec (Z.to_nat (x / 16)) 0); [lia|].
    set (q := x / 16) in *. unfold slice_from, slice, rel_index. unfold len in *.
    rewrite (proj2 (Z.ltb_ge (q * 16) 0)), (proj2 (Z.ltb_ge (Z.of_nat (length P)) 0)) by lia. cbn [Z.ltb Z.compare].
    rewrite !Z.min_l by lia. replace (Z.to_nat 0) with 0%nat by lia. rewrite drop_0, Z.sub_0_r.
    rewrite (take_ge (drop _ _)) by (rewrite length_drop; lia).
    replace (Z.to_nat (q * 16)) with (16 * Z.to_nat q)%nat by lia. done.
Qed.

Lemma take_blocks n (l : list Z) : (16 * n <= length l)%nat -> length (take (16 * n) l) = (16 * n)%nat.
Proof. intros H. rewrite length_take. lia. Qed.

Lemma blocks_of_multiple n (l : list Z) : length l = (16 * n)%nat -> len l mod 16 = 0 /\ (length l / 16)%nat = n.
Proof.
  intros H. unfold len. rewrite H. split.
  - rewrite Nat2Z.inj_mul, Z.mul_comm. apply Z.mod_mul. lia.
  - rewrite Nat.mul_comm. apply Nat.div_mul. lia.
Qed.

Lemma encrypt_multiple a e n input :
  length input = (16 * n)%nat ->
  encrypt (BlockCipher a e) input = Ok (BlockCipher a (fst (encrypt_blocks n e input)), snd (encrypt_blocks n e input)).
Proof.
  intros [H1 H2]%blocks_of_multiple. unfold encrypt. rewrite H1, H2. cbn [Z.eqb negb]. by destruct (encrypt_blocks n e input).
Qed.

Lemma decrypt_multiple a e n input :
  length input = (16 * n)%nat ->
  decrypt (BlockDecipher a e) input = Ok (BlockDecipher a (fst (decrypt_blocks n e input)), snd (decrypt_blocks n e input)).
Proof.
  intros [H1 H2]%blocks_of_multiple. unfold decrypt. rewrite H1, H2. cbn [Z.eqb negb]. by destruct (decrypt_blocks n e input).
Qed.

(** The ciphers feed their caches. *)
Lemma update_feed a e P t b :
  update (CI (Some (BlockCipher a e)) (Cache P false) true t) (Bytes b)
  = let '(e', P', o) := feed1 encrypt_block false e P b in Ok (CI (Some (BlockCipher a e')) (Cache P' false) true t, o).
Proof.
  unfold update, cache_add. cbn [needsBlockCache negb ci_cache cache lastChunkIsNonZero data_bytes context authTag].
  rewrite cache_get_spec. unfold feed1. cbv zeta. set (q := passed false (P ++ b)).
  destruct (Nat.eqb_spec q 0) as [->|Hq]; [done|]. unfold op_encrypt.
  rewrite (encrypt_multiple a e q) by (apply take_blocks, passed_le). done.
Qed.

Lemma decipher_update_feed a e P t b :
  decipher_update (DI (Some (BlockDecipher a e)) (Cache P true) true t) (Bytes b)
  = let '(e', P', o) := feed1 decrypt_block true e P b in Ok (DI (Some (BlockDecipher a e')) (Cache P' true) true t, o).
Proof.
  unfold decipher_update, cache_add. cbn [d_needsBlockCache negb di_cache cache lastChunkIsNonZero data_bytes d_context d_authTag].
  rewrite cache_get_spec. unfold feed1. cbv zeta. set (q := passed true (P ++ b)).
  destruct (Nat.eqb_spec q 0) as [->|Hq]; [done|]. unfold op_decrypt.
  rewrite (decrypt_multiple a e q) by (apply take_blocks, passed_le). done.
Qed.

Lemma updates_feed a e P t chunks :
  updates (CI (Some (BlockCipher a e)) (Cache P false) true t) chunks
  = let '(e', P', o) := feed encrypt_block false e P chunks in Ok (CI (Some (BlockCipher a e')) (Cache P' false) true t, o).
Proof.
  revert e P. induction chunks as [|b chunks IH]; intros e P; [done|]. cbn [updates feed]. rewrite update_feed.
  destruct (feed1 encrypt_block false e P b) as [[e1 P1] o1]. cbn [rbind fst snd]. rewrite IH.
  by destruct (feed encrypt_block false e1 P1 chunks) as [[e2 P2] o2].
Qed.

Lemma decipher_updates_feed a e P t chunks :
  decipher_updates (DI (Some (BlockDecipher a e)) (Cache P true) true t) chunks
  = let '(e', P', o) := feed decrypt_block true e P chunks in Ok (DI (Some (BlockDecipher a e')) (Cache P' true) true t, o).
Proof.
  revert e P. induction chunks as [|b chunks IH]; intros e P; [done|]. cbn [decipher_updates feed]. rewrite decipher_update_feed.
  destruct (feed1 decrypt_block true e P b) as [[e1 P1] o1]. cbn [rbind fst snd]. rewrite IH.
  by destruct (feed decrypt_block true e1 P1 chunks) as [[e2 P2] o2].
Qed.

(** ** Padding *)

Lemma pad_length l : length (pad_bytes l) = Z.to_nat (16 - len l mod 16).
Proof. apply length_replicate. Qed.

Lemma pkcs7_length l : len l < 16 -> length (pkcs7 l) = 16%nat.
Proof.
  intros Hl. pose proof (len_nonneg l). unfold pkcs7. rewrite length_app, pad_length, Z.mod_small by lia. unfold len in *. lia.
Qed.

Lemma pad_drop n l : (16 * n <= length l)%nat -> pad_bytes (drop (16 * n) l) = pad_bytes l.
Proof.
  intros Hn. unfold pad_bytes, len. rewrite length_drop.
  replace (Z.of_nat (length l - 16 * n) mod 16) with (Z.of_nat (length l) mod 16) by div_lia. done.
Qed.

Lemma last_replicate_pos {X} n (x : X) : (0 < n)%nat -> last (replicate n x) = Some x.
Proof. intros H. destruct n as [|n]; [lia|]. rewrite replicate_S_end. by rewrite last_snoc. Qed.

Lemma pkcs7_last l : len l < 16 -> last (pkcs7 l) = Some (16 - len l) /\ 1 <= 16 - len l <= 16 /\ pad_bytes l = replicate (Z.to_nat (16 - len l)) (16 - len l).
Proof.
  intros Hl. pose proof (len_nonneg l). unfold pkcs7, pad_bytes. rewrite Z.mod_small by lia. split; [|split; [lia|done]].
  rewrite last_app, last_replicate_pos by lia. done.
Qed.

Lemma padded_pkcs7 l : len l < 16 -> padded (pkcs7 l) = true.
Proof.
  intros Hl. destruct (pkcs7_last l Hl) as (H1 & H2 & H3). unfold padded. rewrite H1. cbn [default from_option id].
  rewrite (proj2 (Z.leb_le 1 _)), (proj2 (Z.leb_le _ 16)) by lia. cbn [andb]. apply bool_decide_eq_true.
  replace (16 - (16 - len l)) with (len l) by lia. unfold pkcs7. rewrite slice_from_suffix. exact H3.
Qed.

Lemma unpad_pkcs7 l : len l < 16 -> slice (pkcs7 l) 0 (16 - default 0 (at_index (pkcs7 l) (len (pkcs7 l) - 1))) = l.
Proof.
  intros Hl. destruct (pkcs7_last l Hl) as (H1 & H2 & H3).
  assert (E : at_index (pkcs7 l) (len (pkcs7 l) - 1) = Some (16 - len l)).
  { rewrite <- H1. rewrite last_lookup. unfold at_index. pose proof (pkcs7_length l Hl) as Hp.
    assert (len (pkcs7 l) = 16) as -> by (unfold len; rewrite Hp; done). rewrite Hp. done. }
  rewrite E. cbn [default from_option id]. replace (16 - (16 - len l)) with (len l) by lia. apply slice_prefix.
Qed.

(** ** Messages *)

Context {LOk : CipherLibOk L}.

Lemma encrypt_blocks_length n e l : length l = (16 * n)%nat -> length (snd (encrypt_blocks n e l)) = (16 * n)%nat.
Proof.
  unfold encrypt_blocks. revert e l. induction n as [|n IH]; intros e l Hl; [done|]. cbn [block_loop].
  pose proof (encrypt_block_length e (take 16 l) ltac:(rewrite length_take; lia)) as H.
  destruct (encrypt_block e (take 16 l)) as [e1 c]. specialize (IH e1 (drop 16 l) ltac:(rewrite length_drop; lia)).
  destruct (block_loop encrypt_block n e1 (drop 16 l)) as [e2 r]. cbn in *. rewrite length_app. lia.
Qed.

Lemma decrypt_blocks_follows n e d l :
  follows e d -> length l = (16 * n)%nat -> bytes_ok l ->
  follows (fst (encrypt_blocks n e l)) (fst (decrypt_blocks n d (snd (encrypt_blocks n e l))))
  /\ snd (decrypt_blocks n d (snd (encrypt_blocks n e l))) = l.
Proof.
  unfold encrypt_blocks, decrypt_blocks. revert e d l. induction n as [|n IH]; intros e d l Hf Hl Hb; cbn [block_loop].
  { by destruct l. }
  assert (H16 : length (take 16 l) = 16%nat) by (rewrite length_take; lia).
  destruct (decrypt_follows e d (take 16 l) Hf H16) as [Hf1 Hd1]; [by apply Forall_take|].
  pose proof (encrypt_block_length e (take 16 l) H16) as Hc. destruct (encrypt_block e (take 16 l)) as [e1 c]. cbn in *.
  destruct (decrypt_block d c) as [d1 b] eqn:Ed. cbn in *.
  destruct (IH e1 d1 (drop 16 l) Hf1) as [Hf2 Hd2]; [rewrite length_drop; lia|by apply Forall_drop|].
  destruct (block_loop encrypt_block n e1 (drop 16 l)) as [e2 r]. cbn in *.
  rewrite take_app_le, (take_ge c), drop_app_le, (drop_ge c), Ed by lia. cbn [app].
  destruct (block_loop decrypt_block n d1 r) as [d2 t]. cbn in *. split; [done|]. subst. apply take_drop.
Qed.

(** The last block of a message. *)
Lemma pkcs7_split D :
  let q := passed false D in
  let rest := drop (16 * q) D in
  len rest < 16 /\ pkcs7 D = take (16 * q) D ++ pkcs7 rest.
Proof.
  cbv zeta. pose proof (passed_le false D) as Hle. split.
  - unfold len. rewrite length_drop. unfold passed, len in *. cbn [Z.b2z] in *. rewrite Z.sub_0_r in *.
    pose proof (Z.mod_pos_bound (Z.of_nat (length D)) 16 ltac:(lia)). div_lia.
  - unfold pkcs7. rewrite pad_drop by done. by rewrite app_assoc, take_drop.
Qed.

Lemma passed_all D : passed false D = (length D / 16)%nat.
Proof.
  unfold passed, len. cbn [Z.b2z]. rewrite Z.sub_0_r. change 16 with (Z.of_nat 16). by rewrite <- Nat2Z.inj_div, Nat2Z.id.
Qed.

Lemma encrypt_message_blocks a e chunks :
  let D := joined chunks in
  exists c, encrypt_message (CI (Some (BlockCipher a e)) (Cache [] false) true None) chunks
    = Ok (c, snd (encrypt_blocks (S (length D / 16)) e (pkcs7 D))).
Proof.
  cbv zeta. unfold encrypt_message. rewrite updates_feed, feed_joined by done. unfold feed1. cbv zeta. cbn [app].
  set (D := joined chunks). destruct (pkcs7_split D) as [Hrest Hpad]. cbv zeta in *. set (q := passed false D) in *.
  cbn [rbind fst snd]. unfold final, cipher_final. cbn [context ci_cache cache needsBlockCache authTag].
  rewrite (proj2 (Z.ltb_lt _ 16)) by done. cbn [negb]. rewrite encrypt_padded_spec by done. cbn [rbind fst snd].
  eexists. do 2 f_equal. replace (S (length D / 16)) with (q + 1)%nat.
  - rewrite Hpad. unfold encrypt_blocks. rewrite block_loop_app by (apply take_blocks, passed_le). cbn [snd block_loop].
    fold q. f_equal. pose proof (pkcs7_length _ Hrest) as Hl. rewrite (take_ge (pkcs7 _)) by lia.
    destruct (encrypt_block _ (pkcs7 (drop (16 * q) D))). cbn. by rewrite app_nil_r.
  - unfold q. rewrite passed_all. lia.
Qed.

Lemma passed_keep n (l : list Z) : length l = (16 * S n)%nat -> passed true l = n.
Proof. intros Hl. unfold passed, len. rewrite Hl. cbn [Z.b2z]. div_lia. Qed.

Lemma pad_bytes_ok l : bytes_ok (pad_bytes l).
Proof.
  apply Forall_replicate. unfold is_byte. pose proof (Z.mod_pos_bound (len l) 16 ltac:(lia)). lia.
Qed.

(** Decryption of what [encrypt_blocks] made of a padded message. *)
Lemma decrypt_padded_message a e d D chunks :
  let q := (length D / 16)%nat in
  follows e d -> bytes_ok D -> joined chunks = snd (encrypt_blocks (S q) e (pkcs7 D)) ->
  exists d', decrypt_message (DI (Some (BlockDecipher a d)) (Cache [] true) true None) chunks = Ok (d', D).
Proof.
  cbv zeta. intros Hf Hb HC. unfold decrypt_message. rewrite decipher_updates_feed, feed_joined by done. unfold feed1. cbv zeta. cbn [app].
  rewrite HC. clear HC chunks. destruct (pkcs7_split D) as [Hrest Hpad]. cbv zeta in *. rewrite passed_all in *. set (q := (length D / 16)%nat) in *.
  pose proof (passed_le false D) as Hle. rewrite passed_all in Hle. fold q in Hle. set (rest := drop (16 * q) D) in *.
  pose proof (pkcs7_length rest Hrest) as Hpl. pose proof (take_blocks q D Hle) as Htl.
  destruct (decrypt_blocks_follows q e d (take (16 * q) D) Hf Htl) as [Hf1 Hd1]; [by apply Forall_take|].
  pose proof (encrypt_blocks_length q e _ Htl) as Hcl.
  assert (HE : snd (encrypt_blocks (S q) e (pkcs7 D))
    = snd (encrypt_blocks q e (take (16 * q) D)) ++ snd (encrypt_block (fst (encrypt_blocks q e (take (16 * q) D))) (pkcs7 rest))).
  { rewrite Hpad. unfold encrypt_blocks. replace (S q) with (q + 1)%nat by lia. rewrite block_loop_app by done. cbn [snd block_loop]. f_equal.
    rewrite (take_ge (pkcs7 _)) by lia. destruct (encrypt_block _ (pkcs7 rest)). cbn. by rewrite app_nil_r. }
  set (e1 := fst (encrypt_blocks q e (take (16 * q) D))) in *. set (C1 := snd (encrypt_blocks q e (take (16 * q) D))) in *.
  set (C2 := snd (encrypt_block e1 (pkcs7 rest))) in *.
  assert (HC2 : length C2 = 16%nat) by (by apply encrypt_block_length).
  rewrite HE. rewrite (passed_keep q) by (rewrite length_app; lia).
  rewrite take_app_le, (take_ge C1), drop_app_le, (drop_ge C1) by lia. cbn [app rbind fst snd].
  fold (decrypt_blocks q d C1). rewrite Hd1. unfold decipher_final_js. cbn [d_context di_cache cache d_needsBlockCache d_authTag].
  unfold decipher_final. rewrite (proj2 (Z.eqb_eq (len C2) 16)) by (unfold len; lia). cbn [negb].
  rewrite decrypt_padded_spec by done.
  destruct (decrypt_follows _ _ (pkcs7 rest) Hf1 Hpl) as [_ Hd2].
  { apply Forall_app. split; [by apply Forall_drop|apply pad_bytes_ok]. }
  fold C2 in Hd2. rewrite Hd2, padded_pkcs7 by done. cbn [rbind negb]. rewrite unpad_pkcs7 by done. cbn [fst snd].
  eexists. do 2 f_equal. apply take_drop.
Qed.

Lemma block_not_gcm name a : block_algorithm name = Some a -> is_gcm_name name = false.
Proof.
  unfold is_gcm_name, block_algorithm. intros Ha. apply orb_false_iff.
  split; apply bool_decide_eq_false; intros ->; vm_compute in Ha; discriminate.
Qed.

(** C39: Encryption in pieces: with a key and an initialization vector of the
    right lengths, however a message is cut into pieces, the pieces of output
    and the final one are together the encryption, block by block, of the
    message with its padding. *)
Theorem encrypt_chunks name key iv a chunks :
  let D := joined chunks in
  block_algorithm name = Some a -> sizes_ok a key iv = true ->
  exists c, (let! c := newCipheriv name key iv in encrypt_message c chunks)
    = Ok (c, snd (encrypt_blocks (S (length D / 16)) (new_encryptor a key iv) (pkcs7 D))).
Proof.
  cbv zeta. intros Ha Hs. unfold newCipheriv, new_cipher. rewrite Ha, Hs. cbn [rbind]. rewrite (block_not_gcm _ _ Ha).
  apply encrypt_message_blocks.
Qed.

(** C31: For every cipher in a block mode, with a key of its length and, in the
    modes that use one, an initialization vector of 16 bytes: a message of
    bytes is encrypted in any pieces, and what comes out, decrypted with the
    same key and initialization vector in any other pieces, is the message;
    neither side throws. *)
Theorem cipher_roundtrip name key iv a chunks :
  block_algorithm name = Some a -> sizes_ok a key iv = true -> bytes_ok (joined chunks) ->
  exists c ct, (let! c := newCipheriv name key iv in encrypt_message c chunks) = Ok (c, ct)
    /\ forall ct_chunks, joined ct_chunks = ct ->
       exists d, (let! d := newDecipheriv name key iv in decrypt_message d ct_chunks) = Ok (d, joined chunks).
Proof.
  intros Ha Hs Hb. unfold newCipheriv, newDecipheriv, new_cipher, new_decipher. rewrite Ha, Hs. cbn [rbind].
  rewrite (block_not_gcm _ _ Ha). cbn [negb]. destruct (encrypt_message_blocks a (new_encryptor a key iv) chunks) as (c & E).
  eexists c, _. split; [exact E|]. intros ct_chunks Hct. eapply decrypt_padded_message; [apply new_follows|done|done].
Qed.

(** ** The stream mode *)

Lemma updates_gcm a s k t chunks :
  updates (CI (Some (GcmCipher a s)) k false t) chunks
  = Ok (CI (Some (GcmCipher a (fst (gcm_encrypt s (joined chunks))))) k false t, snd (gcm_encrypt s (joined chunks))).
Proof.
  revert s. induction chunks as [|b chunks IH]; intros s; [cbn; by rewrite gcm_encrypt_nil|].
  cbn [updates]. unfold update. cbn [needsBlockCache negb context ci_cache authTag]. unfold op_encrypt, encrypt.
  change (joined (b :: chunks)) with (b ++ joined chunks). rewrite gcm_encrypt_app. destruct (gcm_encrypt s b) as [s1 o1].
  cbn [rbind fst snd]. rewrite IH. done.
Qed.

Lemma decipher_updates_gcm a s k t chunks :
  decipher_updates (DI (Some (GcmDecipher a s)) k false t) chunks
  = Ok (DI (Some (GcmDecipher a (fst (gcm_decrypt s (joined chunks))))) k false t, snd (gcm_decrypt s (joined chunks))).
Proof.
  revert s. induction chunks as [|b chunks IH]; intros s; [cbn; by rewrite gcm_decrypt_nil|].
  cbn [decipher_updates]. unfold decipher_update. cbn [d_needsBlockCache negb d_context di_cache d_authTag]. unfold op_decrypt, decrypt.
  change (joined (b :: chunks)) with (b ++ joined chunks). rewrite gcm_decrypt_app. destruct (gcm_decrypt s b) as [s1 o1].
  cbn [rbind fst snd]. rewrite IH. done.
Qed.

Lemma gcm_names name a : gcm_algorithm_of name = Some a -> block_algorithm name = None /\ is_gcm_name name = true.
Proof.
  unfold gcm_algorithm_of, is_gcm_name. destruct (str_eqb name (js "aes-128-gcm")) eqn:E1.
  - apply bool_decide_eq_true in E1 as ->. done.
  - destruct (str_eqb name (js "aes-256-gcm")) eqn:E2; [|done]. apply bool_decide_eq_true in E2 as ->. done.
Qed.

(** The state of the stream mode with a key, a nonce and additional data, and the
    tag of a ciphertext in it. *)
Definition gcm_start (a : gcm_algorithm) (key iv aad : list Z) : gcm := gcm_aad (new_gcm a key iv) aad.
Definition gcm_tag (a : gcm_algorithm) (key iv aad ct : list Z) : list Z := gcm_finish (fst (gcm_decrypt (gcm_start a key iv aad) ct)).

Lemma encrypt_message_gcm name key iv a aad chunks :
  gcm_algorithm_of name = Some a -> len key = gcm_key_size a -> len iv = gcm_nonce -> bytes_ok (joined chunks) ->
  let ct := snd (gcm_encrypt (gcm_start a key iv aad) (joined chunks)) in
  exists c, (let! c := newCipheriv name key iv in encrypt_message (setAAD c aad) chunks) = Ok (c, ct)
    /\ getAuthTag c = Some (gcm_tag a key iv aad ct) /\ snd (gcm_decrypt (gcm_start a key iv aad) ct) = joined chunks.
Proof.
  intros Ha Hk Hn Hb ct. destruct (gcm_names name a Ha) as [H1 H2]. unfold newCipheriv, new_cipher. rewrite H1, Ha, Hk, Hn, !Z.eqb_refl, H2.
  cbn [negb rbind]. unfold encrypt_message, setAAD. cbn [context ci_cache needsBlockCache authTag fmap option_fmap option_map set_aad].
  rewrite updates_gcm. cbn [rbind fst snd]. unfold final, cipher_final.
  cbn [context ci_cache cache needsBlockCache authTag]. change (len (@nil Z) <? 16) with true. cbn [negb rbind fst snd].
  destruct (gcm_decrypt_follows _ _ (joined chunks) (gcm_aad_follows _ _ aad (new_gcm_follows a key iv)) Hb) as [Hf Hd].
  eexists. split; [cbn [app]; by rewrite app_nil_r|]. split; [|exact Hd]. unfold gcm_tag, getAuthTag. cbn [authTag]. f_equal. by apply gcm_finish_follows.
Qed.

Lemma decrypt_message_gcm name key iv a aad ct_chunks t :
  gcm_algorithm_of name = Some a -> len key = gcm_key_size a -> len iv = gcm_nonce ->
  let r := let! d := newDecipheriv name key iv in decrypt_message (setAuthTag (decipher_setAAD d aad) t) ct_chunks in
  if bool_decide (t = gcm_tag a key iv aad (joined ct_chunks))
  then exists d, r = Ok (d, snd (gcm_decrypt (gcm_start a key iv aad) (joined ct_chunks)))
  else r = Throw (TypeError "Failed to authenticate data").
Proof.
  intros Ha Hk Hn. destruct (gcm_names name a Ha) as [H1 H2]. unfold newDecipheriv, new_decipher. rewrite H1, Ha, Hk, Hn, !Z.eqb_refl, H2.
  cbn [negb rbind]. unfold decrypt_message, setAuthTag, decipher_setAAD. cbn [d_context di_cache d_needsBlockCache d_authTag fmap option_fmap option_map decipher_set_aad].
  rewrite decipher_updates_gcm. cbn [rbind fst snd]. unfold decipher_final_js, decipher_final.
  cbn [d_context di_cache cache d_needsBlockCache d_authTag default from_option id]. fold (gcm_start a key iv aad). fold (gcm_tag a key iv aad (joined ct_chunks)).
  destruct (decide (t = gcm_tag a key iv aad (joined ct_chunks))) as [->|Hne].
  - rewrite !bool_decide_eq_true_2 by done. cbn [rbind negb fst snd]. rewrite app_nil_r. eauto.
  - rewrite !bool_decide_eq_false_2 by congruence. done.
Qed.

(** C40: In the stream mode the message and its additional data are
    authenticated.  With a key of the length of the cipher and a nonce of the
    length the library takes, a message of bytes is encrypted in any pieces,
    after [setAAD], to the ciphertext of the library for this key, nonce and
    additional data, and [getAuthTag] is the tag of these and the ciphertext.
    For any additional data, any ciphertext in any pieces and any tag, the
    decryption accepts exactly if the tag is the one of this key, this nonce,
    these data and this ciphertext, and otherwise [final] throws; and what was
    encrypted, with its own data and tag, comes back. *)
Theorem gcm_authenticates name key iv a aad chunks :
  gcm_algorithm_of name = Some a -> len key = gcm_key_size a -> len iv = gcm_nonce -> bytes_ok (joined chunks) ->
  (exists c, let ct := snd (gcm_encrypt (gcm_start a key iv aad) (joined chunks)) in
     (let! c := newCipheriv name key iv in encrypt_message (setAAD c aad) chunks) = Ok (c, ct)
     /\ getAuthTag c = Some (gcm_tag a key iv aad ct) /\ snd (gcm_decrypt (gcm_start a key iv aad) ct) = joined chunks)
  /\ forall aad' ct_chunks t,
       let r := let! d := newDecipheriv name key iv in decrypt_message (setAuthTag (decipher_setAAD d aad') t) ct_chunks in
       if bool_decide (t = gcm_tag a key iv aad' (joined ct_chunks))
       then exists d, r = Ok (d, snd (gcm_decrypt (gcm_start a key iv aad') (joined ct_chunks)))
       else r = Throw (TypeError "Failed to authenticate data").
Proof.
  intros Ha Hk Hn Hb. split; [by apply encrypt_message_gcm|]. intros aad' ct_chunks t. by apply decrypt_message_gcm.
Qed.
End Unsafe.
End Cipher.

(** ** A library *)

(** A cipher good enough to show that the laws can hold: bytes are shifted by
    the key and the ciphertext before, and the tag is a sum. *)
Module Shift.
Definition state : Type := Z * list Z.
Definition key_of (key : list Z) : Z := foldr Z.add 0 key.
Definition at_ (l : list Z) (i : nat) : Z := default 0 (l !! i).
Definition enc (s : state) (b : list Z) : state * list Z :=
  let c := imap (fun i x => (x + (at_ (snd s) i + fst s)) mod 256) b in ((fst s, c), c).
Definition dec (s : state) (c : list Z) : state * list Z :=
  ((fst s, c), imap (fun i x => (x - (at_ (snd s) i + fst s)) mod 256) c).

Definition stream : Type := Z * list Z.
Definition stream_enc (s : stream) (b : list Z) : stream * list Z :=
  let c := (fun x => (x + fst s) mod 256) <$> b in ((fst s, snd s ++ c), c).
Definition stream_dec (s : stream) (c : list Z) : stream * list Z :=
  ((fst s, snd s ++ c), (fun x => (x - fst s) mod 256) <$> c).

#[export] Instance lib : CipherLib := {|
  encryptor := state; decryptor := state; gcm := stream;
  new_encryptor _ key iv := (key_of key, iv); new_decryptor _ key iv := (key_of key, iv);
  encrypt_block := enc; decrypt_block := dec;
  encrypt_padded e l := Some (snd (enc e (pkcs7 l)));
  decrypt_padded d b := if padded (snd (dec d b)) then Some (snd (dec d b)) else None;
  gcm_nonce := 12; new_gcm _ key iv := (key_of key, iv);
  gcm_aad s aad := (fst s, snd s ++ aad); gcm_encrypt := stream_enc; gcm_decrypt := stream_dec;
  gcm_finish s := [foldr Z.add 0 (snd s)]
|}.

Lemma shift_back x k : is_byte x -> ((x + k) mod 256 - k) mod 256 = x.
Proof.
  unfold is_byte. intros Hx. rewrite Zminus_mod_idemp_l. replace (x + k - k) with x by lia. by apply Z.mod_small.
Qed.

Lemma dec_enc s b : bytes_ok b -> dec s (snd (enc s b)) = (fst (enc s b), b).
Proof.
  intros Hb. unfold dec, enc. cbn [fst snd]. f_equal.
  apply list_eq. intros i. rewrite !list_lookup_imap. destruct (b !! i) as [x|] eqn:E; [|done]. cbn.
  f_equal. apply shift_back. unfold bytes_ok in Hb. rewrite Forall_lookup in Hb. eauto.
Qed.

Lemma stream_dec_enc s b : bytes_ok b -> stream_dec s (snd (stream_enc s b)) = (fst (stream_enc s b), b).
Proof.
  intros Hb. unfold stream_dec, stream_enc. cbn [fst snd]. f_equal. rewrite <- list_fmap_compose.
  rewrite <- (list_fmap_id b) at 2. apply list_fmap_ext. intros i x Hx. cbn. apply shift_back.
  unfold bytes_ok in Hb. rewrite Forall_lookup in Hb. eauto.
Qed.

#[export] Instance lib_ok : CipherLibOk lib.
Proof.
  refine {| follows := eq; gcm_follows := eq |}; try done.
  - intros e b Hb. cbn. by rewrite length_imap.
  - intros e d b <- _ Hb. cbn [encrypt_block decrypt_block lib]. by rewrite dec_enc.
  - by intros e d aad <-.
  - intros e b c. cbn. unfold stream_enc. cbn. by rewrite fmap_app, app_assoc.
  - intros e b c. cbn. unfold stream_dec. cbn. by rewrite fmap_app, app_assoc.
  - intros [k l]. cbn. unfold stream_enc. cbn. by rewrite app_nil_r.
  - intros [k l]. cbn. unfold stream_dec. cbn. by rewrite app_nil_r.
  - intros e d b <- Hb. cbn [gcm_encrypt gcm_decrypt lib]. by rewrite stream_dec_enc.
  - by intros e d <-.
Defined.
End Shift.

Module CipherDemo.
Definition key : list Z := replicate 16 7.
Definition iv : list Z := replicate 16 1.
Definition nonce : list Z := replicate 12 1.
Definition memory (n : nat) : list Z := repeat 170 n.
Definition chunks : list (list Z) := [js "a message"; []; js " that is longer than "; js "two blocks"].
(** The same bytes in pieces of seven. *)
Fixpoint sevens (n : nat) (l : list Z) : list (list Z) :=
  match n with O => [l] | S n => take 7 l :: sevens n (drop 7 l) end.

Definition encrypted : result (Cipheriv (L := Shift.lib) * list Z) :=
  let! c := newCipheriv (js "aes-128-cbc") key iv in encrypt_message memory c chunks.
Definition sealed : result (Cipheriv (L := Shift.lib) * list Z) :=
  let! c := newCipheriv (js "aes-128-gcm") key nonce in encrypt_message memory (setAAD c [5; 6]) chunks.

Definition demo_ct : list Z := snd (gcm_encrypt (CipherLib := Shift.lib) (gcm_start (L := Shift.lib) Aes128Gcm key nonce [5; 6]) (joined chunks)).

Lemma joined_sevens n l : joined (sevens n l) = l.
Proof.
  revert l. induction n as [|n IH]; intros l; [apply app_nil_r|]. cbn [sevens].
  change (joined (take 7 l :: sevens n (drop 7 l))) with (take 7 l ++ joined (sevens n (drop 7 l))). by rewrite IH, take_drop.
Qed.

Definition is_ok {X} (r : result X) : bool := match r with Ok _ => true | Throw _ => false end.
Lemma ok_inv {X} (r : result X) : is_ok r = true -> exists x, r = Ok x.
Proof. destruct r; [eauto|done]. Qed.

Lemma bytes_chunks : bytes_ok (joined chunks).
Proof. apply (bool_decide_unpack (Forall (fun b => 0 <= b < 256) (joined chunks))). vm_compute. exact I. Qed.
End CipherDemo.
Import CipherDemo.

Lemma encrypt_chunks_witness :
  exists c ct, (let! c := newCipheriv (L := Shift.lib) (js "aes-128-cbc") key iv in encrypt_message memory c chunks) = Ok (c, ct)
    /\ len ct = 48.
Proof.
  destruct (encrypt_chunks (LOk := Shift.lib_ok) memory (js "aes-128-cbc") key iv Aes128Cbc chunks eq_refl eq_refl) as (c & E).
  eexists c, _. split; [exact E|vm_compute; reflexivity].
Defined.

Lemma cipher_roundtrip_witness :
  exists c ct, encrypted = Ok (c, ct)
    /\ exists d, (let! d := newDecipheriv (L := Shift.lib) (js "aes-128-cbc") key iv in decrypt_message memory d (sevens 7 ct)) = Ok (d, joined chunks).
Proof.
  destruct (cipher_roundtrip (LOk := Shift.lib_ok) memory (js "aes-128-cbc") key iv Aes128Cbc chunks eq_refl eq_refl bytes_chunks) as (c & ct & E & H).
  exists c, ct. split; [exact E|]. exact (H (sevens 7 ct) (joined_sevens 7 ct)).
Defined.

(** The message comes back with its data, and is refused with others. *)
Lemma gcm_authenticates_witness :
  exists c ct tag, sealed = Ok (c, ct) /\ getAuthTag c = Some tag
    /\ (exists d, (let! d := newDecipheriv (L := Shift.lib) (js "aes-128-gcm") key nonce in
                   decrypt_message memory (setAuthTag (decipher_setAAD d [5; 6]) tag) (sevens 7 ct)) = Ok (d, joined chunks))
    /\ (let! d := newDecipheriv (L := Shift.lib) (js "aes-128-gcm") key nonce in
        decrypt_message memory (setAuthTag (decipher_setAAD d [5; 7]) tag) (sevens 7 ct)) = Throw (TypeError "Failed to authenticate data").
Proof.
  destruct (gcm_authenticates (LOk := Shift.lib_ok) memory (js "aes-128-gcm") key nonce Aes128Gcm [5; 6] chunks eq_refl eq_refl eq_refl bytes_chunks) as ((c & E & Ht & Hm) & Hd).
  exists c, demo_ct, (gcm_tag (L := Shift.lib) Aes128Gcm key nonce [5; 6] demo_ct). split; [exact E|]. split; [exact Ht|].
  set (tag := gcm_tag (L := Shift.lib) Aes128Gcm key nonce [5; 6] demo_ct). split.
  - pose proof (Hd [5; 6] (sevens 7 demo_ct) tag) as H. rewrite joined_sevens, bool_decide_eq_true_2 in H by reflexivity.
    destruct H as [d H]. exists d. rewrite <- Hm. exact H.
  - pose proof (Hd [5; 7] (sevens 7 demo_ct) tag) as H. rewrite joined_sevens, bool_decide_eq_false_2 in H by (vm_compute; discriminate). exact H.
Defined.

(** A string without an encoding is stored as numbers, mostly zeros: two
    messages are encrypted alike. *)
Example string_without_encoding :
  forall c : Cipheriv (L := Shift.lib), needsBlockCache c = true ->
  update memory c (RawString (js "secret")) = update memory c (RawString (js "public")).
Proof. intros c Hc. unfold update. rewrite Hc. done. Qed.

(** After [final] the context is gone, and [update] returns memory that nobody
    has written. *)
Example update_after_final :
  (let! c := newCipheriv (L := Shift.lib) (js "aes-128-cbc") key iv in
   let! r := final c in
   let! s := update memory (fst r) (Bytes (replicate 16 0)) in Ok (snd s)) = Ok (memory 16).
Proof. by vm_compute. Qed.

(** A ciphertext that is not made of whole blocks makes the native side panic. *)
Example incomplete_ciphertext :
  (let! d := newDecipheriv (L := Shift.lib) (js "aes-128-cbc") key iv in
   let! r := decrypt_message memory d [[1; 2; 3]] in Ok (snd r)) = panic.
Proof. by vm_compute. Qed.

(** So does a key of the wrong length. *)
Example short_key : (let! c := newCipheriv (L := Shift.lib) (js "aes-128-cbc") [1; 2; 3] iv in Ok (getAuthTag c)) = panic.
Proof. by vm_compute. Qed.
