(* ===== verification/Supervisor.v ===== *)
(** * Supervisors of workers: base/src/rt_worker/supervisor

    A supervisor watches one worker: it counts requests, follows CPU time and
    wall clock, and decides when the worker retires and when it ends.  A
    strategy is a loop over [tokio::select!], which takes any event that is
    ready: here a step function on events, in any order.  An event comes with
    the value of the shared counter [demand] when it is handled. *)

From S2P Require Import Prelude.
#[local] Open Scope Z_scope.

Inductive ShutdownReason := WallClockTime | CPUTime | Memory | EarlyDrop | TerminationRequested.

#[export] Instance ShutdownReason_eq_dec : EqDecision ShutdownReason.
Proof. solve_decision. Defined.

(** [x as i64] of a [u64]. *)
Definition as_i64 (x : Z) : Z := if x <? 2 ^ 63 then x else x - 2 ^ 64.

Record CPUTimerParam := Limits { soft_limit_ms : Z; hard_limit_ms : Z }.
Definition is_disabled (p : CPUTimerParam) : bool := (soft_limit_ms p =? 0) && (hard_limit_ms p =? 0).

Record options := Options { cpu : CPUTimerParam; worker_timeout_ms : Z }.
Definition wall_clock_disabled (o : options) : bool := worker_timeout_ms o =? 0.

(** What a supervisor can see. *)
Inductive event :=
| SuperviseCancelled
| TerminationToken
| Enter
| Leave (accumulated diff : Z)
| CpuAlarm
| ReqStart
| ReqEnd
| Tick
| MemoryLimit.

(** What a step does: go on, with an [Idle] message to the pool or not; end;
    or fail an assertion. *)
Inductive outcome (S : Type) :=
| Continue (st : S) (idle : bool)
| Stop (reason : ShutdownReason) (cpu_ms : Z) (terminate : bool) (st : S)
| Panic.
Arguments Continue {S} st idle.
Arguments Stop {S} reason cpu_ms terminate st.
Arguments Panic {S}.

(** ** Per worker *)

Record per_worker := PW {
  is_worker_entered : bool;
  cpu_usage_ms : Z;
  cpu_time_soft_limit_reached : bool;
  wall_clock_alerts : Z;
  req_ack_count : Z;
  is_retired : bool
}.

Definition pw_start : per_worker := PW false 0 false 0 0 false.

(** Leaving the loop raises the retire flag: the guard is dropped. *)
Definition pw_stop (reason : ShutdownReason) (terminate : bool) (st : per_worker) : outcome per_worker :=
  Stop reason (cpu_usage_ms st) terminate
    (PW (is_worker_entered st) (cpu_usage_ms st) (cpu_time_soft_limit_reached st) (wall_clock_alerts st) (req_ack_count st) true).

(** The soft limit is reached: retire, and end when no request is in flight. *)
Definition soft_limit (demand : Z) (st : per_worker) : outcome per_worker :=
  let st := PW (is_worker_entered st) (cpu_usage_ms st) true (wall_clock_alerts st) (req_ack_count st) true in
  if req_ack_count st =? demand then pw_stop EarlyDrop true st else Continue st false.

Definition pw_step (o : options) (demand : Z) (st : per_worker) (e : event) : outcome per_worker :=
  match e with
  | SuperviseCancelled => pw_stop TerminationRequested false st
  | TerminationToken => pw_stop TerminationRequested true st
  | Enter =>
      if is_worker_entered st then Panic
      else Continue (PW true (cpu_usage_ms st) (cpu_time_soft_limit_reached st) (wall_clock_alerts st) (req_ack_count st) (is_retired st)) false
  | Leave accumulated _ =>
      if negb (is_worker_entered st) then Panic
      else
        let st := PW false (Z.quot accumulated 1000000) (cpu_time_soft_limit_reached st) (wall_clock_alerts st) (req_ack_count st) (is_retired st) in
        if is_disabled (cpu o) then Continue st false
        else if as_i64 (hard_limit_ms (cpu o)) <=? cpu_usage_ms st then pw_stop CPUTime true st
        else if (as_i64 (soft_limit_ms (cpu o)) <=? cpu_usage_ms st) && negb (cpu_time_soft_limit_reached st) then soft_limit demand st
        else Continue st false
  | CpuAlarm =>
      if is_worker_entered st then
        if negb (cpu_time_soft_limit_reached st) then soft_limit demand st else pw_stop CPUTime true st
      else Continue st false
  | ReqStart => Continue st false
  | ReqEnd =>
      let st := PW (is_worker_entered st) (cpu_usage_ms st) (cpu_time_soft_limit_reached st) (wall_clock_alerts st) (req_ack_count st + 1) (is_retired st) in
      if negb (cpu_time_soft_limit_reached st) || negb (req_ack_count st =? demand)
      then Continue st (negb (cpu_time_soft_limit_reached st))
      else pw_stop EarlyDrop true st
  | Tick =>
      if wall_clock_disabled o then Continue st false
      else if wall_clock_alerts st =? 0 then
        Continue (PW (is_worker_entered st) (cpu_usage_ms st) (cpu_time_soft_limit_reached st) 1 (req_ack_count st) (is_retired st)) false
      else if wall_clock_alerts st =? 1 then
        Continue (PW (is_worker_entered st) (cpu_usage_ms st) (cpu_time_soft_limit_reached st) 2 (req_ack_count st) true) false
      else pw_stop WallClockTime true st
  | MemoryLimit => pw_stop Memory true st
  end.

(** ** Per request *)

Record per_request := PR {
  pr_entered : bool;
  pr_cpu_usage_ms : Z;
  cpu_usage_accumulated_ms : Z;
  pr_req_ack_count : Z;
  req_start_ack : bool;
  pr_retired : bool
}.

Definition pr_start : per_request := PR false 0 0 0 false false.

(** The end of an iteration, with the reason it found. *)
Definition complete (oneshot : bool) (reason : option ShutdownReason) (st : per_request) : outcome per_request :=
  match reason with
  | None => Continue st false
  | Some EarlyDrop =>
      if negb oneshot then
        Continue (PR (pr_entered st) (pr_cpu_usage_ms st) (cpu_usage_accumulated_ms st) (pr_req_ack_count st) false (pr_retired st)) true
      else Stop EarlyDrop (cpu_usage_accumulated_ms st) true
        (PR (pr_entered st) (pr_cpu_usage_ms st) (cpu_usage_accumulated_ms st) (pr_req_ack_count st) (req_start_ack st) true)
  | Some reason =>
      Stop reason (cpu_usage_accumulated_ms st) true
        (PR (pr_entered st) (pr_cpu_usage_ms st) (cpu_usage_accumulated_ms st) (pr_req_ack_count st) (req_start_ack st) true)
  end.

Definition pr_step (o : options) (oneshot : bool) (demand : Z) (st : per_request) (e : event) : outcome per_request :=
  match e with
  | SuperviseCancelled =>
      Stop TerminationRequested (pr_cpu_usage_ms st) false
        (PR (pr_entered st) (pr_cpu_usage_ms st) (cpu_usage_accumulated_ms st) (pr_req_ack_count st) (req_start_ack st) true)
  | TerminationToken => complete oneshot (Some TerminationRequested) st
  | Enter =>
      if pr_entered st then Panic
      else complete oneshot None (PR true (pr_cpu_usage_ms st) (cpu_usage_accumulated_ms st) (pr_req_ack_count st) (req_start_ack st) (pr_retired st))
  | Leave accumulated diff =>
      if negb (pr_entered st) then Panic
      else
        let st := PR false (pr_cpu_usage_ms st + Z.quot diff 1000000) (Z.quot accumulated 1000000) (pr_req_ack_count st) (req_start_ack st) (pr_retired st) in
        let reached := negb (is_disabled (cpu o)) && (as_i64 (hard_limit_ms (cpu o)) <=? pr_cpu_usage_ms st) in
        complete oneshot (if reached then Some CPUTime else None) st
  | CpuAlarm => complete oneshot (if pr_entered st && req_start_ack st then Some CPUTime else None) st
  | ReqStart =>
      if req_start_ack st then Panic
      else complete oneshot None (PR (pr_entered st) 0 (cpu_usage_accumulated_ms st) (pr_req_ack_count st) true (pr_retired st))
  | ReqEnd =>
      if negb (req_start_ack st) then Panic
      else complete oneshot (Some EarlyDrop)
        (PR (pr_entered st) (pr_cpu_usage_ms st) (cpu_usage_accumulated_ms st) (pr_req_ack_count st + 1) (req_start_ack st) (pr_retired st))
  | Tick =>
      if wall_clock_disabled o then complete oneshot None st
      else if negb oneshot && negb (pr_req_ack_count st =? demand) then Continue st false
      else complete oneshot (Some WallClockTime) st
  | MemoryLimit => complete oneshot (Some Memory) st
  end.

(** ** Runs *)

Section Run.
Context {S : Type} (step : Z -> S -> event -> outcome S).

(** The events with the demand each one sees; the number of idle messages. *)
Fixpoint run (st : S) (evs : list (event * Z)) (idle : nat) : outcome S * nat :=
  match evs with
  | [] => (Continue st false, idle)
  | (e, demand) :: evs =>
      match step demand st e with
      | Continue st sent => run st evs (if sent then idle + 1 else idle)%nat
      | o => (o, idle)
      end
  end.
End Run.

Section RunLemmas.
Context {S : Type} (step : Z -> S -> event -> outcome S).
Context (I : list (event * Z) -> list (event * Z) -> S -> nat -> Prop).
Context (J : list (event * Z) -> event -> Z -> ShutdownReason -> Z -> bool -> S -> nat -> Prop).
Context (Hstep : forall pre e d rest st n, I pre ((e, d) :: rest) st n ->
  match step d st e with
  | Continue st' sent => I (pre ++ [(e, d)]) rest st' (if sent then n + 1 else n)%nat
  | Stop r ms t st' => J pre e d r ms t st' n
  | Panic => False
  end).

(** A run goes on through all events with the invariant [I], or ends at one of
    them for a reason [J]; it does not fail. *)
Lemma run_classify pre rest st n :
  I pre rest st n ->
  match run step st rest n with
  | (Continue st' _, n') => I (pre ++ rest) [] st' n'
  | (Stop r ms t st', n') => exists mid e d post, rest = mid ++ (e, d) :: post /\ J (pre ++ mid) e d r ms t st' n'
  | (Panic, _) => False
  end.
Proof.
  revert pre st n. induction rest as [|[e d] rest IH]; intros pre st n HI; cbn [run]; [by rewrite app_nil_r|].
  specialize (Hstep _ _ _ _ _ _ HI). destruct (step d st e) as [st' sent|r ms t st'|]; [|by exists [], e, d, rest; rewrite app_nil_r|done].
  specialize (IH _ _ _ Hstep). destruct (run step st' rest _) as [[st2 s2|r ms t st2|] n2]; [|clear Hstep|done].
  - by rewrite <- app_assoc in IH.
  - destruct IH as (mid & e' & d' & post & -> & HJ). exists ((e, d) :: mid), e', d', post. split; [done|].
    by rewrite <- app_assoc in HJ.
Qed.
End RunLemmas.

(** How often an event has happened. *)
Definition is_req_end (e : event) : bool := match e with ReqEnd => true | _ => false end.
Definition is_tick (e : event) : bool := match e with Tick => true | _ => false end.
Definition count (f : event -> bool) (evs : list (event * Z)) : Z := len (List.filter (fun e => f (fst e)) evs).

Lemma count_snoc f evs e d : count f (evs ++ [(e, d)]) = count f evs + (if f e then 1 else 0).
Proof. unfold count. rewrite List.filter_app, len_app. cbn. by destruct (f e). Qed.

(** The runtime enters and leaves the isolate by turns, from [inside] on. *)
Fixpoint turns (inside : bool) (evs : list (event * Z)) : Prop :=
  match evs with
  | [] => True
  | (Enter, _) :: evs => inside = false /\ turns true evs
  | (Leave _ _, _) :: evs => inside = true /\ turns false evs
  | _ :: evs => turns inside evs
  end.

(** ** The strategy per worker *)

(** What the events say: whether the runtime is inside the isolate, whether the
    soft limit of CPU time has been reached (an alarm inside the isolate, or a
    visit that ends above the limit), and how many requests ended before that. *)
Definition history_step (o : options) (h : bool * bool * Z) (e : event * Z) : bool * bool * Z :=
  let '(inside, reached, served) := h in
  match fst e with
  | Enter => (true, reached, served)
  | Leave acc _ => (false, reached || negb (is_disabled (cpu o)) && (as_i64 (soft_limit_ms (cpu o)) <=? Z.quot acc 1000000), served)
  | CpuAlarm => (inside, reached || inside, served)
  | ReqEnd => (inside, reached, if reached then served else served + 1)
  | _ => h
  end.
Definition history (o : options) (evs : list (event * Z)) : bool * bool * Z := foldl (history_step o) (false, false, 0) evs.

Lemma history_snoc o evs e : history o (evs ++ [e]) = history_step o (history o evs) e.
Proof. apply foldl_snoc. Qed.

Definition pw_inv (o : options) (pre rest : list (event * Z)) (st : per_worker) (n : nat) : Prop :=
  turns (is_worker_entered st) rest
  /\ req_ack_count st = count is_req_end pre
  /\ (wall_clock_disabled o = false -> wall_clock_alerts st = count is_tick pre /\ 0 <= wall_clock_alerts st <= 2)
  /\ (cpu_time_soft_limit_reached st = true -> is_retired st = true)
  /\ (wall_clock_alerts st = 2 -> is_retired st = true)
  /\ history o pre = (is_worker_entered st, cpu_time_soft_limit_reached st, Z.of_nat n).

(** Why a worker is ended. *)
Definition pw_reason (o : options) (pre : list (event * Z)) (e : event) (d : Z) (r : ShutdownReason) (ms : Z) (t : bool) (st : per_worker) (n : nat) : Prop :=
  is_retired st = true
  /\ Z.of_nat n = snd (history o pre)
  /\ match r with
     | TerminationRequested => e = SuperviseCancelled \/ e = TerminationToken
     | Memory => e = MemoryLimit
     | WallClockTime => e = Tick /\ count is_tick pre = 2 /\ wall_clock_disabled o = false
     | EarlyDrop => cpu_time_soft_limit_reached st = true /\ count is_req_end (pre ++ [(e, d)]) = d
     | CPUTime =>
         (exists acc diff, e = Leave acc diff /\ is_disabled (cpu o) = false /\ as_i64 (hard_limit_ms (cpu o)) <= Z.quot acc 1000000)
         \/ (e = CpuAlarm /\ is_worker_entered st = true /\ cpu_time_soft_limit_reached st = true)
     end
  /\ (t = false -> e = SuperviseCancelled).

Ltac tests :=
  repeat match goal with
  | H : _ && _ = true |- _ => apply andb_true_iff in H as [? ?]
  | H : _ || _ = false |- _ => apply orb_false_iff in H as [? ?]
  | H : negb _ = true |- _ => apply negb_true_iff in H
  | H : negb _ = false |- _ => apply negb_false_iff in H
  | H : (_ =? _) = true |- _ => apply Z.eqb_eq in H
  | H : (_ =? _) = false |- _ => apply Z.eqb_neq in H
  | H : (_ <=? _) = true |- _ => apply Z.leb_le in H
  | H : (_ <=? _) = false |- _ => apply Z.leb_gt in H
  end.

Lemma pw_step_ok o pre e d rest st n :
  pw_inv o pre ((e, d) :: rest) st n ->
  match pw_step o d st e with
  | Continue st' sent => pw_inv o (pre ++ [(e, d)]) rest st' (if sent then n + 1 else n)%nat
  | Stop r ms t st' => pw_reason o pre e d r ms t st' n
  | Panic => False
  end.
Proof.
  intros (Ht & Hack & Htick & Hsoft & Hwall & Hh).
  assert (Htick' : wall_clock_disabled o = true \/ (wall_clock_disabled o = false /\ wall_clock_alerts st = count is_tick pre /\ 0 <= wall_clock_alerts st <= 2)).
  { destruct (wall_clock_disabled o); [by left|right]. split; [done|by apply Htick]. }
  clear Htick. destruct st as [entered ms soft alerts ack retired].
  cbn [is_worker_entered cpu_usage_ms cpu_time_soft_limit_reached wall_clock_alerts req_ack_count is_retired turns] in *.
  destruct e; cbn [pw_step turns] in *; unfold pw_stop, soft_limit;
    cbn [is_worker_entered cpu_usage_ms cpu_time_soft_limit_reached wall_clock_alerts req_ack_count is_retired];
    repeat match goal with |- context [if ?b then _ else _] => destruct b eqn:? end;
    unfold pw_inv, pw_reason; rewrite ?count_snoc, ?history_snoc, ?Hh; unfold history_step;
    cbn [is_worker_entered cpu_usage_ms cpu_time_soft_limit_reached wall_clock_alerts req_ack_count is_retired is_req_end is_tick fst snd];
    rewrite ?Z.add_0_r; tests; try (destruct Ht as [Ht1 Ht]); subst; try done.
  all: split_and?; intros; subst; try done; try lia; auto; try congruence.
  all: try (left; by eauto).
  all: try (destruct Htick' as [?|(_ & ? & ?)]; [congruence|lia]).
  all: repeat f_equal; try lia.
  all: repeat match goal with H : is_disabled _ = _ |- _ => rewrite H end; rewrite ?orb_false_r; cbn [negb andb orb]; rewrite ?orb_false_r; try done.
  - cbn [orb]. by apply Z.leb_le.
  - destruct soft; [done|]. by rewrite andb_true_r in *.
Qed.

Lemma pw_inv_start o evs : turns false evs -> pw_inv o [] evs pw_start 0.
Proof. intros Ht. unfold pw_inv. cbn. split_and?; try done. Qed.

Lemma count_app f a b : count f (a ++ b) = count f a + count f b.
Proof. unfold count. by rewrite List.filter_app, len_app. Qed.
Lemma count_nonneg f a : 0 <= count f a.
Proof. apply len_nonneg. Qed.

(** C9: A supervisor per worker, for every order of events in which the runtime
    enters and leaves the isolate by turns ([turns]): it never fails an
    assertion; the number of times it has reported the worker idle is the
    number of requests that ended before the soft limit of CPU time was
    reached, as [history] reads it off the events: once for each of them, never
    after; and when it ends the worker, the worker is retired and there is a
    reason: a request of termination, the memory limit, the hard limit of CPU
    time (or a CPU alarm inside the isolate past the soft limit), the third tick of the wall
    clock, or, past the soft limit, that every request asked of the worker
    has ended. *)
Theorem per_worker_contract o evs :
  turns false evs ->
  match run (pw_step o) pw_start evs 0 with
  | (Continue st _, idle) => pw_inv o evs [] st idle
  | (Stop r ms t st, idle) =>
      exists pre e d post, evs = pre ++ (e, d) :: post /\ pw_reason o pre e d r ms t st idle
  | (Panic, _) => False
  end.
Proof.
  intros Ht. pose proof (run_classify (pw_step o) (pw_inv o) (pw_reason o) (pw_step_ok o) [] evs pw_start 0 (pw_inv_start o evs Ht)) as H.
  by destruct (run _ _ _ _) as [[]].
Qed.

(** The wall clock ends every worker: with a limit, a run that sees three
    ticks has ended the worker, whatever else it saw. *)
Theorem per_worker_ends o evs :
  turns false evs -> wall_clock_disabled o = false -> 3 <= count is_tick evs ->
  exists r ms t st idle, run (pw_step o) pw_start evs 0 = (Stop r ms t st, idle).
Proof.
  intros Ht Hw Hc. pose proof (run_classify (pw_step o) (pw_inv o) (pw_reason o) (pw_step_ok o) [] evs pw_start 0 (pw_inv_start o evs Ht)) as H.
  destruct (run _ _ _ _) as [[st s|r ms t st|] n]; [|by repeat eexists|done].
  destruct H as (_ & _ & Htick & _). specialize (Htick Hw). cbn in Htick. lia.
Qed.

(** ** The strategy per request *)

(** Requests start and end by turns, from [busy] on. *)
Fixpoint cycles (busy : bool) (evs : list (event * Z)) : Prop :=
  match evs with
  | [] => True
  | (ReqStart, _) :: evs => busy = false /\ cycles true evs
  | (ReqEnd, _) :: evs => busy = true /\ cycles false evs
  | _ :: evs => cycles busy evs
  end.

(** The CPU time of the last request, as its visits add up. *)
Fixpoint request_ms (evs : list (event * Z)) (ms : Z) : Z :=
  match evs with
  | [] => ms
  | (ReqStart, _) :: evs => request_ms evs 0
  | (Leave _ diff, _) :: evs => request_ms evs (ms + Z.quot diff 1000000)
  | _ :: evs => request_ms evs ms
  end.

Lemma request_ms_app a b ms : request_ms (a ++ b) ms = request_ms b (request_ms a ms).
Proof. revert ms. induction a as [|[[] d] a IH]; intros ms; cbn; auto. Qed.

Definition pr_inv (o : options) (oneshot : bool) (pre rest : list (event * Z)) (st : per_request) (n : nat) : Prop :=
  turns (pr_entered st) rest /\ cycles (req_start_ack st) rest
  /\ pr_req_ack_count st = count is_req_end pre
  /\ pr_cpu_usage_ms st = request_ms pre 0
  /\ Z.of_nat n = count is_req_end pre
  /\ (oneshot = true -> n = 0%nat).

Definition pr_reason (o : options) (oneshot : bool) (pre : list (event * Z)) (e : event) (d : Z) (r : ShutdownReason) (ms : Z) (t : bool)
    (st : per_request) (n : nat) : Prop :=
  pr_retired st = true
  /\ Z.of_nat n = count is_req_end pre
  /\ (oneshot = true -> n = 0%nat)
  /\ match r with
     | TerminationRequested => e = SuperviseCancelled \/ e = TerminationToken
     | Memory => e = MemoryLimit
     | WallClockTime => e = Tick /\ wall_clock_disabled o = false /\ (oneshot = false -> count is_req_end pre = d)
     | EarlyDrop => e = ReqEnd /\ oneshot = true
     | CPUTime =>
         (is_disabled (cpu o) = false /\ as_i64 (hard_limit_ms (cpu o)) <= request_ms (pre ++ [(e, d)]) 0)
         \/ (e = CpuAlarm /\ pr_entered st = true /\ req_start_ack st = true)
     end.

Lemma pr_step_ok o oneshot pre e d rest st n :
  pr_inv o oneshot pre ((e, d) :: rest) st n ->
  match pr_step o oneshot d st e with
  | Continue st' sent => pr_inv o oneshot (pre ++ [(e, d)]) rest st' (if sent then n + 1 else n)%nat
  | Stop r ms t st' => pr_reason o oneshot pre e d r ms t st' n
  | Panic => False
  end.
Proof.
  intros (Ht & Hcy & Hack & Hms & Hn & Hone). destruct st as [entered ms acc ack busy retired].
  cbn [pr_entered pr_cpu_usage_ms cpu_usage_accumulated_ms pr_req_ack_count req_start_ack pr_retired turns cycles] in *.
  destruct e; cbn [pr_step turns cycles] in *;
    cbn [pr_entered pr_cpu_usage_ms cpu_usage_accumulated_ms pr_req_ack_count req_start_ack pr_retired];
    repeat match goal with |- context [if ?b then _ else _] => destruct b eqn:? end; cbn [complete];
    repeat match goal with |- context [if ?b then _ else _] => destruct b eqn:? end;
    unfold pr_inv, pr_reason; rewrite ?count_snoc, ?request_ms_app;
    cbn [pr_entered pr_cpu_usage_ms cpu_usage_accumulated_ms pr_req_ack_count req_start_ack pr_retired is_req_end request_ms];
    rewrite ?Z.add_0_r; tests; try (destruct Ht as [Ht1 Ht]); try (destruct Hcy as [Hcy1 Hcy]); subst; try done.
  all: split_and?; intros; subst; try done; try lia; auto; try congruence.
Qed.

(** C11: A supervisor per request, for every order of events in which the runtime
    enters and leaves the isolate by turns ([turns]) and requests start and end
    by turns ([cycles]): it never fails an assertion, and it ends the worker
    only for a reason. A worker that is not oneshot gets one idle message for
    each request that ended, and is ended by a request of termination, the
    memory limit, the CPU time of the current request against the hard limit (or a CPU
    alarm inside the isolate while a request runs), or a tick of the wall clock when
    every request asked of the worker has ended. A oneshot worker never gets an idle message: it is
    ended with its request, and by the wall clock at any time, a request in
    flight or not, besides the other reasons. *)
Theorem per_request_contract o oneshot evs :
  turns false evs -> cycles false evs ->
  match run (pr_step o oneshot) pr_start evs 0 with
  | (Continue st _, idle) =>
      Z.of_nat idle = count is_req_end evs /\ (oneshot = true -> idle = 0%nat)
      /\ pr_req_ack_count st = count is_req_end evs /\ pr_cpu_usage_ms st = request_ms evs 0
  | (Stop r ms t st, idle) =>
      exists pre e d post, evs = pre ++ (e, d) :: post /\ pr_reason o oneshot pre e d r ms t st idle
  | (Panic, _) => False
  end.
Proof.
  intros Ht Hc. assert (H0 : pr_inv o oneshot [] evs pr_start 0) by (unfold pr_inv; cbn; split_and?; done).
  pose proof (run_classify (pr_step o oneshot) (pr_inv o oneshot) (pr_reason o oneshot) (pr_step_ok o oneshot) [] evs pr_start 0 H0) as H.
  destruct (run _ _ _ _) as [[st s|r ms t st|] n]; [|done|done]. by destruct H as (_ & _ & H1 & H2 & H3 & H4).
Qed.

(** A second request before the first has ended makes the supervisor fail. *)
Example two_requests_at_once :
  fst (run (pr_step (Options (Limits 0 0) 0) false) pr_start [(ReqStart, 1); (ReqStart, 2)] 0) = Panic.
Proof. done. Qed.

(** ** Examples *)

Definition demo_options : options := Options (Limits 50 100) 1000.
Definition demo_events : list (event * Z) :=
  [(Tick, 1); (Enter, 1); (ReqEnd, 1); (Leave 60000000 60000000, 2); (ReqEnd, 2)].

Lemma per_worker_contract_witness :
  run (pw_step demo_options) pw_start demo_events 0 = (Stop EarlyDrop 60 true (PW false 60 true 1 2 true), 1%nat)
  /\ exists pre e d post, demo_events = pre ++ (e, d) :: post /\ count is_req_end (pre ++ [(e, d)]) = d.
Proof.
  split; [vm_compute; reflexivity|].
  pose proof (per_worker_contract demo_options demo_events ltac:(cbn; auto 10)) as H.
  destruct (run _ _ _ _) as [[st s|r ms t st|] n] eqn:E; vm_compute in E; try discriminate E. injection E as <- <- <- <- <-.
  destruct H as (pre & e & d & post & H1 & _ & _ & (_ & H2) & _). exists pre, e, d, post. split; [exact H1|exact H2].
Defined.

Lemma per_worker_ends_witness :
  exists r ms t st idle,
    run (pw_step demo_options) pw_start [(Tick, 0); (Enter, 0); (Tick, 0); (Leave 1 1, 0); (Tick, 3)] 0 = (Stop r ms t st, idle).
Proof. apply per_worker_ends; [cbn; auto 10|reflexivity|vm_compute; discriminate]. Defined.

Lemma per_request_contract_witness :
  match run (pr_step demo_options false) pr_start [(Tick, 1); (ReqStart, 1); (Enter, 1); (Leave 5000000 5000000, 1); (ReqEnd, 1); (ReqStart, 2)] 0 with
  | (Continue st _, idle) => idle = 1%nat /\ pr_cpu_usage_ms st = 0
  | _ => False
  end.
Proof.
  pose proof (per_request_contract demo_options false
    [(Tick, 1); (ReqStart, 1); (Enter, 1); (Leave 5000000 5000000, 1); (ReqEnd, 1); (ReqStart, 2)]
    ltac:(cbn; auto 10) ltac:(cbn; auto 10)) as H.
  destruct (run _ _ _ _) as [[st s|r ms t st|] n] eqn:E; vm_compute in E; try discriminate E. injection E as <- <- <-.
  split; [reflexivity|exact (proj2 (proj2 (proj2 H)))].
Defined.
