(* ===== verification/WorkerPool.v ===== *)
(** * The pool of workers: base/src/rt_worker/worker_pool.rs

    The pool keeps, for every service, a registry of active workers, a
    semaphore that bounds them and a channel that wakes up requests that wait
    for a worker.  Handling a message is a step of the pool; the tasks the pool
    spawns (waiting for a worker, booting one, a request in flight) are steps of
    their own, in any order between the messages.

    Workers, tasks, requests and permits are numbers.  The iteration order of a
    hash set is a list; where an insertion puts its element is a parameter. *)

From stdpp Require Import gmap.
From S2P Require Import Prelude.
#[local] Open Scope nat_scope.

Inductive SupervisorPolicy := PerWorker | PerRequest (oneshot : bool).
Definition is_oneshot (p : SupervisorPolicy) : bool := match p with PerRequest true => true | _ => false end.
Definition is_per_worker (p : SupervisorPolicy) : bool := match p with PerWorker => true | _ => false end.
Definition is_per_request (p : SupervisorPolicy) : bool := negb (is_per_worker p).

Record ActiveWorkerRegistry := Registry {
  workers : list (nat * bool);
  next : option nat;
  notify : list (option nat);
  permits : nat
}.

(** Who holds a permit of a semaphore: a task that boots a worker, the message
    that a worker was created, or its profile in the pool; and the requests in
    flight, which hold a clone of the profile. *)
Inductive owner := OTask (t : nat) | OMessage (k : nat) | OProfile (k : nat).
Record permit := Permit { pm_path : string; pm_owner : option owner; pm_requests : gset nat }.

Record UserWorkerProfile := Profile { service_path : string; profile_permit : option nat }.

(** A task that was spawned for a request of a worker, with the options of the
    request: those of a user worker say whether to force the creation, other
    options are [None].  [Resent] has put its request back into the queue of
    messages. *)
Inductive stage := Fence | Waiting | Resent | Creating (p : option nat).
Record task := Task { task_path : string; task_conf : option bool; task_stage : stage }.
Definition task_force (t : task) : bool := default false (task_conf t).

Record system := System {
  user_workers : gmap nat UserWorkerProfile;
  active_workers : gmap string ActiveWorkerRegistry;
  raised : gset nat;
  demand : gmap nat nat;
  table : gmap nat permit;
  tasks : gmap nat task;
  created : gmap nat UserWorkerProfile;
  used_keys : gset nat;
  used_permits : nat;
  retired_count : nat;
  active_count : nat
}.

Definition empty_system : system := System ∅ ∅ ∅ ∅ ∅ ∅ ∅ ∅ 0 0 0.

(** Updates of one field. *)
Definition set_users f s := System (f (user_workers s)) (active_workers s) (raised s) (demand s) (table s) (tasks s) (created s) (used_keys s) (used_permits s) (retired_count s) (active_count s).
Definition set_active f s := System (user_workers s) (f (active_workers s)) (raised s) (demand s) (table s) (tasks s) (created s) (used_keys s) (used_permits s) (retired_count s) (active_count s).
Definition set_raised f s := System (user_workers s) (active_workers s) (f (raised s)) (demand s) (table s) (tasks s) (created s) (used_keys s) (used_permits s) (retired_count s) (active_count s).
Definition set_demand f s := System (user_workers s) (active_workers s) (raised s) (f (demand s)) (table s) (tasks s) (created s) (used_keys s) (used_permits s) (retired_count s) (active_count s).
Definition set_table f s := System (user_workers s) (active_workers s) (raised s) (demand s) (f (table s)) (tasks s) (created s) (used_keys s) (used_permits s) (retired_count s) (active_count s).
Definition set_tasks f s := System (user_workers s) (active_workers s) (raised s) (demand s) (table s) (f (tasks s)) (created s) (used_keys s) (used_permits s) (retired_count s) (active_count s).
Definition set_created f s := System (user_workers s) (active_workers s) (raised s) (demand s) (table s) (tasks s) (f (created s)) (used_keys s) (used_permits s) (retired_count s) (active_count s).
Definition set_used f s := System (user_workers s) (active_workers s) (raised s) (demand s) (table s) (tasks s) (created s) (f (used_keys s)) (used_permits s) (retired_count s) (active_count s).
Definition set_fresh f s := System (user_workers s) (active_workers s) (raised s) (demand s) (table s) (tasks s) (created s) (used_keys s) (f (used_permits s)) (retired_count s) (active_count s).
Definition set_metrics f g s := System (user_workers s) (active_workers s) (raised s) (demand s) (table s) (tasks s) (created s) (used_keys s) (used_permits s) (f (retired_count s)) (g (active_count s)).

(** ** Registries *)

Definition set_workers l r := Registry l (next r) (notify r) (permits r).
Definition set_next n r := Registry (workers r) n (notify r) (permits r).
Definition send_notify m r := Registry (workers r) (next r) (notify r ++ m) (permits r).
Definition pop_notify r := Registry (workers r) (next r) (tail (notify r)) (permits r).
Definition set_permits n r := Registry (workers r) (next r) (notify r) n.

(** [HashSet::replace] of an element that is there. *)
Definition replace_mark (k : nat) (mark : bool) (l : list (nat * bool)) : list (nat * bool) :=
  (fun w => if decide (fst w = k) then (k, mark) else w) <$> l.

(** The position of the first worker that is marked. *)
Definition first_marked (l : list (nat * bool)) : option nat := fst <$> list_find (fun w => snd w = true) l.

Definition mark_used_and_try_advance (policy : SupervisorPolicy) (r : ActiveWorkerRegistry) : ActiveWorkerRegistry * option nat :=
  match workers r with
  | [] => (set_next None r, None)
  | _ =>
      let len := length (workers r) in
      let idx := match next r with Some it => if len <? it + 1 then 0 else it | None => 0 end in
      match workers r !! idx with
      | Some (key, true) =>
          match policy with
          | PerWorker => (set_next (Some (idx + 1)) r, Some key)
          | PerRequest _ =>
              let r := set_workers (replace_mark key false (workers r)) r in
              (set_next (first_marked (workers r)) r, Some key)
          end
      | _ => (set_next None r, None)
      end
  end.

Definition find_worker (k : nat) (l : list (nat * bool)) : option (nat * bool) := snd <$> list_find (fun w => fst w = k) l.

Definition mark_idle (policy : SupervisorPolicy) (key : nat) (r : ActiveWorkerRegistry) : ActiveWorkerRegistry :=
  match find_worker key (workers r) with
  | Some (key, mark) =>
      if is_per_request policy then
        if mark then r else send_notify [Some key] (set_workers (replace_mark key true (workers r)) r)
      else send_notify [Some key] r
  | None => r
  end.

Definition remove_worker (k : nat) (l : list (nat * bool)) : list (nat * bool) := List.filter (fun w => negb (bool_decide (fst w = k))) l.

(** ** Permits *)

(** A permit nobody holds goes back to its semaphore. *)
Definition settle (pid : nat) (s : system) : system :=
  match table s !! pid with
  | Some pm =>
      if bool_decide (pm_owner pm = None) && bool_decide (pm_requests pm = ∅) then
        set_active (alter (fun r => set_permits (permits r + 1) r) (pm_path pm)) (set_table (delete pid) s)
      else s
  | None => s
  end.

Definition set_owner (o : option owner) (pid : nat) (s : system) : system :=
  set_table (alter (fun pm => Permit (pm_path pm) o (pm_requests pm)) pid) s.

(** A permit moves to a new owner. *)
Definition give (o : owner) (pid : option nat) (s : system) : system :=
  match pid with Some pid => set_owner (Some o) pid s | None => s end.

Definition drop_owner (pid : option nat) (s : system) : system :=
  match pid with Some pid => settle pid (set_owner None pid s) | None => s end.

(** [sem.try_acquire_owned()] for a task. *)
Definition try_acquire (t : nat) (path : string) (s : system) : option (system * nat) :=
  match active_workers s !! path with
  | Some r =>
      match permits r with
      | 0 => None
      | S n =>
          let pid := used_permits s in
          Some (set_fresh S (set_table <[pid := Permit path (Some (OTask t)) ∅]> (set_active <[path := set_permits n r]> s)), pid)
      end
  | None => None
  end.

(** ** Messages *)

Section Pool.
Context (policy : SupervisorPolicy) (max_parallelism : nat).
Context (place : list (nat * bool) -> nat * bool -> list (nat * bool)).

Definition new_registry : ActiveWorkerRegistry := Registry [] None [] max_parallelism.

(** [HashSet::insert]: an element that is there stays as it is. *)
Definition insert_worker (l : list (nat * bool)) (w : nat * bool) : list (nat * bool) :=
  if bool_decide (fst w ∈ l.*1) then l else place l w.

(** [active_workers.entry(path).or_insert_with(..)]. *)
Definition ensure_registry (path : string) (s : system) : system :=
  match active_workers s !! path with Some _ => s | None => set_active <[path := new_registry]> s end.

(** The receivers of a channel: the registry has one, and every task that has
    not passed the fence. *)
Definition waits_on (path : string) (t : task) : bool :=
  bool_decide (task_path t = path) && match task_stage t with Fence | Waiting => true | _ => false end.
Definition receiver_count (path : string) (s : system) : nat :=
  1 + length (List.filter (fun e => waits_on path (snd e)) (map_to_list (tasks s))).

Definition retire (key : nat) (s : system) : result system :=
  match user_workers s !! key with
  | None => Ok s
  | Some profile =>
      let path := service_path profile in
      match active_workers s !! path with
      | None => Throw (Error "registry must be initialized at this point")
      | Some _ =>
          let s := drop_owner (profile_permit profile) (set_users <[key := Profile path None]> s) in
          let s := set_active (alter (send_notify (replicate (receiver_count path s) None)) path) s in
          match active_workers s !! path with
          | Some r =>
              if bool_decide (key ∈ (workers r).*1) then
                Ok (set_metrics S id (set_active <[path := set_workers (remove_worker key (workers r)) r]> s))
              else Ok s
          | None => Ok s
          end
      end
  end.

Fixpoint maybe_active_worker (fuel : nat) (path : string) (s : system) : result (system * option nat) :=
  match active_workers s !! path with
  | None => Ok (s, None)
  | Some r =>
      let '(r, found) := mark_used_and_try_advance policy r in
      let s := set_active <[path := r]> s in
      match found with
      | None => Ok (s, None)
      | Some k =>
          if bool_decide (is_Some (user_workers s !! k)) && bool_decide (k ∉ raised s) then
            Ok (set_demand (fun d => <[k := default 0 (d !! k) + 1]> d) s, Some k)
          else
            let! s := retire k s in
            match fuel with
            | O => Throw (Error "out of fuel")
            | S fuel => maybe_active_worker fuel path s
            end
      end
  end.

(** As many rounds as there are workers. *)
Definition find_active (path : string) (force_create : bool) (s : system) : result (system * option nat) :=
  if force_create then Ok (s, None)
  else maybe_active_worker (match active_workers s !! path with Some r => length (workers r) | None => 0 end) path s.

(** The reply to the request of task [t]: a worker, an error, or none at all when
    the sender of the reply is dropped. *)
Inductive reply := NoReply | Worker (t k : nat) | Failed (t : nat) | Dropped (t : nat).

(** [conf.as_user_worker()] with what forces a creation under the policy. *)
Definition force_create (conf : option bool) : option bool := (fun force => negb (is_oneshot policy) && force) <$> conf.

Definition create_user_worker (t : nat) (path : string) (conf : option bool) (s : system) : result (system * reply) :=
  let! r := find_active path (default false (force_create conf)) s in
  match r with
  | (s, Some k) => Ok (set_tasks (delete t) s, Worker t k)
  | (s, None) => Ok (set_tasks <[t := Task path (force_create conf) Fence]> (ensure_registry path s), NoReply)
  end.

Definition add_user_worker (k : nat) (profile : UserWorkerProfile) (s : system) : system :=
  let s := ensure_registry (service_path profile) s in
  let s := set_active (alter (fun r => set_workers (insert_worker (workers r) (k, is_per_worker policy)) r) (service_path profile)) s in
  set_metrics id S (set_users <[k := profile]> s).

Definition idle (k : nat) (s : system) : system :=
  match user_workers s !! k with
  | Some profile => set_active (alter (mark_idle policy k) (service_path profile)) s
  | None => s
  end.

Definition shutdown (k : nat) (s : system) : result system :=
  let! s := retire k s in
  match user_workers s !! k with
  | None => Ok s
  | Some profile =>
      let s := set_users (delete k) s in
      match active_workers s !! service_path profile with
      | Some _ => Ok (set_metrics id pred (set_active (alter (send_notify [None]) (service_path profile)) s))
      | None => Ok s
      end
  end.

(** The clone of a profile that a request takes; it is dropped at the latest
    when the task of the request ends. *)
Definition send_request (k rid : nat) (s : system) : system :=
  match user_workers s !! k ≫= profile_permit with
  | Some pid => set_table (alter (fun pm => Permit (pm_path pm) (pm_owner pm) ({[rid]} ∪ pm_requests pm)) pid) s
  | None => s
  end.

Definition drop_clone (pid rid : nat) (s : system) : system :=
  settle pid (set_table (alter (fun pm => Permit (pm_path pm) (pm_owner pm) (pm_requests pm ∖ {[rid]})) pid) s).

(** ** The task of a request for a worker *)

Definition set_stage (t : nat) (tk : task) (st : stage) (s : system) : system :=
  set_tasks <[t := Task (task_path tk) (task_conf tk) st]> s.

(** The first attempt on the semaphore. *)
Definition run_fence (t : nat) (tk : task) (s : system) : system :=
  match try_acquire t (task_path tk) s with
  | Some (s, pid) => set_stage t tk (Creating (Some pid)) s
  | None => set_stage t tk (if task_force tk then Creating None else Waiting) s
  end.

(** A notification arrives. *)
Definition receive (t : nat) (tk : task) (m : option nat) (s : system) : system :=
  match m with
  | Some _ => set_stage t tk Resent s
  | None =>
      match try_acquire t (task_path tk) s with
      | Some (s, pid) => set_stage t tk (Creating (Some pid)) s
      | None => s
      end
  end.

(** The worker is up: the pool and the requester are told. *)
Definition boot (t k : nat) (tk : task) (p : option nat) (s : system) : system :=
  let s := give (OMessage k) p (set_tasks (delete t) s) in
  set_demand (fun d => <[k := default 0 (d !! k) + 1]> d)
    (set_used (union {[k]}) (set_created <[k := Profile (task_path tk) p]> s)).

(** The pool takes the profile out of the message. *)
Definition handle_created (k : nat) (profile : UserWorkerProfile) (s : system) : system :=
  add_user_worker k profile (give (OProfile k) (profile_permit profile) (set_created (delete k) s)).

Inductive label :=
  | Create (t : nat) (path : string) (conf : option bool)
  | RunFence (t : nat)
  | Recv (t : nat)
  | Timeout (t : nat)
  | Boot (t k : nat)
  | BootFail (t : nat)
  | NotUserWorker (t : nat)
  | Created (k : nat)
  | SendRequest (k rid : nat)
  | DropClone (pid rid : nat)
  | Idle (k : nat)
  | Shutdown (k : nat)
  | Raise (k : nat).

#[global] Instance label_eq_dec : EqDecision label.
Proof. solve_decision. Defined.

(** [None]: the step is not possible. *)
Definition step (s : system) (l : label) : option (result (system * reply)) :=
  match l with
  | Create t path conf =>
      match tasks s !! t with
      | None => Some (create_user_worker t path conf s)
      | Some (Task path' conf' Resent) =>
          if bool_decide (path = path') && bool_decide (conf' = force_create conf)
          then Some (create_user_worker t path conf s) else None
      | Some _ => None
      end
  | RunFence t =>
      match tasks s !! t with
      | Some (Task _ _ Fence as tk) => Some (Ok (run_fence t tk s, NoReply))
      | _ => None
      end
  | Recv t =>
      match tasks s !! t with
      | Some (Task path _ Waiting as tk) =>
          match active_workers s !! path with
          | Some r =>
              match notify r with
              | m :: _ => Some (Ok (receive t tk m (set_active <[path := pop_notify r]> s), NoReply))
              | [] => None
              end
          | None => None
          end
      | _ => None
      end
  | Timeout t =>
      match tasks s !! t with
      | Some (Task _ _ Waiting) => Some (Ok (set_tasks (delete t) s, Failed t))
      | _ => None
      end
  | Boot t k =>
      match tasks s !! t with
      | Some (Task _ (Some _) (Creating p) as tk) => if bool_decide (k ∈ used_keys s) then None else Some (Ok (boot t k tk p s, Worker t k))
      | _ => None
      end
  | BootFail t =>
      match tasks s !! t with
      | Some (Task _ (Some _) (Creating p)) => Some (Ok (drop_owner p (set_tasks (delete t) s), Failed t))
      | _ => None
      end
  | NotUserWorker t =>
      match tasks s !! t with
      | Some (Task _ None (Creating p)) => Some (Ok (drop_owner p (set_tasks (delete t) s), Dropped t))
      | _ => None
      end
  | Created k =>
      match created s !! k with
      | Some profile => Some (Ok (handle_created k profile s, NoReply))
      | None => None
      end
  | SendRequest k rid => Some (Ok (send_request k rid s, NoReply))
  | DropClone pid rid => Some (Ok (drop_clone pid rid s, NoReply))
  | Idle k => Some (Ok (idle k s, NoReply))
  | Shutdown k => Some (let! s := shutdown k s in Ok (s, NoReply))
  | Raise k => Some (Ok (set_raised (union {[k]}) s, NoReply))
  end.

(** A run: every step with the reply it gave, the last one first. *)
Inductive runs : list (label * reply) -> system -> Prop :=
  | runs_start : runs [] empty_system
  | runs_step tr s l s' rep : runs tr s -> step s l = Some (Ok (s', rep)) -> runs ((l, rep) :: tr) s'.

(** ** The loop of the pool *)

Record pool_loop := Loop { lp_pool : system; termination_requested : bool; finished : bool }.

Definition no_workers (s : system) : bool := bool_decide (user_workers s = ∅).

(** The token of the loop is cancelled. *)
Definition on_termination (lp : pool_loop) : option pool_loop :=
  if finished lp || termination_requested lp then None else Some (Loop (lp_pool lp) true (no_workers (lp_pool lp))).

(** A message is handled, or a task makes a step. *)
Definition on_step (lp : pool_loop) (l : label) : option (result (pool_loop * reply)) :=
  if finished lp then None
  else
    r ← step (lp_pool lp) l;
    Some (let! r := r in
      let stop := match l with Shutdown _ => termination_requested lp && no_workers (fst r) | _ => false end in
      Ok (Loop (fst r) (termination_requested lp) stop, snd r)).

Inductive loops : list (label * reply) -> pool_loop -> Prop :=
  | loops_start : loops [] (Loop empty_system false false)
  | loops_terminate tr lp lp' : loops tr lp -> on_termination lp = Some lp' -> loops tr lp'
  | loops_step tr lp l lp' rep : loops tr lp -> on_step lp l = Some (Ok (lp', rep)) -> loops ((l, rep) :: tr) lp'.

(** The state after a list of steps, with the trace. *)
Fixpoint play (tr : list (label * reply)) (s : system) (ls : list label) : option (list (label * reply) * system) :=
  match ls with
  | [] => Some (tr, s)
  | l :: ls => match step s l with Some (Ok (s, rep)) => play ((l, rep) :: tr) s ls | _ => None end
  end.

End Pool.

(** ** Consistency of the pool *)

(** What an owner of a permit is: its service and the permit it has. *)
Definition holds (s : system) (o : owner) : option (string * option nat) :=
  match o with
  | OTask t => match tasks s !! t with Some (Task path _ (Creating p)) => Some (path, p) | _ => None end
  | OMessage k => (fun pr => (service_path pr, profile_permit pr)) <$> created s !! k
  | OProfile k => (fun pr => (service_path pr, profile_permit pr)) <$> user_workers s !! k
  end.

(** The permits of a service that are taken. *)
Definition taken (path : string) (tb : gmap nat permit) : nat := size (filter (fun e => pm_path (snd e) = path) tb).

Lemma set_active_insert s p r f : active_workers s !! p = Some r -> set_active <[p := f r]> s = set_active (alter f p) s.
Proof.
  intros H. unfold set_active. f_equal. apply map_eq. intros q.
  destruct (decide (p = q)) as [->|]; [by rewrite lookup_insert_eq, lookup_alter_eq, H|by rewrite lookup_insert_ne, lookup_alter_ne].
Qed.

Lemma replace_mark_keys k m l : (replace_mark k m l).*1 = l.*1.
Proof. unfold replace_mark. rewrite <- list_fmap_compose. apply list_fmap_ext. intros i [k' m'] _. cbn. by case_decide. Qed.

Lemma replace_mark_elem k m l k' m' : (k', m') ∈ replace_mark k m l <-> (k' = k /\ m' = m /\ k ∈ l.*1) \/ (k' <> k /\ (k', m') ∈ l).
Proof.
  unfold replace_mark. rewrite list_elem_of_fmap. split.
  - intros ([a b] & He & Hin). cbn in He. case_decide; simplify_eq; [left|by right].
    split_and!; [done|done|]. by apply (list_elem_of_fmap_2 fst _ (k, b)).
  - intros [(-> & -> & Hin)|[Hne Hin]].
    + apply list_elem_of_fmap in Hin as ([a b] & -> & Hin). exists (a, b). cbn. by rewrite decide_True.
    + exists (k', m'). cbn. by rewrite decide_False.
Qed.

Lemma remove_worker_elem k l k' m' : (k', m') ∈ remove_worker k l <-> k' <> k /\ (k', m') ∈ l.
Proof. unfold remove_worker. rewrite !list_elem_of_In, filter_In. cbn. rewrite negb_true_iff, bool_decide_eq_false. tauto. Qed.

Lemma remove_worker_nodup k l : NoDup l.*1 -> NoDup (remove_worker k l).*1.
Proof.
  induction l as [|[a b] l IH]; [done|]. cbn. intros [Hn Hl]%NoDup_cons. case_bool_decide; cbn; [auto|].
  apply NoDup_cons. split; [|auto]. intros ([a' b'] & -> & Hin)%list_elem_of_fmap. apply remove_worker_elem in Hin as [_ Hin].
  apply Hn. by apply (list_elem_of_fmap_2 fst _ (a', b')).
Qed.

(** The worker that is found was marked; only its mark can change. *)
Lemma mark_used_spec policy r r' found :
  mark_used_and_try_advance policy r = (r', found) ->
  notify r' = notify r /\ permits r' = permits r /\
  match found with
  | None => workers r' = workers r
  | Some k => (k, true) ∈ workers r /\ workers r' = if is_per_worker policy then workers r else replace_mark k false (workers r)
  end.
Proof.
  unfold mark_used_and_try_advance. destruct (workers r) as [|w l] eqn:Hw; [intros [= <- <-]; by rewrite <- Hw|].
  rewrite <- Hw. set (idx := match next r with Some it => _ | None => 0 end).
  destruct (workers r !! idx) as [[k []]|] eqn:Hi; [|intros [= <- <-]; done..].
  apply list_elem_of_lookup_2 in Hi. destruct policy; intros [= <- <-]; done.
Qed.

Section Consistent.
Context (policy : SupervisorPolicy) (max_parallelism : nat).

(** Every worker of a registry has a profile of that service. *)
Definition registries_ok (users : gmap nat UserWorkerProfile) (act : gmap string ActiveWorkerRegistry) : Prop :=
  (forall p r, act !! p = Some r -> NoDup (workers r).*1) /\
  (forall p r k m, act !! p = Some r -> (k, m) ∈ workers r ->
     (exists pm, users !! k = Some (Profile p pm)) /\ (policy = PerWorker -> m = true)) /\
  (forall k pr, users !! k = Some pr -> is_Some (act !! service_path pr)).

(** Every permit of a semaphore is available or in the table. *)
Definition permits_ok (act : gmap string ActiveWorkerRegistry) (tb : gmap nat permit) : Prop :=
  (forall p r, act !! p = Some r -> permits r + taken p tb = max_parallelism) /\
  (forall pid pm, tb !! pid = Some pm -> is_Some (act !! pm_path pm)).

(** A permit is held by the one owner the table names. *)
Definition owners_ok (h : owner -> option (string * option nat)) (tb : gmap nat permit) : Prop :=
  forall o p pid, h o = Some (p, Some pid) -> exists rq, tb !! pid = Some (Permit p (Some o) rq).

Definition keys_ok (s : system) : Prop :=
  (forall k, is_Some (user_workers s !! k) -> k ∈ used_keys s /\ created s !! k = None) /\
  (forall k, is_Some (created s !! k) -> k ∈ used_keys s) /\
  (forall pid, is_Some (table s !! pid) -> pid < used_permits s) /\
  active_count s = size (user_workers s).

Definition consistent (s : system) : Prop :=
  registries_ok (user_workers s) (active_workers s) /\ permits_ok (active_workers s) (table s) /\
  owners_ok (holds s) (table s) /\ keys_ok s.

(** *** Registries *)

(** Two registries with the same workers, up to marks that are given. *)
Lemma registries_alter users act p f :
  registries_ok users act ->
  (forall r, act !! p = Some r -> incl (workers (f r)).*1 (workers r).*1 /\ NoDup (workers (f r)).*1 /\
     (policy = PerWorker -> forall k m, (k, m) ∈ workers (f r) -> (k, m) ∈ workers r)) ->
  registries_ok users (alter f p act).
Proof.
  intros (Hnd & Hin & Hus) Hf. split_and!.
  - intros q r Hq. apply lookup_alter_Some in Hq as [(-> & r0 & H0 & ->) | [? H0]]; [by apply Hf|eauto].
  - intros q r k m Hq Hk. apply lookup_alter_Some in Hq as [(-> & r0 & H0 & ->) | [? H0]]; [|eauto].
    destruct (Hf _ H0) as (Hincl & _ & Hmark).
    assert (k ∈ (workers r0).*1) as Hk0.
    { apply list_elem_of_In, Hincl, list_elem_of_In. by apply (list_elem_of_fmap_2 fst _ (k, m)). }
    apply list_elem_of_fmap in Hk0 as ([k' m'] & ? & Hk0); cbn in *; subst k'.
    split; [by apply (Hin _ _ _ _ H0 Hk0)|]. intros Hp. by apply (Hin _ _ k m H0 (Hmark Hp _ _ Hk)).
  - intros k pr Hk. destruct (Hus _ _ Hk) as [r Hr].
    destruct (decide (p = service_path pr)) as [->|Hne]; [rewrite lookup_alter_eq, Hr|rewrite lookup_alter_ne, Hr by done]; eauto.
Qed.

Lemma registries_same users act p f :
  registries_ok users act -> (forall r, workers (f r) = workers r) -> registries_ok users (alter f p act).
Proof.
  intros Hok Hf. apply registries_alter; [done|]. intros r Hr. rewrite Hf.
  split_and!; [apply incl_refl|by apply Hok in Hr|done].
Qed.

Lemma registries_marks users act p f :
  registries_ok users act -> (forall r, (workers (f r)).*1 = (workers r).*1) -> (policy = PerWorker -> forall r, workers (f r) = workers r) ->
  registries_ok users (alter f p act).
Proof.
  intros Hok Hk Hp. apply registries_alter; [done|]. intros r Hr. rewrite Hk.
  split_and!; [apply incl_refl|by apply Hok in Hr|intros Hpw; by rewrite Hp].
Qed.

Lemma registries_remove users act p k :
  registries_ok users act -> registries_ok users (alter (fun r => set_workers (remove_worker k (workers r)) r) p act).
Proof.
  intros Hok. apply registries_alter; [done|]. intros r Hr. cbn. split_and!.
  - intros x ([a b] & -> & Hin)%list_elem_of_In%list_elem_of_fmap. apply remove_worker_elem in Hin as [_ Hin].
    apply list_elem_of_In. by apply (list_elem_of_fmap_2 fst _ (a, b)).
  - apply remove_worker_nodup. by apply Hok in Hr.
  - intros _ a b. rewrite remove_worker_elem. tauto.
Qed.

Lemma registries_new users act p :
  registries_ok users act -> act !! p = None -> registries_ok users (<[p := new_registry max_parallelism]> act).
Proof.
  intros (Hnd & Hin & Hus) Hp. split_and!.
  - intros q r [[<- <-]|[? ?]]%lookup_insert_Some; [constructor|eauto].
  - intros q r k m [[<- <-]|[? ?]]%lookup_insert_Some; [by intros ?%elem_of_nil|eauto].
  - intros k pr Hk. apply lookup_insert_is_Some'. right. eauto.
Qed.

Lemma registries_permit users act k p pm pm' :
  registries_ok users act -> users !! k = Some (Profile p pm) -> registries_ok (<[k := Profile p pm']> users) act.
Proof.
  intros (Hnd & Hin & Hus) Hk. split_and!; [done| |].
  - intros q r j m Hq Hj. destruct (Hin _ _ _ _ Hq Hj) as [[x Hx] Hm]. split; [|done].
    destruct (decide (k = j)) as [<-|]; [rewrite lookup_insert_eq|rewrite lookup_insert_ne by done]; [|eauto].
    rewrite Hk in Hx. injection Hx as -> ->. eauto.
  - intros j pr [[<- <-]|[? ?]]%lookup_insert_Some; [apply (Hus _ _ Hk)|eauto].
Qed.

Lemma registries_add users act k p pm place :
  (forall l w, place l w ≡ₚ w :: l) ->
  registries_ok users act -> users !! k = None -> is_Some (act !! p) ->
  registries_ok (<[k := Profile p pm]> users)
    (alter (fun r => set_workers (insert_worker place (workers r) (k, is_per_worker policy)) r) p act).
Proof.
  intros Hplace (Hnd & Hin & Hus) Hk Hp.
  assert (forall q r, act !! q = Some r -> k ∉ (workers r).*1) as Hout.
  { intros q r Hq ([a b] & -> & Hab)%list_elem_of_fmap. destruct (Hin _ _ _ _ Hq Hab) as [[x Hx] _]. cbn in Hk. congruence. }
  assert (forall q r j m, act !! q = Some r -> (j, m) ∈ workers r ->
     (exists x, <[k := Profile p pm]> users !! j = Some (Profile q x)) /\ (policy = PerWorker -> m = true)) as Hold.
  { intros q r j m Hq Hj. rewrite lookup_insert_ne; [by apply (Hin _ r)|]. intros ->.
    apply (Hout _ _ Hq). by apply (list_elem_of_fmap_2 fst _ (j, m)). }
  split_and!.
  - intros q r [(-> & r0 & H0 & ->)|[_ Hq]]%lookup_alter_Some; [|eauto]. cbn. unfold insert_worker.
    rewrite bool_decide_eq_false_2 by (cbn; eauto). rewrite Hplace. cbn. apply NoDup_cons. eauto.
  - intros q r j m [(-> & r0 & H0 & ->)|[_ Hq]]%lookup_alter_Some; [|eauto]. cbn. unfold insert_worker.
    rewrite bool_decide_eq_false_2 by (cbn; eauto). rewrite Hplace, elem_of_cons. intros [[= -> ->]|Hj]; [|eauto].
    rewrite lookup_insert_eq. split; [eauto|by intros ->].
  - intros j pr Hj. apply lookup_alter_is_Some. apply lookup_insert_Some in Hj as [[<- <-]|[_ Hj]]; [done|eauto].
Qed.

Lemma registries_delete users act k :
  registries_ok users act -> (forall p r, act !! p = Some r -> k ∉ (workers r).*1) -> registries_ok (delete k users) act.
Proof.
  intros (Hnd & Hin & Hus) Hk. split_and!; [done| |].
  - intros q r j m Hq Hj. rewrite lookup_delete_ne; [by apply (Hin _ r)|]. intros ->.
    apply (Hk _ _ Hq). by apply (list_elem_of_fmap_2 fst _ (j, m)).
  - intros j pr [_ Hj]%lookup_delete_Some. eauto.
Qed.

(** *** Permits *)

Lemma taken_insert p tb pid pm : tb !! pid = None -> taken p (<[pid := pm]> tb) = (if decide (pm_path pm = p) then 1 else 0) + taken p tb.
Proof.
  intros Hn. unfold taken. case_decide.
  - rewrite map_filter_insert_True by done. rewrite map_size_insert_None; [done|]. apply map_lookup_filter_None. by left.
  - rewrite map_filter_insert_False by done. by rewrite delete_id.
Qed.

Lemma taken_delete p tb pid pm : tb !! pid = Some pm -> taken p tb = (if decide (pm_path pm = p) then 1 else 0) + taken p (delete pid tb).
Proof. intros H. rewrite <- (insert_delete_id _ _ _ H) at 1. apply taken_insert, lookup_delete_eq. Qed.

Lemma taken_alter p tb pid f : (forall pm, pm_path (f pm) = pm_path pm) -> taken p (alter f pid tb) = taken p tb.
Proof.
  intros Hf. destruct (tb !! pid) as [pm|] eqn:H.
  - rewrite (taken_delete p tb pid pm H), (taken_delete p (alter f pid tb) pid (f pm)) by (by rewrite lookup_alter_eq, H).
    rewrite Hf. do 2 f_equal. apply map_eq. intros i. destruct (decide (i = pid)) as [->|]; [by rewrite !lookup_delete_eq|].
    by rewrite !lookup_delete_ne, lookup_alter_ne.
  - f_equal. apply map_eq. intros i. destruct (decide (i = pid)) as [->|]; [by rewrite lookup_alter_eq, H|by rewrite lookup_alter_ne].
Qed.

Lemma permits_table act tb pid f : (forall pm, pm_path (f pm) = pm_path pm) -> permits_ok act tb -> permits_ok act (alter f pid tb).
Proof.
  intros Hf [Hs Hp]. split; [intros p r Hr; rewrite taken_alter by done; eauto|].
  intros i pm [(-> & x & Hx & ->)|[_ Hi]]%lookup_alter_Some; [rewrite Hf|]; eauto.
Qed.

Lemma permits_same act tb p f : (forall r, permits (f r) = permits r) -> permits_ok act tb -> permits_ok (alter f p act) tb.
Proof.
  intros Hf [Hs Hp]. split; [|intros i pm Hi; apply lookup_alter_is_Some; eauto].
  intros q r [(-> & x & Hx & ->)|[_ Hq]]%lookup_alter_Some; [rewrite Hf|]; eauto.
Qed.

Lemma permits_new act tb p : permits_ok act tb -> act !! p = None -> permits_ok (<[p := new_registry max_parallelism]> act) tb.
Proof.
  intros [Hs Hp] Hn. split; [|intros i pm Hi; apply lookup_insert_is_Some'; eauto].
  intros q r [[<- <-]|[_ Hq]]%lookup_insert_Some; [|eauto]. cbn. unfold taken.
  rewrite (map_empty_filter_2 _ tb), map_size_empty; [lia|]. intros i pm Hi Hpath. destruct (Hp _ _ Hi) as [x Hx]. cbn in Hpath. congruence.
Qed.

Lemma permits_release act tb pid pm :
  permits_ok act tb -> tb !! pid = Some pm ->
  permits_ok (alter (fun r => set_permits (permits r + 1) r) (pm_path pm) act) (delete pid tb).
Proof.
  intros [Hs Hp] Hpid. split.
  - intros q r [(<- & x & Hx & ->)|[Hne Hq]]%lookup_alter_Some; cbn.
    + specialize (Hs _ _ Hx). rewrite (taken_delete _ _ _ _ Hpid), decide_True in Hs by done. lia.
    + specialize (Hs _ _ Hq). rewrite (taken_delete _ _ _ _ Hpid), decide_False in Hs by done. lia.
  - intros i pm' [_ Hi]%lookup_delete_Some. apply lookup_alter_is_Some. eauto.
Qed.

Lemma permits_acquire act tb p r n pid o :
  permits_ok act tb -> act !! p = Some r -> permits r = S n -> tb !! pid = None ->
  permits_ok (<[p := set_permits n r]> act) (<[pid := Permit p o ∅]> tb).
Proof.
  intros [Hs Hp] Hr Hn Hpid. split.
  - intros q r' [[<- <-]|[Hne Hq]]%lookup_insert_Some; rewrite taken_insert by done; cbn.
    + rewrite decide_True by done. specialize (Hs _ _ Hr). lia.
    + rewrite decide_False by done. by apply Hs.
  - intros i pm Hi. apply lookup_insert_is_Some'. apply lookup_insert_Some in Hi as [[<- <-]|[_ Hi]]; [by left|eauto].
Qed.

(** *** Permits of the whole system *)

Definition unheld (s : system) (pid : nat) : Prop := forall o p, holds s o <> Some (p, Some pid).

Lemma table_alter_ok s pid f :
  consistent s -> (forall pm, pm_path (f pm) = pm_path pm) -> ((forall pm, pm_owner (f pm) = pm_owner pm) \/ unheld s pid) ->
  consistent (set_table (alter f pid) s).
Proof.
  intros (Hr & Hp & Ho & Hu & Hc & Ht & Hn) Hf Hk. split_and!; [done|by apply permits_table| |split_and!; [done|done| |done]]; cbn.
  - intros o p i Hi. destruct (Ho o p i Hi) as [rq Hrq]. destruct (decide (pid = i)) as [->|]; [|rewrite lookup_alter_ne; eauto].
    destruct Hk as [Hk|Hk]; [|by destruct (Hk o p)]. rewrite lookup_alter_eq, Hrq. cbn.
    specialize (Hf (Permit p (Some o) rq)). specialize (Hk (Permit p (Some o) rq)).
    destruct (f _) as [a b c]; cbn in *; subst; eauto.
  - intros i Hi%lookup_alter_is_Some. eauto.
Qed.

Lemma settle_ok s pid : consistent s -> consistent (settle pid s).
Proof.
  intros Hs. unfold settle. destruct (table s !! pid) as [pm|] eqn:Hpm; [|done].
  destruct (bool_decide _ && _) eqn:Hb; [|done]. apply andb_true_iff in Hb as [Hb _]. apply bool_decide_eq_true in Hb.
  destruct Hs as (Hr & Hp & Ho & Hu & Hc & Ht & Hn). split_and!; [by apply registries_same|by apply permits_release| |split_and!; [done|done| |done]]; cbn.
  - intros o p i Hi. destruct (Ho o p i Hi) as [rq Hrq]. rewrite lookup_delete_ne; [eauto|]. intros ->.
    rewrite Hpm in Hrq. injection Hrq as ->. done.
  - intros i [? [_ Hi]%lookup_delete_Some]. eauto.
Qed.

Lemma drop_owner_ok s pid : consistent s -> unheld s pid -> consistent (drop_owner (Some pid) s).
Proof. intros Hs Hu. apply settle_ok, table_alter_ok; auto. Qed.

(** The workers of a service. *)
Definition ws (s : system) (p : string) : list (nat * bool) := default [] (workers <$> active_workers s !! p).

(** What an operation on permits and notifications leaves alone. *)
Definition frame (s s' : system) : Prop :=
  tasks s' = tasks s /\ created s' = created s /\ used_keys s' = used_keys s /\ raised s' = raised s.

Lemma ws_alter s p f q : ws (set_active (alter f p) s) q = if decide (p = q) then default [] ((fun r => workers (f r)) <$> active_workers s !! q) else ws s q.
Proof. unfold ws; cbn. case_decide; [subst; rewrite lookup_alter_eq; by destruct (_ !! _)|by rewrite lookup_alter_ne]. Qed.

Lemma ws_alter_same s p f q : (forall r, workers (f r) = workers r) -> ws (set_active (alter f p) s) q = ws s q.
Proof. intros Hf. rewrite ws_alter. case_decide; [|done]. unfold ws. destruct (_ !! q); [cbn; auto|done]. Qed.

Lemma drop_owner_frame s p :
  frame s (drop_owner p s) /\ user_workers (drop_owner p s) = user_workers s /\ (forall q, ws (drop_owner p s) q = ws s q).
Proof.
  destruct p as [pid|]; [|done]. unfold drop_owner, settle. destruct (table _ !! pid) as [pm|]; [|done].
  destruct (bool_decide _ && _); [|done]. split_and!; [done..|]. intros q. rewrite ws_alter_same by done. done.
Qed.

Lemma drop_owner_active s p q : is_Some (active_workers (drop_owner p s) !! q) <-> is_Some (active_workers s !! q).
Proof.
  destruct p as [pid|]; [|done]. unfold drop_owner, settle. destruct (table _ !! pid) as [pm|]; [|done].
  destruct (bool_decide _ && _); [|done]. cbn. by rewrite lookup_alter_is_Some.
Qed.

(** A profile that gives its permit away. *)
Lemma give_up_ok s k p pm :
  consistent s -> user_workers s !! k = Some (Profile p pm) ->
  consistent (drop_owner pm (set_users <[k := Profile p None]> s)).
Proof.
  intros Hs Hk. assert (consistent (set_users <[k := Profile p None]> s)) as Hs'.
  { destruct Hs as (Hr & Hp & Ho & Hu & Hc & Ht & Hn). split_and!; [by eapply registries_permit|done| |split_and!; [|done|done|]]; cbn.
    - intros o q i Hi. apply Ho. destruct o as [| |j]; [done..|]. cbn in *. destruct (decide (k = j)) as [->|Hne].
      + by rewrite lookup_insert_eq in Hi.
      + by rewrite lookup_insert_ne in Hi.
    - intros j. rewrite lookup_insert_is_Some'. intros [<-|Hj]; eauto.
    - by rewrite map_size_insert_Some by eauto. }
  destruct pm as [pid|]; [|done]. apply drop_owner_ok; [done|]. intros o q Ho.
  assert (o <> OProfile k) as Hne by (intros ->; cbn in Ho; by rewrite lookup_insert_eq in Ho).
  assert (holds s o = Some (q, Some pid)) as Ho'.
  { destruct o as [| |j]; [done..|]. cbn in *. by rewrite lookup_insert_ne in Ho by congruence. }
  destruct Hs as (_ & _ & Hown & _). destruct (Hown _ _ _ Ho') as [rq Hrq].
  destruct (Hown (OProfile k) p pid) as [rq' Hrq']; [cbn; by rewrite Hk|]. congruence.
Qed.

(** *** Retiring and finding workers *)

(** A change of one registry that keeps its permits. *)
Lemma set_active_ok s f :
  consistent s -> registries_ok (user_workers s) (f (active_workers s)) -> permits_ok (f (active_workers s)) (table s) ->
  consistent (set_active f s).
Proof. intros (_ & _ & Ho & Hk) Hr Hp. by split_and!. Qed.

Lemma alter_active_ok s p f :
  consistent s -> (forall r, workers (f r) = workers r) -> (forall r, permits (f r) = permits r) ->
  consistent (set_active (alter f p) s).
Proof. intros Hs Hw Hn. apply set_active_ok; [done|apply registries_same; [apply Hs|done]|apply permits_same; [done|apply Hs]]. Qed.

Lemma ws_elem s p k m : (k, m) ∈ ws s p -> exists r, active_workers s !! p = Some r /\ (k, m) ∈ workers r.
Proof. unfold ws. destruct (_ !! p) as [r|]; cbn; [eauto|by intros ?%elem_of_nil]. Qed.

Lemma ws_profile s p k m : consistent s -> (k, m) ∈ ws s p -> exists pm, user_workers s !! k = Some (Profile p pm).
Proof. intros ((_ & Hin & _) & _) (r & Hr & Hk)%ws_elem. by apply (Hin _ r _ m). Qed.

Lemma remove_worker_id k l : k ∉ l.*1 -> remove_worker k l = l.
Proof.
  induction l as [|[a b] l IH]; [done|]. cbn. intros [Hne Hl]%not_elem_of_cons.
  rewrite bool_decide_eq_false_2 by congruence. cbn. f_equal. auto.
Qed.

Lemma keys_elem (k : nat) (l : list (nat * bool)) : k ∈ l.*1 <-> exists m, (k, m) ∈ l.
Proof.
  rewrite list_elem_of_fmap. split; [intros ([a b] & -> & H); eauto|]. intros [m H]. by exists (k, m).
Qed.

(** Only the service of a worker lists it. *)
Lemma ws_remove_other s k p pm q : consistent s -> user_workers s !! k = Some (Profile p pm) -> p <> q -> remove_worker k (ws s q) = ws s q.
Proof.
  intros Hs Hk Hne. apply remove_worker_id. rewrite keys_elem. intros [m Hm].
  destruct (ws_profile _ _ _ _ Hs Hm) as [x Hx]. congruence.
Qed.

Definition retired (k : nat) (s s' : system) : Prop :=
  frame s s' /\ (forall q, ws s' q = remove_worker k (ws s q)) /\
  (forall j, j <> k -> user_workers s' !! j = user_workers s !! j) /\
  (user_workers s' !! k = (fun pr => Profile (service_path pr) None) <$> user_workers s !! k) /\
  (forall q, is_Some (active_workers s !! q) -> is_Some (active_workers s' !! q)).

Lemma ws_unknown s k q : consistent s -> user_workers s !! k = None -> remove_worker k (ws s q) = ws s q.
Proof.
  intros Hs Hk. apply remove_worker_id. rewrite keys_elem. intros [m Hm].
  destruct (ws_profile _ _ _ _ Hs Hm) as [x Hx]. congruence.
Qed.

Lemma remove_ok s p k (f := fun r => set_workers (remove_worker k (workers r)) r) :
  consistent s ->
  consistent (set_active (alter f p) s) /\
  (forall q, ws (set_active (alter f p) s) q = if decide (p = q) then remove_worker k (ws s q) else ws s q).
Proof.
  intros Hs. split.
  - apply set_active_ok; [done|apply registries_remove, Hs|apply permits_same; [done|apply Hs]].
  - intros q. rewrite ws_alter. case_decide; [|done]. unfold ws. by destruct (_ !! q).
Qed.

Lemma retire_ok k s : consistent s -> exists s', retire k s = Ok s' /\ consistent s' /\ retired k s s'.
Proof.
  intros Hs. unfold retire. destruct (user_workers s !! k) as [[p pm]|] eqn:Hk; cbn [service_path profile_permit].
  2: { exists s. split_and!; [done..|]. split_and!; [done| |done|by rewrite Hk|done]. intros q. by rewrite ws_unknown. }
  destruct (proj2 (proj2 (proj1 Hs)) _ _ Hk) as [r0 Hr0]. cbn in Hr0. rewrite Hr0.
  pose proof (give_up_ok _ _ _ _ Hs Hk) as Hs1. set (s1 := drop_owner pm _) in *.
  destruct (drop_owner_frame (set_users <[k := Profile p None]> s) pm) as (Hf & Hu & Hw). fold s1 in Hf, Hu, Hw.
  set (n := replicate _ None).
  pose proof (alter_active_ok s1 p (send_notify n) Hs1 (fun _ => eq_refl) (fun _ => eq_refl)) as Hs2.
  assert (forall q, ws (set_active (alter (send_notify n) p) s1) q = ws s q) as Hw2.
  { intros q. rewrite ws_alter_same by done. rewrite Hw. done. }
  set (s2 := set_active _ s1) in *.
  assert (frame s s2 /\ user_workers s2 = <[k := Profile p None]> (user_workers s)) as [Hf2 Hu2] by done.
  assert (forall q, is_Some (active_workers s !! q) -> is_Some (active_workers s2 !! q)) as Ha2.
  { intros q Hq. subst s2. cbn. apply lookup_alter_is_Some. subst s1. by apply drop_owner_active. }
  destruct (Ha2 p (mk_is_Some _ _ Hr0)) as [r2 Hr2]. rewrite Hr2.
  assert (ws s2 p = workers r2) as Hwr by (unfold ws; by rewrite Hr2).
  assert (forall s', user_workers s' = user_workers s2 -> (forall q, ws s' q = remove_worker k (ws s q)) -> frame s s' ->
     (forall q, is_Some (active_workers s !! q) -> is_Some (active_workers s' !! q)) -> retired k s s') as Hdone.
  { intros s' Hu' Hw' Hf' Ha'. split_and!; [done|done| | |done].
    - intros j Hj. by rewrite Hu', Hu2, lookup_insert_ne.
    - by rewrite Hu', Hu2, lookup_insert_eq, Hk. }
  case_bool_decide as Hin; eexists; (split; [reflexivity|]).
  - rewrite (set_active_insert s2 p r2 (fun r => set_workers (remove_worker k (workers r)) r) Hr2).
    destruct (remove_ok s2 p k Hs2) as [Hs3 Hw3]. split; [exact Hs3|]. apply Hdone; [done| |done|].
    + intros q. etransitivity; [apply Hw3|]. rewrite Hw2. case_decide; [done|]. symmetry. by eapply ws_remove_other.
    + intros q Hq. cbn. apply lookup_alter_is_Some. auto.
  - split; [done|]. apply Hdone; [done| |done|done]. intros q. rewrite Hw2. symmetry.
    destruct (decide (p = q)) as [<-|Hne]; [apply remove_worker_id; by rewrite <- (Hw2 p), Hwr|by eapply ws_remove_other].
Qed.

(** What a search for an active worker does to the marks and the profiles. *)
Definition searched (p : string) (s s' : system) (found : option nat) : Prop :=
  frame s s' /\
  (forall q k m, (k, m) ∈ ws s' q -> user_workers s' !! k = user_workers s !! k /\ (exists m', (k, m') ∈ ws s q) /\ (m = true -> (k, true) ∈ ws s q)) /\
  (forall k, is_Some (user_workers s' !! k) <-> is_Some (user_workers s !! k)) /\
  (forall q, is_Some (active_workers s !! q) -> is_Some (active_workers s' !! q)) /\
  match found with
  | Some k => (k, true) ∈ ws s p /\ (k ∉ raised s) /\ (policy <> PerWorker -> forall q, ~ (k, true) ∈ ws s' q)
  | None => True
  end.

Lemma mark_used_ok s p r r' found :
  consistent s -> active_workers s !! p = Some r -> mark_used_and_try_advance policy r = (r', found) ->
  consistent (set_active <[p := r']> s).
Proof.
  intros Hs Hr Hm. assert (r' = fst (mark_used_and_try_advance policy r)) as -> by (by rewrite Hm).
  rewrite (set_active_insert s p r (fun r => fst (mark_used_and_try_advance policy r)) Hr).
  assert (forall x, let y := fst (mark_used_and_try_advance policy x) in
    permits y = permits x /\ (workers y).*1 = (workers x).*1 /\ (policy = PerWorker -> workers y = workers x)) as Hx.
  { intros x. destruct (mark_used_and_try_advance policy x) as [y fnd] eqn:Hy. destruct (mark_used_spec _ _ _ _ Hy) as (_ & Hn & Hw).
    cbn. split; [done|]. destruct fnd as [k|]; [|by rewrite Hw]. destruct Hw as [_ ->].
    destruct policy; cbn; [done|]. by rewrite replace_mark_keys. }
  apply set_active_ok; [done| |apply permits_same; [apply Hx|apply Hs]].
  apply registries_marks; [apply Hs|apply Hx|intros Hp x; by apply Hx].
Qed.

Lemma ws_insert s p r q : ws (set_active <[p := r]> s) q = if decide (p = q) then workers r else ws s q.
Proof. unfold ws; cbn. case_decide; [subst; by rewrite lookup_insert_eq|by rewrite lookup_insert_ne]. Qed.

Lemma mark_used_searched s p r r' found (s' := set_active <[p := r']> s) :
  consistent s -> active_workers s !! p = Some r -> mark_used_and_try_advance policy r = (r', found) ->
  (forall q k m, (k, m) ∈ ws s' q -> (exists m', (k, m') ∈ ws s q) /\ (m = true -> (k, true) ∈ ws s q)) /\
  (forall k, found = Some k -> (k, true) ∈ ws s p /\ (policy <> PerWorker -> forall q, ~ (k, true) ∈ ws s' q)).
Proof.
  intros Hs Hr Hm. destruct (mark_used_spec _ _ _ _ Hm) as (_ & _ & Hw).
  assert (ws s p = workers r) as Hp by (unfold ws; by rewrite Hr). split.
  - intros q k m Hk. unfold s' in Hk. rewrite ws_insert in Hk. case_decide; [subst q|split; [eauto|by intros <-]]. rewrite Hp.
    destruct found as [j|]; [|rewrite Hw in Hk; split; [eauto|by intros <-]]. destruct Hw as [Hj Hw]. rewrite Hw in Hk.
    destruct (is_per_worker policy); [split; [eauto|by intros <-]|].
    apply replace_mark_elem in Hk as [(-> & -> & _)|[_ ?]]; split; [eauto|done|eauto|by intros <-].
  - intros k ->. destruct Hw as [Hk Hw]. rewrite Hp. split; [done|]. intros Hpol q Hq. unfold s' in Hq. rewrite ws_insert in Hq.
    case_decide as Hpq.
    + rewrite Hw in Hq. destruct policy; [done|]. cbn in Hq. by apply replace_mark_elem in Hq as [(_ & ? & _)|[? _]].
    + rewrite <- Hp in Hk. destruct (ws_profile _ _ _ _ Hs Hk) as [x Hx]. destruct (ws_profile _ _ _ _ Hs Hq) as [y Hy]. congruence.
Qed.

Lemma remove_worker_shorter k m l : (k, m) ∈ l -> length (remove_worker k l) < length l.
Proof.
  unfold remove_worker. induction l as [|[a b] l IH]; [by intros ?%elem_of_nil|]. intros [Heq|Hl]%elem_of_cons; cbn.
  - injection Heq as <- <-. rewrite bool_decide_eq_true_2 by done. cbn. pose proof (filter_length_le (fun w => negb (bool_decide (fst w = k))) l). lia.
  - specialize (IH Hl). destruct (negb _); cbn; lia.
Qed.

Lemma replace_mark_length k m l : length (replace_mark k m l) = length l.
Proof. apply length_fmap. Qed.

Lemma mark_used_length r r' found : mark_used_and_try_advance policy r = (r', found) -> length (workers r') = length (workers r).
Proof.
  intros Hm. destruct (mark_used_spec _ _ _ _ Hm) as (_ & _ & Hw). destruct found as [k|]; [|by rewrite Hw]. destruct Hw as [_ ->].
  destruct (is_per_worker policy); [done|apply replace_mark_length].
Qed.

Lemma searched_retire p s s1 s2 s3 k found :
  frame s s1 -> user_workers s1 = user_workers s ->
  (forall q j m, (j, m) ∈ ws s1 q -> (exists m', (j, m') ∈ ws s q) /\ (m = true -> (j, true) ∈ ws s q)) ->
  (forall q, is_Some (active_workers s !! q) -> is_Some (active_workers s1 !! q)) ->
  retired k s1 s2 -> searched p s2 s3 found -> searched p s s3 found.
Proof.
  intros (Ht & Hc & Hu & Hr) Husers Hm Ha ((Ht' & Hc' & Hu' & Hr') & Hw & Hj & Hk & Ha') ((Ht3 & Hc3 & Hu3 & Hr3) & Hm3 & Hs3 & Ha3 & Hf).
  assert (forall q j m, (j, m) ∈ ws s2 q -> j <> k /\ (j, m) ∈ ws s1 q) as Hback by (intros q j m; rewrite Hw; apply remove_worker_elem).
  split_and!; [split_and!; congruence| | |eauto|].
  - intros q j m Hin. destruct (Hm3 _ _ _ Hin) as (He & [m' Hm'] & Hmt). destruct (Hback _ _ _ Hm') as [Hne Hin1].
    split_and!; [by rewrite He, Hj, Husers|by apply (Hm _ _ m')|].
    intros Hmt'. destruct (Hback _ _ _ (Hmt Hmt')) as [_ Hb]. by apply (Hm _ _ _ Hb).
  - intros j. rewrite Hs3. destruct (decide (j = k)) as [->|]; [rewrite Hk, fmap_is_Some|rewrite Hj by done]; by rewrite Husers.
  - destruct found as [j|]; [|done]. destruct Hf as (Hin & Hnr & Hex). destruct (Hback _ _ _ Hin) as [_ Hb].
    split_and!; [by apply (Hm _ _ _ Hb)|congruence|done].
Qed.

Lemma searched_refl p s : searched p s s None.
Proof. split_and!; [done| |done|done|done]. intros q k m Hk. split_and!; [done|eauto|by intros <-]. Qed.

(** One round of the search. *)
Lemma round_ok s p r r' found (s1 := set_active <[p := r']> s) :
  consistent s -> active_workers s !! p = Some r -> mark_used_and_try_advance policy r = (r', found) ->
  consistent s1 /\
  match found with
  | None => searched p s s1 None
  | Some k =>
      (k ∉ raised s -> searched p s s1 (Some k)) /\
      exists s2, retire k s1 = Ok s2 /\ consistent s2 /\ length (ws s2 p) < length (ws s p) /\
        forall s3 fnd, searched p s2 s3 fnd -> searched p s s3 fnd
  end.
Proof.
  intros Hs Hr Hm. pose proof (mark_used_ok _ _ _ _ _ Hs Hr Hm) as Hs1. split; [done|].
  destruct (mark_used_searched _ _ _ _ _ Hs Hr Hm) as [Hmark Hfound]. fold s1 in Hs1, Hmark, Hfound.
  assert (forall q, is_Some (active_workers s !! q) -> is_Some (active_workers s1 !! q)) as Ha by (intros q Hq; apply lookup_insert_is_Some'; eauto).
  assert (forall q k m, (k, m) ∈ ws s1 q -> user_workers s1 !! k = user_workers s !! k /\ (exists m', (k, m') ∈ ws s q) /\ (m = true -> (k, true) ∈ ws s q)) as Hsame
    by (intros q j m Hj; split; [done|by apply Hmark]).
  destruct found as [k|]; [|by split_and!].
  - destruct (Hfound k eq_refl) as [Hk Hex]. split; [intros Hnr; by split_and!|].
    destruct (retire_ok k s1 Hs1) as (s2 & Hret & Hs2 & Hrd). exists s2. split_and!; [done|done| |].
    + destruct Hrd as (_ & Hw & _). rewrite Hw.
      assert (length (ws s1 p) = length (ws s p)) as <-.
      { unfold s1. rewrite ws_insert, decide_True by done. rewrite (mark_used_length _ _ _ Hm). unfold ws. by rewrite Hr. }
      assert (exists m, (k, m) ∈ ws s1 p) as [m Hkm]; [|by eapply remove_worker_shorter].
      destruct (mark_used_spec _ _ _ _ Hm) as (_ & _ & Hin & Hw'). unfold s1. rewrite ws_insert, decide_True, Hw' by done.
      destruct (is_per_worker policy); [eauto|]. exists false. apply replace_mark_elem. left. split_and!; [done..|]. apply keys_elem. eauto.
    + intros s3 fnd. by apply searched_retire with (s1 := s1) (k := k).
Qed.

(** The search ends, never fails, and finds a worker that is up and not retired. *)
Lemma maybe_active_worker_ok fuel p s :
  consistent s -> length (ws s p) <= fuel ->
  exists s' found, maybe_active_worker policy fuel p s = Ok (s', found) /\ consistent s' /\ searched p s s' found.
Proof.
  revert s. induction fuel as [|fuel IH]; intros s Hs Hlen; cbn [maybe_active_worker].
  all: destruct (active_workers s !! p) as [r|] eqn:Hr; [|exists s, None; split_and!; [done|done|apply searched_refl]].
  all: destruct (mark_used_and_try_advance policy r) as [r' found] eqn:Hm.
  all: destruct (round_ok _ _ _ _ _ Hs Hr Hm) as [Hs1 Hround].
  all: destruct found as [k|]; [|eexists _, None; split_and!; [reflexivity|done|done]].
  all: destruct Hround as (Hup & s2 & Hret & Hs2 & Hlt & Hnext).
  all: destruct (bool_decide _ && bool_decide _) eqn:Hb; [apply andb_true_iff in Hb as [_ Hb]; apply bool_decide_eq_true in Hb; by eexists _, (Some k); split_and!; [reflexivity|exact Hs1|exact (Hup Hb)]|].
  all: rewrite Hret; cbn.
  - exfalso. lia.
  - destruct (IH s2 Hs2 ltac:(lia)) as (s' & fnd & He & Hs' & Hsr). exists s', fnd. split_and!; [done|done|auto].
Qed.

(** *** Steps *)

(** No worker was created by force: every worker has a permit. *)
Definition unforced (s : system) : Prop :=
  (forall t tk, tasks s !! t = Some tk -> task_force tk = false /\ task_stage tk <> Creating None) /\
  (forall k pr, created s !! k = Some pr -> profile_permit pr <> None) /\
  (forall q k m, (k, m) ∈ ws s q -> exists pid, user_workers s !! k = Some (Profile q (Some pid))).

Definition force_label (l : label) : bool := match l with Create _ _ conf => default false (force_create policy conf) | _ => false end.

Definition effect (s : system) (l : label) (s' : system) (rep : reply) : Prop :=
  (forall q k, (k, true) ∈ ws s' q -> (k, true) ∈ ws s q \/ policy = PerWorker \/ l = Idle k) /\
  used_keys s ⊆ used_keys s' /\
  (unforced s -> force_label l = false -> unforced s') /\
  (forall k, is_Some (user_workers s !! k) -> l = Shutdown k \/ is_Some (user_workers s' !! k)) /\
  match rep with
  | Worker t k =>
      k ∈ used_keys s' /\ (policy <> PerWorker -> forall q, ~ (k, true) ∈ ws s' q) /\
      match l with
      | Create t' p _ => t = t' /\ (k, true) ∈ ws s p /\ (k ∉ raised s)
      | Boot t' k' => t = t' /\ k = k' /\ (k ∉ used_keys s)
      | _ => False
      end
  | _ => True
  end.

(** Steps that leave the workers of every service and their profiles alone. *)
Lemma quiet_effect s l s' rep :
  (forall q, ws s' q = ws s q) -> user_workers s' = user_workers s -> created s' = created s -> used_keys s' = used_keys s ->
  (forall t tk, tasks s' !! t = Some tk -> tasks s !! t = Some tk \/ (unforced s -> force_label l = false -> task_force tk = false /\ task_stage tk <> Creating None)) ->
  (forall t k, rep <> Worker t k) -> effect s l s' rep.
Proof.
  intros Hw Hu Hc Hk Ht Hrep. split_and!; [intros q k; rewrite Hw; by left|by rewrite Hk| |rewrite Hu; by right|by destruct rep; [|destruct (Hrep t k)|..]].
  intros Hs Hf. split_and!.
  - intros t tk Htk. destruct (Ht _ _ Htk) as [H|H]; [by apply (proj1 Hs) in H|auto].
  - rewrite Hc. apply Hs.
  - intros q k m. rewrite Hw, Hu. apply Hs.
Qed.

Lemma set_tasks_ok s f :
  consistent s -> (forall t p pid, holds (set_tasks f s) (OTask t) = Some (p, Some pid) -> exists rq, table s !! pid = Some (Permit p (Some (OTask t)) rq)) ->
  consistent (set_tasks f s).
Proof. intros (Hr & Hp & Ho & Hk) Ht. split_and!; [done|done| |done]. intros [t|k|k]; [apply Ht|apply (Ho (OMessage k))|apply (Ho (OProfile k))]. Qed.

Lemma delete_task_ok s t : consistent s -> consistent (set_tasks (delete t) s).
Proof.
  intros Hs. apply set_tasks_ok; [done|]. intros t' p pid. cbn. destruct (decide (t = t')) as [->|]; [by rewrite lookup_delete_eq|].
  rewrite lookup_delete_ne by done. apply (proj1 (proj2 (proj2 Hs)) (OTask t')).
Qed.

Lemma set_task_ok s t tk :
  consistent s -> (forall pid, task_stage tk = Creating (Some pid) -> exists rq, table s !! pid = Some (Permit (task_path tk) (Some (OTask t)) rq)) ->
  consistent (set_tasks <[t := tk]> s).
Proof.
  intros Hs Htk. apply set_tasks_ok; [done|]. intros t' p pid. cbn. destruct (decide (t = t')) as [->|].
  - rewrite lookup_insert_eq. destruct tk as [pt f []]; try done. cbn in *. intros [= -> ->]. eauto.
  - rewrite lookup_insert_ne by done. apply (proj1 (proj2 (proj2 Hs)) (OTask t')).
Qed.

(** A permit that is acquired is new. *)
Lemma try_acquire_ok t p s s' pid :
  consistent s -> try_acquire t p s = Some (s', pid) ->
  consistent s' /\ table s' !! pid = Some (Permit p (Some (OTask t)) ∅) /\ frame s s' /\ user_workers s' = user_workers s /\ (forall q, ws s' q = ws s q).
Proof.
  unfold try_acquire. intros Hs. destruct (active_workers s !! p) as [r|] eqn:Hr; [|done]. destruct (permits r) as [|n] eqn:Hn; [done|].
  intros [= <- <-]. destruct Hs as (Hreg & Hp & Ho & Hu & Hc & Ht & Hcount).
  assert (table s !! used_permits s = None) as Hnew.
  { destruct (table s !! used_permits s) eqn:He; [|done]. specialize (Ht _ (mk_is_Some _ _ He)). lia. }
  assert (forall q, ws (set_active <[p := set_permits n r]> s) q = ws s q) as Hws.
  { intros q. rewrite ws_insert. case_decide; [subst q|done]. unfold ws. by rewrite Hr. }
  split_and!; [|cbn; apply lookup_insert_eq|done|done|exact Hws].
  split_and!; [|by apply permits_acquire| |split_and!; [done|done| |done]]; cbn.
  - change (<[p := set_permits n r]> (active_workers s)) with (active_workers (set_active <[p := set_permits n r]> s)).
    rewrite (set_active_insert s p r (set_permits n) Hr). by apply registries_same.
  - intros o q i Hi. destruct (Ho o q i Hi) as [rq Hrq]. rewrite lookup_insert_ne; [eauto|congruence].
  - intros i. rewrite lookup_insert_is_Some'. intros [<-|Hi]; [lia|]. specialize (Ht _ Hi). lia.
Qed.

(** A task that gets a permit, or changes its stage without one. *)
Lemma set_stage_step s l t tk st :
  consistent s -> tasks s !! t = Some tk -> (forall pid, st <> Creating (Some pid)) -> (st = Creating None -> task_force tk = true) ->
  consistent (set_stage t tk st s) /\ effect s l (set_stage t tk st s) NoReply.
Proof.
  intros Hs Ht Hst Hforce. split; [apply set_task_ok; [done|]; cbn; intros pid Hp; by destruct (Hst pid)|].
  apply quiet_effect; try done. cbn. intros t' tk' [[<- <-]|[_ H]]%lookup_insert_Some; [right|by left].
  intros Hun _. destruct (proj1 Hun _ _ Ht) as [Hf _]. cbn. split; [done|]. intros ->. rewrite Hforce in Hf; done.
Qed.

Lemma acquire_step s l t tk s1 pid :
  consistent s -> tasks s !! t = Some tk -> try_acquire t (task_path tk) s = Some (s1, pid) ->
  consistent (set_stage t tk (Creating (Some pid)) s1) /\ effect s l (set_stage t tk (Creating (Some pid)) s1) NoReply.
Proof.
  intros Hs Ht Ha. destruct (try_acquire_ok _ _ _ _ _ Hs Ha) as (Hs1 & Hpid & (Htk & Hcr & Huk & _) & Hu & Hw).
  split; [apply set_task_ok; [done|]; cbn; intros i [= <-]; eauto|].
  apply quiet_effect; try done. cbn. rewrite Htk. intros t' tk' [[<- <-]|[_ H]]%lookup_insert_Some; [right|by left].
  intros Hun _. by destruct (proj1 Hun _ _ Ht) as [Hf _].
Qed.

Lemma run_fence_step s l t tk : consistent s -> tasks s !! t = Some tk -> consistent (run_fence t tk s) /\ effect s l (run_fence t tk s) NoReply.
Proof.
  intros Hs Ht. unfold run_fence. destruct (try_acquire t (task_path tk) s) as [[s1 pid]|] eqn:Ha; [by apply acquire_step|].
  apply set_stage_step; [done|done|by destruct (task_force tk)|]. by destruct (task_force tk).
Qed.

(** An effect does not see a change of the channel. *)
Lemma effect_frame s s0 l s' rep :
  (forall q, ws s0 q = ws s q) -> user_workers s0 = user_workers s -> frame s s0 -> effect s0 l s' rep -> effect s l s' rep.
Proof.
  intros Hw Hu (Ht & Hc & Hk & Hr) (E1 & E2 & E3 & E5 & E4). split_and!; [|by rewrite <- Hk| |by rewrite <- Hu|].
  - intros q k Hq. rewrite <- Hw. eauto.
  - intros (U1 & U2 & U3). apply E3. split_and!; [by rewrite Ht|by rewrite Hc|]. intros q k m. rewrite Hw, Hu. apply U3.
  - destruct rep as [|t k| |]; [done| |done..]. rewrite <- Hr, <- Hk. destruct E4 as (? & ? & E4). split_and!; [done..|].
    destruct l; try done. by rewrite <- Hw.
Qed.

Lemma receive_step s l t tk m : consistent s -> tasks s !! t = Some tk -> consistent (receive t tk m s) /\ effect s l (receive t tk m s) NoReply.
Proof.
  intros Hs Ht. destruct m as [k|]; cbn; [by apply set_stage_step|].
  destruct (try_acquire t (task_path tk) s) as [[s1 pid]|] eqn:Ha; [by apply acquire_step|].
  split; [done|]. apply quiet_effect; try done. by left.
Qed.

(** A permit that loses its task has no owner. *)
Lemma task_unheld s t p f pid :
  consistent s -> tasks s !! t = Some (Task p f (Creating (Some pid))) -> unheld (set_tasks (delete t) s) pid.
Proof.
  intros Hs Ht o q Ho. destruct Hs as (_ & _ & Hown & _).
  assert (o <> OTask t) as Hne by (intros ->; cbn in Ho; by rewrite lookup_delete_eq in Ho).
  assert (holds s o = Some (q, Some pid)) as Ho' by (destruct o as [t'| |]; [cbn in *; by rewrite lookup_delete_ne in Ho by congruence|done..]).
  destruct (Hown _ _ _ Ho') as [rq Hrq]. destruct (Hown (OTask t) p pid) as [rq' Hrq']; [cbn; by rewrite Ht|]. congruence.
Qed.

Lemma message_unheld s k p pid :
  consistent s -> created s !! k = Some (Profile p (Some pid)) -> unheld (set_created (delete k) s) pid.
Proof.
  intros Hs Hk o q Ho. destruct Hs as (_ & _ & Hown & _).
  assert (o <> OMessage k) as Hne by (intros ->; cbn in Ho; by rewrite lookup_delete_eq in Ho).
  assert (holds s o = Some (q, Some pid)) as Ho' by (destruct o as [|k'|]; [done|cbn in *; by rewrite lookup_delete_ne in Ho by congruence|done]).
  destruct (Hown _ _ _ Ho') as [rq Hrq]. destruct (Hown (OMessage k) p pid) as [rq' Hrq']; [cbn; by rewrite Hk|]. congruence.
Qed.

Lemma boot_fail_step s l t p f pm rep :
  consistent s -> tasks s !! t = Some (Task p f (Creating pm)) -> (forall t' k, rep <> Worker t' k) ->
  consistent (drop_owner pm (set_tasks (delete t) s)) /\ effect s l (drop_owner pm (set_tasks (delete t) s)) rep.
Proof.
  intros Hs Ht Hrep. pose proof (delete_task_ok s t Hs) as Hs1. destruct (drop_owner_frame (set_tasks (delete t) s) pm) as ((Htk & Hcr & Huk & _) & Hu & Hw).
  split; [destruct pm as [pid|]; [apply drop_owner_ok; [done|by eapply task_unheld]|done]|].
  apply quiet_effect; try done. rewrite Htk. cbn. intros t' tk' [_ H]%lookup_delete_Some. by left.
Qed.

(** The owner of a permit that nobody holds is set. *)
Lemma give_ok s o pm : consistent s -> (forall pid, pm = Some pid -> unheld s pid) -> consistent (give o pm s).
Proof. intros Hs Hpm. destruct pm as [pid|]; [|done]. apply table_alter_ok; auto. Qed.

Lemma give_table s o p o' rq pid : table s !! pid = Some (Permit p o' rq) -> table (give o (Some pid) s) !! pid = Some (Permit p (Some o) rq).
Proof. intros H. cbn. by rewrite lookup_alter_eq, H. Qed.

Lemma give_same s o pm : user_workers (give o pm s) = user_workers s /\ frame s (give o pm s) /\ active_workers (give o pm s) = active_workers s.
Proof. by destruct pm. Qed.

Lemma unused_key s k : consistent s -> (k ∉ used_keys s) -> user_workers s !! k = None.
Proof.
  intros (_ & _ & _ & Hu & _) Hk. destruct (user_workers s !! k) eqn:He; [|done]. by destruct (Hu _ (mk_is_Some _ _ He)).
Qed.

Lemma boot_ok s t k p f pm :
  consistent s -> tasks s !! t = Some (Task p f (Creating pm)) -> (k ∉ used_keys s) -> consistent (boot t k (Task p f (Creating pm)) pm s).
Proof.
  intros Hs Ht Hk. pose proof (unused_key _ _ Hs Hk) as Hku.
  assert (consistent (give (OMessage k) pm (set_tasks (delete t) s))) as Hs2.
  { apply give_ok; [by apply delete_task_ok|]. intros pid ->. by eapply task_unheld. }
  assert (forall pid, pm = Some pid -> exists rq, table s !! pid = Some (Permit p (Some (OTask t)) rq)) as Htb.
  { intros pid ->. apply (proj1 (proj2 (proj2 Hs)) (OTask t)). cbn. by rewrite Ht. }
  destruct (give_same (set_tasks (delete t) s) (OMessage k) pm) as (Eu & _ & _).
  destruct Hs2 as (Hr & Hp & Ho & Hu & Hc & Hb & Hn). split_and!; [done|done| |split_and!; [| |done|done]]; cbn.
  - intros [t'|j|j] q pid; [apply (Ho (OTask t'))| |apply (Ho (OProfile j))]. cbn. destruct (decide (k = j)) as [->|].
    + rewrite lookup_insert_eq. cbn. intros [= -> ->]. destruct (Htb _ eq_refl) as [rq Hrq]. exists rq. by eapply give_table.
    + rewrite lookup_insert_ne by done. apply (Ho (OMessage j)).
  - intros j Hj. destruct (Hu j Hj) as [Hj1 Hj2]. split; [set_solver|]. rewrite lookup_insert_ne; [done|]. intros ->.
    rewrite Eu in Hj. cbn in Hj. rewrite Hku in Hj. by destruct Hj.
  - intros j. rewrite lookup_insert_is_Some'. intros [<-|Hj]; [set_solver|]. specialize (Hc j Hj). set_solver.
Qed.

Lemma boot_effect s t k p f pm (s' := boot t k (Task p f (Creating pm)) pm s) :
  consistent s -> tasks s !! t = Some (Task p f (Creating pm)) -> (k ∉ used_keys s) -> effect s (Boot t k) s' (Worker t k).
Proof.
  intros Hs Ht Hk. destruct (give_same (set_tasks (delete t) s) (OMessage k) pm) as (Eu & (Et & Ec & Ek & _) & Ea).
  assert (forall q, ws s' q = ws s q) as Hw by (intros q; unfold ws, s', boot; cbn; by rewrite Ea). split_and!.
  - intros q j. rewrite Hw. by left.
  - unfold s'. cbn. rewrite Ek. set_solver.
  - intros (U1 & U2 & U3) _. unfold s'. split_and!; cbn.
    + rewrite Et. cbn. intros t' tk' [_ H]%lookup_delete_Some. eauto.
    + rewrite Ec. intros j pr [[<- <-]|[_ H]]%lookup_insert_Some; [|by eapply U2]. cbn. destruct (U1 _ _ Ht) as [_ Hne]. cbn in Hne. congruence.
    + intros q j m. rewrite Eu. fold s'. rewrite Hw. apply U3.
  - intros j Hj. right. unfold s'. cbn. by rewrite Eu.
  - unfold s'. cbn. set_solver.
  - intros _ q. rewrite Hw. intros Hin. destruct (ws_profile _ _ _ _ Hs Hin) as [x Hx]. by rewrite unused_key in Hx.
  - done.
  - done.
  - done.
Qed.

Lemma ensure_registry_ok p s (s' := ensure_registry max_parallelism p s) :
  consistent s -> consistent s' /\ (forall q, ws s' q = ws s q) /\ frame s s' /\ user_workers s' = user_workers s /\ table s' = table s /\
  is_Some (active_workers s' !! p) /\ active_count s' = active_count s.
Proof.
  intros Hs. unfold s', ensure_registry. destruct (active_workers s !! p) eqn:He; [by split_and!; eauto|]. split_and!; try done.
  - apply set_active_ok; [done|apply registries_new; [apply Hs|done]|apply permits_new; [apply Hs|done]].
  - intros q. rewrite ws_insert. case_decide; [subst|done]. unfold ws. by rewrite He.
  - cbn. rewrite lookup_insert_eq. eauto.
Qed.

Lemma message_new s k pr : consistent s -> created s !! k = Some pr -> user_workers s !! k = None.
Proof.
  intros (_ & _ & _ & Hu & _) Hk. destruct (user_workers s !! k) eqn:He; [|done]. destruct (Hu _ (mk_is_Some _ _ He)). congruence.
Qed.

Section Place.
Context (place : list (nat * bool) -> nat * bool -> list (nat * bool)).
Hypothesis Hplace : forall l w, place l w ≡ₚ w :: l.

Lemma handle_created_ok s k p pm :
  consistent s -> created s !! k = Some (Profile p pm) ->
  consistent (handle_created policy max_parallelism place k (Profile p pm) s).
Proof.
  intros Hs Hk. assert (consistent (set_created (delete k) s)) as Hs1.
  { destruct Hs as (Hr & Hp & Ho & Hu & Hc & Hb & Hn). split_and!; [done|done| |split_and!; [| |done|done]]; cbn.
    - intros [t|j|j] q pid; [apply (Ho (OTask t))| |apply (Ho (OProfile j))]. cbn. destruct (decide (k = j)) as [->|]; [by rewrite lookup_delete_eq|].
      rewrite lookup_delete_ne by done. apply (Ho (OMessage j)).
    - intros j Hj. destruct (Hu j Hj) as [? Hj']. split; [done|]. by apply lookup_delete_None; right.
    - intros j [x [_ Hx]%lookup_delete_Some]. eauto. }
  pose proof (give_ok _ (OProfile k) pm Hs1) as Hs2. specialize (Hs2 ltac:(intros pid ->; by eapply message_unheld)).
  assert (forall pid, pm = Some pid -> exists rq, table s !! pid = Some (Permit p (Some (OMessage k)) rq)) as Htb.
  { intros pid ->. apply (proj1 (proj2 (proj2 Hs)) (OMessage k)). cbn. by rewrite Hk. }
  assert (user_workers s !! k = None /\ k ∈ used_keys s) as [Hnew Hused].
  { split; [by eapply message_new|]. destruct Hs as (_ & _ & _ & _ & Hc & _). eauto. }
  destruct (give_same (set_created (delete k) s) (OProfile k) pm) as (Eu & (_ & Ec & Ek & _) & _).
  unfold handle_created, add_user_worker. cbn [service_path profile_permit]. set (s2 := give _ _ _) in *.
  destruct (ensure_registry_ok p s2 Hs2) as (Hs3 & _ & (Et3 & Ec3 & Ek3 & _) & Eu3 & Eb3 & Ha3 & En3). set (s3 := ensure_registry _ p s2) in *.
  destruct Hs3 as (Hr & Hp & Ho & Hu & Hc & Hb & Hn). split_and!; [|by apply permits_same| |split_and!; [|done|done|]]; cbn.
  - apply registries_add; [done|done|by rewrite Eu3, Eu|done].
  - intros [t|j|j] q pid; [apply (Ho (OTask t))|apply (Ho (OMessage j))|]. cbn. destruct (decide (k = j)) as [->|].
    + rewrite lookup_insert_eq. cbn. intros [= -> ->]. destruct (Htb _ eq_refl) as [rq Hrq]. exists rq. rewrite Eb3. by eapply give_table.
    + rewrite lookup_insert_ne by done. apply (Ho (OProfile j)).
  - intros j. rewrite lookup_insert_is_Some'. intros [<-|Hj]; [|eauto]. rewrite Ek3, Ek, Ec3, Ec. cbn. by rewrite lookup_delete_eq.
  - rewrite map_size_insert_None by (by rewrite Eu3, Eu). by rewrite Hn.
Qed.

Lemma handle_created_effect s k p pm (s' := handle_created policy max_parallelism place k (Profile p pm) s) :
  consistent s -> created s !! k = Some (Profile p pm) -> effect s (Created k) s' NoReply.
Proof.
  intros Hs Hk. destruct (give_same (set_created (delete k) s) (OProfile k) pm) as (Eu & (Et & Ec & Ek & _) & Ea).
  set (s2 := give (OProfile k) pm (set_created (delete k) s)) in *.
  pose proof (message_new _ _ _ Hs Hk) as Hnew.
  assert (frame s2 (ensure_registry max_parallelism p s2) /\ user_workers (ensure_registry max_parallelism p s2) = user_workers s2 /\
     (forall q, ws (ensure_registry max_parallelism p s2) q = ws s2 q)) as ((Et3 & Ec3 & Ek3 & _) & Eu3 & Ew3).
  { unfold ensure_registry. destruct (active_workers s2 !! p) eqn:He; [done|]. split_and!; try done. intros q. rewrite ws_insert.
    case_decide; [subst|done]. unfold ws. by rewrite He. }
  assert (forall q, ws s2 q = ws s q) as Ew by (intros q; unfold ws; by rewrite Ea).
  assert (forall q j m, (j, m) ∈ ws s' q -> (j, m) ∈ ws s q \/ (j = k /\ q = p /\ m = is_per_worker policy)) as Hin.
  { intros q j m. unfold s', handle_created, add_user_worker. cbn [service_path profile_permit]. fold s2.
    set (s3 := ensure_registry _ p s2) in *. change (ws (set_metrics _ _ _) q) with (ws (set_active (alter (fun r => set_workers (insert_worker place (workers r) (k, is_per_worker policy)) r) p) s3) q).
    rewrite ws_alter. case_decide; [subst q|rewrite Ew3, Ew; by left]. rewrite <- Ew, <- Ew3. unfold ws. destruct (active_workers s3 !! p) as [r|]; [|by intros ?%elem_of_nil].
    cbn. unfold insert_worker. case_bool_decide; [by left|]. rewrite Hplace, elem_of_cons. intros [[= -> ->]|]; [by right|by left]. }
  assert (user_workers s' = <[k := Profile p pm]> (user_workers s)) as Hus.
  { unfold s', handle_created, add_user_worker. cbn. fold s2. by rewrite Eu3, Eu. }
  split_and!; [| | |intros j Hj; right; rewrite Hus; apply lookup_insert_is_Some'; by right|done].
  - intros q j Hj. apply Hin in Hj as [Hj|(_ & _ & Hj)]; [by left|]. right. left. by destruct policy.
  - unfold s'. cbn. fold s2. by rewrite Ek3, Ek.
  - intros (U1 & U2 & U3) _. split_and!.
    + unfold s'. cbn. fold s2. by rewrite Et3, Et.
    + unfold s'. cbn. fold s2. rewrite Ec3, Ec. cbn. intros j pr [_ H]%lookup_delete_Some. by eapply U2.
    + intros q j m Hj. rewrite Hus. apply Hin in Hj as [Hj|(-> & -> & _)].
      * destruct (U3 _ _ _ Hj) as [pid Hpid]. exists pid. rewrite lookup_insert_ne; [done|]. congruence.
      * rewrite lookup_insert_eq. specialize (U2 _ _ Hk). cbn in U2. destruct pm; [eauto|done].
Qed.

Lemma send_request_step s k rid l : consistent s -> consistent (send_request k rid s) /\ effect s l (send_request k rid s) NoReply.
Proof.
  intros Hs. unfold send_request. destruct (user_workers s !! k ≫= profile_permit) as [pid|].
  - split; [apply table_alter_ok; [done|done|by left]|]. apply quiet_effect; try done. by left.
  - split; [done|]. apply quiet_effect; try done. by left.
Qed.

Lemma settle_same pid s : frame s (settle pid s) /\ user_workers (settle pid s) = user_workers s /\ (forall q, ws (settle pid s) q = ws s q).
Proof.
  unfold settle. destruct (table s !! pid) as [pm|]; [|done]. destruct (bool_decide _ && _); [|done].
  split_and!; [done..|]. intros q. by rewrite ws_alter_same.
Qed.

Lemma drop_clone_step s pid rid l : consistent s -> consistent (drop_clone pid rid s) /\ effect s l (drop_clone pid rid s) NoReply.
Proof.
  intros Hs. unfold drop_clone. set (s1 := set_table _ s). destruct (settle_same pid s1) as ((Et & Ec & Ek & _) & Eu & Ew).
  split; [apply settle_ok, table_alter_ok; [done|done|by left]|]. apply quiet_effect; try done. rewrite Et. by left.
Qed.

Lemma find_worker_elem k l w : find_worker k l = Some w -> w ∈ l /\ fst w = k.
Proof.
  unfold find_worker. destruct (list_find _ l) as [[i x]|] eqn:He; [|done]. intros [= <-].
  apply list_find_Some in He as (Hl & Hk & _). split; [by eapply list_elem_of_lookup_2|done].
Qed.

Lemma mark_idle_spec k r :
  permits (mark_idle policy k r) = permits r /\ (workers (mark_idle policy k r)).*1 = (workers r).*1 /\
  (policy = PerWorker -> workers (mark_idle policy k r) = workers r) /\
  (forall j m, (j, m) ∈ workers (mark_idle policy k r) -> (j, m) ∈ workers r \/ j = k).
Proof.
  unfold mark_idle. destruct (find_worker k (workers r)) as [[k' mark]|] eqn:Hf; [|by split_and!; auto].
  destruct (find_worker_elem _ _ _ Hf) as [_ Hk]. cbn in Hk. subst k'. unfold is_per_request, is_per_worker.
  destruct policy as [|o]; cbn; [by split_and!; auto|]. destruct mark; cbn; [by split_and!; auto|].
  split_and!; [done|apply replace_mark_keys|done|]. intros j m [(-> & _ & _)|[_ ?]]%replace_mark_elem; auto.
Qed.

Lemma idle_step s k : consistent s -> consistent (idle policy k s) /\ effect s (Idle k) (idle policy k s) NoReply.
Proof.
  intros Hs. unfold idle. destruct (user_workers s !! k) as [[p pm]|] eqn:Hk; cbn [service_path].
  2: { split; [done|]. apply quiet_effect; try done. by left. }
  set (s' := set_active _ s).
  assert (forall q j m, (j, m) ∈ ws s' q -> (j, m) ∈ ws s q \/ (j = k /\ exists m', (j, m') ∈ ws s q)) as Hin.
  { intros q j m. unfold s'. rewrite ws_alter. case_decide; [subst q|by left]. unfold ws. destruct (active_workers s !! p) as [r|]; [|by intros ?%elem_of_nil].
    cbn. intros Hj. destruct (mark_idle_spec k r) as (_ & Hkeys & _ & Hel). destruct (Hel _ _ Hj) as [|He]; [by left|right; split; [done|]].
    apply keys_elem. rewrite <- Hkeys. apply keys_elem. eauto. }
  split.
  - apply set_active_ok; [done|apply registries_marks; [apply Hs|intros r; by apply mark_idle_spec|intros Hp r; by apply mark_idle_spec]|].
    apply permits_same; [intros r; by apply mark_idle_spec|apply Hs].
  - split_and!; [|done| |by right|done].
    + intros q j Hj. destruct (Hin _ _ _ Hj) as [|[-> _]]; auto.
    + intros (U1 & U2 & U3) _. split_and!; [done|done|]. intros q j m Hj. destruct (Hin _ _ _ Hj) as [|[_ [m' ?]]]; by eapply U3.
Qed.

Lemma delete_user_ok s k p :
  consistent s -> user_workers s !! k = Some (Profile p None) -> (forall q m, ~ (k, m) ∈ ws s q) ->
  consistent (set_metrics id pred (set_active (alter (send_notify [None]) p) (set_users (delete k) s))).
Proof.
  intros (Hr & Hp & Ho & Hu & Hc & Hb & Hn) Hk Hno. split_and!; [|by apply permits_same| |split_and!; [|done|done|]]; cbn.
  - apply registries_same; [|done]. apply registries_delete; [done|]. intros q r Hq. rewrite keys_elem. intros [m Hm].
    apply (Hno q m). unfold ws. by rewrite Hq.
  - intros [t|j|j] q pid; [apply (Ho (OTask t))|apply (Ho (OMessage j))|]. cbn. destruct (decide (k = j)) as [->|]; [by rewrite lookup_delete_eq|].
    rewrite lookup_delete_ne by done. apply (Ho (OProfile j)).
  - intros j [x [_ Hx]%lookup_delete_Some]. eauto.
  - rewrite Hn, map_size_delete, Hk. done.
Qed.

Lemma shutdown_step s k : consistent s -> exists s', shutdown k s = Ok s' /\ consistent s' /\ effect s (Shutdown k) s' NoReply.
Proof.
  intros Hs. unfold shutdown. destruct (retire_ok k s Hs) as (s1 & -> & Hs1 & (Et & Ec & Ek & Er) & Hw & Hj & Hk & Ha). cbn [rbind].
  assert (forall q m, ~ (k, m) ∈ ws s1 q) as Hno by (intros q m; rewrite Hw, remove_worker_elem; tauto).
  assert (forall s', (forall q, ws s' q = ws s1 q) -> (forall j, j <> k -> user_workers s' !! j = user_workers s1 !! j) -> frame s1 s' -> effect s (Shutdown k) s' NoReply) as He.
  { intros s' Hw' Hu' (Et' & Ec' & Ek' & _).
    assert (forall q j m, (j, m) ∈ ws s' q -> j <> k /\ (j, m) ∈ ws s q) as Hin by (intros q j m; rewrite Hw', Hw; apply remove_worker_elem).
    split_and!; [intros q j Hjq; left; by apply (Hin _ _ _ Hjq)|by rewrite Ek', Ek| | |done].
    2: { intros j Hjs. destruct (decide (j = k)) as [->|]; [by left|right]. by rewrite Hu', Hj. }
    intros (U1 & U2 & U3) _. split_and!; [by rewrite Et', Et|by rewrite Ec', Ec|]. intros q j m Hjq. destruct (Hin _ _ _ Hjq) as [Hne Hjs].
    rewrite Hu', Hj by done. eauto. }
  destruct (user_workers s !! k) as [[p pm]|] eqn:Hks; cbn in Hk; rewrite Hk; [|exists s1; split_and!; [done|done|by apply He]].
  cbn [service_path]. destruct (Ha p (proj2 (proj2 (proj1 Hs)) _ _ Hks)) as [r Hr]. cbn. rewrite Hr. eexists. split_and!; [reflexivity|by apply delete_user_ok|].
  apply He; [|by intros j Hne; cbn; rewrite lookup_delete_ne|done]. intros q. exact (ws_alter_same (set_users (delete k) s1) p (send_notify [None]) q (fun _ => eq_refl)).
Qed.

Lemma searched_unforced p s s' found : searched p s s' found -> unforced s -> unforced s'.
Proof.
  intros ((Et & Ec & _) & Hin & _) (U1 & U2 & U3). split_and!; [by rewrite Et|by rewrite Ec|].
  intros q k m Hk. destruct (Hin _ _ _ Hk) as (-> & [m' Hm'] & _). eauto.
Qed.

Lemma find_active_ok p fc s :
  consistent s -> exists s' found, find_active policy p fc s = Ok (s', found) /\ consistent s' /\ searched p s s' found.
Proof.
  intros Hs. unfold find_active. destruct fc; [exists s, None; split_and!; [done|done|apply searched_refl]|].
  apply maybe_active_worker_ok; [done|]. unfold ws. by destruct (active_workers s !! p).
Qed.

Lemma create_step s t p f :
  consistent s -> exists s' rep, create_user_worker policy max_parallelism t p f s = Ok (s', rep) /\ consistent s' /\ effect s (Create t p f) s' rep.
Proof.
  intros Hs. unfold create_user_worker. destruct (find_active_ok p (default false (force_create policy f)) s Hs) as (s1 & found & -> & Hs1 & Hsr). cbn [rbind].
  pose proof (searched_unforced _ _ _ _ Hsr) as Hun. destruct Hsr as ((Et & Ec & Ek & Er) & Hin & Hus & Ha & Hf).
  destruct found as [k|].
  - eexists _, _. split_and!; [reflexivity|by apply delete_task_ok|]. destruct Hf as (Hk & Hnr & Hex).
    split_and!; [|cbn; by rewrite Ek| |intros j Hj; right; by apply Hus| |exact Hex|done|done|done].
    + intros q j Hj. left. by apply (Hin q j true).
    + intros U _. destruct (Hun U) as (U1 & U2 & U3). split_and!; [|done|done]. cbn. intros t' tk [_ H]%lookup_delete_Some. eauto.
    + cbn. rewrite Ek. destruct (ws_profile _ _ _ _ Hs Hk) as [x Hx]. destruct Hs as (_ & _ & _ & Hu & _). by destruct (Hu _ (mk_is_Some _ _ Hx)).
  - destruct (ensure_registry_ok p s1 Hs1) as (Hs2 & Ew & (Et2 & Ec2 & Ek2 & _) & Eu2 & _). eexists _, _. split_and!; [reflexivity|by apply set_task_ok|].
    set (s2 := ensure_registry _ p s1) in *. split_and!; [|cbn; by rewrite Ek2, Ek| |intros j Hj; right; cbn; rewrite Eu2; by apply Hus|done].
    + intros q j Hj. left. change (ws (set_tasks _ _) q) with (ws s2 q) in Hj. rewrite Ew in Hj. by apply (Hin q j true).
    + intros U Hfl. destruct (Hun U) as (U1 & U2 & U3). split_and!.
      * cbn. rewrite Et2. intros t' tk [[<- <-]|[_ H]]%lookup_insert_Some; [done|eauto].
      * cbn. by rewrite Ec2.
      * intros q j m. change (ws (set_tasks _ _) q) with (ws s2 q). cbn. rewrite Ew, Eu2. apply U3.
Qed.

Lemma pool_step_ok s l res :
  consistent s -> step policy max_parallelism place s l = Some res ->
  exists s' rep, res = Ok (s', rep) /\ consistent s' /\ effect s l s' rep.
Proof.
  intros Hs Hstep. destruct l as [t p f|t|t|t|t k|t|t|k|k rid|pid rid|k|k|k]; cbn [step] in Hstep.
  - assert (res = create_user_worker policy max_parallelism t p f s) as ->; [|by apply create_step].
    destruct (tasks s !! t) as [[p' f' []]|]; try done; [|congruence]. destruct (bool_decide _ && _); congruence.
  - destruct (tasks s !! t) as [[p f []]|] eqn:Ht; try done. injection Hstep as <-. eexists _, _. split; [done|by apply run_fence_step].
  - destruct (tasks s !! t) as [[p f []]|] eqn:Ht; try done. destruct (active_workers s !! p) as [r|] eqn:Hp; [|done].
    destruct (notify r) as [|m q]; [done|]. injection Hstep as <-. eexists _, _. split; [done|].
    rewrite (set_active_insert s p r pop_notify Hp).
    destruct (receive_step (set_active (alter pop_notify p) s) (Recv t) t (Task p f Waiting) m) as [Hc He]; [by apply alter_active_ok|done|].
    split; [exact Hc|]. eapply effect_frame; [..|exact He]; [intros x; by apply ws_alter_same|done|done].
  - destruct (tasks s !! t) as [[p f []]|] eqn:Ht; try done. injection Hstep as <-. eexists _, _. split_and!; [done|by apply delete_task_ok|].
    apply quiet_effect; try done. cbn. intros t' tk [_ H]%lookup_delete_Some. by left.
  - destruct (tasks s !! t) as [[p [f|] [| | |pm]]|] eqn:Ht; try done. case_bool_decide as Hk; [done|]. injection Hstep as <-.
    eexists _, _. split_and!; [done|by apply boot_ok|by apply boot_effect].
  - destruct (tasks s !! t) as [[p [f|] [| | |pm]]|] eqn:Ht; try done. injection Hstep as <-. eexists _, _. split; [done|by eapply boot_fail_step].
  - destruct (tasks s !! t) as [[p [f|] [| | |pm]]|] eqn:Ht; try done. injection Hstep as <-. eexists _, _. split; [done|by eapply boot_fail_step].
  - destruct (created s !! k) as [[p pm]|] eqn:Hk; [|done]. injection Hstep as <-. eexists _, _. split_and!; [done|by apply handle_created_ok|by apply handle_created_effect].
  - injection Hstep as <-. eexists _, _. split; [done|by apply send_request_step].
  - injection Hstep as <-. eexists _, _. split; [done|by apply drop_clone_step].
  - injection Hstep as <-. eexists _, _. split; [done|by apply idle_step].
  - injection Hstep as <-. destruct (shutdown_step s k Hs) as (s' & -> & Hs' & He). by eexists _, _.
  - injection Hstep as <-. eexists _, _. split_and!; [done|exact Hs|]. apply quiet_effect; try done. by left.
Qed.
End Place.
End Consistent.

(** ** The properties *)

Section Properties.
Context (policy : SupervisorPolicy) (max_parallelism : nat).
Context (place : list (nat * bool) -> nat * bool -> list (nat * bool)).

Lemma consistent_start : consistent policy max_parallelism empty_system.
Proof.
  split_and!; [split_and!|split_and!| |split_and!]; try done; cbn.
  - intros [t|k|k] p pid; cbn; by rewrite lookup_empty.
  - intros k [x Hx]. by rewrite lookup_empty in Hx.
  - intros k [x Hx]. by rewrite lookup_empty in Hx.
  - intros k [x Hx]. by rewrite lookup_empty in Hx.
Qed.

Context (Hplace : forall l w, place l w ≡ₚ w :: l).

Lemma runs_consistent tr s : runs policy max_parallelism place tr s -> consistent policy max_parallelism s.
Proof.
  induction 1 as [|tr s l s' rep Hr IH Hs]; [apply consistent_start|].
  destruct (pool_step_ok _ _ _ Hplace _ _ _ IH Hs) as (x & y & [= -> ->] & Hc & _). done.
Qed.

Lemma runs_effect tr s l s' rep : runs policy max_parallelism place tr s -> step policy max_parallelism place s l = Some (Ok (s', rep)) -> effect policy s l s' rep.
Proof.
  intros Hr Hs. destruct (pool_step_ok _ _ _ Hplace _ _ _ (runs_consistent _ _ Hr) Hs) as (x & y & [= -> ->] & _ & He). done.
Qed.

Lemma runs_unforced tr s : runs policy max_parallelism place tr s -> forallb (fun e => negb (force_label policy (fst e))) tr = true -> unforced s.
Proof.
  induction 1 as [|tr s l s' rep Hr IH Hs]; cbn.
  - intros _. split_and!; [intros t tk|intros k pr|intros q k m]; cbn; try by rewrite lookup_empty. unfold ws. cbn. rewrite lookup_empty. by intros ?%elem_of_nil.
  - intros [Hl Htr]%andb_true_iff. apply negb_true_iff in Hl. destruct (runs_effect _ _ _ _ _ Hr Hs) as (_ & _ & Hu & _). auto.
Qed.

(** The permits of the workers of a service, each held by one worker. *)
Definition worker_permits (s : system) (l : list (nat * bool)) : list nat := omap (fun w => user_workers s !! fst w ≫= profile_permit) l.

Lemma worker_permits_bound s p r :
  consistent policy max_parallelism s -> active_workers s !! p = Some r -> length (worker_permits s (workers r)) <= taken p (table s).
Proof.
  intros ((Hnd & Hin & _) & _ & Ho & _) Hr. specialize (Hnd _ _ Hr).
  assert (forall pid k m, (k, m) ∈ workers r -> user_workers s !! k ≫= profile_permit = Some pid -> exists rq, table s !! pid = Some (Permit p (Some (OProfile k)) rq)) as Htb.
  { intros pid k m Hk Hpid. destruct (Hin _ _ _ _ Hr Hk) as [[pm Hpm] _]. rewrite Hpm in Hpid. cbn in Hpid. subst pm. apply Ho. cbn. by rewrite Hpm. }
  assert (NoDup (worker_permits s (workers r))) as Hnp.
  { clear Hin. induction (workers r) as [|[k m] l IH]; [constructor|]. cbn in Hnd. apply NoDup_cons in Hnd as [Hk Hnd].
    specialize (IH Hnd (fun pid k' m' Hk' => Htb pid k' m' (list_elem_of_further _ _ _ Hk'))). unfold worker_permits in *. cbn.
    destruct (user_workers s !! k ≫= profile_permit) as [pid|] eqn:Hpid; [|done]. apply NoDup_cons. split; [|done].
    intros ([k' m'] & Hk' & Hpid')%list_elem_of_omap. destruct (Htb pid k m) as [rq Hrq]; [by left|done|].
    destruct (Htb pid k' m') as [rq' Hrq']; [by right|done|]. apply Hk, keys_elem. exists m'. congruence. }
  unfold taken. rewrite <- (size_list_to_set (C := gset nat) _ Hnp), <- (size_dom (D := gset nat)). apply subseteq_size. intros pid Hpid.
  apply elem_of_list_to_set, list_elem_of_omap in Hpid as ([k m] & Hk & Hpid). destruct (Htb _ _ _ Hk Hpid) as [rq Hrq].
  apply elem_of_dom. eexists. apply map_lookup_filter_Some_2; [exact Hrq|done].
Qed.

(** C8: whatever the order of messages and tasks, handling a message never
    fails: the registry that a retirement expects is there, and the search for a
    worker ends.  A registry lists every worker once, and only workers whose
    profile is of its service; the metric counts the workers of the pool. *)
Theorem pool_consistent tr s :
  runs policy max_parallelism place tr s ->
  (forall l res, step policy max_parallelism place s l = Some res -> exists s' rep, res = Ok (s', rep)) /\
  (forall p r, active_workers s !! p = Some r ->
     NoDup (workers r).*1 /\ forall k m, (k, m) ∈ workers r -> exists pm, user_workers s !! k = Some (Profile p pm)) /\
  active_count s = size (user_workers s).
Proof.
  intros Hr%runs_consistent. split_and!.
  - intros l res Hl. destruct (pool_step_ok _ _ _ Hplace _ _ _ Hr Hl) as (s' & rep & -> & _). eauto.
  - destruct Hr as ((Hnd & Hin & _) & _). intros p r Hp. split; [eauto|]. intros k m Hk. by apply (Hin p r k m).
  - apply Hr.
Qed.

(** C6: the permits of a service that are taken and those that are available are
    [max_parallelism] together; every worker in the registry of the service that
    has a permit has one of its own; and if no creation was forced, every worker
    in the registry has one, so the registry has at most [max_parallelism]
    workers.  (The registry has the workers that new requests can be given to: a
    retired worker that has not shut down yet is not in it and is not counted.) *)
Theorem pool_capacity tr s p r :
  runs policy max_parallelism place tr s -> active_workers s !! p = Some r ->
  taken p (table s) + permits r = max_parallelism /\
  length (worker_permits s (workers r)) <= taken p (table s) /\
  (forallb (fun e => negb (force_label policy (fst e))) tr = true -> length (workers r) + permits r <= max_parallelism).
Proof.
  intros Hr Hp. pose proof (runs_consistent _ _ Hr) as Hc. pose proof (worker_permits_bound _ _ _ Hc Hp) as Hb.
  destruct Hc as (_ & [Hsem _] & _). specialize (Hsem _ _ Hp). split; [lia|]. split; [done|]. intros Hf.
  destruct (runs_unforced _ _ Hr Hf) as (_ & _ & Hall).
  assert (length (worker_permits s (workers r)) = length (workers r)) as <-; [|lia].
  assert (forall w, w ∈ workers r -> is_Some (user_workers s !! fst w ≫= profile_permit)) as Hsome.
  { intros [k m] Hk. destruct (Hall p k m) as [pid Hpid]; [unfold ws; by rewrite Hp|]. cbn. rewrite Hpid. eauto. }
  unfold worker_permits. clear -Hsome. induction (workers r) as [|w l IH]; [done|]. cbn. destruct (Hsome w) as [pid ->]; [by left|]. cbn.
  f_equal. apply IH. intros w' Hw'. apply Hsome. by right.
Qed.

(** A worker that was handed out stays unmarked until it is idle. *)
Lemma handed_out_unmarked l1 t1 k tr1 tr2 s :
  policy <> PerWorker -> runs policy max_parallelism place (tr2 ++ (l1, Worker t1 k) :: tr1) s -> (Idle k ∉ tr2.*1) ->
  k ∈ used_keys s /\ (forall q, ~ (k, true) ∈ ws s q).
Proof.
  intros Hpol. revert s. induction tr2 as [|[l rep] tr2 IH]; intros s2 H2 Hidle; inversion H2 as [|tr s l' s' rep' Hr Hs]; subst.
  - destruct (runs_effect _ _ _ _ _ Hr Hs) as (_ & _ & _ & _ & Hu & Hn & _). auto.
  - cbn in Hidle. apply not_elem_of_cons in Hidle as [Hl Hidle].
    destruct (IH _ Hr Hidle) as [Hu' Hn']. destruct (runs_effect _ _ _ _ _ Hr Hs) as (E1 & E2 & _). split; [set_solver|].
    intros q Hq. destruct (E1 _ _ Hq) as [?|[?|?]]; [by eapply Hn'|done|congruence].
Qed.

(** C7: a worker that serves one request at a time is not given to a second
    request before the pool was told that it is idle.  (Without this the
    supervisor of the worker panics, see [Supervisor.two_requests_at_once].) *)
Theorem pool_exclusive l1 l2 t1 t2 k tr1 tr2 s :
  policy <> PerWorker -> runs policy max_parallelism place ((l2, Worker t2 k) :: tr2 ++ (l1, Worker t1 k) :: tr1) s -> Idle k ∈ tr2.*1.
Proof.
  intros Hpol H. destruct (decide_rel elem_of (Idle k) tr2.*1) as [|Hno]; [done|exfalso].
  inversion H as [|tr s0 l' s' rep' Hr Hs]; subst. destruct (handed_out_unmarked _ _ _ _ _ _ Hpol Hr Hno) as [Hu Hn].
  destruct (runs_effect _ _ _ _ _ Hr Hs) as (_ & _ & _ & _ & _ & _ & Hl). destruct l2; try done.
  - destruct Hl as (_ & Hk & _). by eapply Hn.
  - by destruct Hl as (_ & <- & Hk).
Qed.

(** a request that is answered from the registry gets a worker of its
    service that is in the pool and that its supervisor has not retired. *)
Theorem pool_answers_live tr s t p f s' t' k :
  runs policy max_parallelism place tr s -> step policy max_parallelism place s (Create t p f) = Some (Ok (s', Worker t' k)) ->
  t' = t /\ (k ∉ raised s) /\ exists pm, user_workers s !! k = Some (Profile p pm).
Proof.
  intros Hr Hs. destruct (runs_effect _ _ _ _ _ Hr Hs) as (_ & _ & _ & _ & _ & _ & He & Hk & Hn).
  split_and!; [done|done|]. by apply (ws_profile policy max_parallelism _ _ _ true (runs_consistent _ _ Hr)).
Qed.

(** A step leaves the tasks alone, sets one, or takes one away with an answer. *)
Definition tasks_change (s : system) (l : label) (s' : system) (rep : reply) : Prop :=
  (tasks s' = tasks s /\ forall t p f, l <> Create t p f) \/
  exists t, (forall t' p f, l = Create t' p f -> t' = t) /\
    ((exists tk, tasks s' = <[t := tk]> (tasks s)
       /\ ((exists p c, l = Create t p c /\ task_conf tk = force_create policy c) \/ exists tk', tasks s !! t = Some tk' /\ task_conf tk = task_conf tk'))
     \/ (tasks s' = delete t (tasks s) /\ (rep = Failed t \/ (exists k, rep = Worker t k) \/ rep = Dropped t /\ exists p st, tasks s !! t = Some (Task p None st)))).

Lemma try_acquire_tasks t p s s' pid : try_acquire t p s = Some (s', pid) -> tasks s' = tasks s.
Proof. unfold try_acquire. destruct (active_workers s !! p) as [r|]; [|done]. destruct (permits r); [done|]. by intros [= <- _]. Qed.

Lemma create_tasks s t p f s' rep :
  consistent policy max_parallelism s -> create_user_worker policy max_parallelism t p f s = Ok (s', rep) -> tasks_change s (Create t p f) s' rep.
Proof.
  intros Hs. unfold create_user_worker. destruct (find_active_ok _ _ p (default false (force_create policy f)) s Hs) as (s1 & found & -> & Hs1 & (Et & _) & _). cbn [rbind].
  intros He. right. exists t. split; [by intros ? ? ? [= -> _ _]|]. destruct found as [k|]; injection He as <- <-.
  - right. cbn. rewrite Et. eauto.
  - left. destruct (ensure_registry_ok _ _ p s1 Hs1) as (_ & _ & (Et2 & _) & _). cbn. rewrite Et2, Et. eexists. split; [done|]. left. eauto.
Qed.

Lemma step_tasks s l s' rep :
  consistent policy max_parallelism s -> step policy max_parallelism place s l = Some (Ok (s', rep)) -> tasks_change s l s' rep.
Proof.
  intros Hs Hstep. destruct l as [t p f|t|t|t|t k|t|t|k|k rid|pid rid|k|k|k]; cbn [step] in Hstep.
  - apply create_tasks; [done|]. destruct (tasks s !! t) as [[p' f' []]|]; try done; [|congruence]. destruct (bool_decide _ && _); congruence.
  - destruct (tasks s !! t) as [[p f []]|] eqn:Ht; try done. injection Hstep as <- <-. right. exists t. split; [done|]. left. unfold run_fence.
    destruct (try_acquire _ _ _) as [[s1 pid]|] eqn:Ha; cbn; [rewrite (try_acquire_tasks _ _ _ _ _ Ha)|]; (eexists; split; [done|]); right; eauto.
  - destruct (tasks s !! t) as [[p f []]|] eqn:Ht; try done. destruct (active_workers s !! p) as [r|]; [|done]. destruct (notify r) as [|m q]; [done|].
    injection Hstep as <- <-. destruct m as [k|]; cbn; [right; exists t; split; [done|]; left; cbn; (eexists; split; [done|]); right; eauto|].
    destruct (try_acquire _ _ _) as [[s1 pid]|] eqn:Ha; [|by left]. right. exists t. split; [done|]. left. cbn. rewrite (try_acquire_tasks _ _ _ _ _ Ha). cbn.
    eexists. split; [done|]. right. eauto.
  - destruct (tasks s !! t) as [[p f []]|]; try done. injection Hstep as <- <-. right. exists t. split; [done|]. right. auto.
  - destruct (tasks s !! t) as [[p [f|] [| | |pm]]|]; try done. case_bool_decide; [done|]. injection Hstep as <- <-. right. exists t. split; [done|]. right.
    destruct (give_same (set_tasks (delete t) s) (OMessage k) pm) as (_ & (Et & _) & _). cbn. rewrite Et. eauto.
  - destruct (tasks s !! t) as [[p [f|] [| | |pm]]|]; try done. injection Hstep as <- <-. right. exists t. split; [done|]. right.
    destruct (drop_owner_frame (set_tasks (delete t) s) pm) as ((Et & _) & _). rewrite Et. auto.
  - destruct (tasks s !! t) as [[p [f|] [| | |pm]]|] eqn:Ht; try done. injection Hstep as <- <-. right. exists t. split; [done|]. right.
    destruct (drop_owner_frame (set_tasks (delete t) s) pm) as ((Et & _) & _). rewrite Et. eauto 10.
  - destruct (created s !! k) as [[p pm]|]; [|done]. injection Hstep as <- <-. left. split; [|done]. unfold handle_created, add_user_worker, ensure_registry. cbn.
    destruct (give_same (set_created (delete k) s) (OProfile k) pm) as (_ & (Et & _) & _). by destruct (_ !! p).
  - injection Hstep as <- <-. left. split; [|done]. unfold send_request. by destruct (_ ≫= _).
  - injection Hstep as <- <-. left. split; [|done]. by destruct (settle_same pid (set_table (alter (fun pm => Permit (pm_path pm) (pm_owner pm) (pm_requests pm ∖ {[rid]})) pid) s)) as ((Et & _) & _).
  - injection Hstep as <- <-. left. split; [|done]. unfold idle. by destruct (_ !! k).
  - left. split; [|done]. unfold shutdown in Hstep. destruct (retire_ok _ _ k s Hs) as (s1 & Hret & _ & (Et & _) & _). rewrite Hret in Hstep. cbn in Hstep.
    destruct (user_workers s1 !! k) as [pr|]; [|by injection Hstep as <- <-]. cbn in Hstep. by destruct (active_workers s1 !! _); injection Hstep as <- <-.
  - injection Hstep as <- <-. by left.
Qed.

(** The options of a task are those of a request for it. *)
Lemma runs_asked tr s t tk :
  runs policy max_parallelism place tr s -> tasks s !! t = Some tk ->
  exists p c, Create t p c ∈ tr.*1 /\ task_conf tk = force_create policy c.
Proof.
  intros Hr. revert tk. induction Hr as [|tr s l s' rep Hr IH Hs]; intros tk Ht; [cbn in Ht; by rewrite lookup_empty in Ht|].
  assert (Hold : forall tk', tasks s !! t = Some tk' -> exists p c, Create t p c ∈ ((l, rep) :: tr).*1 /\ task_conf tk' = force_create policy c).
  { intros tk' Htk'. destruct (IH _ Htk') as (p & c & Hin & E). exists p, c. split; [by right|done]. }
  destruct (step_tasks _ _ _ _ (runs_consistent _ _ Hr) Hs) as [[E _]|(t' & Hl & [(tk' & E & Hc)|[E _]])]; rewrite E in Ht; [auto| |].
  - apply lookup_insert_Some in Ht as [[-> ->]|[_ Ht]]; [|auto].
    destruct Hc as [(p & c & -> & Hc)|(tk' & Htk' & ->)]; [|auto]. exists p, c. split; [by left|done].
  - apply lookup_delete_Some in Ht as [_ Ht]. auto.
Qed.

(** What a request for a worker can be told: a worker, an error, or nothing, when
    the sender of the reply is dropped. *)
Definition answered (t : nat) (tr : list (label * reply)) : Prop :=
  Failed t ∈ tr.*2 \/ (exists k, Worker t k ∈ tr.*2) \/ Dropped t ∈ tr.*2.

(** The steps of a task, and the handling of its message. *)
Definition of_task (t : nat) (l : label) : Prop :=
  match l with Create t' _ _ | RunFence t' | Recv t' | Timeout t' | Boot t' _ | BootFail t' | NotUserWorker t' => t' = t | _ => False end.

(** A task can get its answer by so many steps of its own. *)
Definition can_answer (t : nat) (n : nat) (s : system) : Prop :=
  exists ls tr s', play policy max_parallelism place [] s ls = Some (tr, s') /\ Forall (of_task t) ls /\ length ls <= n /\ answered t tr.

Lemma play_app tr tr0 s ls : play policy max_parallelism place (tr ++ tr0) s ls = prod_map (fun l => l ++ tr0) id <$> play policy max_parallelism place tr s ls.
Proof.
  revert tr s. induction ls as [|l ls IH]; intros tr s; [done|]. cbn. destruct (step _ _ _ s l) as [[[s1 r]|]|]; [|done..].
  apply (IH ((l, r) :: tr)).
Qed.

Lemma can_answer_now t s l s' rep :
  step policy max_parallelism place s l = Some (Ok (s', rep)) -> of_task t l -> answered t [(l, rep)] -> can_answer t 1 s.
Proof.
  intros Hs Hl Ha. exists [l], [(l, rep)], s'. cbn. rewrite Hs. split; [done|]. split; [by repeat constructor|]. split; [done|done].
Qed.

Lemma can_answer_later t n s l s' rep :
  step policy max_parallelism place s l = Some (Ok (s', rep)) -> of_task t l -> can_answer t n s' -> can_answer t (S n) s.
Proof.
  intros Hs Hl (ls & tr & s2 & Hp & Hls & Hn & Ha). exists (l :: ls), (tr ++ [(l, rep)]), s2. cbn. rewrite Hs.
  pose proof (play_app [] [(l, rep)] s' ls) as E. rewrite Hp in E. cbn in E. split; [exact E|]. split; [by constructor|]. split; [cbn; lia|].
  unfold answered in *. rewrite fmap_app. setoid_rewrite elem_of_app. naive_solver.
Qed.

Lemma can_answer_more t n m s : can_answer t n s -> n <= m -> can_answer t m s.
Proof. intros (ls & tr & s' & H1 & H2 & H3 & H4) Hm. exists ls, tr, s'. split_and!; try done. lia. Qed.

Lemma creating_answers t s p conf pm : tasks s !! t = Some (Task p conf (Creating pm)) -> can_answer t 1 s.
Proof.
  intros Ht. destruct conf as [force|].
  - eapply (can_answer_now t s (BootFail t)); [cbn; by rewrite Ht|done|]. left. by left.
  - eapply (can_answer_now t s (NotUserWorker t)); [cbn; by rewrite Ht|done|]. right. right. by left.
Qed.

Lemma fence_answers t s p conf : tasks s !! t = Some (Task p conf Fence) -> can_answer t 2 s.
Proof.
  intros Ht. eapply (can_answer_later t 1 s (RunFence t)); [cbn; by rewrite Ht|done|]. unfold run_fence. cbn [task_path].
  assert (Hstage : forall s1 st, tasks (set_stage t (Task p conf Fence) st s1) !! t = Some (Task p conf st)) by (intros; apply lookup_insert_eq).
  destruct (try_acquire t p s) as [[s1 pid]|]; [by eapply creating_answers|].
  destruct (task_force _); [by eapply creating_answers|].
  eapply (can_answer_now t _ (Timeout t)); [cbn [step]; by rewrite Hstage|done|]. left. by left.
Qed.

Lemma task_answers tr t s tk : runs policy max_parallelism place tr s -> tasks s !! t = Some tk -> can_answer t 3 s.
Proof.
  intros Hr Ht. destruct tk as [p conf [| | |pm]].
  - eapply can_answer_more; [by eapply fence_answers|lia].
  - eapply can_answer_more; [eapply (can_answer_now t s (Timeout t)); [cbn; by rewrite Ht|done|left; by left]|lia].
  - destruct (runs_asked _ _ _ _ Hr Ht) as (p0 & c & _ & Hc). cbn in Hc. subst conf.
    destruct (create_step policy max_parallelism s t p c (runs_consistent _ _ Hr)) as (s' & rep & E & Hs' & _).
    assert (Hs : step policy max_parallelism place s (Create t p c) = Some (Ok (s', rep))).
    { cbn. by rewrite Ht, !bool_decide_eq_true_2, E. }
    pose proof E as E2. unfold create_user_worker in E2.
    destruct (find_active _ _ _ _) as [[s1 [k|]]|]; cbn [rbind] in E2; [| |done]; injection E2 as <- <-.
    + eapply can_answer_more; [eapply can_answer_now; [exact Hs|done|right; left; exists k; by left]|lia].
    + eapply can_answer_later; [exact Hs|done|]. eapply fence_answers. apply lookup_insert_eq.
  - eapply can_answer_more; [by eapply creating_answers|lia].
Qed.


Lemma loops_runs tr lp : loops policy max_parallelism place tr lp -> runs policy max_parallelism place tr (lp_pool lp).
Proof.
  induction 1 as [|tr lp lp' _ IH Ht|tr lp l lp' rep _ IH Hs]; [constructor| |].
  - unfold on_termination in Ht. destruct (finished lp || _); [done|]. by injection Ht as <-.
  - unfold on_step in Hs. destruct (finished lp); [done|]. destruct (step _ _ _ _ l) as [[[s r]|]|] eqn:He; cbn in Hs; try done.
    injection Hs as <- <-. by eapply runs_step.
Qed.

(** C12: once termination is requested the loop ends exactly when the last
    worker of the pool is gone, and before that it does not end; when it ends,
    no registry lists a worker. *)
Theorem loop_finishes tr lp :
  loops policy max_parallelism place tr lp ->
  (finished lp = true <-> termination_requested lp = true /\ user_workers (lp_pool lp) = ∅) /\
  (finished lp = true -> forall p r, active_workers (lp_pool lp) !! p = Some r -> workers r = []).
Proof.
  intros H. assert (finished lp = true <-> termination_requested lp = true /\ user_workers (lp_pool lp) = ∅) as Hiff.
  { induction H as [|tr lp lp' Hl IH Ht|tr lp l lp' rep Hl IH Hs]; [by split; [|intros []]| |].
    - unfold on_termination in Ht. destruct (finished lp || _); [done|]. injection Ht as <-. cbn. unfold no_workers. rewrite bool_decide_eq_true. tauto.
    - pose proof (loops_runs _ _ Hl) as Hr. unfold on_step in Hs. destruct (finished lp) eqn:Hf; [done|].
      destruct (step _ _ _ _ l) as [[[s r]|]|] eqn:He; cbn in Hs; try done. injection Hs as <- <-. cbn.
      destruct (runs_effect _ _ _ _ _ Hr He) as (_ & _ & _ & Hu & _).
      assert ((forall k, l <> Shutdown k) -> termination_requested lp = true -> user_workers s <> ∅) as Hne.
      { intros Hl' Hreq Hempty. destruct (map_choose (user_workers (lp_pool lp))) as (k & x & Hk); [intros Hem; pose proof (proj2 IH (conj Hreq Hem)) as Hx; congruence|].
        destruct (Hu k (mk_is_Some _ _ Hk)) as [?|[y Hy]]; [by eapply Hl'|]. by rewrite Hempty, lookup_empty in Hy. }
      destruct l; try (split; [done|intros [? ?]; by destruct Hne]). unfold no_workers. rewrite andb_true_iff, bool_decide_eq_true. done. }
  split; [done|]. intros Hf p r Hp. apply Hiff in Hf as [_ Hem]. apply loops_runs, runs_consistent in H as ((_ & Hin & _) & _).
  destruct (workers r) as [|[k m] l] eqn:Hw; [done|]. destruct (Hin p r k m Hp) as [[x Hx] _]; [rewrite Hw; by left|]. by rewrite Hem, lookup_empty in Hx.
Qed.

Lemma runs_loops tr s : runs policy max_parallelism place tr s -> loops policy max_parallelism place tr (Loop s false false).
Proof.
  induction 1 as [|tr s l s' rep _ IH Hs]; [constructor|]. eapply loops_step; [exact IH|]. unfold on_step. cbn. rewrite Hs. cbn. by destruct l.
Qed.

Lemma play_runs tr s ls tr' s' :
  runs policy max_parallelism place tr s -> play policy max_parallelism place tr s ls = Some (tr', s') -> runs policy max_parallelism place tr' s'.
Proof.
  revert tr s. induction ls as [|l ls IH]; intros tr s Hr; cbn; [by intros [= <- <-]|].
  destruct (step _ _ _ _ l) as [[[s1 rep]|]|] eqn:He; try done. apply IH. by eapply runs_step.
Qed.
End Properties.

(** ** Runs *)

Module Demo.
Definition append (l : list (nat * bool)) (w : nat * bool) : list (nat * bool) := l ++ [w].

Definition policy : SupervisorPolicy := PerRequest false.
Definition path : string := "hello"%string.
Definition final (ls : list label) : list (label * reply) * system := default ([], empty_system) (play policy 2 append [] empty_system ls).

(** Two requests get a worker each; a third one gets the first worker when it is idle. *)
Definition start (t k : nat) : list label := [Create t path (Some false); RunFence t; Boot t k; Created k].
Definition reuse : list label := start 0 10 ++ start 1 11 ++ [SendRequest 10 0; Idle 10; Create 2 path (Some false)].
End Demo.

Lemma append_place l w : Demo.append l w ≡ₚ w :: l.
Proof. symmetry. apply Permutation_cons_append. Qed.

Lemma final_runs ls :
  bool_decide (is_Some (play Demo.policy 2 Demo.append [] empty_system ls)) = true ->
  runs Demo.policy 2 Demo.append (fst (Demo.final ls)) (snd (Demo.final ls)).
Proof.
  intros [[tr s] Hp]%bool_decide_eq_true. unfold Demo.final. rewrite Hp. eapply play_runs; [apply runs_start|exact Hp].
Qed.

Lemma pool_consistent_witness :
  exists s' rep, step Demo.policy 2 Demo.append (snd (Demo.final Demo.reuse)) (Shutdown 10) = Some (Ok (s', rep)).
Proof.
  destruct (pool_consistent Demo.policy 2 Demo.append append_place (fst (Demo.final Demo.reuse)) (snd (Demo.final Demo.reuse))) as [Hok _];
    [apply final_runs; vm_compute; reflexivity|].
  destruct (Hok (Shutdown 10) _ eq_refl) as (s' & rep & He). exists s', rep. by rewrite <- He.
Defined.

Lemma pool_capacity_witness : 
  exists r, active_workers (snd (Demo.final Demo.reuse)) !! Demo.path = Some r /\ workers r = [(10, false); (11, false)] /\ length (workers r) + permits r <= 2.
Proof.
  eexists. split; [vm_compute; reflexivity|]. split; [reflexivity|].
  apply (pool_capacity Demo.policy 2 Demo.append append_place (fst (Demo.final Demo.reuse)) (snd (Demo.final Demo.reuse)) Demo.path);
    [apply final_runs; vm_compute; reflexivity|vm_compute; reflexivity|vm_compute; reflexivity].
Defined.

Lemma pool_exclusive_witness : Idle 10 ∈ (take 7 (tail (fst (Demo.final Demo.reuse)))).*1.
Proof.
  refine (pool_exclusive Demo.policy 2 Demo.append append_place (Boot 0 10) (Create 2 Demo.path (Some false)) 0 2 10 (drop 9 (fst (Demo.final Demo.reuse))) _ (snd (Demo.final Demo.reuse)) _ _); [discriminate|].
  assert (fst (Demo.final Demo.reuse) = (Create 2 Demo.path (Some false), Worker 2 10) :: take 7 (tail (fst (Demo.final Demo.reuse))) ++ (Boot 0 10, Worker 0 10) :: drop 9 (fst (Demo.final Demo.reuse))) as <-; [|apply final_runs; vm_compute; reflexivity].
  vm_compute. reflexivity.
Defined.

Lemma pool_answers_live_witness :
  exists s', step Demo.policy 2 Demo.append (snd (Demo.final (Demo.start 0 10 ++ [Idle 10]))) (Create 2 Demo.path (Some false)) = Some (Ok (s', Worker 2 10)) /\
    10 ∉ raised (snd (Demo.final (Demo.start 0 10 ++ [Idle 10]))).
Proof.
  eexists. split; [vm_compute; reflexivity|].
  refine (proj1 (proj2 (pool_answers_live Demo.policy 2 Demo.append append_place (fst (Demo.final (Demo.start 0 10 ++ [Idle 10]))) _ 2 Demo.path (Some false) _ 2 10 _ _)));
    [apply final_runs; vm_compute; reflexivity|vm_compute; reflexivity].
Defined.

(** A third request waits while both workers are busy. *)
Definition third_waits : list label := Demo.start 0 10 ++ Demo.start 1 11 ++ [Create 2 Demo.path (Some false); RunFence 2].


Definition demo_loop : pool_loop := Loop (snd (Demo.final (Demo.start 0 10))) true false.

Lemma loop_finishes_witness :
  exists lp rep, on_step Demo.policy 2 Demo.append demo_loop (Shutdown 10) = Some (Ok (lp, rep)) /\
    finished lp = true /\ forall p r, active_workers (lp_pool lp) !! p = Some r -> workers r = [].
Proof.
  assert (match on_step Demo.policy 2 Demo.append demo_loop (Shutdown 10) with Some (Ok (lp, _)) => finished lp | _ => false end = true) as Hf by (vm_compute; reflexivity).
  destruct (on_step Demo.policy 2 Demo.append demo_loop (Shutdown 10)) as [[[lp rep]|e]|] eqn:Hs; [|discriminate Hf..].
  exists lp, rep. split; [reflexivity|]. split; [exact Hf|].
  refine (proj2 (loop_finishes Demo.policy 2 Demo.append append_place ((Shutdown 10, rep) :: fst (Demo.final (Demo.start 0 10))) lp _) Hf).
  eapply loops_step; [|exact Hs]. eapply loops_terminate; [apply runs_loops, final_runs; vm_compute; reflexivity|].
  unfold on_termination, demo_loop. cbn [finished termination_requested lp_pool orb]. do 2 f_equal.
Defined.

(** A worker that is idle is missed when the first worker of the registry is
    busy and no position is kept: both workers are busy, the second one becomes
    idle, and the request that its notification wakes up finds no worker and
    waits again, with nothing left in the channel to wake it. *)
Example idle_worker_missed :
  let s := snd (Demo.final (Demo.start 0 10 ++ Demo.start 1 11 ++ [Create 2 Demo.path (Some false); RunFence 2; Idle 11; Recv 2; Create 2 Demo.path (Some false); RunFence 2])) in
  ws s Demo.path = [(10, false); (11, true)] /\ (task_stage <$> tasks s !! 2) = Some Waiting /\
  (notify <$> active_workers s !! Demo.path) = Some [] /\ exists s', step Demo.policy 2 Demo.append s (Timeout 2) = Some (Ok (s', Failed 2)).
Proof. split_and!; [reflexivity..|]. eexists. vm_compute. reflexivity. Qed.

(** A worker that ends before the pool has seen that it was created stays in the
    pool: its shutdown finds nothing to remove. *)
Example shutdown_before_created :
  let s := snd (Demo.final [Create 0 Demo.path (Some false); RunFence 0; Boot 0 10; Shutdown 10; Created 10]) in
  is_Some (user_workers s !! 10) /\ ws s Demo.path = [(10, false)].
Proof. split; [eexists; vm_compute; reflexivity|reflexivity]. Qed.

(** Notifications that no request waits for stay in the channel. *)
Example notifications_pile_up :
  let s := snd (Demo.final (Demo.start 0 10 ++ [Idle 10; Create 1 Demo.path (Some false); Idle 10; Create 2 Demo.path (Some false); Idle 10])) in
  (notify <$> active_workers s !! Demo.path) = Some [Some 10; Some 10; Some 10].
Proof. reflexivity. Qed.

(** A request without the options of a user worker takes a permit, which it gives
    back, and gets no answer. *)
Example request_dropped :
  let r := play PerWorker 1 Demo.append [] empty_system [Create 0 Demo.path None; RunFence 0; NotUserWorker 0] in
  (fst <$> r) = Some [(NotUserWorker 0, Dropped 0); (RunFence 0, NoReply); (Create 0 Demo.path None, NoReply)]
  /\ ((fun s => permits <$> active_workers s !! Demo.path) ∘ snd <$> r) = Some (Some 1).
Proof. split; vm_compute; reflexivity. Qed.

(** A retired worker is not counted: with room for one, a second worker is
    created while the first, which its supervisor has retired, still runs. *)
Example retired_worker_not_counted :
  let r := play PerWorker 1 Demo.append [] empty_system
    [Create 0 Demo.path (Some false); RunFence 0; Boot 0 10; Created 10; Raise 10; Create 1 Demo.path (Some false); RunFence 1; Boot 1 11; Created 11] in
  ((fun s => (elements (dom (user_workers s)), ws s Demo.path)) ∘ snd <$> r) = Some ([10; 11], [(11, true)]).
Proof. vm_compute. reflexivity. Qed.
