(* ===== verification/Primes.v ===== *)
(** * Prime numbers: src/crates/node/ops/crypto/primes.rs and the checks of
    internal/crypto/random.ts

    Trial division by the table of small primes, and rounds of the test of
    Miller and Rabin with bases from a random generator, a parameter.  The
    generation of primes is a call of a library. *)

From Stdlib Require Import ZArith.Zdivisibility Zmod.ZmodDef Zmod.ZmodBase Zmod.ZmodInv.
From S2P Require Import Prelude Bytes WebText BufferText Validators.
#[local] Open Scope Z_scope.

Record Witness := Wit { pow : Z; wit : Z }.

(** [witnessexp], on an exponent above zero; its half is the exponent without
    its last binary digit.  The remainder of [BigInt] truncates. *)
Fixpoint witnessexp_pos (b : Z) (e : positive) (m : Z) : Witness :=
  match e with
  | xH => Wit (Z.rem b m) 0
  | xO ehalf | xI ehalf =>
      let tmp := witnessexp_pos b ehalf m in
      if negb (wit tmp =? 0) then tmp
      else
        let t := Z.rem (pow tmp ^ 2) m in
        if (t =? 1) && negb (pow tmp =? 1) && negb (pow tmp + 1 =? m) then Wit t (pow tmp)
        else if Z.rem (Z.pos e) 2 =? 0 then Wit t (wit tmp)
        else Wit (Z.rem (t * b) m) (wit tmp)
  end.

Definition witnessexp (b e m : Z) : Witness :=
  match e with Z.pos e => witnessexp_pos b e m | _ => Wit 0 1 end.

Definition SMALL_PRIMES : list Z := [
  3; 5; 7; 11; 13; 17; 19; 23; 29; 31; 37; 41; 43; 47; 53; 59; 61; 67; 71; 73; 79; 83; 89; 97; 101; 103; 107;
  109; 113; 127; 131; 137; 139; 149; 151; 157; 163; 167; 173; 179; 181; 191; 193; 197; 199; 211; 223; 227;
  229; 233; 239; 241; 251; 257; 263; 269; 271; 277; 281; 283; 293; 307; 311; 313; 317; 331; 337; 347; 349;
  353; 359; 367; 373; 379; 383; 389; 397; 401; 409; 419; 421; 431; 433; 439; 443; 449; 457; 461; 463; 467;
  479; 487; 491; 499; 503; 509; 521; 523; 541; 547; 557; 563; 569; 571; 577; 587; 593; 599; 601; 607; 613;
  617; 619; 631; 641; 643; 647; 653; 659; 661; 673; 677; 683; 691; 701; 709; 719; 727; 733; 739; 743; 751;
  757; 761; 769; 773; 787; 797; 809; 811; 821; 823; 827; 829; 839; 853; 857; 859; 863; 877; 881; 883; 887;
  907; 911; 919; 929; 937; 941; 947; 953; 967; 971; 977; 983; 991; 997; 1009; 1013; 1019; 1021; 1031; 1033;
  1039; 1049; 1051; 1061; 1063; 1069; 1087; 1091; 1093; 1097; 1103; 1109; 1117; 1123; 1129; 1151; 1153; 1163;
  1171; 1181; 1187; 1193; 1201; 1213; 1217; 1223; 1229; 1231; 1237; 1249; 1259; 1277; 1279; 1283; 1289; 1291;
  1297; 1301; 1303; 1307; 1319; 1321; 1327; 1361; 1367; 1373; 1381; 1399; 1409; 1423; 1427; 1429; 1433; 1439;
  1447; 1451; 1453; 1459; 1471; 1481; 1483; 1487; 1489; 1493; 1499; 1511; 1523; 1531; 1543; 1549; 1553; 1559;
  1567; 1571; 1579; 1583; 1597; 1601; 1607; 1609; 1613; 1619; 1621; 1627; 1637; 1657; 1663; 1667; 1669; 1693;
  1697; 1699; 1709; 1721; 1723; 1733; 1741; 1747; 1753; 1759; 1777; 1783; 1787; 1789; 1801; 1811; 1823; 1831;
  1847; 1861; 1867; 1871; 1873; 1877; 1879; 1889; 1901; 1907; 1913; 1931; 1933; 1949; 1951; 1973; 1979; 1987;
  1993; 1997; 1999; 2003; 2011; 2017; 2027; 2029; 2039; 2053; 2063; 2069; 2081; 2083; 2087; 2089; 2099; 2111;
  2113; 2129; 2131; 2137; 2141; 2143; 2153; 2161; 2179; 2203; 2207; 2213; 2221; 2237; 2239; 2243; 2251; 2267;
  2269; 2273; 2281; 2287; 2293; 2297; 2309; 2311; 2333; 2339; 2341; 2347; 2351; 2357; 2371; 2377; 2381; 2383;
  2389; 2393; 2399; 2411; 2417; 2423; 2437; 2441; 2447; 2459; 2467; 2473; 2477; 2503; 2521; 2531; 2539; 2543;
  2549; 2551; 2557; 2579; 2591; 2593; 2609; 2617; 2621; 2633; 2647; 2657; 2659; 2663; 2671; 2677; 2683; 2687;
  2689; 2693; 2699; 2707; 2711; 2713; 2719; 2729; 2731; 2741; 2749; 2753; 2767; 2777; 2789; 2791; 2797; 2801;
  2803; 2819; 2833; 2837; 2843; 2851; 2857; 2861; 2879; 2887; 2897; 2903; 2909; 2917; 2927; 2939; 2953; 2957;
  2963; 2969; 2971; 2999; 3001; 3011; 3019; 3023; 3037; 3041; 3049; 3061; 3067; 3079; 3083; 3089; 3109; 3119;
  3121; 3137; 3163; 3167; 3169; 3181; 3187; 3191; 3203; 3209; 3217; 3221; 3229; 3251; 3253; 3257; 3259; 3271;
  3299; 3301; 3307; 3313; 3319; 3323; 3329; 3331; 3343; 3347; 3359; 3361; 3371; 3373; 3389; 3391; 3407; 3413;
  3433; 3449; 3457; 3461; 3463; 3467; 3469; 3491; 3499; 3511; 3517; 3527; 3529; 3533; 3539; 3541; 3547; 3557;
  3559; 3571; 3581; 3583; 3593; 3607; 3613; 3617; 3623; 3631; 3637; 3643; 3659; 3671; 3673; 3677; 3691; 3697;
  3701; 3709; 3719; 3727; 3733; 3739; 3761; 3767; 3769; 3779; 3793; 3797; 3803; 3821; 3823; 3833; 3847; 3851;
  3853; 3863; 3877; 3881; 3889; 3907; 3911; 3917; 3919; 3923; 3929; 3931; 3943; 3947; 3967; 3989; 4001; 4003;
  4007; 4013; 4019; 4021; 4027; 4049; 4051; 4057; 4073; 4079; 4091; 4093; 4099; 4111; 4127; 4129; 4133; 4139;
  4153; 4157; 4159; 4177; 4201; 4211; 4217; 4219; 4229; 4231; 4241; 4243; 4253; 4259; 4261; 4271; 4273; 4283;
  4289; 4297; 4327; 4337; 4339; 4349; 4357; 4363; 4373; 4391; 4397; 4409; 4421; 4423; 4441; 4447; 4451; 4457;
  4463; 4481; 4483; 4493; 4507; 4513; 4517; 4519; 4523; 4547; 4549; 4561; 4567; 4583; 4591; 4597; 4603; 4621;
  4637; 4639; 4643; 4649; 4651; 4657; 4663; 4673; 4679; 4691; 4703; 4721; 4723; 4729; 4733; 4751; 4759; 4783;
  4787; 4789; 4793; 4799; 4801; 4813; 4817; 4831; 4861; 4871; 4877; 4889; 4903; 4909; 4919; 4931; 4933; 4937;
  4943; 4951; 4957; 4967; 4969; 4973; 4987; 4993; 4999; 5003; 5009; 5011; 5021; 5023; 5039; 5051; 5059; 5077;
  5081; 5087; 5099; 5101; 5107; 5113; 5119; 5147; 5153; 5167; 5171; 5179; 5189; 5197; 5209; 5227; 5231; 5233;
  5237; 5261; 5273; 5279; 5281; 5297; 5303; 5309; 5323; 5333; 5347; 5351; 5381; 5387; 5393; 5399; 5407; 5413;
  5417; 5419; 5431; 5437; 5441; 5443; 5449; 5471; 5477; 5479; 5483; 5501; 5503; 5507; 5519; 5521; 5527; 5531;
  5557; 5563; 5569; 5573; 5581; 5591; 5623; 5639; 5641; 5647; 5651; 5653; 5657; 5659; 5669; 5683; 5689; 5693;
  5701; 5711; 5717; 5737; 5741; 5743; 5749; 5779; 5783; 5791; 5801; 5807; 5813; 5821; 5827; 5839; 5843; 5849;
  5851; 5857; 5861; 5867; 5869; 5879; 5881; 5897; 5903; 5923; 5927; 5939; 5953; 5981; 5987; 6007; 6011; 6029;
  6037; 6043; 6047; 6053; 6067; 6073; 6079; 6089; 6091; 6101; 6113; 6121; 6131; 6133; 6143; 6151; 6163; 6173;
  6197; 6199; 6203; 6211; 6217; 6221; 6229; 6247; 6257; 6263; 6269; 6271; 6277; 6287; 6299; 6301; 6311; 6317;
  6323; 6329; 6337; 6343; 6353; 6359; 6361; 6367; 6373; 6379; 6389; 6397; 6421; 6427; 6449; 6451; 6469; 6473;
  6481; 6491; 6521; 6529; 6547; 6551; 6553; 6563; 6569; 6571; 6577; 6581; 6599; 6607; 6619; 6637; 6653; 6659;
  6661; 6673; 6679; 6689; 6691; 6701; 6703; 6709; 6719; 6733; 6737; 6761; 6763; 6779; 6781; 6791; 6793; 6803;
  6823; 6827; 6829; 6833; 6841; 6857; 6863; 6869; 6871; 6883; 6899; 6907; 6911; 6917; 6947; 6949; 6959; 6961;
  6967; 6971; 6977; 6983; 6991; 6997; 7001; 7013; 7019; 7027; 7039; 7043; 7057; 7069; 7079; 7103; 7109; 7121;
  7127; 7129; 7151; 7159; 7177; 7187; 7193; 7207; 7211; 7213; 7219; 7229; 7237; 7243; 7247; 7253; 7283; 7297;
  7307; 7309; 7321; 7331; 7333; 7349; 7351; 7369; 7393; 7411; 7417; 7433; 7451; 7457; 7459; 7477; 7481; 7487;
  7489; 7499; 7507; 7517; 7523; 7529; 7537; 7541; 7547; 7549; 7559; 7561; 7573; 7577; 7583; 7589; 7591; 7603;
  7607; 7621; 7639; 7643; 7649; 7669; 7673; 7681; 7687; 7691; 7699; 7703; 7717; 7723; 7727; 7741; 7753; 7757;
  7759; 7789; 7793; 7817; 7823; 7829; 7841; 7853; 7867; 7873; 7877; 7879; 7883; 7901; 7907; 7919; 7927; 7933;
  7937; 7949; 7951; 7963; 7993; 8009; 8011; 8017; 8039; 8053; 8059; 8069; 8081; 8087; 8089; 8093; 8101; 8111;
  8117; 8123; 8147; 8161; 8167; 8171; 8179; 8191; 8209; 8219; 8221; 8231; 8233; 8237; 8243; 8263; 8269; 8273;
  8287; 8291; 8293; 8297; 8311; 8317; 8329; 8353; 8363; 8369; 8377; 8387; 8389; 8419; 8423; 8429; 8431; 8443;
  8447; 8461; 8467; 8501; 8513; 8521; 8527; 8537; 8539; 8543; 8563; 8573; 8581; 8597; 8599; 8609; 8623; 8627;
  8629; 8641; 8647; 8663; 8669; 8677; 8681; 8689; 8693; 8699; 8707; 8713; 8719; 8731; 8737; 8741; 8747; 8753;
  8761; 8779; 8783; 8803; 8807; 8819; 8821; 8831; 8837; 8839; 8849; 8861; 8863; 8867; 8887; 8893; 8923; 8929;
  8933; 8941; 8951; 8963; 8969; 8971; 8999; 9001; 9007; 9011; 9013; 9029; 9041; 9043; 9049; 9059; 9067; 9091;
  9103; 9109; 9127; 9133; 9137; 9151; 9157; 9161; 9173; 9181; 9187; 9199; 9203; 9209; 9221; 9227; 9239; 9241;
  9257; 9277; 9281; 9283; 9293; 9311; 9319; 9323; 9337; 9341; 9343; 9349; 9371; 9377; 9391; 9397; 9403; 9413;
  9419; 9421; 9431; 9433; 9437; 9439; 9461; 9463; 9467; 9473; 9479; 9491; 9497; 9511; 9521; 9533; 9539; 9547;
  9551; 9587; 9601; 9613; 9619; 9623; 9629; 9631; 9643; 9649; 9661; 9677; 9679; 9689; 9697; 9719; 9721; 9733;
  9739; 9743; 9749; 9767; 9769; 9781; 9787; 9791; 9803; 9811; 9817; 9829; 9833; 9839; 9851; 9857; 9859; 9871;
  9883; 9887; 9901; 9907; 9923; 9929; 9931; 9941; 9949; 9967; 9973; 10007; 10009; 10037; 10039; 10061; 10067;
  10069; 10079; 10091; 10093; 10099; 10103; 10111; 10133; 10139; 10141; 10151; 10159; 10163; 10169; 10177;
  10181; 10193; 10211; 10223; 10243; 10247; 10253; 10259; 10267; 10271; 10273; 10289; 10301; 10303; 10313;
  10321; 10331; 10333; 10337; 10343; 10357; 10369; 10391; 10399; 10427; 10429; 10433; 10453; 10457; 10459;
  10463; 10477; 10487; 10499; 10501; 10513; 10529; 10531; 10559; 10567; 10589; 10597; 10601; 10607; 10613;
  10627; 10631; 10639; 10651; 10657; 10663; 10667; 10687; 10691; 10709; 10711; 10723; 10729; 10733; 10739;
  10753; 10771; 10781; 10789; 10799; 10831; 10837; 10847; 10853; 10859; 10861; 10867; 10883; 10889; 10891;
  10903; 10909; 10937; 10939; 10949; 10957; 10973; 10979; 10987; 10993; 11003; 11027; 11047; 11057; 11059;
  11069; 11071; 11083; 11087; 11093; 11113; 11117; 11119; 11131; 11149; 11159; 11161; 11171; 11173; 11177;
  11197; 11213; 11239; 11243; 11251; 11257; 11261; 11273; 11279; 11287; 11299; 11311; 11317; 11321; 11329;
  11351; 11353; 11369; 11383; 11393; 11399; 11411; 11423; 11437; 11443; 11447; 11467; 11471; 11483; 11489;
  11491; 11497; 11503; 11519; 11527; 11549; 11551; 11579; 11587; 11593; 11597; 11617; 11621; 11633; 11657;
  11677; 11681; 11689; 11699; 11701; 11717; 11719; 11731; 11743; 11777; 11779; 11783; 11789; 11801; 11807;
  11813; 11821; 11827; 11831; 11833; 11839; 11863; 11867; 11887; 11897; 11903; 11909; 11923; 11927; 11933;
  11939; 11941; 11953; 11959; 11969; 11971; 11981; 11987; 12007; 12011; 12037; 12041; 12043; 12049; 12071;
  12073; 12097; 12101; 12107; 12109; 12113; 12119; 12143; 12149; 12157; 12161; 12163; 12197; 12203; 12211;
  12227; 12239; 12241; 12251; 12253; 12263; 12269; 12277; 12281; 12289; 12301; 12323; 12329; 12343; 12347;
  12373; 12377; 12379; 12391; 12401; 12409; 12413; 12421; 12433; 12437; 12451; 12457; 12473; 12479; 12487;
  12491; 12497; 12503; 12511; 12517; 12527; 12539; 12541; 12547; 12553; 12569; 12577; 12583; 12589; 12601;
  12611; 12613; 12619; 12637; 12641; 12647; 12653; 12659; 12671; 12689; 12697; 12703; 12713; 12721; 12739;
  12743; 12757; 12763; 12781; 12791; 12799; 12809; 12821; 12823; 12829; 12841; 12853; 12889; 12893; 12899;
  12907; 12911; 12917; 12919; 12923; 12941; 12953; 12959; 12967; 12973; 12979; 12983; 13001; 13003; 13007;
  13009; 13033; 13037; 13043; 13049; 13063; 13093; 13099; 13103; 13109; 13121; 13127; 13147; 13151; 13159;
  13163; 13171; 13177; 13183; 13187; 13217; 13219; 13229; 13241; 13249; 13259; 13267; 13291; 13297; 13309;
  13313; 13327; 13331; 13337; 13339; 13367; 13381; 13397; 13399; 13411; 13417; 13421; 13441; 13451; 13457;
  13463; 13469; 13477; 13487; 13499; 13513; 13523; 13537; 13553; 13567; 13577; 13591; 13597; 13613; 13619;
  13627; 13633; 13649; 13669; 13679; 13681; 13687; 13691; 13693; 13697; 13709; 13711; 13721; 13723; 13729;
  13751; 13757; 13759; 13763; 13781; 13789; 13799; 13807; 13829; 13831; 13841; 13859; 13873; 13877; 13879;
  13883; 13901; 13903; 13907; 13913; 13921; 13931; 13933; 13963; 13967; 13997; 13999; 14009; 14011; 14029;
  14033; 14051; 14057; 14071; 14081; 14083; 14087; 14107; 14143; 14149; 14153; 14159; 14173; 14177; 14197;
  14207; 14221; 14243; 14249; 14251; 14281; 14293; 14303; 14321; 14323; 14327; 14341; 14347; 14369; 14387;
  14389; 14401; 14407; 14411; 14419; 14423; 14431; 14437; 14447; 14449; 14461; 14479; 14489; 14503; 14519;
  14533; 14537; 14543; 14549; 14551; 14557; 14561; 14563; 14591; 14593; 14621; 14627; 14629; 14633; 14639;
  14653; 14657; 14669; 14683; 14699; 14713; 14717; 14723; 14731; 14737; 14741; 14747; 14753; 14759; 14767;
  14771; 14779; 14783; 14797; 14813; 14821; 14827; 14831; 14843; 14851; 14867; 14869; 14879; 14887; 14891;
  14897; 14923; 14929; 14939; 14947; 14951; 14957; 14969; 14983; 15013; 15017; 15031; 15053; 15061; 15073;
  15077; 15083; 15091; 15101; 15107; 15121; 15131; 15137; 15139; 15149; 15161; 15173; 15187; 15193; 15199;
  15217; 15227; 15233; 15241; 15259; 15263; 15269; 15271; 15277; 15287; 15289; 15299; 15307; 15313; 15319;
  15329; 15331; 15349; 15359; 15361; 15373; 15377; 15383; 15391; 15401; 15413; 15427; 15439; 15443; 15451;
  15461; 15467; 15473; 15493; 15497; 15511; 15527; 15541; 15551; 15559; 15569; 15581; 15583; 15601; 15607;
  15619; 15629; 15641; 15643; 15647; 15649; 15661; 15667; 15671; 15679; 15683; 15727; 15731; 15733; 15737;
  15739; 15749; 15761; 15767; 15773; 15787; 15791; 15797; 15803; 15809; 15817; 15823; 15859; 15877; 15881;
  15887; 15889; 15901; 15907; 15913; 15919; 15923; 15937; 15959; 15971; 15973; 15991; 16001; 16007; 16033;
  16057; 16061; 16063; 16067; 16069; 16073; 16087; 16091; 16097; 16103; 16111; 16127; 16139; 16141; 16183;
  16187; 16189; 16193; 16217; 16223; 16229; 16231; 16249; 16253; 16267; 16273; 16301; 16319; 16333; 16339;
  16349; 16361; 16363; 16369; 16381; 16411; 16417; 16421; 16427; 16433; 16447; 16451; 16453; 16477; 16481;
  16487; 16493; 16519; 16529; 16547; 16553; 16561; 16567; 16573; 16603; 16607; 16619; 16631; 16633; 16649;
  16651; 16657; 16661; 16673; 16691; 16693; 16699; 16703; 16729; 16741; 16747; 16759; 16763; 16787; 16811;
  16823; 16829; 16831; 16843; 16871; 16879; 16883; 16889; 16901; 16903; 16921; 16927; 16931; 16937; 16943;
  16963; 16979; 16981; 16987; 16993; 17011; 17021; 17027; 17029; 17033; 17041; 17047; 17053; 17077; 17093;
  17099; 17107; 17117; 17123; 17137; 17159; 17167; 17183; 17189; 17191; 17203; 17207; 17209; 17231; 17239;
  17257; 17291; 17293; 17299; 17317; 17321; 17327; 17333; 17341; 17351; 17359; 17377; 17383; 17387; 17389;
  17393; 17401; 17417; 17419; 17431; 17443; 17449; 17467; 17471; 17477; 17483; 17489; 17491; 17497; 17509;
  17519; 17539; 17551; 17569; 17573; 17579; 17581; 17597; 17599; 17609; 17623; 17627; 17657; 17659; 17669;
  17681; 17683; 17707; 17713; 17729; 17737; 17747; 17749; 17761; 17783; 17789; 17791; 17807; 17827; 17837;
  17839; 17851; 17863].

(** The loop over the table: an answer, or none. *)
Fixpoint trial_division (n : Z) (table : list Z) : option bool :=
  match table with
  | [] => None
  | p :: table =>
      if n =? p then Some true
      else if Z.rem n p =? 0 then Some false
      else trial_division n table
  end.

Section Random.

(** The numbers [rng.gen_range] returns, in the order of the calls. *)
Context (gen_range : nat -> Z -> Z).

(** [gen_range(1..n)] panics on an empty range. *)
Fixpoint rounds (n : Z) (round count : nat) : result bool :=
  match count with
  | O => Ok true
  | S count =>
      if n <=? 1 then Throw (Error "cannot sample empty range")
      else
        let a := gen_range round n in
        let we := witnessexp a (n - 1) n in
        if negb (wit we =? 0) || negb (pow we =? 1) then Ok false
        else rounds n (S round) count
  end.

Definition is_probably_prime (n : Z) (count : nat) : result bool :=
  if n =? 1 then Ok false
  else if n =? 2 then Ok true
  else if Z.even n then Ok false
  else
    match trial_division n SMALL_PRIMES with
    | Some answer => Ok answer
    | None => rounds n 0 count
    end.

(** ** The operations *)

(** [BigInt::from_bytes_be(Sign::Plus, bytes)]. *)
Definition from_bytes_be (bytes : list Z) : Z := fold_left (fun n b => n * 256 + b) bytes 0.

Definition op_node_check_prime (num : Z) (checks : Z) : result bool := is_probably_prime num (Z.to_nat checks).
Definition op_node_check_prime_bytes (bytes : list Z) (checks : Z) : result bool := is_probably_prime (from_bytes_be bytes) (Z.to_nat checks).

Inductive candidate := Big (z : Z) | View (bytes : list Z) | Other.

(** How the engine makes an [i64] of a bigint, for an argument of an operation
    declared so. *)
Context (to_i64 : Z -> Z).

(** [const { checks = 0 } = options]. *)
Definition checks_of (options : value) : value :=
  match options with
  | VObject props => match prop_of props (js "checks") with None | Some VUndefined => VNumber (Int 0) | Some v => v end
  | _ => VNumber (Int 0)
  end.

Definition checkPrimeSync (c : candidate) (options : value) : result bool :=
  let! _ := validateObject options (js "options") None in
  let checks := checks_of options in
  let! _ := validateInt32 checks (js "options.checks") 0 2147483647 in
  let n := match checks with VNumber (Int z) => z | _ => 0 end in
  match c with
  | Big z => op_node_check_prime (to_i64 z) n
  | View bytes => op_node_check_prime_bytes bytes n
  | Other => Throw (argType (js "candidate"))
  end.
End Random.

(** ** Numbers from buffers *)

Definition numberToHexCharCode (number : Z) : Z := (if number <? 10 then 48 else 87) + number.

Fixpoint hex_chars (buf : list Z) : jsstr :=
  match buf with
  | [] => []
  | val :: buf => numberToHexCharCode (Z.shiftr val 4) :: numberToHexCharCode (Z.land val 15) :: hex_chars buf
  end.

(** [BigInt] of a string of hexadecimal digits after [0x]; without a digit it is
    a syntax error. *)
Definition hex_value (c : Z) : Z := if c <? 58 then c - 48 else c - 87.
Definition BigInt_hex (s : jsstr) : result Z :=
  if len s =? 0 then Throw (Error "SyntaxError") else Ok (fold_left (fun n c => n * 16 + hex_value c) s 0).

Definition arrayBufferToUnsignedBigInt (buf : list Z) : result Z := BigInt_hex (hex_chars buf).

(** ** Powers modulo a prime *)

(** Fermat's little theorem. *)
Lemma fermat p a : Z.prime p -> 1 <= a < p -> a ^ (p - 1) mod p = 1.
Proof.
  intros Hp Ha. pose proof (Z.prime_ge_2 _ Hp) as H2. pose proof (Zmod.fermat_nz (Zmod.of_Z p a)) as H. rewrite <- Zmod.unsigned_inj_iff, Zmod.unsigned_of_Z, Zmod.unsigned_0, Z.mod_small in H by lia.
  specialize (H ltac:(lia) Hp). apply (f_equal Zmod.to_Z) in H. rewrite Zmod.unsigned_1_pos, Zmod.unsigned_pow_nonneg_r, Zmod.unsigned_of_Z, (Z.mod_small a) in H by lia. done.
Qed.

(** A prime has no square root of one but one and minus one. *)
Lemma square_root_of_one p x : Z.prime p -> 0 <= x < p -> x ^ 2 mod p = 1 -> x = 1 \/ x + 1 = p.
Proof.
  intros Hp Hx Hs. pose proof (Z.prime_ge_2 _ Hp). assert ((p | (x - 1) * (x + 1))) as Hd.
  { apply Z.mod_divide; [lia|]. replace ((x - 1) * (x + 1)) with (x ^ 2 - 1) by lia. rewrite Zminus_mod, Hs, (Z.mod_small 1) by lia. done. }
  apply Z.divide_prime_mul in Hd as [[k Hk]|[k Hk]]; [| |done].
  - left. assert (k = 0) by nia. lia.
  - right. assert (k = 1) by nia. lia.
Qed.

Lemma square_power p b h : 1 < p -> 0 <= h -> Z.rem ((b ^ h mod p) ^ 2) p = b ^ (2 * h) mod p.
Proof.
  intros Hp Hh. pose proof (Z.mod_pos_bound (b ^ h) p). rewrite Z.rem_mod_nonneg by (try apply Z.pow_nonneg; lia).
  rewrite Z.mod_pow_l, <- Z.pow_mul_r by lia. do 2 f_equal. lia.
Qed.

(** No witness is found against a prime, and the power is the power. *)
Lemma witnessexp_prime p b e : Z.prime p -> 0 <= b -> witnessexp_pos b e p = Wit (b ^ Z.pos e mod p) 0.
Proof.
  intros Hp Hb. pose proof (Z.prime_ge_2 _ Hp).
  assert (forall h, Z.rem ((b ^ Z.pos h mod p) ^ 2) p = b ^ (2 * Z.pos h) mod p /\
    (b ^ (2 * Z.pos h) mod p =? 1) && negb (b ^ Z.pos h mod p =? 1) && negb (b ^ Z.pos h mod p + 1 =? p) = false) as Hsq.
  { intros h. split; [apply square_power; lia|]. pose proof (Z.mod_pos_bound (b ^ Z.pos h) p ltac:(lia)) as Hr.
    destruct (Z.eqb_spec (b ^ (2 * Z.pos h) mod p) 1) as [H1|]; [|done]. rewrite <- square_power, Z.rem_mod_nonneg in H1 by (try apply Z.pow_nonneg; lia).
    destruct (square_root_of_one p _ Hp Hr H1) as [-> | ->]; [done|by rewrite Z.eqb_refl, andb_false_r]. }
  induction e as [e IH|e IH|]; cbn [witnessexp_pos]; [..|by rewrite Z.rem_mod_nonneg, Z.pow_1_r by lia].
  all: rewrite IH; cbn [wit pow negb Z.eqb]; destruct (Hsq e) as [-> ->].
  - replace (Z.rem (Z.pos e~1) 2 =? 0) with false by (rewrite Z.rem_mod_nonneg by lia; rewrite Pos2Z.inj_xI, Z.add_comm, Z.mul_comm, Z.mod_add by lia; done).
    f_equal. rewrite Z.rem_mod_nonneg by (try apply Z.mul_nonneg_nonneg; try apply Z.mod_pos_bound; lia).
    rewrite Zmult_mod_idemp_l, Pos2Z.inj_xI, Z.pow_add_r, Z.pow_1_r by lia. done.
  - replace (Z.rem (Z.pos e~0) 2 =? 0) with true by (rewrite Z.rem_mod_nonneg by lia; rewrite Pos2Z.inj_xO, Z.mul_comm, Z.mod_mul by lia; done). done.
Qed.

(** ** The table *)

(** The prime after the last one of the table. *)
Definition next_prime : Z := 17881.

(** [f] holds of the [n] numbers from [d] on. *)
Fixpoint all_from (f : Z -> bool) (d : Z) (n : nat) : bool :=
  match n with O => true | S n => if f d then all_from f (d + 1) n else false end.

Lemma all_from_spec f d n x : all_from f d n = true -> d <= x < d + Z.of_nat n -> f x = true.
Proof.
  revert d. induction n as [|n IH]; intros d; cbn [all_from]; [lia|]. destruct (f d) eqn:Hf; [|done]. intros H Hx.
  destruct (Z.eq_dec x d) as [->|]; [done|]. apply (IH (d + 1)); [done|lia].
Qed.

Definition no_divisor (p : Z) : bool := (1 <? p) && (p <? next_prime) && all_from (fun d => (p <=? d) || negb (p mod d =? 0)) 2 132.

(** [d] has a divisor in the table. *)
Fixpoint has_divisor (d : Z) (l : list Z) : bool :=
  match l with [] => false | p :: l => if d mod p =? 0 then true else has_divisor d l end.

Lemma has_divisor_elem d l : has_divisor d l = true -> exists p, p ∈ l /\ d mod p = 0.
Proof.
  induction l as [|p l IH]; cbn; [done|]. destruct (Z.eqb_spec (d mod p) 0); [exists p; split; [by left|done]|].
  intros (q & Hq & Hm)%IH. exists q. split; [by right|done].
Qed.

Lemma no_divisor_prime p : no_divisor p = true -> Z.prime p.
Proof.
  unfold no_divisor. rewrite !andb_true_iff, !Z.ltb_lt. intros [[H1 H2] Hd]. split; [done|]. intros n Hn [k Hk].
  assert (forall d, 1 < d < p -> d < 134 -> ~ (d | p)) as Hno.
  { intros d Hdp Hd' Hdiv. apply (all_from_spec _ _ _ d) in Hd; [|lia]. cbv beta in Hd.
    apply orb_true_iff in Hd as [Hd|Hd]; [lia|]. apply negb_true_iff, Z.eqb_neq in Hd. apply Hd. by apply Z.mod_divide; [lia|]. }
  assert (n < 134 \/ k < 134) as [|] by (unfold next_prime in H2; nia).
  - apply (Hno n); [done|done|]. by exists k.
  - apply (Hno k); [nia|done|]. exists n. lia.
Qed.

Lemma table_primes p : p ∈ SMALL_PRIMES -> Z.prime p /\ 2 < p.
Proof.
  assert (forallb (fun p => no_divisor p && (2 <? p)) SMALL_PRIMES = true) as H by (vm_compute; reflexivity).
  rewrite forallb_forall in H. intros Hp%list_elem_of_In%H. apply andb_true_iff in Hp as [Hp Hp2]. split; [by apply no_divisor_prime|lia].
Qed.

(** The primes up to the square root of the next prime. *)
Definition first_primes : list Z := take 31 SMALL_PRIMES.

(** A number is even, has a divisor among the first primes, or is the next
    number of the table. *)
Fixpoint walk (d : Z) (table : list Z) (n : nat) : bool :=
  match n with
  | O => true
  | S n =>
      if Z.even d then walk (d + 1) table n
      else if has_divisor d first_primes then walk (d + 1) (match table with p :: t => if d =? p then t else table | [] => [] end) n
      else match table with p :: t => if d =? p then walk (d + 1) t n else false | [] => false end
  end.

Lemma walk_spec d table n x :
  walk d table n = true -> d <= x < d + Z.of_nat n -> Z.even x = true \/ has_divisor x first_primes = true \/ x ∈ table.
Proof.
  revert d table. induction n as [|n IH]; intros d table; cbn [walk]; [lia|].
  assert (forall t, walk (d + 1) t n = true -> x <> d -> d <= x < d + Z.of_nat (S n) -> Z.even x = true \/ has_divisor x first_primes = true \/ x ∈ t) as Hnext
    by (intros t Ht Hne Hx; apply (IH (d + 1)); [done|lia]).
  destruct (Z.even d) eqn:He; [intros H Hx; destruct (Z.eq_dec x d) as [->|]; auto|]. destruct (has_divisor d first_primes) eqn:Hd.
  - intros H Hx. destruct (Z.eq_dec x d) as [->|Hne]; [auto|]. destruct (Hnext _ H Hne Hx) as [|[|Hin]]; [auto..|right; right].
    destruct table as [|p t]; [done|]. destruct (d =? p); [by right|done].
  - destruct table as [|p t]; [done|]. destruct (Z.eqb_spec d p) as [->|]; [|done]. intros H Hx.
    destruct (Z.eq_dec x p) as [->|Hne]; [right; right; by left|]. destruct (Hnext _ H Hne Hx) as [|[|Hin]]; [auto..|right; right; by right].
Qed.

(** Every number below the next prime has a divisor that is two or in the table. *)
Lemma table_complete d : 1 < d < next_prime -> (2 | d) \/ exists p, p ∈ SMALL_PRIMES /\ (p | d).
Proof.
  assert (walk 2 SMALL_PRIMES (Z.to_nat (next_prime - 2)) = true) as H by (vm_compute; reflexivity).
  intros Hd. apply (walk_spec _ _ _ d) in H as [H|[H|H]]; [| | |lia].
  - left. apply Z.even_spec in H as [k ->]. exists k. lia.
  - right. apply has_divisor_elem in H as (p & Hp & Hm). exists p. assert (p ∈ SMALL_PRIMES) as Hin by (apply elem_of_take in Hp as (i & Hi & _); by eapply list_elem_of_lookup_2).
    split; [done|]. pose proof (table_primes p Hin) as [_ ?]. apply Z.mod_divide; lia.
  - right. exists d. split; [done|apply Z.divide_refl].
Qed.

Lemma trial_division_spec n l :
  0 < n -> Forall (fun p => 1 < p) l ->
  match trial_division n l with
  | Some true => n ∈ l
  | Some false => exists p, 1 < p /\ p <> n /\ (p | n)
  | None => forall p, p ∈ l -> ~ (p | n)
  end.
Proof.
  intros Hn. induction 1 as [|p l Hp Hl IH]; cbn [trial_division]; [by intros p ?%elem_of_nil|].
  destruct (Z.eqb_spec n p) as [->|Hne]; [by left|]. rewrite Z.rem_mod_nonneg by lia. destruct (Z.eqb_spec (n mod p) 0) as [Hm|Hm].
  - exists p. split_and!; [done|congruence|]. by apply Z.mod_divide; [lia|].
  - destruct (trial_division n l) as [[]|]; [by right|done|]. intros q [->|Hq]%elem_of_cons; [|auto]. rewrite <- Z.mod_divide by lia. done.
Qed.

(** A number below the square of the next prime that has no divisor up to it is prime. *)
Lemma trial_division_prime n :
  1 < n < next_prime ^ 2 -> ~ (2 | n) -> (forall p, p ∈ SMALL_PRIMES -> ~ (p | n)) -> Z.prime n.
Proof.
  intros Hn H2 Ht. split; [lia|]. intros m Hm [k Hk].
  assert (forall d, 1 < d < next_prime -> ~ (d | n)) as Hno.
  { intros d Hd Hdn. destruct (table_complete d Hd) as [H|(p & Hp & H)]; [apply H2|apply (Ht p Hp)]; by etransitivity. }
  destruct (Z.lt_ge_cases m next_prime) as [|Hge]; [apply (Hno m); [lia|by exists k]|].
  apply (Hno k); [|exists m; lia]. rewrite Z.pow_2_r in Hn. split; [nia|]. apply Z.nle_gt. intros Hle.
  pose proof (Z.mul_le_mono_nonneg next_prime k next_prime m ltac:(done) Hle ltac:(done) Hge). lia.
Qed.

Section Correct.
Context (gen_range : nat -> Z -> Z).
Hypothesis in_range : forall i n, 1 < n -> 1 <= gen_range i n < n.

Lemma rounds_prime n i count : Z.prime n -> rounds gen_range n i count = Ok true.
Proof.
  intros Hp. pose proof (Z.prime_ge_2 _ Hp) as H2. revert i. induction count as [|count IH]; intros i; cbn [rounds]; [done|].
  rewrite (proj2 (Z.leb_gt n 1)) by lia. specialize (in_range i n ltac:(lia)) as Ha. unfold witnessexp. destruct (n - 1) as [|e|] eqn:He; [lia| |lia].
  rewrite witnessexp_prime by (done || lia). cbn [wit pow]. rewrite <- He, fermat by done. apply IH.
Qed.

Lemma not_even_prime n : Z.prime n -> n <> 2 -> Z.even n = false.
Proof.
  intros [H1 Hd] Hn. destruct (Z.even n) eqn:He; [|done]. apply Z.even_spec in He as [k ->]. destruct (Hd 2); [lia|]. exists k. lia.
Qed.

Lemma prime_is_accepted n count : Z.prime n -> is_probably_prime gen_range n count = Ok true.
Proof.
  intros Hp. pose proof (Z.prime_ge_2 _ Hp) as H2. unfold is_probably_prime. destruct (Z.eqb_spec n 1) as [->|_]; [lia|].
  destruct (Z.eqb_spec n 2) as [|Hn]; [done|]. rewrite not_even_prime by done.
  pose proof (trial_division_spec n SMALL_PRIMES ltac:(lia)) as Ht. specialize (Ht ltac:(apply Forall_forall; intros p [_ ?]%table_primes; lia)).
  destruct (trial_division n SMALL_PRIMES) as [[]|]; [done| |by apply rounds_prime].
  destruct Ht as (p & H1 & Hne & Hd). destruct (Z.divide_prime_r p n Hp Hd) as [|[|[|]]]; lia.
Qed.

Lemma small_is_exact n count :
  0 <= n < next_prime ^ 2 -> exists b, is_probably_prime gen_range n count = Ok b /\ (b = true <-> Z.prime n).
Proof.
  intros Hn. unfold is_probably_prime. destruct (Z.eqb_spec n 1) as [->|H1]; [exists false; split; [done|]; split; [done|]; intros [? _]; lia|].
  destruct (Z.eqb_spec n 2) as [->|H2]; [exists true; split; [done|]; split; [intros _; apply Z.prime_2|done]|].
  destruct (Z.even n) eqn:He.
  { exists false. split; [done|]. split; [done|]. intros Hp. by rewrite not_even_prime in He. }
  assert (0 < n) as Hpos by (destruct (Z.eq_dec n 0) as [->|]; [done|lia]).
  pose proof (trial_division_spec n SMALL_PRIMES Hpos) as Ht. specialize (Ht ltac:(apply Forall_forall; intros p [_ ?]%table_primes; lia)).
  destruct (trial_division n SMALL_PRIMES) as [[]|].
  - exists true. split; [done|]. split; [|done]. intros _. by apply table_primes in Ht as [? _].
  - exists false. split; [done|]. split; [done|]. intros Hp. destruct Ht as (p & Hp1 & Hne & Hd). destruct (Z.divide_prime_r p n Hp Hd) as [|[|[|]]]; lia.
  - assert (Z.prime n) as Hp.
    { apply trial_division_prime; [lia| |done]. intros [k Hk]. rewrite Hk, Z.even_mul in He. by rewrite orb_true_r in He. }
    exists true. split; [by apply rounds_prime|done].
Qed.

(** *** The checks of candidates *)

(** The engine keeps the last 64 binary digits, the first of them as a sign. *)
Definition wrap_i64 (z : Z) : Z := (z + 2 ^ 63) mod 2 ^ 64 - 2 ^ 63.

Context (to_i64 : Z -> Z).
Hypothesis to_i64_wraps : forall z, to_i64 z = wrap_i64 z.

Lemma wrap_i64_id z : - 2 ^ 63 <= z < 2 ^ 63 -> wrap_i64 z = z.
Proof. intros Hz. unfold wrap_i64. rewrite Z.mod_small; lia. Qed.

(** The number a candidate stands for, and the one that is tested. *)
Definition candidate_value (c : candidate) : option Z :=
  match c with Big z => Some z | View bytes => Some (from_bytes_be bytes) | Other => None end.
Definition tested_value (c : candidate) : option Z :=
  match c with Big z => Some (wrap_i64 z) | View bytes => Some (from_bytes_be bytes) | Other => None end.

(** Bytes, and bigints within 64 bits. *)
Definition fits_op (c : candidate) : bool := match c with Big z => (- 2 ^ 63 <=? z) && (z <? 2 ^ 63) | _ => true end.

Lemma fits_op_tested c : fits_op c = true -> tested_value c = candidate_value c.
Proof. destruct c as [z| |]; cbn [fits_op tested_value candidate_value]; try done. intros [H1 H2]%andb_prop. f_equal. apply wrap_i64_id. lia. Qed.

Definition options_ok (options : value) : Prop :=
  validateObject options (js "options") None = Ok tt /\ validateInt32 (checks_of options) (js "options.checks") 0 2147483647 = Ok tt.

Lemma checkPrimeSync_value c options v :
  tested_value c = Some v -> options_ok options -> exists count, checkPrimeSync gen_range to_i64 c options = is_probably_prime gen_range v count.
Proof.
  intros Hc [H1 H2]. unfold checkPrimeSync. rewrite H1. cbn [rbind]. rewrite H2. cbn [rbind].
  destruct c as [z|bytes|]; cbn in Hc; [|..|done]; injection Hc as <-; [rewrite to_i64_wraps|]; by eexists.
Qed.


Lemma rounds_throw n i count e : rounds gen_range n i count = Throw e -> n <= 1.
Proof.
  revert i. induction count as [|count IH]; intros i; cbn [rounds]; [done|]. destruct (Z.leb_spec n 1); [done|]. destruct (negb _ || negb _); [done|apply IH].
Qed.

Lemma is_probably_prime_throw n count e : is_probably_prime gen_range n count = Throw e -> n < 0.
Proof.
  unfold is_probably_prime. destruct (Z.eqb_spec n 1) as [|H1]; [done|]. destruct (n =? 2); [done|]. destruct (Z.even n) eqn:He; [done|].
  destruct (trial_division n SMALL_PRIMES); [done|]. intros H%rounds_throw. destruct (Z.eq_dec n 0) as [->|]; [done|lia].
Qed.

Lemma from_bytes_be_nonneg bytes : Forall (fun b => 0 <= b) bytes -> 0 <= from_bytes_be bytes.
Proof.
  unfold from_bytes_be. intros H. cut (forall n, 0 <= n -> 0 <= fold_left (fun n b => n * 256 + b) bytes n); [intros Hc; by apply Hc|].
  induction H as [|b bytes Hb _ IH]; cbn [fold_left]; [done|]. intros n Hn. apply IH. lia.
Qed.

(** bad options, a bad number of checks and what is not a number are
    refused with the error of the first check that fails; beyond that only a
    negative number makes the test fail. *)
Theorem check_prime_errors c options e :
  (forall bytes, c = View bytes -> Forall (fun b => 0 <= b) bytes) -> checkPrimeSync gen_range to_i64 c options = Throw e ->
  (validateObject options (js "options") None = Throw e /\ e = argType (js "options")) \/
  (validateInt32 (checks_of options) (js "options.checks") 0 2147483647 = Throw e /\ (e = argType (js "options.checks") \/ e = outOfRange (js "options.checks"))) \/
  (c = Other /\ e = argType (js "candidate")) \/
  (exists z, c = Big z /\ to_i64 z < 0).
Proof.
  intros Hb. unfold checkPrimeSync. destruct (validateObject options (js "options") None) as [[]|e'] eqn:Ho; cbn [rbind].
  2: { intros [= ->]. left. split; [done|]. unfold validateObject in Ho. by destruct (_ || _); [injection Ho as <-|]. }
  destruct (validateInt32 _ _ _ _) as [[]|e'] eqn:Hi; cbn [rbind].
  2: { intros [= ->]. right. left. split; [done|]. unfold validateInt32 in Hi. destruct (negb (isInt32 _)).
       - destruct (checks_of options); injection Hi as <-; auto.
       - destruct (checks_of options) as [| | |[z|]| | | | |]; try done. destruct (_ || _); [injection Hi as <-; auto|done]. }
  intros H. do 2 right. destruct c as [z|bytes|]; [right|exfalso|by injection H as <-; auto].
  - exists z. split; [done|]. by apply is_probably_prime_throw in H.
  - apply is_probably_prime_throw in H. pose proof (from_bytes_be_nonneg bytes (Hb _ eq_refl)). lia.
Qed.
End Correct.

(** ** Numbers from buffers *)

Lemma hex_digit n : 0 <= n < 16 -> hex_value (numberToHexCharCode n) = n.
Proof. unfold hex_value, numberToHexCharCode. intros Hn. destruct (Z.ltb_spec n 10); [rewrite (proj2 (Z.ltb_lt _ 58)) by lia|rewrite (proj2 (Z.ltb_ge _ 58)) by lia]; lia. Qed.

(** a generated prime is given to the program as the number its bytes, the
    most significant first, stand for. *)
Theorem unsigned_big_int_value buf :
  Forall (fun b => 0 <= b < 256) buf -> buf <> [] -> arrayBufferToUnsignedBigInt buf = Ok (from_bytes_be buf).
Proof.
  intros Hb Hne. unfold arrayBufferToUnsignedBigInt, BigInt_hex.
  assert ((len (hex_chars buf) =? 0) = false) as -> by (destruct buf; [done|]; cbn [hex_chars]; rewrite !len_cons; pose proof (len_nonneg (hex_chars buf)); apply Z.eqb_neq; lia).
  f_equal. unfold from_bytes_be. clear Hne. generalize 0. induction Hb as [|b buf Hb _ IH]; intros n; [done|]. cbn [hex_chars fold_left].
  rewrite IH. f_equal. change 15 with (Z.ones 4). rewrite Z.shiftr_div_pow2, Z.land_ones by lia. change (2 ^ 4) with 16.
  assert (0 <= b / 16 < 16) by (split; [apply Z.div_pos|apply Z.div_lt_upper_bound]; lia).
  pose proof (Z.div_mod b 16 ltac:(lia)). pose proof (Z.mod_pos_bound b 16 ltac:(lia)). rewrite !hex_digit by done. lia.
Qed.

(** ** Examples *)

(** The bases one, two, ... *)
Definition count_up (i : nat) (n : Z) : Z := 1 + Z.of_nat i mod (n - 1).

Lemma count_up_in_range i n : 1 < n -> 1 <= count_up i n < n.
Proof. intros Hn. unfold count_up. pose proof (Z.mod_pos_bound (Z.of_nat i) (n - 1)). lia. Qed.


(** A multiple of three beyond 64 bits is called prime: five is tested. *)
Example wide_bigint_wrapped :
  checkPrimeSync count_up wrap_i64 (Big (2 ^ 64 + 5)) (VObject [(js "checks", VNumber (Int 4))]) = Ok true /\ Z.divide 3 (2 ^ 64 + 5).
Proof. split; [vm_compute; reflexivity|]. by exists 6148914691236517207. Qed.

Lemma check_prime_errors_witness :
  let e := Error "cannot sample empty range" in
  (validateObject (VObject [(js "checks", VNumber (Int 1))]) (js "options") None = Throw e /\ e = argType (js "options")) \/
  (validateInt32 (VNumber (Int 1)) (js "options.checks") 0 2147483647 = Throw e /\ (e = argType (js "options.checks") \/ e = outOfRange (js "options.checks"))) \/
  (Big (-1) = Other /\ e = argType (js "candidate")) \/ (exists z, Big (-1) = Big z /\ id z < 0).
Proof.
  apply (check_prime_errors count_up id (Big (-1)) (VObject [(js "checks", VNumber (Int 1))])); [discriminate|vm_compute; reflexivity].
Defined.

Lemma unsigned_big_int_value_witness : arrayBufferToUnsignedBigInt [1; 0; 255] = Ok 65791.
Proof. apply (unsigned_big_int_value [1; 0; 255]); [repeat constructor; discriminate|discriminate]. Defined.

(** Without a number of checks no round is made: the square of the first prime
    after the table is called prime. *)
Example default_checks_nothing : checkPrimeSync count_up id (Big (17881 * 17881)) (VObject []) = Ok true /\ ~ Z.prime (17881 * 17881).
Proof. split; [vm_compute; reflexivity|apply Z.not_prime_square]. Qed.

(** Minus one is called prime, and with a check the range of bases is empty. *)
Example minus_one_is_prime :
  checkPrimeSync count_up id (Big (-1)) (VObject []) = Ok true /\
  checkPrimeSync count_up id (Big (-1)) (VObject [(js "checks", VNumber (Int 1))]) = Throw (Error "cannot sample empty range").
Proof. split; vm_compute; reflexivity. Qed.
