(* ===== verification/RustPath.v ===== *)
(** * Strings and paths of Rust

    What the Rust sources use of the standard library: a [str] is the list of
    its bytes, an index a number of bytes; [std::path::Path] is a string with
    the components of a Unix path. *)

From S2P Require Import Prelude.
#[local] Open Scope nat_scope.

(** ** [str] *)

Definition rstr := list Z.

(** [s.find(c)] and [s.rfind(c)] of an ASCII character. *)
Fixpoint find (c : Z) (s : rstr) : option nat :=
  match s with
  | [] => None
  | x :: s => if (x =? c)%Z then Some 0 else S <$> find c s
  end.

Fixpoint rfind (c : Z) (s : rstr) : option nat :=
  match s with
  | [] => None
  | x :: s => match rfind c s with Some i => Some (S i) | None => if (x =? c)%Z then Some 0 else None end
  end.

Definition contains_char (c : Z) (s : rstr) : bool := match find c s with Some _ => true | None => false end.
Definition starts_with (s p : rstr) : bool := is_prefix p s.
Definition ends_with (s p : rstr) : bool := is_prefix (reverse p) (reverse s).
Definition contains_str (l : list rstr) (s : rstr) : bool := existsb (str_eqb s) l.

(** [s.chars().skip(n).collect()]: bytes [10xxxxxx] continue a character. *)
Definition continues (b : Z) : bool := ((128 <=? b) && (b <? 192))%Z.
Fixpoint skip_continuation (s : rstr) : rstr :=
  match s with b :: s' => if continues b then skip_continuation s' else s | [] => [] end.
Fixpoint skip_chars (n : nat) (s : rstr) : rstr :=
  match n, s with
  | S n, _ :: s => skip_chars n (skip_continuation s)
  | _, _ => s
  end.

(** [s.replace('*', t)], and the replacement of the first match only. *)
Fixpoint replace_all (c : Z) (t s : rstr) : rstr :=
  match s with
  | [] => []
  | x :: s => if (x =? c)%Z then t ++ replace_all c t s else x :: replace_all c t s
  end.
Definition replace_first (c : Z) (t s : rstr) : rstr :=
  match find c s with Some i => take i s ++ t ++ drop (S i) s | None => s end.

(** The characters with the property White_Space, in UTF-8. *)
Definition white_space : list rstr := ([[9]; [10]; [11]; [12]; [13]; [32]; [194; 133]; [194; 160]; [225; 154; 128];
  [226; 128; 128]; [226; 128; 129]; [226; 128; 130]; [226; 128; 131]; [226; 128; 132]; [226; 128; 133]; [226; 128; 134];
  [226; 128; 135]; [226; 128; 136]; [226; 128; 137]; [226; 128; 138]; [226; 128; 168]; [226; 128; 169]; [226; 128; 175];
  [226; 129; 159]; [227; 128; 128]])%Z.

Fixpoint trim_prefixes (fuel : nat) (ps : list rstr) (s : rstr) : rstr :=
  match fuel with
  | O => s
  | S fuel => match List.find (fun p => is_prefix p s) ps with Some p => trim_prefixes fuel ps (drop (length p) s) | None => s end
  end.
Definition trim_start (s : rstr) : rstr := trim_prefixes (length s) white_space s.
Definition trim_end (s : rstr) : rstr := reverse (trim_prefixes (length s) ((fun p => reverse p) <$> white_space) (reverse s)).
Definition trim (s : rstr) : rstr := trim_end (trim_start s).

(** ** [std::path] *)

Definition slash : Z := 47.
Definition dot : Z := 46.

(** The parts of [s] between characters [sep]. *)
Fixpoint split_on (sep : Z -> bool) (s : rstr) : list rstr :=
  match s with
  | [] => [[]]
  | x :: s =>
      if sep x then [] :: split_on sep s
      else match split_on sep s with part :: parts => (x :: part) :: parts | [] => [[x]] end
  end.

Inductive component := RootDir | CurDir | ParentDir | Normal (name : rstr).

#[export] Instance component_eq_dec : EqDecision component.
Proof. solve_decision. Defined.

Definition is_absolute (p : rstr) : bool := match p with c :: _ => (c =? slash)%Z | [] => false end.

Definition is_dot (s : rstr) : bool := str_eqb s [dot].
Definition is_dotdot (s : rstr) : bool := str_eqb s [dot; dot].

(** A dot counts at the start of a relative path only. *)
Definition component_of (s : rstr) : option component :=
  if str_eqb s [] || is_dot s then None else if is_dotdot s then Some ParentDir else Some (Normal s).

Definition components (p : rstr) : list component :=
  let parts := split_on (Z.eqb slash) p in
  (if is_absolute p then [RootDir] else match parts with first :: _ => if is_dot first then [CurDir] else [] | [] => [] end)
  ++ omap component_of parts.

Definition path_starts_with (p base : rstr) : bool := bool_decide (components base `prefix_of` components p).

Definition path_join (p q : rstr) : rstr :=
  if is_absolute q then q
  else match last p with
       | None => q
       | Some c => if (c =? slash)%Z then p ++ q else p ++ [slash] ++ q
       end.

(** Trailing separators and dots do not count, on the reversed path. *)
Fixpoint trim_back (r : rstr) : rstr :=
  match r with
  | c :: (_ :: _) as r' =>
      if (c =? slash)%Z then trim_back r'
      else if (c =? dot)%Z && match r' with d :: _ => (d =? slash)%Z | [] => false end then
        match r' with [_] => r' | _ => trim_back r' end
      else r
  | _ => r
  end.

(** The reversed path after its last part. *)
Fixpoint drop_part (r : rstr) : rstr :=
  match r with c :: r' => if (c =? slash)%Z then r else drop_part r' | [] => [] end.
Fixpoint last_part (r : rstr) : rstr :=
  match r with c :: r' => if (c =? slash)%Z then [] else c :: last_part r' | [] => [] end.

Definition parent (p : rstr) : option rstr :=
  let r := trim_back (reverse p) in
  match last_part r with
  | [] => None
  | _ => Some (reverse (trim_back (drop_part r)))
  end.

Definition file_name (p : rstr) : option rstr :=
  match last_part (trim_back (reverse p)) with
  | [] => None
  | r => if is_dot (reverse r) || is_dotdot (reverse r) then None else Some (reverse r)
  end.

Definition with_file_name (p name : rstr) : rstr :=
  match file_name p with
  | Some _ => path_join (default [] (parent p)) name
  | None => path_join p name
  end.

(** ** Lemmas *)

Lemma find_Some c s i : find c s = Some i -> s !! i = Some c /\ (c ∉ take i s).
Proof.
  revert i. induction s as [|x s IH]; intros i; cbn; [done|]. destruct (Z.eqb_spec x c) as [->|Hne].
  - intros [= <-]. split; [done|]. apply not_elem_of_nil.
  - destruct (find c s) as [j|] eqn:Hf; [|done]. intros [= <-]. destruct (IH j eq_refl) as [Hj Hn]. split; [done|]. cbn. apply not_elem_of_cons. split; congruence.
Qed.

Lemma find_split c s i : find c s = Some i -> s = take i s ++ c :: drop (S i) s.
Proof. intros [Hi _]%find_Some. symmetry. by apply take_drop_middle. Qed.

Lemma find_None c s : find c s = None <-> c ∉ s.
Proof.
  induction s as [|x s IH]; cbn; [split; [intros _; apply not_elem_of_nil|done]|]. rewrite not_elem_of_cons.
  destruct (Z.eqb_spec x c) as [->|Hne]; [split; [done|tauto]|]. destruct (find c s); cbn; [split; [done|intros [_ H]; by apply IH in H]|].
  split; [intros _; split; [congruence|by apply IH]|done].
Qed.

Lemma find_app c a b : c ∉ a -> find c (a ++ c :: b) = Some (length a).
Proof.
  induction a as [|x a IH]; cbn; [intros _; by rewrite Z.eqb_refl|]. intros [Hx Ha]%not_elem_of_cons.
  destruct (Z.eqb_spec x c) as [->|_]; [done|]. by rewrite IH.
Qed.

Lemma starts_with_spec s p : starts_with s p = true <-> exists t, s = p ++ t.
Proof. apply is_prefix_spec. Qed.

Lemma ends_with_spec s p : ends_with s p = true <-> exists t, s = t ++ p.
Proof.
  unfold ends_with. rewrite is_prefix_spec. split.
  - intros [t Ht]. exists (reverse t). rewrite <- (reverse_involutive s), Ht, reverse_app, reverse_involutive. done.
  - intros [t ->]. exists (reverse t). by rewrite reverse_app.
Qed.

Lemma rfind_None c s : rfind c s = None <-> c ∉ s.
Proof.
  induction s as [|x s IH]; cbn; [split; [intros _; apply not_elem_of_nil|done]|]. rewrite not_elem_of_cons.
  destruct (rfind c s) as [i|]; [split; [done|intros [_ H]; by apply IH in H]|]. destruct (Z.eqb_spec x c) as [->|Hne]; [split; [done|tauto]|].
  split; [intros _; split; [congruence|by apply IH]|done].
Qed.

Lemma rfind_app c a b : rfind c (a ++ c :: b) = Some (length a) <-> c ∉ b.
Proof.
  induction a as [|x a IH]; cbn.
  - rewrite <- rfind_None. destruct (rfind c b) as [i|]; [split; [intros [=]|done]|by rewrite Z.eqb_refl].
  - destruct (rfind c (a ++ c :: b)) as [i|] eqn:Hr.
    + split; [intros [= ->]; by apply IH|intros Hb; f_equal; by apply IH in Hb as [= ->]].
    + apply rfind_None in Hr. destruct Hr. apply elem_of_app. right. by left.
Qed.

Lemma trim_back_length r : length (trim_back r) <= length r.
Proof.
  induction r as [|c r IH]; [done|]. destruct r as [|d r]; [done|]. cbn -[trim_back length] in *. change (trim_back (c :: d :: r)) with
    (if (c =? slash)%Z then trim_back (d :: r) else if (c =? dot)%Z && (d =? slash)%Z then match r with [] => d :: r | _ => trim_back (d :: r) end else c :: d :: r).
  repeat case_match; cbn [length] in *; lia.
Qed.

Lemma drop_part_length r : last_part r <> [] -> length (drop_part r) < length r.
Proof.
  assert (forall r, length (drop_part r) <= length r) as Hle by (induction r0 as [|c r0 IH]; cbn; [done|destruct (c =? slash)%Z; cbn; lia]).
  destruct r as [|c r]; cbn; [done|]. destruct (c =? slash)%Z; [done|]. intros _. specialize (Hle r). lia.
Qed.

(** A parent is shorter, so that a walk to the root ends. *)
Lemma parent_length p d : parent p = Some d -> length d < length p.
Proof.
  unfold parent. destruct (last_part _) eqn:Hl; [done|]. intros [= <-]. rewrite length_reverse. pose proof (trim_back_length (reverse p)) as H1.
  pose proof (trim_back_length (drop_part (trim_back (reverse p)))). assert (length (drop_part (trim_back (reverse p))) < length (trim_back (reverse p))) by (apply drop_part_length; by rewrite Hl).
  rewrite length_reverse in H1. lia.
Qed.

(** *** Parts *)

(** The parts of two texts put together: the last of one and the first of the
    other become one part. *)
Fixpoint glue (ps qs : list rstr) : list rstr :=
  match ps with
  | [] => qs
  | [p] => match qs with [] => [p] | q :: qs => (p ++ q) :: qs end
  | p :: ps => p :: glue ps qs
  end.

Lemma split_on_cons sep s : exists p ps, split_on sep s = p :: ps.
Proof. induction s as [|x s (p & ps & IH)]; cbn; [eauto|]. rewrite IH. destruct (sep x); eauto. Qed.

Lemma split_on_glue sep a b : split_on sep (a ++ b) = glue (split_on sep a) (split_on sep b).
Proof.
  induction a as [|x a IH]; cbn [app split_on].
  - destruct (split_on_cons sep b) as (p & ps & ->). done.
  - rewrite IH. destruct (split_on_cons sep a) as (p & ps & ->). destruct (split_on_cons sep b) as (q & qs & ->). destruct (sep x); [done|]. by destruct ps.
Qed.

Lemma glue_snoc ps p q qs : glue (ps ++ [p]) (q :: qs) = ps ++ (p ++ q) :: qs.
Proof. induction ps as [|x ps IH]; [done|]. cbn. rewrite IH. by destruct ps. Qed.

(** Parts for fewer separators that have none of the others are parts for all. *)
Lemma split_on_finer sep sep' s w :
  (forall c, sep c = true -> sep' c = true) -> Forall (fun c => sep' c = false) w -> w ∈ split_on sep s -> w ∈ split_on sep' s.
Proof.
  intros Hsep Hw. enough (forall p ps q qs, split_on sep s = p :: ps -> split_on sep' s = q :: qs -> (Forall (fun c => sep' c = false) p -> p = q) /\ (w ∈ ps -> w ∈ qs)) as Hs.
  { destruct (split_on_cons sep s) as (p & ps & Hp), (split_on_cons sep' s) as (q & qs & Hq). destruct (Hs _ _ _ _ Hp Hq) as [H1 H2].
    rewrite Hp, Hq, !elem_of_cons. intros [->|Hin]; [left; by apply H1|right; by apply H2]. }
  induction s as [|x s IH]; cbn; [intros p ps q qs [= <- <-] [= <- <-]; done|]. intros p ps q qs.
  destruct (split_on_cons sep s) as (p0 & ps0 & Hp), (split_on_cons sep' s) as (q0 & qs0 & Hq). destruct (IH _ _ _ _ Hp Hq) as [IH1 IH2]. rewrite Hp, Hq.
  destruct (sep x) eqn:Hx.
  - rewrite (Hsep _ Hx). intros [= <- <-] [= <- <-]. split; [done|]. rewrite !elem_of_cons. intros [->|Hin]; [left; by apply IH1|right; by apply IH2].
  - intros [= <- <-]. destruct (sep' x) eqn:Hx'; intros [= <- <-]; rewrite Forall_cons.
    + split; [intros [? _]; congruence|]. rewrite elem_of_cons. auto.
    + split; [intros [_ Hf]; f_equal; auto|done].
Qed.

Lemma split_on_elem sep s p c : p ∈ split_on sep s -> c ∈ p -> c ∈ s.
Proof.
  revert p. induction s as [|x s IH]; intros p; cbn; [by intros ->%list_elem_of_singleton ?%elem_of_nil|]. destruct (split_on_cons sep s) as (q & qs & Hq).
  rewrite Hq in *. destruct (sep x); rewrite !elem_of_cons.
  - intros [->|Hp] Hc; [by apply elem_of_nil in Hc|]. right. apply (IH p); [|done]. by apply elem_of_cons.
  - intros [->|Hp] Hc; [apply elem_of_cons in Hc as [->|Hc]; [by left|right]|right]; [apply (IH q)|apply (IH p)]; (done || by left || by right).
Qed.

Lemma split_on_snoc sep s : exists ps p, split_on sep s = ps ++ [p].
Proof. destruct (split_on_cons sep s) as (p & ps & ->). destruct (exists_last (l := p :: ps)) as (l & x & ->); [done|eauto]. Qed.

(** *** Components *)

Lemma component_of_normal p : p <> [] -> p <> [dot] -> p <> [dot; dot] -> component_of p = Some (Normal p).
Proof. intros. unfold component_of, is_dot, is_dotdot, str_eqb. by rewrite !bool_decide_eq_false_2. Qed.

Lemma component_of_parent p : component_of p = Some ParentDir <-> p = [dot; dot].
Proof. unfold component_of, is_dot, is_dotdot, str_eqb. split; [repeat case_bool_decide; naive_solver|]. by intros ->. Qed.

Lemma component_of_elem p n : component_of p = Some (Normal n) -> p = n.
Proof. unfold component_of. destruct (_ || _); [done|]. destruct (is_dotdot p); [done|]. by intros [= ->]. Qed.

Lemma components_absolute p : is_absolute p = true -> components p = RootDir :: omap component_of (split_on (Z.eqb slash) p).
Proof. unfold components. by intros ->. Qed.

Lemma components_root p l : components p = RootDir :: l -> is_absolute p = true.
Proof.
  unfold components. destruct (is_absolute p); [done|]. intros Hc. assert (RootDir ∉ omap component_of (split_on (Z.eqb slash) p)) as Hn.
  { intros (q & _ & Hq)%list_elem_of_omap. revert Hq. unfold component_of. by repeat case_match. }
  destruct Hn. destruct (split_on _ p) as [|q qs]; [done|]. destruct (is_dot q); [done|]. cbn [app] in Hc. rewrite Hc. by left.
Qed.

Lemma prefix_before {A} (l a b : list A) x : l `prefix_of` a ++ x :: b -> (x ∉ l) -> l `prefix_of` a.
Proof.
  revert a. induction l as [|y l IH]; intros a Hp Hx; [apply prefix_nil|]. apply not_elem_of_cons in Hx as [Hxy Hx].
  destruct a as [|z a]; cbn in Hp; [by apply prefix_cons_inv_1 in Hp|]. pose proof (prefix_cons_inv_1 _ _ _ _ Hp) as ->. apply prefix_cons. apply IH; [|done]. by apply prefix_cons_inv_2 in Hp.
Qed.

(** A path that lies in a directory and does not leave it. *)
Definition inside (dir p : rstr) : Prop := path_starts_with p dir = true /\ (ParentDir ∉ components p).

Lemma parent_parts p : is_absolute p = true -> ParentDir ∉ components p <-> [dot; dot] ∉ split_on (Z.eqb slash) p.
Proof.
  intros Ha. rewrite components_absolute, not_elem_of_cons, list_elem_of_omap by done. split.
  - intros [_ Hn] Hin. apply Hn. exists [dot; dot]. by rewrite component_of_parent.
  - intros Hn. split; [done|]. intros (q & Hq & ->%component_of_parent). done.
Qed.

Lemma first_part_nonempty sep t p ps : split_on sep t = p :: ps -> t <> [] -> (forall c, head t = Some c -> sep c = false) -> p <> [].
Proof.
  destruct t as [|x t]; [done|]. cbn. intros Hs _ Hh. rewrite (Hh x eq_refl) in Hs. destruct (split_on sep t); by injection Hs as <- _.
Qed.

Lemma last_part_nonempty sep t p ps : split_on sep t = ps ++ [p] -> t <> [] -> (forall c, last t = Some c -> sep c = false) -> p <> [].
Proof.
  destruct (decide (t = [])) as [->|Hne]; [done|]. destruct (exists_last Hne) as (t0 & x & ->). rewrite last_snoc, split_on_glue. intros Hs _ Hl.
  cbn in Hs. rewrite (Hl x eq_refl) in Hs. destruct (split_on_snoc sep t0) as (qs & q & Hq). rewrite Hq, glue_snoc in Hs. apply app_inj_tail in Hs as [_ <-]. by destruct q.
Qed.

(** Two dots around a part that is neither a dot nor two dots nor nothing. *)
Lemma not_dotdot (x w y : rstr) : w <> [] -> w <> [dot] -> w <> [dot; dot] -> x ++ w ++ y <> [dot; dot].
Proof.
  intros H1 H2 H3. destruct x as [|? [|? [|]]]; cbn; try (intros [=]; destruct w; done).
  - destruct w as [|? [|? [|]]]; cbn; naive_solver.
  - destruct w as [|? [|]]; cbn; naive_solver.
Qed.

Lemma parts_replace ps u v qs T :
  [dot; dot] ∉ ps -> [dot; dot] ∉ qs -> [dot] ∉ T -> [dot; dot] ∉ T -> (forall p l, T = p :: l -> p <> []) -> (forall p l, T = l ++ [p] -> p <> []) -> T <> [] ->
  exists mid, glue (ps ++ [u]) (glue T (v :: qs)) = ps ++ mid ++ qs /\ [dot; dot] ∉ ps ++ mid ++ qs.
Proof.
  intros Hps Hqs Hd Hdd Hfirst Hlast HT. destruct (exists_last HT) as (T0 & z & HT0). pose proof (Hlast _ _ HT0) as Hz. subst T. rewrite glue_snoc.
  assert (z <> [dot] /\ z <> [dot; dot]) as [Hz1 Hz2] by (split; intros ->; [apply Hd|apply Hdd]; apply elem_of_app; right; by left).
  destruct T0 as [|w W].
  - exists [u ++ z ++ v]. cbn [app]. rewrite glue_snoc. split; [done|]. rewrite !not_elem_of_app, not_elem_of_cons. split; [done|]. split; [|done]. intros Heq. symmetry in Heq. by apply not_dotdot in Heq.
  - exists ((u ++ w) :: W ++ [z ++ v]). cbn [app]. rewrite glue_snoc, <- app_assoc. split; [done|].
    pose proof (Hfirst w _ eq_refl) as Hw. cbn [app] in Hd, Hdd. rewrite not_elem_of_cons in Hd, Hdd. destruct Hd as [Hd _], Hdd as [Hdd HW]. rewrite not_elem_of_app in HW.
    repeat rewrite ?elem_of_app, ?elem_of_cons, ?elem_of_nil. intros Hi. destruct_or! Hi; try tauto.
    + symmetry in Hi. revert Hi. rewrite <- (app_nil_r w). by apply not_dotdot.
    + symmetry in Hi. by apply (not_dotdot [] z v) in Hi.
Qed.

(** Text in the place of a character that the directory does not have: the path
    stays inside when the text has no part that is a dot or two dots and neither
    begins nor ends with a slash. *)
Lemma inside_replace dir a b c t :
  is_absolute dir = true -> (c ∉ dir) -> c <> dot -> c <> slash -> inside dir (a ++ c :: b) -> t <> [] -> head t <> Some slash -> last t <> Some slash ->
  ([dot] ∉ split_on (Z.eqb slash) t) -> ([dot; dot] ∉ split_on (Z.eqb slash) t) -> inside dir (a ++ t ++ b).
Proof.
  intros Hdir Hc Hcd Hcs [Hp Hn] Ht Hh Hl Hd Hdd. apply bool_decide_eq_true in Hp.
  assert (is_absolute (a ++ c :: b) = true) as Ha.
  { rewrite (components_absolute dir Hdir) in Hp. destruct (components (a ++ c :: b)) as [|k l] eqn:Hk; [by apply prefix_nil_not in Hp|].
    apply prefix_cons_inv_1 in Hp. subst k. by apply components_root in Hk. }
  assert (is_absolute (a ++ t ++ b) = true) as Ha' by (destruct a; [cbn in Ha; by apply Z.eqb_eq in Ha|done]).
  rewrite (parent_parts _ Ha) in Hn. unfold inside. rewrite (parent_parts _ Ha'). unfold path_starts_with. rewrite bool_decide_eq_true.
  rewrite (components_absolute _ Ha) in Hp. rewrite (components_absolute _ Ha').
  destruct (split_on_snoc (Z.eqb slash) a) as (ps & u & Hu), (split_on_cons (Z.eqb slash) b) as (v & qs & Hv).
  rewrite !split_on_glue, Hu, Hv in *. cbn [split_on] in Hp, Hn. rewrite (proj2 (Z.eqb_neq slash c)), Hv, glue_snoc in Hp, Hn by done.
  rewrite not_elem_of_app, not_elem_of_cons in Hn. destruct Hn as (Hps & _ & Hqs).
  destruct (parts_replace ps u v qs (split_on (Z.eqb slash) t)) as (mid & -> & Hm); [done..| | | |].
  - intros p l Hpl. apply (first_part_nonempty _ _ _ _ Hpl Ht). intros x Hx. apply Z.eqb_neq. congruence.
  - intros p l Hpl. apply (last_part_nonempty _ _ _ _ Hpl Ht). intros x Hx. apply Z.eqb_neq. congruence.
  - destruct (split_on_cons (Z.eqb slash) t) as (? & ? & ->). done.
  - split; [|done]. rewrite !omap_app. rewrite omap_app in Hp. cbn [omap list_omap] in Hp. rewrite component_of_normal in Hp.
    + change (RootDir :: ?x ++ ?y) with ((RootDir :: x) ++ y). apply prefix_app_r. change (RootDir :: ?x ++ ?y) with ((RootDir :: x) ++ y) in Hp.
      eapply prefix_before; [exact Hp|]. rewrite (components_absolute dir Hdir), not_elem_of_cons. split; [done|].
      intros (q & Hq & He%component_of_elem)%list_elem_of_omap. apply Hc. apply (split_on_elem _ _ _ c Hq). subst q. apply elem_of_app. right. by left.
    + by destruct u.
    + destruct u as [|? [|]]; cbn; congruence.
    + destruct u as [|? [|? [|]]]; cbn; congruence.
Qed.

(** *** A path, its parent and its file name *)

Lemma components_slash p : p <> [] -> components (p ++ [slash]) = components p.
Proof.
  intros Hp. unfold components. rewrite split_on_glue. change (split_on (Z.eqb slash) [slash]) with ([[]; []] : list rstr).
  destruct (split_on_snoc (Z.eqb slash) p) as (ps & q & Hq). rewrite Hq, glue_snoc, app_nil_r. rewrite (omap_app _ ps (q :: [[]])).
  assert (is_absolute (p ++ [slash]) = is_absolute p) as -> by (by destruct p). rewrite (omap_app _ ps [q]). change (omap component_of (q :: [[]])) with (omap component_of [q]). by destruct ps.
Qed.

Lemma components_slash_dot p : components (p ++ [slash; dot]) = components (p ++ [slash]).
Proof.
  unfold components. rewrite !split_on_glue. change (split_on (Z.eqb slash) [slash; dot]) with ([[]; [dot]] : list rstr). change (split_on (Z.eqb slash) [slash]) with ([[]; []] : list rstr).
  destruct (split_on_snoc (Z.eqb slash) p) as (ps & q & Hq). rewrite Hq, !glue_snoc, app_nil_r, !omap_app. change (omap component_of (q :: [[dot]])) with (omap component_of (q :: [[]])).
  assert (is_absolute (p ++ [slash; dot]) = is_absolute (p ++ [slash])) as -> by (by destruct p). by destruct ps.
Qed.

(** What is trimmed from the end of a path has no components. *)
Lemma components_trim r : components (reverse (trim_back r)) = components (reverse r).
Proof.
  induction r as [|c r IH]; [done|]. destruct r as [|d r]; [done|]. change (trim_back (c :: d :: r)) with
    (if (c =? slash)%Z then trim_back (d :: r) else if (c =? dot)%Z && (d =? slash)%Z then match r with [] => d :: r | _ => trim_back (d :: r) end else c :: d :: r).
  destruct (Z.eqb_spec c slash) as [->|Hc].
  - rewrite IH, (reverse_cons (d :: r) slash). symmetry. apply components_slash. rewrite reverse_cons. by destruct (reverse r).
  - destruct (Z.eqb_spec c dot) as [->|]; [|done]. destruct (Z.eqb_spec d slash) as [->|]; [|done]. cbn [andb].
    assert (components (reverse (dot :: slash :: r)) = components (reverse (slash :: r))) as Heq by (rewrite !reverse_cons, <- app_assoc; apply components_slash_dot).
    destruct r; [done|]. by rewrite IH, Heq.
Qed.

Lemma last_part_app r : r = last_part r ++ drop_part r /\ (slash ∉ last_part r) /\ (drop_part r = [] \/ exists t, drop_part r = slash :: t).
Proof.
  induction r as [|c r (IH1 & IH2 & IH3)]; cbn; [split_and!; [done|apply not_elem_of_nil|by left]|]. destruct (Z.eqb_spec c slash) as [->|Hc].
  - split_and!; [done|apply not_elem_of_nil|right; eauto].
  - split_and!; [cbn; congruence|by apply not_elem_of_cons|done].
Qed.

Lemma split_on_none sep n : (forall c, c ∈ n -> sep c = false) -> split_on sep n = [n].
Proof.
  induction n as [|c n IH]; [done|]. intros Hn. cbn [split_on]. rewrite IH by (intros; apply Hn; by right). by rewrite (Hn c) by by left.
Qed.

Lemma components_name x n : (x = [] \/ exists t, x = t ++ [slash]) -> (slash ∉ n) -> n <> [] -> n <> [dot] -> n <> [dot; dot] -> components (x ++ n) = components x ++ [Normal n].
Proof.
  intros Hx Hs Hn Hd Hdd. assert (split_on (Z.eqb slash) n = [n]) as Hsn by (apply split_on_none; intros c Hc; apply Z.eqb_neq; by intros <-).
  destruct Hx as [->|[t ->]]; unfold components.
  - cbn [app]. rewrite Hsn. cbn [split_on omap list_omap]. rewrite (component_of_normal n) by done. assert (is_absolute n = false) as -> by (destruct n as [|c n]; [done|]; apply Z.eqb_neq; intros ->; apply Hs; by left).
    unfold is_dot, str_eqb. by rewrite bool_decide_eq_false_2.
  - rewrite (split_on_glue _ (t ++ [slash]) n), Hsn. rewrite split_on_glue. change (split_on (Z.eqb slash) [slash]) with ([[]; []] : list rstr).
    destruct (split_on_snoc (Z.eqb slash) t) as (ps & q & Hq). rewrite Hq, glue_snoc, app_nil_r. change (ps ++ [q; []]) with (ps ++ [q] ++ [[]]). rewrite app_assoc, glue_snoc.
    cbn [app]. rewrite !omap_app. cbn [omap list_omap]. rewrite (component_of_normal n) by done. assert (is_absolute ((t ++ [slash]) ++ n) = is_absolute (t ++ [slash])) as -> by (by destruct t).
    rewrite app_nil_r. rewrite !app_assoc. f_equal. f_equal. by destruct ps.
Qed.

Lemma parent_components p d n : parent p = Some d -> file_name p = Some n -> components p = components d ++ [Normal n].
Proof.
  unfold parent, file_name. destruct (last_part_app (trim_back (reverse p))) as (Hr & Hns & Hdrop). set (r := trim_back (reverse p)) in *.
  destruct (last_part r) as [|c l] eqn:Hl; [done|]. intros [= <-]. destruct (is_dot _) eqn:Hd; [done|]. destruct (is_dotdot _) eqn:Hdd; [done|]. intros [= <-].
  assert (components p = components (reverse r)) as -> by (unfold r; by rewrite components_trim, reverse_involutive). rewrite components_trim.
  set (dp := drop_part r) in *. clearbody dp. rewrite Hr, reverse_app.
  apply bool_decide_eq_false in Hd, Hdd. apply components_name; [|by rewrite elem_of_reverse|rewrite reverse_cons; by destruct (reverse l)|done|done].
  destruct Hdrop as [->|[t ->]]; [by left|right]. exists (reverse t). by rewrite reverse_cons.
Qed.

(** A name that can be pushed onto a path. *)
Definition plain (n : rstr) : Prop := n <> [] /\ n <> [dot] /\ (slash ∉ n).

Lemma plain_component n : plain n -> exists k, component_of n = Some k.
Proof.
  intros (H1 & H2 & _). unfold component_of, is_dot, str_eqb. rewrite !bool_decide_eq_false_2 by done. cbn. destruct (is_dotdot n); eauto.
Qed.

Lemma components_push p n k : is_absolute p = true -> plain n -> component_of n = Some k -> components (path_join p n) = components p ++ [k] /\ is_absolute (path_join p n) = true.
Proof.
  intros Ha (Hn & _ & Hs) Hk. assert (split_on (Z.eqb slash) n = [n]) as Hsn by (apply split_on_none; intros c Hc; apply Z.eqb_neq; by intros <-).
  assert (forall t, is_absolute (t ++ [slash]) = true -> components ((t ++ [slash]) ++ n) = components (t ++ [slash]) ++ [k] /\ is_absolute ((t ++ [slash]) ++ n) = true) as Hpush.
  { intros t Ht. assert (is_absolute ((t ++ [slash]) ++ n) = true) as Ht' by (by destruct t). split; [|done]. rewrite !components_absolute by done.
    rewrite (split_on_glue _ (t ++ [slash]) n), Hsn. rewrite split_on_glue. change (split_on (Z.eqb slash) [slash]) with ([[]; []] : list rstr).
    destruct (split_on_snoc (Z.eqb slash) t) as (ps & q & Hq). rewrite Hq, glue_snoc, app_nil_r. change (ps ++ [q; []]) with (ps ++ [q] ++ [[]]). rewrite app_assoc, glue_snoc.
    cbn [app]. rewrite !omap_app. cbn [omap list_omap]. by rewrite Hk, app_nil_r. }
  unfold path_join. assert (is_absolute n = false) as -> by (destruct n as [|c n]; [done|]; apply Z.eqb_neq; intros ->; apply Hs; by left).
  destruct (last p) as [c|] eqn:Hl; [|apply last_None in Hl; by subst p]. destruct (Z.eqb_spec c slash) as [->|Hc].
  - apply last_Some in Hl as [t ->]. by apply Hpush.
  - assert (is_absolute (p ++ [slash]) = true) as Ha' by (by destruct p). rewrite app_assoc. rewrite <- (components_slash p) by (by destruct p). by apply Hpush.
Qed.

Lemma components_join root q :
  is_absolute root = true -> Forall plain q -> components (fold_left path_join q root) = components root ++ omap component_of q /\ is_absolute (fold_left path_join q root) = true.
Proof.
  intros Ha Hq. revert root Ha. induction Hq as [|n q Hn _ IH]; intros root Ha; cbn [fold_left]; [by rewrite app_nil_r|].
  destruct (plain_component n Hn) as [k Hk]. destruct (components_push root n k Ha Hn Hk) as [Hc Ha']. destruct (IH _ Ha') as [-> ->].
  split; [|done]. cbn [omap list_omap]. by rewrite Hk, Hc, <- app_assoc.
Qed.

Lemma components_plain p : is_absolute p = true -> exists parts, components p = RootDir :: omap component_of parts /\ Forall (fun n => slash ∉ n) parts.
Proof.
  intros Ha. exists (split_on (Z.eqb slash) p). split; [by apply components_absolute|]. clear Ha. induction p as [|c p IH]; cbn [split_on]; [apply Forall_singleton, not_elem_of_nil|].
  destruct (Z.eqb_spec slash c) as [<-|Hc]; [constructor; [apply not_elem_of_nil|done]|]. destruct (split_on _ p) as [|q qs].
  - apply Forall_singleton, not_elem_of_cons. split; [done|apply not_elem_of_nil].
  - apply Forall_cons in IH as [Hq Hqs]. constructor; [|done]. by apply not_elem_of_cons.
Qed.

Example path_examples :
  parent (js "/a/b/") = Some (js "/a") /\ parent (js "/a") = Some (js "/") /\ parent (js "/") = None /\ parent (js "a") = Some [] /\
  parent (js "/a/./b") = Some (js "/a") /\ parent [] = None /\ parent (js "/.") = None /\ file_name (js "/x/y.js/") = Some (js "y.js") /\
  file_name (js "/x/..") = None /\ path_join (js "/a") (js "b") = js "/a/b" /\ path_join (js "/a/") (js "/b") = js "/b" /\
  path_starts_with (js "/a/bc") (js "/a/b") = false /\ path_starts_with (js "/a/./b") (js "/a//") = true /\
  with_file_name (js "/a/b.js") (js "c") = js "/a/c".
Proof. vm_compute. repeat split. Qed.
