(* ===== verification/PackageJson.v ===== *)
(** * Package descriptions: src/crates/node/package_json.rs

    The values of a package.json, the fields that resolution reads, and the
    cache of loaded files.  The parser of JSON and the file system are
    parameters; an object is the list of its fields in the order of iteration. *)

From stdpp Require Import gmap.
From S2P Require Import Prelude RustPath.

(** A panic ends the thread; no handler of errors sees it. *)
Definition panic {A} (message : string) : result A := Throw (Coded "panic" (js message)).

Inductive json :=
| JNull
| JBool (b : bool)
| JNumber (text : rstr)
| JString (s : rstr)
| JArray (l : list json)
| JObject (fields : list (rstr * json)).

(** Induction that reaches the values inside arrays and objects. *)
Section JsonInd.
Variable P : json -> Prop.
Hypothesis Pnull : P JNull.
Hypothesis Pbool : forall b, P (JBool b).
Hypothesis Pnumber : forall n, P (JNumber n).
Hypothesis Pstring : forall s, P (JString s).
Hypothesis Parray : forall l, Forall P l -> P (JArray l).
Hypothesis Pobject : forall fs, Forall (fun f => P (snd f)) fs -> P (JObject fs).

Fixpoint json_nested_ind (v : json) : P v :=
  match v with
  | JNull => Pnull
  | JBool b => Pbool b
  | JNumber n => Pnumber n
  | JString s => Pstring s
  | JArray l => Parray l ((fix all l : Forall P l := match l with [] => List.Forall_nil _ | v :: l => @List.Forall_cons _ P v l (json_nested_ind v) (all l) end) l)
  | JObject fs =>
      Pobject fs ((fix all fs : Forall (fun f => P (snd f)) fs :=
        match fs with [] => List.Forall_nil _ | f :: fs => @List.Forall_cons _ (fun f => P (snd f)) f fs (json_nested_ind (snd f)) (all fs) end) fs)
  end.
End JsonInd.

(** [Map::get] and [Value::get]. *)
Fixpoint map_get {A} (fields : list (rstr * A)) (key : rstr) : option A :=
  match fields with
  | [] => None
  | (k, v) :: fields => if str_eqb k key then Some v else map_get fields key
  end.
Definition get (v : json) (key : rstr) : option json := match v with JObject fields => map_get fields key | _ => None end.
Definition as_str (v : json) : option rstr := match v with JString s => Some s | _ => None end.
Definition as_object (v : json) : option (list (rstr * json)) := match v with JObject fields => Some fields | _ => None end.

Inductive NodeModuleKind := Esm | Cjs.

Record PackageJson := Package {
  exists_ : bool;
  exports : option (list (rstr * json));
  imports : option (list (rstr * json));
  bin : option json;
  main_ : option rstr;
  module_ : option rstr;
  name : option rstr;
  version : option rstr;
  path : rstr;
  typ : rstr;
  types : option rstr;
  dependencies : option (list (rstr * rstr));
  dev_dependencies : option (list (rstr * rstr));
  scripts : option (list (rstr * rstr))
}.

Definition empty_package (p : rstr) : PackageJson := Package false None None None None None None None p (js "none") None None None None.

(** Keys of conditions and keys of subpaths must not be mixed. *)
Definition cur_is_conditional_sugar (key : rstr) : bool := str_eqb key [] || negb (starts_with key [dot]).

Fixpoint same_sugar (sugar : bool) (keys : list rstr) : result bool :=
  match keys with
  | [] => Ok sugar
  | key :: keys => if Bool.eqb sugar (cur_is_conditional_sugar key) then same_sugar sugar keys else panic "exports mixes subpaths and conditions"
  end.

Definition is_conditional_exports_main_sugar (exports : json) : result bool :=
  match exports with
  | JString _ | JArray _ => Ok true
  | JObject fields =>
      match fields.*1 with
      | [] => Ok false
      | key :: keys => same_sugar (cur_is_conditional_sugar key) keys
      end
  | _ => Ok false
  end.

(** [serde_json::from_value] to a map of strings. *)
Fixpoint string_fields (fields : list (rstr * json)) : option (list (rstr * rstr)) :=
  match fields with
  | [] => Some []
  | (k, JString s) :: fields => (fun r => (k, s) :: r) <$> string_fields fields
  | _ => None
  end.

Definition dependencies_of (v : option json) : result (option (list (rstr * rstr))) :=
  match v with
  | Some (JObject fields) => match string_fields fields with Some deps => Ok (Some deps) | None => panic "invalid type of a dependency" end
  | _ => Ok None
  end.

Definition exports_of (v : option json) : result (option (list (rstr * json))) :=
  match v with
  | None => Ok None
  | Some exports =>
      let! sugar := is_conditional_exports_main_sugar exports in
      if sugar then Ok (Some [([dot], exports)]) else Ok (as_object exports)
  end.

Definition typ_of (v : option json) : rstr :=
  match v with
  | Some (JString t) => if negb (str_eqb t (js "module")) && negb (str_eqb t (js "commonjs")) then js "none" else t
  | _ => js "none"
  end.

Definition load_from_value (p : rstr) (v : json) : result PackageJson :=
  let str key := get v (js key) ≫= as_str in
  let! exports := exports_of (get v (js "exports")) in
  let! dependencies := dependencies_of (get v (js "dependencies")) in
  let! dev_dependencies := dependencies_of (get v (js "devDependencies")) in
  Ok {|
    exists_ := true;
    path := p;
    main_ := str "main"%string;
    name := str "name"%string;
    version := str "version"%string;
    module_ := str "module"%string;
    typ := typ_of (get v (js "type"));
    types := match get v (js "typings") with Some t => Some t | None => get v (js "types") end ≫= as_str;
    exports := exports;
    imports := get v (js "imports") ≫= as_object;
    bin := get v (js "bin");
    dependencies := dependencies;
    dev_dependencies := dev_dependencies;
    scripts := match get v (js "scripts") with Some (JObject fields) => string_fields fields | _ => None end
  |}.

Definition main (pkg : PackageJson) (referrer_kind : NodeModuleKind) : option rstr :=
  let main :=
    match referrer_kind with
    | Esm => if str_eqb (typ pkg) (js "module") then match module_ pkg with Some m => Some m | None => main_ pkg end else main_ pkg
    | Cjs => main_ pkg
    end in
  match trim <$> main with Some [] => None | m => m end.

(** ** Loading *)

Inductive read := Source (text : rstr) | NotFound | ReadError.

Section Load.

(** The file system and the parser of JSON. *)
Context (read_text_file_sync : rstr -> read) (from_str : rstr -> option json).

Definition load_from_string (p source : rstr) : result PackageJson :=
  if str_eqb (trim source) [] then Ok (empty_package p)
  else
    match from_str source with
    | None => Throw (Error "malformed package.json")
    | Some v => load_from_value p v
    end.

Definition load_skip_read_permission (cache : gmap rstr PackageJson) (p : rstr) : result (gmap rstr PackageJson * PackageJson) :=
  if negb (is_absolute p) then panic "assertion failed"
  else
    match cache !! p with
    | Some pkg => Ok (cache, pkg)
    | None =>
        match read_text_file_sync p with
        | NotFound => Ok (cache, empty_package p)
        | ReadError => Throw (Error "Error loading package.json")
        | Source text => let! pkg := load_from_string p text in Ok (<[path pkg := pkg]> cache, pkg)
        end
    end.

(** Without a cache. *)
Definition load_fresh (p : rstr) : result PackageJson :=
  if negb (is_absolute p) then panic "assertion failed"
  else
    match read_text_file_sync p with
    | NotFound => Ok (empty_package p)
    | ReadError => Throw (Error "Error loading package.json")
    | Source text => load_from_string p text
    end.

(** A sequence of loads that share the cache. *)
Fixpoint load_all (cache : gmap rstr PackageJson) (ps : list rstr) : list (result PackageJson) :=
  match ps with
  | [] => []
  | p :: ps =>
      match load_skip_read_permission cache p with
      | Ok (cache, pkg) => Ok pkg :: load_all cache ps
      | Throw e => Throw e :: load_all cache ps
      end
  end.

Lemma load_path p text pkg : load_from_string p text = Ok pkg -> path pkg = p.
Proof.
  unfold load_from_string. destruct (str_eqb _ _); [by intros [= <-]|]. destruct (from_str text) as [v|]; [|done]. unfold load_from_value.
  destruct (exports_of _); cbn [rbind]; [|done]. destruct (dependencies_of _); cbn [rbind]; [|done]. destruct (dependencies_of _); cbn [rbind]; [|done]. by intros [= <-].
Qed.

Definition cache_ok (cache : gmap rstr PackageJson) : Prop := forall p pkg, cache !! p = Some pkg -> load_fresh p = Ok pkg.

Lemma load_cached_ok cache p :
  cache_ok cache ->
  match load_skip_read_permission cache p with
  | Ok (cache', pkg) => load_fresh p = Ok pkg /\ cache_ok cache'
  | Throw e => load_fresh p = Throw e
  end.
Proof.
  intros Hc. unfold load_skip_read_permission. destruct (is_absolute p) eqn:Ha; [|unfold load_fresh; by rewrite Ha]. cbn [negb].
  destruct (cache !! p) as [pkg|] eqn:Hp; [split; [by apply Hc|done]|].
  assert (load_fresh p = match read_text_file_sync p with NotFound => Ok (empty_package p) | ReadError => Throw (Error "Error loading package.json") | Source text => load_from_string p text end) as Hf
    by (unfold load_fresh; by rewrite Ha).
  rewrite Hf. destruct (read_text_file_sync p) as [text| |]; [|done|done]. destruct (load_from_string p text) as [pkg|e] eqn:Hl; cbn [rbind]; [|done].
  split; [done|]. rewrite (load_path _ _ _ Hl). intros q pkg' [[<- <-]|[_ Hq]]%lookup_insert_Some; [done|by apply Hc].
Qed.

(** the cache of package descriptions cannot be seen: as long as the files
    stay the same, every load of a sequence gives what a load without a cache
    gives, errors included. *)
Theorem cache_transparent ps : load_all ∅ ps = load_fresh <$> ps.
Proof.
  assert (forall cache, cache_ok cache -> load_all cache ps = load_fresh <$> ps) as H; [|apply H; intros p pkg; by rewrite lookup_empty].
  induction ps as [|p ps IH]; intros cache Hc; [done|]. cbn [load_all]. rewrite fmap_cons. pose proof (load_cached_ok cache p Hc) as Hl.
  destruct (load_skip_read_permission cache p) as [[cache' pkg]|e]; [destruct Hl as [-> Hc']|rewrite Hl]; f_equal; auto.
Qed.
End Load.

(** ** Examples *)

(** A dependency whose value is not a string makes the load panic. *)
Example dependency_panics :
  load_from_value (js "/package.json") (JObject [(js "dependencies", JObject [(js "a", JNumber (js "1"))])]) = panic "invalid type of a dependency".
Proof. reflexivity. Qed.

(** So does a mix of subpaths and conditions, which Node refuses with an error. *)
Example mixed_exports_panic :
  load_from_value (js "/package.json") (JObject [(js "exports", JObject [(js ".", JNull); (js "import", JNull)])]) = panic "exports mixes subpaths and conditions".
Proof. reflexivity. Qed.
