(* ===== verification/Resolution.v ===== *)
(** * Resolution of modules: src/crates/node/resolution.rs

    From a specifier in a program to the module it names: relative paths, the
    packages of npm with their "exports" and "imports", and the files that
    declare types.  Urls, the file system, the cleaning of paths and the npm
    resolver are the interface [Host]. *)

From stdpp Require Import gmap.
From S2P Require Import Prelude RustPath PackageJson.

Inductive NodeResolutionMode := Execution | Types.
Definition is_types (m : NodeResolutionMode) : bool := match m with Types => true | Execution => false end.

Inductive permissions := OfCaller | AllowAll.

(** The kinds of files that the resolution tells apart. *)
Inductive MediaType := JavaScript | Jsx | Mjs | CjsFile | TypeScript | Tsx | Mts | Cts | Dts | Dmts | Dcts | Unknown.

Class Host := {
  url : Type;
  url_parse : rstr -> option url;
  url_join : url -> rstr -> option url;
  url_scheme : url -> rstr;
  url_path : url -> rstr;
  url_str : url -> rstr;
  from_specifier : url -> MediaType;
  from_file_path : rstr -> option url;
  url_to_file_path : url -> option rstr;
  (** [path_clean::PathClean::clean]. *)
  path_clean : rstr -> rstr;
  to_lowercase : rstr -> rstr;
  exists_sync : rstr -> bool;
  is_file_sync : rstr -> bool;
  is_dir_sync : rstr -> bool;
  (** Whether there is something: a directory, a file. *)
  stat_sync : rstr -> option (bool * bool);
  realpath_sync : rstr -> option rstr;
  strip_unc_prefix : rstr -> rstr;
  read_text_file_sync : rstr -> read;
  from_str : rstr -> option json;
  resolve_package_folder_from_package : rstr -> url -> NodeResolutionMode -> result rstr;
  in_npm_package : url -> bool;
  (** With the permissions of the caller, or with all of them. *)
  ensure_read_permission : permissions -> rstr -> result unit
}.

Inductive NodeResolution {H : Host} := REsm (u : url) | RCommonJs (u : url) | RBuiltIn (specifier : rstr).

Definition DEFAULT_CONDITIONS : list rstr := [js "deno"; js "node"; js "import"].
Definition REQUIRE_CONDITIONS : list rstr := [js "require"; js "node"].

Definition SUPPORTED_BUILTIN_NODE_MODULES : list rstr := js <$> [
  "assert"; "assert/strict"; "async_hooks"; "buffer"; "child_process"; "cluster"; "console"; "constants"; "crypto"; "dgram";
  "diagnostics_channel"; "dns"; "dns/promises"; "domain"; "events"; "fs"; "fs/promises"; "http"; "http2"; "https"; "module"; "net"; "os";
  "path"; "path/posix"; "path/win32"; "perf_hooks"; "process"; "punycode"; "querystring"; "repl"; "readline"; "stream"; "stream/consumers";
  "stream/promises"; "stream/web"; "string_decoder"; "sys"; "test"; "timers"; "timers/promises"; "tls"; "tty"; "url"; "util"; "util/types";
  "v8"; "vm"; "worker_threads"; "zlib"]%string.

Definition is_builtin_node_module (module_name : rstr) : bool := contains_str SUPPORTED_BUILTIN_NODE_MODULES module_name.

(** ** Errors *)

Definition invalid_module_specifier (request : rstr) : jserr := Coded "ERR_INVALID_MODULE_SPECIFIER" request.
Definition invalid_package_target (subpath : rstr) : jserr := Coded "ERR_INVALID_PACKAGE_TARGET" subpath.
Definition exports_not_found (subpath : rstr) : jserr := Coded "ERR_PACKAGE_PATH_NOT_EXPORTED" subpath.
Definition import_not_defined (specifier : rstr) : jserr := Coded "ERR_PACKAGE_IMPORT_NOT_DEFINED" specifier.
Definition module_not_found (path : rstr) : jserr := Coded "ERR_MODULE_NOT_FOUND" path.
Definition unsupported_dir_import (path : rstr) : jserr := Coded "ERR_UNSUPPORTED_DIR_IMPORT" path.
Definition unsupported_esm_url_scheme (u : rstr) : jserr := Coded "ERR_UNSUPPORTED_ESM_URL_SCHEME" u.

(** [err_string.starts_with("[ERR_INVALID_PACKAGE_TARGET]")]. *)
Definition is_invalid_package_target (e : jserr) : bool := match e with Coded code _ => bool_decide (code = "ERR_INVALID_PACKAGE_TARGET"%string) | _ => false end.

(** ** Names and patterns *)

Definition star : Z := 42.

Definition is_relative_specifier (specifier : rstr) : bool :=
  match specifier with
  | c :: rest =>
      if (c =? dot)%Z then
        match rest with
        | [] => true
        | c1 :: rest1 =>
            if (c1 =? slash)%Z then true
            else if (c1 =? dot)%Z then match rest1 with [] => true | c2 :: _ => (c2 =? slash)%Z end else false
        end
      else false
  | [] => false
  end.

Definition should_be_treated_as_relative_or_absolute_path (specifier : rstr) : bool :=
  if str_eqb specifier [] then false else if starts_with specifier [slash] then true else is_relative_specifier specifier.

Definition parse_npm_pkg_name (specifier : rstr) : result (rstr * rstr * bool) :=
  let is_scoped := negb (str_eqb specifier []) && starts_with specifier (js "@") in
  let first := find slash specifier in
  let separator_index :=
    if is_scoped then
      match first with
      | Some index => (fun new_index => index + 1 + new_index)%nat <$> find slash (drop (index + 1) specifier)
      | None => None
      end
    else first in
  let valid := negb (str_eqb specifier []) && negb (is_scoped && match first with None => true | Some _ => false end) in
  let package_name := match separator_index with Some index => take index specifier | None => specifier end in
  if negb (valid && forallb (fun ch => negb ((ch =? 37)%Z || (ch =? 92)%Z)) package_name)
  then Throw (invalid_module_specifier specifier)
  else
    let package_subpath := match separator_index with Some index => dot :: skip_chars index specifier | None => [dot] end in
    Ok (package_name, package_subpath, is_scoped).

Definition base_len (s : rstr) : nat := match find star s with Some index => index + 1 | None => length s end.

Definition pattern_key_compare (a b : rstr) : Z :=
  if (base_len b <? base_len a)%nat then -1
  else if (base_len a <? base_len b)%nat then 1
  else if negb (contains_char star a) then 1
  else if negb (contains_char star b) then -1
  else if (length b <? length a)%nat then -1
  else if (length a <? length b)%nat then 1
  else 0.

(** [(^|\\|/)(\.\.?|node_modules)(\\|/|$)]: some part between slashes and
    backslashes is one of these. *)
Definition is_separator (c : Z) : bool := ((c =? slash) || (c =? 92))%Z.
Definition invalid_segment (s : rstr) : bool :=
  existsb (fun part => is_dot part || is_dotdot part || str_eqb part (js "node_modules")) (split_on is_separator s).

(** *** Patterns in "exports" *)

(** The part of [package_subpath] that the pattern [key] leaves open. *)
Definition exports_match (package_subpath key best_match : rstr) : option rstr :=
  match find star key with
  | None => None
  | Some pattern_index =>
      let key_sub := take pattern_index key in
      let pattern_trailer := drop (pattern_index + 1) key in
      if starts_with package_subpath key_sub && (length key <=? length package_subpath)%nat && ends_with package_subpath pattern_trailer
         && (pattern_key_compare best_match key =? 1)%Z && bool_decide (rfind star key = Some pattern_index)
      then Some (take (length package_subpath - length pattern_trailer - pattern_index) (drop pattern_index package_subpath))
      else None
  end.

Fixpoint exports_best (package_subpath : rstr) (keys : list rstr) (best_match : rstr) (best_match_subpath : option rstr) : rstr * option rstr :=
  match keys with
  | [] => (best_match, best_match_subpath)
  | key :: keys =>
      match exports_match package_subpath key best_match with
      | Some subpath => exports_best package_subpath keys key (Some subpath)
      | None => exports_best package_subpath keys best_match best_match_subpath
      end
  end.

(** *** Patterns in "imports" *)

(** The range ends past the last byte when the trailer is empty, which panics. *)
Definition imports_match (name key best_match : rstr) : option (result rstr) :=
  match find star key with
  | None => None
  | Some pattern_index =>
      let key_sub := take (pattern_index + 1) key in
      let pattern_trailer := drop (pattern_index + 1) key in
      if starts_with name key_sub && (length key <? length name)%nat && ends_with name pattern_trailer
         && (pattern_key_compare best_match key =? 1)%Z && bool_decide (rfind star key = Some pattern_index)
      then
        let stop := (length name - length pattern_trailer + 1)%nat in
        Some (if (length name <? stop)%nat then panic "range end index out of range" else Ok (take (stop - pattern_index) (drop pattern_index name)))
      else None
  end.

Fixpoint imports_best (name : rstr) (keys : list rstr) (best_match : rstr) (best_match_subpath : option rstr) : result (rstr * option rstr) :=
  match keys with
  | [] => Ok (best_match, best_match_subpath)
  | key :: keys =>
      match imports_match name key best_match with
      | Some subpath => let! subpath := subpath in imports_best name keys key (Some subpath)
      | None => imports_best name keys best_match best_match_subpath
      end
  end.

(** ** The resolver *)

(** A call that does not return within the fuel. *)
Definition out_of_fuel {A} : result A := Throw (Coded "out of fuel" []).
(** What handlers of errors do not see. *)
Definition is_fatal (e : jserr) : bool := match e with Coded code _ => bool_decide (code = "out of fuel"%string \/ code = "panic"%string) | _ => false end.

Section Resolver.
Context {H : Host}.

Definition to_file_specifier (p : rstr) : result url := match from_file_path p with Some u => Ok u | None => panic "Invalid path" end.
Definition to_file_path (u : url) : result rstr := match url_to_file_path u with Some p => Ok p | None => panic "Provided URL was not file:// URL" end.
Definition parent_of (p : rstr) : result rstr := match parent p with Some d => Ok d | None => panic "called unwrap on a None value" end.

(** The name after [node:]. *)
Definition get_module_name_from_builtin_node_module_specifier (u : url) : option rstr :=
  if str_eqb (url_scheme u) (js "node") then (fun i => drop (S i) (url_str u)) <$> find 58 (url_str u) else None.

(** The cleaning of a path; the branch for Windows does not exist on Unix. *)
Definition clean (p : rstr) : rstr := path_clean p.

(** The cache of loaded files cannot be seen, so it is left out. *)
Definition load (perm : permissions) (p : rstr) : result PackageJson :=
  let! _ := ensure_read_permission perm p in load_fresh read_text_file_sync from_str p.

Definition load_package_json (perm : permissions) (p : rstr) : result PackageJson := load perm p.

(** *** What becomes of a resolution *)

Definition unwrap_parse (s : rstr) : result url := match url_parse s with Some u => Ok u | None => panic "called unwrap on an Err value" end.

Definition into_url (r : NodeResolution) : result url :=
  match r with
  | REsm u | RCommonJs u => Ok u
  | RBuiltIn specifier => unwrap_parse (if starts_with specifier (js "node:") then specifier else js "node:" ++ specifier)
  end.

Definition into_specifier_and_media_type (resolution : option NodeResolution) : result (url * MediaType) :=
  match resolution with
  | Some (RCommonJs specifier) =>
      Ok (specifier, match from_specifier specifier with JavaScript | Jsx => CjsFile | TypeScript | Tsx => Cts | Dts => Dcts | media_type => media_type end)
  | Some (REsm specifier) =>
      Ok (specifier, match from_specifier specifier with JavaScript | Jsx => Mjs | TypeScript | Tsx => Mts | Dts => Dmts | media_type => media_type end)
  | Some resolution => let! u := into_url resolution in Ok (u, Dts)
  | None => let! u := unwrap_parse (js "internal:///missing_dependency.d.ts") in Ok (u, Dts)
  end.

(** *** Whether a module is in a package of npm *)

Definition in_npm_package_with_cache (cache : gmap rstr bool) (specifier : rstr) : gmap rstr bool * bool :=
  match cache !! specifier with
  | Some result => (cache, result)
  | None =>
      let result := match url_parse specifier with Some specifier => in_npm_package specifier | None => false end in
      (<[specifier := result]> cache, result)
  end.

(** *** The closest package.json *)

Definition package_json_in (dir : rstr) : rstr := path_join dir (js "package.json").

(** The parents of [dir], nearest first; a parent is shorter. *)
Fixpoint closest_in_parents (fuel : nat) (dir : rstr) : option rstr :=
  match fuel with
  | O => None
  | S fuel =>
      match parent dir with
      | None => None
      | Some dir => if exists_sync (package_json_in dir) then Some (package_json_in dir) else closest_in_parents fuel dir
      end
  end.

Definition get_closest_package_json_path (file_path : rstr) : result (option rstr) :=
  let! dir := parent_of file_path in
  match realpath_sync dir with
  | None => Throw (Error "realpath")
  | Some real =>
      let current_dir := strip_unc_prefix real in
      if exists_sync (package_json_in current_dir) then Ok (Some (package_json_in current_dir))
      else Ok (closest_in_parents (length current_dir) current_dir)
  end.

Definition get_closest_package_json_from_path (perm : permissions) (file_path : rstr) : result (option PackageJson) :=
  let! p := get_closest_package_json_path file_path in
  match p with
  | None => Ok None
  | Some p => let! pkg := load_package_json perm p in Ok (Some pkg)
  end.

Definition get_closest_package_json (perm : permissions) (u : url) : result (option PackageJson) :=
  match url_to_file_path u with
  | None => Ok None
  | Some file_path => get_closest_package_json_from_path perm file_path
  end.

(** *** Targets *)

Section Targets.

(** The declaration of the types of a file, and the resolution of a package for
    a target in "imports"; both come back to targets. *)
Context (path_to_declaration_url : rstr -> NodeModuleKind -> result (option url)).
Context (package_resolve : rstr -> url -> NodeModuleKind -> list rstr -> NodeResolutionMode -> result (option url)).

Record request := Request {
  package_json_path : rstr;
  referrer_kind : NodeModuleKind;
  conditions : list rstr;
  mode : NodeResolutionMode
}.

Definition resolve_import_target (rq : request) (target subpath : rstr) (pattern : bool) : result url :=
  let export_target := if pattern then replace_first star subpath target else target ++ subpath in
  let! package_json_url := to_file_specifier (package_json_path rq) in
  match package_resolve export_target package_json_url (referrer_kind rq) (conditions rq) (mode rq) with
  | Ok (Some u) => Ok u
  | r =>
      let e := match r with Throw e => e | Ok _ => Error "not found" end in
      if is_builtin_node_module target && negb (is_fatal e) then unwrap_parse (js "node:" ++ target) else Throw e
  end.

Definition resolve_package_target_string (rq : request) (target subpath match_ : rstr) (pattern internal : bool) : result url :=
  let invalid := Throw (invalid_package_target match_) in
  if negb (str_eqb subpath []) && negb pattern && negb (ends_with target [slash]) then invalid
  else if negb (starts_with target (js "./")) then
    if internal && negb (starts_with target (js "../")) && negb (starts_with target [slash]) then
      match url_parse target with
      | Some u => match get_module_name_from_builtin_node_module_specifier u with Some _ => Ok u | None => invalid end
      | None => resolve_import_target rq target subpath pattern
      end
    else invalid
  else if invalid_segment (drop 2 target) then invalid
  else
    let! package_path := parent_of (package_json_path rq) in
    let resolved_path := clean (path_join package_path target) in
    if negb (path_starts_with resolved_path package_path) then invalid
    else if str_eqb subpath [] then to_file_specifier resolved_path
    else if invalid_segment subpath then
      Throw (invalid_module_specifier (if pattern then replace_all star subpath match_ else match_ ++ subpath))
    else if pattern then to_file_specifier (replace_first star subpath resolved_path)
    else to_file_specifier (clean (path_join resolved_path subpath)).

(** A target that is a string. *)
Definition resolve_string (rq : request) (target subpath package_subpath : rstr) (pattern internal : bool) : result (option url) :=
  let! u := resolve_package_target_string rq target subpath package_subpath pattern internal in
  if is_types (mode rq) && str_eqb (url_scheme u) (js "file") then
    match url_to_file_path u with
    | Some p => path_to_declaration_url p (referrer_kind rq)
    | None => panic "called unwrap on an Err value"
    end
  else Ok (Some u).

Definition condition_applies (rq : request) (key : rstr) : bool :=
  str_eqb key (js "default") || contains_str (conditions rq) key || (is_types (mode rq) && str_eqb key (js "types")).

(** Of an array the first target that resolves; invalid targets are passed over. *)
Fixpoint resolve_array (resolve : json -> result (option url)) (items : list json) (last_error : option jserr) : result (option url) :=
  match items with
  | [] => match last_error with None => Ok None | Some e => Throw e end
  | item :: items =>
      match resolve item with
      | Ok (Some u) => Ok (Some u)
      | Ok None => resolve_array resolve items None
      | Throw e => if is_invalid_package_target e then resolve_array resolve items (Some e) else Throw e
      end
  end.

(** Of an object the first condition that applies and resolves. *)
Fixpoint resolve_object (applies : rstr -> bool) (resolve : json -> result (option url)) (fields : list (rstr * json)) (otherwise : result (option url)) : result (option url) :=
  match fields with
  | [] => otherwise
  | (key, target) :: fields =>
      if applies key then
        let! resolved := resolve target in
        match resolved with
        | Some u => Ok (Some u)
        | None => resolve_object applies resolve fields otherwise
        end
      else resolve_object applies resolve fields otherwise
  end.

Fixpoint resolve_package_target (rq : request) (target : json) (subpath package_subpath : rstr) (pattern internal : bool) : result (option url) :=
  match target with
  | JString s => resolve_string rq s subpath package_subpath pattern internal
  | JArray items => resolve_array (fun item => resolve_package_target rq item subpath package_subpath pattern internal) items None
  | JObject fields =>
      resolve_object (condition_applies rq) (fun v => resolve_package_target rq v subpath package_subpath pattern internal) fields
        (Throw (invalid_package_target package_subpath))
  | JNull => Ok None
  | _ => Throw (invalid_package_target package_subpath)
  end.

(** *** "exports" and "imports" *)

Definition or_not_found (package_subpath : rstr) (r : result (option url)) : result url :=
  let! r := r in match r with Some u => Ok u | None => Throw (exports_not_found package_subpath) end.

Definition package_exports_resolve (rq : request) (package_subpath : rstr) (exports : list (rstr * json)) : result url :=
  match (if contains_char star package_subpath || ends_with package_subpath [slash] then None else map_get exports package_subpath) with
  | Some target => or_not_found package_subpath (resolve_package_target rq target [] package_subpath false false)
  | None =>
      let '(best_match, best_match_subpath) := exports_best package_subpath exports.*1 [] None in
      match best_match_subpath, map_get exports best_match with
      | Some subpath, Some target => or_not_found package_subpath (resolve_package_target rq target subpath best_match true false)
      | _, _ => Throw (exports_not_found package_subpath)
      end
  end.

Definition package_imports_resolve (name : rstr) (kind : NodeModuleKind) (referrer_pkg_json : option PackageJson) (conds : list rstr) (m : NodeResolutionMode) : result url :=
  if str_eqb name (js "#") || starts_with name (js "#/") || ends_with name [slash] then Throw (invalid_module_specifier name)
  else
    match referrer_pkg_json with
    | Some pkg =>
        match (if exists_ pkg then imports pkg else None) with
        | Some imports =>
            let rq := Request (path pkg) kind conds m in
            match (if contains_char star name then None else map_get imports name) with
            | Some target =>
                let! resolved := resolve_package_target rq target [] name false true in
                match resolved with Some u => Ok u | None => Throw (import_not_defined name) end
            | None =>
                let! best := imports_best name imports.*1 [] None in
                match snd best, map_get imports (fst best) with
                | Some subpath, Some target =>
                    let! resolved := resolve_package_target rq target subpath (fst best) true true in
                    match resolved with Some u => Ok u | None => Throw (import_not_defined name) end
                | _, _ => Throw (import_not_defined name)
                end
            end
        | None => Throw (import_not_defined name)
        end
    | None => Throw (import_not_defined name)
    end.

(** *** The main file of a package *)

Definition first_file (files : list rstr) : option rstr := List.find is_file_sync files.

Definition main_endings (kind : NodeModuleKind) (m : NodeResolutionMode) : list rstr :=
  match m, kind with
  | Types, Cjs => [js ".d.ts"; js ".d.cts"; js "/index.d.ts"; js "/index.d.cts"]
  | Types, Esm => [js ".d.ts"; js ".d.mts"; js "/index.d.ts"; js "/index.d.mts"; js ".d.cts"; js "/index.d.cts"]
  | Execution, _ => [js ".js"; js "/index.js"]
  end.

Definition index_file_names (kind : NodeModuleKind) (m : NodeResolutionMode) : list rstr :=
  match m, kind with
  | Types, Cjs => [js "index.d.ts"; js "index.d.cts"]
  | Types, Esm => [js "index.d.ts"; js "index.d.mts"; js "index.d.cts"]
  | Execution, _ => [js "index.js"]
  end.

(** The files that stand for the main entry, in the order they are tried. *)
Definition main_candidates (dir : rstr) (maybe_main : option rstr) (kind : NodeModuleKind) (m : NodeResolutionMode) : list rstr :=
  match maybe_main with
  | Some main => clean (path_join dir main) :: ((fun ending => clean (path_join dir (main ++ ending))) <$> main_endings kind m)
  | None => []
  end ++ ((fun file => clean (path_join dir file)) <$> index_file_names kind m).

Definition legacy_main_resolve (pkg : PackageJson) (kind : NodeModuleKind) (m : NodeResolutionMode) : result (option url) :=
  let! dir := parent_of (path pkg) in
  let guess maybe_main :=
    match first_file (main_candidates dir maybe_main kind m) with
    | Some file => let! u := to_file_specifier file in Ok (Some u)
    | None => Ok None
    end in
  if is_types m then
    match types pkg with
    | Some types => guess (Some types)
    | None =>
        match main pkg kind with
        | Some main =>
            let! decl := path_to_declaration_url (clean (path_join dir main)) kind in
            match decl with Some u => Ok (Some u) | None => guess None end
        | None => guess None
        end
    end
  else guess (main pkg kind).

Definition resolve_package_subpath (pkg : PackageJson) (package_subpath : rstr) (kind : NodeModuleKind) (conds : list rstr) (m : NodeResolutionMode) : result (option url) :=
  match exports pkg with
  | Some exports =>
      match package_exports_resolve (Request (path pkg) kind conds m) package_subpath exports with
      | Ok u => Ok (Some u)
      | Throw e => if is_types m && str_eqb package_subpath [dot] && negb (is_fatal e) then legacy_main_resolve pkg kind m else Throw e
      end
  | None =>
      if str_eqb package_subpath [dot] then legacy_main_resolve pkg kind m
      else
        let! dir := parent_of (path pkg) in
        let file_path := path_join dir package_subpath in
        if is_types m then path_to_declaration_url file_path kind else let! u := to_file_specifier file_path in Ok (Some u)
  end.

Definition package_resolve_body (specifier : rstr) (referrer : url) (kind : NodeModuleKind) (conds : list rstr) (m : NodeResolutionMode) : result (option url) :=
  let! parsed := parse_npm_pkg_name specifier in
  let '(package_name, package_subpath, _) := parsed in
  let! config := get_closest_package_json OfCaller referrer in
  match config with
  | None => Ok None
  | Some config =>
      let self := if exists_ config && bool_decide (name config = Some package_name) then exports config else None in
      match self with
      | Some exports =>
          let! u := package_exports_resolve (Request (path config) kind conds m) package_subpath exports in Ok (Some u)
      | None =>
          let! dir := resolve_package_folder_from_package package_name referrer m in
          let! pkg := load_package_json OfCaller (package_json_in dir) in
          resolve_package_subpath pkg package_subpath kind conds m
      end
  end.
End Targets.

(** *** Declarations of types *)

Definition NON_DECL_EXTS : list rstr := js <$> ["cjs"; "js"; "json"; "jsx"; "mjs"; "tsx"; "d"]%string.
Definition DECL_EXTS : list rstr := js <$> ["cts"; "mts"; "ts"]%string.

(** Where the known extension of a file name starts. *)
Definition known_extension (lowercase_file_name : rstr) : option nat :=
  match rfind dot lowercase_file_name with
  | None => None
  | Some period_index =>
      let ext := drop (period_index + 1) lowercase_file_name in
      if contains_str DECL_EXTS ext then
        match rfind dot (take period_index lowercase_file_name) with
        | Some next_period_index =>
            if str_eqb (drop (next_period_index + 1) (take period_index lowercase_file_name)) (js "d") then Some next_period_index else Some period_index
        | None => Some period_index
        end
      else if contains_str NON_DECL_EXTS ext then Some period_index
      else None
  end.

Definition with_known_extension (p ext : rstr) : rstr :=
  match file_name p with
  | None => p
  | Some file_name =>
      let file_name := match known_extension (to_lowercase file_name) with Some period_index => take period_index file_name | None => file_name end in
      with_file_name p (file_name ++ [dot] ++ ext)
  end.

Definition first_existing (paths : list rstr) : option rstr := List.find exists_sync paths.

Definition probe_extensions (p lowercase_path : rstr) (kind : NodeModuleKind) : option rstr :=
  let mjs := ends_with lowercase_path (js ".mjs") in
  let cjs := negb mjs && ends_with lowercase_path (js ".cjs") in
  first_existing (
    (if mjs then [with_known_extension p (js "d.mts")] else if cjs then [with_known_extension p (js "d.cts")] else []) ++
    [with_known_extension p (js "d.ts")] ++
    match kind with
    | Cjs => if cjs then [] else [with_known_extension p (js "d.cts")]
    | Esm => if mjs then [] else [with_known_extension p (js "d.mts")]
    end).

(** A directory may name another file as its main declaration, and so on: the
    recursion takes fuel.  A target in "exports" does not resolve packages. *)
Fixpoint path_to_declaration_url (fuel : nat) (p : rstr) (kind : NodeModuleKind) : result (option url) :=
  match fuel with
  | O => out_of_fuel
  | S fuel =>
      let lowercase_path := to_lowercase p in
      let found p := let! u := to_file_specifier p in Ok (Some u) in
      let css := if ends_with lowercase_path (js ".css") then found p else Ok None in
      if ends_with lowercase_path (js ".d.ts") || ends_with lowercase_path (js ".d.cts") || ends_with lowercase_path (js ".d.mts") then found p
      else
        match probe_extensions p lowercase_path kind with
        | Some p => found p
        | None =>
            if is_dir_sync p then
              let index :=
                let index_path := path_join p (js "index.js") in
                match probe_extensions index_path (to_lowercase index_path) kind with Some p => found p | None => css end in
              match load_package_json OfCaller (package_json_in p) with
              | Ok pkg =>
                  let conds := match kind with Esm => DEFAULT_CONDITIONS | Cjs => REQUIRE_CONDITIONS end in
                  let! resolution := resolve_package_subpath (path_to_declaration_url fuel) (fun _ _ _ _ _ => out_of_fuel) pkg [dot] kind conds Types in
                  match resolution with Some u => Ok (Some u) | None => index end
              | Throw e => if is_fatal e then Throw e else index
              end
            else css
        end
  end.

(** ** Entry points *)

Section Entry.
Context (fuel : nat).

Definition decl : rstr -> NodeModuleKind -> result (option url) := path_to_declaration_url fuel.

Definition package_resolve : rstr -> url -> NodeModuleKind -> list rstr -> NodeResolutionMode -> result (option url) :=
  package_resolve_body decl (fun _ _ _ _ _ => out_of_fuel).

(** [%2F|%2C]. *)
Fixpoint encoded_sep (s : rstr) : bool :=
  match s with
  | [] => false
  | _ :: s' => starts_with s (js "%2F") || starts_with s (js "%2C") || encoded_sep s'
  end.

Definition finalize_resolution (resolved base : url) : result url :=
  if encoded_sep (url_path resolved) then let! _ := to_file_path base in Throw (invalid_module_specifier (url_path resolved))
  else if str_eqb (url_scheme resolved) (js "node") then Ok resolved
  else
    let! p_str := to_file_path resolved in
    let p := if ends_with p_str [slash] then drop (length p_str - 1) p_str else p_str in
    let '(is_dir, is_file) := default (false, false) (stat_sync p) in
    if is_dir then Throw (unsupported_dir_import (url_str resolved))
    else if negb is_file then Throw (module_not_found (url_str resolved))
    else Ok resolved.

Definition module_resolve (specifier : rstr) (referrer : url) (conds : list rstr) (m : NodeResolutionMode) : result (option url) :=
  let! u :=
    if should_be_treated_as_relative_or_absolute_path specifier then
      match url_join referrer specifier with
      | None => Throw (Error "url")
      | Some resolved_specifier =>
          if is_types m then let! file_path := to_file_path resolved_specifier in decl file_path Esm
          else Ok (Some resolved_specifier)
      end
    else if starts_with specifier (js "#") then
      let! pkg_config := get_closest_package_json OfCaller referrer in
      let! u := package_imports_resolve decl package_resolve specifier Esm pkg_config conds m in
      Ok (Some u)
    else
      match url_parse specifier with
      | Some resolved => Ok (Some resolved)
      | None => package_resolve specifier referrer Esm conds m
      end in
  match u with
  | Some u => let! u := finalize_resolution u referrer in Ok (Some u)
  | None => Ok None
  end.

Definition url_to_node_resolution (u : url) : result NodeResolution :=
  let url_str := to_lowercase (url_str u) in
  let ext e := ends_with url_str (js e) in
  if starts_with url_str (js "http") || ext ".json"%string then Ok (REsm u)
  else if ext ".js"%string || ext ".d.ts"%string then
    let! config := get_closest_package_json AllowAll u in
    match config with
    | Some c => if str_eqb (typ c) (js "module") then Ok (REsm u) else Ok (RCommonJs u)
    | None => Ok (REsm u)
    end
  else if ext ".mjs"%string || ext ".d.mts"%string then Ok (REsm u)
  else if ext ".ts"%string || ext ".mts"%string then
    if in_npm_package u then Throw (Error "TypeScript files are not supported in npm packages") else Ok (REsm u)
  else Ok (RCommonJs u).

Definition resolve (specifier : rstr) (referrer : url) (m : NodeResolutionMode) : result (option NodeResolution) :=
  let through_modules :=
    let! u := module_resolve specifier referrer DEFAULT_CONDITIONS m in
    match u with
    | None => Ok None
    | Some u =>
        let! u :=
          match m with
          | Execution => Ok (Some u)
          | Types => match url_to_file_path u with Some p => decl p Esm | None => panic "called unwrap on an Err value" end
          end in
        match u with
        | None => Ok None
        | Some u => let! r := url_to_node_resolution u in Ok (Some r)
        end
    end in
  if is_builtin_node_module specifier then Ok (Some (RBuiltIn specifier))
  else
    match url_parse specifier with
    | Some u =>
        if str_eqb (url_scheme u) (js "data") then Ok (Some (REsm u))
        else
          match get_module_name_from_builtin_node_module_specifier u with
          | Some module_name => Ok (Some (RBuiltIn module_name))
          | None =>
              if negb (str_eqb (url_scheme u) (js "file")) then Throw (unsupported_esm_url_scheme (url_str u))
              else if str_eqb (url_scheme referrer) (js "data") then
                match url_join referrer specifier with Some u => Ok (Some (REsm u)) | None => Throw (Error "url") end
              else through_modules
          end
    | None => through_modules
    end.

Definition resolve_package_subpath_from_deno_module (package_dir : rstr) (package_subpath : option rstr) (m : NodeResolutionMode) : result (option NodeResolution) :=
  let! pkg := load_package_json OfCaller (package_json_in package_dir) in
  let package_subpath := match package_subpath with Some s => js "./" ++ s | None => [dot] end in
  let! maybe_resolved_url := resolve_package_subpath decl package_resolve pkg package_subpath Esm DEFAULT_CONDITIONS m in
  match maybe_resolved_url with
  | None => Ok None
  | Some resolved_url =>
      let! resolved_url :=
        match m with
        | Execution => Ok (Some resolved_url)
        | Types =>
            if str_eqb (url_scheme resolved_url) (js "file") then
              match url_to_file_path resolved_url with Some p => decl p Esm | None => panic "called unwrap on an Err value" end
            else Ok (Some resolved_url)
        end in
      match resolved_url with
      | None => Ok None
      | Some u => let! r := url_to_node_resolution u in Ok (Some r)
      end
  end.
End Entry.

(** *** Programs of a package *)

Fixpoint json_eqb (a b : json) : bool :=
  match a, b with
  | JNull, JNull => true
  | JBool x, JBool y => Bool.eqb x y
  | JNumber x, JNumber y => str_eqb x y
  | JString x, JString y => str_eqb x y
  | JArray xs, JArray ys =>
      (fix eqs xs ys := match xs, ys with [], [] => true | x :: xs, y :: ys => json_eqb x y && eqs xs ys | _, _ => false end) xs ys
  | JObject xs, JObject ys =>
      (length xs =? length ys)%nat &&
      (fix all xs := match xs with [] => true | (k, x) :: xs => match map_get ys k with Some y => json_eqb x y | None => false end && all xs end) xs
  | _, _ => false
  end.

Definition bin_entry_of (pkg : PackageJson) (bin : json) (bin_name : option rstr) : result (option json) :=
  match bin with
  | JString _ => Ok (if bool_decide (bin_name <> None) && negb (bool_decide (bin_name = name pkg)) then None else Some bin)
  | JObject fields =>
      match bin_name with
      | Some bin_name => Ok (map_get fields bin_name)
      | None =>
          match fields.*2 with
          | [] => Ok (name pkg ≫= map_get fields)
          | [v] => Ok (Some v)
          | v :: vs => if forallb (fun w => json_eqb w v) (v :: vs) then Ok (Some v) else Ok (name pkg ≫= map_get fields)
          end
      end
  | _ => Throw (Error "did not have a bin property with a string or object value")
  end.

Definition resolve_bin_entry_value (pkg : PackageJson) (bin_name : option rstr) : result rstr :=
  match bin pkg with
  | None => Throw (Error "did not have a bin property")
  | Some bin =>
      let! entry := bin_entry_of pkg bin bin_name in
      match entry with
      | None => Throw (Error "did not have a bin entry")
      | Some (JString s) => Ok s
      | Some _ => Throw (Error "had a non-string sub property of bin")
      end
  end.

Definition resolve_binary_commands (package_folder : rstr) : result (list rstr) :=
  let! pkg := load_package_json AllowAll (package_json_in package_folder) in
  match bin pkg with
  | Some (JString _) => match name pkg with Some name => Ok [name] | None => Throw (Error "did not have a name") end
  | Some (JObject fields) => Ok fields.*1
  | _ => Ok []
  end.

Definition resolve_binary_export (package_folder : rstr) (sub_path : option rstr) : result NodeResolution :=
  let! pkg := load_package_json AllowAll (package_json_in package_folder) in
  let! bin_entry := resolve_bin_entry_value pkg sub_path in
  let! u := to_file_specifier (path_join package_folder bin_entry) in
  url_to_node_resolution u.
End Resolver.

#[local] Open Scope nat_scope.

(** ** Patterns *)

(** A key with one star that fits the subpath, [x] being in the place of the star. *)
Definition fits_with (sub key x : rstr) : Prop :=
  exists a b, key = a ++ star :: b /\ sub = a ++ x ++ b /\ x <> [] /\ (star ∉ a) /\ (star ∉ b).
Definition fits (sub key : rstr) : Prop := exists x, fits_with sub key x.

Lemma exports_match_spec sub key best x :
  exports_match sub key best = Some x <->
  pattern_key_compare best key = 1%Z /\ fits_with sub key x.
Proof.
  unfold exports_match. split.
  - destruct (find star key) as [i|] eqn:Hf; [|done]. pose proof (find_split _ _ _ Hf) as Hkey. destruct (find_Some _ _ _ Hf) as [Hi Ha].
    assert (length (take i key) = i) as Hlen by (apply length_take_le; apply lookup_lt_Some in Hi; lia).
    destruct (_ && _) eqn:Hc; [|done]. rewrite !andb_true_iff in Hc. destruct Hc as ((((Hs & Hl) & He) & Hp) & Hr).
    apply bool_decide_eq_true in Hr. apply Z.eqb_eq in Hp. apply Nat.leb_le in Hl.
    replace (i + 1) with (S i) in * by lia. apply starts_with_spec in Hs as [t Ht]. apply ends_with_spec in He as [u Hu].
    set (a := take i key) in *. set (b := drop (S i) key) in *.
    assert (length key = length a + S (length b)) as Hk by (rewrite Hkey; by rewrite length_app).
    assert (length sub = length a + length t /\ length sub = length u + length b) as [Hl1 Hl2] by (split; [rewrite Ht|rewrite Hu]; by rewrite length_app).
    assert (exists y, t = y ++ b /\ u = a ++ y) as (y & -> & ->).
    { rewrite Ht in Hu. apply app_eq_inv in Hu as [(k & Hak & Hbk)|(k & -> & ->)]; [|eauto].
      apply (f_equal length) in Hak, Hbk. rewrite length_app in Hak, Hbk. exfalso. lia. }
    intros [= <-]. split; [done|]. exists a, b. rewrite length_app in *.
    assert (take (length sub - length b - i) (drop i sub) = y) as ->.
    { rewrite Ht. rewrite <- Hlen at 2. rewrite drop_app_length, app_assoc, !length_app. apply take_app_length'. lia. }
    split_and!; [done|done| |done|]; [intros ->; cbn in *; lia|]. apply (rfind_app star a b). rewrite <- Hkey. by rewrite Hr, Hlen.
  - intros (Hp & a & b & -> & -> & Hx & Ha & Hb). rewrite find_app by done.
    assert (drop (length a + 1) (a ++ star :: b) = b) as -> by (rewrite drop_app_ge by lia; by replace (length a + 1 - length a) with 1 by lia).
    rewrite take_app_length.
    assert (length x <> 0) by (by destruct x). rewrite Hp.
    rewrite (proj2 (starts_with_spec _ _)) by eauto. rewrite (proj2 (ends_with_spec _ _)) by (exists (a ++ x); by rewrite <- app_assoc).
    rewrite (proj2 (rfind_app star a b) Hb), bool_decide_eq_true_2 by done. rewrite (proj2 (Nat.leb_le _ _)) by (rewrite !length_app; cbn; lia). cbn.
    rewrite drop_app_length, !length_app. f_equal. apply take_app_length'. lia.
Qed.

(** A key is more specific if more comes before its star, or else if it is longer. *)
Definition more_specific (k b : rstr) : Prop := base_len b < base_len k \/ (base_len b = base_len k /\ length b < length k).

Lemma fits_base_len sub key x : fits_with sub key x -> exists a b, key = a ++ star :: b /\ sub = a ++ x ++ b /\ x <> [] /\ base_len key = length a + 1 /\ contains_char star key = true.
Proof.
  intros (a & b & -> & -> & Hx & Ha & _). exists a, b. unfold base_len, contains_char. by rewrite find_app.
Qed.

Lemma compare_specific sub best key x y :
  (best = [] \/ fits_with sub best y) -> fits_with sub key x -> pattern_key_compare best key = 1%Z <-> more_specific key best.
Proof.
  intros Hb Hk. destruct (fits_base_len _ _ _ Hk) as (a & b & _ & _ & _ & Hbk & Hck). unfold pattern_key_compare, more_specific. rewrite Hck.
  destruct Hb as [->|Hb].
  - cbn [contains_char base_len find length]. rewrite (proj2 (Nat.ltb_ge _ 0)), (proj2 (Nat.ltb_lt 0 _)) by lia. cbn. split; [lia|done].
  - destruct (fits_base_len _ _ _ Hb) as (c & d & _ & _ & _ & _ & ->). cbn [negb].
    destruct (Nat.ltb_spec (base_len key) (base_len best)); [split; [done|lia]|]. destruct (Nat.ltb_spec (base_len best) (base_len key)); [split; [lia|done]|].
    destruct (Nat.ltb_spec (length key) (length best)); [split; [done|lia]|]. destruct (Nat.ltb_spec (length best) (length key)); split; done || lia.
Qed.

(** Of the keys that fit, no two are equally specific. *)
Lemma fits_unique sub k1 k2 x1 x2 :
  fits_with sub k1 x1 -> fits_with sub k2 x2 -> ~ more_specific k1 k2 -> ~ more_specific k2 k1 -> k1 = k2 /\ x1 = x2.
Proof.
  intros H1 H2 Hn1 Hn2. unfold more_specific in *. destruct (fits_base_len _ _ _ H1) as (a & b & -> & Hs1 & _ & Hb1 & _). destruct (fits_base_len _ _ _ H2) as (c & d & -> & Hs2 & _ & Hb2 & _).
  rewrite Hb1, Hb2 in *. rewrite !length_app in *. cbn in *. assert (length a = length c /\ length b = length d) as [Hac Hbd] by lia.
  rewrite Hs1 in Hs2. apply app_inj_1 in Hs2 as [-> Hs2]; [|done]. apply app_inj_2 in Hs2 as [-> ->]; done.
Qed.

Lemma fits_match sub key x : fits_with sub key x -> exports_match sub key [] = Some x.
Proof.
  intros Hf. apply exports_match_spec. split; [|done]. apply (compare_specific sub [] key x []); [by left|done|].
  destruct (fits_base_len _ _ _ Hf) as (a & b & _ & _ & _ & Hb & _). left. cbn. lia.
Qed.

Lemma exports_best_spec sub keys best bs :
  (best = [] /\ bs = None) \/ (exists y, bs = Some y /\ fits_with sub best y) ->
  let r := exports_best sub keys best bs in
  (r = (best, bs) \/ exists x, snd r = Some x /\ fits_with sub (fst r) x /\ fst r ∈ keys) /\
  (forall k, k ∈ keys -> fits sub k -> ~ more_specific k (fst r)) /\ (fst r = best \/ more_specific (fst r) best).
Proof.
  revert best bs. induction keys as [|key keys IH]; intros best bs Hb; cbn [exports_best]; cbv zeta.
  { split_and!; [by left|by intros k ?%elem_of_nil|by left]. }
  assert (forall x, fits_with sub key x -> pattern_key_compare best key = 1%Z <-> more_specific key best) as Hcmp.
  { intros x Hx. destruct Hb as [[-> _]|(y & _ & Hy)]; [by apply (compare_specific sub _ _ x [] (or_introl eq_refl))|by eapply compare_specific; [right|]]. }
  destruct (exports_match sub key best) as [x|] eqn:Hm.
  - apply exports_match_spec in Hm as [Hp Hx]. destruct (IH key (Some x)) as (H1 & H2 & H3); [eauto|]. revert H1 H2 H3. generalize (exports_best sub keys key (Some x)) as r. intros r H1 H2 H3.
    pose proof (proj1 (Hcmp x Hx) Hp) as Hms. split_and!.
    + right. destruct H1 as [-> |(z & Hz & Hf & Hin)]; [exists x; split_and!; [done|done|by left]|exists z; split_and!; [done|done|by right]].
    + intros k [->|Hk]%elem_of_cons Hf; [|auto]. destruct H3 as [-> |H3]; unfold more_specific in *; lia.
    + right. destruct H3 as [-> |H3]; [done|unfold more_specific in *; lia].
  - destruct (IH best bs Hb) as (H1 & H2 & H3). revert H1 H2 H3. generalize (exports_best sub keys best bs) as r. intros r H1 H2 H3. split_and!; [| |done].
    + destruct H1 as [->|(z & Hz & Hf & Hin)]; [by left|right; exists z; split_and!; [done|done|by right]].
    + intros k [->|Hk]%elem_of_cons [x Hf] Hms; [|by apply (H2 k); [|exists x|]].
      assert (more_specific key best) as Hb' by (destruct H3 as [<-|H3]; [done|unfold more_specific in *; lia]).
      assert (exports_match sub key best = Some x) by (apply exports_match_spec; split; [by apply (Hcmp x Hf)|done]). congruence.
Qed.

(** of the patterns in "exports" the most specific one that fits is taken:
    none that fits has more before its star, or as much and is longer.  The
    choice does not depend on the order of the keys. *)
Theorem exports_best_pattern sub keys :
  (forall k, k ∈ keys -> ~ fits sub k) /\ exports_best sub keys [] None = ([], None) \/
  (exists key x, exports_best sub keys [] None = (key, Some x) /\ key ∈ keys /\ fits_with sub key x /\
     (forall k, k ∈ keys -> fits sub k -> ~ more_specific k key) /\
     forall keys', keys' ≡ₚ keys -> exports_best sub keys' [] None = (key, Some x)).
Proof.
  assert (forall ks, let r := exports_best sub ks [] None in (r = ([], None) \/ exists x, snd r = Some x /\ fits_with sub (fst r) x /\ fst r ∈ ks) /\
     (forall k, k ∈ ks -> fits sub k -> ~ more_specific k (fst r))) as Hbest.
  { intros ks. destruct (exports_best_spec sub ks [] None) as (H1 & H2 & _); [by left|]. done. }
  destruct (Hbest keys) as [[Hr|(x & Hx & Hf & Hin)] Hno].
  - left. split; [|done]. rewrite Hr in Hno. intros k Hk [x Hfx]. apply (Hno k Hk); [by exists x|].
    destruct (fits_base_len _ _ _ Hfx) as (a & b & _ & _ & _ & Hb & _). left. cbn. lia.
  - right. destruct (exports_best sub keys [] None) as [key bs] eqn:He. cbn in Hx, Hf, Hin, Hno. subst bs. exists key, x. split_and!; [done..|].
    intros keys' Hperm. destruct (Hbest keys') as [[Hr'|(x' & Hx' & Hf' & Hin')] Hno'].
    + exfalso. rewrite Hr' in Hno'. apply (Hno' key); [by rewrite Hperm|by exists x|]. destruct (fits_base_len _ _ _ Hf) as (a & b & _ & _ & _ & Hb & _). left. cbn. lia.
    + destruct (exports_best sub keys' [] None) as [key' bs']. cbn in *. subst bs'.
      destruct (fits_unique sub key' key x' x Hf' Hf) as [-> ->]; [apply Hno; [by rewrite <- Hperm|by exists x']|apply Hno'; [by rewrite Hperm|by exists x]|done].
Qed.

(** ** Conditions *)

Section Conditions.
Context {H : Host} (path_to_declaration_url : rstr -> NodeModuleKind -> result (option url)).
Context (package_resolve : rstr -> url -> NodeModuleKind -> list rstr -> NodeResolutionMode -> result (option url)).

(** A target without the conditions that do not apply, at any depth. *)
Fixpoint prune (applies : rstr -> bool) (v : json) : json :=
  match v with
  | JArray items => JArray (prune applies <$> items)
  | JObject fields =>
      JObject ((fix go fields := match fields with [] => [] | (k, v) :: fields => if applies k then (k, prune applies v) :: go fields else go fields end) fields)
  | v => v
  end.

(** a condition that is not among those of the request has no part in the
    resolution of a target, wherever it stands: the target with all such
    conditions taken out, at every depth, resolves to the same, errors included. *)
Theorem conditions_prune rq target subpath package_subpath pattern internal :
  resolve_package_target path_to_declaration_url package_resolve rq (prune (condition_applies rq) target) subpath package_subpath pattern internal =
  resolve_package_target path_to_declaration_url package_resolve rq target subpath package_subpath pattern internal.
Proof.
  induction target as [| | | |items IH|fields IH] using json_nested_ind; try done; cbn [prune resolve_package_target].
  - generalize (@None jserr). induction IH as [|item items Hi _ IHi]; intros last; [done|]. rewrite fmap_cons. cbn [resolve_array]. rewrite Hi.
    destruct (resolve_package_target _ _ _ item _ _ _ _) as [[]|e]; [done|apply IHi|destruct (is_invalid_package_target e); [apply IHi|done]].
  - induction IH as [|[k v] fields Hv _ IHf]; [done|]. cbn [resolve_object]. cbn in Hv. destruct (condition_applies rq k) eqn:Hk; [|done].
    cbn [resolve_object]. rewrite Hk, Hv, IHf. done.
Qed.

(** ** Patterns in "imports" *)

Lemma imports_match_star name key best r : imports_match name key best = Some r -> star ∈ name.
Proof.
  unfold imports_match. destruct (find star key) as [i|] eqn:Hf; [|done]. destruct (_ && _) eqn:Hc; [|done]. intros _.
  rewrite !andb_true_iff in Hc. destruct Hc as [[[[Hs _] _] _] _]. apply starts_with_spec in Hs as [rest ->].
  apply elem_of_app. left. apply list_elem_of_lookup_2 with i. rewrite lookup_take_lt by lia. by apply find_Some.
Qed.

(** a pattern in "imports" matches no name without a star, so a name of
    that kind resolves only if it is a key itself; otherwise the import is said
    not to be defined, whatever the patterns are. *)
Theorem imports_patterns_dead name kind pkg imps conds m :
  (star ∉ name) -> exists_ pkg = true -> imports pkg = Some imps -> map_get imps name = None ->
  package_imports_resolve path_to_declaration_url package_resolve name kind (Some pkg) conds m =
    Throw (if str_eqb name (js "#") || starts_with name (js "#/") || ends_with name [slash] then invalid_module_specifier name else import_not_defined name).
Proof.
  intros Hs He Hi Hg. unfold package_imports_resolve. destruct (_ || _); [done|]. rewrite He, Hi.
  rewrite Hg. assert (imports_best name imps.*1 [] None = Ok ([], None)) as ->.
  { generalize ([] : rstr) (@None rstr). induction (imps.*1) as [|key keys IH]; intros b bs; [done|]. cbn [imports_best].
    destruct (imports_match name key b) eqn:Hm; [|apply IH]. by apply imports_match_star in Hm. }
  by destruct (contains_char star name).
Qed.
End Conditions.

(** ** The closest package.json *)

Section Closest.
Context {H : Host}.

(** A directory and those above it up to the root, nearest first. *)
Inductive ancestors : rstr -> list rstr -> Prop :=
| ancestors_root dir : parent dir = None -> ancestors dir [dir]
| ancestors_up dir up l : parent dir = Some up -> ancestors up l -> ancestors dir (dir :: l).

Lemma closest_in_parents_spec fuel dir :
  length dir <= fuel -> exists l, ancestors dir (dir :: l) /\ closest_in_parents fuel dir = List.find exists_sync (package_json_in <$> l).
Proof.
  revert dir. induction fuel as [|fuel IH]; intros dir Hl.
  - destruct dir; [|cbn in Hl; lia]. exists []. split; [by apply ancestors_root|done].
  - cbn [closest_in_parents]. destruct (parent dir) as [up|] eqn:Hp; [|exists []; split; [by apply ancestors_root|done]].
    pose proof (parent_length _ _ Hp). destruct (IH up) as (l & Ha & Hf); [lia|]. exists (up :: l). split; [by eapply ancestors_up|].
    rewrite fmap_cons. cbn [List.find]. by destruct (exists_sync _).
Qed.

(** the package.json of a file is the first one there is on the way from
    the real directory of the file up to the root; the walk always gets there. *)
Theorem closest_package_json file_path dir real :
  parent file_path = Some dir -> realpath_sync dir = Some real ->
  exists l, ancestors (strip_unc_prefix real) l /\ get_closest_package_json_path file_path = Ok (List.find exists_sync (package_json_in <$> l)).
Proof.
  intros Hp Hr. unfold get_closest_package_json_path, parent_of. rewrite Hp. cbn [rbind]. rewrite Hr.
  destruct (closest_in_parents_spec _ (strip_unc_prefix real) (le_n _)) as (l & Ha & ->). eexists. split; [done|].
  rewrite fmap_cons. cbn [List.find]. by destruct (exists_sync _).
Qed.

(** ** Final checks *)

(** what a module resolves to in a program that runs is a module of Node or
    a regular file: a directory or a file that is not there is refused, and so is
    a path with an encoded slash.  A path that ends in a slash is not looked up. *)
Theorem resolves_to_file fuel specifier referrer conds u :
  module_resolve fuel specifier referrer conds Execution = Ok (Some u) ->
  encoded_sep (url_path u) = false /\
  (url_scheme u = js "node" \/
   exists p, url_to_file_path u = Some p /\ (ends_with p [slash] = true \/ stat_sync p = Some (false, true))).
Proof.
  unfold module_resolve. match goal with |- rbind ?c _ = _ -> _ => destruct c as [[v|]|e]; cbn [rbind]; [|done|done] end.
  unfold finalize_resolution. destruct (encoded_sep (url_path v)) eqn:He; [by destruct (to_file_path referrer)|].
  destruct (str_eqb (url_scheme v) (js "node")) eqn:Hn; [intros [= <-]; split; [done|left; by apply bool_decide_eq_true in Hn]|].
  unfold to_file_path. destruct (url_to_file_path v) as [p|] eqn:Hp; cbn [rbind]; [|done].
  destruct (ends_with p [slash]) eqn:Hs.
  - destruct (default _ _) as [[] []]; cbn [rbind negb]; intros [= <-]; (split; [done|right; eauto]).
  - destruct (stat_sync p) as [[[] []]|] eqn:Hst; cbn [default rbind negb from_option id]; intros [= <-]; (split; [done|right; eauto]).
Qed.
End Closest.

(** ** Names of packages *)

Definition ascii (s : rstr) : Prop := Forall (fun c => 0 <= c < 128)%Z s.

Lemma skip_chars_ascii n s : ascii s -> skip_chars n s = drop n s.
Proof.
  unfold ascii. revert s. induction n as [|n IH]; intros s Hs; [by destruct s|]. destruct s as [|c s]; [done|]. apply Forall_cons in Hs as [_ Hs].
  cbn [skip_chars drop]. rewrite <- IH by done. f_equal. destruct s as [|d s]; [done|]. apply Forall_cons in Hs as [Hd _]. cbn. unfold continues.
  by rewrite (proj2 (Z.leb_gt 128 d)) by lia.
Qed.

(** The names a package can have; a scope adds one slash. *)
Definition npm_shape (scoped : bool) (n : rstr) : Prop :=
  scoped = starts_with n (js "@") /\ if scoped then exists a b, n = a ++ slash :: b /\ (slash ∉ a) /\ (slash ∉ b) else slash ∉ n.
Definition npm_name (scoped : bool) (n : rstr) : Prop := npm_shape scoped n /\ (37%Z ∉ n) /\ (92%Z ∉ n).
(** What may follow the name. *)
Definition npm_rest (rest : rstr) : Prop := rest = [] \/ head rest = Some slash.

Lemma name_chars n : forallb (fun ch => negb ((ch =? 37)%Z || (ch =? 92)%Z)) n = true <-> (37%Z ∉ n) /\ (92%Z ∉ n).
Proof.
  induction n as [|c n IH]; cbn; [split; [split; apply not_elem_of_nil|done]|]. rewrite !not_elem_of_cons, andb_true_iff, negb_true_iff, orb_false_iff, !Z.eqb_neq, IH. naive_solver.
Qed.

Lemma find_rest c s : match find c s with Some i => s = take i s ++ c :: drop (S i) s /\ (c ∉ take i s) | None => c ∉ s end.
Proof. destruct (find c s) as [i|] eqn:Hf; [split; [by apply find_split|by apply find_Some]|by apply find_None]. Qed.

Lemma find_app_rest c n rest : c ∉ n -> rest = [] \/ head rest = Some c ->
  find c (n ++ rest) = match rest with [] => None | _ => Some (length n) end.
Proof.
  intros Hn [->|Hr]; [rewrite app_nil_r; by apply find_None|]. destruct rest as [|d rest]; [done|]. cbn in Hr. injection Hr as ->. by apply find_app.
Qed.

Lemma take_app_rest (n rest : rstr) : match rest with [] => n ++ rest | _ => take (length n) (n ++ rest) end = n.
Proof. destruct rest; [apply app_nil_r|by rewrite take_app_length]. Qed.

Lemma starts_with_at s : starts_with s (js "@") = match s with c :: _ => (c =? 64)%Z | [] => false end.
Proof. destruct s as [|c s]; [done|]. cbn. by rewrite andb_true_r, Z.eqb_sym. Qed.

Lemma separator_found sc n rest :
  npm_rest rest -> npm_shape sc n ->
  (if sc then
     match find slash (n ++ rest) with
     | Some index => (fun new_index => index + 1 + new_index) <$> find slash (drop (index + 1) (n ++ rest))
     | None => None
     end
   else find slash (n ++ rest)) = match rest with [] => None | _ => Some (length n) end.
Proof.
  intros Hr [_ Hn]. destruct sc; [|by apply find_app_rest]. destruct Hn as (a & b & -> & Ha & Hb).
  rewrite <- app_assoc. cbn [app]. rewrite find_app by done. rewrite drop_app_add'; cbn; [|lia]. rewrite drop_0, find_app_rest by done.
  destruct rest; [done|]. cbn. f_equal. rewrite length_app. cbn. lia.
Qed.

Lemma scope_has_slash sc n rest : npm_shape sc n -> sc && match find slash (n ++ rest) with None => true | Some _ => false end = false.
Proof.
  intros [_ Hn]. destruct sc; [|done]. destruct Hn as (a & b & -> & Ha & _). rewrite <- app_assoc. cbn [app]. by rewrite find_app.
Qed.

Lemma parse_shape n rest sc :
  ascii (n ++ rest) -> n ++ rest <> [] -> npm_rest rest -> npm_shape sc n ->
  parse_npm_pkg_name (n ++ rest) =
    if forallb (fun ch => negb ((ch =? 37)%Z || (ch =? 92)%Z)) n then Ok (n, dot :: rest, sc) else Throw (invalid_module_specifier (n ++ rest)).
Proof.
  intros Has Hne Hr Hn. assert (starts_with (n ++ rest) (js "@") = sc) as Hs.
  { destruct Hn as [-> _]. rewrite !starts_with_at. destruct n; [|done]. destruct Hr as [->|Hh]; [done|]. destruct rest; [done|]. cbn in Hh. by injection Hh as ->. }
  assert (str_eqb (n ++ rest) [] = false) as He by by apply bool_decide_eq_false. unfold parse_npm_pkg_name. cbv zeta. rewrite Hs, He. cbn [negb andb].
  rewrite (separator_found sc n rest Hr Hn), (scope_has_slash sc n rest Hn). cbn [negb andb].
  assert (match match rest with [] => None | _ => Some (length n) end with Some index => take index (n ++ rest) | None => n ++ rest end = n) as -> by (destruct rest; [apply app_nil_r|by rewrite take_app_length]).
  destruct (forallb _ n); cbn [negb]; [|done]. do 2 f_equal. destruct rest; [done|]. by rewrite skip_chars_ascii, drop_app_length.
Qed.

Lemma shape_exists s :
  s <> [] -> starts_with s (js "@") && match find slash s with None => true | Some _ => false end = false ->
  exists n rest sc, s = n ++ rest /\ npm_rest rest /\ npm_shape sc n.
Proof.
  intros Hne Hv. pose proof (find_rest slash s) as Hf. destruct (starts_with s (js "@")) eqn:Hs; destruct (find slash s) as [i|]; try done.
  - destruct Hf as [Hf Ha]. set (a := take i s) in *. set (t := drop (S i) s) in *. clearbody a t. subst s.
    assert (forall u, starts_with (a ++ slash :: u) (js "@") = true) as Hat by (intros u; rewrite starts_with_at in *; by destruct a).
    pose proof (find_rest slash t) as Hg. destruct (find slash t) as [j|].
    + destruct Hg as [Hg Hb]. exists (a ++ slash :: take j t), (slash :: drop (S j) t), true. rewrite <- app_assoc. cbn [app]. rewrite <- Hg.
      split_and!; [done|by right|split; [done|by exists a, (take j t)]].
    + exists (a ++ slash :: t), [], true. rewrite app_nil_r. split_and!; [done|by left|split; [done|by exists a, t]].
  - destruct Hf as [Hf Ha]. exists (take i s), (slash :: drop (S i) s), false. split_and!; [done|by right|split; [|done]].
    symmetry. rewrite Hf, starts_with_at in Hs. rewrite starts_with_at. by destruct (take i s).
  - exists s, [], false. rewrite app_nil_r. split_and!; [done|by left|by split].
Qed.

(** a specifier is split where its package name ends: for a text in ASCII
    the parser accepts exactly a name, which holds one slash when it starts with
    an at sign and none otherwise and neither a percent sign nor a backslash,
    followed by nothing or by a slash and the rest; it gives back the name and,
    behind a dot, the rest. *)
Theorem parse_npm_pkg_name_spec s n sub sc :
  ascii s -> s <> [] ->
  parse_npm_pkg_name s = Ok (n, sub, sc) <-> exists rest, s = n ++ rest /\ sub = dot :: rest /\ npm_rest rest /\ npm_name sc n.
Proof.
  intros Has Hne. split.
  - intros Hp. destruct (starts_with s (js "@") && match find slash s with None => true | Some _ => false end) eqn:Hv.
    + exfalso. revert Hp. unfold parse_npm_pkg_name. cbv zeta. assert (str_eqb s [] = false) as -> by by apply bool_decide_eq_false.
       cbn [negb andb]. by rewrite Hv.
    + destruct (shape_exists s Hne Hv) as (n' & rest & sc' & -> & Hr & Hn). rewrite (parse_shape n' rest sc') in Hp by done.
      destruct (forallb _ n') eqn:Hc; [|done]. injection Hp as <- <- <-. apply name_chars in Hc. by exists rest.
  - intros (rest & -> & -> & Hr & Hn & Hc). rewrite (parse_shape n rest sc) by done. by rewrite (proj2 (name_chars n) Hc).
Qed.

(** ** Fuel *)

(** [r] is [r'], or the fuel was not enough for [r]. *)
Definition approx {A} (r r' : result A) : Prop := r = out_of_fuel \/ r = r'.

Lemma approx_refl {A} (r : result A) : approx r r.
Proof. by right. Qed.
Lemma approx_bind {A B} (c c' : result A) (k k' : A -> result B) : approx c c' -> (forall x, approx (k x) (k' x)) -> approx (rbind c k) (rbind c' k').
Proof. intros [->| ->] Hk; [by left|]. destruct c' as [x|e]; [apply Hk|by right]. Qed.
Lemma approx_both {A} (r r' : result A) : approx r r' -> approx r' r -> r = r'.
Proof. intros [->| ->] [->| H']; congruence. Qed.

(** Case analysis on what both sides look at first. *)
Ltac approx_case := match goal with |- approx (match ?x with _ => _ end) _ => destruct x end.

#[local] Hint Resolve approx_refl approx_bind : core.

Section Fuel.
Context {H : Host}.

Definition declarer := rstr -> NodeModuleKind -> result (option url).
Definition packager := rstr -> url -> NodeModuleKind -> list rstr -> NodeResolutionMode -> result (option url).

(** Declarations matter when types are asked for, packages for a target in "imports". *)
Definition decl_approx (m : NodeResolutionMode) (d d' : declarer) : Prop := if is_types m then forall p k, approx (d p k) (d' p k) else True.
Definition pkg_approx (m : NodeResolutionMode) (internal : bool) (r r' : packager) : Prop := if internal then forall s u k c, approx (r s u k c m) (r' s u k c m) else True.

Lemma import_target_approx r r' rq target subpath pattern :
  pkg_approx (mode rq) true r r' -> approx (resolve_import_target r rq target subpath pattern) (resolve_import_target r' rq target subpath pattern).
Proof.
  intros Hr. unfold resolve_import_target. apply approx_bind; [done|]. intros u.
  destruct (Hr (if pattern then replace_first star subpath target else target ++ subpath) u (referrer_kind rq) (conditions rq)) as [->| ->]; [left; cbn; by rewrite andb_false_r|done].
Qed.

Lemma string_approx d d' r r' rq target subpath psub pattern internal :
  decl_approx (mode rq) d d' -> pkg_approx (mode rq) internal r r' ->
  approx (resolve_string d r rq target subpath psub pattern internal) (resolve_string d' r' rq target subpath psub pattern internal).
Proof.
  intros Hd Hr. unfold resolve_string. apply approx_bind.
  - unfold resolve_package_target_string. destruct (_ && _); [done|]. destruct (negb _); [|done]. destruct internal; [|done]. cbn [andb].
    destruct (_ && _); [|done]. destruct (url_parse target); [done|]. by apply import_target_approx.
  - intros u. unfold decl_approx in Hd. destruct (is_types (mode rq)); [|done]. destruct (str_eqb _ _); [|done]. cbn [andb]. destruct (url_to_file_path u); [apply Hd|done].
Qed.

Lemma target_approx d d' r r' rq target subpath psub pattern internal :
  decl_approx (mode rq) d d' -> pkg_approx (mode rq) internal r r' ->
  approx (resolve_package_target d r rq target subpath psub pattern internal) (resolve_package_target d' r' rq target subpath psub pattern internal).
Proof.
  intros Hd Hr. induction target as [| | | |items IH|fields IH] using json_nested_ind; try done; cbn [resolve_package_target]; [by apply string_approx| |].
  - generalize (@None jserr). induction IH as [|item items [Hi|Hi] _ IHi]; intros last; cbn [resolve_array]; [done|rewrite Hi; by left|].
    rewrite Hi. destruct (resolve_package_target d' _ _ item _ _ _ _) as [[]|e]; [done|apply IHi|destruct (is_invalid_package_target e); [apply IHi|done]].
  - induction IH as [|[k v] fields Hv _ IHf]; cbn [resolve_object]; [done|]. destruct (condition_applies rq k); [|done]. apply approx_bind; [done|]. intros []; [done|apply IHf].
Qed.

(** A target in "exports" never asks for a package. *)
Lemma exports_approx d d' r r' rq psub exps :
  decl_approx (mode rq) d d' -> approx (package_exports_resolve d r rq psub exps) (package_exports_resolve d' r' rq psub exps).
Proof.
  intros Hd. assert (forall (t : json) (s p : rstr) (b : bool) (q : rstr), approx (or_not_found q (resolve_package_target d r rq t s p b false)) (or_not_found q (resolve_package_target d' r' rq t s p b false))) as Ht
    by (intros; apply approx_bind; [by apply target_approx|done]).
  unfold package_exports_resolve. approx_case; [apply Ht|]. destruct (exports_best _ _ _ _) as [b [s|]]; [|done]. destruct (map_get exps b); [apply Ht|done].
Qed.

Lemma imports_approx d d' r r' name kind pkg conds m :
  decl_approx m d d' -> pkg_approx m true r r' ->
  approx (package_imports_resolve d r name kind pkg conds m) (package_imports_resolve d' r' name kind pkg conds m).
Proof.
  intros Hd Hr. unfold package_imports_resolve. destruct (_ || _); [done|]. destruct pkg as [pkg|]; [|done]. approx_case; [|done].
  approx_case; [apply approx_bind; [by apply target_approx|done]|].
  apply approx_bind; [done|]. intros [b [s|]]; cbn [fst snd]; [|done]. approx_case; [|done]. apply approx_bind; [by apply target_approx|done].
Qed.

Lemma main_approx d d' pkg kind m : decl_approx m d d' -> approx (legacy_main_resolve d pkg kind m) (legacy_main_resolve d' pkg kind m).
Proof.
  intros Hd. unfold legacy_main_resolve. apply approx_bind; [done|]. intros dir. unfold decl_approx in Hd. destruct (is_types m); [|done].
  destruct (types pkg); [done|]. destruct (main pkg kind); [|done]. apply approx_bind; [apply Hd|done].
Qed.

Lemma subpath_approx d d' r r' pkg psub kind conds m :
  decl_approx m d d' -> approx (resolve_package_subpath d r pkg psub kind conds m) (resolve_package_subpath d' r' pkg psub kind conds m).
Proof.
  intros Hd. unfold resolve_package_subpath. destruct (exports pkg) as [exps|].
  - destruct (exports_approx d d' r r' (Request (path pkg) kind conds m) psub exps Hd) as [->| ->]; [left; cbn; by rewrite andb_false_r|].
    destruct (package_exports_resolve _ _ _ _ _) as [u|e]; [done|]. destruct (_ && _); [by apply main_approx|done].
  - destruct (str_eqb psub [dot]); [by apply main_approx|]. apply approx_bind; [done|]. intros dir. unfold decl_approx in Hd. destruct (is_types m); [apply Hd|done].
Qed.

Lemma package_approx d d' r r' s u kind conds m :
  decl_approx m d d' -> approx (package_resolve_body d r s u kind conds m) (package_resolve_body d' r' s u kind conds m).
Proof.
  intros Hd. unfold package_resolve_body. apply approx_bind; [done|]. intros [[n sub] sc]. apply approx_bind; [done|]. intros [config|]; [|done].
  approx_case; [apply approx_bind; [by apply exports_approx|done]|]. apply approx_bind; [done|]. intros dir. apply approx_bind; [done|]. intros pkg. by apply subpath_approx.
Qed.

(** The types of a directory are those of the main entry of its package. *)
Lemma directory_declaration n p kind pkg :
  ends_with (to_lowercase p) (js ".d.ts") || ends_with (to_lowercase p) (js ".d.cts") || ends_with (to_lowercase p) (js ".d.mts") = false ->
  probe_extensions p (to_lowercase p) kind = None -> is_dir_sync p = true -> load_package_json OfCaller (package_json_in p) = Ok pkg ->
  resolve_package_subpath (path_to_declaration_url n) (fun _ _ _ _ _ => out_of_fuel) pkg [dot] kind (match kind with Esm => DEFAULT_CONDITIONS | Cjs => REQUIRE_CONDITIONS end) Types = out_of_fuel ->
  path_to_declaration_url (S n) p kind = out_of_fuel.
Proof. intros He Hp Hd Hl Hr. cbn [path_to_declaration_url]. by rewrite He, Hp, Hd, Hl, Hr. Qed.

Lemma declaration_approx n k p kind : n <= k -> approx (path_to_declaration_url n p kind) (path_to_declaration_url k p kind).
Proof.
  revert k p kind. induction n as [|n IH]; intros k p kind Hk; [by left|]. destruct k as [|k]; [lia|]. cbn [path_to_declaration_url].
  destruct (_ || _); [done|]. destruct (probe_extensions _ _ _); [done|]. destruct (is_dir_sync p); [|done]. destruct (load_package_json _ _); [|done].
  apply approx_bind; [|done]. apply subpath_approx. intros q kind'. apply IH. lia.
Qed.

Lemma decl_approx_le n k m : n <= k -> decl_approx m (decl n) (decl k).
Proof. intros Hk. unfold decl_approx. destruct (is_types m); [|done]. intros p kind. by apply declaration_approx. Qed.

Lemma decl_approx_execution n k m : n <= k \/ m = Execution -> decl_approx m (decl n) (decl k).
Proof. intros [Hk| ->]; [by apply decl_approx_le|done]. Qed.

Lemma module_approx n k s u conds m : n <= k \/ m = Execution -> approx (module_resolve n s u conds m) (module_resolve k s u conds m).
Proof.
  intros Hk. pose proof (decl_approx_execution n k m Hk) as Hd. unfold module_resolve. apply approx_bind; [|done].
  destruct (should_be_treated_as_relative_or_absolute_path s).
  - destruct (url_join u s); [|done]. unfold decl_approx in Hd. destruct (is_types m); [|done]. apply approx_bind; [done|]. intros p. apply Hd.
  - destruct (starts_with s (js "#")).
    + apply approx_bind; [done|]. intros pkg. apply approx_bind; [|done]. apply imports_approx; [done|]. intros s' u' kind c. by apply package_approx.
    + destruct (url_parse s); [done|]. by apply package_approx.
Qed.

Lemma resolve_approx n k s u m : n <= k \/ m = Execution -> approx (resolve n s u m) (resolve k s u m).
Proof.
  intros Hk. pose proof (decl_approx_execution n k m Hk) as Hd.
  assert (forall A (f : option url -> result A), approx
    (let! v := module_resolve n s u DEFAULT_CONDITIONS m in match v with None => f None | Some v => let! v := match m with Execution => Ok (Some v) | Types => match url_to_file_path v with Some p => decl n p Esm | None => panic "called unwrap on an Err value" end end in f v end)
    (let! v := module_resolve k s u DEFAULT_CONDITIONS m in match v with None => f None | Some v => let! v := match m with Execution => Ok (Some v) | Types => match url_to_file_path v with Some p => decl k p Esm | None => panic "called unwrap on an Err value" end end in f v end)) as Hm.
  { intros A f. apply approx_bind; [by apply module_approx|]. intros [v|]; [|done]. apply approx_bind; [|done]. destruct m; [done|]. destruct (url_to_file_path v); [apply Hd|done]. }
  unfold resolve. destruct (is_builtin_node_module s); [done|].
  specialize (Hm _ (fun v => match v with None => Ok None | Some v => let! r := url_to_node_resolution v in Ok (Some r) end)).
  destruct (url_parse s) as [v|]; [|done]. destruct (str_eqb (url_scheme v) (js "data")); [done|].
  destruct (get_module_name_from_builtin_node_module_specifier v); [done|]. destruct (negb _); [done|]. by destruct (str_eqb (url_scheme u) _).
Qed.

(** A package that a target in "imports" names is resolved by the same function. *)
Lemma package_resolve_unfold n s u kind conds m : package_resolve n s u kind conds m = package_resolve_body (decl n) (package_resolve n) s u kind conds m.
Proof. apply approx_both; apply package_approx; unfold decl_approx; destruct (is_types m); intros; by try right. Qed.
End Fuel.

(** ** Resolution ends *)

(** The texts of a target, within nested arrays and objects. *)
Fixpoint target_strings (t : json) : list rstr :=
  match t with
  | JString s => [s]
  | JArray items => flat_map target_strings items
  | JObject fields => flat_map (fun f => target_strings (snd f)) fields
  | _ => []
  end.

(** With more and more fuel there is an answer, which then stays. *)
Definition settles {A} (f : nat -> result A) : Prop := exists n, f n <> out_of_fuel /\ forall k, n <= k -> f k = f n.

Lemma settles_ext {A} (f g : nat -> result A) : (forall k, f k = g k) -> settles g -> settles f.
Proof. intros Hfg (n & Hn & Hg). exists n. rewrite Hfg. split; [done|]. intros k Hk. rewrite Hfg. by apply Hg. Qed.

Lemma settles_const {A} (r : result A) : r <> out_of_fuel -> settles (fun _ => r).
Proof. intros Hr. by exists 0. Qed.

Lemma settles_then {A B} (f : nat -> result A) (g : nat -> result A -> result B) :
  settles f -> (forall r, r <> out_of_fuel -> settles (fun k => g k r)) -> settles (fun k => g k (f k)).
Proof.
  intros (n & Hn & Hf) Hg. destruct (Hg (f n) Hn) as (n' & Hn' & Hg'). exists (n `max` n'). rewrite Hf by lia. split; [by rewrite Hg' by lia|].
  intros k Hk. rewrite Hf by lia. rewrite (Hg' k) by lia. symmetry. apply Hg'. lia.
Qed.

Lemma settles_bind {A B} (f : nat -> result A) (g : nat -> A -> result B) :
  settles f -> (forall x, settles (fun k => g k x)) -> settles (fun k => let! x := f k in g k x).
Proof.
  intros Hf Hg. apply (settles_then f (fun k r => let! x := r in g k x)); [done|]. intros [x|e] Hr; cbn [rbind]; [apply Hg|].
  apply settles_const. intros [= ->]. by apply Hr.
Qed.

Lemma settles_bind_const {A B} (r : result A) (g : nat -> A -> result B) :
  r <> out_of_fuel -> (forall x, settles (fun k => g k x)) -> settles (fun k => let! x := r in g k x).
Proof. intros Hr Hg. apply (settles_bind (fun _ => r)); [by apply settles_const|done]. Qed.

Lemma settles_S {A} (f : nat -> result A) : settles (fun k => f (S k)) -> settles f.
Proof. intros (n & Hn & Hf). exists (S n). split; [done|]. intros [|k] Hk; [lia|]. apply Hf. lia. Qed.

Lemma ends_bind {A B} (c : result A) (k : A -> result B) : c <> out_of_fuel -> (forall x, k x <> out_of_fuel) -> (let! x := c in k x) <> out_of_fuel.
Proof. intros Hc Hk. destruct c as [x|e]; [apply Hk|]. by intros [= ->]. Qed.

Lemma load_value_ends p v : load_from_value p v <> out_of_fuel.
Proof.
  assert (forall keys b, same_sugar b keys <> out_of_fuel) as Hs by (induction keys as [|k keys IH]; intros b; cbn; [done|by destruct (Bool.eqb _ _)]).
  assert (forall v, dependencies_of v <> out_of_fuel) as Hd by (intros [[]|]; cbn; try done; by destruct (string_fields _)).
  unfold load_from_value. apply ends_bind; [|intros x; apply ends_bind; [done|]; intros y; by apply ends_bind].
  destruct (get v (js "exports")) as [e|]; [|done]. cbn [exports_of]. apply ends_bind; [|intros []; [done|by destruct e]].
  destruct e; try done. cbn [is_conditional_exports_main_sugar]. by destruct (_.*1).
Qed.

Section Ends.
Context {H : Host}.

(** The host has errors of its own. *)
Context (folder_ends : forall n u m, resolve_package_folder_from_package n u m <> out_of_fuel).
Context (permission_ends : forall perm p, ensure_read_permission perm p <> out_of_fuel).

Definition no_package : packager := fun _ _ _ _ _ => out_of_fuel.

(** The file of a target in "exports" of which the types are asked for. *)
Definition asked_string (rq : request) (subpath psub : rstr) (pattern : bool) (target : rstr) : option rstr :=
  match resolve_package_target_string no_package rq target subpath psub pattern false with
  | Ok u => if str_eqb (url_scheme u) (js "file") then url_to_file_path u else None
  | Throw _ => None
  end.

(** The target that "exports" has for a subpath, with the text in the place of the star. *)
Definition export_target (package_subpath : rstr) (exps : list (rstr * json)) : option (json * rstr * rstr * bool) :=
  match (if contains_char star package_subpath || ends_with package_subpath [slash] then None else map_get exps package_subpath) with
  | Some target => Some (target, [], package_subpath, false)
  | None =>
      let '(best_match, best_match_subpath) := exports_best package_subpath exps.*1 [] None in
      match best_match_subpath, map_get exps best_match with
      | Some subpath, Some target => Some (target, subpath, best_match, true)
      | _, _ => None
      end
  end.

(** The paths of which the types may be asked for when those of a directory are:
    the targets that its package exports for itself, and its main entry. *)
Definition asked (p : rstr) (kind : NodeModuleKind) : list rstr :=
  if is_dir_sync p then
    match load_package_json OfCaller (package_json_in p) with
    | Ok pkg =>
        let rq := Request (path pkg) kind (match kind with Esm => DEFAULT_CONDITIONS | Cjs => REQUIRE_CONDITIONS end) Types in
        match exports pkg ≫= export_target [dot] with
        | Some (target, subpath, psub, pattern) => omap (asked_string rq subpath psub pattern) (target_strings target)
        | None => []
        end ++
        match types pkg, main pkg kind, parent (path pkg) with
        | None, Some main, Some dir => [clean (path_join dir main)]
        | _, _, _ => []
        end
    | Throw _ => []
    end
  else [].

Lemma load_ends perm p : load_package_json perm p <> out_of_fuel.
Proof.
  unfold load_package_json, load. pose proof (permission_ends perm p) as He. destruct (ensure_read_permission perm p) as [|e]; cbn [rbind]; [|by intros [= ->]].
  unfold load_fresh. destruct (negb _); [done|]. destruct (read_text_file_sync p) as [text| |]; [|done|done].
  unfold load_from_string. destruct (str_eqb _ _); [done|]. destruct (from_str text) as [v|]; [|done]. apply load_value_ends.
Qed.

Lemma specifier_ends p : to_file_specifier p <> out_of_fuel.
Proof. unfold to_file_specifier. by destruct (from_file_path p). Qed.
Lemma file_path_ends u : to_file_path u <> out_of_fuel.
Proof. unfold to_file_path. by destruct (url_to_file_path u). Qed.
Lemma parent_ends p : parent_of p <> out_of_fuel.
Proof. unfold parent_of. by destruct (parent p). Qed.
Lemma parse_ends s : unwrap_parse s <> out_of_fuel.
Proof. unfold unwrap_parse. by destruct (url_parse s). Qed.
Lemma found_ends p : (let! u := to_file_specifier p in Ok (Some u)) <> out_of_fuel.
Proof. unfold to_file_specifier. by destruct (from_file_path p). Qed.
Lemma parse_pkg_ends s : parse_npm_pkg_name s <> out_of_fuel.
Proof. unfold parse_npm_pkg_name. by destruct (negb _). Qed.
Lemma imports_best_ends n keys best x : imports_best n keys best x <> out_of_fuel.
Proof.
  revert best x. induction keys as [|key keys IH]; intros best x; cbn [imports_best]; [done|]. unfold imports_match. destruct (find star key) as [i|]; [|done].
  destruct (_ && _); [|done]. destruct (_ <? _)%nat; cbn [rbind]; [done|apply IH].
Qed.

#[local] Hint Resolve load_ends specifier_ends file_path_ends parent_ends parse_ends found_ends folder_ends : core.

Lemma closest_ends perm u : get_closest_package_json perm u <> out_of_fuel.
Proof.
  unfold get_closest_package_json. destruct (url_to_file_path u) as [p|]; [|done]. unfold get_closest_package_json_from_path, get_closest_package_json_path, parent_of.
  destruct (parent p); cbn [rbind]; [|done]. destruct (realpath_sync _); cbn [rbind]; [|done].
  destruct (exists_sync _); cbn [rbind]; [|destruct (closest_in_parents _ _); [|done]].
  all: match goal with |- context [load_package_json ?a ?b] => pose proof (load_ends a b); destruct (load_package_json a b) end; cbn [rbind]; [done|by intros [= ->]].
Qed.

Lemma kind_ends u : url_to_node_resolution u <> out_of_fuel.
Proof.
  unfold url_to_node_resolution. destruct (_ || _); [done|]. destruct (_ || _).
  - pose proof (closest_ends AllowAll u). destruct (get_closest_package_json AllowAll u) as [[c|]|e]; cbn [rbind]; [by destruct (str_eqb _ _)|done|by intros [= ->]].
  - destruct (_ || _); [done|]. destruct (_ || _); [|done]. by destruct (in_npm_package u).
Qed.

Lemma finalize_ends u base : (let! v := finalize_resolution u base in Ok (Some v)) <> out_of_fuel.
Proof.
  unfold finalize_resolution, to_file_path. destruct (encoded_sep _); [by destruct (url_to_file_path base)|]. destruct (str_eqb _ _); [done|].
  destruct (url_to_file_path u) as [p|]; cbn [rbind]; [|done]. destruct (default _ _) as [[] []]; done.
Qed.

Lemma import_target_settles (r : nat -> packager) rq target subpath pattern :
  (forall s u, settles (fun k => r k s u (referrer_kind rq) (conditions rq) (mode rq))) ->
  settles (fun k => resolve_import_target (r k) rq target subpath pattern).
Proof.
  intros Hr. unfold resolve_import_target. apply settles_bind_const; [done|]. intros u.
  set (spec := if pattern then replace_first star subpath target else target ++ subpath).
  set (fallback := fun e => if is_builtin_node_module target && negb (is_fatal e) then unwrap_parse (js "node:" ++ target) else Throw e).
  apply (settles_ext _ (fun k => match r k spec u (referrer_kind rq) (conditions rq) (mode rq) with Ok (Some v) => Ok v | Ok None => fallback (Error "not found") | Throw e => fallback e end));
    [intros k; by destruct (r k spec _ _ _ _) as [[]|]|].
  apply (settles_then _ (fun k x => match x with Ok (Some v) => Ok v | Ok None => fallback (Error "not found") | Throw e => fallback e end)); [apply Hr|].
  intros [[v|]|e] He; apply settles_const; unfold fallback; [done|by destruct (_ && _)|]. destruct (_ && _); [done|]. by intros [= ->].
Qed.

Lemma target_string_settles (r : nat -> packager) rq target subpath psub pattern internal :
  (internal = true -> forall s u, settles (fun k => r k s u (referrer_kind rq) (conditions rq) (mode rq))) ->
  settles (fun k => resolve_package_target_string (r k) rq target subpath psub pattern internal).
Proof.
  intros Hr. unfold resolve_package_target_string. destruct (_ && negb (ends_with _ _)); [by apply settles_const|]. destruct (negb (starts_with _ _)).
  - destruct internal; cbn [andb]; [|by apply settles_const]. destruct (_ && _); [|by apply settles_const]. destruct (url_parse target) as [v|]; [|by apply import_target_settles, Hr].
    apply settles_const. by destruct (get_module_name_from_builtin_node_module_specifier v).
  - destruct (invalid_segment _); [by apply settles_const|]. apply settles_bind_const; [done|]. intros dir. destruct (negb (path_starts_with _ _)); [by apply settles_const|].
    destruct (str_eqb subpath []); [by apply settles_const|]. destruct (invalid_segment subpath); [by apply settles_const|]. destruct pattern; by apply settles_const.
Qed.

(** Targets in "exports" do not resolve packages. *)
Lemma target_string_exports r r' rq target subpath psub pattern :
  resolve_package_target_string r rq target subpath psub pattern false = resolve_package_target_string r' rq target subpath psub pattern false.
Proof. done. Qed.

Section Settles.
Context (d : nat -> declarer) (r : nat -> packager) (kind : NodeModuleKind) (conds : list rstr) (m : NodeResolutionMode) (pkg_path : rstr).
#[local] Abbreviation rq := (Request pkg_path kind conds m).

(** The types of a path are asked for, and found or not. *)
Definition declares (q : rstr) : Prop := settles (fun k => d k q kind).

Lemma declared_settles u :
  (m = Types -> forall q, (if str_eqb (url_scheme u) (js "file") then url_to_file_path u else None) = Some q -> declares q) ->
  settles (fun k => if is_types m && str_eqb (url_scheme u) (js "file") then match url_to_file_path u with Some p => d k p kind | None => panic "called unwrap on an Err value" end else Ok (Some u)).
Proof.
  intros Hd. destruct m; cbn [is_types andb]; [by apply settles_const|]. destruct (str_eqb _ _); [|by apply settles_const].
  destruct (url_to_file_path u) as [q|]; [by apply Hd|by apply settles_const].
Qed.

Lemma string_settles target subpath psub pattern internal :
  (m = Types -> forall q, (internal = false -> asked_string rq subpath psub pattern target = Some q) -> declares q) ->
  (internal = true -> forall s u, settles (fun k => r k s u kind conds m)) ->
  settles (fun k => resolve_string (d k) (r k) rq target subpath psub pattern internal).
Proof.
  intros Hd Hr. unfold resolve_string. cbn [mode referrer_kind]. destruct internal.
  - apply settles_bind; [by apply target_string_settles|]. intros u. apply declared_settles. intros Hm q _. by apply Hd.
  - apply (settles_ext _ _ (fun k => f_equal (fun x => rbind x _) (target_string_exports (r k) no_package rq target subpath psub pattern))).
    pose proof (target_string_settles (fun _ => no_package) rq target subpath psub pattern false ltac:(done)) as (n & Hn & _). unfold asked_string in Hd.
    destruct (resolve_package_target_string no_package rq target subpath psub pattern false) as [u|e]; cbn [rbind]; [|apply settles_const; intros [= ->]; by apply Hn].
    apply declared_settles. intros Hm q Hq. by apply Hd.
Qed.

Lemma target_settles target subpath psub pattern internal :
  (m = Types -> forall q, (internal = false -> q ∈ omap (asked_string rq subpath psub pattern) (target_strings target)) -> declares q) ->
  (internal = true -> forall s u, settles (fun k => r k s u kind conds m)) ->
  settles (fun k => resolve_package_target (d k) (r k) rq target subpath psub pattern internal).
Proof.
  intros Hd Hr. revert Hd. induction target as [| | |s|items IH|fields IH] using json_nested_ind; intros Hd; cbn [resolve_package_target]; try (by apply settles_const).
  - apply string_settles; [|done]. intros Hm q Hq. apply Hd; [done|]. intros Hi. cbn [target_strings omap list_omap]. rewrite (Hq Hi). by left.
  - cbn [target_strings] in Hd. enough (forall last : option jserr, last <> Some (Coded "out of fuel" []) -> settles (fun k => resolve_array (fun item => resolve_package_target (d k) (r k) rq item subpath psub pattern internal) items last)) as He by by apply He.
    induction IH as [|item items Hi _ IHi]; intros last Hl; cbn [resolve_array].
    { apply settles_const. destruct last; [|done]. intros [= ->]. by apply Hl. }
    apply (settles_then _ (fun k x => match x with Ok (Some u) => Ok (Some u) | Ok None => resolve_array _ items None | Throw e => if is_invalid_package_target e then resolve_array _ items (Some e) else Throw e end)).
    + apply Hi. intros Hm q Hq. apply Hd; [done|]. intros Hint. cbn [flat_map]. rewrite omap_app. apply elem_of_app. left. by apply Hq.
    + assert (forall last : option jserr, last <> Some (Coded "out of fuel" []) -> settles (fun k => resolve_array (fun item => resolve_package_target (d k) (r k) rq item subpath psub pattern internal) items last)) as Hrest.
      { apply IHi. intros Hm q Hq. apply Hd; [done|]. intros Hint. cbn [flat_map]. rewrite omap_app. apply elem_of_app. right. by apply Hq. }
      intros [[u|]|e] He; [by apply settles_const|by apply Hrest|]. assert (e <> Coded "out of fuel" []) as He' by (intros ->; by apply He).
      destruct (is_invalid_package_target e); [apply Hrest; congruence|by apply settles_const; intros [= ->]].
  - cbn [target_strings] in Hd. induction IH as [|[key v] fields Hv _ IHf]; cbn [resolve_object]; [by apply settles_const|].
    assert (settles (fun k => resolve_object (condition_applies rq) (fun v => resolve_package_target (d k) (r k) rq v subpath psub pattern internal) fields (Throw (invalid_package_target psub)))) as Hrest.
    { apply IHf. intros Hm q Hq. apply Hd; [done|]. intros Hint. cbn [flat_map]. rewrite omap_app. apply elem_of_app. right. by apply Hq. }
    destruct (condition_applies rq key); [|done]. apply settles_bind; [|by intros [u|]; [apply settles_const|]].
    apply Hv. intros Hm q Hq. apply Hd; [done|]. intros Hint. cbn [flat_map snd]. rewrite omap_app. apply elem_of_app. left. by apply Hq.
Qed.

Lemma exports_settles psub exps :
  (m = Types -> forall target subpath key pattern, export_target psub exps = Some (target, subpath, key, pattern) ->
    forall q, q ∈ omap (asked_string rq subpath key pattern) (target_strings target) -> declares q) ->
  settles (fun k => package_exports_resolve (d k) (r k) rq psub exps).
Proof.
  unfold package_exports_resolve, export_target. intros Hd.
  assert (forall target subpath key pattern, (m = Types -> forall q, q ∈ omap (asked_string rq subpath key pattern) (target_strings target) -> declares q) ->
    settles (fun k => or_not_found psub (resolve_package_target (d k) (r k) rq target subpath key pattern false))) as Hor.
  { intros target subpath key pattern Hq. unfold or_not_found. apply settles_bind; [|intros [u|]; by apply settles_const].
    apply target_settles; [|done]. intros Hm q Hin. apply Hq; [done|]. by apply Hin. }
  destruct (if _ || _ then _ else _) as [target|]; [apply Hor; intros Hm q Hq; by apply (Hd Hm _ _ _ _ eq_refl)|].
  destruct (exports_best _ _ _ _) as [key [subpath|]]; [|by apply settles_const]. destruct (map_get exps key) as [target|]; [|by apply settles_const].
  apply Hor. intros Hm q Hq. by apply (Hd Hm _ _ _ _ eq_refl).
Qed.

Lemma main_settles pkg :
  (m = Types -> forall main dir, types pkg = None -> PackageJson.main pkg kind = Some main -> parent (path pkg) = Some dir -> declares (clean (path_join dir main))) ->
  settles (fun k => legacy_main_resolve (d k) pkg kind m).
Proof.
  intros Hd. unfold legacy_main_resolve, parent_of, panic. destruct (parent (path pkg)) as [dir|]; cbn [rbind]; [|by apply settles_const].
  assert (forall maybe_main, match first_file (main_candidates dir maybe_main kind m) with Some file => let! u := to_file_specifier file in Ok (Some u) | None => Ok None end <> out_of_fuel) as Hg
    by (intros mm; by destruct (first_file _)).
  destruct m; cbn [is_types]; [by apply settles_const|]. destruct (types pkg) as [t|]; [by apply settles_const|].
  destruct (PackageJson.main pkg kind) as [main|]; [|by apply settles_const]. apply settles_bind; [by apply Hd|]. intros [u|]; by apply settles_const.
Qed.
End Settles.

(** What is asked of the types of the package itself. *)
Lemma subpath_settles d r pkg psub kind conds m :
  (m = Types -> forall q, settles (fun k => d k q kind)) -> settles (fun k => resolve_package_subpath (d k) (r k) pkg psub kind conds m).
Proof.
  intros Hd. unfold resolve_package_subpath. destruct (exports pkg) as [exps|].
  - apply (settles_then _ (fun k x => match x with Ok u => Ok (Some u) | Throw e => if is_types m && str_eqb psub [dot] && negb (is_fatal e) then legacy_main_resolve (d k) pkg kind m else Throw e end)).
    + apply exports_settles. intros Hm t s key p _ q _. by apply Hd.
    + intros [u|e] He; [by apply settles_const|]. destruct (_ && _); [apply main_settles; intros Hm ? ? _ _ _; by apply Hd|]. by apply settles_const; intros [= ->].
  - destruct (str_eqb psub [dot]); [apply main_settles; intros Hm ? ? _ _ _; by apply Hd|]. apply settles_bind_const; [done|]. intros dir.
    destruct m; cbn [is_types]; [by apply settles_const|by apply Hd].
Qed.

Lemma package_settles d r s u kind conds m :
  (m = Types -> forall q, settles (fun k => d k q kind)) -> settles (fun k => package_resolve_body (d k) (r k) s u kind conds m).
Proof.
  intros Hd. unfold package_resolve_body. apply settles_bind_const; [apply parse_pkg_ends|]. intros [[n sub] sc]. apply settles_bind_const; [apply closest_ends|].
  intros [config|]; [|by apply settles_const]. destruct (if _ && _ then _ else _) as [exps|].
  - apply settles_bind; [|intros v; by apply settles_const]. apply exports_settles. intros Hm t sp key p _ q _. by apply Hd.
  - apply settles_bind_const; [done|]. intros dir. apply settles_bind_const; [done|]. intros pkg. by apply subpath_settles.
Qed.

(** A chain of directories of which each is asked for by the one before ends. *)
Definition asked_by (kind : NodeModuleKind) (q p : rstr) : Prop := q ∈ asked p kind.

Lemma declaration_settles kind p : Acc (asked_by kind) p -> settles (fun k => path_to_declaration_url k p kind).
Proof.
  induction 1 as [p _ IH]. apply settles_S. cbn [path_to_declaration_url]. destruct (_ || _); [by apply settles_const|].
  destruct (probe_extensions p _ _); [by apply settles_const|].
  assert ((if ends_with (to_lowercase p) (js ".css") then let! u := to_file_specifier p in Ok (Some u) else Ok None) <> out_of_fuel) as Hcss by by destruct (ends_with _ _).
  destruct (is_dir_sync p) eqn:Hdir; [|by apply settles_const].
  assert (match probe_extensions (path_join p (js "index.js")) (to_lowercase (path_join p (js "index.js"))) kind with Some p => let! u := to_file_specifier p in Ok (Some u) | None => if ends_with (to_lowercase p) (js ".css") then let! u := to_file_specifier p in Ok (Some u) else Ok None end <> out_of_fuel) as Hindex
    by by destruct (probe_extensions _ _ _).
  pose proof (load_ends OfCaller (package_json_in p)) as Hl. destruct (load_package_json OfCaller (package_json_in p)) as [pkg|e] eqn:Hpkg;
    [|apply settles_const; destruct (is_fatal e); [by intros [= ->]|done]].
  assert (forall q, q ∈ asked p kind -> settles (fun k => path_to_declaration_url k q kind)) as Hq by (intros q; apply IH).
  unfold asked in Hq. rewrite Hdir, Hpkg in Hq. clear IH.
  apply settles_bind; [|intros [u|]; by apply settles_const]. unfold resolve_package_subpath.
  assert (settles (fun k => legacy_main_resolve (path_to_declaration_url k) pkg kind Types)) as Hmain.
  { apply main_settles. intros _ main dir Ht Hm Hp. apply Hq, elem_of_app. right. rewrite Ht, Hm, Hp. by left. }
  destruct (exports pkg) as [exps|]; [|done].
  apply (settles_then _ (fun k x => match x with Ok u => Ok (Some u) | Throw e => if is_types Types && str_eqb [dot] [dot] && negb (is_fatal e) then legacy_main_resolve (path_to_declaration_url k) pkg kind Types else Throw e end)).
  - apply exports_settles. intros _ target subpath key pattern Ht q Hin. apply Hq, elem_of_app. left. cbn [mbind option_bind]. by rewrite Ht.
  - intros [u|e] He; [by apply settles_const|]. destruct (_ && _); [done|]. by apply settles_const; intros [= ->].
Qed.

Lemma imports_settles d r n kind pkg conds m :
  (m = Types -> forall q, settles (fun k => d k q kind)) -> (forall s u, settles (fun k => r k s u kind conds m)) ->
  settles (fun k => package_imports_resolve (d k) (r k) n kind pkg conds m).
Proof.
  intros Hd Hr. unfold package_imports_resolve. destruct (_ || _); [by apply settles_const|]. destruct pkg as [pkg|]; [|by apply settles_const].
  assert (forall target subpath key pattern, settles (fun k => let! resolved := resolve_package_target (d k) (r k) (Request (path pkg) kind conds m) target subpath key pattern true in
    match resolved with Some u => Ok u | None => Throw (import_not_defined n) end)) as Ht.
  { intros. apply settles_bind; [|intros [u|]; by apply settles_const]. apply target_settles; [|done]. intros Hm q _. by apply Hd. }
  destruct (if exists_ pkg then _ else _) as [imps|]; [|by apply settles_const]. destruct (if contains_char star n then _ else _) as [target|]; [apply Ht|].
  apply settles_bind_const; [apply imports_best_ends|]. intros [key [x|]]; cbn [fst snd]; [|by apply settles_const]. destruct (map_get imps key); [apply Ht|by apply settles_const].
Qed.

Lemma module_settles s u conds m : (m = Types -> forall q, settles (fun k => decl k q Esm)) -> settles (fun k => module_resolve k s u conds m).
Proof.
  intros Hd. unfold module_resolve. apply settles_bind; [|intros [v|]; [|by apply settles_const]].
  - destruct (should_be_treated_as_relative_or_absolute_path s).
    + destruct (url_join u s) as [v|]; [|by apply settles_const]. destruct m; cbn [is_types]; [by apply settles_const|]. apply settles_bind_const; [done|]. intros p. by apply Hd.
    + destruct (starts_with s (js "#")).
      * apply settles_bind_const; [apply closest_ends|]. intros pkg. apply settles_bind; [|intros v; by apply settles_const].
        apply imports_settles; [done|]. intros s' u'. by apply package_settles.
      * destruct (url_parse s); [by apply settles_const|]. by apply package_settles.
  - apply settles_const. apply finalize_ends.
Qed.

Lemma resolve_settles s u m : (m = Types -> forall q, settles (fun k => decl k q Esm)) -> settles (fun k => resolve k s u m).
Proof.
  intros Hd. unfold resolve. destruct (is_builtin_node_module s); [by apply settles_const|].
  assert (settles (fun k => let! v := module_resolve k s u DEFAULT_CONDITIONS m in
    match v with
    | None => Ok None
    | Some v =>
        let! v := match m with Execution => Ok (Some v) | Types => match url_to_file_path v with Some p => decl k p Esm | None => panic "called unwrap on an Err value" end end in
        match v with None => Ok None | Some v => let! r := url_to_node_resolution v in Ok (Some r) end
    end)) as Hm.
  { apply settles_bind; [by apply module_settles|]. intros [v|]; [|by apply settles_const]. apply settles_bind.
    - destruct m; [by apply settles_const|]. destruct (url_to_file_path v); [by apply Hd|by apply settles_const].
    - intros [w|]; [|by apply settles_const]. apply settles_const. pose proof (kind_ends w). destruct (url_to_node_resolution w); cbn [rbind]; [done|by intros [= ->]]. }
  destruct (url_parse s) as [v|]; [|exact Hm]. destruct (str_eqb (url_scheme v) (js "data")); [by apply settles_const|].
  destruct (get_module_name_from_builtin_node_module_specifier v); [by apply settles_const|]. destruct (negb _); [by apply settles_const|].
  destruct (str_eqb (url_scheme u) _); [|exact Hm]. apply settles_const. by destruct (url_join u s).
Qed.

(** C29: Resolution ends.  Given that the npm resolver and the check of
    permissions do not fail with the error that stands for a lack of fuel:
    when a program runs, a specifier is resolved, or an error is found, with
    no fuel at all, and any fuel gives the same.  When types are looked up
    there is an amount of fuel that gives an answer, and more fuel gives the
    same one, if there is no infinite chain of directories each of which
    has the types of the next as its own; [types_loop] is a directory that is
    its own main entry, where the search does not end. *)
Theorem resolve_ends s u :
  (resolve 0 s u Execution <> out_of_fuel /\ forall k, resolve k s u Execution = resolve 0 s u Execution) /\
  (well_founded (asked_by Esm) -> exists n, resolve n s u Types <> out_of_fuel /\ forall k, n <= k -> resolve k s u Types = resolve n s u Types).
Proof.
  assert (forall k, resolve k s u Execution = resolve 0 s u Execution) as Hany by (intros k; apply approx_both; apply resolve_approx; by right).
  split; [split; [|done]|].
  - destruct (resolve_settles s u Execution) as (n & Hn & _); [done|]. by rewrite <- (Hany n).
  - intros Hwf. apply (resolve_settles s u Types). intros _ q. apply declaration_settles, Hwf.
Qed.
End Ends.

(** ** Packages keep to their directory *)

Section Confined.
Context {H : Host} (d : declarer) (r : packager).

(** What cleaning a path is documented to do. *)
Context (clean_absolute : forall p, is_absolute p = true -> ParentDir ∉ components (path_clean p)).
Context (rq : request) (dir : rstr).
Context (Hexec : mode rq = Execution) (Hdir : parent (package_json_path rq) = Some dir) (Habs : is_absolute dir = true) (Hstar : star ∉ dir).

(** The texts that may stand in the place of the star. *)
Definition plain_match (x : rstr) : Prop := head x <> Some slash /\ last x <> Some slash.

Lemma path_join_absolute p q : is_absolute p = true -> is_absolute (path_join p q) = true.
Proof. intros Hp. unfold path_join. destruct (is_absolute q) eqn:Hq; [done|]. destruct p as [|c p]; [done|]. destruct (last (c :: p)) as [e|] eqn:Hl; [|by rewrite last_None in Hl]. by destruct (e =? slash)%Z. Qed.

Lemma valid_parts s : invalid_segment s = false -> ([dot] ∉ split_on (Z.eqb slash) s) /\ ([dot; dot] ∉ split_on (Z.eqb slash) s).
Proof.
  intros Hs. assert (forall w, Forall (fun c => is_separator c = false) w -> is_dot w || is_dotdot w || str_eqb w (js "node_modules") = true -> w ∉ split_on (Z.eqb slash) s) as Hw.
  { intros w Hf Hb Hin. apply (split_on_finer _ is_separator) in Hin; [|intros c Hc; unfold is_separator; by rewrite Z.eqb_sym, Hc|done].
    unfold invalid_segment in Hs. assert (existsb (fun part => is_dot part || is_dotdot part || str_eqb part (js "node_modules")) (split_on is_separator s) = true); [|congruence].
    apply existsb_exists. exists w. split; [by apply list_elem_of_In|done]. }
  split; apply Hw; by repeat constructor.
Qed.

Lemma string_inside target subpath psub (pattern : bool) u :
  (if pattern then subpath <> [] /\ plain_match subpath else subpath = []) ->
  resolve_string d r rq target subpath psub pattern false = Ok (Some u) -> exists p, from_file_path p = Some u /\ inside dir p.
Proof.
  intros Hsub. unfold resolve_string, resolve_package_target_string. rewrite Hexec. cbn [is_types andb]. destruct (_ && _); [done|].
  destruct (negb (starts_with _ _)); [done|]. destruct (invalid_segment (drop 2 target)); [done|]. unfold parent_of. rewrite Hdir. cbn [rbind].
  set (rp := clean (path_join dir target)). assert (ParentDir ∉ components rp) as Hnp by (apply clean_absolute; by apply path_join_absolute).
  destruct (path_starts_with rp dir) eqn:Hp; [|done]. cbn [negb]. assert (inside dir rp) as Hin by done.
  assert (forall q, inside dir q -> rbind (to_file_specifier q) (fun u => Ok (Some u)) = Ok (Some u) -> exists p, from_file_path p = Some u /\ inside dir p) as Hout.
  { intros q Hq. unfold to_file_specifier. destruct (from_file_path q) as [v|] eqn:Hf; cbn [rbind]; [|done]. intros [= <-]. eauto. }
  destruct (str_eqb subpath []) eqn:He; [by apply Hout|]. destruct (invalid_segment subpath) eqn:Hs; [done|].
  destruct pattern; [|apply bool_decide_eq_false in He; done]. destruct Hsub as (Hne & Hh & Hl). apply Hout. unfold replace_first.
  destruct (find star rp) as [i|] eqn:Hf; [|done]. destruct (valid_parts _ Hs) as [Hd Hdd]. apply inside_replace with star; try done. by rewrite <- (find_split _ _ _ Hf).
Qed.

Lemma target_inside target subpath psub (pattern : bool) u :
  (if pattern then subpath <> [] /\ plain_match subpath else subpath = []) ->
  resolve_package_target d r rq target subpath psub pattern false = Ok (Some u) -> exists p, from_file_path p = Some u /\ inside dir p.
Proof.
  intros Hsub. induction target as [| | |s|items IH|fields IH] using json_nested_ind; try done; cbn [resolve_package_target]; [by apply string_inside| |].
  - generalize (@None jserr). induction IH as [|item items Hi _ IHi]; intros last; cbn [resolve_array]; [by destruct last|].
    destruct (resolve_package_target _ _ _ item _ _ _ _) as [[v|]|e]; [intros [= <-]; by apply Hi|apply IHi|destruct (is_invalid_package_target e); [apply IHi|done]].
  - induction IH as [|[k v] fields Hv _ IHf]; cbn [resolve_object]; [done|]. destruct (condition_applies rq k); [|done]. cbn [snd] in Hv.
    destruct (resolve_package_target _ _ _ v _ _ _ _) as [[w|]|e]; cbn [rbind]; [intros [= <-]; by apply Hv|apply IHf|done].
Qed.

(** C28: A package cannot export what is not its own.  When a program runs, the
    file that "exports" gives for a subpath lies in the directory of the package
    and its path has no step up; provided that the path of that directory is
    absolute and has no star in it, that no pattern takes from the subpath a
    text that begins or ends with a slash, and that the cleaning of an absolute
    path leaves no step up in it.  Without the condition on the star or
    that on the text a file outside can be exported: [star_directory] and [pattern_escapes]. *)
Theorem exports_stay_inside package_subpath exps u :
  (forall k x, k ∈ exps.*1 -> fits_with package_subpath k x -> plain_match x) ->
  package_exports_resolve d r rq package_subpath exps = Ok u -> exists p, from_file_path p = Some u /\ inside dir p.
Proof.
  intros Hplain. unfold package_exports_resolve.
  assert (forall q c v, or_not_found q c = Ok v -> c = Ok (Some v)) as Hor by (intros q [[w|]|e] v; unfold or_not_found; cbn [rbind]; [by intros [= ->]|done|done]).
  match goal with |- match ?x with _ => _ end = _ -> _ => destruct x as [target|] end; [intros Ht%Hor; by eapply target_inside in Ht|].
  destruct (exports_best_spec package_subpath exps.*1 [] None) as (Hb & _ & _); [by left|]. destruct (exports_best _ _ _ _) as [key bs]. cbn [fst snd] in Hb.
  destruct bs as [x|]; [|done]. destruct (map_get exps key) as [target|]; [|done]. destruct Hb as [[=]|(y & [= <-] & Hf & Hk)].
  intros Ht%Hor. eapply (target_inside _ _ _ true) in Ht; [done|]. split; [|by eapply Hplain].
  destruct (fits_base_len _ _ _ Hf) as (a & b & _ & _ & Hx & _). done.
Qed.
End Confined.

(** ** A file system to try it on *)

Module Demo.
Definition scheme_of (u : rstr) : rstr := match find 58 u with Some i => take i u | None => [] end.
Definition file_url (p : rstr) : rstr := js "file://" ++ p.
Definition path_of (u : rstr) : option rstr := if starts_with u (js "file://") then Some (drop 7 u) else None.

(** The names on the way to a path, the last one first. *)
Fixpoint stack (parts : list rstr) (acc : list rstr) : list rstr :=
  match parts with
  | [] => acc
  | p :: parts =>
      match component_of p with
      | Some ParentDir => stack parts (tail acc)
      | Some (Normal n) => stack parts (n :: acc)
      | _ => stack parts acc
      end
  end.
Definition from_root (names : list rstr) : rstr := match names with [] => [slash] | _ => concat ((fun n => slash :: n) <$> names) end.
Definition lexical_clean (p : rstr) : rstr := if is_absolute p then from_root (reverse (stack (split_on (Z.eqb slash) p) [])) else p.

Definition package (fields : list (string * json)) : json := JObject ((fun '(k, v) => (js k, v)) <$> fields).
Definition str (s : string) : json := JString (js s).

Definition packages : list (rstr * json) := [
  (js "/app/package.json", package [("name", str "app"); ("imports", package [("#a*", str "./x*.js"); ("#b", str "./main.js")])]%string);
  (js "/nm/p/package.json", package [("name", str "p"); ("exports", package [
      (".", package [("require", str "./index.cjs"); ("import", str "./index.js")]); ("./f/*", str "./lib/*.js"); ("./f/*.js", str "./lib/*.js"); ("./x*", str "./..*/y")])]%string);
  (js "/loop/package.json", package [("exports", package [(".", str "./")])]%string)].

Definition files : list rstr := js <$> ["/app/main.js"; "/nm/p/index.js"; "/nm/p/lib/x.js"]%string ++ [].
Definition directories : list rstr := js <$> ["/"; "/app"; "/nm"; "/nm/p"; "/nm/p/lib"; "/loop"]%string.
Definition is_file (p : rstr) : bool := contains_str (files ++ packages.*1) p.
Definition is_dir (p : rstr) : bool := contains_str directories p.

#[export] Instance host : Host := {|
  url := rstr;
  url_parse s := if contains_char 58 s then Some s else None;
  url_join u s := (fun p => file_url (lexical_clean (path_join (default [] (parent p)) s))) <$> path_of u;
  url_scheme := scheme_of;
  url_path u := default u (path_of u);
  url_str u := u;
  from_specifier _ := Unknown;
  from_file_path p := if is_absolute p then Some (file_url p) else None;
  url_to_file_path := path_of;
  path_clean := lexical_clean;
  to_lowercase s := s;
  exists_sync p := is_file p || is_dir p;
  is_file_sync := is_file;
  is_dir_sync := is_dir;
  stat_sync p := if is_file p || is_dir p then Some (is_dir p, is_file p) else None;
  realpath_sync p := Some p;
  strip_unc_prefix p := p;
  read_text_file_sync p := if is_file p then Source p else NotFound;
  from_str := map_get packages;
  resolve_package_folder_from_package n _ _ := if str_eqb n (js "p") then Ok (js "/nm/p") else Throw (module_not_found n);
  in_npm_package _ := false;
  ensure_read_permission _ _ := Ok tt
|}.

Lemma split_on_names names : Forall (fun n => slash ∉ n) names -> names <> [] -> split_on (Z.eqb slash) (concat ((fun n => slash :: n) <$> names)) = [] :: names.
Proof.
  assert (forall n, slash ∉ n -> split_on (Z.eqb slash) n = [n]) as Hone.
  { induction n as [|c n IH]; [done|]. intros [Hc Hn]%not_elem_of_cons. cbn [split_on]. rewrite IH by done. by rewrite (proj2 (Z.eqb_neq slash c)). }
  induction 1 as [|n names Hn Hns IH]; [done|]. intros _. rewrite fmap_cons. cbn [concat app split_on]. rewrite Z.eqb_refl, split_on_glue, Hone by done.
  destruct names as [|m names]; [cbn; by rewrite app_nil_r|]. rewrite IH by done. cbn. by rewrite app_nil_r.
Qed.

Lemma split_on_free sep s : Forall (fun p => forall c, c ∈ p -> sep c = false) (split_on sep s).
Proof.
  induction s as [|x s IH]; cbn; [repeat constructor; by intros c ?%elem_of_nil|]. destruct (sep x) eqn:Hx; [constructor; [by intros c ?%elem_of_nil|done]|].
  destruct (split_on sep s) as [|p ps]; apply Forall_cons in IH || idtac.
  - repeat constructor. by intros c ->%list_elem_of_singleton.
  - destruct IH as [Hp Hps]. constructor; [|done]. intros c [->|Hc]%elem_of_cons; auto.
Qed.

Lemma stack_good parts acc :
  Forall (fun n => slash ∉ n) parts -> Forall (fun n => (slash ∉ n) /\ n <> [dot; dot]) acc -> Forall (fun n => (slash ∉ n) /\ n <> [dot; dot]) (stack parts acc).
Proof.
  intros Hp. revert acc. induction Hp as [|p parts Hp _ IH]; intros acc Hacc; [done|]. cbn [stack]. destruct (component_of p) as [[| | |n]|] eqn:Hc; try by apply IH.
  - apply IH. destruct Hacc; [constructor|done].
  - apply IH. constructor; [|done]. pose proof (component_of_elem _ _ Hc) as ->. split; [done|]. intros ->. done.
Qed.

(** The lexical cleaning of this file system does what is asked of one. *)
Lemma clean_no_parent p : is_absolute p = true -> ParentDir ∉ components (lexical_clean p).
Proof.
  intros Ha. unfold lexical_clean. rewrite Ha. set (names := reverse (stack _ [])). assert (Forall (fun n => (slash ∉ n) /\ n <> [dot; dot]) names) as Hn.
  { apply Forall_reverse, stack_good; [|done]. eapply Forall_impl; [apply split_on_free|]. cbn. intros q Hq Hin. by apply Hq in Hin. }
  unfold from_root. destruct names as [|n ns] eqn:He; [change (ParentDir ∉ [RootDir]); by rewrite list_elem_of_singleton|]. rewrite parent_parts by done.
  rewrite split_on_names; [|eapply Forall_impl; [exact Hn|]; by intros q [? _]|done]. apply not_elem_of_cons. split; [done|].
  intros Hin. rewrite Forall_forall in Hn. by destruct (Hn _ Hin).
Qed.
End Demo.
Import Demo.

(** ** Examples *)

Definition main_js : rstr := js "file:///app/main.js".
Definition p_request : request := Request (js "/nm/p/package.json") Esm DEFAULT_CONDITIONS Execution.
Definition no_types : declarer := fun _ _ => Ok None.
Definition no_packages : packager := fun _ _ _ _ _ => Ok None.
Definition exports_of_p : list (rstr * json) := default [] (map_get packages (js "/nm/p/package.json") ≫= fun v => get v (js "exports") ≫= as_object).

Definition shown (r : result (option NodeResolution)) : result (option (string * rstr)) :=
  let! r := r in Ok ((fun n => match n with REsm u => ("esm"%string, u : rstr) | RCommonJs u => ("cjs"%string, u : rstr) | RBuiltIn s => ("node"%string, s) end) <$> r).
Definition try_resolve (s : string) : result (option (string * rstr)) := shown (resolve 0 (js s) main_js Execution).

(** A whole resolution: the package, its pattern, the file, its kind. *)
Example package_resolves :
  try_resolve "p/f/x" = Ok (Some ("cjs"%string, js "file:///nm/p/lib/x.js")) /\
  try_resolve "p" = Ok (Some ("cjs"%string, js "file:///nm/p/index.js")) /\
  try_resolve "p/f/y" = Throw (module_not_found (js "file:///nm/p/lib/y.js")) /\
  try_resolve "p/g" = Throw (exports_not_found (js "./g")) /\
  try_resolve "#b" = Ok (Some ("cjs"%string, js "file:///app/main.js")) /\
  try_resolve "fs" = Ok (Some ("node"%string, js "fs")).
Proof. vm_compute. repeat split. Qed.

(** Without the condition on the text a pattern takes, a path can leave the package. *)
Example pattern_escapes : package_exports_resolve no_types no_packages p_request (js "./x/z") exports_of_p = Ok (js "file:///nm/p/../z/y").
Proof. vm_compute. reflexivity. Qed.

(** In a directory with a star the text goes there, and not to the target. *)
Example star_directory :
  let rq := Request (js "/nm/p*/package.json") Esm DEFAULT_CONDITIONS Execution in
  package_exports_resolve no_types no_packages rq (js "./f/x") [(js "./f/*", str "./lib/*.js")] = Ok (js "file:///nm/px/lib/*.js").
Proof. vm_compute. reflexivity. Qed.

(** A package whose main entry is its own directory: the search for its types never ends. *)
Example types_loop n : path_to_declaration_url n (js "/loop") Esm = out_of_fuel.
Proof.
  induction n as [|n IH]; [done|]. destruct (load_package_json OfCaller (package_json_in (js "/loop"))) as [pkg|] eqn:Hp; [|done].
  apply (directory_declaration n (js "/loop") Esm pkg); [vm_compute; reflexivity..|done|].
  revert IH. generalize (path_to_declaration_url n). intros d Hd. vm_compute in Hp. injection Hp as <-. vm_compute in Hd. vm_compute. by rewrite Hd.
Qed.

(** A nested condition that does not match ends the search instead of passing on to the next. *)
Example nested_conditions_fail :
  resolve_package_target no_types no_packages p_request (package [("import", package [("worker", str "./w.js")]); ("default", str "./index.js")]%string) [] [dot] false false
    = Throw (invalid_package_target [dot]) /\
  resolve_package_target no_types no_packages p_request (package [("default", str "./index.js")]%string) [] [dot] false false = Ok (Some (js "file:///nm/p/index.js")).
Proof. vm_compute. repeat split. Qed.

(** A path with a slash at its end is not looked up, the root is. *)
Example trailing_slash : finalize_resolution (js "file:///nowhere/") main_js = Throw (unsupported_dir_import (js "file:///nowhere/")).
Proof. vm_compute. reflexivity. Qed.

(** An encoded comma is refused where an encoded backslash is meant. *)
Example encoded_backslash : encoded_sep (js "/a%5Cb") = false /\ encoded_sep (js "/a%2Cb") = true.
Proof. vm_compute. repeat split. Qed.

(** The subpath is cut by characters at an index that counts bytes: the slash is lost. *)
Example subpath_of_wide_name : parse_npm_pkg_name ([195; 169]%Z ++ js "/b") = Ok ([195; 169]%Z, js ".b", false).
Proof. vm_compute. reflexivity. Qed.

(** A name with a star that starts like a pattern makes the range go past the end. *)
Example imports_range_panics : imports_best (js "#a*b") [js "#a*"] [] None = panic "range end index out of range".
Proof. reflexivity. Qed.

(** ** Witnesses *)

Lemma imports_patterns_dead_witness :
  exists pkg, load_package_json OfCaller (js "/app/package.json") = Ok pkg /\
    package_imports_resolve no_types no_packages (js "#ab") Esm (Some pkg) DEFAULT_CONDITIONS Execution = Throw (import_not_defined (js "#ab")).
Proof.
  destruct (load_package_json OfCaller (js "/app/package.json")) as [pkg|e] eqn:Hp; [|discriminate]. exists pkg. split; [done|]. vm_compute in Hp. injection Hp as <-.
  eapply (imports_patterns_dead no_types no_packages (js "#ab")); [|reflexivity..]. apply find_None. reflexivity.
Defined.

Lemma closest_package_json_witness :
  exists l, ancestors (strip_unc_prefix (js "/nm/p/lib")) l /\ get_closest_package_json_path (js "/nm/p/lib/x.js") = Ok (List.find exists_sync (package_json_in <$> l)).
Proof. apply (closest_package_json (js "/nm/p/lib/x.js") (js "/nm/p/lib") (js "/nm/p/lib")); reflexivity. Defined.

Lemma resolves_to_file_witness :
  module_resolve 0 (js "p/f/x") main_js DEFAULT_CONDITIONS Execution = Ok (Some (js "file:///nm/p/lib/x.js")) /\ encoded_sep (js "/nm/p/lib/x.js") = false.
Proof.
  assert (module_resolve 0 (js "p/f/x") main_js DEFAULT_CONDITIONS Execution = Ok (Some (js "file:///nm/p/lib/x.js"))) as Hm by (vm_compute; reflexivity).
  split; [done|]. exact (proj1 (resolves_to_file 0 (js "p/f/x") main_js DEFAULT_CONDITIONS _ Hm)).
Defined.

Lemma parse_npm_pkg_name_spec_witness : exists rest, js "@s/p/x" = js "@s/p" ++ rest /\ js "./x" = dot :: rest /\ npm_rest rest /\ npm_name true (js "@s/p").
Proof.
  apply (parse_npm_pkg_name_spec (js "@s/p/x") (js "@s/p") (js "./x") true); [|discriminate|vm_compute; reflexivity].
  repeat (apply List.Forall_cons; [split; [discriminate|reflexivity]|]). apply List.Forall_nil.
Defined.

(** A file system without the package that loops. *)
Definition host' : Host := {|
  url := rstr; url_parse := url_parse (Host := host); url_join := url_join (Host := host); url_scheme := scheme_of; url_path := url_path (Host := host); url_str u := u;
  from_specifier _ := Unknown; from_file_path := from_file_path (Host := host); url_to_file_path := path_of; path_clean := lexical_clean; to_lowercase s := s;
  exists_sync := exists_sync (Host := host); is_file_sync := is_file; is_dir_sync p := is_dir p && negb (str_eqb p (js "/loop")); stat_sync := stat_sync (Host := host);
  realpath_sync p := Some p; strip_unc_prefix p := p; read_text_file_sync := read_text_file_sync (Host := host); from_str := map_get packages;
  resolve_package_folder_from_package := resolve_package_folder_from_package (Host := host); in_npm_package _ := false; ensure_read_permission _ _ := Ok tt
|}.

(** In it a chain has two paths at most. *)
Definition chain_ends (p : rstr) : bool := forallb (fun q => (length (asked (H := host') q Esm) =? 0)%nat) (asked (H := host') p Esm).

Lemma demo_chains_end : well_founded (asked_by (H := host') Esm).
Proof.
  assert (forall p, asked (H := host') p Esm = [] -> Acc (asked_by (H := host') Esm) p) as Hleaf
    by (intros p Hp; constructor; intros q Hq; unfold asked_by in Hq; rewrite Hp in Hq; by apply elem_of_nil in Hq).
  assert (forallb chain_ends directories = true) as Hall by (vm_compute; reflexivity). rewrite forallb_forall in Hall.
  intros p. destruct (is_dir p) eqn:Hp.
  - apply existsb_exists in Hp as (q & Hq & <-%bool_decide_eq_true). specialize (Hall _ Hq). constructor. intros q' Hq'. apply Hleaf.
    unfold chain_ends in Hall. rewrite forallb_forall in Hall. apply list_elem_of_In, Hall, Nat.eqb_eq in Hq'. by destruct (asked q' Esm).
  - apply Hleaf. unfold asked. change (is_dir_sync p) with (is_dir p && negb (str_eqb p (js "/loop"))). by rewrite Hp.
Qed.

Lemma resolve_ends_witness :
  exists n, resolve (H := host') n (js "p") main_js Types <> out_of_fuel /\ forall k, n <= k -> resolve (H := host') k (js "p") main_js Types = resolve (H := host') n (js "p") main_js Types.
Proof.
  apply (resolve_ends (H := host')).
  - intros n u m. change ((if str_eqb n (js "p") then Ok (js "/nm/p") else Throw (module_not_found n)) <> out_of_fuel). destruct (str_eqb n (js "p")); discriminate.
  - intros perm p. discriminate.
  - exact demo_chains_end.
Defined.

Lemma exports_stay_inside_witness :
  package_exports_resolve no_types no_packages p_request (js "./f/x") exports_of_p = Ok (js "file:///nm/p/lib/x.js") /\
  exists p, from_file_path p = Some (js "file:///nm/p/lib/x.js") /\ inside (js "/nm/p") p.
Proof.
  assert (package_exports_resolve no_types no_packages p_request (js "./f/x") exports_of_p = Ok (js "file:///nm/p/lib/x.js")) as He by (vm_compute; reflexivity).
  split; [done|]. apply (exports_stay_inside no_types no_packages clean_no_parent p_request (js "/nm/p") eq_refl eq_refl eq_refl) with (js "./f/x") exports_of_p; [by apply find_None| |done].
  intros k x Hk Hf%fits_match. revert Hf. cut (Forall (fun k => match exports_match (js "./f/x") k [] with Some x => plain_match x | None => True end) exports_of_p.*1).
  - intros Hall Hf. rewrite Forall_forall in Hall. specialize (Hall k Hk). by rewrite Hf in Hall.
  - vm_compute. repeat constructor; discriminate.
Defined.
