(* ===== verification/Vfs.v ===== *)
(** * The virtual file system: src/crates/sb_fs/virtual_fs.rs

    The files of npm packages are put into a tree by [VfsBuilder], stored, and
    served by [FileBackedVfs].  The real file system that the builder reads and
    the checksum of contents are parameters. *)

From stdpp Require Import gmap sorting.
From S2P Require Import Prelude RustPath PackageJson.
#[local] Open Scope nat_scope.

(** ** The tree *)

Record VirtualFile := VFile {
  file_name_ : rstr;
  offset : Z;
  file_len : Z;
  content : option (list Z)
}.

Inductive VfsEntry :=
| Dir (dir_name : rstr) (entries : list VfsEntry)
| File (file : VirtualFile)
| Symlink (link_name : rstr) (dest_parts : list rstr).

Definition name (e : VfsEntry) : rstr :=
  match e with Dir n _ => n | File f => file_name_ f | Symlink n _ => n end.

(** The order of [str]: by bytes. *)
Fixpoint str_cmp (a b : rstr) : comparison :=
  match a, b with
  | [], [] => Eq
  | [], _ => Lt
  | _, [] => Gt
  | x :: a, y :: b => match (x ?= y)%Z with Eq => str_cmp a b | c => c end
  end.

(** [slice::binary_search_by]. *)
Inductive search := Found (i : nat) | Insert (i : nat).

Fixpoint search_loop (fuel : nat) (f : nat -> comparison) (left right : nat) : search :=
  match fuel with
  | O => Insert left
  | S fuel =>
      if left <? right then
        let mid := left + (right - left) / 2 in
        match f mid with
        | Lt => search_loop fuel f (mid + 1) right
        | Gt => search_loop fuel f left mid
        | Eq => Found mid
        end
      else Insert left
  end.

Definition binary_search (n : rstr) (es : list VfsEntry) : search :=
  search_loop (length es) (fun i => match es !! i with Some e => str_cmp (name e) n | None => Gt end) 0 (length es).

(** [Vec::insert]. *)
Definition insert_at {A} (i : nat) (x : A) (l : list A) : list A := take i l ++ x :: drop i l.

(** ** Building *)

Record VfsBuilder := Builder {
  root_path : rstr;
  root_name : rstr;
  root_entries : list VfsEntry;
  files : list (list Z);
  current_offset : Z;
  file_offsets : gmap rstr Z
}.

Definition unreachable {A} : result A := panic "internal error: entered unreachable code".
Definition unwrap {A} (o : option A) : result A := match o with Some x => Ok x | None => panic "called unwrap on a None value" end.

Definition as_os_str (c : component) : rstr :=
  match c with RootDir => [slash] | CurDir => [dot] | ParentDir => [dot; dot] | Normal n => n end.

(** [Path::strip_prefix]: the components after those of the prefix. *)
Definition strip_prefix (p base : rstr) : option (list rstr) :=
  if path_starts_with p base then Some (as_os_str <$> drop (length (components base)) (components p)) else None.

Definition strip_root_error (target : rstr) : jserr := Coded "StripRootError" target.

Definition path_relative_root (b : VfsBuilder) (p : rstr) : result (list rstr) :=
  match strip_prefix p (root_path b) with Some parts => Ok parts | None => Throw (strip_root_error p) end.

(** [add_dir] down the path, and [f] on the entries of the directory it returns. *)
Fixpoint in_dir (parts : list rstr) (f : list VfsEntry -> result (list VfsEntry)) (es : list VfsEntry) : result (list VfsEntry) :=
  match parts with
  | [] => f es
  | n :: parts =>
      let '(es, index) := match binary_search n es with Found index => (es, index) | Insert index => (insert_at index (Dir n []) es, index) end in
      match es !! index with
      | Some (Dir m sub) => let! sub := in_dir parts f sub in Ok (<[index := Dir m sub]> es)
      | _ => unreachable
      end
  end.

(** A new entry of a directory. *)
Definition add_entry (e : VfsEntry) (es : list VfsEntry) : result (list VfsEntry) :=
  match binary_search (name e) es with
  | Found _ => unreachable
  | Insert index => Ok (insert_at index e es)
  end.

Definition with_entries (b : VfsBuilder) (es : list VfsEntry) : VfsBuilder :=
  Builder (root_path b) (root_name b) es (files b) (current_offset b) (file_offsets b).

Definition add_dir (b : VfsBuilder) (p : rstr) : result VfsBuilder :=
  let! parts := path_relative_root b p in
  let! es := in_dir parts Ok (root_entries b) in
  Ok (with_entries b es).

Definition add_symlink (b : VfsBuilder) (p target : rstr) : result VfsBuilder :=
  let! dest := path_relative_root b target in
  let! dir := unwrap (parent p) in
  let! parts := path_relative_root b dir in
  let! n := unwrap (file_name p) in
  let! es := in_dir parts (add_entry (Symlink n dest)) (root_entries b) in
  Ok (with_entries b es).

Definition set_root_dir_name (b : VfsBuilder) (n : rstr) : VfsBuilder :=
  Builder (root_path b) n (root_entries b) (files b) (current_offset b) (file_offsets b).

Definition into_dir_and_files (b : VfsBuilder) : (rstr * list VfsEntry) * list (list Z) := ((root_name b, root_entries b), files b).

(** The real file system. *)
Inductive FileType := IsDir | IsFile | IsSymlink | IsOther.
Class Disk := {
  canonicalize_path : rstr -> result rstr;
  fs_read_dir : rstr -> result (list (rstr * FileType));
  fs_read : rstr -> result (list Z);
  fs_is_file : rstr -> bool;
  (** [checksum::gen]. *)
  checksum : list Z -> rstr
}.

(** [Path::file_stem]: the name up to its last dot. *)
Definition file_stem (p : rstr) : option rstr :=
  (fun n => match rfind dot n with Some (S i) => take (S i) n | _ => n end) <$> file_name p.

Section Build.
Context {D : Disk}.

Definition new_builder (p : rstr) : result VfsBuilder :=
  let! p := canonicalize_path p in
  let! n := unwrap (file_stem p) in
  Ok (Builder p n [] [] 0 ∅).

Definition add_file (b : VfsBuilder) (p : rstr) (data : list Z) : result VfsBuilder :=
  let sum := checksum data in
  let '(offsets, off) :=
    match file_offsets b !! sum with
    | Some off => (file_offsets b, off)
    | None => (<[sum := current_offset b]> (file_offsets b), current_offset b)
    end in
  let! dir := unwrap (parent p) in
  let! parts := path_relative_root b dir in
  let! n := unwrap (file_name p) in
  let! es := in_dir parts (add_entry (File (VFile n off (Z.of_nat (length data)) (Some data)))) (root_entries b) in
  let current := if (current_offset b =? off)%Z then (current_offset b + Z.of_nat (length data))%Z else current_offset b in
  Ok (Builder (root_path b) (root_name b) es (files b) current offsets).

(** An entry of a directory that is read; [add_sub] adds a directory. *)
Definition add_disk_entry (add_sub : VfsBuilder -> rstr -> result VfsBuilder) (b : VfsBuilder) (p : rstr) (t : FileType) : result VfsBuilder :=
  match t with
  | IsDir => add_sub b p
  | IsFile => let! file_bytes := fs_read p in add_file b p file_bytes
  | IsSymlink =>
      let! target := canonicalize_path p in
      match add_symlink b p target with
      | Throw (Coded code subject) =>
          if bool_decide (code = "StripRootError"%string) then
            if fs_is_file target then let! file_bytes := fs_read target in add_file b p file_bytes else Ok b
          else Throw (Coded code subject)
      | r => r
      end
  | IsOther => Ok b
  end.

Fixpoint add_disk_entries (add_sub : VfsBuilder -> rstr -> result VfsBuilder) (b : VfsBuilder) (l : list (rstr * FileType)) : result VfsBuilder :=
  match l with
  | [] => Ok b
  | (p, t) :: l => let! b := add_disk_entry add_sub b p t in add_disk_entries add_sub b l
  end.

(** Directories are nested as deep as they are: the recursion takes fuel. *)
Fixpoint add_dir_recursive_internal (fuel : nat) (b : VfsBuilder) (p : rstr) : result VfsBuilder :=
  match fuel with
  | O => Throw (Error "out of fuel")
  | S fuel =>
      let! b := add_dir b p in
      let! l := fs_read_dir p in
      add_disk_entries (add_dir_recursive_internal fuel) b l
  end.

Definition add_dir_recursive (fuel : nat) (b : VfsBuilder) (p : rstr) : result VfsBuilder :=
  let! p := canonicalize_path p in add_dir_recursive_internal fuel b p.
End Build.

(** ** Finding *)

Record VfsRoot := Root { vfs_dir : list VfsEntry; vfs_root_path : rstr }.

Definition not_found : jserr := Coded "NotFound" (js "path not found").
Definition circular : jserr := Coded "Other" (js "circular symlinks").
Definition find_out_of_fuel : jserr := Error "out of fuel".

(** [PathBuf::push] for each part. *)
Definition resolve_dest_from_root (dest_parts : list rstr) (root : rstr) : rstr := fold_left path_join dest_parts root.

(** The paths of the links on the way; paths are compared by their components. *)
Definition seen_set := list (list component).

Section Find.
Context (r : VfsRoot).

(** A step of the walk through [es] for each part of the path; [find] resolves a link on the way. *)
Fixpoint walk (find : rstr -> seen_set -> result (rstr * VfsEntry) * seen_set) (parts : list rstr) (final_path : rstr) (current : VfsEntry) (seen : seen_set)
    : result (rstr * VfsEntry) * seen_set :=
  match parts with
  | [] => (Ok (final_path, current), seen)
  | part :: parts =>
      let '(dir, seen) :=
        match current with
        | Dir _ es => (Ok (path_join final_path part, es), seen)
        | Symlink _ dest =>
            let '(found, seen) := find (resolve_dest_from_root dest (vfs_root_path r)) seen in
            (let* (resolved_path, entry) := found in
             match entry with Dir _ es => Ok (path_join resolved_path part, es) | _ => Throw not_found end, seen)
        | File _ => (Throw not_found, seen)
        end in
      match dir with
      | Throw e => (Throw e, seen)
      | Ok (final_path, es) =>
          match binary_search part es with
          | Found index => match es !! index with Some e => walk find parts final_path e seen | None => (panic "index out of bounds", seen) end
          | Insert _ => (Throw not_found, seen)
          end
      end
  end.

Definition find_entry_no_follow_inner (find : rstr -> seen_set -> result (rstr * VfsEntry) * seen_set) (p : rstr) (seen : seen_set) : result (rstr * VfsEntry) * seen_set :=
  match strip_prefix p (vfs_root_path r) with
  | None => (Throw not_found, seen)
  | Some parts => walk find parts (vfs_root_path r) (Dir [] (vfs_dir r)) seen
  end.

(** Links lead from one path to the next: the loop takes fuel. *)
Fixpoint find_entry_inner (fuel : nat) (p : rstr) (seen : seen_set) : result (rstr * VfsEntry) * seen_set :=
  match fuel with
  | O => (Throw find_out_of_fuel, seen)
  | S fuel =>
      match find_entry_no_follow_inner (find_entry_inner fuel) p seen with
      | (Ok (_, Symlink _ dest), seen) =>
          if bool_decide (components p ∈ seen) then (Throw circular, seen)
          else find_entry_inner fuel (resolve_dest_from_root dest (vfs_root_path r)) (components p :: seen)
      | found => found
      end
  end.

Definition find_entry (fuel : nat) (p : rstr) : result (rstr * VfsEntry) := fst (find_entry_inner fuel p []).
Definition find_entry_no_follow (fuel : nat) (p : rstr) : result (rstr * VfsEntry) := fst (find_entry_no_follow_inner (find_entry_inner fuel) p []).

(** ** The operations of [FileBackedVfs] *)

(** The fields of [FsStat] that are not the same for all entries. *)
Record FsStat := Stat { is_directory : bool; is_file : bool; is_symlink : bool; size : Z }.

Definition as_fs_stat (e : VfsEntry) : FsStat :=
  match e with
  | Dir _ _ => Stat true false false 0
  | File f => Stat false true false (file_len f)
  | Symlink _ _ => Stat false false true 0
  end.

Definition is_path_within (p : rstr) : bool := path_starts_with p (vfs_root_path r).

Context (fuel : nat).

Definition file_entry (p : rstr) : result VirtualFile :=
  let* (_, entry) := find_entry fuel p in
  match entry with
  | Dir _ _ => Throw (Coded "Other" (js "path is a directory"))
  | Symlink _ _ => unreachable
  | File f => Ok f
  end.

Definition dir_entry (p : rstr) : result (list VfsEntry) :=
  let* (_, entry) := find_entry fuel p in
  match entry with
  | Dir _ es => Ok es
  | Symlink _ _ => unreachable
  | File _ => Throw (Coded "Other" (js "path is a file"))
  end.

Record FsDirEntry := DirEntry { de_name : rstr; de_is_file : bool; de_is_directory : bool; de_is_symlink : bool }.
Definition fs_dir_entry (e : VfsEntry) : FsDirEntry :=
  DirEntry (name e) (match e with File _ => true | _ => false end) (match e with Dir _ _ => true | _ => false end) (match e with Symlink _ _ => true | _ => false end).

Definition read_dir (p : rstr) : result (list FsDirEntry) := let! es := dir_entry p in Ok (fs_dir_entry <$> es).

Definition read_link (p : rstr) : result rstr :=
  let* (_, entry) := find_entry_no_follow fuel p in
  match entry with
  | Symlink _ dest => Ok (resolve_dest_from_root dest (vfs_root_path r))
  | _ => Throw (Coded "Other" (js "not a symlink"))
  end.

Definition lstat (p : rstr) : result FsStat := let* (_, entry) := find_entry_no_follow fuel p in Ok (as_fs_stat entry).
Definition stat (p : rstr) : result FsStat := let* (_, entry) := find_entry fuel p in Ok (as_fs_stat entry).
Definition canonicalize (p : rstr) : result rstr := let* (found, _) := find_entry fuel p in Ok found.
End Find.

(** ** Files *)

(** [read_file] into a buffer: what it writes at the start of the buffer, whatever the position is. *)
Definition read_file (f : VirtualFile) (pos : Z) (buf : list Z) : result (nat * list Z) :=
  match content f with
  | Some content =>
      let read_length := length buf `min` length content in
      Ok (read_length, take read_length content ++ drop read_length buf)
  | None => Throw (Coded "NotFound" (js "No content available"))
  end.

Definition read_file_all (f : VirtualFile) : result (list Z) :=
  let* (_, buf) := read_file f 0 (replicate (Z.to_nat (file_len f)) 0%Z) in Ok buf.

(** 64-bit numbers; the release build wraps around. *)
Definition u64 (x : Z) : Z := (x mod 2 ^ 64)%Z.

Inductive SeekFrom := Start (pos : Z) | End_ (offset : Z) | Current (offset : Z).

(** An open file: its entry and its position. *)
Record FileBackedVfsFile := Opened { file : VirtualFile; pos : Z }.

Definition before_beginning : jserr := Coded "PermissionDenied" (js "An attempt was made to move the file pointer before the beginning of the file.").

Definition seek (o : FileBackedVfsFile) (to : SeekFrom) : FileBackedVfsFile * result Z :=
  let moved p := (Opened (file o) p, Ok p) in
  match to with
  | Start p => moved p
  | End_ offset =>
      if (offset <? 0)%Z && (file_len (file o) <? u64 (- offset))%Z then (o, Throw before_beginning)
      else moved (if (0 <=? offset)%Z then u64 (file_len (file o) - offset) else u64 (file_len (file o) + u64 (- offset)))
  | Current offset =>
      if (0 <=? offset)%Z then moved (u64 (pos o + offset))
      else if (pos o <? u64 (- offset))%Z then (o, Throw before_beginning)
      else moved (u64 (pos o - u64 (- offset)))
  end.

Definition read_to_buf (o : FileBackedVfsFile) (buf : list Z) : FileBackedVfsFile * result (nat * list Z) :=
  (Opened (file o) (file_len (file o) `min` u64 (pos o + Z.of_nat (length buf)))%Z, read_file (file o) (pos o) buf).

Definition read_to_end (o : FileBackedVfsFile) : FileBackedVfsFile * result (list Z) :=
  let o' := Opened (file o) (if (pos o <? file_len (file o))%Z then file_len (file o) else pos o) in
  if (file_len (file o) <? pos o)%Z then (o', Ok [])
  else
    let buf := replicate (Z.to_nat (file_len (file o) - pos o)) 0%Z in
    (o', let* (_, buf) := read_file (file o) (pos o) buf in Ok buf).

Definition open_file (r : VfsRoot) (fuel : nat) (p : rstr) : result FileBackedVfsFile :=
  let! f := file_entry r fuel p in Ok (Opened f 0).

(** ** Binary search *)

Lemma str_cmp_refl a : str_cmp a a = Eq.
Proof. induction a as [|x a IH]; cbn; [done|]. by rewrite Z.compare_refl. Qed.

Lemma str_cmp_eq a b : str_cmp a b = Eq <-> a = b.
Proof.
  split; [|intros ->; apply str_cmp_refl]. revert b. induction a as [|x a IH]; intros [|y b]; cbn; try done.
  destruct (Z.compare_spec x y) as [->| |]; [|done|done]. intros Hab. f_equal. by apply IH.
Qed.

Lemma str_cmp_antisym a b : str_cmp b a = CompOpp (str_cmp a b).
Proof.
  revert b. induction a as [|x a IH]; intros [|y b]; cbn; try done. rewrite (Z.compare_antisym x y). destruct (x ?= y)%Z; cbn; auto.
Qed.

Lemma str_cmp_trans a b c : str_cmp a b = Lt -> str_cmp b c = Lt -> str_cmp a c = Lt.
Proof.
  revert b c. induction a as [|x a IH]; intros [|y b] [|z c]; cbn; try done.
  destruct (Z.compare_spec x y) as [->|Hxy|]; [| |done].
  - destruct (Z.compare_spec y z); [apply IH|done|done].
  - intros _. destruct (Z.compare_spec y z) as [->|Hyz|]; [|intros _|done].
    + intros _. by rewrite (proj2 (Z.compare_lt_iff x z) Hxy).
    + by rewrite (proj2 (Z.compare_lt_iff x z)) by lia.
Qed.

Definition before (a b : VfsEntry) : Prop := str_cmp (name a) (name b) = Lt.
Definition sorted (es : list VfsEntry) : Prop := StronglySorted before es.

Lemma sorted_lookup es i j a b : sorted es -> es !! i = Some a -> es !! j = Some b -> i < j -> before a b.
Proof.
  intros Hs. revert i j. induction Hs as [|e es _ IH Hf]; intros i j Ha Hb Hij; [done|]. destruct j as [|j]; [lia|]. destruct i as [|i].
  - cbn in Ha. injection Ha as ->. rewrite Forall_lookup in Hf. by eapply Hf.
  - apply (IH i j); [done|done|lia].
Qed.

(** What a binary search tells about a list that is sorted. *)
Definition search_spec (n : rstr) (es : list VfsEntry) (s : search) : Prop :=
  match s with
  | Found i => exists a e b, es = a ++ e :: b /\ length a = i /\ name e = n /\ Forall (fun x => str_cmp (name x) n = Lt) a /\ Forall (fun x => str_cmp (name x) n = Gt) b
  | Insert i => exists a b, es = a ++ b /\ length a = i /\ Forall (fun x => str_cmp (name x) n = Lt) a /\ Forall (fun x => str_cmp (name x) n = Gt) b
  end.

Lemma Forall_take_lookup {A} (P : A -> Prop) l i : (forall j x, j < i -> l !! j = Some x -> P x) -> Forall P (take i l).
Proof. intros Hp. apply Forall_lookup. intros j x Hj. apply lookup_take_Some in Hj as [Hj Hi]. eauto. Qed.
Lemma Forall_drop_lookup {A} (P : A -> Prop) l i : (forall j x, i <= j -> l !! j = Some x -> P x) -> Forall P (drop i l).
Proof. intros Hp. apply Forall_lookup. intros j x Hj. rewrite lookup_drop in Hj. apply (Hp (i + j)); [lia|done]. Qed.

Lemma search_loop_spec n es fuel left right :
  sorted es -> right - left <= fuel -> left <= right <= length es ->
  (forall j x, j < left -> es !! j = Some x -> str_cmp (name x) n = Lt) -> (forall j x, right <= j -> es !! j = Some x -> str_cmp (name x) n = Gt) ->
  search_spec n es (search_loop fuel (fun i => match es !! i with Some e => str_cmp (name e) n | None => Gt end) left right).
Proof.
  intros Hs. revert left right. induction fuel as [|fuel IH]; intros left right Hf Hb Hl Hr; cbn [search_loop].
  { assert (left = right) as -> by lia. exists (take right es), (drop right es). rewrite take_drop, length_take_le by lia.
    split_and!; [done|done|by apply Forall_take_lookup|by apply Forall_drop_lookup]. }
  destruct (Nat.ltb_spec left right) as [Hlt|Hge].
  - set (mid := left + (right - left) / 2). assert (left <= mid < right) as Hmid by (unfold mid; pose proof (Nat.div_lt (right - left) 2); lia).
    destruct (es !! mid) as [e|] eqn:He; [|apply lookup_ge_None in He; lia]. destruct (str_cmp (name e) n) eqn:Hc.
    + apply str_cmp_eq in Hc. exists (take mid es), e, (drop (S mid) es). rewrite take_drop_middle, length_take_le by (done || lia).
      split_and!; [done|done|done|apply Forall_take_lookup|apply Forall_drop_lookup]; intros j x Hj Hx; subst n.
      * by apply (sorted_lookup es j mid).
      * rewrite str_cmp_antisym. by rewrite (sorted_lookup es mid j e x Hs He Hx Hj : str_cmp _ _ = Lt).
    + apply IH; [lia|lia| |done]. intros j x Hj Hx. destruct (decide (j = mid)) as [->|Hne]; [congruence|].
      apply (str_cmp_trans _ (name e)); [apply (sorted_lookup es j mid); done || lia|done].
    + apply IH; [lia|lia|done|]. intros j x Hj Hx. destruct (decide (j = mid)) as [->|Hne]; [congruence|].
      rewrite str_cmp_antisym in Hc |- *. destruct (str_cmp n (name e)) eqn:Hn; try done.
      rewrite (str_cmp_trans n (name e) (name x)); [done|done|apply (sorted_lookup es mid j); done || lia].
  - assert (left = right) as -> by lia. exists (take right es), (drop right es). rewrite take_drop, length_take_le by lia.
    split_and!; [done|done|by apply Forall_take_lookup|by apply Forall_drop_lookup].
Qed.

(** The search finds an entry of a sorted list exactly if there is one, and
    otherwise the place that keeps the list sorted. *)
Lemma binary_search_spec n es : sorted es -> search_spec n es (binary_search n es).
Proof.
  intros Hs. apply search_loop_spec; [done|lia|lia|lia|]. intros j x Hj Hx. apply lookup_lt_Some in Hx. lia.
Qed.

(** ** Trees as maps from paths to nodes *)

Definition by_name (n : rstr) (es : list VfsEntry) : option VfsEntry := List.find (fun e => str_eqb (name e) n) es.

(** Sorted at every level. *)
Inductive wf : VfsEntry -> Prop :=
| wf_dir n es : sorted es -> Forall wf es -> wf (Dir n es)
| wf_file f : wf (File f)
| wf_link n dest : wf (Symlink n dest).
Definition wf_entries (es : list VfsEntry) : Prop := sorted es /\ Forall wf es.

Lemma wf_dir_inv n es : wf (Dir n es) -> wf_entries es.
Proof. by inversion 1. Qed.

Lemma by_name_app m a b : by_name m (a ++ b) = match by_name m a with Some e => Some e | None => by_name m b end.
Proof. unfold by_name. induction a as [|e a IH]; cbn; [done|]. by destruct (str_eqb (name e) m). Qed.

Lemma by_name_cons m e b : by_name m (e :: b) = if decide (name e = m) then Some e else by_name m b.
Proof. unfold by_name, str_eqb. cbn. by rewrite <- decide_bool_decide. Qed.

Lemma by_name_None m es : Forall (fun e => name e <> m) es -> by_name m es = None.
Proof. induction 1 as [|e es He _ IH]; [done|]. rewrite by_name_cons. by destruct (decide (name e = m)). Qed.

Lemma by_name_Some m es e : by_name m es = Some e -> name e = m /\ e ∈ es.
Proof. induction es as [|x es IH]; [done|]. rewrite by_name_cons. destruct (decide _); [intros [= ->]; split; [done|by left]|]. intros [? ?]%IH. split; [done|by right]. Qed.

Lemma not_equal_lt n es : Forall (fun x => str_cmp (name x) n = Lt) es -> Forall (fun e => name e <> n) es.
Proof. intros Hf. eapply Forall_impl; [exact Hf|]. cbn. intros e He <-. by rewrite str_cmp_refl in He. Qed.
Lemma not_equal_gt n es : Forall (fun x => str_cmp (name x) n = Gt) es -> Forall (fun e => name e <> n) es.
Proof. intros Hf. eapply Forall_impl; [exact Hf|]. cbn. intros e He <-. by rewrite str_cmp_refl in He. Qed.

(** Around an entry: smaller names before it, greater names after it. *)
Lemma sorted_around a b e :
  sorted (a ++ b) -> Forall (fun x => str_cmp (name x) (name e) = Lt) a -> Forall (fun x => str_cmp (name x) (name e) = Gt) b -> sorted (a ++ e :: b).
Proof.
  intros Hs Ha Hb. induction a as [|x a IH]; cbn in *.
  - constructor; [done|]. eapply Forall_impl; [exact Hb|]. cbn. intros y Hy. unfold before. by rewrite str_cmp_antisym, Hy.
  - apply StronglySorted_inv in Hs as [Hs Hx]. apply Forall_cons in Ha as [Hxe Ha]. constructor; [by apply IH|]. apply Forall_app in Hx as [H1 H2].
    apply Forall_app. split; [done|]. by constructor.
Qed.

Lemma by_name_around m a b e :
  Forall (fun x => str_cmp (name x) (name e) = Lt) a -> by_name m (a ++ e :: b) = if decide (m = name e) then Some e else by_name m (a ++ b).
Proof.
  intros Ha. rewrite !by_name_app, by_name_cons. destruct (decide (m = name e)) as [->|Hne].
  - rewrite by_name_None by by apply not_equal_lt. by rewrite decide_True.
  - rewrite (decide_False (P := name e = m)) by congruence. done.
Qed.

(** The entry that [in_dir] goes down into, and the list with another one in its place. *)
Lemma put_spec n es es1 i e0 :
  wf_entries es ->
  match binary_search n es with Found i => (es, i) | Insert i => (insert_at i (Dir n []) es, i) end = (es1, i) -> es1 !! i = Some e0 ->
  e0 = default (Dir n []) (by_name n es) /\ wf e0 /\
  forall e, name e = n -> wf e -> wf_entries (<[i := e]> es1) /\ forall m, by_name m (<[i := e]> es1) = if decide (m = n) then Some e else by_name m es.
Proof.
  intros [Hs Hw] Hsearch Hi. pose proof (binary_search_spec n es Hs) as Hspec. destruct (binary_search n es) as [k|k]; injection Hsearch as <- <-.
  - destruct Hspec as (a & x & b & -> & <- & Hx & Ha & Hb). rewrite list_lookup_middle in Hi by done. injection Hi as ->.
    apply Forall_app in Hw as [Hwa Hwb]. apply Forall_cons in Hwb as [Hwe Hwb].
    split_and!; [rewrite by_name_around by (by rewrite Hx); by rewrite Hx, decide_True|done|]. intros e Hn Hwe'. rewrite insert_app_r_alt, Nat.sub_diag by lia. cbn.
    assert (sorted (a ++ b)) as Hs'. { clear -Hs. induction a as [|y a IH]; cbn in *; apply StronglySorted_inv in Hs as [Hs Hy]; [done|]. constructor; [by apply IH|]. apply Forall_app in Hy as [? Hy]. apply Forall_app. split; [done|]. by apply Forall_cons in Hy as [_ ?]. }
    split; [split; [apply sorted_around; by rewrite ?Hn|apply Forall_app; split; [done|by constructor]]|].
    intros m. rewrite !by_name_around by (by rewrite ?Hn, ?Hx). rewrite Hn, Hx. by destruct (decide (m = n)).
  - destruct Hspec as (a & b & -> & <- & Ha & Hb). unfold insert_at in *. rewrite take_app_length, drop_app_length in *. rewrite list_lookup_middle in Hi by done. injection Hi as <-.
    apply Forall_app in Hw as [Hwa Hwb]. split_and!; [|constructor; constructor|].
    { rewrite by_name_None; [done|]. apply Forall_app. split; [by apply not_equal_lt|by apply not_equal_gt]. }
    intros e Hn Hwe'. rewrite insert_app_r_alt, Nat.sub_diag by lia. cbn.
    split; [split; [apply sorted_around; by rewrite ?Hn|apply Forall_app; split; [done|by constructor]]|].
    intros m. rewrite by_name_around by (by rewrite Hn). by rewrite Hn.
Qed.

(** What stands at a path, links not followed. *)
Fixpoint entry_at (e : VfsEntry) (q : list rstr) : option VfsEntry :=
  match q with
  | [] => Some e
  | n :: q => match e with Dir _ es => by_name n es ≫= fun e => entry_at e q | _ => None end
  end.

Inductive node := NDir | NFile (f : VirtualFile) | NLink (dest : list rstr).
Definition node_of (e : VfsEntry) : node := match e with Dir _ _ => NDir | File f => NFile f | Symlink _ dest => NLink dest end.

(** A tree is a map from paths to nodes. *)
Definition view (es : list VfsEntry) (q : list rstr) : option node := node_of <$> entry_at (Dir [] es) q.

Lemma entry_at_dir n m es q : q <> [] -> entry_at (Dir n es) q = entry_at (Dir m es) q.
Proof. by destruct q. Qed.

Lemma view_cons es n q : view es (n :: q) = match by_name n es with Some (Dir _ sub) => view sub q | Some e => match q with [] => Some (node_of e) | _ => None end | None => None end.
Proof. unfold view. cbn. destruct (by_name n es) as [[m sub|f|m d]|]; cbn; destruct q; done. Qed.

Lemma view_nil es : view es [] = Some NDir.
Proof. done. Qed.

Lemma view_empty q : q <> [] -> view [] q = None.
Proof. by destruct q. Qed.

(** The rest of [q] below [parts]. *)
Fixpoint below (parts q : list rstr) : option (list rstr) :=
  match parts, q with
  | [], q => Some q
  | n :: parts, m :: q => if decide (m = n) then below parts q else None
  | _, [] => None
  end.

Lemma below_Some parts q r : below parts q = Some r <-> q = parts ++ r.
Proof.
  revert q. induction parts as [|n parts IH]; intros q; cbn; [split; congruence|]. destruct q as [|m q]; [done|].
  destruct (decide (m = n)) as [->|Hne]; [rewrite IH; split; congruence|]. split; [done|congruence].
Qed.

Fixpoint subtree (es : list VfsEntry) (parts : list rstr) : option (list VfsEntry) :=
  match parts with
  | [] => Some es
  | n :: parts => match by_name n es with Some (Dir _ sub) => subtree sub parts | _ => None end
  end.

Lemma subtree_view es parts sub r : subtree es parts = Some sub -> view es (parts ++ r) = view sub r.
Proof.
  revert es. induction parts as [|n parts IH]; intros es; cbn [subtree app]; [by intros [= ->]|]. rewrite view_cons. destruct (by_name n es) as [[m s|f|m d]|]; try done. apply IH.
Qed.

Lemma subtree_None es parts : subtree es parts = None -> view es parts <> Some NDir.
Proof.
  revert es. induction parts as [|n parts IH]; intros es; cbn [subtree]; [done|]. rewrite view_cons. destruct (by_name n es) as [[m s|f|m d]|]; [apply IH| |..]; destruct parts; done.
Qed.

Lemma subtree_missing es parts r : subtree es parts = None -> r <> [] -> view es (parts ++ r) = None.
Proof.
  revert es. induction parts as [|n parts IH]; intros es; cbn [subtree app]; [done|]. rewrite view_cons. destruct (by_name n es) as [[m s|f|m d]|]; [apply IH|..]; intros _ Hr; destruct parts; by destruct r.
Qed.

(** A change below [parts] makes the directories on the way and leaves everything else as it was. *)
Definition changed (es es' sub' : list VfsEntry) (parts : list rstr) : Prop :=
  forall q, view es' q = match below parts q with Some r => view sub' r | None => if decide (q `prefix_of` parts) then Some NDir else view es q end.

Lemma in_dir_spec parts f es es' :
  wf_entries es -> in_dir parts f es = Ok es' -> (forall sub sub', wf_entries sub -> f sub = Ok sub' -> wf_entries sub') ->
  exists sub', f (default [] (subtree es parts)) = Ok sub' /\ wf_entries es' /\ changed es es' sub' parts.
Proof.
  revert es es'. induction parts as [|n parts IH]; intros es es' Hw; cbn [in_dir subtree].
  { intros Hf Hpres. exists es'. split_and!; [done|by apply (Hpres es)|]. by intros q. }
  destruct (match binary_search n es with Found i => (es, i) | Insert i => (insert_at i (Dir n []) es, i) end) as [es1 i] eqn:Hs.
  destruct (es1 !! i) as [e0|] eqn:Hi; [|done]. destruct (put_spec n es es1 i e0 Hw Hs Hi) as (He0 & Hw0 & Hput).
  destruct e0 as [m sub| |]; [|done|done]. destruct (in_dir parts f sub) as [sub1|e] eqn:Hd; cbn [rbind]; [|done]. intros [= <-] Hpres.
  destruct (IH sub sub1 (wf_dir_inv _ _ Hw0) Hd Hpres) as (sub' & Hf & Hw1 & Hch).
  assert (m = n /\ (by_name n es = Some (Dir n sub) \/ by_name n es = None /\ sub = [])) as [-> Hby].
  { destruct (by_name n es) as [e|] eqn:Hb; cbn in He0; [|injection He0 as -> ->; auto]. destruct (by_name_Some _ _ _ Hb) as [<- _]. subst e. auto. }
  destruct (Hput (Dir n sub1)) as [Hw' Hby']; [done|constructor; apply Hw1|]. exists sub'. split_and!; [|done|].
  - destruct Hby as [Hb|[Hb ->]]; rewrite Hb; [done|]. by destruct parts.
  - intros [|k q]; [done|]. rewrite view_cons, Hby'. cbn [below]. destruct (decide (k = n)) as [->|Hne].
    + rewrite Hch. destruct (below parts q) as [r|] eqn:Hr; [done|]. destruct (decide (q `prefix_of` parts)) as [Hp|Hp].
      { rewrite decide_True; [done|]. by apply prefix_cons. }
      rewrite decide_False by (by intros ?%prefix_cons_inv_2). destruct Hby as [Hb|[Hb ->]]; rewrite view_cons, Hb; [done|]. apply view_empty. intros ->. apply Hp. apply prefix_nil.
    + rewrite decide_False by (by intros ?%prefix_cons_inv_1). by rewrite view_cons.
Qed.

Lemma add_entry_spec e es es' :
  wf_entries es -> wf e -> add_entry e es = Ok es' -> wf_entries es' /\ by_name (name e) es = None /\ forall m, by_name m es' = if decide (m = name e) then Some e else by_name m es.
Proof.
  intros Hw He. unfold add_entry. destruct (binary_search (name e) es) as [i|i] eqn:Hs; [done|]. intros [= <-].
  pose proof (binary_search_spec (name e) es (proj1 Hw)) as Hspec. rewrite Hs in Hspec. destruct Hspec as (a & b & -> & <- & Ha & Hb).
  destruct Hw as [Hsort Hall]. apply Forall_app in Hall as [H1 H2]. unfold insert_at. rewrite take_app_length, drop_app_length. split_and!.
  - split; [by apply sorted_around|]. apply Forall_app. split; [done|by constructor].
  - apply by_name_None, Forall_app. split; [by apply not_equal_lt|by apply not_equal_gt].
  - intros m. by apply by_name_around.
Qed.

(** A leaf that is added. *)
Definition is_leaf (e : VfsEntry) : Prop := match e with Dir _ _ => False | _ => True end.

Lemma in_dir_add parts e es es' :
  wf_entries es -> is_leaf e -> in_dir parts (add_entry e) es = Ok es' ->
  wf_entries es' /\ view es (parts ++ [name e]) = None /\
  forall q, view es' q = if decide (q = parts ++ [name e]) then Some (node_of e) else if decide (q `prefix_of` parts) then Some NDir else view es q.
Proof.
  intros Hw Hl Hin. assert (wf e) as He by (destruct e; by constructor).
  destruct (in_dir_spec parts (add_entry e) es es' Hw Hin) as (sub' & Hf & Hw' & Hch); [intros sub sub' Hws Hs; by apply (add_entry_spec e sub sub' Hws He)|].
  assert (wf_entries (default [] (subtree es parts))) as Hws.
  { clear -Hw. revert es Hw. induction parts as [|n parts IH]; intros es Hw; cbn; [done|]. destruct (by_name n es) as [[m s|f|m d]|] eqn:Hb; cbn; try (by split; constructor).
    apply IH. destruct Hw as [_ Hall]. apply by_name_Some in Hb as [_ Hin]. rewrite Forall_forall in Hall. apply (wf_dir_inv m), Hall, Hin. }
  destruct (add_entry_spec e _ _ Hws He Hf) as (_ & Hnone & Hby). split_and!; [done| |].
  - destruct (subtree es parts) as [sub|] eqn:Hs; [|by apply subtree_missing]. rewrite (subtree_view _ _ _ _ Hs), view_cons. cbn [default from_option id] in Hnone. by rewrite Hnone.
  - intros q. rewrite Hch. destruct (below parts q) as [r|] eqn:Hr.
    + apply below_Some in Hr as ->. destruct r as [|m r].
      * rewrite app_nil_r, decide_False, decide_True; [done|done|]. intros Heq. apply (f_equal length) in Heq. rewrite length_app in Heq. cbn in Heq. lia.
      * rewrite view_cons, Hby. rewrite (decide_False (P := parts ++ m :: r `prefix_of` parts)) by (intros [k Hk]; apply (f_equal length) in Hk; rewrite !length_app in Hk; cbn in Hk; lia).
        assert (view es (parts ++ m :: r) = view (default [] (subtree es parts)) (m :: r)) as -> by (destruct (subtree es parts) as [sub|] eqn:Hs; [by apply subtree_view|by apply subtree_missing]).
        rewrite view_cons. destruct (decide (m = name e)) as [->|Hne]; [|rewrite decide_False; [done|by intros [= ?]%app_inv_head]].
        rewrite Hnone. destruct r as [|k r]; [by rewrite decide_True; destruct e|]. rewrite decide_False by (by intros [=]%app_inv_head). by destruct e.
    + rewrite (decide_False (P := q = parts ++ [name e])); [done|]. intros ->. assert (below parts (parts ++ [name e]) = Some [name e]) by (by apply below_Some). congruence.
Qed.

(** Where a leaf can be added: nothing but directories on the way, nothing at the place itself. *)
Definition free (es : list VfsEntry) (parts : list rstr) (n : rstr) : Prop :=
  (forall q, q `prefix_of` parts -> view es q = None \/ view es q = Some NDir) /\ view es (parts ++ [n]) = None.

Lemma in_dir_total parts e es :
  wf_entries es -> free es parts (name e) -> exists es', in_dir parts (add_entry e) es = Ok es'.
Proof.
  revert es. induction parts as [|n parts IH]; intros es Hw [Hdirs Hnone]; cbn [in_dir].
  - unfold add_entry. pose proof (binary_search_spec (name e) es (proj1 Hw)) as Hs. destruct (binary_search (name e) es) as [i|i]; [|eauto].
    destruct Hs as (a & x & b & -> & _ & Hx & Ha & _). cbn [app] in Hnone. rewrite view_cons, by_name_around, decide_True in Hnone by (by rewrite Hx). by destruct x.
  - destruct (match binary_search n es with Found i => (es, i) | Insert i => (insert_at i (Dir n []) es, i) end) as [es1 i] eqn:Hs.
    assert (exists e0, es1 !! i = Some e0) as [e0 Hi].
    { pose proof (binary_search_spec n es (proj1 Hw)) as Hspec. destruct (binary_search n es) as [k|k]; injection Hs as <- <-.
      - destruct Hspec as (a & x & b & -> & <- & _). exists x. by apply list_lookup_middle.
      - destruct Hspec as (a & b & -> & <- & _). unfold insert_at. rewrite take_app_length. eexists. by apply list_lookup_middle. }
    rewrite Hi. destruct (put_spec n es es1 i e0 Hw Hs Hi) as (He0 & Hw0 & _).
    assert (exists m sub, e0 = Dir m sub) as (m & sub & ->).
    { subst e0. destruct (Hdirs [n]) as [Hv|Hv]; [by apply prefix_cons, prefix_nil|..]; rewrite view_cons in Hv; destruct (by_name n es) as [[]|]; cbn; done || eauto. }
    destruct (IH sub) as [sub' ->]; [by apply (wf_dir_inv m)| |cbn [rbind]; eauto].
    assert (by_name n es = Some (Dir m sub) \/ by_name n es = None /\ sub = []) as Hby by (destruct (by_name n es); cbn in He0; [left; congruence|right; split; congruence]).
    destruct Hby as [Hb|[Hb ->]].
    + split; [|cbn [app] in Hnone; by rewrite view_cons, Hb in Hnone]. intros q Hq. specialize (Hdirs (n :: q)). rewrite view_cons, Hb in Hdirs. apply Hdirs. by apply prefix_cons.
    + split; [|apply view_empty; by destruct parts]. intros [|k q] _; [by right|left; done].
Qed.

Lemma in_dir_free parts e es es' : wf_entries es -> is_leaf e -> in_dir parts (add_entry e) es = Ok es' -> free es parts (name e).
Proof.
  revert es es'. induction parts as [|n parts IH]; intros es es' Hw Hl Hin.
  { destruct (in_dir_add [] e es es' Hw Hl Hin) as (_ & Hn & _). split; [|done]. intros q Hq. apply prefix_nil_inv in Hq as ->. by right. }
  split; [|by apply (in_dir_add _ _ _ _ Hw Hl Hin)]. cbn [in_dir] in Hin.
  destruct (match binary_search n es with Found i => (es, i) | Insert i => (insert_at i (Dir n []) es, i) end) as [es1 i] eqn:Hs.
  destruct (es1 !! i) as [e0|] eqn:Hi; [|done]. destruct (put_spec n es es1 i e0 Hw Hs Hi) as (He0 & Hw0 & _). destruct e0 as [m sub| |]; [|done|done].
  destruct (in_dir parts (add_entry e) sub) as [sub'|] eqn:Hd; [|done]. destruct (IH sub sub' (wf_dir_inv _ _ Hw0) Hl Hd) as [Hdirs _].
  intros [|k q] Hq; [by right|]. pose proof (prefix_cons_inv_1 _ _ _ _ Hq) as ->. apply prefix_cons_inv_2 in Hq. rewrite view_cons.
  destruct (by_name n es) as [x|] eqn:Hb; [|by left]. cbn in He0. subst x. by apply Hdirs.
Qed.

(** Adding a leaf fails only by the panic for what cannot happen. *)
Lemma in_dir_error parts e es : (exists es', in_dir parts (add_entry e) es = Ok es') \/ in_dir parts (add_entry e) es = unreachable.
Proof.
  revert es. induction parts as [|n parts IH]; intros es; cbn [in_dir]; [unfold add_entry; destruct (binary_search _ _); eauto|].
  destruct (match binary_search n es with Found i => (es, i) | Insert i => (insert_at i (Dir n []) es, i) end) as [es1 i].
  destruct (es1 !! i) as [[m sub| |]|]; [|by right..]. destruct (IH sub) as [[sub' ->]| ->]; cbn [rbind]; [eauto|by right].
Qed.

(** The map after a leaf was added. *)
Definition put (v v' : list rstr -> option node) (parts : list rstr) (n : rstr) (x : node) : Prop :=
  forall q, v' q = if decide (q = parts ++ [n]) then Some x else if decide (q `prefix_of` parts) then Some NDir else v q.

Section Builder.
Context {D : Disk}.

(** C26: The builder keeps its tree sorted and refines a map from paths to nodes.
    For a sorted tree and a path with a parent and a last name: a file, or a
    link whose target lies in the root, is added exactly if the path lies in
    the root, there are only directories on the way and nothing at the place;
    then it stands there, the directories on the way exist, and every other
    path has what it had.  If something is in the way the builder panics.  A
    path, or the target of a link, outside of the root is an error that names
    it, and nothing is added. *)
Theorem builder_refines b p dir n data target :
  wf_entries (root_entries b) -> parent p = Some dir -> file_name p = Some n ->
  match strip_prefix dir (root_path b) with
  | Some parts =>
      (free (root_entries b) parts n ->
         exists b' off, add_file b p data = Ok b' /\ wf_entries (root_entries b') /\ root_path b' = root_path b /\
           put (view (root_entries b)) (view (root_entries b')) parts n (NFile (VFile n off (Z.of_nat (length data)) (Some data)))) /\
      (~ free (root_entries b) parts n -> add_file b p data = unreachable) /\
      match strip_prefix target (root_path b) with
      | Some dest =>
          (free (root_entries b) parts n ->
             exists b', add_symlink b p target = Ok b' /\ wf_entries (root_entries b') /\ root_path b' = root_path b /\
               put (view (root_entries b)) (view (root_entries b')) parts n (NLink dest)) /\
          (~ free (root_entries b) parts n -> add_symlink b p target = unreachable)
      | None => add_symlink b p target = Throw (strip_root_error target)
      end
  | None =>
      add_file b p data = Throw (strip_root_error dir) /\
      add_symlink b p target = Throw (strip_root_error (match strip_prefix target (root_path b) with Some _ => dir | None => target end))
  end.
Proof.
  intros Hw Hp Hn. unfold add_file, add_symlink, path_relative_root. rewrite Hp, Hn. cbn [unwrap rbind].
  destruct (match file_offsets b !! checksum data with Some off => (file_offsets b, off) | None => _ end) as [offsets off].
  destruct (strip_prefix dir (root_path b)) as [parts|]; cbn [rbind]; [|split; [done|by destruct (strip_prefix target _)]].
  set (f := File _). split_and!.
  - intros Hfree. destruct (in_dir_total parts f (root_entries b) Hw Hfree) as [es' He]. rewrite He. cbn [rbind].
    destruct (in_dir_add parts f _ _ Hw I He) as (Hw' & _ & Hv). eexists _, off. by split_and!.
  - intros Hno. destruct (in_dir_error parts f (root_entries b)) as [[es' He]| ->]; [|done]. destruct Hno. apply (in_dir_free parts f _ _ Hw I He).
  - destruct (strip_prefix target (root_path b)) as [dest|]; [|done]. cbn [rbind]. set (l := Symlink n dest). split.
    + intros Hfree. destruct (in_dir_total parts l (root_entries b) Hw Hfree) as [es' He]. rewrite He. cbn [rbind].
      destruct (in_dir_add parts l _ _ Hw I He) as (Hw' & _ & Hv). eexists. by split_and!.
    + intros Hno. destruct (in_dir_error parts l (root_entries b)) as [[es' He]| ->]; [|done]. destruct Hno. apply (in_dir_free parts l _ _ Hw I He).
Qed.

(** Directories too are added without touching anything else. *)
Lemma add_dir_spec b p parts b' :
  wf_entries (root_entries b) -> strip_prefix p (root_path b) = Some parts -> add_dir b p = Ok b' ->
  wf_entries (root_entries b') /\ forall q, view (root_entries b') q = if decide (q `prefix_of` parts) then Some NDir else view (root_entries b) q.
Proof.
  intros Hw Hp. unfold add_dir, path_relative_root. rewrite Hp. cbn [rbind]. destruct (in_dir parts Ok (root_entries b)) as [es'|e] eqn:Hin; cbn [rbind]; [|done].
  intros [= <-]. destruct (in_dir_spec parts Ok _ _ Hw Hin) as (sub' & [= <-] & Hw' & Hch); [congruence|]. split; [done|]. intros q. cbn [root_entries with_entries].
  rewrite Hch. destruct (below parts q) as [r|] eqn:Hr; [|done]. apply below_Some in Hr as ->. destruct r as [|k r].
  - rewrite app_nil_r, decide_True; done.
  - rewrite decide_False by (intros [t Ht]; apply (f_equal length) in Ht; rewrite !length_app in Ht; cbn in Ht; lia).
    destruct (subtree (root_entries b) parts) as [sub|] eqn:Hs; cbn [default from_option id]; [by rewrite (subtree_view _ _ _ _ Hs)|by rewrite subtree_missing].
Qed.
End Builder.

(** ** Finding follows links *)

Lemma search_by_name n es : sorted es -> match binary_search n es with Found i => es !! i | Insert _ => None end = by_name n es.
Proof.
  intros Hs. pose proof (binary_search_spec n es Hs) as Hspec. destruct (binary_search n es) as [i|i].
  - destruct Hspec as (a & e & b & -> & <- & He & Ha & _). rewrite list_lookup_middle by done. rewrite by_name_around by by rewrite He. by rewrite decide_True.
  - destruct Hspec as (a & b & -> & _ & Ha & Hb). symmetry. apply by_name_None, Forall_app. split; [by apply not_equal_lt|by apply not_equal_gt].
Qed.

Lemma search_found n es i : sorted es -> binary_search n es = Found i -> exists e, es !! i = Some e /\ by_name n es = Some e.
Proof.
  intros Hs Hb. pose proof (search_by_name n es Hs) as He. pose proof (binary_search_spec n es Hs) as Hspec. rewrite Hb in *.
  destruct Hspec as (a & e & b & -> & <- & _). rewrite list_lookup_middle in * by done. eauto.
Qed.

Definition is_link (e : VfsEntry) : Prop := match e with Symlink _ _ => True | _ => False end.

Section Links.
Context (r : VfsRoot).
Definition top : VfsEntry := Dir [] (vfs_dir r).
(** The path of a place in the tree. *)
Definition join (q : list rstr) : rstr := resolve_dest_from_root q (vfs_root_path r).

(** [leads q c e]: the path [q] leads to [e], which stands at [c] without a link
    on the way; a link at the end is not followed.  [follows] does follow it. *)
Inductive leads : list rstr -> list rstr -> VfsEntry -> Prop :=
| leads_top : leads [] [] top
| leads_in q c m es n e : follows q c (Dir m es) -> by_name n es = Some e -> leads (q ++ [n]) (c ++ [n]) e
with follows : list rstr -> list rstr -> VfsEntry -> Prop :=
| follows_here q c e : leads q c e -> ~ is_link e -> follows q c e
| follows_link q c m dest q' c' e : leads q c (Symlink m dest) -> strip_prefix (join dest) (vfs_root_path r) = Some q' -> follows q' c' e -> follows q c' e.

Lemma join_snoc c n : join (c ++ [n]) = path_join (join c) n.
Proof. unfold join, resolve_dest_from_root. by rewrite fold_left_app. Qed.

(** What [find] may return. *)
Definition find_sound (find : rstr -> seen_set -> result (rstr * VfsEntry) * seen_set) : Prop :=
  forall p seen path e seen', find p seen = (Ok (path, e), seen') -> wf e /\ exists q c, strip_prefix p (vfs_root_path r) = Some q /\ follows q c e /\ path = join c.

Lemma walk_sound find q0 c0 parts current seen path e seen' :
  find_sound find -> leads q0 c0 current -> wf current ->
  walk r find parts (join c0) current seen = (Ok (path, e), seen') -> wf e /\ exists c, leads (q0 ++ parts) c e /\ path = join c.
Proof.
  intros Hfind. revert q0 c0 current seen. induction parts as [|part parts IH]; intros q0 c0 current seen Hl Hw; cbn [walk].
  { intros [= <- <- <-]. rewrite app_nil_r. eauto. }
  assert (forall c m es seen1, follows q0 c (Dir m es) -> wf_entries es ->
    match binary_search part es with Found index => match es !! index with Some e => walk r find parts (join (c ++ [part])) e seen1 | None => (panic "index out of bounds", seen1) end | Insert _ => (Throw not_found, seen1) end
      = (Ok (path, e), seen') -> wf e /\ exists c, leads (q0 ++ part :: parts) c e /\ path = join c) as Hstep.
  { intros c m es seen1 Hf [Hs Hall]. destruct (binary_search part es) as [i|i] eqn:Hb; [|done]. destruct (search_found _ _ _ Hs Hb) as (x & Hx & Hby). rewrite Hx.
    intros Hwalk. replace (q0 ++ part :: parts) with ((q0 ++ [part]) ++ parts) by (by rewrite <- app_assoc).
    eapply IH; [by eapply leads_in| |exact Hwalk]. rewrite Forall_forall in Hall. by apply Hall, (by_name_Some part). }
  destruct current as [m es|f|m dest].
  - rewrite <- join_snoc. apply Hstep with m; [apply follows_here; [done|by intros []]|by apply (wf_dir_inv m)].
  - done.
  - destruct (find (resolve_dest_from_root dest (vfs_root_path r)) seen) as [[[path1 e1]|e1] seen1] eqn:Hf; cbn [rbind]; [|done].
    destruct (Hfind _ _ _ _ _ Hf) as (Hw1 & q1 & c1 & Hq1 & Hfol & ->). destruct e1 as [m1 es| |]; [|done|done].
    rewrite <- join_snoc. apply Hstep with m1; [by eapply follows_link|by apply (wf_dir_inv m1)].
Qed.

Lemma no_follow_sound find p seen path e seen' :
  find_sound find -> wf_entries (vfs_dir r) -> find_entry_no_follow_inner r find p seen = (Ok (path, e), seen') ->
  wf e /\ exists q c, strip_prefix p (vfs_root_path r) = Some q /\ leads q c e /\ path = join c.
Proof.
  intros Hfind [Hs Hall]. unfold find_entry_no_follow_inner. destruct (strip_prefix p (vfs_root_path r)) as [q|] eqn:Hq; [|done]. intros Hw.
  destruct (walk_sound find [] [] q top seen path e seen' Hfind leads_top) as (Hwe & c & Hl & ->); [by constructor|done|]. eauto 10.
Qed.

Lemma find_inner_sound fuel : wf_entries (vfs_dir r) -> find_sound (find_entry_inner r fuel).
Proof.
  intros Hw. induction fuel as [|fuel IH]; intros p seen path e seen'; cbn [find_entry_inner]; [done|].
  destruct (find_entry_no_follow_inner r (find_entry_inner r fuel) p seen) as [[[path1 e1]|e1] seen1] eqn:Hf; [|done].
  destruct (no_follow_sound _ _ _ _ _ _ IH Hw Hf) as (Hwe & q & c & Hq & Hl & ->).
  destruct e1 as [m es|f|m dest]; [intros [= <- <- <-]; split; [done|]; exists q, c; split_and!; [done|apply follows_here; [done|by intros []]|done]..|].
  destruct (bool_decide _); [done|]. intros Hrec. destruct (IH _ _ _ _ _ Hrec) as (Hwe' & q' & c' & Hq' & Hfol & ->).
  split; [done|]. exists q, c'. split_and!; [done|by eapply follows_link|done].
Qed.
End Links.

Scheme leads_mind := Minimality for leads Sort Prop with follows_mind := Minimality for follows Sort Prop.
Combined Scheme leads_follows_ind from leads_mind, follows_mind.

Lemma entry_at_app e q q' : entry_at e (q ++ q') = entry_at e q ≫= fun e => entry_at e q'.
Proof. revert e. induction q as [|n q IH]; intros e; cbn [app entry_at]; [done|]. destruct e as [m es| |]; [|done|done]. destruct (by_name n es) as [x|]; cbn; [apply IH|done]. Qed.

Section Correct.
Context (r : VfsRoot).

(** The place that is found is one without links on the way. *)
Lemma leads_stands :
  (forall q c e, leads r q c e -> entry_at (top r) c = Some e) /\ (forall q c e, follows r q c e -> entry_at (top r) c = Some e /\ ~ is_link e).
Proof.
  apply (leads_follows_ind r (fun q c e => entry_at (top r) c = Some e) (fun q c e => entry_at (top r) c = Some e /\ ~ is_link e)); [done| |done|done].
  intros q c m es n e _ [IH _] Hby. rewrite entry_at_app, IH. cbn. by rewrite Hby.
Qed.

Lemma strip_prefix_plain p q : is_absolute (vfs_root_path r) = true -> strip_prefix p (vfs_root_path r) = Some q -> Forall plain q.
Proof.
  intros Ha. unfold strip_prefix. destruct (path_starts_with p (vfs_root_path r)) eqn:Hp; [|done]. intros [= <-]. apply bool_decide_eq_true in Hp.
  rewrite (components_absolute _ Ha) in Hp |- *. destruct (components p) as [|k l] eqn:Hk; [by apply prefix_nil_not in Hp|]. pose proof (prefix_cons_inv_1 _ _ _ _ Hp) as <-.
  destruct (components_plain p (components_root p _ Hk)) as (parts & Hparts & Hs). rewrite Hk in Hparts. injection Hparts as ->. cbn [length drop].
  apply Forall_fmap, Forall_drop, Forall_forall. intros k (n & Hn & Hkn)%list_elem_of_omap. rewrite Forall_forall in Hs. specialize (Hs n Hn).
  unfold component_of in Hkn. destruct (str_eqb n []) eqn:He; [done|]. destruct (is_dot n) eqn:Hd; [done|]. cbn in Hkn. apply bool_decide_eq_false in He, Hd.
  destruct (is_dotdot n) eqn:Hdd; injection Hkn as <-; [|by split_and!]. apply bool_decide_eq_true in Hdd. subst n. split_and!; [done|done|done].
Qed.

Lemma leads_plain :
  is_absolute (vfs_root_path r) = true ->
  (forall q c e, leads r q c e -> Forall plain q -> Forall plain c) /\ (forall q c e, follows r q c e -> Forall plain q -> Forall plain c).
Proof.
  intros Ha. apply (leads_follows_ind r (fun q c e => Forall plain q -> Forall plain c) (fun q c e => Forall plain q -> Forall plain c)); [done| |done|].
  - intros q c m es n e _ IH _ [Hq Hn]%Forall_app. apply Forall_app. split; [by apply IH|done].
  - intros q c m dest q' c' e _ _ Hs _ IH _. apply IH. by eapply strip_prefix_plain.
Qed.

Lemma find_entry_follows fuel p path e :
  wf_entries (vfs_dir r) -> is_absolute (vfs_root_path r) = true -> find_entry r fuel p = Ok (path, e) ->
  exists q c, strip_prefix p (vfs_root_path r) = Some q /\ follows r q c e /\ entry_at (top r) c = Some e /\ ~ is_link e /\ path = join r c /\ is_path_within r path = true.
Proof.
  intros Hw Ha. unfold find_entry. destruct (find_entry_inner r fuel p []) as [found seen'] eqn:Hf. cbn [fst]. intros ->.
  destruct (find_inner_sound r fuel Hw _ _ _ _ _ Hf) as (_ & q & c & Hq & Hfol & ->). exists q, c. destruct (proj2 leads_stands q c e Hfol) as [Hat Hl].
  split_and!; [done..|]. assert (Forall plain c) as Hc by (apply (proj2 (leads_plain Ha) q c e Hfol); by eapply strip_prefix_plain).
  unfold is_path_within, path_starts_with, join, resolve_dest_from_root. rewrite (proj1 (components_join _ c Ha Hc)). apply bool_decide_eq_true. by apply prefix_app_r.
Qed.

Lemma find_entry_inside fuel p path e :
  wf_entries (vfs_dir r) -> is_absolute (vfs_root_path r) = true -> find_entry r fuel p = Ok (path, e) -> exists c, entry_at (top r) c = Some e /\ is_path_within r path = true.
Proof. intros Hw Ha Hf. destruct (find_entry_follows fuel p path e Hw Ha Hf) as (q & c & _ & _ & ? & _ & _ & ?). eauto. Qed.

Lemma find_entry_no_follow_leads fuel p path e :
  wf_entries (vfs_dir r) -> find_entry_no_follow r fuel p = Ok (path, e) ->
  exists q c, strip_prefix p (vfs_root_path r) = Some q /\ leads r q c e /\ entry_at (top r) c = Some e.
Proof.
  intros Hw. unfold find_entry_no_follow. destruct (find_entry_no_follow_inner r _ p []) as [found seen'] eqn:Hf. cbn [fst]. intros ->.
  destruct (no_follow_sound r _ _ _ _ _ _ (find_inner_sound r fuel Hw) Hw Hf) as (_ & q & c & Hq & Hl & _).
  exists q, c. split_and!; [done..|]. by apply (proj1 leads_stands q c e).
Qed.

(** what is found for a path is an entry of the tree, never a link, and the
    path given back for it lies inside the root; this holds for every tree that
    is sorted, also one with links that are circular or lead outside. *)
Theorem find_entry_sound fuel p path e :
  wf_entries (vfs_dir r) -> is_absolute (vfs_root_path r) = true -> find_entry r fuel p = Ok (path, e) ->
  exists q c, strip_prefix p (vfs_root_path r) = Some q /\ follows r q c e /\ entry_at (top r) c = Some e /\ ~ is_link e /\ path = join r c /\ is_path_within r path = true.
Proof. apply find_entry_follows. Qed.
End Correct.

(** ** Trees of which the links are canonical *)

Section Canonical.
Context (r : VfsRoot).

(** Every link names a place to which no other link is on the way, as the real path of a file does. *)
Definition canonical_links : Prop :=
  forall q m dest, entry_at (top r) q = Some (Symlink m dest) ->
    Forall (fun n => plain n /\ n <> [dot; dot]) dest /\ forall d e, d `prefix_of` dest -> entry_at (top r) d = Some e -> ~ is_link e.

Context (Hw : wf_entries (vfs_dir r)) (Ha : is_absolute (vfs_root_path r) = true) (Hlinks : canonical_links).

Lemma omap_normal q : Forall (fun n => plain n /\ n <> [dot; dot]) q -> omap component_of q = Normal <$> q.
Proof. induction 1 as [|n q [(H1 & H2 & _) H3] _ IH]; [done|]. cbn. by rewrite component_of_normal, IH. Qed.

Lemma strip_join dest : Forall (fun n => plain n /\ n <> [dot; dot]) dest -> strip_prefix (join r dest) (vfs_root_path r) = Some dest.
Proof.
  intros Hd. unfold strip_prefix, path_starts_with, join, resolve_dest_from_root.
  destruct (components_join (vfs_root_path r) dest Ha) as [-> _]; [eapply Forall_impl; [exact Hd|]; by intros ? []|].
  rewrite bool_decide_eq_true_2 by by apply prefix_app_r. rewrite drop_app_length, omap_normal by done. f_equal. rewrite <- list_fmap_compose. apply list_fmap_id.
Qed.

Lemma wf_entry_at e q e' : wf e -> entry_at e q = Some e' -> wf e'.
Proof.
  revert e. induction q as [|n q IH]; intros e He; cbn [entry_at]; [by intros [= <-]|]. destruct e as [m es| |]; [|done|done].
  destruct (by_name n es) as [x|] eqn:Hb; cbn; [|done]. apply IH. destruct (wf_dir_inv _ _ He) as [_ Hall]. rewrite Forall_forall in Hall. apply Hall, (by_name_Some n es x Hb).
Qed.

Lemma walk_step find part parts final m es seen :
  sorted es -> walk r find (part :: parts) final (Dir m es) seen = match by_name part es with Some e => walk r find parts (path_join final part) e seen | None => (Throw not_found, seen) end.
Proof.
  intros Hs. cbn [walk]. pose proof (search_by_name part es Hs) as Hn. destruct (binary_search part es) as [i|i] eqn:Hb; [|by rewrite <- Hn].
  destruct (search_found _ _ _ Hs Hb) as (e & -> & ->). done.
Qed.

(** Without links on the way the walk needs nothing else. *)
Lemma walk_no_links find q final e seen :
  wf e -> (forall d e', d `prefix_of` q -> d <> q -> entry_at e d = Some e' -> ~ is_link e') ->
  walk r find q final e seen = (match entry_at e q with Some e' => Ok (fold_left path_join q final, e') | None => Throw not_found end, seen).
Proof.
  revert final e. induction q as [|n q IH]; intros final e He Hno; [done|]. destruct e as [m es|f|m dest].
  - destruct (wf_dir_inv _ _ He) as [Hs Hall]. rewrite walk_step by done. cbn [entry_at fold_left]. destruct (by_name n es) as [x|] eqn:Hb; [|done]. cbn [mbind option_bind].
    apply IH; [rewrite Forall_forall in Hall; apply Hall, (by_name_Some n es x Hb)|]. intros d e' Hd Hne Hat. apply (Hno (n :: d) e'); [by apply prefix_cons|congruence|]. cbn. by rewrite Hb.
  - done.
  - exfalso. apply (Hno [] (Symlink m dest)); [apply prefix_nil|done|done|done].
Qed.

Lemma wf_top : wf (top r).
Proof. by constructor; apply Hw. Qed.

(** Where a link leads is found at once. *)
Lemma find_dest fuel q m dest seen :
  entry_at (top r) q = Some (Symlink m dest) ->
  find_entry_inner r (S fuel) (join r dest) seen = (match entry_at (top r) dest with Some e => Ok (join r dest, e) | None => Throw not_found end, seen).
Proof.
  intros Hq. destruct (Hlinks q m dest Hq) as [Hd Hno]. cbn [find_entry_inner]. unfold find_entry_no_follow_inner. rewrite strip_join by done.
  change (Dir [] (vfs_dir r)) with (top r). rewrite walk_no_links; [|apply wf_top|intros d e' Hp _; by apply Hno].
  destruct (entry_at (top r) dest) as [e|] eqn:He; [|done]. pose proof (Hno dest e (reflexivity _) He). by destruct e.
Qed.

Lemma walk_app find q1 q2 final e seen :
  walk r find (q1 ++ q2) final e seen = match walk r find q1 final e seen with (Ok (final', e'), seen') => walk r find q2 final' e' seen' | r => r end.
Proof.
  revert final e seen. induction q1 as [|n q1 IH]; intros final e seen; [done|]. cbn [app walk].
  match goal with |- context [match e with Dir _ _ => _ | File _ => _ | Symlink _ _ => _ end] => destruct (match e with Dir _ _ => _ | File _ => _ | Symlink _ _ => _ end) as [[[f es]|x] s] end; [|done].
  destruct (binary_search n es) as [i|i]; [|done]. destruct (es !! i); [apply IH|done].
Qed.

(** Without links on the way a path leads to the place of the same name. *)
Lemma leads_free :
  (forall q c e, leads r q c e -> (forall d e', d `prefix_of` q -> d <> q -> entry_at (top r) d = Some e' -> ~ is_link e') -> c = q) /\
  (forall q c e, follows r q c e -> (forall d e', d `prefix_of` q -> entry_at (top r) d = Some e' -> ~ is_link e') -> c = q).
Proof.
  apply (leads_follows_ind r (fun q c e => (forall d e', d `prefix_of` q -> d <> q -> entry_at (top r) d = Some e' -> ~ is_link e') -> c = q)
    (fun q c e => (forall d e', d `prefix_of` q -> entry_at (top r) d = Some e' -> ~ is_link e') -> c = q)).
  - done.
  - intros q c m es n e _ IH _ Hno. f_equal. apply IH. intros d e' Hp. apply Hno; [by apply prefix_app_r|]. intros ->. destruct Hp as [k Hk]. apply (f_equal length) in Hk. rewrite !length_app in Hk. cbn in Hk. lia.
  - intros q c e _ IH _ Hno. apply IH. eauto.
  - intros q c m dest q' c' e Hl IH _ _ _ Hno. exfalso. assert (c = q) as -> by eauto. by apply (Hno q (Symlink m dest)); [|apply (proj1 (leads_stands r) _ _ _ Hl)|].
Qed.

(** The walk to every place that a path leads to, with any fuel. *)
Lemma walk_leads fuel :
  (forall q c e, leads r q c e -> forall seen, walk r (find_entry_inner r (S fuel)) q (vfs_root_path r) (top r) seen = (Ok (join r c, e), seen)) /\
  (forall q c e, follows r q c e -> forall seen, walk r (find_entry_inner r (S fuel)) q (vfs_root_path r) (top r) seen = (Ok (join r c, e), seen) \/
     exists c1 m dest, walk r (find_entry_inner r (S fuel)) q (vfs_root_path r) (top r) seen = (Ok (join r c1, Symlink m dest), seen) /\ entry_at (top r) c1 = Some (Symlink m dest) /\
       c = dest /\ entry_at (top r) dest = Some e).
Proof.
  apply (leads_follows_ind r (fun q c e => forall seen, walk r (find_entry_inner r (S fuel)) q (vfs_root_path r) (top r) seen = (Ok (join r c, e), seen))
    (fun q c e => forall seen, walk r (find_entry_inner r (S fuel)) q (vfs_root_path r) (top r) seen = (Ok (join r c, e), seen) \/
     exists c1 m dest, walk r (find_entry_inner r (S fuel)) q (vfs_root_path r) (top r) seen = (Ok (join r c1, Symlink m dest), seen) /\ entry_at (top r) c1 = Some (Symlink m dest) /\
       c = dest /\ entry_at (top r) dest = Some e)).
  - done.
  - intros q c m es n e Hf IH Hby seen. rewrite walk_app. destruct (proj2 (leads_stands r) q c (Dir m es) Hf) as [Hat _]. pose proof (wf_dir_inv _ _ (wf_entry_at _ _ _ wf_top Hat)) as [Hs _].
    destruct (IH seen) as [->|(c1 & m1 & dest & -> & Hc1 & -> & Hd)].
    + rewrite walk_step by done. rewrite Hby. cbn [walk]. by rewrite join_snoc.
    + cbn [walk]. fold (join r dest). rewrite (find_dest fuel c1 m1 dest seen Hc1), Hd. cbn [rbind]. pose proof (search_by_name n es Hs) as Hn.
      destruct (binary_search n es) as [i|i] eqn:Hb; [|congruence]. rewrite Hn, Hby. by rewrite join_snoc.
  - intros q c e _ IH _ seen. left. apply IH.
  - intros q c m dest q' c' e Hl IHl Hstrip Hf _ seen. right. pose proof (proj1 (leads_stands r) q c _ Hl) as Hat. destruct (Hlinks c m dest Hat) as [Hd Hno].
    rewrite strip_join in Hstrip by done. injection Hstrip as <-. exists c, m, dest. destruct (proj2 (leads_stands r) _ _ _ Hf) as [Hat' Hnl].
    pose proof (proj2 leads_free _ _ _ Hf Hno) as ->. by split_and!.
Qed.

(** The walk gives the same for any fuel, and its only error is that nothing is found. *)
Lemma walk_total fuel q final e c seen :
  entry_at (top r) c = Some e ->
  exists res, (forall k, k = fuel \/ k = 0 -> walk r (find_entry_inner r (S k)) q final e seen = (res, seen)) /\
    match res with Ok (_, e') => exists c', entry_at (top r) c' = Some e' | Throw err => err = not_found end.
Proof.
  revert final e c. induction q as [|n q IH]; intros final e c Hat; [exists (Ok (final, e)); split; [done|eauto]|].
  assert (forall final m es c1, entry_at (top r) c1 = Some (Dir m es) -> exists res,
     (forall k, k = fuel \/ k = 0 -> match by_name n es with Some x => walk r (find_entry_inner r (S k)) q final x seen | None => (Throw not_found, seen) end = (res, seen)) /\
     match res with Ok (_, e') => exists c', entry_at (top r) c' = Some e' | Throw err => err = not_found end) as Hdir.
  { intros final1 m es c1 Hc1. destruct (by_name n es) as [x|] eqn:Hb; [|by exists (Throw not_found)]. apply (IH final1 x (c1 ++ [n])). rewrite entry_at_app, Hc1. cbn. by rewrite Hb. }
  destruct e as [m es|f|m dest].
  - pose proof (wf_dir_inv _ _ (wf_entry_at _ _ _ wf_top Hat)) as [Hs _]. destruct (Hdir (path_join final n) m es c Hat) as (res & Hres & Hok). exists res. split; [|done].
    intros k Hk. rewrite walk_step by done. by apply Hres.
  - by exists (Throw not_found).
  - destruct (entry_at (top r) dest) as [[m1 es|f1|m1 d1]|] eqn:Hd.
    + pose proof (wf_dir_inv _ _ (wf_entry_at _ _ _ wf_top Hd)) as [Hs _]. destruct (Hdir (path_join (join r dest) n) m1 es dest Hd) as (res & Hres & Hok). exists res. split; [|done].
      intros k Hk. rewrite <- (Hres k Hk). cbn [walk]. fold (join r dest). rewrite (find_dest k c m dest seen Hat), Hd. cbn [rbind].
      pose proof (search_by_name n es Hs) as Hn. destruct (binary_search n es) as [i|i] eqn:Hb; [|by rewrite <- Hn]. rewrite Hn. destruct (search_found _ _ _ Hs Hb) as (x & _ & ->). done.
    + exists (Throw not_found). split; [|done]. intros k _. cbn [walk]. fold (join r dest). by rewrite (find_dest k c m dest seen Hat), Hd.
    + exists (Throw not_found). split; [|done]. intros k _. cbn [walk]. fold (join r dest). by rewrite (find_dest k c m dest seen Hat), Hd.
    + exists (Throw not_found). split; [|done]. intros k _. cbn [walk]. fold (join r dest). by rewrite (find_dest k c m dest seen Hat), Hd.
Qed.

Lemma find_entry_value k p res :
  match strip_prefix p (vfs_root_path r) with Some q => walk r (find_entry_inner r (S k)) q (vfs_root_path r) (top r) [] = (res, []) | None => res = Throw not_found end ->
  match res with Ok (_, e') => exists c', entry_at (top r) c' = Some e' | Throw err => err = not_found end ->
  find_entry r (2 + k) p = match res with Ok (_, Symlink _ dest) => match entry_at (top r) dest with Some e => Ok (join r dest, e) | None => Throw not_found end | res => res end.
Proof.
  intros Hwalk Hres. unfold find_entry. cbn [Nat.add]. change (find_entry_inner r (S (S k)) p []) with (
    match find_entry_no_follow_inner r (find_entry_inner r (S k)) p [] with
    | (Ok (_, Symlink _ dest), seen) => if bool_decide (components p ∈ seen) then (Throw circular, seen) else find_entry_inner r (S k) (resolve_dest_from_root dest (vfs_root_path r)) (components p :: seen)
    | found => found end).
  unfold find_entry_no_follow_inner. change (Dir [] (vfs_dir r)) with (top r). destruct (strip_prefix p (vfs_root_path r)) as [q|]; [|by subst res].
  rewrite Hwalk. destruct res as [[path [m es|f|m dest]]|err]; [done|done| |done]. destruct Hres as [c' Hc']. rewrite bool_decide_eq_false_2 by apply not_elem_of_nil.
  fold (join r dest). by rewrite (find_dest k c' m dest _ Hc').
Qed.

(** C27: in a tree of which the links are canonical the search is correct and
    complete, and it always ends: two levels are enough for any path, more
    change nothing.  It finds what the path leads to when links are followed,
    and the error is that the path is not found, never a circle of links. *)
Theorem find_entry_correct fuel p :
  find_entry r (2 + fuel) p = find_entry r 2 p /\
  (forall path e, find_entry r 2 p = Ok (path, e) <-> exists q c, strip_prefix p (vfs_root_path r) = Some q /\ follows r q c e /\ path = join r c) /\
  (forall err, find_entry r 2 p = Throw err -> err = not_found).
Proof.
  assert (exists res, (forall k, k = fuel \/ k = 0 -> match strip_prefix p (vfs_root_path r) with Some q => walk r (find_entry_inner r (S k)) q (vfs_root_path r) (top r) [] = (res, []) | None => res = Throw not_found end) /\
    match res with Ok (_, e') => exists c', entry_at (top r) c' = Some e' | Throw err => err = not_found end) as (res & Hwalk & Hres).
  { destruct (strip_prefix p (vfs_root_path r)) as [q|]; [by apply (walk_total fuel q _ _ [])|by exists (Throw not_found)]. }
  pose proof (find_entry_value 0 p res (Hwalk 0 (or_intror eq_refl)) Hres) as H0. pose proof (find_entry_value fuel p res (Hwalk fuel (or_introl eq_refl)) Hres) as Hk.
  cbn [Nat.add] in H0. split_and!; [by rewrite Hk, H0| |].
  - intros path e. split; [intros (q & c & ? & ? & _ & _ & ? & _)%find_entry_follows; eauto|]. intros (q & c & Hq & Hf & ->). rewrite H0. specialize (Hwalk 0 (or_intror eq_refl)). rewrite Hq in Hwalk.
    destruct (proj2 (walk_leads 0) q c e Hf []) as [Hc|(c1 & m & dest & Hc & _ & -> & Hd)]; rewrite Hc in Hwalk; injection Hwalk as <-; [|by rewrite Hd].
    destruct (proj2 (leads_stands r) _ _ _ Hf) as [_ Hl]. by destruct e.
  - intros err. rewrite H0. destruct res as [[path [m es|f|m dest]]|err']; try done; [|by intros [= <-]]. destruct (entry_at (top r) dest); [done|by intros [= <-]].
Qed.
End Canonical.

(** ** From the disk to the program *)

(** What stood at a path still stands there. *)
Definition kept (es es' : list VfsEntry) : Prop := forall q x, view es q = Some x -> view es' q = Some x.

Lemma kept_refl es : kept es es.
Proof. by intros q x. Qed.
Lemma kept_trans es1 es2 es3 : kept es1 es2 -> kept es2 es3 -> kept es1 es3.
Proof. unfold kept. eauto. Qed.

Lemma put_kept es es' parts n x : free es parts n -> put (view es) (view es') parts n x -> kept es es'.
Proof.
  intros [Hdirs Hnone] Hput q y Hy. rewrite Hput. destruct (decide (q = parts ++ [n])) as [->|_]; [congruence|].
  destruct (decide (q `prefix_of` parts)) as [Hp|_]; [|done]. destruct (Hdirs q Hp); congruence.
Qed.

(** Any change of the builder: sorted trees stay sorted and nothing is lost. *)
Record grows (b b' : VfsBuilder) : Prop := {
  grows_wf : wf_entries (root_entries b');
  grows_root : root_path b' = root_path b;
  grows_kept : kept (root_entries b) (root_entries b')
}.

Lemma grows_trans b1 b2 b3 : grows b1 b2 -> grows b2 b3 -> grows b1 b3.
Proof. intros [H1 H2 H3] [H4 H5 H6]. constructor; [done|congruence|by eapply kept_trans]. Qed.

Section Mirror.
Context {D : Disk}.

Lemma add_file_grows b p data b' :
  wf_entries (root_entries b) -> add_file b p data = Ok b' ->
  grows b b' /\ exists dir n parts off, parent p = Some dir /\ file_name p = Some n /\ strip_prefix dir (root_path b) = Some parts /\
    view (root_entries b') (parts ++ [n]) = Some (NFile (VFile n off (Z.of_nat (length data)) (Some data))).
Proof.
  intros Hw. unfold add_file, path_relative_root. destruct (match file_offsets b !! checksum data with Some off => (file_offsets b, off) | None => _ end) as [offsets off].
  destruct (parent p) as [dir|] eqn:Hp; cbn [unwrap rbind]; [|done]. destruct (strip_prefix dir (root_path b)) as [parts|] eqn:Hs; cbn [rbind]; [|done].
  destruct (file_name p) as [n|] eqn:Hn; cbn [unwrap rbind]; [|done]. set (f := File _). destruct (in_dir parts (add_entry f) (root_entries b)) as [es'|] eqn:Hin; cbn [rbind]; [|done].
  intros [= <-]. destruct (in_dir_add parts f _ _ Hw I Hin) as (Hw' & _ & Hv). pose proof (in_dir_free parts f _ _ Hw I Hin) as Hfree. split.
  - constructor; [done|done|]. by apply (put_kept _ _ _ _ _ Hfree Hv).
  - exists dir, n, parts, off. split_and!; [done..|]. cbn [root_entries]. by rewrite Hv, decide_True.
Qed.

Lemma add_symlink_grows b p target b' :
  wf_entries (root_entries b) -> add_symlink b p target = Ok b' ->
  grows b b' /\ exists dir n parts dest, parent p = Some dir /\ file_name p = Some n /\ strip_prefix dir (root_path b) = Some parts /\ strip_prefix target (root_path b) = Some dest /\
    forall q, view (root_entries b') q = if decide (q = parts ++ [n]) then Some (NLink dest) else if decide (q `prefix_of` parts) then Some NDir else view (root_entries b) q.
Proof.
  intros Hw. unfold add_symlink, path_relative_root. destruct (strip_prefix target (root_path b)) as [dest|] eqn:Ht; cbn [rbind]; [|done].
  destruct (parent p) as [dir|] eqn:Hp; cbn [unwrap rbind]; [|done]. destruct (strip_prefix dir (root_path b)) as [parts|] eqn:Hs; cbn [rbind]; [|done].
  destruct (file_name p) as [n|] eqn:Hn; cbn [unwrap rbind]; [|done]. set (l := Symlink n dest). destruct (in_dir parts (add_entry l) (root_entries b)) as [es'|] eqn:Hin; cbn [rbind]; [|done].
  intros [= <-]. destruct (in_dir_add parts l _ _ Hw I Hin) as (Hw' & _ & Hv). pose proof (in_dir_free parts l _ _ Hw I Hin) as Hfree. split.
  - constructor; [done|done|]. by apply (put_kept _ _ _ _ _ Hfree Hv).
  - exists dir, n, parts, dest. by split_and!.
Qed.

Lemma in_dir_ok_dirs parts es es' : wf_entries es -> in_dir parts Ok es = Ok es' -> forall q, q `prefix_of` parts -> view es q = None \/ view es q = Some NDir.
Proof.
  revert es es'. induction parts as [|n parts IH]; intros es es' Hw Hin q Hq; [apply prefix_nil_inv in Hq as ->; by right|]. cbn [in_dir] in Hin.
  destruct (match binary_search n es with Found i => (es, i) | Insert i => (insert_at i (Dir n []) es, i) end) as [es1 i] eqn:Hs.
  destruct (es1 !! i) as [e0|] eqn:Hi; [|done]. destruct (put_spec n es es1 i e0 Hw Hs Hi) as (He0 & Hw0 & _). destruct e0 as [m sub| |]; [|done|done].
  destruct (in_dir parts Ok sub) as [sub'|] eqn:Hd; [|done]. destruct q as [|k q]; [by right|]. pose proof (prefix_cons_inv_1 _ _ _ _ Hq) as ->. apply prefix_cons_inv_2 in Hq.
  rewrite view_cons. destruct (by_name n es) as [x|] eqn:Hb; [|by left]. cbn in He0. subst x. by apply (IH sub sub' (wf_dir_inv _ _ Hw0) Hd).
Qed.

Lemma add_dir_grows b p b' : wf_entries (root_entries b) -> add_dir b p = Ok b' -> grows b b'.
Proof.
  intros Hw Hadd. pose proof Hadd as Hadd'. unfold add_dir, path_relative_root in Hadd'. destruct (strip_prefix p (root_path b)) as [parts|] eqn:Hs; [|done]. cbn [rbind] in Hadd'.
  destruct (in_dir parts Ok (root_entries b)) as [es'|] eqn:Hin; [|done]. injection Hadd' as Hb'. destruct (add_dir_spec b p parts b' Hw Hs Hadd) as [Hw' Hv].
  constructor; [done|by subst b'|]. intros q x Hq. rewrite Hv. destruct (decide _) as [Hp|_]; [|done]. destruct (in_dir_ok_dirs _ _ _ Hw Hin q Hp); congruence.
Qed.

(** A step of the recursion keeps what there is, if the directories below do. *)
Definition sub_grows (add_sub : VfsBuilder -> rstr -> result VfsBuilder) : Prop :=
  forall b p b', wf_entries (root_entries b) -> add_sub b p = Ok b' -> grows b b'.

Lemma grows_refl b : wf_entries (root_entries b) -> grows b b.
Proof. intros Hw. constructor; [done|done|apply kept_refl]. Qed.

Lemma add_disk_entry_grows add_sub b p t b' :
  sub_grows add_sub -> wf_entries (root_entries b) -> add_disk_entry add_sub b p t = Ok b' -> grows b b'.
Proof.
  intros Hsub Hw. assert (forall x b', (let! file_bytes := fs_read x in add_file b p file_bytes) = Ok b' -> grows b b') as Hfile.
  { intros x b1. destruct (fs_read x); cbn [rbind]; [|done]. intros Hf. by apply (add_file_grows _ _ _ _ Hw Hf). }
  destruct t; cbn [add_disk_entry]; [by apply Hsub|apply Hfile| |by intros [= <-]; apply grows_refl].
  destruct (canonicalize_path p) as [target|]; cbn [rbind]; [|done]. destruct (add_symlink b p target) as [b1|err] eqn:Hl.
  - intros [= <-]. by apply (add_symlink_grows _ _ _ _ Hw Hl).
  - destruct err; try done. destruct (bool_decide _); [|done]. destruct (fs_is_file target); [apply Hfile|]. intros [= <-]. by apply grows_refl.
Qed.

Lemma add_disk_entries_grows add_sub l b b' :
  sub_grows add_sub -> wf_entries (root_entries b) -> add_disk_entries add_sub b l = Ok b' ->
  grows b b' /\ forall p t, (p, t) ∈ l -> exists b1 b2, grows b b1 /\ add_disk_entry add_sub b1 p t = Ok b2 /\ grows b2 b'.
Proof.
  intros Hsub. revert b. induction l as [|[p t] l IH]; intros b Hw; cbn [add_disk_entries].
  { intros [= <-]. split; [by apply grows_refl|]. by intros p t ?%elem_of_nil. }
  destruct (add_disk_entry add_sub b p t) as [b1|] eqn:He; cbn [rbind]; [|done]. intros Hl. pose proof (add_disk_entry_grows _ _ _ _ _ Hsub Hw He) as Hx.
  destruct (IH b1 (grows_wf _ _ Hx) Hl) as [Hx' Hall]. split; [by eapply grows_trans|]. intros p' t' [[= -> ->]|Hin]%elem_of_cons.
  - exists b, b1. split_and!; [by apply grows_refl|done|done].
  - destruct (Hall p' t' Hin) as (b2 & b3 & H1 & H2 & H3). exists b2, b3. split_and!; [by eapply grows_trans|done|done].
Qed.

Lemma recursive_grows fuel : sub_grows (add_dir_recursive_internal fuel).
Proof.
  induction fuel as [|fuel IH]; intros b p b' Hw; cbn [add_dir_recursive_internal]; [done|]. destruct (add_dir b p) as [b1|] eqn:Hd; cbn [rbind]; [|done].
  pose proof (add_dir_grows _ _ _ Hw Hd) as Hx. destruct (fs_read_dir p) as [l|]; cbn [rbind]; [|done]. intros Hl.
  destruct (add_disk_entries_grows _ _ _ _ IH (grows_wf _ _ Hx) Hl) as [Hx' _]. by eapply grows_trans.
Qed.

(** The regular files below a directory of the disk. *)
Inductive below_disk : rstr -> rstr -> Prop :=
| below_here d l x : fs_read_dir d = Ok l -> (x, IsFile) ∈ l -> below_disk d x
| below_sub d l d' x : fs_read_dir d = Ok l -> (d', IsDir) ∈ l -> below_disk d' x -> below_disk d x.

Lemma recursive_files fuel b p b' x data :
  wf_entries (root_entries b) -> add_dir_recursive_internal fuel b p = Ok b' -> below_disk p x -> fs_read x = Ok data ->
  grows b b' /\ exists dir n parts off, parent x = Some dir /\ file_name x = Some n /\ strip_prefix dir (root_path b) = Some parts /\
    view (root_entries b') (parts ++ [n]) = Some (NFile (VFile n off (Z.of_nat (length data)) (Some data))).
Proof.
  intros Hw Hadd Hx Hread. split; [by apply (recursive_grows fuel _ _ _ Hw Hadd)|]. revert fuel b b' Hw Hadd. induction Hx as [d l x Hl Hin|d l d' x Hl Hin _ IH]; intros fuel b b' Hw Hadd;
    (destruct fuel as [|fuel]; [done|]; cbn [add_dir_recursive_internal] in Hadd; destruct (add_dir b d) as [b1|] eqn:Hd; [|done]; cbn [rbind] in Hadd; rewrite Hl in Hadd; cbn [rbind] in Hadd;
     pose proof (add_dir_grows _ _ _ Hw Hd) as Hx1; destruct (add_disk_entries_grows _ _ _ _ (recursive_grows fuel) (grows_wf _ _ Hx1) Hadd) as [_ Hall];
     destruct (Hall _ _ Hin) as (b2 & b3 & H12 & He & H3)).
  - cbn [add_disk_entry] in He. rewrite Hread in He. cbn [rbind] in He. destruct (add_file_grows _ _ _ _ (grows_wf _ _ H12) He) as (_ & dir & n & parts & off & Hp & Hn & Hs & Hv).
    exists dir, n, parts, off. split_and!; [done|done| |by apply (grows_kept _ _ H3)]. by rewrite <- (grows_root _ _ Hx1), <- (grows_root _ _ H12).
  - cbn [add_disk_entry] in He. destruct (IH Hread fuel b2 b3 (grows_wf _ _ H12) He) as (dir & n & parts & off & Hp & Hn & Hs & Hv).
    exists dir, n, parts, off. split_and!; [done|done| |by apply (grows_kept _ _ H3)]. by rewrite <- (grows_root _ _ Hx1), <- (grows_root _ _ H12).
Qed.
End Mirror.

(** *** Reading what was stored *)

Lemma read_all_at_start f data : content f = Some data -> file_len f = Z.of_nat (length data) -> read_file_all f = Ok data /\ snd (read_to_end (Opened f 0)) = Ok data.
Proof.
  intros Hc Hl. unfold read_file_all, read_to_end, read_file. cbn [file pos]. rewrite Hc, Hl. rewrite (proj2 (Z.ltb_ge _ 0)) by lia. cbn [snd rbind].
  rewrite Z.sub_0_r, Nat2Z.id, length_replicate, Nat.min_id. rewrite drop_ge by (by rewrite length_replicate). by rewrite app_nil_r, firstn_all.
Qed.

Lemma entry_at_prefix e q d e' : entry_at e q = Some e' -> d `prefix_of` q -> d <> q -> exists m es, entry_at e d = Some (Dir m es).
Proof.
  intros Hq [k ->] Hne. rewrite entry_at_app in Hq. destruct (entry_at e d) as [x|]; [|done]. cbn in Hq. destruct k as [|n k]; [by rewrite app_nil_r in Hne|]. destruct x; [eauto|done|done].
Qed.

Lemma find_entry_direct r k p q e :
  wf_entries (vfs_dir r) -> strip_prefix p (vfs_root_path r) = Some q -> entry_at (top r) q = Some e -> ~ is_link e -> find_entry r (S k) p = Ok (join r q, e).
Proof.
  intros Hw Hq He Hl. unfold find_entry. cbn [find_entry_inner]. unfold find_entry_no_follow_inner. rewrite Hq. change (Dir [] (vfs_dir r)) with (top r).
  rewrite walk_no_links; [|by apply wf_top|].
  - rewrite He. fold (join r q). by destruct e.
  - intros d e' Hd Hne Hat. destruct (entry_at_prefix _ _ _ _ He Hd Hne) as (m & es & Hd'). rewrite Hd' in Hat. injection Hat as <-. by intros [].
Qed.

Lemma strip_prefix_file x dir n root parts :
  parent x = Some dir -> file_name x = Some n -> strip_prefix dir root = Some parts -> strip_prefix x root = Some (parts ++ [n]).
Proof.
  intros Hp Hn. unfold strip_prefix, path_starts_with. rewrite (parent_components x dir n Hp Hn). destruct (bool_decide (components root `prefix_of` components dir)) eqn:Hd; [|done].
  apply bool_decide_eq_true in Hd as [k Hk]. intros [= <-]. rewrite Hk. rewrite bool_decide_eq_true_2 by (rewrite <- app_assoc; by apply prefix_app_r).
  by rewrite <- app_assoc, !drop_app_length, fmap_app.
Qed.

Section Served.
Context {D : Disk}.

(** Every regular file below a directory that was added has its bytes at its
    path, wherever the tree is mounted. *)
Lemma disk_file_mounted b d d' fuel b' x data :
  wf_entries (root_entries b) -> canonicalize_path d = Ok d' -> add_dir_recursive fuel b d = Ok b' -> below_disk d' x -> fs_read x = Ok data ->
  root_path b' = root_path b /\ wf_entries (root_entries b') /\
  exists q f, strip_prefix x (root_path b') = Some q /\ content f = Some data /\ file_len f = Z.of_nat (length data) /\
    forall k mount y, strip_prefix y mount = Some q -> file_entry (Root (root_entries b') mount) (S k) y = Ok f.
Proof.
  intros Hw Hd Hadd Hx Hread. unfold add_dir_recursive in Hadd. rewrite Hd in Hadd. cbn [rbind] in Hadd.
  destruct (recursive_files fuel b d' b' x data Hw Hadd Hx Hread) as (Hext & dir & n & parts & off & Hp & Hn & Hs & Hv).
  split_and!; [apply Hext|apply Hext|]. set (f := VFile n off (Z.of_nat (length data)) (Some data)) in *. exists (parts ++ [n]), f. split_and!; [|done..|].
  - apply (strip_prefix_file x dir); [done|done|]. by rewrite (grows_root _ _ Hext).
  - unfold view in Hv. destruct (entry_at (Dir [] (root_entries b')) (parts ++ [n])) as [e|] eqn:He; [|done]. cbn in Hv. destruct e as [| |]; try done. injection Hv as ->.
    intros k mount y Hy. unfold file_entry. rewrite (find_entry_direct _ k y (parts ++ [n]) (File f)); [done|apply Hext|done|done|by intros []].
Qed.

(** what is on the disk is served.  Every regular file below a directory that
    was added can be opened in the virtual file system by its path, and gives
    its bytes. *)
Theorem disk_files_served b d d' fuel b' k x data :
  wf_entries (root_entries b) -> canonicalize_path d = Ok d' -> add_dir_recursive fuel b d = Ok b' -> below_disk d' x -> fs_read x = Ok data ->
  exists f, open_file (Root (root_entries b') (root_path b')) (S k) x = Ok (Opened f 0) /\ read_file_all f = Ok data /\ snd (read_to_end (Opened f 0)) = Ok data.
Proof.
  intros Hw Hd Hadd Hx Hread. destruct (disk_file_mounted b d d' fuel b' x data Hw Hd Hadd Hx Hread) as (_ & _ & q & f & Hq & Hc & Hl & Hf).
  exists f. split; [|by apply read_all_at_start]. unfold open_file. by rewrite Hf.
Qed.

(** *** Links of the disk *)

(** [real] holds of the paths without links on the way. *)
Context (real : list rstr -> Prop).

(** Where links stand is not real, where they lead is. *)
Definition links_real (es : list VfsEntry) : Prop :=
  forall q dest, view es q = Some (NLink dest) -> ~ real q /\ real dest /\ Forall (fun n => plain n /\ n <> [dot; dot]) dest.

Lemma links_real_canonical r : (forall l k, real (l ++ k) -> real l) -> links_real (vfs_dir r) -> canonical_links r.
Proof.
  intros Hpre Hl q m dest Hq. destruct (Hl q dest) as (_ & Hreal & Hplain); [unfold view; fold (top r); by rewrite Hq|]. split; [done|].
  intros d e [k Hk] Hd Hlink. destruct e as [| |m' dest']; [done|done|]. destruct (Hl d dest') as (Hno & _); [unfold view; fold (top r); by rewrite Hd|].
  apply Hno. apply (Hpre d k). by rewrite <- Hk.
Qed.

Context (root : rstr) (Habs : is_absolute root = true).
(** The real path of a file has no links on the way, and a link is none. *)
Context (real_prefix : forall l k, real (l ++ k) -> real l).
Context (canonical_real : forall p t dest, canonicalize_path p = Ok t -> strip_prefix t root = Some dest -> real dest /\ Forall (fun n => n <> [dot; dot]) dest).
Context (link_not_real : forall d l p q, fs_read_dir d = Ok l -> (p, IsSymlink) ∈ l -> strip_prefix p root = Some q -> ~ real q).

Definition links_ok (b : VfsBuilder) : Prop := wf_entries (root_entries b) /\ root_path b = root /\ links_real (root_entries b).

Lemma add_dir_links b p b' : links_ok b -> add_dir b p = Ok b' -> links_ok b'.
Proof.
  intros (Hw & Hr & Hl) Hadd. pose proof (add_dir_grows _ _ _ Hw Hadd) as [Hw' Hr' _]. split_and!; [done|congruence|].
  assert (exists parts, strip_prefix p (root_path b) = Some parts) as [parts Hs] by (unfold add_dir, path_relative_root in Hadd; destruct (strip_prefix p (root_path b)); [eauto|done]).
  destruct (add_dir_spec b p parts b' Hw Hs Hadd) as [_ Hv]. intros q dest. rewrite Hv. destruct (decide _); [done|]. apply Hl.
Qed.

Lemma add_file_links b p data b' : links_ok b -> add_file b p data = Ok b' -> links_ok b'.
Proof.
  intros (Hw & Hr & Hl). unfold add_file, path_relative_root. destruct (match file_offsets b !! checksum data with Some off => (file_offsets b, off) | None => _ end) as [offsets off].
  destruct (parent p) as [dir|]; cbn [unwrap rbind]; [|done]. destruct (strip_prefix dir (root_path b)) as [parts|]; cbn [rbind]; [|done].
  destruct (file_name p) as [n|]; cbn [unwrap rbind]; [|done]. set (f := File _). destruct (in_dir parts (add_entry f) (root_entries b)) as [es'|] eqn:Hin; cbn [rbind]; [|done].
  intros [= <-]. destruct (in_dir_add parts f _ _ Hw I Hin) as (Hw' & _ & Hv). split_and!; [done|done|]. intros q dest. cbn [root_entries]. rewrite Hv.
  destruct (decide _); [done|]. destruct (decide _); [done|]. apply Hl.
Qed.

Lemma add_symlink_links b p t b' d l : links_ok b -> fs_read_dir d = Ok l -> (p, IsSymlink) ∈ l -> canonicalize_path p = Ok t -> add_symlink b p t = Ok b' -> links_ok b'.
Proof.
  intros (Hw & Hr & Hl) Hd Hin Ht Hadd. destruct (add_symlink_grows b p t b' Hw Hadd) as ([Hw' Hr' _] & dir & n & parts & dest & Hp & Hn & Hs & Hdest & Hv).
  split_and!; [done|congruence|]. intros q dest'. rewrite Hv. destruct (decide (q = parts ++ [n])) as [->|_]; [|destruct (decide _); [done|apply Hl]]. intros [= <-].
  rewrite Hr in Hs, Hdest. pose proof (strip_prefix_file p dir n root parts Hp Hn Hs) as Hq. split; [by eapply link_not_real|].
  destruct (canonical_real p t dest Ht Hdest) as [Hreal Hdd]. split; [done|]. apply Forall_and. split; [|done]. by apply (strip_prefix_plain (Root [] root) t).
Qed.

Lemma add_disk_entry_links add_sub b p t b' d l :
  (forall b p b', links_ok b -> add_sub b p = Ok b' -> links_ok b') -> links_ok b -> fs_read_dir d = Ok l -> (p, t) ∈ l -> add_disk_entry add_sub b p t = Ok b' -> links_ok b'.
Proof.
  intros Hsub Hb Hd Hin. assert (forall x b', (let! file_bytes := fs_read x in add_file b p file_bytes) = Ok b' -> links_ok b') as Hfile.
  { intros x b1. destruct (fs_read x); cbn [rbind]; [|done]. by apply add_file_links. }
  destruct t; cbn [add_disk_entry]; [by apply Hsub|apply Hfile| |by intros [= <-]]. destruct (canonicalize_path p) as [target|] eqn:Ht; cbn [rbind]; [|done].
  destruct (add_symlink b p target) as [b1|err] eqn:Hl; [intros [= <-]; by eapply add_symlink_links|]. destruct err; try done. destruct (bool_decide _); [|done].
  destruct (fs_is_file target); [apply Hfile|]. by intros [= <-].
Qed.

Lemma recursive_links fuel b p b' : links_ok b -> add_dir_recursive_internal fuel b p = Ok b' -> links_ok b'.
Proof.
  revert b p b'. induction fuel as [|fuel IH]; intros b p b' Hb; cbn [add_dir_recursive_internal]; [done|]. destruct (add_dir b p) as [b1|] eqn:Hd; cbn [rbind]; [|done].
  pose proof (add_dir_links _ _ _ Hb Hd) as Hb1. destruct (fs_read_dir p) as [l|] eqn:Hl; cbn [rbind]; [|done].
  assert (forall l0 b0, (forall x, x ∈ l0 -> x ∈ l) -> links_ok b0 -> add_disk_entries (add_dir_recursive_internal fuel) b0 l0 = Ok b' -> links_ok b') as Hall; [|by apply Hall].
  induction l0 as [|[p0 t0] l0 IHl]; intros b0 Hsub Hb0; cbn [add_disk_entries]; [by intros [= <-]|].
  destruct (add_disk_entry _ b0 p0 t0) as [b2|] eqn:He; cbn [rbind]; [|done]. apply IHl; [intros x Hx; apply Hsub; by right|].
  eapply (add_disk_entry_links _ b0 p0 t0 b2 p l IH Hb0 Hl); [apply Hsub; by left|done].
Qed.

(** the links of a directory of the disk are stored in a form in which the
    search is correct and ends: every link names a real path, on which there is
    no other link. *)
Theorem built_links_canonical fuel b d b' :
  links_ok b -> add_dir_recursive fuel b d = Ok b' -> canonical_links (Root (root_entries b') (root_path b')) /\ wf_entries (root_entries b').
Proof.
  intros Hb. unfold add_dir_recursive. destruct (canonicalize_path d) as [d'|]; cbn [rbind]; [|done]. intros Hadd.
  destruct (recursive_links _ _ _ _ Hb Hadd) as (Hw & Hr & Hl). split; [|done]. by apply links_real_canonical.
Qed.
End Served.

(** ** Offsets *)

Section Offsets.
Context {D : Disk}.

Fixpoint add_files (b : VfsBuilder) (l : list (rstr * list Z)) : result VfsBuilder :=
  match l with
  | [] => Ok b
  | (p, data) :: l => let! b := add_file b p data in add_files b l
  end.

(** [data] stands in [log] at [off]. *)
Definition stored (log : list Z) (off : Z) (data : list Z) : Prop :=
  (0 <= off)%Z /\ exists pre post, log = pre ++ data ++ post /\ Z.of_nat (length pre) = off.

Lemma stored_app log log' off data : stored log off data -> stored (log ++ log') off data.
Proof. intros (H0 & pre & post & -> & Hl). split; [done|]. exists pre, (post ++ log'). by rewrite <- !app_assoc. Qed.

(** [log] is the contents of the files, each one once, of [known] contents. *)
Record offsets_ok (known : list (list Z)) (b : VfsBuilder) (log : list Z) : Prop := {
  log_length : Z.of_nat (length log) = current_offset b;
  log_sums : forall sum off, file_offsets b !! sum = Some off -> exists data, data ∈ known /\ checksum data = sum /\ stored log off data;
  log_files : forall q f, view (root_entries b) q = Some (NFile f) -> exists data, content f = Some data /\ file_len f = Z.of_nat (length data) /\ stored log (offset f) data
}.

Lemma add_file_offsets known b log p data b' :
  (forall x y, x ∈ known -> y ∈ known -> checksum x = checksum y -> x = y) -> data ∈ known ->
  wf_entries (root_entries b) -> offsets_ok known b log -> add_file b p data = Ok b' -> exists log', offsets_ok known b' log'.
Proof.
  intros Hinj Hknown Hw [Hlen Hsums Hfiles]. unfold add_file, path_relative_root.
  assert (exists offsets off log', match file_offsets b !! checksum data with Some off => (file_offsets b, off) | None => (<[checksum data := current_offset b]> (file_offsets b), current_offset b) end = (offsets, off) /\
    stored log' off data /\ log `prefix_of` log' /\ Z.of_nat (length log') = (if (current_offset b =? off)%Z then current_offset b + Z.of_nat (length data) else current_offset b)%Z /\
    forall sum o, offsets !! sum = Some o -> exists data, data ∈ known /\ checksum data = sum /\ stored log' o data) as (offsets & off & log' & Heq & Hst & Hpre & Hlen' & Hsums').
  { destruct (file_offsets b !! checksum data) as [off|] eqn:Ho.
    - destruct (Hsums _ _ Ho) as (data0 & Hk & Hc & Hst). assert (data0 = data) as -> by (by apply Hinj). exists (file_offsets b), off, log. split_and!; [done|done|reflexivity| |done].
      destruct (Z.eqb_spec (current_offset b) off) as [<-|]; [|done]. destruct Hst as (_ & pre & post & -> & Hl). rewrite !length_app in Hlen |- *. lia.
    - exists (<[checksum data := current_offset b]> (file_offsets b)), (current_offset b), (log ++ data). rewrite Z.eqb_refl, length_app.
      assert (stored (log ++ data) (current_offset b) data) as Hst by (split; [lia|]; exists log, []; by rewrite app_nil_r).
      split_and!; [done|done|by apply prefix_app_r|lia|]. intros sum o [[<- <-]|[_ Hs]]%lookup_insert_Some; [by exists data|].
      destruct (Hsums _ _ Hs) as (data0 & ? & ? & ?). exists data0. split_and!; [done..|by apply stored_app]. }
  rewrite Heq. destruct (parent p) as [dir|]; cbn [unwrap rbind]; [|done]. destruct (strip_prefix dir (root_path b)) as [parts|]; cbn [rbind]; [|done].
  destruct (file_name p) as [n|]; cbn [unwrap rbind]; [|done]. set (f := File _). destruct (in_dir parts (add_entry f) (root_entries b)) as [es'|] eqn:Hin; cbn [rbind]; [|done].
  intros [= <-]. destruct (in_dir_add parts f _ _ Hw I Hin) as (_ & _ & Hv). exists log'. constructor; [done|done|]. cbn [root_entries]. intros q g. rewrite Hv.
  destruct (decide _); [intros [= <-]; by exists data|]. destruct (decide _); [done|]. intros Hg. destruct (Hfiles q g Hg) as (data0 & ? & ? & ?). exists data0.
  destruct Hpre as [k ->]. split_and!; [done..|by apply stored_app].
Qed.

(** files with the same contents share one range of bytes, and the ranges of
    all files fit together: there is one sequence of bytes in which every file
    of the tree has its contents at its offset.  The checksums of the files
    must not collide. *)
Theorem offsets_sound p0 b l b' :
  new_builder p0 = Ok b -> add_files b l = Ok b' -> (forall x y, x ∈ l.*2 -> y ∈ l.*2 -> checksum x = checksum y -> x = y) ->
  exists log, Z.of_nat (length log) = current_offset b' /\
    forall q f, view (root_entries b') q = Some (NFile f) -> exists data, content f = Some data /\ file_len f = Z.of_nat (length data) /\ stored log (offset f) data.
Proof.
  intros Hnew Hadd Hinj. assert (forall l0 b0 log0, (forall x, x ∈ l0 -> x ∈ l) -> wf_entries (root_entries b0) -> offsets_ok l.*2 b0 log0 -> add_files b0 l0 = Ok b' -> exists log, offsets_ok l.*2 b' log) as Hall.
  { induction l0 as [|[p data] l0 IH]; intros b0 log0 Hsub Hw Ho; cbn [add_files]; [intros [= <-]; eauto|]. destruct (add_file b0 p data) as [b1|] eqn:Hf; cbn [rbind]; [|done]. intros Hrest.
    destruct (add_file_offsets l.*2 b0 log0 p data b1 Hinj) as [log1 Ho1]; [|done|done|done|].
    { apply list_elem_of_fmap. exists (p, data). split; [done|]. apply Hsub. by left. }
    apply (IH b1 log1); [intros x Hx; apply Hsub; by right| |done|done]. by apply (add_file_grows _ _ _ _ Hw Hf). }
  destruct (Hall l b []) as [log [H1 H2 H3]]; [done|..|done|eauto].
  - unfold new_builder in Hnew. destruct (canonicalize_path p0) as [p1|]; [|done]. cbn [rbind] in Hnew. destruct (file_stem p1); [|done]. injection Hnew as <-. by split; constructor.
  - unfold new_builder in Hnew. destruct (canonicalize_path p0) as [p1|]; [|done]. cbn [rbind] in Hnew. destruct (file_stem p1); [|done]. injection Hnew as <-. constructor; [done| |].
    + intros sum off. cbn [file_offsets]. by rewrite lookup_empty.
    + intros [|n q] f; done.
Qed.
End Offsets.

(** ** Positions *)

(** a position stays a 64-bit number.  From the start it is set, from the
    current position it is moved, and a move before the beginning is refused and
    changes nothing.  From the end it is moved the wrong way: a positive offset
    goes back and a negative one goes past the end. *)
Theorem seek_spec o :
  (0 <= pos o < 2 ^ 64)%Z -> (0 <= file_len (file o) < 2 ^ 63)%Z ->
  (forall p, seek o (Start p) = (Opened (file o) p, Ok p)) /\
  (forall d, (- 2 ^ 63 <= d < 2 ^ 63)%Z -> (pos o + d < 2 ^ 64)%Z ->
     seek o (Current d) = if (pos o + d <? 0)%Z then (o, Throw before_beginning) else (Opened (file o) (pos o + d), Ok (pos o + d)%Z)) /\
  (forall d, (- 2 ^ 63 <= d < 2 ^ 63)%Z ->
     seek o (End_ d) = if (file_len (file o) + d <? 0)%Z then (o, Throw before_beginning) else let p := u64 (file_len (file o) - d) in (Opened (file o) p, Ok p)).
Proof.
  intros Hp Hl. assert (forall d, (- 2 ^ 63 <= d < 0)%Z -> u64 (- d) = (- d)%Z) as Hneg by (intros d Hd; apply Z.mod_small; lia).
  split_and!; [done| |].
  - intros d Hd Hover. cbn [seek]. destruct (Z.leb_spec 0 d) as [Hd0|Hd0].
    + rewrite (proj2 (Z.ltb_ge _ 0)) by lia. unfold u64. by rewrite Z.mod_small by lia.
    + rewrite Hneg by lia. destruct (Z.ltb_spec (pos o) (- d)), (Z.ltb_spec (pos o + d) 0); try lia; [done|].
      unfold u64. rewrite Z.mod_small by lia. by replace (pos o - - d)%Z with (pos o + d)%Z by lia.
  - intros d Hd. cbn [seek]. destruct (Z.ltb_spec d 0) as [Hd0|Hd0]; cbn [andb].
    + rewrite Hneg by lia. rewrite (proj2 (Z.leb_gt 0 d)) by lia. destruct (Z.ltb_spec (file_len (file o)) (- d)), (Z.ltb_spec (file_len (file o) + d) 0); try lia; [done|].
      by replace (file_len (file o) - d)%Z with (file_len (file o) + - d)%Z by lia.
    + rewrite (proj2 (Z.leb_le 0 d)) by lia. by rewrite (proj2 (Z.ltb_ge _ 0)) by lia.
Qed.

(** ** A disk to try it on *)

Module DemoDisk.
Definition dirs : list (rstr * list (rstr * FileType)) := [
  (js "/nm", [(js "/nm/l", IsSymlink); (js "/nm/b.js", IsFile); (js "/nm/out", IsSymlink); (js "/nm/a", IsDir)]);
  (js "/nm/a", [(js "/nm/a/i.js", IsFile)])].
Definition contents : list (rstr * list Z) := [(js "/nm/b.js", [98]); (js "/nm/a/i.js", [1; 2; 3]); (js "/etc/x", [7])]%Z.
Definition targets : list (rstr * rstr) := [(js "/nm", js "/nm"); (js "/nm/l", js "/nm/a"); (js "/nm/out", js "/etc/x")].

#[export] Instance disk : Disk := {|
  canonicalize_path p := match map_get targets p with Some t => Ok t | None => Throw not_found end;
  fs_read_dir p := match map_get dirs p with Some l => Ok l | None => Throw not_found end;
  fs_read p := match map_get contents p with Some data => Ok data | None => Throw not_found end;
  fs_is_file p := match map_get contents p with Some _ => true | None => false end;
  checksum data := data
|}.

Definition empty : VfsBuilder := Builder (js "/nm") (js "nm") [] [] 0 ∅.
Definition built : VfsBuilder := match add_dir_recursive 3 empty (js "/nm") with Ok b => b | Throw _ => empty end.
Definition root : VfsRoot := Root (root_entries built) (js "/nm").

Lemma empty_ok : wf_entries (root_entries empty).
Proof. by split; constructor. Qed.
Lemma built_ok : add_dir_recursive 3 empty (js "/nm") = Ok built.
Proof. vm_compute. reflexivity. Qed.

(** The paths without links. *)
Definition real (q : list rstr) : Prop := match q with n :: _ => n <> js "l" /\ n <> js "out" | [] => True end.

Lemma real_prefix l k : real (l ++ k) -> real l.
Proof. by destruct l. Qed.

Lemma map_get_in {A} (l : list (rstr * A)) k v : map_get l k = Some v -> (k, v) ∈ l.
Proof. induction l as [|[k' v'] l IH]; [done|]. cbn. destruct (str_eqb k' k) eqn:He; [apply bool_decide_eq_true in He as ->; intros [= ->]; by left|intros ?%IH; by right]. Qed.

Lemma canonical_real p t dest : canonicalize_path p = Ok t -> strip_prefix t (js "/nm") = Some dest -> real dest /\ Forall (fun n => n <> [dot; dot]) dest.
Proof.
  cbn [canonicalize_path disk]. destruct (map_get targets p) as [t'|] eqn:Ht; [|done]. intros [= <-]. apply map_get_in in Ht. unfold targets in Ht.
  repeat (apply elem_of_cons in Ht as [[= -> ->]|Ht]); [vm_compute; intros [= <-]; by repeat constructor|vm_compute; intros [= <-]; by repeat constructor|by vm_compute|by apply elem_of_nil in Ht].
Qed.

Lemma link_not_real d l p q : fs_read_dir d = Ok l -> (p, IsSymlink) ∈ l -> strip_prefix p (js "/nm") = Some q -> ~ real q.
Proof.
  cbn [fs_read_dir disk]. destruct (map_get dirs d) as [l'|] eqn:Hl; [|done]. intros [= <-]. apply map_get_in in Hl. unfold dirs in Hl.
  repeat (apply elem_of_cons in Hl as [[= -> ->]|Hl]); [..|by apply elem_of_nil in Hl]; intros Hin; repeat (apply elem_of_cons in Hin as [[= ->]|Hin]); try by apply elem_of_nil in Hin.
  - vm_compute. intros [= <-]. by intros [].
  - vm_compute. intros [= <-]. by intros [].
Qed.

Lemma empty_links : links_ok real (js "/nm") empty.
Proof. split_and!; [apply empty_ok|done|]. by intros [|n q] dest. Qed.
End DemoDisk.
Import DemoDisk.

(** ** Examples *)

(** A link inside the root is kept, one to the outside becomes a file. *)
Example demo_tree :
  (name <$> root_entries built) = [js "a"; js "b.js"; js "l"; js "out"] /\
  canonicalize root 2 (js "/nm/l/i.js") = Ok (js "/nm/a/i.js") /\
  read_link root 2 (js "/nm/l") = Ok (js "/nm/a") /\
  read_link root 2 (js "/nm/out") = Throw (Coded "Other" (js "not a symlink")) /\
  stat root 2 (js "/nm/l") = Ok (Stat true false false 0) /\
  stat root 2 (js "/nm/x") = Throw not_found /\
  current_offset built = 5%Z.
Proof. vm_compute. repeat split. Qed.

(** The position is not used by [read_file]: every read starts at the beginning,
    so that a program that reads until nothing is left never stops. *)
Example reads_repeat :
  let o := Opened (VFile (js "i.js") 0 3 (Some [1; 2; 3]%Z)) 0 in
  let '(o1, r1) := read_to_buf o [0; 0]%Z in let '(o2, r2) := read_to_buf o1 [0; 0]%Z in let '(o3, r3) := read_to_buf o2 [0; 0]%Z in
  r1 = Ok (2, [1; 2]%Z) /\ r2 = Ok (2, [1; 2]%Z) /\ r3 = Ok (2, [1; 2]%Z) /\ pos o2 = 3%Z /\ snd (read_to_end o1) = Ok [1]%Z.
Proof. vm_compute. repeat split. Qed.

(** From the end the position moves the wrong way, and past the start it wraps around. *)
Example seek_end_reversed :
  let o := Opened (VFile (js "f") 0 10 None) 0 in
  snd (seek o (End_ (-3))) = Ok 13%Z /\ snd (seek o (End_ 3)) = Ok 7%Z /\ snd (seek o (End_ 11)) = Ok (2 ^ 64 - 1)%Z.
Proof. vm_compute. repeat split. Qed.

(** A link that names a place below itself is followed without end. *)
Definition into_itself : VfsRoot := Root [Symlink (js "a") [js "a"; js "b"]] (js "/r").

Example link_into_itself fuel : find_entry into_itself fuel (js "/r/a") = Throw find_out_of_fuel.
Proof.
  assert (forall fuel seen, find_entry_inner into_itself fuel (js "/r/a/b") seen = (Throw find_out_of_fuel, seen)) as Hb.
  { induction fuel0 as [|k IH]; intros seen; [done|]. cbn [find_entry_inner]. unfold find_entry_no_follow_inner.
    assert (strip_prefix (js "/r/a/b") (vfs_root_path into_itself) = Some [js "a"; js "b"]) as -> by (vm_compute; reflexivity).
    cbn [walk]. change (binary_search (js "a") (vfs_dir into_itself)) with (Found 0). cbn [vfs_dir into_itself lookup list_lookup].
    change (resolve_dest_from_root [js "a"; js "b"] (vfs_root_path into_itself)) with (js "/r/a/b"). by rewrite IH. }
  destruct fuel as [|fuel]; [done|]. unfold find_entry. cbn [find_entry_inner]. unfold find_entry_no_follow_inner.
  assert (strip_prefix (js "/r/a") (vfs_root_path into_itself) = Some [js "a"]) as -> by (vm_compute; reflexivity).
  cbn [walk]. change (binary_search (js "a") (vfs_dir into_itself)) with (Found 0). cbn [vfs_dir into_itself lookup list_lookup walk].
  rewrite bool_decide_eq_false_2 by apply not_elem_of_nil. change (resolve_dest_from_root [js "a"; js "b"] (js "/r")) with (js "/r/a/b"). by rewrite Hb.
Qed.

(** A link that is used twice on the way is taken for a circle. *)
Example repeated_link_refused :
  let r := Root [Dir (js "d") [Symlink (js "m") [js "x"]]; Symlink (js "l") [js "x"]; Symlink (js "x") [js "d"]] (js "/r") in
  find_entry r 9 (js "/r/l") = Ok (js "/r/d", Dir (js "d") [Symlink (js "m") [js "x"]]) /\ find_entry r 9 (js "/r/l/m") = Throw circular.
Proof. vm_compute. repeat split. Qed.

(** ** Witnesses *)

Lemma builder_refines_witness :
  exists b' off, add_file empty (js "/nm/a/i.js") [1; 2; 3]%Z = Ok b' /\ wf_entries (root_entries b') /\ root_path b' = js "/nm" /\
    put (view []) (view (root_entries b')) [js "a"] (js "i.js") (NFile (VFile (js "i.js") off 3 (Some [1; 2; 3]%Z))).
Proof.
  destruct (builder_refines empty (js "/nm/a/i.js") (js "/nm/a") (js "i.js") [1; 2; 3]%Z (js "/nm") empty_ok eq_refl eq_refl) as [H _].
  apply H. split; [|reflexivity]. intros q Hq. destruct q as [|n q]; [by right|by left].
Defined.

Lemma find_entry_sound_witness :
  exists q c e, find_entry root 2 (js "/nm/l/i.js") = Ok (js "/nm/a/i.js", e) /\ follows root q c e /\ is_path_within root (js "/nm/a/i.js") = true.
Proof.
  destruct (find_entry root 2 (js "/nm/l/i.js")) as [[path e]|] eqn:Hf; [|vm_compute in Hf; discriminate].
  assert (path = js "/nm/a/i.js") as -> by (vm_compute in Hf; injection Hf as <- _; reflexivity).
  assert (wf_entries (vfs_dir root)) as Hw by (apply (recursive_grows 3 empty (js "/nm") built empty_ok); exact built_ok).
  destruct (find_entry_sound root 2 (js "/nm/l/i.js") _ e Hw eq_refl Hf) as (q & c & _ & Hfol & _ & _ & _ & Hin). exists q, c, e. exact (conj eq_refl (conj Hfol Hin)).
Defined.

Lemma built_links_canonical_witness : canonical_links (Root (root_entries built) (root_path built)) /\ wf_entries (root_entries built).
Proof. exact (built_links_canonical real (js "/nm") eq_refl real_prefix canonical_real link_not_real 3 empty (js "/nm") built empty_links built_ok). Defined.

Lemma find_entry_correct_witness : find_entry root 9 (js "/nm/l/i.js") = find_entry root 2 (js "/nm/l/i.js").
Proof.
  destruct (recursive_links real (js "/nm") eq_refl canonical_real link_not_real 3 empty (js "/nm") built empty_links built_ok) as (Hw & _ & Hl).
  exact (proj1 (find_entry_correct root Hw eq_refl (links_real_canonical real root real_prefix Hl) 7 (js "/nm/l/i.js"))).
Defined.

Lemma disk_files_served_witness :
  exists f, open_file (Root (root_entries built) (root_path built)) 2 (js "/nm/a/i.js") = Ok (Opened f 0) /\ read_file_all f = Ok [1; 2; 3]%Z /\ snd (read_to_end (Opened f 0)) = Ok [1; 2; 3]%Z.
Proof.
  apply (disk_files_served empty (js "/nm") (js "/nm") 3 built 1 (js "/nm/a/i.js") [1; 2; 3]%Z); [apply empty_ok|reflexivity|exact built_ok| |reflexivity].
  eapply (below_sub _ _ (js "/nm/a")); [reflexivity|do 3 right; by left|]. eapply below_here; [reflexivity|by left].
Defined.

Lemma offsets_sound_witness : exists log : list Z, Z.of_nat (length log) = 1%Z.
Proof.
  destruct (offsets_sound (js "/nm") empty [(js "/nm/c", [5]%Z); (js "/nm/d", [5]%Z)] (match add_files empty [(js "/nm/c", [5]%Z); (js "/nm/d", [5]%Z)] with Ok b => b | _ => empty end)) as (log & Hl & _);
    [reflexivity|vm_compute; reflexivity|done|]. exists log. rewrite Hl. vm_compute. reflexivity.
Defined.

Lemma seek_spec_witness : seek (Opened (VFile (js "f") 0 10 None) 4) (Current (-5)) = (Opened (VFile (js "f") 0 10 None) 4, Throw before_beginning).
Proof. apply (seek_spec (Opened (VFile (js "f") 0 10 None) 4)); cbn; lia. Defined.
