(* ===== verification/FileSystems.v ===== *)
(** * The file systems of workers: src/crates/sb_fs

    [StaticFs] is all that a deployed function sees of files: the virtual file
    system of its packages and its static files.  [DenoCompileFileSystem] puts
    the virtual file system in front of the real one.  The normalization of
    paths and the real file system are parameters. *)

From stdpp Require Import gmap.
From S2P Require Import Prelude RustPath PackageJson Vfs.

(** ** Operations *)

Inductive fs_op :=
| Cwd | TmpDir | Umask
| Chdir (p : rstr) | Open (p : rstr) | Mkdir (p : rstr) | Chmod (p : rstr) | Chown (p : rstr) | Remove (p : rstr)
| CopyFile (old new : rstr) | Cp (from to : rstr)
| StatOp (p : rstr) | Lstat (p : rstr) | Realpath (p : rstr) | ReadDir (p : rstr)
| Rename (old new : rstr) | Link (old new : rstr) | SymlinkOp (old new : rstr)
| ReadLink (p : rstr) | Truncate (p : rstr) | Utime (p : rstr).

Inductive response :=
| Done
| APath (p : rstr)
| AFile (f : FileBackedVfsFile)
| AStat (s : FsStat)
| Entries (l : list FsDirEntry)
| Contents (bytes : list Z).

Definition NotSupported : jserr := Coded "NotSupported" [].

(** What both file systems ask of the virtual one. *)
Section Virtual.
Context (r : VfsRoot) (fuel : nat).
Definition vfs_open (p : rstr) : result response := let! f := open_file r fuel p in Ok (AFile f).
Definition vfs_stat (p : rstr) : result response := let! s := stat r fuel p in Ok (AStat s).
Definition vfs_lstat (p : rstr) : result response := let! s := lstat r fuel p in Ok (AStat s).
Definition vfs_realpath (p : rstr) : result response := let! q := canonicalize r fuel p in Ok (APath q).
Definition vfs_read_dir (p : rstr) : result response := let! l := read_dir r fuel p in Ok (Entries l).
Definition vfs_read_link (p : rstr) : result response := let! q := read_link r fuel p in Ok (APath q).
End Virtual.

(** ** Open files *)

(** A file of the virtual file system can be read and its position set, nothing else. *)
Inductive file_op :=
| FRead (buf : list Z) | FReadAll | FSeek (to : SeekFrom)
| FWrite | FWriteAll | FChmod | FDatasync | FSync | FStat | FLock | FUnlock | FTruncate | FUtime | FAsStdio.

Inductive file_response := Read (n : nat) (buf : list Z) | ReadAll (bytes : list Z) | Position (p : Z) | FileDone.

Definition file_run (o : FileBackedVfsFile) (op : file_op) : FileBackedVfsFile * result file_response :=
  match op with
  | FRead buf => let '(o, r) := read_to_buf o buf in (o, let* (n, buf) := r in Ok (Read n buf))
  | FReadAll => let '(o, r) := read_to_end o in (o, let! bytes := r in Ok (ReadAll bytes))
  | FSeek to => let '(o, r) := seek o to in (o, let! p := r in Ok (Position p))
  | _ => (o, Throw NotSupported)
  end.

(** ** [StaticFs] *)

Record StaticFs := Static {
  static_files : gmap rstr (list Z);
  vfs_path : rstr;
  has_snapshot : bool;
  vfs : VfsRoot
}.

Definition is_valid_npm_package (s : StaticFs) (p : rstr) : bool := if has_snapshot s then path_starts_with p (vfs_path s) else false.

Section StaticOps.
Context (normalize_path : rstr -> rstr) (fuel : nat) (s : StaticFs).

Definition within (p : rstr) (answer : result response) : result response := if is_path_within (vfs s) p then answer else Throw NotSupported.

Definition static_open (p : rstr) : result response := within p (vfs_open (vfs s) fuel p).
Definition static_stat (p : rstr) : result response := within p (vfs_stat (vfs s) fuel p).
Definition static_lstat (p : rstr) : result response := within p (vfs_lstat (vfs s) fuel p).
Definition static_realpath (p : rstr) : result response := within p (vfs_realpath (vfs s) fuel p).
Definition static_read_dir (p : rstr) : result response := within p (vfs_read_dir (vfs s) fuel p).
Definition static_read_link (p : rstr) : result response := within p (vfs_read_link (vfs s) fuel p).

(** Everything that changes files is refused: making, changing, removing and copying files, *)
Definition static_change : result response := Throw NotSupported.
(** renaming and linking them, *)
Definition static_rename_link : result response := Throw NotSupported.
(** their lengths and times. *)
Definition static_truncate_utime : result response := Throw NotSupported.

Definition read_file_sync (p : rstr) : result (list Z) :=
  if is_valid_npm_package s p then
    let! f := static_open p in
    match f with AFile f => snd (read_to_end f) | _ => unreachable end
  else
    match static_files s !! normalize_path p with
    | Some res => Ok res
    | None => Throw not_found
    end.
(** [read_file] is a method of this file system; of the other one it is that of
    the trait. *)
Inductive static_op := Common (op : fs_op) | ReadFile (p : rstr).

Definition static_run (op : static_op) : result response :=
  match op with
  | Common op =>
      match op with
      | Cwd => Ok (APath [])
      | TmpDir | Umask | Chdir _ => Throw NotSupported
      | Mkdir _ | Chmod _ | Chown _ | Remove _ | CopyFile _ _ | Cp _ _ => static_change
      | Rename _ _ | Link _ _ | SymlinkOp _ _ => static_rename_link
      | Truncate _ | Utime _ => static_truncate_utime
      | Open p => static_open p
      | StatOp p => static_stat p
      | Lstat p => static_lstat p
      | Realpath p => static_realpath p
      | ReadDir p => static_read_dir p
      | ReadLink p => static_read_link p
      end
  | ReadFile p => let! bytes := read_file_sync p in Ok (Contents bytes)
  end.
End StaticOps.

(** ** [DenoCompileFileSystem] *)

(** Who does an operation: the virtual file system, or the real one, with what
    it has to do; a file is copied out of the virtual one by writing its bytes. *)
Inductive route :=
| ByVfs (answer : result response)
| ByReal (op : fs_op)
| WriteReal (p : rstr) (bytes : list Z).

Section CompileOps.
Context (r : VfsRoot) (fuel : nat).

Definition error_if_in_vfs (p : rstr) (k : route) : route := if is_path_within r p then ByVfs (Throw NotSupported) else k.

Definition copy_to_real_path (oldpath newpath : rstr) : route :=
  match (let! f := file_entry r fuel oldpath in read_file_all f) with
  | Ok bytes => WriteReal newpath bytes
  | Throw e => ByVfs (Throw e)
  end.

(** Read from the virtual file system if the path is in it. *)
Definition read_through (op : fs_op) (p : rstr) (answer : result response) : route := if is_path_within r p then ByVfs answer else ByReal op.

Definition copy_file (oldpath newpath : rstr) : route :=
  error_if_in_vfs newpath (if is_path_within r oldpath then copy_to_real_path oldpath newpath else ByReal (CopyFile oldpath newpath)).

Definition cp (from to : rstr) : route := error_if_in_vfs to (ByReal (Cp from to)).

Definition compile_open (p : rstr) : route := read_through (Open p) p (vfs_open r fuel p).
Definition compile_stat (p : rstr) : route := read_through (StatOp p) p (vfs_stat r fuel p).
Definition compile_lstat (p : rstr) : route := read_through (Lstat p) p (vfs_lstat r fuel p).
Definition compile_realpath (p : rstr) : route := read_through (Realpath p) p (vfs_realpath r fuel p).
Definition compile_read_dir (p : rstr) : route := read_through (ReadDir p) p (vfs_read_dir r fuel p).
Definition compile_read_link (p : rstr) : route := read_through (ReadLink p) p (vfs_read_link r fuel p).

(** Changes are passed on for paths outside: of one path, *)
Definition outside (op : fs_op) (p : rstr) : route := error_if_in_vfs p (ByReal op).
(** of a length or a time, *)
Definition compile_truncate_utime (op : fs_op) (p : rstr) : route := error_if_in_vfs p (ByReal op).
(** of two paths. *)
Definition both_outside (op : fs_op) (oldpath newpath : rstr) : route := error_if_in_vfs oldpath (error_if_in_vfs newpath (ByReal op)).

Definition compile_run (op : fs_op) : route :=
  match op with
  | Cwd | TmpDir | Umask => ByReal op
  | Chdir p | Mkdir p | Chmod p | Chown p | Remove p => outside op p
  | Truncate p | Utime p => compile_truncate_utime op p
  | Open p => compile_open p
  | StatOp p => compile_stat p
  | Lstat p => compile_lstat p
  | Realpath p => compile_realpath p
  | ReadDir p => compile_read_dir p
  | ReadLink p => compile_read_link p
  | CopyFile old new => copy_file old new
  | Cp from to => cp from to
  | Rename old new | Link old new | SymlinkOp old new => both_outside op old new
  end.
End CompileOps.

(** ** Loading: [load_npm_vfs] *)

Section LoadVfs.
(** The stored tree, which may be null. *)
Context (from_slice : list Z -> option (option (list VfsEntry))).

Definition load_npm_vfs (root_dir_path : rstr) (vfs_data : option (list Z)) : result VfsRoot :=
  let! dir :=
    match vfs_data with
    | Some data => match from_slice data with Some dir => Ok dir | None => Throw (Error "serde_json") end
    | None => Ok None
    end in
  match dir with
  | Some entries => let! _ := unwrap (file_name root_dir_path) in Ok (Root entries root_dir_path)
  | None => Ok (Root [] root_dir_path)
  end.
End LoadVfs.

(** ** Theorems *)

(** The operations that change files or the process. *)
Definition changes (op : fs_op) : bool :=
  match op with
  | Cwd | TmpDir | Open _ | StatOp _ | Lstat _ | Realpath _ | ReadDir _ | ReadLink _ => false
  | _ => true
  end.

(** The paths of an operation; the source of [Cp] is not looked at. *)
Definition guarded_paths (op : fs_op) : list rstr :=
  match op with
  | Cwd | TmpDir | Umask => []
  | Chdir p | Open p | Mkdir p | Chmod p | Chown p | Remove p | StatOp p | Lstat p | Realpath p | ReadDir p | ReadLink p | Truncate p | Utime p => [p]
  | CopyFile old new | Rename old new | Link old new | SymlinkOp old new => [old; new]
  | Cp _ to => [to]
  end.

Section Theorems.
Context (fuel : nat).

(** What a path leads to in the virtual file system: an entry of its tree, with
    a link at the end followed or not. *)
Definition found (s : StaticFs) (p : rstr) (e : VfsEntry) (c : list rstr) : Prop :=
  exists q, strip_prefix p (vfs_root_path (vfs s)) = Some q /\ follows (vfs s) q c e /\ entry_at (top (vfs s)) c = Some e.
Definition found_no_follow (s : StaticFs) (p : rstr) (e : VfsEntry) : Prop :=
  exists q c, strip_prefix p (vfs_root_path (vfs s)) = Some q /\ leads (vfs s) q c e /\ entry_at (top (vfs s)) c = Some e.

Lemma vfs_found s p path e :
  wf_entries (vfs_dir (vfs s)) -> is_absolute (vfs_root_path (vfs s)) = true -> find_entry (vfs s) fuel p = Ok (path, e) ->
  exists c, found s p e c /\ path = join (vfs s) c /\ is_path_within (vfs s) path = true.
Proof.
  intros Hw Ha Hf. destruct (find_entry_follows _ _ _ _ _ Hw Ha Hf) as (q & c & Hq & Hfol & He & _ & -> & Hin). exists c. split_and!; [|done..]. by exists q.
Qed.

Lemma vfs_found_no_follow s p path e :
  wf_entries (vfs_dir (vfs s)) -> find_entry_no_follow (vfs s) fuel p = Ok (path, e) -> found_no_follow s p e.
Proof. apply find_entry_no_follow_leads. Qed.

(** The paths that have to lie in the root of the virtual file system: all but
    those of static files, which are keys of a map. *)
Definition static_paths (s : StaticFs) (op : static_op) : list rstr :=
  match op with
  | Common op => guarded_paths op
  | ReadFile p => if is_valid_npm_package s p then [p] else []
  end.

(** What an operation may answer. *)
Definition answers (normalize_path : rstr -> rstr) (s : StaticFs) (op : static_op) (r : response) : Prop :=
  match op, r with
  | Common Cwd, APath q => q = []
  | Common (Open p), AFile o => pos o = 0%Z /\ exists c, found s p (File (file o)) c
  | Common (StatOp p), AStat x => exists c e, found s p e c /\ x = as_fs_stat e
  | Common (Lstat p), AStat x => exists e, found_no_follow s p e /\ x = as_fs_stat e
  | Common (Realpath p), APath q => is_path_within (vfs s) q = true /\ exists c e, found s p e c /\ q = join (vfs s) c
  | Common (ReadDir p), Entries l => exists c m es, found s p (Dir m es) c /\ l = fs_dir_entry <$> es
  | Common (ReadLink p), APath q => exists m dest, found_no_follow s p (Symlink m dest) /\ q = join (vfs s) dest
  | ReadFile p, Contents data =>
      if is_valid_npm_package s p then exists c f, found s p (File f) c /\ snd (read_to_end (Opened f 0)) = Ok data
      else static_files s !! normalize_path p = Some data
  | _, _ => False
  end.

Section Answers.
Context (normalize_path : rstr -> rstr) (s : StaticFs) (Hw : wf_entries (vfs_dir (vfs s))) (Ha : is_absolute (vfs_root_path (vfs s)) = true).
Implicit Types (r : response).

Lemma answers_open p r : vfs_open (vfs s) fuel p = Ok r -> answers normalize_path s (Common (Open p)) r.
Proof.
  unfold vfs_open, open_file, file_entry. destruct (find_entry (vfs s) fuel p) as [[path e]|] eqn:Hf; cbn [rbind]; [|done].
  destruct (vfs_found s p path e Hw Ha Hf) as (c & Hc & _). destruct e; cbn [rbind]; [done| |done]. intros [= <-]. split; [done|]. by exists c.
Qed.

Lemma answers_stat p r : vfs_stat (vfs s) fuel p = Ok r -> answers normalize_path s (Common (StatOp p)) r.
Proof.
  unfold vfs_stat, stat. destruct (find_entry (vfs s) fuel p) as [[path e]|] eqn:Hf; cbn [rbind]; [|done].
  destruct (vfs_found s p path e Hw Ha Hf) as (c & Hc & _). intros [= <-]. by exists c, e.
Qed.

Lemma answers_lstat p r : vfs_lstat (vfs s) fuel p = Ok r -> answers normalize_path s (Common (Lstat p)) r.
Proof.
  unfold vfs_lstat, lstat. destruct (find_entry_no_follow (vfs s) fuel p) as [[path e]|] eqn:Hf; cbn [rbind]; [|done].
  intros [= <-]. exists e. split; [|done]. by eapply vfs_found_no_follow.
Qed.

Lemma answers_realpath p r : vfs_realpath (vfs s) fuel p = Ok r -> answers normalize_path s (Common (Realpath p)) r.
Proof.
  unfold vfs_realpath, canonicalize. destruct (find_entry (vfs s) fuel p) as [[path e]|] eqn:Hf; cbn [rbind]; [|done].
  destruct (vfs_found s p path e Hw Ha Hf) as (c & Hc & -> & Hin). intros [= <-]. split; [done|]. by exists c, e.
Qed.

Lemma answers_read_dir p r : vfs_read_dir (vfs s) fuel p = Ok r -> answers normalize_path s (Common (ReadDir p)) r.
Proof.
  unfold vfs_read_dir, read_dir, dir_entry. destruct (find_entry (vfs s) fuel p) as [[path e]|] eqn:Hf; cbn [rbind]; [|done].
  destruct (vfs_found s p path e Hw Ha Hf) as (c & Hc & _). destruct e as [m es| |]; cbn [rbind]; [|done|done]. intros [= <-]. by exists c, m, es.
Qed.

Lemma answers_read_link p r : vfs_read_link (vfs s) fuel p = Ok r -> answers normalize_path s (Common (ReadLink p)) r.
Proof.
  unfold vfs_read_link, read_link. destruct (find_entry_no_follow (vfs s) fuel p) as [[path e]|] eqn:Hf; cbn [rbind]; [|done].
  destruct e as [| |m dest]; cbn [rbind]; [done|done|]. intros [= <-]. exists m, dest. split; [|done]. by eapply vfs_found_no_follow.
Qed.

Lemma answers_read_file p r : (let! bytes := read_file_sync normalize_path fuel s p in Ok (Contents bytes)) = Ok r -> answers normalize_path s (ReadFile p) r.
Proof.
  unfold read_file_sync. destruct (is_valid_npm_package s p) eqn:Hv.
  - unfold static_open, within. destruct (is_path_within (vfs s) p); cbn [rbind]; [|done].
    destruct (vfs_open (vfs s) fuel p) as [a|] eqn:Ho; cbn [rbind]; [|done]. pose proof (answers_open p a Ho) as H. destruct a; try done. cbn in H. destruct H as [Hp [c Hc]].
    destruct f as [f pos]. cbn in Hp. subst pos. destruct (snd (read_to_end (Opened f 0))) as [data|] eqn:Hd; cbn [rbind]; [|done].
    intros [= <-]. cbn [answers]. rewrite Hv. by exists c, f.
  - destruct (static_files s !! normalize_path p) as [res|] eqn:Hs; cbn [rbind]; [|done]. intros [= <-]. cbn [answers]. by rewrite Hv.
Qed.
End Answers.

(** C24: The file system of a deployed function can be read only, and shows
    nothing but its own tree and its static files.  For a sorted tree with an
    absolute root: every change is refused; so is every path outside of the
    root, except that [read_file] of a path that is not one of a package looks
    for the normalized path among the static files; and every answer says what
    an entry of the tree is to which the path leads: the file that is opened,
    the kind and size, the place inside the root, the entries of the directory,
    the target of the link, the bytes of the file; or gives the bytes of the
    static file of that name, or, for [cwd], the empty path. *)
Theorem static_fs_confined normalize_path s op :
  wf_entries (vfs_dir (vfs s)) -> is_absolute (vfs_root_path (vfs s)) = true ->
  (forall o, op = Common o -> changes o = true -> static_run normalize_path fuel s op = Throw NotSupported) /\
  (forall p, p ∈ static_paths s op -> is_path_within (vfs s) p = false -> static_run normalize_path fuel s op = Throw NotSupported) /\
  (forall r, static_run normalize_path fuel s op = Ok r -> answers normalize_path s op r).
Proof.
  intros Hw Ha. split_and!.
  - intros o -> Hc. by destruct o.
  - intros p Hp Hin. destruct op as [op|p'].
    + destruct op; cbn in Hp |- *; try done; [by apply elem_of_nil in Hp|..]; apply list_elem_of_singleton in Hp as ->; unfold static_open, static_stat, static_lstat, static_realpath, static_read_dir, static_read_link, within; by rewrite Hin.
    + cbn [static_paths] in Hp. cbn [static_run]. unfold read_file_sync. destruct (is_valid_npm_package s p'); [|by apply elem_of_nil in Hp].
      apply list_elem_of_singleton in Hp as ->. unfold static_open, within. by rewrite Hin.
  - intros r. destruct op as [op|p]; [destruct op|]; cbn [static_run]; unfold static_change, static_rename_link, static_truncate_utime; try done;
      unfold read_file_sync, static_open, static_stat, static_lstat, static_realpath, static_read_dir, static_read_link, within;
      try (destruct (is_path_within (vfs s) p) eqn:Hin; [|done]).
    + by intros [= <-].
    + by apply answers_open.
    + by apply answers_stat.
    + by apply answers_lstat.
    + by apply answers_realpath.
    + by apply answers_read_dir.
    + by apply answers_read_link.
    + by apply answers_read_file.
Qed.

(** with the virtual file system in front of the real one, the real one is
    never asked about a path inside the virtual one, and never told to write
    there; a file that is copied out is written with its bytes.  Only the source
    of a recursive copy is passed on unseen. *)
Theorem compile_fs_separates r op :
  match compile_run r fuel op with
  | ByReal op' => op' = op /\ forall p, p ∈ guarded_paths op -> is_path_within r p = false
  | WriteReal p bytes => is_path_within r p = false /\ exists old f, op = CopyFile old p /\ is_path_within r old = true /\ file_entry r fuel old = Ok f /\ read_file_all f = Ok bytes
  | ByVfs (Ok _) => changes op = false /\ forall p, p ∈ guarded_paths op -> is_path_within r p = true
  | ByVfs (Throw _) => exists p, p ∈ guarded_paths op /\ is_path_within r p = true
  end.
Proof.
  assert (forall p (k : route) (P : route -> Prop), (is_path_within r p = true -> P (ByVfs (Throw NotSupported))) -> (is_path_within r p = false -> P k) -> P (error_if_in_vfs r p k)) as Herr
    by (intros p k P H1 H2; unfold error_if_in_vfs; destruct (is_path_within r p); auto).
  assert (forall p answer, changes op = false -> guarded_paths op = [p] ->
    match read_through r op p answer with
    | ByReal op' => op' = op /\ forall p, p ∈ guarded_paths op -> is_path_within r p = false
    | WriteReal p bytes => is_path_within r p = false /\ exists old f, op = CopyFile old p /\ is_path_within r old = true /\ file_entry r fuel old = Ok f /\ read_file_all f = Ok bytes
    | ByVfs (Ok _) => changes op = false /\ forall p, p ∈ guarded_paths op -> is_path_within r p = true
    | ByVfs (Throw _) => exists p, p ∈ guarded_paths op /\ is_path_within r p = true
    end) as Hread.
  { intros p answer Hc Hp. rewrite Hp. unfold read_through. destruct (is_path_within r p) eqn:Hin; [destruct answer|].
    - split; [done|]. by intros q ->%list_elem_of_singleton.
    - exists p. split; [by left|done].
    - split; [done|]. by intros q ->%list_elem_of_singleton. }
  destruct op; cbn [compile_run]; try (by apply Hread); unfold copy_file, cp, both_outside, outside, compile_truncate_utime;
    try (split; [done|by intros q ?%elem_of_nil]); try (apply Herr; intros Hin; [eexists; split; [|exact Hin]; (by left) || (right; by left)|]).
  all: try (split; [done|]; intros q Hq; cbn in Hq; by apply list_elem_of_singleton in Hq as ->).
  all: try (apply Herr; intros Hin'; [eexists; split; [|exact Hin']; right; by left|split; [done|]; intros q; cbn; by intros [->| ->%list_elem_of_singleton]%elem_of_cons]).
  destruct (is_path_within r old) eqn:Hold; [|split; [done|]; intros q; cbn; by intros [->| ->%list_elem_of_singleton]%elem_of_cons].
  unfold copy_to_real_path. destruct (file_entry r fuel old) as [f|e] eqn:Hf; cbn [rbind]; [destruct (read_file_all f) eqn:Hr|].
  - split; [done|]. eauto 10.
  - exists old. split; [by left|done].
  - exists old. split; [by left|done].
Qed.
End Theorems.

(** C25: From the disk to the deployed function.  A regular file below a
    directory that was packed into the sorted tree of a builder is read with its
    bytes by the deployed function, wherever that mounts the tree: if the tree
    is read back from its stored form as it was, the mount has a name, and a
    snapshot of packages is there with the mount as its path, [read_file] of
    every path that is under the mount what the file's is under the root of the
    builder gives the bytes of the file. *)
Theorem static_reads_disk `{D : Disk} normalize_path from_slice fuel k s b d d' b' x data stored mount :
  wf_entries (root_entries b) -> canonicalize_path d = Ok d' -> add_dir_recursive fuel b d = Ok b' ->
  below_disk d' x -> fs_read x = Ok data ->
  from_slice stored = Some (Some (root_entries b')) -> load_npm_vfs from_slice mount (Some stored) = Ok (vfs s) ->
  has_snapshot s = true -> vfs_path s = mount ->
  exists q, strip_prefix x (root_path b') = Some q /\
    forall y, strip_prefix y mount = Some q -> read_file_sync normalize_path (S k) s y = Ok data.
Proof.
  intros Hw Hd Hadd Hx Hread Hst Hload Hsnap Hpath.
  destruct (disk_file_mounted b d d' fuel b' x data Hw Hd Hadd Hx Hread) as (_ & _ & q & f & Hq & Hc & Hl & Hf).
  exists q. split; [done|]. intros y Hy. unfold load_npm_vfs in Hload. rewrite Hst in Hload. cbn [rbind] in Hload.
  destruct (file_name mount) as [n|]; cbn [unwrap rbind] in Hload; [|done]. injection Hload as Hs.
  assert (path_starts_with y mount = true) as Hin by (unfold strip_prefix in Hy; by destruct (path_starts_with y mount)).
  unfold read_file_sync, is_valid_npm_package, static_open, within, is_path_within, vfs_open, open_file. rewrite Hsnap, Hpath, Hin, <- Hs. cbn [vfs_root_path].
  rewrite Hin, (Hf k mount y Hy). cbn [rbind]. by apply read_all_at_start.
Qed.

(** ** Examples and witnesses *)

Import DemoDisk.

(** The source of a recursive copy is looked for on the real disk, where it is not. *)
Example cp_source_unseen : compile_run root 2 (Cp (js "/nm/a") (js "/tmp/a")) = ByReal (Cp (js "/nm/a") (js "/tmp/a")) /\ is_path_within root (js "/nm/a") = true.
Proof. vm_compute. repeat split. Qed.

Definition demo_static : StaticFs := Static ∅ (js "/nm") true (Root (root_entries built) (root_path built)).

Lemma demo_wf : wf_entries (vfs_dir (vfs demo_static)).
Proof. apply (recursive_grows 3 empty (js "/nm") built empty_ok). exact built_ok. Qed.

Lemma static_fs_confined_witness :
  static_run (fun p => p) 2 demo_static (Common (Remove (js "/nm/a/i.js"))) = Throw NotSupported
  /\ exists c f, found demo_static (js "/nm/a/i.js") (File f) c /\ snd (read_to_end (Opened f 0)) = Ok [1; 2; 3]%Z.
Proof.
  destruct (static_fs_confined 2 (fun p => p) demo_static (Common (Remove (js "/nm/a/i.js"))) demo_wf eq_refl) as [H _].
  destruct (static_fs_confined 2 (fun p => p) demo_static (ReadFile (js "/nm/a/i.js")) demo_wf eq_refl) as (_ & _ & H').
  split; [by apply (H (Remove (js "/nm/a/i.js")))|]. apply (H' (Contents [1; 2; 3]%Z)). vm_compute. reflexivity.
Defined.

(** The tree of [/nm], mounted where the function is deployed. *)
Definition deployed : StaticFs := Static ∅ (js "/tmp/x/npm") true (Root (root_entries built) (js "/tmp/x/npm")).

Lemma static_reads_disk_witness : read_file_sync (fun p => p) 2 deployed (js "/tmp/x/npm/a/i.js") = Ok [1; 2; 3]%Z.
Proof.
  destruct (static_reads_disk (fun p => p) (fun _ => Some (Some (root_entries built))) 3 1 deployed empty (js "/nm") (js "/nm") built (js "/nm/a/i.js") [1; 2; 3]%Z [] (js "/tmp/x/npm"))
    as (q & Hq & H); [apply empty_ok|reflexivity|exact built_ok| |reflexivity|reflexivity|vm_compute; reflexivity|reflexivity|reflexivity|].
  - eapply (below_sub _ _ (js "/nm/a")); [reflexivity|do 3 right; by left|]. eapply below_here; [reflexivity|by left].
  - apply H. vm_compute in Hq. injection Hq as <-. vm_compute. reflexivity.
Defined.
