(* ===== verification/Ipc.v ===== *)
(** * Messages between processes: src/crates/node/ops/ipc.rs

    Messages are JSON texts that end in a newline.  The reader of the pipe and
    the JSON libraries are the interfaces [AsyncBufRead] and [Json]: the first
    gives what it has buffered, or nothing yet, and is told how much of it was
    used; the second parses in place, so that it also says what it leaves in
    the bytes it was given. *)

From S2P Require Import Prelude.

Inductive poll (A : Type) := Pending | Ready (a : A).
Arguments Pending {A}.
Arguments Ready {A} a.

Class AsyncBufRead (R : Type) := {
  poll_fill_buf : R -> poll (result (list Z)) * R;
  consume : R -> nat -> R;
  (** A write to the first bytes of the buffer, through the slice of it. *)
  overwrite : R -> list Z -> R
}.

Class Json := {
  value : Type;
  Null : value;
  (** [serde_json::to_writer]. *)
  to_writer : value -> result (list Z);
  (** [simd_json::from_slice], and the slice afterwards. *)
  from_slice : list Z -> result value * list Z
}.

Definition newline : Z := 10.

(** ** Searching a byte *)

(** [haystack.iter().position(|&b| b == needle)]. *)
Fixpoint position (needle : Z) (haystack : list Z) : option nat :=
  match haystack with
  | [] => None
  | b :: haystack => if b =? needle then Some O else S <$> position needle haystack
  end.

(** What [memchr] is but on aarch64. *)
Definition memchr (needle : Z) (haystack : list Z) : option nat := position needle haystack.

Module Neon.
(** Pointers are addresses of 64 bits; [str.as_ptr()] is [start]. *)
Definition wrapping_add (ptr n : Z) : Z := (ptr + n) mod 2 ^ 64.

Section Memchr.
Context (str : list Z) (start : Z) (c : Z).

Definition deref (ptr : Z) : Z := default 0 (str !! Z.to_nat (ptr - start)).
Definition index (ptr : Z) : nat := Z.to_nat (ptr - start).

(** The loops that look at one byte at a time, up to an aligned address or up
    to the end; [inr] is where the pointer is then. *)
Fixpoint bytes_loop (aligned : bool) (fuel : nat) (end_ ptr : Z) : option (nat + Z) :=
  match fuel with
  | O => None
  | S fuel =>
      if (ptr <? end_) && negb (aligned && (Z.land ptr 15 =? 0)) then
        if deref ptr =? c then Some (inl (index ptr)) else bytes_loop aligned fuel end_ (wrapping_add ptr 1)
      else Some (inr ptr)
  end.

(** [vld1q_u8], and [vceqq_u8] with the byte in every lane: all ones or zero. *)
Definition load (ptr : Z) : list Z := (fun i => deref (ptr + Z.of_nat i)) <$> seq 0 16.
Definition compare_lanes (chunk : list Z) : list Z := (fun b => if b =? c then 255 else 0) <$> chunk.

(** A lane of 64 bits: eight bytes, the first the least significant. *)
Definition lane (n : nat) (v : list Z) : Z := foldr (fun b acc => b + 256 * acc) 0 (take 8 (drop (8 * n) v)).

Fixpoint trailing_zeros (n : nat) (x : Z) : Z :=
  match n with O => 0 | S n => if Z.odd x then 0 else 1 + trailing_zeros n (Z.div2 x) end.

(** Sixteen bytes at a time. *)
Fixpoint chunk_loop (fuel : nat) (end_ ptr : Z) : option (nat + Z) :=
  match fuel with
  | O => None
  | S fuel =>
      if wrapping_add ptr 16 <=? end_ then
        let comparison := compare_lanes (load ptr) in
        let result0 := lane 0 comparison in
        if negb (result0 =? 0) then Some (inl (index ptr + Z.to_nat (trailing_zeros 64 result0 / 8))%nat)
        else
          let result1 := lane 1 comparison in
          if negb (result1 =? 0) then Some (inl (index ptr + 8 + Z.to_nat (trailing_zeros 64 result1 / 8))%nat)
          else chunk_loop fuel end_ (wrapping_add ptr 16)
      else Some (inr ptr)
  end.

(** [neon_memchr] of the whole haystack; [Some None] says that it is not there. *)
Definition neon_memchr : option (option nat) :=
  let end_ := wrapping_add start (Z.of_nat (length str)) in
  let fuel := S (length str) in
  match bytes_loop true fuel end_ start with
  | None => None
  | Some (inl i) => Some (Some i)
  | Some (inr ptr) =>
      match chunk_loop fuel end_ ptr with
      | None => None
      | Some (inl i) => Some (Some i)
      | Some (inr ptr) =>
          match bytes_loop false fuel end_ ptr with
          | None => None
          | Some (inl i) => Some (Some i)
          | Some (inr _) => Some None
          end
      end
  end.
End Memchr.
End Neon.

(** ** The stream *)

Section Ipc.
Context {R : Type} `{!AsyncBufRead R} `{!Json}.

Record IpcJsonStream := IpcStream { pipe : R; buffer : list Z }.

(** [write_msg]: what is written to the pipe. *)
Definition write_msg (msg : value) : result (list Z) :=
  let! buf := to_writer msg in
  Ok (buf ++ [newline]).

(** The future of [read_msg_inner], with what it borrows. *)
Record ReadMsgInner := ReadMsg { reader : R; buf : list Z; json : option value; read : nat }.

Definition read_msg_inner (s : IpcJsonStream) : ReadMsgInner := ReadMsg (pipe s) (buffer s) None O.

(** The block that computes [(done, used)] from what is available. *)
Definition take_line (available : list Z) (st : ReadMsgInner) : result (bool * nat) * ReadMsgInner :=
  match memchr newline available with
  | Some i =>
      if (read st =? 0)%nat then
        let '(v, bytes) := from_slice (take (i + 1) available) in
        let r := overwrite (reader st) bytes in
        match v with
        | Ok v => (Ok (true, i + 1)%nat, ReadMsg r (buf st) (Some v) (read st))
        | Throw e => (Throw e, ReadMsg r (buf st) (json st) (read st))
        end
      else (Ok (true, i + 1)%nat, ReadMsg (reader st) (buf st ++ take (i + 1) available) (json st) (read st))
  | None => (Ok (false, length available), ReadMsg (reader st) (buf st ++ available) (json st) (read st))
  end.

(** The loop; [None] when the fuel is not enough. *)
Fixpoint read_msg_internal (fuel : nat) (st : ReadMsgInner) : option (poll (result nat) * ReadMsgInner) :=
  match fuel with
  | O => None
  | S fuel =>
      let '(available, r) := poll_fill_buf (reader st) in
      let st := ReadMsg r (buf st) (json st) (read st) in
      match available with
      | Pending => Some (Pending, st)
      | Ready (Throw e) => Some (Ready (Throw e), st)
      | Ready (Ok available) =>
          let '(line, st) := take_line available st in
          match line with
          | Throw e => Some (Ready (Throw e), st)
          | Ok (done_, used) =>
              let st := ReadMsg (consume (reader st) used) (buf st) (json st) (read st + used) in
              if done_ || (used =? 0)%nat then Some (Ready (Ok (read st)), ReadMsg (reader st) (buf st) (json st) O)
              else read_msg_internal fuel st
          end
      end
  end.

(** [.await]: the future is polled until it is ready. *)
Fixpoint await (polls fuel : nat) (st : ReadMsgInner) : option (result nat * ReadMsgInner) :=
  match polls with
  | O => None
  | S polls =>
      match read_msg_internal fuel st with
      | None => None
      | Some (Pending, st) => await polls fuel st
      | Some (Ready n, st) => Some (n, st)
      end
  end.

Definition read_msg (fuel : nat) (s : IpcJsonStream) : option (result value * IpcJsonStream) :=
  match await fuel fuel (read_msg_inner s) with
  | None => None
  | Some (Throw e, st) => Some (Throw e, IpcStream (reader st) (buf st))
  | Some (Ok nread, st) =>
      if (nread =? 0)%nat then Some (Ok Null, IpcStream (reader st) (buf st))
      else
        match json st with
        | Some v => Some (Ok v, IpcStream (reader st) [])
        | None =>
            let '(v, bytes) := from_slice (take nread (buf st)) in
            match v with
            | Ok v => Some (Ok v, IpcStream (reader st) [])
            | Throw e => Some (Throw e, IpcStream (reader st) (bytes ++ drop nread (buf st)))
            end
        end
  end.

(** A number of messages, one after the other. *)
Fixpoint read_msgs (fuel n : nat) (s : IpcJsonStream) : option (list (result value) * IpcJsonStream) :=
  match n with
  | O => Some ([], s)
  | S n =>
      match read_msg fuel s with
      | None => None
      | Some (v, s) => match read_msgs fuel n s with Some (vs, s) => Some (v :: vs, s) | None => None end
      end
  end.

Fixpoint write_msgs (msgs : list value) : result (list Z) :=
  match msgs with
  | [] => Ok []
  | m :: msgs => let! a := write_msg m in let! b := write_msgs msgs in Ok (a ++ b)
  end.
End Ipc.

(** ** The search with vector instructions *)

Lemma position_app c l l' :
  position c (l ++ l') = match position c l with Some j => Some j | None => (fun j => length l + j)%nat <$> position c l' end.
Proof.
  induction l as [|b l IH]; cbn [app position length]; [by destruct (position c l')|].
  destruct (b =? c); [done|]. rewrite IH. destruct (position c l); [done|]. by destruct (position c l').
Qed.

Lemma position_None c l : position c l = None <-> c ∉ l.
Proof.
  induction l as [|b l IH]; cbn [position]; [split; [by intros _ ?%not_elem_of_nil|done]|].
  rewrite not_elem_of_cons. destruct (Z.eqb_spec b c) as [->|N]; [split; [done|by intros []]|].
  destruct (position c l); cbn; split; try done; [|naive_solver]. intros [_ H]. by apply IH in H.
Qed.

Section Vector.
Import Neon.
Context (str : list Z) (start c : Z).

#[local] Abbreviation n := (length str).

(** Where the byte is from an index on. *)
Definition from (i : nat) : option nat := (fun j => i + j)%nat <$> position c (drop i str).

Lemma from_0 : from 0 = position c str.
Proof. unfold from. rewrite drop_0. by destruct (position c str). Qed.

Lemma from_end : from n = None.
Proof. unfold from. by rewrite drop_all. Qed.

(** What is found when the next bytes are looked at. *)
Lemma from_block i m :
  (i + m <= n)%nat ->
  from i = match position c (take m (drop i str)) with Some j => Some (i + j)%nat | None => from (i + m) end.
Proof.
  intros L. unfold from at 1. rewrite <- (take_drop m (drop i str)) at 1. rewrite position_app.
  destruct (position c (take m (drop i str))) as [j|]; [done|]. unfold from. rewrite drop_drop, length_take, length_drop.
  rewrite Nat.min_l by lia. destruct (position c (drop (i + m) str)); cbn; [|done]. f_equal. lia.
Qed.

Definition at_ (i : nat) : Z := start + Z.of_nat i.

(** A result of a loop that starts at an index: the byte, or an index up to
    which it is not. *)
Definition finds (i : nat) (r : nat + Z) : Prop :=
  match r with
  | inl j => from i = Some j
  | inr p => exists k, p = at_ k /\ (i <= k <= n)%nat /\ from i = from k
  end.

Lemma finds_trans i k r : (i <= k)%nat -> from i = from k -> finds k r -> finds i r.
Proof.
  intros L E. destruct r as [j|p]; cbn; [by rewrite E|]. intros (k' & -> & L' & E'). exists k'.
  split_and!; [done|lia|lia|congruence].
Qed.

Context (Hs : 0 <= start) (Ht : start + Z.of_nat n + 16 < 2 ^ 64).

Lemma index_at i : index start (at_ i) = i.
Proof. unfold index, at_. lia. Qed.

Lemma add_at i m : (i <= n)%nat -> (m <= 16)%nat -> wrapping_add (at_ i) (Z.of_nat m) = at_ (i + m).
Proof. intros L M. unfold wrapping_add, at_ in *. rewrite Z.mod_small; lia. Qed.

Lemma end_at : wrapping_add start (Z.of_nat n) = at_ n.
Proof. unfold wrapping_add, at_. rewrite Z.mod_small; lia. Qed.

Lemma bytes_loop_finds aligned fuel i :
  (i <= n)%nat -> (n - i < fuel)%nat ->
  exists r, bytes_loop str start c aligned fuel (at_ n) (at_ i) = Some r /\ finds i r
            /\ (aligned = false -> r <> inr (at_ n) -> exists j, r = inl j).
Proof.
  revert i. induction fuel as [|fuel IH]; intros i L F; [lia|]. cbn [bytes_loop].
  destruct (Z.ltb_spec (at_ i) (at_ n)) as [Li|Li]; cbn [andb].
  2: { exists (inr (at_ i)). split_and!; [done|by exists i|]. intros _ []. f_equal. unfold at_ in *. lia. }
  assert (i < n)%nat as Ln by (unfold at_ in Li; lia).
  destruct (lookup_lt_is_Some_2 str i Ln) as [b Eb].
  assert (from i = if b =? c then Some i else from (S i)) as Ef.
  { rewrite (from_block i 1) by lia. rewrite (drop_S _ _ _ Eb). cbn [take position firstn].
    destruct (b =? c); cbn; [f_equal; lia|]. by rewrite Nat.add_1_r. }
  destruct (negb _) eqn:Ea.
  - unfold deref. change (Z.to_nat (at_ i - start)) with (index start (at_ i)). rewrite index_at, Eb. cbn [default from_option id].
    destruct (b =? c) eqn:Ec.
    + exists (inl i). split_and!; [done|by cbn; rewrite Ef|]. intros _ _. by eexists.
    + change 1 with (Z.of_nat 1). rewrite add_at, Nat.add_1_r by lia. destruct (IH (S i)) as (r & -> & Hr & Ha); [lia|lia|].
      exists r. split_and!; [done| |done]. by apply (finds_trans i (S i)); [lia|..].
  - exists (inr (at_ i)). split_and!; [done|by exists i|]. intros ->. done.
Qed.

(** Eight lanes of a byte, compared. *)
Lemma lane_finds x0 x1 x2 x3 x4 x5 x6 x7 l :
  let r := lane 0 (compare_lanes c (x0 :: x1 :: x2 :: x3 :: x4 :: x5 :: x6 :: x7 :: l)) in
  position c [x0; x1; x2; x3; x4; x5; x6; x7] = if r =? 0 then None else Some (Z.to_nat (trailing_zeros 64 r / 8)).
Proof.
  unfold lane, compare_lanes. cbn [Nat.mul drop fmap list_fmap take position firstn skipn].
  destruct (x0 =? c), (x1 =? c), (x2 =? c), (x3 =? c), (x4 =? c), (x5 =? c), (x6 =? c), (x7 =? c); vm_compute; reflexivity.
Qed.

Lemma lane_next l : (8 <= length l)%nat -> lane 1 (compare_lanes c l) = lane 0 (compare_lanes c (drop 8 l)).
Proof.
  intros L. unfold lane, compare_lanes. rewrite <- !fmap_drop, drop_drop. done.
Qed.

Lemma load_at i : (i + 16 <= n)%nat -> load str start (at_ i) = take 16 (drop i str).
Proof.
  intros L. apply list_eq. intros j. unfold load. rewrite list_lookup_fmap. destruct (decide (j < 16)%nat) as [Lj|Lj].
  - rewrite lookup_seq_lt by done. rewrite lookup_take_lt by done. rewrite lookup_drop. cbn [fmap option_fmap option_map].
    unfold deref. replace (Z.to_nat (at_ i + Z.of_nat (0 + j) - start)) with (i + j)%nat by (unfold at_; lia).
    destruct (str !! (i + j)%nat) eqn:E; [done|]. apply lookup_ge_None in E. lia.
  - rewrite lookup_seq_ge by lia. rewrite lookup_take_ge by lia. done.
Qed.

(** Half a block. *)
Lemma half_finds i m :
  (i + 8 <= n)%nat -> (8 <= m)%nat ->
  let r := lane 0 (compare_lanes c (take m (drop i str))) in
  from i = if r =? 0 then from (i + 8) else Some (i + Z.to_nat (trailing_zeros 64 r / 8))%nat.
Proof.
  intros L M. cbv zeta. rewrite (from_block i 8) by done.
  assert (8 <= length (drop i str))%nat as Ll by (rewrite length_drop; lia).
  destruct (drop i str) as [|x0 [|x1 [|x2 [|x3 [|x4 [|x5 [|x6 [|x7 l]]]]]]]]; cbn [length] in Ll; try lia.
  do 8 (destruct m as [|m]; [lia|]). cbn [take firstn]. rewrite take_0, (lane_finds x0 x1 x2 x3 x4 x5 x6 x7 (take m l)).
  by destruct (lane 0 _ =? 0).
Qed.

Lemma chunk_loop_finds fuel i :
  (i <= n)%nat -> (n - i < fuel)%nat -> exists r, chunk_loop str start c fuel (at_ n) (at_ i) = Some r /\ finds i r.
Proof.
  revert i. induction fuel as [|fuel IH]; intros i L F; [lia|]. cbn [chunk_loop].
  change 16 with (Z.of_nat 16). rewrite add_at by lia. destruct (Z.leb_spec (at_ (i + 16)) (at_ n)) as [Li|Li].
  2: { exists (inr (at_ i)). split; [done|]. by exists i. }
  assert (i + 16 <= n)%nat as Ln by (unfold at_ in Li; lia). rewrite load_at, index_at by done.
  pose proof (half_finds i 16 ltac:(lia) ltac:(lia)) as H0. cbv zeta in H0. destruct (lane 0 _ =? 0); cbn [negb].
  2: { eexists. by split. }
  rewrite lane_next by (rewrite length_take, length_drop; lia).
  pose proof (half_finds (i + 8) 8 ltac:(lia) ltac:(lia)) as H1. cbv zeta in H1.
  replace (drop 8 (take 16 (drop i str))) with (take 8 (drop (i + 8) str)) by (by rewrite skipn_firstn_comm, drop_drop).
  destruct (lane 0 _ =? 0); cbn [negb].
  2: { eexists. split; [done|]. cbn. by rewrite H0, H1. }
  destruct (IH (i + 16)%nat) as (r & -> & Hr); [lia|lia|]. exists r. split; [done|].
  apply (finds_trans i (i + 16)); [lia| |done]. rewrite H0, H1. f_equal. lia.
Qed.

(** C23: the search with vector instructions gives what the plain search
    gives, wherever the haystack starts in memory. *)
Theorem neon_memchr_correct : neon_memchr str start c = Some (memchr c str).
Proof.
  unfold neon_memchr, memchr. rewrite end_at, <- from_0.
  assert (start = at_ 0) as Es by (unfold at_; lia). rewrite Es at 2.
  destruct (bytes_loop_finds true (S n) 0) as (r & -> & Hr & _); [lia|lia|]. destruct r as [j|p]; [by cbn in Hr; rewrite Hr|].
  destruct Hr as (k & -> & Lk & ->).
  destruct (chunk_loop_finds (S n) k) as (r & -> & Hr); [lia|lia|]. destruct r as [j|p]; [by cbn in Hr; rewrite Hr|].
  destruct Hr as (k' & -> & Lk' & ->).
  destruct (bytes_loop_finds false (S n) k') as (r & -> & Hr & Ha); [lia|lia|]. destruct r as [j|p]; [by cbn in Hr; rewrite Hr|].
  destruct Hr as (k'' & -> & Lk'' & ->). destruct (decide (k'' = n)) as [->|N]; [by rewrite from_end|].
  destruct (Ha eq_refl) as [j ?]; [|done]. intros [= E]. unfold at_ in E. lia.
Qed.
End Vector.

(** ** What the interfaces promise *)

(** A pipe that does not fail: the bytes that are still to come, what of them
    is in the buffer, and how often it has nothing yet. *)
Class AsyncBufReadOk (R : Type) `{!AsyncBufRead R} := {
  content : R -> list Z;
  pending : R -> nat;
  filled : R -> list Z -> Prop;
  filled_prefix r b : filled r b -> b `prefix_of` content r;
  poll_fill_buf_ok r :
    let '(p, r') := poll_fill_buf r in
    content r' = content r
    /\ match p with
       | Pending => (pending r' < pending r)%nat
       | Ready (Ok b) => (pending r' <= pending r)%nat /\ filled r' b /\ (b = [] -> content r = [])
       | Ready (Throw _) => False
       end;
  poll_filled r b : filled r b -> b <> [] -> poll_fill_buf r = (Ready (Ok b), r);
  consume_ok r b k :
    filled r b -> (k <= length b)%nat -> content (consume r k) = drop k (content r) /\ (pending (consume r k) <= pending r)%nat;
  overwrite_ok r b bytes :
    filled r b -> (length bytes <= length b)%nat ->
    filled (overwrite r bytes) (bytes ++ drop (length bytes) b)
    /\ content (overwrite r bytes) = bytes ++ drop (length bytes) (content r) /\ pending (overwrite r bytes) = pending r
}.

(** A text without a newline is what is written, and it is read back; parsing
    works within the slice. *)
Class JsonOk `{!Json} := {
  to_writer_ok v b : to_writer v = Ok b -> (newline ∉ b) /\ (from_slice (b ++ [newline])).1 = Ok v;
  from_slice_length l : length (from_slice l).2 = length l
}.

Section Lines.
Context {R : Type} `{AR : !AsyncBufRead R} `{ARO : !AsyncBufReadOk R} `{J : !Json} `{JO : !JsonOk}.

Implicit Types (st : ReadMsgInner (R := R)) (s : IpcJsonStream (R := R)).

Lemma position_line line rest : newline ∉ line -> position newline (line ++ newline :: rest) = Some (length line).
Proof.
  intros N. rewrite position_app. apply position_None in N as ->. cbn. by rewrite Nat.add_0_r.
Qed.

(** A prefix of the content either holds the first line or lies within it. *)
Lemma prefix_line b line rest :
  newline ∉ line -> b `prefix_of` line ++ newline :: rest ->
  (exists b', b = line ++ newline :: b' /\ b' `prefix_of` rest) \/ (exists line', line = b ++ line' /\ newline ∉ b).
Proof.
  intros N [t E]. apply app_eq_inv in E as [(k & -> & ->)|(k & -> & Ek)].
  - right. exists k. split; [done|]. intros H. apply N, elem_of_app. by left.
  - destruct k as [|c k]; [right; exists []; by rewrite !app_nil_r|]. injection Ek as <- ->. left. exists k. split; [done|]. by eexists.
Qed.

(** While the line [line] is read, of which [got] was read before. *)
Record amid (got line rest : list Z) (st : ReadMsgInner (R := R)) : Prop := {
  am_buf : buf st = got;
  am_json : json st = None;
  am_read : read st = length got;
  am_content : content (reader st) = line ++ newline :: rest;
  am_line : newline ∉ line
}.

(** The line [l] is read: parsed at once, or copied. *)
Definition got_line (l rest : list Z) (n : result nat) (st : ReadMsgInner (R := R)) : Prop :=
  match n with
  | Ok n => n = length l /\ content (reader st) = rest
            /\ ((exists v, json st = Some v /\ (from_slice l).1 = Ok v /\ buf st = []) \/ (json st = None /\ buf st = l))
  | Throw e => (from_slice l).1 = Throw e /\ content (reader st) = (from_slice l).2 ++ rest /\ buf st = []
  end.

(** A line that is there as a whole. *)
Lemma read_whole got line rest b st r fuel :
  amid got line rest st -> content r = content (reader st) -> filled r (line ++ newline :: b) ->
  (pending r <= pending (reader st))%nat ->
  poll_fill_buf (reader st) = (Ready (Ok (line ++ newline :: b)), r) ->
  exists n st', read_msg_internal (S fuel) st = Some (Ready n, st') /\ (pending (reader st') <= pending (reader st))%nat
                /\ got_line (got ++ line ++ [newline]) rest n st'.
Proof.
  intros [Eb Ej Er Ec Nl] Pc Pf Pp E. cbn [read_msg_internal]. rewrite E. unfold take_line, memchr.
  rewrite position_line by done. cbn [read buf json reader].
  replace (take (length line + 1) (line ++ newline :: b)) with (line ++ [newline]).
  2: { rewrite take_app_ge by lia. by replace (length line + 1 - length line)%nat with 1%nat by lia. }
  set (l := line ++ [newline]). assert (length l = length line + 1)%nat as Ll by (unfold l; by rewrite length_app).
  assert (content r = l ++ rest) as Er' by (rewrite Pc, Ec; unfold l; by rewrite <- (assoc_L (++))).
  assert (length l <= length (line ++ newline :: b))%nat as Lb by (rewrite length_app; cbn; lia).
  rewrite Er. destruct (Nat.eqb_spec (length got) 0) as [Z|Z].
  - assert (got = []) as -> by (by destruct got). cbn [app].
    destruct (from_slice l) as [v bytes] eqn:Es. pose proof (from_slice_length l) as Lf. rewrite Es in Lf. cbn in Lf.
    destruct (overwrite_ok r _ bytes Pf) as (Of & Oc & Op); [lia|]. rewrite Er', Lf, drop_app_length in Oc.
    destruct v as [v|e].
    + destruct (consume_ok _ _ (length line + 1) Of) as [Cc Cp]; [rewrite length_app; lia|].
      rewrite Oc, <- Ll, <- Lf, drop_app_length in Cc. eexists _, _. split; [done|]. split; [cbn; lia|].
      cbn. rewrite <- Ll. split_and!; [done|by rewrite <- Lf|]. left. exists v. split_and!; [done|by rewrite Es|done].
    + eexists _, _. split; [done|]. split; [cbn; lia|]. cbn. by rewrite Es.
  - destruct (consume_ok r _ (length line + 1) Pf) as [Cc Cp]; [lia|]. rewrite Er', <- Ll, drop_app_length in Cc.
    eexists _, _. split; [done|]. split; [cbn; lia|]. cbn. split_and!; [rewrite length_app; lia|by rewrite <- Ll|]. right. by rewrite Eb.
Qed.

(** One poll of the future. *)
Lemma read_poll got line rest st fuel :
  amid got line rest st -> (length line < fuel)%nat ->
  exists x st', read_msg_internal fuel st = Some (x, st') /\ (pending (reader st') <= pending (reader st))%nat
  /\ match x with
     | Ready n => got_line (got ++ line ++ [newline]) rest n st'
     | Pending => (pending (reader st') < pending (reader st))%nat
                  /\ exists got' line', got' ++ line' = got ++ line /\ amid got' line' rest st'
     end.
Proof.
  revert got line st. induction fuel as [|fuel IH]; intros got line st A F; [lia|]. pose proof A as [Eb Ej Er Ec Nl].
  pose proof (poll_fill_buf_ok (reader st)) as P. destruct (poll_fill_buf (reader st)) as [[|[b|e]] r] eqn:E; destruct P as [Pc P]; [..|done].
  { cbn [read_msg_internal]. rewrite E. eexists _, _. split_and!; [done|cbn; lia|]. split; [done|]. exists got, line. split; [done|].
    constructor; try done. cbn. congruence. }
  destruct P as (Pp & Pf & Pe). pose proof (filled_prefix _ _ Pf) as Pre. rewrite Pc, Ec in Pre.
  destruct (prefix_line b line rest Nl Pre) as [(b' & -> & Hb')|(line' & -> & Nb)].
  - destruct (read_whole got line rest b' st r fuel A) as (n & st' & Ei & Hp & Hg); [done..|]. by exists (Ready n), st'.
  - cbn [read_msg_internal]. rewrite E. unfold take_line, memchr. apply position_None in Nb as ->. cbn [read buf json reader orb].
    assert (b <> []) as Nb by (intros ->; specialize (Pe eq_refl); rewrite Ec in Pe; by destruct line').
    destruct (Nat.eqb_spec (length b) 0) as [Z|Z]; [by destruct b|].
    destruct (consume_ok r b (length b) Pf) as [Cc Cp]; [done|].
    destruct (IH (got ++ b) line' (ReadMsg (consume r (length b)) (buf st ++ b) (json st) (read st + length b)))
      as (x & st' & Ex & Hp & Hx).
    + constructor; cbn; [by rewrite Eb|done|by rewrite Er, length_app| |].
      * by rewrite Cc, Pc, Ec, <- (assoc_L (++)), drop_app_length.
      * intros H. apply Nl. apply elem_of_app. by right.
    + destruct b; [done|]. rewrite length_app in F. cbn in F. lia.
    + exists x, st'. cbn in Hp. split_and!; [done|lia|]. destruct x as [|n].
      * destruct Hx as [Hlt (g & l & El & Al)]. cbn in Hlt. split; [lia|]. exists g, l. split; [by rewrite El, <- (assoc_L (++))|done].
      * by rewrite <- !(assoc_L (++)) in Hx |- *.
Qed.

Lemma await_line polls got line rest st fuel :
  amid got line rest st -> (length (got ++ line) < fuel)%nat -> (pending (reader st) < polls)%nat ->
  exists n st', await polls fuel st = Some (n, st') /\ (pending (reader st') <= pending (reader st))%nat
                /\ got_line (got ++ line ++ [newline]) rest n st'.
Proof.
  revert got line st. induction polls as [|polls IH]; intros got line st A F P; [lia|]. cbn [await].
  destruct (read_poll got line rest st fuel A) as (x & st' & -> & Hp & Hx); [rewrite length_app in F; lia|].
  destruct x as [|n]; [|by exists n, st'].
  destruct Hx as [Hlt (g & l & El & Al)]. destruct (IH g l st' Al) as (n & st2 & -> & Hp2 & Hg); [by rewrite El|lia|].
  exists n, st2. split_and!; [done|lia|]. by rewrite (assoc_L (++)), El, <- (assoc_L (++)) in Hg.
Qed.

(** What is left behind by the read of a line [l]. *)
Definition left_behind (l rest : list Z) (s' : IpcJsonStream (R := R)) : Prop :=
  match from_slice l with
  | (Ok _, _) => buffer s' = [] /\ content (pipe s') = rest
  | (Throw _, bytes) =>
      (buffer s' = [] /\ content (pipe s') = bytes ++ rest) \/ (buffer s' = bytes /\ content (pipe s') = rest)
  end.

(** What [read_msg] gives for the next line, however the pipe hands it out. *)
Lemma read_msg_line line rest s fuel :
  buffer s = [] -> content (pipe s) = line ++ newline :: rest -> newline ∉ line ->
  (length line < fuel)%nat -> (pending (pipe s) < fuel)%nat ->
  exists s', read_msg fuel s = Some ((from_slice (line ++ [newline])).1, s') /\ (pending (pipe s') <= pending (pipe s))%nat
  /\ left_behind (line ++ [newline]) rest s'.
Proof.
  intros Eb Ec N F P.
  destruct (await_line fuel [] line rest (read_msg_inner s) fuel) as (n & st & E & Hp & Hg); [by constructor|done|done|].
  unfold read_msg. rewrite E. destruct n as [n|e]; cbn [app got_line] in Hg.
  - destruct Hg as (-> & Hc & Hj). destruct (Nat.eqb_spec (length (line ++ [newline])) 0) as [Z|_]; [rewrite length_app in Z; cbn in Z; lia|].
    destruct Hj as [(v & -> & Hv & Hb)|[-> ->]].
    + rewrite Hv. eexists. split_and!; [done|done|]. unfold left_behind. by destruct (from_slice _) as [[] ?].
    + rewrite take_ge by done. unfold left_behind. pose proof (from_slice_length (line ++ [newline])) as L.
      destruct (from_slice _) as [[v|e] bytes]; eexists; (split; [done|split; [done|]]); [done|].
      right. cbn [buffer pipe]. by rewrite drop_ge, app_nil_r.
  - destruct Hg as (He & Hc & Hb). rewrite He. eexists. split_and!; [done|done|]. unfold left_behind.
    destruct (from_slice _) as [[] ?]; [done|]. by left.
Qed.

(** A line that is in the buffer of the pipe as a whole is parsed there. *)
Lemma read_msg_whole line b s fuel :
  filled (pipe s) (line ++ newline :: b) -> newline ∉ line ->
  exists r, read_msg (S fuel) s = Some ((from_slice (line ++ [newline])).1, IpcStream r (if from_slice (line ++ [newline]) is (Ok _, _) then [] else buffer s)).
Proof.
  intros Pf N. unfold read_msg, read_msg_inner. cbn [await read_msg_internal reader buf json read].
  rewrite (poll_filled _ _ Pf) by (by destruct line). unfold take_line, memchr. rewrite position_line by done. cbn [read Nat.eqb].
  replace (take (length line + 1) (line ++ newline :: b)) with (line ++ [newline]).
  2: { rewrite take_app_ge by lia. by replace (length line + 1 - length line)%nat with 1%nat by lia. }
  destruct (from_slice _) as [[v|e] bytes]; cbn [reader buf json read fst orb]; [|by eexists].
  destruct (Nat.eqb_spec (0 + (length line + 1)) 0) as [Z|_]; [lia|]. by eexists.
Qed.

Lemma read_msg_end s fuel :
  content (pipe s) = [] -> (0 < fuel)%nat -> (pending (pipe s) < fuel)%nat ->
  exists s', read_msg fuel s = Some (Ok Null, s').
Proof.
  intros Ec F. unfold read_msg. assert (forall polls st, content (reader st) = [] -> read st = O -> (pending (reader st) < polls)%nat ->
    exists st', await polls fuel st = Some (Ok O, st')) as H.
  { induction polls as [|polls IH]; intros st Es Er P; [lia|]. cbn [await]. destruct fuel as [|fuel]; [lia|]. cbn [read_msg_internal].
    pose proof (poll_fill_buf_ok (reader st)) as Q. destruct (poll_fill_buf (reader st)) as [[|[b|e]] r] eqn:E; destruct Q as [Qc Q]; [..|done].
    - apply IH; cbn; [congruence|done|lia].
    - destruct Q as (_ & Qf & _). apply filled_prefix in Qf. rewrite Qc, Es in Qf. destruct Qf as [t Ht].
      symmetry in Ht. apply app_eq_nil in Ht as [-> _]. eexists. cbn. by rewrite Er. }
  intros P. destruct (H fuel (read_msg_inner s)) as [st' ->]; [done..|]. by eexists.
Qed.

(** C22: what is written is read.  The messages that were written to a pipe are
    read from it in their order, and after the last one the end, whatever the
    pieces are in which the pipe hands the bytes out. *)
Theorem messages_roundtrip msgs bytes s fuel :
  write_msgs msgs = Ok bytes -> content (pipe s) = bytes -> buffer s = [] ->
  (length bytes + pending (pipe s) < fuel)%nat ->
  exists s', read_msgs fuel (length msgs + 1) s = Some ((Ok <$> msgs) ++ [Ok Null], s').
Proof.
  revert bytes s. induction msgs as [|m msgs IH]; intros bytes s W Ec Eb F; cbn [length Nat.add read_msgs fmap list_fmap app].
  - cbn in W. injection W as <-. destruct (read_msg_end s fuel) as [s' ->]; [done|lia|lia|]. by eexists.
  - cbn [write_msgs] in W. unfold write_msg in W. destruct (to_writer m) as [b|] eqn:Em; [|done]. cbn [rbind] in W.
    destruct (write_msgs msgs) as [rest|] eqn:Er; [|done]. cbn [rbind] in W. injection W as <-.
    destruct (to_writer_ok m b Em) as [N P]. rewrite !length_app in F. cbn in F.
    destruct (read_msg_line b rest s fuel) as (s1 & E1 & Hp & H1); [done|by rewrite Ec, <- (assoc_L (++))|done|lia|lia|].
    assert (buffer s1 = [] /\ content (pipe s1) = rest) as [Eb1 Ec1] by (unfold left_behind in H1; by destruct (from_slice _) as [[] ?]). rewrite E1, P. destruct (IH rest s1) as [s2 E2]; [done|done|done|lia|].
    rewrite E2. by exists s2.
Qed.

(** A line that does not parse is not left behind.  For a reader whose own
    buffer is empty, a pipe whose next line does not parse, and enough fuel:
    [read_msg] fails with the error of the parser, and what the parser made of
    the line, which it rewrites in place, is still there: in the pipe, before
    what comes next, and always so if the whole line is in the buffer of the
    pipe; or in the buffer of the reader, where the next message that comes in
    pieces is appended to it. *)
Theorem bad_line_kept line rest e s fuel :
  buffer s = [] -> content (pipe s) = line ++ newline :: rest -> newline ∉ line ->
  (from_slice (line ++ [newline])).1 = Throw e ->
  (length line < fuel)%nat -> (pending (pipe s) < fuel)%nat ->
  exists s', read_msg fuel s = Some (Throw e, s')
  /\ let bytes := (from_slice (line ++ [newline])).2 in
     ((buffer s' = [] /\ content (pipe s') = bytes ++ rest) \/ (buffer s' = bytes /\ content (pipe s') = rest))
     /\ (forall b, filled (pipe s) (line ++ newline :: b) -> buffer s' = [] /\ content (pipe s') = bytes ++ rest).
Proof.
  intros Eb Ec N Es F P. destruct (read_msg_line line rest s fuel) as (s' & E & _ & L); [done..|].
  exists s'. rewrite E, Es. split; [done|]. unfold left_behind in L.
  pose proof (from_slice_length (line ++ [newline])) as Ll.
  destruct (from_slice (line ++ [newline])) as [[v|e'] bytes] eqn:Ef; [done|]. cbn zeta beta iota delta [fst snd] in *.
  split; [done|]. intros b Pf. destruct fuel as [|fuel]; [lia|].
  destruct (read_msg_whole line b s fuel Pf N) as [r Er]. rewrite Er, Ef in E. cbn [fst] in E. injection E as <-.
  cbn [buffer pipe] in *. destruct L as [L|[L _]]; [done|]. rewrite L in Eb. subst bytes. rewrite length_app in Ll. cbn in Ll. lia.
Qed.
End Lines.

(** ** A pipe and messages *)

Module DemoIpc.
(** A reader with a buffer: what it holds, and what the pipe gives next, where
    [None] is nothing yet. *)
Record script := Script { held : list Z; events : list (option (list Z)) }.

Fixpoint next (l : list (option (list Z))) : poll (result (list Z)) * script :=
  match l with
  | [] => (Ready (Ok []), Script [] [])
  | None :: l => (Pending, Script [] l)
  | Some [] :: l => next l
  | Some b :: l => (Ready (Ok b), Script b l)
  end.

#[export] Instance script_read : AsyncBufRead script := {
  poll_fill_buf r := match held r with [] => next (events r) | b => (Ready (Ok b), r) end;
  consume r k := Script (drop k (held r)) (events r);
  overwrite r bytes := Script (bytes ++ drop (length bytes) (held r)) (events r)
}.

Definition come (l : list (option (list Z))) : list Z := concat (omap id l).
Definition nothing (l : list (option (list Z))) : nat := length (filter (eq None) l).

Lemma script_next_ok l :
  let '(p, r) := next l in
  held r ++ come (events r) = come l
  /\ match p with
     | Pending => (nothing (events r) < nothing l)%nat
     | Ready (Ok b) => (nothing (events r) <= nothing l)%nat /\ held r = b /\ (b = [] -> come l = [])
     | Ready (Throw _) => False
     end.
Proof.
  induction l as [|[[|c b]|] l IH]; cbn [next]; [done| | |].
  - unfold come, nothing in *. cbn [omap list_omap id concat app]. rewrite filter_cons_False by done. exact IH.
  - unfold nothing. rewrite filter_cons_False by done. done.
  - unfold nothing. rewrite filter_cons_True by done. cbn. split; [done|lia].
Qed.

#[export] Instance script_ok : AsyncBufReadOk script.
Proof.
  refine {| content r := held r ++ come (events r); pending r := nothing (events r); filled r b := held r = b |}.
  - intros r b <-. by eexists.
  - intros r. cbn [poll_fill_buf script_read]. destruct (held r) eqn:E; [apply script_next_ok|]. rewrite E. done.
  - intros r b <- N. cbn. by destruct r as [[|] l].
  - intros r b k <- L. cbn. split; [by rewrite drop_app_le|done].
  - intros r b bytes <- L. cbn. split_and!; [done| |done]. rewrite drop_app_le by done. by rewrite (assoc_L (++)).
Defined.

(** Numbers in decimal, and null. *)
Definition digits (l : list Z) : bool := negb (str_eqb l []) && forallb (fun c => (48 <=? c) && (c <=? 57)) l.
Definition null_text : list Z := js "null".

#[export] Instance number_json : Json := {
  value := option (list Z);
  Null := None;
  to_writer v := match v with None => Ok null_text | Some l => if digits l then Ok l else Throw (Error "number") end;
  from_slice l :=
    let text := take (length l - 1) l in
    (if negb (str_eqb l (text ++ [newline])) then Throw (Error "syntax")
     else if str_eqb text null_text then Ok None else if digits text then Ok (Some text) else Throw (Error "syntax"), l)
}.

#[export] Instance number_json_ok : JsonOk.
Proof.
  assert (forall l : list Z, take (length (l ++ [newline]) - 1) (l ++ [newline]) = l) as H.
  { intros l. rewrite length_app. cbn. replace (length l + 1 - 1)%nat with (length l) by lia. apply take_app_length. }
  constructor; [|done]. intros v b E. cbn [from_slice number_json fst]. rewrite H, str_eqb_refl. cbn [negb].
  destruct v as [l|]; cbn in E; simplify_eq; [|by split; [apply position_None|]].
  destruct (digits l) eqn:D; simplify_eq. pose proof D as [_ A]%andb_prop. rewrite forallb_forall in A. split.
  - intros I%list_elem_of_In%A. discriminate I.
  - destruct (str_eqb b null_text) eqn:Eb; [|by rewrite D]. apply bool_decide_eq_true in Eb as ->. discriminate D.
Defined.

Definition stream (l : list (option string)) : IpcJsonStream := IpcStream (Script [] (option_map js <$> l)) [].
Definition nl : string := String (Ascii.ascii_of_nat 10) EmptyString.

(** A message in pieces, and two in one piece. *)
Definition pieces : IpcJsonStream := stream [Some "1"; None; Some ("2" ++ nl ++ "3")%string; None; None; Some nl; Some ("null" ++ nl ++ "4" ++ nl)%string].

Example pieces_read : fst <$> read_msgs 20 5 pieces = Some [Ok (Some (js "12")); Ok (Some (js "3")); Ok None; Ok (Some (js "4")); Ok None].
Proof. vm_compute. reflexivity. Qed.

(** After a line in pieces that does not parse, its bytes stay in the buffer
    and spoil the next message that comes in pieces. *)
Example stale_buffer :
  fst <$> read_msgs 20 2 (stream [Some "x"; Some nl; Some "12"; Some ("34" ++ nl)%string]) = Some [Throw (Error "syntax"); Throw (Error "syntax")].
Proof. vm_compute. reflexivity. Qed.

(** A null that was sent reads like the end. *)
Example null_is_end :
  fst <$> read_msgs 20 1 (stream [Some ("null" ++ nl ++ "1" ++ nl)%string]) = fst <$> read_msgs 20 1 (stream []).
Proof. vm_compute. reflexivity. Qed.
End DemoIpc.

(** ** Witnesses *)

Section Witnesses.
Import DemoIpc.

Lemma neon_memchr_correct_witness :
  Neon.neon_memchr (js "hello, what a long haystack for a needle") 4099 107 = Some (Some 26%nat).
Proof. rewrite neon_memchr_correct; [vm_compute; reflexivity|lia|vm_compute; reflexivity]. Defined.

Lemma messages_roundtrip_witness :
  exists s', read_msgs 20 5 pieces = Some (Ok <$> [Some (js "12"); Some (js "3"); None; Some (js "4")] ++ [None], s').
Proof.
  destruct (messages_roundtrip (J := number_json) [Some (js "12"); Some (js "3"); None; Some (js "4")] (content (pipe pieces)) pieces 20) as [s' E].
  - vm_compute. reflexivity.
  - reflexivity.
  - reflexivity.
  - vm_compute. lia.
  - exists s'. exact E.
Defined.

Definition bad : IpcJsonStream := IpcStream (Script (js ("x" ++ nl ++ "1" ++ nl)%string) []) [].

Lemma bad_line_kept_witness :
  exists s', read_msg 20 bad = Some (Throw (Error "syntax"), s') /\ content (pipe s') = js ("x" ++ nl ++ "1" ++ nl)%string.
Proof.
  destruct (bad_line_kept (J := number_json) (js "x") (js ("1" ++ nl)%string) (Error "syntax") bad 20) as (s' & E & _ & H).
  - reflexivity.
  - reflexivity.
  - apply position_None. reflexivity.
  - vm_compute. reflexivity.
  - vm_compute. lia.
  - vm_compute. lia.
  - exists s'. split; [exact E|]. destruct (H (js ("1" ++ nl)%string) eq_refl) as [_ Hc]. exact Hc.
Defined.
End Witnesses.
