(* ===== verification/WritableState.v ===== *)
(** * The state of a writable stream: lib/internal/streams/writable.js in _stream.mjs

    A stream is a machine.  What JavaScript runs between two calls into code of
    the program is cut into instructions ([instr]), one per place where the
    source calls such code or goes on after it; the program's code is the sink
    ([_write], [_writev], [_final], [_destroy]), the callbacks and the
    listeners, and each call into it can do anything a program can: use the
    stream again, report that a write is done, or return.  [konts] is the stack
    of what the stream has to go on with when those calls return, and [ticks]
    what was given to [process.nextTick].

    A stream without [_construct] and without a readable side; of what the
    program's code does, throwing is left out.  The array of buffered writes
    and the record of an [afterWrite] that waits are objects that several
    places hold, and have a store.  The last fields of the state are the
    history that the theorems speak of: the requests accepted and the chunks
    that reached the sink. *)

From S2P Require Import Prelude StreamBase.

(** A callback: [nop], a function of the program, or the closure that
    [clearBuffer] makes for the requests of an array from an index on. *)
Inductive cb := Nop | Fn (id : Z) | Each (from : nat) (array : nat).
#[global] Instance cb_eq_dec : EqDecision cb.
Proof. solve_decision. Defined.

Record request := Request { chunk : value; encoding : jsstr; callback : cb }.

Record options := Options {
  objectMode : bool;
  highWaterMark : Z;
  decodeStrings : bool;
  emitClose : bool;
  autoDestroy : bool;
  (** Which methods the program gives. *)
  has_writev : bool;
  has_final : bool
}.

(** What the stream still has to do, from a place in the source. *)
Inductive instr :=
| WriteReturns (report ret : bool)               (* writeOrBuffer, after [_write] *)
| ReturnFalse                                    (* write, after an error *)
| SyncFalse                                      (* doWrite, callFinal: the last line *)
| ClearLoop (array i : nat)                      (* clearBuffer: the condition of the loop *)
| ClearVectored                                  (* clearBuffer, after [_writev] *)
| Onwrite (er : option jserr)
| OnwriteScheduled (sync : bool) (c : cb)        (* onwrite, after clearBuffer *)
| OnwriteError (er : jserr) (c : cb)
| CallBack (c : cb) (er : option jserr)          (* the callback of a write *)
| CallFn (id : Z) (er : option jserr)            (* one that [end] or [destroy] was given *)
| EachFrom (n array : nat) (er : option jserr)   (* the loop of the closure *)
| AfterWrite (count : nat) (c : cb)
| Callbacks (count : nat) (c : cb)               (* afterWrite: the loop *)
| AfterCallbacks                                 (* afterWrite, after the loop *)
| ErrorBuffer
| ErrorLoop (n : nat)
| ErrorFinished (l : list Z)                     (* errorBuffer: its second loop *)
| EndWritten (err : option jserr) (c : option Z) (* end, after [_write] *)
| EndUncorked (err : option jserr) (c : option Z)
| Ended
| EndReturns (err : option jserr) (c : option Z)
| FinishMaybe (sync : bool)
| FinishWhenIdle (sync : bool)                   (* finishMaybe, after prefinish *)
| OnFinishReady                                  (* onFinish, after 'prefinish' *)
| OnFinishFailed (er : jserr)                    (* onFinish, after the callbacks: [state.sync] is read *)
| FinishedCallbacks (l : list Z) (er : option jserr)
| Finish
| FinishEmit
| FinishDestroy                                  (* finish, after 'finish' *)
| Destroy (er : option jserr) (c : option Z)
| Destroyed (er : option jserr)                  (* onDestroy, after the callback *)
| ErrorOrDestroy (er : jserr) (sync : bool)
| EmitError (er : jserr)
| EmitClose.

(** What [process.nextTick] is given. *)
Inductive tick :=
| TCallBack (c : cb) (er : jserr)
| TCallFn (id : Z) (er : option jserr)
| TOnwriteError (er : jserr) (c : cb)
| TAfterWrite (info : nat)
| TErrorBuffer
| TFinishMaybe
| TFinish
| TEmitErrorClose (er : jserr)
| TEmitClose
| TEmitError (er : jserr).

(** Code of the program: within the sink's [_write] or [_writev], or elsewhere. *)
Inductive context := InSink | InProgram.

(** What the program sees: events, a call of the callback of a write and of
    another one, what [write] returns and what is thrown. *)
Inductive event :=
| Emit (name : string)
| Written (id : Z) (er : option jserr)
| Called (id : Z) (er : option jserr)
| Returned (b : bool)
| Threw (er : jserr).

Record state := State {
  finalCalled : bool;
  needDrain : bool;
  ending : bool;
  ended : bool;
  finished : bool;
  destroyed : bool;
  defaultEncoding : jsstr;
  length_ : Z;
  writing : bool;
  corked : Z;
  sync : bool;
  bufferProcessing : bool;
  writecb : option cb;
  writelen : Z;
  (** The records of waiting [afterWrite]s and the arrays are in stores. *)
  afterWriteTickInfo : option nat;
  buffered : nat;
  bufferedIndex : nat;
  allBuffers : bool;
  allNoop : bool;
  pendingcb : Z;
  prefinished : bool;
  errorEmitted : bool;
  errored : option jserr;
  closed : bool;
  closeEmitted : bool;
  kOnFinished : list Z;
  arrays : list (list (option request));
  infos : list (nat * cb);
  ticks : list tick;
  konts : list (context * list instr);
  log : list event;
  (** The variables [called] of the closures that [_final] and [_destroy] get,
      and the callback that the latter holds. *)
  final_called : bool;
  destroy_called : bool;
  destroy_cb : option Z;
  (** History: the requests accepted, the chunks that reached the sink, and
      where in the array the first request is that did not. *)
  accepted : list request;
  sunk : list value;
  cursor : nat
}.

Definition set_finalCalled (v : bool) (s : state) : state := State v (needDrain s) (ending s) (ended s) (finished s) (destroyed s) (defaultEncoding s)
  (length_ s) (writing s) (corked s) (sync s) (bufferProcessing s) (writecb s) (writelen s) (afterWriteTickInfo s) (buffered s) (bufferedIndex s)
  (allBuffers s) (allNoop s) (pendingcb s) (prefinished s) (errorEmitted s) (errored s) (closed s) (closeEmitted s) (kOnFinished s) (arrays s) (infos
  s) (ticks s) (konts s) (log s) (final_called s) (destroy_called s) (destroy_cb s) (accepted s) (sunk s) (cursor s).
Definition set_needDrain (v : bool) (s : state) : state := State (finalCalled s) v (ending s) (ended s) (finished s) (destroyed s) (defaultEncoding s)
  (length_ s) (writing s) (corked s) (sync s) (bufferProcessing s) (writecb s) (writelen s) (afterWriteTickInfo s) (buffered s) (bufferedIndex s)
  (allBuffers s) (allNoop s) (pendingcb s) (prefinished s) (errorEmitted s) (errored s) (closed s) (closeEmitted s) (kOnFinished s) (arrays s) (infos
  s) (ticks s) (konts s) (log s) (final_called s) (destroy_called s) (destroy_cb s) (accepted s) (sunk s) (cursor s).
Definition set_ending (v : bool) (s : state) : state := State (finalCalled s) (needDrain s) v (ended s) (finished s) (destroyed s) (defaultEncoding s)
  (length_ s) (writing s) (corked s) (sync s) (bufferProcessing s) (writecb s) (writelen s) (afterWriteTickInfo s) (buffered s) (bufferedIndex s)
  (allBuffers s) (allNoop s) (pendingcb s) (prefinished s) (errorEmitted s) (errored s) (closed s) (closeEmitted s) (kOnFinished s) (arrays s) (infos
  s) (ticks s) (konts s) (log s) (final_called s) (destroy_called s) (destroy_cb s) (accepted s) (sunk s) (cursor s).
Definition set_ended (v : bool) (s : state) : state := State (finalCalled s) (needDrain s) (ending s) v (finished s) (destroyed s) (defaultEncoding s)
  (length_ s) (writing s) (corked s) (sync s) (bufferProcessing s) (writecb s) (writelen s) (afterWriteTickInfo s) (buffered s) (bufferedIndex s)
  (allBuffers s) (allNoop s) (pendingcb s) (prefinished s) (errorEmitted s) (errored s) (closed s) (closeEmitted s) (kOnFinished s) (arrays s) (infos
  s) (ticks s) (konts s) (log s) (final_called s) (destroy_called s) (destroy_cb s) (accepted s) (sunk s) (cursor s).
Definition set_finished (v : bool) (s : state) : state := State (finalCalled s) (needDrain s) (ending s) (ended s) v (destroyed s) (defaultEncoding s)
  (length_ s) (writing s) (corked s) (sync s) (bufferProcessing s) (writecb s) (writelen s) (afterWriteTickInfo s) (buffered s) (bufferedIndex s)
  (allBuffers s) (allNoop s) (pendingcb s) (prefinished s) (errorEmitted s) (errored s) (closed s) (closeEmitted s) (kOnFinished s) (arrays s) (infos
  s) (ticks s) (konts s) (log s) (final_called s) (destroy_called s) (destroy_cb s) (accepted s) (sunk s) (cursor s).
Definition set_destroyed (v : bool) (s : state) : state := State (finalCalled s) (needDrain s) (ending s) (ended s) (finished s) v (defaultEncoding s)
  (length_ s) (writing s) (corked s) (sync s) (bufferProcessing s) (writecb s) (writelen s) (afterWriteTickInfo s) (buffered s) (bufferedIndex s)
  (allBuffers s) (allNoop s) (pendingcb s) (prefinished s) (errorEmitted s) (errored s) (closed s) (closeEmitted s) (kOnFinished s) (arrays s) (infos
  s) (ticks s) (konts s) (log s) (final_called s) (destroy_called s) (destroy_cb s) (accepted s) (sunk s) (cursor s).
Definition set_defaultEncoding (v : jsstr) (s : state) : state := State (finalCalled s) (needDrain s) (ending s) (ended s) (finished s) (destroyed s)
  v (length_ s) (writing s) (corked s) (sync s) (bufferProcessing s) (writecb s) (writelen s) (afterWriteTickInfo s) (buffered s) (bufferedIndex s)
  (allBuffers s) (allNoop s) (pendingcb s) (prefinished s) (errorEmitted s) (errored s) (closed s) (closeEmitted s) (kOnFinished s) (arrays s) (infos
  s) (ticks s) (konts s) (log s) (final_called s) (destroy_called s) (destroy_cb s) (accepted s) (sunk s) (cursor s).
Definition set_length_ (v : Z) (s : state) : state := State (finalCalled s) (needDrain s) (ending s) (ended s) (finished s) (destroyed s)
  (defaultEncoding s) v (writing s) (corked s) (sync s) (bufferProcessing s) (writecb s) (writelen s) (afterWriteTickInfo s) (buffered s)
  (bufferedIndex s) (allBuffers s) (allNoop s) (pendingcb s) (prefinished s) (errorEmitted s) (errored s) (closed s) (closeEmitted s) (kOnFinished s)
  (arrays s) (infos s) (ticks s) (konts s) (log s) (final_called s) (destroy_called s) (destroy_cb s) (accepted s) (sunk s) (cursor s).
Definition set_writing (v : bool) (s : state) : state := State (finalCalled s) (needDrain s) (ending s) (ended s) (finished s) (destroyed s)
  (defaultEncoding s) (length_ s) v (corked s) (sync s) (bufferProcessing s) (writecb s) (writelen s) (afterWriteTickInfo s) (buffered s)
  (bufferedIndex s) (allBuffers s) (allNoop s) (pendingcb s) (prefinished s) (errorEmitted s) (errored s) (closed s) (closeEmitted s) (kOnFinished s)
  (arrays s) (infos s) (ticks s) (konts s) (log s) (final_called s) (destroy_called s) (destroy_cb s) (accepted s) (sunk s) (cursor s).
Definition set_corked (v : Z) (s : state) : state := State (finalCalled s) (needDrain s) (ending s) (ended s) (finished s) (destroyed s)
  (defaultEncoding s) (length_ s) (writing s) v (sync s) (bufferProcessing s) (writecb s) (writelen s) (afterWriteTickInfo s) (buffered s)
  (bufferedIndex s) (allBuffers s) (allNoop s) (pendingcb s) (prefinished s) (errorEmitted s) (errored s) (closed s) (closeEmitted s) (kOnFinished s)
  (arrays s) (infos s) (ticks s) (konts s) (log s) (final_called s) (destroy_called s) (destroy_cb s) (accepted s) (sunk s) (cursor s).
Definition set_sync (v : bool) (s : state) : state := State (finalCalled s) (needDrain s) (ending s) (ended s) (finished s) (destroyed s)
  (defaultEncoding s) (length_ s) (writing s) (corked s) v (bufferProcessing s) (writecb s) (writelen s) (afterWriteTickInfo s) (buffered s)
  (bufferedIndex s) (allBuffers s) (allNoop s) (pendingcb s) (prefinished s) (errorEmitted s) (errored s) (closed s) (closeEmitted s) (kOnFinished s)
  (arrays s) (infos s) (ticks s) (konts s) (log s) (final_called s) (destroy_called s) (destroy_cb s) (accepted s) (sunk s) (cursor s).
Definition set_bufferProcessing (v : bool) (s : state) : state := State (finalCalled s) (needDrain s) (ending s) (ended s) (finished s) (destroyed s)
  (defaultEncoding s) (length_ s) (writing s) (corked s) (sync s) v (writecb s) (writelen s) (afterWriteTickInfo s) (buffered s) (bufferedIndex s)
  (allBuffers s) (allNoop s) (pendingcb s) (prefinished s) (errorEmitted s) (errored s) (closed s) (closeEmitted s) (kOnFinished s) (arrays s) (infos
  s) (ticks s) (konts s) (log s) (final_called s) (destroy_called s) (destroy_cb s) (accepted s) (sunk s) (cursor s).
Definition set_writecb (v : option cb) (s : state) : state := State (finalCalled s) (needDrain s) (ending s) (ended s) (finished s) (destroyed s)
  (defaultEncoding s) (length_ s) (writing s) (corked s) (sync s) (bufferProcessing s) v (writelen s) (afterWriteTickInfo s) (buffered s)
  (bufferedIndex s) (allBuffers s) (allNoop s) (pendingcb s) (prefinished s) (errorEmitted s) (errored s) (closed s) (closeEmitted s) (kOnFinished s)
  (arrays s) (infos s) (ticks s) (konts s) (log s) (final_called s) (destroy_called s) (destroy_cb s) (accepted s) (sunk s) (cursor s).
Definition set_writelen (v : Z) (s : state) : state := State (finalCalled s) (needDrain s) (ending s) (ended s) (finished s) (destroyed s)
  (defaultEncoding s) (length_ s) (writing s) (corked s) (sync s) (bufferProcessing s) (writecb s) v (afterWriteTickInfo s) (buffered s)
  (bufferedIndex s) (allBuffers s) (allNoop s) (pendingcb s) (prefinished s) (errorEmitted s) (errored s) (closed s) (closeEmitted s) (kOnFinished s)
  (arrays s) (infos s) (ticks s) (konts s) (log s) (final_called s) (destroy_called s) (destroy_cb s) (accepted s) (sunk s) (cursor s).
Definition set_afterWriteTickInfo (v : option nat) (s : state) : state := State (finalCalled s) (needDrain s) (ending s) (ended s) (finished s)
  (destroyed s) (defaultEncoding s) (length_ s) (writing s) (corked s) (sync s) (bufferProcessing s) (writecb s) (writelen s) v (buffered s)
  (bufferedIndex s) (allBuffers s) (allNoop s) (pendingcb s) (prefinished s) (errorEmitted s) (errored s) (closed s) (closeEmitted s) (kOnFinished s)
  (arrays s) (infos s) (ticks s) (konts s) (log s) (final_called s) (destroy_called s) (destroy_cb s) (accepted s) (sunk s) (cursor s).
Definition set_buffered (v : nat) (s : state) : state := State (finalCalled s) (needDrain s) (ending s) (ended s) (finished s) (destroyed s)
  (defaultEncoding s) (length_ s) (writing s) (corked s) (sync s) (bufferProcessing s) (writecb s) (writelen s) (afterWriteTickInfo s) v
  (bufferedIndex s) (allBuffers s) (allNoop s) (pendingcb s) (prefinished s) (errorEmitted s) (errored s) (closed s) (closeEmitted s) (kOnFinished s)
  (arrays s) (infos s) (ticks s) (konts s) (log s) (final_called s) (destroy_called s) (destroy_cb s) (accepted s) (sunk s) (cursor s).
Definition set_bufferedIndex (v : nat) (s : state) : state := State (finalCalled s) (needDrain s) (ending s) (ended s) (finished s) (destroyed s)
  (defaultEncoding s) (length_ s) (writing s) (corked s) (sync s) (bufferProcessing s) (writecb s) (writelen s) (afterWriteTickInfo s) (buffered s) v
  (allBuffers s) (allNoop s) (pendingcb s) (prefinished s) (errorEmitted s) (errored s) (closed s) (closeEmitted s) (kOnFinished s) (arrays s) (infos
  s) (ticks s) (konts s) (log s) (final_called s) (destroy_called s) (destroy_cb s) (accepted s) (sunk s) (cursor s).
Definition set_allBuffers (v : bool) (s : state) : state := State (finalCalled s) (needDrain s) (ending s) (ended s) (finished s) (destroyed s)
  (defaultEncoding s) (length_ s) (writing s) (corked s) (sync s) (bufferProcessing s) (writecb s) (writelen s) (afterWriteTickInfo s) (buffered s)
  (bufferedIndex s) v (allNoop s) (pendingcb s) (prefinished s) (errorEmitted s) (errored s) (closed s) (closeEmitted s) (kOnFinished s) (arrays s)
  (infos s) (ticks s) (konts s) (log s) (final_called s) (destroy_called s) (destroy_cb s) (accepted s) (sunk s) (cursor s).
Definition set_allNoop (v : bool) (s : state) : state := State (finalCalled s) (needDrain s) (ending s) (ended s) (finished s) (destroyed s)
  (defaultEncoding s) (length_ s) (writing s) (corked s) (sync s) (bufferProcessing s) (writecb s) (writelen s) (afterWriteTickInfo s) (buffered s)
  (bufferedIndex s) (allBuffers s) v (pendingcb s) (prefinished s) (errorEmitted s) (errored s) (closed s) (closeEmitted s) (kOnFinished s) (arrays s)
  (infos s) (ticks s) (konts s) (log s) (final_called s) (destroy_called s) (destroy_cb s) (accepted s) (sunk s) (cursor s).
Definition set_pendingcb (v : Z) (s : state) : state := State (finalCalled s) (needDrain s) (ending s) (ended s) (finished s) (destroyed s)
  (defaultEncoding s) (length_ s) (writing s) (corked s) (sync s) (bufferProcessing s) (writecb s) (writelen s) (afterWriteTickInfo s) (buffered s)
  (bufferedIndex s) (allBuffers s) (allNoop s) v (prefinished s) (errorEmitted s) (errored s) (closed s) (closeEmitted s) (kOnFinished s) (arrays s)
  (infos s) (ticks s) (konts s) (log s) (final_called s) (destroy_called s) (destroy_cb s) (accepted s) (sunk s) (cursor s).
Definition set_prefinished (v : bool) (s : state) : state := State (finalCalled s) (needDrain s) (ending s) (ended s) (finished s) (destroyed s)
  (defaultEncoding s) (length_ s) (writing s) (corked s) (sync s) (bufferProcessing s) (writecb s) (writelen s) (afterWriteTickInfo s) (buffered s)
  (bufferedIndex s) (allBuffers s) (allNoop s) (pendingcb s) v (errorEmitted s) (errored s) (closed s) (closeEmitted s) (kOnFinished s) (arrays s)
  (infos s) (ticks s) (konts s) (log s) (final_called s) (destroy_called s) (destroy_cb s) (accepted s) (sunk s) (cursor s).
Definition set_errorEmitted (v : bool) (s : state) : state := State (finalCalled s) (needDrain s) (ending s) (ended s) (finished s) (destroyed s)
  (defaultEncoding s) (length_ s) (writing s) (corked s) (sync s) (bufferProcessing s) (writecb s) (writelen s) (afterWriteTickInfo s) (buffered s)
  (bufferedIndex s) (allBuffers s) (allNoop s) (pendingcb s) (prefinished s) v (errored s) (closed s) (closeEmitted s) (kOnFinished s) (arrays s)
  (infos s) (ticks s) (konts s) (log s) (final_called s) (destroy_called s) (destroy_cb s) (accepted s) (sunk s) (cursor s).
Definition set_errored (v : option jserr) (s : state) : state := State (finalCalled s) (needDrain s) (ending s) (ended s) (finished s) (destroyed s)
  (defaultEncoding s) (length_ s) (writing s) (corked s) (sync s) (bufferProcessing s) (writecb s) (writelen s) (afterWriteTickInfo s) (buffered s)
  (bufferedIndex s) (allBuffers s) (allNoop s) (pendingcb s) (prefinished s) (errorEmitted s) v (closed s) (closeEmitted s) (kOnFinished s) (arrays s)
  (infos s) (ticks s) (konts s) (log s) (final_called s) (destroy_called s) (destroy_cb s) (accepted s) (sunk s) (cursor s).
Definition set_closed (v : bool) (s : state) : state := State (finalCalled s) (needDrain s) (ending s) (ended s) (finished s) (destroyed s)
  (defaultEncoding s) (length_ s) (writing s) (corked s) (sync s) (bufferProcessing s) (writecb s) (writelen s) (afterWriteTickInfo s) (buffered s)
  (bufferedIndex s) (allBuffers s) (allNoop s) (pendingcb s) (prefinished s) (errorEmitted s) (errored s) v (closeEmitted s) (kOnFinished s) (arrays
  s) (infos s) (ticks s) (konts s) (log s) (final_called s) (destroy_called s) (destroy_cb s) (accepted s) (sunk s) (cursor s).
Definition set_closeEmitted (v : bool) (s : state) : state := State (finalCalled s) (needDrain s) (ending s) (ended s) (finished s) (destroyed s)
  (defaultEncoding s) (length_ s) (writing s) (corked s) (sync s) (bufferProcessing s) (writecb s) (writelen s) (afterWriteTickInfo s) (buffered s)
  (bufferedIndex s) (allBuffers s) (allNoop s) (pendingcb s) (prefinished s) (errorEmitted s) (errored s) (closed s) v (kOnFinished s) (arrays s)
  (infos s) (ticks s) (konts s) (log s) (final_called s) (destroy_called s) (destroy_cb s) (accepted s) (sunk s) (cursor s).
Definition set_kOnFinished (v : list Z) (s : state) : state := State (finalCalled s) (needDrain s) (ending s) (ended s) (finished s) (destroyed s)
  (defaultEncoding s) (length_ s) (writing s) (corked s) (sync s) (bufferProcessing s) (writecb s) (writelen s) (afterWriteTickInfo s) (buffered s)
  (bufferedIndex s) (allBuffers s) (allNoop s) (pendingcb s) (prefinished s) (errorEmitted s) (errored s) (closed s) (closeEmitted s) v (arrays s)
  (infos s) (ticks s) (konts s) (log s) (final_called s) (destroy_called s) (destroy_cb s) (accepted s) (sunk s) (cursor s).
Definition set_arrays (v : list (list (option request))) (s : state) : state := State (finalCalled s) (needDrain s) (ending s) (ended s) (finished s)
  (destroyed s) (defaultEncoding s) (length_ s) (writing s) (corked s) (sync s) (bufferProcessing s) (writecb s) (writelen s) (afterWriteTickInfo s)
  (buffered s) (bufferedIndex s) (allBuffers s) (allNoop s) (pendingcb s) (prefinished s) (errorEmitted s) (errored s) (closed s) (closeEmitted s)
  (kOnFinished s) v (infos s) (ticks s) (konts s) (log s) (final_called s) (destroy_called s) (destroy_cb s) (accepted s) (sunk s) (cursor s).
Definition set_infos (v : list (nat * cb)) (s : state) : state := State (finalCalled s) (needDrain s) (ending s) (ended s) (finished s) (destroyed s)
  (defaultEncoding s) (length_ s) (writing s) (corked s) (sync s) (bufferProcessing s) (writecb s) (writelen s) (afterWriteTickInfo s) (buffered s)
  (bufferedIndex s) (allBuffers s) (allNoop s) (pendingcb s) (prefinished s) (errorEmitted s) (errored s) (closed s) (closeEmitted s) (kOnFinished s)
  (arrays s) v (ticks s) (konts s) (log s) (final_called s) (destroy_called s) (destroy_cb s) (accepted s) (sunk s) (cursor s).
Definition set_ticks (v : list tick) (s : state) : state := State (finalCalled s) (needDrain s) (ending s) (ended s) (finished s) (destroyed s)
  (defaultEncoding s) (length_ s) (writing s) (corked s) (sync s) (bufferProcessing s) (writecb s) (writelen s) (afterWriteTickInfo s) (buffered s)
  (bufferedIndex s) (allBuffers s) (allNoop s) (pendingcb s) (prefinished s) (errorEmitted s) (errored s) (closed s) (closeEmitted s) (kOnFinished s)
  (arrays s) (infos s) v (konts s) (log s) (final_called s) (destroy_called s) (destroy_cb s) (accepted s) (sunk s) (cursor s).
Definition set_konts (v : list (context * list instr)) (s : state) : state := State (finalCalled s) (needDrain s) (ending s) (ended s) (finished s)
  (destroyed s) (defaultEncoding s) (length_ s) (writing s) (corked s) (sync s) (bufferProcessing s) (writecb s) (writelen s) (afterWriteTickInfo s)
  (buffered s) (bufferedIndex s) (allBuffers s) (allNoop s) (pendingcb s) (prefinished s) (errorEmitted s) (errored s) (closed s) (closeEmitted s)
  (kOnFinished s) (arrays s) (infos s) (ticks s) v (log s) (final_called s) (destroy_called s) (destroy_cb s) (accepted s) (sunk s) (cursor s).
Definition set_log (v : list event) (s : state) : state := State (finalCalled s) (needDrain s) (ending s) (ended s) (finished s) (destroyed s)
  (defaultEncoding s) (length_ s) (writing s) (corked s) (sync s) (bufferProcessing s) (writecb s) (writelen s) (afterWriteTickInfo s) (buffered s)
  (bufferedIndex s) (allBuffers s) (allNoop s) (pendingcb s) (prefinished s) (errorEmitted s) (errored s) (closed s) (closeEmitted s) (kOnFinished s)
  (arrays s) (infos s) (ticks s) (konts s) v (final_called s) (destroy_called s) (destroy_cb s) (accepted s) (sunk s) (cursor s).
Definition set_final_called (v : bool) (s : state) : state := State (finalCalled s) (needDrain s) (ending s) (ended s) (finished s) (destroyed s)
  (defaultEncoding s) (length_ s) (writing s) (corked s) (sync s) (bufferProcessing s) (writecb s) (writelen s) (afterWriteTickInfo s) (buffered s)
  (bufferedIndex s) (allBuffers s) (allNoop s) (pendingcb s) (prefinished s) (errorEmitted s) (errored s) (closed s) (closeEmitted s) (kOnFinished s)
  (arrays s) (infos s) (ticks s) (konts s) (log s) v (destroy_called s) (destroy_cb s) (accepted s) (sunk s) (cursor s).
Definition set_destroy_called (v : bool) (s : state) : state := State (finalCalled s) (needDrain s) (ending s) (ended s) (finished s) (destroyed s)
  (defaultEncoding s) (length_ s) (writing s) (corked s) (sync s) (bufferProcessing s) (writecb s) (writelen s) (afterWriteTickInfo s) (buffered s)
  (bufferedIndex s) (allBuffers s) (allNoop s) (pendingcb s) (prefinished s) (errorEmitted s) (errored s) (closed s) (closeEmitted s) (kOnFinished s)
  (arrays s) (infos s) (ticks s) (konts s) (log s) (final_called s) v (destroy_cb s) (accepted s) (sunk s) (cursor s).
Definition set_destroy_cb (v : option Z) (s : state) : state := State (finalCalled s) (needDrain s) (ending s) (ended s) (finished s) (destroyed s)
  (defaultEncoding s) (length_ s) (writing s) (corked s) (sync s) (bufferProcessing s) (writecb s) (writelen s) (afterWriteTickInfo s) (buffered s)
  (bufferedIndex s) (allBuffers s) (allNoop s) (pendingcb s) (prefinished s) (errorEmitted s) (errored s) (closed s) (closeEmitted s) (kOnFinished s)
  (arrays s) (infos s) (ticks s) (konts s) (log s) (final_called s) (destroy_called s) v (accepted s) (sunk s) (cursor s).
Definition set_accepted (v : list request) (s : state) : state := State (finalCalled s) (needDrain s) (ending s) (ended s) (finished s) (destroyed s)
  (defaultEncoding s) (length_ s) (writing s) (corked s) (sync s) (bufferProcessing s) (writecb s) (writelen s) (afterWriteTickInfo s) (buffered s)
  (bufferedIndex s) (allBuffers s) (allNoop s) (pendingcb s) (prefinished s) (errorEmitted s) (errored s) (closed s) (closeEmitted s) (kOnFinished s)
  (arrays s) (infos s) (ticks s) (konts s) (log s) (final_called s) (destroy_called s) (destroy_cb s) v (sunk s) (cursor s).
Definition set_sunk (v : list value) (s : state) : state := State (finalCalled s) (needDrain s) (ending s) (ended s) (finished s) (destroyed s)
  (defaultEncoding s) (length_ s) (writing s) (corked s) (sync s) (bufferProcessing s) (writecb s) (writelen s) (afterWriteTickInfo s) (buffered s)
  (bufferedIndex s) (allBuffers s) (allNoop s) (pendingcb s) (prefinished s) (errorEmitted s) (errored s) (closed s) (closeEmitted s) (kOnFinished s)
  (arrays s) (infos s) (ticks s) (konts s) (log s) (final_called s) (destroy_called s) (destroy_cb s) (accepted s) v (cursor s).
Definition set_cursor (v : nat) (s : state) : state := State (finalCalled s) (needDrain s) (ending s) (ended s) (finished s) (destroyed s)
  (defaultEncoding s) (length_ s) (writing s) (corked s) (sync s) (bufferProcessing s) (writecb s) (writelen s) (afterWriteTickInfo s) (buffered s)
  (bufferedIndex s) (allBuffers s) (allNoop s) (pendingcb s) (prefinished s) (errorEmitted s) (errored s) (closed s) (closeEmitted s) (kOnFinished s)
  (arrays s) (infos s) (ticks s) (konts s) (log s) (final_called s) (destroy_called s) (destroy_cb s) (accepted s) (sunk s) v.
