(* ===== verification/Writable.v ===== *)
(** * Writable streams: lib/internal/streams/writable.js in _stream.mjs

    The operations of a stream and the machine that runs them, on the state of
    [WritableState]; with the part of lib/internal/streams/destroy.js that
    they use. *)

From S2P Require Import Prelude Bytes Codecs WebText BufferText StreamBase WritableState.

(** What an instruction does next: go on with others, call code of the program
    and go on with them when it returns, or throw. *)
Inductive out :=
| Go (s : state) (k : list instr)
| Call (s : state) (c : context) (k : list instr)
| Raise (s : state) (er : jserr).

Definition and_then (o : out) (k : list instr) : out :=
  match o with Go s l => Go s (l ++ k) | Call s c l => Call s c (l ++ k) | Raise s er => Raise s er end.

Definition tell (e : event) (s : state) : state := set_log (log s ++ [e]) s.
Definition nextTick (t : tick) (s : state) : state := set_ticks (ticks s ++ [t]) s.

Definition emit (name : string) (s : state) (k : list instr) : out := Call (tell (Emit name) s) InProgram k.

(** [state.buffered], and an array of the store. *)
Definition array (s : state) (a : nat) : list (option request) := default [] (arrays s !! a).
Definition buffer (s : state) : list (option request) := array s (buffered s).

Definition resetBuffer (s : state) : state :=
  s |> set_arrays (arrays s ++ [[]]) |> set_buffered (length (arrays s)) |> set_bufferedIndex O
    |> set_allBuffers true |> set_allNoop true |> set_cursor O.

(** A new [WritableState]. *)
Definition WritableState (encoding : jsstr) : state :=
  State false false false false false false encoding 0 false 0 true false None 0 None O O true true 0
        false false None false false [] [[]] [] [] [] [] false false None [] [] O.

(** ** Options *)

(** What the program gives to the constructor; a property that is not there is
    [undefined]. *)
Record given := Given {
  g_objectMode : jsval;
  g_highWaterMark : jsval;
  g_decodeStrings : jsval;
  g_defaultEncoding : option jsstr;
  g_emitClose : jsval;
  g_autoDestroy : jsval;
  g_writev : bool;
  g_final : bool
}.

(** The constructor: the part of the state that never changes, and the rest. *)
Definition Writable (g : option given) : result (options * state) :=
  match g with
  | None => Ok (Options false (getDefaultHighWaterMark false) true true true false false, WritableState (js "utf8"))
  | Some g =>
      let objectMode := negb (falsy (g_objectMode g)) in
      let! hwm := getHighWaterMark objectMode (g_highWaterMark g) in
      Ok (Options objectMode hwm (negb (is_false (g_decodeStrings g))) (negb (is_false (g_emitClose g)))
                  (negb (is_false (g_autoDestroy g))) (g_writev g) (g_final g),
          WritableState (match g_defaultEncoding g with Some ((_ :: _) as e) => e | _ => js "utf8" end))
  end.

Section Streams.
Context `{!WebText}.
Context (o : options).

Definition chunk_length (v : value) : Z :=
  if objectMode o then 1
  else match v with VString s => len s | VBuffer b | VUint8Array b => len b | _ => 0 end.

(** ** Errors and destruction: lib/internal/streams/destroy.js *)

Definition checkError (er : option jserr) (s : state) : state :=
  match er, errored s with Some e, None => set_errored (Some e) s | _, _ => s end.

(** [_destroy] calls the program; [onDestroy] is what that is given. *)
Definition call_destroy (c : option Z) (s : state) : out :=
  Call (s |> set_destroy_called false |> set_destroy_cb c) InProgram [].

Definition destroyImpl_destroy (er : option jserr) (c : option Z) (s : state) : out :=
  if destroyed s then Go s (match c with Some c => [CallFn c None] | None => [] end)
  else call_destroy c (s |> checkError er |> set_destroyed true).

Definition destroy (er : option jserr) (c : option Z) (s : state) : out :=
  let s :=
    if negb (destroyed s) && ((bufferedIndex s <? length (buffer s))%nat || (0 <? length (kOnFinished s))%nat)
    then nextTick TErrorBuffer s else s in
  destroyImpl_destroy er c s.

Definition onDestroy (er : option jserr) (s : state) : out :=
  if destroy_called s then Go s []
  else
    let s := s |> set_destroy_called true |> checkError er |> set_closed true in
    Go s (match destroy_cb s with Some c => [CallFn c er; Destroyed er] | None => [Destroyed er] end).

Definition destroyed_ (er : option jserr) (s : state) : out :=
  Go (nextTick (match er with Some e => TEmitErrorClose e | None => TEmitClose end) s) [].

Definition emitErrorNT (er : jserr) (s : state) : out :=
  if errorEmitted s then Go s [] else emit "error" (set_errorEmitted true s) [].

Definition emitCloseNT (s : state) : out :=
  let s := set_closeEmitted true s in
  if emitClose o then emit "close" s [] else Go s [].

Definition errorOrDestroy (er : jserr) (sync : bool) (s : state) : out :=
  if destroyed s then Go s []
  else if autoDestroy o then Go s [Destroy (Some er) None]
  else
    let s := checkError (Some er) s in
    if sync then Go (nextTick (TEmitError er) s) [] else Go s [EmitError er].

(** ** Writing *)

(** The chunk and the encoding that [_write] goes on with, or what it throws. *)
Definition write_args (s : state) (v : value) (encoding : jsval) : result (value * jsstr) :=
  let! encoding :=
    if falsy encoding then Ok (defaultEncoding s)
    else match encoding with
         | JString e => if negb (str_eqb e (js "buffer")) && negb (isEncoding encoding) then Throw ERR_UNKNOWN_ENCODING else Ok e
         | _ => Throw ERR_UNKNOWN_ENCODING
         end in
  match v with
  | VNull => Throw ERR_STREAM_NULL_VALUES
  | _ =>
      if objectMode o then Ok (v, encoding)
      else match v with
           | VString t =>
               if decodeStrings o then let! b := fromString t (JString encoding) in Ok (VBuffer b, js "buffer")
               else Ok (v, encoding)
           | VBuffer _ => Ok (v, js "buffer")
           | VUint8Array b => Ok (VBuffer b, js "buffer")
           | VOther w => Throw (ERR_INVALID_ARG_TYPE "chunk" ["string"; "Buffer"; "Uint8Array"]%string w)
           | VNull => Throw ERR_STREAM_NULL_VALUES
           end
  end.

Definition is_errored (s : state) : bool := match errored s with Some _ => true | None => false end.

(** What [writeOrBuffer] returns goes to the program, or to [end], which only
    looks for an error. *)
Definition returns (report b : bool) (s : state) : state := set_log (log s ++ (if report then [Returned b] else [])) s.

Definition writeOrBuffer (report : bool) (v : value) (enc : jsstr) (c : cb) (s : state) : out :=
  let l := chunk_length v in
  let s := s |> set_length_ (length_ s + l) |> set_accepted (accepted s ++ [Request v enc c]) in
  let ret := length_ s <? highWaterMark o in
  let s := set_needDrain (negb ret || needDrain s) s in
  if writing s || negb (corked s =? 0) || is_errored s then
    let s := set_arrays (<[buffered s := buffer s ++ [Some (Request v enc c)]]> (arrays s)) s in
    let s := s |> set_allBuffers (allBuffers s && str_eqb enc (js "buffer")) |> set_allNoop (allNoop s && bool_decide (c = Nop)) in
    Go (returns report (ret && negb (is_errored s) && negb (destroyed s)) s) []
  else
    let s := s |> set_writelen l |> set_writecb (Some c) |> set_writing true |> set_sync true |> set_sunk (sunk s ++ [v]) in
    Call s InSink [WriteReturns report ret].

Definition writeReturns (report ret : bool) (s : state) : out :=
  let s := set_sync false s in
  Go (returns report (ret && negb (is_errored s) && negb (destroyed s)) s) [].

(** The error that [_write] returns, if it does. *)
Definition refused (s : state) : option jserr :=
  if ending s then Some ERR_STREAM_WRITE_AFTER_END
  else if destroyed s then Some (ERR_STREAM_DESTROYED "write")
  else None.

Definition _write (report : bool) (v : value) (enc : jsstr) (c : cb) (s : state) : out :=
  match refused s with
  | Some er => Go (nextTick (TCallBack c er) s) (ErrorOrDestroy er true :: (if report then [ReturnFalse] else []))
  | None => writeOrBuffer report v enc c (set_pendingcb (pendingcb s + 1) s)
  end.

(** [write] with a callback or without one. *)
Definition write (v : value) (encoding : jsval) (c : option Z) (s : state) : out :=
  match write_args s v encoding with
  | Throw er => Raise s er
  | Ok (v, enc) => _write true v enc (from_option Fn Nop c) s
  end.

Definition setDefaultEncoding (encoding : jsval) (s : state) : out :=
  let encoding := match encoding with JString e => JString (toLowerCase e) | v => v end in
  match encoding with
  | JString e => if isEncoding encoding then Go (set_defaultEncoding e s) [] else Raise s ERR_UNKNOWN_ENCODING
  | _ => Raise s ERR_UNKNOWN_ENCODING
  end.

(** ** The sink *)

(** [doWrite] up to the call; [vs] are the chunks it carries. *)
Definition doWrite (l : Z) (vs : list value) (c : cb) (s : state) : out :=
  let s := s |> set_writelen l |> set_writecb (Some c) |> set_writing true |> set_sync true in
  if destroyed s then Go s [Onwrite (Some (ERR_STREAM_DESTROYED "write")); SyncFalse]
  else Call (set_sunk (sunk s ++ vs) s) InSink [SyncFalse].

(** A round of the loop of [clearBuffer] without [_writev]. *)
Definition clear_round (a i : nat) (s : state) : out :=
  match array s a !! i with
  | Some (Some r) =>
      let s := s |> set_arrays (<[a := <[i := None]> (array s a)]> (arrays s)) |> set_cursor (S i) in
      and_then (doWrite (chunk_length (chunk r)) [chunk r] (callback r) s) [ClearLoop a (S i)]
  | _ => Raise s (TypeError "Cannot destructure property 'chunk'")
  end.

Definition clearLoop (a i : nat) (s : state) : out :=
  if (i <? length (array s a))%nat && negb (writing s) then clear_round a i s
  else
    let s :=
      if (i =? length (array s a))%nat then resetBuffer s
      else if (256 <? i)%nat then s |> set_arrays (<[a := drop i (array s a)]> (arrays s)) |> set_bufferedIndex O |> set_cursor O
      else set_bufferedIndex i s in
    Go (set_bufferProcessing false s) [].

Definition clearVectored (s : state) : out := Go (s |> resetBuffer |> set_bufferProcessing false) [].

Definition chunks (l : list (option request)) : list value := chunk <$> omap id l.

Definition clearBuffer (s : state) : out :=
  if negb (corked s =? 0) || bufferProcessing s || destroyed s then Go s []
  else
    let i := bufferedIndex s in
    let bufferedLength := (length (buffer s) - i)%nat in
    if (bufferedLength =? 0)%nat then Go s []
    else
      let s := set_bufferProcessing true s in
      if (1 <? bufferedLength)%nat && has_writev o then
        let s := s |> set_pendingcb (pendingcb s - (Z.of_nat bufferedLength - 1)) |> set_cursor (length (buffer s)) in
        let c := if allNoop s then Nop else Each i (buffered s) in
        and_then (doWrite (length_ s) (chunks (drop i (buffer s))) c s) [ClearVectored]
      else clear_round (buffered s) i s.

(** ** After a write *)

Definition onwriteError (er : jserr) (c : cb) (s : state) : out :=
  Go (set_pendingcb (pendingcb s - 1) s) [CallBack c (Some er); ErrorBuffer; ErrorOrDestroy er false].

Definition onwrite (er : option jserr) (s : state) : out :=
  match writecb s with
  | None => Go s [ErrorOrDestroy ERR_MULTIPLE_CALLBACK false]
  | Some c =>
      let sync := sync s in
      let s := s |> set_writing false |> set_writecb None |> set_length_ (length_ s - writelen s) |> set_writelen 0 in
      match er with
      | Some e =>
          let s := checkError er s in
          if sync then Go (nextTick (TOnwriteError e c) s) [] else Go s [OnwriteError e c]
      | None =>
          and_then (if (bufferedIndex s <? length (buffer s))%nat then clearBuffer s else Go s []) [OnwriteScheduled sync c]
      end
  end.

Definition onwriteScheduled (sync : bool) (c : cb) (s : state) : out :=
  if sync then
    match afterWriteTickInfo s ≫= fun i => (fun p => (i, p)) <$> infos s !! i with
    | Some (i, (count, c')) =>
        if bool_decide (c' = c) then Go (set_infos (<[i := (S count, c)]> (infos s)) s) []
        else Go (s |> set_infos (infos s ++ [(1%nat, c)]) |> set_afterWriteTickInfo (Some (length (infos s)))
                   |> nextTick (TAfterWrite (length (infos s)))) []
    | None => Go (s |> set_infos (infos s ++ [(1%nat, c)]) |> set_afterWriteTickInfo (Some (length (infos s)))
                    |> nextTick (TAfterWrite (length (infos s)))) []
    end
  else Go s [AfterWrite 1 c].

Definition afterWriteTick (i : nat) (s : state) : out :=
  let '(count, c) := default (O, Nop) (infos s !! i) in
  Go (set_afterWriteTickInfo None s) [AfterWrite count c].

Definition afterWrite (count : nat) (c : cb) (s : state) : out :=
  if negb (ending s) && negb (destroyed s) && (length_ s =? 0) && needDrain s
  then emit "drain" (set_needDrain false s) [Callbacks count c]
  else Go s [Callbacks count c].

Definition callbacks (count : nat) (c : cb) (s : state) : out :=
  match count with
  | O => Go s [AfterCallbacks]
  | S count => Go (set_pendingcb (pendingcb s - 1) s) [CallBack c None; Callbacks count c]
  end.

Definition afterCallbacks (s : state) : out :=
  Go s ((if destroyed s then [ErrorBuffer] else []) ++ [FinishMaybe false]).

Definition callBack (c : cb) (er : option jserr) (s : state) : out :=
  match c with
  | Nop => Go s []
  | Fn id => Call (tell (Written id er) s) InProgram []
  | Each n a => Go s [EachFrom n a er]
  end.

Definition callFn (id : Z) (er : option jserr) (s : state) : out := Call (tell (Called id er) s) InProgram [].

Definition eachFrom (n a : nat) (er : option jserr) (s : state) : out :=
  match array s a !! n with
  | None => Go s []
  | Some (Some r) => Go s [CallBack (callback r) er; EachFrom (S n) a er]
  | Some None => Raise s (TypeError "Cannot read properties of null")
  end.

Definition errorBuffer (s : state) : out := if writing s then Go s [] else Go s [ErrorLoop (bufferedIndex s)].

Definition errorLoop (n : nat) (s : state) : out :=
  match buffer s !! n with
  | Some (Some r) =>
      Go (set_length_ (length_ s - chunk_length (chunk r)) s)
         [CallBack (callback r) (Some (default (ERR_STREAM_DESTROYED "write") (errored s))); ErrorLoop (S n)]
  | Some None => Raise s (TypeError "Cannot destructure property 'chunk'")
  | None => Go (set_kOnFinished [] s) [ErrorFinished (kOnFinished s)]
  end.

Definition errorFinished (l : list Z) (s : state) : out :=
  match l with
  | [] => Go (resetBuffer s) []
  | c :: l => Go s [CallFn c (Some (default (ERR_STREAM_DESTROYED "end") (errored s))); ErrorFinished l]
  end.

(** ** Corks and the end *)

Definition cork (s : state) : out := Go (set_corked (corked s + 1) s) [].

Definition uncork (s : state) : out :=
  if corked s =? 0 then Go s []
  else
    let s := set_corked (corked s - 1) s in
    if negb (writing s) then clearBuffer s else Go s [].

(** [end] with a chunk or without one: [null] and [undefined] are none. *)
Definition chunk_given (v : option (value * jsval)) : option (value * jsval) :=
  match v with Some (VNull, _) | Some (VOther JUndefined, _) => None | v => v end.

Definition end_ (v : option (value * jsval)) (c : option Z) (s : state) : out :=
  match chunk_given v with
  | None => Go s [EndWritten None c]
  | Some (v, encoding) =>
      match write_args s v encoding with
      | Throw er => Raise s er
      | Ok (v, enc) => and_then (_write false v enc Nop s) [EndWritten (refused s) c]
      end
  end.

Definition endWritten (err : option jserr) (c : option Z) (s : state) : out :=
  and_then (if negb (corked s =? 0) then uncork (set_corked 1 s) else Go s []) [EndUncorked err c].

Definition endUncorked (err : option jserr) (c : option Z) (s : state) : out :=
  match err with
  | Some _ => Go s [EndReturns err c]
  | None =>
      if negb (is_errored s) && negb (ending s) then Go (set_ending true s) [FinishMaybe true; Ended; EndReturns None c]
      else if finished s then Go s [EndReturns (Some (ERR_STREAM_ALREADY_FINISHED "end")) c]
      else if destroyed s then Go s [EndReturns (Some (ERR_STREAM_DESTROYED "end")) c]
      else Go s [EndReturns None c]
  end.

Definition endReturns (err : option jserr) (c : option Z) (s : state) : out :=
  match c with
  | None => Go s []
  | Some c =>
      if bool_decide (err <> None) || finished s then Go (nextTick (TCallFn c err) s) []
      else Go (set_kOnFinished (kOnFinished s ++ [c]) s) []
  end.

Definition needFinish (s : state) : bool :=
  ending s && negb (destroyed s) && (length_ s =? 0) && negb (is_errored s) && (length (buffer s) =? 0)%nat
  && negb (finished s) && negb (writing s) && negb (errorEmitted s) && negb (closeEmitted s).

Definition callFinal (s : state) : out :=
  Call (s |> set_final_called false |> set_sync true |> set_pendingcb (pendingcb s + 1)) InProgram [SyncFalse].

Definition prefinish (s : state) : out :=
  if negb (prefinished s) && negb (finalCalled s) then
    if has_final o && negb (destroyed s) then callFinal (set_finalCalled true s)
    else emit "prefinish" (set_prefinished true s) []
  else Go s [].

Definition finishMaybe (sync : bool) (s : state) : out :=
  if needFinish s then and_then (prefinish s) [FinishWhenIdle sync] else Go s [].

Definition finishWhenIdle (sync : bool) (s : state) : out :=
  if pendingcb s =? 0 then
    if sync then Go (s |> set_pendingcb (pendingcb s + 1) |> nextTick TFinishMaybe) []
    else if needFinish s then Go (set_pendingcb (pendingcb s + 1) s) [Finish]
    else Go s []
  else Go s [].

(** The tick of [finishMaybe]. *)
Definition finishTick (s : state) : out :=
  if needFinish s then Go s [Finish] else Go (set_pendingcb (pendingcb s - 1) s) [].

(** What [_final] calls.  [ERR_MULTIPLE_CALLBACK] is a class, so that calling
    it without [new] throws. *)
Definition onFinish (er : option jserr) (s : state) : out :=
  if final_called s then
    match er with
    | Some e => Go s [ErrorOrDestroy e false]
    | None => Raise s (TypeError "Class constructor ERR_MULTIPLE_CALLBACK cannot be invoked without 'new'")
    end
  else
    let s := s |> set_final_called true |> set_pendingcb (pendingcb s - 1) in
    match er with
    | Some e => Go (set_kOnFinished [] s) [FinishedCallbacks (kOnFinished s) er; OnFinishFailed e]
    | None => if needFinish s then emit "prefinish" (set_prefinished true s) [OnFinishReady] else Go s []
    end.

Definition onFinishReady (s : state) : out := Go (s |> set_pendingcb (pendingcb s + 1) |> nextTick TFinish) [].

Definition finishedCallbacks (l : list Z) (er : option jserr) (s : state) : out :=
  match l with [] => Go s [] | c :: l => Go s [CallFn c er; FinishedCallbacks l er] end.

Definition finish (s : state) : out :=
  Go (s |> set_pendingcb (pendingcb s - 1) |> set_finished true |> set_kOnFinished [])
     [FinishedCallbacks (kOnFinished s) None; FinishEmit].

Definition finishDestroy (s : state) : out := if autoDestroy o then Go s [Destroy None None] else Go s [].

(** ** The machine *)

Definition run_instr (i : instr) (s : state) : out :=
  match i with
  | WriteReturns report ret => writeReturns report ret s
  | ReturnFalse => Go (tell (Returned false) s) []
  | SyncFalse => Go (set_sync false s) []
  | ClearLoop a i => clearLoop a i s
  | ClearVectored => clearVectored s
  | Onwrite er => onwrite er s
  | OnwriteScheduled sync c => onwriteScheduled sync c s
  | OnwriteError er c => onwriteError er c s
  | CallBack c er => callBack c er s
  | CallFn id er => callFn id er s
  | EachFrom n a er => eachFrom n a er s
  | AfterWrite count c => afterWrite count c s
  | Callbacks count c => callbacks count c s
  | AfterCallbacks => afterCallbacks s
  | ErrorBuffer => errorBuffer s
  | ErrorLoop n => errorLoop n s
  | ErrorFinished l => errorFinished l s
  | EndWritten err c => endWritten err c s
  | EndUncorked err c => endUncorked err c s
  | Ended => Go (set_ended true s) []
  | EndReturns err c => endReturns err c s
  | FinishMaybe sync => finishMaybe sync s
  | FinishWhenIdle sync => finishWhenIdle sync s
  | OnFinishReady => onFinishReady s
  | OnFinishFailed er => errorOrDestroy er (sync s) s
  | FinishedCallbacks l er => finishedCallbacks l er s
  | Finish => finish s
  | FinishEmit => emit "finish" s [FinishDestroy]
  | FinishDestroy => finishDestroy s
  | Destroy er c => destroy er c s
  | Destroyed er => destroyed_ er s
  | ErrorOrDestroy er sync => errorOrDestroy er sync s
  | EmitError er => emitErrorNT er s
  | EmitClose => emitCloseNT s
  end.

Definition run_tick (t : tick) (s : state) : out :=
  match t with
  | TCallBack c er => Go s [CallBack c (Some er)]
  | TCallFn id er => Go s [CallFn id er]
  | TOnwriteError er c => onwriteError er c s
  | TAfterWrite i => afterWriteTick i s
  | TErrorBuffer => errorBuffer s
  | TFinishMaybe => finishTick s
  | TFinish => finish s
  | TEmitErrorClose er => Go s [EmitError er; EmitClose]
  | TEmitClose => emitCloseNT s
  | TEmitError er => emitErrorNT er s
  end.

(** What code of the program can do: call a method of the stream, call one of
    the functions the stream gave it ([onwrite], and those given to [_final]
    and [_destroy]), return, and at the bottom of the stack let the next tick
    run. *)
Inductive action :=
| AWrite (v : value) (encoding : jsval) (c : option Z)
| AEnd (v : option (value * jsval)) (c : option Z)
| ACork
| AUncork
| ASetDefaultEncoding (encoding : jsval)
| ADestroy (er : option jserr) (c : option Z)
| APipe
| AOnwrite (er : option jserr)
| AOnFinish (er : option jserr)
| AOnDestroy (er : option jserr)
| AReturn
| ATick.

(** Either the stream runs, with instructions left, or the program does. *)
Inductive mode := Stream (k : list instr) | Program.

Definition settle (o : out) (k : list instr) : state * mode :=
  match o with
  | Go s l => (s, Stream (l ++ k))
  | Call s c l => (set_konts ((c, l ++ k) :: konts s) s, Program)
  | Raise s er => (tell (Threw er) s, Program)
  end.

(** A step of the stream; without instructions left it returns to the program. *)
Definition advance (s : state) (k : list instr) : state * mode :=
  match k with [] => (s, Program) | i :: k => settle (run_instr i s) k end.

Definition perform (a : action) (s : state) : option (state * mode) :=
  match a with
  | AWrite v encoding c => Some (settle (write v encoding c s) [])
  | AEnd v c => Some (settle (end_ v c s) [])
  | ACork => Some (settle (cork s) [])
  | AUncork => Some (settle (uncork s) [])
  | ASetDefaultEncoding e => Some (settle (setDefaultEncoding e s) [])
  | ADestroy er c => Some (settle (destroy er c s) [])
  | APipe => Some (settle (errorOrDestroy ERR_STREAM_CANNOT_PIPE false s) [])
  | AOnwrite er => Some (settle (onwrite er s) [])
  | AOnFinish er => if finalCalled s then Some (settle (onFinish er s) []) else None
  | AOnDestroy er => if destroyed s then Some (settle (onDestroy er s) []) else None
  | AReturn => match konts s with (_, k) :: l => Some (set_konts l s, Stream k) | [] => None end
  | ATick =>
      match konts s, ticks s with
      | [], t :: l => Some (settle (run_tick t (set_ticks l s)) [])
      | _, _ => None
      end
  end.

End Streams.
