(* ===== verification/WritableInv.v ===== *)
(** * The invariant of writable streams

    Runs of the machine of [Writable] in which the sink, from within [_write]
    or [_writev], does nothing to the stream but call its callback, and that
    once; what holds in every state of such a run. *)

From S2P Require Import Prelude Bytes Codecs WebText BufferText StreamBase WritableState Writable.

Section Inv.
Context `{Web : !WebText}.
Context (o : options).

(** ** Runs *)

(** What the program may do in a state: anything, but for the time that a call of
    [_write] or [_writev] is under way, in which the sink may call the callback
    of the write, once, or return, and not call the methods of the stream.
    Sinks that write from within [_write] can reorder or lose chunks:
    [write_overtakes] and [write_lost] in [WritableRuns]. *)
Definition only_calls_back (a : action) (s : state) : bool :=
  match konts s with
  | (InSink, _) :: _ =>
      match a with AReturn => true | AOnwrite _ => bool_decide (is_Some (writecb s)) | _ => false end
  | _ => true
  end.

(** The states of the runs in which [only_calls_back] holds of every action. *)
Inductive reachable (encoding : jsstr) : state -> mode -> Prop :=
| reachable_new : reachable encoding (WritableState encoding) Program
| reachable_stream s k s' m :
    reachable encoding s (Stream k) -> advance o s k = (s', m) -> reachable encoding s' m
| reachable_program s a s' m :
    reachable encoding s Program -> only_calls_back a s = true -> perform o a s = Some (s', m) -> reachable encoding s' m.

(** ** The data *)

(** The requests that did not reach the sink. *)
Definition todo (s : state) : list (option request) := drop (cursor s) (buffer s).

Definition clean (s : state) : Prop := errored s = None /\ destroyed s = false.

Definition total (l : list (option request)) : Z := foldr Z.add 0 (chunk_length o <$> chunks l).

Definition cbs (l : list (option request)) : list cb := callback <$> omap id l.

(** A callback that a request can have. *)
Definition simple (c : cb) : Prop := match c with Each _ _ => False | _ => True end.

(** The closure of [clearBuffer] reads an array that is not written any more. *)
Definition sound_cb (s : state) (c : cb) : Prop :=
  match c with
  | Each n a =>
      (a < length (arrays s))%nat /\ Forall is_Some (drop n (array s a))
      /\ (a = buffered s -> bufferProcessing s = true /\ cursor s = length (buffer s))
  | _ => True
  end.

Record data (s : state) : Prop := {
  d_array : (buffered s < length (arrays s))%nat;
  d_cursor : (cursor s <= length (buffer s))%nat;
  d_some : Forall is_Some (todo s);
  d_sub : sunk s ++ chunks (todo s) `sublist_of` (chunk <$> accepted s);
  d_all : clean s -> chunk <$> accepted s = sunk s ++ chunks (todo s);
  d_cb : writing s = bool_decide (is_Some (writecb s));
  d_idle : writing s = false -> writelen s = 0;
  d_length : clean s -> length_ s = writelen s + total (todo s);
  d_corked : 0 <= corked s;
  d_simple : forall a r, Some r ∈ array s a -> simple (callback r);
  d_noop : allNoop s = true -> Forall (eq Nop) (cbs (todo s));
  d_writecb : forall c, writecb s = Some c -> sound_cb s c;
  d_infos : Forall (fun p => sound_cb s p.2) (infos s)
}.

(** All that was written is in the sink, and nothing more will be. *)
Definition done_ (s : state) : Prop := ending s = true /\ chunk <$> accepted s = sunk s /\ todo s = [].

(** ** Callbacks to come *)

(** The callbacks that a call of one calls. *)
Definition expand (A : list (list (option request))) (c : cb) : list cb :=
  match c with Each n a => cbs (drop n (default [] (A !! a))) | c => [c] end.

Definition count (f : Z) (l : list cb) : nat := count_occ cb_eq_dec l (Fn f).

Definition sum {T} (g : T -> nat) (l : list T) : nat := foldr (fun x n => (g x + n)%nat) O l.

(** How many calls of the function [f], without an error, for writes. *)
Definition weight (f : Z) (A : list (list (option request))) (i : instr) : nat :=
  match i with
  | OnwriteScheduled _ c | CallBack c None => count f (expand A c)
  | EachFrom n a None => count f (expand A (Each n a))
  | AfterWrite n c | Callbacks n c => n * count f (expand A c)
  | _ => O
  end.

Definition weight_tick (f : Z) (A : list (list (option request))) (infos : list (nat * cb)) (t : tick) : nat :=
  match t with TAfterWrite i => match infos !! i with Some (n, c) => n * count f (expand A c) | None => O end | _ => O end.

Definition left (m : mode) : list instr := match m with Stream k => k | Program => [] end.

Definition owed (f : Z) (s : state) (m : mode) : nat :=
  sum (weight f (arrays s)) (left m) + sum (fun c => sum (weight f (arrays s)) c.2) (konts s)
  + sum (weight_tick f (arrays s) (infos s)) (ticks s)
  + match writecb s with Some c => count f (expand (arrays s) c) | None => O end
  + count f (cbs (todo s)).

Definition is_written (f : Z) (e : event) : nat := match e with Written g None => if (g =? f)%Z then 1 else 0 | _ => O end.
Definition called (f : Z) (s : state) : nat := sum (is_written f) (log s).

(** An [afterWrite] that is to come. *)
Definition waits (i : instr) : Prop := match i with OnwriteScheduled _ _ | AfterWrite _ _ => True | _ => False end.
Definition waits_tick (t : tick) : Prop := match t with TAfterWrite _ => True | _ => False end.

Definition waiting (s : state) (m : mode) : Prop :=
  Exists waits (left m) \/ Exists (fun c => Exists waits c.2) (konts s) \/ Exists waits_tick (ticks s).

Record accounts (s : state) (m : mode) : Prop := {
  (** A program that is to wait for 'drain' gets it. *)
  a_drain : clean s -> ending s = false -> needDrain s = true -> writing s = true \/ todo s <> [] \/ waiting s m;
  (** A callback of a write was called or will be. *)
  a_count : clean s -> forall f, count f (callback <$> accepted s) = (called f s + owed f s m)%nat
}.

(** ** Where a run is *)

(** What holds while an instruction waits; those of [clearBuffer] are apart. *)
Definition fine (s : state) (i : instr) : Prop :=
  match i with
  | Finish | OnFinishReady => done_ s
  | ErrorBuffer | ErrorLoop _ | ErrorFinished _ => ~ clean s
  | OnwriteError _ c => ~ clean s /\ sound_cb s c
  | OnwriteScheduled _ c | CallBack c _ | AfterWrite _ c | Callbacks _ c => sound_cb s c
  | EachFrom n a _ => sound_cb s (Each n a)
  | Onwrite _ | ClearLoop _ _ | ClearVectored => False
  | _ => True
  end.

Definition fine_tick (s : state) (t : tick) : Prop :=
  match t with
  | TFinish => done_ s
  | TErrorBuffer => ~ clean s
  | TOnwriteError _ c => ~ clean s /\ sound_cb s c
  | TCallBack c _ => sound_cb s c
  | TAfterWrite i => (i < length (infos s))%nat
  | _ => True
  end.

Definition fine_kont (s : state) (c : context * list instr) : Prop := c.1 = InProgram /\ Forall (fine s) c.2.

(** Outside [clearBuffer]. *)
Definition idle (s : state) : Prop :=
  bufferProcessing s = false /\ cursor s = bufferedIndex s
  /\ (clean s -> writing s = false -> corked s = 0 -> todo s = []).

(** Where the sink is called from, and what comes after it. *)
Inductive phase := Direct (report ret : bool) | Loop (a i : nat) | Vectored.

Definition resume (p : phase) : list instr :=
  match p with
  | Direct report ret => [WriteReturns report ret]
  | Loop a i => [SyncFalse; ClearLoop a i]
  | Vectored => [SyncFalse; ClearVectored]
  end.

Definition within (s : state) (p : phase) : Prop :=
  destroyed s = false /\
  match p with
  | Direct _ _ => idle s /\ todo s = []
  | Loop a i => bufferProcessing s = true /\ a = buffered s /\ i = cursor s
  | Vectored => bufferProcessing s = true /\ cursor s = length (buffer s)
  end.

Definition clears (p : phase) : Prop := match p with Direct _ _ => False | _ => True end.

Inductive control (s : state) : mode -> Prop :=
| control_program : idle s -> Forall (fine_kont s) (konts s) -> control s Program
| control_stream k : idle s -> Forall (fine s) k -> Forall (fine_kont s) (konts s) -> control s (Stream k)
| control_sink p k l m :
    konts s = (InSink, resume p ++ k) :: l -> within s p -> sync s = true ->
    Forall (fine s) k -> Forall (fine_kont s) l ->
    (m = Program \/ m = Stream [] \/ exists c, m = Stream [OnwriteScheduled true c] /\ sound_cb s c) -> control s m
| control_clear p k n :
    clears p -> (n < 2)%nat -> within s p ->
    Forall (fine s) k -> Forall (fine_kont s) (konts s) -> control s (Stream (drop n (resume p) ++ k)).

Definition tick_infos (l : list tick) : list nat := omap (fun t => match t with TAfterWrite i => Some i | _ => None end) l.

Record inv (s : state) (m : mode) : Prop := {
  i_data : data s;
  i_control : control s m;
  i_ticks : Forall (fine_tick s) (ticks s);
  i_finished : finished s = true -> done_ s;
  i_info : forall i, afterWriteTickInfo s = Some i -> i ∈ tick_infos (ticks s);
  i_nodup : NoDup (tick_infos (ticks s));
  i_accounts : accounts s m
}.

(** ** Steps that leave the buffer alone *)

(** The invariant at a point outside [clearBuffer], but for the accounts. *)
Record ready (s : state) (k : list instr) : Prop := {
  r_data : data s;
  r_idle : idle s;
  r_left : Forall (fine s) k;
  r_konts : Forall (fine_kont s) (konts s);
  r_ticks : Forall (fine_tick s) (ticks s);
  r_finished : finished s = true -> done_ s;
  r_info : forall i, afterWriteTickInfo s = Some i -> i ∈ tick_infos (ticks s);
  r_nodup : NoDup (tick_infos (ticks s))
}.

Record frame (s s' : state) : Prop := {
  f_arrays : arrays s' = arrays s;
  f_infos : (length (infos s) <= length (infos s'))%nat;
  f_sound : Forall (fun p => sound_cb s p.2) (infos s) -> Forall (fun p => sound_cb s p.2) (infos s');
  f_buffered : buffered s' = buffered s;
  f_bufferedIndex : bufferedIndex s' = bufferedIndex s;
  f_cursor : cursor s' = cursor s;
  f_accepted : accepted s' = accepted s;
  f_sunk : sunk s' = sunk s;
  f_writing : writing s' = writing s;
  f_writecb : writecb s' = writecb s;
  f_writelen : writelen s' = writelen s;
  f_length : length_ s' = length_ s;
  f_corked : corked s' = corked s;
  f_noop : allNoop s' = allNoop s;
  f_processing : bufferProcessing s' = bufferProcessing s;
  f_konts : konts s' = konts s;
  f_clean : clean s' -> clean s;
  f_ending : ending s = true -> ending s' = true
}.

Section Frame.
Context {s s' : state} (F : frame s s').

Lemma frame_array a : array s' a = array s a.
Proof. unfold array. by rewrite (f_arrays _ _ F). Qed.

Lemma frame_buffer : buffer s' = buffer s.
Proof. unfold buffer. by rewrite frame_array, (f_buffered _ _ F). Qed.

Lemma frame_todo : todo s' = todo s.
Proof. unfold todo. by rewrite frame_buffer, (f_cursor _ _ F). Qed.

Lemma frame_sound c : sound_cb s' c <-> sound_cb s c.
Proof.
  unfold sound_cb. destruct c; try done.
  by rewrite (f_arrays _ _ F), frame_array, (f_buffered _ _ F), (f_processing _ _ F), (f_cursor _ _ F), frame_buffer.
Qed.

Lemma frame_data : data s -> data s'.
Proof.
  intros D. pose proof frame_todo as T. pose proof frame_buffer as B. pose proof frame_array as Ar. pose proof frame_sound as So.
  destruct F, D. constructor; rewrite ?T, ?B, ?f_arrays0, ?f_buffered0, ?f_cursor0, ?f_accepted0, ?f_sunk0, ?f_writing0,
    ?f_writecb0, ?f_writelen0, ?f_length0, ?f_corked0, ?f_noop0; auto.
  - intros a r. rewrite Ar. apply d_simple0.
  - intros c Hc. apply So. auto.
  - eapply Forall_impl; [by apply f_sound0|]. intros p. by rewrite So.
Qed.

Lemma frame_idle : idle s -> idle s'.
Proof.
  intros (B & C & J). pose proof frame_todo as T. destruct F. split_and!; [congruence|congruence|].
  intros Cl%f_clean0 W K. rewrite T. apply J; congruence.
Qed.

Lemma frame_done : done_ s -> done_ s'.
Proof. pose proof frame_todo as T. destruct F. intros (E & A & N). split_and!; [auto|congruence|by rewrite T]. Qed.

Lemma frame_fine i : fine s i -> fine s' i.
Proof.
  pose proof frame_done. pose proof frame_sound as So. pose proof (f_clean _ _ F).
  destruct i; cbn [fine]; rewrite ?So; tauto.
Qed.

Lemma frame_fine_tick t : fine_tick s t -> fine_tick s' t.
Proof.
  pose proof frame_done. pose proof frame_sound as So. pose proof (f_clean _ _ F).
  destruct t; cbn [fine_tick]; rewrite ?So; try tauto. pose proof (f_infos _ _ F). lia.
Qed.

Lemma frame_left k : Forall (fine s) k -> Forall (fine s') k.
Proof. intros K. eapply Forall_impl; [exact K|]. apply frame_fine. Qed.

Lemma frame_fine_konts l : Forall (fine_kont s) l -> Forall (fine_kont s') l.
Proof. intros K. eapply Forall_impl; [exact K|]. intros c (E & L). split; [done|by apply frame_left]. Qed.
End Frame.

Record quiet (s s' : state) : Prop := {
  q_frame :> frame s s';
  q_finished : finished s' = true -> finished s = true \/ done_ s';
  q_infos : infos s' = infos s;
  q_info : forall i, afterWriteTickInfo s' = Some i -> afterWriteTickInfo s = Some i;
  q_drain : needDrain s' = true -> needDrain s = true;
  q_ticks : exists ts, ticks s' = ticks s ++ ts /\ Forall (fun t => fine_tick s' t /\ ~ waits_tick t) ts
}.

Lemma quiet_refl s : quiet s s.
Proof. constructor; [by constructor|auto|auto|auto|auto|exists []; by rewrite app_nil_r]. Qed.

Lemma frame_trans s t u : frame s t -> frame t u -> frame s u.
Proof.
  intros F G. pose proof (fun c => frame_sound F c) as So. destruct F, G. constructor; try congruence; auto; [lia|].
  intros I%f_sound0. eapply Forall_impl; [apply f_sound1; eapply Forall_impl; [exact I|]|]; intros p; by rewrite So.
Qed.

Lemma quiet_trans s t u : quiet s t -> quiet t u -> quiet s u.
Proof.
  intros [Fs Hs ? ? ? (l & El & Hl)] [Ft Ht ? ? ? (l' & El' & Hl')]. constructor; auto; [by eapply frame_trans| |congruence|].
  - intros [Ff|D]%Ht; [|auto]. destruct (Hs Ff) as [|D]; [auto|right]. by apply (frame_done Ft).
  - exists (l ++ l'). rewrite El', El, (assoc_L (++)). split; [done|]. apply Forall_app. split; [|done].
    eapply Forall_impl; [exact Hl|]. intros x (Hx & Hw). split; [by apply (frame_fine_tick Ft)|done].
Qed.

Lemma quiet_frame s t u :
  quiet s t -> frame t u -> infos u = infos t -> finished u = finished t -> afterWriteTickInfo u = afterWriteTickInfo t ->
  needDrain u = needDrain t -> ticks u = ticks t -> quiet s u.
Proof.
  intros Q F Hp Hf Hi Hd Ht. eapply quiet_trans; [exact Q|].
  constructor; [done|rewrite Hf; auto|done|intros i; by rewrite Hi|by rewrite Hd|].
  exists []. by rewrite app_nil_r.
Qed.

Ltac quietly := intros; (eapply quiet_frame; [eassumption|constructor; try done; by intros [? ?]|done..]).

Section Quiet.
Context (s t : state).
Lemma quiet_sync v : quiet s t -> quiet s (set_sync v t). Proof. quietly. Qed.
Lemma quiet_pendingcb v : quiet s t -> quiet s (set_pendingcb v t). Proof. quietly. Qed.
Lemma quiet_tell e : quiet s t -> quiet s (tell e t). Proof. quietly. Qed.
Lemma quiet_log v : quiet s t -> quiet s (set_log v t). Proof. quietly. Qed.
Lemma quiet_finalCalled v : quiet s t -> quiet s (set_finalCalled v t). Proof. quietly. Qed.
Lemma quiet_final_called v : quiet s t -> quiet s (set_final_called v t). Proof. quietly. Qed.
Lemma quiet_destroy_called v : quiet s t -> quiet s (set_destroy_called v t). Proof. quietly. Qed.
Lemma quiet_destroy_cb v : quiet s t -> quiet s (set_destroy_cb v t). Proof. quietly. Qed.
Lemma quiet_kOnFinished v : quiet s t -> quiet s (set_kOnFinished v t). Proof. quietly. Qed.
Lemma quiet_prefinished v : quiet s t -> quiet s (set_prefinished v t). Proof. quietly. Qed.
Lemma quiet_ended v : quiet s t -> quiet s (set_ended v t). Proof. quietly. Qed.
Lemma quiet_ending : quiet s t -> quiet s (set_ending true t). Proof. quietly. Qed.
Lemma quiet_destroyed : quiet s t -> quiet s (set_destroyed true t). Proof. quietly. Qed.
Lemma quiet_errorEmitted v : quiet s t -> quiet s (set_errorEmitted v t). Proof. quietly. Qed.
Lemma quiet_closed v : quiet s t -> quiet s (set_closed v t). Proof. quietly. Qed.
Lemma quiet_closeEmitted v : quiet s t -> quiet s (set_closeEmitted v t). Proof. quietly. Qed.
Lemma quiet_defaultEncoding v : quiet s t -> quiet s (set_defaultEncoding v t). Proof. quietly. Qed.
Lemma quiet_allBuffers v : quiet s t -> quiet s (set_allBuffers v t). Proof. quietly. Qed.

Lemma quiet_needDrain : quiet s t -> quiet s (set_needDrain false t).
Proof.
  intros Q. eapply quiet_trans; [exact Q|]. constructor; [by constructor|auto|auto|auto|done|].
  exists []. by rewrite app_nil_r.
Qed.

Lemma quiet_tick x : fine_tick t x -> ~ waits_tick x -> quiet s t -> quiet s (nextTick x t).
Proof.
  intros Hx Hw Q. eapply quiet_trans; [exact Q|]. constructor; [by constructor|auto|auto|auto|auto|].
  exists [x]. split; [done|]. by constructor.
Qed.

Lemma quiet_finished : done_ t -> quiet s t -> quiet s (set_finished true t).
Proof.
  intros D Q. eapply quiet_trans; [exact Q|]. constructor; [by constructor|intros _; by right|auto|auto|auto|].
  exists []. by rewrite app_nil_r.
Qed.

Lemma quiet_checkError er : quiet s t -> quiet s (checkError er t).
Proof.
  unfold checkError. destruct er as [e|]; [|done]. destruct (errored t) eqn:E; [done|]. quietly.
Qed.
End Quiet.

(** ** Going on *)

Definition holds (p : state * mode) : Prop := inv p.1 p.2.

Lemma sum_of_app {T} (g : T -> nat) l l' : sum g (l ++ l') = (sum g l + sum g l')%nat.
Proof. unfold sum. induction l as [|x l IH]; cbn; [done|]. rewrite IH. lia. Qed.

Lemma sum_zero {T} (g : T -> nat) l : Forall (fun x => g x = O) l -> sum g l = O.
Proof. unfold sum. induction 1 as [|x l E _ IH]; cbn; lia. Qed.

Lemma tick_infos_app l l' : tick_infos (l ++ l') = tick_infos l ++ tick_infos l'.
Proof. apply omap_app. Qed.

Lemma tick_infos_other l : Forall (fun t => ~ waits_tick t) l -> tick_infos l = [].
Proof. induction 1 as [|[] l W _ IH]; cbn in *; try done; tauto. Qed.

Lemma quiet_ready s s' k : quiet s s' -> ready s k -> ready s' k.
Proof.
  intros Q [D I K N T Fi In Nd]. pose proof (q_frame _ _ Q) as F. destruct (q_ticks _ _ Q) as (ts & Et & Ht).
  assert (tick_infos ts = []) as Ei by (apply tick_infos_other; eapply Forall_impl; [exact Ht|]; by intros ? []).
  constructor; rewrite ?Et, ?tick_infos_app, ?Ei, ?app_nil_r, ?(f_konts _ _ F).
  - by apply (frame_data F).
  - by apply (frame_idle F).
  - by apply (frame_left F).
  - by apply (frame_fine_konts F).
  - apply Forall_app. split; [|eapply Forall_impl; [exact Ht|]; by intros ? []].
    eapply Forall_impl; [exact T|]. intros ?. by apply frame_fine_tick.
  - intros [Hf|Hf]%(q_finished _ _ Q); [|done]. by apply (frame_done F), Fi.
  - intros i Hi%(q_info _ _ Q). by apply In.
  - done.
Qed.

(** Nobody has to wait for an [afterWrite]. *)
Definition drained (s : state) : Prop :=
  clean s -> ending s = false -> needDrain s = true -> writing s = true \/ todo s <> [].

Lemma quiet_accounts s s' i l k :
  quiet s s' -> accounts s (Stream (i ++ k)) -> (Exists waits i -> Exists waits l \/ drained s') ->
  (forall f, sum (weight f (arrays s)) i + called f s = sum (weight f (arrays s)) l + called f s')%nat ->
  accounts s' (Stream (l ++ k)).
Proof.
  intros Q [Dr Co] W C. pose proof (q_frame _ _ Q) as F. destruct (q_ticks _ _ Q) as (ts & Et & Ht). constructor.
  - intros Cl E N. assert (drained s' -> writing s' = true \/ todo s' <> []) as Wd by (intros Wd; by apply Wd).
    revert W Wd. unfold waiting. cbn [left]. rewrite (frame_todo F), (f_writing _ _ F), (f_konts _ _ F), Et, !Exists_app.
    destruct Dr as [|[|[H|H]]].
    + by apply (f_clean _ _ F).
    + destruct (ending s) eqn:Es; [|done]. by rewrite (f_ending _ _ F Es) in E.
    + by apply (q_drain _ _ Q).
    + tauto.
    + tauto.
    + cbn [left] in H. rewrite Exists_app in H. tauto.
    + tauto.
  - intros Cl f. specialize (Co (f_clean _ _ F Cl) f). specialize (C f). revert Co. unfold owed. cbn [left].
    rewrite (frame_todo F), (f_arrays _ _ F), (q_infos _ _ Q), (f_konts _ _ F), (f_writecb _ _ F), (f_accepted _ _ F), Et, !sum_of_app.
    rewrite (sum_zero _ ts); [lia|]. eapply Forall_impl; [exact Ht|]. intros [] [_ Hw]; cbn in *; tauto.
Qed.

Lemma ready_inv s k : ready s k -> accounts s (Stream k) -> inv s (Stream k).
Proof. intros [] Ac. constructor; try done. by apply control_stream. Qed.

Lemma ready_program s : ready s [] -> accounts s (Stream []) -> inv s Program.
Proof. intros [] [Dr Co]. constructor; try done. by apply control_program. Qed.

Lemma ready_app s l k : ready s (l ++ k) <-> Forall (fine s) l /\ ready s k.
Proof.
  split.
  - intros []. by apply Forall_app in r_left0 as [? ?].
  - intros [L []]. constructor; try done. by apply Forall_app.
Qed.

Lemma ready_konts s k : ready s k -> ready (set_konts ((InProgram, k) :: konts s) s) [] .
Proof.
  intros [[] I K N T Fi In Nd]. constructor; try done; by constructor.
Qed.

Lemma owed_konts f s c k : owed f (set_konts ((c, k) :: konts s) s) Program = owed f s (Stream k).
Proof.
  unfold owed. change (todo (set_konts ((c, k) :: konts s) s)) with (todo s).
  cbn [left arrays infos ticks konts writecb set_konts sum foldr snd]. unfold sum. lia.
Qed.

Lemma accounts_konts s c k : accounts s (Stream k) <-> accounts (set_konts ((c, k) :: konts s) s) Program.
Proof.
  split; intros [Dr Co]; constructor.
  - intros Cl E N. destruct (Dr Cl E N) as [|[|[W|[W|W]]]]; [by left|by right; left|..]; right; right; right.
    + left. by apply Exists_cons_hd.
    + left. by apply Exists_cons_tl.
    + by right.
  - intros Cl f. rewrite owed_konts. by apply Co.
  - intros Cl E N. destruct (Dr Cl E N) as [|[|[W|[W|W]]]]; [by left|by right; left|..]; right; right.
    + by apply Exists_nil in W.
    + cbn in W. apply Exists_cons in W as [W|W]; [by left|by right; left].
    + by right; right.
  - intros Cl f. specialize (Co Cl f). by rewrite owed_konts in Co.
Qed.

Lemma called_tell f e s : called f (tell e s) = (called f s + is_written f e)%nat.
Proof. unfold called, tell. cbn [log set_log]. rewrite sum_of_app. unfold sum. cbn [foldr]. lia. Qed.

(** From an instruction [i], or none, to a state where others remain. *)
Section Outcomes.
Context (i : list instr) (s s' : state) (k : list instr).
Context (Q : quiet s s') (R : ready s k) (Ac : accounts s (Stream (i ++ k))).

Lemma quiet_go l :
  Forall (fine s') l -> (Exists waits i -> Exists waits l \/ drained s') ->
  (forall f, sum (weight f (arrays s)) i + called f s = sum (weight f (arrays s)) l + called f s')%nat ->
  holds (settle (Go s' l) k).
Proof.
  intros L W C. apply ready_inv; [apply ready_app; split; [done|by apply (quiet_ready s)]|].
  by apply (quiet_accounts s s' i).
Qed.

Lemma quiet_call l :
  Forall (fine s') l -> (Exists waits i -> Exists waits l \/ drained s') ->
  (forall f, sum (weight f (arrays s)) i + called f s = sum (weight f (arrays s)) l + called f s')%nat ->
  holds (settle (Call s' InProgram l) k).
Proof.
  intros L W C. assert (ready s' (l ++ k)) as R' by (apply ready_app; split; [done|by apply (quiet_ready s)]).
  apply ready_program; [by apply ready_konts|]. assert (accounts s' (Stream (l ++ k))) as A by (by apply (quiet_accounts s s' i)).
  apply (accounts_konts _ InProgram) in A. destruct A. by constructor.
Qed.

Lemma quiet_raise er : ~ clean s' \/ i = [] /\ k = [] /\ (forall f, called f s = called f s') -> holds (settle (Raise s' er) k).
Proof.
  intros H. assert (quiet s (tell (Threw er) s')) as Q' by (by apply quiet_tell).
  apply ready_program.
  - destruct (quiet_ready _ _ _ Q' R). by constructor.
  - destruct H as [N|(-> & -> & C)]; [by constructor; intros|].
    apply (quiet_accounts s (tell (Threw er) s') [] [] []); [done|done|by left|]. intros f. rewrite (C f), called_tell. cbn [is_written]. unfold sum. cbn [foldr]. lia.
Qed.
End Outcomes.

(** ** The instructions that leave the buffer alone *)

#[global] Arguments sum : simpl never.
#[local] Arguments count : simpl never.
#[local] Arguments expand : simpl never.
#[local] Arguments checkError : simpl never.

Lemma sum_cons {T} (g : T -> nat) x l : sum g (x :: l) = (g x + sum g l)%nat.
Proof. done. Qed.

Lemma sum_nil {T} (g : T -> nat) : sum g [] = O.
Proof. done. Qed.

Lemma log_checkError er s : log (checkError er s) = log s.
Proof. unfold checkError. by destruct er, (errored s). Qed.

Create HintDb stream.
#[local] Hint Resolve quiet_refl quiet_sync quiet_pendingcb quiet_tell quiet_log quiet_finalCalled quiet_final_called
  quiet_destroy_called quiet_destroy_cb quiet_kOnFinished quiet_prefinished quiet_ended quiet_ending quiet_destroyed
  quiet_errorEmitted quiet_closed quiet_closeEmitted quiet_defaultEncoding quiet_allBuffers quiet_needDrain
  quiet_checkError quiet_tick : stream.
#[local] Hint Extern 1 (fine_tick _ _) => exact I : stream.
#[local] Hint Extern 1 (~ waits_tick _) => intros [] : stream.

Ltac weigh :=
  intros f; rewrite ?sum_cons, ?sum_nil; unfold called; cbn; rewrite ?log_checkError; cbn; rewrite ?sum_of_app, ?sum_cons, ?sum_nil; cbn; lia.

Ltac no_wait :=
  let W := fresh "W" in intros W; repeat (apply Exists_cons in W as [W|W]); try done; try by apply Exists_nil in W.

(** Instructions that neither wait for an [afterWrite] nor call the callback
    of a write. *)
Definition light (i : instr) : Prop := ~ waits i /\ forall f A, weight f A i = O.

Lemma accounts_light i s k : light i -> accounts s (Stream (i :: k)) -> accounts s (Stream k).
Proof.
  intros [Wa We] [Dr Co]. constructor.
  - intros Cl E N. destruct (Dr Cl E N) as [|[|[W|W]]]; [by left|by right; left|..]; right; right; [|by right].
    left. apply Exists_cons in W as [W|W]; [by apply Wa in W|done].
  - intros Cl f. rewrite (Co Cl f). unfold owed. cbn [left]. rewrite sum_cons, We. lia.
Qed.

Ltac fines := repeat first [exact I | apply List.Forall_nil | apply List.Forall_cons].

(** To a step that is [quiet]; what remains is about [fine]. *)
Ltac calm i :=
  cbv beta iota zeta;
  match goal with
  | _ : ready ?s _ |- holds (settle (Go _ _) _) => eapply (quiet_go i s); [eauto 10 with stream|eassumption|eassumption|fines|no_wait|weigh]
  | _ : ready ?s _ |- holds (settle (Call _ _ _) _) => eapply (quiet_call i s); [eauto 10 with stream|eassumption|eassumption|fines|no_wait|weigh]
  end.
Tactic Notation "calm" := calm (@nil instr).

Section Instructions.
Context (s : state) (k : list instr) (R : ready s k) (Ac : accounts s (Stream k)).

Lemma holds_destroyImpl_destroy er c : holds (settle (destroyImpl_destroy er c s) k).
Proof. unfold destroyImpl_destroy. destruct (destroyed s); [destruct c; calm|]. unfold call_destroy. calm. Qed.

Lemma holds_onDestroy er : holds (settle (onDestroy er s) k).
Proof. unfold onDestroy. destruct (destroy_called s); [calm|]. destruct (destroy_cb _); calm. Qed.

Lemma holds_destroyed er : holds (settle (destroyed_ er s) k).
Proof. unfold destroyed_. destruct er; calm. Qed.

Lemma holds_emitErrorNT er : holds (settle (emitErrorNT er s) k).
Proof. unfold emitErrorNT, emit. destruct (errorEmitted s); calm. Qed.

Lemma holds_emitCloseNT : holds (settle (emitCloseNT o s) k).
Proof. unfold emitCloseNT, emit. destruct (emitClose o); calm. Qed.

Lemma holds_errorOrDestroy er b : holds (settle (errorOrDestroy o er b s) k).
Proof. unfold errorOrDestroy. destruct (destroyed s), (autoDestroy o), b; calm. Qed.

Lemma unclean_destroyed t : ~ clean (set_destroyed true t).
Proof. by intros [_ ?]. Qed.

Lemma destroyed_tick er c t : destroyed t = false ->
  destroyImpl_destroy er c (nextTick TErrorBuffer t)
  = Call (nextTick TErrorBuffer (t |> checkError er |> set_destroyed true |> set_destroy_called false |> set_destroy_cb c)) InProgram [].
Proof.
  intros E. unfold destroyImpl_destroy. cbn [destroyed nextTick set_ticks]. rewrite E. unfold call_destroy, checkError.
  destruct er; [|done]. change (errored (nextTick TErrorBuffer t)) with (errored t). by destruct (errored t).
Qed.

Lemma holds_destroy er c : holds (settle (destroy er c s) k).
Proof.
  unfold destroy. destruct (negb _ && _) eqn:E; [|apply holds_destroyImpl_destroy].
  apply andb_prop in E as [E%negb_true_iff _]. rewrite destroyed_tick by done.
  eapply (quiet_call [] s); [|done|done|done|no_wait|weigh].
  apply quiet_tick; [by apply unclean_destroyed|by intros []|auto 10 with stream].
Qed.

Lemma holds_writeReturns report ret : holds (settle (writeReturns report ret s) k).
Proof. unfold writeReturns, returns. destruct report; calm. Qed.

Lemma holds_returnFalse : holds (settle (Go (tell (Returned false) s) []) k).
Proof. calm. Qed.

Lemma holds_setDefaultEncoding e : k = [] -> holds (settle (setDefaultEncoding e s) k).
Proof.
  intros ->. unfold setDefaultEncoding. destruct e; cbv zeta; cbn [isEncoding]; repeat case_match; try calm.
  all: eapply (quiet_raise [] s); eauto with stream.
Qed.

Lemma holds_callFn id er : holds (settle (callFn id er s) k).
Proof. unfold callFn. calm. Qed.

Lemma holds_errorBuffer : ~ clean s -> holds (settle (errorBuffer s) k).
Proof. intros N. unfold errorBuffer. destruct (writing s); calm; done. Qed.

Lemma holds_onwriteError er c : ~ clean s -> sound_cb s c -> holds (settle (onwriteError er c s) k).
Proof. intros N C. unfold onwriteError. calm; done. Qed.

Lemma holds_afterCallbacks : holds (settle (afterCallbacks s) k).
Proof.
  unfold afterCallbacks. destruct (destroyed s) eqn:E; calm. intros [_ ?]. congruence.
Qed.

Lemma holds_finishedCallbacks l er : holds (settle (finishedCallbacks l er s) k).
Proof. unfold finishedCallbacks. destruct l; calm. Qed.

Lemma holds_endUncorked err c : holds (settle (endUncorked err c s) k).
Proof. unfold endUncorked. repeat case_match; calm. Qed.

Lemma holds_endReturns err c : holds (settle (endReturns err c s) k).
Proof. unfold endReturns. repeat case_match; calm. Qed.

Lemma holds_finishDestroy : holds (settle (finishDestroy o s) k).
Proof. unfold finishDestroy. repeat case_match; calm. Qed.

Lemma holds_finishEmit : holds (settle (emit "finish" s [FinishDestroy]) k).
Proof. unfold emit. calm. Qed.
End Instructions.
(** ** The end of a stream *)

Lemma needFinish_done s : data s -> needFinish s = true -> done_ s.
Proof.
  intros D N. unfold needFinish in N. repeat (apply andb_prop in N as [N ?]).
  assert (buffer s = []) as B by (apply nil_length_inv; by apply Nat.eqb_eq).
  assert (todo s = []) as T by (unfold todo; by rewrite B, drop_nil).
  assert (clean s) as C.
  { split; [|by apply negb_true_iff]. unfold is_errored in *. by destruct (errored s). }
  split_and!; [done| |done]. by rewrite (d_all _ D C), T, app_nil_r.
Qed.

Section Ending.
Context (s : state) (k : list instr) (R : ready s k) (Ac : accounts s (Stream k)).

Lemma holds_finishMaybe b : holds (settle (finishMaybe o b s) k).
Proof.
  unfold finishMaybe, prefinish, callFinal, emit. repeat case_match; cbn [and_then app]; calm.
Qed.

Lemma holds_finishWhenIdle b : holds (settle (finishWhenIdle b s) k).
Proof.
  pose proof (needFinish_done s (r_data _ _ R)) as D. unfold finishWhenIdle. repeat case_match; try calm.
  by apply D.
Qed.

Lemma holds_finishTick : holds (settle (finishTick s) k).
Proof.
  pose proof (needFinish_done s (r_data _ _ R)) as D. unfold finishTick. repeat case_match; try calm.
  by apply D.
Qed.

Lemma holds_onFinish er : k = [] -> holds (settle (onFinish er s) k).
Proof.
  intros ->. unfold onFinish, emit. destruct (final_called s).
  - destruct er; [calm|]. eapply (quiet_raise [] s); eauto with stream.
  - destruct er; [calm|]. case_match; calm. by apply (needFinish_done _ (r_data _ _ R)).
Qed.

Lemma holds_onFinishReady : done_ s -> holds (settle (onFinishReady s) k).
Proof.
  intros D. unfold onFinishReady. eapply (quiet_go [] s); [|done|done|done|no_wait|weigh].
  apply quiet_tick; [done|by intros []|auto with stream].
Qed.

Lemma holds_finish : done_ s -> holds (settle (finish s) k).
Proof.
  intros D. unfold finish. eapply (quiet_go [] s); [|done|done|by repeat constructor|no_wait|weigh].
  apply quiet_kOnFinished, quiet_finished; [done|auto with stream].
Qed.
End Ending.

(** ** Callbacks *)

Lemma sound_next s n a : sound_cb s (Each n a) -> sound_cb s (Each (S n) a).
Proof.
  intros (L & S & B). split_and!; [done| |done]. rewrite <- Nat.add_1_r, <- drop_drop. by apply Forall_drop.
Qed.

Lemma sound_simple s c : simple c -> sound_cb s c.
Proof. by destruct c. Qed.

Lemma count_cons f c l : count f (c :: l) = (count f [c] + count f l)%nat.
Proof. unfold count. cbn. case_match; lia. Qed.

Lemma count_Fn f g : count f [Fn g] = (if (g =? f)%Z then 1 else 0)%nat.
Proof. unfold count. cbn [count_occ]. destruct (cb_eq_dec (Fn g) (Fn f)), (Z.eqb_spec g f); congruence. Qed.

Lemma count_Nop f : count f [Nop] = O.
Proof. unfold count. cbn [count_occ]. by destruct (cb_eq_dec Nop (Fn f)). Qed.

Lemma count_next f s n a r :
  array s a !! n = Some (Some r) -> simple (callback r) ->
  count f (expand (arrays s) (Each n a)) = (count f (expand (arrays s) (callback r)) + count f (expand (arrays s) (Each (S n) a)))%nat.
Proof.
  intros E Sr. unfold array in E. unfold expand. rewrite (drop_S _ _ _ E). unfold cbs at 1. cbn [omap list_omap id fmap list_fmap].
  rewrite count_cons. by destruct (callback r).
Qed.

Section Calls.
Context (s : state) (k : list instr) (R : ready s k).

Lemma holds_callBack c er :
  sound_cb s c -> accounts s (Stream (CallBack c er :: k)) -> holds (settle (callBack c er s) k).
Proof.
  intros Sc Ac. destruct c as [|id|n a]; cbn [callBack].
  - eapply (quiet_go [CallBack Nop er] s); [auto with stream|done|done|done|no_wait|].
    destruct er; [weigh|]. intros f. rewrite !sum_cons, !sum_nil. cbn. unfold expand. rewrite count_Nop. lia.
  - eapply (quiet_call [CallBack (Fn id) er] s); [auto with stream|done|done|done|no_wait|].
    intros f. rewrite called_tell, sum_cons, !sum_nil. destruct er; cbn; [lia|]. unfold expand. rewrite count_Fn. lia.
  - eapply (quiet_go [CallBack (Each n a) er] s); [auto with stream|done|done|by constructor|no_wait|].
    intros f. rewrite !sum_cons, !sum_nil. destruct er; cbn; lia.
Qed.

Lemma holds_eachFrom n a er :
  sound_cb s (Each n a) -> accounts s (Stream (EachFrom n a er :: k)) -> holds (settle (eachFrom n a er s) k).
Proof.
  intros Sc Ac. pose proof Sc as (L & So & _). unfold eachFrom. destruct (array s a !! n) as [[r|]|] eqn:E.
  - eapply (quiet_go [EachFrom n a er] s); [auto with stream|done|done| |no_wait|].
    + constructor; [|constructor; [by apply sound_next|done]].
      apply sound_simple, (d_simple _ (r_data _ _ R) a). by eapply list_elem_of_lookup_2.
    + intros f. rewrite !sum_cons, !sum_nil. destruct er; cbn; [lia|]. rewrite (count_next f s n a r); [lia|done|].
      apply (d_simple _ (r_data _ _ R) a). by eapply list_elem_of_lookup_2.
  - exfalso. rewrite (drop_S _ _ _ E) in So. apply Forall_inv in So. by destruct So.
  - eapply (quiet_go [EachFrom n a er] s); [auto with stream|done|done|done|no_wait|].
    intros f. rewrite !sum_cons, !sum_nil. destruct er; cbn; [lia|]. unfold expand. apply lookup_ge_None in E.
    unfold array in E. rewrite drop_ge by done. cbn. unfold count. cbn. lia.
Qed.

Lemma holds_callbacks n c :
  sound_cb s c -> accounts s (Stream (Callbacks n c :: k)) -> holds (settle (callbacks n c s) k).
Proof.
  intros Sc Ac. unfold callbacks. destruct n.
  - eapply (quiet_go [Callbacks 0 c] s); [auto with stream|done|done|by repeat constructor|no_wait|weigh].
  - eapply (quiet_go [Callbacks (S n) c] s); [auto with stream|done|done|by repeat constructor|no_wait|weigh].
Qed.
End Calls.
(** ** After a write *)

Lemma drained_length s : data s -> length_ s <> 0 -> drained s.
Proof.
  intros D L C _ _. destruct (writing s) eqn:W; [by left|right]. intros T. apply L.
  by rewrite (d_length _ D C), (d_idle _ D W), T.
Qed.

Section After.
Context (s : state) (k : list instr) (R : ready s k).

Lemma holds_afterWrite n c :
  sound_cb s c -> accounts s (Stream (AfterWrite n c :: k)) -> holds (settle (afterWrite n c s) k).
Proof.
  intros Sc Ac. unfold afterWrite, emit. destruct (_ && _) eqn:E.
  - eapply (quiet_call [AfterWrite n c] s); [auto with stream|done|done|by repeat constructor| |weigh].
    intros _. right. by intros _ _ ?.
  - eapply (quiet_go [AfterWrite n c] s); [auto with stream|done|done|by repeat constructor| |weigh].
    intros _. right. intros C En N. apply (drained_length _ (r_data _ _ R)); [|done..].
    intros L. destruct C as [_ De]. by rewrite En, De, L, N in E.
Qed.

Lemma holds_afterWrite_async c :
  sound_cb s c -> accounts s (Stream (OnwriteScheduled false c :: k)) -> holds (settle (onwriteScheduled false c s) k).
Proof.
  intros Sc Ac. cbn [onwriteScheduled].
  eapply (quiet_go [OnwriteScheduled false c] s); [auto with stream|done|done|by repeat constructor| |weigh].
  intros _. left. by constructor.
Qed.
End After.
(** *** The record of an [afterWrite] that waits *)

Inductive schedules (c : cb) (s : state) : state -> Prop :=
| schedules_again i n :
    afterWriteTickInfo s = Some i -> infos s !! i = Some (n, c) ->
    schedules c s (set_infos (<[i := (S n, c)]> (infos s)) s)
| schedules_new :
    schedules c s (s |> set_infos (infos s ++ [(1%nat, c)]) |> set_afterWriteTickInfo (Some (length (infos s)))
                     |> nextTick (TAfterWrite (length (infos s)))).

Lemma onwriteScheduled_sync c s : exists s', onwriteScheduled true c s = Go s' [] /\ schedules c s s'.
Proof.
  unfold onwriteScheduled. destruct (afterWriteTickInfo s) as [i|] eqn:Ei; cbn; [|eexists; split; [done|apply schedules_new]].
  destruct (infos s !! i) as [[n c']|] eqn:Ep; cbn; [|eexists; split; [done|apply schedules_new]].
  case_bool_decide as Ec; [subst c'|]; eexists; (split; [done|]); [by eapply schedules_again|apply schedules_new].
Qed.

Lemma tick_infos_spec i l : i ∈ tick_infos l <-> TAfterWrite i ∈ l.
Proof.
  unfold tick_infos. rewrite list_elem_of_omap. split; [|by intros E; eexists].
  intros ([] & E & ?); simplify_eq. done.
Qed.

Lemma weight_tick_other f A I I' l :
  (forall i, i ∈ tick_infos l -> I' !! i = I !! i) -> sum (weight_tick f A I') l = sum (weight_tick f A I) l.
Proof.
  induction l as [|t l IH]; intros E; [done|]. rewrite !sum_cons, IH.
  - destruct t; try done. cbn. rewrite E; [done|]. by apply tick_infos_spec, list_elem_of_here.
  - intros i Hi%tick_infos_spec. apply E, tick_infos_spec. by apply list_elem_of_further.
Qed.

Lemma weight_tick_again f A I l i n c :
  NoDup (tick_infos l) -> i ∈ tick_infos l -> I !! i = Some (n, c) ->
  sum (weight_tick f A (<[i := (S n, c)]> I)) l = (count f (expand A c) + sum (weight_tick f A I) l)%nat.
Proof.
  intros N Hi E. assert (i < length I)%nat as Hl by (by eapply lookup_lt_Some). induction l as [|t l IH]; [by apply not_elem_of_nil in Hi|].
  rewrite !sum_cons. destruct t as [| | |j| | | | | |]; cbn [tick_infos omap list_omap] in N, Hi; try (rewrite IH by done; cbn; lia).
  apply NoDup_cons in N as [Nj N]. apply elem_of_cons in Hi as [->|Hi].
  - rewrite (weight_tick_other _ _ I).
    + cbn. rewrite list_lookup_insert_eq, E by done. lia.
    + intros i Hi. rewrite list_lookup_insert_ne; [done|]. by intros ->.
  - rewrite IH by done. cbn. rewrite list_lookup_insert_ne; [lia|]. by intros ->.
Qed.

Section Schedules.
Context (c : cb) (s s' : state) (Sc : schedules c s s') (So : sound_cb s c).

Lemma schedules_frame : frame s s'.
Proof.
  destruct Sc as [i n Hi Hn|]; (constructor; try done; cbn [infos set_infos nextTick set_ticks set_afterWriteTickInfo]).
  - by rewrite length_insert.
  - intros I. by apply Forall_insert.
  - rewrite length_app. lia.
  - intros I. apply Forall_app. split; [done|]. by constructor.
Qed.

Lemma schedules_ticks :
  Forall (fine_tick s) (ticks s) -> (forall i, afterWriteTickInfo s = Some i -> i ∈ tick_infos (ticks s)) -> NoDup (tick_infos (ticks s)) ->
  Forall (fine_tick s') (ticks s') /\ (forall i, afterWriteTickInfo s' = Some i -> i ∈ tick_infos (ticks s'))
  /\ NoDup (tick_infos (ticks s')) /\ Exists waits_tick (ticks s').
Proof.
  intros T Hi N. assert (Forall (fine_tick s') (ticks s)) as T'.
  { eapply Forall_impl; [exact T|]. intros t. by apply frame_fine_tick, schedules_frame. }
  destruct Sc as [i n E _|]; split_and!; try done.
  - apply Exists_exists. exists (TAfterWrite i). split; [|done]. by apply tick_infos_spec, Hi.
  - apply Forall_app. split; [done|]. constructor; [|done]. cbn. rewrite length_app. cbn. lia.
  - intros i [= <-]. cbn [ticks nextTick set_ticks]. rewrite tick_infos_app. apply elem_of_app. right. by apply list_elem_of_here.
  - cbn [ticks nextTick set_ticks]. rewrite tick_infos_app. apply NoDup_app. split_and!; [done| |by apply NoDup_singleton].
    intros i Hi'%tick_infos_spec Hn. apply list_elem_of_singleton in Hn as ->.
    eapply Forall_forall in T; [|exact Hi']. cbn in T. lia.
  - cbn [ticks nextTick set_ticks]. apply Exists_app. right. by constructor.
Qed.

Lemma schedules_accounts k :
  Forall (fine_tick s) (ticks s) -> (forall i, afterWriteTickInfo s = Some i -> i ∈ tick_infos (ticks s)) -> NoDup (tick_infos (ticks s)) ->
  accounts s (Stream (OnwriteScheduled true c :: k)) -> accounts s' (Stream k).
Proof.
  intros T Hi N [_ Co]. destruct (schedules_ticks T Hi N) as (_ & _ & _ & W). constructor.
  - intros _ _ _. right. right. by right; right.
  - intros Cl f. specialize (Co (f_clean _ _ schedules_frame Cl) f). revert Co.
    destruct Sc as [i n E En|]; unfold called, owed;
      cbn [left log arrays infos ticks konts writecb accepted set_infos set_afterWriteTickInfo nextTick set_ticks].
    + change (todo (set_infos _ s)) with (todo s). rewrite sum_cons, (weight_tick_again f _ _ _ i n c); [cbn; lia|done|by apply Hi|done].
    + set (u := nextTick _ _). change (todo u) with (todo s). rewrite sum_cons, sum_of_app, sum_cons, sum_nil.
      rewrite (weight_tick_other f _ (infos s) (infos s ++ [(1%nat, c)])).
      * cbn. rewrite lookup_app_r, Nat.sub_diag by lia. cbn. lia.
      * intros i Hi'%tick_infos_spec. eapply Forall_forall in T; [|exact Hi']. cbn in T. by rewrite lookup_app_l.
Qed.
End Schedules.

Lemma holds_afterWrite_sync s k c :
  ready s k -> sound_cb s c -> accounts s (Stream (OnwriteScheduled true c :: k)) -> holds (settle (onwriteScheduled true c s) k).
Proof.
  intros R So Ac. destruct (onwriteScheduled_sync c s) as (s' & -> & Sc). pose proof (schedules_frame _ _ _ Sc So) as F.
  destruct R as [D I K N T Fi In Nd]. destruct (schedules_ticks _ _ _ Sc So T In Nd) as (T' & In' & Nd' & _).
  change (inv s' (Stream k)). apply ready_inv; [|by eapply schedules_accounts]. constructor; try done.
  - by apply (frame_data F).
  - by apply (frame_idle F).
  - by apply (frame_left F).
  - rewrite (f_konts _ _ F). by apply (frame_fine_konts F).
  - intros Hf. apply (frame_done F), Fi. by destruct Sc.
Qed.
(** ** Steps that change the buffer *)

(** As [ready], but wherever [clearBuffer] is. *)
Record base (s : state) (k : list instr) : Prop := {
  b_data : data s;
  b_left : Forall (fine s) k;
  b_konts : Forall (fine_kont s) (konts s);
  b_ticks : Forall (fine_tick s) (ticks s);
  b_finished : finished s = true -> done_ s;
  b_info : forall i, afterWriteTickInfo s = Some i -> i ∈ tick_infos (ticks s);
  b_nodup : NoDup (tick_infos (ticks s))
}.

Lemma ready_base s k : ready s k <-> base s k /\ idle s.
Proof. split; [intros []; by split|intros [[] ?]; by constructor]. Qed.

Lemma base_app s l k : base s (l ++ k) <-> Forall (fine s) l /\ base s k.
Proof.
  split.
  - intros []. by apply Forall_app in b_left0 as [? ?].
  - intros [L []]. constructor; try done. by apply Forall_app.
Qed.

(** The callbacks that are still to be called are not touched. *)
Record moves (s s' : state) : Prop := {
  m_expand : forall c, sound_cb s c -> expand (arrays s') c = expand (arrays s) c;
  m_sound : forall c, sound_cb s c -> sound_cb s' c;
  m_done : done_ s -> done_ s';
  m_clean : clean s' -> clean s;
  m_infos : infos s' = infos s;
  m_ticks : ticks s' = ticks s;
  m_konts : konts s' = konts s;
  m_finished : finished s' = finished s;
  m_info : afterWriteTickInfo s' = afterWriteTickInfo s
}.

Lemma moves_trans s t u : moves s t -> moves t u -> moves s u.
Proof.
  intros M M'. pose proof (m_sound _ _ M). destruct M, M'. constructor; try congruence; auto.
  intros c Hc. rewrite m_expand1 by auto. auto.
Qed.

Section Moves.
Context {s s' : state} (M : moves s s').

Lemma moves_fine i : fine s i -> fine s' i.
Proof.
  pose proof (m_done _ _ M). pose proof (m_sound _ _ M). pose proof (m_clean _ _ M).
  destruct i; cbn [fine]; try tauto; auto. intros [? ?]. split; auto.
Qed.

Lemma moves_fine_tick t : fine_tick s t -> fine_tick s' t.
Proof.
  pose proof (m_done _ _ M). pose proof (m_sound _ _ M). pose proof (m_clean _ _ M).
  destruct t; cbn [fine_tick]; rewrite ?(m_infos _ _ M); try tauto; auto. intros [? ?]. split; auto.
Qed.

Lemma moves_left k : Forall (fine s) k -> Forall (fine s') k.
Proof. intros K. eapply Forall_impl; [exact K|]. apply moves_fine. Qed.

Lemma moves_base k : data s' -> base s k -> base s' k.
Proof.
  intros D' [D K N T Fi In Nd]. constructor; rewrite ?(m_ticks _ _ M), ?(m_konts _ _ M), ?(m_info _ _ M); try done.
  - by apply moves_left.
  - eapply Forall_impl; [exact N|]. intros c [? ?]. split; [done|by apply moves_left].
  - eapply Forall_impl; [exact T|]. apply moves_fine_tick.
  - rewrite (m_finished _ _ M). intros Hf. by apply (m_done _ _ M), Fi.
Qed.

Lemma moves_weight f i : fine s i -> weight f (arrays s') i = weight f (arrays s) i.
Proof. destruct i; cbn [fine weight]; intros Hi; repeat case_match; try done; by rewrite (m_expand _ _ M). Qed.

Lemma moves_weights f k : Forall (fine s) k -> sum (weight f (arrays s')) k = sum (weight f (arrays s)) k.
Proof. induction 1 as [|i k Hi _ IH]; [done|]. by rewrite !sum_cons, IH, moves_weight. Qed.

Lemma moves_konts f l :
  Forall (fine_kont s) l ->
  sum (fun c => sum (weight f (arrays s')) c.2) l = sum (fun c => sum (weight f (arrays s)) c.2) l.
Proof. induction 1 as [|c l [_ Hc] _ IH]; [done|]. by rewrite !sum_cons, IH, moves_weights. Qed.

Lemma moves_ticks f l :
  Forall (fun p => sound_cb s p.2) (infos s) ->
  sum (weight_tick f (arrays s') (infos s')) l = sum (weight_tick f (arrays s) (infos s)) l.
Proof.
  intros I. rewrite (m_infos _ _ M). induction l as [|t l IH]; [done|]. rewrite !sum_cons, IH. f_equal.
  destruct t as [| | |i| | | | | |]; try done. cbn. destruct (infos s !! i) as [[n c]|] eqn:E; [|done].
  rewrite (m_expand _ _ M); [done|]. by eapply (Forall_lookup_1 _ _ _ _ I) in E.
Qed.

(** What the buffer and the write under way owe. *)
Definition held (f : Z) (s : state) : nat :=
  (match writecb s with Some c => count f (expand (arrays s) c) | None => O end + count f (cbs (todo s)))%nat.

Lemma moves_accounts i l k :
  base s (i ++ k) -> accounts s (Stream (i ++ k)) ->
  (drained s' \/ Exists waits l \/ needDrain s' = needDrain s /\ ending s' = ending s /\ ~ Exists waits i
               /\ (writing s = true \/ todo s <> [] -> writing s' = true \/ todo s' <> [])) ->
  (clean s -> forall f, count f (callback <$> accepted s') + called f s + held f s + sum (weight f (arrays s)) i
    = count f (callback <$> accepted s) + called f s' + held f s' + sum (weight f (arrays s')) l)%nat ->
  accounts s' (Stream (l ++ k)).
Proof.
  intros [D K N T _ _ _] [Dr Co] W C. apply Forall_app in K as [_ K]. constructor.
  - intros Cl E Nd. unfold waiting. cbn [left]. rewrite (m_konts _ _ M), (m_ticks _ _ M), Exists_app.
    destruct W as [W|[W|(E1 & E2 & E3 & W)]]; [destruct (W Cl E Nd); tauto|tauto|].
    destruct Dr as [H|[H|H]]; [by apply (m_clean _ _ M)|congruence|congruence|tauto|tauto|].
    unfold waiting in H. cbn [left] in H. rewrite Exists_app in H. tauto.
  - intros Cl%(m_clean _ _ M) f. specialize (Co Cl f). specialize (C Cl f). revert Co C. unfold owed, held. cbn [left].
    rewrite !sum_of_app, (m_ticks _ _ M), (m_konts _ _ M), (moves_ticks _ _ (d_infos _ D)), (moves_konts _ _ N), (moves_weights _ _ K). lia.
Qed.
End Moves.
(** *** Arrays *)

Lemma array_insert s a l b :
  (a < length (arrays s))%nat -> default [] (<[a := l]> (arrays s) !! b) = if decide (b = a) then l else array s b.
Proof.
  intros L. destruct (decide (b = a)) as [->|N]; [by rewrite list_lookup_insert_eq|].
  by rewrite list_lookup_insert_ne by done.
Qed.

Lemma array_new s b : default [] ((arrays s ++ [[]]) !! b) = array s b.
Proof.
  unfold array. destruct (decide (b < length (arrays s))%nat); [by rewrite lookup_app_l|].
  rewrite lookup_app_r by lia. rewrite (lookup_ge_None_2 (arrays s)) by lia. by destruct (b - length (arrays s))%nat as [|[]].
Qed.

Lemma cbs_app l l' : cbs (l ++ l') = cbs l ++ cbs l'.
Proof. unfold cbs. by rewrite omap_app, fmap_app. Qed.

Lemma chunks_app l l' : chunks (l ++ l') = chunks l ++ chunks l'.
Proof. unfold chunks. by rewrite omap_app, fmap_app. Qed.

Lemma total_chunks_app l l' : total (l ++ l') = total l + total l'.
Proof. unfold total. rewrite chunks_app, fmap_app. induction (chunk_length o <$> chunks l) as [|x xs IH]; cbn; lia. Qed.

Lemma count_cbs_app f l l' : count f (l ++ l') = (count f l + count f l')%nat.
Proof. apply count_occ_app. Qed.

Lemma sound_apart s n a : bufferProcessing s = false -> sound_cb s (Each n a) -> a <> buffered s.
Proof. intros B (_ & _ & H) E. destruct (H E). congruence. Qed.

Lemma at_rest_writecb s : data s -> writing s = false -> writecb s = None.
Proof.
  intros D W. pose proof (d_cb _ D) as H. rewrite W in H. symmetry in H. apply bool_decide_eq_false in H. by apply eq_None_not_Some.
Qed.

(** *** A request that goes to the buffer *)

Definition pushed (r : request) (nd ab an : bool) (lg : list event) (s : state) : state :=
  s |> set_length_ (length_ s + chunk_length o (chunk r)) |> set_accepted (accepted s ++ [r]) |> set_needDrain nd
    |> set_arrays (<[buffered s := buffer s ++ [Some r]]> (arrays s)) |> set_allBuffers ab
    |> set_allNoop an |> set_log lg.

Section Push.
Context (r : request) (nd ab an : bool) (lg : list event) (s : state).
Let s' := pushed r nd ab an lg s.
Context (D : data s) (I : idle s) (Sr : simple (callback r)) (En : ending s = false).
Context (An : an = true -> allNoop s = true /\ callback r = Nop).

Lemma pushed_buffer : buffer s' = buffer s ++ [Some r].
Proof.
  unfold buffer at 1, array. cbn [s' pushed arrays buffered set_length_ set_accepted set_needDrain set_arrays set_allBuffers set_allNoop set_log].
  rewrite array_insert by apply (d_array _ D). by rewrite decide_True.
Qed.

Lemma pushed_array b : b <> buffered s -> array s' b = array s b.
Proof.
  intros N. unfold array at 1. cbn [s' pushed arrays set_length_ set_accepted set_needDrain set_arrays set_allBuffers set_allNoop set_log].
  rewrite array_insert by apply (d_array _ D). by rewrite decide_False.
Qed.

Lemma pushed_todo : todo s' = todo s ++ [Some r].
Proof. unfold todo at 1. rewrite pushed_buffer. change (cursor s') with (cursor s). by rewrite drop_app_le by apply (d_cursor _ D). Qed.

Lemma pushed_sound c : sound_cb s c -> sound_cb s' c.
Proof.
  destruct c as [| |n a]; try done. intros Sc. pose proof (sound_apart _ _ _ (proj1 I) Sc) as Na. destruct Sc as (L & So & _).
  split_and!; [by cbn; rewrite length_insert|by rewrite pushed_array|by intros ?].
Qed.

Lemma pushed_moves : moves s s'.
Proof.
  constructor; try done.
  - intros [| |n a] Sc; try done. pose proof (sound_apart _ _ _ (proj1 I) Sc) as Na.
    unfold expand. by rewrite (pushed_array a Na : default [] (arrays s' !! a) = _).
  - apply pushed_sound.
  - intros (E & _). congruence.
Qed.

Lemma pushed_data : data s'.
Proof.
  pose proof pushed_todo as T. destruct D. constructor; rewrite ?T, ?pushed_buffer; try done.
  - by cbn; rewrite length_insert.
  - rewrite length_app. cbn [cursor s' pushed]. change (cursor s') with (cursor s). lia.
  - apply Forall_app. split; [done|]. by constructor.
  - rewrite chunks_app, (assoc_L (++)). change (accepted s') with (accepted s ++ [r]). rewrite fmap_app.
    by apply sublist_app.
  - intros C. change (accepted s') with (accepted s ++ [r]). by rewrite fmap_app, d_all0, chunks_app, (assoc_L (++)).
  - intros C. change (length_ s') with (length_ s + chunk_length o (chunk r)). change (writelen s') with (writelen s).
    rewrite total_chunks_app, d_length0 by done. unfold total. cbn. lia.
  - intros b x. destruct (decide (b = buffered s)) as [->|N].
    + change (array s' (buffered s)) with (buffer s'). rewrite pushed_buffer. intros [H|H]%elem_of_app; [by apply (d_simple0 (buffered s))|].
      apply list_elem_of_singleton in H. by simplify_eq.
    + rewrite pushed_array by done. apply d_simple0.
  - intros [N E]%An. rewrite cbs_app. apply Forall_app. split; [auto|]. constructor; [done|done].
  - intros c Hc. apply pushed_sound. auto.
  - eapply Forall_impl; [exact d_infos0|]. intros p. apply pushed_sound.
Qed.
End Push.
(** *** Calls of the sink *)

Lemma base_konts s k l : Forall (fine s) k -> base s l -> base (set_konts ((InProgram, k) :: konts s) s) l.
Proof. intros K [[] L N T Fi In Nd]. constructor; try done; by constructor. Qed.

Lemma holds_sink s p k :
  base s k -> within s p -> sync s = true -> accounts s (Stream (resume p ++ k)) -> holds (settle (Call s InSink (resume p)) k).
Proof.
  intros [[] K N T Fi In Nd] W S A. apply (accounts_konts s InSink) in A.
  constructor; try done. by eapply control_sink; [..|left].
Qed.

(** *** A request that goes to the sink at once *)

Definition started (r : request) (nd : bool) (s : state) : state :=
  s |> set_length_ (length_ s + chunk_length o (chunk r)) |> set_accepted (accepted s ++ [r]) |> set_needDrain nd
    |> set_writelen (chunk_length o (chunk r)) |> set_writecb (Some (callback r)) |> set_writing true |> set_sync true
    |> set_sunk (sunk s ++ [chunk r]).

Section Start.
Context (r : request) (nd : bool) (s : state).
Let s' := started r nd s.
Context (D : data s) (Sr : simple (callback r)) (En : ending s = false) (Wr : writing s = false) (T : todo s = []).

Lemma started_moves : moves s s'.
Proof. constructor; try done. intros (E & _). congruence. Qed.

Lemma started_data : data s'.
Proof.
  assert (todo s' = []) as T' by done. destruct D.
  constructor; try done; rewrite ?T' in *; rewrite ?T in *; cbn [chunks omap list_omap fmap list_fmap] in *.
  - change (sunk s') with (sunk s ++ [chunk r]). change (accepted s') with (accepted s ++ [r]). cbn in d_sub0 |- *.
    rewrite app_nil_r in *. rewrite fmap_app. by apply sublist_app.
  - intros C. change (sunk s') with (sunk s ++ [chunk r]). change (accepted s') with (accepted s ++ [r]).
    specialize (d_all0 C). cbn in d_all0 |- *. rewrite app_nil_r in *. by rewrite fmap_app, d_all0.
  - intros C. change (length_ s') with (length_ s + chunk_length o (chunk r)). change (writelen s') with (chunk_length o (chunk r)).
    rewrite (d_length0 C), (d_idle0 Wr). lia.
  - intros c [= <-]. by apply sound_simple.
Qed.
End Start.

Lemma writeOrBuffer_pushed report v enc c s :
  writing s || negb (corked s =? 0) || is_errored s = true ->
  exists nd ab an lg, writeOrBuffer o report v enc c s = Go (pushed (Request v enc c) nd ab an lg s) []
    /\ (an = true -> allNoop s = true /\ c = Nop) /\ forall f, sum (is_written f) lg = called f s.
Proof.
  intros E. eexists _, _, _, _. split_and!.
  - unfold writeOrBuffer. cbn [writing corked length_ set_length_ set_accepted set_needDrain].
    match goal with |- (if _ || is_errored ?t then _ else _) = _ => change (is_errored t) with (is_errored s) end.
    rewrite E. reflexivity.
  - cbn. intros [? ?%bool_decide_eq_true]%andb_prop. done.
  - intros f. cbn. rewrite sum_of_app. destruct report; rewrite ?sum_cons, sum_nil; cbn; unfold called; lia.
Qed.

Lemma writeOrBuffer_started report v enc c s :
  writing s || negb (corked s =? 0) || is_errored s = false ->
  exists nd ret, writeOrBuffer o report v enc c s = Call (started (Request v enc c) nd s) InSink [WriteReturns report ret].
Proof.
  intros E. eexists _, _. unfold writeOrBuffer. cbn [writing corked length_ set_length_ set_accepted set_needDrain].
  match goal with |- (if _ || is_errored ?t then _ else _) = _ => change (is_errored t) with (is_errored s) end.
  rewrite E. reflexivity.
Qed.
Lemma settle_and_then x l k : settle (and_then x l) k = settle x (l ++ k).
Proof. destruct x; cbn; by rewrite ?(assoc_L (++)). Qed.

Lemma is_errored_clean s : destroyed s = false -> is_errored s = false -> clean s.
Proof. intros D E. split; [|done]. unfold is_errored in E. by destruct (errored s). Qed.

Section Writes.
Context (s : state) (k : list instr) (R : ready s k) (Ac : accounts s (Stream k)).

Lemma holds_pushed r nd ab an lg :
  simple (callback r) -> ending s = false -> (an = true -> allNoop s = true /\ callback r = Nop) ->
  (forall f, sum (is_written f) lg = called f s) -> writing s || negb (corked s =? 0) || is_errored s = true ->
  holds (settle (Go (pushed r nd ab an lg s) []) k).
Proof.
  intros Sr En An Lg E. apply ready_base in R as [B I]. pose proof (b_data _ _ B) as D.
  pose proof (pushed_data r nd ab an lg s D I Sr An) as D'. pose proof (pushed_moves r nd ab an lg s D I En) as M.
  pose proof (pushed_todo r nd ab an lg s D) as T. set (s' := pushed r nd ab an lg s) in *.
  change (inv s' (Stream k)). apply ready_inv; [apply ready_base; split; [by apply (moves_base M)|]|].
  - destruct I as (P & Cu & _). split_and!; [done..|]. intros [Er _] Wr Co. exfalso.
    change (writing s') with (writing s) in Wr. change (corked s') with (corked s) in Co. change (errored s') with (errored s) in Er.
    unfold is_errored in E. by rewrite Wr, Co, Er in E.
  - apply (moves_accounts M [] []); [done|done| |].
    + left. intros _ _ _. right. rewrite T. by destruct (todo s).
    + intros _ f. unfold held. rewrite T, cbs_app, count_cbs_app. unfold called at 2. change (log s') with lg. rewrite Lg.
      change (accepted s') with (accepted s ++ [r]). rewrite fmap_app, count_cbs_app.
      change (writecb s') with (writecb s). rewrite !sum_nil. destruct (writecb s) as [c|] eqn:Ec; [|cbn; lia].
      rewrite (m_expand _ _ M) by (by apply (d_writecb _ D)). cbn. lia.
Qed.

Lemma holds_started r nd report ret :
  simple (callback r) -> ending s = false -> destroyed s = false -> writing s || negb (corked s =? 0) || is_errored s = false ->
  holds (settle (Call (started r nd s) InSink [WriteReturns report ret]) k).
Proof.
  intros Sr En De E. apply orb_false_iff in E as [[Wr Co%negb_false_iff%Z.eqb_eq]%orb_false_iff Er].
  apply ready_base in R as [B I]. pose proof (b_data _ _ B) as D. pose proof (is_errored_clean s De Er) as Cl.
  assert (todo s = []) as T by (by apply I). pose proof (started_data r nd s D Sr Wr T) as D'. pose proof (started_moves r nd s En Wr) as M.
  pose proof (at_rest_writecb s D Wr) as Wc.
  set (s' := started r nd s) in *. apply (holds_sink s' (Direct report ret)); [by apply (moves_base M)| |done|].
  - split_and!; [done| |done]. destruct I as (P & Cu & _). split_and!; [done..|]. by intros _ ?.
  - apply (moves_accounts M [] [WriteReturns report ret]); [done|done| |].
    + left. by intros _ _ _; left.
    + intros _ f. unfold held. change (todo s') with (todo s). rewrite T, Wc. change (accepted s') with (accepted s ++ [r]).
      rewrite fmap_app, count_cbs_app. change (called f s') with (called f s). change (writecb s') with (Some (callback r)).
      rewrite !sum_cons, !sum_nil. cbn. unfold expand. destruct (callback r); try done; lia.
Qed.

Lemma holds_writeOrBuffer report v enc c :
  simple c -> ending s = false -> destroyed s = false -> holds (settle (writeOrBuffer o report v enc c s) k).
Proof.
  intros Sc En De. destruct (writing s || negb (corked s =? 0) || is_errored s) eqn:E.
  - destruct (writeOrBuffer_pushed report v enc c s E) as (nd & ab & an & lg & -> & An & Lg). by apply holds_pushed.
  - destruct (writeOrBuffer_started report v enc c s E) as (nd & ret & ->). by apply holds_started.
Qed.
End Writes.

Lemma holds__write s k report v enc c :
  ready s k -> accounts s (Stream k) -> simple c -> holds (settle (_write o report v enc c s) k).
Proof.
  intros R Ac Sc. unfold _write, refused. destruct (ending s) eqn:En; [|destruct (destroyed s) eqn:De].
  3: { apply holds_writeOrBuffer; try done.
       - apply (quiet_ready s); [auto with stream|done].
       - apply (quiet_accounts s _ [] []); [auto with stream|done|by left|done]. }
  all: eapply (quiet_go [] s); [|done|done|by destruct report; repeat constructor|no_wait|destruct report; weigh].
  all: apply quiet_tick; [by apply sound_simple|by intros []|auto with stream].
Qed.

Lemma holds_write s v enc c : ready s [] -> accounts s (Stream []) -> holds (settle (write o v enc c s) []).
Proof.
  intros R Ac. unfold write. destruct (write_args o s v enc) as [[v' e]|er].
  - apply holds__write; [done..|]. by destruct c.
  - eapply (quiet_raise [] s); eauto with stream.
Qed.

Lemma holds_end s v c : ready s [] -> accounts s (Stream []) -> holds (settle (end_ o v c s) []).
Proof.
  intros R Ac. unfold end_. destruct (chunk_given v) as [[v1 enc]|]; [|calm]. clear v. rename v1 into v. destruct (write_args o s v enc) as [[v' e]|er].
  - rewrite settle_and_then. apply holds__write; [apply ready_app; split; [by repeat constructor|done]| |done].
    apply (quiet_accounts s s [] [EndWritten (refused s) c] []); [auto with stream|done|no_wait|weigh].
  - eapply (quiet_raise [] s); eauto with stream.
Qed.
(** *** The buffer is emptied *)

Definition cleared (s : state) : state := s |> resetBuffer |> set_bufferProcessing false.

Section Reset.
Context (s : state) (D : data s).

Lemma cleared_buffer : buffer (cleared s) = [].
Proof. unfold buffer, array. cbn. rewrite lookup_app_r, Nat.sub_diag by lia. done. Qed.

Lemma cleared_sound c : sound_cb s c -> sound_cb (cleared s) c.
Proof.
  destruct c as [| |n a]; try done. intros (L & So & _). split_and!.
  - cbn. rewrite length_app. lia.
  - unfold array. cbn. by rewrite array_new.
  - cbn. lia.
Qed.

Lemma cleared_moves : moves s (cleared s).
Proof.
  constructor; try done.
  - intros [| |n a] _; try done. unfold expand. cbn. by rewrite array_new.
  - apply cleared_sound.
  - intros (E & A & T). split_and!; [done|done|]. unfold todo. by rewrite cleared_buffer, drop_nil.
Qed.

Context (T : clean s -> todo s = []).

Lemma cleared_data : data (cleared s).
Proof.
  assert (todo (cleared s) = []) as T' by (unfold todo; by rewrite cleared_buffer, drop_nil).
  destruct D. constructor; rewrite ?T', ?cleared_buffer; try done.
  - cbn. rewrite length_app. cbn. lia.
  - cbn. rewrite app_nil_r. etrans; [|exact d_sub0]. by apply sublist_inserts_r.
  - intros C. cbn. rewrite (d_all0 C), (T C). done.
  - intros C. change (length_ (cleared s)) with (length_ s). by rewrite (d_length0 C), (T C).
  - intros a r. unfold array. cbn. rewrite array_new. apply d_simple0.
  - intros c Hc. by apply cleared_sound, d_writecb0.
  - eapply Forall_impl; [exact d_infos0|]. intros p. apply cleared_sound.
Qed.

Lemma cleared_idle : idle (cleared s).
Proof. split_and!; [done|done|]. intros _ _ _. unfold todo. by rewrite cleared_buffer, drop_nil. Qed.
End Reset.

(** *** A request goes from the buffer to the sink *)

Definition taken (r : request) (s : state) : state :=
  s |> set_arrays (<[buffered s := <[cursor s := None]> (buffer s)]> (arrays s)) |> set_cursor (S (cursor s))
    |> set_writelen (chunk_length o (chunk r)) |> set_writecb (Some (callback r)) |> set_writing true |> set_sync true
    |> set_sunk (sunk s ++ [chunk r]).

Section Take.
Context (r : request) (s : state).
Let s' := taken r s.
Context (D : data s) (Er : buffer s !! cursor s = Some (Some r)) (Wr : writing s = false).

Lemma taken_array b : array s' b = if decide (b = buffered s) then <[cursor s := None]> (buffer s) else array s b.
Proof. unfold array at 1. cbn. by rewrite array_insert by apply (d_array _ D). Qed.

Lemma taken_buffer : buffer s' = <[cursor s := None]> (buffer s).
Proof. unfold buffer at 1. rewrite taken_array. change (buffered s') with (buffered s). by rewrite decide_True. Qed.

Lemma taken_todo : todo s = Some r :: todo s'.
Proof.
  unfold todo at 2. rewrite taken_buffer. change (cursor s') with (S (cursor s)). rewrite drop_insert_lt by lia.
  by apply drop_S.
Qed.

Lemma taken_apart n a : sound_cb s (Each n a) -> a <> buffered s.
Proof. intros (_ & _ & H) E. destruct (H E) as [_ C]. apply lookup_lt_Some in Er. lia. Qed.

Lemma taken_sound c : sound_cb s c -> sound_cb s' c.
Proof.
  destruct c as [| |n a]; try done. intros Sc. pose proof (taken_apart _ _ Sc) as Na. destruct Sc as (L & So & _).
  split_and!; [by cbn; rewrite length_insert|by rewrite taken_array, decide_False|by intros ?].
Qed.

Lemma taken_moves : moves s s'.
Proof.
  constructor; try done.
  - intros [| |n a] Sc; try done. pose proof (taken_apart _ _ Sc) as Na. unfold expand.
    pose proof (taken_array a) as E. rewrite decide_False in E by done. unfold array in E. by rewrite E.
  - apply taken_sound.
  - intros (_ & _ & T). by rewrite taken_todo in T.
Qed.

Lemma taken_data : data s'.
Proof.
  pose proof taken_todo as T. pose proof taken_sound as So. destruct D. rewrite T in *. constructor; try done.
  - cbn. by rewrite length_insert.
  - rewrite taken_buffer, length_insert. change (cursor s') with (S (cursor s)). apply lookup_lt_Some in Er. lia.
  - by apply Forall_inv_tail in d_some0.
  - change (sunk s') with (sunk s ++ [chunk r]). by rewrite <- (assoc_L (++)).
  - change (sunk s') with (sunk s ++ [chunk r]). by rewrite <- (assoc_L (++)).
  - intros C. change (length_ s') with (length_ s). rewrite (d_length0 C), (d_idle0 Wr).
    change (writelen s') with (chunk_length o (chunk r)). unfold total. cbn. lia.
  - intros b x. rewrite taken_array. case_decide as E; [subst b|apply d_simple0].
    intros (j & Hj)%list_elem_of_lookup. apply (d_simple0 (buffered s)). apply list_elem_of_lookup. exists j.
    destruct (decide (j = cursor s)) as [->|N]; [|by rewrite list_lookup_insert_ne in Hj].
    rewrite list_lookup_insert_eq in Hj by (by eapply lookup_lt_Some). done.
  - intros N%d_noop0. by apply Forall_inv_tail in N.
  - intros c [= <-]. apply sound_simple, (d_simple0 (buffered s)). by eapply list_elem_of_lookup_2.
  - eapply Forall_impl; [exact d_infos0|]. intros p. apply So.
Qed.

Lemma taken_held f : held f s' = held f s.
Proof.
  pose proof (at_rest_writecb s D Wr) as Wc.
  assert (simple (callback r)) as Sr by (apply (d_simple _ D (buffered s)); by eapply list_elem_of_lookup_2).
  unfold held. rewrite taken_todo, Wc. change (writecb s') with (Some (callback r)). unfold cbs at 2. cbn. rewrite (count_cons f (callback r)).
  unfold expand. by destruct (callback r).
Qed.
End Take.
(** *** All of the buffer goes to the sink *)

Definition vectored (pc : Z) (s : state) : state :=
  s |> set_pendingcb pc |> set_cursor (length (buffer s)) |> set_writelen (length_ s)
    |> set_writecb (Some (if allNoop s then Nop else Each (cursor s) (buffered s))) |> set_writing true |> set_sync true
    |> set_sunk (sunk s ++ chunks (todo s)).

Section Vector.
Context (pc : Z) (s : state).
Let s' := vectored pc s.
Context (D : data s) (P : bufferProcessing s = true) (Wr : writing s = false).

Lemma vectored_todo : todo s' = [].
Proof. unfold todo. change (buffer s') with (buffer s). change (cursor s') with (length (buffer s)). by apply drop_ge. Qed.

Lemma vectored_sound c : sound_cb s c -> sound_cb s' c.
Proof. destruct c as [| |n a]; try done. intros (L & So & _). by split_and!. Qed.

Lemma vectored_moves : moves s s'.
Proof.
  constructor; try done; [apply vectored_sound|]. intros (E & A & T). split_and!; [done| |apply vectored_todo].
  change (sunk s') with (sunk s ++ chunks (todo s)). change (accepted s') with (accepted s). rewrite A, T. cbn. by rewrite app_nil_r.
Qed.

Lemma vectored_data : data s'.
Proof.
  pose proof vectored_todo as T. destruct D. constructor; rewrite ?T; try done.
  - change (sunk s') with (sunk s ++ chunks (todo s)). cbn. by rewrite app_nil_r.
  - change (sunk s') with (sunk s ++ chunks (todo s)). cbn. by rewrite app_nil_r.
  - intros _. cbn. lia.
  - intros c [= <-]. destruct (allNoop s); [done|]. by split_and!.
  - eapply Forall_impl; [exact d_infos0|]. intros p. apply vectored_sound.
Qed.

Lemma count_Nops f l : Forall (eq Nop) l -> count f l = O.
Proof. induction 1 as [|c l <- _ IH]; [done|]. by rewrite count_cons, IH, count_Nop. Qed.

Lemma vectored_held f : held f s' = held f s.
Proof.
  pose proof (at_rest_writecb s D Wr) as Wc.
  unfold held. rewrite vectored_todo, Wc. change (writecb s') with (Some (if allNoop s then Nop else Each (cursor s) (buffered s))).
  destruct (allNoop s) eqn:A; unfold expand.
  - rewrite (count_Nops f (cbs (todo s))) by (by apply (d_noop _ D)). by rewrite count_Nop.
  - change (arrays s') with (arrays s). unfold todo, buffer, array. change (count f (cbs [])) with O. lia.
Qed.
End Vector.

(** ** [clearBuffer] *)

Lemma processing_moves s : bufferProcessing s = false -> moves s (set_bufferProcessing true s).
Proof.
  intros P. constructor; try done. intros [| |n a] Sc; try done. pose proof (sound_apart _ _ _ P Sc) as Na.
  destruct Sc as (L & So & _). split_and!; [done|done|]. by intros ?.
Qed.

Lemma processing_data s : bufferProcessing s = false -> data s -> data (set_bufferProcessing true s).
Proof.
  intros P []. constructor; try done.
  - intros c Hc. by apply (m_sound _ _ (processing_moves s P)), d_writecb0.
  - eapply Forall_impl; [exact d_infos0|]. intros p. apply (m_sound _ _ (processing_moves s P)).
Qed.

(** A round of the loop. *)
Lemma holds_clear_round s k :
  base s k -> accounts s (Stream k) -> bufferProcessing s = true -> destroyed s = false -> writing s = false ->
  (cursor s < length (buffer s))%nat -> holds (settle (clear_round o (buffered s) (cursor s) s) k).
Proof.
  intros B Ac P De Wr L. pose proof (b_data _ _ B) as D. unfold clear_round. change (array s (buffered s)) with (buffer s).
  destruct (buffer s !! cursor s) as [[r|]|] eqn:E.
  2: { exfalso. pose proof (d_some _ D) as So. unfold todo in So. rewrite (drop_S _ _ _ E) in So. apply Forall_inv in So. by destruct So. }
  2: { apply lookup_ge_None in E. lia. }
  unfold doWrite. cbn [destroyed set_arrays set_cursor set_writelen set_writecb set_writing set_sync]. rewrite De. cbn [and_then app].
  pose proof (taken_data r s D E Wr) as D'. pose proof (taken_moves r s D E) as M.
  apply (holds_sink (taken r s) (Loop (buffered s) (S (cursor s)))).
  - by apply (moves_base M).
  - by split_and!.
  - done.
  - apply (moves_accounts M [] [SyncFalse; ClearLoop (buffered s) (S (cursor s))]); [done|done| |].
    + left. by intros _ _ _; left.
    + intros _ f. rewrite (taken_held r s D E Wr). change (accepted (taken r s)) with (accepted s).
      change (called f (taken r s)) with (called f s). rewrite !sum_cons, !sum_nil. cbn. lia.
Qed.

Lemma holds_clearBuffer s k :
  base s k -> accounts s (Stream k) -> bufferProcessing s = false -> cursor s = bufferedIndex s -> writing s = false ->
  holds (settle (clearBuffer o s) k).
Proof.
  intros B Ac P Cu Wr. pose proof (b_data _ _ B) as D. unfold clearBuffer. rewrite P, orb_false_r.
  assert ((corked s = 0 -> destroyed s = false -> todo s = []) -> holds (settle (Go s []) k)) as Stop.
  { intros T. apply ready_inv; [|done]. apply ready_base. split; [done|]. split_and!; [done|done|]. intros [_ De] _ Co. by apply T. }
  destruct (Z.eqb_spec (corked s) 0) as [Co|Co]; cbn [negb orb]; [|by apply Stop].
  destruct (destroyed s) eqn:De; [by apply Stop|].
  destruct (Nat.eqb_spec (length (buffer s) - bufferedIndex s) 0) as [L|L].
  { apply Stop. intros _ _. unfold todo. apply drop_ge. lia. }
  pose proof (processing_moves s P) as M. pose proof (processing_data s P D) as D1.
  assert (base (set_bufferProcessing true s) k) as B1 by (by apply (moves_base M)).
  assert (accounts (set_bufferProcessing true s) (Stream k)) as A1.
  { apply (moves_accounts M [] []); [done|done|right; right; split_and!; try done; by intros ?%Exists_nil|]. intros _ f. cbn. done. }
  destruct (_ && has_writev o).
  2: { cbn [buffered set_bufferProcessing]. rewrite <- Cu. apply (holds_clear_round (set_bufferProcessing true s)); try done.
       change (cursor s < length (buffer s))%nat. lia. }
  set (s1 := set_bufferProcessing true s) in *. unfold doWrite.
  cbn [destroyed set_pendingcb set_cursor set_writelen set_writecb set_writing set_sync s1 set_bufferProcessing]. rewrite De. cbn [and_then app].
  rewrite <- Cu. set (pc := pendingcb _ - _). pose proof (vectored_data pc s1 D1 eq_refl) as D2. pose proof (vectored_moves pc s1 eq_refl) as M2.
  apply (holds_sink (vectored pc s1) Vectored).
  - by apply (moves_base M2).
  - by split_and!.
  - done.
  - apply (moves_accounts M2 [] [SyncFalse; ClearVectored]); [done|done| |].
    + left. by intros _ _ _; left.
    + intros _ f. rewrite (vectored_held pc s1 D1 Wr). change (accepted (vectored pc s1)) with (accepted s1).
      change (called f (vectored pc s1)) with (called f s1). rewrite !sum_cons, !sum_nil. cbn. lia.
Qed.
(** *** The end of the loop *)

Section Rest.
Context (s : state) (D : data s) (L : (cursor s < length (buffer s))%nat).

Lemma rest_apart n a : sound_cb s (Each n a) -> a <> buffered s.
Proof. intros (_ & _ & H) E. destruct (H E). lia. Qed.

(** The loop ends where it is. *)
Let s1 := s |> set_bufferedIndex (cursor s) |> set_bufferProcessing false.

Lemma stopped_sound c : sound_cb s c -> sound_cb s1 c.
Proof.
  destruct c as [| |n a]; try done. intros Sc. pose proof (rest_apart _ _ Sc) as Na. destruct Sc as (La & So & _).
  split_and!; [done|done|]. by intros ?.
Qed.

Lemma stopped_moves : moves s s1.
Proof. constructor; try done. apply stopped_sound. Qed.

Lemma stopped_data : data s1.
Proof.
  destruct D. constructor; try done.
  - intros c Hc. by apply stopped_sound, d_writecb0.
  - eapply Forall_impl; [exact d_infos0|]. intros p. apply stopped_sound.
Qed.

(** The array is cut. *)
Let s2 := s |> set_arrays (<[buffered s := drop (cursor s) (buffer s)]> (arrays s)) |> set_bufferedIndex O |> set_cursor O
            |> set_bufferProcessing false.

Lemma spliced_array b : array s2 b = if decide (b = buffered s) then todo s else array s b.
Proof. unfold array at 1. cbn. by rewrite array_insert by apply (d_array _ D). Qed.

Lemma spliced_buffer : buffer s2 = todo s.
Proof. unfold buffer. rewrite spliced_array. change (buffered s2) with (buffered s). by rewrite decide_True. Qed.

Lemma spliced_todo : todo s2 = todo s.
Proof. unfold todo at 1. by rewrite spliced_buffer. Qed.

Lemma spliced_sound c : sound_cb s c -> sound_cb s2 c.
Proof.
  destruct c as [| |n a]; try done. intros Sc. pose proof (rest_apart _ _ Sc) as Na. destruct Sc as (La & So & _).
  split_and!; [by cbn; rewrite length_insert|by rewrite spliced_array, decide_False|by intros ?].
Qed.

Lemma spliced_moves : moves s s2.
Proof.
  constructor; try done.
  - intros [| |n a] Sc; try done. pose proof (rest_apart _ _ Sc) as Na. unfold expand.
    pose proof (spliced_array a) as E. rewrite decide_False in E by done. unfold array in E. by rewrite E.
  - apply spliced_sound.
  - intros (E & A & T). split_and!; [done|done|]. by rewrite spliced_todo.
Qed.

Lemma spliced_data : data s2.
Proof.
  pose proof spliced_todo as T. destruct D. constructor; rewrite ?T; try done.
  - cbn. by rewrite length_insert.
  - cbn. lia.
  - intros b x. rewrite spliced_array. case_decide; [|apply d_simple0]. intros Hx. apply (d_simple0 (buffered s)).
    unfold todo in Hx. by eapply elem_of_submseteq, submseteq_drop.
  - intros c Hc. by apply spliced_sound, d_writecb0.
  - eapply Forall_impl; [exact d_infos0|]. intros p. apply spliced_sound.
Qed.
End Rest.

(** To a state outside [clearBuffer] in which the buffer is the same. *)
Lemma holds_moved s s' k :
  base s k -> accounts s (Stream k) -> moves s s' -> data s' -> idle s' ->
  writing s' = writing s -> writecb s' = writecb s -> needDrain s' = needDrain s -> ending s' = ending s -> log s' = log s ->
  accepted s' = accepted s -> todo s' = todo s \/ ~ clean s -> holds (settle (Go s' []) k).
Proof.
  intros B Ac M D' I' Ew Ec En Ee El Ea T. change (inv s' (Stream k)). pose proof (b_data _ _ B) as D.
  apply ready_inv; [apply ready_base; split; [by apply (moves_base M)|done]|].
  destruct T as [T|N]; [|constructor; intros C%(m_clean _ _ M); by apply N in C].
  apply (moves_accounts M [] []); [done|done| |].
  - right; right. split_and!; [done|done|by intros ?%Exists_nil|]. by rewrite Ew, T.
  - intros _ f. unfold held, called. rewrite Ea, T, El, Ec. destruct (writecb s) eqn:E; [|done].
    rewrite (m_expand _ _ M) by (by apply (d_writecb _ D)). done.
Qed.

Lemma holds_cleared s k :
  base s k -> accounts s (Stream k) -> (todo s = [] \/ ~ clean s) -> holds (settle (Go (cleared s) []) k).
Proof.
  intros B Ac T. assert (clean s -> todo s = []) as T' by (by destruct T). apply (holds_moved s); try done.
  - apply cleared_moves.
  - apply cleared_data; [by apply (b_data _ _ B)|done].
  - apply cleared_idle.
  - destruct T as [T|T]; [left|by right]. rewrite T. unfold todo. by rewrite cleared_buffer, drop_nil.
Qed.

Lemma holds_clearLoop s k a i :
  base s k -> within s (Loop a i) -> accounts s (Stream (ClearLoop a i :: k)) -> holds (settle (clearLoop o a i s) k).
Proof.
  intros B (De & P & -> & ->) Ac. apply accounts_light in Ac; [|split; [by intros []|done]]. pose proof (b_data _ _ B) as D.
  unfold clearLoop. change (array s (buffered s)) with (buffer s).
  destruct (_ && _) eqn:E.
  - apply andb_prop in E as [E%Nat.ltb_lt W%negb_true_iff]. by apply holds_clear_round.
  - assert (writing s = true \/ cursor s = length (buffer s)) as H.
    { pose proof (d_cursor _ D). destruct (Nat.ltb_spec (cursor s) (length (buffer s))); [left|right; lia]. by destruct (writing s). }
    clear E. destruct (Nat.eqb_spec (cursor s) (length (buffer s))) as [E|E].
    { apply holds_cleared; [done|done|left]. unfold todo. apply drop_ge. lia. }
    assert (cursor s < length (buffer s))%nat as L by (pose proof (d_cursor _ D); lia).
    destruct H as [W|]; [|done].
    destruct (256 <? cursor s)%nat; apply (holds_moved s); try done.
    + by apply spliced_moves.
    + by apply spliced_data.
    + split_and!; [done|done|]. intros _ W'. change (writing s = false) in W'. congruence.
    + left. by apply spliced_todo.
    + by apply stopped_moves.
    + by apply stopped_data.
    + split_and!; [done|done|]. intros _ W'. change (writing s = false) in W'. congruence.
    + by left.
Qed.

Lemma holds_clearVectored s k :
  base s k -> within s Vectored -> accounts s (Stream (ClearVectored :: k)) -> holds (settle (clearVectored s) k).
Proof.
  intros B (De & P & C) Ac. apply accounts_light in Ac; [|split; [by intros []|done]]. apply holds_cleared; [done|done|left].
  unfold todo. rewrite C. by apply drop_ge.
Qed.
(** ** A write is done *)

Definition written (s : state) : state :=
  s |> set_writing false |> set_writecb None |> set_length_ (length_ s - writelen s) |> set_writelen 0.

Section Written.
Context (s : state) (D : data s).

Lemma written_moves : moves s (written s).
Proof. by constructor. Qed.

Lemma written_data : data (written s).
Proof.
  destruct D. constructor; try done. intros C. change (length_ (written s)) with (length_ s - writelen s).
  change (total (todo (written s))) with (total (todo s)). change (writelen (written s)) with 0. rewrite (d_length0 C). lia.
Qed.

Lemma written_accounts c b k :
  writecb s = Some c -> accounts s (Stream k) -> accounts (written s) (Stream (OnwriteScheduled b c :: k)).
Proof.
  intros Ec [Dr Co]. constructor.
  - intros _ _ _. right; right; left. by constructor.
  - intros C f. specialize (Co C f). revert Co. unfold owed. rewrite Ec. change (todo (written s)) with (todo s).
    change (called f (written s)) with (called f s). cbn [left written arrays konts ticks infos accepted writecb set_writing set_writecb
    set_length_ set_writelen]. rewrite sum_cons. cbn [weight]. lia.
Qed.

(** With an error nothing more is expected. *)
Lemma failed_unclean er t : ~ clean (checkError (Some er) t).
Proof. unfold checkError. destruct (errored t) eqn:E; intros [E' _]; [congruence|done]. Qed.

Lemma failed_frame er t : frame t (checkError er t).
Proof. apply (q_frame _ _ (quiet_checkError t t er (quiet_refl t))). Qed.

Lemma failed_moves er : moves s (checkError (Some er) (written s)).
Proof.
  pose proof (failed_frame (Some er) (written s)) as F. constructor.
  - intros c _. by rewrite (f_arrays _ _ F).
  - intros c Sc. by apply (frame_sound F).
  - intros Dn. by apply (frame_done F).
  - intros C. by apply failed_unclean in C.
  - unfold checkError. by destruct (errored _).
  - unfold checkError. by destruct (errored _).
  - unfold checkError. by destruct (errored _).
  - unfold checkError. by destruct (errored _).
  - unfold checkError. by destruct (errored _).
Qed.

Lemma failed_data er : data (checkError (Some er) (written s)).
Proof. apply (frame_data (failed_frame (Some er) (written s))), written_data. Qed.
End Written.

Lemma unclean_accounts s m : ~ clean s -> accounts s m.
Proof. intros N. constructor; intros C; by apply N in C. Qed.

Lemma failed_ready s k er : ready s k -> ready (checkError (Some er) (written s)) k.
Proof.
  intros [B I]%ready_base. pose proof (failed_frame (Some er) (written s)) as F. apply ready_base. split.
  - apply (moves_base (failed_moves s er)); [apply failed_data, B|done].
  - destruct I as (P & Cu & _). split_and!.
    + by rewrite (f_processing _ _ F).
    + by rewrite (f_cursor _ _ F), (f_bufferedIndex _ _ F).
    + intros C. by apply failed_unclean in C.
Qed.

Lemma holds_onwrite s k er : ready s k -> accounts s (Stream k) -> holds (settle (onwrite o er s) k).
Proof.
  intros R Ac. unfold onwrite. destruct (writecb s) as [c|] eqn:Ec; [|calm].
  assert (sound_cb s c) as Sc by (by apply (d_writecb _ (r_data _ _ R))).
  change (set_writelen 0 _) with (written s). destruct er as [e|].
  - pose proof (failed_ready _ _ e R) as R2. pose proof (unclean_accounts _ (Stream k) (failed_unclean e (written s))) as A2.
    assert (sound_cb (checkError (Some e) (written s)) c) as Sc2 by (by apply (m_sound _ _ (failed_moves s e))).
    pose proof (failed_unclean e (written s)) as N. destruct (sync s).
    + eapply (quiet_go [] (checkError (Some e) (written s))); [|done|done|done|no_wait|weigh].
      apply quiet_tick; [done|by intros []|auto with stream].
    + eapply (quiet_go [] (checkError (Some e) (written s))); [auto with stream|done|done|by repeat constructor|no_wait|weigh].
  - apply ready_base in R as [B I]. rewrite settle_and_then.
    assert (base (written s) ([OnwriteScheduled (sync s) c] ++ k)) as B1.
    { apply base_app. split; [by constructor|]. apply (moves_base (written_moves s)); [apply written_data, B|done]. }
    pose proof (written_accounts s c (sync s) k Ec Ac) as A1. destruct I as (P & Cu & _). case_match eqn:E.
    + by apply holds_clearBuffer.
    + change (inv (written s) (Stream ([OnwriteScheduled (sync s) c] ++ k))). apply ready_inv; [|done].
      apply ready_base. split; [done|]. split_and!; [done|done|]. intros _ _ _. unfold todo. apply drop_ge. apply Nat.ltb_ge in E. change (cursor (written s)) with (cursor s). rewrite Cu. done.
Qed.

(** ** Corks *)

Section Corks.
Context (s : state) (k : list instr) (R : ready s k) (Ac : accounts s (Stream k)).

Lemma corked_data v t : 0 <= v -> data t -> data (set_corked v t).
Proof. intros V []. by constructor. Qed.

Lemma corked_base v l t : 0 <= v -> base t l -> base (set_corked v t) l.
Proof. intros V [D ? ? ? ? ? ?]. constructor; try done. by apply corked_data. Qed.

Lemma corked_accounts v m t : accounts t m -> accounts (set_corked v t) m.
Proof. intros [Dr Co]. by constructor. Qed.

Lemma corked_ready v l t : 0 < v -> ready t l -> ready (set_corked v t) l.
Proof.
  intros V [B (P & Cu & _)]%ready_base. apply ready_base. split; [by apply corked_base; [lia|]|].
  split_and!; [done|done|]. intros _ _ H. change (corked (set_corked v t)) with v in H. lia.
Qed.

Lemma holds_cork : holds (settle (cork s) k).
Proof.
  pose proof (d_corked _ (r_data _ _ R)). change (inv (set_corked (corked s + 1) s) (Stream k)).
  apply ready_inv; [apply corked_ready; [lia|done]|by apply corked_accounts].
Qed.
End Corks.

Lemma holds_uncork s k : ready s k -> accounts s (Stream k) -> holds (settle (uncork o s) k).
Proof.
  intros R Ac. unfold uncork. destruct (Z.eqb_spec (corked s) 0) as [E|E]; [calm|].
  pose proof (d_corked _ (r_data _ _ R)). apply ready_base in R as [B (P & Cu & J)].
  assert (base (set_corked (corked s - 1) s) k) as B1 by (apply corked_base; [lia|done]).
  pose proof (corked_accounts (corked s - 1) _ _ Ac) as A1.
  change (writing (set_corked (corked s - 1) s)) with (writing s). destruct (writing s) eqn:W; cbn [negb].
  - apply ready_inv; [|done]. apply ready_base. split; [done|]. split_and!; [done|done|]. intros _ W'.
    change (writing s = false) in W'. congruence.
  - by apply holds_clearBuffer.
Qed.

Lemma holds_endWritten s k err c : ready s k -> accounts s (Stream k) -> holds (settle (endWritten o err c s) k).
Proof.
  intros R Ac. unfold endWritten. rewrite settle_and_then.
  assert (ready s ([EndUncorked err c] ++ k)) as R1 by (apply ready_app; split; [by repeat constructor|done]).
  assert (accounts s (Stream ([EndUncorked err c] ++ k))) as A1.
  { apply (quiet_accounts s s []); [auto with stream|done|no_wait|weigh]. }
  destruct (negb _).
  - apply holds_uncork; [by apply corked_ready|by apply corked_accounts].
  - by apply ready_inv.
Qed.

(** ** Errors *)

Section Errors.
Context (s : state) (k : list instr) (R : ready s k) (Un : ~ clean s).

Lemma holds_errorLoop n : holds (settle (errorLoop o n s) k).
Proof.
  unfold errorLoop. pose proof (r_data _ _ R) as D. pose proof (unclean_accounts s (Stream k) Un) as Ac.
  destruct (buffer s !! n) as [[r|]|] eqn:E.
  - set (s' := set_length_ _ s). assert (ready s' k) as R'.
    { destruct R as [[] I K N T Fi In Nd]. by constructor. }
    eapply (quiet_go [] s'); [auto with stream|done|by apply unclean_accounts| |no_wait|weigh].
    repeat constructor; [|done]. apply sound_simple, (d_simple _ D (buffered s)). by eapply list_elem_of_lookup_2.
  - eapply (quiet_raise [] s); [auto with stream|done|done|by left].
  - calm. done.
Qed.

Lemma holds_errorFinished l : holds (settle (errorFinished l s) k).
Proof.
  pose proof (unclean_accounts s (Stream k) Un) as Ac. destruct l as [|c l]; cbn [errorFinished]; [|calm; done].
  apply ready_base in R as [B I]. assert (resetBuffer s = cleared s) as ->.
  { unfold cleared. destruct I as [P _]. unfold resetBuffer. destruct s. cbn in P. by subst. }
  apply holds_cleared; [done|done|by right].
Qed.
End Errors.
(** ** Every step *)

Lemma holds_instr s k i : ready s k -> fine s i -> accounts s (Stream (i :: k)) -> holds (settle (run_instr o i s) k).
Proof.
  intros R Fi Ac. destruct i; cbn [run_instr fine] in *; try done.
  all: try (apply accounts_light in Ac; [|split; [by intros []|done]]).
  - by apply holds_writeReturns.
  - by apply holds_returnFalse.
  - calm.
  - match goal with |- holds (settle (onwriteScheduled ?b _ _) _) => destruct b end; [by apply holds_afterWrite_sync|by apply holds_afterWrite_async].
  - destruct Fi. by apply holds_onwriteError.
  - by apply holds_callBack.
  - by apply holds_callFn.
  - by apply holds_eachFrom.
  - by apply holds_afterWrite.
  - by apply holds_callbacks.
  - by apply holds_afterCallbacks.
  - by apply holds_errorBuffer.
  - by apply holds_errorLoop.
  - by apply holds_errorFinished.
  - by apply holds_endWritten.
  - by apply holds_endUncorked.
  - calm.
  - by apply holds_endReturns.
  - by apply holds_finishMaybe.
  - by apply holds_finishWhenIdle.
  - by apply holds_onFinishReady.
  - by apply holds_errorOrDestroy.
  - by apply holds_finishedCallbacks.
  - by apply holds_finish.
  - by apply holds_finishEmit.
  - by apply holds_finishDestroy.
  - by apply holds_destroy.
  - by apply holds_destroyed.
  - by apply holds_errorOrDestroy.
  - by apply holds_emitErrorNT.
  - by apply holds_emitCloseNT.
Qed.

(** *** Ticks *)

Section Ticks.
Context (s : state) (t : tick) (l : list tick) (Et : ticks s = t :: l) (R : ready s []) (Ac : accounts s (Stream [])).

Lemma tick_data ts v : data s -> data (set_afterWriteTickInfo v (set_ticks ts s)).
Proof. intros []. by constructor. Qed.

Lemma tick_ready v :
  (forall i, v = Some i -> i ∈ tick_infos l) -> ready (set_afterWriteTickInfo v (set_ticks l s)) [].
Proof.
  intros Hv. destruct R as [D I K N T Fi In Nd]. rewrite Et in *. apply Forall_inv_tail in T.
  assert (NoDup (tick_infos l)) as Nd'.
  { destruct t; cbn in Nd; try done. by apply NoDup_cons in Nd as [_ ?]. }
  constructor; try done. by apply tick_data.
Qed.

Lemma tick_accounts v i :
  ~ waits_tick t \/ Exists waits i -> (forall f, weight_tick f (arrays s) (infos s) t = sum (weight f (arrays s)) i) ->
  accounts (set_afterWriteTickInfo v (set_ticks l s)) (Stream i).
Proof.
  intros W We. destruct Ac as [Dr Co]. constructor.
  - intros Cl E Nd. destruct (Dr Cl E Nd) as [H|[H|H]]; [by left|by right; left|right; right].
    destruct W as [W|W]; [|by left]. unfold waiting in *. rewrite Et in H. cbn [left] in *.
    destruct H as [H|[H|H]]; [by apply Exists_nil in H|by right; left|right; right].
    apply Exists_cons in H as [H|H]; [by apply W in H|done].
  - intros Cl f. specialize (Co Cl f). revert Co. unfold owed. rewrite Et. cbn [left]. rewrite sum_cons, sum_nil, We.
    set (s' := set_afterWriteTickInfo _ _). change (called f s') with (called f s). change (todo s') with (todo s).
    cbn [s' arrays konts infos ticks writecb accepted set_afterWriteTickInfo set_ticks]. lia.
Qed.
End Ticks.

Lemma set_info_same s ts : set_afterWriteTickInfo (afterWriteTickInfo s) (set_ticks ts s) = set_ticks ts s.
Proof. by destruct s. Qed.

Lemma tick_other s t l :
  ticks s = t :: l -> ~ waits_tick t -> ready s [] -> accounts s (Stream []) ->
  ready (set_ticks l s) [] /\ accounts (set_ticks l s) (Stream []).
Proof.
  intros Et W R Ac. rewrite <- (set_info_same s l). split.
  - apply (tick_ready s t l Et R). intros i Hi%(r_info _ _ R). rewrite Et in Hi. by destruct t; cbn in *.
  - apply (tick_accounts s t l Et Ac); [by left|]. intros f. by destruct t.
Qed.

Lemma holds_afterWriteTick s i l :
  ticks s = TAfterWrite i :: l -> ready s [] -> accounts s (Stream []) -> holds (settle (afterWriteTick i (set_ticks l s)) []).
Proof.
  intros Et R Ac. pose proof (r_ticks _ _ R) as T. rewrite Et in T. apply Forall_inv in T. cbn in T.
  unfold afterWriteTick. cbn [infos set_ticks]. destruct (lookup_lt_is_Some_2 _ _ T) as [[n c] E]. rewrite E. cbn [default].
  pose proof (Forall_lookup_1 _ _ _ _ (d_infos _ (r_data _ _ R)) E) as Sc. cbn in Sc.
  pose proof (tick_ready s _ l Et R None ltac:(done)) as R1.
  apply ready_inv; [apply (ready_app _ [AfterWrite n c]); split; [by repeat constructor|done]|].
  apply (tick_accounts s _ l Et Ac None [AfterWrite n c]); [right; by constructor|]. intros f. rewrite sum_cons, sum_nil. cbn. rewrite E. lia.
Qed.

Lemma holds_tick s t l :
  ticks s = t :: l -> ready s [] -> accounts s (Stream []) -> holds (settle (run_tick o t (set_ticks l s)) []).
Proof.
  intros Et R Ac. assert (fine_tick s t) as Ft by (pose proof (r_ticks _ _ R) as T; rewrite Et in T; by apply Forall_inv in T).
  destruct t; cbn [run_tick fine_tick] in *; [..|by apply holds_afterWriteTick| | | | | |].
  all: destruct (tick_other _ _ _ Et ltac:(by intros []) R Ac) as [R1 A1].
  - calm. done.
  - calm.
  - destruct Ft. by apply holds_onwriteError.
  - by apply holds_errorBuffer.
  - by apply holds_finishTick.
  - by apply holds_finish.
  - calm.
  - by apply holds_emitCloseNT.
  - by apply holds_emitErrorNT.
Qed.
(** *** The sink *)

Lemma inv_base s m k : inv s m -> Forall (fine s) k -> Forall (fine_kont s) (konts s) -> base s k.
Proof. intros [] K N. by constructor. Qed.

Lemma frame_within s s' p : frame s s' -> (destroyed s = false -> destroyed s' = false) -> within s p -> within s' p.
Proof.
  intros F De (Ds & W). split; [auto|]. destruct p.
  - destruct W as [I T]. split; [by apply (frame_idle F)|]. by rewrite (frame_todo F).
  - destruct W as (P & -> & ->). rewrite (f_processing _ _ F), (f_buffered _ _ F), (f_cursor _ _ F). done.
  - destruct W as (P & C). by rewrite (f_processing _ _ F), (f_cursor _ _ F), (frame_buffer F).
Qed.

Lemma moves_within_sink s s' p :
  bufferProcessing s' = bufferProcessing s -> arrays s' = arrays s -> buffered s' = buffered s -> bufferedIndex s' = bufferedIndex s ->
  cursor s' = cursor s -> destroyed s' = destroyed s -> within s p -> within s' p.
Proof.
  intros P A B Bi C De (Ds & W). assert (buffer s' = buffer s) as Eb by (unfold buffer, array; by rewrite A, B).
  assert (todo s' = todo s) as T by (unfold todo; by rewrite Eb, C). split; [by rewrite De|]. destruct p.
  - destruct W as [(Ip & Ic & _) Tn]. split; [split_and!|]; [congruence|congruence| |congruence]. intros _ _ _. congruence.
  - rewrite P, B, C. done.
  - by rewrite P, C, Eb.
Qed.

(** Within the sink the stream goes on as long as the buffer is left alone. *)
Lemma sink_moves s s' p k l m m' :
  inv s m -> konts s = (InSink, resume p ++ k) :: l -> Forall (fine s) k -> Forall (fine_kont s) l -> moves s s' ->
  data s' -> within s' p -> sync s' = true -> accounts s' m' ->
  m' = Program \/ m' = Stream [] \/ (exists c, m' = Stream [OnwriteScheduled true c] /\ sound_cb s' c) -> inv s' m'.
Proof.
  intros [D _ T Fi In Nd _] Ek K N M D' W S A Hm. constructor; rewrite ?(m_ticks _ _ M), ?(m_info _ _ M); try done.
  - eapply (control_sink _ p k l); [by rewrite (m_konts _ _ M)|done|done|by apply (moves_left M)| |done].
    eapply Forall_impl; [exact N|]. intros x [? ?]. split; [done|by apply (moves_left M)].
  - eapply Forall_impl; [exact T|]. apply (moves_fine_tick M).
  - rewrite (m_finished _ _ M). intros Hf. by apply (m_done _ _ M), Fi.
Qed.

Lemma inv_tick s t m : inv s m -> fine_tick s t -> ~ waits_tick t -> inv (nextTick t s) m.
Proof.
  intros [D C T Fi In Nd A] Ft Wt. assert (tick_infos (ticks s ++ [t]) = tick_infos (ticks s)) as Ei.
  { rewrite tick_infos_app, (tick_infos_other [t]) by (by constructor). apply app_nil_r. }
  constructor; cbn [ticks nextTick set_ticks]; rewrite ?Ei; try done.
  - destruct D. by constructor.
  - destruct C as [I K|k I L K|p k l m E W S L K Hm|p k n Cl Hn W L K].
    + by apply control_program.
    + by apply control_stream.
    + by eapply (control_sink _ p k l).
    + by apply control_clear.
  - apply Forall_app. split; [done|by constructor].
  - destruct A as [Dr Co]. constructor.
    + intros Cl E Nd'. destruct (Dr Cl E Nd') as [|[|[H|[H|H]]]]; [by left|by right; left|..]; right; right; [by left|by right; left|].
      right; right. apply Exists_app. by left.
    + intros Cl f. specialize (Co Cl f). revert Co. unfold owed. change (called f (nextTick t s)) with (called f s).
      change (todo (nextTick t s)) with (todo s). cbn [arrays konts ticks infos accepted writecb nextTick set_ticks].
      rewrite sum_of_app, sum_cons, sum_nil. assert (weight_tick f (arrays s) (infos s) t = O) as -> by (by destruct t; cbn in *). lia.
Qed.

(** The sink reports that the write is done. *)
Section Sink.
Context (s : state) (p : phase) (k : list instr) (l : list (context * list instr)) (c : cb).
Context (V : inv s Program) (Ek : konts s = (InSink, resume p ++ k) :: l) (W : within s p) (Sy : sync s = true).
Context (K : Forall (fine s) k) (N : Forall (fine_kont s) l) (Ec : writecb s = Some c).

Lemma sink_written : inv (written s) (Stream [OnwriteScheduled true c]).
Proof.
  assert (sound_cb s c) as Sc by (apply (d_writecb _ (i_data _ _ V)); done).
  eapply (sink_moves s (written s) p k l Program); [done|done|done|done|apply written_moves|apply written_data, V| |done| |].
  - by apply (moves_within_sink s).
  - apply written_accounts; [done|]. apply (i_accounts _ _) in V. destruct V. by constructor.
  - right; right. by exists c.
Qed.

Lemma sink_failed e : inv (nextTick (TOnwriteError e c) (checkError (Some e) (written s))) (Stream []).
Proof.
  assert (sound_cb s c) as Sc by (apply (d_writecb _ (i_data _ _ V)); done).
  pose proof (failed_moves s e) as M. pose proof (failed_frame (Some e) (written s)) as F. pose proof (failed_unclean e (written s)) as Un.
  assert (inv (checkError (Some e) (written s)) (Stream [])) as V2.
  { eapply (sink_moves s _ p k l Program); [done|done|done|done|done|apply failed_data, V| | |by apply unclean_accounts|by right; left].
    - apply (frame_within (written s)); [done| |by apply (moves_within_sink s)]. unfold checkError. by destruct (errored _).
    - unfold checkError. by destruct (errored _). }
  apply inv_tick; [done| |by intros []]. split; [done|]. by apply (m_sound _ _ M).
Qed.

Lemma sink_onwrite er : holds (settle (onwrite o er s) []).
Proof.
  unfold onwrite. rewrite Ec, Sy. change (set_writelen 0 _) with (written s). destruct er as [e|]; [apply sink_failed|].
  assert ((if (bufferedIndex (written s) <? length (buffer (written s)))%nat then clearBuffer o (written s) else Go (written s) [])
          = Go (written s) []) as ->; [|apply sink_written].
  case_match eqn:E; [|done]. unfold clearBuffer. destruct W as [De W']. destruct p.
  - destruct W' as [(_ & Cu & _) Tn]. apply Nat.ltb_lt in E. change (bufferedIndex s < length (buffer s))%nat in E.
    unfold todo in Tn. rewrite Cu in Tn. apply (f_equal length) in Tn. rewrite length_drop in Tn. cbn in Tn. lia.
  - destruct W' as [P _]. change (bufferProcessing (written s)) with (bufferProcessing s). by rewrite P, orb_true_r.
  - destruct W' as [P _]. change (bufferProcessing (written s)) with (bufferProcessing s). by rewrite P, orb_true_r.
Qed.
End Sink.
(** *** The machine *)

Lemma accounts_program s : accounts s (Stream []) <-> accounts s Program.
Proof. split; intros []; by constructor. Qed.

Lemma inv_idle s k : inv s (Stream k) -> idle s -> Forall (fine s) k -> Forall (fine_kont s) (konts s) -> ready s k /\ accounts s (Stream k).
Proof. intros [] I K N. split; [|done]. by constructor. Qed.

Lemma sink_scheduled s p k l c :
  inv s (Stream [OnwriteScheduled true c]) -> konts s = (InSink, resume p ++ k) :: l -> within s p -> sync s = true ->
  Forall (fine s) k -> Forall (fine_kont s) l -> sound_cb s c -> holds (settle (onwriteScheduled true c s) []).
Proof.
  intros [D _ T Fi In Nd A] Ek W S K N Sc. destruct (onwriteScheduled_sync c s) as (s' & -> & H).
  pose proof (schedules_frame _ _ _ H Sc) as F. destruct (schedules_ticks _ _ _ H Sc T In Nd) as (T' & In' & Nd' & _).
  change (inv s' (Stream [])). constructor; try done.
  - by apply (frame_data F).
  - eapply (control_sink _ p k l); [by rewrite (f_konts _ _ F)| | |by apply (frame_left F)|by apply (frame_fine_konts F)|by right; left].
    + apply (frame_within _ _ _ F); [by destruct H|done].
    + by destruct H.
  - intros Hf. apply (frame_done F), Fi. by destruct H.
  - by eapply schedules_accounts.
Qed.

Lemma clear_sync s p k :
  inv s (Stream (SyncFalse :: drop 1 (resume p) ++ k)) -> clears p -> within s p -> Forall (fine s) k -> Forall (fine_kont s) (konts s) ->
  inv (set_sync false s) (Stream (drop 1 (resume p) ++ k)).
Proof.
  intros [D _ T Fi In Nd A] Cl W L K. assert (quiet s (set_sync false s)) as Q by auto with stream.
  constructor; try done.
  - by apply (frame_data Q).
  - by apply (control_clear _ p k 1); [|lia|..].
  - apply (quiet_accounts s _ [SyncFalse] []); [done|done|no_wait|weigh].
Qed.

Lemma inv_advance s k : inv s (Stream k) -> holds (advance o s k).
Proof.
  intros V. pose proof (i_control _ _ V) as C. remember (Stream k) as m eqn:Em.
  destruct C as [I K|k' I L K|p k' l m E W S L K Hm|p k' n Cl Hn W L K]; simplify_eq.
  - destruct (inv_idle _ _ V I L K) as [R A]. destruct k as [|i k]; cbn [advance].
    + by apply ready_program.
    + apply (ready_app s [i]) in R as [Fi R]. apply holds_instr; [done|by apply Forall_inv in Fi|done].
  - destruct Hm as [Hm|[Hm|(c & Hm & Sc)]]; simplify_eq; cbn [advance run_instr].
    + destruct V as [D _ T Fi In Nd A]. constructor; try done; [|by apply accounts_program].
      eapply (control_sink _ p k' l); [done..|by left].
    + by eapply sink_scheduled.
  - assert (base s k') as B by (by eapply inv_base). destruct n as [|[|n]]; [| |lia].
    + destruct p; [done|..]; cbn [drop resume app advance run_instr settle] in *.
      * by apply (clear_sync s (Loop a i)).
      * by apply (clear_sync s Vectored).
    + destruct p; [done|..]; cbn [drop resume app advance run_instr] in *.
      * by apply holds_clearLoop; [..|apply V].
      * by apply holds_clearVectored; [..|apply V].
Qed.

Lemma inv_return s c k l :
  inv s Program -> konts s = (c, k) :: l -> control (set_konts l s) (Stream k) -> inv (set_konts l s) (Stream k).
Proof.
  intros [[] _ T Fi In Nd A] E C. constructor; try done.
  apply (accounts_konts (set_konts l s) c).
  assert (set_konts ((c, k) :: konts (set_konts l s)) (set_konts l s) = s) as ->; [|done].
  destruct s. cbn in E. by subst.
Qed.

Lemma perform_idle s a p : ready s [] -> accounts s (Stream []) -> a <> AReturn -> perform o a s = Some p -> holds p.
Proof.
  intros R A Na P. destruct a; cbn [perform] in P; repeat case_match; try done;
    match type of P with Some ?x = Some p => assert (x = p) as <- by congruence end.
  - by apply holds_write.
  - by apply holds_end.
  - by apply holds_cork.
  - by apply holds_uncork.
  - by apply holds_setDefaultEncoding.
  - by apply holds_destroy.
  - by apply holds_errorOrDestroy.
  - by apply holds_onwrite.
  - by apply holds_onFinish.
  - by apply holds_onDestroy.
  - by apply holds_tick.
Qed.

Lemma inv_perform s a p : inv s Program -> only_calls_back a s = true -> perform o a s = Some p -> holds p.
Proof.
  intros V Al P. pose proof (i_control _ _ V) as C. remember Program as m eqn:Em.
  destruct C as [I K|k' I L K|ph k l m E W S L K Hm|ph k' n Cl Hn W L K]; simplify_eq.
  - assert (a = AReturn \/ a <> AReturn) as [->|Na] by (destruct a; auto).
    + cbn in P. destruct (konts s) as [|[c k] l] eqn:E; [done|]. simplify_eq. apply (inv_return s c); [done|done|].
      apply Forall_cons in K as [[_ L] K]. by apply control_stream.
    + apply (perform_idle s a); [destruct V; by constructor|by apply accounts_program, V|done|done].
  - unfold only_calls_back in Al. rewrite E in Al. destruct a; try done; cbn in P.
    + apply bool_decide_eq_true in Al as [c Ec]. assert (settle (onwrite o er s) [] = p) as <- by congruence. by eapply sink_onwrite.
    + rewrite E in P. simplify_eq. apply (inv_return s InSink); [done|done|]. destruct ph.
      * destruct W as (De & I & T). apply control_stream; [done| |done]. by constructor.
      * by apply (control_clear _ (Loop a i) k 0); [|lia|..].
      * by apply (control_clear _ Vectored k 0); [|lia|..].
Qed.

Lemma inv_new encoding : inv (WritableState encoding) Program.
Proof.
  constructor; try done.
  - constructor; try done; cbn; try lia; try by intros. intros a r. unfold array. cbn. destruct a as [|[]]; cbn; by intros ?%not_elem_of_nil.
  - apply control_program; [|done]. by split_and!.
  - by constructor; intros.
Qed.

Theorem inv_reachable encoding s m : reachable encoding s m -> inv s m.
Proof.
  induction 1 as [|s k s' m _ IH E|s a s' m _ IH Al E].
  - apply inv_new.
  - pose proof (inv_advance s k IH) as H. by rewrite E in H.
  - by apply (inv_perform s a (s', m)).
Qed.
End Inv.
