(* ===== verification/WritableRuns.v ===== *)
(** * What writable streams guarantee

    The theorems about the runs of [WritableInv], that a stream returns to the
    program whatever it is asked to do, and runs of concrete streams. *)

From S2P Require Import Prelude Bytes Codecs WebText WebModel BufferText StreamBase WritableState Writable WritableInv.

#[local] Arguments sum : simpl never.
#[local] Arguments count : simpl never.
#[local] Arguments expand : simpl never.
#[local] Arguments checkError : simpl never.

Section Runs.
Context `{Web : !WebText}.
Context (o : options).

(** ** What holds in every run *)

Lemma at_rest_todo s : inv o s Program -> konts s = [] -> clean s -> writing s = false -> corked s = 0 -> todo s = [].
Proof.
  intros V Ek C W Co. pose proof (i_control _ _ _ V) as H. remember Program as m eqn:Em.
  destruct H as [I K|k I L K|p k l m E Wi S L K Hm|p k n Cl Hn Wi L K]; simplify_eq; [by apply I|congruence].
Qed.

(** C13: In every run in which the sink, from within [_write] or [_writev], does
    nothing to the stream but call the callback of the write, at most once:
    the sink gets the chunks that [write] accepted in the order of the
    writes, none twice; and while the stream has neither failed nor been
    destroyed, those that it did not get are in the buffer, in that order.  The
    length that the stream reports is that of the write under way and of the
    buffer. *)
Theorem chunks_in_order encoding s m :
  reachable o encoding s m ->
  sunk s `sublist_of` (chunk <$> accepted s)
  /\ (clean s -> chunk <$> accepted s = sunk s ++ chunks (todo s) /\ length_ s = writelen s + total o (todo s)).
Proof.
  intros R. pose proof (i_data _ _ _ (inv_reachable o _ _ _ R)) as D. split.
  - etrans; [|exact (d_sub _ _ D)]. by apply sublist_inserts_r.
  - intros C. split; [by apply (d_all _ _ D)|by apply (d_length _ _ D)].
Qed.

(** C14: In every run in which the sink, from within [_write] or [_writev], does
    nothing to the stream but call the callback of the write, at most once:
    a stream that is finished was ended, and its sink got every chunk that
    was accepted: 'finish' does not come before the last write. *)
Theorem finish_after_all encoding s m :
  reachable o encoding s m -> finished s = true -> ending s = true /\ sunk s = chunk <$> accepted s.
Proof. intros R F. destruct (i_finished _ _ _ (inv_reachable o _ _ _ R) F) as (E & A & _). done. Qed.

(** C15: In every run in which the sink, from within [_write] or [_writev], does
    nothing to the stream but call the callback of the write, at most once:
    each callback given to [write] is called once.  While the stream has
    neither failed nor been destroyed, a function has been called without an
    error at most as often as it was given to writes, and exactly as often when
    the program has control outside of every call of the stream, the sink is
    idle, no cork is on and no tick waits. *)
Theorem callbacks_once encoding s m f :
  reachable o encoding s m -> clean s ->
  (called f s <= count f (callback <$> accepted s))%nat
  /\ (m = Program -> konts s = [] -> ticks s = [] -> writing s = false -> corked s = 0 ->
      called f s = count f (callback <$> accepted s)).
Proof.
  intros R C. pose proof (inv_reachable o _ _ _ R) as V. pose proof (a_count _ _ (i_accounts _ _ _ V) C f) as A. split; [lia|].
  intros -> Ek Et W Co. rewrite A. pose proof (i_data _ _ _ V) as D. unfold owed. rewrite Ek, Et, (at_rest_writecb o s D W), (at_rest_todo s V Ek C W Co).
  cbn [left]. rewrite !sum_nil. change (count f (cbs [])) with O. lia.
Qed.

(** C16: In every run in which the sink, from within [_write] or [_writev], does
    nothing to the stream but call the callback of the write, at most once: a
    program that was told to wait for 'drain' does not wait in vain: when the
    program has control outside of every call of the stream, the sink is idle,
    no cork is on and no tick waits, a stream that was not ended, did not fail
    and was not destroyed owes no 'drain' and holds no chunk. *)
Theorem drain_comes encoding s :
  reachable o encoding s Program -> clean s -> ending s = false ->
  konts s = [] -> ticks s = [] -> writing s = false -> corked s = 0 ->
  needDrain s = false /\ length_ s = 0 /\ sunk s = chunk <$> accepted s.
Proof.
  intros R C En Ek Et W Co. pose proof (inv_reachable o _ _ _ R) as V. pose proof (i_data _ _ _ V) as D.
  pose proof (at_rest_todo s V Ek C W Co) as T. split_and!.
  - destruct (needDrain s) eqn:N; [|done]. destruct (a_drain _ _ (i_accounts _ _ _ V) C En N) as [H|[H|H]]; [congruence|done|].
    unfold waiting in H. rewrite Ek, Et in H. cbn [left] in H. rewrite !Exists_nil in H. tauto.
  - by rewrite (d_length _ _ D C), (d_idle _ _ D W), T.
  - rewrite (d_all _ _ D C), T. cbn. by rewrite app_nil_r.
Qed.
(** ** The stream returns to the program *)

Fixpoint flow (n : nat) (p : state * mode) : state * mode :=
  match n, p with
  | S n, (s, Stream k) => flow n (advance o s k)
  | _, _ => p
  end.

(** A bound on the instructions that one leads to: [A] and [b] are the arrays
    and the one that is the buffer. *)
Section Cost.
Context (A : list (list (option request))) (b : nat).
Let size (a : nat) : nat := length (default [] (A !! a)).

Definition cost_cb (c : cb) : nat := match c with Each n a => 2 + 2 * (size a - n) | _ => 1 end.
Definition cost_errors : nat := 3 + 2 * size b.

Definition cost (i : instr) : nat :=
  match i with
  | CallBack c _ => cost_cb c
  | EachFrom n a _ => 1 + 2 * (size a - n)
  | OnwriteScheduled _ c => 10 + cost_cb c + cost_errors
  | OnwriteError _ c => 5 + cost_cb c + cost_errors
  | AfterWrite n c => 8 + n * (1 + cost_cb c) + cost_errors
  | Callbacks n c => 7 + n * (1 + cost_cb c) + cost_errors
  | AfterCallbacks => 6 + cost_errors
  | ErrorBuffer => cost_errors
  | ErrorLoop n => 2 + 2 * (size b - n)
  | ErrorFinished l => 1 + 2 * length l
  | EndWritten _ _ => 11
  | EndUncorked _ _ => 10
  | EndReturns _ _ => 3
  | FinishMaybe _ => 5
  | FinishWhenIdle _ => 4
  | Finish => 3
  | FinishedCallbacks l _ => 1 + 2 * length l
  | FinishDestroy | ErrorOrDestroy _ _ | OnFinishFailed _ => 3
  | Destroy _ _ => 2
  | _ => 1
  end.
End Cost.

Definition potential (s : state) (k : list instr) : nat :=
  sum (cost (arrays s) (buffered s)) k + 2 * length (kOnFinished s).

Definition smaller (s s' : state) : Prop :=
  (forall a, length (array s' a) <= length (array s a))%nat /\ (length (buffer s') <= length (buffer s))%nat.

Lemma smaller_cost s s' i : smaller s s' -> (cost (arrays s') (buffered s') i <= cost (arrays s) (buffered s) i)%nat.
Proof.
  intros [Ha Hb]. unfold buffer, array in Hb, Ha. destruct i; cbn [cost]; try lia; unfold cost_errors, cost_cb.
  all: try (destruct c); try (pose proof (Ha array)); try (pose proof (Ha array0)); try lia; nia.
Qed.

Lemma smaller_refl s s' : arrays s' = arrays s -> buffered s' = buffered s -> smaller s s'.
Proof. intros Ea Eb. unfold smaller, buffer, array. by rewrite Ea, Eb. Qed.

Lemma smaller_cleared s : smaller s (cleared s).
Proof.
  split; [|by rewrite cleared_buffer; cbn; lia]. intros a. unfold array. cbn. by rewrite array_new.
Qed.

(** An instruction that calls no code of the program. *)
Definition cheaper (s : state) (i : instr) (x : out) : Prop :=
  match x with
  | Go s' l => smaller s s' /\ (sum (cost (arrays s') (buffered s')) l + 2 * length (kOnFinished s') < cost (arrays s) (buffered s) i + 2 * length (kOnFinished s))%nat
  | _ => True
  end.

Ltac cheap := cbn [and_then app cheaper]; split; [by apply smaller_refl|rewrite ?sum_cons, ?sum_nil; cbn; unfold cost_errors; try lia].

Lemma arrays_checkError er s : arrays (checkError er s) = arrays s /\ buffered (checkError er s) = buffered s /\ kOnFinished (checkError er s) = kOnFinished s.
Proof. unfold checkError. by destruct er, (errored s). Qed.

Lemma cheaper_errorOrDestroy s i er b : (2 < cost (arrays s) (buffered s) i)%nat -> cheaper s i (errorOrDestroy o er b s).
Proof.
  intros C. unfold errorOrDestroy. destruct (arrays_checkError (Some er) s) as (Ea & Eb & Ek).
  repeat case_match; simplify_eq; cbn [cheaper]; (split; [by apply smaller_refl|]); rewrite ?sum_cons, ?sum_nil; cbn; rewrite ?Ek; cbn; lia.
Qed.

Lemma and_then_app x l k : and_then (and_then x l) k = and_then x (l ++ k).
Proof. destruct x; cbn; by rewrite ?(assoc_L (++)). Qed.

(** Outside a destroyed stream the sink is called. *)
Lemma cheaper_doWrite s i t l vs c k : destroyed t = false -> cheaper s i (and_then (doWrite l vs c t) k).
Proof.
  intros De. unfold doWrite. cbn [destroyed set_writelen set_writecb set_writing set_sync]. by rewrite De.
Qed.

Lemma cheaper_clear_round s i t a n : destroyed t = false -> cheaper s i (clear_round o a n t).
Proof. intros De. unfold clear_round. repeat case_match; try done. by apply cheaper_doWrite. Qed.

Lemma cheaper_clearBuffer s i k t :
  smaller s t -> kOnFinished t = kOnFinished s ->
  (sum (cost (arrays t) (buffered t)) k < cost (arrays s) (buffered s) i)%nat -> cheaper s i (and_then (clearBuffer o t) k).
Proof.
  intros Sm Ek C. assert (cheaper s i (Go t k)) as Stop by (split; [done|rewrite Ek; lia]).
  unfold clearBuffer. destruct (_ || _ || _) eqn:E; [done|]. apply orb_false_iff in E as [_ De].
  case_match; [done|]. case_match.
  - rewrite and_then_app. by apply cheaper_doWrite.
  - unfold clear_round. repeat case_match; try done. unfold doWrite. cbn [destroyed set_bufferProcessing set_arrays set_cursor set_writelen set_writecb set_writing set_sync].
    by rewrite De.
Qed.

Lemma cost_simple A c : simple c -> cost_cb A c = 1%nat.
Proof. by destruct c. Qed.

Lemma smaller_reset s : smaller s (resetBuffer s).
Proof.
  destruct (smaller_cleared s) as [Ha Hb]. split; [intros a; exact (Ha a)|exact Hb].
Qed.

Lemma cheaper_callbacks s :
  data o s -> (forall c er, cheaper s (CallBack c er) (callBack c er s)) /\ (forall n a er, cheaper s (EachFrom n a er) (eachFrom n a er s))
  /\ forall n, cheaper s (ErrorLoop n) (errorLoop o n s).
Proof.
  intros D. split_and!.
  - intros [| |n a] er; cbn [callBack]; [cheap|done|cheap].
  - intros n a er. unfold eachFrom. destruct (array s a !! n) as [[r|]|] eqn:E; [|done|cheap].
    split; [by apply smaller_refl|]. rewrite !sum_cons, sum_nil. cbn [cost].
    rewrite cost_simple by (apply (d_simple _ _ D a); by eapply list_elem_of_lookup_2).
    apply lookup_lt_Some in E. unfold array in E. lia.
  - intros n. unfold errorLoop. destruct (buffer s !! n) as [[r|]|] eqn:E; [|done|].
    + split; [by apply smaller_refl|]. rewrite !sum_cons, sum_nil. cbn [cost arrays buffered kOnFinished set_length_].
      rewrite cost_simple by (apply (d_simple _ _ D (buffered s)); by eapply list_elem_of_lookup_2).
      apply lookup_lt_Some in E. unfold buffer, array in E. lia.
    + split; [by apply smaller_refl|]. rewrite sum_cons, sum_nil. cbn. lia.
Qed.

Lemma run_cheaper s i :
  data o s -> (forall er, i <> Onwrite er) -> (forall a n, i = ClearLoop a n -> a = buffered s /\ n = cursor s /\ destroyed s = false) ->
  cheaper s i (run_instr o i s).
Proof.
  intros D Ni Nc. destruct (cheaper_callbacks s D) as (Hc & He & Hl). destruct i; cbn [run_instr].
  all: unfold writeReturns, returns, clearVectored, onwriteError, callFn, afterWrite, callbacks, afterCallbacks, errorBuffer, endReturns,
    endUncorked, finishWhenIdle, onFinishReady, finishedCallbacks, finish, finishDestroy, destroyed_, emitErrorNT, emitCloseNT, emit.
  all: try done.
  all: try (repeat case_match; try done; simplify_eq; cheap; fail).
  - destruct (Nc _ _ eq_refl) as (-> & -> & De). unfold clearLoop. destruct (_ && _); [by apply cheaper_clear_round|].
    change (array s (buffered s)) with (buffer s).
    destruct (Nat.eqb_spec (cursor s) (length (buffer s))) as [E|E]; [split; [apply smaller_cleared|rewrite sum_nil; cbn; lia]|].
    destruct (256 <? cursor s)%nat; (split; [|rewrite sum_nil; cbn; lia]); [|by apply smaller_refl].
    pose proof (spliced_array o s D) as Ha. pose proof (spliced_buffer o s D) as Hb. split.
    + intros a. rewrite Ha. case_decide as Ea; [subst a|done]. unfold todo. rewrite length_drop. change (array s (buffered s)) with (buffer s). lia.
    + rewrite Hb. unfold todo. rewrite length_drop. lia.
  - split; [apply smaller_cleared|rewrite sum_nil; cbn; lia].
  - by destruct (Ni er).
  - match goal with |- cheaper _ _ (onwriteScheduled ?b ?c s) => destruct b; [destruct (onwriteScheduled_sync c s) as (s' & -> & Sc)|] end.
    + split; [destruct Sc; by apply smaller_refl|]. rewrite sum_nil. destruct Sc; cbn; lia.
    + cbn [onwriteScheduled]. cheap.
  - destruct l; cbn [errorFinished]; [|cheap]. split; [apply smaller_reset|rewrite sum_nil; cbn; lia].
  - unfold endWritten, uncork. cbn [corked set_corked writing]. destruct (negb _); [|cheap]. change (1 =? 0) with false. cbn iota.
    destruct (writing s); cbn [negb]; [cheap|]. apply cheaper_clearBuffer; [by apply smaller_refl|done|]. rewrite sum_cons, sum_nil. cbn. lia.
  - destruct c; [|cheap]. case_match; [cheap|]. unfold cheaper. split; [by apply smaller_refl|].
    rewrite sum_nil. cbn. rewrite length_app. cbn. lia.
  - unfold finishMaybe, prefinish, callFinal, emit. repeat case_match; cbn [and_then app]; try done; cheap.
  - apply cheaper_errorOrDestroy. cbn. lia.
  - unfold destroy, destroyImpl_destroy, call_destroy. destruct (destroyed s) eqn:De; cbn [negb andb].
    + rewrite De. destruct c; cheap.
    + destruct (_ || _); cbn [destroyed nextTick set_ticks]; by rewrite De.
  - apply cheaper_errorOrDestroy. cbn. lia.
Qed.

Lemma advance_cheaper s i k s' k' :
  inv o s (Stream (i :: k)) -> advance o s (i :: k) = (s', Stream k') -> (potential s' k' < potential s (i :: k))%nat.
Proof.
  intros V E. cbn [advance] in E.
  assert (cheaper s i (run_instr o i s)) as C.
  { apply run_cheaper; [apply V|..].
    - intros er ->. pose proof (i_control _ _ _ V) as C. inversion C as [|? ? L|? ? ? ? ? ? ? ? ? Hm|p ? n Cl Hn]; subst.
      + by apply Forall_inv in L.
      + destruct Hm as [?|[?|(? & ? & ?)]]; by simplify_eq.
      + destruct p, n as [|[]]; try done; cbn in *; simplify_eq; lia.
    - intros a n ->. pose proof (i_control _ _ _ V) as C. inversion C as [|? ? L|? ? ? ? ? ? ? ? ? Hm|p ? j Cl Hn (De & W)]; subst.
      + by apply Forall_inv in L.
      + destruct Hm as [?|[?|(? & ? & ?)]]; by simplify_eq.
      + destruct p, j as [|[]]; try done; cbn in *; simplify_eq; try lia. by destruct W as (_ & -> & ->). }
  destruct (run_instr o i s) as [t l|t c l|t er]; cbn [settle] in E; simplify_eq. destruct C as [Sm C].
  unfold potential. rewrite sum_of_app, sum_cons.
  assert (sum (cost (arrays s') (buffered s')) k <= sum (cost (arrays s) (buffered s)) k)%nat.
  { clear -Sm. induction k as [|j k IH]; [done|]. rewrite !sum_cons. pose proof (smaller_cost s s' j Sm). lia. }
  lia.
Qed.

(** C17: In every run in which the sink, from within [_write] or [_writev], does
    nothing to the stream but call the callback of the write, at most once: what
    the stream does for a call or a tick ends, it returns to the program, or
    calls the sink or a function of the program, after finitely many steps of
    its own, and the run goes on from there. *)
Theorem stream_returns encoding s k :
  reachable o encoding s (Stream k) -> exists n s', flow n (s, Stream k) = (s', Program) /\ reachable o encoding s' Program.
Proof.
  remember (potential s k) as m eqn:Em. revert s k Em. induction (lt_wf m) as [m _ IH]. intros s k -> R.
  destruct (advance o s k) as [s' [k'|]] eqn:E.
  - destruct k as [|i k]; [done|]. assert (reachable o encoding s' (Stream k')) as R' by (by eapply reachable_stream).
    destruct (IH (potential s' k')) with s' k' as (n & t & Ef & Rt); [|done|done|].
    + eapply advance_cheaper; [by eapply inv_reachable|done].
    + exists (S n), t. cbn [flow]. by rewrite E.
  - exists 1%nat, s'. cbn [flow]. rewrite E. split; [done|]. by eapply reachable_stream.
Qed.

(** ** Scripts *)

(** The program follows a list of actions; [strict] asks for what [only_calls_back]
    does. *)
Fixpoint play (strict : bool) (fuel : nat) (l : list action) (s : state) : option state :=
  match l with
  | [] => Some s
  | a :: l =>
      if strict && negb (only_calls_back a s) then None
      else match perform o a s with
           | Some p => match flow fuel p with (s', Program) => play strict fuel l s' | _ => None end
           | None => None
           end
  end.

Lemma flow_reachable encoding n s m s' m' :
  reachable o encoding s m -> flow n (s, m) = (s', m') -> reachable o encoding s' m'.
Proof.
  revert s m. induction n as [|n IH]; intros s m R E; cbn [flow] in E; [by simplify_eq|].
  destruct m as [k|]; [|by simplify_eq]. destruct (advance o s k) as [t m] eqn:Ea. apply (IH t m); [|done]. by eapply reachable_stream.
Qed.

Lemma play_reachable encoding fuel l s s' :
  reachable o encoding s Program -> play true fuel l s = Some s' -> reachable o encoding s' Program.
Proof.
  revert s. induction l as [|a l IH]; intros s R E; cbn [play] in E; [by simplify_eq|].
  destruct (only_calls_back a s) eqn:Al; cbn [andb negb] in E; [|done]. destruct (perform o a s) as [[t m]|] eqn:Ep; [|done].
  destruct (flow fuel (t, m)) as [u [|]] eqn:Ef; [done|]. apply (IH u); [|done]. eapply flow_reachable; [|done]. by eapply reachable_program.
Qed.
End Runs.

(** ** Runs of concrete streams *)

Module Demo.
#[local] Existing Instance web_text.

Definition options (writev final : bool) : options := Options false 4 true true true writev final.
Definition utf8 : jsstr := js "utf8".
Definition write (l : list Z) (f : Z) : action := AWrite (VBuffer l) JUndefined (Some f).

(** The state after a script. *)
Definition after (strict writev final : bool) (l : list action) : state :=
  default (WritableState utf8) (play (options writev final) strict 100 l (WritableState utf8)).

Definition played (writev final : bool) (l : list action) : bool :=
  match play (options writev final) true 100 l (WritableState utf8) with Some _ => true | None => false end.

Lemma after_reachable writev final l :
  played writev final l = true -> reachable (options writev final) utf8 (after true writev final l) Program.
Proof.
  unfold played, after. destruct (play _ _ _ _ _) as [s|] eqn:E; [|done]. intros _.
  eapply play_reachable; [|exact E]. apply reachable_new.
Qed.

(** Two writes, the second while the first is under way, which the sink ends
    later; then the program gets its callback. *)
Definition two_writes : list action :=
  [write [1; 2; 3] 10; AReturn; write [4; 5] 11; AOnwrite None; AReturn; AReturn].

(** And the second ends: 'drain', and its callback. *)
Definition drained_ : list action := two_writes ++ [AOnwrite None; AReturn; AReturn].

(** The end: 'prefinish', and in a tick the callback, 'finish' and [_destroy]. *)
Definition ended_ : list action :=
  drained_ ++ [AEnd None (Some 12); AReturn; ATick; AReturn; AReturn; AOnDestroy None; AReturn; ATick; AReturn].

Example two_writes_log : log (after true false false two_writes) = [Returned true; Returned false; Written 10 None].
Proof. vm_compute. reflexivity. Qed.

Example ended_log :
  log (after true false false ended_)
  = [Returned true; Returned false; Written 10 None; Emit "drain"; Written 11 None; Emit "prefinish"; Called 12 None;
     Emit "finish"; Emit "close"].
Proof. vm_compute. reflexivity. Qed.

(** Writes that were buffered go to [_writev] at once, and their callbacks are
    called in a tick. *)
Example vectored_log :
  let s := after true true false [ACork; write [1] 10; write [2] 11; AUncork; AOnwrite None; AReturn; ATick; AReturn; AReturn] in
  sunk s = [VBuffer [1]; VBuffer [2]] /\ log s = [Returned true; Returned true; Written 10 None; Written 11 None] /\ pendingcb s = 0.
Proof. vm_compute. done. Qed.

(** A failed write: its callback and those of the buffer get the error. *)
Example failed_log :
  log (after true false false [write [1] 10; AReturn; write [2] 11; AOnwrite (Some (Error "disk full")); AReturn; AReturn; AOnDestroy (Some (Error "disk full"));
                               AReturn; ATick; AReturn; AReturn])
  = [Returned true; Returned true; Written 10 (Some (Error "disk full")); Written 11 (Some (Error "disk full")); Emit "error"; Emit "close"].
Proof. vm_compute. reflexivity. Qed.

(** *** Sinks that use the stream from within *)

(** A sink that reports a write as done and then writes overtakes the buffer. *)
Example write_overtakes :
  let s := after false false false [ACork; write [1] 10; write [2] 11; AUncork; AOnwrite None; write [3] 12; AReturn; AReturn; AOnwrite None; AReturn] in
  chunk <$> accepted s = [VBuffer [1]; VBuffer [2]; VBuffer [3]] /\ sunk s = [VBuffer [1]; VBuffer [3]; VBuffer [2]].
Proof. vm_compute. done. Qed.

(** What is written from within [_writev] is lost: it does not reach the sink,
    its callback reports success, and the stream counts it for ever. *)
Example write_lost :
  let s := after false true false [ACork; write [1] 10; write [2] 11; AUncork; write [3] 12; AReturn; AOnwrite None; AReturn; AReturn; AReturn] in
  chunk <$> accepted s = [VBuffer [1]; VBuffer [2]; VBuffer [3]] /\ sunk s = [VBuffer [1]; VBuffer [2]]
  /\ Written 12 None ∈ log s /\ buffer s = [] /\ length_ s = 1.
Proof. vm_compute. split_and!; try done. repeat constructor. Qed.

(** [_final] may call its callback twice: the second call throws a [TypeError]
    instead of destroying the stream. *)
Example final_twice :
  let s := after true false true [AEnd None None; AOnFinish None; AReturn; AOnFinish None] in
  destroyed s = false
  /\ last (log s) = Some (Threw (TypeError "Class constructor ERR_MULTIPLE_CALLBACK cannot be invoked without 'new'")).
Proof. vm_compute. done. Qed.
End Demo.

(** ** Witnesses *)

Section Witnesses.
Import Demo.
#[local] Existing Instance web_text.

Lemma chunks_in_order_witness :
  let s := after true false false two_writes in
  sunk s = [VBuffer [1; 2; 3]; VBuffer [4; 5]] /\ sunk s `sublist_of` (chunk <$> accepted s) /\ length_ s = writelen s + total (options false false) (todo s).
Proof.
  cbv zeta. destruct (chunks_in_order (options false false) utf8 (after true false false two_writes) Program) as [S C].
  - apply after_reachable. vm_compute. reflexivity.
  - split_and!; [vm_compute; reflexivity|exact S|]. apply C. vm_compute. split; reflexivity.
Defined.

Lemma finish_after_all_witness :
  let s := after true false false ended_ in finished s = true /\ ending s = true /\ sunk s = chunk <$> accepted s.
Proof.
  cbv zeta. assert (finished (after true false false ended_) = true) as F by (vm_compute; reflexivity). split; [exact F|].
  apply (finish_after_all (options false false) utf8 _ Program); [|exact F]. apply after_reachable. vm_compute. reflexivity.
Defined.

Lemma callbacks_once_witness :
  let s := after true false false drained_ in called 10 s = 1%nat /\ called 10 s = count 10 (callback <$> accepted s).
Proof.
  cbv zeta. split; [vm_compute; reflexivity|].
  destruct (callbacks_once (options false false) utf8 (after true false false drained_) Program 10) as [_ H].
  - apply after_reachable. vm_compute. reflexivity.
  - vm_compute. split; reflexivity.
  - apply H; vm_compute; reflexivity.
Defined.

Lemma drain_comes_witness :
  let s := after true false false drained_ in
  Emit "drain" ∈ log s /\ needDrain s = false /\ length_ s = 0 /\ sunk s = chunk <$> accepted s.
Proof.
  cbv zeta. split; [vm_compute; do 3 apply list_elem_of_further; apply list_elem_of_here|].
  apply (drain_comes (options false false) utf8); [apply after_reachable|vm_compute; split|..]; vm_compute; reflexivity.
Defined.

Lemma stream_returns_witness :
  exists n s', flow (options false false) n (set_konts [] (after true false false [write [1] 10]), Stream [WriteReturns true true]) = (s', Program).
Proof.
  destruct (stream_returns (options false false) utf8 (set_konts [] (after true false false [write [1] 10])) [WriteReturns true true])
    as (n & s' & E & _).
  - eapply (reachable_program _ _ (after true false false [write [1] 10]) AReturn);
      [apply after_reachable; vm_compute; reflexivity|vm_compute; reflexivity|vm_compute; reflexivity].
  - exists n, s'. exact E.
Defined.
End Witnesses.
