(* ===== verification/ReadableState.v ===== *)
(** * The state of a readable stream: lib/internal/streams/readable.js in _stream.mjs

    As for writable streams, the stream is a machine: [instr] are the places
    where it goes on after code of the program, which is the source ([_read],
    [_destroy]) and the listeners, and which can call the stream again;
    [konts] is the stack of what waits for such code to return, and [ticks]
    what was given to [process.nextTick].

    A stream of bytes: without [objectMode], without a decoder, without
    [_construct], without pipes and without a writable side; of what the
    program's code does, throwing is left out.  The list of buffers is the
    interface [ChunkList]. *)

From S2P Require Import Prelude.

(** What a caller does with the result of [read]: it is the program, the loop of
    [flow], the loop of [maybeReadMore_] with the length before, or a place
    that ignores it. *)
Inductive whence := ToProgram | ToFlow | ToMore (len : Z) | ToNobody.

#[export] Instance whence_eq_dec : EqDecision whence.
Proof. solve_decision. Defined.

(** What the stream still has to do.  A number of bytes [None] is [NaN]. *)
Inductive instr :=
| ReadAfter (nOrig : option Z) (n : Z) (w : whence)   (* read, after [_read] *)
| ReadDone (nOrig : option Z) (ret : list Z) (w : whence) (* read, after 'data' *)
| Flow
| EmitReadable_
| EmittedReadable                                     (* emitReadable_, after 'readable' *)
| AfterReadable                                       (* emitReadable_, after the condition *)
| MoreLoop                                            (* maybeReadMore_: the condition of the loop *)
| ResumeEmit                                          (* resume_, after [read(0)] *)
| ResumeEnd                                           (* resume_, after [flow] *)
| AddedChunk                                          (* addChunk: the last line *)
| PushReturns
| Paused                                              (* pause, after 'pause' *)
| EndDestroy                                          (* endReadableNT, after 'end' *)
| CallFn (id : Z) (er : option jserr)
| Destroy (er : option jserr) (c : option Z)
| Destroyed (er : option jserr)                       (* onDestroy, after the callback *)
| ErrorOrDestroy (er : jserr)
| EmitError (er : jserr)
| EmitClose.

(** What [process.nextTick] is given. *)
Inductive tick :=
| TEmitReadable
| TMaybeReadMore
| TResume
| TEndReadable
| TReadZero                                           (* nReadingNextTick *)
| TUpdateListening
| TEmitErrorClose (er : jserr)
| TEmitClose.

(** Code of the program: within the source's [_read], or elsewhere. *)
Inductive context := InRead | InProgram.

(** What the program sees: events, the chunks of 'data', what [read] and [push]
    return, calls of its callbacks and what is thrown. *)
Inductive event :=
| Emit (name : string)
| Data (b : list Z)
| ReadReturned (n : option Z) (ret : option (list Z))
| PushReturned (b : bool)
| Called (id : Z) (er : option jserr)
| Threw (er : jserr).

(** What happened to the bytes: pushed, put back, taken out. *)
Inductive move := Pushed (b : list Z) | PutBack (b : list Z) | Taken (b : list Z).

(** The part of the state that never changes. *)
Record options := Options { emitClose : bool; autoDestroy : bool; defaultEncoding : jsstr }.

Section State.
Context {B : Type}.

Record state := State {
  highWaterMark : Z;
  buffer : B;
  length_ : Z;
  flowing : option bool;
  ended : bool;
  endEmitted : bool;
  reading : bool;
  sync : bool;
  needReadable : bool;
  emittedReadable : bool;
  readableListening : bool;
  resumeScheduled : bool;
  kPaused : option bool;
  errorEmitted : bool;
  destroyed : bool;
  errored : option jserr;
  closed : bool;
  closeEmitted : bool;
  readingMore : bool;
  dataEmitted : bool;
  (** How many listeners 'data' and 'readable' have. *)
  dataListeners : nat;
  readableListeners : nat;
  ticks : list tick;
  konts : list (context * list instr);
  log : list event;
  (** The variable [called] of the closure that [_destroy] gets, and the
      callback that it holds. *)
  destroy_called : bool;
  destroy_cb : option Z;
  (** History: what went in and out; and whether the program did one of two
      things that streams do not cope with: to push an empty chunk within
      [_read], or to put a chunk back after the end. *)
  history : list move;
  odd : bool
}.

Definition set_highWaterMark (v : Z) (s : state) : state := State v (buffer s) (length_ s) (flowing s) (ended s) (endEmitted s) (reading s) (sync s)
  (needReadable s) (emittedReadable s) (readableListening s) (resumeScheduled s) (kPaused s) (errorEmitted s) (destroyed s) (errored s) (closed s)
  (closeEmitted s) (readingMore s) (dataEmitted s) (dataListeners s) (readableListeners s) (ticks s) (konts s) (log s) (destroy_called s) (destroy_cb
  s) (history s) (odd s).
Definition set_buffer (v : B) (s : state) : state := State (highWaterMark s) v (length_ s) (flowing s) (ended s) (endEmitted s) (reading s) (sync s)
  (needReadable s) (emittedReadable s) (readableListening s) (resumeScheduled s) (kPaused s) (errorEmitted s) (destroyed s) (errored s) (closed s)
  (closeEmitted s) (readingMore s) (dataEmitted s) (dataListeners s) (readableListeners s) (ticks s) (konts s) (log s) (destroy_called s) (destroy_cb
  s) (history s) (odd s).
Definition set_length_ (v : Z) (s : state) : state := State (highWaterMark s) (buffer s) v (flowing s) (ended s) (endEmitted s) (reading s) (sync s)
  (needReadable s) (emittedReadable s) (readableListening s) (resumeScheduled s) (kPaused s) (errorEmitted s) (destroyed s) (errored s) (closed s)
  (closeEmitted s) (readingMore s) (dataEmitted s) (dataListeners s) (readableListeners s) (ticks s) (konts s) (log s) (destroy_called s) (destroy_cb
  s) (history s) (odd s).
Definition set_flowing (v : option bool) (s : state) : state := State (highWaterMark s) (buffer s) (length_ s) v (ended s) (endEmitted s) (reading s)
  (sync s) (needReadable s) (emittedReadable s) (readableListening s) (resumeScheduled s) (kPaused s) (errorEmitted s) (destroyed s) (errored s)
  (closed s) (closeEmitted s) (readingMore s) (dataEmitted s) (dataListeners s) (readableListeners s) (ticks s) (konts s) (log s) (destroy_called s)
  (destroy_cb s) (history s) (odd s).
Definition set_ended (v : bool) (s : state) : state := State (highWaterMark s) (buffer s) (length_ s) (flowing s) v (endEmitted s) (reading s) (sync
  s) (needReadable s) (emittedReadable s) (readableListening s) (resumeScheduled s) (kPaused s) (errorEmitted s) (destroyed s) (errored s) (closed s)
  (closeEmitted s) (readingMore s) (dataEmitted s) (dataListeners s) (readableListeners s) (ticks s) (konts s) (log s) (destroy_called s) (destroy_cb
  s) (history s) (odd s).
Definition set_endEmitted (v : bool) (s : state) : state := State (highWaterMark s) (buffer s) (length_ s) (flowing s) (ended s) v (reading s) (sync
  s) (needReadable s) (emittedReadable s) (readableListening s) (resumeScheduled s) (kPaused s) (errorEmitted s) (destroyed s) (errored s) (closed s)
  (closeEmitted s) (readingMore s) (dataEmitted s) (dataListeners s) (readableListeners s) (ticks s) (konts s) (log s) (destroy_called s) (destroy_cb
  s) (history s) (odd s).
Definition set_reading (v : bool) (s : state) : state := State (highWaterMark s) (buffer s) (length_ s) (flowing s) (ended s) (endEmitted s) v (sync
  s) (needReadable s) (emittedReadable s) (readableListening s) (resumeScheduled s) (kPaused s) (errorEmitted s) (destroyed s) (errored s) (closed s)
  (closeEmitted s) (readingMore s) (dataEmitted s) (dataListeners s) (readableListeners s) (ticks s) (konts s) (log s) (destroy_called s) (destroy_cb
  s) (history s) (odd s).
Definition set_sync (v : bool) (s : state) : state := State (highWaterMark s) (buffer s) (length_ s) (flowing s) (ended s) (endEmitted s) (reading s)
  v (needReadable s) (emittedReadable s) (readableListening s) (resumeScheduled s) (kPaused s) (errorEmitted s) (destroyed s) (errored s) (closed s)
  (closeEmitted s) (readingMore s) (dataEmitted s) (dataListeners s) (readableListeners s) (ticks s) (konts s) (log s) (destroy_called s) (destroy_cb
  s) (history s) (odd s).
Definition set_needReadable (v : bool) (s : state) : state := State (highWaterMark s) (buffer s) (length_ s) (flowing s) (ended s) (endEmitted s)
  (reading s) (sync s) v (emittedReadable s) (readableListening s) (resumeScheduled s) (kPaused s) (errorEmitted s) (destroyed s) (errored s) (closed
  s) (closeEmitted s) (readingMore s) (dataEmitted s) (dataListeners s) (readableListeners s) (ticks s) (konts s) (log s) (destroy_called s)
  (destroy_cb s) (history s) (odd s).
Definition set_emittedReadable (v : bool) (s : state) : state := State (highWaterMark s) (buffer s) (length_ s) (flowing s) (ended s) (endEmitted s)
  (reading s) (sync s) (needReadable s) v (readableListening s) (resumeScheduled s) (kPaused s) (errorEmitted s) (destroyed s) (errored s) (closed s)
  (closeEmitted s) (readingMore s) (dataEmitted s) (dataListeners s) (readableListeners s) (ticks s) (konts s) (log s) (destroy_called s) (destroy_cb
  s) (history s) (odd s).
Definition set_readableListening (v : bool) (s : state) : state := State (highWaterMark s) (buffer s) (length_ s) (flowing s) (ended s) (endEmitted s)
  (reading s) (sync s) (needReadable s) (emittedReadable s) v (resumeScheduled s) (kPaused s) (errorEmitted s) (destroyed s) (errored s) (closed s)
  (closeEmitted s) (readingMore s) (dataEmitted s) (dataListeners s) (readableListeners s) (ticks s) (konts s) (log s) (destroy_called s) (destroy_cb
  s) (history s) (odd s).
Definition set_resumeScheduled (v : bool) (s : state) : state := State (highWaterMark s) (buffer s) (length_ s) (flowing s) (ended s) (endEmitted s)
  (reading s) (sync s) (needReadable s) (emittedReadable s) (readableListening s) v (kPaused s) (errorEmitted s) (destroyed s) (errored s) (closed s)
  (closeEmitted s) (readingMore s) (dataEmitted s) (dataListeners s) (readableListeners s) (ticks s) (konts s) (log s) (destroy_called s) (destroy_cb
  s) (history s) (odd s).
Definition set_kPaused (v : option bool) (s : state) : state := State (highWaterMark s) (buffer s) (length_ s) (flowing s) (ended s) (endEmitted s)
  (reading s) (sync s) (needReadable s) (emittedReadable s) (readableListening s) (resumeScheduled s) v (errorEmitted s) (destroyed s) (errored s)
  (closed s) (closeEmitted s) (readingMore s) (dataEmitted s) (dataListeners s) (readableListeners s) (ticks s) (konts s) (log s) (destroy_called s)
  (destroy_cb s) (history s) (odd s).
Definition set_errorEmitted (v : bool) (s : state) : state := State (highWaterMark s) (buffer s) (length_ s) (flowing s) (ended s) (endEmitted s)
  (reading s) (sync s) (needReadable s) (emittedReadable s) (readableListening s) (resumeScheduled s) (kPaused s) v (destroyed s) (errored s) (closed
  s) (closeEmitted s) (readingMore s) (dataEmitted s) (dataListeners s) (readableListeners s) (ticks s) (konts s) (log s) (destroy_called s)
  (destroy_cb s) (history s) (odd s).
Definition set_destroyed (v : bool) (s : state) : state := State (highWaterMark s) (buffer s) (length_ s) (flowing s) (ended s) (endEmitted s)
  (reading s) (sync s) (needReadable s) (emittedReadable s) (readableListening s) (resumeScheduled s) (kPaused s) (errorEmitted s) v (errored s)
  (closed s) (closeEmitted s) (readingMore s) (dataEmitted s) (dataListeners s) (readableListeners s) (ticks s) (konts s) (log s) (destroy_called s)
  (destroy_cb s) (history s) (odd s).
Definition set_errored (v : option jserr) (s : state) : state := State (highWaterMark s) (buffer s) (length_ s) (flowing s) (ended s) (endEmitted s)
  (reading s) (sync s) (needReadable s) (emittedReadable s) (readableListening s) (resumeScheduled s) (kPaused s) (errorEmitted s) (destroyed s) v
  (closed s) (closeEmitted s) (readingMore s) (dataEmitted s) (dataListeners s) (readableListeners s) (ticks s) (konts s) (log s) (destroy_called s)
  (destroy_cb s) (history s) (odd s).
Definition set_closed (v : bool) (s : state) : state := State (highWaterMark s) (buffer s) (length_ s) (flowing s) (ended s) (endEmitted s) (reading
  s) (sync s) (needReadable s) (emittedReadable s) (readableListening s) (resumeScheduled s) (kPaused s) (errorEmitted s) (destroyed s) (errored s) v
  (closeEmitted s) (readingMore s) (dataEmitted s) (dataListeners s) (readableListeners s) (ticks s) (konts s) (log s) (destroy_called s) (destroy_cb
  s) (history s) (odd s).
Definition set_closeEmitted (v : bool) (s : state) : state := State (highWaterMark s) (buffer s) (length_ s) (flowing s) (ended s) (endEmitted s)
  (reading s) (sync s) (needReadable s) (emittedReadable s) (readableListening s) (resumeScheduled s) (kPaused s) (errorEmitted s) (destroyed s)
  (errored s) (closed s) v (readingMore s) (dataEmitted s) (dataListeners s) (readableListeners s) (ticks s) (konts s) (log s) (destroy_called s)
  (destroy_cb s) (history s) (odd s).
Definition set_readingMore (v : bool) (s : state) : state := State (highWaterMark s) (buffer s) (length_ s) (flowing s) (ended s) (endEmitted s)
  (reading s) (sync s) (needReadable s) (emittedReadable s) (readableListening s) (resumeScheduled s) (kPaused s) (errorEmitted s) (destroyed s)
  (errored s) (closed s) (closeEmitted s) v (dataEmitted s) (dataListeners s) (readableListeners s) (ticks s) (konts s) (log s) (destroy_called s)
  (destroy_cb s) (history s) (odd s).
Definition set_dataEmitted (v : bool) (s : state) : state := State (highWaterMark s) (buffer s) (length_ s) (flowing s) (ended s) (endEmitted s)
  (reading s) (sync s) (needReadable s) (emittedReadable s) (readableListening s) (resumeScheduled s) (kPaused s) (errorEmitted s) (destroyed s)
  (errored s) (closed s) (closeEmitted s) (readingMore s) v (dataListeners s) (readableListeners s) (ticks s) (konts s) (log s) (destroy_called s)
  (destroy_cb s) (history s) (odd s).
Definition set_dataListeners (v : nat) (s : state) : state := State (highWaterMark s) (buffer s) (length_ s) (flowing s) (ended s) (endEmitted s)
  (reading s) (sync s) (needReadable s) (emittedReadable s) (readableListening s) (resumeScheduled s) (kPaused s) (errorEmitted s) (destroyed s)
  (errored s) (closed s) (closeEmitted s) (readingMore s) (dataEmitted s) v (readableListeners s) (ticks s) (konts s) (log s) (destroy_called s)
  (destroy_cb s) (history s) (odd s).
Definition set_readableListeners (v : nat) (s : state) : state := State (highWaterMark s) (buffer s) (length_ s) (flowing s) (ended s) (endEmitted s)
  (reading s) (sync s) (needReadable s) (emittedReadable s) (readableListening s) (resumeScheduled s) (kPaused s) (errorEmitted s) (destroyed s)
  (errored s) (closed s) (closeEmitted s) (readingMore s) (dataEmitted s) (dataListeners s) v (ticks s) (konts s) (log s) (destroy_called s)
  (destroy_cb s) (history s) (odd s).
Definition set_ticks (v : list tick) (s : state) : state := State (highWaterMark s) (buffer s) (length_ s) (flowing s) (ended s) (endEmitted s)
  (reading s) (sync s) (needReadable s) (emittedReadable s) (readableListening s) (resumeScheduled s) (kPaused s) (errorEmitted s) (destroyed s)
  (errored s) (closed s) (closeEmitted s) (readingMore s) (dataEmitted s) (dataListeners s) (readableListeners s) v (konts s) (log s) (destroy_called
  s) (destroy_cb s) (history s) (odd s).
Definition set_konts (v : list (context * list instr)) (s : state) : state := State (highWaterMark s) (buffer s) (length_ s) (flowing s) (ended s)
  (endEmitted s) (reading s) (sync s) (needReadable s) (emittedReadable s) (readableListening s) (resumeScheduled s) (kPaused s) (errorEmitted s)
  (destroyed s) (errored s) (closed s) (closeEmitted s) (readingMore s) (dataEmitted s) (dataListeners s) (readableListeners s) (ticks s) v (log s)
  (destroy_called s) (destroy_cb s) (history s) (odd s).
Definition set_log (v : list event) (s : state) : state := State (highWaterMark s) (buffer s) (length_ s) (flowing s) (ended s) (endEmitted s)
  (reading s) (sync s) (needReadable s) (emittedReadable s) (readableListening s) (resumeScheduled s) (kPaused s) (errorEmitted s) (destroyed s)
  (errored s) (closed s) (closeEmitted s) (readingMore s) (dataEmitted s) (dataListeners s) (readableListeners s) (ticks s) (konts s) v
  (destroy_called s) (destroy_cb s) (history s) (odd s).
Definition set_destroy_called (v : bool) (s : state) : state := State (highWaterMark s) (buffer s) (length_ s) (flowing s) (ended s) (endEmitted s)
  (reading s) (sync s) (needReadable s) (emittedReadable s) (readableListening s) (resumeScheduled s) (kPaused s) (errorEmitted s) (destroyed s)
  (errored s) (closed s) (closeEmitted s) (readingMore s) (dataEmitted s) (dataListeners s) (readableListeners s) (ticks s) (konts s) (log s) v
  (destroy_cb s) (history s) (odd s).
Definition set_destroy_cb (v : option Z) (s : state) : state := State (highWaterMark s) (buffer s) (length_ s) (flowing s) (ended s) (endEmitted s)
  (reading s) (sync s) (needReadable s) (emittedReadable s) (readableListening s) (resumeScheduled s) (kPaused s) (errorEmitted s) (destroyed s)
  (errored s) (closed s) (closeEmitted s) (readingMore s) (dataEmitted s) (dataListeners s) (readableListeners s) (ticks s) (konts s) (log s)
  (destroy_called s) v (history s) (odd s).
Definition set_history (v : list move) (s : state) : state := State (highWaterMark s) (buffer s) (length_ s) (flowing s) (ended s) (endEmitted s)
  (reading s) (sync s) (needReadable s) (emittedReadable s) (readableListening s) (resumeScheduled s) (kPaused s) (errorEmitted s) (destroyed s)
  (errored s) (closed s) (closeEmitted s) (readingMore s) (dataEmitted s) (dataListeners s) (readableListeners s) (ticks s) (konts s) (log s)
  (destroy_called s) (destroy_cb s) v (odd s).
Definition set_odd (v : bool) (s : state) : state := State (highWaterMark s) (buffer s) (length_ s) (flowing s) (ended s) (endEmitted s) (reading s)
  (sync s) (needReadable s) (emittedReadable s) (readableListening s) (resumeScheduled s) (kPaused s) (errorEmitted s) (destroyed s) (errored s)
  (closed s) (closeEmitted s) (readingMore s) (dataEmitted s) (dataListeners s) (readableListeners s) (ticks s) (konts s) (log s) (destroy_called s)
  (destroy_cb s) (history s) v.
End State.
