(* ===== verification/Readable.v ===== *)
(** * Readable streams: lib/internal/streams/readable.js in _stream.mjs

    The operations of a stream and the machine that runs them, on the state of
    [ReadableState]; with the part of lib/internal/streams/destroy.js that
    they use. *)

From S2P Require Import Prelude Bytes Codecs WebText BufferText StreamBase ReadableState.

Section Streams.
Context `{!WebText} {B : Type} `{!ChunkList B}.
Context (o : options).
#[local] Abbreviation state := (ReadableState.state (B := B)).

(** What an instruction does next: go on with others, call code of the program
    and go on with them when it returns, or throw. *)
Inductive out :=
| Go (s : state) (k : list instr)
| Call (s : state) (c : context) (k : list instr)
| Raise (s : state) (er : jserr).

Definition and_then (o : out) (k : list instr) : out :=
  match o with Go s l => Go s (l ++ k) | Call s c l => Call s c (l ++ k) | Raise s er => Raise s er end.

Definition tell (e : event) (s : state) : state := set_log (log s ++ [e]) s.
Definition nextTick (t : tick) (s : state) : state := set_ticks (ticks s ++ [t]) s.
Definition record (m : list move) (s : state) : state := set_history (history s ++ m) s.

Definition emit (name : string) (s : state) (k : list instr) : out := Call (tell (Emit name) s) InProgram k.

Definition is_flowing (s : state) : bool := match flowing s with Some b => b | None => false end.
Definition is_errored (s : state) : bool := match errored s with Some _ => true | None => false end.

(** A new [ReadableState]. *)
Definition ReadableState (hwm : Z) : state :=
  State hwm new_chunks 0 None false false false true false false false false None false false None false false false false
        O O [] [] [] false None [] false.

(** ** Errors and destruction: lib/internal/streams/destroy.js *)

Definition checkError (er : option jserr) (s : state) : state :=
  match er, errored s with Some e, None => set_errored (Some e) s | _, _ => s end.

(** [_destroy] calls the program; [onDestroy] is what that is given. *)
Definition call_destroy (c : option Z) (s : state) : out :=
  Call (s |> set_destroy_called false |> set_destroy_cb c) InProgram [].

Definition destroy (er : option jserr) (c : option Z) (s : state) : out :=
  if destroyed s then Go s (match c with Some c => [CallFn c None] | None => [] end)
  else call_destroy c (s |> checkError er |> set_destroyed true).

Definition onDestroy (er : option jserr) (s : state) : out :=
  if destroy_called s then Go s []
  else
    let s := s |> set_destroy_called true |> checkError er |> set_closed true in
    Go s (match destroy_cb s with Some c => [CallFn c er; Destroyed er] | None => [Destroyed er] end).

Definition destroyed_ (er : option jserr) (s : state) : out :=
  Go (nextTick (match er with Some e => TEmitErrorClose e | None => TEmitClose end) s) [].

Definition callFn (id : Z) (er : option jserr) (s : state) : out := Call (tell (Called id er) s) InProgram [].

Definition emitErrorNT (er : jserr) (s : state) : out :=
  if errorEmitted s then Go s [] else emit "error" (set_errorEmitted true s) [].

Definition emitCloseNT (s : state) : out :=
  let s := set_closeEmitted true s in
  if emitClose o then emit "close" s [] else Go s [].

Definition errorOrDestroy (er : jserr) (s : state) : out :=
  if destroyed s then Go s []
  else if autoDestroy o then Go s [Destroy (Some er) None]
  else Go (checkError (Some er) s) [EmitError er].

(** ** What is announced *)

Definition emitReadable (s : state) : state :=
  let s := set_needReadable false s in
  if emittedReadable s then s else s |> set_emittedReadable true |> nextTick TEmitReadable.

Definition emitReadable_ (s : state) : out :=
  if negb (destroyed s) && negb (is_errored s) && (negb (length_ s =? 0) || ended s)
  then emit "readable" s [EmittedReadable] else Go s [AfterReadable].

Definition emittedReadable_ (s : state) : out := Go (set_emittedReadable false s) [AfterReadable].

Definition afterReadable (s : state) : out :=
  Go (set_needReadable (negb (is_flowing s) && negb (ended s) && (length_ s <=? highWaterMark s)) s) [Flow].

Definition maybeReadMore (s : state) : state :=
  if readingMore s then s else s |> set_readingMore true |> nextTick TMaybeReadMore.

Definition endReadable (s : state) : state :=
  if endEmitted s then s else s |> set_ended true |> nextTick TEndReadable.

Definition endReadableNT (s : state) : out :=
  if negb (is_errored s) && negb (closeEmitted s) && negb (endEmitted s) && (length_ s =? 0)
  then emit "end" (set_endEmitted true s) [EndDestroy] else Go s [].

Definition endDestroy (s : state) : out := if autoDestroy o then Go s [Destroy None None] else Go s [].

(** ** Reading *)

Definition MAX_HWM : Z := 1073741824.

Definition computeNewHighWaterMark (n : Z) : result Z :=
  if MAX_HWM <? n then Throw (ERR_OUT_OF_RANGE "size")
  else
    let n := n - 1 in
    let n := bitor n (ushr n 1) in
    let n := bitor n (ushr n 2) in
    let n := bitor n (ushr n 4) in
    let n := bitor n (ushr n 8) in
    let n := bitor n (ushr n 16) in
    Ok (n + 1).

Definition howMuchToRead (n : option Z) (s : state) : result Z :=
  match n with
  | Some n =>
      if (n <=? 0) || (length_ s =? 0) && ended s then Ok 0
      else if n <=? length_ s then Ok n
      else Ok (if ended s then length_ s else 0)
  | None =>
      if (length_ s =? 0) && ended s then Ok 0
      else if is_flowing s && negb (length_ s =? 0) then let! d := first_chunk (buffer s) in Ok (len d)
      else Ok (length_ s)
  end.

(** The list of buffers that is left, and the bytes or [null]. *)
Definition fromList (n : Z) (s : state) : result (B * option (list Z)) :=
  if length_ s =? 0 then Ok (buffer s, None)
  else if (n =? 0) || (length_ s <=? n) then
    let! ret := if chunk_count (buffer s) =? 1 then first_chunk (buffer s) else concat_chunks (buffer s) (length_ s) in
    Ok (clear_chunks (buffer s), Some ret)
  else consume_chunks (buffer s) n.

(** [return ret] in [read], and what the caller does. *)
Definition readReturn (nOrig : option Z) (ret : option (list Z)) (w : whence) (s : state) : out :=
  match w with
  | ToProgram => Go (tell (ReadReturned nOrig ret) s) []
  | ToFlow => match ret with Some _ => Go s [Flow] | None => Go s [] end
  | ToMore l => if l =? length_ s then Go (set_readingMore false s) [] else Go s [MoreLoop]
  | ToNobody => Go s []
  end.

(** [read] with no bytes to give, and with some. *)
Definition readNothing (nOrig : option Z) (w : whence) (s : state) : out :=
  let s := set_needReadable (length_ s <=? highWaterMark s) s in
  let s := set_needReadable ((length_ s =? 0) && negb (ended s) || needReadable s) s in
  let s := if (length_ s =? 0) && negb (bool_decide (nOrig = Some 0)) && ended s then endReadable s else s in
  readReturn nOrig None w s.

Definition take_bytes (nOrig : option Z) (n : Z) (b : B) (ret : list Z) (s : state) : state :=
  let s := s |> set_buffer b |> set_length_ (length_ s - n) |> record [Taken ret] in
  let s := set_needReadable ((length_ s =? 0) && negb (ended s) || needReadable s) s in
  if (length_ s =? 0) && negb (bool_decide (nOrig = Some n)) && ended s then endReadable s else s.

Definition readBytes (nOrig : option Z) (n : Z) (b : B) (ret : list Z) (w : whence) (s : state) : out :=
  let s := take_bytes nOrig n b ret s in
  if negb (errorEmitted s) && negb (closeEmitted s)
  then Call (s |> set_dataEmitted true |> tell (Data ret)) InProgram [ReadDone nOrig ret w]
  else readReturn nOrig (Some ret) w s.

(** [read] from [let ret] on. *)
Definition readTake (nOrig : option Z) (n : Z) (w : whence) (s : state) : out :=
  match (if 0 <? n then fromList n s else Ok (buffer s, None)) with
  | Throw er => Raise s er
  | Ok (_, None) => readNothing nOrig w s
  | Ok (b, Some ret) => readBytes nOrig n b ret w s
  end.

(** [read] from [let doRead] on. *)
Definition readAsk (nOrig : option Z) (n : Z) (w : whence) (s : state) : out :=
  let doRead := needReadable s || (length_ s =? 0) || (length_ s - n <? highWaterMark s) in
  if ended s || reading s || destroyed s || is_errored s || negb doRead then readTake nOrig n w s
  else
    Call (s |> set_reading true |> set_sync true |> set_needReadable ((length_ s =? 0) || needReadable s))
         InRead [ReadAfter nOrig n w].

Definition readAfter (nOrig : option Z) (n : Z) (w : whence) (s : state) : out :=
  let s := set_sync false s in
  match (if reading s then Ok n else howMuchToRead nOrig s) with
  | Throw er => Raise s er
  | Ok n => readTake nOrig n w s
  end.

(** [read(0)] that only announces what there is. *)
Definition announces (n : option Z) (s : state) : bool :=
  bool_decide (n = Some 0) && needReadable s
  && ((if negb (highWaterMark s =? 0) then highWaterMark s <=? length_ s else 0 <? length_ s) || ended s).

Definition newHighWaterMark (n : option Z) (s : state) : result Z :=
  match n with
  | Some n => if highWaterMark s <? n then computeNewHighWaterMark n else Ok (highWaterMark s)
  | None => Ok (highWaterMark s)
  end.

Definition read (n : option Z) (w : whence) (s : state) : out :=
  match newHighWaterMark n s with
  | Throw er => Raise s er
  | Ok hwm =>
      let s := s |> set_highWaterMark hwm |> set_emittedReadable (emittedReadable s && bool_decide (n = Some 0)) in
      if announces n s then
        readReturn n None w (if (length_ s =? 0) && ended s then endReadable s else emitReadable s)
      else
        match howMuchToRead n s with
        | Throw er => Raise s er
        | Ok m =>
            if (m =? 0) && ended s then readReturn n None w (if length_ s =? 0 then endReadable s else s)
            else readAsk n m w s
        end
  end.

Definition flow (s : state) : out := if is_flowing s then read None ToFlow s else Go s [].

Definition maybeReadMore_ (s : state) : out :=
  if negb (reading s) && negb (ended s) && ((length_ s <? highWaterMark s) || is_flowing s && (length_ s =? 0))
  then read (Some 0) (ToMore (length_ s)) s
  else Go (set_readingMore false s) [].

(** ** Flowing and pausing *)

Definition schedule_resume (s : state) : state :=
  if resumeScheduled s then s else s |> set_resumeScheduled true |> nextTick TResume.

(** [Readable.prototype.resume]. *)
Definition resume (s : state) : state :=
  set_kPaused (Some false)
    (if is_flowing s then s else schedule_resume (set_flowing (Some (negb (readableListening s))) s)).

Definition resume_ (s : state) : out :=
  and_then (if reading s then Go s [] else read (Some 0) ToNobody s) [ResumeEmit].

Definition resumeEmit (s : state) : out := emit "resume" (set_resumeScheduled false s) [Flow; ResumeEnd].

Definition resumeEnd (s : state) : out :=
  if is_flowing s && negb (reading s) then read (Some 0) ToNobody s else Go s [].

Definition pause (s : state) : out :=
  if bool_decide (flowing s = Some false) then Go s [Paused] else emit "pause" (set_flowing (Some false) s) [Paused].

(** ** Listeners *)

Definition on_data (s : state) : out :=
  let s := s |> set_dataListeners (S (dataListeners s)) |> set_readableListening (0 <? readableListeners s)%nat in
  Go (if bool_decide (flowing s = Some false) then s else resume s) [].

Definition on_readable (s : state) : out :=
  let s := set_readableListeners (S (readableListeners s)) s in
  if endEmitted s || readableListening s then Go s []
  else
    let s := s |> set_readableListening true |> set_needReadable true |> set_flowing (Some false) |> set_emittedReadable false in
    Go (if negb (length_ s =? 0) then emitReadable s else if reading s then s else nextTick TReadZero s) [].

(** [found] says that the listener was there. *)
Definition remove_data (found : bool) (s : state) : out :=
  Go (set_dataListeners (if found then pred (dataListeners s) else dataListeners s) s) [].

Definition remove_readable (found : bool) (s : state) : out :=
  Go (s |> set_readableListeners (if found then pred (readableListeners s) else readableListeners s) |> nextTick TUpdateListening) [].

(** Of 'data', of 'readable', or of all events. *)
Definition removeAllListeners_data (s : state) : out := Go (set_dataListeners O s) [].
Definition removeAllListeners_readable (s : state) : out := Go (s |> set_readableListeners O |> nextTick TUpdateListening) [].
Definition removeAllListeners (s : state) : out :=
  Go (s |> set_dataListeners O |> set_readableListeners O |> nextTick TUpdateListening) [].

Definition updateReadableListening (s : state) : out :=
  let s := set_readableListening (0 <? readableListeners s)%nat s in
  Go (if resumeScheduled s && bool_decide (kPaused s = Some false) then set_flowing (Some true) s
      else if (0 <? dataListeners s)%nat then resume s
      else if readableListening s then s
      else set_flowing None s) [].

(** ** Pushing *)

Definition onEofChunk (s : state) : out :=
  if ended s then Go s []
  else
    let s := set_ended true s in
    if sync s then Go (emitReadable s) []
    else Go (s |> set_needReadable false |> set_emittedReadable true) [EmitReadable_].

(** The chunk is emitted at once, or buffered. *)
Definition emits_at_once (s : state) : bool :=
  is_flowing s && (length_ s =? 0) && negb (sync s) && (0 <? dataListeners s)%nat.

Definition put (addToFront : bool) (chunk : list Z) : move := if addToFront then PutBack chunk else Pushed chunk.

Definition buffer_chunk (b : B) (addToFront : bool) (chunk : list Z) (s : state) : state :=
  let s := s |> set_length_ (length_ s + len chunk) |> set_buffer b |> record [put addToFront chunk] in
  let s := set_odd (odd s || ended s) s in
  if needReadable s then emitReadable s else s.

Definition addChunk (addToFront : bool) (chunk : list Z) (s : state) : out :=
  if emits_at_once s then
    Call (s |> set_dataEmitted true |> record [put addToFront chunk; Taken chunk] |> tell (Data chunk)) InProgram [AddedChunk]
  else
    match (if addToFront then Ok (unshift_chunk (buffer s) chunk) else push_chunk (buffer s) chunk) with
    | Throw er => Raise s er
    | Ok b => Go (buffer_chunk b addToFront chunk s) [AddedChunk]
    end.

(** The chunk as it is used: an error, [null], or bytes; [undefined] and an empty
    chunk are treated alike. *)
Inductive given_chunk := Bad (er : jserr) | Eof | Bytes (b : list Z).

Definition chunk_arg (chunk : value) (encoding : jsval) : result given_chunk :=
  match chunk with
  | VString t => let! b := fromString t (if falsy encoding then JString (defaultEncoding o) else encoding) in Ok (Bytes b)
  | VBuffer b | VUint8Array b => Ok (Bytes b)
  | VNull | VOther JNull => Ok Eof
  | VOther JUndefined => Ok (Bytes [])
  | VOther v => Ok (Bad (ERR_INVALID_ARG_TYPE "chunk" ["string"; "Buffer"; "Uint8Array"]%string v))
  end.

Definition add_bytes (addToFront : bool) (b : list Z) (s : state) : out :=
  match b with
  | [] =>
      if addToFront then Go s []
      else Go (s |> set_reading false |> set_odd (odd s || sync s) |> maybeReadMore) []
  | _ =>
      if addToFront then
        if endEmitted s then Go s [ErrorOrDestroy ERR_STREAM_UNSHIFT_AFTER_END_EVENT] else addChunk true b s
      else if ended s then Go s [ErrorOrDestroy ERR_STREAM_PUSH_AFTER_EOF]
      else addChunk false b (set_reading false s)
  end.

(** The chunk is turned away: [return false]. *)
Definition turned_away (addToFront : bool) (b : list Z) (s : state) : bool :=
  negb (len b =? 0) && negb (if addToFront then endEmitted s else ended s) && (destroyed s || is_errored s).

Definition readableAddChunk (chunk : value) (encoding : jsval) (addToFront : bool) (s : state) : out :=
  match chunk_arg chunk encoding with
  | Throw er => Raise s er
  | Ok (Bad er) => Go s [ErrorOrDestroy er; PushReturns]
  | Ok Eof => and_then (onEofChunk (set_reading false s)) [PushReturns]
  | Ok (Bytes b) =>
      if turned_away addToFront b s then Go (tell (PushReturned false) s) []
      else and_then (add_bytes addToFront b s) [PushReturns]
  end.

Definition pushReturns (s : state) : out :=
  Go (tell (PushReturned (negb (ended s) && ((length_ s <? highWaterMark s) || (length_ s =? 0)))) s) [].

(** ** The machine *)

Definition run_instr (i : instr) (s : state) : out :=
  match i with
  | ReadAfter nOrig n w => readAfter nOrig n w s
  | ReadDone nOrig ret w => readReturn nOrig (Some ret) w s
  | Flow => flow s
  | EmitReadable_ => emitReadable_ s
  | EmittedReadable => emittedReadable_ s
  | AfterReadable => afterReadable s
  | MoreLoop => maybeReadMore_ s
  | ResumeEmit => resumeEmit s
  | ResumeEnd => resumeEnd s
  | AddedChunk => Go (maybeReadMore s) []
  | PushReturns => pushReturns s
  | Paused => Go (set_kPaused (Some true) s) []
  | EndDestroy => endDestroy s
  | CallFn id er => callFn id er s
  | Destroy er c => destroy er c s
  | Destroyed er => destroyed_ er s
  | ErrorOrDestroy er => errorOrDestroy er s
  | EmitError er => emitErrorNT er s
  | EmitClose => emitCloseNT s
  end.

Definition run_tick (t : tick) (s : state) : out :=
  match t with
  | TEmitReadable => emitReadable_ s
  | TMaybeReadMore => maybeReadMore_ s
  | TResume => resume_ s
  | TEndReadable => endReadableNT s
  | TReadZero => read (Some 0) ToNobody s
  | TUpdateListening => updateReadableListening s
  | TEmitErrorClose er => Go s [EmitError er; EmitClose]
  | TEmitClose => emitCloseNT s
  end.

(** What code of the program can do: call a method of the stream or the function
    that was given to [_destroy], return, and at the bottom of the stack let
    the next tick run. *)
Inductive action :=
| ARead (n : option Z)
| APush (chunk : value) (encoding : jsval)
| AUnshift (chunk : value) (encoding : jsval)
| AOnData
| AOnReadable
| ARemoveData (found : bool)
| ARemoveReadable (found : bool)
| ARemoveAllData
| ARemoveAllReadable
| ARemoveAll
| AResume
| APause
| ADestroy (er : option jserr) (c : option Z)
| AOnDestroy (er : option jserr)
| AReturn
| ATick.

(** Either the stream runs, with instructions left, or the program does. *)
Inductive mode := Stream (k : list instr) | Program.

Definition settle (o : out) (k : list instr) : state * mode :=
  match o with
  | Go s l => (s, Stream (l ++ k))
  | Call s c l => (set_konts ((c, l ++ k) :: konts s) s, Program)
  | Raise s er => (tell (Threw er) s, Program)
  end.

(** A step of the stream; without instructions left it returns to the program. *)
Definition advance (s : state) (k : list instr) : state * mode :=
  match k with [] => (s, Program) | i :: k => settle (run_instr i s) k end.

Definition perform (a : action) (s : state) : option (state * mode) :=
  match a with
  | ARead n => Some (settle (read n ToProgram s) [])
  | APush chunk encoding => Some (settle (readableAddChunk chunk encoding false s) [])
  | AUnshift chunk encoding => Some (settle (readableAddChunk chunk encoding true s) [])
  | AOnData => Some (settle (on_data s) [])
  | AOnReadable => Some (settle (on_readable s) [])
  | ARemoveData found => Some (settle (remove_data found s) [])
  | ARemoveReadable found => Some (settle (remove_readable found s) [])
  | ARemoveAllData => Some (settle (removeAllListeners_data s) [])
  | ARemoveAllReadable => Some (settle (removeAllListeners_readable s) [])
  | ARemoveAll => Some (settle (removeAllListeners s) [])
  | AResume => Some (settle (Go (resume s) []) [])
  | APause => Some (settle (pause s) [])
  | ADestroy er c => Some (settle (destroy er c s) [])
  | AOnDestroy er => if destroyed s then Some (settle (onDestroy er s) []) else None
  | AReturn => match konts s with (_, k) :: l => Some (set_konts l s, Stream k) | [] => None end
  | ATick =>
      match konts s, ticks s with
      | [], t :: l => Some (settle (run_tick t (set_ticks l s)) [])
      | _, _ => None
      end
  end.

End Streams.

(** ** The constructor *)

(** What the program gives; a property that is not there is [undefined]. *)
Record given := Given {
  g_highWaterMark : jsval;
  g_emitClose : jsval;
  g_autoDestroy : jsval;
  g_defaultEncoding : option jsstr
}.

Definition Readable {B} `{!ChunkList B} (g : option given) : result (options * ReadableState.state (B := B)) :=
  match g with
  | None => Ok (Options true true (js "utf8"), ReadableState (getDefaultHighWaterMark false))
  | Some g =>
      let! hwm := getHighWaterMark false (g_highWaterMark g) in
      Ok (Options (negb (is_false (g_emitClose g))) (negb (is_false (g_autoDestroy g)))
                  (match g_defaultEncoding g with Some ((_ :: _) as e) => e | _ => js "utf8" end),
          ReadableState hwm)
  end.
