(* ===== verification/ReadableInv.v ===== *)
(** * The invariant of readable streams

    Runs of the machine of [Readable] in which the source does not read from the
    stream within [_read]; what holds in every state of such a run. *)

From stdpp Require Import sets.
From S2P Require Import Prelude Bytes Codecs WebText BufferText StreamBase ReadableState Readable.

Section Inv.
Context `{Web : !WebText} {B : Type} `{CL : !ChunkList B} `{!ChunkListOk B}.
Context (o : options).
#[local] Abbreviation state := (ReadableState.state (B := B)).
#[local] Abbreviation out := (Readable.out (B := B)).

(** ** Runs *)

Definition is_in_read (f : context * list instr) : bool := match f.1 with InRead => true | InProgram => false end.
Definition in_read (s : state) : bool := existsb is_in_read (konts s).

(** How many bytes a chunk has. *)
Definition chunk_bytes (chunk : value) (encoding : jsval) : Z :=
  match chunk_arg o chunk encoding with Ok (Bytes b) => len b | _ => 0 end.

(** What the program may do in a state: anything but [read] while a call of
    [_read] is on the stack, and a push or an unshift that takes the buffer to
    2^32 bytes.  A source that reads and puts back within [_read] makes
    [length] negative: [negative_length] in [ReadableRuns]. *)
Definition no_nested_read (a : action) (s : state) : bool :=
  match a with
  | ARead _ => negb (in_read s)
  | APush chunk encoding | AUnshift chunk encoding => length_ s + chunk_bytes chunk encoding <? 2 ^ 32
  | _ => true
  end.

(** The states of the runs in which [no_nested_read] holds of every action. *)
Inductive reachable (hwm : Z) : state -> mode -> Prop :=
| reachable_new : reachable hwm (ReadableState hwm) Program
| reachable_stream s k s' m : reachable hwm s (Stream k) -> advance o s k = (s', m) -> reachable hwm s' m
| reachable_program s a s' m :
    reachable hwm s Program -> no_nested_read a s = true -> perform o a s = Some (s', m) -> reachable hwm s' m.

(** ** The bytes *)

(** What the buffer holds after what happened to it. *)
Definition replay_move (c : option (list Z)) (m : move) : option (list Z) :=
  match c, m with
  | Some c, Pushed b => Some (c ++ b)
  | Some c, PutBack b => Some (b ++ c)
  | Some c, Taken b => if bool_decide (take (length b) c = b) then Some (drop (length b) c) else None
  | None, _ => None
  end.

Definition replay (l : list move) : option (list Z) := foldl replay_move (Some []) l.

Definition taken (l : list move) : list (list Z) := omap (fun m => match m with Taken b => Some b | _ => None end) l.
Definition data_of (l : list event) : list (list Z) := omap (fun e => match e with Data b => Some b | _ => None end) l.

Record content (s : state) (l : list (list Z)) : Prop := {
  c_holds : holds (buffer s) l;
  c_nonempty : Forall (fun d => d <> []) l;
  c_length : length_ s = len (bytes_of l);
  c_replay : replay (history s) = Some (bytes_of l);
  c_bound : length_ s < 2 ^ 32
}.

(** ** What the program saw *)

(** Events after which there are no bytes and no 'end' any more. *)
Definition last_words (e : event) : Prop := e = Emit "end" \/ e = Emit "error" \/ e = Emit "close".
Definition comes_before (e : event) : Prop := match e with Data _ => True | Emit n => n = "end" | _ => False end.

Definition over (s : state) : Prop := endEmitted s = true \/ errorEmitted s = true \/ closeEmitted s = true.

(** Errors that the program is to blame for: a number too large for [read], a
    string that is not in its encoding. *)
Definition excusable (er : jserr) : Prop :=
  (exists n, computeNewHighWaterMark n = Throw er) \/ (exists t e, fromString t e = Throw er).

(** [read(n)] gives [n] bytes, at the end what is left. *)
Definition enough (s : state) (n : option Z) (ret : list Z) : Prop :=
  ret <> [] /\ forall m, n = Some m -> len ret = m \/ len ret < m /\ ended s = true.

Record visible (s : state) : Prop := {
  v_data : errorEmitted s = false -> closeEmitted s = false -> data_of (log s) = taken (history s);
  v_over : Exists last_words (log s) -> over s;
  v_last : forall l1 e l2, log s = l1 ++ e :: l2 -> last_words e -> Forall (fun e => ~ comes_before e) l2;
  v_threw : forall er, Threw er ∈ log s -> excusable er;
  v_read : forall n ret, ReadReturned n (Some ret) ∈ log s -> enough s n ret
}.

(** ** What is to come *)

Definition clean (s : state) : Prop := destroyed s = false /\ errored s = None.

(** The arguments that [read] gets. *)
Definition asker (n : option Z) (w : whence) : Prop :=
  match w with ToProgram => True | ToFlow => n = None | ToMore _ | ToNobody => n = Some 0 end.

(** While [_read] runs in the loop of [flow]: what arrives is announced. *)
Definition announced (s : state) : Prop :=
  TEmitReadable ∈ ticks s \/ length_ s = 0 /\ needReadable s = true /\ emittedReadable s = false.

(** What [_read] did: nothing yet, or something that shows. *)
Definition answered (s : state) : Prop :=
  reading s = true \/ ended s = true \/ odd s = true \/ ~ clean s \/ 0 < length_ s.

Definition fine (s : state) (i : instr) : Prop :=
  match i with
  | ReadAfter nOrig n w =>
      0 <= n <= length_ s /\ asker nOrig w /\ (forall m, nOrig = Some m -> n = 0 \/ n = m)
      /\ answered s /\ (w = ToFlow -> n = 0 -> announced s)
  | ReadDone nOrig ret w => enough s nOrig ret /\ asker nOrig w /\ nOrig <> Some 0
  | EmitError _ => errored s <> None
  | EmitClose => destroyed s = true
  | Destroyed er => destroyed s = true /\ (er <> None -> errored s <> None)
  | _ => True
  end.

Definition fine_tick (s : state) (t : tick) : Prop :=
  match t with
  | TEmitErrorClose _ => destroyed s = true /\ errored s <> None
  | TEmitClose => destroyed s = true
  | TEndReadable => ended s = true
  | _ => True
  end.

(** Instructions that end in the loop of [flow]. *)
Definition drives (i : instr) : Prop :=
  match i with
  | Flow | EmitReadable_ | EmittedReadable | AfterReadable | ResumeEmit | ReadAfter _ _ ToFlow | ReadDone _ _ ToFlow => True
  | _ => False
  end.

Definition driven (s : state) (p : list instr) : Prop :=
  TResume ∈ ticks s \/ TEmitReadable ∈ ticks s \/ Exists drives p.

(** The source has been asked for more, or will be. *)
Definition asked (s : state) (p : list instr) : Prop :=
  reading s = true \/ TMaybeReadMore ∈ ticks s \/ AddedChunk ∈ p \/ MoreLoop ∈ p.

(** Nothing is left to be delivered. *)
Record settled (s : state) (p : list instr) : Prop := {
  s_length : length_ s = 0;
  s_ready : ended s = false -> needReadable s = true /\ emittedReadable s = false /\ asked s p;
  s_end : ended s = true -> TEndReadable ∈ ticks s \/ endEmitted s = true
}.

(** A stream that flows gets on. *)
Definition flows (s : state) (p : list instr) : Prop :=
  flowing s = Some true -> clean s -> odd s = false -> driven s p \/ settled s p.

Definition reads_more (i : instr) : Prop := match i with MoreLoop | ReadAfter _ _ (ToMore _) => True | _ => False end.

(** The invariant but for [flows], with the instructions [p] pending. *)
Record base (s : state) (p : list instr) : Prop := {
  b_content : exists l, content s l;
  b_visible : visible s;
  b_fine : Forall (fine s) p;
  b_ticks : Forall (fine_tick s) (ticks s);
  b_end : endEmitted s = true -> ended s = true /\ length_ s = 0;
  b_close : closeEmitted s = true -> destroyed s = true;
  b_error : errorEmitted s = true -> errored s <> None;
  b_resume : resumeScheduled s = true -> TResume ∈ ticks s \/ ResumeEmit ∈ p;
  b_more : readingMore s = true -> TMaybeReadMore ∈ ticks s \/ Exists reads_more p
}.

(** ** The stack *)

Definition unread (i : instr) : Prop := match i with ReadAfter _ _ _ => False | _ => True end.

(** Instructions that neither read nor lead to reading. *)
Definition quiet (i : instr) : Prop :=
  match i with
  | AddedChunk | PushReturns | Paused | EndDestroy | CallFn _ _ | Destroy _ _ | Destroyed _ | ErrorOrDestroy _
  | EmitError _ | EmitClose => True
  | _ => False
  end.

Definition plain (f : context * list instr) : Prop := f.1 = InProgram /\ Forall unread f.2.
Definition calm (f : context * list instr) : Prop := f.1 = InProgram /\ Forall quiet f.2.

(** Either no [_read] runs, or one does, and above it nothing reads. *)
Inductive stacked (s : state) (k : list instr) : Prop :=
| stacked_plain : Forall plain (konts s) -> Forall unread (tail k) -> stacked s k
| stacked_read qs nOrig n w l rest :
    konts s = qs ++ (InRead, ReadAfter nOrig n w :: l) :: rest -> sync s = true ->
    Forall calm qs -> Forall quiet k -> Forall unread l -> Forall plain rest -> stacked s k.

Definition pending (s : state) (k : list instr) : list instr := k ++ mjoin (snd <$> konts s).

Record inv (s : state) (k : list instr) : Prop := {
  i_base : base s (pending s k);
  i_flows : flows s (pending s k);
  i_stacked : stacked s k
}.
(** ** Small steps *)

Lemma visible_step s s' es ms :
  visible s -> log s' = log s ++ es -> (length es <= 1)%nat -> history s' = history s ++ ms ->
  (errorEmitted s' = false -> errorEmitted s = false) -> (closeEmitted s' = false -> closeEmitted s = false) ->
  (over s -> over s') -> (ended s = true -> ended s' = true) ->
  (errorEmitted s' = false -> closeEmitted s' = false -> data_of es = taken ms) ->
  Forall (fun e => (last_words e -> over s') /\ (comes_before e -> ~ over s)
    /\ match e with Threw er => excusable er | ReadReturned n (Some ret) => enough s' n ret | _ => True end) es ->
  visible s'.
Proof.
  intros [V1 V2 V3 V4 V5] El Hes Eh Fe Fc Ho Hend Hd He.
  assert (Hen : forall n ret, enough s n ret -> enough s' n ret).
  { intros n ret [Hne H]. split; [done|]. intros m Hm. destruct (H m Hm) as [|[? ?]]; auto. }
  split.
  - intros E C. rewrite El, Eh. unfold data_of, taken. rewrite !omap_app. f_equal; [by apply V1; auto|by apply Hd].
  - rewrite El, Exists_app. intros [H|H]; [auto|]. apply Exists_exists in H as (e & Hin & Hl).
    rewrite Forall_forall in He. by apply (He e Hin).
  - rewrite El. intros l1 e l2 E Hl. destruct es as [|e' [|]]; [| |cbn in Hes; lia].
    { rewrite app_nil_r in E. by eapply V3. }
    destruct l2 as [|x l2] using rev_ind; [by constructor|]. rewrite app_comm_cons, app_assoc in E.
    apply app_inj_tail in E as [E ->]. apply Forall_app. split; [by eapply V3|]. apply Forall_singleton. intros Hc.
    apply Forall_singleton in He as (_ & H & _). apply (H Hc). apply V2. rewrite E. apply Exists_app. right. by left.
  - intros er. rewrite El, elem_of_app. intros [H|H]; [auto|]. rewrite Forall_forall in He. by apply (He _ H).
  - intros n ret. rewrite El, elem_of_app. intros [H|H]; [auto|]. rewrite Forall_forall in He. by apply (He _ H).
Qed.

(** The flags that matter only grow. *)
Record grows (s s' : state) : Prop := {
  g_ended : ended s = true -> ended s' = true;
  g_destroyed : destroyed s = true -> destroyed s' = true;
  g_errored : errored s <> None -> errored s' <> None
}.

(** What may happen while [_read] runs. *)
Record during_read (s s' : state) : Prop := {
  dr_length : length_ s <= length_ s';
  dr_answered : answered s -> answered s';
  dr_announced : announced s -> announced s'
}.

Lemma fine_grows s s' i : grows s s' -> unread i \/ during_read s s' -> fine s i -> fine s' i.
Proof.
  intros [G1 G2 G3] H. destruct i; cbn; try done; try tauto.
  - destruct H as [[]|[D1 D2 D3]]. intros (? & ? & ? & ? & ?). split_and!; auto; lia.
  - intros ((Hne & He) & ? & ?). split_and!; auto. split; [done|]. intros m Hm. destruct (He m Hm) as [|[? ?]]; auto.
Qed.

Lemma fine_tick_grows s s' t : grows s s' -> fine_tick s t -> fine_tick s' t.
Proof. intros [G1 G2 G3]. destruct t; cbn; tauto. Qed.

Lemma driven_mono s s' p p' :
  (TResume ∈ ticks s -> driven s' p') -> (TEmitReadable ∈ ticks s -> driven s' p') -> (Exists drives p -> driven s' p') ->
  driven s p -> driven s' p'.
Proof. intros H1 H2 H3 [H|[H|H]]; auto. Qed.

(** More instructions can be pending; some that are do not matter. *)
Definition idle (i : instr) : Prop :=
  match i with
  | ResumeEnd | PushReturns | Paused | EndDestroy | CallFn _ _ | Destroy _ _ | Destroyed _ | ErrorOrDestroy _ | EmitError _
  | EmitClose | ReadDone _ _ ToProgram | ReadDone _ _ ToNobody => True
  | _ => False
  end.

Lemma base_add s p l : base s p -> Forall (fine s) l -> base s (l ++ p).
Proof.
  intros [? ? ? ? ? ? ? Hr Hm] Hl. split; try done.
  - by apply Forall_app.
  - intros H. destruct (Hr H); [auto|]. right. apply elem_of_app. auto.
  - intros H. destruct (Hm H); [auto|]. right. apply Exists_app. auto.
Qed.

Lemma flows_add s p l : flows s p -> flows s (l ++ p).
Proof.
  intros F Hf Hc Ho. destruct (F Hf Hc Ho) as [D|[S1 S2 S3]].
  - left. destruct D as [|[|]]; [by left|by right; left|]. right. right. apply Exists_app. auto.
  - right. split; [done| |done]. intros E. destruct (S2 E) as (? & ? & A). split_and!; try done.
    unfold asked in *. rewrite !elem_of_app. tauto.
Qed.

Lemma base_idle s p i : base s (i :: p) -> idle i -> base s p.
Proof.
  intros [? ? Hf ? ? ? ? Hr Hm] Hi. apply Forall_cons in Hf as [_ Hf]. split; try done.
  - intros H. destruct (Hr H) as [|H']; [auto|]. apply elem_of_cons in H' as [<-|]; [done|auto].
  - intros H. destruct (Hm H) as [|H']; [auto|]. apply Exists_cons in H' as [H'|]; [|auto]. by destruct i; try done; destruct w.
Qed.

Lemma flows_idle s p i : flows s (i :: p) -> idle i -> flows s p.
Proof.
  intros F Hi Hf Hc Ho. destruct (F Hf Hc Ho) as [D|[S1 S2 S3]].
  - left. destruct D as [|[|D]]; [by left|by right; left|]. apply Exists_cons in D as [D|D]; [by destruct i; try done; destruct w|].
    right. by right.
  - right. split; [done| |done]. intros E. destruct (S2 E) as (? & ? & A). split_and!; try done.
    destruct A as [|[|[A|A]]]; [by left|by right; left| |]; apply elem_of_cons in A as [<-|A]; try done; unfold asked; auto.
Qed.
(** The bytes and what the program saw stay the same. *)
Record same (s s' : state) : Prop := {
  e_buffer : buffer s' = buffer s;
  e_length : length_ s' = length_ s;
  e_history : history s' = history s;
  e_log : log s' = log s;
  e_endEmitted : endEmitted s' = endEmitted s;
  e_errorEmitted : errorEmitted s' = errorEmitted s;
  e_closeEmitted : closeEmitted s' = closeEmitted s
}.

Lemma content_same s s' l : content s l -> same s s' -> content s' l.
Proof. intros [? ? ? ? ?] [E1 E2 E3 E4 E5 E6 E7]. split; congruence. Qed.

Lemma visible_same s s' : visible s -> same s s' -> grows s s' -> visible s'.
Proof.
  intros V [E1 E2 E3 E4 E5 E6 E7] [G _ _]. apply (visible_step s s' [] []); rewrite ?app_nil_r; try done; try congruence.
  - cbn. lia.
  - unfold over. by rewrite E5, E6, E7.
Qed.

Lemma base_same s s' p p' :
  base s p -> same s s' -> grows s s' -> Forall unread p' \/ during_read s s' ->
  (forall i, i ∈ p' -> i ∈ p \/ fine s' i) -> (forall t, t ∈ ticks s' -> t ∈ ticks s \/ fine_tick s' t) ->
  (resumeScheduled s' = true -> TResume ∈ ticks s' \/ ResumeEmit ∈ p') ->
  (readingMore s' = true -> TMaybeReadMore ∈ ticks s' \/ Exists reads_more p') -> base s' p'.
Proof.
  intros [[l C] V F T B1 B2 B3 B4 B5] E G U Hp Ht Hr Hm. rewrite Forall_forall in F. rewrite Forall_forall in T. split; try done.
  - exists l. by eapply content_same.
  - by eapply visible_same.
  - apply Forall_forall. intros i Hi. destruct (Hp i Hi) as [Hi'|]; [|done]. apply (fine_grows s s'); [done| |by apply F].
    destruct U as [U|]; [left|by right]. rewrite Forall_forall in U. by apply U.
  - apply Forall_forall. intros t Hi. destruct (Ht t Hi) as [Hi'|]; [|done]. apply (fine_tick_grows s s'); [done|by apply T].
  - rewrite (e_endEmitted _ _ E), (e_length _ _ E). intros H. destruct (B1 H). split; [by apply (g_ended _ _ G)|done].
  - rewrite (e_closeEmitted _ _ E). intros H. by apply (g_destroyed _ _ G), B2.
  - rewrite (e_errorEmitted _ _ E). intros H. by apply (g_errored _ _ G), B3.
Qed.

(** A change that does not matter to the invariant, and one that does not matter
    to [flows]. *)
Lemma base_alike s s' p :
  buffer s' = buffer s -> length_ s' = length_ s -> history s' = history s -> log s' = log s -> ended s' = ended s ->
  endEmitted s' = endEmitted s -> errorEmitted s' = errorEmitted s -> closeEmitted s' = closeEmitted s ->
  destroyed s' = destroyed s -> errored s' = errored s -> reading s' = reading s -> odd s' = odd s -> ticks s' = ticks s ->
  needReadable s' = needReadable s -> emittedReadable s' = emittedReadable s -> resumeScheduled s' = resumeScheduled s ->
  (readingMore s' = true -> readingMore s = true) -> base s p -> base s' p.
Proof.
  intros E1 E2 E3 E4 E5 E6 E7 E8 E9 E10 E11 E12 E13 E14 E15 E16 E17 I. apply (base_same s s' p p); [done|by split| | |auto| | |].
  - split; congruence.
  - right. split; [lia| |]; unfold answered, announced, clean; by rewrite ?E2, ?E5, ?E9, ?E10, ?E11, ?E12, ?E13, ?E14, ?E15.
  - rewrite E13. auto.
  - rewrite E13, E16. apply I.
  - rewrite E13. intros H%E17. by apply I.
Qed.

Lemma flows_alike s s' p :
  flowing s' = flowing s -> destroyed s' = destroyed s -> errored s' = errored s -> odd s' = odd s -> length_ s' = length_ s ->
  ended s' = ended s -> needReadable s' = needReadable s -> emittedReadable s' = emittedReadable s ->
  reading s' = reading s -> endEmitted s' = endEmitted s -> ticks s' = ticks s -> flows s p -> flows s' p.
Proof.
  intros E1 E2 E3 E4 E5 E6 E7 E8 E9 E10 E11 F. unfold flows, clean, driven. rewrite E1, E2, E3, E4, E11. intros Hf Hc Ho.
  destruct (F Hf Hc Ho) as [D|[S1 S2 S3]]; [by left|]. right. split; unfold asked; rewrite ?E5, ?E6, ?E7, ?E8, ?E9, ?E10, ?E11; done.
Qed.

(** [emitReadable], [maybeReadMore] and [endReadable] keep the invariant. *)
Lemma same_emitReadable s : same s (emitReadable s).
Proof. unfold emitReadable. cbn. destruct (emittedReadable s); by split. Qed.
Lemma grows_emitReadable s : grows s (emitReadable s).
Proof. unfold emitReadable. cbn. destruct (emittedReadable s); by split. Qed.
Lemma during_emitReadable s : during_read s (emitReadable s).
Proof.
  unfold emitReadable. cbn. destruct (emittedReadable s) eqn:E; (split; [cbn; lia|done|]); unfold announced; cbn.
  - rewrite E. intros [|(_ & _ & ?)]; [auto|done].
  - intros _. left. apply elem_of_app. right. by left.
Qed.

Lemma base_emitReadable s p : base s p -> base (emitReadable s) p.
Proof.
  intros I. apply (base_same s _ p p); [done|apply same_emitReadable|apply grows_emitReadable|right; apply during_emitReadable|auto| | |];
    destruct I as [_ _ _ _ _ _ _ Hr Hm]; unfold emitReadable; cbn; destruct (emittedReadable s); cbn; auto.
  - intros t. rewrite elem_of_app. intros [|Hi]; [auto|]. apply list_elem_of_singleton in Hi as ->. by right.
  - intros H. destruct (Hr H); [left; apply elem_of_app|]; auto.
  - intros H. destruct (Hm H); [left; apply elem_of_app|]; auto.
Qed.

Lemma flows_emitReadable s p : flows s p -> flows (emitReadable s) p.
Proof.
  unfold emitReadable. cbn. intros F. destruct (emittedReadable s) eqn:E; intros Hf Hc Ho; cbn in *.
  - destruct (F Hf Hc Ho) as [D|[S1 S2 S3]]; [by left|]. right. split; cbn; try done. intros H. destruct (S2 H). naive_solver.
  - left. right. left. cbn. apply elem_of_app. right. by left.
Qed.

Lemma base_maybeReadMore s p : base s p -> base (maybeReadMore s) p.
Proof.
  intros I. unfold maybeReadMore. destruct (readingMore s) eqn:E; [done|]. apply (base_same s _ p p); [done|by split|by split| |auto| | |].
  - right. split; cbn; [lia|done|]. unfold announced. cbn. rewrite elem_of_app. tauto.
  - intros t. cbn. rewrite elem_of_app. intros [|Hi]; [auto|]. apply list_elem_of_singleton in Hi as ->. by right.
  - cbn. intros H. destruct (b_resume _ _ I H); [left; apply elem_of_app|]; auto.
  - cbn. intros _. left. apply elem_of_app. right. by left.
Qed.

Lemma flows_tick s p t : flows s p -> flows (nextTick t s) p.
Proof.
  intros F Hf Hc Ho. destruct (F Hf Hc Ho) as [D|[S1 S2 S3]].
  - left. unfold driven in *. cbn. rewrite !elem_of_app. tauto.
  - right. split; cbn; [done| |]; unfold asked in *; cbn; rewrite !elem_of_app; tauto.
Qed.

Lemma base_tick s p t : base s p -> fine_tick s t -> base (nextTick t s) p.
Proof.
  intros I Hft. apply (base_same s _ p p); [done|by split|by split| |auto| | |].
  - right. split; cbn; [lia|done|]. unfold announced. cbn. rewrite elem_of_app. tauto.
  - intros t'. cbn. rewrite elem_of_app. intros [|Hi]; [auto|]. apply list_elem_of_singleton in Hi as ->. by right; destruct t.
  - cbn. intros H. destruct (b_resume _ _ I H); [left; apply elem_of_app|]; auto.
  - cbn. intros H. destruct (b_more _ _ I H); [left; apply elem_of_app|]; auto.
Qed.

Lemma base_endReadable s p : base s p -> ended s = true -> base (endReadable s) p.
Proof.
  intros I E. unfold endReadable. destruct (endEmitted s); [done|]. assert (set_ended true s = s) as -> by (rewrite <- E; by destruct s).
  by apply base_tick.
Qed.

Lemma flows_endReadable s p : flows s p -> ended s = true -> flows (endReadable s) p.
Proof.
  intros F E. unfold endReadable. destruct (endEmitted s); [done|]. assert (set_ended true s = s) as -> by (rewrite <- E; by destruct s).
  by apply flows_tick.
Qed.

(** ** Reading *)

Lemma bytes_of_nonempty l : Forall (fun d : list Z => d <> []) l -> len (bytes_of l) = 0 -> l = [].
Proof.
  destruct l as [|d l]; [done|]. intros H%Forall_cons E. destruct H as [Hd _]. change (bytes_of (d :: l)) with (d ++ bytes_of l) in E.
  rewrite len_app in E. pose proof (len_nonneg d). pose proof (len_nonneg (bytes_of l)). by destruct Hd; apply len_0_nil; lia.
Qed.

Lemma content_first s l : content s l -> 0 < length_ s -> exists d, first_chunk (buffer s) = Ok d /\ 0 < len d <= length_ s.
Proof.
  intros [Hh Hn Hl _ _] Hp. destruct l as [|d l]; [by change (len (bytes_of [])) with 0 in Hl; lia|]. exists d.
  split; [by eapply first_holds|]. apply Forall_cons in Hn as [Hd _]. change (bytes_of (d :: l)) with (d ++ bytes_of l) in Hl.
  rewrite len_app in Hl. pose proof (len_nonneg d). pose proof (len_nonneg (bytes_of l)).
  assert (len d <> 0) by (intros E; by apply Hd, len_0_nil). lia.
Qed.

Lemma howMuch_spec s l n :
  content s l -> exists m, howMuchToRead n s = Ok m /\ 0 <= m <= length_ s
    /\ (forall k, n = Some k -> m = 0 \/ m = k \/ m < k /\ ended s = true)
    /\ (n = None -> 0 < length_ s -> 0 < m).
Proof.
  intros C. pose proof (c_length _ _ C) as Hl. pose proof (len_nonneg (bytes_of l)). unfold howMuchToRead. destruct n as [n|].
  - destruct (Z.leb_spec n 0); cbn [orb]; [exists 0; split_and!; [done|lia|lia|auto|done]|].
    destruct ((length_ s =? 0) && ended s); [exists 0; split_and!; [done|lia|lia|auto|done]|].
    destruct (Z.leb_spec n (length_ s)); [exists n; split_and!; [done|lia|lia|intros k [= ->]; auto|done]|].
    destruct (ended s); eexists; split_and!; try done; try lia; intros k [= <-]; auto.
  - destruct (Z.eqb_spec (length_ s) 0) as [E|E]; [rewrite E, andb_false_r|].
    + cbn [andb negb]. destruct (ended s); exists 0; split_and!; try done; lia.
    + cbn [andb negb]. destruct (is_flowing s); cbn [andb].
      * destruct (content_first _ _ C) as (d & -> & Hd); [lia|]. exists (len d). split_and!; try done; lia.
      * eexists. split_and!; try done; lia.
Qed.

Lemma replay_app l l' : replay (l ++ l') = foldl replay_move (replay l) l'.
Proof. unfold replay. by rewrite foldl_app. Qed.

Lemma slice_halves {A} (c : list A) n : 0 <= n <= len c -> c = slice c 0 n ++ slice_from c n /\ len (slice c 0 n) = n.
Proof. intros H. destruct (split_len c n H) as (u & w & -> & <-). by rewrite slice_prefix, slice_from_suffix. Qed.

(** The bytes that [fromList] gives are the first ones. *)
Lemma fromList_spec s l n :
  content s l -> 0 < n <= length_ s ->
  exists b ret l', fromList n s = Ok (b, Some ret) /\ len ret = n
    /\ content (s |> set_buffer b |> set_length_ (length_ s - n) |> record [Taken ret]) l'.
Proof.
  intros [Hh Hn Hl Hr Hb] Hp. destruct (slice_halves (bytes_of l) n) as [Hs Hsl]; [lia|]. unfold fromList.
  rewrite (proj2 (Z.eqb_neq _ 0)), (proj2 (Z.eqb_neq n 0)) by lia. cbn [orb].
  assert (Hrep : forall ret c, bytes_of l = ret ++ c -> replay (history s ++ [Taken ret]) = Some c).
  { intros ret c E. rewrite replay_app, Hr, E. cbn. rewrite take_app_length, drop_app_length. by rewrite bool_decide_true. }
  destruct (Z.leb_spec (length_ s) n) as [Hle|Hlt].
  - assert (n = len (bytes_of l)) as -> by lia. exists (clear_chunks (buffer s)), (bytes_of l), []. split; [|split; [done|]].
    + rewrite (count_holds _ _ Hh). destruct (Z.eqb_spec (len l) 1) as [E|E].
      * destruct l as [|d [|d' l]]; [done| |by rewrite !len_cons in E; pose proof (len_nonneg l); lia].
        rewrite (first_holds _ _ _ Hh). cbn. by rewrite app_nil_r.
      * rewrite Hl, (concat_holds _ _ Hh) by lia. done.
    + split; cbn; [by eapply clear_holds|done|rewrite len_nil; lia|apply Hrep; by rewrite app_nil_r|lia].
  - destruct (consume_holds (buffer s) l n Hh) as (b & l' & E & Hh' & Hn' & Hl'); [|done|lia|].
    { intros ->. by change (length_ s = 0) in Hl; lia. }
    exists b, (slice (bytes_of l) 0 n), l'. split; [done|]. split; [done|]. split; cbn; [done|done| | |lia].
    + rewrite Hl'. rewrite Hl. rewrite Hs at 1. rewrite len_app. lia.
    + apply Hrep. by rewrite Hl'.
Qed.

(** The outcome of an instruction, with [p] pending after it. *)
Definition good (x : out) (p : list instr) : Prop :=
  match x with Go s l | Call s _ l => base s (l ++ p) /\ flows s (l ++ p) | Raise _ _ => False end.

Lemma base_tell s p e :
  base s p ->
  (last_words e -> over s) -> (comes_before e -> False) ->
  match e with Threw er => excusable er | ReadReturned n (Some ret) => enough s n ret | _ => True end -> base (tell e s) p.
Proof.
  intros [[l [? ? ? ? ?]] V F T B1 B2 B3 B4 B5] Hl Hc He. split; try done.
  - by exists l.
  - apply (visible_step s _ [e] []); try done.
    + by rewrite app_nil_r.
    + by destruct e.
    + apply Forall_singleton. split_and!; [exact Hl|intros Hb; by destruct (Hc Hb)|exact He].
Qed.

Lemma flows_tell s p e : flows s p -> flows (tell e s) p.
Proof. intros F Hf Hc Ho. destruct (F Hf Hc Ho) as [D|[S1 S2 S3]]; [by left|by right; split]. Qed.

(** The loop of [maybeReadMore_] owes the rest of itself. *)
Definition owing (w : whence) (p : list instr) : list instr := match w with ToMore _ => MoreLoop :: p | _ => p end.

Lemma base_sub s p i :
  base s (i :: p) -> (i <> ResumeEmit) -> (reads_more i -> readingMore s = true -> TMaybeReadMore ∈ ticks s \/ Exists reads_more p) ->
  base s p.
Proof.
  intros [? ? Hf ? ? ? ? Hr Hm] H1 H2. apply Forall_cons in Hf as [_ Hf]. split; try done.
  - intros H. destruct (Hr H) as [|H']; [auto|]. apply elem_of_cons in H' as [<-|]; [done|auto].
  - intros H. destruct (Hm H) as [|H']; [auto|]. apply Exists_cons in H' as [H'|]; [|auto]. by apply H2.
Qed.

Lemma readReturn_none nOrig w s p : base s (owing w p) -> flows s p -> good (readReturn nOrig None w s) p.
Proof.
  intros I F. destruct w as [| |l|]; cbn [readReturn good owing] in *.
  - split; [|by apply flows_tell]. by apply base_tell; [|intros [?|[?|?]]| |].
  - done.
  - destruct (l =? length_ s).
    + split; [|by apply (flows_alike s)]. apply (base_sub _ _ MoreLoop); [by apply (base_alike s)|done|done].
    + split; [done|]. by apply (flows_add _ _ [_]).
  - done.
Qed.

Lemma readReturn_some nOrig ret w s p :
  base s p -> (w <> ToFlow -> flows s p) -> enough s nOrig ret -> asker nOrig w -> nOrig <> Some 0 ->
  good (readReturn nOrig (Some ret) w s) p.
Proof.
  intros I F E A N. destruct w as [| |l|]; cbn [readReturn good asker] in *; try done.
  - split; [|apply flows_tell; by apply F]. by apply base_tell; [|intros [?|[?|?]]| |].
  - split; [by apply (base_add _ _ [_]); [|repeat constructor]|]. intros _ _ _. left. right. right. by left.
Qed.

(** When no [_read] runs, more may change. *)
Lemma base_unread s s' p :
  Forall unread p -> same s s' -> grows s s' -> ticks s' = ticks s -> resumeScheduled s' = resumeScheduled s ->
  readingMore s' = readingMore s -> base s p -> base s' p.
Proof.
  intros U E G Et Er Em I. apply (base_same s s' p p); [done|done|done|by left|auto| | |]; rewrite Et, ?Er, ?Em; [auto|apply I|apply I].
Qed.

Lemma unread_owing w p : Forall unread p -> Forall unread (owing w p).
Proof. intros U. destruct w; try done. by constructor. Qed.

(** A stream that flows can stop here when [read] gives nothing. *)
Definition may_stop (nOrig : option Z) (s : state) (p : list instr) : Prop :=
  flowing s = Some true -> clean s -> odd s = false ->
  driven s p \/ length_ s = 0 /\ (ended s = false -> emittedReadable s = false /\ asked s p)
    /\ (ended s = true -> TEndReadable ∈ ticks s \/ endEmitted s = true \/ nOrig <> Some 0).

Lemma flows_may_stop nOrig s p : flows s p -> may_stop nOrig s p.
Proof. intros F Hf Hc Ho. destruct (F Hf Hc Ho) as [|[S1 S2 S3]]; [by left|]. right. naive_solver. Qed.

Lemma readNothing_good nOrig w s p :
  Forall unread p -> base s (owing w p) -> may_stop nOrig s p -> good (readNothing nOrig w s) p.
Proof.
  intros U I K. unfold readNothing. cbn [length_ ended needReadable highWaterMark set_needReadable].
  set (v := (length_ s =? 0) && negb (ended s) || (length_ s <=? highWaterMark s)).
  assert (Hv : length_ s = 0 -> ended s = false -> v = true) by (intros E1 E2; unfold v; by rewrite E1, E2).
  change (set_needReadable v (set_needReadable _ s)) with (set_needReadable v s). clearbody v.
  assert (I' : base (set_needReadable v s) (owing w p)) by (apply (base_unread s); [by apply unread_owing| | |..]; first [done|by split]).
  destruct (Z.eqb_spec (length_ s) 0) as [El|El]; cbn [andb].
  - destruct (bool_decide_reflect (nOrig = Some 0)) as [En|En]; cbn [negb andb]; [|destruct (ended s) eqn:Ee].
    1,3: apply readReturn_none; [done|]; intros Hf Hc Ho; destruct (K Hf Hc Ho) as [|(_ & K2 & K3)]; [by left|]; right;
      split; cbn; [done|intros E; destruct (K2 E); auto|intros E; first [congruence|destruct (K3 E) as [|[|]]; [auto..|done]]].
    apply readReturn_none; [by apply base_endReadable|]. unfold endReadable. cbn. intros Hf Hc Ho.
    assert (flowing s = Some true /\ clean s /\ odd s = false) as (Hf' & Hc' & Ho') by (by destruct (endEmitted s)).
    destruct (K Hf' Hc' Ho') as [D|_].
    + left. destruct (endEmitted s); [exact D|]. unfold driven in *. cbn. rewrite !elem_of_app. tauto.
    + right. destruct (endEmitted s) eqn:E; split; cbn; try done; auto; [congruence|]. intros _. left. apply elem_of_app. right. by left.
  - apply readReturn_none; [done|]. intros Hf Hc Ho. destruct (K Hf Hc Ho) as [|(? & _)]; [by left|done].
Qed.

Lemma base_take s s' p l ret ts es :
  Forall unread p -> base s p -> 0 < length_ s -> content s' l -> history s' = history s ++ [Taken ret] ->
  log s' = log s ++ es -> (if errorEmitted s || closeEmitted s then es = [] else es = [Data ret]) ->
  ended s' = ended s -> endEmitted s' = endEmitted s -> errorEmitted s' = errorEmitted s -> closeEmitted s' = closeEmitted s ->
  destroyed s' = destroyed s -> errored s' = errored s -> resumeScheduled s' = resumeScheduled s ->
  readingMore s' = readingMore s -> ticks s' = ticks s ++ ts -> Forall (fine_tick s) ts -> base s' p.
Proof.
  intros U [_ V F T B1 B2 B3 B4 B5] Hl C Eh El Hes E1 E2 E3 E4 E5 E6 E7 E8 Et Hts.
  assert (endEmitted s = false) as Hend. { destruct (endEmitted s); [|done]. destruct (B1 eq_refl). lia. }
  assert (G : grows s s') by (split; congruence). split.
  - by exists l.
  - apply (visible_step s s' es [Taken ret]); try done; try congruence.
    + destruct (errorEmitted s || closeEmitted s) in Hes; subst es; cbn; lia.
    + unfold over. by rewrite E2, E3, E4.
    + rewrite E3, E4. intros H1 H2. rewrite H1, H2 in Hes. cbn in Hes. by subst es.
    + destruct (errorEmitted s) eqn:H1, (closeEmitted s) eqn:H2; cbn in Hes; subst es; try done.
      apply Forall_singleton. split_and!; [by intros [?|[?|?]]| |done]. unfold over. rewrite Hend, H1, H2. by intros _ [?|[?|?]].
  - rewrite Forall_forall in F. rewrite Forall_forall in U. apply Forall_forall. intros i Hi. apply (fine_grows s s'); auto.
  - rewrite Et. apply Forall_app. split; [eapply Forall_impl; [exact T|]|eapply Forall_impl; [exact Hts|]]; intros t; by apply fine_tick_grows.
  - by rewrite E2, Hend.
  - by rewrite E4, E5.
  - by rewrite E3, E6.
  - rewrite E7, Et. intros H. destruct (B4 H); [left; apply elem_of_app|]; auto.
  - rewrite E8, Et. intros H. destruct (B5 H); [left; apply elem_of_app|]; auto.
Qed.

(** What [take_bytes] changes. *)
Lemma take_bytes_spec nOrig n (b : B) ret (s : state) :
  let s' := take_bytes nOrig n b ret s in
  exists ts v, s' = s |> set_buffer b |> set_length_ (length_ s - n) |> record [Taken ret] |> set_needReadable v |> set_ticks (ticks s ++ ts)
    /\ (ts = [] \/ ts = [TEndReadable] /\ ended s = true).
Proof.
  unfold take_bytes. cbn [length_ ended needReadable set_length_ set_buffer record set_history].
  match goal with |- context [set_needReadable ?x] => set (v := x) end.
  destruct (_ && ended (set_needReadable _ _)) eqn:E.
  - unfold endReadable. cbn. destruct (endEmitted s).
    + exists [], v. rewrite app_nil_r. split; [by destruct s|by left].
    + exists [TEndReadable], v. apply andb_true_iff in E as [_ E]. cbn in E. split; [|by right]. rewrite <- E. by destruct s.
  - exists [], v. rewrite app_nil_r. split; [by destruct s|by left].
Qed.

Lemma readBytes_good nOrig n b ret w s l p :
  Forall unread p -> base s (owing w p) -> (w <> ToFlow -> flows s p) -> asker nOrig w -> nOrig <> Some 0 ->
  0 < n <= length_ s -> enough s nOrig ret ->
  content (s |> set_buffer b |> set_length_ (length_ s - n) |> record [Taken ret]) l ->
  good (readBytes nOrig n b ret w s) p.
Proof.
  intros U I F A N Hn E [C1 C2 C3 C4 C5]. assert (owing w p = p) as Ew by (destruct w; try done; by destruct N).
  rewrite Ew in I. unfold readBytes. destruct (take_bytes_spec nOrig n b ret s) as (ts & v & -> & Hts).
  assert (Hft : Forall (fine_tick s) ts) by (destruct Hts as [-> | [-> ?]]; by repeat constructor).
  assert (D : w <> ToFlow -> flowing s = Some true -> clean s -> odd s = false -> driven s p).
  { intros Hw Hf Hc Ho. destruct (F Hw Hf Hc Ho) as [|[Hl _ _]]; [auto|lia]. }
  cbn [errorEmitted closeEmitted set_buffer set_length_ record set_history set_needReadable set_ticks].
  destruct (negb (errorEmitted s) && negb (closeEmitted s)) eqn:Ec.
  - cbn [good]. split.
    + apply (base_add _ _ [_]).
      * apply (base_take s _ p l ret ts [Data ret]); try done; [lia|].
        apply andb_true_iff in Ec as [->%negb_true_iff ->%negb_true_iff]. done.
      * apply Forall_singleton. split; [exact E|done].
    + intros Hf Hc Ho. left. destruct (decide (w = ToFlow)) as [->|Hw]; [by right; right; left|]. specialize (D Hw Hf Hc Ho).
      unfold driven in *. cbn. rewrite !elem_of_app, Exists_cons. tauto.
  - apply readReturn_some; try done.
    + apply (base_take s _ p l ret ts []); try done; [lia|cbn; by rewrite app_nil_r|]. by destruct (errorEmitted s), (closeEmitted s).
    + intros Hw Hf Hc Ho. left. specialize (D Hw Hf Hc Ho). unfold driven in *. cbn. rewrite !elem_of_app. tauto.
Qed.

(** The number of bytes fits what was asked for. *)
Definition fits (s : state) (nOrig : option Z) (n : Z) : Prop :=
  0 <= n <= length_ s /\ forall m, nOrig = Some m -> n = 0 \/ n = m \/ n < m /\ ended s = true.

Lemma readTake_good nOrig n w s p :
  Forall unread p -> base s (owing w p) -> asker nOrig w -> fits s nOrig n ->
  (w <> ToFlow -> flows s p) -> (w = ToFlow -> n = 0 -> may_stop nOrig s p) -> good (readTake nOrig n w s) p.
Proof.
  intros U I A [Hn Hm] F K. unfold readTake. destruct (Z.ltb_spec 0 n) as [Hp|Hp].
  - destruct (b_content _ _ I) as [l C]. destruct (fromList_spec s l n C) as (b & ret & l' & -> & Hr & C'); [lia|].
    apply (readBytes_good _ _ _ _ _ _ l'); try done; [|lia|].
    + intros ->. destruct (Hm 0 eq_refl) as [|[|[]]]; lia.
    + split; [by intros ->; rewrite len_nil in Hr; lia|]. intros m Em. destruct (Hm m Em) as [|[|[]]]; [lia|left; lia|right; split; [lia|done]].
  - apply readNothing_good; [done|done|]. destruct (decide (w = ToFlow)); [apply K; [done|lia]|]. by apply flows_may_stop, F.
Qed.

Lemma during_refl s : during_read s s.
Proof. by split; [lia| |]. Qed.

(** The source is asked. *)
Definition ask (nOrig : option Z) (n : Z) (w : whence) (s : state) : out :=
  Call (s |> set_reading true |> set_sync true |> set_needReadable ((length_ s =? 0) || needReadable s)) InRead [ReadAfter nOrig n w].

Lemma ask_good nOrig n w s p :
  Forall unread p -> base s (owing w p) -> asker nOrig w -> fits s nOrig n -> ended s = false ->
  (w <> ToFlow -> flows s (owing w p)) -> (w = ToFlow -> emittedReadable s = false /\ (n = 0 -> length_ s = 0)) ->
  good (ask nOrig n w s) p.
Proof.
  intros U I A [Hn Hm] Ee F K. unfold ask. set (v := (length_ s =? 0) || needReadable s). cbn [good].
  set (s' := set_needReadable v (set_sync true (set_reading true s))).
  assert (I' : base s' (owing w p)) by (apply (base_unread s); [by apply unread_owing| | |..]; first [done|by split]).
  assert (Hfine : fine s' (ReadAfter nOrig n w)).
  { cbn. split_and!; [lia|lia|done| |by left|].
    - intros m Em. destruct (Hm m Em) as [|[|[_ ?]]]; auto. congruence.
    - intros Hw E0. destruct (K Hw) as [K1 K2]. right. cbn. unfold v. by rewrite (K2 E0). }
  split.
  - pose proof (base_add _ _ [ReadAfter nOrig n w] I' ltac:(by apply Forall_singleton)) as I''. cbn [app] in *.
    destruct w as [| |l|]; try exact I''. cbn [owing] in *.
    apply (base_same s' s' (ReadAfter nOrig n (ToMore l) :: MoreLoop :: p)); try done; [right; apply during_refl|set_solver|auto|..].
    + intros H. destruct (b_resume _ _ I'' H) as [|H']; [auto|]. right. set_solver.
    + intros _. right. by left.
  - intros Hf Hc Ho. destruct (decide (w = ToFlow)) as [->|Hw]; [left; right; right; by left|].
    destruct (F Hw Hf Hc Ho) as [D|[S1 S2 S3]].
    + left. unfold driven in *. cbn. rewrite Exists_cons. destruct w; try tauto. cbn in D. rewrite Exists_cons in D. cbn in D. tauto.
    + right. split; [done| |done]. cbn. intros H. destruct (S2 H) as (? & ? & _). split_and!; [|done|by left].
      unfold v. by rewrite S1.
Qed.

Lemma readAsk_good nOrig n w s p :
  Forall unread p -> base s (owing w p) -> asker nOrig w -> fits s nOrig n ->
  (w <> ToFlow -> flows s p) ->
  (w = ToFlow -> emittedReadable s = false /\ (n = 0 -> length_ s = 0 /\ ended s = false)) -> good (readAsk nOrig n w s) p.
Proof.
  intros U I A Hn F K. unfold readAsk. set (doRead := needReadable s || _ || _).
  destruct (ended s || reading s || destroyed s || is_errored s || negb doRead) eqn:E.
  - apply readTake_good; try done. intros Hw E0 Hf [Hc1 Hc2] Ho. destruct (K Hw) as [K1 K2]. destruct (K2 E0) as [K3 K4]. right.
    split_and!; [done| |congruence]. intros _. split; [done|]. left. unfold is_errored in E. rewrite K4, Hc1, Hc2 in E. cbn [orb] in E.
    rewrite !orb_false_r in E. apply orb_true_iff in E as [|E]; [done|]. unfold doRead in E. rewrite K3 in E. cbn in E.
    by rewrite orb_true_r in E.
  - rewrite !orb_false_iff in E. destruct E as [[[[Ee _] _] _] _]. apply ask_good; try done.
    + intros Hw. destruct w; try by auto. apply (flows_add _ _ [_]). auto.
    + intros Hw. destruct (K Hw) as [? K2]. split; [done|]. intros E0. by apply K2.
Qed.

Lemma howMuch_fits s l n : content s l -> exists m, howMuchToRead n s = Ok m /\ fits s n m /\ (n = None -> 0 < length_ s -> 0 < m).
Proof. intros C. destruct (howMuch_spec s l n C) as (m & E & Hm & H1 & H2). exists m. done. Qed.

Lemma readAfter_good nOrig n w s p :
  Forall unread p -> base s (ReadAfter nOrig n w :: p) -> flows s (ReadAfter nOrig n w :: p) -> good (readAfter nOrig n w s) p.
Proof.
  intros U I F. pose proof (b_fine _ _ I) as Hf. apply Forall_cons in Hf as [(Hn & A & Hm & An & Ann) _]. unfold readAfter.
  set (s' := set_sync false s).
  assert (I' : base s' (owing w p)).
  { apply (base_same s s' (ReadAfter nOrig n w :: p)); try done; [left; by apply unread_owing| |by auto|..].
    - intros i Hi. destruct w; try (left; by right). apply elem_of_cons in Hi as [->|Hi]; [by right|left; by right].
    - cbn. intros H. destruct (b_resume _ _ I H) as [|H']; [auto|]. right. destruct w; cbn; set_solver.
    - cbn. intros H. destruct (b_more _ _ I H) as [|H']; [auto|]. right. apply Exists_cons in H' as [H'|H'].
      + destruct w; try done. by left.
      + destruct w; try done. by right. }
  assert (F' : w <> ToFlow -> flows s' p).
  { intros Hw Hfl Hc Ho. destruct (F Hfl Hc Ho) as [D|[S1 S2 S3]].
    - left. unfold driven in *. cbn in *. rewrite Exists_cons in D. destruct w; naive_solver.
    - right. split; [done| |done]. cbn. intros H. destruct (S2 H) as (? & ? & As). split_and!; try done. unfold asked in *. cbn.
      set_solver. }
  destruct (b_content _ _ I') as [l C]. cbn [reading set_sync] in *. destruct (reading s) eqn:Er; cbn [s' reading set_sync].
  - rewrite Er. apply readTake_good; try done.
    + split; [done|]. intros m Em. destruct (Hm m Em); auto.
    + intros Hw E0 Hfl Hc Ho. destruct (Ann Hw E0) as [|(E1 & E2 & E3)]; [by left; right; left|]. right. split_and!; [done| |].
      * intros _. split; [done|]. by left.
      * intros _. right. right. by subst w; cbn in A; subst nOrig.
  - rewrite Er. destruct (howMuch_fits s' l nOrig C) as (m & -> & Hfit & Hpos). apply readTake_good; try done.
    intros Hw E0 Hfl Hc Ho. subst w. cbn in A. subst nOrig. right.
    assert (length_ s' = 0) as El. { destruct Hfit as [? _]. destruct (Z.eq_dec (length_ s') 0); [done|]. specialize (Hpos eq_refl). lia. }
    cbn in El. split_and!; [done| |by auto]. intros Ee. cbn in Ee. exfalso.
    cbn in Ho. destruct An as [?|[?|[?|[Hnc|?]]]]; [congruence..|by apply Hnc|lia].
Qed.

Lemma flows_ended s p : ended s = true -> length_ s = 0 -> flows (endReadable s) p.
Proof.
  intros E El _ _ _. right. unfold endReadable. destruct (endEmitted s) eqn:Ee; split; cbn; try congruence; auto.
  intros _. left. apply elem_of_app. right. by left.
Qed.

(** Reading, unless the number of bytes is too large. *)
Lemma read_spec n w s p :
  Forall unread p -> base s (owing w p) -> asker n w -> (w <> ToFlow -> flows s p) ->
  good (read n w s) p \/ w = ToProgram /\ exists er, read n w s = Raise s er /\ excusable er.
Proof.
  intros U I A F. unfold read. destruct (newHighWaterMark n s) as [hwm|er] eqn:Eh.
  2: { right. destruct n as [n|]; [|done]. cbn in Eh. destruct (highWaterMark s <? n); [|done]. split; [|exists er; split; [done|by left; exists n]].
       destruct w; [done| | |]; cbn in A; try done; injection A as ->; done. }
  left. set (e := emittedReadable s && bool_decide (n = Some 0)). cbn zeta. set (s' := set_emittedReadable e (set_highWaterMark hwm s)).
  assert (I' : base s' (owing w p)) by (apply (base_unread s); [by apply unread_owing| | |..]; first [done|by split]).
  assert (F' : w <> ToFlow -> flows s' p).
  { intros Hw Hf Hc Ho. destruct (F Hw Hf Hc Ho) as [|[S1 S2 S3]]; [by left|]. right. split; try done. cbn. intros H.
    destruct (S2 H) as (? & Ee & ?). unfold e. rewrite Ee. done. }
  destruct (announces n s') eqn:Ea.
  - assert (w <> ToFlow) as Hw.
    { intros ->. cbn in A. subst n. done. }
    destruct ((length_ s' =? 0) && ended s') eqn:E.
    + apply andb_true_iff in E as [_ E]. apply readReturn_none; [by apply base_endReadable|by apply flows_endReadable; auto].
    + apply readReturn_none; [by apply base_emitReadable|by apply flows_emitReadable; auto].
  - destruct (b_content _ _ I') as [l C]. destruct (howMuch_fits s' l n C) as (m & -> & Hfit & Hpos).
    assert (H0 : w = ToFlow -> m = 0 -> length_ s' = 0).
    { intros -> ->. cbn in A. specialize (Hpos A). destruct Hfit as [? _]. lia. }
    destruct ((m =? 0) && ended s') eqn:E.
    + apply andb_true_iff in E as [Em%Z.eqb_eq E]. destruct (Z.eqb_spec (length_ s') 0) as [El|El].
      * apply readReturn_none; [by apply base_endReadable|by apply flows_ended].
      * apply readReturn_none; [done|]. apply F'. intros Hw. by apply El, H0.
    + apply readAsk_good; try done. intros Hw. split.
      * cbn. unfold e. subst w. cbn in A. subst n. by rewrite bool_decide_false, andb_false_r.
      * intros Em. split; [auto|]. rewrite Em in E. by cbn in E.
Qed.

Lemma read_good n w s p :
  Forall unread p -> base s (owing w p) -> asker n w -> w <> ToProgram -> (w <> ToFlow -> flows s p) -> good (read n w s) p.
Proof. intros U I A Hw F. destruct (read_spec n w s p U I A F) as [|[? _]]; done. Qed.

Lemma good_and_then x l p : good (and_then x l) p <-> good x (l ++ p).
Proof. destruct x; cbn; rewrite ?app_assoc; done. Qed.

(** ** Instructions *)

Lemma flows_off s p : flowing s <> Some true -> flows s p.
Proof. intros H Hf. by destruct H. Qed.

Lemma is_flowing_spec (s : state) : is_flowing s = true <-> flowing s = Some true.
Proof. unfold is_flowing. by destruct (flowing s) as [[]|]. Qed.

Lemma flow_good s p : Forall unread p -> base s (Flow :: p) -> good (flow s) p.
Proof.
  intros U I. assert (base s p) as I' by (by apply (base_sub _ _ Flow)). unfold flow. destruct (is_flowing s) eqn:E.
  - by apply read_good.
  - split; [done|]. apply flows_off. intros E'. by rewrite (proj2 (is_flowing_spec s)) in E.
Qed.

(** In a settled state [read(0)] asks the source. *)
Lemma read_settled s l p :
  Forall unread p -> base s (MoreLoop :: p) -> settled s (MoreLoop :: p) -> clean s -> ended s = false -> reading s = false ->
  good (read (Some 0) (ToMore l) s) p.
Proof.
  intros U I [S1 S2 S3] [Hc1 Hc2] Ee Er. destruct (S2 Ee) as (Sn & Se & _). unfold read.
  destruct (newHighWaterMark (Some 0) s) as [hwm|er] eqn:Eh; [|by cbn in Eh; destruct (highWaterMark s <? 0)].
  set (s' := set_emittedReadable _ (set_highWaterMark hwm s)).
  assert (I' : base s' (MoreLoop :: p)) by (apply (base_unread s); [by constructor| | |..]; first [done|by split]).
  destruct (announces (Some 0) s').
  - replace ((length_ s' =? 0) && ended s') with false by (cbn; by rewrite Ee, andb_false_r).
    apply readReturn_none; [by apply base_emitReadable|]. unfold emitReadable. cbn. rewrite Se. cbn. intros _ _ _. left. right. left. cbn.
    apply elem_of_app. right. by left.
  - change (howMuchToRead (Some 0) s') with (Ok 0). cbn [Z.eqb andb]. change (ended s') with (ended s). rewrite Ee.
    assert (readAsk (Some 0) 0 (ToMore l) s' = ask (Some 0) 0 (ToMore l) s') as ->.
    { unfold readAsk. destruct (_ || negb _) eqn:E; [|done]. unfold is_errored in E. cbn in E.
      by rewrite S1, Ee, Er, Hc1, Hc2, orb_true_r in E. }
    apply ask_good; try done.
    + split; [cbn; lia|]. intros m [= <-]. by left.
    + intros _ _ _ _. right. cbn. split; cbn; [done| |congruence]. rewrite Se. intros _. split_and!; try done. by right; right; right; left.
Qed.

Lemma more_good s p : Forall unread p -> base s (MoreLoop :: p) -> flows s (MoreLoop :: p) -> good (maybeReadMore_ s) p.
Proof.
  intros U I F. unfold maybeReadMore_. destruct (_ && _) eqn:E.
  - apply andb_true_iff in E as [E _]. apply andb_true_iff in E as [Er%negb_true_iff Ee%negb_true_iff].
    destruct (decide (flowing s = Some true)) as [Hf|Hf]; [|by apply read_good; try done; intros _; apply flows_off].
    destruct (decide (destroyed s = false /\ errored s = None /\ odd s = false)) as [(H1 & H2 & H3)|Hn].
    + destruct (F Hf (conj H1 H2) H3) as [D|S]; [|by apply read_settled]. apply read_good; try done. intros _ _ _ _. left.
      unfold driven in *. rewrite Exists_cons in D. cbn in D. tauto.
    + apply read_good; try done. intros _ _ [? ?] ?. by destruct Hn.
  - split.
    + apply (base_sub _ _ MoreLoop); [by apply (base_alike s)|done|done].
    + intros Hf Hc Ho. destruct (F Hf Hc Ho) as [D|[S1 S2 S3]].
      * left. unfold driven in *. rewrite Exists_cons in D. cbn in *. tauto.
      * right. split; cbn; [done| |done]. intros Ee. destruct (S2 Ee) as (? & ? & _). split_and!; try done. left. cbn.
        cbn in Hf. rewrite Ee, S1, (proj2 (is_flowing_spec s) Hf) in E. cbn in E. rewrite orb_true_r, !andb_true_r in E.
        by apply negb_false_iff.
Qed.

Lemma emitReadable__good s p : base s p -> good (emitReadable_ s) p.
Proof.
  intros I. unfold emitReadable_. destruct (_ && _); cbn [good emit]; split.
  - apply (base_add _ _ [_]); [|by repeat constructor]. by apply base_tell; [|intros [?|[?|?]]| |].
  - intros _ _ _. left. right. right. by left.
  - by apply (base_add _ _ [_]); [|repeat constructor].
  - intros _ _ _. left. right. right. by left.
Qed.

Lemma emittedReadable__good s p : Forall unread p -> base s (EmittedReadable :: p) -> good (emittedReadable_ s) p.
Proof.
  intros U I. cbn. split; [|intros _ _ _; left; right; right; by left]. apply (base_add _ _ [_]); [|by repeat constructor].
  apply (base_unread s); [done|by split|by split|done..|]. by apply (base_sub _ _ EmittedReadable).
Qed.

Lemma afterReadable_good s p : Forall unread p -> base s (AfterReadable :: p) -> good (afterReadable s) p.
Proof.
  intros U I. cbn. split; [|intros _ _ _; left; right; right; by left]. apply (base_add _ _ [_]); [|by repeat constructor].
  apply (base_unread s); [done|by split|by split|done..|]. by apply (base_sub _ _ AfterReadable).
Qed.

Lemma resumeEmit_good s p : Forall unread p -> base s (ResumeEmit :: p) -> good (resumeEmit s) p.
Proof.
  intros U I. cbn [resumeEmit emit good]. split; [|intros _ _ _; left; right; right; by left].
  apply base_tell; [|by intros [?|[?|?]]|done|done]. apply (base_add _ _ [_; _]); [|by repeat constructor].
  apply (base_same s _ (ResumeEmit :: p)); try done; [by left|set_solver|by auto|]. cbn. intros H.
  destruct (b_more _ _ I H) as [|H']; [auto|]. apply Exists_cons in H' as [[]|]. auto.
Qed.

Lemma resumeEnd_good s p : Forall unread p -> base s (ResumeEnd :: p) -> flows s (ResumeEnd :: p) -> good (resumeEnd s) p.
Proof.
  intros U I%base_idle F%flows_idle; [|done..]. unfold resumeEnd. destruct (_ && _); [by apply read_good|done].
Qed.

Lemma addedChunk_good s p : base s (AddedChunk :: p) -> flows s (AddedChunk :: p) -> good (Go (maybeReadMore s) []) p.
Proof.
  intros I F. pose proof (base_sub _ _ AddedChunk I ltac:(done) ltac:(done)) as I'. cbn. split; [by apply base_maybeReadMore|].
  unfold maybeReadMore. destruct (readingMore s) eqn:E.
  - intros Hf Hc Ho. destruct (F Hf Hc Ho) as [D|[S1 S2 S3]].
    + left. unfold driven in *. rewrite Exists_cons in D. cbn in D. tauto.
    + right. split; [done| |done]. intros Ee. destruct (S2 Ee) as (? & ? & _). split_and!; try done.
      destruct (b_more _ _ I' E) as [Ht|(i & Hi & Hm)%Exists_exists]; [by right; left|]. pose proof (b_fine _ _ I') as Hfi.
      rewrite Forall_forall in Hfi. specialize (Hfi i Hi). destruct i; try done; [|by right; right; right].
      destruct Hfi as (_ & _ & _ & An & _). left. destruct An as [|[?|[?|[Hnc|?]]]]; [done|congruence..|by destruct Hnc|lia].
  - intros Hf Hc Ho. destruct (F Hf Hc Ho) as [D|[S1 S2 S3]].
    + left. unfold driven in *. rewrite Exists_cons in D. cbn in *. rewrite !elem_of_app. tauto.
    + right. split; cbn; [done| |rewrite elem_of_app; tauto]. intros Ee. destruct (S2 Ee) as (? & ? & _). split_and!; try done.
      right. left. cbn. apply elem_of_app. right. by left.
Qed.

(** What only changes what the program saw. *)
Lemma base_visible s s' p :
  base s p -> visible s' -> buffer s' = buffer s -> length_ s' = length_ s -> history s' = history s ->
  (endEmitted s' = true -> ended s = true /\ length_ s = 0) -> (closeEmitted s' = true -> destroyed s = true) ->
  (errorEmitted s' = true -> errored s <> None) ->
  ended s' = ended s -> destroyed s' = destroyed s -> errored s' = errored s -> reading s' = reading s -> odd s' = odd s ->
  ticks s' = ticks s -> needReadable s' = needReadable s -> emittedReadable s' = emittedReadable s ->
  resumeScheduled s' = resumeScheduled s -> readingMore s' = readingMore s -> base s' p.
Proof.
  intros [[l [? ? ? ? ?]] V F T B1 B2 B3 B4 B5] V' E1 E2 E3 Hend Hcl Her E4 E5 E6 E7 E8 E9 E10 E11 E12 E13.
  assert (G : grows s s') by (split; congruence).
  assert (D : during_read s s').
  { split; [lia| |]; unfold answered, announced, clean; by rewrite ?E2, ?E4, ?E5, ?E6, ?E7, ?E8, ?E9, ?E10, ?E11. }
  split; rewrite ?E2, ?E4, ?E5, ?E6, ?E9, ?E12, ?E13; try done.
  - exists l. split; congruence.
  - eapply Forall_impl; [exact F|]. intros i. apply fine_grows; auto.
  - eapply Forall_impl; [exact T|]. intros t. by apply fine_tick_grows.
Qed.

Lemma checkError_cases er (s : state) :
  checkError er s = s \/ exists e, er = Some e /\ errored s = None /\ checkError er s = set_errored (Some e) s.
Proof. unfold checkError. destruct er as [e|]; [|by left]. destruct (errored s); [by left|]. right. by exists e. Qed.

Lemma checkError_errored er (s : state) : er <> None -> errored (checkError er s) <> None.
Proof. intros H. unfold checkError. destruct er as [e|]; [|done]. by destruct (errored s) eqn:E; [rewrite E|]. Qed.

(** An error or a destruction. *)
Lemma base_checkError er s p : base s p -> base (checkError er s) p.
Proof.
  intros I. destruct (checkError_cases er s) as [->|(e & -> & E & ->)]; [done|].
  apply (base_same s _ p p); [done|by split|by split|right|by auto|by auto|apply I|apply I]. split; cbn; [lia| |done]. intros _.
  right. right. right. left. by intros [_ ?].
Qed.

Lemma flows_checkError er s p : flows s p -> flows (checkError er s) p.
Proof.
  intros F. destruct (checkError_cases er s) as [->|(e & -> & E & ->)]; [done|]. intros _ [_ ?]. done.
Qed.

Lemma base_destroyed s p : base s p -> base (set_destroyed true s) p.
Proof.
  intros I. apply (base_same s _ p p); [done|by split|by split|right|by auto|by auto|apply I|apply I].
  split; cbn; [lia| |done]. intros _. right. right. right. left. by intros [? _].
Qed.

Lemma destroy_good er c s p : base s p -> flows s p -> good (destroy er c s) p.
Proof.
  intros I F. unfold destroy. destruct (destroyed s).
  - cbn. destruct c; [|done]. split; [by apply (base_add _ _ [_]); [|repeat constructor]|by apply (flows_add _ _ [_])].
  - cbn. split; [|intros _ [? _]; done].
    apply (base_alike (set_destroyed true (checkError er s))); try done. by apply base_destroyed, base_checkError.
Qed.

Lemma onDestroy_good er s p : destroyed s = true -> base s p -> flows s p -> good (onDestroy er s) p.
Proof.
  intros D I F. unfold onDestroy. destruct (destroy_called s); [done|].
  set (s1 := set_destroy_called true s). assert (destroyed (checkError er s1) = true) as D1.
  { by destruct (checkError_cases er s1) as [->|(e & _ & _ & ->)]. }
  set (s2 := set_closed true (checkError er s1)). cbn [good].
  assert (base s2 p) as I2. { apply (base_alike (checkError er s1)); try done. apply base_checkError. by apply (base_alike s). }
  assert (flows s2 p) as F2. { intros _ [H _]. cbn in H. congruence. }
  assert (fine s2 (Destroyed er)) as Hd. { split; [done|]. intros H. by apply (checkError_errored er s1) in H. }
  destruct (destroy_cb s2); (split; [by apply base_add; [|repeat constructor; try done; apply Hd]|by apply flows_add]).
Qed.

Lemma errorOrDestroy_good er s p : base s p -> flows s p -> good (errorOrDestroy o er s) p.
Proof.
  intros I F. unfold errorOrDestroy. destruct (destroyed s); [done|]. destruct (autoDestroy o); cbn [good].
  - split; [by apply (base_add _ _ [_]); [|repeat constructor]|by apply (flows_add _ _ [_])].
  - split; [|by apply (flows_add _ _ [_]), flows_checkError]. apply (base_add _ _ [_]); [by apply base_checkError|].
    apply Forall_singleton. by apply checkError_errored.
Qed.

Lemma destroyed__good er s p : base s (Destroyed er :: p) -> flows s (Destroyed er :: p) -> good (destroyed_ er s) p.
Proof.
  intros I F. pose proof (b_fine _ _ I) as Hd. apply Forall_cons in Hd as [[D1 D2] _]. cbn.
  split; [|by apply flows_tick; eapply flows_idle]. apply base_tick; [by eapply base_idle|]. by destruct er; cbn; auto.
Qed.

Lemma emitErrorNT_good er s p : errored s <> None -> base s p -> flows s p -> good (emitErrorNT er s) p.
Proof.
  intros He I F. unfold emitErrorNT. destruct (errorEmitted s) eqn:E; [done|]. cbn [good emit]. split; [|by apply (flows_alike s)].
  apply (base_visible s); try done; [|apply I|apply I]. apply (visible_step s _ [Emit "error"] []); try done; [apply I|by rewrite app_nil_r| |].
  - intros _. right. by left.
  - apply Forall_singleton. split_and!; [intros _; right; by left|by cbn|done].
Qed.

Lemma emitCloseNT_good s p : destroyed s = true -> base s p -> flows s p -> good (emitCloseNT o s) p.
Proof.
  intros Hd I F. assert (Hb : forall es, es = [] \/ es = [Emit "close"] -> base (set_log (log s ++ es) (set_closeEmitted true s)) p).
  { intros es Hes. apply (base_visible s); try done; [|apply I|apply I]. apply (visible_step s _ es []); try done; [apply I| | | |].
    - destruct Hes as [-> | ->]; cbn; lia.
    - by rewrite app_nil_r.
    - intros _. right. by right.
    - destruct Hes as [-> | ->]; [done|]. apply Forall_singleton. split_and!; [intros _; right; by right|by cbn|done]. }
  unfold emitCloseNT. destruct (emitClose o); cbn [good emit]; (split; [|by apply (flows_alike s)]).
  - apply Hb. by right.
  - specialize (Hb [] ltac:(by left)). rewrite app_nil_r in Hb. by apply (base_alike (set_log (log s) (set_closeEmitted true s))).
Qed.

Lemma harmless_call s p e l :
  base s p -> flows s p -> Forall (fine s) l -> ~ last_words e -> ~ comes_before e ->
  match e with Threw _ | ReadReturned _ _ => False | _ => True end -> base (tell e s) (l ++ p) /\ flows (tell e s) (l ++ p).
Proof.
  intros I F Hl H1 H2 H3. split; [|by apply flows_tell, flows_add]. apply base_tell; [by apply base_add|done|done|by destruct e].
Qed.

Lemma idle_both s i p : base s (i :: p) -> flows s (i :: p) -> idle i -> base s p /\ flows s p.
Proof. intros I F Hi. split; [by eapply base_idle|by eapply flows_idle]. Qed.

Lemma run_instr_good i s p :
  quiet i \/ Forall unread p -> base s (i :: p) -> flows s (i :: p) -> good (run_instr o i s) p.
Proof.
  intros U I F. pose proof (b_fine _ _ I) as Hf. apply Forall_cons in Hf as [Hf _].
  destruct i; cbn [run_instr];
    try (assert (Forall unread p) as U' by (destruct U as [[]|]; assumption));
    try (destruct (idle_both s _ p I F Logic.I) as [I' F']).
  - by apply readAfter_good.
  - destruct Hf as (He & Ha & Hn). apply readReturn_some; try done.
    + by apply (base_sub _ _ _ I).
    + intros Hw. eapply flows_idle; [exact F|]. by destruct w; try done; cbn in Ha.
  - by apply flow_good.
  - apply emitReadable__good. by apply (base_sub _ _ EmitReadable_).
  - by apply emittedReadable__good.
  - by apply afterReadable_good.
  - by apply more_good.
  - by apply resumeEmit_good.
  - by apply resumeEnd_good.
  - by apply addedChunk_good.
  - apply (harmless_call s p _ []); [done|done|by apply Forall_nil|by intros [?|[?|?]]|by intros []|done].
  - cbn. split; [by apply (base_alike s)|by apply (flows_alike s)].
  - unfold endDestroy. destruct (autoDestroy o); cbn [good]; [|done].
    split; [by apply (base_add _ _ [_]); [|repeat constructor]|by apply (flows_add _ _ [_])].
  - apply (harmless_call s p _ []); [done|done|by apply Forall_nil|by intros [?|[?|?]]|by intros []|done].
  - by apply destroy_good.
  - by apply destroyed__good.
  - by apply errorOrDestroy_good.
  - by apply emitErrorNT_good.
  - by apply emitCloseNT_good.
Qed.

(** ** Ticks and actions *)

Lemma scheduled_drives s p : base s p -> resumeScheduled s = true -> driven s p.
Proof.
  intros I H. destruct (b_resume _ _ I H) as [|Hi]; [by left|]. right. right. apply Exists_exists. by exists ResumeEmit.
Qed.

Lemma schedule_resume_good s p : base s p -> base (schedule_resume s) p /\ flows (schedule_resume s) p.
Proof.
  intros I. unfold schedule_resume. destruct (resumeScheduled s) eqn:E.
  - split; [done|]. intros _ _ _. left. by apply scheduled_drives.
  - split.
    + apply (base_same s _ p p); try done; [right|..].
      * split; cbn; [lia|done|]. unfold announced. cbn. rewrite elem_of_app. tauto.
      * auto.
      * intros t. cbn. rewrite elem_of_app. intros [|Hi]; [auto|]. apply list_elem_of_singleton in Hi as ->. by right.
      * intros _. left. cbn. apply elem_of_app. right. by left.
      * cbn. intros H. destruct (b_more _ _ I H); [left; apply elem_of_app|]; auto.
    + intros _ _ _. left. left. cbn. apply elem_of_app. right. by left.
Qed.

Lemma resume_good s p : base s p -> flows s p -> base (resume s) p /\ flows (resume s) p.
Proof.
  intros I F. unfold resume. destruct (is_flowing s); [split; [by apply (base_alike s)|by apply (flows_alike s)]|].
  set (s1 := set_flowing _ s). destruct (schedule_resume_good s1 p) as [I1 F1]; [by apply (base_alike s)|].
  split; [by apply (base_alike (schedule_resume s1))|by apply (flows_alike (schedule_resume s1))].
Qed.

(** What stands for a tick when it is taken out. *)
Definition standin (t : tick) : list instr :=
  match t with TMaybeReadMore => [MoreLoop] | TResume => [ResumeEmit] | TEmitReadable => [EmitReadable_] | _ => [] end.

Lemma base_pop s t l : base s [] -> ticks s = t :: l -> base (set_ticks l s) (standin t).
Proof.
  intros I E. apply (base_same s _ [] _); try done.
  - left. by destruct t; repeat constructor.
  - intros i Hi. right. destruct t; cbn in Hi; try by apply not_elem_of_nil in Hi. all: by apply list_elem_of_singleton in Hi as ->.
  - intros t' Hi. left. rewrite E. by right.
  - cbn. intros H. destruct (b_resume _ _ I H) as [H'|H']; [|by apply not_elem_of_nil in H']. rewrite E in H'.
    apply elem_of_cons in H' as [<-|]; [right; by left|auto].
  - cbn. intros H. destruct (b_more _ _ I H) as [H'|H']; [|by apply Exists_nil in H']. rewrite E in H'.
    apply elem_of_cons in H' as [<-|]; [right; by left|auto].
Qed.

Lemma flows_pop s t l : flows s [] -> ticks s = t :: l -> t <> TEndReadable -> flows (set_ticks l s) (standin t).
Proof.
  intros F E Ht Hf Hc Ho. destruct (F Hf Hc Ho) as [D|[S1 S2 S3]].
  - left. unfold driven in *. rewrite E in D. rewrite !elem_of_cons in D. cbn. destruct D as [[<-|D]|[[<-|D]|D]].
    + right. right. by left.
    + auto.
    + right. right. by left.
    + auto.
    + by apply Exists_nil in D.
  - right. split; cbn; [done| |].
    + intros Ee. destruct (S2 Ee) as (? & ? & As). split_and!; try done. unfold asked in *. rewrite E in As. cbn.
      destruct As as [|[[<-|]%elem_of_cons|[H'|H']]]; auto; [right; right; right; by left|by apply not_elem_of_nil in H'..].
    + intros Ee. destruct (S3 Ee) as [H|]; [|auto]. rewrite E in H. apply elem_of_cons in H as [<-|]; by auto.
Qed.

Lemma updateReadableListening_good s p : base s p -> flows s p -> good (updateReadableListening s) p.
Proof.
  intros I F. unfold updateReadableListening. set (s1 := set_readableListening _ s). cbn [good app].
  assert (base s1 p) as I1 by (by apply (base_alike s)). assert (flows s1 p) as F1 by (by apply (flows_alike s)).
  destruct (_ && _) eqn:E; [|destruct (0 <? dataListeners s1)%nat; [by apply resume_good|destruct (readableListening s1); [done|]]].
  - split; [by apply (base_alike s1)|]. intros _ _ _. left. apply andb_true_iff in E as [E _]. exact (scheduled_drives s1 p I1 E).
  - split; [by apply (base_alike s1)|]. by apply flows_off.
Qed.

(** 'end' *)
Lemma base_end s p :
  base s p -> ended s = true -> length_ s = 0 -> endEmitted s = false -> is_errored s = false -> closeEmitted s = false ->
  base (tell (Emit "end") (set_endEmitted true s)) p.
Proof.
  intros I E1 E2 E3 E4 E5. assert (errorEmitted s = false) as E6.
  { destruct (errorEmitted s) eqn:E; [|done]. pose proof (b_error _ _ I E). unfold is_errored in E4. by destruct (errored s). }
  apply (base_visible s); try done; [|apply I|apply I]. apply (visible_step s _ [Emit "end"] []); try done; [apply I|by rewrite app_nil_r| |].
  - intros _. by left.
  - apply Forall_singleton. split_and!; [intros _; by left| |done]. unfold over. rewrite E3, E5, E6. by intros _ [?|[?|?]].
Qed.

Lemma endReadableNT_good s p l :
  base s p -> flows s p -> ticks s = TEndReadable :: l -> base (set_ticks l s) p -> good (endReadableNT (set_ticks l s)) p.
Proof.
  intros I F Et I'. unfold endReadableNT. set (s1 := set_ticks l s) in *.
  assert (F1 : (flowing s = Some true -> clean s -> odd s = false -> ended s = true -> length_ s = 0 -> endEmitted s = true) -> flows s1 p).
  { intros He Hf Hc Ho. destruct (F Hf Hc Ho) as [D|[S1 S2 S3]].
    - left. unfold driven in *. rewrite Et in D. rewrite !elem_of_cons in D. cbn. naive_solver.
    - right. split; cbn; [done| |auto]. intros Ee. destruct (S2 Ee) as (? & ? & As). split_and!; try done.
      unfold asked in *. rewrite Et in As. rewrite elem_of_cons in As. cbn. naive_solver. }
  destruct (_ && _) eqn:E; cbn [good emit].
  - rewrite !andb_true_iff, !negb_true_iff, Z.eqb_eq in E. destruct E as [[[E1 E2] E3] E4]. cbn in E2, E3, E4.
    assert (Hen : ended s = true). { pose proof (b_ticks _ _ I) as Ht. rewrite Et in Ht. by apply Forall_cons in Ht as [Ht _]. }
    assert (base (tell (Emit "end") (set_endEmitted true s1)) p) as Ib by (by apply base_end).
    split; [by apply (base_add _ _ [_]); [|repeat constructor]|]. intros Hf Hc Ho. destruct (F Hf Hc Ho) as [D|_].
    + left. unfold driven in *. rewrite Et in D. rewrite !elem_of_cons in D. cbn. rewrite Exists_cons. naive_solver.
    + right. split; cbn; [done|congruence|auto].
  - split; [done|]. apply F1. intros Hf [Hc1 Hc2] Ho Ee El. unfold is_errored in E. cbn in E. rewrite Hc2, El in E. cbn in E.
    destruct (closeEmitted s) eqn:Ec; [pose proof (b_close _ _ I Ec); congruence|]. cbn in E. rewrite andb_true_r in E.
    by apply negb_false_iff in E.
Qed.

Lemma run_tick_good s t l : base s [] -> flows s [] -> ticks s = t :: l -> good (run_tick o t (set_ticks l s)) [].
Proof.
  intros I F Et. pose proof (base_pop s t l I Et) as I'. pose proof (b_ticks _ _ I) as Hf. rewrite Et in Hf. apply Forall_cons in Hf as [Hf _].
  pose proof (fun H => flows_pop s t l F Et H) as F'. assert (U : Forall unread []) by done.
  destruct t; cbn [run_tick standin] in *; try specialize (F' ltac:(done)).
  - apply emitReadable__good. by apply (base_sub _ _ EmitReadable_).
  - by apply more_good.
  - unfold resume_. apply good_and_then. cbn [app]. destruct (reading (set_ticks l s)); [done|].
    by apply read_good; [repeat constructor|..].
  - by apply endReadableNT_good.
  - by apply read_good.
  - by apply updateReadableListening_good.
  - split; [|by apply (flows_add _ _ [_; _])]. apply (base_add _ _ [_; _]); [done|]. destruct Hf as [H1 H2]. by repeat constructor.
  - by apply emitCloseNT_good.
Qed.

(** ** Pushing *)

Lemma taken_put addToFront c : taken [put addToFront c] = [].
Proof. by destruct addToFront. Qed.

Definition put_at {A} (addToFront : bool) (c : A) (l : list A) : list A := if addToFront then c :: l else l ++ [c].

Lemma bytes_of_put addToFront c l :
  bytes_of (put_at addToFront c l) = (if addToFront then c ++ bytes_of l else bytes_of l ++ c).
Proof.
  unfold put_at, bytes_of. destruct addToFront; [done|]. rewrite foldr_app. cbn. rewrite app_nil_r.
  induction l as [|d l IH]; [done|]. cbn. by rewrite IH, app_assoc.
Qed.

Lemma replay_put addToFront c l h :
  replay h = Some (bytes_of l) -> replay (h ++ [put addToFront c]) = Some (bytes_of (put_at addToFront c l)).
Proof. intros H. rewrite replay_app, H, bytes_of_put. by destruct addToFront. Qed.

Lemma base_put s s' p l addToFront c ts :
  base s p -> content s' l -> history s' = history s ++ [put addToFront c] -> log s' = log s -> endEmitted s = false ->
  ended s' = ended s -> endEmitted s' = endEmitted s -> errorEmitted s' = errorEmitted s -> closeEmitted s' = closeEmitted s ->
  destroyed s' = destroyed s -> errored s' = errored s -> resumeScheduled s' = resumeScheduled s ->
  readingMore s' = readingMore s -> ticks s' = ticks s ++ ts -> Forall (fine_tick s) ts ->
  length_ s <= length_ s' -> 0 < length_ s' -> (announced s -> announced s') -> base s' p.
Proof.
  intros [_ V F T B1 B2 B3 B4 B5] C Eh El Hend E1 E2 E3 E4 E5 E6 E7 E8 Et Hts Hl1 Hl2 An.
  assert (G : grows s s') by (split; congruence). split.
  - by exists l.
  - apply (visible_step s s' [] [put addToFront c]); try done; try congruence; rewrite ?app_nil_r; try done.
    + cbn. lia.
    + unfold over. by rewrite E2, E3, E4.
    + intros _ _. by rewrite taken_put.
  - eapply Forall_impl; [exact F|]. intros i. apply fine_grows; [done|]. right. split; [done| |done]. intros _. by do 4 right.
  - rewrite Et. apply Forall_app. split; [eapply Forall_impl; [exact T|]|eapply Forall_impl; [exact Hts|]]; intros t; by apply fine_tick_grows.
  - by rewrite E2, Hend.
  - by rewrite E4, E5.
  - by rewrite E3, E6.
  - rewrite E7, Et. intros H. destruct (B4 H); [left; apply elem_of_app|]; auto.
  - rewrite E8, Et. intros H. destruct (B5 H); [left; apply elem_of_app|]; auto.
Qed.

(** What [buffer_chunk] changes: a stream that waits for bytes announces them. *)
Lemma buffer_chunk_spec (b : B) addToFront c (s : state) :
  exists ts n e, buffer_chunk b addToFront c s
    = s |> set_length_ (length_ s + len c) |> set_buffer b |> record [put addToFront c] |> set_odd (odd s || ended s)
        |> set_needReadable n |> set_emittedReadable e |> set_ticks (ticks s ++ ts)
    /\ (ts = [TEmitReadable] \/ ts = [] /\ (needReadable s = false \/ emittedReadable s = true)).
Proof.
  unfold buffer_chunk, emitReadable. cbn. destruct (needReadable s) eqn:En; [destruct (emittedReadable s) eqn:Ee|].
  - exists [], false, true. rewrite app_nil_r. split; [|auto]. rewrite <- Ee. by destruct s.
  - exists [TEmitReadable], false, true. split; [by destruct s|auto].
  - exists [], (needReadable s), (emittedReadable s). rewrite app_nil_r. split; [by destruct s|auto].
Qed.

Lemma buffer_chunk_good b addToFront c r s p l :
  base s p -> flows s p -> content s l -> holds b (put_at addToFront c l) -> c <> [] -> endEmitted s = false ->
  length_ s + len c < 2 ^ 32 ->
  base (buffer_chunk b addToFront c (set_reading r s)) p /\ flows (buffer_chunk b addToFront c (set_reading r s)) p.
Proof.
  intros I F [C1 C2 C3 C4 C5] Hb Hc He Hbound.
  assert (0 < len c) as Hpos. { pose proof (len_nonneg c). destruct (Z.eq_dec (len c) 0) as [E%len_0_nil|]; [done|lia]. }
  assert (0 <= length_ s) as Hnn by (rewrite C3; apply len_nonneg).
  assert (len (bytes_of (put_at addToFront c l)) = length_ s + len c) as Hlen.
  { rewrite bytes_of_put. destruct addToFront; rewrite len_app; lia. }
  assert (Forall (fun d => d <> []) (put_at addToFront c l)) as Hne.
  { unfold put_at. destruct addToFront; [by constructor|]. apply Forall_app. split; [done|]. by apply Forall_singleton. }
  pose proof (replay_put addToFront c l _ C4) as Hr.
  destruct (buffer_chunk_spec b addToFront c (set_reading r s)) as (ts & n & e & -> & Hts).
  cbn [needReadable emittedReadable set_reading length_ odd ended ticks] in *. split.
  - apply (base_put s _ p (put_at addToFront c l) addToFront c ts); try done; cbn; try lia.
    + by destruct Hts as [->|[-> _]]; repeat constructor.
    + intros [Ha|(_ & Ha1 & Ha2)]; left; cbn; apply elem_of_app; [by left|]. right.
      destruct Hts as [->|[_ [?|?]]]; [by left|congruence..].
  - intros Hf Hcl Ho. cbn in Hf, Ho. apply orb_false_iff in Ho as [Ho Hen]. left. destruct (F Hf Hcl Ho) as [D|[S1 S2 S3]].
    + unfold driven in *. cbn. rewrite !elem_of_app. tauto.
    + destruct (S2 Hen) as (? & ? & _). right. left. cbn. apply elem_of_app. right. destruct Hts as [->|[_ [?|?]]]; [by left|congruence..].
Qed.

(** A chunk that is emitted at once. *)
Lemma at_once_good addToFront c r s p :
  Forall unread p -> base s p -> flows s p -> clean s -> endEmitted s = false -> length_ s = 0 ->
  let s' := set_reading r s |> set_dataEmitted true |> record [put addToFront c; Taken c] |> tell (Data c) in
  base s' (AddedChunk :: p) /\ flows s' (AddedChunk :: p).
Proof.
  intros U I F [Hc1 Hc2] He El s'. destruct (b_content _ _ I) as [l [C1 C2 C3 C4 C5]].
  assert (l = []) as -> by (apply bytes_of_nonempty; [done|congruence]).
  assert (errorEmitted s = false) as E1. { destruct (errorEmitted s) eqn:E; [|done]. pose proof (b_error _ _ I E). congruence. }
  assert (closeEmitted s = false) as E2. { destruct (closeEmitted s) eqn:E; [|done]. pose proof (b_close _ _ I E). congruence. }
  split.
  - apply (base_add _ _ [_]); [|by repeat constructor]. destruct I as [_ V Hf T B1 B2 B3 B4 B5]. split; try done.
    + exists []. split; try done. cbn. change [put addToFront c; Taken c] with ([put addToFront c] ++ [Taken c]).
      rewrite app_assoc, replay_app, (replay_put _ _ _ _ C4), bytes_of_put. cbn.
      assert ((if addToFront then c ++ [] else c) = c) as -> by (destruct addToFront; by rewrite ?app_nil_r).
      rewrite take_ge, drop_ge by lia. by rewrite bool_decide_true.
    + apply (visible_step s s' [Data c] [put addToFront c; Taken c]); try done.
      * intros _ _. by destruct addToFront.
      * apply Forall_singleton. split_and!; [by intros [?|[?|?]]| |done]. unfold over. rewrite He, E1, E2. by intros _ [?|[?|?]].
    + apply Forall_forall. intros i Hi. rewrite Forall_forall in Hf. rewrite Forall_forall in U.
      apply (fine_grows s s'); [by split|left; by apply U|by apply Hf].
  - intros Hfl Hcl Ho. destruct (F Hfl Hcl Ho) as [D|[S1 S2 S3]].
    + left. unfold driven in *. cbn. rewrite Exists_cons. tauto.
    + right. split; cbn; [done| |done]. intros Ee. destruct (S2 Ee) as (? & ? & _). split_and!; try done. right. right. left. by left.
Qed.

Lemma addChunk_good addToFront c r s p :
  sync s = true \/ Forall unread p -> base s p -> flows s p -> clean s -> endEmitted s = false -> c <> [] ->
  length_ s + len c < 2 ^ 32 -> good (addChunk addToFront c (set_reading r s)) p.
Proof.
  intros Hs I F Hc He Hne Hb. unfold addChunk. destruct (emits_at_once (set_reading r s)) eqn:E.
  - unfold emits_at_once in E. cbn in E. rewrite !andb_true_iff, negb_true_iff, Z.eqb_eq in E. destruct E as [[[_ E1] E2] _].
    apply at_once_good; try done. destruct Hs; [congruence|done].
  - destruct (b_content _ _ I) as [l C]. cbn [buffer set_reading].
    assert (exists b, (if addToFront then Ok (unshift_chunk (buffer s) c) else push_chunk (buffer s) c) = Ok b
      /\ holds b (put_at addToFront c l)) as (b & -> & Hh).
    { destruct addToFront; [eexists; split; [done|apply unshift_holds, C]|apply push_holds, C]. }
    destruct (buffer_chunk_good b addToFront c r s p l) as [I' F']; try done.
    split; [by apply (base_add _ _ [_]); [|repeat constructor]|by apply (flows_add _ _ [_])].
Qed.

Lemma empty_good s p :
  sync s = true \/ Forall unread p -> base s p -> flows s p ->
  good (Go (s |> set_reading false |> set_odd (odd s || sync s) |> maybeReadMore) []) p.
Proof.
  intros Hs I F. cbn [good app]. set (s1 := set_odd _ (set_reading false s)).
  assert (I1 : base s1 p).
  { apply (base_same s s1 p p); [done|by split|by split| |by auto|by auto|apply I|apply I]. destruct Hs as [Hs|]; [right|by left].
    split; cbn; [lia| |done]. intros _. right. right. left. cbn. by rewrite Hs, orb_true_r. }
  split; [by apply base_maybeReadMore|]. intros Hf Hc Ho.
  assert (flowing s = Some true /\ clean s /\ odd s || sync s = false) as (Hf' & Hc' & [Ho' Es]%orb_false_iff).
  { revert Hf Hc Ho. unfold maybeReadMore. by destruct (readingMore s1). }
  destruct Hs as [Hs|U]; [congruence|]. destruct (F Hf' Hc' Ho') as [D|[S1 S2 S3]].
  - left. unfold maybeReadMore. destruct (readingMore s1); [done|]. unfold driven in *. cbn. rewrite !elem_of_app. tauto.
  - right. unfold maybeReadMore. destruct (readingMore s1) eqn:Er; split; cbn; try done.
    + intros Ee. destruct (S2 Ee) as (? & ? & _). split_and!; try done. unfold asked. cbn.
      destruct (b_more _ _ I1 Er) as [|(i & Hi & Hm)%Exists_exists]; [auto|]. rewrite Forall_forall in U. specialize (U i Hi).
      destruct i; try done. auto.
    + intros Ee. destruct (S2 Ee) as (? & ? & _). split_and!; try done. right. left. cbn. apply elem_of_app. right. by left.
    + rewrite elem_of_app. tauto.
Qed.

Lemma eof_good s p : sync s = true \/ Forall unread p -> base s p -> flows s p -> good (onEofChunk (set_reading false s)) p.
Proof.
  intros Hs I F. unfold onEofChunk. cbn [ended sync set_reading set_ended]. destruct (ended s) eqn:Ee.
  - cbn. split.
    + apply (base_same s _ p p); [done|by split|by split|right|by auto|by auto|apply I|apply I]. split; cbn; [lia| |done]. intros _. right. by left.
    + intros Hf Hc Ho. destruct (F Hf Hc Ho) as [|[S1 S2 S3]]; [by left|]. right. split; cbn; try done. congruence.
  - set (s1 := set_ended true (set_reading false s)).
    assert (I1 : base s1 p).
    { apply (base_same s s1 p p); [done|by split|by split|right|by auto|by auto|apply I|apply I]. split; cbn; [lia| |done]. intros _.
      right. by left. }
    destruct (sync s) eqn:Es; cbn [good app].
    + split; [by apply base_emitReadable|]. unfold emitReadable. cbn. destruct (emittedReadable s) eqn:Em; intros Hf Hc Ho; left.
      * destruct (F Hf Hc Ho) as [|[S1 S2 S3]]; [done|]. destruct (S2 Ee) as (_ & ? & _). congruence.
      * right. left. cbn. apply elem_of_app. right. by left.
    + destruct Hs as [?|U]; [congruence|]. split; [|intros _ _ _; left; right; right; by left].
      apply (base_add _ _ [_]); [|by repeat constructor]. by apply (base_unread s1); [..|done].
Qed.

Lemma readableAddChunk_good chunk encoding addToFront s p :
  sync s = true \/ Forall unread p -> base s p -> flows s p -> length_ s + chunk_bytes chunk encoding < 2 ^ 32 ->
  good (readableAddChunk o chunk encoding addToFront s) p
  \/ exists er, readableAddChunk o chunk encoding addToFront s = Raise s er /\ excusable er.
Proof.
  intros Hs I F Hb. unfold readableAddChunk, chunk_bytes in *.
  assert (I' : base s (PushReturns :: p)) by (by apply (base_add _ _ [_]); [|repeat constructor]).
  assert (F' : flows s (PushReturns :: p)) by (by apply (flows_add _ _ [_])).
  assert (Hs' : sync s = true \/ Forall unread (PushReturns :: p)) by (destruct Hs; [by left|right; by constructor]).
  destruct (chunk_arg o chunk encoding) as [[er| |b]|er] eqn:E.
  - left. split; [by apply (base_add _ _ [_]); [|repeat constructor]|by apply (flows_add _ _ [_])].
  - left. apply good_and_then. by apply eof_good.
  - left. destruct (turned_away addToFront b s) eqn:Et.
    + apply (harmless_call s p _ []); [done|done|by apply Forall_nil|by intros [?|[?|?]]|by intros []|done].
    + apply good_and_then. unfold add_bytes. destruct b as [|x b]; [destruct addToFront; [done|by apply empty_good]|].
      unfold turned_away in Et. rewrite (proj2 (Z.eqb_neq _ 0)) in Et by (rewrite len_cons; pose proof (len_nonneg b); lia). cbn [negb andb] in Et.
      assert (Hc : (if addToFront then endEmitted s else ended s) = false -> clean s).
      { intros E0. rewrite E0 in Et. cbn in Et. apply orb_false_iff in Et as [? Et]. split; [done|]. unfold is_errored in Et. by destruct (errored s). }
      destruct addToFront; [destruct (endEmitted s) eqn:E0|destruct (ended s) eqn:E0].
      1,3: split; [by apply (base_add _ _ [_]); [|repeat constructor]|by apply (flows_add _ _ [_])].
      * assert (set_reading (reading s) s = s) as Er by (by destruct s). rewrite <- Er. by apply addChunk_good; auto.
      * apply addChunk_good; auto. destruct (endEmitted s) eqn:E1; [|done]. destruct (b_end _ _ I E1). congruence.
  - right. exists er. split; [done|]. right. unfold chunk_arg in E. destruct chunk as [|t|b|b|v]; try done; [|by destruct v].
    destruct (fromString t _) as [b|er'] eqn:Ef; [done|]. cbn in E. injection E as <-. by eexists _, _.
Qed.

(** ** The stack *)

Definition quiet_out (s : state) (x : out) : Prop :=
  match x with
  | Go s' l => konts s' = konts s /\ sync s' = sync s /\ Forall quiet l
  | Call s' c l => konts s' = konts s /\ sync s' = sync s /\ Forall quiet l /\ c = InProgram
  | Raise s' _ => s' = s
  end.

Definition starts_read (c : context) (s' : state) (l : list instr) : Prop :=
  match c with
  | InProgram => Forall unread l
  | InRead => sync s' = true /\ exists nOrig n w l', l = ReadAfter nOrig n w :: l' /\ Forall unread l'
  end.

Definition unread_out (s : state) (x : out) : Prop :=
  match x with
  | Go s' l => konts s' = konts s /\ Forall unread l
  | Call s' c l => konts s' = konts s /\ starts_read c s' l
  | Raise s' _ => konts s' = konts s
  end.

Lemma quiet_unread l : Forall quiet l -> Forall unread l.
Proof. intros H. eapply Forall_impl; [exact H|]. by intros []. Qed.

Lemma quiet_out_unread s x : quiet_out s x -> unread_out s x.
Proof.
  destruct x as [s' l|s' c l|s' er]; cbn; [| |by intros ->].
  - intros (? & ? & ?). split; [done|]. by apply quiet_unread.
  - intros (? & ? & ? & ->). split; [done|]. by apply quiet_unread.
Qed.

Ltac shape := repeat case_match; simplify_eq/=; split_and?; try done; repeat constructor; try done.

Lemma readReturn_unread nOrig ret w s s0 : konts s = konts s0 -> unread_out s0 (readReturn nOrig ret w s).
Proof. intros E. unfold readReturn. shape. Qed.

Lemma endReadable_konts (s : state) : konts (endReadable s) = konts s.
Proof. unfold endReadable. by destruct (endEmitted s). Qed.
Lemma emitReadable_konts (s : state) : konts (emitReadable s) = konts s.
Proof. unfold emitReadable. cbn. by destruct (emittedReadable s). Qed.

Lemma readTake_unread nOrig n w s s0 : konts s = konts s0 -> unread_out s0 (readTake nOrig n w s).
Proof.
  intros E. unfold readTake. destruct (if 0 <? n then fromList n s else _) as [[b [ret|]]|er]; [| |done].
  - unfold readBytes. destruct (take_bytes_spec nOrig n b ret s) as (ts & v & -> & _). destruct (_ && _); [|by apply readReturn_unread].
    cbn. split; [done|]. by repeat constructor.
  - unfold readNothing. apply readReturn_unread. destruct (_ && ended _); by rewrite ?endReadable_konts.
Qed.

Lemma readAsk_unread nOrig n w s s0 : konts s = konts s0 -> unread_out s0 (readAsk nOrig n w s).
Proof.
  intros E. unfold readAsk. destruct (_ || negb _); [by apply readTake_unread|]. cbn. split_and!; try done. by exists nOrig, n, w, [].
Qed.

Lemma readAfter_unread nOrig n w s s0 : konts s = konts s0 -> unread_out s0 (readAfter nOrig n w s).
Proof. intros E. unfold readAfter. destruct (if reading _ then _ else _); [by apply readTake_unread|done]. Qed.

Lemma read_unread n w s s0 : konts s = konts s0 -> unread_out s0 (read n w s).
Proof.
  intros E. unfold read. destruct (newHighWaterMark n s) as [hwm|]; [|done]. set (s1 := set_emittedReadable _ _).
  assert (konts s1 = konts s0) as E1 by done. clearbody s1. destruct (announces n s1).
  - apply readReturn_unread. destruct (_ && _); by rewrite ?endReadable_konts, ?emitReadable_konts.
  - destruct (howMuchToRead n s1) as [m|]; [|done]. destruct (_ && _); [|by apply readAsk_unread].
    apply readReturn_unread. destruct (_ =? _); by rewrite ?endReadable_konts.
Qed.

Lemma and_then_unread s x l : unread_out s x -> Forall unread l -> unread_out s (and_then x l).
Proof.
  destruct x as [s' l'|s' c l'|s' er]; cbn; [| |done]; intros [E H] Hl; (split; [done|]).
  - by apply Forall_app.
  - destruct c; cbn in *; [|by apply Forall_app]. destruct H as (? & nOrig & n & w & l1 & -> & H). split; [done|].
    exists nOrig, n, w, (l1 ++ l). split; [done|]. by apply Forall_app.
Qed.

Lemma destroy_quiet er c s : quiet_out s (destroy er c s).
Proof.
  unfold destroy. destruct (destroyed s); [shape|]. cbn. destruct (checkError_cases er s) as [->|(e & _ & _ & ->)]; shape.
Qed.

Lemma errorOrDestroy_quiet er s : quiet_out s (errorOrDestroy o er s).
Proof.
  unfold errorOrDestroy. destruct (destroyed s); [shape|]. destruct (autoDestroy o); [shape|].
  destruct (checkError_cases (Some er) s) as [->|(e & _ & _ & ->)]; shape.
Qed.

Lemma onDestroy_quiet er s : quiet_out s (onDestroy er s).
Proof.
  unfold onDestroy. destruct (destroy_called s); [shape|].
  destruct (checkError_cases er (set_destroy_called true s)) as [->|(e & _ & _ & ->)]; shape.
Qed.

Lemma maybeReadMore_alike (s : state) : konts (maybeReadMore s) = konts s /\ sync (maybeReadMore s) = sync s.
Proof. unfold maybeReadMore. by destruct (readingMore s). Qed.

Lemma run_instr_quiet i s : quiet i -> quiet_out s (run_instr o i s).
Proof.
  destruct i; try done; intros _; cbn [run_instr].
  - destruct (maybeReadMore_alike s). split_and!; [done|done|by apply Forall_nil].
  - unfold endDestroy. shape.
  - apply destroy_quiet.
  - apply errorOrDestroy_quiet.
  - unfold emitErrorNT. shape.
  - unfold emitCloseNT. shape.
Qed.

Lemma run_instr_unread i s : unread_out s (run_instr o i s).
Proof.
  destruct i; try (apply quiet_out_unread, run_instr_quiet; exact Logic.I); cbn [run_instr].
  - by apply readAfter_unread.
  - by apply readReturn_unread.
  - unfold flow. destruct (is_flowing s); [by apply read_unread|shape].
  - unfold emitReadable_. shape.
  - shape.
  - shape.
  - unfold maybeReadMore_. destruct (_ && _); [by apply read_unread|shape].
  - shape.
  - unfold resumeEnd. destruct (_ && _); [by apply read_unread|shape].
Qed.

Lemma resume_alike (s : state) : konts (resume s) = konts s /\ sync (resume s) = sync s.
Proof. unfold resume, schedule_resume. destruct (is_flowing s); [done|]. cbn. by destruct (resumeScheduled s). Qed.

Lemma run_tick_unread t s : unread_out s (run_tick o t s).
Proof.
  destruct t; cbn [run_tick].
  - unfold emitReadable_. shape.
  - unfold maybeReadMore_. destruct (_ && _); [by apply read_unread|shape].
  - unfold resume_. apply and_then_unread; [|by repeat constructor]. destruct (reading s); [shape|by apply read_unread].
  - unfold endReadableNT. shape.
  - by apply read_unread.
  - unfold updateReadableListening. set (s1 := set_readableListening _ s). cbn [unread_out]. split; [|done].
    destruct (_ && _); [done|]. destruct (0 <? dataListeners s1)%nat; [apply (resume_alike s1)|by destruct (readableListening s1)].
  - shape.
  - unfold emitCloseNT. shape.
Qed.

Lemma emitReadable_sync (s : state) : sync (emitReadable s) = sync s.
Proof. unfold emitReadable. cbn. by destruct (emittedReadable s). Qed.

Lemma buffer_chunk_alike (b : B) addToFront c s :
  konts (buffer_chunk b addToFront c s) = konts s /\ sync (buffer_chunk b addToFront c s) = sync s.
Proof. by destruct (buffer_chunk_spec b addToFront c s) as (ts & n & e & -> & _). Qed.

(** The same, but for what is thrown. *)
Definition calm_out (s : state) (x : out) : Prop := match x with Raise _ _ => True | _ => quiet_out s x end.

Lemma quiet_calm s x : quiet_out s x -> calm_out s x.
Proof. by destruct x. Qed.

Lemma and_then_calm s x l : calm_out s x -> Forall quiet l -> calm_out s (and_then x l).
Proof. destruct x; cbn; try done; intros; destruct_and?; split_and!; try done; by apply Forall_app. Qed.

Lemma addChunk_calm addToFront c s s0 : konts s = konts s0 -> sync s = sync s0 -> calm_out s0 (addChunk addToFront c s).
Proof.
  intros E1 E2. unfold addChunk. destruct (emits_at_once _); [by cbn; split_and!; [..|repeat constructor|]|].
  destruct (if addToFront then _ else _) as [b|]; [|done]. destruct (buffer_chunk_alike b addToFront c s) as [E3 E4].
  cbn. rewrite E3, E4. split_and!; [done|done|by repeat constructor].
Qed.

Lemma readableAddChunk_calm chunk encoding addToFront s :
  sync s = true -> calm_out s (readableAddChunk o chunk encoding addToFront s).
Proof.
  intros Hs. unfold readableAddChunk. destruct (chunk_arg o chunk encoding) as [[er| |b]|er]; [shape| | |done].
  - apply and_then_calm; [|by repeat constructor]. unfold onEofChunk. cbn [ended sync set_reading set_ended]. rewrite Hs.
    destruct (ended s); [shape|]. cbn [calm_out quiet_out]. by rewrite emitReadable_konts, emitReadable_sync.
  - destruct (turned_away addToFront b s); [shape|]. apply and_then_calm; [|by repeat constructor]. unfold add_bytes.
    destruct b as [|x b]; [destruct addToFront; [shape|]|].
    + set (s1 := set_odd _ _). destruct (maybeReadMore_alike s1) as [E1 E2]. by cbn [calm_out quiet_out]; rewrite E1, E2.
    + destruct addToFront; [destruct (endEmitted s)|destruct (ended s)]; try shape; by apply addChunk_calm.
Qed.

Definition tame_out (s : state) (x : out) : Prop := match x with Raise _ _ => True | _ => unread_out s x end.

Lemma calm_tame s x : calm_out s x -> tame_out s x.
Proof. destruct x; [apply (quiet_out_unread s (Go _ _))|apply (quiet_out_unread s (Call _ _ _))|done]. Qed.

Lemma readableAddChunk_tame chunk encoding addToFront s : tame_out s (readableAddChunk o chunk encoding addToFront s).
Proof.
  destruct (sync s) eqn:Es; [by apply calm_tame, readableAddChunk_calm|].
  unfold readableAddChunk. destruct (chunk_arg o chunk encoding) as [[er| |b]|er] eqn:E; [by repeat constructor| | |done].
  - unfold onEofChunk. cbn [ended sync set_reading set_ended]. rewrite Es. destruct (ended s); cbn; (split; [done|]); by repeat constructor.
  - apply calm_tame. destruct (turned_away addToFront b s); [shape|]. apply and_then_calm; [|by repeat constructor]. unfold add_bytes.
    destruct b as [|x b]; [destruct addToFront; [shape|]|].
    + set (s1 := set_odd _ _). destruct (maybeReadMore_alike s1) as [E1 E2]. by cbn [calm_out quiet_out]; rewrite E1, E2.
    + destruct addToFront; [destruct (endEmitted s)|destruct (ended s)]; try shape; by apply addChunk_calm.
Qed.

(** The actions but for returning and ticks. *)
Definition action_out (a : action) (s : state) : option out :=
  match a with
  | ARead n => Some (read n ToProgram s)
  | APush chunk encoding => Some (readableAddChunk o chunk encoding false s)
  | AUnshift chunk encoding => Some (readableAddChunk o chunk encoding true s)
  | AOnData => Some (on_data s)
  | AOnReadable => Some (on_readable s)
  | ARemoveData found => Some (remove_data found s)
  | ARemoveReadable found => Some (remove_readable found s)
  | ARemoveAllData => Some (removeAllListeners_data s)
  | ARemoveAllReadable => Some (removeAllListeners_readable s)
  | ARemoveAll => Some (removeAllListeners s)
  | AResume => Some (Go (resume s) [])
  | APause => Some (pause s)
  | ADestroy er c => Some (destroy er c s)
  | AOnDestroy er => if destroyed s then Some (onDestroy er s) else None
  | AReturn | ATick => None
  end.

Lemma perform_action a s :
  a <> AReturn -> a <> ATick -> perform o a s = (fun x => settle x []) <$> action_out a s.
Proof. by destruct a; cbn; try done; destruct (destroyed s). Qed.

Lemma on_readable_good s p : base s p -> flows s p -> good (on_readable s) p.
Proof.
  intros I F. unfold on_readable. set (s1 := set_readableListeners _ s).
  assert (I1 : base s1 p) by (by apply (base_alike s)). assert (F1 : flows s1 p) by (by apply (flows_alike s)).
  destruct (_ || _); [done|]. set (s2 := set_emittedReadable false _). cbn [good app].
  assert (I2 : length_ s2 = 0 -> base s2 p).
  { intros El. apply (base_same s1 s2 p p); [done|by split|by split|right|by auto|by auto|apply I1|apply I1]. split; cbn; [lia|done|].
    intros _. right. done. }
  destruct (Z.eqb_spec (length_ s2) 0) as [El|El]; cbn [negb].
  - destruct (reading s2); [by split; [auto|apply flows_off]|]. split; [by apply base_tick; [auto|]|]. by apply flows_tick, flows_off.
  - split; [|by apply flows_off; unfold emitReadable]. unfold emitReadable. cbn.
    apply (base_same s1 _ p p); [done|by split|by split|right|by auto| | |].
    + split; cbn; [lia|done|]. intros _. left. cbn. apply elem_of_app. right. by left.
    + intros t. cbn. rewrite elem_of_app. intros [|Hi]; [auto|]. apply list_elem_of_singleton in Hi as ->. by right.
    + cbn. intros H. destruct (b_resume _ _ I1 H); [left; apply elem_of_app|]; auto.
    + cbn. intros H. destruct (b_more _ _ I1 H); [left; apply elem_of_app|]; auto.
Qed.

Lemma action_good a s p x :
  sync s = true \/ Forall unread p -> (forall n, a = ARead n -> Forall unread p) -> no_nested_read a s = true -> action_out a s = Some x ->
  base s p -> flows s p -> good x p \/ exists er, x = Raise s er /\ excusable er.
Proof.
  intros Hs Hr Ha E I F.
  assert (T : forall t s', fine_tick s' t -> base s' p -> flows s' p -> base (nextTick t s') p /\ flows (nextTick t s') p).
  { intros t s' Ht I' F'. split; [by apply base_tick|by apply flows_tick]. }
  destruct a; cbn [action_out] in E; try done; try injection E as <-.
  - specialize (Hr _ eq_refl). destruct (read_spec n ToProgram s p Hr I Logic.I (fun _ => F)) as [|[_ ?]]; auto.
  - apply readableAddChunk_good; try done. by apply Z.ltb_lt.
  - apply readableAddChunk_good; try done. by apply Z.ltb_lt.
  - left. unfold on_data. set (s1 := set_readableListening _ _). cbn [good app].
    assert (base s1 p /\ flows s1 p) as [? ?] by (split; [by apply (base_alike s)|by apply (flows_alike s)]).
    destruct (bool_decide _); [done|by apply resume_good].
  - left. by apply on_readable_good.
  - left. split; [by apply (base_alike s)|by apply (flows_alike s)].
  - left. apply T; [done|by apply (base_alike s)|by apply (flows_alike s)].
  - left. split; [by apply (base_alike s)|by apply (flows_alike s)].
  - left. apply T; [done|by apply (base_alike s)|by apply (flows_alike s)].
  - left. apply T; [done|by apply (base_alike s)|by apply (flows_alike s)].
  - left. by apply resume_good.
  - left. unfold pause. destruct (bool_decide _).
    + split; [by apply (base_add _ _ [_]); [|repeat constructor]|by apply (flows_add _ _ [_])].
    + apply (harmless_call _ p _ [_]); [by apply (base_alike s)|by apply flows_off|by repeat constructor|by intros [?|[?|?]]|by cbn|done].
  - left. by apply destroy_good.
  - left. destruct (destroyed s) eqn:Ed; [|done]. injection E as <-. by apply onDestroy_good.
Qed.

Lemma on_readable_quiet s : quiet_out s (on_readable s).
Proof.
  unfold on_readable. set (s1 := set_readableListeners _ s). destruct (_ || _); [shape|]. set (s2 := set_emittedReadable false _).
  cbn [quiet_out]. destruct (negb _); [by rewrite emitReadable_konts, emitReadable_sync|by destruct (reading s2)].
Qed.

Lemma on_data_quiet s : quiet_out s (on_data s).
Proof.
  unfold on_data. set (s1 := set_readableListening _ _). destruct (resume_alike s1) as [E1 E2]. cbn [quiet_out].
  destruct (bool_decide _); [shape|]. by rewrite E1, E2.
Qed.

Lemma pause_quiet s : quiet_out s (pause s).
Proof. unfold pause. destruct (bool_decide _); shape. Qed.

Lemma action_calm a s x : action_out a s = Some x -> (forall n, a <> ARead n) -> sync s = true -> calm_out s x.
Proof.
  intros E Hr Hs. destruct a; cbn [action_out] in E; try done; try injection E as <-; try (by cbn).
  - by destruct (Hr n).
  - by apply readableAddChunk_calm.
  - by apply readableAddChunk_calm.
  - apply quiet_calm, on_data_quiet.
  - apply quiet_calm, on_readable_quiet.
  - destruct (resume_alike s). shape.
  - apply quiet_calm, pause_quiet.
  - apply quiet_calm, destroy_quiet.
  - destruct (destroyed s); [|done]. injection E as <-. apply quiet_calm, onDestroy_quiet.
Qed.

Lemma action_tame a s x : action_out a s = Some x -> tame_out s x.
Proof.
  intros E. destruct a; cbn [action_out] in E; try done; try injection E as <-; try (by cbn).
  - pose proof (read_unread n ToProgram s s eq_refl) as H. by destruct (read n ToProgram s).
  - apply readableAddChunk_tame.
  - apply readableAddChunk_tame.
  - apply calm_tame, quiet_calm, on_data_quiet.
  - apply calm_tame, quiet_calm, on_readable_quiet.
  - destruct (resume_alike s). shape.
  - apply calm_tame, quiet_calm, pause_quiet.
  - apply calm_tame, quiet_calm, destroy_quiet.
  - destruct (destroyed s); [|done]. injection E as <-. apply calm_tame, quiet_calm, onDestroy_quiet.
Qed.

(** ** The invariant *)

(** Where the stream is when an instruction runs, with [k] left after it. *)
Inductive place (s : state) (k : list instr) (x : out) : Prop :=
| place_plain : Forall plain (konts s) -> Forall unread k -> tame_out s x -> place s k x
| place_read qs nOrig n w l rest :
    konts s = qs ++ (InRead, ReadAfter nOrig n w :: l) :: rest -> sync s = true ->
    Forall calm qs -> Forall quiet k -> Forall unread l -> Forall plain rest -> calm_out s x -> place s k x.

Definition left_ (m : mode) : list instr := match m with Stream k => k | Program => [] end.

Lemma tail_unread l : Forall unread l -> Forall unread (tail l).
Proof. destruct l; [done|]. by intros [_ ?]%Forall_cons. Qed.

Lemma settle_go s s' l k : place s k (Go s' l) -> good (Go s' l) (pending s k) -> inv s' (l ++ k).
Proof.
  intros P [I F]. assert (E : konts s' = konts s) by (destruct P as [_ _ [? _]|? ? ? ? ? ? _ _ _ _ _ _ (? & _)]; done).
  assert (l ++ pending s k = pending s' (l ++ k)) as Ep by (unfold pending; by rewrite E, app_assoc).
  rewrite Ep in I, F. split; [done|done|]. destruct P as [P1 P2 [_ P3]|qs nOrig n w l' rest P1 P2 P3 P4 P5 P6 (_ & P7 & P8)].
  - apply stacked_plain; [by rewrite E|]. apply tail_unread. by apply Forall_app.
  - apply (stacked_read _ _ qs nOrig n w l' rest); try done; [by rewrite E|by rewrite P7|by apply Forall_app].
Qed.

Lemma settle_call s s' c l k :
  place s k (Call s' c l) -> good (Call s' c l) (pending s k) -> inv (set_konts ((c, l ++ k) :: konts s') s') [].
Proof.
  intros P [I F]. assert (E : konts s' = konts s) by (destruct P as [_ _ [? _]|? ? ? ? ? ? _ _ _ _ _ _ (? & _)]; done).
  set (s2 := set_konts _ s').
  assert (l ++ pending s k = pending s2 []) as Ep by (unfold pending; cbn; by rewrite E, app_assoc).
  rewrite Ep in I, F. split; [by apply (base_alike s')|by apply (flows_alike s')|].
  destruct P as [P1 P2 [_ P3]|qs nOrig n w l' rest P1 P2 P3 P4 P5 P6 (_ & P7 & P8 & ->)].
  - destruct c; cbn in P3.
    + destruct P3 as (Hs & nOrig & n & w & l' & -> & P3). apply (stacked_read _ _ [] nOrig n w (l' ++ k) (konts s)); try done; [cbn; by rewrite E|].
      by apply Forall_app.
    + apply stacked_plain; [|done]. cbn. rewrite E. constructor; [|done]. split; [done|]. by apply Forall_app.
  - apply (stacked_read _ _ ((InProgram, l ++ k) :: qs) nOrig n w l' rest); try done; [cbn; by rewrite E, P1|cbn; by rewrite P7|].
    constructor; [|done]. split; [done|]. by apply Forall_app.
Qed.

Lemma read_inv_new hwm : inv (ReadableState hwm) [].
Proof.
  split.
  - split; try done; [|split; try done|by apply Forall_nil..].
    + exists []. split; try done. apply new_holds.
    + by intros ?%Exists_nil.
    + intros [|] ? ?; done.
    + intros er H. by apply not_elem_of_nil in H.
    + intros n ret H. by apply not_elem_of_nil in H.
  - by apply flows_off.
  - by apply stacked_plain.
Qed.

Lemma plain_pending s k : Forall plain (konts s) -> Forall unread k -> Forall unread (pending s k).
Proof.
  intros P Hk. apply Forall_app. split; [done|]. apply Forall_forall. intros x Hx.
  apply list_elem_of_join in Hx as (l & Hx & Hl). apply list_elem_of_fmap in Hl as (f & -> & Hf).
  rewrite Forall_forall in P. destruct (P f Hf) as [_ Hu]. rewrite Forall_forall in Hu. by apply Hu.
Qed.

Lemma place_instr s i k : stacked s (i :: k) -> place s k (run_instr o i s) /\ (quiet i \/ Forall unread (pending s k)).
Proof.
  assert (T : tame_out s (run_instr o i s)) by (pose proof (run_instr_unread i s) as H; by destruct (run_instr o i s)).
  intros [P1 P2|qs nOrig n w l rest P1 P2 P3 P4 P5 P6].
  - split; [by apply place_plain|]. right. by apply plain_pending.
  - apply Forall_cons in P4 as [P4 P4']. split; [|by left]. eapply place_read; try done. by apply quiet_calm, run_instr_quiet.
Qed.

Lemma read_inv_stream s k s' m : inv s k -> advance o s k = (s', m) -> inv s' (left_ m).
Proof.
  intros [I F S] E. destruct k as [|i k]; cbn [advance] in E.
  { by injection E as <- <-. }
  destruct (place_instr _ _ _ S) as [P U]. pose proof (run_instr_good i s (pending s k) U I F) as G.
  destruct (run_instr o i s) as [s1 l|s1 c l|s1 er]; cbn in E; [| |done]; injection E as <- <-.
  - by eapply settle_go.
  - by eapply settle_call.
Qed.

Lemma in_read_plain s : in_read s = false -> stacked s [] -> Forall plain (konts s).
Proof.
  intros H [|qs nOrig n w l rest P1 _ _ _ _ _]; [done|]. unfold in_read in H. rewrite P1, existsb_app in H. cbn in H.
  by rewrite orb_true_r in H.
Qed.

Lemma read_inv_action a s x s' m :
  inv s [] -> no_nested_read a s = true -> action_out a s = Some x -> settle x [] = (s', m) -> inv s' (left_ m).
Proof.
  intros [I F S] Ha Ex E.
  assert (P : place s [] x).
  { destruct S as [P1 P2|qs nOrig n w l rest P1 P2 P3 P4 P5 P6]; [apply place_plain; [done|done|by eapply action_tame]|].
    eapply place_read; try done. eapply action_calm; try done. intros n' ->. cbn in Ha. unfold in_read in Ha.
    rewrite P1, existsb_app in Ha. cbn in Ha. by rewrite orb_true_r in Ha. }
  destruct (action_good a s (pending s []) x) as [G|(er & -> & He)]; try done.
  - destruct S as [P1 P2|]; [right; by apply plain_pending|by left].
  - intros n ->. cbn in Ha. apply plain_pending; [|done]. apply in_read_plain; [by apply negb_true_iff|done].
  - destruct x as [s1 l|s1 c l|s1 er]; cbn in E; [| |done]; injection E as <- <-; [by eapply settle_go|by eapply settle_call].
  - cbn in E. injection E as <- <-. split; [|by apply flows_tell|].
    + by apply base_tell; [|intros [?|[?|?]]|cbn|].
    + destruct S; [by apply stacked_plain|by eapply stacked_read].
Qed.

Lemma read_inv_return s c k l : inv s [] -> konts s = (c, k) :: l -> inv (set_konts l s) k.
Proof.
  intros [I F S] E. assert (pending s [] = pending (set_konts l s) k) as Ep by (unfold pending; cbn; by rewrite E).
  rewrite Ep in I, F. split; [by apply (base_alike s)|by apply (flows_alike s)|].
  destruct S as [P1 P2|qs nOrig n w l' rest P1 P2 P3 P4 P5 P6].
  - rewrite E in P1. apply Forall_cons in P1 as [[_ P1] P1']. apply stacked_plain; [done|]. by apply tail_unread.
  - rewrite E in P1. destruct qs as [|q qs].
    + injection P1 as -> -> ->. by apply stacked_plain.
    + injection P1 as <- ->. apply Forall_cons in P3 as [[_ P3] P3']. by apply (stacked_read _ _ qs nOrig n w l' rest).
Qed.

Lemma read_inv_tick s t l s' m :
  inv s [] -> konts s = [] -> ticks s = t :: l -> settle (run_tick o t (set_ticks l s)) [] = (s', m) -> inv s' (left_ m).
Proof.
  intros [I F S] Ek Et E. assert (pending s [] = []) as Ep by (unfold pending; by rewrite Ek). rewrite Ep in I, F.
  pose proof (run_tick_good s t l I F Et) as G. pose proof (run_tick_unread t (set_ticks l s)) as U.
  assert (P : place (set_ticks l s) [] (run_tick o t (set_ticks l s))).
  { apply place_plain; [cbn; by rewrite Ek|done|]. by destruct (run_tick o t (set_ticks l s)). }
  assert (Ep' : pending (set_ticks l s) [] = []) by (unfold pending; cbn; by rewrite Ek).
  destruct (run_tick o t (set_ticks l s)) as [s1 l1|s1 c l1|s1 er]; cbn in E; [| |done]; injection E as <- <-.
  - eapply settle_go; [exact P|]. by rewrite Ep'.
  - eapply settle_call; [exact P|]. by rewrite Ep'.
Qed.

Theorem read_inv_reachable hwm s m : reachable hwm s m -> inv s (left_ m).
Proof.
  induction 1 as [|s k s' m _ IH E|s a s' m _ IH Ha E].
  - apply read_inv_new.
  - by eapply read_inv_stream.
  - assert (a = AReturn \/ a = ATick \/ a <> AReturn /\ a <> ATick) as [->|[->|[H1 H2]]] by (by destruct a; auto).
    + cbn in E. destruct (konts s) as [|[c k] l] eqn:Ek; [done|]. injection E as <- <-. by eapply read_inv_return.
    + cbn in E. destruct (konts s) eqn:Ek; [|done]. destruct (ticks s) as [|t l] eqn:Et; [done|]. injection E as E. by eapply read_inv_tick.
    + rewrite perform_action in E by done. destruct (action_out a s) as [x|] eqn:Ex; [|done]. injection E as E. by eapply read_inv_action.
Qed.

End Inv.
