(* ===== verification/ReadableRuns.v ===== *)
(** * What readable streams do

    The theorems about runs of the machine of [Readable], and runs of examples. *)

From stdpp Require Import sets.
From S2P Require Import Prelude Bytes Codecs WebText WebModel BufferText StreamBase BufferList ReadableState Readable ReadableInv.

Section Runs.
Context `{Web : !WebText} {B : Type} `{CL : !ChunkList B} `{!ChunkListOk B}.
Context (o : options).
#[local] Abbreviation state := (ReadableState.state (B := B)).
#[local] Abbreviation out := (Readable.out (B := B)).

(** ** The bytes *)

Definition pushed (l : list move) : list Z := bytes_of (omap (fun m => match m with Pushed b => Some b | _ => None end) l).
Definition forward (m : move) : Prop := match m with PutBack _ => False | _ => True end.

Lemma bytes_of_snoc l b : bytes_of (l ++ [b]) = bytes_of l ++ b.
Proof. exact (bytes_of_put false b l). Qed.

(** Without chunks that are put back: what was pushed is what was taken and what
    is left. *)
Lemma replay_forward l c : Forall forward l -> replay l = Some c -> pushed l = bytes_of (taken l) ++ c.
Proof.
  revert c. induction l as [|m l IH] using rev_ind; intros c Hf H; [by injection H as <-|].
  apply Forall_app in Hf as [Hf Hm%Forall_inv]. rewrite replay_app in H. cbn in H.
  destruct (replay l) as [d|]; [|by destruct m]. specialize (IH d Hf eq_refl). unfold pushed, taken in *. rewrite !omap_app.
  destruct m as [b|b|b]; cbn in *.
  - injection H as <-. by rewrite app_nil_r, bytes_of_snoc, IH, <- app_assoc.
  - done.
  - destruct (bool_decide_reflect (take (length b) d = b)) as [E|]; [|done]. injection H as <-.
    rewrite app_nil_r, bytes_of_snoc, IH, <- app_assoc. f_equal. rewrite <- (take_drop (length b) d) at 1. by rewrite E.
Qed.

(** C18: In every run in which [read] is not called while a call of [_read] is on
    the stack, and in which the buffer stays under 2^32 bytes: a readable
    stream keeps the bytes: what is in its buffer is what its
    history says, pushed at the end, put back at the front and taken from
    there, and [length] says how much that is.  Until 'error' or 'close' the
    chunks of 'data' are what was taken.  So if nothing was put back, the
    bytes that came in are those of 'data' and those still in the buffer, in
    order; after 'end' there are none in the buffer. *)
Theorem bytes_in_order hwm s m :
  reachable o hwm s m -> exists rest, replay (history s) = Some rest /\ length_ s = len rest
    /\ (endEmitted s = true -> rest = [])
    /\ (errorEmitted s = false -> closeEmitted s = false -> data_of (log s) = taken (history s)
        /\ (Forall forward (history s) -> pushed (history s) = bytes_of (data_of (log s)) ++ rest)).
Proof.
  intros R. destruct (i_base _ _ (read_inv_reachable o _ _ _ R)) as [[l C] V _ _ E _ _ _ _].
  exists (bytes_of l). pose proof (c_replay _ _ C) as Hr. pose proof (c_length _ _ C) as Hl. split_and!; [done|done| |].
  - intros H. destruct (E H). by apply len_0_nil; congruence.
  - intros H1 H2. pose proof (v_data _ V H1 H2) as Hd. split; [done|]. intros Hf. rewrite Hd. by apply replay_forward.
Qed.

(** C20: In every run in which [read] is not called while a call of [_read] is on
    the stack, and in which the buffer stays under 2^32 bytes: after
    'end', 'error' or 'close' a readable stream emits neither 'data'
    nor 'end'; and 'end' is not emitted before the source ended and every byte
    was taken. *)
Theorem nothing_after_the_end hwm s m :
  reachable o hwm s m ->
  (forall before e after, log s = before ++ e :: after -> last_words e -> Forall (fun e => ~ comes_before e) after)
  /\ (endEmitted s = true -> ended s = true /\ length_ s = 0).
Proof. intros R. destruct (i_base _ _ (read_inv_reachable o _ _ _ R)) as [_ V _ _ E _ _ _ _]. split; [apply V|done]. Qed.


(** ** The stream returns *)

(** Steps of the stream until the program is called. *)
Fixpoint run (n : nat) (p : state * mode) : state * mode :=
  match n, p with
  | S n, (s, Stream k) => run n (advance o s k)
  | _, _ => p
  end.

(** A bound for the steps that an instruction leads to, apart from the bytes it
    takes. *)
Definition step_cost (i : instr) : nat :=
  match i with
  | EndDestroy | ErrorOrDestroy _ | EmitReadable_ | EmittedReadable => 3
  | ReadAfter _ _ _ | ReadDone _ _ _ | AfterReadable | Destroy _ _ => 2
  | _ => 1
  end.

Definition steps_cost (l : list instr) : nat := foldr (fun i n => (step_cost i + n)%nat) O l.
Definition bound_of (s : state) (k : list instr) : nat := (10 * Z.to_nat (length_ s) + steps_cost k)%nat.

Lemma steps_cost_app l l' : steps_cost (l ++ l') = (steps_cost l + steps_cost l')%nat.
Proof. unfold steps_cost. induction l as [|i l IH]; [done|]. cbn. rewrite IH. lia. Qed.

(** What a read leads to: nothing more, another round of [maybeReadMore_] when the
    length changed, or one more step after bytes were taken. *)
Definition read_on (w : whence) (s : state) (x : out) : Prop :=
  match x with
  | Go s' l =>
      length_ s' = length_ s /\ (l = [] \/ exists n, w = ToMore n /\ n <> length_ s /\ l = [MoreLoop])
      \/ 0 <= length_ s' < length_ s /\ (steps_cost l <= 1)%nat
  | _ => True
  end.

Lemma readReturn_on nOrig ret w s s0 :
  (ret = None -> length_ s = length_ s0) -> (ret <> None -> 0 <= length_ s < length_ s0) -> read_on w s0 (readReturn nOrig ret w s).
Proof.
  intros H1 H2. unfold readReturn. destruct w as [| |n|], ret as [ret|]; cbn.
  all: try (left; split; [by apply H1|by left]).
  all: try (right; split; [by apply H2|cbn; lia]).
  - destruct (n =? length_ s); right; (split; [by apply H2|cbn; lia]).
  - destruct (Z.eqb_spec n (length_ s)) as [E|E]; left; (split; [by apply H1|]); [by left|right]. exists n. by rewrite <- (H1 eq_refl).
Qed.

Lemma endReadable_length (s : state) : length_ (endReadable s) = length_ s.
Proof. unfold endReadable. by destruct (endEmitted s). Qed.
Lemma emitReadable_length (s : state) : length_ (emitReadable s) = length_ s.
Proof. unfold emitReadable. cbn. by destruct (emittedReadable s). Qed.

Lemma readTake_on nOrig n w s s0 l :
  content s l -> n <= length_ s -> length_ s = length_ s0 -> read_on w s0 (readTake nOrig n w s).
Proof.
  intros C Hn El. unfold readTake. destruct (Z.ltb_spec 0 n) as [Hp|Hp].
  - destruct (fromList_spec s l n C) as (b & ret & l' & -> & _ & _); [lia|]. unfold readBytes.
    destruct (take_bytes_spec nOrig n b ret s) as (ts & v & -> & _). destruct (_ && _); [done|]. apply readReturn_on; [done|]. cbn. lia.
  - unfold readNothing. apply readReturn_on; [|done]. intros _. destruct (_ && ended _); by rewrite ?endReadable_length.
Qed.

Lemma readAsk_on nOrig n w s s0 l :
  content s l -> n <= length_ s -> length_ s = length_ s0 -> read_on w s0 (readAsk nOrig n w s).
Proof. intros C Hn El. unfold readAsk. destruct (_ || negb _); [by eapply readTake_on|done]. Qed.

Lemma content_alike s s' l :
  content s l -> buffer s' = buffer s -> length_ s' = length_ s -> history s' = history s -> content s' l.
Proof. intros [? ? ? ? ?] E1 E2 E3. split; congruence. Qed.

Lemma read_go_on n w s l : content s l -> read_on w s (read n w s).
Proof.
  intros C. unfold read. destruct (newHighWaterMark n s) as [hwm|]; [|done]. set (s1 := set_emittedReadable _ _).
  assert (length_ s1 = length_ s) as El by done. assert (content s1 l) as C1 by (by apply (content_alike s)). clearbody s1.
  destruct (announces n s1).
  - apply readReturn_on; [|done]. intros _. destruct (_ && _); by rewrite ?endReadable_length, ?emitReadable_length.
  - destruct (howMuch_fits s1 l n C1) as (m & -> & [Hm _] & _). destruct (_ && _); [|by eapply readAsk_on; [done|lia|]].
    apply readReturn_on; [|done]. intros _. destruct (_ =? _); by rewrite ?endReadable_length.
Qed.

Definition cheaper (s : state) (i : instr) (x : out) : Prop :=
  match x with
  | Go s' l => (10 * Z.to_nat (length_ s') + steps_cost l < 10 * Z.to_nat (length_ s) + step_cost i)%nat
  | _ => True
  end.

Lemma read_on_cheaper w s i x :
  read_on w s x -> (forall n, w = ToMore n -> n = length_ s \/ (1 < step_cost i)%nat) -> cheaper s i x.
Proof.
  intros H Hw. destruct x as [s' l| |]; [|done..]. cbn in *. assert (1 <= step_cost i)%nat by (destruct i; cbn; lia).
  destruct H as [[-> [->|(n & -> & Hn & ->)]]|[H1 H2]]; cbn; [lia| |lia]. destruct (Hw n eq_refl); [done|lia].
Qed.

Lemma checkError_length er (s : state) : length_ (checkError er s) = length_ s.
Proof. by destruct (checkError_cases er s) as [->|(e & _ & _ & ->)]. Qed.

Lemma run_instr_cheaper s i k : inv s (i :: k) -> cheaper s i (run_instr o i s).
Proof.
  intros [I _ _]. destruct (b_content _ _ I) as [l C]. pose proof (b_fine _ _ I) as Hf. apply Forall_inv in Hf.
  destruct i; cbn [run_instr].
  all: unfold emitReadable_, emittedReadable_, afterReadable, resumeEmit, emit, pushReturns, endDestroy, callFn, destroyed_, emitErrorNT,
    emitCloseNT, flow, maybeReadMore_, resumeEnd.
  all: try (repeat case_match; try done; cbn; lia).
  - apply (read_on_cheaper w); [|intros; right; cbn; lia]. destruct Hf as (Hn & _). unfold readAfter. set (s1 := set_sync false s).
    assert (content s1 l) as C1 by (by apply (content_alike s)). destruct (reading s1); [by apply (readTake_on _ _ _ s1 _ l); [|cbn; lia|]|].
    destruct (howMuch_fits s1 l nOrig C1) as (m & -> & [Hm _] & _). by apply (readTake_on _ _ _ s1 _ l); [|lia|].
  - unfold readReturn. repeat case_match; simplify_eq; cbn; lia.
  - destruct (is_flowing s); [|cbn; lia]. apply (read_on_cheaper ToFlow); [by eapply read_go_on|done].
  - destruct (_ && _); [|cbn; lia]. apply (read_on_cheaper (ToMore (length_ s))); [by eapply read_go_on|]. intros n [= <-]. by left.
  - destruct (_ && _); [|cbn; lia]. apply (read_on_cheaper ToNobody); [by eapply read_go_on|done].
  - unfold maybeReadMore. destruct (readingMore s); cbn; lia.
  - unfold destroy. destruct (destroyed s); [destruct c; cbn; lia|done].
  - unfold errorOrDestroy. destruct (destroyed s), (autoDestroy o); cbn [cheaper]; rewrite ?checkError_length; cbn; lia.
Qed.

(** In every run in which [read] is not called while a call of [_read] is on
    the stack, and in which the buffer stays under 2^32 bytes: what a
    readable stream does for a call or a tick ends: it returns to the program,
    or calls it, after finitely many steps of its own, and the run goes on
    from there. *)
Theorem readable_returns hwm s k :
  reachable o hwm s (Stream k) -> exists n s', run n (s, Stream k) = (s', Program) /\ reachable o hwm s' Program.
Proof.
  remember (bound_of s k) as m eqn:Em. revert s k Em. induction (lt_wf m) as [m _ IH]. intros s k -> R.
  destruct (advance o s k) as [s' [k'|]] eqn:E.
  - assert (reachable o hwm s' (Stream k')) as R' by (by eapply reachable_stream).
    destruct (IH (bound_of s' k')) with s' k' as (n & t & Ef & Rt); [|done|done|by exists (S n), t; cbn [run]; rewrite E].
    destruct k as [|i k]; [done|]. pose proof (run_instr_cheaper s i k (read_inv_reachable o _ _ _ R)) as C. cbn [advance] in E.
    destruct (run_instr o i s) as [t l|t c l|t er]; cbn [settle] in E; simplify_eq. cbn [cheaper] in C. unfold bound_of.
    rewrite steps_cost_app. change (steps_cost (i :: k)) with (step_cost i + steps_cost k)%nat. lia.
  - exists 1%nat, s'. cbn [run]. rewrite E. split; [done|]. by eapply reachable_stream.
Qed.

(** ** Scripts *)

(** The program follows a list of actions; [strict] asks for what [no_nested_read]
    does. *)
Fixpoint play (strict : bool) (fuel : nat) (l : list action) (s : state) : option state :=
  match l with
  | [] => Some s
  | a :: l =>
      if strict && negb (no_nested_read o a s) then None
      else match perform o a s with
           | Some p => match run fuel p with (s', Program) => play strict fuel l s' | _ => None end
           | None => None
           end
  end.

Lemma run_reachable hwm n s m s' m' : reachable o hwm s m -> run n (s, m) = (s', m') -> reachable o hwm s' m'.
Proof.
  revert s m. induction n as [|n IH]; intros s m R E; cbn [run] in E; [by simplify_eq|].
  destruct m as [k|]; [|by simplify_eq]. destruct (advance o s k) as [t m] eqn:Ea. apply (IH t m); [|done]. by eapply reachable_stream.
Qed.

Lemma script_reachable hwm fuel l s s' :
  reachable o hwm s Program -> play true fuel l s = Some s' -> reachable o hwm s' Program.
Proof.
  revert s. induction l as [|a l IH]; intros s R E; cbn [play] in E; [by simplify_eq|].
  destruct (no_nested_read o a s) eqn:Al; cbn [andb negb] in E; [|done]. destruct (perform o a s) as [[t m]|] eqn:Ep; [|done].
  destruct (run fuel (t, m)) as [u [|]] eqn:Ef; [done|]. apply (IH u); [|done]. eapply run_reachable; [|done]. by eapply reachable_program.
Qed.

End Runs.

(** ** The high water mark *)

(** Bit [i] of [y] is set when one of the bits from [i] to [i + m - 1] of [x] is. *)
Definition smeared (x m y : Z) : Prop :=
  0 <= y < 2 ^ 31 /\ forall i, 0 <= i -> Z.testbit y i = true <-> exists j, 0 <= j < m /\ Z.testbit x (i + j) = true.

Lemma lor_bound a b n : 0 <= n -> 0 <= a < 2 ^ n -> 0 <= b < 2 ^ n -> 0 <= Z.lor a b < 2 ^ n.
Proof.
  intros Hn Ha Hb. split; [apply Z.lor_nonneg; lia|]. destruct (Z.eq_dec (Z.lor a b) 0) as [->|E]; [lia|].
  assert (0 <= Z.lor a b) by (apply Z.lor_nonneg; lia). apply Z.log2_lt_pow2; [lia|]. rewrite Z.log2_lor by lia.
  destruct (Z.eq_dec n 0) as [->|]; [assert (a = 0) as -> by lia; assert (b = 0) as -> by lia; done|].
  apply Z.max_lub_lt; [destruct (Z.eq_dec a 0) as [->|]|destruct (Z.eq_dec b 0) as [->|]]; try (cbn; lia); apply Z.log2_lt_pow2; lia.
Qed.

Lemma smear x m y : 0 < m -> smeared x m y -> smeared x (m + m) (bitor y (ushr y m)).
Proof.
  intros Hm [Hy Hb]. assert (Hs : 0 <= Z.shiftr y m <= y).
  { rewrite Z.shiftr_div_pow2 by lia. split; [apply Z.div_pos; lia|]. apply Z.div_le_upper_bound; [lia|].
    pose proof (Z.pow_pos_nonneg 2 m). nia. }
  unfold bitor, ushr. rewrite to_uint32_small by lia. rewrite !to_int32_small by lia. split; [apply lor_bound; lia|]. intros i Hi.
  rewrite Z.lor_spec, orb_true_iff, Z.shiftr_spec, !Hb by lia. split.
  - intros [(j & Hj & E)|(j & Hj & E)]; [exists j; split; [lia|done]|exists (m + j)]. split; [lia|]. by replace (i + (m + j)) with (i + m + j) by lia.
  - intros (j & Hj & E). destruct (Z.lt_ge_cases j m); [left; exists j; split; [lia|done]|right; exists (j - m)].
    split; [lia|]. by replace (i + m + (j - m)) with (i + j) by lia.
Qed.

Lemma smeared_all x y : 0 <= x < 2 ^ 31 -> smeared x 32 y -> y = Z.pred (2 ^ Z.log2_up (x + 1)).
Proof.
  intros Hx [Hy Hb]. rewrite <- Z.ones_equiv. apply Z.bits_inj'. intros i Hi. rewrite Z.testbit_ones_nonneg by (try apply Z.log2_up_nonneg; done).
  apply eq_true_iff_eq. rewrite Hb, Z.ltb_lt by done. destruct (Z.eq_dec x 0) as [->|Hx0].
  { change (Z.log2_up (0 + 1)) with 0. split; [|intros; lia]. intros (j & _ & E). by rewrite Z.bits_0 in E. }
  assert (Z.log2_up (x + 1) = Z.succ (Z.log2 x)) as ->.
  { unfold Z.log2_up. destruct (Z.compare_spec 1 (x + 1)); try lia. do 2 f_equal. lia. }
  assert (Z.log2 x < 31) by (apply Z.log2_lt_pow2; lia). split.
  - intros (j & Hj & E). destruct (Z.lt_ge_cases (Z.log2 x) (i + j)); [|lia]. rewrite Z.bits_above_log2 in E by lia. done.
  - intros H'. exists (Z.log2 x - i). split; [lia|]. replace (i + (Z.log2 x - i)) with (Z.log2 x) by lia. apply Z.bit_log2. lia.
Qed.

(** [read(n)] with [n] over the high water mark raises it to the least power
    of two that is [n] or more; over 1 GiB it throws. *)
Theorem new_high_water_mark n :
  0 < n -> computeNewHighWaterMark n
  = if 2 ^ 30 <? n then Throw (ERR_OUT_OF_RANGE "size") else Ok (2 ^ Z.log2_up n).
Proof.
  intros Hn. unfold computeNewHighWaterMark, MAX_HWM. change (2 ^ 30) with 1073741824. destruct (Z.ltb_spec 1073741824 n); [done|]. f_equal.
  assert (smeared (n - 1) 1 (n - 1)) as H0.
  { split; [lia|]. intros i Hi. split; [intros E; exists 0; rewrite Z.add_0_r; split; [lia|done]|].
    intros (j & Hj & E). by replace j with 0 in E by lia; rewrite Z.add_0_r in E. }
  pose proof (smear _ 1 _ ltac:(lia) H0) as H1. pose proof (smear _ 2 _ ltac:(lia) H1) as H2. pose proof (smear _ 4 _ ltac:(lia) H2) as H3.
  pose proof (smear _ 8 _ ltac:(lia) H3) as H4. pose proof (smear _ 16 _ ltac:(lia) H4) as H5.
  apply (smeared_all (n - 1)) in H5; [|lia]. replace (n - 1 + 1) with n in H5 by lia. rewrite H5. lia.
Qed.

Lemma new_high_water_mark_witness : 0 < 5000 /\ computeNewHighWaterMark 5000 = Ok 8192.
Proof. split; [lia|]. exact (new_high_water_mark 5000 ltac:(lia)). Defined.

(** ** Runs of concrete streams *)

Module DemoRead.
#[local] Existing Instance web_text.

(** Fresh memory holds [170]. *)
Definition fresh_memory (n : nat) : list Z := repeat 170 n.
#[export] Instance list_of_buffers : ChunkList BufferList := buffer_list fresh_memory.
#[export] Instance list_of_buffers_ok : ChunkListOk BufferList := buffer_list_ok fresh_memory (repeat_length 170).

Definition opts : options := Options true true (js "utf8").
Definition push (l : list Z) : action := APush (VBuffer l) JUndefined.
Definition eof : action := APush VNull JUndefined.
Definition start : ReadableState.state (B := BufferList) := ReadableState 4.

Definition script (strict : bool) (l : list action) : ReadableState.state (B := BufferList) := default start (play opts strict 100 l start).
Definition allowed_script (l : list action) : bool := match play opts true 100 l start with Some _ => true | None => false end.

Lemma script_runs l : allowed_script l = true -> reachable opts 4 (script true l) Program.
Proof.
  unfold allowed_script, script. destruct (play opts true 100 l start) as [s|] eqn:E; [|done]. intros _.
  eapply script_reachable; [|exact E]. apply reachable_new.
Qed.

(** A stream that flows: the source pushes twice within [_read], and then once
    later, which is emitted at once. *)
Definition flowing_ : list action :=
  [AOnData; ATick; push [1; 2; 3]; AReturn; AReturn; push [4]; AReturn; AReturn; AReturn; AReturn; ATick; ATick; ATick;
   push [5]; AReturn; ATick; AReturn].

(** And it ends: 'readable', 'end', [_destroy] and 'close'. *)
Definition ended_ : list action := flowing_ ++ [eof; AReturn; ATick; AReturn; AOnDestroy None; AReturn; ATick; AReturn].

Example flowing_log :
  log (script true flowing_)
  = [PushReturned true; Emit "resume"; PushReturned false; Data [1; 2; 3]; Data [4]; Data [5]; PushReturned true].
Proof. vm_compute. reflexivity. Qed.

Example ended_readable_log :
  drop 7 (log (script true ended_)) = [Emit "readable"; PushReturned false; Emit "end"; Emit "close"].
Proof. vm_compute. reflexivity. Qed.

(** [read(4)] of five bytes, and of the rest after the end. *)
Definition paused_ : list action :=
  [push [1; 2; 3]; push [4; 5]; eof; ARead (Some 4); AReturn; ARead (Some 4); AReturn].

Example paused_log :
  drop 3 (log (script true paused_))
  = [Data [1; 2; 3; 4]; ReadReturned (Some 4) (Some [1; 2; 3; 4]); Data [5]; ReadReturned (Some 4) (Some [5])].
Proof. vm_compute. reflexivity. Qed.

(** *** What streams do not cope with *)

(** A source that reads and puts back within [_read]: the length of the buffer
    gets negative. *)
Example negative_length :
  length_ (script false [push [1; 2]; ARead None; ARead None; AReturn; AUnshift (VBuffer [3]) JUndefined; AReturn; AReturn]) = -1.
Proof. vm_compute. reflexivity. Qed.

(** A source that pushes an empty chunk within [_read] is not asked again. *)
Example empty_chunk_stalls :
  let s := script true [AOnData; ATick; push []; AReturn; AReturn; push []; AReturn; push []; AReturn; ATick; push []; AReturn] in
  flowing s = Some true /\ ticks s = [] /\ konts s = [] /\ ended s = false /\ reading s = false.
Proof. vm_compute. split_and!; reflexivity. Qed.

(** A chunk put back between the end of the source and 'end' can stay in the
    buffer for ever, and then there is no 'end'. *)
Example put_back_stalls :
  let s := script true ([push [1]; eof; AOnData; ATick; ATick; AReturn; AReturn; ATick; AReturn; AUnshift (VBuffer [2]) JUndefined]
                        ++ repeat ATick 6) in
  flowing s = Some true /\ ticks s = [] /\ konts s = [] /\ ended s = true /\ endEmitted s = false /\ length_ s = 1.
Proof. vm_compute. split_and!; reflexivity. Qed.
End DemoRead.

(** ** Witnesses *)

Section Witnesses.
Import DemoRead.
#[local] Existing Instance web_text.

Lemma bytes_in_order_witness :
  let s := script true flowing_ in
  bytes_of (data_of (log s)) = [1; 2; 3; 4; 5] /\ pushed (history s) = [1; 2; 3; 4; 5].
Proof.
  cbv zeta. assert (bytes_of (data_of (log (script true flowing_))) = [1; 2; 3; 4; 5]) as E by (vm_compute; reflexivity). split; [exact E|].
  destruct (bytes_in_order opts 4 (script true flowing_) Program) as (rest & _ & Hl & _ & H).
  - apply script_runs. vm_compute. reflexivity.
  - destruct H as [_ H]; [vm_compute; reflexivity|vm_compute; reflexivity|]. rewrite H by (vm_compute; repeat constructor). rewrite E.
    assert (len rest = 0) as ->%len_0_nil by (rewrite <- Hl; vm_compute; reflexivity). reflexivity.
Defined.

Lemma nothing_after_the_end_witness :
  let s := script true ended_ in endEmitted s = true /\ ended s = true /\ length_ s = 0.
Proof.
  cbv zeta. destruct (nothing_after_the_end opts 4 (script true ended_) Program) as [_ H].
  - apply script_runs. vm_compute. reflexivity.
  - assert (endEmitted (script true ended_) = true) as E by (vm_compute; reflexivity). split; [exact E|]. exact (H E).
Defined.



Lemma readable_returns_witness :
  exists n s', run opts n (set_konts [] (script true (take 3 flowing_)), Stream [ReadAfter (Some 0) 0 ToNobody; ResumeEmit]) = (s', Program).
Proof.
  destruct (readable_returns opts 4 (set_konts [] (script true (take 3 flowing_))) [ReadAfter (Some 0) 0 ToNobody; ResumeEmit])
    as (n & s' & E & _).
  - eapply (reachable_program _ _ (script true (take 3 flowing_)) AReturn);
      [apply script_runs; vm_compute; reflexivity|vm_compute; reflexivity|vm_compute; reflexivity].
  - exists n, s'. exact E.
Defined.
End Witnesses.
